(* ===== verification/_CoqProject ===== *)
-Q . S2P
Prelude.v
Bytes.v
Words.v
Montgomery.v
MontgomeryFacts.v
FieldAlgos.v
MontBytes.v
NumberTheory.v
Fields.v
CurveOrder.v
Sqrt.v
Felt.v
FeltHex.v
Poseidon.v
Curve.v
CurveFacts.v
Pedersen.v
Ecdsa.v
MerkleNode.v
Tree.v
TrieSpec.v
TreeHash.v
TreeRep.v
TreeOps.v
TreeMap.v
TreeCommit.v
TreeProof.v
TreeDfs.v
TrieStore.v
TrieInsert.v
TrieChain.v
RootTables.v
TriePrune.v
Forest.v
Bincode.v
TransactionTree.v
Hashing.v
Commitments.v
BlockVerify.v
CommitmentFacts.v
VerifyFacts.v
Transactions.v
StateUpdate.v
StateDiff.v
World.v
StateTables.v
StateLogs.v
StateReverse.v
StarknetState.v
StateTries.v
HashRows.v
StateInv.v
StateApply.v
StateBlock.v
StateCommit.v
StateStep.v
StateRevert.v
StateReorg.v
StateChain.v
StateMerge.v
StateRoundTrip.v
Bloom.v
EventStore.v
EventFacts.v
EventInv.v
EventLoad.v
EventPage.v
FieldTheorems.v
CurveTheorems.v
TreeTheorems.v
StoreTheorems.v
CommitmentTheorems.v
TransactionFacts.v
StateTheorems.v
EventTheorems.v
TransactionStore.v
TransactionStoreFacts.v
GasPrice.v
L2GasPrice.v
Proposal.v
