(* ===== verification/Prelude.v ===== *)
(** * Pathfinder: cryptography, state, transactions, events and blocks

    Pathfinder is a Starknet full node.  It receives blocks, verifies them, keeps
    the state they lead to in Merkle-Patricia tries and in SQLite tables, and
    answers queries from there.  The development models the parts this rests on,
    one above the other:

    - crates/crypto: the prime fields, the Stark curve, the Poseidon and Pedersen
      hashes and ECDSA;
    - crates/merkle-tree: the Merkle-Patricia tree over these hashes, and the
      trees of storage, contracts, classes, transactions and events;
    - crates/storage: the tables of trie nodes and roots, of the state, of
      transactions and receipts, and of events with their bloom filters;
    - crates/pathfinder (state/sync.rs, state/sync/revert.rs,
      sync/state_updates.rs, consensus/proposal_validator.rs): the commit of a
      block, the return to an earlier one, merged state updates and the order of
      the parts of a proposal;
    - crates/block-commitments and crates/common: the commitments and the hash of
      a block, the check of a block received from the gateway, state updates with
      their commitment, transactions with their hashes;
    - crates/gas-price: the checks of the prices in a proposed block.

    ** Conventions

    A [u64], [u128] or limb is a [Z] kept in its range, with wrap-around written
    out; a byte array is a list of [Z] below 256; a [Felt] is its 32 big-endian
    bytes and a [MontFelt] its four limbs.  A function that can panic returns an
    [outcome], one that returns a [Result] in Rust a [result]; both have a bind
    notation.  The graph of [Rc<RefCell<_>>] nodes of a tree is a memory of cells
    (Tree.v), so that a mutation is seen through every pointer.  A SQLite table is
    a finite map where its key is unique and a list of rows where it is not.

    ** Files

    Prelude and generic data: this file, Bytes (digit strings, bits), Words
    (carries and four-limb integers).

    Fields: Montgomery (the arithmetic of montfelt/ and curveorder/ over any
    modulus, class [MontField]), MontgomeryFacts, FieldAlgos (CIOS multiplication,
    powers, inversion), MontBytes, NumberTheory (both moduli are prime), Fields
    (the two instances), CurveOrder, Sqrt, Felt, FeltHex.

    Hashes and curve: Poseidon, Curve, CurveFacts (with scalar multiplication),
    Pedersen, Ecdsa.

    The tree: MerkleNode (merkle_node.rs), Tree (tree.rs: [set], [delete_leaf],
    [get], [traverse], [resolve]), TrieSpec (Patricia tries as an inductive type),
    TreeHash (the recursive Starknet commitment [spec_root] and the class
    [FeltHash]), TreeRep (the representation predicate), TreeOps, TreeMap (the tree
    as a finite map), TreeCommit ([commit]), TreeProof ([get_proofs] and the check
    of a proof), TreeDfs ([dfs] and storage with missing nodes), TransactionTree
    (transaction.rs).

    The tables of tries: TrieStore ([insert_trie], [remove_trie], [prune_trie],
    [coalesce_removed_trie_nodes], the node encoding), TrieInsert, TrieChain
    (versions of a trie), RootTables (the root of a trie and the state hash of a
    contract at a block, [purge_block]), TriePrune (blocks and reverts as a state
    machine with its invariant), Forest (the storage tries of all contracts in one
    table), Bincode (a concrete encoding that satisfies what is assumed of the
    libraries).

    Blocks: Hashing (words written to the Poseidon hasher, [StarknetVersion], state
    commitments), Commitments (transaction, event and receipt commitments, the four
    block hash algorithms), BlockVerify ([verify_block_hash] and
    [verify_gateway_block_commitments_and_hash]), CommitmentFacts, VerifyFacts.

    Transactions: Transactions (common/src/transaction.rs: every variant, its
    current and older hashes, [verify_hash], contract addresses), TransactionFacts
    (what is hashed, as a list of items that the hash is proved to be over),
    TransactionStore (storage/src/connection/transaction.rs: the stored formats of
    all versions with their conversions, the insertion and every query),
    TransactionStoreFacts.

    State: StateUpdate (common/src/state_update.rs, merging, the commitment of a
    diff), StateDiff and StateMerge (facts on both), World (the abstract state and
    its commitments), StateTables (storage/src/connection/state_update.rs),
    StateLogs and StateReverse (tables as logs, reverse updates), StateRoundTrip
    (an update read back), StarknetState ([update_starknet_state],
    [revert_starknet_state], [l2_update] and [reorg_state]), StateTries, HashRows,
    StateInv (the invariant of the database), StateApply, StateBlock, StateCommit
    and StateStep (a block keeps it), StateRevert and StateReorg (a reorg keeps
    it), StateChain (the database as a state machine that refines the chain of
    state updates).

    Events: Bloom (storage/src/bloom.rs), EventStore (connection/event.rs with the
    running filter, the cache and the pages), EventFacts, EventInv (the invariant
    under blocks, reorgs, restarts and queries), EventLoad, EventPage.

    Prices and proposals: GasPrice (the buffer of L1 prices, the comparison in
    double precision), L2GasPrice, Proposal.

    The properties are in FieldTheorems, CurveTheorems, TreeTheorems,
    StoreTheorems, CommitmentTheorems, StateTheorems, EventTheorems,
    TransactionFacts, TransactionStoreFacts, GasPrice, L2GasPrice and Proposal.

    ** What the theorems show

    Fields: every routine of the Montgomery arithmetic is exact modulo the prime
    and returns the canonical representative, the three multiplications agree,
    inversion and square root end and are complete, and felts, bytes, bits, hex
    strings and integers convert back and forth without loss exactly where they
    fit.

    Curve and hashes: the projective, mixed and affine formulas compute the chord
    and tangent law in all cases, multiplication by any route agrees, Poseidon
    refines its round specification, the incremental hasher equals the one-shot
    hash, the Pedersen hash never panics.  ECDSA verification accepts exactly if
    one of two abscissas is [r]: those of the textbook condition where the points
    are finite; what the code reads where a sum is infinity is stated too.  The
    inputs on which it panics or refuses a valid key are characterised.

    Tree: set, delete and get refine a finite map whatever the tree was loaded
    from; commit computes [spec_root] of that map and accounts for every stored
    node as kept, added or removed; the root depends on the map only and binds it;
    proofs are complete; an accepted proof tells the truth, or a hash collision is
    exhibited, or the proof does not cover the key, which the check does not see; a
    visit reaches every leaf once in order; over incomplete storage every operation
    gives the right answer or reports what is missing.

    Tables of tries: nodes survive their encoding; removals are exact; root tables
    answer for the right block.  For one trie, TriePrune has an abstract machine
    over the operations of the tables, with the maps of the blocks as ghost state:
    every reachable chain of blocks and reverts, with or without pruning, can be
    extended, and the trie of every kept block is read back with its commitment.
    Reverts have at least one update there, or nothing is pruned, or the root at
    the target is that of the last block ([revert_safe]); without this condition,
    which the code does not check, nodes are lost, and that is proved in general.

    State: a database that is reached from the empty one by blocks and reorgs which
    meet [block_ok] and [reorg_ok] (StateChain) implements its chain of state
    updates: headers carry the commitments of the abstract states, queries answer
    for every block, and tries are those of the states.  Blocks and reorgs that
    meet these conditions succeed.  [block_ok] asks that the update follows the
    state ([update_ok]), that a compiled class which a reorg left behind for the
    number of the block does not contradict the new state, and that indices are
    left.  [reorg_ok] asks that the tries of the target are kept; that nothing is
    pruned, or the target is not before that of an earlier reorg, or the tries that
    did not change have the same root; that no system contract which changed had
    storage with a zero root; that compiled classes which changed have up to the
    target no rows but that of the target; and that indices are left.  The code
    checks none of this.  Compiled classes of blocks that a reorg removed stay in
    their table, so the query of compiled classes is exact only until then; those
    of a state are always found by number and hash.  The update of a block is read back as it was stored; merged
    updates stand for the updates in sequence but for migrated classes; the
    queries of a pending update are those of the state after it; the commitment of
    a diff determines what it commits to, and is determined by it.

    Transactions: the hash of a transaction is always defined and determines
    everything that is hashed, the chain and the query bit; verification accepts
    exactly the current and the older hashes; a hash for a simulation is refused;
    contract addresses are in range.  The data of a block is read back by every
    query, events may be stored later than the block, and the total gas of receipts
    in the third stored format is lost.

    Events: in every reachable store the filters report each block that has a
    matching event; in archive mode, following the continuation tokens of a query
    ends and gives all matching events once and in order, if the sums of block
    numbers and page sizes fit 64 bits, the overflow of which panics.  With a stale
    running filter events are missing, which is proved for all stores that have
    one; with pruning queries go wrong, which is proved on runs of the model.

    Blocks: commitments are the roots of tries over indices; the hash of a block
    is defined for all valid headers and determines all hashed fields; the check
    of a gateway block succeeds on all valid data and reports a match under exactly
    the stated condition.

    Prices and proposals: the buffer of prices is a linked chain, averages and
    the next L2 price stay within their bounds and do not overflow, and the
    accepted sequences of proposal parts are characterised.

    ** Code outside the repository

    Such code is an argument: the class [Libraries] holds the encodings of bincode
    and bitvec and SQLite's choice of a row index, with the laws [LibraryLaws] the
    trie tables rely on ([bincode_laws] shows they can hold); the record [Codec]
    holds bincode and zstd for transactions, with [CodecLaws]; SipHash, zstd of the
    bitmaps and the cache with its eviction are arguments of the events
    ([libraries_ok]); the order in which a [HashMap] is iterated is [HashOrder],
    any permutation; the row SQLite picks among rows that tie is an argument;
    Keccak is a function to 32 bytes; the price oracle is a function; the
    precomputed tables of the Pedersen hash and of the generator are lists of
    points, of which their length and that the points lie on the curve is used.

    ** Bounds and fuel

    The loops of the fields (inversion, square root, exponentiation) have a
    constant number of rounds that is proved to be enough.  A traversal of a tree
    ends by its height, which is at most 251 (64 for transactions).  Depth-first
    visits and the collection of nodes in [insert_trie] take a fuel argument, and
    the theorems hold for every fuel from some bound on.  Block numbers, counts and
    prices are bounded by the width of their type.

    ** Not modelled

    Networking (p2p, gateway client), the RPC server, the consensus engine, the
    execution of transactions by blockifier, compilers and the L1 client only
    drive external libraries.  Class hashes are computed over JSON text by external
    serialisation, and class definitions are stored as opaque blobs.  The SQL of
    the other tables (headers, signatures, L1 state) stores single values.  Printing
    for debugging and decimal conversions through num-bigint are left out. *)

From Stdlib Require Import ZArith Lia List Bool.
Import ListNotations.
Local Open Scope Z_scope.

#[global] Arguments Z.add : simpl never.
#[global] Arguments Z.sub : simpl never.
#[global] Arguments Z.mul : simpl never.
#[global] Arguments Z.div : simpl never.
#[global] Arguments Z.modulo : simpl never.
#[global] Arguments Z.pow : simpl never.
#[global] Arguments Z.land : simpl never.
#[global] Arguments Z.lor : simpl never.
#[global] Arguments Z.shiftl : simpl never.
#[global] Arguments Z.shiftr : simpl never.

(** ** Outcomes of Rust code

    A fallible Rust function returns [Result<T, E>]; any function may also
    panic ([unwrap], an out-of-range index, [unreachable!]).  [result] is the
    former, [outcome] the latter. *)

Inductive result (E A : Type) : Type :=
| Ok (a : A)
| Err (e : E).
Arguments Ok {E A} a.
Arguments Err {E A} e.

Inductive outcome (A : Type) : Type :=
| Ret (a : A)
| Panic.
Arguments Ret {A} a.
Arguments Panic {A}.

Definition bind_result {E A B} (x : result E A) (k : A -> result E B) : result E B :=
  match x with
  | Ok a => k a
  | Err e => Err e
  end.

Definition bind_outcome {A B} (x : outcome A) (k : A -> outcome B) : outcome B :=
  match x with
  | Ret a => k a
  | Panic => Panic
  end.

Lemma bind_ret {A B} (a : A) (f : A -> outcome B) : bind_outcome (Ret a) f = f a.
Proof. reflexivity. Qed.

Definition map_err {E E' A} (f : E -> E') (x : result E A) : result E' A :=
  match x with
  | Ok a => Ok a
  | Err e => Err (f e)
  end.

(** [Result::unwrap] and [Option::unwrap]. *)
Definition unwrap_result {E A} (x : result E A) : outcome A :=
  match x with
  | Ok a => Ret a
  | Err _ => Panic
  end.

Definition unwrap_option {A} (x : option A) : outcome A :=
  match x with
  | Some a => Ret a
  | None => Panic
  end.

Declare Scope rust_scope.
Delimit Scope rust_scope with rust.

Notation "'let?' x ':=' e 'in' k" := (bind_result e (fun x => k))
  (at level 10, x name, e at level 100, k at level 200) : rust_scope.
Notation "'let!' x ':=' e 'in' k" := (bind_outcome e (fun x => k))
  (at level 10, x name, e at level 100, k at level 200) : rust_scope.
Open Scope rust_scope.

(** ** Machine words

    A [u64] is a [Z] in [0, 2^64); the wrap-around of an operation is written
    at the operation. *)

Abbreviation W64 := 18446744073709551616.
Abbreviation W128 := 340282366920938463463374607431768211456.
Abbreviation W192 := 6277101735386680763835789423207666416102355444464034512896.
Abbreviation W256 := 115792089237316195423570985008687907853269984665640564039457584007913129639936.

Definition u64_ok (a : Z) : Prop := 0 <= a < W64.

Definition as_u64 (a : Z) : Z := a mod W64.
Definition as_u128 (a : Z) : Z := a mod W128.

Definition overflowing_add (a b : Z) : Z * bool := (as_u64 (a + b), W64 <=? a + b).
Definition overflowing_sub (a b : Z) : Z * bool := (as_u64 (a - b), a <? b).
Definition wrapping_mul (a b : Z) : Z := as_u64 (a * b).

(** [a >> n] and [a << n] on [u64], for a shift amount below 64. *)
Definition shr64 (a n : Z) : Z := Z.shiftr a n.
Definition shl64 (a n : Z) : Z := as_u64 (Z.shiftl a n).

Lemma as_u64_ok a : u64_ok (as_u64 a).
Proof. apply Z.mod_pos_bound; lia. Qed.

Lemma as_u64_id a : u64_ok a -> as_u64 a = a.
Proof. intros; now apply Z.mod_small. Qed.

Lemma as_u128_id a : 0 <= a < W128 -> as_u128 a = a.
Proof. intros; now apply Z.mod_small. Qed.

(** Or-ing a number into the zero bits below a shifted one adds it. *)
Lemma lor_shiftl_add a b n :
  0 <= n -> 0 <= a < 2 ^ n -> Z.lor a (Z.shiftl b n) = a + b * 2 ^ n.
Proof.
  intros Hn Ha. rewrite <- Z.shiftl_mul_pow2, <- Z.add_lor_land by assumption.
  enough (Z.land a (Z.shiftl b n) = 0) by lia.
  rewrite <- (Z.mod_small a (2 ^ n) Ha), <- Z.land_ones by assumption.
  apply Z.bits_inj'. intros i Hi.
  rewrite !Z.land_spec, Z.bits_0, Z.shiftl_spec by assumption.
  destruct (Z.lt_ge_cases i n).
  - rewrite (Z.testbit_neg_r b) by lia. now rewrite !andb_false_r.
  - rewrite Z.ones_spec_high by lia. now rewrite andb_false_r.
Qed.

Create HintDb words.
#[export] Hint Resolve as_u64_ok : words.

(** ** Lists *)

Lemma firstn_S_nth {A} (d : A) l k :
  (k < length l)%nat -> firstn (S k) l = firstn k l ++ [nth k l d].
Proof.
  revert k. induction l as [|x l IH]; intros [|k] H; cbn [length] in H; try lia; [reflexivity|].
  cbn [firstn nth app]. now rewrite <- IH by lia.
Qed.

Lemma skipn_nth {A} (d : A) l k :
  (k < length l)%nat -> skipn k l = nth k l d :: skipn (S k) l.
Proof.
  revert k. induction l as [|x l IH]; intros [|k] H; cbn [length] in H; try lia; [reflexivity|].
  cbn [skipn nth]. now rewrite IH by lia.
Qed.

Lemma firstn_repeat_le {A} (x : A) n m : (n <= m)%nat -> firstn n (repeat x m) = repeat x n.
Proof.
  revert m. induction n as [|n IH]; intros [|m] H; try lia; [reflexivity..|].
  cbn [repeat firstn]. now rewrite IH by lia.
Qed.

Lemma skipn_repeat_app {A} (x : A) n k l : (n <= k)%nat ->
  skipn n (repeat x k ++ l) = repeat x (k - n) ++ l.
Proof.
  revert k. induction n as [|n IH]; intros [|k] H; try lia; [reflexivity..|].
  cbn [repeat app skipn Nat.sub]. apply IH. lia.
Qed.

Lemma fold_left_ext {A B} (f g : A -> B -> A) l a :
  (forall a b, f a b = g a b) -> fold_left f l a = fold_left g l a.
Proof. intros H. revert a. induction l as [|b l IH]; intros a; cbn; [reflexivity|]. now rewrite H, IH. Qed.

(** ** Tactics *)

(** Split every conjunction of the context and of the goal. *)
Ltac split_and :=
  repeat match goal with
    | H : _ /\ _ |- _ => destruct H
    | |- _ /\ _ => split
    end.

(** Case analysis on the scrutinee of an [if] of the goal or of a
    hypothesis, with integer comparisons reflected. *)
Ltac case_if :=
  match goal with
  | |- context [if ?b then _ else _] =>
      match type of b with bool => let E := fresh "E" in destruct b eqn:E end
  | H : context [if ?b then _ else _] |- _ =>
      match type of b with bool => let E := fresh "E" in destruct b eqn:E end
  end.

Ltac zbool :=
  repeat match goal with
    | H : (_ =? _) = true |- _ => apply Z.eqb_eq in H
    | H : (_ =? _) = false |- _ => apply Z.eqb_neq in H
    | H : (_ <? _) = true |- _ => apply Z.ltb_lt in H
    | H : (_ <? _) = false |- _ => apply Z.ltb_ge in H
    | H : (_ <=? _) = true |- _ => apply Z.leb_le in H
    | H : (_ <=? _) = false |- _ => apply Z.leb_gt in H
    end.
