(* ===== verification/Bytes.v ===== *)
(** Byte arrays, bit slices and digit strings as the crates use them: the
    big-endian value of a digit list, its inverse, and the [Msb0] bit view of a
    byte array.  Bytes are [Z] in [0, 256), a [[u8; n]] is a list of length
    [n]. *)

From Stdlib Require Import ZArith Lia List Bool.
From S2P Require Import Prelude.
Import ListNotations.
Local Open Scope Z_scope.

(** ** Digit lists, most significant digit first *)

Definition digits_value (b : Z) (l : list Z) : Z :=
  fold_left (fun acc d => acc * b + d) l 0.

Fixpoint to_digits (b : Z) (n : nat) (v : Z) : list Z :=
  match n with
  | O => []
  | S n => to_digits b n (v / b) ++ [v mod b]
  end.

Definition digits_ok (b : Z) (l : list Z) : Prop := Forall (fun d => 0 <= d < b) l.

Lemma fold_digits b l acc :
  fold_left (fun acc d => acc * b + d) l acc = acc * b ^ Z.of_nat (length l) + digits_value b l.
Proof.
  unfold digits_value. revert acc. induction l as [|d l IH]; intros acc; cbn [fold_left length].
  - rewrite Z.pow_0_r. lia.
  - rewrite IH, (IH (0 * b + d)), Nat2Z.inj_succ, Z.pow_succ_r by lia. ring.
Qed.

Lemma digits_value_cons b d l :
  digits_value b (d :: l) = d * b ^ Z.of_nat (length l) + digits_value b l.
Proof. unfold digits_value at 1. cbn [fold_left]. rewrite fold_digits. f_equal; ring. Qed.

Lemma digits_value_app b l1 l2 :
  digits_value b (l1 ++ l2) = digits_value b l1 * b ^ Z.of_nat (length l2) + digits_value b l2.
Proof. unfold digits_value at 1. rewrite fold_left_app. apply fold_digits. Qed.

Lemma digits_value_zeros b n l :
  digits_value b (repeat 0 n ++ l) = digits_value b l.
Proof.
  induction n as [|n IH]; [reflexivity|]. cbn [repeat app]. rewrite digits_value_cons. lia.
Qed.

Lemma digits_value_bound b l : 0 < b -> digits_ok b l ->
  0 <= digits_value b l < b ^ Z.of_nat (length l).
Proof.
  intros Hb. induction 1 as [|d l Hd _ IH]; [cbn; lia|].
  rewrite digits_value_cons. cbn [length]. rewrite Nat2Z.inj_succ, Z.pow_succ_r by lia. nia.
Qed.

Lemma to_digits_length b n v : length (to_digits b n v) = n.
Proof.
  revert v. induction n as [|n IH]; intros v; cbn [to_digits]; [reflexivity|].
  rewrite length_app, IH. cbn. lia.
Qed.

Lemma to_digits_ok b n v : 0 < b -> digits_ok b (to_digits b n v).
Proof.
  intros Hb. revert v. induction n as [|n IH]; intros v; cbn [to_digits]; [constructor|].
  apply Forall_app. split; [apply IH|]. repeat constructor; apply Z.mod_pos_bound; lia.
Qed.

Lemma to_digits_value b n v : 0 < b -> 0 <= v < b ^ Z.of_nat n ->
  digits_value b (to_digits b n v) = v.
Proof.
  intros Hb. revert v. induction n as [|n IH]; intros v Hv; cbn [to_digits].
  - rewrite Z.pow_0_r in Hv. cbn. lia.
  - rewrite Nat2Z.inj_succ, Z.pow_succ_r in Hv by lia.
    rewrite digits_value_app, IH.
    + cbn [length]. rewrite Z.pow_1_r. unfold digits_value. cbn [fold_left].
      pose proof (Z.div_mod v b). lia.
    + split; [apply Z.div_pos; lia | apply Z.div_lt_upper_bound; lia].
Qed.

Lemma to_digits_of_value b l : 0 < b -> digits_ok b l ->
  to_digits b (length l) (digits_value b l) = l.
Proof.
  intros Hb. induction l as [|d l IH] using rev_ind; intros H; [reflexivity|].
  apply Forall_app in H as [Hl Hd]. inversion_clear Hd as [|? ? Hd' _].
  rewrite length_app, Nat.add_comm. cbn [length Nat.add to_digits].
  rewrite digits_value_app. cbn [length]. rewrite Z.pow_1_r.
  unfold digits_value at 2 4. cbn [fold_left].
  replace (digits_value b l * b + (0 * b + d)) with (d + digits_value b l * b) by ring.
  rewrite Z.div_add, Z.mod_add, Z.div_small, Z.mod_small, Z.add_0_l, IH by (assumption || lia).
  reflexivity.
Qed.

Lemma digits_value_inj b l1 l2 : 0 < b -> digits_ok b l1 -> digits_ok b l2 ->
  length l1 = length l2 -> digits_value b l1 = digits_value b l2 -> l1 = l2.
Proof.
  intros Hb H1 H2 HL HV.
  rewrite <- (to_digits_of_value b l1), <- (to_digits_of_value b l2) by assumption.
  now rewrite HL, HV.
Qed.

Lemma digits_ok_app b l1 l2 : digits_ok b (l1 ++ l2) <-> digits_ok b l1 /\ digits_ok b l2.
Proof. apply Forall_app. Qed.

Lemma digits_ok_firstn b n l : digits_ok b l -> digits_ok b (firstn n l).
Proof.
  intros H. rewrite <- (firstn_skipn n l) in H. now apply digits_ok_app in H as [H _].
Qed.

Lemma digits_ok_skipn b n l : digits_ok b l -> digits_ok b (skipn n l).
Proof.
  intros H. rewrite <- (firstn_skipn n l) in H. now apply digits_ok_app in H as [_ H].
Qed.

Lemma digits_ok_zeros b n : 0 < b -> digits_ok b (repeat 0 n).
Proof. intros Hb. apply Forall_forall. intros d Hd. apply repeat_spec in Hd. lia. Qed.

#[export] Hint Resolve digits_ok_firstn digits_ok_skipn digits_ok_zeros to_digits_ok : words.
#[export] Hint Extern 2 (0 < _) => lia : words.

(** ** Bytes *)

Abbreviation be_value := (digits_value 256).
Abbreviation bytes_ok := (digits_ok 256).

(** [uN::from_be_bytes] and [uN::to_be_bytes], [N = 8 n]. *)
Definition from_be (bytes : list Z) : Z := be_value bytes.
Definition to_be (n : nat) (v : Z) : list Z := to_digits 256 n v.

(** [bytes[i], ..., bytes[i + n - 1]] *)
Definition slice (i n : nat) (bytes : list Z) : list Z := firstn n (skipn i bytes).

Lemma slice_ok i n bytes : bytes_ok bytes -> bytes_ok (slice i n bytes).
Proof. unfold slice. auto with words. Qed.

Lemma slice_length i n (bytes : list Z) :
  (i + n <= length bytes)%nat -> length (slice i n bytes) = n.
Proof. intros H. unfold slice. rewrite length_firstn, length_skipn. lia. Qed.

Lemma slice_split i n (bytes : list Z) :
  skipn i bytes = slice i n bytes ++ skipn (i + n) bytes.
Proof.
  unfold slice. rewrite <- (firstn_skipn n (skipn i bytes)) at 1.
  now rewrite skipn_skipn, Nat.add_comm.
Qed.

#[export] Hint Resolve slice_ok : words.

(** ** The [Msb0] bit view *)

Definition byte_bits (b : Z) : list bool :=
  [Z.testbit b 7; Z.testbit b 6; Z.testbit b 5; Z.testbit b 4;
   Z.testbit b 3; Z.testbit b 2; Z.testbit b 1; Z.testbit b 0].

(** [bytes.view_bits::<Msb0>()] *)
Definition bits_of_bytes (bytes : list Z) : list bool := flat_map byte_bits bytes.

Definition bits_value (l : list bool) : Z := digits_value 2 (map Z.b2z l).

(** The array of [n] bytes with the given bit view. *)
Fixpoint bytes_of_bits (n : nat) (l : list bool) : list Z :=
  match n with
  | O => []
  | S n => bits_value (firstn 8 l) :: bytes_of_bits n (skipn 8 l)
  end.

Lemma bits_value_app l1 l2 :
  bits_value (l1 ++ l2) = bits_value l1 * 2 ^ Z.of_nat (length l2) + bits_value l2.
Proof. unfold bits_value. rewrite map_app, digits_value_app, length_map. reflexivity. Qed.

Lemma b2z_digits l : digits_ok 2 (map Z.b2z l).
Proof. induction l as [|[] l IH]; cbn [map]; constructor; (exact IH || cbn; lia). Qed.

Lemma bits_value_bound l : 0 <= bits_value l < 2 ^ Z.of_nat (length l).
Proof.
  unfold bits_value. pose proof (digits_value_bound 2 _ ltac:(lia) (b2z_digits l)) as H.
  now rewrite length_map in H.
Qed.

Lemma bits_value_inj l1 l2 : length l1 = length l2 -> bits_value l1 = bits_value l2 -> l1 = l2.
Proof.
  intros HL HV. apply digits_value_inj in HV;
    [| lia | apply b2z_digits | apply b2z_digits | now rewrite !length_map].
  revert l2 HL HV. induction l1 as [|a l1 IH]; intros [|b l2] HL HV; cbn [map] in *;
    try discriminate; [reflexivity|].
  injection HV as Hab HV. f_equal; [now apply Z.b2z_inj | apply IH; [cbn in HL; lia | exact HV]].
Qed.

Lemma bits_value_false n l : bits_value (repeat false n ++ l) = bits_value l.
Proof.
  unfold bits_value. rewrite map_app, map_repeat. apply digits_value_zeros.
Qed.

Lemma byte_bits_value b : 0 <= b < 256 -> bits_value (byte_bits b) = b.
Proof.
  intros Hb.
  assert (E : forall i, 0 <= i -> Z.b2z (Z.testbit b i) = (b / 2 ^ i) mod 2).
  { intros i Hi. rewrite Z.testbit_spec' by lia. reflexivity. }
  unfold bits_value, byte_bits, digits_value. cbn [map fold_left]. rewrite !E by lia.
  change (2 ^ 7) with 128. change (2 ^ 6) with 64. change (2 ^ 5) with 32.
  change (2 ^ 4) with 16. change (2 ^ 3) with 8. change (2 ^ 2) with 4.
  change (2 ^ 1) with 2. change (2 ^ 0) with 1.
  Z.div_mod_to_equations. lia.
Qed.

Lemma bits_of_bytes_length bytes : length (bits_of_bytes bytes) = (8 * length bytes)%nat.
Proof.
  induction bytes as [|b l IH]; [reflexivity|].
  cbn [bits_of_bytes flat_map]. rewrite length_app. fold (bits_of_bytes l). rewrite IH.
  cbn. lia.
Qed.

Lemma pow_256 n : 256 ^ Z.of_nat n = 2 ^ Z.of_nat (8 * n).
Proof. rewrite Nat2Z.inj_mul, Z.pow_mul_r by lia. reflexivity. Qed.

Lemma bits_of_bytes_value bytes : bytes_ok bytes ->
  bits_value (bits_of_bytes bytes) = be_value bytes.
Proof.
  induction 1 as [|b l Hb _ IH]; [reflexivity|].
  cbn [bits_of_bytes flat_map]. fold (bits_of_bytes l).
  rewrite bits_value_app, byte_bits_value, IH, bits_of_bytes_length, digits_value_cons, pow_256
    by assumption. reflexivity.
Qed.

Lemma bytes_of_bits_length n l : length (bytes_of_bits n l) = n.
Proof. revert l. induction n as [|n IH]; intros l; cbn; [reflexivity | now rewrite IH]. Qed.

Lemma bytes_of_bits_ok n l : bytes_ok (bytes_of_bits n l).
Proof.
  revert l. induction n as [|n IH]; intros l; cbn [bytes_of_bits]; constructor; [|apply IH].
  pose proof (bits_value_bound (firstn 8 l)) as H.
  assert (2 ^ Z.of_nat (length (firstn 8 l)) <= 2 ^ 8).
  { apply Z.pow_le_mono_r; [lia|]. rewrite length_firstn. lia. }
  change (2 ^ 8) with 256 in *. lia.
Qed.

Lemma bytes_of_bits_value n l : length l = (8 * n)%nat ->
  be_value (bytes_of_bits n l) = bits_value l.
Proof.
  revert l. induction n as [|n IH]; intros l Hl; cbn [bytes_of_bits].
  - destruct l; [reflexivity | cbn in Hl; lia].
  - rewrite digits_value_cons, bytes_of_bits_length, IH by (rewrite length_skipn; lia).
    rewrite <- (firstn_skipn 8 l) at 3. rewrite bits_value_app, length_skipn, pow_256.
    now replace (length l - 8)%nat with (8 * n)%nat by lia.
Qed.

#[export] Hint Resolve bytes_of_bits_ok : words.
