(* ===== verification/Words.v ===== *)
(** Double-word arithmetic on [u64] limbs: crates/crypto/src/algebra/field/core.rs.

    Each primitive returns a low word and a carry (or borrow); its lemma says
    that low word and carry together are the exact integer result. *)

From Stdlib Require Import ZArith Lia Bool List.
From S2P Require Import Prelude.
Local Open Scope Z_scope.

Definition const_adc (a b carry : Z) : Z * Z :=
  let '(s, c1) := overflowing_add a b in
  let '(s, c2) := overflowing_add s carry in
  (s, Z.b2z (c1 || c2)).

(** The portable branch; on x86_64 the code calls the add-with-carry
    instruction instead. *)
Definition adc (a b carry : Z) : Z * Z :=
  let tmp := as_u128 (a + b + carry) in
  (as_u64 tmp, Z.shiftr tmp 64 mod 256).

Definition acc (a carry : Z) : Z * Z :=
  let t := as_u128 (a + carry) in
  (as_u64 t, as_u64 (Z.shiftr t 64)).

Definition const_sbb (a b borrow : Z) : Z * Z :=
  let '(d, b1) := overflowing_sub a b in
  let '(d, b2) := overflowing_sub d borrow in
  (d, Z.b2z (b1 || b2)).

Definition sbb (a b borrow : Z) : Z * Z :=
  let tmp := as_u128 (W64 + a - b - borrow) in
  (as_u64 tmp, Z.b2z (Z.shiftr tmp 64 =? 0)).

Definition const_mac (a b c carry : Z) : Z * Z :=
  let tmp := as_u128 (a * b + c + carry) in
  (as_u64 tmp, as_u64 (Z.shiftr tmp 64)).

Definition mac (a b c carry : Z) : Z * Z :=
  let tmp := as_u128 (a * b + c + carry) in
  (as_u64 tmp, as_u64 (Z.shiftr tmp 64)).

(** Splitting a double word into its low and high words. *)
Lemma split_u128 t :
  0 <= t < W128 ->
  u64_ok (as_u64 t) /\ u64_ok (as_u64 (Z.shiftr t 64)) /\
  as_u64 t + W64 * as_u64 (Z.shiftr t 64) = t.
Proof.
  intros Ht. unfold u64_ok, as_u64.
  rewrite Z.shiftr_div_pow2 by lia. change (2 ^ 64) with W64.
  pose proof (Z.div_mod t W64 ltac:(lia)).
  pose proof (Z.mod_pos_bound t W64 ltac:(lia)).
  assert (0 <= t / W64 < W64).
  { split; [apply Z.div_pos; lia | apply Z.div_lt_upper_bound; lia]. }
  rewrite (Z.mod_small (t / W64)) by lia. lia.
Qed.

Lemma const_mac_spec a b c carry lo hi :
  u64_ok a -> u64_ok b -> u64_ok c -> u64_ok carry ->
  const_mac a b c carry = (lo, hi) ->
  u64_ok lo /\ u64_ok hi /\ lo + W64 * hi = a * b + c + carry.
Proof.
  unfold const_mac. intros Ha Hb Hc Hd [= <- <-].
  assert (0 <= a * b + c + carry < W128) by (unfold u64_ok in *; nia).
  rewrite as_u128_id by assumption. now apply split_u128.
Qed.

Lemma const_adc_spec a b carry lo hi :
  u64_ok a -> u64_ok b -> u64_ok carry -> a + b + carry < 2 * W64 ->
  const_adc a b carry = (lo, hi) ->
  u64_ok lo /\ 0 <= hi <= 1 /\ lo + W64 * hi = a + b + carry.
Proof.
  unfold const_adc, overflowing_add, as_u64, u64_ok. intros Ha Hb Hc Hs [= <- <-].
  set (s := (a + b) mod W64). assert (Es : s = (a + b) mod W64) by reflexivity.
  clearbody s. Z.div_mod_to_equations.
  destruct (Z.leb_spec W64 (a + b)), (Z.leb_spec W64 (s + carry)); cbn [orb Z.b2z]; lia.
Qed.

Lemma const_sbb_spec a b borrow lo hi :
  u64_ok a -> u64_ok b -> 0 <= borrow <= 1 ->
  const_sbb a b borrow = (lo, hi) ->
  u64_ok lo /\ 0 <= hi <= 1 /\ lo - W64 * hi = a - b - borrow.
Proof.
  unfold const_sbb, overflowing_sub, as_u64, u64_ok. intros Ha Hb Hc [= <- <-].
  set (d := (a - b) mod W64). assert (Ed : d = (a - b) mod W64) by reflexivity.
  clearbody d. Z.div_mod_to_equations.
  destruct (Z.ltb_spec a b), (Z.ltb_spec d borrow); cbn [orb Z.b2z]; lia.
Qed.

(** The compile-time and the run-time variants of the code compute the same
    words. *)
Lemma mac_const_mac a b c carry : mac a b c carry = const_mac a b c carry.
Proof. reflexivity. Qed.

Lemma split_carry t :
  0 <= t < 2 * W64 -> Z.shiftr t 64 = Z.b2z (W64 <=? t).
Proof.
  intros Ht. rewrite Z.shiftr_div_pow2 by lia. change (2 ^ 64) with W64.
  Z.div_mod_to_equations. destruct (Z.leb_spec W64 t); cbn [Z.b2z]; lia.
Qed.

Lemma acc_const_adc a carry :
  u64_ok a -> u64_ok carry -> acc a carry = const_adc a 0 carry.
Proof.
  unfold acc, const_adc, overflowing_add, u64_ok. intros Ha Hc.
  rewrite as_u128_id, split_carry, Z.add_0_r, (as_u64_id a) by (unfold u64_ok; lia).
  rewrite (proj2 (Z.leb_gt W64 a)) by lia. cbn [orb].
  f_equal. apply as_u64_id. unfold u64_ok. destruct (_ <=? _); cbn [Z.b2z]; lia.
Qed.

Lemma adc_const_adc a b carry :
  u64_ok a -> u64_ok b -> 0 <= carry <= 1 -> adc a b carry = const_adc a b carry.
Proof.
  unfold adc, const_adc, overflowing_add, u64_ok. intros Ha Hb Hc.
  rewrite as_u128_id, split_carry by lia. unfold as_u64.
  f_equal.
  - now rewrite Z.add_mod_idemp_l.
  - set (s := (a + b) mod W64). assert (Es : s = (a + b) mod W64) by reflexivity.
    clearbody s. rewrite Z.mod_small by (destruct (_ <=? _); cbn [Z.b2z]; lia).
    Z.div_mod_to_equations.
    destruct (Z.leb_spec W64 (a + b + carry)), (Z.leb_spec W64 (a + b)),
      (Z.leb_spec W64 (s + carry)); cbn [orb Z.b2z] in *; lia.
Qed.

Lemma sbb_const_sbb a b borrow :
  u64_ok a -> u64_ok b -> 0 <= borrow <= 1 -> sbb a b borrow = const_sbb a b borrow.
Proof.
  unfold sbb, const_sbb, overflowing_sub, u64_ok. intros Ha Hb Hc.
  rewrite as_u128_id, split_carry by lia. unfold as_u64.
  f_equal.
  - rewrite Zminus_mod_idemp_l.
    replace (W64 + a - b - borrow) with (a - b - borrow + 1 * W64) by lia.
    apply Z.mod_add; lia.
  - set (d := (a - b) mod W64). assert (Ed : d = (a - b) mod W64) by reflexivity.
    clearbody d. Z.div_mod_to_equations.
    destruct (Z.leb_spec W64 (W64 + a - b - borrow)), (Z.ltb_spec a b),
      (Z.ltb_spec d borrow); cbn [orb Z.b2z Z.eqb] in *; lia.
Qed.

(** * Four-limb big integers and the operations on them that do not depend on a
    modulus: comparison, carry and borrow chains, parity, halving and the bit
    iterators (crates/crypto/src/algebra/field/{bits.rs, montfelt, curveorder}).

    [MontFelt] and [CurveOrderMontFelt] are both newtypes over [[u64; 4]]; the
    record [limbs] is that array, little-endian, and [eval] the number it
    stands for. *)

Import ListNotations.

(** ** Data *)

Record limbs := Limbs { l0 : Z; l1 : Z; l2 : Z; l3 : Z }.

(** The index expression [x.0[i]] and the assignment [x.0[i] = v], for [i < 4]. *)
Definition limb (x : limbs) (i : nat) : Z :=
  match i with
  | 0%nat => l0 x
  | 1%nat => l1 x
  | 2%nat => l2 x
  | _ => l3 x
  end.

Definition set_limb (x : limbs) (i : nat) (v : Z) : limbs :=
  match i with
  | 0%nat => Limbs v (l1 x) (l2 x) (l3 x)
  | 1%nat => Limbs (l0 x) v (l2 x) (l3 x)
  | 2%nat => Limbs (l0 x) (l1 x) v (l3 x)
  | _ => Limbs (l0 x) (l1 x) (l2 x) v
  end.

Definition ZERO : limbs := Limbs 0 0 0 0.

Definition eval (x : limbs) : Z := l0 x + W64 * l1 x + W128 * l2 x + W192 * l3 x.

Definition limbs_ok (x : limbs) : Prop :=
  u64_ok (l0 x) /\ u64_ok (l1 x) /\ u64_ok (l2 x) /\ u64_ok (l3 x).

Definition limbs_eqb (x y : limbs) : bool :=
  (l0 x =? l0 y) && (l1 x =? l1 y) && (l2 x =? l2 y) && (l3 x =? l3 y).

(** The limbs of a number below [2^256]. *)
Definition of_Z (z : Z) : limbs :=
  Limbs (z mod W64) (z / W64 mod W64) (z / W128 mod W64) (z / W192 mod W64).

(** The indices of [for i in 0..4] and of [while i > 0 { i -= 1; .. }]. *)
Definition idx_up : list nat := [0; 1; 2; 3]%nat.
Definition idx_down : list nat := [3; 2; 1; 0]%nat.

(** ** Carry chains *)

Definition const_add_noreduce (self x : limbs) : limbs :=
  fst (fold_left (fun '(r, carry) i =>
         let '(lo, hi) := const_adc (limb self i) (limb x i) carry in
         (set_limb r i lo, hi)) idx_up (ZERO, 0)).

Definition const_sub_noreduce (self x : limbs) : limbs :=
  fst (fold_left (fun '(r, borrow) i =>
         let '(lo, hi) := const_sbb (limb self i) (limb x i) borrow in
         (set_limb r i lo, hi)) idx_up (ZERO, 0)).

(** The in-place variants: the limb just written is not read again. *)
Definition add_assign_noreduce (self x : limbs) : limbs :=
  fst (fold_left (fun '(self, carry) i =>
         let '(v, carry) := adc (limb self i) (limb x i) carry in
         (set_limb self i v, carry)) idx_up (self, 0)).

Definition double_assign_noreduce (self : limbs) : limbs :=
  fst (fold_left (fun '(self, carry) i =>
         let b := limb self i in
         let '(v, carry) := adc (limb self i) b carry in
         (set_limb self i v, carry)) idx_up (self, 0)).

Definition sub_assign_noreduce (self x : limbs) : limbs :=
  fst (fold_left (fun '(self, borrow) i =>
         let '(v, borrow) := sbb (limb self i) (limb x i) borrow in
         (set_limb self i v, borrow)) idx_up (self, 0)).

(** ** Comparison *)

Definition is_zero (self : limbs) : bool :=
  (l0 self =? 0) && (l1 self =? 0) && (l2 self =? 0) && (l3 self =? 0).

Fixpoint cmp_from (idx : list nat) (self x : limbs) : comparison :=
  match idx with
  | [] => Eq
  | i :: idx =>
      if limb self i <? limb x i then Lt
      else if limb x i <? limb self i then Gt
      else cmp_from idx self x
  end.

Definition const_cmp (self x : limbs) : comparison := cmp_from idx_down self x.

(** [Ordering as i8]. *)
Definition ord_i8 (c : comparison) : Z :=
  match c with
  | Lt => -1
  | Eq => 0
  | Gt => 1
  end.

Definition const_eq (self x : limbs) : bool := ord_i8 (const_cmp self x) =? 0.
Definition const_gt (self x : limbs) : bool := 0 <? ord_i8 (const_cmp self x).
Definition const_geq (self x : limbs) : bool := 0 <=? ord_i8 (const_cmp self x).
Definition const_lt (self x : limbs) : bool := ord_i8 (const_cmp self x) <? 0.
Definition const_leq (self x : limbs) : bool := ord_i8 (const_cmp self x) <=? 0.

(** ** Parity and halving *)

Definition is_odd (self : limbs) : bool := Z.land (l0 self) 1 =? 1.
Definition is_even (self : limbs) : bool := Z.land (l0 self) 1 =? 0.

Definition div2 (self : limbs) : limbs :=
  let r0 := Z.lor (shr64 (l0 self) 1) (shl64 (l1 self) 63) in
  let r1 := Z.lor (shr64 (l1 self) 1) (shl64 (l2 self) 63) in
  let r2 := Z.lor (shr64 (l2 self) 1) (shl64 (l3 self) 63) in
  let r3 := shr64 (l3 self) 1 in
  Limbs r0 r1 r2 r3.

(** ** Bit iterators over a slice of [u64] *)

Record BitIteratorBE := { be_s : list Z; be_n : nat }.

Definition BitIteratorBE_new (s : list Z) : BitIteratorBE :=
  {| be_s := s; be_n := length s * 64 |}.

(** [s[part] & (1 << bit) > 0], for [part < s.len()]. *)
Definition slice_bit (s : list Z) (n : nat) : bool :=
  let part := (n / 64)%nat in
  let bit := (n - 64 * part)%nat in
  0 <? Z.land (nth part s 0) (shl64 1 (Z.of_nat bit)).

Definition BitIteratorBE_next (it : BitIteratorBE) : option (bool * BitIteratorBE) :=
  match be_n it with
  | O => None
  | S n => Some (slice_bit (be_s it) n, {| be_s := be_s it; be_n := n |})
  end.

(** Draining an iterator; [be_n] bounds the number of items. *)
Fixpoint be_collect (fuel : nat) (it : BitIteratorBE) : list bool :=
  match fuel with
  | O => []
  | S fuel =>
      match BitIteratorBE_next it with
      | None => []
      | Some (b, it) => b :: be_collect fuel it
      end
  end.

Fixpoint skip_while_false (l : list bool) : list bool :=
  match l with
  | false :: l => skip_while_false l
  | _ => l
  end.

Definition without_leading_zeros (s : list Z) : list bool :=
  let it := BitIteratorBE_new s in
  skip_while_false (be_collect (be_n it) it).

(** ** Lemmas *)

#[export] Hint Unfold limbs_ok u64_ok eval : words.

Lemma limbs_eqb_spec x y : reflect (x = y) (limbs_eqb x y).
Proof.
  destruct x, y; unfold limbs_eqb; cbn.
  destruct (Z.eqb_spec l4 l8), (Z.eqb_spec l5 l9), (Z.eqb_spec l6 l10), (Z.eqb_spec l7 l11);
    cbn; constructor; congruence.
Qed.

Lemma eval_range x : limbs_ok x -> 0 <= eval x < W256.
Proof. unfold limbs_ok, eval, u64_ok; lia. Qed.

Lemma digit_inj a b a' b' :
  u64_ok a -> u64_ok a' -> a + W64 * b = a' + W64 * b' -> a = a' /\ b = b'.
Proof. unfold u64_ok. intros. assert (b = b') by lia. lia. Qed.

Lemma eval_inj x y : limbs_ok x -> limbs_ok y -> eval x = eval y -> x = y.
Proof.
  destruct x as [x0 x1 x2 x3], y as [y0 y1 y2 y3]; unfold limbs_ok, eval; cbn.
  intros (?&?&?&?) (?&?&?&?) E.
  assert (E0 : x0 + W64 * (x1 + W64 * (x2 + W64 * x3))
             = y0 + W64 * (y1 + W64 * (y2 + W64 * y3))) by lia.
  apply digit_inj in E0 as [-> E1]; try assumption.
  apply digit_inj in E1 as [-> E2]; try assumption.
  apply digit_inj in E2 as [-> ->]; try assumption. reflexivity.
Qed.

Lemma of_Z_ok z : limbs_ok (of_Z z).
Proof. unfold of_Z, limbs_ok, u64_ok; cbn. split_and; apply Z.mod_pos_bound; lia. Qed.

Lemma eval_of_Z z : 0 <= z < W256 -> eval (of_Z z) = z.
Proof.
  intros Hz. unfold of_Z, eval; cbn.
  change W192 with (W64 * W64 * W64). change W128 with (W64 * W64).
  rewrite <- !Z.div_div by lia.
  Z.div_mod_to_equations. lia.
Qed.

Lemma of_Z_eval x : limbs_ok x -> of_Z (eval x) = x.
Proof.
  intros Hx. apply eval_inj; auto using of_Z_ok.
  apply eval_of_Z, eval_range, Hx.
Qed.

Lemma ZERO_ok : limbs_ok ZERO.
Proof. unfold limbs_ok, u64_ok, ZERO; cbn; lia. Qed.
#[export] Hint Resolve of_Z_ok ZERO_ok : words.

(** Run a chain of word operations: name the result of the first operation
    and replace its equation by the operation's specification. *)
Ltac chain_step spec f :=
  match goal with
  | |- context [match f ?a ?b ?c with _ => _ end] =>
      let lo := fresh "w" in let hi := fresh "c" in let E := fresh "E" in
      destruct (f a b c) as [lo hi] eqn:E;
      apply spec in E; cbn [fst snd set_limb limb l0 l1 l2 l3] in *;
      [ | unfold u64_ok in *; lia ..]
  end.

Ltac unroll := cbn [fold_left idx_up limb set_limb fst snd l0 l1 l2 l3 ZERO].

Lemma const_add_noreduce_mod x y :
  limbs_ok x -> limbs_ok y ->
  limbs_ok (const_add_noreduce x y) /\
  eval (const_add_noreduce x y) = (eval x + eval y) mod W256.
Proof.
  intros (?&?&?&?) (?&?&?&?). unfold const_add_noreduce. unroll.
  do 4 chain_step const_adc_spec const_adc.
  unfold limbs_ok, u64_ok, eval in *; cbn [l0 l1 l2 l3]. split; [lia|].
  apply Z.mod_unique with (q := c2); lia.
Qed.

Lemma const_sub_noreduce_mod x y :
  limbs_ok x -> limbs_ok y ->
  limbs_ok (const_sub_noreduce x y) /\
  eval (const_sub_noreduce x y) = (eval x - eval y) mod W256.
Proof.
  intros (?&?&?&?) (?&?&?&?). unfold const_sub_noreduce. unroll.
  do 4 chain_step const_sbb_spec const_sbb.
  unfold limbs_ok, u64_ok, eval in *; cbn [l0 l1 l2 l3]. split; [lia|].
  apply Z.mod_unique with (q := - c2); lia.
Qed.

Lemma const_add_noreduce_exact x y :
  limbs_ok x -> limbs_ok y -> eval x + eval y < W256 ->
  limbs_ok (const_add_noreduce x y) /\ eval (const_add_noreduce x y) = eval x + eval y.
Proof.
  intros Hx Hy Hlt. destruct (const_add_noreduce_mod x y Hx Hy) as [? ->].
  apply eval_range in Hx, Hy. rewrite Z.mod_small by lia. auto.
Qed.

Lemma const_sub_noreduce_exact x y :
  limbs_ok x -> limbs_ok y -> eval y <= eval x ->
  limbs_ok (const_sub_noreduce x y) /\ eval (const_sub_noreduce x y) = eval x - eval y.
Proof.
  intros Hx Hy Hle. destruct (const_sub_noreduce_mod x y Hx Hy) as [? ->].
  apply eval_range in Hx, Hy. rewrite Z.mod_small by lia. auto.
Qed.

(** The in-place loops compute the same limbs as the compile-time ones. *)
Lemma add_assign_noreduce_eq x y :
  limbs_ok x -> limbs_ok y -> add_assign_noreduce x y = const_add_noreduce x y.
Proof.
  intros (?&?&?&?) (?&?&?&?). unfold add_assign_noreduce, const_add_noreduce. unroll.
  do 4 (rewrite adc_const_adc by (assumption || lia);
        chain_step const_adc_spec const_adc).
  reflexivity.
Qed.

Lemma double_assign_noreduce_eq x :
  limbs_ok x -> double_assign_noreduce x = const_add_noreduce x x.
Proof.
  intros (?&?&?&?). unfold double_assign_noreduce, const_add_noreduce. unroll.
  do 4 (rewrite adc_const_adc by (assumption || lia);
        chain_step const_adc_spec const_adc).
  reflexivity.
Qed.

Lemma sub_assign_noreduce_eq x y :
  limbs_ok x -> limbs_ok y -> sub_assign_noreduce x y = const_sub_noreduce x y.
Proof.
  intros (?&?&?&?) (?&?&?&?). unfold sub_assign_noreduce, const_sub_noreduce. unroll.
  do 4 (rewrite sbb_const_sbb by (assumption || lia);
        chain_step const_sbb_spec const_sbb).
  reflexivity.
Qed.

(** Comparing limbs from the most significant one compares the numbers. *)
Lemma const_cmp_eval x y :
  limbs_ok x -> limbs_ok y -> const_cmp x y = Z.compare (eval x) (eval y).
Proof.
  intros (?&?&?&?) (?&?&?&?). unfold const_cmp, eval, u64_ok in *.
  cbn [cmp_from idx_down limb].
  repeat case_if; zbool; symmetry;
    first [apply Z.compare_lt_iff; lia | apply Z.compare_gt_iff; lia | apply Z.compare_eq_iff; lia].
Qed.

Ltac cmp_solve :=
  intros Hx Hy; rewrite (const_cmp_eval _ _ Hx Hy); apply iff_reflect;
  match goal with |- context [Z.compare ?a ?b] => destruct (Z.compare_spec a b) end;
  cbn [ord_i8]; split; (lia || discriminate || reflexivity).

Lemma const_geq_spec x y :
  limbs_ok x -> limbs_ok y -> reflect (eval y <= eval x) (const_geq x y).
Proof. unfold const_geq; cmp_solve. Qed.

Lemma const_gt_spec x y :
  limbs_ok x -> limbs_ok y -> reflect (eval y < eval x) (const_gt x y).
Proof. unfold const_gt; cmp_solve. Qed.

Lemma const_lt_spec x y :
  limbs_ok x -> limbs_ok y -> reflect (eval x < eval y) (const_lt x y).
Proof. unfold const_lt; cmp_solve. Qed.

Lemma const_leq_spec x y :
  limbs_ok x -> limbs_ok y -> reflect (eval x <= eval y) (const_leq x y).
Proof. unfold const_leq; cmp_solve. Qed.

Lemma const_eq_spec x y :
  limbs_ok x -> limbs_ok y -> reflect (eval x = eval y) (const_eq x y).
Proof. unfold const_eq; cmp_solve. Qed.

Lemma is_zero_spec x : limbs_ok x -> reflect (eval x = 0) (is_zero x).
Proof.
  intros (?&?&?&?). unfold is_zero, eval, u64_ok in *.
  destruct (Z.eqb_spec (l0 x) 0), (Z.eqb_spec (l1 x) 0), (Z.eqb_spec (l2 x) 0),
    (Z.eqb_spec (l3 x) 0); cbn [andb]; constructor; lia.
Qed.

Lemma low_bit x : limbs_ok x -> Z.land (l0 x) 1 = eval x mod 2.
Proof.
  intros _. change 1 with (Z.ones 1). rewrite Z.land_ones by lia. change (2 ^ 1) with 2.
  unfold eval. Z.div_mod_to_equations. lia.
Qed.

Lemma is_even_spec x : limbs_ok x -> is_even x = Z.even (eval x).
Proof.
  intros Hx. unfold is_even. rewrite (low_bit _ Hx), Zmod_even.
  now destruct (Z.even (eval x)).
Qed.

Lemma is_odd_spec x : limbs_ok x -> is_odd x = Z.odd (eval x).
Proof.
  intros Hx. unfold is_odd. rewrite (low_bit _ Hx), Zmod_odd.
  now destruct (Z.odd (eval x)).
Qed.

(** Shifting a limb pair one bit to the right. *)
Lemma shift_pair a b :
  u64_ok a -> u64_ok b ->
  Z.lor (shr64 a 1) (shl64 b 63) = a / 2 + W64 / 2 * (b mod 2).
Proof.
  unfold u64_ok, shr64, shl64, as_u64. intros Ha Hb.
  rewrite Z.shiftr_div_pow2, Z.shiftl_mul_pow2 by lia. change (2 ^ 1) with 2.
  change W64 with (2 * 2 ^ 63) at 1. rewrite Z.mul_mod_distr_r by lia.
  rewrite <- (Z.shiftl_mul_pow2 (b mod 2)) by lia.
  rewrite lor_shiftl_add; [change (W64 / 2) with (2 ^ 63); lia | lia |].
  change (2 ^ 63) with (W64 / 2). Z.div_mod_to_equations; lia.
Qed.

Lemma div2_spec x : limbs_ok x -> limbs_ok (div2 x) /\ eval (div2 x) = eval x / 2.
Proof.
  intros (?&?&?&?). unfold div2. rewrite !shift_pair by assumption.
  unfold limbs_ok, eval, u64_ok, shr64 in *; cbn [l0 l1 l2 l3].
  rewrite Z.shiftr_div_pow2 by lia. change (2 ^ 1) with 2.
  change (W64 / 2) with 9223372036854775808.
  Z.div_mod_to_equations. lia.
Qed.

(** ** The bit iterator *)

(** The number a slice of limbs stands for, least significant limb first. *)
Fixpoint slice_val (s : list Z) : Z :=
  match s with
  | [] => 0
  | a :: s => a + W64 * slice_val s
  end.

(** The number a list of bits stands for, most significant bit first. *)
Definition be_val (l : list bool) : Z := fold_left (fun acc b => 2 * acc + Z.b2z b) l 0.

Lemma be_val_acc l a :
  fold_left (fun acc b => 2 * acc + Z.b2z b) l a = a * 2 ^ Z.of_nat (length l) + be_val l.
Proof.
  revert a. unfold be_val. induction l as [|b l IH]; intros a; cbn [fold_left length].
  - rewrite Z.pow_0_r. lia.
  - rewrite (IH (2 * a + _)), (IH (2 * 0 + _)), Nat2Z.inj_succ, Z.pow_succ_r by lia. ring.
Qed.

Lemma be_val_cons b l : be_val (b :: l) = Z.b2z b * 2 ^ Z.of_nat (length l) + be_val l.
Proof. unfold be_val at 1. cbn [fold_left]. rewrite be_val_acc. f_equal. Qed.

Lemma be_val_skip l : be_val (skip_while_false l) = be_val l.
Proof.
  induction l as [|[] l IH]; cbn [skip_while_false]; try reflexivity.
  rewrite IH, be_val_cons. cbn [Z.b2z]. lia.
Qed.

Lemma slice_val_testbit s n :
  Forall u64_ok s ->
  Z.testbit (slice_val s) (Z.of_nat n)
  = Z.testbit (nth (n / 64) s 0) (Z.of_nat (n mod 64)).
Proof.
  intros Hs. revert n. induction Hs as [|a s Ha Hs IH]; intros n; cbn [slice_val].
  - rewrite Z.bits_0. destruct (n / 64)%nat; cbn; now rewrite Z.bits_0.
  - change W64 with (2 ^ 64).
    replace (a + 2 ^ 64 * slice_val s) with (a + slice_val s * 2 ^ 64) by ring.
    rewrite <- lor_shiftl_add by (apply Ha || lia).
    rewrite Z.lor_spec, Z.shiftl_spec by lia.
    destruct (Nat.lt_ge_cases n 64) as [Hn|Hn].
    + rewrite (Z.testbit_neg_r (slice_val s)), orb_false_r by lia.
      rewrite Nat.div_small, Nat.mod_small by lia. reflexivity.
    + replace n with (n - 64 + 1 * 64)%nat at 3 4 by lia.
      rewrite Nat.div_add, Nat.Div0.mod_add by lia.
      replace (n - 64 + 1 * 64)%nat with n by lia. rewrite Nat.add_comm; cbn [Nat.add nth].
      rewrite <- IH, Nat2Z.inj_sub by lia.
      replace (Z.testbit a (Z.of_nat n)) with false; [reflexivity|].
      symmetry. destruct (Z.eq_dec a 0) as [->|]; [apply Z.bits_0|].
      apply Z.bits_above_log2; [apply Ha|]. apply Z.log2_lt_pow2; unfold u64_ok in Ha; [lia|].
      apply Z.lt_le_trans with (2 ^ 64); [exact (proj2 Ha)|]. apply Z.pow_le_mono_r; lia.
Qed.

Lemma slice_bit_spec s n :
  Forall u64_ok s -> slice_bit s n = Z.testbit (slice_val s) (Z.of_nat n).
Proof.
  intros Hs. rewrite slice_val_testbit by assumption. unfold slice_bit.
  replace (n - 64 * (n / 64))%nat with (n mod 64)%nat
    by (pose proof (Nat.div_mod_eq n 64); lia).
  set (a := nth _ _ _). pose proof (Nat.mod_upper_bound n 64 ltac:(lia)).
  set (k := Z.of_nat (n mod 64)). assert (0 <= k < 64) by (unfold k; lia).
  unfold shl64. rewrite Z.shiftl_1_l, as_u64_id
    by (split; [lia | change W64 with (2 ^ 64); apply Z.pow_lt_mono_r; lia]).
  destruct (Z.testbit a k) eqn:E.
  - rewrite <- (Z.shiftl_1_l k). apply Z.ltb_lt.
    assert (Z.land a (Z.shiftl 1 k) = Z.shiftl 1 k) as ->.
    { apply Z.bits_inj'. intros i Hi. rewrite Z.land_spec, Z.shiftl_spec by lia.
      destruct (Z.eq_dec i k) as [->|]; [now rewrite E|].
      replace (Z.testbit 1 (i - k)) with false; [apply andb_false_r|].
      destruct (Z.lt_ge_cases (i - k) 0); [now rewrite Z.testbit_neg_r by lia|].
      symmetry. apply Z.bits_above_log2; [lia|]. change (Z.log2 1) with 0. lia. }
    rewrite Z.shiftl_1_l. apply Z.pow_pos_nonneg; lia.
  - apply Z.ltb_ge. enough (Z.land a (2 ^ k) = 0) by lia.
    apply Z.bits_inj'. intros i Hi. rewrite Z.land_spec, Z.bits_0, Z.pow2_bits_eqb by lia.
    destruct (Z.eqb_spec k i) as [<-|]; [now rewrite E | apply andb_false_r].
Qed.

Lemma length_be_collect s n : length (be_collect n {| be_s := s; be_n := n |}) = n.
Proof. induction n as [|n IH]; [reflexivity|]. cbn. now rewrite IH. Qed.

Lemma be_collect_val s n :
  Forall u64_ok s ->
  be_val (be_collect n {| be_s := s; be_n := n |}) = slice_val s mod 2 ^ Z.of_nat n.
Proof.
  intros Hs. induction n as [|n IH]; [cbn; now rewrite Z.mod_1_r|].
  cbn [be_collect BitIteratorBE_next be_s be_n].
  rewrite be_val_cons, length_be_collect, IH, slice_bit_spec by assumption.
  rewrite Nat2Z.inj_succ, Z.pow_succ_r, (Z.mul_comm 2), Z.rem_mul_r by lia.
  rewrite Z.testbit_spec' by lia. lia.
Qed.

Lemma slice_val_range s : Forall u64_ok s -> 0 <= slice_val s < 2 ^ (64 * Z.of_nat (length s)).
Proof.
  induction 1 as [|a s Ha Hs IH]; cbn [slice_val length]; [lia|].
  rewrite Nat2Z.inj_succ, Z.mul_succ_r, Z.pow_add_r by lia.
  change (2 ^ 64) with W64. unfold u64_ok in Ha. lia.
Qed.

(** The iterator without leading zeros yields the bits of the number. *)
Lemma without_leading_zeros_val s :
  Forall u64_ok s -> be_val (without_leading_zeros s) = slice_val s.
Proof.
  intros Hs. unfold without_leading_zeros, BitIteratorBE_new. cbn [be_n].
  rewrite be_val_skip, be_collect_val, Z.mod_small; [reflexivity | | assumption].
  replace (Z.of_nat (length s * 64)) with (64 * Z.of_nat (length s)) by lia.
  now apply slice_val_range.
Qed.
