(* ===== verification/Montgomery.v ===== *)
(** Montgomery arithmetic over four limbs
    (crates/crypto/src/algebra/field/montfelt/{additive, reduce, multiplicative,
    mont, cmp, pow, inverse}.rs and the same files of curveorder/).

    The crate writes this arithmetic out twice, once for the base field
    ([MontFelt]) and once for the field of scalars ([CurveOrderMontFelt]); the
    two texts differ in the four constants [P], [R], [R2] and [M0].  The class
    [MontField] carries those constants, [MontFieldOk] what the algorithms need
    of them, and the operations are defined once over the class; MontFelt.v and
    CurveOrder.v instantiate it. *)

From Stdlib Require Import ZArith Lia Bool List.
From S2P Require Import Prelude Words.
Import ListNotations.
Local Open Scope Z_scope.

(** ** The constants of a field *)

Class MontField := {
  P : limbs;   (** the modulus *)
  R : limbs;   (** [2^256 mod P] *)
  R2 : limbs;  (** [2^512 mod P] *)
  M0 : Z       (** [- P[0]^-1 mod 2^64] *)
}.

(** The modulus as a number. *)
Definition modulus {F : MontField} : Z := eval P.

Class MontFieldOk (F : MontField) := {
  P_ok : limbs_ok P;
  P_odd : Z.odd modulus = true;
  P_gt2 : 2 < modulus;
  (** [ZERO_BITS = 4]: four leading zero bits in the top limb. *)
  P_bits : 16 * modulus < W256;
  M0_ok : u64_ok M0;
  M0_spec : (M0 * l0 P + 1) mod W64 = 0;
  R_ok : limbs_ok R;
  R_spec : eval R = W256 mod modulus;
  R2_ok : limbs_ok R2;
  R2_spec : eval R2 = (W256 * W256) mod modulus
}.

Section Operations.
Context {F : MontField}.

Definition ONE : limbs := R.

Definition is_one (self : limbs) : bool :=
  (l0 self =? l0 R) && (l1 self =? l1 R) && (l2 self =? l2 R) && (l3 self =? l3 R).

(** ** Reduction *)

Definition const_reduce_partial (self : limbs) : limbs :=
  if const_geq self P then const_sub_noreduce self P else self.

Definition reduce_partial (self : limbs) : limbs :=
  if const_geq self P then sub_assign_noreduce self P else self.

(** The four rounds shared by the two reductions of the source. *)
Definition mont_rounds (r0 r1 r2 r3 r4 r5 r6 r7 : Z) : limbs :=
  let k := wrapping_mul r0 M0 in
  let '(_, carry) := const_mac k (l0 P) r0 0 in
  let '(r1, carry) := const_mac k (l1 P) r1 carry in
  let '(r2, carry) := const_mac k (l2 P) r2 carry in
  let '(r3, carry) := const_mac k (l3 P) r3 carry in
  let '(r4, carry2) := const_adc r4 0 carry in

  let k := wrapping_mul r1 M0 in
  let '(_, carry) := const_mac k (l0 P) r1 0 in
  let '(r2, carry) := const_mac k (l1 P) r2 carry in
  let '(r3, carry) := const_mac k (l2 P) r3 carry in
  let '(r4, carry) := const_mac k (l3 P) r4 carry in
  let '(r5, carry2) := const_adc r5 carry2 carry in

  let k := wrapping_mul r2 M0 in
  let '(_, carry) := const_mac k (l0 P) r2 0 in
  let '(r3, carry) := const_mac k (l1 P) r3 carry in
  let '(r4, carry) := const_mac k (l2 P) r4 carry in
  let '(r5, carry) := const_mac k (l3 P) r5 carry in
  let '(r6, carry2) := const_adc r6 carry2 carry in

  let k := wrapping_mul r3 M0 in
  let '(_, carry) := const_mac k (l0 P) r3 0 in
  let '(r4, carry) := const_mac k (l1 P) r4 carry in
  let '(r5, carry) := const_mac k (l2 P) r5 carry in
  let '(r6, carry) := const_mac k (l3 P) r6 carry in
  let '(r7, _) := const_adc r7 carry2 carry in

  Limbs r4 r5 r6 r7.

Definition const_mont_reduce (r0 r1 r2 r3 r4 r5 r6 r7 : Z) : limbs :=
  const_reduce_partial (mont_rounds r0 r1 r2 r3 r4 r5 r6 r7).

Definition mont_reduce (r0 r1 r2 r3 r4 r5 r6 r7 : Z) : limbs :=
  reduce_partial (mont_rounds r0 r1 r2 r3 r4 r5 r6 r7).

Definition const_reduce_full (self : limbs) : limbs :=
  const_mont_reduce (l0 self) (l1 self) (l2 self) (l3 self) 0 0 0 0.

Definition reduce_full (self : limbs) : limbs :=
  mont_reduce (l0 self) (l1 self) (l2 self) (l3 self) 0 0 0 0.

(** ** Addition *)

Definition const_add (self x : limbs) : limbs :=
  let res := const_add_noreduce self x in
  const_reduce_partial res.

Definition const_double (self : limbs) : limbs :=
  let res := const_add_noreduce self self in
  const_reduce_partial res.

Definition const_sub (self x : limbs) : limbs :=
  if const_gt x self then
    let tmp := const_add_noreduce self P in
    const_sub_noreduce tmp x
  else const_sub_noreduce self x.

Definition const_neg (self : limbs) : limbs :=
  if is_zero self then self else const_sub_noreduce P self.

Definition add (self x : limbs) : limbs :=
  reduce_partial (add_assign_noreduce self x).

Definition double (self : limbs) : limbs :=
  reduce_partial (double_assign_noreduce self).

Definition sub (self x : limbs) : limbs :=
  let self := if const_gt x self then add_assign_noreduce self P else self in
  sub_assign_noreduce self x.

Definition negate (self : limbs) : limbs :=
  if negb (is_zero self) then sub_assign_noreduce P self else self.

(** ** Multiplication *)

(** Separated operand scanning: the eight words of [self * x], then the
    reduction.  [mac] and [const_mac] are one function. *)
Definition sos_mul (reduce : Z -> Z -> Z -> Z -> Z -> Z -> Z -> Z -> limbs)
    (self x : limbs) : limbs :=
  let carry := 0 in
  let '(r0, carry) := const_mac (l0 self) (l0 x) 0 carry in
  let '(r1, carry) := const_mac (l0 self) (l1 x) 0 carry in
  let '(r2, carry) := const_mac (l0 self) (l2 x) 0 carry in
  let '(r3, carry) := const_mac (l0 self) (l3 x) 0 carry in
  let r4 := carry in

  let carry := 0 in
  let '(r1, carry) := const_mac (l1 self) (l0 x) r1 carry in
  let '(r2, carry) := const_mac (l1 self) (l1 x) r2 carry in
  let '(r3, carry) := const_mac (l1 self) (l2 x) r3 carry in
  let '(r4, carry) := const_mac (l1 self) (l3 x) r4 carry in
  let r5 := carry in

  let carry := 0 in
  let '(r2, carry) := const_mac (l2 self) (l0 x) r2 carry in
  let '(r3, carry) := const_mac (l2 self) (l1 x) r3 carry in
  let '(r4, carry) := const_mac (l2 self) (l2 x) r4 carry in
  let '(r5, carry) := const_mac (l2 self) (l3 x) r5 carry in
  let r6 := carry in

  let carry := 0 in
  let '(r3, carry) := const_mac (l3 self) (l0 x) r3 carry in
  let '(r4, carry) := const_mac (l3 self) (l1 x) r4 carry in
  let '(r5, carry) := const_mac (l3 self) (l2 x) r5 carry in
  let '(r6, carry) := const_mac (l3 self) (l3 x) r6 carry in
  let r7 := carry in

  reduce r0 r1 r2 r3 r4 r5 r6 r7.

Definition const_mul (self x : limbs) : limbs := sos_mul const_mont_reduce self x.
Definition mul (self x : limbs) : limbs := sos_mul mont_reduce self x.

(** Squaring: the products [a[i] * a[j]] for [i < j], doubled by shifting, plus
    the diagonal.  [adc0 a carry] is the carry step of the diagonal:
    [const_adc a 0 carry] at compile time, [acc a carry] at run time. *)
Definition sos_square (adc0 : Z -> Z -> Z * Z)
    (reduce : Z -> Z -> Z -> Z -> Z -> Z -> Z -> Z -> limbs) (self : limbs) : limbs :=
  let carry := 0 in
  let '(r1, carry) := const_mac (l0 self) (l1 self) 0 carry in
  let '(r2, carry) := const_mac (l0 self) (l2 self) 0 carry in
  let '(r3, carry) := const_mac (l0 self) (l3 self) 0 carry in
  let r4 := carry in

  let carry := 0 in
  let '(r3, carry) := const_mac (l1 self) (l2 self) r3 carry in
  let '(r4, carry) := const_mac (l1 self) (l3 self) r4 carry in
  let r5 := carry in

  let carry := 0 in
  let '(r5, carry) := const_mac (l2 self) (l3 self) r5 carry in
  let r6 := carry in

  let r7 := shr64 r6 63 in
  let r6 := Z.lor (shl64 r6 1) (shr64 r5 63) in
  let r5 := Z.lor (shl64 r5 1) (shr64 r4 63) in
  let r4 := Z.lor (shl64 r4 1) (shr64 r3 63) in
  let r3 := Z.lor (shl64 r3 1) (shr64 r2 63) in
  let r2 := Z.lor (shl64 r2 1) (shr64 r1 63) in
  let r1 := shl64 r1 1 in

  let '(r0, carry) := const_mac (l0 self) (l0 self) 0 0 in
  let '(r1, carry) := adc0 r1 carry in
  let '(r2, carry) := const_mac (l1 self) (l1 self) r2 carry in
  let '(r3, carry) := adc0 r3 carry in
  let '(r4, carry) := const_mac (l2 self) (l2 self) r4 carry in
  let '(r5, carry) := adc0 r5 carry in
  let '(r6, carry) := const_mac (l3 self) (l3 self) r6 carry in
  let '(r7, _) := adc0 r7 carry in

  reduce r0 r1 r2 r3 r4 r5 r6 r7.

Definition const_square (self : limbs) : limbs :=
  sos_square (fun a carry => const_adc a 0 carry) const_mont_reduce self.
Definition square (self : limbs) : limbs := sos_square acc mont_reduce self.

(** Coarsely integrated operand scanning, an alternative multiplication. *)
Definition cios_inner (self : limbs) (xi k : Z) (st : limbs * Z * Z) (j : nat) : limbs * Z * Z :=
  let '(r, carry1, carry2) := st in
  let '(lo, hi) := const_mac (limb self j) xi (limb r j) carry1 in
  let r := set_limb r j lo in
  let carry1 := hi in
  let '(lo, hi) := const_mac k (limb P j) (limb r j) carry2 in
  (set_limb r (j - 1) lo, carry1, hi).

Definition cios_outer (self x : limbs) (r : limbs) (i : nat) : limbs :=
  let carry1 := 0 in
  let '(lo, hi) := const_mac (l0 self) (limb x i) (l0 r) carry1 in
  let r := set_limb r 0 lo in
  let carry1 := hi in
  let k := wrapping_mul (l0 r) M0 in
  let '(_, hi) := const_mac k (l0 P) (l0 r) 0 in
  let carry2 := hi in
  let '(r, carry1, carry2) :=
    fold_left (cios_inner self (limb x i) k) [1; 2; 3]%nat (r, carry1, carry2) in
  set_limb r 3 (as_u64 (carry1 + carry2)).

Definition const_mul_cios (self x : limbs) : limbs :=
  const_reduce_partial (fold_left (cios_outer self x) idx_up ZERO).

(** ** Conversion to and from Montgomery form *)

Definition to_native (self : limbs) : limbs :=
  mont_reduce (l0 self) (l1 self) (l2 self) (l3 self) 0 0 0 0.
Definition const_to_native (self : limbs) : limbs :=
  const_mont_reduce (l0 self) (l1 self) (l2 self) (l3 self) 0 0 0 0.
Definition from_native (self : limbs) : limbs := mul self R2.
Definition const_from_native (self : limbs) : limbs := const_mul self R2.

(** [Ord for MontFelt]: compare the numbers the elements stand for. *)
Definition const_cmp_native (self x : limbs) : comparison :=
  let a := const_reduce_full self in
  let b := const_reduce_full x in
  const_cmp a b.

(** ** Exponentiation *)

Definition pow (self : limbs) (exp : list Z) : limbs :=
  fold_left (fun res (i : bool) =>
      let res := square res in
      if i then mul res self else res)
    (without_leading_zeros exp) ONE.

(** ** Inversion (binary extended Euclid) *)

Definition one_raw : limbs := Limbs 1 0 0 0.

(** [while u.is_even() { u = u.div2(); b = b/2 or (b+P)/2 }]; [None] when the
    fuel runs out. *)
Fixpoint halve_loop (fuel : nat) (u b : limbs) : option (limbs * limbs) :=
  if is_even u then
    match fuel with
    | O => None
    | S fuel =>
        let u := div2 u in
        let b := if is_even b then div2 b else div2 (add_assign_noreduce b P) in
        halve_loop fuel u b
    end
  else Some (u, b).

(** The outer loop. *)
Fixpoint inverse_loop (fuel inner : nat) (u v b c : limbs) : option (limbs * limbs * limbs) :=
  if negb (limbs_eqb u one_raw) && negb (limbs_eqb v one_raw) then
    match fuel with
    | O => None
    | S fuel =>
        match halve_loop inner u b with
        | None => None
        | Some (u, b) =>
            match halve_loop inner v c with
            | None => None
            | Some (v, c) =>
                if const_lt v u then
                  let u := sub_assign_noreduce u v in
                  let b := const_sub b c in
                  inverse_loop fuel inner u v b c
                else
                  let v := sub_assign_noreduce v u in
                  let c := const_sub c b in
                  inverse_loop fuel inner u v b c
            end
        end
    end
  else Some (u, b, c).

(** The outer [option] is the fuel of the loops, the inner one the [Option]
    the function returns. *)
Definition inverse_fuel (fuel inner : nat) (self : limbs) : option (option limbs) :=
  if is_zero self then Some None
  else
    match inverse_loop fuel inner self P R2 ZERO with
    | None => None
    | Some (u, b, c) => Some (if limbs_eqb u one_raw then Some b else Some c)
    end.

(** [Self::inverse]; [inverse_terminates] shows that the fuel never runs out. *)
Definition inverse (self : limbs) : option limbs :=
  match inverse_fuel 520 260 self with
  | Some r => r
  | None => None
  end.

End Operations.
