(* ===== verification/MontgomeryFacts.v ===== *)
(** Correctness of the Montgomery arithmetic: reduction, addition,
    multiplication and squaring against arithmetic modulo [modulus]. *)

From Stdlib Require Import ZArith Lia Bool List Zmod.
From S2P Require Import Prelude Words Montgomery.
Import ListNotations.
Local Open Scope Z_scope.

(** One step of a word chain; the result's equation becomes its specification. *)
Ltac mac_step :=
  match goal with
  | |- context [match const_mac ?a ?b ?c ?d with _ => _ end] =>
      let lo := fresh "w" in let hi := fresh "c" in let E := fresh "E" in
      destruct (const_mac a b c d) as [lo hi] eqn:E;
      apply const_mac_spec in E; [ | (assumption || (unfold u64_ok in *; lia)) ..];
      destruct E as (? & ? & E)
  end.

Ltac adc_step :=
  match goal with
  | |- context [match const_adc ?a ?b ?c with _ => _ end] =>
      let lo := fresh "w" in let hi := fresh "c" in let E := fresh "E" in
      destruct (const_adc a b c) as [lo hi] eqn:E;
      apply const_adc_spec in E; [ | (assumption || (unfold u64_ok in *; lia)) ..];
      destruct E as (? & ? & E)
  end.

(** The residue class of an integer, and that of [2^256]. *)
Abbreviation cls := (Zmod.of_Z modulus).
Abbreviation Rcls := (Zmod.of_Z modulus W256).

Section Facts.
Context {F : MontField} {FOk : MontFieldOk F}.

(** An element in canonical form. *)
Definition canonical (x : limbs) : Prop := limbs_ok x /\ eval x < modulus.

Lemma modulus_pos : 0 < modulus.
Proof. pose proof P_gt2. lia. Qed.

Lemma P_limbs : u64_ok (l0 P) /\ u64_ok (l1 P) /\ u64_ok (l2 P) /\ u64_ok (l3 P).
Proof. apply P_ok. Qed.

Lemma eval_P : eval P = modulus.
Proof. reflexivity. Qed.

(** ** Partial reduction *)

Lemma reduce_partial_eq x : limbs_ok x -> reduce_partial x = const_reduce_partial x.
Proof.
  intros Hx. unfold reduce_partial, const_reduce_partial.
  now rewrite sub_assign_noreduce_eq by (assumption || apply P_ok).
Qed.

Lemma const_reduce_partial_spec x :
  limbs_ok x -> eval x < 2 * modulus ->
  canonical (const_reduce_partial x) /\ eval (const_reduce_partial x) = eval x mod modulus.
Proof.
  intros Hx Hlt. unfold const_reduce_partial, canonical.
  pose proof (eval_range x Hx). pose proof modulus_pos.
  destruct (const_geq_spec x P Hx P_ok) as [Hge|Hge]; rewrite eval_P in Hge.
  - destruct (const_sub_noreduce_exact x P Hx P_ok) as [? E]; [exact Hge|].
    rewrite E, eval_P. split; [split; [assumption|lia]|].
    apply Z.mod_unique with (q := 1); lia.
  - rewrite Z.mod_small by lia. repeat split; try assumption; try apply Hx; lia.
Qed.

(** ** Montgomery reduction *)

(** The multiplier [k] makes the low word of [r + k * P] zero. *)
Lemma k_cancels r :
  u64_ok r -> (wrapping_mul r M0 * l0 P + r) mod W64 = 0.
Proof.
  intros _. unfold wrapping_mul, as_u64.
  rewrite Z.add_mod, Z.mul_mod_idemp_l, <- Z.add_mod by lia.
  replace (r * M0 * l0 P + r) with (r * (M0 * l0 P + 1)) by ring.
  rewrite Z.mul_mod, M0_spec, Z.mul_0_r by lia. reflexivity.
Qed.

Lemma low_word_zero w c t : u64_ok w -> w + W64 * c = t -> t mod W64 = 0 -> w = 0.
Proof.
  unfold u64_ok. intros Hw <- Hm.
  rewrite Z.mul_comm, Z.mod_add, Z.mod_small in Hm by lia. exact Hm.
Qed.

(** One row of the reduction adds a multiple of the modulus and drops the low
    word, which is zero. *)
Lemma mont_row r0 r1 r2 r3 w c0 r1' c1 r2' c2 r3' c3 :
  let k := wrapping_mul r0 M0 in
  u64_ok r0 ->
  u64_ok w -> w + W64 * c0 = k * l0 P + r0 + 0 ->
  r1' + W64 * c1 = k * l1 P + r1 + c0 ->
  r2' + W64 * c2 = k * l2 P + r2 + c1 ->
  r3' + W64 * c3 = k * l3 P + r3 + c2 ->
  W64 * r1' + W128 * r2' + W192 * r3' + W256 * c3
    = r0 + W64 * r1 + W128 * r2 + W192 * r3 + k * modulus.
Proof.
  intros k Hr0 Hw E0 E1 E2 E3.
  assert (w = 0).
  { eapply low_word_zero; [exact Hw | exact E0 |].
    rewrite Z.add_0_r. now apply k_cancels. }
  unfold modulus, eval. subst w.
  rewrite !Z.mul_add_distr_l. lia.
Qed.

Definition wide (r0 r1 r2 r3 r4 r5 r6 r7 : Z) : Z :=
  r0 + W64 * r1 + W128 * r2 + W192 * r3
  + W256 * (r4 + W64 * r5 + W128 * r6 + W192 * r7).

Lemma wrapping_mul_ok a b : u64_ok (wrapping_mul a b).
Proof. apply as_u64_ok. Qed.
Hint Resolve wrapping_mul_ok : core.

(** Run one row on the low word [r] and keep only what [mont_row] says of it. *)
Ltac reduction_row r :=
  let k := fresh "k" in let Row := fresh "Row" in
  set (k := wrapping_mul r M0); assert (u64_ok k) by apply wrapping_mul_ok;
  do 4 mac_step;
  match goal with
  | E0 : ?w + W64 * ?c0 = k * l0 P + r + 0, E1 : _ + W64 * ?c1 = k * l1 P + _ + ?c0,
    E2 : _ + W64 * ?c2 = k * l2 P + _ + ?c1, E3 : _ = k * l3 P + _ + ?c2 |- _ =>
      pose proof (fun h h' => mont_row r _ _ _ _ _ _ _ _ _ _ _ h h' E0 E1 E2 E3) as Row;
      specialize (Row ltac:(assumption) ltac:(assumption));
      clear E0 E1 E2 E3
  end;
  fold k in Row; clearbody k.

(** The four rounds compute [(T + m * P) / 2^256] for a 256-bit [m], provided
    this fits in four limbs. *)
Lemma mont_rounds_spec r0 r1 r2 r3 r4 r5 r6 r7 :
  u64_ok r0 -> u64_ok r1 -> u64_ok r2 -> u64_ok r3 ->
  u64_ok r4 -> u64_ok r5 -> u64_ok r6 -> u64_ok r7 ->
  wide r0 r1 r2 r3 r4 r5 r6 r7 < modulus * W256 ->
  let r := mont_rounds r0 r1 r2 r3 r4 r5 r6 r7 in
  limbs_ok r /\
  exists m, 0 <= m < W256 /\
    eval r * W256 = wide r0 r1 r2 r3 r4 r5 r6 r7 + m * modulus.
Proof.
  intros. destruct P_limbs as (? & ? & ? & ?).
  unfold mont_rounds in r. subst r.
  reduction_row r0. adc_step. reduction_row w0. adc_step.
  reduction_row w5. adc_step. reduction_row w10.
  adc_step. clear H13 H24 H35 H46 w w4 w9 w14.
  set (m := k + W64 * k0 + W128 * k1 + W192 * k2).
  assert (Hm : 0 <= m < W256) by (unfold m, u64_ok in *; lia).
  assert (Sum : (w15 + W64 * w16 + W128 * w17 + W192 * w18) * W256 + W256 * W256 * c18
            = wide r0 r1 r2 r3 r4 r5 r6 r7 + m * modulus)
    by (unfold m, wide; lia).
  clearbody m. clear - Hm Sum H7 H48 H50 H52 H54 H55 FOk.
  pose proof P_bits. pose proof modulus_pos.
  assert (m * modulus <= (W256 - 1) * modulus) by (apply Z.mul_le_mono_nonneg_r; lia).
  assert (c18 = 0) as -> by (unfold u64_ok in *; lia).
  split; [repeat split; cbn; assumption || apply H48 || apply H50 || apply H52 || apply H54|].
  exists m. split; [exact Hm|]. unfold eval; cbn [l0 l1 l2 l3]. lia.
Qed.

(** Reduction of any 512-bit number below [modulus * 2^256]: the result is
    canonical and is the number times [2^-256]. *)
Lemma const_mont_reduce_spec r0 r1 r2 r3 r4 r5 r6 r7 :
  u64_ok r0 -> u64_ok r1 -> u64_ok r2 -> u64_ok r3 ->
  u64_ok r4 -> u64_ok r5 -> u64_ok r6 -> u64_ok r7 ->
  wide r0 r1 r2 r3 r4 r5 r6 r7 < modulus * W256 ->
  let r := const_mont_reduce r0 r1 r2 r3 r4 r5 r6 r7 in
  canonical r /\ (eval r * W256) mod modulus = wide r0 r1 r2 r3 r4 r5 r6 r7 mod modulus.
Proof.
  intros. pose proof modulus_pos.
  destruct (mont_rounds_spec r0 r1 r2 r3 r4 r5 r6 r7) as (Hok & m & Hm & E);
    try assumption.
  assert (eval (mont_rounds r0 r1 r2 r3 r4 r5 r6 r7) < 2 * modulus) by nia.
  destruct (const_reduce_partial_spec _ Hok ltac:(assumption)) as [Hc Er].
  subst r. unfold const_mont_reduce. split; [exact Hc|].
  rewrite Er, Z.mul_mod_idemp_l, E, Z.mod_add by lia. reflexivity.
Qed.

Lemma mont_reduce_eq r0 r1 r2 r3 r4 r5 r6 r7 :
  u64_ok r0 -> u64_ok r1 -> u64_ok r2 -> u64_ok r3 ->
  u64_ok r4 -> u64_ok r5 -> u64_ok r6 -> u64_ok r7 ->
  wide r0 r1 r2 r3 r4 r5 r6 r7 < modulus * W256 ->
  mont_reduce r0 r1 r2 r3 r4 r5 r6 r7 = const_mont_reduce r0 r1 r2 r3 r4 r5 r6 r7.
Proof. intros. apply reduce_partial_eq, mont_rounds_spec; assumption. Qed.

(** ** Addition, subtraction, negation *)

Lemma canonical_range x : canonical x -> limbs_ok x /\ 0 <= eval x < modulus.
Proof. intros [H ?]. pose proof (eval_range x H). split; [exact H|lia]. Qed.

Lemma const_add_spec x y :
  canonical x -> canonical y ->
  canonical (const_add x y) /\ eval (const_add x y) = (eval x + eval y) mod modulus.
Proof.
  intros [Hx ?] [Hy ?]. pose proof P_bits. pose proof (eval_range x Hx). pose proof (eval_range y Hy).
  destruct (const_add_noreduce_exact x y Hx Hy) as [Hok E]; [lia|].
  unfold const_add. cbv zeta.
  destruct (const_reduce_partial_spec _ Hok) as [Hc Ec]; [lia|].
  rewrite Ec, E. auto.
Qed.

Lemma const_sub_spec x y :
  canonical x -> canonical y ->
  canonical (const_sub x y) /\ eval (const_sub x y) = (eval x - eval y) mod modulus.
Proof.
  intros [Hx ?] [Hy ?]. pose proof P_bits. pose proof (eval_range x Hx). pose proof (eval_range y Hy).
  unfold const_sub, canonical. cbv zeta.
  destruct (const_gt_spec y x Hy Hx).
  - destruct (const_add_noreduce_exact x P Hx P_ok) as [Hok E]; [rewrite eval_P; lia|].
    rewrite eval_P in E.
    destruct (const_sub_noreduce_exact _ y Hok Hy) as [Hok' E']; [lia|].
    rewrite E', E. split; [split; [assumption|lia]|].
    apply Z.mod_unique with (q := -1); lia.
  - destruct (const_sub_noreduce_exact x y Hx Hy) as [Hok E]; [lia|].
    rewrite E. split; [split; [assumption|lia]|].
    rewrite Z.mod_small; lia.
Qed.

Lemma const_neg_spec x :
  canonical x ->
  canonical (const_neg x) /\ eval (const_neg x) = (- eval x) mod modulus.
Proof.
  intros [Hx ?]. pose proof (eval_range x Hx). unfold const_neg, canonical.
  destruct (is_zero_spec x Hx) as [E|E].
  - rewrite E, Z.mod_0_l by (pose proof modulus_pos; lia). repeat split; try apply Hx; lia.
  - destruct (const_sub_noreduce_exact P x P_ok Hx) as [Hok E']; [rewrite eval_P; lia|].
    rewrite E', eval_P. split; [split; [assumption|lia]|].
    apply Z.mod_unique with (q := -1); lia.
Qed.

(** The run-time variants are the compile-time ones. *)
Lemma add_eq x y : canonical x -> canonical y -> add x y = const_add x y.
Proof.
  intros [Hx ?] [Hy ?]. unfold add, const_add.
  rewrite add_assign_noreduce_eq by assumption.
  apply reduce_partial_eq, const_add_noreduce_mod; assumption.
Qed.

Lemma double_eq x : canonical x -> double x = const_add x x.
Proof.
  intros [Hx ?]. unfold double, const_add.
  rewrite double_assign_noreduce_eq by assumption.
  apply reduce_partial_eq, const_add_noreduce_mod; assumption.
Qed.

Lemma sub_eq x y : canonical x -> canonical y -> sub x y = const_sub x y.
Proof.
  intros [Hx ?] [Hy ?]. unfold sub, const_sub. cbv zeta.
  destruct (const_gt y x).
  - rewrite add_assign_noreduce_eq by (assumption || apply P_ok).
    apply sub_assign_noreduce_eq; [|assumption].
    apply const_add_noreduce_mod; [assumption | apply P_ok].
  - now apply sub_assign_noreduce_eq.
Qed.

Lemma negate_eq x : canonical x -> negate x = const_neg x.
Proof.
  intros [Hx ?]. unfold negate, const_neg. destruct (is_zero x); cbn [negb]; [reflexivity|].
  apply sub_assign_noreduce_eq; [apply P_ok | assumption].
Qed.

(** ** Multiplication *)

(** What a product routine owes the reduction: eight words whose value is [t]. *)
Definition wide_words (t : Z) (reduce : Z -> Z -> Z -> Z -> Z -> Z -> Z -> Z -> limbs)
    (res : limbs) : Prop :=
  exists r0 r1 r2 r3 r4 r5 r6 r7,
    res = reduce r0 r1 r2 r3 r4 r5 r6 r7 /\
    u64_ok r0 /\ u64_ok r1 /\ u64_ok r2 /\ u64_ok r3 /\
    u64_ok r4 /\ u64_ok r5 /\ u64_ok r6 /\ u64_ok r7 /\
    wide r0 r1 r2 r3 r4 r5 r6 r7 = t.

Lemma sos_mul_spec reduce x y :
  limbs_ok x -> limbs_ok y -> wide_words (eval x * eval y) reduce (sos_mul reduce x y).
Proof.
  intros (? & ? & ? & ?) (? & ? & ? & ?). unfold sos_mul. cbv zeta.
  do 16 mac_step.
  do 8 eexists. split; [reflexivity|]. repeat (split; [assumption|]).
  unfold wide, eval. lia.
Qed.

(** Doubling a word and shifting in the top bit of the word below it. *)
Lemma double_word a b :
  u64_ok a -> u64_ok b ->
  Z.lor (shl64 a 1) (shr64 b 63) = 2 * a - W64 * shr64 a 63 + shr64 b 63 /\
  0 <= shr64 a 63 <= 1 /\ u64_ok (Z.lor (shl64 a 1) (shr64 b 63)).
Proof.
  unfold u64_ok, shr64, shl64, as_u64. intros Ha Hb.
  rewrite !Z.shiftr_div_pow2, !Z.shiftl_mul_pow2 by lia. change (2 ^ 1) with 2.
  change (2 ^ 63) with 9223372036854775808.
  set (t := b / 9223372036854775808). assert (0 <= t <= 1) by (unfold t; Z.div_mod_to_equations; lia).
  clearbody t.
  replace ((a * 2) mod W64) with (Z.shiftl (a mod 9223372036854775808) 1).
  2: { rewrite Z.shiftl_mul_pow2 by lia. change (2 ^ 1) with 2.
       change W64 with (9223372036854775808 * 2). now rewrite Z.mul_mod_distr_r. }
  rewrite Z.lor_comm, lor_shiftl_add by lia. change (2 ^ 1) with 2.
  Z.div_mod_to_equations. lia.
Qed.

Lemma double_low_word a :
  u64_ok a -> shl64 a 1 = 2 * a - W64 * shr64 a 63 /\ u64_ok (shl64 a 1).
Proof.
  intros Ha. destruct (double_word a 0 Ha) as (E & _ & Hok); [unfold u64_ok; lia|].
  change (shr64 0 63) with 0 in *. rewrite Z.lor_0_r, Z.add_0_r in *. auto.
Qed.

Ltac double_step :=
  match goal with
  | |- context [Z.lor (shl64 ?a 1) (shr64 ?b 63)] =>
      let D := fresh "D" in let E := fresh "E" in
      destruct (double_word a b) as (E & ? & ?); [assumption ..|];
      set (D := Z.lor (shl64 a 1) (shr64 b 63)) in *; clearbody D
  end.

Lemma sos_square_spec reduce x :
  limbs_ok x ->
  wide_words (eval x * eval x) reduce
    (sos_square (fun a carry => const_adc a 0 carry) reduce x).
Proof.
  intros Hx. pose proof (eval_range x Hx) as Hr. destruct Hx as (? & ? & ? & ?).
  unfold sos_square. cbv zeta.
  do 6 mac_step. repeat double_step.
  destruct (double_low_word w ltac:(assumption)) as [? ?].
  set (d1 := shl64 w 1) in *; clearbody d1.
  set (t6 := shr64 c4 63) in *. assert (u64_ok t6) by (unfold u64_ok; lia). clearbody t6.
  do 4 (mac_step; adc_step).
  do 8 eexists. split; [reflexivity|]. repeat (split; [assumption|]).
  assert (eval x * eval x < W256 * W256) by nia.
  unfold wide, eval, u64_ok in *. lia.
Qed.

(** The run-time squaring carries with [acc] instead of [const_adc]. *)
Lemma sos_square_acc_spec reduce x :
  limbs_ok x -> wide_words (eval x * eval x) reduce (sos_square acc reduce x).
Proof.
  intros Hx. pose proof (sos_square_spec reduce x Hx) as S.
  replace (sos_square acc reduce x)
    with (sos_square (fun a carry => const_adc a 0 carry) reduce x); [exact S|].
  clear S. destruct Hx as (? & ? & ? & ?). unfold sos_square. cbv zeta.
  do 6 mac_step. repeat double_step.
  destruct (double_low_word w ltac:(assumption)) as [? ?].
  assert (u64_ok (shr64 c4 63)) by (unfold u64_ok; lia).
  do 4 (mac_step; rewrite acc_const_adc by assumption; adc_step;
        try match goal with H : 0 <= ?c <= 1 |- context [?c] =>
              assert (u64_ok c) by (unfold u64_ok; lia) end).
  reflexivity.
Qed.

Lemma const_reduce_words t x :
  wide_words t const_mont_reduce x -> t < modulus * W256 ->
  canonical x /\ (eval x * W256) mod modulus = t mod modulus.
Proof.
  intros (r0&r1&r2&r3&r4&r5&r6&r7&->&?&?&?&?&?&?&?&?&<-) Hlt.
  now apply const_mont_reduce_spec.
Qed.

Lemma reduce_words t x :
  wide_words t mont_reduce x -> t < modulus * W256 -> wide_words t const_mont_reduce x.
Proof.
  intros (r0&r1&r2&r3&r4&r5&r6&r7&->&?&?&?&?&?&?&?&?&<-) Hlt.
  exists r0, r1, r2, r3, r4, r5, r6, r7.
  split; [now apply mont_reduce_eq | repeat (split; [assumption|]); reflexivity].
Qed.

(** ** The field an element denotes

    [val x] is the residue class [eval x * 2^-256]. *)

Lemma coprime_2 : Z.coprime 2 modulus.
Proof.
  apply Z.coprime_prime_l; [apply Z.prime_2|]. intros [q E].
  pose proof P_odd as O. rewrite E, Z.odd_mul, andb_false_r in O. discriminate.
Qed.

Lemma coprime_W256 : Z.coprime W256 modulus.
Proof. change W256 with (2 ^ 256). apply Z.coprime_pow_l; [lia | apply coprime_2]. Qed.

Definition val (x : limbs) : Zmod modulus := Zmod.mul (cls (eval x)) (Zmod.inv Rcls).

Lemma Rcls_inv : Zmod.mul (Zmod.inv Rcls) Rcls = Zmod.one.
Proof.
  apply Zmod.mul_inv_same_l_coprime. rewrite Zmod.unsigned_of_Z.
  apply Z.coprime_mod_l_iff, coprime_W256.
Qed.

Lemma val_R x : Zmod.mul (val x) Rcls = cls (eval x).
Proof. unfold val. rewrite <- Zmod.mul_assoc, Rcls_inv. apply Zmod.mul_1_r. Qed.

(** [val x] is the only class whose product with [2^256] is [eval x]. *)
Lemma val_unique x v : Zmod.mul v Rcls = cls (eval x) -> val x = v.
Proof.
  intros E. unfold val. rewrite <- E, <- Zmod.mul_assoc, (Zmod.mul_comm Rcls), Rcls_inv.
  apply Zmod.mul_1_r.
Qed.

Lemma cls_eq a b : a mod modulus = b mod modulus -> cls a = cls b.
Proof. intros. now apply Zmod.of_Z_inj. Qed.

Lemma val_inj x y : canonical x -> canonical y -> val x = val y -> x = y.
Proof.
  intros Hx Hy E. apply canonical_range in Hx as [? ?], Hy as [? ?].
  apply (f_equal (fun v => Zmod.mul v Rcls)) in E. rewrite !val_R in E.
  apply Zmod.of_Z_inj in E. rewrite !Z.mod_small in E by lia.
  now apply eval_inj.
Qed.

Lemma val_ZERO : val ZERO = Zmod.zero.
Proof. unfold val. change (eval ZERO) with 0. apply Zmod.mul_0_l. Qed.

Lemma val_ONE : val ONE = Zmod.one.
Proof.
  apply val_unique. rewrite Zmod.mul_1_l. apply cls_eq.
  unfold ONE. rewrite R_spec, Z.mod_mod; [reflexivity | pose proof modulus_pos; lia].
Qed.

Lemma canonical_ZERO : canonical ZERO.
Proof. split; [apply ZERO_ok | apply modulus_pos]. Qed.

Lemma canonical_ONE : canonical ONE.
Proof.
  split; [apply R_ok|]. unfold ONE. rewrite R_spec.
  apply Z.mod_pos_bound, modulus_pos.
Qed.

Lemma canonical_R2 : canonical R2.
Proof.
  split; [apply R2_ok|]. rewrite R2_spec. apply Z.mod_pos_bound, modulus_pos.
Qed.

Lemma val_0_iff x : canonical x -> val x = Zmod.zero <-> eval x = 0.
Proof.
  intros Hx. split; intros E.
  - rewrite <- val_ZERO in E. apply val_inj in E; auto using canonical_ZERO. now subst.
  - unfold val. rewrite E. apply Zmod.mul_0_l.
Qed.

(** Every operation on canonical elements returns a canonical element that
    denotes the field operation's result. *)
Lemma const_add_val x y :
  canonical x -> canonical y ->
  canonical (const_add x y) /\ val (const_add x y) = Zmod.add (val x) (val y).
Proof.
  intros Hx Hy. destruct (const_add_spec x y Hx Hy) as [Hc E]. split; [exact Hc|].
  unfold val. rewrite <- Zmod.mul_add_l, <- Zmod.of_Z_add, E, Zmod.of_Z_mod. reflexivity.
Qed.

Lemma const_sub_val x y :
  canonical x -> canonical y ->
  canonical (const_sub x y) /\ val (const_sub x y) = Zmod.sub (val x) (val y).
Proof.
  intros Hx Hy. destruct (const_sub_spec x y Hx Hy) as [Hc E]. split; [exact Hc|].
  unfold val. rewrite <- Zmod.mul_sub_l, <- Zmod.of_Z_sub, E, Zmod.of_Z_mod. reflexivity.
Qed.

Lemma const_neg_val x :
  canonical x -> canonical (const_neg x) /\ val (const_neg x) = Zmod.opp (val x).
Proof.
  intros Hx. destruct (const_neg_spec x Hx) as [Hc E]. split; [exact Hc|].
  unfold val. rewrite <- Zmod.mul_opp_l, <- Zmod.of_Z_opp, E, Zmod.of_Z_mod. reflexivity.
Qed.

(** A reduced product of [t] denotes [t * 2^-512]. *)
Lemma reduced_val t x :
  wide_words t const_mont_reduce x -> t < modulus * W256 ->
  canonical x /\ val x = Zmod.mul (Zmod.mul (cls t) (Zmod.inv Rcls)) (Zmod.inv Rcls).
Proof.
  intros Hw Ht. destruct (const_reduce_words t x Hw Ht) as [Hc E]. split; [exact Hc|].
  unfold val. f_equal. apply cls_eq in E. rewrite Zmod.of_Z_mul in E.
  rewrite <- E, <- Zmod.mul_assoc, (Zmod.mul_comm Rcls), Rcls_inv. symmetry. apply Zmod.mul_1_r.
Qed.

Lemma product_bound x y :
  limbs_ok x -> canonical y -> eval x * eval y < modulus * W256.
Proof.
  intros Hx Hy. apply canonical_range in Hy as [? ?]. pose proof (eval_range x Hx). nia.
Qed.

Lemma val_mul_raw x y :
  Zmod.mul (Zmod.mul (cls (eval x * eval y)) (Zmod.inv Rcls)) (Zmod.inv Rcls)
  = Zmod.mul (val x) (val y).
Proof.
  unfold val. rewrite Zmod.of_Z_mul. rewrite <- !Zmod.mul_assoc. f_equal.
  rewrite !Zmod.mul_assoc. f_equal. apply Zmod.mul_comm.
Qed.

(** The first factor of a product may be any four limbs. *)
Lemma const_mul_val x y :
  limbs_ok x -> canonical y ->
  canonical (const_mul x y) /\ val (const_mul x y) = Zmod.mul (val x) (val y).
Proof.
  intros Hx Hy. rewrite <- val_mul_raw. apply reduced_val; [|now apply product_bound].
  apply sos_mul_spec; [assumption | apply Hy].
Qed.

Lemma mul_eq x y : limbs_ok x -> canonical y -> mul x y = const_mul x y.
Proof.
  intros Hx Hy. apply val_inj.
  - eapply reduced_val; [eapply reduce_words; [apply sos_mul_spec|] | ];
      (assumption || apply Hy || now apply product_bound).
  - now apply const_mul_val.
  - destruct (const_mul_val x y Hx Hy) as [_ ->]. rewrite <- val_mul_raw.
    eapply reduced_val; [eapply reduce_words; [apply sos_mul_spec|] | ];
      (assumption || apply Hy || now apply product_bound).
Qed.

Lemma const_square_val x :
  canonical x ->
  canonical (const_square x) /\ val (const_square x) = Zmod.mul (val x) (val x).
Proof.
  intros Hx. rewrite <- val_mul_raw. apply reduced_val; [|apply product_bound; [apply Hx|assumption]].
  apply sos_square_spec, Hx.
Qed.

Lemma square_val x :
  canonical x -> canonical (square x) /\ val (square x) = Zmod.mul (val x) (val x).
Proof.
  intros Hx. rewrite <- val_mul_raw.
  assert (eval x * eval x < modulus * W256) by (apply product_bound; [apply Hx|assumption]).
  apply reduced_val; [|assumption]. apply reduce_words; [|assumption].
  apply sos_square_acc_spec, Hx.
Qed.

Lemma add_val x y :
  canonical x -> canonical y ->
  canonical (add x y) /\ val (add x y) = Zmod.add (val x) (val y).
Proof. intros. rewrite add_eq by assumption. now apply const_add_val. Qed.

Lemma double_val x :
  canonical x -> canonical (double x) /\ val (double x) = Zmod.add (val x) (val x).
Proof. intros. rewrite double_eq by assumption. now apply const_add_val. Qed.

Lemma sub_val x y :
  canonical x -> canonical y ->
  canonical (sub x y) /\ val (sub x y) = Zmod.sub (val x) (val y).
Proof. intros. rewrite sub_eq by assumption. now apply const_sub_val. Qed.

Lemma negate_val x :
  canonical x -> canonical (negate x) /\ val (negate x) = Zmod.opp (val x).
Proof. intros. rewrite negate_eq by assumption. now apply const_neg_val. Qed.

Lemma mul_val x y :
  canonical x -> canonical y ->
  canonical (mul x y) /\ val (mul x y) = Zmod.mul (val x) (val y).
Proof. intros Hx Hy. rewrite mul_eq by (assumption || apply Hx). apply const_mul_val; [apply Hx | exact Hy]. Qed.

Lemma is_one_spec x : canonical x -> is_one x = true <-> val x = Zmod.one.
Proof.
  intros Hx. transitivity (x = ONE).
  - change (is_one x) with (limbs_eqb x R). unfold ONE.
    destruct (limbs_eqb_spec x R); split; congruence.
  - rewrite <- val_ONE. split; [now intros -> | apply val_inj; [exact Hx | apply canonical_ONE]].
Qed.

Lemma is_zero_val x : canonical x -> is_zero x = true <-> val x = Zmod.zero.
Proof.
  intros Hx. rewrite val_0_iff by exact Hx.
  destruct (is_zero_spec x) as [E|E]; [apply Hx| |]; split; congruence.
Qed.

(** ** Leaving and entering Montgomery form *)

Lemma wide_low x : wide (l0 x) (l1 x) (l2 x) (l3 x) 0 0 0 0 = eval x.
Proof. unfold wide, eval. ring. Qed.

Lemma wide_low_bound x :
  limbs_ok x -> wide (l0 x) (l1 x) (l2 x) (l3 x) 0 0 0 0 < modulus * W256.
Proof. intros Hx. rewrite wide_low. pose proof (eval_range x Hx). pose proof P_gt2. lia. Qed.

Lemma const_reduce_full_spec x :
  limbs_ok x ->
  canonical (const_reduce_full x) /\ eval (const_reduce_full x) = Zmod.unsigned (val x).
Proof.
  intros Hx. pose proof modulus_pos.
  destruct (const_mont_reduce_spec (l0 x) (l1 x) (l2 x) (l3 x) 0 0 0 0) as [Hc E];
    [apply Hx .. | | | | | now apply wide_low_bound |]; try (unfold u64_ok; lia).
  rewrite wide_low in E.
  unfold const_reduce_full. split; [exact Hc|].
  apply canonical_range in Hc as [? ?].
  set (r := const_mont_reduce _ _ _ _ _ _ _ _) in *.
  rewrite <- (Z.mod_small (eval r) modulus), <- Zmod.unsigned_of_Z by lia. f_equal.
  symmetry. apply val_unique. rewrite <- Zmod.of_Z_mul. now apply cls_eq.
Qed.

Lemma reduce_full_eq x : limbs_ok x -> reduce_full x = const_reduce_full x.
Proof.
  intros Hx. unfold reduce_full, const_reduce_full.
  apply mont_reduce_eq; [apply Hx .. | | | | | now apply wide_low_bound];
    unfold u64_ok; lia.
Qed.

Lemma val_R2 : val R2 = Rcls.
Proof.
  apply val_unique. rewrite <- Zmod.of_Z_mul. apply cls_eq.
  rewrite R2_spec, Z.mod_mod; [reflexivity | pose proof modulus_pos; lia].
Qed.

(** Multiplying any four limbs by [R2] enters Montgomery form. *)
Lemma const_from_native_val x :
  limbs_ok x ->
  canonical (const_from_native x) /\ val (const_from_native x) = cls (eval x).
Proof.
  intros Hx. unfold const_from_native.
  destruct (const_mul_val x R2 Hx canonical_R2) as [? ->]. split; [assumption|].
  rewrite val_R2. apply val_R.
Qed.

Lemma const_cmp_native_spec x y :
  limbs_ok x -> limbs_ok y ->
  const_cmp_native x y = Z.compare (Zmod.unsigned (val x)) (Zmod.unsigned (val y)).
Proof.
  intros Hx Hy. unfold const_cmp_native. cbv zeta.
  destruct (const_reduce_full_spec x Hx) as [[? _] <-].
  destruct (const_reduce_full_spec y Hy) as [[? _] <-].
  now apply const_cmp_eval.
Qed.
End Facts.

#[export] Hint Resolve canonical_ZERO canonical_ONE canonical_R2 : words.
