(* ===== verification/FieldAlgos.v ===== *)
(** The longer algorithms over Montgomery elements: the alternative CIOS
    multiplication, exponentiation, and inversion by the binary extended
    Euclidean algorithm, with its termination. *)

From Stdlib Require Import ZArith Lia Bool List Zmod.
From S2P Require Import Prelude Words Montgomery MontgomeryFacts.
Import ListNotations.
Local Open Scope Z_scope.

Section Algos.
Context {F : MontField} {FOk : MontFieldOk F}.

(** ** CIOS multiplication *)

(** One outer iteration on multiplier word [x[i]] adds [self * x[i]] and a
    multiple of the modulus, and drops a zero word. *)
Lemma cios_outer_spec self x r i :
  canonical self -> limbs_ok r -> eval r < 2 * modulus -> u64_ok (limb x i) ->
  let r' := cios_outer self x r i in
  limbs_ok r' /\ eval r' < 2 * modulus /\
  exists k, 0 <= k < W64 /\ W64 * eval r' = eval r + eval self * limb x i + k * modulus.
Proof.
  intros Hs Hr Hlt Hx. apply canonical_range in Hs as [Hs Hsr].
  pose proof (eval_range r Hr) as Hrr.
  destruct Hs as (? & ? & ? & ?), Hr as (? & ? & ? & ?). destruct P_limbs as (? & ? & ? & ?).
  unfold cios_outer. cbv zeta. set (xi := limb x i) in *. clearbody xi.
  mac_step. cbn [set_limb l0].
  set (k := wrapping_mul w M0). assert (u64_ok k) by apply as_u64_ok.
  mac_step.
  assert (w0 = 0).
  { eapply low_word_zero; [eassumption | exact E0 |]. rewrite Z.add_0_r. now apply k_cancels. }
  clearbody k. subst w0.
  cbn [fold_left].
  unfold cios_inner. cbn [limb set_limb l0 l1 l2 l3 Nat.sub].
  do 3 (do 2 mac_step; cbn [limb set_limb l0 l1 l2 l3]).
  cbn [set_limb l0 l1 l2 l3].
  assert (Sum : W64 * (w1 + W64 * w3 + W128 * w5 + W192 * (c5 + c6))
    = eval r + eval self * xi + k * modulus) by (unfold modulus, eval; lia).
  pose proof P_bits. pose proof modulus_pos. clear E E0 E1 E2 E3 E4 E5 E6.
  assert (eval self * xi <= modulus * (W64 - 1)) by (unfold u64_ok in *; nia).
  assert (k * modulus <= (W64 - 1) * modulus)
    by (apply Z.mul_le_mono_nonneg_r; unfold u64_ok in *; lia).
  assert (u64_ok (c5 + c6)) by (unfold u64_ok in *; lia).
  rewrite as_u64_id by assumption. unfold limbs_ok; cbn [l0 l1 l2 l3].
  assert (Ev : forall a b c d, eval (Limbs a b c d) = a + W64 * b + W128 * c + W192 * d)
    by reflexivity.
  rewrite Ev. split; [auto|]. split; [lia|].
  exists k. split; [assumption|lia].
Qed.

Lemma const_mul_cios_eq x y :
  canonical x -> canonical y -> const_mul_cios x y = const_mul x y.
Proof.
  intros Hx Hy. pose proof modulus_pos. pose proof Hx as [Hxk _]. pose proof Hy as [Hyk _].
  assert (Hy0 : forall i, u64_ok (limb y i)).
  { destruct Hyk as (? & ? & ? & ?). intros [|[|[|i]]]; assumption. }
  unfold const_mul_cios, idx_up; cbn [fold_left].
  destruct (cios_outer_spec x y ZERO 0 Hx ZERO_ok) as (O1 & B1 & k1 & K1 & E1);
    [change (eval ZERO) with 0; lia | auto |].
  destruct (cios_outer_spec x y _ 1 Hx O1 B1) as (O2 & B2 & k2 & K2 & E2); [auto|].
  destruct (cios_outer_spec x y _ 2 Hx O2 B2) as (O3 & B3 & k3 & K3 & E3); [auto|].
  destruct (cios_outer_spec x y _ 3 Hx O3 B3) as (O4 & B4 & k4 & K4 & E4); [auto|].
  set (r4 := cios_outer x y _ 3) in *. cbn [limb] in *. change (eval ZERO) with 0 in *.
  destruct (const_reduce_partial_spec r4 O4 B4) as [Hc Er].
  destruct (const_mul_val x y Hxk Hy) as [Hm Em].
  apply val_inj; [exact Hc | exact Hm |]. rewrite Em, <- val_mul_raw.
  apply val_unique. rewrite <- Zmod.mul_assoc, Rcls_inv, Zmod.mul_1_r.
  rewrite <- (Zmod.mul_1_r (cls (eval (const_reduce_partial r4)))).
  rewrite <- Rcls_inv, (Zmod.mul_comm (Zmod.inv _)), Zmod.mul_assoc. f_equal.
  rewrite <- Zmod.of_Z_mul. apply cls_eq. rewrite Er, Z.mul_mod_idemp_l by lia.
  symmetry. replace (eval r4 * W256) with
    (eval x * eval y + (k1 + W64 * k2 + W128 * k3 + W192 * k4) * modulus).
  - apply Z.mod_add; lia.
  - unfold eval at 2. clearbody r4. lia.
Qed.

(** ** Exponentiation *)

Lemma pow_loop x l res n :
  canonical x -> canonical res -> 0 <= n -> val res = Zmod.pow (val x) n ->
  let step := fun res (i : bool) => let res := square res in if i then mul res x else res in
  canonical (fold_left step l res) /\
  val (fold_left step l res)
  = Zmod.pow (val x) (fold_left (fun acc b => 2 * acc + Z.b2z b) l n).
Proof.
  intros Hx. revert res n. induction l as [|b l IH]; intros res n Hr Hn E; cbn [fold_left];
    [auto|].
  destruct (square_val res Hr) as [Hs Es].
  assert (E2 : val (square res) = Zmod.pow (val x) (2 * n)).
  { rewrite Es, E, <- Zmod.pow_add_r_nonneg by lia. f_equal. lia. }
  apply IH; [| destruct b; cbn; lia |]; destruct b; cbn [Z.b2z].
  - now apply mul_val.
  - assumption.
  - destruct (mul_val _ x Hs Hx) as [_ ->]. rewrite E2, Zmod.pow_add_r_nonneg by lia.
    now rewrite Zmod.pow_1_r.
  - rewrite E2. f_equal. lia.
Qed.

Lemma pow_val x exp :
  canonical x -> Forall u64_ok exp ->
  canonical (pow x exp) /\ val (pow x exp) = Zmod.pow (val x) (slice_val exp).
Proof.
  intros Hx He. rewrite <- (without_leading_zeros_val exp He).
  apply pow_loop; [exact Hx | apply canonical_ONE | lia |].
  rewrite Zmod.pow_0_r. apply val_ONE.
Qed.

(** ** Inversion *)

Lemma cancel_2 (a b : Zmod modulus) :
  Zmod.mul (cls 2) a = Zmod.mul (cls 2) b -> a = b.
Proof.
  apply Zmod.mul_cancel_l_coprime. rewrite Zmod.unsigned_of_Z.
  apply Z.coprime_mod_l_iff, coprime_2.
Qed.

(** Halving modulo [P]: what each inner loop does to its second number. *)
Definition half_mod (b : limbs) : limbs :=
  if is_even b then div2 b else div2 (add_assign_noreduce b P).

Lemma half_mod_spec b :
  canonical b ->
  canonical (half_mod b) /\ Zmod.mul (cls 2) (cls (eval (half_mod b))) = cls (eval b).
Proof.
  intros Hb. apply canonical_range in Hb as [Hb Hr]. unfold half_mod, canonical.
  pose proof modulus_pos. pose proof P_odd as O. pose proof P_bits.
  rewrite is_even_spec by assumption. destruct (Z.even (eval b)) eqn:Ev.
  - destruct (div2_spec b Hb) as [? ->]. apply Z.even_spec in Ev as [q Eq].
    rewrite Eq, Z.mul_comm, Z.div_mul by lia.
    split; [split; [assumption|lia]|]. rewrite <- Zmod.of_Z_mul. f_equal. lia.
  - rewrite add_assign_noreduce_eq by (assumption || apply P_ok).
    destruct (const_add_noreduce_exact b P Hb P_ok) as [Ho E]; [rewrite eval_P; lia|].
    rewrite eval_P in E. destruct (div2_spec _ Ho) as [? ->]. rewrite E.
    assert (Ob : Z.odd (eval b) = true) by (rewrite <- Z.negb_even, Ev; reflexivity).
    apply Z.odd_spec in O as [p Ep]. apply Z.odd_spec in Ob as [q Eq].
    replace (eval b + modulus) with ((q + p + 1) * 2) by lia. rewrite Z.div_mul by lia.
    split; [split; [assumption|lia]|]. rewrite <- Zmod.of_Z_mul. apply cls_eq.
    replace (2 * (q + p + 1)) with (eval b + 1 * modulus) by lia. apply Z.mod_add; lia.
Qed.

(** The relation each pair of loop variables keeps: [b * x = u * k]. *)
Definition ratio (x k : Zmod modulus) (u b : limbs) : Prop :=
  Zmod.mul (cls (eval b)) x = Zmod.mul (cls (eval u)) k.

Lemma halve_loop_spec x k fuel u b :
  limbs_ok u -> canonical b -> 0 < eval u < 2 ^ Z.of_nat fuel -> ratio x k u b ->
  exists u' b' n,
    halve_loop fuel u b = Some (u', b') /\ limbs_ok u' /\ canonical b' /\
    Z.odd (eval u') = true /\ 0 <= n /\ eval u = 2 ^ n * eval u' /\
    (Z.odd (eval u) = true \/ 0 < n) /\ ratio x k u' b'.
Proof.
  revert u b. induction fuel as [|fuel IH]; intros u b Hu Hb Hlt Hrel.
  - change (2 ^ Z.of_nat 0) with 1 in Hlt. lia.
  - cbn [halve_loop]. rewrite is_even_spec by assumption.
    destruct (Z.even (eval u)) eqn:Ev.
    + destruct (div2_spec u Hu) as [Hd Ed].
      change (if is_even b then div2 b else div2 (add_assign_noreduce b P)) with (half_mod b).
      destruct (half_mod_spec b Hb) as [Hh Eh].
      apply Z.even_spec in Ev as [q Eq].
      assert (Eq2 : eval (div2 u) = q) by (rewrite Ed, Eq, Z.mul_comm; apply Z.div_mul; lia).
      rewrite Nat2Z.inj_succ, Z.pow_succ_r in Hlt by lia.
      destruct (IH (div2 u) (half_mod b)) as (u' & b' & n & E & ? & ? & ? & ? & En & _ & ?);
        [assumption | assumption | lia | |].
      { unfold ratio in *. apply cancel_2. rewrite !Zmod.mul_assoc, Eh, Hrel.
        f_equal. rewrite <- Zmod.of_Z_mul. f_equal. lia. }
      exists u', b', (Z.succ n). rewrite E. repeat (split; [assumption||reflexivity|]).
      split; [lia|]. split; [|split; [right; lia|assumption]].
      rewrite Z.pow_succ_r by lia. lia.
    + exists u, b, 0. rewrite <- Z.negb_even, Ev.
      repeat (split; [assumption || reflexivity || lia |]). assumption.
Qed.

Lemma one_raw_ok : limbs_ok one_raw.
Proof. unfold limbs_ok, u64_ok, one_raw; cbn [l0 l1 l2 l3]; lia. Qed.

Lemma one_raw_spec u : limbs_ok u -> reflect (eval u = 1) (limbs_eqb u one_raw).
Proof.
  intros Hu. apply iff_reflect. destruct (limbs_eqb_spec u one_raw) as [->|N].
  - split; reflexivity.
  - split; [|discriminate]. intros E. destruct N. now apply eval_inj; [|apply one_raw_ok|].
Qed.

(** The invariant of the outer loop. *)
Record euclid_inv (x k : Zmod modulus) (u v b c : limbs) : Prop := {
  ei_u : limbs_ok u;
  ei_v : limbs_ok v;
  ei_b : canonical b;
  ei_c : canonical c;
  ei_ub : ratio x k u b;
  ei_vc : ratio x k v c;
  ei_pos : 0 < eval u;
  ei_stop : eval v = 0 -> eval u = 1;
  ei_gcd : Z.coprime (eval u) (eval v)
}.

Lemma ratio_sub x k u v b c :
  limbs_ok u -> limbs_ok v -> canonical b -> canonical c -> eval v <= eval u ->
  ratio x k u b -> ratio x k v c ->
  ratio x k (sub_assign_noreduce u v) (const_sub b c).
Proof.
  intros Hu Hv Hb Hc Hle E1 E2. unfold ratio in *.
  rewrite sub_assign_noreduce_eq by assumption.
  destruct (const_sub_noreduce_exact u v Hu Hv Hle) as [_ ->].
  destruct (const_sub_spec b c Hb Hc) as [_ ->].
  rewrite Zmod.of_Z_mod, !Zmod.of_Z_sub, !Zmod.mul_sub_l. congruence.
Qed.

Lemma coprime_odd_part u v n m :
  0 <= n -> 0 <= m -> Z.coprime (2 ^ n * u) (2 ^ m * v) -> Z.coprime u v.
Proof.
  intros Hn Hm H. apply Z.Bezout_coprime_iff in H as (s & t & E).
  apply Z.Bezout_coprime_iff. exists (s * 2 ^ n), (t * 2 ^ m). rewrite <- E. ring.
Qed.

(** The two inner loops: both numbers become odd, and their product at least
    halves when one of them was even. *)
Lemma euclid_halve x k u v b c :
  euclid_inv x k u v b c -> 0 < eval v ->
  exists u1 b1 v1 c1,
    halve_loop 260 u b = Some (u1, b1) /\ halve_loop 260 v c = Some (v1, c1) /\
    euclid_inv x k u1 v1 b1 c1 /\
    Z.odd (eval u1) = true /\ Z.odd (eval v1) = true /\ 0 < eval v1 /\
    eval u1 * eval v1 <= eval u * eval v /\
    (Z.odd (eval u) = false \/ Z.odd (eval v) = false ->
     2 * (eval u1 * eval v1) <= eval u * eval v).
Proof.
  intros [Hu Hv Hb Hc Eu Ev Hpos _ Hg] Hv0.
  assert (Small : forall y, limbs_ok y -> eval y < 2 ^ Z.of_nat 260).
  { intros y Hy. apply eval_range in Hy. change (2 ^ Z.of_nat 260) with (16 * W256). lia. }
  destruct (halve_loop_spec x k 260 u b) as (u1 & b1 & n & L1 & ? & ? & ? & ? & Un & On & ?);
    auto.
  destruct (halve_loop_spec x k 260 v c) as (v1 & c1 & m & L2 & ? & ? & ? & ? & Vm & Om & ?);
    auto.
  exists u1, b1, v1, c1. do 2 (split; [assumption|]).
  rewrite Un, Vm in Hg. apply coprime_odd_part in Hg; try assumption.
  assert (1 <= 2 ^ n) by (pose proof (Z.pow_pos_nonneg 2 n); lia).
  assert (1 <= 2 ^ m) by (pose proof (Z.pow_pos_nonneg 2 m); lia).
  assert (0 < eval u1) by nia. assert (0 < eval v1) by nia.
  split; [constructor; (assumption || lia)|].
  do 3 (split; [assumption|]).
  split; [rewrite Un, Vm; nia|]. intros Hodd.
  assert (2 <= 2 ^ n * 2 ^ m).
  { destruct Hodd as [Ho|Ho]; [destruct On as [On|On]; [congruence|] | destruct Om as [Om|Om]; [congruence|]];
      [pose proof (Z.pow_le_mono_r 2 1 n) | pose proof (Z.pow_le_mono_r 2 1 m)]; nia. }
  rewrite Un, Vm. set (p := 2 ^ n) in *. set (q := 2 ^ m) in *. clearbody p q.
  replace (p * eval u1 * (q * eval v1)) with ((p * q) * (eval u1 * eval v1)) by ring.
  apply Z.mul_le_mono_nonneg_r; nia.
Qed.

(** The subtraction that ends an iteration leaves one number even. *)
Lemma euclid_sub_l x k u v b c :
  euclid_inv x k u v b c -> Z.odd (eval u) = true -> Z.odd (eval v) = true ->
  0 < eval v -> eval v < eval u ->
  euclid_inv x k (sub_assign_noreduce u v) v (const_sub b c) c /\
  eval (sub_assign_noreduce u v) = eval u - eval v.
Proof.
  intros [Hu Hv Hb Hc Eu Ev Hpos _ Hg] Ou Ov Hv0 Hlt.
  pose proof (ratio_sub x k u v b c Hu Hv Hb Hc ltac:(lia) Eu Ev) as Er.
  rewrite sub_assign_noreduce_eq in * by assumption.
  destruct (const_sub_noreduce_exact u v Hu Hv) as [Hok E]; [lia|].
  split; [|exact E]. constructor; try assumption; try (rewrite ?E; lia).
  - now apply const_sub_spec.
  - rewrite E. apply Z.Bezout_coprime_iff in Hg as (s & t & G).
    apply Z.Bezout_coprime_iff. exists s, (t + s). rewrite <- G. ring.
Qed.

Lemma euclid_sub_r x k u v b c :
  euclid_inv x k u v b c -> eval u <= eval v ->
  euclid_inv x k u (sub_assign_noreduce v u) b (const_sub c b) /\
  eval (sub_assign_noreduce v u) = eval v - eval u.
Proof.
  intros [Hu Hv Hb Hc Eu Ev Hpos _ Hg] Hle.
  pose proof (ratio_sub x k v u c b Hv Hu Hc Hb Hle Ev Eu) as Er.
  rewrite sub_assign_noreduce_eq in * by assumption.
  destruct (const_sub_noreduce_exact v u Hv Hu) as [Hok E]; [lia|].
  split; [|exact E]. constructor; try assumption.
  - now apply const_sub_spec.
  - rewrite E. intros Z0. replace (eval v) with (eval u) in Hg by lia.
    unfold Z.coprime in Hg. rewrite Z.gcd_diag in Hg. lia.
  - rewrite E. apply Z.Bezout_coprime_iff in Hg as (s & t & G).
    apply Z.Bezout_coprime_iff. exists (s + t), t. rewrite <- G. ring.
Qed.

Lemma odd_sub_odd a b : Z.odd a = true -> Z.odd b = true -> Z.odd (a - b) = false.
Proof. intros Ha Hb. now rewrite Z.odd_sub, Ha, Hb. Qed.

Lemma euclid_exit x k u v b c :
  euclid_inv x k u v b c -> eval u = 1 \/ eval v = 1 ->
  canonical b /\ canonical c /\
  (if limbs_eqb u one_raw then ratio x k one_raw b else ratio x k one_raw c).
Proof.
  intros [Hu Hv Hb Hc Eu Ev _ _ _] H. do 2 (split; [assumption|]).
  unfold ratio in *. change (eval one_raw) with 1.
  destruct (one_raw_spec u Hu) as [E|E]; [now rewrite E in Eu|].
  destruct H as [H|H]; [contradiction | now rewrite H in Ev].
Qed.

(** The loop ends within the fuel, and one of the results is the quotient
    [k / x]. *)
Lemma inverse_loop_spec x k fuel u v b c :
  euclid_inv x k u v b c ->
  (eval u * eval v < 2 ^ Z.of_nat fuel /\ (Z.odd (eval u) = false \/ Z.odd (eval v) = false) \/
   2 * (eval u * eval v) < 2 ^ Z.of_nat fuel) ->
  exists u' b' c',
    inverse_loop fuel 260 u v b c = Some (u', b', c') /\ canonical b' /\ canonical c' /\
    (if limbs_eqb u' one_raw then ratio x k one_raw b' else ratio x k one_raw c').
Proof.
  revert u v b c. induction fuel as [|fuel IH]; intros u v b c I Hm;
    pose proof (ei_u _ _ _ _ _ _ I) as Hu; pose proof (ei_v _ _ _ _ _ _ I) as Hv;
    pose proof (ei_pos _ _ _ _ _ _ I) as Hpos; pose proof (eval_range v Hv) as Hvr;
    pose proof (ei_stop _ _ _ _ _ _ I) as Hstop; cbn [inverse_loop];
    destruct (one_raw_spec u Hu) as [Eu|Eu];
    [ exists u, b, c; split; [reflexivity | apply (euclid_exit x k u v); auto] |
    | exists u, b, c; split; [reflexivity | apply (euclid_exit x k u v); auto] | ];
    (destruct (one_raw_spec v Hv) as [Ev|Ev];
     [exists u, b, c; split; [reflexivity | apply (euclid_exit x k u v); auto] |]);
    cbn [negb andb]; (assert (Hv0 : 0 < eval v) by lia).
  - change (2 ^ Z.of_nat 0) with 1 in Hm. nia.
  - rewrite Nat2Z.inj_succ, Z.pow_succ_r in Hm by lia.
    destruct (euclid_halve x k u v b c I Hv0)
      as (u1 & b1 & v1 & c1 & -> & -> & I1 & Ou & Ov & Hv1 & Hle & Hle2).
    pose proof (ei_pos _ _ _ _ _ _ I1) as Hu1.
    assert (Hp : eval u1 * eval v1 < 2 ^ Z.of_nat fuel) by (destruct Hm as [[Hm Ho]|Hm]; [specialize (Hle2 Ho)|]; lia).
    destruct (const_lt_spec v1 u1) as [Hlt|Hge]; [apply I1 | apply I1 | |].
    + destruct (euclid_sub_l x k u1 v1 b1 c1 I1 Ou Ov Hv1 Hlt) as [I2 E2].
      apply IH; [exact I2 | left]. rewrite E2. split; [nia|]. left. now apply odd_sub_odd.
    + destruct (euclid_sub_r x k u1 v1 b1 c1 I1) as [I2 E2]; [lia|].
      apply IH; [exact I2 | left]. rewrite E2. split; [nia|]. right. now apply odd_sub_odd.
Qed.

Lemma euclid_init x :
  canonical x -> eval x <> 0 -> Z.coprime (eval x) modulus ->
  euclid_inv (cls (eval x)) (cls (eval R2)) x P R2 ZERO.
Proof.
  intros Hx Hnz Hg. apply canonical_range in Hx as [Hx Hr].
  constructor; auto using P_ok, canonical_R2, canonical_ZERO; unfold ratio; try lia.
  - apply Zmod.mul_comm.
  - change (eval ZERO) with 0. rewrite eval_P, <- !Zmod.of_Z_mul. apply cls_eq.
    rewrite Z.mul_0_l, Z.mul_comm, Z.mod_mul, Z.mod_0_l; [reflexivity | |];
      pose proof modulus_pos; lia.
  - rewrite eval_P. pose proof modulus_pos. lia.
Qed.

(** The loops of [inverse] end within their fuel on every invertible element,
    with an inverse as the result. *)
Lemma inverse_spec x :
  canonical x -> eval x <> 0 -> Z.coprime (eval x) modulus ->
  exists y, inverse_fuel 520 260 x = Some (Some y) /\
    canonical y /\ Zmod.mul (val y) (val x) = Zmod.one.
Proof.
  intros Hx Hnz Hg. unfold inverse_fuel.
  destruct (is_zero_spec x) as [E|_]; [apply Hx | contradiction |].
  pose proof (canonical_range x Hx) as [Hxo Hxr].
  destruct (inverse_loop_spec _ _ 520 x P R2 ZERO (euclid_init x Hx Hnz Hg))
    as (u & b & c & -> & Hb & Hc & Hr).
  { right. rewrite eval_P. change (2 ^ Z.of_nat 520) with (256 * (W256 * W256)).
    pose proof P_bits. nia. }
  assert (Quot : forall y, ratio (cls (eval x)) (cls (eval R2)) one_raw y ->
                 Zmod.mul (val y) (val x) = Zmod.one).
  { intros y E. unfold ratio in E. change (eval one_raw) with 1 in E.
    rewrite <- val_mul_raw, Zmod.of_Z_mul, E, Zmod.of_Z_1, Zmod.mul_1_l.
    change (Zmod.mul (val R2) (Zmod.inv Rcls) = Zmod.one).
    rewrite val_R2, Zmod.mul_comm. apply Rcls_inv. }
  destruct (limbs_eqb u one_raw); [exists b | exists c]; auto.
Qed.
End Algos.
