(* ===== verification/MontBytes.v ===== *)
(** Byte, bit and hexadecimal forms of a Montgomery field element, and random
    sampling (montfelt/{convert, hex, random}.rs and the same files of
    curveorder/). *)

From Stdlib Require Import ZArith Lia Bool List Zmod.
From S2P Require Import Prelude Bytes Words Montgomery MontgomeryFacts.
Import ListNotations.
Local Open Scope Z_scope.

(** Conversion unfolds the word-level code last. *)
#[global] Strategy 100 [sos_mul sos_square mont_rounds].
#[global] Strategy 90 [const_mul mul const_square square const_mont_reduce mont_reduce].
#[global] Strategy 80 [const_reduce_full reduce_full const_add const_sub const_neg add sub double negate].

(** ** Hexadecimal characters *)

(** The three character ranges [b'0'..=b'9'], [b'a'..=b'f'], [b'A'..=b'F']. *)
Definition hex_digit (c : Z) : option Z :=
  if (48 <=? c) && (c <=? 57) then Some (c - 48)
  else if (97 <=? c) && (c <=? 102) then Some (c - 97 + 10)
  else if (65 <=? c) && (c <=? 70) then Some (c - 65 + 10)
  else None.

(** [ALPHABET] of montfelt/hex.rs: upper case digits. *)
Definition ALPHABET : list Z :=
  [48; 49; 50; 51; 52; 53; 54; 55; 56; 57; 65; 66; 67; 68; 69; 70].

Section Forms.
Context {F : MontField}.

(** ** Bytes *)

Definition limbs_of_be_bytes (bytes : list Z) : limbs :=
  let r0 := from_be (slice 0 8 bytes) in
  let r1 := from_be (slice 8 8 bytes) in
  let r2 := from_be (slice 16 8 bytes) in
  let r3 := from_be (slice 24 8 bytes) in
  Limbs r3 r2 r1 r0.

Definition from_be_bytes (bytes : list Z) : limbs :=
  let x := limbs_of_be_bytes bytes in
  const_mul x R2.

Definition to_be_bytes (self : limbs) : list Z :=
  let s := const_reduce_full self in
  let r0 := to_be 8 (l0 s) in
  let r1 := to_be 8 (l1 s) in
  let r2 := to_be 8 (l2 s) in
  let r3 := to_be 8 (l3 s) in
  r3 ++ r2 ++ r1 ++ r0.

(** ** Bits, least significant first *)

(** The [Lsb0] bit array of four limbs. *)
Definition limb_bits (raw : limbs) : list bool :=
  map (fun i => Z.testbit (limb raw (i / 64)) (Z.of_nat (i mod 64))) (seq 0 256).

Definition into_le_bits (self : limbs) : list bool :=
  let raw := reduce_full self in
  limb_bits raw.

(** ** Hexadecimal *)

Definition to_hex (self : limbs) : list Z :=
  flat_map (fun i =>
    let limb := limb self (3 - i) in
    map (fun j =>
      let v := Z.land (shr64 limb (Z.of_nat (15 - j) * 4)) 15 in
      nth (Z.to_nat v) ALPHABET 0) (seq 0 16)) (seq 0 4).

(** [res[j] = v]; an index beyond the array panics. *)
Definition store (res : limbs) (j : nat) (v : Z) : outcome limbs :=
  if (j <? 4)%nat then Ret (set_limb res j v) else Panic.

(** The loop over the characters, last first: [i] digits are collected in
    [tmp] for limb [j]. *)
Fixpoint from_hex_loop (cs : list Z) (res : limbs) (i : Z) (j : nat) (tmp : Z)
    : outcome (limbs * Z * nat * Z) :=
  match cs with
  | [] => Ret (res, i, j, tmp)
  | c :: cs =>
      let! v := unwrap_option (hex_digit c) in
      let tmp := Z.lor tmp (shl64 v (i * 4)) in
      let i := i + 1 in
      if i =? 16 then
        let! res := store res j tmp in
        from_hex_loop cs res 0 (S j) 0
      else from_hex_loop cs res i j tmp
  end.

Definition from_hex (s : list Z) : outcome limbs :=
  let! st := from_hex_loop (rev s) ZERO 0 0 0 in
  let '(res, i, j, tmp) := st in
  let! res := if i =? 0 then Ret res else store res j tmp in
  Ret (const_mul res R2).

(** ** Sampling

    The generator is the caller's: [gen] is [Rng::gen::<u64>]. *)

Section Random.
Context {Rng : Type} (gen : Rng -> Z * Rng).

Definition sample (rng : Rng) : option limbs * Rng :=
  let '(s0, rng) := gen rng in
  let '(s1, rng) := gen rng in
  let '(s2, rng) := gen rng in
  let '(s3, rng) := gen rng in
  let s := Limbs s0 s1 s2 (Z.land s3 (Z.shiftr (W64 - 1) 4)) in
  (if const_lt s P then Some s else None, rng).

(** [loop { if let Some(s) = sample(rng) { return s; } }], with a bound on the
    number of rounds. *)
Fixpoint random (fuel : nat) (rng : Rng) : option (limbs * Rng) :=
  match fuel with
  | O => None
  | S fuel =>
      match sample rng with
      | (Some s, rng) => Some (s, rng)
      | (None, rng) => random fuel rng
      end
  end.
End Random.
End Forms.

(** ** Limbs and their bytes *)

Lemma from_be_u64 bytes : bytes_ok bytes -> length bytes = 8%nat -> u64_ok (from_be bytes).
Proof.
  intros H L. unfold from_be, u64_ok.
  pose proof (digits_value_bound 256 bytes ltac:(lia) H) as B. rewrite L in B.
  change (256 ^ Z.of_nat 8) with W64 in B. exact B.
Qed.

Lemma limbs_of_be_bytes_spec bytes : bytes_ok bytes -> length bytes = 32%nat ->
  limbs_ok (limbs_of_be_bytes bytes) /\ eval (limbs_of_be_bytes bytes) = be_value bytes.
Proof.
  intros H L. unfold limbs_of_be_bytes, limbs_ok, eval. cbn [l0 l1 l2 l3]. split.
  - split_and; apply from_be_u64; auto with words; apply slice_length; lia.
  - change bytes with (skipn 0 bytes) at 5.
    rewrite (slice_split 0 8), (slice_split (0 + 8) 8), (slice_split (0 + 8 + 8) 8),
      (slice_split (0 + 8 + 8 + 8) 8). cbn [Nat.add].
    rewrite (skipn_all2 (n := 32)), app_nil_r by lia.
    rewrite !digits_value_app, !length_app, !slice_length by lia. cbn [Nat.add].
    change (256 ^ Z.of_nat 8) with W64. change (256 ^ Z.of_nat 16) with W128.
    change (256 ^ Z.of_nat 24) with W192. unfold from_be. lia.
Qed.

Lemma to_be_spec v : u64_ok v ->
  bytes_ok (to_be 8 v) /\ length (to_be 8 v) = 8%nat /\ be_value (to_be 8 v) = v.
Proof.
  intros H. unfold to_be. split_and; [auto with words | apply to_digits_length|].
  apply to_digits_value; [lia | exact H].
Qed.

Lemma be_concat x : limbs_ok x ->
  let bytes := to_be 8 (l3 x) ++ to_be 8 (l2 x) ++ to_be 8 (l1 x) ++ to_be 8 (l0 x) in
  bytes_ok bytes /\ length bytes = 32%nat /\ be_value bytes = eval x.
Proof.
  intros (H0 & H1 & H2 & H3). cbv zeta.
  destruct (to_be_spec _ H0) as (?&L0&E0), (to_be_spec _ H1) as (?&L1&E1),
    (to_be_spec _ H2) as (?&L2&E2), (to_be_spec _ H3) as (?&L3&E3). split_and.
  - rewrite !digits_ok_app. auto.
  - rewrite !length_app, L0, L1, L2, L3. reflexivity.
  - rewrite !digits_value_app, !length_app, L0, L1, L2, E0, E1, E2, E3. cbn [Nat.add].
    change (256 ^ Z.of_nat 8) with W64. change (256 ^ Z.of_nat 16) with W128.
    change (256 ^ Z.of_nat 24) with W192. unfold eval. lia.
Qed.

(** ** Hexadecimal strings *)

(** The characters [cs] spell the digits [ds]. *)
Definition spells (cs ds : list Z) : Prop := Forall2 (fun c d => hex_digit c = Some d) cs ds.

Lemma hex_digit_range c d : hex_digit c = Some d -> 0 <= d < 16.
Proof.
  unfold hex_digit. repeat case_if; try discriminate; intros [= <-];
    match goal with H : _ && _ = true |- _ => apply andb_prop in H as [? ?] end; zbool; lia.
Qed.

Lemma spells_digits cs ds : spells cs ds -> digits_ok 16 ds.
Proof. induction 1; constructor; eauto using hex_digit_range. Qed.

Lemma set_limb_eval res j v : (j < 4)%nat -> limbs_ok res -> eval res < W64 ^ Z.of_nat j ->
  u64_ok v ->
  limbs_ok (set_limb res j v) /\ eval (set_limb res j v) = eval res + v * W64 ^ Z.of_nat j.
Proof.
  intros Hj (H0 & H1 & H2 & H3) B Hv. unfold limbs_ok, eval, u64_ok in *.
  destruct j as [|[|[|[|]]]]; try lia; cbn [set_limb l0 l1 l2 l3 Z.of_nat Pos.of_succ_nat Pos.succ] in *;
    rewrite ?Z.pow_0_r, ?Z.pow_1_r in *;
    change (W64 ^ 2) with W128 in *; change (W64 ^ 3) with W192 in *; split; lia.
Qed.

(** The state of the loop after some digits: [j] full limbs, [i] digits in [tmp]. *)
Definition hex_state (n : nat) (v : Z) (res : limbs) (i : Z) (j : nat) (tmp : Z) : Prop :=
  0 <= i < 16 /\ 0 <= tmp < 16 ^ i /\ limbs_ok res /\ eval res < W64 ^ Z.of_nat j /\
  Z.of_nat n = 16 * Z.of_nat j + i /\ v = eval res + tmp * W64 ^ Z.of_nat j.

Lemma W64_pow j : W64 ^ Z.of_nat j = 16 ^ (16 * Z.of_nat j).
Proof. rewrite Z.pow_mul_r by lia. reflexivity. Qed.

Lemma shl64_digit d i : 0 <= d < 16 -> 0 <= i < 16 -> shl64 d (i * 4) = Z.shiftl d (4 * i).
Proof.
  intros Hd Hi. unfold shl64, as_u64. rewrite (Z.mul_comm i), Z.shiftl_mul_pow2 by lia.
  apply Z.mod_small. rewrite Z.pow_mul_r by lia. change (2 ^ 4) with 16.
  assert (16 ^ i <= 16 ^ 15) by (apply Z.pow_le_mono_r; lia).
  change (16 ^ 15) with 1152921504606846976 in *. pose proof (Z.pow_pos_nonneg 16 i). nia.
Qed.

Lemma or_digit tmp d i : 0 <= d < 16 -> 0 <= i < 16 -> 0 <= tmp < 16 ^ i ->
  Z.lor tmp (shl64 d (i * 4)) = tmp + d * 16 ^ i.
Proof.
  intros. rewrite shl64_digit by assumption.
  replace (16 ^ i) with (2 ^ (4 * i)) in * by (now rewrite Z.pow_mul_r by lia).
  apply lor_shiftl_add; [lia | assumption].
Qed.

Lemma from_hex_loop_spec cs ds : spells cs ds ->
  forall n v res i j tmp, hex_state n v res i j tmp -> (n + length ds <= 64)%nat ->
  exists res' i' j' tmp', from_hex_loop cs res i j tmp = Ret (res', i', j', tmp') /\
    hex_state (n + length ds) (v + digits_value 16 (rev ds) * 16 ^ Z.of_nat n) res' i' j' tmp'.
Proof.
  induction 1 as [|c d cs ds Hc _ IH]; intros n v res i j tmp Hst Hn.
  { exists res, i, j, tmp. cbn [rev length]. rewrite Nat.add_0_r.
    split; [reflexivity|]. now replace (v + _) with v by (cbn; lia). }
  pose proof (hex_digit_range _ _ Hc) as Hd.
  cbn [from_hex_loop length rev] in *. rewrite Hc. cbn [unwrap_option bind_outcome].
  destruct Hst as (Hi & Ht & Hr & Hb & En & Ev). rewrite or_digit by assumption.
  assert (P16 : 16 ^ (i + 1) = 16 * 16 ^ i) by (rewrite Z.pow_add_r by lia; lia).
  assert (PN : 16 ^ Z.of_nat n = 16 ^ i * W64 ^ Z.of_nat j)
    by (rewrite En, Z.add_comm, Z.pow_add_r, W64_pow by lia; reflexivity).
  assert (ES : v + digits_value 16 (rev ds ++ [d]) * 16 ^ Z.of_nat n
    = v + d * 16 ^ Z.of_nat n + digits_value 16 (rev ds) * 16 ^ Z.of_nat (S n)).
  { rewrite digits_value_app, Nat2Z.inj_succ, Z.pow_succ_r by lia. cbn [length].
    rewrite Z.pow_1_r. unfold digits_value at 2. cbn [fold_left]. ring. }
  replace (n + S (length ds))%nat with (S n + length ds)%nat in * by lia.
  rewrite ES. destruct (Z.eqb_spec (i + 1) 16) as [E16|N16].
  - assert (i = 15) by lia. subst i. change (16 ^ 15) with 1152921504606846976 in *.
    unfold store. destruct (Nat.ltb_spec j 4) as [Hj|]; [|lia]. cbn [bind_outcome].
    destruct (set_limb_eval res j (tmp + d * 1152921504606846976)) as [Hok Es];
      [assumption.. | unfold u64_ok; lia |].
    apply IH; [|lia]. unfold hex_state. rewrite Es, Nat2Z.inj_succ, Z.pow_succ_r by lia.
    split_and; try assumption; try lia; nia.
  - apply IH; [|lia]. unfold hex_state. rewrite P16, Nat2Z.inj_succ.
    split_and; try assumption; try lia; nia.
Qed.

(** Past the fourth limb the loop stores nothing more without a panic. *)
Lemma from_hex_loop_full cs ds : spells cs ds -> forall res i j tmp, (4 <= j)%nat -> 0 <= i < 16 ->
  from_hex_loop cs res i j tmp = Panic \/
  exists tmp', from_hex_loop cs res i j tmp = Ret (res, i + Z.of_nat (length ds), j, tmp') /\
    i + Z.of_nat (length ds) < 16.
Proof.
  induction 1 as [|c d cs ds Hc _ IH]; intros res i j tmp Hj Hi; cbn [from_hex_loop length].
  { right. exists tmp. rewrite Z.add_0_r. split; [reflexivity | lia]. }
  rewrite Hc. cbn [unwrap_option bind_outcome]. destruct (Z.eqb_spec (i + 1) 16).
  - left. unfold store. now rewrite (proj2 (Nat.ltb_ge j 4) Hj).
  - destruct (IH res (i + 1) j (Z.lor tmp (shl64 d (i * 4))) Hj ltac:(lia)) as [?|(t & -> & ?)];
      [now left|]. right. exists t.
    replace (i + Z.of_nat (S (length ds))) with (i + 1 + Z.of_nat (length ds)) by lia. auto.
Qed.

Lemma from_hex_loop_app cs1 cs2 res i j tmp :
  from_hex_loop (cs1 ++ cs2) res i j tmp =
  let! st := from_hex_loop cs1 res i j tmp in
  let '(res, i, j, tmp) := st in from_hex_loop cs2 res i j tmp.
Proof.
  revert res i j tmp. induction cs1 as [|c cs1 IH]; intros; cbn [app from_hex_loop]; [reflexivity|].
  destruct (hex_digit c); cbn [unwrap_option bind_outcome]; [|reflexivity].
  case_if; [destruct (store _ _ _); cbn [bind_outcome]; [apply IH | reflexivity] | apply IH].
Qed.

Lemma from_hex_loop_bad cs c res i j tmp : In c cs -> hex_digit c = None ->
  from_hex_loop cs res i j tmp = Panic.
Proof.
  intros Hin Hc. apply in_split in Hin as (a & b & ->). rewrite from_hex_loop_app.
  destruct (from_hex_loop a res i j tmp) as [[[[? ?] ?] ?]|]; cbn [bind_outcome from_hex_loop];
    [now rewrite Hc | reflexivity].
Qed.

Lemma spells_rev cs ds : spells cs ds -> spells (rev cs) (rev ds).
Proof.
  unfold spells. induction 1; cbn [rev]; [constructor|]. apply Forall2_app; [assumption|].
  now repeat constructor.
Qed.

Lemma hex_state_init : hex_state 0 0 ZERO 0 0 0.
Proof. unfold hex_state. split_and; try (exact eq_refl || lia); apply ZERO_ok. Qed.

(** *** Printing *)

Lemma to_digits_app b n m v : 0 < b ->
  to_digits b (n + m) v = to_digits b n (v / b ^ Z.of_nat m) ++ to_digits b m v.
Proof.
  intros Hb. revert v. induction m as [|m IH]; intros v.
  - rewrite Nat.add_0_r, Z.pow_0_r, Z.div_1_r. cbn. now rewrite app_nil_r.
  - rewrite Nat.add_succ_r. cbn [to_digits]. rewrite IH, <- app_assoc.
    rewrite Nat2Z.inj_succ, Z.pow_succ_r, Z.div_div by lia. reflexivity.
Qed.

Lemma to_digits_map b n v : 0 < b ->
  to_digits b n v = map (fun j => v / b ^ Z.of_nat (n - 1 - j) mod b) (seq 0 n).
Proof.
  intros Hb. revert v. induction n as [|n IH]; intros v; [reflexivity|].
  cbn [to_digits]. rewrite seq_S, map_app, IH. cbn [map Nat.add]. f_equal.
  - apply map_ext_in. intros j Hj. apply in_seq in Hj.
    rewrite Z.div_div by lia. rewrite <- Z.pow_succ_r, <- Nat2Z.inj_succ by lia.
    do 3 f_equal. lia.
  - replace (S n - 1 - n)%nat with 0%nat by lia. now rewrite Z.pow_0_r, Z.div_1_r.
Qed.

Lemma to_digits_mod b n v : 0 < b -> to_digits b n (v mod b ^ Z.of_nat n) = to_digits b n v.
Proof.
  intros Hb. revert v. induction n as [|n IH]; intros v; [reflexivity|]. cbn [to_digits].
  rewrite Nat2Z.inj_succ, Z.pow_succ_r, Z.rem_mul_r by lia.
  rewrite (Z.mul_comm b (_ mod _)), Z.div_add, Z.mod_add, Z.mod_mod by lia.
  rewrite (Z.div_small (v mod b)), Z.add_0_l by (apply Z.mod_pos_bound; lia).
  now rewrite IH.
Qed.

Definition hex_char (d : Z) : Z := nth (Z.to_nat d) ALPHABET 0.

Lemma limb_hex v : map (fun j => nth (Z.to_nat (Z.land (shr64 v (Z.of_nat (15 - j) * 4)) 15)) ALPHABET 0)
    (seq 0 16) = map hex_char (to_digits 16 16 v).
Proof.
  rewrite to_digits_map, map_map by lia. apply map_ext_in. intros j _. unfold hex_char, shr64.
  rewrite Z.shiftr_div_pow2 by lia. change 15 with (Z.ones 4). rewrite Z.land_ones by lia.
  rewrite Z.mul_comm, Z.pow_mul_r by lia. reflexivity.
Qed.

Lemma to_hex_spec x : limbs_ok x -> to_hex x = map hex_char (to_digits 16 64 (eval x)).
Proof.
  intros (H0 & H1 & H2 & H3). unfold to_hex. cbn [seq flat_map Nat.sub limb].
  rewrite !limb_hex, app_nil_r, <- !map_app. f_equal.
  change 64%nat with (16 + (16 + (16 + 16)))%nat. rewrite !(to_digits_app 16 16) by lia.
  change (16 ^ Z.of_nat 16) with W64. change (16 ^ Z.of_nat (16 + 16)) with W128.
  change (16 ^ Z.of_nat (16 + (16 + 16))) with W192.
  unfold u64_ok, eval in *.
  set (e := l0 x + W64 * l1 x + W128 * l2 x + W192 * l3 x).
  rewrite <- (to_digits_mod 16 16 (e / W128)), <- (to_digits_mod 16 16 (e / W64)),
    <- (to_digits_mod 16 16 e) by lia.
  change (16 ^ Z.of_nat 16) with W64.
  assert (E3 : e / W192 = l3 x)
    by (symmetry; apply Z.div_unique with (l0 x + W64 * l1 x + W128 * l2 x); lia).
  assert (E2 : e / W128 = l2 x + W64 * l3 x)
    by (symmetry; apply Z.div_unique with (l0 x + W64 * l1 x); lia).
  assert (E1 : e / W64 = l1 x + W64 * (l2 x + W64 * l3 x))
    by (symmetry; apply Z.div_unique with (l0 x); lia).
  assert (M : forall a h, 0 <= a < W64 -> (a + W64 * h) mod W64 = a)
    by (intros; symmetry; apply Z.mod_unique with h; lia).
  rewrite E1, E2, E3, !M by assumption.
  replace e with (l0 x + W64 * (l1 x + W64 * (l2 x + W64 * l3 x))) by (unfold e; ring).
  now rewrite M.
Qed.

Lemma hex_char_digit d : 0 <= d < 16 -> hex_digit (hex_char d) = Some d.
Proof.
  intros Hd.
  assert (d = 0 \/ d = 1 \/ d = 2 \/ d = 3 \/ d = 4 \/ d = 5 \/ d = 6 \/ d = 7 \/ d = 8 \/
    d = 9 \/ d = 10 \/ d = 11 \/ d = 12 \/ d = 13 \/ d = 14 \/ d = 15) as C by lia.
  repeat destruct C as [->|C]; try (subst d); reflexivity.
Qed.

Lemma spells_chars (f : Z -> Z) ds : (forall d, 0 <= d < 16 -> hex_digit (f d) = Some d) ->
  digits_ok 16 ds -> spells (map f ds) ds.
Proof. intros Hf. induction 1; cbn [map]; constructor; [now apply Hf | assumption]. Qed.

Lemma to_hex_spells x : limbs_ok x -> spells (to_hex x) (to_digits 16 64 (eval x)).
Proof.
  intros Hx. rewrite to_hex_spec by exact Hx.
  apply spells_chars; [exact hex_char_digit | apply to_digits_ok; lia].
Qed.

Section FormFacts.
Context {F : MontField} {FOk : MontFieldOk F}.

Lemma from_be_bytes_val bytes : bytes_ok bytes -> length bytes = 32%nat ->
  canonical (from_be_bytes bytes) /\ val (from_be_bytes bytes) = cls (be_value bytes).
Proof.
  intros H L. destruct (limbs_of_be_bytes_spec bytes H L) as [Hok E].
  rewrite <- E. pose proof (const_from_native_val _ Hok) as V.
  unfold const_from_native in V. unfold from_be_bytes. cbv zeta. exact V.
Qed.

Lemma to_be_bytes_spec x : limbs_ok x ->
  bytes_ok (to_be_bytes x) /\ length (to_be_bytes x) = 32%nat /\
  be_value (to_be_bytes x) = Zmod.unsigned (val x).
Proof.
  intros Hx. destruct (const_reduce_full_spec x Hx) as [[Hc _] <-].
  unfold to_be_bytes. cbv zeta. exact (be_concat _ Hc).
Qed.

Lemma unsigned_val_range x : 0 <= Zmod.unsigned (val x) < modulus.
Proof. pose proof modulus_pos. pose proof (Zmod.unsigned_pos_bound (val x)). lia. Qed.

Lemma bytes_roundtrip x : canonical x -> from_be_bytes (to_be_bytes x) = x.
Proof.
  intros Hx. destruct (to_be_bytes_spec x (proj1 Hx)) as (Hb & L & E).
  destruct (from_be_bytes_val _ Hb L) as [Hc V]. apply val_inj; [assumption..|].
  rewrite V, E. apply Zmod.of_Z_unsigned.
Qed.

(** ** Little-endian bits *)

Lemma limb_testbit x i : limbs_ok x -> (i < 256)%nat ->
  Z.testbit (limb x (i / 64)) (Z.of_nat (i mod 64)) = Z.testbit (eval x) (Z.of_nat i).
Proof.
  intros (H0 & H1 & H2 & H3) Hi.
  assert (E : exists q, (i / 64 = q)%nat /\ (q < 4)%nat /\ (i = 64 * q + i mod 64)%nat).
  { exists (i / 64)%nat. pose proof (Nat.div_mod_eq i 64).
    split_and; [reflexivity | apply Nat.Div0.div_lt_upper_bound; lia | lia]. }
  destruct E as (q & -> & Hq & E). pose proof (Nat.mod_upper_bound i 64 ltac:(lia)) as Hm.
  set (m := (i mod 64)%nat) in *.
  assert (T : forall h l lo s, 0 <= s -> 0 <= lo < 2 ^ s -> u64_ok l ->
    Z.testbit (lo + 2 ^ s * (l + 2 ^ 64 * h)) (Z.of_nat m + s) = Z.testbit l (Z.of_nat m)).
  { intros h l lo s Hs Hlo Hl.
    rewrite <- (Z.div_pow2_bits _ s) by lia.
    rewrite Z.mul_comm, Z.div_add, Z.div_small, Z.add_0_l by lia.
    rewrite <- (Z.mod_pow2_bits_low _ 64) by lia.
    rewrite Z.mul_comm, Z.mod_add, Z.mod_small by (unfold u64_ok in Hl; lia). reflexivity. }
  unfold u64_ok in *. unfold eval.
  destruct q as [|[|[|[|]]]]; try lia; cbn [limb]; symmetry;
    [ rewrite <- (T (l1 x + W64 * l2 x + W128 * l3 x) (l0 x) 0 0)
    | rewrite <- (T (l2 x + W64 * l3 x) (l1 x) (l0 x) 64)
    | rewrite <- (T (l3 x) (l2 x) (l0 x + W64 * l1 x) 128)
    | rewrite <- (T 0 (l3 x) (l0 x + W64 * l1 x + W128 * l2 x) 192) ];
    unfold u64_ok; try lia; f_equal; lia.
Qed.

Lemma into_le_bits_spec x : limbs_ok x ->
  into_le_bits x
  = map (fun i => Z.testbit (Zmod.unsigned (val x)) (Z.of_nat i)) (seq 0 256).
Proof.
  intros Hx. unfold into_le_bits, limb_bits. cbv zeta. rewrite reduce_full_eq by exact Hx.
  destruct (const_reduce_full_spec x Hx) as [[Hok _] <-].
  apply map_ext_in. intros i Hi. apply in_seq in Hi. apply limb_testbit; [exact Hok | lia].
Qed.

(** ** Hexadecimal round trip *)

Lemma from_hex_digits s ds : spells s ds -> (length ds <= 64)%nat ->
  exists x, from_hex s = Ret x /\ canonical x /\ val x = cls (digits_value 16 ds).
Proof.
  intros Hs HL. pose proof (spells_rev _ _ Hs) as Hr.
  destruct (from_hex_loop_spec _ _ Hr 0 0 ZERO 0 0 0 hex_state_init) as (res & i & j & tmp & E & St);
    [rewrite length_rev; lia|].
  rewrite rev_involutive, Z.pow_0_r, Z.mul_1_r, Z.add_0_l, length_rev in St.
  destruct St as (Hi & Ht & Hok & Hb & En & Ev).
  unfold from_hex. rewrite E. cbn [bind_outcome]. destruct (Z.eqb_spec i 0) as [->|Ni].
  - cbn [bind_outcome]. exists (const_mul res R2). split; [reflexivity|].
    rewrite Z.pow_0_r in Ht. replace (digits_value 16 ds) with (eval res) by lia.
    exact (const_from_native_val _ Hok).
  - unfold store. destruct (Nat.ltb_spec j 4) as [Hj|]; [|lia]. cbn [bind_outcome].
    destruct (set_limb_eval res j tmp) as [Hok' Es]; [assumption.. | |].
    { assert (16 ^ i <= 16 ^ 15) by (apply Z.pow_le_mono_r; lia).
      change (16 ^ 15) with 1152921504606846976 in *. unfold u64_ok. lia. }
    exists (const_mul (set_limb res j tmp) R2). split; [reflexivity|].
    rewrite Ev, <- Es. exact (const_from_native_val _ Hok').
Qed.

Lemma from_hex_too_long s ds : spells s ds -> (64 < length ds)%nat -> from_hex s = Panic.
Proof.
  intros Hs HL. pose proof (spells_rev _ _ Hs) as Hr.
  rewrite <- (firstn_skipn 64 (rev ds)) in Hr. apply Forall2_app_inv_r in Hr as (c1 & c2 & H1 & H2 & E).
  assert (L1 : length (firstn 64 (rev ds)) = 64%nat) by (rewrite length_firstn, length_rev; lia).
  assert (L2 : length (skipn 64 (rev ds)) <> 0%nat) by (rewrite length_skipn, length_rev; lia).
  destruct (from_hex_loop_spec _ _ H1 0 0 ZERO 0 0 0 hex_state_init) as (res & i & j & tmp & E1 & St);
    [lia|]. rewrite L1 in St. destruct St as (Hi & _ & _ & _ & En & _).
  assert (i = 0) by lia. assert (j = 4%nat) by lia. subst i j.
  unfold from_hex. rewrite E, from_hex_loop_app, E1. cbn [bind_outcome].
  destruct (from_hex_loop_full _ _ H2 res 0 4 tmp (le_n 4) ltac:(lia)) as [->|(t & -> & Hlt)];
    [reflexivity|]. cbn [bind_outcome]. destruct (Z.eqb_spec (0 + Z.of_nat (length (skipn 64 (rev ds)))) 0);
    [lia | reflexivity].
Qed.

Lemma from_hex_invalid s c : In c s -> hex_digit c = None -> from_hex s = Panic.
Proof.
  intros Hin Hc. unfold from_hex.
  rewrite (from_hex_loop_bad _ c) by (assumption || now apply in_rev in Hin). reflexivity.
Qed.

(** Printing an element's native value and parsing it gives it back. *)
Lemma hex_roundtrip x : canonical x -> from_hex (to_hex (reduce_full x)) = Ret x.
Proof.
  intros Hx. rewrite reduce_full_eq by apply Hx.
  destruct (const_reduce_full_spec x (proj1 Hx)) as [[Hok _] E].
  destruct (from_hex_digits _ _ (to_hex_spells _ Hok)) as (y & -> & Hc & V);
    [now rewrite to_digits_length|].
  f_equal. apply val_inj; [assumption..|]. rewrite V, to_digits_value, E.
  - apply Zmod.of_Z_unsigned.
  - lia.
  - pose proof (eval_range _ Hok). exact H.
Qed.

(** ** Sampling *)

Lemma sample_canonical {Rng} (gen : Rng -> Z * Rng) rng s rng' :
  (forall r, u64_ok (fst (gen r))) -> sample gen rng = (Some s, rng') -> canonical s.
Proof.
  intros Hg. unfold sample.
  pose proof (Hg rng) as G0. destruct (gen rng) as [s0 r0].
  pose proof (Hg r0) as G1. destruct (gen r0) as [s1 r1].
  pose proof (Hg r1) as G2. destruct (gen r1) as [s2 r2].
  pose proof (Hg r2) as G3. destruct (gen r2) as [s3 r3]. cbn [fst] in *.
  set (s' := Limbs s0 s1 s2 _).
  assert (Hok : limbs_ok s').
  { unfold limbs_ok, s'. cbn [l0 l1 l2 l3]. split_and; try assumption.
    change (Z.shiftr (W64 - 1) 4) with (Z.ones 60). rewrite Z.land_ones by lia.
    unfold u64_ok in *. pose proof (Z.mod_pos_bound s3 (2 ^ 60)). lia. }
  destruct (const_lt_spec s' P Hok P_ok); [|discriminate].
  intros [= <- <-]. split; [exact Hok | assumption].
Qed.

Lemma random_canonical {Rng} (gen : Rng -> Z * Rng) fuel rng s rng' :
  (forall r, u64_ok (fst (gen r))) -> random gen fuel rng = Some (s, rng') -> canonical s.
Proof.
  intros Hg. revert rng. induction fuel as [|fuel IH]; intros rng; cbn [random]; [discriminate|].
  destruct (sample gen rng) as [[x|] r] eqn:E; [|apply IH].
  intros [= <- <-]. now apply sample_canonical in E.
Qed.
End FormFacts.
