(* ===== verification/NumberTheory.v ===== *)
(** Primality of the two moduli of crates/crypto: the base field's
    [p = 2^251 + 17 * 2^192 + 1] and the order [n] of the Stark curve's group,
    by Pocklington certificates.  The crate relies on both ("prime fields" in
    signature/ecdsa.rs, [inverse().unwrap()] throughout the curve code). *)

From Stdlib Require Import ZArith Lia Bool List Zmod Ring.
From Bignums Require Import BigZ.
From S2P Require Import Prelude.
Import ListNotations.
Local Open Scope Z_scope.

(** ** Prime divisors *)

Lemma not_prime_divisor n : 1 < n -> ~ Z.prime n -> exists d, 1 < d < n /\ (d | n).
Proof.
  intros Hn Hp.
  destruct (Znumtheory.prime_dec n) as [Y|N]; [now apply Znumtheory.prime_alt in Y|].
  destruct (Znumtheory.not_prime_divide n Hn N) as (d & ? & ?). eauto.
Qed.

Lemma prime_divisor n : 1 < n -> exists r, Z.prime r /\ (r | n).
Proof.
  intros Hn. assert (H2 : 2 <= n) by lia. clear Hn. revert n H2.
  apply (Zlt_lower_bound_ind (fun n => exists r, Z.prime r /\ (r | n))).
  intros n IH Hn. destruct (Znumtheory.prime_dec n) as [Y|N].
  - exists n. split; [now apply Znumtheory.prime_alt | apply Z.divide_refl].
  - destruct (Znumtheory.not_prime_divide n ltac:(lia) N) as (d & Hd & D).
    destruct (IH d ltac:(lia)) as (r & Hr & Dr). exists r. split; [exact Hr|].
    now apply Z.divide_trans with d.
Qed.

(** A number without a prime divisor up to its square root is prime. *)
Lemma prime_by_divisors n :
  1 < n -> (forall r, Z.prime r -> (r | n) -> n < r * r) -> Z.prime n.
Proof.
  intros Hn H. destruct (Znumtheory.prime_dec n) as [Y|N]; [now apply Znumtheory.prime_alt|].
  destruct (Znumtheory.not_prime_divide n Hn N) as (d & Hd & e & E).
  assert (1 < e) by (destruct (Z.lt_ge_cases 1 e); [assumption | subst n; nia]).
  destruct (prime_divisor d ltac:(lia)) as (r & Hr & Dr).
  destruct (prime_divisor e ltac:(assumption)) as (q & Hq & Dq).
  pose proof (Z.divide_pos_le r d ltac:(lia) Dr). pose proof (Z.divide_pos_le q e ltac:(lia) Dq).
  pose proof (Z.prime_ge_2 r Hr). pose proof (Z.prime_ge_2 q Hq).
  assert (Dn : (d | n)) by now exists e.
  assert (En : (e | n)) by (exists d; lia).
  pose proof (H r Hr (Z.divide_trans _ _ _ Dr Dn)).
  pose proof (H q Hq (Z.divide_trans _ _ _ Dq En)).
  assert (r * r <= d * d) by nia. assert (q * q <= e * e) by nia.
  destruct (Z.le_ge_cases d e); nia.
Qed.

(** ** Trial division, for the small factors *)

Fixpoint trial (fuel : nat) (d n : Z) : bool :=
  match fuel with
  | O => false
  | S fuel => if n <? d * d then true else negb (n mod d =? 0) && trial fuel (d + 2) n
  end.

Lemma trial_sound fuel d n :
  0 < d -> Z.odd d = true -> trial fuel d n = true ->
  forall r, d <= r -> Z.odd r = true -> (r | n) -> n < r * r.
Proof.
  revert d. induction fuel as [|fuel IH]; intros d Hd Od; cbn [trial]; [discriminate|].
  intros T r Hr Or Dr. destruct (Z.ltb_spec n (d * d)); [nia|].
  apply andb_prop in T as [T1 T2]. apply negb_true_iff, Z.eqb_neq in T1.
  destruct (Z.eq_dec r d) as [->|Hne].
  - exfalso. apply T1. apply Z.mod_divide; [lia | exact Dr].
  - apply (IH (d + 2)); try assumption; [lia | now rewrite Z.odd_add, Od |].
    apply Z.odd_spec in Od as [a ->], Or as [b ->]. lia.
Qed.

Definition trial_prime (fuel n : Z) : bool :=
  (2 <? n) && Z.odd n && trial (Z.to_nat fuel) 3 n.

Lemma trial_prime_sound fuel n : trial_prime fuel n = true -> Z.prime n.
Proof.
  unfold trial_prime. intros H. apply andb_prop in H as [H T]. apply andb_prop in H as [H O].
  apply Z.ltb_lt in H. apply prime_by_divisors; [lia|]. intros r Hr Dr.
  pose proof (Z.prime_ge_2 r Hr).
  assert (Or : Z.odd r = true).
  { destruct (Z.odd r) eqn:E; [reflexivity|]. exfalso.
    rewrite <- Z.negb_even in E. apply negb_false_iff, Z.even_spec in E as [a ->].
    destruct Dr as [b ->]. rewrite Z.odd_mul, Z.odd_mul in O. cbn in O.
    now rewrite andb_false_r in O. }
  apply (trial_sound _ 3 n ltac:(lia) eq_refl T); try assumption.
  apply Z.odd_spec in Or as [a ->]. lia.
Qed.

(** ** Pocklington's criterion *)

(** Modular powers are computed on machine-word big integers. *)
Fixpoint big_powmod (n a : BigZ.t) (e : positive) : BigZ.t :=
  match e with
  | xH => BigZ.modulo a n
  | xO e => let s := big_powmod n a e in BigZ.modulo (BigZ.square s) n
  | xI e => let s := big_powmod n a e in
            BigZ.modulo (BigZ.mul (BigZ.modulo (BigZ.square s) n) a) n
  end.

Definition powmod (n a : Z) (e : positive) : Z :=
  BigZ.to_Z (big_powmod (BigZ.of_Z n) (BigZ.of_Z a) e).

Lemma powmod_spec n a e : 0 < n -> powmod n a e = a ^ Zpos e mod n.
Proof.
  intros Hn. unfold powmod. induction e as [e IH|e IH|]; cbn [big_powmod]; cbv zeta;
    rewrite ?BigZ.spec_modulo, ?BigZ.spec_mul, ?BigZ.spec_modulo, ?BigZ.spec_square, ?BigZ.spec_of_Z,
      ?IH.
  - rewrite <- Z.mul_mod, Z.mul_mod_idemp_l by lia. f_equal.
    rewrite Pos2Z.inj_xI, Z.pow_add_r, Z.pow_twice_r, Z.pow_1_r by lia. reflexivity.
  - rewrite <- Z.mul_mod by lia. f_equal. rewrite Pos2Z.inj_xO, Z.pow_twice_r. reflexivity.
  - now rewrite Z.pow_1_r.
Qed.

(** The certificate for one prime power [q^k] of [n - 1 = q^k * c]: a base [a]
    with [a^(n-1) = 1] and [a^((n-1)/q) - 1] coprime to [n]. *)
Definition pock_step (n q : Z) (k : positive) (c a : Z) : bool :=
  (n - 1 =? q ^ Zpos k * c) && (1 <? n) && (0 <? c) &&
  match q, q ^ (Zpos k - 1) * c with
  | Zpos q, Zpos f =>
      let b := powmod n a f in
      (powmod n b q =? 1) && (Z.gcd (b - 1) n =? 1)
  | _, _ => false
  end.

Lemma pow_class_1 r a e : Z.prime r -> a ^ e mod r = 1 -> 0 <= e ->
  Zmod.pow (Zmod.of_Z r a) e = Zmod.one.
Proof.
  intros Hr H He. pose proof (Z.prime_ge_2 r Hr). apply Zmod.unsigned_inj.
  rewrite Zmod.unsigned_pow_nonneg_r, Zmod.unsigned_of_Z, Zmod.unsigned_1_pos by lia.
  rewrite Z.mod_pow_l. exact H.
Qed.

Lemma mod_of_divisor a n r : (r | n) -> 1 < r -> 0 < n -> a mod n = 1 -> a mod r = 1.
Proof.
  intros [b ->] Hr Hn H. rewrite (Z.div_mod a (b * r)), H by lia.
  replace (b * r * (a / (b * r)) + 1) with (1 + (b * (a / (b * r))) * r) by ring.
  rewrite Z.mod_add, Z.mod_small; lia.
Qed.

(** The exponents that send a unit to 1 are closed under [Z.gcd]. *)
Lemma pow_gcd_1 r (A : Zmod r) a b : Z.gcd (Zmod.unsigned A) r = 1 ->
  Zmod.pow A a = Zmod.one -> Zmod.pow A b = Zmod.one -> Zmod.pow A (Z.gcd a b) = Zmod.one.
Proof.
  intros C Ha Hb. destruct (Z.gcd_bezout a b _ eq_refl) as (s & t & <-).
  rewrite Zmod.pow_add_r_coprime, (Z.mul_comm s), (Z.mul_comm t) by assumption.
  rewrite !Zmod.pow_mul_r_coprime, Ha, Hb by assumption.
  now rewrite !Zmod.pow_1_l, Zmod.mul_1_l.
Qed.

Lemma class_unit r a e : Z.prime r -> 0 < e -> a ^ e mod r = 1 ->
  Zmod.of_Z r a <> Zmod.zero /\ Z.gcd (Zmod.unsigned (Zmod.of_Z r a)) r = 1.
Proof.
  intros Hr He H. pose proof (Z.prime_ge_2 r Hr).
  assert (NZ : Zmod.of_Z r a <> Zmod.zero).
  { intros Z0. pose proof (pow_class_1 r a e Hr H ltac:(lia)) as A1.
    rewrite Z0 in A1. apply (f_equal Zmod.unsigned) in A1.
    rewrite Zmod.unsigned_pow_nonneg_r, Zmod.unsigned_0, Z.pow_0_l, Zmod.unsigned_1_pos in A1 by lia.
    rewrite Z.mod_0_l in A1; lia. }
  split; [exact NZ|]. rewrite Z.gcd_comm. apply Z.coprime_prime_small; [assumption|].
  pose proof (Zmod.unsigned_pos_bound (Zmod.of_Z r a) ltac:(lia)).
  enough (Zmod.unsigned (Zmod.of_Z r a) <> 0) by lia.
  intros E. apply NZ, Zmod.unsigned_inj. now rewrite Zmod.unsigned_0.
Qed.

(** Every prime divisor of [n] is 1 modulo [q^k]. *)
Lemma pock_step_sound n q k c a r :
  pock_step n q k c a = true -> Z.prime q -> Z.prime r -> (r | n) -> (q ^ Zpos k | r - 1).
Proof.
  unfold pock_step. intros H Hq Hr Dr.
  apply andb_prop in H as [H H4]. apply andb_prop in H as [H H3].
  apply andb_prop in H as [H1 H2]. apply Z.eqb_eq in H1. apply Z.ltb_lt in H2, H3.
  destruct q as [|q'|q'] eqn:Eq'; try discriminate H4.
  destruct (Zpos q' ^ (Zpos k - 1) * c) as [|f|f] eqn:Ef; try discriminate H4.
  rewrite <- Eq' in *. cbv zeta in H4.
  apply andb_prop in H4 as [P1 P2]. apply Z.eqb_eq in P1, P2.
  rewrite powmod_spec in P1, P2 by lia. rewrite powmod_spec, <- Eq' in P1 by lia.
  assert (Ee : n - 1 = Zpos f * q).
  { rewrite <- Ef, H1. replace (Zpos k) with (Z.succ (Zpos k - 1)) at 1 by lia.
    rewrite Z.pow_succ_r by lia. ring. }
  rewrite Z.mod_pow_l, <- Z.pow_mul_r, <- Ee in P1 by lia.
  set (e := n - 1) in *.
  pose proof (Z.prime_ge_2 r Hr) as Hr2. pose proof (Z.prime_ge_2 q Hq) as Hq2.
  assert (R1 : a ^ e mod r = 1) by (apply (mod_of_divisor _ n); auto; lia).
  destruct (class_unit r a e Hr ltac:(lia) R1) as [NZ Cop].
  set (A := Zmod.of_Z r a) in *. set (d := Z.gcd e (Z.pred r)).
  assert (Ad : Zmod.pow A d = Zmod.one)
    by (apply pow_gcd_1; [exact Cop | apply pow_class_1; auto; lia | now apply Zmod.fermat_nz]).
  destruct (Z.gcd_divide_l e (Z.pred r)) as [g Eg]. fold d in Eg.
  assert (~ (q | g)).
  { intros [g' Eg'].
    assert (Zf : Zpos f = d * g').
    { apply Z.mul_cancel_r with q; [lia|]. rewrite <- Ee, Eg, Eg'. ring. }
    assert (Af : Zmod.pow A (Zpos f) = Zmod.one)
      by (rewrite Zf, Zmod.pow_mul_r_coprime, Ad by assumption; apply Zmod.pow_1_l).
    apply (f_equal Zmod.unsigned) in Af. unfold A in Af.
    rewrite Zmod.unsigned_pow_nonneg_r, Zmod.unsigned_of_Z, Z.mod_pow_l, Zmod.unsigned_1_pos
      in Af by lia.
    assert (Rd : (r | a ^ Zpos f mod n - 1)).
    { apply Z.mod_divide; [lia|]. rewrite Zminus_mod, Z.mod_mod_divide, Af by assumption.
      now rewrite (Z.mod_small 1) by lia. }
    pose proof (Z.gcd_greatest _ _ r Rd Dr) as G. rewrite P2 in G.
    apply Z.divide_1_r_nonneg in G; lia. }
  apply Z.divide_trans with d; [|replace (r - 1) with (Z.pred r) by lia; apply Z.gcd_divide_r].
  apply Z.gauss with g; [exists c; rewrite <- Eg, H1; ring|].
  apply Z.coprime_pow_l; [lia|]. now apply Z.coprime_prime_l.
Qed.

Lemma prime_of_factor n F : 1 < n -> 0 < F -> n < (F + 1) * (F + 1) ->
  (forall r, Z.prime r -> (r | n) -> (F | r - 1)) -> Z.prime n.
Proof.
  intros Hn HF Hlt H. apply prime_by_divisors; [exact Hn|]. intros r Hr Dr.
  pose proof (Z.prime_ge_2 r Hr). pose proof (Z.divide_pos_le F (r - 1) ltac:(lia) (H r Hr Dr)). nia.
Qed.

Lemma pocklington n q k c a : Z.prime q ->
  pock_step n q k c a = true -> n < (q ^ Zpos k + 1) * (q ^ Zpos k + 1) -> Z.prime n.
Proof.
  intros Hq H Hlt. pose proof (Z.prime_ge_2 q Hq).
  apply (prime_of_factor n (q ^ Zpos k)); [| lia | exact Hlt |].
  - unfold pock_step in H. destruct (1 <? n) eqn:E; [now apply Z.ltb_lt |].
    now rewrite andb_false_r in H.
  - intros r Hr Dr. now apply (pock_step_sound n q k c a).
Qed.

(** Two prime factors of [n - 1] together. *)
Lemma pocklington2 n q1 k1 c1 a1 q2 k2 c2 a2 : Z.prime q1 -> Z.prime q2 -> q1 <> q2 ->
  pock_step n q1 k1 c1 a1 = true -> pock_step n q2 k2 c2 a2 = true ->
  n < (q1 ^ Zpos k1 * q2 ^ Zpos k2 + 1) * (q1 ^ Zpos k1 * q2 ^ Zpos k2 + 1) -> Z.prime n.
Proof.
  intros Hq1 Hq2 Hne H1 H2 Hlt. pose proof (Z.prime_ge_2 q1 Hq1). pose proof (Z.prime_ge_2 q2 Hq2).
  assert (0 < q1 ^ Zpos k1) by lia. assert (0 < q2 ^ Zpos k2) by lia.
  apply (prime_of_factor n (q1 ^ Zpos k1 * q2 ^ Zpos k2)); [| nia | exact Hlt |].
  - unfold pock_step in H1. destruct (1 <? n) eqn:E; [now apply Z.ltb_lt |].
    now rewrite andb_false_r in H1.
  - intros r Hr Dr.
    pose proof (pock_step_sound _ _ _ _ _ r H1 Hq1 Hr Dr) as [u Eu].
    pose proof (pock_step_sound _ _ _ _ _ r H2 Hq2 Hr Dr) as D2. rewrite Eu, Z.mul_comm in D2.
    apply Z.gauss in D2.
    + destruct D2 as [v Ev]. exists v. rewrite Eu, Ev. ring.
    + apply Z.coprime_pow_l, Z.coprime_pow_r; try lia. apply Z.coprime_prime_l; [assumption|].
      intros D. apply Hne. symmetry. now apply Z.divide_prime_prime.
Qed.

(** ** The two moduli *)

Definition field_prime : Z := 2 ^ 251 + 17 * 2 ^ 192 + 1.
Definition curve_order : Z :=
  3618502788666131213697322783095070105526743751716087489154079457884512865583.

(** The odd part of [field_prime - 1]. *)
Definition field_odd : Z := 576460752303423505.

Lemma field_certificate : pock_step field_prime 2 192 field_odd 3 = true.
Proof. vm_compute. reflexivity. Qed.

Lemma field_prime_prime : Z.prime field_prime.
Proof.
  apply (pocklington field_prime 2 192 field_odd 3);
    [exact Z.prime_2 | exact field_certificate | vm_compute; reflexivity].
Qed.

(** For [q = 2] the certificate's base is a non-residue. *)
Lemma pock_step_opp_one n k c a : pock_step n 2 k c a = true -> Z.prime n ->
  Zmod.pow (Zmod.of_Z n a) (2 ^ (Zpos k - 1) * c) = Zmod.opp Zmod.one.
Proof.
  unfold pock_step. intros H Hn. apply andb_prop in H as [_ H].
  destruct (2 ^ (Zpos k - 1) * c) as [|f|f]; try discriminate H. cbv zeta in H.
  apply andb_prop in H as [P1 P2]. apply Z.eqb_eq in P1, P2.
  pose proof (Z.prime_ge_2 n Hn). rewrite powmod_spec in P1, P2 by lia.
  assert (E : Zmod.of_Z n (powmod n a f) = Zmod.pow (Zmod.of_Z n a) (Zpos f)).
  { rewrite powmod_spec by lia. apply Zmod.unsigned_inj.
    now rewrite Zmod.unsigned_pow_nonneg_r, !Zmod.unsigned_of_Z, Z.mod_mod, Z.mod_pow_l by lia. }
  apply pow_class_1 in P1; [|assumption | lia]. rewrite E in P1.
  apply (Zmod.square_roots_1_prime Hn) in P1 as [P1|P1]; [|exact P1]. exfalso.
  rewrite <- E in P1. apply (f_equal Zmod.unsigned) in P1.
  rewrite powmod_spec, Zmod.unsigned_of_Z, Z.mod_mod, Zmod.unsigned_1_pos in P1 by lia.
  rewrite P1, Z.gcd_0_l in P2. lia.
Qed.

Lemma prime_565787 : Z.prime 565787.
Proof. apply (trial_prime_sound 400). vm_compute. reflexivity. Qed.

Lemma prime_28547348873 : Z.prime 28547348873.
Proof.
  apply (pocklington _ 565787 1 50456 2 prime_565787); vm_compute; reflexivity.
Qed.

Lemma prime_11753132899 : Z.prime 11753132899.
Proof.
  apply (pocklington2 _ 2887 1 4071054 2 67 1 175419894 2);
    [now apply (trial_prime_sound 30) | now apply (trial_prime_sound 10) | discriminate
    | vm_compute; reflexivity ..].
Qed.

Lemma prime_12904939923103 : Z.prime 12904939923103.
Proof.
  apply (pocklington _ 11753132899 1 1098 2 prime_11753132899); vm_compute; reflexivity.
Qed.

Lemma prime_1803099112058626586861 : Z.prime 1803099112058626586861.
Proof.
  apply (pocklington _ 12904939923103 1 139721620 2 prime_12904939923103);
    vm_compute; reflexivity.
Qed.

Lemma prime_curve_order_factor :
  Z.prime 5470365079085120887157193270902448565659295524958143968059153.
Proof.
  apply (pocklington2 _ 1803099112058626586861 1 3033868211958420369353487974097673783632 2
                        28547348873 1 191624276685775762444727007799665690716740046369424 2
                        prime_1803099112058626586861 prime_28547348873);
    [discriminate | vm_compute; reflexivity ..].
Qed.

Lemma curve_order_prime : Z.prime curve_order.
Proof.
  apply (pocklington _ 5470365079085120887157193270902448565659295524958143968059153
                     1 661473729148494 2 prime_curve_order_factor); vm_compute; reflexivity.
Qed.

(** * The Stark curve has no point of order two: [x^3 + x + b] has no root in
    the base field.  A root [r] satisfies [r^p = r]; the polynomial
    [x^p mod (x^3 + x + b)] is computed and shown to have no common root with
    the cubic. *)

(** ** Polynomials of degree two modulo [x^3 + x + b]

    The coefficients are machine-word big integers modulo the field prime. *)

Definition big_p : BigZ.t := BigZ.of_Z field_prime.

Definition red (x : BigZ.t) : BigZ.t := BigZ.modulo x big_p.

Definition poly : Type := BigZ.t * BigZ.t * BigZ.t.

Definition pmul_x (b : BigZ.t) (a : poly) : poly :=
  let '(a0, a1, a2) := a in (red (BigZ.opp (BigZ.mul a2 b)), BigZ.sub a0 a2, a1).

Definition psquare (b : BigZ.t) (a : poly) : poly :=
  let '(a0, a1, a2) := a in
  let a01 := BigZ.mul a0 a1 in
  let a02 := BigZ.mul a0 a2 in
  let a12 := BigZ.mul a1 a2 in
  let c3 := red (BigZ.add a12 a12) in
  let c4 := red (BigZ.mul a2 a2) in
  (red (BigZ.sub (BigZ.mul a0 a0) (BigZ.mul c3 b)),
   red (BigZ.sub (BigZ.sub (BigZ.add a01 a01) c3) (BigZ.mul c4 b)),
   red (BigZ.sub (BigZ.add (BigZ.add a02 a02) (BigZ.mul a1 a1)) c4)).

(** [x^e] *)
Fixpoint xpow (b : BigZ.t) (e : positive) : poly :=
  match e with
  | xH => (BigZ.zero, BigZ.one, BigZ.zero)
  | xO e => psquare b (xpow b e)
  | xI e => pmul_x b (psquare b (xpow b e))
  end.

(** The certificate: [x^p] and the cubic have no common root. *)
Definition no_root_check (b : BigZ.t) : bool :=
  let '(c0, c1, c2) := xpow b (Z.to_pos field_prime) in
  let e1 := BigZ.sub c1 BigZ.one in
  let A := BigZ.sub (BigZ.mul e1 e1) (BigZ.mul c2 (BigZ.sub c0 c2)) in
  let B := BigZ.add (BigZ.mul e1 c0) (BigZ.mul c2 (BigZ.mul c2 b)) in
  negb (BigZ.eqb (red (BigZ.add (BigZ.sub (BigZ.mul c2 (BigZ.mul B B)) (BigZ.mul e1 (BigZ.mul A B)))
                                (BigZ.mul c0 (BigZ.mul A A)))) BigZ.zero).

(** The class of a big integer in the field. *)
#[local] Abbreviation Fp := (Zmod field_prime).
Definition cl (x : BigZ.t) : Fp := Zmod.of_Z field_prime (BigZ.to_Z x).

Lemma cl_add x y : cl (BigZ.add x y) = (cl x + cl y)%Zmod.
Proof. unfold cl. now rewrite BigZ.spec_add, Zmod.of_Z_add. Qed.
Lemma cl_sub x y : cl (BigZ.sub x y) = (cl x - cl y)%Zmod.
Proof. unfold cl. now rewrite BigZ.spec_sub, Zmod.of_Z_sub. Qed.
Lemma cl_mul x y : cl (BigZ.mul x y) = (cl x * cl y)%Zmod.
Proof. unfold cl. now rewrite BigZ.spec_mul, Zmod.of_Z_mul. Qed.
Lemma cl_opp x : cl (BigZ.opp x) = (- cl x)%Zmod.
Proof. unfold cl. now rewrite BigZ.spec_opp, Zmod.of_Z_opp. Qed.
Lemma cl_red x : cl (red x) = cl x.
Proof.
  unfold cl, red, big_p. rewrite BigZ.spec_modulo, BigZ.spec_of_Z. apply Zmod.of_Z_mod.
Qed.
Lemma cl_zero : cl BigZ.zero = Zmod.zero.
Proof. unfold cl. rewrite BigZ.spec_0. apply Zmod.of_Z_0. Qed.
Lemma cl_one : cl BigZ.one = Zmod.one.
Proof. unfold cl. rewrite BigZ.spec_1. apply Zmod.of_Z_1. Qed.

Ltac push := rewrite ?cl_add, ?cl_sub, ?cl_mul, ?cl_opp, ?cl_red, ?cl_zero, ?cl_one.

Section Root.
Context (b : BigZ.t) (r : Fp) (root : (r * r * r + r + cl b)%Zmod = Zmod.zero).

Add Ring Fp_ring : (Zmod.ring_theory field_prime).

Definition peval (a : poly) : Fp := let '(a0, a1, a2) := a in (cl a0 + cl a1 * r + cl a2 * (r * r))%Zmod.

Lemma r_cubed : (r * r * r)%Zmod = (- r - cl b)%Zmod.
Proof. transitivity (r * r * r + r + cl b - r - cl b)%Zmod; [ring|]. rewrite root. ring. Qed.

Lemma peval_mul_x a : peval (pmul_x b a) = (r * peval a)%Zmod.
Proof.
  destruct a as [[a0 a1] a2]. unfold peval, pmul_x. repeat push.
  transitivity (cl a0 * r + cl a1 * (r * r) + cl a2 * (r * r * r))%Zmod; [|ring].
  rewrite r_cubed. ring.
Qed.

Lemma peval_square a : peval (psquare b a) = (peval a * peval a)%Zmod.
Proof.
  destruct a as [[a0 a1] a2]. unfold peval, psquare. cbv zeta. repeat push.
  set (A0 := cl a0). set (A1 := cl a1). set (A2 := cl a2).
  transitivity (A0 * A0 + (A0 * A1 + A0 * A1) * r + (A0 * A2 + A0 * A2 + A1 * A1) * (r * r)
    + (A1 * A2 + A1 * A2) * (r * r * r) + (A2 * A2) * (r * (r * r * r)))%Zmod.
  - rewrite r_cubed. ring.
  - ring.
Qed.

Lemma peval_xpow e : peval (xpow b e) = Zmod.pow r (Zpos e).
Proof.
  induction e as [e IH|e IH|]; cbn [xpow].
  - rewrite peval_mul_x, peval_square, IH, Pos2Z.inj_xI, Zmod.pow_add_r_nonneg by lia.
    rewrite Zmod.pow_1_r, Z.mul_comm, Zmod.pow_mul_r_nonneg, Zmod.pow_2_r by lia. ring.
  - rewrite peval_square, IH, Pos2Z.inj_xO, Z.mul_comm, Zmod.pow_mul_r_nonneg, Zmod.pow_2_r by lia.
    reflexivity.
  - rewrite Zmod.pow_1_r. unfold peval. push. ring.
Qed.

Lemma root_pow : Zmod.pow r field_prime = r.
Proof.
  destruct (Zmod.eqb_spec r Zmod.zero) as [->|N]; [apply Zmod.pow_0_l; discriminate|].
  transitivity (Zmod.pow r (Z.succ (Z.pred field_prime))); [now rewrite Z.succ_pred|].
  rewrite Zmod.pow_succ_nonneg_r by discriminate.
  rewrite Zmod.fermat_nz by (exact N || exact field_prime_prime). apply Zmod.mul_1_r.
Qed.

Lemma no_root_check_sound : no_root_check b = false.
Proof.
  unfold no_root_check.
  pose proof (peval_xpow (Z.to_pos field_prime)) as E.
  rewrite Z2Pos.id, root_pow in E by reflexivity. set (e := Z.to_pos field_prime) in *.
  destruct (xpow b e) as [[c0 c1] c2]. unfold peval in E. cbv zeta.
  apply negb_false_iff. rewrite BigZ.spec_eqb, BigZ.spec_0. apply Z.eqb_eq.
  unfold red, big_p. rewrite BigZ.spec_modulo, BigZ.spec_of_Z, <- Zmod.unsigned_of_Z.
  match goal with |- Zmod.unsigned (Zmod.of_Z _ (BigZ.to_Z ?t)) = 0 => enough (Z0 : cl t = Zmod.zero) end.
  { unfold cl in Z0. now rewrite Z0, Zmod.unsigned_0. }
  repeat push.
  set (C0 := cl c0) in *. set (C1 := cl c1) in *. set (C2 := cl c2) in *.
  set (A := ((C1 - 1) * (C1 - 1) - C2 * (C0 - C2))%Zmod).
  set (B := ((C1 - 1) * C0 + C2 * (C2 * cl b))%Zmod).
  assert (G : (C2 * (r * r) + (C1 - 1) * r + C0)%Zmod = Zmod.zero).
  { transitivity (C0 + C1 * r + C2 * (r * r) - r)%Zmod; [ring|]. rewrite E. ring. }
  assert (AB : B = (- (A * r))%Zmod).
  { transitivity ((C1 - 1) * (C2 * (r * r) + (C1 - 1) * r + C0)
      - C2 * (C2 * (r * r * r) + (C1 - 1) * (r * r) + C0 * r)
      + C2 * C2 * (r * r * r + r + cl b) - A * r)%Zmod.
    - unfold A, B. ring.
    - rewrite root. replace (C2 * (r * r * r) + (C1 - 1) * (r * r) + C0 * r)%Zmod
        with (r * (C2 * (r * r) + (C1 - 1) * r + C0))%Zmod by ring. rewrite G. ring. }
  rewrite AB. transitivity (A * A * (C2 * (r * r) + (C1 - 1) * r + C0))%Zmod; [ring|].
  rewrite G. ring.
Qed.
End Root.

(** [CURVE_B] as a number. *)
Definition curve_b_int : Z :=
  3141592653589793238462643383279502884197169399375105820974944592307816406665.

Lemma no_root_certificate : no_root_check (BigZ.of_Z curve_b_int) = true.
Proof. vm_compute. reflexivity. Qed.

Lemma no_root (r : Fp) : (r * r * r + r + Zmod.of_Z field_prime curve_b_int)%Zmod <> Zmod.zero.
Proof.
  intros H.
  assert (E : Zmod.of_Z field_prime curve_b_int = cl (BigZ.of_Z curve_b_int))
    by (unfold cl; now rewrite BigZ.spec_of_Z).
  rewrite E in H. pose proof (no_root_check_sound _ r H) as N. now rewrite no_root_certificate in N.
Qed.
