(* ===== verification/Fields.v ===== *)
(** The two fields of crates/crypto as instances of [MontField]: the base field
    [MontFelt] (montfelt/constants.rs) and the field of scalars
    [CurveOrderMontFelt] (curveorder/constants.rs).  Their constants satisfy
    [MontFieldOk] and their moduli are prime, so that everything proved of the
    Montgomery arithmetic holds of both. *)

From Stdlib Require Import ZArith Lia Bool List Zmod.
From S2P Require Import Prelude Words Montgomery MontgomeryFacts FieldAlgos NumberTheory.
Import ListNotations.
Local Open Scope Z_scope.

(** ** The constants *)

Definition MontFelt : MontField := {|
  P := Limbs 1 0 0 576460752303423505;
  R := Limbs 18446744073709551585 18446744073709551615 18446744073709551615 576460752303422960;
  R2 := Limbs 18446741271209837569 5151653887 18446744073700081664 576413109808302096;
  M0 := 18446744073709551615
|}.

Definition CurveOrderMontFelt : MontField := {|
  P := Limbs 2190616671734353199 13222870243701404210 18446744073709551615 576460752303423504;
  R := Limbs 5877859471073257295 14366136140576156654 8 576460752303422961;
  R2 := Limbs 6927015553468754061 5808788430323081401 13470454832524147387 565735549540988526;
  M0 := 13504954208620504625
|}.

(** [TWO] and [THREE] of montfelt/constants.rs. *)
Definition TWO {F : MontField} : limbs := const_add ONE ONE.
Definition THREE {F : MontField} : limbs := const_add TWO ONE.

(** ** The laws *)

Ltac field_constants :=
  constructor; unfold modulus, limbs_ok, u64_ok; cbn [P R R2 M0 MontFelt CurveOrderMontFelt l0 l1 l2 l3];
  try lia; vm_compute; (reflexivity || (split_and; (reflexivity || discriminate))).

#[export] Instance MontFelt_ok : MontFieldOk MontFelt.
Proof. field_constants. Qed.

#[export] Instance CurveOrderMontFelt_ok : MontFieldOk CurveOrderMontFelt.
Proof. field_constants. Qed.

Lemma modulus_MontFelt : @modulus MontFelt = field_prime.
Proof. reflexivity. Qed.

Lemma modulus_CurveOrder : @modulus CurveOrderMontFelt = curve_order.
Proof. reflexivity. Qed.

Lemma MontFelt_prime : Z.prime (@modulus MontFelt).
Proof. rewrite modulus_MontFelt. exact field_prime_prime. Qed.

Lemma CurveOrder_prime : Z.prime (@modulus CurveOrderMontFelt).
Proof. rewrite modulus_CurveOrder. exact curve_order_prime. Qed.

(** ** Prime fields *)

Class MontFieldPrime (F : MontField) := prime_modulus : Z.prime modulus.

#[export] Instance MontFelt_is_prime : MontFieldPrime MontFelt := MontFelt_prime.
#[export] Instance CurveOrder_is_prime : MontFieldPrime CurveOrderMontFelt := CurveOrder_prime.

Section PrimeField.
Context {F : MontField} {FOk : MontFieldOk F} {Fp : MontFieldPrime F}.

Lemma val_coprime x : canonical x -> eval x <> 0 -> Z.coprime (eval x) modulus.
Proof.
  intros Hx Hnz. pose proof (canonical_range x Hx) as [_ ?].
  unfold Z.coprime. rewrite Z.gcd_comm.
  apply Z.coprime_prime_small; [exact prime_modulus | lia].
Qed.

(** [inverse] returns [None] exactly on zero and the inverse otherwise. *)
Lemma inverse_val x : canonical x -> val x <> Zmod.zero ->
  exists y, inverse x = Some y /\ canonical y /\ val y = Zmod.inv (val x).
Proof.
  intros Hx Hv. pose proof Hv as Hnz. rewrite val_0_iff in Hnz by exact Hx.
  destruct (inverse_spec x Hx Hnz (val_coprime x Hx Hnz)) as (y & E & Hc & V).
  exists y. unfold inverse. rewrite E. split; [reflexivity|]. split; [exact Hc|].
  rewrite <- (Zmod.mul_1_r (val y)), <- (Zmod.mul_inv_same_r_prime (val x) prime_modulus Hv).
  rewrite Zmod.mul_assoc, V. apply Zmod.mul_1_l.
Qed.

Lemma inverse_zero x : canonical x -> val x = Zmod.zero -> inverse x = None.
Proof.
  intros Hx E. rewrite val_0_iff in E by exact Hx. unfold inverse, inverse_fuel.
  destruct (is_zero_spec x) as [_|N]; [apply Hx | reflexivity | contradiction].
Qed.

Lemma mul_zero (a b : Zmod modulus) :
  Zmod.mul a b = Zmod.zero -> a = Zmod.zero \/ b = Zmod.zero.
Proof. apply Zmod.mul_0_iff_prime, prime_modulus. Qed.

(** The square roots of one. *)
Lemma square_one (y : Zmod modulus) :
  Zmod.mul y y = Zmod.one -> y = Zmod.one \/ y = Zmod.opp Zmod.one.
Proof. rewrite <- Zmod.pow_2_r. apply Zmod.square_roots_1_prime, prime_modulus. Qed.
End PrimeField.

(** ** Evaluating field expressions *)

Section Expressions.
Context {F : MontField} {FOk : MontFieldOk F}.

Lemma canonical_add x y : canonical x -> canonical y -> canonical (add x y).
Proof. intros Hx Hy. exact (proj1 (add_val x y Hx Hy)). Qed.
Lemma canonical_sub x y : canonical x -> canonical y -> canonical (sub x y).
Proof. intros Hx Hy. exact (proj1 (sub_val x y Hx Hy)). Qed.
Lemma canonical_mul x y : canonical x -> canonical y -> canonical (mul x y).
Proof. intros Hx Hy. exact (proj1 (mul_val x y Hx Hy)). Qed.
Lemma canonical_square x : canonical x -> canonical (square x).
Proof. intros Hx. exact (proj1 (square_val x Hx)). Qed.
Lemma canonical_double x : canonical x -> canonical (double x).
Proof. intros Hx. exact (proj1 (double_val x Hx)). Qed.
Lemma canonical_negate x : canonical x -> canonical (negate x).
Proof. intros Hx. exact (proj1 (negate_val x Hx)). Qed.
Lemma canonical_TWO : canonical TWO.
Proof. exact (proj1 (const_add_val ONE ONE canonical_ONE canonical_ONE)). Qed.
Lemma canonical_THREE : canonical THREE.
Proof. exact (proj1 (const_add_val TWO ONE canonical_TWO canonical_ONE)). Qed.

Lemma val_add x y : canonical x -> canonical y -> val (add x y) = Zmod.add (val x) (val y).
Proof. intros Hx Hy. exact (proj2 (add_val x y Hx Hy)). Qed.
Lemma val_sub x y : canonical x -> canonical y -> val (sub x y) = Zmod.sub (val x) (val y).
Proof. intros Hx Hy. exact (proj2 (sub_val x y Hx Hy)). Qed.
Lemma val_mul x y : canonical x -> canonical y -> val (mul x y) = Zmod.mul (val x) (val y).
Proof. intros Hx Hy. exact (proj2 (mul_val x y Hx Hy)). Qed.
Lemma val_square x : canonical x -> val (square x) = Zmod.mul (val x) (val x).
Proof. intros Hx. exact (proj2 (square_val x Hx)). Qed.
Lemma val_double x : canonical x -> val (double x) = Zmod.add (val x) (val x).
Proof. intros Hx. exact (proj2 (double_val x Hx)). Qed.
Lemma val_negate x : canonical x -> val (negate x) = Zmod.opp (val x).
Proof. intros Hx. exact (proj2 (negate_val x Hx)). Qed.
Lemma val_TWO : val TWO = Zmod.add Zmod.one Zmod.one.
Proof.
  unfold TWO. destruct (const_add_val ONE ONE canonical_ONE canonical_ONE) as [_ ->].
  now rewrite val_ONE.
Qed.
Lemma val_THREE : val THREE = Zmod.add (Zmod.add Zmod.one Zmod.one) Zmod.one.
Proof.
  unfold THREE. destruct (const_add_val TWO ONE canonical_TWO canonical_ONE) as [_ ->].
  now rewrite val_TWO, val_ONE.
Qed.

Lemma limbs_eqb_val x y : canonical x -> canonical y -> reflect (val x = val y) (limbs_eqb x y).
Proof.
  intros Hx Hy. apply iff_reflect. destruct (limbs_eqb_spec x y) as [->|N]; split; try easy.
  intros E. now apply val_inj in E.
Qed.
End Expressions.

(** [canon] proves that a compound expression is canonical. *)
Ltac canon :=
  repeat match goal with
    | |- canonical (add _ _) => apply canonical_add
    | |- canonical (sub _ _) => apply canonical_sub
    | |- canonical (mul _ _) => apply canonical_mul
    | |- canonical (square _) => apply canonical_square
    | |- canonical (double _) => apply canonical_double
    | |- canonical (negate _) => apply canonical_negate
    | |- canonical TWO => apply canonical_TWO
    | |- canonical THREE => apply canonical_THREE
    | |- canonical ONE => apply canonical_ONE
    | |- canonical ZERO => apply canonical_ZERO
    | _ => assumption
    end.

(** [rewrite_val] pushes [val] through the operations. *)
Ltac rewrite_val :=
  repeat match goal with
    | |- context [val (add ?x ?y)] => rewrite (val_add x y) by canon
    | |- context [val (sub ?x ?y)] => rewrite (val_sub x y) by canon
    | |- context [val (mul ?x ?y)] => rewrite (val_mul x y) by canon
    | |- context [val (square ?x)] => rewrite (val_square x) by canon
    | |- context [val (double ?x)] => rewrite (val_double x) by canon
    | |- context [val (negate ?x)] => rewrite (val_negate x) by canon
    | |- context [val TWO] => rewrite val_TWO
    | |- context [val THREE] => rewrite val_THREE
    | |- context [val ONE] => rewrite val_ONE
    | |- context [val ZERO] => rewrite val_ZERO
    end.
