(* ===== verification/CurveOrder.v ===== *)
(** The field of scalars, [CurveOrderMontFelt] (algebra/field/curveorder/).
    Its arithmetic is that of Montgomery.v over the order of the curve's group;
    what the crate writes differently from [MontFelt] is the comparison and the
    inversion, which are translated here. *)

From Stdlib Require Import ZArith Lia Bool List Zmod.
From S2P Require Import Prelude Bytes Words Montgomery MontgomeryFacts FieldAlgos MontBytes.
From S2P Require Import NumberTheory Fields.
Import ListNotations.
Local Open Scope Z_scope.

Module CurveOrder.

#[local] Existing Instance CurveOrderMontFelt.

(** ** additive.rs, reduce.rs, multiplicative.rs *)

Definition add_noreduce (self x : limbs) : limbs := const_add_noreduce self x.
Definition sub_noreduce (self x : limbs) : limbs := const_sub_noreduce self x.
Definition reduce_partial (self : limbs) : limbs := const_reduce_partial self.
Definition mont_reduce (r0 r1 r2 r3 r4 r5 r6 r7 : Z) : limbs := const_mont_reduce r0 r1 r2 r3 r4 r5 r6 r7.
Definition reduce_full (self : limbs) : limbs := const_reduce_full self.
Definition const_add (self x : limbs) : limbs := Montgomery.const_add self x.
Definition const_sub (self x : limbs) : limbs := Montgomery.const_sub self x.
Definition const_neg (self : limbs) : limbs := Montgomery.const_neg self.
Definition double (self : limbs) : limbs := const_add self self.
Definition const_mul (self x : limbs) : limbs := Montgomery.const_mul self x.
Definition square (self : limbs) : limbs := const_square self.

(** ** cmp.rs *)

(** The loop of [cmp] from the top limb, as an [isize]. *)
Fixpoint cmp_loop (idx : list nat) (self x : limbs) : Z :=
  match idx with
  | [] => 0
  | i :: idx =>
      if limb x i <? limb self i then 1
      else if limb self i <? limb x i then -1
      else cmp_loop idx self x
  end.

Definition cmp (self x : limbs) : Z := cmp_loop idx_down self x.

Definition mont_cmp (self x : limbs) : Z :=
  let a := reduce_full self in
  let b := reduce_full x in
  cmp_loop idx_down a b.

Definition eq (self x : limbs) : bool := cmp self x =? 0.
Definition gt (self x : limbs) : bool := 0 <? cmp self x.
Definition geq (self x : limbs) : bool := 0 <=? cmp self x.
Definition lt (self x : limbs) : bool := cmp self x <? 0.
Definition leq (self x : limbs) : bool := cmp self x <=? 0.

Definition partial_cmp (self other : limbs) : option comparison :=
  match mont_cmp self other with
  | 1 => Some Gt
  | -1 => Some Lt
  | 0 => Some Eq
  | _ => None
  end.

(** ** inverse.rs *)

Fixpoint halve_loop (fuel : nat) (u b : limbs) : option (limbs * limbs) :=
  if is_even u then
    match fuel with
    | O => None
    | S fuel =>
        let u := div2 u in
        let b := if is_even b then div2 b else div2 (add_noreduce b P) in
        halve_loop fuel u b
    end
  else Some (u, b).

Fixpoint inverse_loop (fuel inner : nat) (u v b c : limbs) : option (limbs * limbs * limbs) :=
  if negb (limbs_eqb u one_raw) && negb (limbs_eqb v one_raw) then
    match fuel with
    | O => None
    | S fuel =>
        match halve_loop inner u b with
        | None => None
        | Some (u, b) =>
            match halve_loop inner v c with
            | None => None
            | Some (v, c) =>
                if cmp v u =? -1 then
                  let u := sub_noreduce u v in
                  let b := const_sub b c in
                  inverse_loop fuel inner u v b c
                else
                  let v := sub_noreduce v u in
                  let c := const_sub c b in
                  inverse_loop fuel inner u v b c
            end
        end
    end
  else Some (u, b, c).

Definition inverse (self : limbs) : option limbs :=
  if is_zero self then None
  else
    match inverse_loop 520 260 self P R2 ZERO with
    | None => None
    | Some (u, b, c) => if limbs_eqb u one_raw then Some b else Some c
    end.

(** ** convert.rs *)

Definition from_be_bytes (bytes : list Z) : limbs := MontBytes.from_be_bytes bytes.
Definition to_be_bytes (self : limbs) : list Z := MontBytes.to_be_bytes self.
Definition from_limbs (x : limbs) : limbs := const_mul x R2.
Definition into_le_bits (self : limbs) : list bool :=
  let raw := reduce_full self in
  limb_bits raw.

(** ** random.rs *)

Definition sample {Rng} (gen : Rng -> Z * Rng) (rng : Rng) : option limbs * Rng :=
  let '(s0, rng) := gen rng in
  let '(s1, rng) := gen rng in
  let '(s2, rng) := gen rng in
  let '(s3, rng) := gen rng in
  let s := Limbs s0 s1 s2 (Z.land s3 (Z.shiftr (W64 - 1) 4)) in
  (if lt s P then Some s else None, rng).

(** ** The comparison agrees with that of [MontFelt] *)

Lemma cmp_loop_ord idx a b : cmp_loop idx a b = ord_i8 (cmp_from idx a b).
Proof.
  induction idx as [|i idx IH]; cbn [cmp_loop cmp_from]; [reflexivity|].
  destruct (Z.ltb_spec (limb b i) (limb a i)), (Z.ltb_spec (limb a i) (limb b i)); try lia;
    first [exact IH | reflexivity].
Qed.

Lemma cmp_ord a b : cmp a b = ord_i8 (const_cmp a b).
Proof. apply cmp_loop_ord. Qed.

Lemma partial_cmp_spec a b : limbs_ok a -> limbs_ok b ->
  partial_cmp a b = Some (Z.compare (Zmod.unsigned (val a)) (Zmod.unsigned (val b))).
Proof.
  intros Ha Hb. rewrite <- const_cmp_native_spec by assumption.
  unfold partial_cmp, mont_cmp. cbv zeta. rewrite cmp_loop_ord.
  change (cmp_from idx_down (reduce_full a) (reduce_full b)) with (const_cmp_native a b).
  now destruct (const_cmp_native a b).
Qed.

Lemma lt_const_lt a b : lt a b = const_lt a b.
Proof. unfold lt. now rewrite cmp_ord. Qed.

Lemma sample_eq {Rng} (gen : Rng -> Z * Rng) rng : sample gen rng = MontBytes.sample gen rng.
Proof.
  unfold sample, MontBytes.sample. destruct (gen rng) as [? r0]. destruct (gen r0) as [? r1].
  destruct (gen r1) as [? r2]. destruct (gen r2) as [? r3]. now rewrite lt_const_lt.
Qed.

(** ** The inversion agrees with that of [MontFelt] *)

Lemma halve_loop_eq fuel : forall u b, limbs_ok u -> limbs_ok b ->
  halve_loop fuel u b = Montgomery.halve_loop fuel u b.
Proof.
  induction fuel as [|fuel IH]; intros u b Hu Hb; cbn [halve_loop Montgomery.halve_loop]; [reflexivity|].
  destruct (is_even u); [|reflexivity].
  rewrite add_assign_noreduce_eq by (exact Hb || apply P_ok). unfold add_noreduce. cbv zeta.
  apply IH; [now apply div2_spec|].
  destruct (is_even b); apply div2_spec; [exact Hb|]. apply const_add_noreduce_mod; [exact Hb | apply P_ok].
Qed.

Lemma halve_loop_ok fuel : forall u b u' b', limbs_ok u -> limbs_ok b ->
  Montgomery.halve_loop fuel u b = Some (u', b') -> limbs_ok u' /\ limbs_ok b'.
Proof.
  induction fuel as [|fuel IH]; intros u b u' b' Hu Hb; cbn [Montgomery.halve_loop];
    destruct (is_even u); try discriminate; try (intros [= <- <-]; auto; fail).
  cbv zeta. rewrite add_assign_noreduce_eq by (exact Hb || apply P_ok). apply IH; [now apply div2_spec|].
  destruct (is_even b); apply div2_spec; [exact Hb|]. apply const_add_noreduce_mod; [exact Hb | apply P_ok].
Qed.

Lemma const_sub_ok a b : limbs_ok a -> limbs_ok b -> limbs_ok (Montgomery.const_sub a b).
Proof.
  intros Ha Hb. unfold Montgomery.const_sub. destruct (const_gt b a).
  - apply const_sub_noreduce_mod; [apply const_add_noreduce_mod; [exact Ha | apply P_ok] | exact Hb].
  - now apply const_sub_noreduce_mod.
Qed.

Lemma inverse_loop_eq fuel inner : forall u v b c, limbs_ok u -> limbs_ok v -> limbs_ok b -> limbs_ok c ->
  inverse_loop fuel inner u v b c = Montgomery.inverse_loop fuel inner u v b c.
Proof.
  induction fuel as [|fuel IH]; intros u v b c Hu Hv Hb Hc;
    cbn [inverse_loop Montgomery.inverse_loop]; [reflexivity|].
  destruct (negb (limbs_eqb u one_raw) && negb (limbs_eqb v one_raw)); [|reflexivity].
  rewrite halve_loop_eq by assumption.
  destruct (Montgomery.halve_loop inner u b) as [[u' b']|] eqn:E1; [|reflexivity].
  apply halve_loop_ok in E1 as [Hu' Hb']; try assumption. rewrite halve_loop_eq by assumption.
  destruct (Montgomery.halve_loop inner v c) as [[v' c']|] eqn:E2; [|reflexivity].
  apply halve_loop_ok in E2 as [Hv' Hc']; try assumption.
  replace (cmp v' u' =? -1) with (const_lt v' u').
  2: { rewrite cmp_ord. unfold const_lt. now destruct (const_cmp v' u'). }
  cbv zeta. rewrite !sub_assign_noreduce_eq by assumption. unfold sub_noreduce, const_sub.
  destruct (const_lt v' u'); apply IH; try assumption;
    (now apply const_sub_noreduce_mod) || (now apply const_sub_ok).
Qed.

Lemma inverse_eq x : limbs_ok x -> inverse x = Montgomery.inverse x.
Proof.
  intros Hx. unfold inverse, Montgomery.inverse, inverse_fuel.
  rewrite inverse_loop_eq by (exact Hx || apply P_ok || apply R2_ok || apply ZERO_ok).
  destruct (is_zero x); [reflexivity|].
  destruct (Montgomery.inverse_loop 520 260 x P R2 ZERO) as [[[u b] c]|]; [|reflexivity].
  now destruct (limbs_eqb u one_raw).
Qed.

Lemma order_inverse_val x : canonical x -> val x <> Zmod.zero ->
  exists y, inverse x = Some y /\ canonical y /\ val y = Zmod.inv (val x).
Proof. intros Hx N. rewrite inverse_eq by apply Hx. now apply Fields.inverse_val. Qed.

Lemma order_into_le_bits_spec x : limbs_ok x ->
  into_le_bits x = map (fun i => Z.testbit (Zmod.unsigned (val x)) (Z.of_nat i)) (seq 0 256).
Proof.
  intros Hx. rewrite <- MontBytes.into_le_bits_spec by exact Hx.
  unfold into_le_bits, MontBytes.into_le_bits, reduce_full. cbv zeta.
  now rewrite (reduce_full_eq x Hx).
Qed.
End CurveOrder.
