(* ===== verification/Sqrt.v ===== *)
(** Square roots in the base field (montfelt/sqrt.rs): the Tonelli-Shanks loop
    ends within 193 rounds, returns a square root of every quadratic residue
    and [None] exactly on the others. *)

From Stdlib Require Import ZArith Lia Bool List Zmod.
From S2P Require Import Prelude Words Montgomery MontgomeryFacts FieldAlgos MontBytes.
From S2P Require Import NumberTheory Fields.
Import ListNotations.
Local Open Scope Z_scope.

(** ** The code *)

Definition SQRT_S : nat := 192.
Definition SQRT_T_MINUS_ONE_DIV2 : list Z := [288230376151711752; 0; 0; 0].
Definition SQRT_Z : limbs :=
  Limbs 4685640052668284376 12298664652803292137 735711535595279732 514024103053294630.

Section Loops.
Context {F : MontField}.

(** [let mut k = 0; while !b2k.is_one() { b2k = b2k.square(); k += 1; }] *)
Fixpoint order_loop (fuel : nat) (b2k : limbs) (k : nat) : option nat :=
  if is_one b2k then Some k
  else match fuel with
       | O => None
       | S fuel => order_loop fuel (square b2k) (S k)
       end.

(** [for _ in 1..j { w = w.square(); }], [n = j - 1] *)
Definition square_times (n : nat) (w : limbs) : limbs := Nat.iter n square w.

(** The outer loop; the outer [option] is the fuel, the inner one the result. *)
Fixpoint sqrt_loop (fuel : nat) (z x b : limbs) (v : nat) : option (option limbs) :=
  if is_one b then Some (Some x)
  else match fuel with
       | O => None
       | S fuel =>
           match order_loop (S SQRT_S) b 0 with
           | None => None
           | Some k =>
               if (k =? SQRT_S)%nat then Some None
               else
                 let j := (v - k)%nat in
                 let w := square_times (j - 1) z in
                 let z := square w in
                 sqrt_loop fuel z (mul x w) (mul b z) k
           end
       end.

End Loops.

Definition sqrt_fuel (fuel : nat) (self : limbs) : option (option limbs) :=
  if is_zero self then Some (Some ZERO)
  else
    let z := SQRT_Z in
    let w := @pow MontFelt self SQRT_T_MINUS_ONE_DIV2 in
    let x := @mul MontFelt w self in
    let b := @mul MontFelt x w in
    @sqrt_loop MontFelt fuel z x b SQRT_S.

Definition sqrt (self : limbs) : option limbs :=
  match sqrt_fuel (S SQRT_S) self with
  | Some r => r
  | None => None
  end.

(** ** Iterated squaring in the field *)

Section LoopFacts.
Context {F : MontField} {FOk : MontFieldOk F} {FPrime : MontFieldPrime F}.

#[local] Abbreviation Fp := (Zmod modulus).
Add Ring Fp_ring : (Zmod.ring_theory modulus).

Definition sqn (n : nat) (y : Fp) : Fp := Nat.iter n (fun y => Zmod.mul y y) y.

Lemma sqn_succ n y : sqn (S n) y = Zmod.mul (sqn n y) (sqn n y).
Proof. unfold sqn. now rewrite Nat.iter_succ. Qed.

Lemma sqn_succ_r n y : sqn (S n) y = sqn n (Zmod.mul y y).
Proof. unfold sqn. now rewrite Nat.iter_succ_r. Qed.

Lemma sqn_0 y : sqn 0 y = y.
Proof. reflexivity. Qed.

Lemma sqn_pow n y : sqn n y = Zmod.pow y (2 ^ Z.of_nat n).
Proof.
  induction n as [|n IH].
  - now rewrite sqn_0, Zmod.pow_1_r.
  - rewrite sqn_succ, IH, <- Zmod.pow_2_r, <- Zmod.pow_mul_r_nonneg by lia. f_equal.
    rewrite Nat2Z.inj_succ, Z.pow_succ_r; lia.
Qed.

Lemma sqn_mul n a b : sqn n (Zmod.mul a b) = Zmod.mul (sqn n a) (sqn n b).
Proof. rewrite !sqn_pow. apply Zmod.pow_mul_l_nonneg. lia. Qed.

Lemma sqn_add n m y : sqn (n + m) y = sqn m (sqn n y).
Proof. unfold sqn. now rewrite Nat.add_comm, Nat.iter_add. Qed.

Lemma sqn_one n : sqn n Zmod.one = Zmod.one.
Proof. rewrite sqn_pow. apply Zmod.pow_1_l. Qed.

(** ** The loops *)

Lemma square_times_val n x : canonical x ->
  canonical (square_times n x) /\ val (square_times n x) = sqn n (val x).
Proof.
  intros Hx. unfold square_times. induction n as [|n [IHc IHv]].
  - split; [exact Hx | reflexivity].
  - rewrite Nat.iter_succ, sqn_succ. destruct (square_val _ IHc) as [Hs E].
    rewrite E, IHv. auto.
Qed.

Lemma is_one_val x : canonical x -> is_one x = false -> val x <> Zmod.one.
Proof. intros Hx E V. apply is_one_spec in V; [congruence | exact Hx]. Qed.

(** The least [m] with [b^(2^m) = 1] is found, given that there is one. *)
Lemma order_loop_spec fuel b k n : canonical b -> sqn n (val b) = Zmod.one -> (n <= fuel)%nat ->
  exists m, order_loop fuel b k = Some (k + m)%nat /\ (m <= n)%nat /\
    sqn m (val b) = Zmod.one /\ (m = 0%nat \/ sqn (m - 1) (val b) <> Zmod.one).
Proof.
  revert b k n. induction fuel as [|fuel IH]; intros b k n Hb Hn Hle; cbn [order_loop];
    destruct (is_one b) eqn:E.
  1, 3: apply is_one_spec in E; [|exact Hb]; exists 0%nat; rewrite Nat.add_0_r;
    repeat split; auto; lia.
  - replace n with 0%nat in Hn by lia. now apply is_one_val in E.
  - destruct n as [|n]; [now apply is_one_val in E|].
    destruct (square_val b Hb) as [Hs V]. rewrite sqn_succ_r, <- V in Hn.
    destruct (IH (square b) (S k) n Hs Hn ltac:(lia)) as (m & Em & Hm & H1 & Hlt).
    exists (S m). rewrite Em, sqn_succ_r, <- V. split; [f_equal; lia|]. split; [lia|].
    split; [exact H1|]. right. replace (S m - 1)%nat with m by lia.
    destruct m as [|m]; [now apply is_one_val in E|]. rewrite sqn_succ_r, <- V.
    destruct Hlt as [|Hlt]; [discriminate|]. now replace (S m - 1)%nat with m in Hlt by lia.
Qed.

(** The invariant of the outer loop for the square root of [a]: [z] has order
    [2^v] and [x^2 = a * b]. *)
Record ts_inv (a : Fp) (z x b : limbs) (v : nat) : Prop := {
  ts_z : canonical z;
  ts_x : canonical x;
  ts_b : canonical b;
  ts_order : sqn (v - 1) (val z) = Zmod.opp Zmod.one;
  ts_root : Zmod.mul (val x) (val x) = Zmod.mul a (val b)
}.

Lemma opp_one_sq : Zmod.mul (Zmod.opp Zmod.one) (Zmod.opp Zmod.one) = (Zmod.one : Fp).
Proof. now rewrite Zmod.mul_opp_opp, Zmod.mul_1_l. Qed.

(** One round lowers the order of [b] below [2^k]. *)
Lemma ts_step a z x b v k : ts_inv a z x b v -> (0 < k < v)%nat ->
  sqn k (val b) = Zmod.one -> sqn (k - 1) (val b) <> Zmod.one ->
  let w := square_times (v - k - 1) z in
  ts_inv a (square w) (mul x w) (mul b (square w)) k /\
  sqn (k - 1) (val (mul b (square w))) = Zmod.one.
Proof.
  intros [Hz Hx Hb Ho Hr] Hk H1 Hlt. cbv zeta.
  destruct (square_times_val (v - k - 1) z Hz) as [Hw Vw].
  destruct (square_val _ Hw) as [Hs Vs].
  destruct (mul_val x _ Hx Hw) as [Hxw Vxw]. destruct (mul_val b _ Hb Hs) as [Hbw Vbw].
  assert (Oz : sqn (k - 1) (val (square (square_times (v - k - 1) z))) = Zmod.opp Zmod.one).
  { rewrite Vs, Vw, <- sqn_succ, <- sqn_add, <- Ho. f_equal. lia. }
  assert (Ob : sqn (k - 1) (val b) = Zmod.opp Zmod.one).
  { destruct (square_one (sqn (k - 1) (val b))) as [E|E]; [|contradiction | exact E].
    rewrite <- sqn_succ. now replace (S (k - 1)) with k by lia. }
  split; [split; try assumption|].
  - rewrite Vxw, Vbw, Vs.
    set (W := val (square_times (v - k - 1) z)).
    transitivity (Zmod.mul (Zmod.mul a (val b)) (Zmod.mul W W)); [rewrite <- Hr|]; ring.
  - rewrite Vbw, sqn_mul, Oz, Ob. apply opp_one_sq.
Qed.

(** From a state whose [b] has order below [2^v] the loop returns a root. *)
Lemma sqrt_loop_root fuel a z x b v : ts_inv a z x b v -> (0 < v <= SQRT_S)%nat ->
  sqn (v - 1) (val b) = Zmod.one -> (v <= fuel)%nat ->
  exists y, sqrt_loop fuel z x b v = Some (Some y) /\ canonical y /\ Zmod.mul (val y) (val y) = a.
Proof.
  revert z x b v. induction fuel as [|fuel IH]; intros z x b v Hinv Hv Hb Hf; [lia|].
  cbn [sqrt_loop]. destruct (is_one b) eqn:E.
  - apply is_one_spec in E; [|apply Hinv]. exists x. split; [reflexivity|].
    split; [apply Hinv|]. rewrite (ts_root _ _ _ _ _ Hinv), E. apply Zmod.mul_1_r.
  - destruct (order_loop_spec (S SQRT_S) b 0 (v - 1)) as (k & -> & Hk & H1 & Hlt);
      [apply Hinv | exact Hb | lia |].
    assert (k <> 0%nat).
    { intros ->. apply is_one_val in E; [contradiction | apply Hinv]. }
    destruct Hlt as [|Hlt]; [contradiction|]. cbn [Nat.add].
    rewrite (proj2 (Nat.eqb_neq k SQRT_S)) by lia.
    destruct (ts_step a z x b v k Hinv ltac:(lia) H1 Hlt) as [Hinv' Hb'].
    apply IH; [exact Hinv' | lia | exact Hb' | lia].
Qed.

(** If [b] has full order the loop reports a non-residue. *)
Lemma sqrt_loop_none fuel z x b v : canonical b ->
  sqn SQRT_S (val b) = Zmod.one -> sqn (SQRT_S - 1) (val b) <> Zmod.one ->
  sqrt_loop (S fuel) z x b v = Some None.
Proof.
  intros Hb H1 Hlt. cbn [sqrt_loop]. destruct (is_one b) eqn:E.
  { apply is_one_spec in E; [|exact Hb]. rewrite E, sqn_one in Hlt. contradiction. }
  destruct (order_loop_spec (S SQRT_S) b 0 SQRT_S Hb H1 ltac:(lia)) as (k & -> & Hk & Hk1 & _).
  cbn [Nat.add]. destruct (Nat.eqb_spec k SQRT_S) as [|N]; [reflexivity|]. exfalso. apply Hlt.
  replace (SQRT_S - 1)%nat with (k + (SQRT_S - 1 - k))%nat by lia.
  now rewrite sqn_add, Hk1, sqn_one.
Qed.

(** The result of a square root: a root, or nothing if there is none. *)
Definition is_sqrt (a : Fp) (r : option limbs) : Prop :=
  match r with
  | Some y => canonical y /\ Zmod.mul (val y) (val y) = a
  | None => forall y : Fp, Zmod.mul y y <> a
  end.

(** The loop of a field with [p - 1 = (2 h + 1) 2^S], started as [sqrt] does. *)
Lemma sqrt_start h z w self :
  0 <= h -> Z.pred modulus = (2 * h + 1) * 2 ^ Z.of_nat SQRT_S ->
  canonical z -> sqn (SQRT_S - 1) (val z) = Zmod.opp Zmod.one ->
  canonical w -> val w = Zmod.pow (val self) h ->
  canonical self -> val self <> Zmod.zero ->
  exists r, sqrt_loop (S SQRT_S) z (mul w self) (mul (mul w self) w) SQRT_S = Some r /\
    is_sqrt (val self) r.
Proof.
  intros Hh Hm Hz Oz Hw Vw Hs Hnz.
  destruct (mul_val w self Hw Hs) as [Hx Vx]. destruct (mul_val _ w Hx Hw) as [Hb Vb].
  assert (Eb : val (mul (mul w self) w) = Zmod.pow (val self) (2 * h + 1)).
  { rewrite Vb, Vx, Vw. replace (2 * h + 1) with (h + 1 + h) by lia.
    now rewrite !Zmod.pow_add_r_nonneg, Zmod.pow_1_r by lia. }
  assert (B1 : sqn SQRT_S (val (mul (mul w self) w)) = Zmod.one).
  { rewrite Eb, sqn_pow, <- Zmod.pow_mul_r_nonneg, <- Hm by lia.
    apply Zmod.fermat_nz; [exact Hnz | exact prime_modulus]. }
  assert (Inv : ts_inv (val self) z (mul w self) (mul (mul w self) w) SQRT_S).
  { split; try assumption. rewrite Vb, Vx. ring. }
  destruct (Zmod.eqb_spec (sqn (SQRT_S - 1) (val (mul (mul w self) w))) Zmod.one) as [E|N].
  - destruct (sqrt_loop_root (S SQRT_S) _ _ _ _ _ Inv) as (y & -> & Hy & V);
      [unfold SQRT_S; lia | exact E | lia |]. exists (Some y). split; [reflexivity | now split].
  - rewrite (sqrt_loop_none _ _ _ _ _ Hb B1 N). exists None. split; [reflexivity|].
    intros y Ey. apply N. rewrite Eb, sqn_pow, <- Zmod.pow_mul_r_nonneg by lia.
    rewrite <- Ey, <- Zmod.pow_2_r, <- Zmod.pow_mul_r_nonneg by (unfold SQRT_S; lia).
    replace (2 * _) with (Z.pred modulus).
    + apply Zmod.fermat_nz; [|exact prime_modulus]. intros ->. apply Hnz.
      now rewrite <- Ey, Zmod.mul_0_l.
    + rewrite Hm. replace (Z.of_nat SQRT_S) with (Z.succ (Z.of_nat (SQRT_S - 1)))
        by (unfold SQRT_S; lia). rewrite Z.pow_succ_r by lia. ring.
Qed.
End LoopFacts.

(** ** The base field *)

#[local] Existing Instance MontFelt.

Lemma SQRT_Z_canonical : @canonical MontFelt SQRT_Z.
Proof. split; [unfold limbs_ok, u64_ok, SQRT_Z; cbn; lia | reflexivity]. Qed.

(** [SQRT_Z] is [3^t] for the odd part [t] of [p - 1]. *)
Lemma SQRT_Z_val : val SQRT_Z = Zmod.pow (Zmod.of_Z modulus 3) field_odd.
Proof.
  apply val_unique, Zmod.unsigned_inj.
  rewrite Zmod.unsigned_mul, Zmod.unsigned_pow_nonneg_r, !Zmod.unsigned_of_Z, Z.mod_pow_l by discriminate.
  change field_odd with (Zpos 576460752303423505). rewrite <- powmod_spec by reflexivity.
  vm_compute. reflexivity.
Qed.

Lemma SQRT_Z_order : sqn (SQRT_S - 1) (val SQRT_Z) = Zmod.opp Zmod.one.
Proof.
  rewrite SQRT_Z_val, sqn_pow, <- Zmod.pow_mul_r_nonneg, Z.mul_comm by discriminate.
  exact (pock_step_opp_one _ _ _ _ field_certificate field_prime_prime).
Qed.

Lemma sqrt_fuel_spec self : canonical self ->
  exists r, sqrt_fuel (S SQRT_S) self = Some r /\ is_sqrt (val self) r.
Proof.
  intros Hs. unfold sqrt_fuel. cbv zeta. destruct (is_zero self) eqn:E.
  - apply is_zero_val in E; [|exact Hs]. exists (Some ZERO). split; [reflexivity|].
    split; [apply canonical_ZERO|]. rewrite val_ZERO, E. apply Zmod.mul_0_l.
  - destruct (pow_val self SQRT_T_MINUS_ONE_DIV2 Hs) as [Hw Vw].
    { unfold SQRT_T_MINUS_ONE_DIV2, u64_ok. repeat constructor; lia. }
    apply sqrt_start with (h := 288230376151711752); try assumption.
    + lia.
    + reflexivity.
    + apply SQRT_Z_canonical.
    + apply SQRT_Z_order.
    + intros V. apply is_zero_val in V; [congruence | exact Hs].
Qed.

Lemma sqrt_correct self : canonical self -> is_sqrt (val self) (sqrt self).
Proof.
  intros Hs. destruct (sqrt_fuel_spec self Hs) as (r & E & H). unfold sqrt. now rewrite E.
Qed.
