(* ===== verification/Felt.v ===== *)
(** [Felt], the 32-byte Starknet field element (field/felt.rs, field/serde.rs):
    construction from bytes, bits, machine integers and hexadecimal strings,
    the conversions to and from [MontFelt], and addition and subtraction. *)

From Stdlib Require Import String Ascii ZArith Lia Bool List Zmod.
From S2P Require Import Prelude Bytes Words Montgomery MontgomeryFacts MontBytes NumberTheory Fields.
Import ListNotations.
Local Open Scope Z_scope.

(** ** Data *)

(** [struct Felt([u8; 32])], most significant byte first. *)
Definition Felt : Type := list Z.

Inductive OverflowError : Type := MkOverflowError.

Inductive HexParseError : Type :=
| InvalidNibble (n : Z)
| InvalidLength (max actual : Z)
| MissingPrefix
| HexOverflow.

Definition HexParseError_from (e : OverflowError) : HexParseError :=
  match e with MkOverflowError => HexOverflow end.

Definition MODULUS_U64 : list Z := [576460752303423505; 0; 0; 1].

Definition FELT_ZERO : Felt := repeat 0 32.

(** ** Bytes *)

Definition felt_eqb (a b : Felt) : bool := if list_eq_dec Z.eq_dec a b then true else false.

Definition felt_is_zero (self : Felt) : bool := felt_eqb self FELT_ZERO.

Definition felt_to_be_bytes (self : Felt) : list Z := self.

Definition felt_to_le_bytes (self : Felt) : list Z := rev self.

(** The word-by-word comparison with the modulus; the result is
    [maybe_overflow], [None] the early [return Err(OverflowError)]. *)
Fixpoint overflow_loop (limbs modulus : list Z) : option bool :=
  match limbs, modulus with
  | l :: limbs, m :: modulus =>
      if l <? m then Some false
      else if m <? l then None
      else overflow_loop limbs modulus
  | _, _ => Some true
  end.

Definition felt_from_be_bytes (bytes : list Z) : result OverflowError Felt :=
  let limbs := [ from_be (slice 0 8 bytes); from_be (slice 8 8 bytes);
                 from_be (slice 16 8 bytes); from_be (slice 24 8 bytes) ] in
  match overflow_loop limbs MODULUS_U64 with
  | Some false => Ok bytes
  | _ => Err MkOverflowError
  end.

(** [l[i] = v] for [i] in range. *)
Definition upd (i : nat) (v : Z) (l : list Z) : list Z := firstn i l ++ v :: skipn (S i) l.

Definition felt_from_be_slice (bytes : list Z) : result OverflowError Felt :=
  if (32 <? length bytes)%nat then Err MkOverflowError
  else
    let buf := fold_left (fun buf index => upd (32 - length bytes + index) (nth index bytes 0) buf)
                 (seq 0 (length bytes)) (repeat 0 32) in
    felt_from_be_bytes buf.

Definition from_u64 (u : Z) : outcome Felt := unwrap_result (felt_from_be_slice (to_be 8 u)).
Definition from_u128 (u : Z) : outcome Felt := unwrap_result (felt_from_be_slice (to_be 16 u)).

(** ** Bits *)

Definition view_bits (self : Felt) : list bool := skipn 5 (bits_of_bytes self).

Definition from_bits (bits : list bool) : result OverflowError Felt :=
  if (251 <? length bits)%nat then Err MkOverflowError
  else Ok (bytes_of_bits 32 (repeat false (256 - length bits) ++ bits)).

Definition has_more_than_251_bits (self : Felt) : bool := 0 <? Z.land (nth 0 self 0) 248.

(** ** Machine integers *)

Fixpoint take_while_zero (l : list Z) : list Z :=
  match l with
  | b :: l => if b =? 0 then b :: take_while_zero l else []
  | [] => []
  end.

Fixpoint skip_while_zero (l : list Z) : list Z :=
  match l with
  | b :: l' => if b =? 0 then skip_while_zero l' else l
  | [] => []
  end.

(** [TryInto<u128>] and [TryInto<u64>], [n] the width in bytes. *)
Definition try_into_uint (n : nat) (self : Felt) : result OverflowError Z :=
  let initial_zeroes := length (take_while_zero self) in
  let EXPECTED_ZEROES := (32 - n)%nat in
  if (initial_zeroes <? EXPECTED_ZEROES)%nat then Err MkOverflowError
  else Ok (from_be (skipn EXPECTED_ZEROES self)).

Definition try_into_u128 : Felt -> result OverflowError Z := try_into_uint 16.
Definition try_into_u64 : Felt -> result OverflowError Z := try_into_uint 8.

(** ** Field elements *)

Definition mont_of_felt (felt : Felt) : limbs := @from_be_bytes MontFelt (felt_to_be_bytes felt).

Definition felt_of_mont (fp : limbs) : outcome Felt :=
  let bytes := @to_be_bytes MontFelt fp in
  unwrap_result (felt_from_be_bytes bytes).

Definition felt_of_curve_order (value : limbs) : outcome Felt :=
  let bytes := @to_be_bytes CurveOrderMontFelt value in
  unwrap_result (felt_from_be_bytes bytes).

Definition felt_add (self rhs : Felt) : outcome Felt :=
  let result := @add MontFelt (mont_of_felt self) (mont_of_felt rhs) in
  felt_of_mont result.

Definition felt_sub (self rhs : Felt) : outcome Felt :=
  let result := @sub MontFelt (mont_of_felt self) (mont_of_felt rhs) in
  felt_of_mont result.

(** ** Hexadecimal strings

    A [&str] is its list of bytes. *)

Definition parse_hex_digit (digit : Z) : result HexParseError Z :=
  if (48 <=? digit) && (digit <=? 57) then Ok (digit - 48)
  else if (65 <=? digit) && (digit <=? 70) then Ok (digit - 65 + 10)
  else if (97 <=? digit) && (digit <=? 102) then Ok (digit - 97 + 10)
  else Err (InvalidNibble digit).

(** [while chunk < chunks], [n = chunks - chunk] rounds left. *)
Fixpoint hex_chunks (n chunk : nat) (bytes buf : list Z) : result HexParseError (list Z) :=
  match n with
  | O => Ok buf
  | S n =>
      let? lower := parse_hex_digit (nth (length bytes - chunk * 2 - 1) bytes 0) in
      let? upper := parse_hex_digit (nth (length bytes - chunk * 2 - 2) bytes 0) in
      hex_chunks n (S chunk) bytes (upd (31 - chunk) (Z.lor (Z.shiftl upper 4) lower) buf)
  end.

Definition from_hex_str (bytes : list Z) : result HexParseError Felt :=
  let? len :=
    match bytes with
    | 48 :: 120 :: rest =>
        if (64 <? length rest)%nat then Err (InvalidLength 64 (Z.of_nat (length rest)))
        else Ok (length rest)
    | _ => Err MissingPrefix
    end in
  let buf := repeat 0 32 in
  let? buf :=
    if (len mod 2 =? 1)%nat then
      let idx := (len / 2)%nat in
      let? b := parse_hex_digit (nth 2 bytes 0) in
      Ok (upd (31 - idx) b buf)
    else Ok buf in
  let? buf := hex_chunks (len / 2) 0 bytes buf in
  map_err HexParseError_from (felt_from_be_bytes buf).

Definition LUT : list Z :=
  [48; 49; 50; 51; 52; 53; 54; 55; 56; 57; 97; 98; 99; 100; 101; 102].

(** [(it, start, len)] *)
Definition skip_zeros (self : Felt) : list Z * nat * nat :=
  let it := skip_while_zero self in
  let num_bytes := length it in
  let skipped := (length self - num_bytes)%nat in
  let start := if nth skipped self 0 <? 16 then 1%nat else 2%nat in
  let len := (start + num_bytes * 2)%nat in
  (it, start, len).

(** [buf[pos..pos + 2].copy_from_slice(&x)] for a range within the buffer. *)
Definition write2 (pos : nat) (a b : Z) (buf : list Z) : list Z :=
  firstn pos buf ++ a :: b :: skipn (pos + 2) buf.

Fixpoint write_bytes (it : list Z) (start i : nat) (buf : list Z) : list Z :=
  match it with
  | [] => buf
  | b :: it =>
      let pos := (start + i * 2)%nat in
      write_bytes it start (S i)
        (write2 pos (nth (Z.to_nat (Z.shiftr (Z.land b 240) 4)) LUT 0)
                    (nth (Z.to_nat (Z.land b 15)) LUT 0) buf)
  end.

Definition it_to_hex_str (it : list Z) (start len : nat) (buf : list Z) : list Z :=
  let buf := upd 0 48 buf in
  let buf := write_bytes it start 0 buf in
  let buf := upd 1 120 buf in
  firstn len buf.

Definition as_hex_str (self : Felt) (buf : list Z) : outcome (list Z) :=
  let expected_buf_len := (length self * 2 + 2)%nat in
  if (length buf <? expected_buf_len)%nat then Panic
  else if negb (existsb (fun b => negb (b =? 0)) self) then Ret [48; 120; 48]
  else
    let '(it, start, len) := skip_zeros self in
    Ret (it_to_hex_str it start len buf).

Definition to_hex_str (self : Felt) : list Z :=
  if negb (existsb (fun b => negb (b =? 0)) self) then [48; 120; 48]
  else
    let '(it, start, len) := skip_zeros self in
    it_to_hex_str it start len (repeat 0 len).

(** [Serialize] writes the string of [as_hex_str] over a buffer of 66 bytes,
    [Deserialize] parses with [from_hex_str]. *)
Definition serialize (self : Felt) : outcome (list Z) := as_hex_str self (repeat 0 66).
Definition visit_str (v : list Z) : result HexParseError Felt := from_hex_str v.

(** A string literal as bytes. *)
Definition bytes_of_string (s : string) : list Z :=
  map (fun c => Z.of_nat (nat_of_ascii c)) (list_ascii_of_string s).

(** * Correctness of [Felt]: which byte strings, bit strings, integers and
    hexadecimal strings are accepted, what they denote, and the round trips. *)

(** A well-formed element: 32 bytes whose value is below the field prime. *)
Definition felt_ok (f : Felt) : Prop :=
  bytes_ok f /\ length f = 32%nat /\ be_value f < field_prime.

Lemma felt_inj a b : felt_ok a -> felt_ok b -> be_value a = be_value b -> a = b.
Proof.
  intros (Ha & La & _) (Hb & Lb & _). apply digits_value_inj; auto; lia.
Qed.

(** ** Bytes *)

Lemma overflow_loop_spec ls ms : digits_ok W64 ls -> digits_ok W64 ms -> length ls = length ms ->
  match overflow_loop ls ms with
  | Some false => digits_value W64 ls < digits_value W64 ms
  | Some true => digits_value W64 ls = digits_value W64 ms
  | None => digits_value W64 ls > digits_value W64 ms
  end.
Proof.
  intros Hl. revert ms. induction Hl as [|l ls Hl Hls IH]; intros [|m ms] Hm HL; try discriminate.
  - reflexivity.
  - inversion_clear Hm. injection HL as HL. cbn [overflow_loop]. rewrite !digits_value_cons.
    pose proof (digits_value_bound W64 ls ltac:(lia) Hls) as B1.
    pose proof (digits_value_bound W64 ms ltac:(lia) H0) as B2. rewrite <- HL in *.
    destruct (Z.ltb_spec l m); [nia|]. destruct (Z.ltb_spec m l); [nia|].
    replace m with l by lia. specialize (IH ms H0 HL).
    destruct (overflow_loop ls ms) as [[]|]; lia.
Qed.

Lemma felt_from_be_bytes_spec bytes : bytes_ok bytes -> length bytes = 32%nat ->
  felt_from_be_bytes bytes = if be_value bytes <? field_prime then Ok bytes else Err MkOverflowError.
Proof.
  intros H L. destruct (limbs_of_be_bytes_spec bytes H L) as [(H0 & H1 & H2 & H3) E].
  unfold limbs_of_be_bytes, eval in *. cbn [l0 l1 l2 l3] in *. unfold felt_from_be_bytes. cbv zeta.
  set (ls := [_; _; _; _]). assert (Hls : digits_ok W64 ls) by (repeat constructor; assumption || apply H0 || apply H1 || apply H2 || apply H3).
  assert (Hms : digits_ok W64 MODULUS_U64) by (repeat constructor; lia).
  pose proof (overflow_loop_spec ls MODULUS_U64 Hls Hms eq_refl) as S.
  assert (EM : digits_value W64 MODULUS_U64 = field_prime) by reflexivity.
  assert (EL : digits_value W64 ls = be_value bytes).
  { rewrite <- E. unfold ls, digits_value. cbn [fold_left]. lia. }
  rewrite EM, EL in S.
  destruct (overflow_loop ls MODULUS_U64) as [[]|], (Z.ltb_spec (be_value bytes) field_prime);
    reflexivity || lia.
Qed.

Lemma felt_from_be_bytes_ok bytes f : bytes_ok bytes -> length bytes = 32%nat ->
  felt_from_be_bytes bytes = Ok f <-> f = bytes /\ felt_ok f.
Proof.
  intros H L. rewrite felt_from_be_bytes_spec by assumption. unfold felt_ok.
  destruct (Z.ltb_spec (be_value bytes) field_prime) as [Hlt|Hge]; split.
  - intros [= <-]. auto.
  - intros [-> _]. reflexivity.
  - discriminate.
  - intros [-> (_ & _ & ?)]. lia.
Qed.

Lemma upd_app i v l1 x l2 : length l1 = i -> upd i v (l1 ++ x :: l2) = l1 ++ v :: l2.
Proof.
  intros <-. unfold upd. rewrite firstn_app, firstn_all, Nat.sub_diag. cbn [firstn].
  rewrite app_nil_r. f_equal. f_equal. rewrite skipn_app, skipn_all2 by lia.
  now replace (S (length l1) - length l1)%nat with 1%nat by lia.
Qed.

Lemma slice_loop bytes k : (length bytes <= 32)%nat -> (k <= length bytes)%nat ->
  fold_left (fun buf index => upd (32 - length bytes + index) (nth index bytes 0) buf)
    (seq 0 k) (repeat 0 32)
  = repeat 0 (32 - length bytes) ++ firstn k bytes ++ repeat 0 (length bytes - k).
Proof.
  intros HL. induction k as [|k IH]; intros Hk.
  - cbn [seq fold_left firstn app]. rewrite <- repeat_app. f_equal. lia.
  - rewrite seq_S, fold_left_app, IH by lia. cbn [fold_left Nat.add].
    replace (length bytes - k)%nat with (S (length bytes - S k)) by lia. cbn [repeat].
    rewrite app_assoc, upd_app, <- app_assoc.
    + now rewrite (firstn_S_nth 0), <- app_assoc by lia.
    + rewrite length_app, repeat_length, length_firstn. lia.
Qed.

Lemma felt_from_be_slice_spec bytes : (length bytes <= 32)%nat ->
  felt_from_be_slice bytes = felt_from_be_bytes (repeat 0 (32 - length bytes) ++ bytes).
Proof.
  intros HL. unfold felt_from_be_slice. rewrite (proj2 (Nat.ltb_ge 32 (length bytes)) HL).
  rewrite slice_loop, firstn_all, Nat.sub_diag by lia. cbn [repeat]. now rewrite app_nil_r.
Qed.

(** A slice of at most 31 bytes always fits. *)
Lemma felt_from_short_slice bytes : bytes_ok bytes -> (length bytes <= 31)%nat ->
  exists f, felt_from_be_slice bytes = Ok f /\ felt_ok f /\ be_value f = be_value bytes.
Proof.
  intros H HL. rewrite felt_from_be_slice_spec by lia.
  set (f := repeat 0 (32 - length bytes) ++ bytes).
  assert (Hf : bytes_ok f) by (apply digits_ok_app; auto with words).
  assert (Lf : length f = 32%nat) by (unfold f; rewrite length_app, repeat_length; lia).
  assert (Vf : be_value f = be_value bytes) by apply digits_value_zeros.
  exists f. rewrite felt_from_be_bytes_ok by assumption. split; [split; [reflexivity|] | split];
    try exact Vf; (split; [exact Hf | split; [exact Lf|]]); rewrite Vf;
    pose proof (digits_value_bound 256 bytes ltac:(lia) H);
    assert (256 ^ Z.of_nat (length bytes) <= 256 ^ 31) by (apply Z.pow_le_mono_r; lia);
    change (256 ^ 31) with (2 ^ 248) in *; unfold field_prime; lia.
Qed.

Lemma from_uint_spec n u : (n <= 31)%nat -> 0 <= u < 256 ^ Z.of_nat n ->
  exists f, unwrap_result (felt_from_be_slice (to_be n u)) = Ret f /\ felt_ok f /\ be_value f = u.
Proof.
  intros Hn Hu. unfold to_be.
  destruct (felt_from_short_slice (to_digits 256 n u)) as (f & -> & Hf & V);
    [auto with words | rewrite to_digits_length; lia |].
  exists f. split; [reflexivity|]. split; [exact Hf|]. rewrite V. apply to_digits_value; lia.
Qed.

(** ** Bits *)

Lemma bits_length f : felt_ok f -> length (bits_of_bytes f) = 256%nat.
Proof. intros (_ & L & _). now rewrite bits_of_bytes_length, L. Qed.

Lemma view_bits_length f : felt_ok f -> length (view_bits f) = 251%nat.
Proof. intros Hf. unfold view_bits. rewrite length_skipn, bits_length; auto. Qed.

Lemma has_more_than_251_bits_spec f : felt_ok f ->
  has_more_than_251_bits f = true <-> 2 ^ 251 <= be_value f.
Proof.
  intros (Hb & L & _). destruct f as [|b f]; [discriminate|]. injection L as L.
  inversion_clear Hb as [|? ? B Hf]. unfold has_more_than_251_bits. cbn [nth].
  rewrite digits_value_cons, L. pose proof (digits_value_bound 256 f ltac:(lia) Hf) as V.
  rewrite L in V. change (256 ^ Z.of_nat 31) with (2 ^ 248) in *.
  replace (Z.land b 248) with (b / 8 * 8).
  - rewrite Z.ltb_lt. change (2 ^ 251) with (8 * 2 ^ 248).
    pose proof (Z.div_mod b 8). pose proof (Z.mod_pos_bound b 8). nia.
  - rewrite <- (Z.mod_small b 256) at 2 by lia. change 256 with (2 ^ 8).
    rewrite <- Z.land_ones, <- Z.land_assoc by lia. change (Z.land (Z.ones 8) 248) with 248.
    replace (b / 8 * 8) with (Z.shiftl (Z.shiftr b 3) 3)
      by (rewrite Z.shiftl_mul_pow2, Z.shiftr_div_pow2 by lia; reflexivity).
    rewrite <- Z.ldiff_ones_r by lia. apply Z.bits_inj'. intros i Hi.
    rewrite Z.ldiff_spec, Z.land_spec. destruct (Z.ltb_spec i 8).
    + f_equal. assert (i = 0 \/ i = 1 \/ i = 2 \/ i = 3 \/ i = 4 \/ i = 5 \/ i = 6 \/ i = 7) as C by lia.
      repeat destruct C as [->|C]; try subst i; reflexivity.
    + rewrite (Z.bits_above_log2 b i); [reflexivity | lia |].
      destruct (Z.eq_dec b 0) as [->|]; [cbn; lia|].
      apply Z.le_lt_trans with 7; [|lia]. change 7 with (Z.log2 255). apply Z.log2_le_mono. lia.
Qed.

Lemma from_bits_spec bits : (length bits <= 251)%nat ->
  exists f, from_bits bits = Ok f /\ felt_ok f /\ be_value f = bits_value bits.
Proof.
  intros HL. unfold from_bits. rewrite (proj2 (Nat.ltb_ge 251 (length bits)) HL).
  eexists. split; [reflexivity|].
  assert (V : be_value (bytes_of_bits 32 (repeat false (256 - length bits) ++ bits)) = bits_value bits).
  { rewrite bytes_of_bits_value by (rewrite length_app, repeat_length; lia).
    apply bits_value_false. }
  split; [|exact V]. split; [auto with words | split; [apply bytes_of_bits_length|]].
  rewrite V. pose proof (bits_value_bound bits).
  assert (2 ^ Z.of_nat (length bits) <= 2 ^ 251) by (apply Z.pow_le_mono_r; lia).
  unfold field_prime. lia.
Qed.

Lemma from_bits_too_long bits : (251 < length bits)%nat -> from_bits bits = Err MkOverflowError.
Proof. intros H. unfold from_bits. now rewrite (proj2 (Nat.ltb_lt _ _) H). Qed.

Lemma view_bits_value f : felt_ok f -> be_value f < 2 ^ 251 ->
  bits_value (view_bits f) = be_value f.
Proof.
  intros Hf Hlt. pose proof (bits_length f Hf) as L. unfold view_bits.
  pose proof (bits_of_bytes_value f (proj1 Hf)) as V.
  rewrite <- (firstn_skipn 5 (bits_of_bytes f)), bits_value_app, length_skipn, L in V.
  change (2 ^ Z.of_nat (256 - 5)) with (2 ^ 251) in V.
  pose proof (bits_value_bound (firstn 5 (bits_of_bytes f))).
  pose proof (bits_value_bound (skipn 5 (bits_of_bytes f))). nia.
Qed.

Lemma bits_roundtrip f : felt_ok f -> has_more_than_251_bits f = false ->
  from_bits (view_bits f) = Ok f.
Proof.
  intros Hf Hb. assert (be_value f < 2 ^ 251).
  { apply Z.nle_gt. intros H. apply has_more_than_251_bits_spec in H; [congruence | exact Hf]. }
  destruct (from_bits_spec (view_bits f)) as (g & -> & Hg & V);
    [rewrite view_bits_length by exact Hf; lia|].
  f_equal. apply felt_inj; [assumption..|]. now rewrite V, view_bits_value.
Qed.

Lemma view_bits_from_bits bits f : length bits = 251%nat -> from_bits bits = Ok f ->
  view_bits f = bits.
Proof.
  intros L E. destruct (from_bits_spec bits ltac:(lia)) as (g & Eg & Hg & V).
  rewrite E in Eg. injection Eg as <-. apply bits_value_inj.
  - now rewrite view_bits_length.
  - rewrite view_bits_value, V; [reflexivity | exact Hg |].
    pose proof (bits_value_bound bits) as B. rewrite L in B. lia.
Qed.

(** ** Machine integers *)

Lemma take_while_zero_split l : l = take_while_zero l ++ skip_while_zero l /\
  take_while_zero l = repeat 0 (length (take_while_zero l)) /\
  match skip_while_zero l with [] => True | b :: _ => b <> 0 end.
Proof.
  induction l as [|b l (IH1 & IH2 & IH3)]; cbn [take_while_zero skip_while_zero]; [auto|].
  destruct (Z.eqb_spec b 0) as [->|N]; cbn [app length repeat]; [|auto].
  split; [now f_equal|]. split; [now f_equal | exact IH3].
Qed.

Lemma zero_prefix f : exists k s, f = repeat 0 k ++ s /\ length (take_while_zero f) = k /\
  match s with [] => True | b :: _ => b <> 0 end.
Proof.
  destruct (take_while_zero_split f) as (E & Z0 & Hd).
  exists (length (take_while_zero f)), (skip_while_zero f). rewrite <- Z0. auto.
Qed.

Lemma try_into_uint_spec n f : (n <= 32)%nat -> bytes_ok f -> length f = 32%nat ->
  try_into_uint n f = if be_value f <? 256 ^ Z.of_nat n then Ok (be_value f) else Err MkOverflowError.
Proof.
  intros Hn Hb L. unfold try_into_uint. cbv zeta.
  destruct (zero_prefix f) as (k & s & -> & -> & Hd).
  rewrite length_app, repeat_length in L. apply digits_ok_app in Hb as [_ Hs].
  rewrite digits_value_zeros. destruct (Nat.ltb_spec k (32 - n)) as [Hk|Hk].
  - destruct (Z.ltb_spec (be_value s) (256 ^ Z.of_nat n)) as [Hv|]; [|reflexivity]. exfalso.
    destruct s as [|b s]; [cbn in L; lia|]. inversion_clear Hs as [|? ? B Hs'].
    rewrite digits_value_cons in Hv. cbn [length] in L.
    pose proof (digits_value_bound 256 s ltac:(lia) Hs').
    assert (256 ^ Z.of_nat n <= 256 ^ Z.of_nat (length s)) by (apply Z.pow_le_mono_r; lia). nia.
  - unfold from_be. rewrite skipn_repeat_app, digits_value_zeros by exact Hk.
    pose proof (digits_value_bound 256 s ltac:(lia) Hs).
    assert (256 ^ Z.of_nat (length s) <= 256 ^ Z.of_nat n) by (apply Z.pow_le_mono_r; lia).
    destruct (Z.ltb_spec (be_value s) (256 ^ Z.of_nat n)); [reflexivity | lia].
Qed.

(** ** Field elements *)

#[local] Existing Instance MontFelt.

Lemma mont_of_felt_val f : felt_ok f ->
  canonical (mont_of_felt f) /\ val (mont_of_felt f) = Zmod.of_Z modulus (be_value f).
Proof. intros (H & L & _). exact (from_be_bytes_val f H L). Qed.

Lemma felt_of_mont_spec x : limbs_ok x ->
  exists f, felt_of_mont x = Ret f /\ felt_ok f /\ be_value f = Zmod.unsigned (val x).
Proof.
  intros Hx. destruct (to_be_bytes_spec x Hx) as (H & L & E).
  exists (to_be_bytes x). unfold felt_of_mont. cbv zeta.
  rewrite felt_from_be_bytes_spec by assumption.
  pose proof (unsigned_val_range x) as R. pose proof modulus_MontFelt.
  rewrite E. destruct (Z.ltb_spec (Zmod.unsigned (val x)) field_prime); [|lia].
  split; [reflexivity|]. split; [|reflexivity]. split; [exact H | split; [exact L | now rewrite E]].
Qed.

Lemma felt_of_curve_order_spec x : limbs_ok x ->
  exists f, felt_of_curve_order x = Ret f /\ felt_ok f /\
    be_value f = Zmod.unsigned (@val CurveOrderMontFelt x).
Proof.
  intros Hx. destruct (to_be_bytes_spec (F := CurveOrderMontFelt) x Hx) as (H & L & E).
  exists (@to_be_bytes CurveOrderMontFelt x). unfold felt_of_curve_order. cbv zeta.
  rewrite felt_from_be_bytes_spec by assumption.
  pose proof (unsigned_val_range (F := CurveOrderMontFelt) x) as R. pose proof modulus_CurveOrder.
  assert (curve_order < field_prime) by reflexivity.
  rewrite E. destruct (Z.ltb_spec (Zmod.unsigned (@val CurveOrderMontFelt x)) field_prime); [|lia].
  split; [reflexivity|]. split; [|reflexivity]. split; [exact H | split; [exact L | rewrite E; lia]].
Qed.

Lemma mont_felt_roundtrip f : felt_ok f -> felt_of_mont (mont_of_felt f) = Ret f.
Proof.
  intros Hf. destruct (mont_of_felt_val f Hf) as [Hc V].
  destruct (felt_of_mont_spec _ (proj1 Hc)) as (g & -> & Hg & E). f_equal.
  apply felt_inj; [assumption..|]. rewrite E, V, Zmod.unsigned_of_Z. apply Z.mod_small.
  destruct Hf as (H & _ & Hlt). pose proof (digits_value_bound 256 f ltac:(lia) H).
  rewrite modulus_MontFelt. lia.
Qed.

Lemma felt_add_spec a b : felt_ok a -> felt_ok b ->
  exists c, felt_add a b = Ret c /\ felt_ok c /\ be_value c = (be_value a + be_value b) mod field_prime.
Proof.
  intros Ha Hb. destruct (mont_of_felt_val a Ha) as [Ca Va], (mont_of_felt_val b Hb) as [Cb Vb].
  destruct (add_val _ _ Ca Cb) as [Cc Vc]. unfold felt_add. cbv zeta.
  destruct (felt_of_mont_spec _ (proj1 Cc)) as (c & -> & Hc & E). exists c. split; [reflexivity|].
  split; [exact Hc|]. rewrite E, Vc, Va, Vb, <- Zmod.of_Z_add, Zmod.unsigned_of_Z.
  now rewrite modulus_MontFelt.
Qed.

Lemma felt_sub_spec a b : felt_ok a -> felt_ok b ->
  exists c, felt_sub a b = Ret c /\ felt_ok c /\ be_value c = (be_value a - be_value b) mod field_prime.
Proof.
  intros Ha Hb. destruct (mont_of_felt_val a Ha) as [Ca Va], (mont_of_felt_val b Hb) as [Cb Vb].
  destruct (sub_val _ _ Ca Cb) as [Cc Vc]. unfold felt_sub. cbv zeta.
  destruct (felt_of_mont_spec _ (proj1 Cc)) as (c & -> & Hc & E). exists c. split; [reflexivity|].
  split; [exact Hc|]. rewrite E, Vc, Va, Vb, <- Zmod.of_Z_sub, Zmod.unsigned_of_Z.
  now rewrite modulus_MontFelt.
Qed.
