(* ===== verification/FeltHex.v ===== *)
(** The hexadecimal form of a [Felt]: [from_hex_str] accepts exactly the
    strings "0x" followed by at most 64 hexadecimal digits whose value is below
    the field prime, [to_hex_str] and [as_hex_str] print the digits without
    leading zeros, and parsing a printed element gives it back. *)

From Stdlib Require Import String Ascii ZArith Lia Bool List Zmod.
From S2P Require Import Prelude Bytes MontBytes NumberTheory Fields Felt.
Import ListNotations.
Local Open Scope Z_scope.

(** ** Parsing *)

Lemma parse_hex_digit_spec c :
  parse_hex_digit c = match hex_digit c with Some d => Ok d | None => Err (InvalidNibble c) end.
Proof.
  unfold parse_hex_digit, hex_digit.
  destruct ((48 <=? c) && (c <=? 57)) eqn:E1; [reflexivity|].
  destruct ((97 <=? c) && (c <=? 102)) eqn:E2, ((65 <=? c) && (c <=? 70)) eqn:E3;
    try reflexivity. exfalso.
  apply andb_prop in E2 as [? ?], E3 as [? ?]. zbool. lia.
Qed.

Lemma spells_length cs ds : spells cs ds -> length cs = length ds.
Proof. apply Forall2_length. Qed.

Lemma spells_nth cs ds i : spells cs ds -> (i < length ds)%nat ->
  hex_digit (nth i cs 0) = Some (nth i ds 0).
Proof.
  intros H. revert i. induction H as [|c d cs ds Hc _ IH]; intros [|i] Hi; cbn [length nth] in *;
    try lia; [exact Hc | apply IH; lia].
Qed.

Lemma spells_skip2 cs ds i a b : spells cs ds -> (i < length ds)%nat ->
  parse_hex_digit (nth (S (S i)) (a :: b :: cs) 0) = Ok (nth i ds 0).
Proof. intros H Hi. cbn [nth]. now rewrite parse_hex_digit_spec, (spells_nth _ _ _ H Hi). Qed.

Lemma nibbles u l : 0 <= u < 16 -> 0 <= l < 16 -> Z.lor (Z.shiftl u 4) l = u * 16 + l.
Proof. intros. rewrite Z.lor_comm, lor_shiftl_add by lia. change (2 ^ 4) with 16. lia. Qed.

Lemma digit_nth ds i : digits_ok 16 ds -> 0 <= nth i ds 0 < 16.
Proof.
  intros H. destruct (Nat.lt_ge_cases i (length ds)) as [Hi|Hi].
  - apply (proj1 (Forall_forall _ _) H), nth_In, Hi.
  - rewrite nth_overflow by exact Hi. lia.
Qed.

Lemma pow_16_2 k : 16 ^ Z.of_nat (2 * k) = 256 ^ Z.of_nat k.
Proof. rewrite Nat2Z.inj_mul, Z.pow_mul_r by lia. reflexivity. Qed.

(** Two more digits at the front of a suffix. *)
Lemma suffix_step ds k : (2 * S k <= length ds)%nat ->
  digits_value 16 (skipn (length ds - 2 * S k) ds)
  = (nth (length ds - 2 * k - 2) ds 0 * 16 + nth (length ds - 2 * k - 1) ds 0) * 256 ^ Z.of_nat k
    + digits_value 16 (skipn (length ds - 2 * k) ds).
Proof.
  intros H. rewrite (skipn_nth 0), (skipn_nth 0 _ (S (length ds - 2 * S k))) by lia.
  rewrite !digits_value_cons. cbn [length]. rewrite length_skipn.
  replace (S (S (length ds - 2 * S k))) with (length ds - 2 * k)%nat by lia.
  replace (S (length ds - 2 * S k)) with (length ds - 2 * k - 1)%nat by lia.
  replace (length ds - 2 * S k)%nat with (length ds - 2 * k - 2)%nat by lia.
  replace (length ds - (length ds - 2 * k))%nat with (2 * k)%nat by lia.
  rewrite Nat2Z.inj_succ, Z.pow_succ_r, pow_16_2 by lia. ring.
Qed.

Lemma hex_chunks_spec rest ds n : spells rest ds -> forall k pre suf,
  (2 * (n + k) <= length ds)%nat -> (n + k <= 32)%nat -> length pre = (32 - k)%nat ->
  length suf = k -> bytes_ok suf -> be_value suf = digits_value 16 (skipn (length ds - 2 * k) ds) ->
  exists suf', hex_chunks n k (48 :: 120 :: rest) (pre ++ suf) = Ok (firstn (32 - (n + k)) pre ++ suf') /\
    length suf' = (n + k)%nat /\ bytes_ok suf' /\
    be_value suf' = digits_value 16 (skipn (length ds - 2 * (n + k)) ds).
Proof.
  intros Hs. pose proof (spells_length _ _ Hs) as HL. pose proof (spells_digits _ _ Hs) as Hd.
  induction n as [|n IH]; intros k pre suf H2 H32 Lp Ls Bs Vs; cbn [hex_chunks].
  { exists suf. cbn [Nat.add]. rewrite firstn_all2 by lia. auto. }
  cbn [length]. rewrite HL.
  replace (S (S (length ds)) - k * 2 - 1)%nat with (S (S (length ds - 2 * k - 1))) by lia.
  replace (S (S (length ds)) - k * 2 - 2)%nat with (S (S (length ds - 2 * k - 2))) by lia.
  rewrite !(spells_skip2 _ _ _ _ _ Hs) by lia. cbn [bind_result].
  pose proof (digit_nth ds (length ds - 2 * k - 2) Hd).
  pose proof (digit_nth ds (length ds - 2 * k - 1) Hd). rewrite nibbles by assumption.
  set (v := _ * 16 + _).
  assert (exists p x, pre = p ++ [x] /\ length p = (31 - k)%nat) as (p & x & -> & Lp').
  { exists (firstn (31 - k) pre), (nth (31 - k) pre 0). rewrite <- firstn_S_nth by lia.
    split; [symmetry; apply firstn_all2; lia | rewrite length_firstn; lia]. }
  rewrite <- app_assoc. cbn [app]. rewrite upd_app by exact Lp'.
  destruct (IH (S k) p (v :: suf)) as (suf' & -> & L' & B' & V').
  - lia.
  - lia.
  - lia.
  - cbn [length]. lia.
  - constructor; [unfold v; lia | exact Bs].
  - rewrite digits_value_cons, suffix_step, Vs, Ls by lia. reflexivity.
  - exists suf'. replace (S n + k)%nat with (n + S k)%nat by lia.
    rewrite firstn_app. replace (32 - (n + S k) - length p)%nat with 0%nat by lia.
    cbn [firstn]. rewrite app_nil_r. auto.
Qed.

(** The buffer before the loop: the odd leading digit in its place. *)
Lemma odd_buffer idx d : (idx <= 31)%nat ->
  exists z, upd (31 - idx) d (repeat 0 32) = z ++ repeat 0 0 /\ length z = 32%nat /\
    firstn (32 - idx) z = repeat 0 (31 - idx) ++ [d].
Proof.
  intros H. exists (repeat 0 (31 - idx) ++ d :: repeat 0 idx). rewrite app_nil_r.
  replace 32%nat with (31 - idx + S idx)%nat at 1 by lia. rewrite repeat_app. cbn [repeat].
  split; [apply upd_app, repeat_length|]. split.
  - rewrite length_app. cbn [length]. rewrite !repeat_length. lia.
  - rewrite firstn_app, firstn_all2, repeat_length by (rewrite repeat_length; lia).
    now replace (32 - idx - (31 - idx))%nat with 1%nat by lia.
Qed.

(** A prefixed string of at most 64 digits is parsed to its value. *)
Lemma from_hex_str_digits rest ds : spells rest ds -> (length ds <= 64)%nat ->
  exists buf, bytes_ok buf /\ length buf = 32%nat /\ be_value buf = digits_value 16 ds /\
    from_hex_str (48 :: 120 :: rest) = map_err HexParseError_from (felt_from_be_bytes buf).
Proof.
  intros Hs H64. pose proof (spells_length _ _ Hs) as HL. pose proof (spells_digits _ _ Hs) as Hd.
  pose proof (Nat.div_mod_eq (length ds) 2) as DM.
  pose proof (Nat.mod_upper_bound (length ds) 2 ltac:(lia)) as Hm.
  assert (Fin : forall pre, length pre = 32%nat ->
    be_value (firstn (32 - length ds / 2) pre) = digits_value 16 (firstn (length ds mod 2) ds) ->
    bytes_ok (firstn (32 - length ds / 2) pre) ->
    exists buf, bytes_ok buf /\ length buf = 32%nat /\ be_value buf = digits_value 16 ds /\
      hex_chunks (length ds / 2) 0 (48 :: 120 :: rest) pre = Ok buf).
  { intros pre Lp Vp Bp.
    destruct (hex_chunks_spec _ _ (length ds / 2) Hs 0 pre []) as (suf & E & Lsuf & Bsuf & Vsuf);
      try (cbn [length]; lia); [constructor | now rewrite skipn_all2 by lia|].
    rewrite app_nil_r, Nat.add_0_r in *. exists (firstn (32 - length ds / 2) pre ++ suf).
    split; [now apply digits_ok_app|]. split; [rewrite length_app, length_firstn; lia|].
    split; [|exact E]. rewrite digits_value_app, Vp, Vsuf, Lsuf, <- pow_16_2.
    pose proof (digits_value_app 16 (firstn (length ds mod 2) ds) (skipn (length ds mod 2) ds)) as EA.
    rewrite firstn_skipn, length_skipn in EA. rewrite EA.
    now replace (length ds - 2 * (length ds / 2))%nat with (length ds mod 2)%nat by lia;
      replace (length ds - length ds mod 2)%nat with (2 * (length ds / 2))%nat by lia. }
  unfold from_hex_str. rewrite HL, (proj2 (Nat.ltb_ge 64 (length ds)) H64). cbn [bind_result].
  destruct (Nat.eqb_spec (length ds mod 2) 1) as [Eo|Ee].
  - rewrite (spells_skip2 _ _ 0 48 120 Hs) by (destruct ds; cbn in *; lia). cbn [bind_result].
    destruct (odd_buffer (length ds / 2) (nth 0 ds 0) ltac:(lia)) as (z & -> & Lz & Fz).
    rewrite app_nil_r. destruct (Fin z Lz) as (buf & B & L & V & ->).
    + rewrite Fz, digits_value_zeros, Eo. destruct ds; [discriminate Eo | reflexivity].
    + rewrite Fz. apply digits_ok_app. split; [auto with words|].
      pose proof (digit_nth ds 0 Hd). repeat constructor; lia.
    + exists buf. auto.
  - cbn [bind_result]. destruct (Fin (repeat 0 32) (repeat_length _ _)) as (buf & B & L & V & ->).
    + replace (length ds mod 2)%nat with 0%nat by lia. rewrite firstn_repeat_le by lia.
      rewrite <- (app_nil_r (repeat 0 _)), digits_value_zeros. reflexivity.
    + auto with words.
    + exists buf. auto.
Qed.

(** [from_hex_str] on a prefixed string of digits, in terms of the value. *)
Lemma from_hex_str_ok rest ds : spells rest ds -> (length ds <= 64)%nat ->
  digits_value 16 ds < field_prime ->
  exists f, from_hex_str (48 :: 120 :: rest) = Ok f /\ felt_ok f /\ be_value f = digits_value 16 ds.
Proof.
  intros Hs HL Hv. destruct (from_hex_str_digits rest ds Hs HL) as (buf & B & L & V & ->).
  exists buf. rewrite felt_from_be_bytes_spec, V by assumption.
  rewrite (proj2 (Z.ltb_lt _ _) Hv). split; [reflexivity|]. split; [|reflexivity].
  split; [exact B | split; [exact L | now rewrite V]].
Qed.

Lemma from_hex_str_overflow rest ds : spells rest ds -> (length ds <= 64)%nat ->
  field_prime <= digits_value 16 ds -> from_hex_str (48 :: 120 :: rest) = Err HexOverflow.
Proof.
  intros Hs HL Hv. destruct (from_hex_str_digits rest ds Hs HL) as (buf & B & L & V & ->).
  rewrite felt_from_be_bytes_spec, V by assumption. now rewrite (proj2 (Z.ltb_ge _ _) Hv).
Qed.

(** *** Rejected strings *)

Definition has_prefix (bytes : list Z) : bool :=
  match bytes with 48 :: 120 :: _ => true | _ => false end.

Lemma from_hex_str_prefix bytes : has_prefix bytes = false -> from_hex_str bytes = Err MissingPrefix.
Proof.
  intros H. unfold from_hex_str.
  assert (E : match bytes with
    | 48 :: 120 :: rest =>
        if (64 <? length rest)%nat then Err (InvalidLength 64 (Z.of_nat (length rest)))
        else Ok (length rest)
    | _ => Err MissingPrefix
    end = Err MissingPrefix :> result HexParseError nat).
  { unfold has_prefix in H.
    repeat (match goal with |- context [match ?x with _ => _ end] => destruct x end;
            try reflexivity; try discriminate H). }
  rewrite E. reflexivity.
Qed.

Lemma from_hex_str_length rest : (64 < length rest)%nat ->
  from_hex_str (48 :: 120 :: rest) = Err (InvalidLength 64 (Z.of_nat (length rest))).
Proof. intros H. unfold from_hex_str. now rewrite (proj2 (Nat.ltb_lt _ _) H). Qed.

(** A digit that is read either parses or ends the parse with its code. *)
Lemma parse_cases c : (exists d, hex_digit c = Some d /\ parse_hex_digit c = Ok d) \/
  (hex_digit c = None /\ parse_hex_digit c = Err (InvalidNibble c)).
Proof. rewrite parse_hex_digit_spec. destruct (hex_digit c); eauto. Qed.

(** The loop reads the characters of [n] pairs from the end: it succeeds only
    if all are digits, and otherwise reports one that is not. *)
Lemma hex_chunks_cases rest n : forall k buf, (2 * (n + k) <= length rest)%nat ->
  match hex_chunks n k (48 :: 120 :: rest) buf with
  | Ok _ => forall i, (length rest - 2 * (n + k) <= i < length rest - 2 * k)%nat ->
              hex_digit (nth i rest 0) <> None
  | Err e => exists c, In c rest /\ hex_digit c = None /\ e = InvalidNibble c
  end.
Proof.
  induction n as [|n IH]; intros k buf H; cbn [hex_chunks]; [intros i Hi; lia|].
  cbn [length].
  replace (S (S (length rest)) - k * 2 - 1)%nat with (S (S (length rest - 2 * k - 1))) by lia.
  replace (S (S (length rest)) - k * 2 - 2)%nat with (S (S (length rest - 2 * k - 2))) by lia.
  cbn [nth].
  destruct (parse_cases (nth (length rest - 2 * k - 1) rest 0)) as [(l & Hl & ->)|[Hl ->]];
    cbn [bind_result]; [|eexists; split; [|split; [exact Hl | reflexivity]]; apply nth_In; lia].
  destruct (parse_cases (nth (length rest - 2 * k - 2) rest 0)) as [(u & Hu & ->)|[Hu ->]];
    cbn [bind_result]; [|eexists; split; [|split; [exact Hu | reflexivity]]; apply nth_In; lia].
  specialize (IH (S k) (upd (31 - k) (Z.lor (Z.shiftl u 4) l) buf) ltac:(lia)).
  destruct (hex_chunks n (S k) _ _); [|exact IH]. intros i Hi.
  destruct (Nat.eq_dec i (length rest - 2 * k - 1)) as [->|]; [congruence|].
  destruct (Nat.eq_dec i (length rest - 2 * k - 2)) as [->|]; [congruence|]. apply IH. lia.
Qed.

Lemma valid_or_invalid rest : (exists ds, spells rest ds) \/ (exists c, In c rest /\ hex_digit c = None).
Proof.
  induction rest as [|c rest [(ds & IH)|(x & Hin & IH)]]; [left; exists []; constructor| |].
  - destruct (hex_digit c) as [d|] eqn:E; [|right; exists c; split; [now left | exact E]].
    left. exists (d :: ds). now constructor.
  - right. exists x. split; [now right | exact IH].
Qed.

Lemma spells_no_invalid rest ds c : spells rest ds -> In c rest -> hex_digit c <> None.
Proof.
  induction 1 as [|a d cs ds Ha _ IH]; intros []; [congruence | auto].
Qed.

(** A character that is no digit is reported. *)
Lemma from_hex_str_invalid rest c : (length rest <= 64)%nat -> In c rest -> hex_digit c = None ->
  exists c', In c' rest /\ hex_digit c' = None /\
    from_hex_str (48 :: 120 :: rest) = Err (InvalidNibble c').
Proof.
  intros HL Hin Hc. apply In_nth with (d := 0) in Hin as (i & Hi & <-).
  pose proof (Nat.div_mod_eq (length rest) 2) as DM.
  pose proof (Nat.mod_upper_bound (length rest) 2 ltac:(lia)) as Hm.
  unfold from_hex_str. rewrite (proj2 (Nat.ltb_ge 64 (length rest)) HL). cbn [bind_result].
  assert (Body : forall buf, ((length rest mod 2 = 1)%nat -> hex_digit (nth 0 rest 0) <> None) ->
    exists c', In c' rest /\ hex_digit c' = None /\
      (let? buf := hex_chunks (length rest / 2) 0 (48 :: 120 :: rest) buf in
       map_err HexParseError_from (felt_from_be_bytes buf)) = Err (InvalidNibble c')).
  { intros buf H0. pose proof (hex_chunks_cases rest (length rest / 2) 0 buf ltac:(lia)) as C.
    destruct (hex_chunks _ _ _ _) as [b|e]; cbn [bind_result].
    - exfalso. destruct (Nat.lt_ge_cases i (length rest - 2 * (length rest / 2 + 0))).
      + replace i with 0%nat in Hc by lia. apply H0; [lia | exact Hc].
      + apply (C i); [lia | exact Hc].
    - destruct C as (c' & ? & ? & ->). exists c'. auto. }
  destruct (Nat.eqb_spec (length rest mod 2) 1) as [Eo|Ee].
  - cbn [nth]. destruct (parse_cases (nth 0 rest 0)) as [(d & Hd & ->)|[Hd ->]]; cbn [bind_result].
    + apply Body. congruence.
    + eexists. split; [|split; [exact Hd | reflexivity]]. apply nth_In. lia.
  - cbn [bind_result]. apply Body. contradiction.
Qed.

(** *** The accepted strings, exactly *)

Lemma from_hex_str_iff bytes f : from_hex_str bytes = Ok f <->
  exists rest ds, bytes = 48 :: 120 :: rest /\ spells rest ds /\ (length ds <= 64)%nat /\
    felt_ok f /\ be_value f = digits_value 16 ds.
Proof.
  split.
  - intros H. destruct (has_prefix bytes) eqn:Ep; [|rewrite from_hex_str_prefix in H by exact Ep; discriminate].
    assert (exists rest, bytes = 48 :: 120 :: rest) as (rest & ->).
    { unfold has_prefix in Ep.
      repeat (match type of Ep with context [match ?x with _ => _ end] => destruct x end;
              try discriminate Ep). eauto. }
    destruct (Nat.le_gt_cases (length rest) 64) as [HL|HL];
      [|rewrite from_hex_str_length in H by exact HL; discriminate].
    destruct (valid_or_invalid rest) as [(ds & Hs)|(c & Hin & Hc)].
    + pose proof (spells_length _ _ Hs) as EL. exists rest, ds.
      destruct (from_hex_str_digits rest ds Hs ltac:(lia)) as (buf & B & L & V & E).
      rewrite E, felt_from_be_bytes_spec in H by assumption.
      destruct (Z.ltb_spec (be_value buf) field_prime) as [Hlt|]; [|discriminate].
      injection H as <-. rewrite EL in HL. unfold felt_ok. auto 8.
    + destruct (from_hex_str_invalid rest c HL Hin Hc) as (c' & _ & _ & E). congruence.
  - intros (rest & ds & -> & Hs & HL & Hf & V).
    destruct (from_hex_str_ok rest ds Hs HL) as (g & -> & Hg & Vg); [rewrite <- V; apply Hf|].
    f_equal. apply felt_inj; [assumption.. | congruence].
Qed.

(** ** Printing *)

Definition lut (d : Z) : Z := nth (Z.to_nat d) LUT 0.

Definition nibbles_of (bs : list Z) : list Z := flat_map (fun b => [b / 16; b mod 16]) bs.

Lemma lut_digit d : 0 <= d < 16 -> hex_digit (lut d) = Some d.
Proof.
  intros Hd.
  assert (d = 0 \/ d = 1 \/ d = 2 \/ d = 3 \/ d = 4 \/ d = 5 \/ d = 6 \/ d = 7 \/ d = 8 \/
    d = 9 \/ d = 10 \/ d = 11 \/ d = 12 \/ d = 13 \/ d = 14 \/ d = 15) as C by lia.
  repeat destruct C as [->|C]; try (subst d); reflexivity.
Qed.

Lemma nibbles_of_spec bs : bytes_ok bs ->
  digits_ok 16 (nibbles_of bs) /\ length (nibbles_of bs) = (2 * length bs)%nat /\
  digits_value 16 (nibbles_of bs) = be_value bs.
Proof.
  induction 1 as [|b bs Hb _ (IH1 & IH2 & IH3)]; [repeat split; constructor|].
  change (nibbles_of (b :: bs)) with (b / 16 :: b mod 16 :: nibbles_of bs).
  pose proof (Z.mod_pos_bound b 16 ltac:(lia)). pose proof (Z.div_mod b 16 ltac:(lia)).
  split; [|split].
  - constructor; [lia|]. constructor; [lia | exact IH1].
  - cbn [length]. lia.
  - rewrite !digits_value_cons. cbn [length]. rewrite IH2, IH3.
    rewrite Nat2Z.inj_succ, Z.pow_succ_r, pow_16_2 by lia. nia.
Qed.

Lemma high_nibble b : 0 <= b < 256 -> Z.shiftr (Z.land b 240) 4 = b / 16.
Proof.
  intros Hb. rewrite Z.shiftr_land, Z.shiftr_div_pow2 by lia. change (2 ^ 4) with 16.
  change (Z.shiftr 240 4) with (Z.ones 4). rewrite Z.land_ones by lia.
  apply Z.mod_small. change (2 ^ 4) with 16. Z.div_mod_to_equations. lia.
Qed.

Lemma low_nibble b : Z.land b 15 = b mod 16.
Proof. change 15 with (Z.ones 4). now rewrite Z.land_ones by lia. Qed.

Lemma write2_app pos a b buf : (pos + 2 <= length buf)%nat ->
  write2 pos a b buf = firstn pos buf ++ [a; b] ++ skipn (pos + 2) buf.
Proof. reflexivity. Qed.

Lemma write_bytes_spec start it : bytes_ok it -> forall i buf,
  (start + 2 * (i + length it) <= length buf)%nat ->
  write_bytes it start i buf
  = firstn (start + 2 * i) buf ++ map lut (nibbles_of it) ++ skipn (start + 2 * (i + length it)) buf.
Proof.
  induction 1 as [|b it Hb _ IH]; intros i buf HL; cbn [write_bytes length] in *.
  - cbn [nibbles_of flat_map map app]. rewrite Nat.add_0_r. symmetry. apply firstn_skipn.
  - change (nibbles_of (b :: it)) with (b / 16 :: b mod 16 :: nibbles_of it).
    rewrite high_nibble, low_nibble by exact Hb. fold (lut (b / 16)). fold (lut (b mod 16)).
    remember (start + i * 2)%nat as p eqn:Ep.
    assert (Lw : length (write2 p (lut (b / 16)) (lut (b mod 16)) buf) = length buf).
    { unfold write2. rewrite length_app, length_firstn. cbn [length]. rewrite length_skipn. lia. }
    rewrite IH by (rewrite Lw; lia). cbn [map]. unfold write2.
    replace (start + 2 * S i)%nat with (p + 2)%nat by lia.
    replace (start + 2 * i)%nat with p by lia.
    assert (Lp : length (firstn p buf) = p) by (rewrite length_firstn; lia).
    rewrite firstn_app, skipn_app, Lp, (firstn_all2 (n := (p + 2)%nat)), (skipn_all2 (firstn p buf)) by lia.
    replace (p + 2 - p)%nat with 2%nat by lia. cbn [firstn app]. rewrite <- app_assoc. cbn [app].
    do 3 f_equal. f_equal.
    replace (start + 2 * (S i + length it) - p)%nat with (S (S (2 * length it))) by lia.
    cbn [skipn]. rewrite skipn_skipn. f_equal. lia.
Qed.

(** The digits printed for an element, without leading zeros. *)
Lemma print_spec b bs len buf : 0 < b < 256 -> bytes_ok bs ->
  let start := if b <? 16 then 1%nat else 2%nat in
  len = (start + length (b :: bs) * 2)%nat -> (len <= length buf)%nat ->
  exists ds, it_to_hex_str (b :: bs) start len buf = 48 :: 120 :: map lut ds /\
    digits_ok 16 ds /\ length ds = (len - 2)%nat /\ digits_value 16 ds = be_value (b :: bs) /\
    nth 0 ds 0 <> 0.
Proof.
  intros Hb Hbs start El Hl. assert (Hbb : bytes_ok (b :: bs)) by (constructor; [lia | exact Hbs]).
  destruct (nibbles_of_spec _ Hbb) as (N1 & N2 & N3).
  destruct buf as [|x0 [|x1 buf]]; [subst start; case_if; cbn in *; lia ..|].
  unfold it_to_hex_str. cbv zeta.
  change (upd 0 48 (x0 :: x1 :: buf)) with (48 :: x1 :: buf).
  rewrite write_bytes_spec; [|exact Hbb | subst len; cbn [length] in *; lia].
  change (nibbles_of (b :: bs)) with (b / 16 :: b mod 16 :: nibbles_of bs) in *.
  cbn [length Nat.add] in *. set (tl := skipn _ _).
  assert (LN : length (nibbles_of bs) = (2 * length bs)%nat) by lia.
  assert (Fin : forall h, firstn (length h) (h ++ tl) = h)
    by (intros h; rewrite firstn_app, firstn_all, Nat.sub_diag; apply app_nil_r).
  subst start. destruct (Z.ltb_spec b 16) as [Hlt|Hge]; cbn [Nat.add Nat.mul firstn app map].
  - exists (b :: nibbles_of bs).
    assert (E0 : b / 16 = 0) by (apply Z.div_small; lia).
    assert (E1 : b mod 16 = b) by (apply Z.mod_small; lia). rewrite E0, E1 in *.
    rewrite digits_value_cons, Z.mul_0_l, Z.add_0_l in N3. inversion N1.
    split; [|repeat split; cbn [length nth]; try assumption; lia].
    change (upd 1 120 (48 :: lut 0 :: lut b :: map lut (nibbles_of bs) ++ tl))
      with ((48 :: 120 :: map lut (b :: nibbles_of bs)) ++ tl).
    replace len with (length (48 :: 120 :: map lut (b :: nibbles_of bs)));
      [apply Fin | cbn [length map]; rewrite length_map; lia].
  - exists (b / 16 :: b mod 16 :: nibbles_of bs).
    assert (b / 16 <> 0) by (Z.div_mod_to_equations; lia).
    split; [|repeat split; cbn [length nth]; try assumption; lia].
    change (upd 1 120 (48 :: x1 :: lut (b / 16) :: lut (b mod 16) :: map lut (nibbles_of bs) ++ tl))
      with ((48 :: 120 :: map lut (b / 16 :: b mod 16 :: nibbles_of bs)) ++ tl).
    replace len with (length (48 :: 120 :: map lut (b / 16 :: b mod 16 :: nibbles_of bs)));
      [apply Fin | cbn [length map]; rewrite length_map; lia].
Qed.

Lemma any_nonzero f : bytes_ok f ->
  existsb (fun b => negb (b =? 0)) f = true <-> be_value f <> 0.
Proof.
  induction 1 as [|b f Hb Hf IH]; [cbn; split; [discriminate | lia]|].
  cbn [existsb]. rewrite digits_value_cons. pose proof (digits_value_bound 256 f ltac:(lia) Hf).
  pose proof (Z.pow_pos_nonneg 256 (Z.of_nat (length f)) ltac:(lia) ltac:(lia)).
  destruct (Z.eqb_spec b 0) as [->|N]; cbn [negb orb].
  - now rewrite Z.mul_0_l, Z.add_0_l.
  - split; [nia | reflexivity].
Qed.

(** The first nonzero byte and what follows it, for an element that is not zero. *)
Lemma skip_zeros_spec f : bytes_ok f -> length f = 32%nat -> be_value f <> 0 ->
  exists b bs, let start := if b <? 16 then 1%nat else 2%nat in
    skip_zeros f = (b :: bs, start, (start + length (b :: bs) * 2)%nat) /\
    0 < b < 256 /\ bytes_ok bs /\ (length (b :: bs) <= 32)%nat /\ be_value (b :: bs) = be_value f.
Proof.
  intros Hf L Hnz. destruct (take_while_zero_split f) as (E & Z0 & Hd).
  unfold skip_zeros. cbv zeta. set (k := length (take_while_zero f)) in *.
  rewrite Z0 in E. destruct (skip_while_zero f) as [|b bs].
  { exfalso. apply Hnz. now rewrite E, digits_value_zeros. }
  exists b, bs. rewrite E in Hf. apply digits_ok_app in Hf as [_ Hs].
  inversion_clear Hs as [|? ? B Bs].
  assert (Lk : (k + length (b :: bs) = 32)%nat).
  { rewrite <- L, E, length_app, repeat_length. reflexivity. }
  replace (length f - length (b :: bs))%nat with k by lia.
  assert (Nb : nth k f 0 = b).
  { rewrite E, app_nth2 by (rewrite repeat_length; lia). now rewrite repeat_length, Nat.sub_diag. }
  rewrite Nb. split; [reflexivity|]. split; [lia|]. split; [exact Bs|]. split; [lia|].
  now rewrite E, digits_value_zeros.
Qed.

(** What is printed: "0x" and the digits of the value, the first one nonzero
    unless the element is zero. *)
Definition printed (f : Felt) (s : list Z) : Prop :=
  exists ds, s = 48 :: 120 :: map lut ds /\ digits_ok 16 ds /\ (1 <= length ds <= 64)%nat /\
    digits_value 16 ds = be_value f /\ (nth 0 ds 0 <> 0 \/ be_value f = 0 /\ ds = [0]).

Lemma printed_zero f : be_value f = 0 -> printed f [48; 120; 48].
Proof.
  intros E. exists [0]. rewrite E. repeat split; [repeat constructor; lia | cbn; lia .. | auto].
Qed.

Lemma printed_buffer f : felt_ok f -> be_value f <> 0 ->
  forall buf, (66 <= length buf)%nat \/ buf = repeat 0 (snd (skip_zeros f)) ->
  printed f (let '(it, start, len) := skip_zeros f in it_to_hex_str it start len buf).
Proof.
  intros (Hf & L & _) Hnz buf Hb. destruct (skip_zeros_spec f Hf L Hnz) as (b & bs & E & B & Bs & Lb & V).
  rewrite E in *. cbn [snd] in Hb.
  destruct (print_spec b bs _ buf B Bs eq_refl) as (ds & -> & D & Ld & Vd & Nd).
  { destruct Hb as [H| ->]; [|rewrite repeat_length; lia]. destruct (b <? 16); cbn [length] in *; lia. }
  exists ds. rewrite Vd, V. split; [reflexivity|]. split; [exact D|]. split; [|auto].
  rewrite Ld. destruct (b <? 16); cbn [length] in *; lia.
Qed.

Lemma to_hex_str_printed f : felt_ok f -> printed f (to_hex_str f).
Proof.
  intros Hf. unfold to_hex_str. destruct (existsb _ f) eqn:E; cbn [negb].
  - apply any_nonzero in E; [|apply Hf]. pose proof (printed_buffer f Hf E) as H.
    destruct (skip_zeros f) as [[it start] len]. apply H. now right.
  - apply printed_zero. destruct (Z.eq_dec (be_value f) 0) as [|N]; [assumption|].
    apply any_nonzero in N; [congruence | apply Hf].
Qed.

Lemma as_hex_str_printed f buf : felt_ok f -> (66 <= length buf)%nat ->
  exists s, as_hex_str f buf = Ret s /\ printed f s.
Proof.
  intros Hf Hb. unfold as_hex_str. destruct Hf as (Hf & L & Hlt). rewrite L.
  rewrite (proj2 (Nat.ltb_ge (length buf) (32 * 2 + 2))) by lia.
  destruct (existsb _ f) eqn:E; cbn [negb].
  - apply any_nonzero in E; [|exact Hf].
    pose proof (printed_buffer f (conj Hf (conj L Hlt)) E buf (or_introl Hb)) as H.
    destruct (skip_zeros f) as [[it start] len]. eauto.
  - exists [48; 120; 48]. split; [reflexivity|]. apply printed_zero.
    destruct (Z.eq_dec (be_value f) 0) as [|N]; [assumption|].
    apply any_nonzero in N; [congruence | exact Hf].
Qed.

Lemma printed_parses f s : felt_ok f -> printed f s -> from_hex_str s = Ok f.
Proof.
  intros Hf (ds & -> & D & L & V & _). apply from_hex_str_iff. exists (map lut ds), ds.
  split; [reflexivity|]. split; [apply spells_chars; [exact lut_digit | exact D]|].
  split; [lia | auto].
Qed.

(** Equal elements print equally: the printed form is determined by the value. *)
Lemma printed_unique f s s' : printed f s -> printed f s' -> s = s'.
Proof.
  intros (ds & -> & D & L & V & N) (ds' & -> & D' & L' & V' & N'). do 2 f_equal. f_equal.
  apply (digits_value_inj 16); [lia | assumption.. | | congruence].
  assert (Len : forall e, digits_ok 16 e -> (1 <= length e)%nat -> nth 0 e 0 <> 0 ->
    16 ^ Z.of_nat (length e - 1) <= digits_value 16 e < 16 ^ Z.of_nat (length e)).
  { intros [|d e] He Hl Hn; [cbn in Hl; lia|]. split; [|apply digits_value_bound; [lia | exact He]].
    inversion_clear He as [|? ? Hd He']. rewrite digits_value_cons. cbn [length nth] in *.
    replace (S (length e) - 1)%nat with (length e) by lia.
    pose proof (digits_value_bound 16 e ltac:(lia) He'). nia. }
  destruct N as [N|[Z0 ->]], N' as [N'|[Z0' ->]]; [| | |reflexivity].
  - pose proof (Len ds D ltac:(lia) N) as B. pose proof (Len ds' D' ltac:(lia) N') as B'.
    rewrite V in B. rewrite V' in B'.
    assert (Z.of_nat (length ds - 1) < Z.of_nat (length ds')) by (apply (Z.pow_lt_mono_r_iff 16); lia).
    assert (Z.of_nat (length ds' - 1) < Z.of_nat (length ds)) by (apply (Z.pow_lt_mono_r_iff 16); lia).
    lia.
  - pose proof (Len ds D ltac:(lia) N). lia.
  - pose proof (Len ds' D' ltac:(lia) N'). lia.
Qed.

(** A printed numeral is the shortest one that parses to its value. *)
Lemma printed_shortest f s s' : printed f s -> from_hex_str s' = Ok f -> (2 < length s')%nat ->
  (length s <= length s')%nat.
Proof.
  intros (es & -> & De & Le & Ve & Ne) E Ls. apply from_hex_str_iff in E as (rest & ds & -> & Sp & _ & _ & Vd).
  cbn [length] in *. rewrite length_map. pose proof (Forall2_length Sp) as Lr. rewrite Lr in *.
  destruct es as [|e es]; [cbn [length] in Le; lia|]. cbn [length nth] in *.
  destruct Ne as [Ne|[_ Ne]]; [|injection Ne as -> ->; cbn [length]; lia].
  pose proof (digits_value_bound 16 ds ltac:(lia) (spells_digits _ _ Sp)) as B.
  inversion_clear De as [|? ? He Hes]. rewrite digits_value_cons in Ve.
  pose proof (digits_value_bound 16 es ltac:(lia) Hes) as Be.
  apply le_n_S, le_n_S, Nat2Z.inj_lt, (Z.pow_lt_mono_r_iff 16); nia.
Qed.
