(* ===== verification/Poseidon.v ===== *)
(** The Poseidon permutation and sponge (hash/poseidon/{consts, permutation,
    hash}.rs) over the Montgomery field. *)

From Stdlib Require Import ZArith Lia Bool List Zmod Ring.
From S2P Require Import Prelude Words Montgomery MontgomeryFacts FieldAlgos MontBytes NumberTheory Fields.
Import ListNotations.
Local Open Scope Z_scope.

(** ** The round constants *)

Definition POSEIDON_COMP_CONSTS : list limbs := [
  Limbs 9243643933561577962 18087611126302680282 7098098609281275249 289757450055368158;
  Limbs 7853535095351734343 10850711010770646915 12570458558381957509 325478872510666341;
  Limbs 14487852855283887204 5186719240138179095 8414109922749085282 400708606768273790;
  Limbs 3280395077118373336 17795901222489795490 2641423859640672268 77297546474262716;
  Limbs 8106789448329946608 5622576456418619364 917099606739132255 531983052745549445;
  Limbs 595196979161159364 13104152156623721627 11543764507410437138 296030771607252997;
  Limbs 7816701695378368721 3357934764826603292 15403608342128707689 450788015873872442;
  Limbs 636799349004279181 6138586124645004146 9427309254075631876 241320328808721095;
  Limbs 17291774529514094747 5039440405858006990 9298428421172181112 506951390701988816;
  Limbs 11806696651894481589 1092083221520939347 14414850501582138681 221101813663738384;
  Limbs 13829429898061010046 2611422711440939737 15408727842397286736 507284792967663799;
  Limbs 13083162048600272883 8232965923506882345 10342036084285918913 4246917344608281;
  Limbs 14120941658239655251 2642188447246846335 6420128711794491484 387738584202674747;
  Limbs 4557515129132896247 12925333772434149495 8021291067466006291 359812401200365725;
  Limbs 1890170602709420465 10101417316275735447 14228475625622468342 213055788422889429;
  Limbs 17718807227125703766 3165015027285286767 17001522267729424593 193938768174500364;
  Limbs 11967566541251349 8042878571206807946 12035959970295095627 392852226019534694;
  Limbs 14702858513363496537 1891459712461864795 11108523323717023107 156261542945214132;
  Limbs 1945929902309569324 12703913861703223537 18026399617460967320 552659386849285670;
  Limbs 15676691957102339301 7305794071419508305 15605369973884503830 279124040567655554;
  Limbs 6878414542634060631 6806916028752188971 6743346892345011852 209421398668690776;
  Limbs 14451878242532315248 280667558436689575 7481193996043836595 102898977772584225;
  Limbs 10099174071678455934 10050300413654558496 15460796480957384300 326260635675691414;
  Limbs 12189485177509053284 18189503908521730582 2742965211333049654 246759231813836949;
  Limbs 17131884891365868725 4126475231607707865 4142744258917121527 517354668301661021;
  Limbs 9321360184240157338 8642907823639066926 4815888288973513717 387266619660887473;
  Limbs 9877712865958333042 172887203519774060 14912001171503456000 379922462175671594;
  Limbs 5253862319821606646 3112421893979476452 12476994431456066104 503867426189678810;
  Limbs 6459833828500045091 8544893956421165385 4198699220078046017 361247795501724706;
  Limbs 15367072576308287971 11136955306523718350 1150777808545574589 569094971639990703;
  Limbs 938972551523044539 14766818754575560648 14214531273441880096 519370339044767210;
  Limbs 8541051058482254568 15415072429245325504 14957220415534017748 76536527755312734;
  Limbs 2465712523883598144 6511341599113654315 6309081263114838229 393450888402641516;
  Limbs 940821186092154852 8192839842351846874 5396406749139750234 288112524550260818;
  Limbs 18013945796863515455 14414340112335121757 8020715533944075007 378547930620493071;
  Limbs 10882040312752948163 13534318422278561025 16239338703176780807 315921785019971079;
  Limbs 11804152077864610443 10711845104699761001 2579945555704418307 407428959149964045;
  Limbs 3599124979175311464 12397382694363857548 2441162789755772647 519829512759629210;
  Limbs 1122008851702936351 2255313605192201584 9526529507379911735 297026039684882166;
  Limbs 1993625032903604531 596810388162793045 15598201710380655007 131529263108506346;
  Limbs 4674850965951748614 4226133210265092969 16131311957670865406 224060573845038011;
  Limbs 11214981260617649902 2473985365883836987 5936657039588618128 75239021508281120;
  Limbs 1656325451144825481 9292758618068460829 10708624397900073633 194216947938400317;
  Limbs 8903410050073285790 8661236053987118957 1615364812064241551 67542072505613059;
  Limbs 15404542557975125459 2998788108140034653 2552297003970802502 469030315210549517;
  Limbs 12823358311737123095 7648424977752018148 6761349120637124061 453636870534881918;
  Limbs 9487732293618798109 10740489098835571894 11738903622058165831 161717009046994634;
  Limbs 13651502097878895227 10047101549636218127 10044469647704241764 277982644699321060;
  Limbs 8555164891384310121 8824267949549756926 7305199522290707083 263260756366809017;
  Limbs 8140624856704023682 8045915014876264352 17217076042215213576 72504083815642834;
  Limbs 2393283877389675021 184042354645416614 5319475030094698416 521277606880990981;
  Limbs 434646374717545122 16968292764294941446 397903500864519791 189962858545866132;
  Limbs 15192322066947113426 7230072155523803250 1912611278135465035 484438043712101051;
  Limbs 3404050675041230416 5349474969561382272 10312121908398277288 131659008494808833;
  Limbs 16161573332686472539 11482954176039056988 10321079257176384834 285431294163195780;
  Limbs 7769460563456887047 15933903404722266197 4417375624575928495 509185859951343125;
  Limbs 4757536062552078975 14345591597495868207 5136403899854077412 155548508933381698;
  Limbs 16954136253536679036 15495192077804287724 3602538967473509698 424756635805120473;
  Limbs 782587731399981975 8752948468066486506 11249513498993831494 297791197798108890;
  Limbs 8920685932186110294 607857242333979734 9067276084563478270 257755501610648687;
  Limbs 12797826492922709079 598864940726990753 10808632893013728360 255507877414539372;
  Limbs 18357585898410668675 14427109677195052515 11616133167538022764 337499443474645791;
  Limbs 11006876850199954451 4471887087529055003 13709407269306624594 461544350634460860;
  Limbs 3935449925401609487 7247938434158659126 16055252784997531913 241572537953357206;
  Limbs 12185916472608269828 8599903496731799844 7473372200107268523 20826784995699326;
  Limbs 9114145677234606895 11335924134290767337 12339440635155145939 325284558926946894;
  Limbs 7913511813685739207 13510010034121256720 5786681712809070321 524297675686992468;
  Limbs 11489572640693348549 653791830907185044 1343259707956093156 91862724283776664;
  Limbs 8475224572437702585 6117048525531009669 2612824879774856987 152655841869983584;
  Limbs 10275284836695919781 1229936912426117714 852953717024661566 494626294612738458;
  Limbs 458652097155681902 14888651917691804798 16255075206832288784 24654605265517243;
  Limbs 12078376201244291123 15650814510286239758 7824274777759107853 548147943423761875;
  Limbs 7150607360351293312 15869512646666935948 17547962929740675348 544265221469581427;
  Limbs 8825399362075630882 8320101570235006675 831216380162620582 110482907032568200;
  Limbs 16250629230069546482 2730194971623754710 2257455797750592448 492309260778657687;
  Limbs 14147969271427023624 828879174920615316 774481952233097841 358764916624727771;
  Limbs 2327560102298050020 16326474056896465620 11569722182073805281 505092152210714943;
  Limbs 9785912164301152354 8106490610561126785 1630249814069958098 58834859029597485;
  Limbs 3289890810144882514 3215734868963276321 8055317084564590682 119086600262724981;
  Limbs 5483225686717068229 16371685975512595166 15450955014197186841 247943736268488503;
  Limbs 4381919769144899813 13933618086851303637 5230009595729784912 20792489568442719;
  Limbs 8789178883266410059 16721801817937206035 13400733992682978294 442589726189451790;
  Limbs 14046586735054130921 292037712493469239 5356712645210626551 293939309306751922;
  Limbs 380205073025197349 5755966045834097308 5866406040614980707 348659944710609305;
  Limbs 9134565645309956025 5970118022284662551 7792904134063363468 113718338186485349;
  Limbs 2923116954730895285 4758998626841090083 11310098556304705439 48545222501354940;
  Limbs 10356409984278808132 8626434746901408014 14741910479101271233 288126037191662696;
  Limbs 15089483185994803607 15995340104776500525 8804335419305831150 396859084962881839;
  Limbs 1806552960857676317 5044268144265983057 10937421026512331976 388825756002312816;
  Limbs 195394918711621979 11495023801469827766 10387650783476140513 36031442409401774;
  Limbs 6252690410849898787 15336030451772296178 9931420975657904643 342401574327501171;
  Limbs 8845585704258239691 6335878880627979647 11428826230512157512 125599780553714479;
  Limbs 15678553522198702946 5956556265401411549 15531514790645111620 321829728761679778;
  Limbs 12747317311074323278 18276738862377911125 16869705933132331722 429960475805585734;
  Limbs 8818520944555213172 12659942709060110110 3152386375917271891 538072118411786464;
  Limbs 7051814885573177194 6963721086450009179 17624329337577352587 478549527730244073;
  Limbs 12782217873770289538 15295458184819533181 4074200589034403638 173095944718984339;
  Limbs 1759489451407771803 2198678818123145500 8614653954149136745 522963184775328415;
  Limbs 15754679985287562033 17144367048005459911 8637536145542499282 178770311623751184;
  Limbs 298970159691700591 12014891315505021636 5642896886612387367 320523276021081874;
  Limbs 2161827243834369197 6529000939326479156 3360240309062894342 423278556197684001;
  Limbs 17922407737483631270 10846304006776507478 4814020835957029095 558105788237772190;
  Limbs 14309821559636775821 5191281667707819629 7991629750293746597 55044774064780458;
  Limbs 4475858853850722769 4126326734531744171 14548036495158561611 569399000276545969;
  Limbs 17137171742635080032 13734979251366108230 733658667004231380 393850665517739074;
  Limbs 18207273213375707676 9125832381882861274 13182372482997690796 374441752858986998;
  Limbs 11725146126629035967 2224508228469132237 1606247714594998930 162358740541808928
].

(** ** The permutation *)

Record PoseidonState := MkState { st0 : limbs; st1 : limbs; st2 : limbs }.

Definition FULL_ROUNDS : nat := 8.
Definition PARTIAL_ROUNDS : nat := 83.

(** [POSEIDON_COMP_CONSTS[idx]] *)
Definition comp_const (idx : nat) : limbs := nth idx POSEIDON_COMP_CONSTS ZERO.

(** [for m in msgs.chunks_exact(2)], with the remainder. *)
Fixpoint fold_chunks2 {S M} (f : S -> M -> M -> S) (s : S) (msgs : list M) : S * list M :=
  match msgs with
  | m0 :: m1 :: msgs => fold_chunks2 f (f s m0 m1) msgs
  | r => (s, r)
  end.

Section Permutation.
Context {F : MontField}.

Definition mix (state : PoseidonState) : PoseidonState :=
  let t := add (add (st0 state) (st1 state)) (st2 state) in
  MkState
    (add t (double (st0 state)))
    (sub t (double (st1 state)))
    (sub t (add (double (st2 state)) (st2 state))).

Definition full_round (state : PoseidonState) (idx : nat) : PoseidonState :=
  let s0 := add (st0 state) (comp_const idx) in
  let s1 := add (st1 state) (comp_const (idx + 1)) in
  let s2 := add (st2 state) (comp_const (idx + 2)) in
  mix (MkState (mul (square s0) s0) (mul (square s1) s1) (mul (square s2) s2)).

Definition partial_round (state : PoseidonState) (idx : nat) : PoseidonState :=
  let s2 := add (st2 state) (comp_const idx) in
  mix (MkState (st0 state) (st1 state) (mul (square s2) s2)).

(** [for _ in 0..n { round(state, idx); idx += step; }] *)
Fixpoint rounds (round : PoseidonState -> nat -> PoseidonState) (step n : nat)
    (state : PoseidonState) (idx : nat) : PoseidonState * nat :=
  match n with
  | O => (state, idx)
  | S n => rounds round step n (round state idx) (idx + step)
  end.

Definition permute (state : PoseidonState) : PoseidonState :=
  let '(state, idx) := rounds full_round 3 (FULL_ROUNDS / 2) state 0 in
  let '(state, idx) := rounds partial_round 1 PARTIAL_ROUNDS state idx in
  let '(state, _) := rounds full_round 3 (FULL_ROUNDS / 2) state idx in
  state.

(** ** Hashing *)

Definition zero_state : PoseidonState := MkState ZERO ZERO ZERO.

Definition poseidon_hash (x y : limbs) : limbs := st0 (permute (MkState x y TWO)).

(** One pair of messages absorbed. *)
Definition absorb (state : PoseidonState) (m0 m1 : limbs) : PoseidonState :=
  permute (MkState (add (st0 state) m0) (add (st1 state) m1) (st2 state)).

(** [state[i] += x] *)
Definition add_at (i : nat) (x : limbs) (state : PoseidonState) : PoseidonState :=
  match i with
  | 0%nat => MkState (add (st0 state) x) (st1 state) (st2 state)
  | 1%nat => MkState (st0 state) (add (st1 state) x) (st2 state)
  | _ => MkState (st0 state) (st1 state) (add (st2 state) x)
  end.

Definition poseidon_hash_many (msgs : list limbs) : limbs :=
  let '(state, r) := fold_chunks2 absorb zero_state msgs in
  let state := match r with [r0] => add_at 0 r0 state | _ => state end in
  st0 (permute (add_at (length r) ONE state)).

(** ** The streaming hasher *)

Record PoseidonHasher := MkHasher { h_state : PoseidonState; h_buffer : option limbs }.

Definition hasher_new : PoseidonHasher := MkHasher zero_state None.

Definition hasher_write (self : PoseidonHasher) (msg : limbs) : PoseidonHasher :=
  match h_buffer self with
  | Some previous_message => MkHasher (absorb (h_state self) previous_message msg) None
  | None => MkHasher (h_state self) (Some msg)
  end.

Definition hasher_chain (self : PoseidonHasher) (msg : limbs) : PoseidonHasher :=
  hasher_write self msg.

Definition hasher_finish (self : PoseidonHasher) : limbs :=
  let state :=
    match h_buffer self with
    | Some last_message => add_at 1 ONE (add_at 0 last_message (h_state self))
    | None => add_at 0 ONE (h_state self)
    end in
  st0 (permute state).
End Permutation.

(** * Correctness of Poseidon: the Montgomery code refines a permutation of
    [F_p^3] written with its MDS matrix, that map is a bijection, and the
    streaming hasher computes [poseidon_hash_many]. *)

(** ** Absorbing messages one at a time or in pairs *)

Section Chunks.
Context {S M H : Type} (f : S -> M -> M -> S) (mk : S -> option M -> H) (write : H -> M -> H).
Hypothesis write_none : forall s m, write (mk s None) m = mk s (Some m).
Hypothesis write_some : forall s p m, write (mk s (Some p)) m = mk (f s p m) None.

Lemma write_all msgs s : fold_left write msgs (mk s None) =
  let '(s', r) := fold_chunks2 f s msgs in mk s' (match r with [m] => Some m | _ => None end).
Proof.
  remember (length msgs) as n eqn:E. assert (HL : (length msgs <= n)%nat) by lia. clear E.
  revert msgs s HL. induction n as [|n IH]; intros [|m0 [|m1 msgs]] s HL; cbn [length] in HL;
    try lia; cbn [fold_left fold_chunks2]; rewrite ?write_none, ?write_some; try reflexivity.
  apply IH. lia.
Qed.

Lemma chunks_rest n : forall msgs s, (length msgs <= n)%nat ->
  (length (snd (fold_chunks2 f s msgs)) <= 1)%nat.
Proof.
  induction n as [|n IH]; intros [|m0 [|m1 msgs]] s HL; cbn [length fold_chunks2 snd] in *; try lia.
  apply IH. lia.
Qed.
End Chunks.

Section Facts.
Context {F : MontField} {FOk : MontFieldOk F} {FPrime : MontFieldPrime F}.

#[local] Abbreviation Fp := (Zmod modulus).
Add Ring Fp_ring : (Zmod.ring_theory modulus).

(** ** The specification over the field *)

Definition cube (a : Fp) : Fp := (a * a * a)%Zmod.

(** Multiplication by the matrix ((3,1,1), (1,-1,1), (1,1,-2)). *)
Definition mds (s : Fp * Fp * Fp) : Fp * Fp * Fp :=
  let '(a, b, c) := s in
  ((cls 3 * a + b + c)%Zmod, (a - b + c)%Zmod, (a + b - cls 2 * c)%Zmod).

Definition full_step (k0 k1 k2 : Fp) (s : Fp * Fp * Fp) : Fp * Fp * Fp :=
  let '(a, b, c) := s in
  mds (cube (a + k0)%Zmod, cube (b + k1)%Zmod, cube (c + k2)%Zmod).

Definition partial_step (k : Fp) (s : Fp * Fp * Fp) : Fp * Fp * Fp :=
  let '(a, b, c) := s in mds (a, b, cube (c + k)%Zmod).

(** Four full rounds, 83 partial rounds, four full rounds, consuming the
    constants [k 0], ..., [k 106] in order. *)
Definition poseidon_spec (k : nat -> Fp) (s : Fp * Fp * Fp) : Fp * Fp * Fp :=
  let full base s i := full_step (k (base + 3 * i)%nat) (k (base + 3 * i + 1)%nat)
                                 (k (base + 3 * i + 2)%nat) s in
  let s := fold_left (full 0%nat) (seq 0 4) s in
  let s := fold_left (fun s i => partial_step (k (12 + i)%nat) s) (seq 0 83) s in
  fold_left (full 95%nat) (seq 0 4) s.

(** ** Refinement *)

Definition state_ok (s : PoseidonState) : Prop :=
  canonical (st0 s) /\ canonical (st1 s) /\ canonical (st2 s).

Definition state_val (s : PoseidonState) : Fp * Fp * Fp := (val (st0 s), val (st1 s), val (st2 s)).

Lemma state_val_inj s s' : state_ok s -> state_ok s' -> state_val s = state_val s' -> s = s'.
Proof.
  destruct s as [a b c], s' as [a' b' c']. intros (Ha & Hb & Hc) (Ha' & Hb' & Hc').
  unfold state_val. cbn [st0 st1 st2] in *. intros E.
  apply pair_equal_spec in E as [E E2]. apply pair_equal_spec in E as [E0 E1].
  now rewrite (val_inj a a'), (val_inj b b'), (val_inj c c') by assumption.
Qed.

Lemma cube_val x : canonical x ->
  canonical (mul (square x) x) /\ val (mul (square x) x) = cube (val x).
Proof.
  intros Hx. destruct (square_val x Hx) as [Hs Vs]. destruct (mul_val _ x Hs Hx) as [Hm Vm].
  split; [exact Hm|]. rewrite Vm, Vs. reflexivity.
Qed.

Lemma cls_2 : (cls 2 : Fp) = (1 + 1)%Zmod.
Proof. rewrite <- Zmod.of_Z_1. now rewrite <- Zmod.of_Z_add. Qed.

Lemma cls_3 : (cls 3 : Fp) = (1 + 1 + 1)%Zmod.
Proof. rewrite <- Zmod.of_Z_1. now rewrite <- !Zmod.of_Z_add. Qed.

Lemma mix_val s : state_ok s -> state_ok (mix s) /\ state_val (mix s) = mds (state_val s).
Proof.
  destruct s as [a b c]. intros (Ha & Hb & Hc). cbn [st0 st1 st2] in *.
  destruct (add_val a b Ha Hb) as [H1 V1]. destruct (add_val _ c H1 Hc) as [Ht Vt].
  destruct (double_val a Ha) as [Ha2 Va2]. destruct (double_val b Hb) as [Hb2 Vb2].
  destruct (double_val c Hc) as [Hc2 Vc2]. destruct (add_val _ c Hc2 Hc) as [Hc3 Vc3].
  destruct (add_val _ _ Ht Ha2) as [R0 W0]. destruct (sub_val _ _ Ht Hb2) as [R1 W1].
  destruct (sub_val _ _ Ht Hc3) as [R2 W2].
  unfold mix, state_ok, state_val, mds. cbv zeta. cbn [st0 st1 st2].
  split; [auto|]. rewrite W0, W1, W2, Vt, V1, Va2, Vb2, Vc3, Vc2, cls_2, cls_3.
  f_equal; [f_equal|]; ring.
Qed.

Section Constants.
Hypothesis consts_ok : forall i, canonical (comp_const i).

Lemma full_round_val s i : state_ok s ->
  state_ok (full_round s i) /\
  state_val (full_round s i)
  = full_step (val (comp_const i)) (val (comp_const (i + 1))) (val (comp_const (i + 2))) (state_val s).
Proof.
  destruct s as [a b c]. intros (Ha & Hb & Hc). cbn [st0 st1 st2] in *.
  destruct (add_val a _ Ha (consts_ok i)) as [Ka Va].
  destruct (add_val b _ Hb (consts_ok (i + 1))) as [Kb Vb].
  destruct (add_val c _ Hc (consts_ok (i + 2))) as [Kc Vc].
  destruct (cube_val _ Ka) as [Ca Wa], (cube_val _ Kb) as [Cb Wb], (cube_val _ Kc) as [Cc Wc].
  unfold full_round. cbv zeta. cbn [st0 st1 st2].
  destruct (mix_val _ (conj Ca (conj Cb Cc) : state_ok (MkState _ _ _))) as [Hm ->].
  split; [exact Hm|]. unfold full_step, state_val. cbn [st0 st1 st2].
  now rewrite Wa, Wb, Wc, Va, Vb, Vc.
Qed.

Lemma partial_round_val s i : state_ok s ->
  state_ok (partial_round s i) /\
  state_val (partial_round s i) = partial_step (val (comp_const i)) (state_val s).
Proof.
  destruct s as [a b c]. intros (Ha & Hb & Hc). cbn [st0 st1 st2] in *.
  destruct (add_val c _ Hc (consts_ok i)) as [Kc Vc]. destruct (cube_val _ Kc) as [Cc Wc].
  unfold partial_round. cbv zeta. cbn [st0 st1 st2].
  destruct (mix_val _ (conj Ha (conj Hb Cc) : state_ok (MkState _ _ _))) as [Hm ->].
  split; [exact Hm|]. unfold partial_step, state_val. cbn [st0 st1 st2]. now rewrite Wc, Vc.
Qed.

(** A loop of rounds is a fold over the round numbers. *)
Lemma rounds_val round step (f : nat -> Fp * Fp * Fp -> Fp * Fp * Fp) :
  (forall s i, state_ok s -> state_ok (round s i) /\ state_val (round s i) = f i (state_val s)) ->
  forall n j base idx s, state_ok s -> idx = (base + step * j)%nat ->
  exists s' idx', rounds round step n s idx = (s', idx') /\
    state_ok s' /\ idx' = (base + step * (j + n))%nat /\
    state_val s' = fold_left (fun v i => f (base + step * i)%nat v) (seq j n) (state_val s).
Proof.
  intros Hf n. induction n as [|n IH]; intros j base idx s Hs ->; cbn [rounds].
  - exists s, (base + step * j)%nat. rewrite Nat.add_0_r. auto.
  - destruct (Hf s (base + step * j)%nat Hs) as [Hs' Vs'].
    destruct (IH (S j) base (base + step * j + step)%nat _ Hs') as (s' & i' & E & H1 & H2 & H3);
      [lia|]. exists s', i'. split; [exact E|]. split; [exact H1|]. split; [lia|].
    cbn [seq fold_left]. now rewrite H3, Vs'.
Qed.

#[local] Strategy 1000 [rounds].

Lemma permute_of s s1 i1 s2 i2 s3 i3 :
  rounds full_round 3 (FULL_ROUNDS / 2) s 0 = (s1, i1) ->
  rounds partial_round 1 PARTIAL_ROUNDS s1 i1 = (s2, i2) ->
  rounds full_round 3 (FULL_ROUNDS / 2) s2 i2 = (s3, i3) -> permute s = s3.
Proof. intros E1 E2 E3. unfold permute. now rewrite E1, E2, E3. Qed.

Lemma permute_val s : state_ok s ->
  state_ok (permute s) /\
  state_val (permute s) = poseidon_spec (fun i => val (comp_const i)) (state_val s).
Proof.
  intros Hs.
  set (ff := fun i => full_step (val (comp_const i)) (val (comp_const (i + 1))) (val (comp_const (i + 2)))).
  set (fp := fun i => partial_step (val (comp_const i))).
  destruct (rounds_val full_round 3 ff full_round_val (FULL_ROUNDS / 2) 0 0 0 s Hs eq_refl)
    as (s1 & i1 & R1 & H1 & E1 & V1).
  destruct (rounds_val partial_round 1 fp partial_round_val PARTIAL_ROUNDS 0 12 i1 s1 H1 E1)
    as (s2 & i2 & R2 & H2 & E2 & V2).
  destruct (rounds_val full_round 3 ff full_round_val (FULL_ROUNDS / 2) 0 95 i2 s2 H2 E2)
    as (s3 & i3 & R3 & H3 & _ & V3).
  rewrite (permute_of _ _ _ _ _ _ _ R1 R2 R3). split; [exact H3|]. rewrite V3, V2, V1.
  rewrite (fold_left_ext (fun v i => fp (12 + 1 * i)%nat v) (fun v i => fp (12 + i)%nat v))
    by (intros; now rewrite Nat.mul_1_l).
  unfold poseidon_spec, ff, fp. cbv beta zeta. reflexivity.
Qed.
End Constants.

(** ** The permutation is injective *)

(** [3 d = 1] modulo [p - 1] makes [x^d] the inverse of the cube. *)
Definition cube_root_exp (d k : Z) : Prop := 0 <= d /\ 0 <= k /\ 3 * d = 1 + k * Z.pred modulus.

Lemma cube_inj d k a b : cube_root_exp d k -> cube a = cube b -> a = b.
Proof.
  intros (Hd & Hk & E) H.
  assert (Root : forall x : Fp, Zmod.pow (cube x) d = x).
  { intros x. destruct (Zmod.eqb_spec x Zmod.zero) as [->|N].
    - unfold cube. rewrite !Zmod.mul_0_l. destruct (Z.eq_dec d 0) as [->|];
        [exfalso; pose proof P_gt2; nia|].
      apply Zmod.pow_0_l. lia.
    - replace (cube x) with (Zmod.pow x 3)
        by (change 3 with (2 + 1); rewrite Zmod.pow_add_r_nonneg, Zmod.pow_2_r, Zmod.pow_1_r by lia; reflexivity).
      rewrite <- Zmod.pow_mul_r_nonneg, E by lia.
      rewrite Zmod.pow_add_r_nonneg, Zmod.pow_1_r, (Z.mul_comm k), Zmod.pow_mul_r_nonneg
        by (pose proof P_gt2; nia).
      rewrite Zmod.fermat_nz, Zmod.pow_1_l by (exact N || exact prime_modulus). apply Zmod.mul_1_r. }
  now rewrite <- (Root a), H, Root.
Qed.

Lemma cls_2_cancel (a b : Fp) : (cls 2 * a)%Zmod = (cls 2 * b)%Zmod -> a = b.
Proof. apply cancel_2. Qed.

Lemma cls_8_cancel (a b : Fp) :
  (cls 2 * (cls 2 * (cls 2 * a)))%Zmod = (cls 2 * (cls 2 * (cls 2 * b)))%Zmod -> a = b.
Proof. intros H. now do 3 apply cls_2_cancel in H. Qed.

(** The matrix has determinant 8. *)
Lemma mds_inj s s' : mds s = mds s' -> s = s'.
Proof.
  destruct s as [[a b] c], s' as [[a' b'] c']. unfold mds. intros H.
  apply pair_equal_spec in H as [H E2]. apply pair_equal_spec in H as [E0 E1].
  rewrite cls_2, cls_3 in *.
  assert (Ea : a = a'); [|assert (Eb : b = b'); [|assert (Ec : c = c'); [|congruence]]];
    apply cls_8_cancel; rewrite cls_2.
  - transitivity ((1 + 1 + 1) * a + b + c + (1 + 1 + 1) * (a - b + c) + (1 + 1) * (a + b - (1 + 1) * c))%Zmod;
      [ring|]. rewrite E0, E1, E2. ring.
  - transitivity ((1 + 1 + 1) * ((1 + 1 + 1) * a + b + c) - (1 + 1 + 1 + 1 + 1 + 1 + 1) * (a - b + c)
                  - (1 + 1) * (a + b - (1 + 1) * c))%Zmod; [ring|]. rewrite E0, E1, E2. ring.
  - transitivity ((1 + 1) * ((1 + 1 + 1) * a + b + c) - (1 + 1) * (a - b + c)
                  - (1 + 1 + 1 + 1) * (a + b - (1 + 1) * c))%Zmod; [ring|]. rewrite E0, E1, E2. ring.
Qed.

Lemma add_cancel (k a b : Fp) : (a + k)%Zmod = (b + k)%Zmod -> a = b.
Proof. intros H. transitivity (a + k - k)%Zmod; [ring|]. rewrite H. ring. Qed.

Section Bijective.
Context (d k : Z) (root : cube_root_exp d k).

Lemma full_step_inj k0 k1 k2 s s' : full_step k0 k1 k2 s = full_step k0 k1 k2 s' -> s = s'.
Proof.
  destruct s as [[a b] c], s' as [[a' b'] c']. unfold full_step. intros H. apply mds_inj in H.
  apply pair_equal_spec in H as [H E2]. apply pair_equal_spec in H as [E0 E1].
  apply (cube_inj d k _ _ root), add_cancel in E0, E1, E2. congruence.
Qed.

Lemma partial_step_inj k0 s s' : partial_step k0 s = partial_step k0 s' -> s = s'.
Proof.
  destruct s as [[a b] c], s' as [[a' b'] c']. unfold partial_step. intros H. apply mds_inj in H.
  apply pair_equal_spec in H as [H E2]. apply pair_equal_spec in H as [E0 E1].
  apply (cube_inj d k _ _ root), add_cancel in E2. congruence.
Qed.

Lemma fold_inj {A} (f : A -> nat -> A) (l : list nat) :
  (forall i a a', f a i = f a' i -> a = a') ->
  forall a a', fold_left f l a = fold_left f l a' -> a = a'.
Proof. intros Hf. induction l as [|i l IH]; intros a a' H; cbn [fold_left] in H; eauto. Qed.

Lemma poseidon_spec_inj c s s' : poseidon_spec c s = poseidon_spec c s' -> s = s'.
Proof.
  unfold poseidon_spec. cbv zeta. intros H.
  apply fold_inj in H; [|intros; now apply full_step_inj in H0].
  apply fold_inj in H; [|intros; now apply partial_step_inj in H0].
  apply fold_inj in H; [exact H | intros; now apply full_step_inj in H0].
Qed.
End Bijective.

(** ** The sponge *)

Lemma hasher_equiv msgs :
  hasher_finish (fold_left hasher_write msgs hasher_new) = poseidon_hash_many msgs.
Proof.
  unfold hasher_new, poseidon_hash_many.
  rewrite (write_all absorb MkHasher hasher_write) by reflexivity.
  pose proof (chunks_rest absorb (length msgs) msgs zero_state (le_n _)) as HL.
  destruct (fold_chunks2 absorb zero_state msgs) as [st [|r [|? ?]]]; cbn [snd length] in HL;
    [reflexivity | reflexivity | lia].
Qed.
End Facts.

(** ** The base field *)

Definition canonicalb (x : limbs) : bool :=
  forallb (fun l => (0 <=? l) && (l <? W64)) [l0 x; l1 x; l2 x; l3 x] && (eval x <? field_prime).

Lemma canonicalb_canonical x : canonicalb x = true -> @canonical MontFelt x.
Proof.
  unfold canonicalb. intros H. apply andb_prop in H as [H Hv]. rewrite forallb_forall in H.
  split; [|now apply Z.ltb_lt].
  assert (U : forall l, In l [l0 x; l1 x; l2 x; l3 x] -> u64_ok l).
  { intros l Hl. apply H, andb_prop in Hl as [? ?]. zbool. split; lia. }
  repeat split; apply U; cbn; auto.
Qed.

Lemma comp_const_canonical i : @canonical MontFelt (comp_const i).
Proof.
  apply canonicalb_canonical. unfold comp_const.
  destruct (Nat.lt_ge_cases i (length POSEIDON_COMP_CONSTS)) as [H|H].
  - assert (A : forallb canonicalb POSEIDON_COMP_CONSTS = true) by (vm_compute; reflexivity).
    rewrite forallb_forall in A. apply A, nth_In, H.
  - now rewrite nth_overflow by exact H.
Qed.

Lemma field_cube_root : @cube_root_exp MontFelt ((2 * (field_prime - 1) + 1) / 3) 2.
Proof. split; [discriminate|]. split; [discriminate|]. vm_compute. reflexivity. Qed.

Lemma permute_inj s s' : @state_ok MontFelt s -> @state_ok MontFelt s' ->
  @permute MontFelt s = @permute MontFelt s' -> s = s'.
Proof.
  intros Hs Hs' E. apply (@state_val_inj MontFelt _); [assumption..|].
  apply (poseidon_spec_inj _ _ field_cube_root (fun i => val (comp_const i))).
  destruct (permute_val comp_const_canonical s Hs) as [_ <-].
  destruct (permute_val comp_const_canonical s' Hs') as [_ <-]. now rewrite E.
Qed.
