(* ===== verification/Curve.v ===== *)
(** Points of the Stark curve [y^2 = x^3 + x + b] (algebra/curve/{affine,
    projective, gen_mul, params}.rs): the affine and projective group
    operations, double-and-add multiplication, the table-driven multiplication
    of the generator and point decompression. *)

From Stdlib Require Import String Ascii ZArith Lia Bool List Zmod.
From S2P Require Import Prelude Bytes Words Montgomery MontgomeryFacts FieldAlgos MontBytes.
From S2P Require Import NumberTheory Fields CurveOrder Sqrt Felt.
Import ListNotations.
Local Open Scope Z_scope.

Record AffinePoint := MkAffine { ax : limbs; ay : limbs; ainf : bool }.

Record ProjectivePoint := MkProj { px : limbs; py : limbs; pz : limbs; pinf : bool }.

Section Operations.
Context {F : MontField}.

(** ** Affine points *)

Definition affine_identity : AffinePoint := MkAffine ZERO ZERO true.

Definition affine_negate (self : AffinePoint) : AffinePoint :=
  MkAffine (ax self) (negate (ay self)) (ainf self).

(** The inversion of the slope's divisor is unwrapped. *)
Definition affine_double (self : AffinePoint) : outcome AffinePoint :=
  if ainf self then Ret self
  else
    let! lambda :=
      let dividend := add (mul THREE (mul (ax self) (ax self))) ONE in
      let! divisor_inv := unwrap_option (inverse (mul TWO (ay self))) in
      Ret (mul dividend divisor_inv) in
    let result_x := sub (sub (mul lambda lambda) (ax self)) (ax self) in
    Ret (MkAffine result_x (sub (mul lambda (sub (ax self) result_x)) (ay self)) (ainf self)).

Definition affine_add (self other : AffinePoint) : outcome AffinePoint :=
  if ainf other then Ret self
  else if ainf self then Ret (MkAffine (ax other) (ay other) (ainf other))
  else if limbs_eqb (ax self) (ax other) then
    if negb (limbs_eqb (ay self) (ay other)) then Ret (MkAffine (ax self) (ay self) true)
    else affine_double self
  else
    let! lambda :=
      let dividend := sub (ay other) (ay self) in
      let! divisor_inv := unwrap_option (inverse (sub (ax other) (ax self))) in
      Ret (mul dividend divisor_inv) in
    let result_x := sub (sub (mul lambda lambda) (ax self)) (ax other) in
    Ret (MkAffine result_x (sub (mul lambda (sub (ax self) result_x)) (ay self)) (ainf self)).

(** [for b in bits.iter().rev()]: [bits] is least significant bit first. *)
Fixpoint affine_multiply_loop (self : AffinePoint) (rbits : list bool) (product : AffinePoint)
    : outcome AffinePoint :=
  match rbits with
  | [] => Ret product
  | b :: rbits =>
      let! product := affine_double product in
      let! product := if b then affine_add product self else Ret product in
      affine_multiply_loop self rbits product
  end.

Definition affine_multiply (self : AffinePoint) (bits : list bool) : outcome AffinePoint :=
  affine_multiply_loop self (rev bits) affine_identity.

(** ** Projective points *)

Definition proj_identity : ProjectivePoint := MkProj ZERO ZERO ONE true.

Definition proj_of_affine (p : AffinePoint) : ProjectivePoint := MkProj (ax p) (ay p) ONE false.

Definition affine_of_proj (p : ProjectivePoint) : outcome AffinePoint :=
  let! zinv := unwrap_option (inverse (pz p)) in
  Ret (MkAffine (mul (px p) zinv) (mul (py p) zinv) false).

Definition proj_negate (self : ProjectivePoint) : ProjectivePoint :=
  MkProj (px self) (negate (py self)) (pz self) (pinf self).

Definition proj_double (self : ProjectivePoint) : ProjectivePoint :=
  if pinf self then self
  else
    let x2 := square (px self) in
    let t := add (add x2 (double x2)) (square (pz self)) in
    let u := double (mul (py self) (pz self)) in
    let v := double (mul (mul u (px self)) (py self)) in
    let w := sub (square t) (double v) in
    let uy := mul u (py self) in
    let x := mul u w in
    let y := sub (mul t (sub v w)) (double (mul uy uy)) in
    let z := mul (mul u u) u in
    MkProj x y z (pinf self).

Definition proj_add (self other : ProjectivePoint) : ProjectivePoint :=
  if pinf other then self
  else if pinf self then MkProj (px other) (py other) (pz other) (pinf other)
  else
    let u0 := mul (px self) (pz other) in
    let u1 := mul (px other) (pz self) in
    let t0 := mul (py self) (pz other) in
    let t1 := mul (py other) (pz self) in
    if limbs_eqb u0 u1 then
      if negb (limbs_eqb t0 t1) then MkProj (px self) (py self) (pz self) true
      else proj_double self
    else
      let t := sub t0 t1 in
      let u := sub u0 u1 in
      let u2 := square u in
      let v := mul (pz self) (pz other) in
      let w := sub (mul (square t) v) (mul u2 (add u0 u1)) in
      let u3 := mul u u2 in
      let x := mul u w in
      let y := sub (mul t (sub (mul u0 u2) w)) (mul t0 u3) in
      let z := mul u3 v in
      MkProj x y z (pinf self).

Definition proj_add_affine (self : ProjectivePoint) (other : AffinePoint) : ProjectivePoint :=
  if ainf other then self
  else if pinf self then MkProj (ax other) (ay other) ONE (ainf other)
  else
    let u0 := px self in
    let u1 := mul (ax other) (pz self) in
    let t0 := py self in
    let t1 := mul (ay other) (pz self) in
    if limbs_eqb u0 u1 then
      if negb (limbs_eqb t0 t1) then MkProj (px self) (py self) (pz self) true
      else proj_double self
    else
      let t := sub t0 t1 in
      let u := sub u0 u1 in
      let u2 := mul u u in
      let v := pz self in
      let w := sub (mul (mul t t) v) (mul u2 (add u0 u1)) in
      let u3 := mul u u2 in
      let x := mul u w in
      let y := sub (mul t (sub (mul u0 u2) w)) (mul t0 u3) in
      let z := mul u3 v in
      MkProj x y z (pinf self).

Fixpoint proj_multiply_loop (self : ProjectivePoint) (rbits : list bool) (product : ProjectivePoint)
    : ProjectivePoint :=
  match rbits with
  | [] => product
  | b :: rbits =>
      let product := proj_double product in
      let product := if b then proj_add product self else product in
      proj_multiply_loop self rbits product
  end.

Definition proj_multiply (self : ProjectivePoint) (bits : list bool) : ProjectivePoint :=
  proj_multiply_loop self (rev bits) proj_identity.

(** ** Multiplication by table lookup *)

(** [bits.chunks(n)] *)
Fixpoint chunks (fuel n : nat) (bits : list bool) : list (list bool) :=
  match fuel with
  | O => []
  | S fuel =>
      match bits with
      | [] => []
      | _ => firstn n bits :: chunks fuel n (skipn n bits)
      end
  end.

(** [v.load_le()] of a chunk, least significant bit first. *)
Definition load_le (v : list bool) : nat := Z.to_nat (bits_value (rev v)).

(** The closure [add_points]: chunk [i] with value [offset] adds the table
    entry [offset - 1] of block [i].  Indexing past the table panics. *)
Fixpoint add_points (bits_per_chunk i : nat) (vs : list (list bool)) (prep : list AffinePoint)
    (acc : ProjectivePoint) : outcome ProjectivePoint :=
  match vs with
  | [] => Ret acc
  | v :: vs =>
      let table_size := (2 ^ bits_per_chunk - 1)%nat in
      let offset := load_le v in
      let! acc :=
        if (0 <? offset)%nat then
          let! p := unwrap_option (nth_error prep (i * table_size + offset - 1)) in
          Ret (proj_add_affine acc p)
        else Ret acc in
      add_points bits_per_chunk (S i) vs prep acc
  end.
End Operations.

(** ** Scalars, decompression and constants *)

Definition proj_multiply_elm (self : ProjectivePoint) (elm : limbs) : ProjectivePoint :=
  @proj_multiply MontFelt self (CurveOrder.into_le_bits elm).

Definition affine_multiply_elm (self : AffinePoint) (elm : limbs) : outcome AffinePoint :=
  @affine_multiply MontFelt self (@into_le_bits MontFelt elm).

(** [gen_multiply_elm] of gen_mul.rs over a table [G_CONSTS] with
    [G_CONSTS_BITS] bits per chunk. *)
Definition gen_multiply_elm (G_CONSTS_BITS : nat) (G_CONSTS : list AffinePoint) (x : limbs)
    : outcome ProjectivePoint :=
  let bits := CurveOrder.into_le_bits x in
  @add_points MontFelt G_CONSTS_BITS 0 (chunks (length bits) G_CONSTS_BITS bits) G_CONSTS
    (@proj_identity MontFelt).

Definition affine_gen_multiply_elm (G_CONSTS_BITS : nat) (G_CONSTS : list AffinePoint) (x : limbs)
    : outcome AffinePoint :=
  let! p := gen_multiply_elm G_CONSTS_BITS G_CONSTS x in
  @affine_of_proj MontFelt p.

(** A constant written with [MontFelt::from_hex]; a bad literal would be
    rejected when the crate is compiled. *)
Definition hex_const (s : string) : limbs :=
  match @from_hex MontFelt (bytes_of_string s) with
  | Ret x => x
  | Panic => ZERO
  end.

Definition CURVE_ORDER : limbs :=
  Eval vm_compute in hex_const "800000000000010FFFFFFFFFFFFFFFFB781126DCAE7B2321E66A241ADC64D2F".

Definition CURVE_A : limbs := Eval vm_compute in @ONE MontFelt.

Definition CURVE_B : limbs :=
  Eval vm_compute in hex_const "6F21413EFBE40DE150E596D72F7A8C5609AD26C15C915C1F4CDFCB99CEE9E89".

Definition CURVE_G : ProjectivePoint :=
  Eval vm_compute in
    MkProj (hex_const "1EF15C18599971B7BECED415A40F0C7DEACFD9B0D1819E03D723D8BC943CFCA")
           (hex_const "5668060AA49730B7BE4801DF46EC62DE53ECD11ABE43A32873000C36E8DC1F")
           (@ONE MontFelt) false.

Definition from_x (x : limbs) : option AffinePoint :=
  let y2 := @add MontFelt (@add MontFelt (@mul MontFelt (@square MontFelt x) x)
                                         (@mul MontFelt CURVE_A x)) CURVE_B in
  match sqrt y2 with
  | Some y => Some (MkAffine x y false)
  | None => None
  end.
