(* ===== verification/CurveFacts.v ===== *)
(** Correctness of the curve code: the affine operations, the projective ones
    and the mixed addition all compute the textbook chord-and-tangent law. *)

From Stdlib Require Import ZArith Lia Bool List Zmod Field.
From S2P Require Import Prelude Bytes Words Montgomery MontgomeryFacts FieldAlgos MontBytes NumberTheory Fields Sqrt.
From S2P Require Import Felt Curve.
Import ListNotations.
Local Open Scope Z_scope.

#[local] Opaque add sub mul square double negate TWO THREE inverse.

Section Law.
Context {F : MontField} {FOk : MontFieldOk F} {FPrime : MontFieldPrime F}.

#[local] Abbreviation Fp := (Zmod modulus).
Add Field Fp_field : (Zmod.field_theory modulus prime_modulus).

(** ** The group law *)

(** A point: [None] is the point at infinity. *)
Definition pt : Type := option (Fp * Fp).

Definition two : Fp := (1 + 1)%Zmod.
Definition three : Fp := (1 + 1 + 1)%Zmod.

Definition on_curve (b : Fp) (P : pt) : Prop :=
  match P with
  | None => True
  | Some (x, y) => (y * y)%Zmod = (x * x * x + x + b)%Zmod
  end.

(** The third point of a line of slope [l] through [(x1, y1)] and a point with
    abscissa [x2], reflected. *)
Definition chord (l x1 y1 x2 : Fp) : pt :=
  let x3 := (l * l - x1 - x2)%Zmod in Some (x3, (l * (x1 - x3) - y1)%Zmod).

Definition pt_double (P : pt) : pt :=
  match P with
  | None => None
  | Some (x, y) =>
      if Zmod.eqb y Zmod.zero then None
      else chord ((three * (x * x) + 1) * Zmod.inv (two * y))%Zmod x y x
  end.

Definition pt_add (P Q : pt) : pt :=
  match P, Q with
  | _, None => P
  | None, _ => Q
  | Some (x1, y1), Some (x2, y2) =>
      if Zmod.eqb x1 x2 then
        if Zmod.eqb y1 y2 then pt_double P else None
      else chord ((y2 - y1) * Zmod.inv (x2 - x1))%Zmod x1 y1 x2
  end.

Definition pt_neg (P : pt) : pt :=
  match P with
  | None => None
  | Some (x, y) => Some (x, (- y)%Zmod)
  end.

(** ** Field facts *)

Lemma two_nz : two <> Zmod.zero.
Proof.
  intros E. apply (f_equal Zmod.unsigned) in E. unfold two in E.
  rewrite Zmod.unsigned_add, Zmod.unsigned_0, Zmod.unsigned_1_pos in E by (pose proof P_gt2; lia).
  rewrite Z.mod_small in E by (pose proof P_gt2; lia). lia.
Qed.

Lemma mul_nz (a b : Fp) : a <> Zmod.zero -> b <> Zmod.zero -> (a * b)%Zmod <> Zmod.zero.
Proof. intros Ha Hb E. now apply mul_zero in E as [|]. Qed.

Lemma sub_nz (a b : Fp) : a <> b -> (a - b)%Zmod <> Zmod.zero.
Proof. intros H E. apply H. transitivity (a - b + b)%Zmod; [ring|]. rewrite E. ring. Qed.

Lemma self_opp (y : Fp) : y = (- y)%Zmod -> y = Zmod.zero.
Proof.
  intros E. assert (H : (two * y)%Zmod = Zmod.zero) by (transitivity (y + - y)%Zmod; [rewrite <- E; unfold two; ring | ring]).
  apply mul_zero in H as [H|H]; [now apply two_nz in H | exact H].
Qed.

(** ** On-curve points are closed under the law *)

(** The coefficient of [x] in the curve's cubic minus the line and the three
    roots; it vanishes when the line meets the curve in those points. *)
Definition residue (l x1 y1 x2 : Fp) : Fp :=
  let x3 := (l * l - x1 - x2)%Zmod in
  (1 + two * (l * l) * x1 - two * l * y1 - (x1 * x2 + x1 * x3 + x2 * x3))%Zmod.

Lemma chord_on_curve b l x1 y1 x2 : on_curve b (Some (x1, y1)) ->
  residue l x1 y1 x2 = Zmod.zero -> on_curve b (chord l x1 y1 x2).
Proof.
  unfold on_curve, chord, residue, two. cbv zeta. intros H1 HA.
  set (x3 := (l * l - x1 - x2)%Zmod) in *.
  set (A := (1 + _ - _ - _)%Zmod) in HA.
  transitivity (x3 * x3 * x3 + x3 + b - (A * (x3 - x1) + (x1 * x1 * x1 + x1 + b - y1 * y1)))%Zmod.
  - unfold A, x3. ring.
  - rewrite HA, H1. ring.
Qed.

Lemma chord_closed b x1 y1 x2 y2 : on_curve b (Some (x1, y1)) -> on_curve b (Some (x2, y2)) ->
  x1 <> x2 -> on_curve b (chord ((y2 - y1) * Zmod.inv (x2 - x1))%Zmod x1 y1 x2).
Proof.
  intros H1 H2 N. apply chord_on_curve; [exact H1|]. unfold on_curve in *.
  assert (D : (x2 - x1)%Zmod <> Zmod.zero) by (apply sub_nz; congruence).
  set (l := ((y2 - y1) * Zmod.inv (x2 - x1))%Zmod).
  assert (Hl : (l * (x2 - x1) + y1)%Zmod = y2) by (unfold l; field; exact D).
  clearbody l. destruct (mul_zero (x2 - x1)%Zmod (residue l x1 y1 x2)) as [E|E]; [|contradiction | exact E].
  transitivity ((x2 * x2 * x2 + x2 + b - (l * (x2 - x1) + y1) * (l * (x2 - x1) + y1))
                - (x1 * x1 * x1 + x1 + b - y1 * y1))%Zmod.
  - unfold residue, two. ring.
  - rewrite Hl, <- H1, <- H2. ring.
Qed.

Lemma tangent_closed b x y : on_curve b (Some (x, y)) -> y <> Zmod.zero ->
  on_curve b (chord ((three * (x * x) + 1) * Zmod.inv (two * y))%Zmod x y x).
Proof.
  intros H N. apply chord_on_curve; [exact H|].
  assert (D : (two * y)%Zmod <> Zmod.zero) by (apply mul_nz; [exact two_nz | exact N]).
  set (l := (_ * Zmod.inv _)%Zmod).
  assert (Hl : (two * y * l)%Zmod = (three * (x * x) + 1)%Zmod).
  { unfold l. rewrite Zmod.mul_assoc, (Zmod.mul_comm (two * y)), <- Zmod.mul_assoc.
    rewrite Zmod.mul_inv_same_r_prime by (exact D || exact prime_modulus). apply Zmod.mul_1_r. }
  clearbody l. transitivity (three * (x * x) + 1 - two * y * l)%Zmod.
  - unfold residue, two, three. ring.
  - rewrite Hl. ring.
Qed.

Lemma pt_double_closed b P : on_curve b P -> on_curve b (pt_double P).
Proof.
  destruct P as [[x y]|]; [|easy]. intros H. unfold pt_double.
  destruct (Zmod.eqb_spec y Zmod.zero); [exact I | now apply tangent_closed].
Qed.

Lemma pt_add_closed b P Q : on_curve b P -> on_curve b Q -> on_curve b (pt_add P Q).
Proof.
  destruct P as [[x1 y1]|], Q as [[x2 y2]|]; try easy. intros H1 H2. unfold pt_add.
  destruct (Zmod.eqb_spec x1 x2) as [E|N].
  - destruct (Zmod.eqb_spec y1 y2); [now apply pt_double_closed | exact I].
  - now apply (chord_closed b x1 y1 x2 y2).
Qed.

(** ** Representation of points by the code *)

(** An affine value stands for a point; the coordinates of a value flagged as
    infinity are arbitrary. *)
Definition arep (p : AffinePoint) (Q : pt) : Prop :=
  canonical (ax p) /\ canonical (ay p) /\
  Q = if ainf p then None else Some (val (ax p), val (ay p)).

Definition prep (p : ProjectivePoint) (Q : pt) : Prop :=
  canonical (px p) /\ canonical (py p) /\ canonical (pz p) /\ val (pz p) <> Zmod.zero /\
  Q = if pinf p then None
      else Some ((val (px p) * Zmod.inv (val (pz p)))%Zmod, (val (py p) * Zmod.inv (val (pz p)))%Zmod).

Lemma pair_eq (a b c d : Fp) : a = c -> b = d -> Some (a, b) = Some (c, d).
Proof. now intros -> ->. Qed.

Lemma affine_double_rep p Q : arep p Q -> (forall x, Q <> Some (x, Zmod.zero)) ->
  exists p', affine_double p = Ret p' /\ arep p' (pt_double Q).
Proof.
  destruct p as [x y []]; intros (Hx & Hy & ->) Hnz; cbn [ax ay ainf] in *.
  { eexists. split; [reflexivity|]. split; [exact Hx | split; [exact Hy | reflexivity]]. }
  unfold affine_double. cbn [ax ay ainf].
  assert (Ny : val y <> Zmod.zero) by (intros E; apply (Hnz (val x)); now rewrite E).
  assert (D : val (mul TWO y) = (two * val y)%Zmod) by (unfold two; rewrite_val; reflexivity).
  destruct (inverse_val (mul TWO y)) as (i & -> & Hi & Vi);
    [canon | rewrite D; apply mul_nz; [exact two_nz | exact Ny]|].
  cbn [unwrap_option bind_outcome]. eexists. split; [reflexivity|].
  unfold arep. cbn [ax ay ainf]. split; [canon|]. split; [canon|].
  unfold pt_double. destruct (Zmod.eqb_spec (val y) Zmod.zero); [contradiction|].
  rewrite_val. rewrite Vi, D. unfold chord, three, two. reflexivity.
Qed.

Lemma affine_add_rep p Q p' Q' : arep p Q -> arep p' Q' -> (forall x, Q <> Some (x, Zmod.zero)) ->
  exists r, affine_add p p' = Ret r /\ arep r (pt_add Q Q').
Proof.
  intros HP HP' Hnz. destruct p as [x y i], p' as [x' y' i'].
  pose proof HP as (Hx & Hy & EQ). pose proof HP' as (Hx' & Hy' & EQ'). cbn [ax ay ainf] in *.
  unfold affine_add. cbn [ax ay ainf].
  destruct i'; [exists (MkAffine x y i); split; [reflexivity|]; subst Q'; now destruct Q as [[]|]|].
  destruct i; [eexists; split; [reflexivity|]; subst Q Q'; exact HP'|].
  subst Q Q'. unfold pt_add.
  destruct (limbs_eqb_val x x' Hx Hx') as [Ex|Nx].
  - destruct (Zmod.eqb_spec (val x) (val x')); [|contradiction].
    destruct (limbs_eqb_val y y' Hy Hy') as [Ey|Ny]; cbn [negb];
      destruct (Zmod.eqb_spec (val y) (val y')); try contradiction.
    + now apply affine_double_rep.
    + eexists. split; [reflexivity|]. split; [exact Hx | split; [exact Hy | reflexivity]].
  - destruct (Zmod.eqb_spec (val x) (val x')); [contradiction|].
    assert (D : val (sub x' x) = (val x' - val x)%Zmod) by (rewrite_val; reflexivity).
    destruct (inverse_val (sub x' x)) as (i & -> & Hi & Vi);
      [canon | rewrite D; apply sub_nz; congruence|].
    cbn [unwrap_option bind_outcome]. eexists. split; [reflexivity|].
    unfold arep. cbn [ax ay ainf]. split; [canon|]. split; [canon|].
    rewrite_val. rewrite Vi, D. reflexivity.
Qed.

(** Projective coordinates: [a / c = b] and the affine coordinates of a point. *)
Lemma div_eq (a b c : Fp) : c <> Zmod.zero -> a = (b * c)%Zmod -> (a * Zmod.inv c)%Zmod = b.
Proof.
  intros Hc ->. rewrite <- Zmod.mul_assoc, Zmod.mul_inv_same_r_prime;
    [apply Zmod.mul_1_r | exact prime_modulus | exact Hc].
Qed.

Lemma div_mul (a c : Fp) : c <> Zmod.zero -> a = (a * Zmod.inv c * c)%Zmod.
Proof.
  intros Hc. rewrite <- Zmod.mul_assoc, Zmod.mul_inv_same_l_prime;
    [symmetry; apply Zmod.mul_1_r | exact prime_modulus | exact Hc].
Qed.

(** The projective tangent formulas, with [X = x Z], [Y = y Z] and the slope [l]. *)
Lemma double_formula (x y Z l : Fp) : y <> Zmod.zero -> Z <> Zmod.zero ->
  (l * (two * y))%Zmod = (three * (x * x) + 1)%Zmod ->
  let X := (x * Z)%Zmod in let Y := (y * Z)%Zmod in
  let t := (X * X + (X * X + X * X) + Z * Z)%Zmod in
  let u := (Y * Z + Y * Z)%Zmod in
  let v := (u * X * Y + u * X * Y)%Zmod in
  let w := (t * t - (v + v))%Zmod in
  (u * u * u)%Zmod <> Zmod.zero /\
  chord l x y x = Some ((u * w * Zmod.inv (u * u * u))%Zmod,
    ((t * (v - w) - (u * Y * (u * Y) + u * Y * (u * Y))) * Zmod.inv (u * u * u))%Zmod).
Proof.
  intros Ny Nz Hl X Y t u v w.
  assert (Nu : u <> Zmod.zero).
  { replace u with (two * (y * Z * Z))%Zmod by (unfold u, Y, two; ring).
    repeat apply mul_nz; auto using two_nz. }
  assert (Et : t = (l * u)%Zmod).
  { transitivity ((three * (x * x) + 1) * (Z * Z))%Zmod; [unfold t, X, three; ring|].
    rewrite <- Hl. unfold u, Y, two. ring. }
  split; [now repeat apply mul_nz|]. unfold chord. cbv zeta.
  apply pair_eq; symmetry; (apply div_eq; [now repeat apply mul_nz|]);
    unfold w; rewrite Et; unfold v, u, Y, X; ring.
Qed.

Lemma proj_double_rep p Q : prep p Q -> (forall x, Q <> Some (x, Zmod.zero)) ->
  prep (proj_double p) (pt_double Q).
Proof.
  destruct p as [X Y Z []]; intros (Hx & Hy & Hz & Nz & ->) Hnz; cbn [px py pz pinf] in *.
  { split; [exact Hx | split; [exact Hy | split; [exact Hz | split; [exact Nz | reflexivity]]]]. }
  unfold proj_double, prep. cbv zeta. cbn [px py pz pinf]. do 3 (split; [canon|]).
  rewrite_val. unfold pt_double.
  set (x := (val X * Zmod.inv (val Z))%Zmod) in *. set (y := (val Y * Zmod.inv (val Z))%Zmod) in *.
  destruct (Zmod.eqb_spec y Zmod.zero) as [E|Ny]; [exfalso; apply (Hnz x); now rewrite E|].
  set (l := ((three * (x * x) + 1) * Zmod.inv (two * y))%Zmod).
  assert (Hl : (l * (two * y))%Zmod = (three * (x * x) + 1)%Zmod)
    by (symmetry; apply div_mul, mul_nz; [exact two_nz | exact Ny]).
  assert (EX : val X = (x * val Z)%Zmod) by (now apply div_mul).
  assert (EY : val Y = (y * val Z)%Zmod) by (now apply div_mul).
  clearbody x y l. rewrite EX, EY. now apply double_formula.
Qed.

(** The projective chord formulas, for coordinates over the common
    denominator [V]. *)
Lemma add_formula (x1 y1 x2 y2 V l u0 u1 t0 t1 : Fp) : x1 <> x2 -> V <> Zmod.zero ->
  (l * (x2 - x1))%Zmod = (y2 - y1)%Zmod ->
  u0 = (x1 * V)%Zmod -> u1 = (x2 * V)%Zmod -> t0 = (y1 * V)%Zmod -> t1 = (y2 * V)%Zmod ->
  let t := (t0 - t1)%Zmod in
  let u := (u0 - u1)%Zmod in
  let u2 := (u * u)%Zmod in
  let w := (t * t * V - u2 * (u0 + u1))%Zmod in
  let u3 := (u * u2)%Zmod in
  (u3 * V)%Zmod <> Zmod.zero /\
  chord l x1 y1 x2 = Some ((u * w * Zmod.inv (u3 * V))%Zmod,
    ((t * (u0 * u2 - w) - t0 * u3) * Zmod.inv (u3 * V))%Zmod).
Proof.
  intros Nx NV Hl E0 E1 F0 F1 t u u2 w u3.
  assert (Eu : u = ((x1 - x2) * V)%Zmod) by (unfold u; rewrite E0, E1; ring).
  assert (Nu : u <> Zmod.zero) by (rewrite Eu; apply mul_nz; [now apply sub_nz | exact NV]).
  assert (Et : t = (l * u)%Zmod).
  { transitivity (- ((y2 - y1) * V))%Zmod; [unfold t; rewrite F0, F1; ring|].
    rewrite <- Hl, Eu. ring. }
  assert (N : (u3 * V)%Zmod <> Zmod.zero) by (unfold u3, u2; now repeat apply mul_nz).
  split; [exact N|]. unfold chord. cbv zeta.
  apply pair_eq; symmetry; (apply div_eq; [exact N|]);
    unfold w, u3, u2; rewrite Et, Eu, ?F0, ?E0, ?E1; ring.
Qed.

(** Comparing cross products compares the quotients. *)
Lemma cross_eqb a b a' b' V : canonical a -> canonical b -> val a = (a' * V)%Zmod ->
  val b = (b' * V)%Zmod -> V <> Zmod.zero -> limbs_eqb a b = Zmod.eqb a' b'.
Proof.
  intros Ha Hb Ea Eb NV. destruct (limbs_eqb_val a b Ha Hb) as [E|N].
  - destruct (Zmod.eqb_spec a' b') as [|N']; [reflexivity|]. exfalso. apply N'.
    rewrite Ea, Eb in E. now apply (Zmod.mul_cancel_r_prime V) in E; [|exact prime_modulus|].
  - destruct (Zmod.eqb_spec a' b') as [->|]; [|reflexivity]. exfalso. apply N. congruence.
Qed.

Lemma proj_add_rep p Q p' Q' : prep p Q -> prep p' Q' -> (forall x, Q <> Some (x, Zmod.zero)) ->
  prep (proj_add p p') (pt_add Q Q').
Proof.
  intros HP HP' Hnz. destruct p as [X Y Z i], p' as [X' Y' Z' i'].
  pose proof HP as (Hx & Hy & Hz & Nz & EQ). pose proof HP' as (Hx' & Hy' & Hz' & Nz' & EQ').
  cbn [px py pz pinf] in *. unfold proj_add. cbn [px py pz pinf].
  destruct i'; [subst Q'; now destruct Q as [[]|]|]. destruct i; [subst Q Q'; exact HP'|].
  set (x := (val X * Zmod.inv (val Z))%Zmod) in *. set (y := (val Y * Zmod.inv (val Z))%Zmod) in *.
  set (x' := (val X' * Zmod.inv (val Z'))%Zmod) in *. set (y' := (val Y' * Zmod.inv (val Z'))%Zmod) in *.
  assert (EX : val X = (x * val Z)%Zmod) by (now apply div_mul).
  assert (EY : val Y = (y * val Z)%Zmod) by (now apply div_mul).
  assert (EX' : val X' = (x' * val Z')%Zmod) by (now apply div_mul).
  assert (EY' : val Y' = (y' * val Z')%Zmod) by (now apply div_mul).
  set (V := (val Z * val Z')%Zmod). assert (NV : V <> Zmod.zero) by now apply mul_nz.
  assert (U0 : val (mul X Z') = (x * V)%Zmod) by (rewrite_val; rewrite EX; unfold V; ring).
  assert (U1 : val (mul X' Z) = (x' * V)%Zmod) by (rewrite_val; rewrite EX'; unfold V; ring).
  assert (T0 : val (mul Y Z') = (y * V)%Zmod) by (rewrite_val; rewrite EY; unfold V; ring).
  assert (T1 : val (mul Y' Z) = (y' * V)%Zmod) by (rewrite_val; rewrite EY'; unfold V; ring).
  rewrite (cross_eqb _ _ x x' V), (cross_eqb _ _ y y' V) by (canon || assumption).
  subst Q Q'. unfold pt_add. destruct (Zmod.eqb_spec x x') as [_|Nx].
  - destruct (Zmod.eqb_spec y y'); cbn [negb]; [now apply proj_double_rep|].
    split; [exact Hx | split; [exact Hy | split; [exact Hz | split; [exact Nz | reflexivity]]]].
  - unfold prep. cbv zeta. cbn [px py pz pinf]. do 3 (split; [canon|]).
    assert (Hl : ((y' - y) * Zmod.inv (x' - x) * (x' - x))%Zmod = (y' - y)%Zmod)
      by (symmetry; apply div_mul, sub_nz; congruence).
    pose proof (add_formula x y x' y' V _ _ _ _ _ Nx NV Hl U0 U1 T0 T1) as [N ->].
    rewrite (val_mul X Z'), (val_mul X' Z), (val_mul Y Z'), (val_mul Y' Z) in * by canon.
    rewrite_val. split; [exact N | reflexivity].
Qed.

Lemma proj_add_affine_rep p Q p' Q' : prep p Q -> arep p' Q' -> (forall x, Q <> Some (x, Zmod.zero)) ->
  prep (proj_add_affine p p') (pt_add Q Q').
Proof.
  intros HP HP' Hnz. destruct p as [X Y Z i], p' as [X' Y' i'].
  pose proof HP as (Hx & Hy & Hz & Nz & EQ). pose proof HP' as (Hx' & Hy' & EQ').
  cbn [px py pz pinf ax ay ainf] in *. unfold proj_add_affine. cbn [px py pz pinf ax ay ainf].
  destruct i'; [subst Q'; now destruct Q as [[]|]|].
  set (x := (val X * Zmod.inv (val Z))%Zmod) in *. set (y := (val Y * Zmod.inv (val Z))%Zmod) in *.
  assert (EX : val X = (x * val Z)%Zmod) by (now apply div_mul).
  assert (EY : val Y = (y * val Z)%Zmod) by (now apply div_mul).
  destruct i.
  - subst Q Q'. unfold prep, pt_add. cbn [px py pz pinf]. do 3 (split; [canon|]). rewrite_val.
    assert (N1 : (1 : Fp)%Zmod <> Zmod.zero)
      by (intros E; apply Nz; rewrite <- (Zmod.mul_1_r (val Z)), E; apply Zmod.mul_0_r).
    split; [exact N1|]. apply pair_eq; symmetry; (apply div_eq; [exact N1|]);
      symmetry; apply Zmod.mul_1_r.
  - assert (U1 : val (mul X' Z) = (val X' * val Z)%Zmod) by (rewrite_val; reflexivity).
    assert (T1 : val (mul Y' Z) = (val Y' * val Z)%Zmod) by (rewrite_val; reflexivity).
    rewrite (cross_eqb X _ x (val X') (val Z)), (cross_eqb Y _ y (val Y') (val Z)) by (canon || assumption).
    subst Q Q'. unfold pt_add. destruct (Zmod.eqb_spec x (val X')) as [_|Nx].
    + destruct (Zmod.eqb_spec y (val Y')); cbn [negb]; [now apply proj_double_rep|].
      split; [exact Hx | split; [exact Hy | split; [exact Hz | split; [exact Nz | reflexivity]]]].
    + unfold prep. cbv zeta. cbn [px py pz pinf]. do 3 (split; [canon|]).
      assert (Hl : ((val Y' - y) * Zmod.inv (val X' - x) * (val X' - x))%Zmod = (val Y' - y)%Zmod)
        by (symmetry; apply div_mul, sub_nz; congruence).
      pose proof (add_formula x y (val X') (val Y') (val Z) _ _ _ _ _ Nx Nz Hl EX U1 EY T1) as [N ->].
      rewrite (val_mul X' Z), (val_mul Y' Z) in * by canon.
      rewrite_val. split; [exact N | reflexivity].
Qed.
End Law.

(** * Scalar multiplication: the projective double-and-add loop, the affine one
    and the table-driven routine against the group law, and conversion back to
    affine coordinates. *)

#[local] Opaque add sub mul square double negate TWO THREE inverse.

Section Multiplication.
Context {F : MontField} {FOk : MontFieldOk F} {FPrime : MontFieldPrime F}.

#[local] Abbreviation Fp := (Zmod modulus).

(** Double-and-add over the bits of a scalar, most significant first. *)
Fixpoint pt_mul_loop (P : pt) (rbits : list bool) (acc : pt) : pt :=
  match rbits with
  | [] => acc
  | b :: rbits =>
      let acc := pt_double acc in
      pt_mul_loop P rbits (if b then pt_add acc P else acc)
  end.

Definition pt_mul (P : pt) (bits : list bool) : pt := pt_mul_loop P (rev bits) None.

(** The curve has no point of order two; that is the case whenever its group
    has odd order, as the Stark curve's has. *)
Context (b : Fp) (no_order_two : forall x : Fp, (x * x * x + x + b)%Zmod <> Zmod.zero).

Lemma on_curve_y P : on_curve b P -> forall x, P <> Some (x, Zmod.zero).
Proof.
  intros H x ->. cbn in H. apply (no_order_two x). rewrite <- H. apply Zmod.mul_0_l.
Qed.

Lemma affine_identity_rep : arep affine_identity None.
Proof. split; [apply canonical_ZERO | split; [apply canonical_ZERO | reflexivity]]. Qed.

Lemma one_nz : (Zmod.one : Fp) <> Zmod.zero.
Proof.
  intros E. apply (f_equal Zmod.unsigned) in E.
  rewrite Zmod.unsigned_0, Zmod.unsigned_1_pos in E by (pose proof P_gt2; lia). lia.
Qed.

Lemma proj_identity_rep : prep proj_identity None.
Proof.
  unfold prep, proj_identity. cbn [px py pz pinf]. do 3 (split; [canon|]). rewrite_val.
  split; [exact one_nz | reflexivity].
Qed.

Lemma proj_of_affine_rep p Q : arep p (Some Q) -> prep (proj_of_affine p) (Some Q).
Proof.
  intros (Hx & Hy & E). unfold prep, proj_of_affine. cbn [px py pz pinf].
  do 3 (split; [canon|]). rewrite_val. split; [exact one_nz|].
  destruct (ainf p); [discriminate|]. injection E as ->.
  apply pair_eq; symmetry; (apply div_eq; [exact one_nz|]); symmetry; apply Zmod.mul_1_r.
Qed.

Lemma affine_of_proj_rep p x y : prep p (Some (x, y)) ->
  exists q, affine_of_proj p = Ret q /\ arep q (Some (x, y)) /\ ainf q = false.
Proof.
  intros (Hx & Hy & Hz & Nz & E). destruct (pinf p); [discriminate|]. injection E as -> ->.
  unfold affine_of_proj. destruct (inverse_val (pz p) Hz Nz) as (i & -> & Hi & Vi).
  cbn [unwrap_option bind_outcome]. eexists. split; [reflexivity|]. split; [|reflexivity].
  unfold arep. cbn [ax ay ainf]. split; [canon|]. split; [canon|]. rewrite_val. now rewrite Vi.
Qed.

Lemma proj_multiply_rep p P bits : prep p P -> on_curve b P ->
  prep (proj_multiply p bits) (pt_mul P bits) /\ on_curve b (pt_mul P bits).
Proof.
  intros Hp HP. unfold proj_multiply, pt_mul.
  assert (Loop : forall rbits q Q, prep q Q -> on_curve b Q ->
    prep (proj_multiply_loop p rbits q) (pt_mul_loop P rbits Q) /\ on_curve b (pt_mul_loop P rbits Q)).
  { induction rbits as [|c rbits IH]; intros q Q Hq HQ; cbn [proj_multiply_loop pt_mul_loop]; [auto|].
    pose proof (proj_double_rep q Q Hq (on_curve_y Q HQ)) as Hd.
    pose proof (pt_double_closed b Q HQ) as HQd.
    destruct c; apply IH; try assumption.
    - apply proj_add_rep; [assumption..|]. now apply on_curve_y.
    - now apply pt_add_closed. }
  apply Loop; [exact proj_identity_rep | exact I].
Qed.

Lemma affine_multiply_rep p P bits : arep p P -> on_curve b P ->
  exists r, affine_multiply p bits = Ret r /\ arep r (pt_mul P bits).
Proof.
  intros Hp HP. unfold affine_multiply, pt_mul.
  assert (Loop : forall rbits q Q, arep q Q -> on_curve b Q ->
    exists r, affine_multiply_loop p rbits q = Ret r /\ arep r (pt_mul_loop P rbits Q)).
  { induction rbits as [|c rbits IH]; intros q Q Hq HQ; cbn [affine_multiply_loop pt_mul_loop]; [eauto|].
    destruct (affine_double_rep q Q Hq (on_curve_y Q HQ)) as (d & -> & Hd). cbn [bind_outcome].
    pose proof (pt_double_closed b Q HQ) as HQd.
    destruct c; cbn [bind_outcome]; [|now apply IH].
    destruct (affine_add_rep d _ p P Hd Hp (on_curve_y _ HQd)) as (e & -> & He). cbn [bind_outcome].
    apply IH; [exact He | now apply pt_add_closed]. }
  apply Loop; [exact affine_identity_rep | exact I].
Qed.

(** ** Table-driven multiplication *)

(** Entry [offset - 1] of block [i] of the table stands for [T i offset]. *)
Definition table_ok (n : nat) (prep_table : list AffinePoint) (T : nat -> nat -> pt) : Prop :=
  forall i o q, nth_error prep_table (i * (2 ^ n - 1) + o - 1) = Some q -> (0 < o < 2 ^ n)%nat ->
    arep q (T i o) /\ on_curve b (T i o).

Fixpoint table_sum (T : nat -> nat -> pt) (i : nat) (vs : list (list bool)) (acc : pt) : pt :=
  match vs with
  | [] => acc
  | v :: vs => table_sum T (S i) vs (if (0 <? load_le v)%nat then pt_add acc (T i (load_le v)) else acc)
  end.

Lemma load_le_bound v : (load_le v < 2 ^ length v)%nat.
Proof.
  unfold load_le. pose proof (bits_value_bound (rev v)) as B. rewrite length_rev in B.
  apply Nat2Z.inj_lt. rewrite Z2Nat.id, Nat2Z.inj_pow by lia. exact (proj2 B).
Qed.

Lemma load_le_zero v : Forall (fun x => x = false) v -> load_le v = 0%nat.
Proof.
  intros H. unfold load_le. apply Forall_rev in H.
  enough (E : bits_value (rev v) = 0) by now rewrite E.
  assert (R : forall l, Forall (fun x => x = false) l -> bits_value l = 0).
  { intros l Hl. replace l with (repeat false (length l) ++ []).
    - apply bits_value_false.
    - rewrite app_nil_r. induction Hl as [|x l -> _ IH]; cbn [length repeat]; [reflexivity | now rewrite IH]. }
  now apply R.
Qed.

(** Every chunk that is not zero finds its table entry. *)
Lemma add_points_rep n tbl T : table_ok n tbl T ->
  forall vs i acc A, prep acc A -> on_curve b A -> Forall (fun v => (length v <= n)%nat) vs ->
  (forall k v, nth_error vs k = Some v -> (0 < load_le v)%nat ->
     ((i + k) * (2 ^ n - 1) + load_le v - 1 < length tbl)%nat) ->
  exists acc', add_points n i vs tbl acc = Ret acc' /\ prep acc' (table_sum T i vs A) /\
    on_curve b (table_sum T i vs A).
Proof.
  intros HT. induction vs as [|v vs IH]; intros i acc A Ha HA HL HI; cbn [add_points table_sum].
  { eauto. }
  inversion_clear HL as [|? ? Hv HL'].
  assert (HI' : forall k w, nth_error vs k = Some w -> (0 < load_le w)%nat ->
    ((S i + k) * (2 ^ n - 1) + load_le w - 1 < length tbl)%nat).
  { intros k w Hk Hw. specialize (HI (S k) w Hk Hw). now rewrite Nat.add_succ_r in HI. }
  destruct (Nat.ltb_spec 0 (load_le v)) as [Hpos|Hz]; cbn [bind_outcome]; [|now apply IH].
  specialize (HI 0%nat v eq_refl Hpos). rewrite Nat.add_0_r in HI.
  destruct (nth_error tbl (i * (2 ^ n - 1) + load_le v - 1)) as [q|] eqn:Eq;
    [|apply nth_error_None in Eq; lia].
  cbn [unwrap_option bind_outcome].
  assert (Hb : (load_le v < 2 ^ n)%nat).
  { pose proof (load_le_bound v). pose proof (Nat.pow_le_mono_r 2 (length v) n ltac:(lia) Hv). lia. }
  destruct (HT i (load_le v) q Eq (conj Hpos Hb)) as [Hq Hoq].
  apply IH; [|now apply pt_add_closed | assumption | assumption].
  now apply proj_add_affine_rep; [| |apply on_curve_y].
Qed.

(** A finite projective value and an affine value of the same point convert to
    the same coordinates. *)
Lemma reps_agree p a P : prep p P -> arep a P ->
  pinf p = ainf a /\
  (ainf a = false -> exists q, affine_of_proj p = Ret q /\ ax q = ax a /\ ay q = ay a /\ ainf q = false).
Proof.
  intros Pr (Cx & Cy & Er). pose proof Pr as (_ & _ & _ & _ & Ep).
  split; [rewrite Er in Ep; destruct (ainf a), (pinf p); congruence|].
  intros F0. rewrite F0 in Er. rewrite Er in Pr.
  destruct (affine_of_proj_rep _ _ _ Pr) as (q & -> & (Qx & Qy & Eq) & Fq).
  exists q. rewrite Fq in Eq.
  assert (E : val (ax q) = val (ax a) /\ val (ay q) = val (ay a)) by (split; congruence).
  split; [reflexivity|]. split; [|split; [|exact Fq]]; apply val_inj; try assumption; apply E.
Qed.
End Multiplication.
