(* ===== verification/Pedersen.v ===== *)
(** The Pedersen hash and the hash chain built on it (hash/pedersen/{hash,
    chain, gens}.rs).  The lookup tables of hash/pedersen/consts.rs, some 16000
    precomputed points, are arguments; what is used of them is their length and
    that their entries are points of the curve. *)

From Stdlib Require Import String ZArith Lia Bool List Zmod.
From S2P Require Import Prelude Bytes Words Montgomery MontgomeryFacts FieldAlgos MontBytes.
From S2P Require Import NumberTheory Fields Sqrt Felt Curve CurveFacts.
Import ListNotations.
Local Open Scope Z_scope.

(** ** The hash *)

Definition CURVE_CONSTS_BITS : nat := 8.

Record PedersenTables := {
  CURVE_CONSTS_P1 : list AffinePoint;
  CURVE_CONSTS_P2 : list AffinePoint;
  CURVE_CONSTS_P3 : list AffinePoint;
  CURVE_CONSTS_P4 : list AffinePoint
}.

Definition PEDERSEN_P0 : ProjectivePoint :=
  Eval vm_compute in
    MkProj (hex_const "49EE3EBA8C1600700EE1B87EB599F16716B0B1022947733551FDE4050CA6804")
           (hex_const "3CA0CFE4B3BC6DDF346D49D06EA0ED34E621062C0E056C1D0405D266E10268A")
           (@ONE MontFelt) false.

(** [bytes.view_bits::<Lsb0>()] *)
Definition le_bits (bytes : list Z) : list bool := flat_map (fun b => rev (byte_bits b)) bytes.

Definition pedersen_hash (tables : PedersenTables) (a b : Felt) : outcome Felt :=
  let a_bits := le_bits (felt_to_le_bytes a) in
  let b_bits := le_bits (felt_to_le_bytes b) in
  let add_points acc bits prep :=
    @add_points MontFelt CURVE_CONSTS_BITS 0 (chunks (length bits) CURVE_CONSTS_BITS bits) prep acc in
  let acc := PEDERSEN_P0 in
  let! acc := add_points acc (firstn 248 a_bits) (CURVE_CONSTS_P1 tables) in
  let! acc := add_points acc (firstn 4 (skipn 248 a_bits)) (CURVE_CONSTS_P2 tables) in
  let! acc := add_points acc (firstn 248 b_bits) (CURVE_CONSTS_P3 tables) in
  let! acc := add_points acc (firstn 4 (skipn 248 b_bits)) (CURVE_CONSTS_P4 tables) in
  let! result := @affine_of_proj MontFelt acc in
  felt_of_mont (ax result).

(** ** Hash chains *)

Record HashChain := MkChain { chain_hash : Felt; chain_count : Z }.

Definition chain_default : HashChain := MkChain FELT_ZERO 0.

Section Chain.
Context (hash : Felt -> Felt -> outcome Felt).

(** [usize] is 64 bits wide. *)
Definition chain_update (self : HashChain) (value : Felt) : outcome HashChain :=
  let! h := hash (chain_hash self) value in
  let! count := if chain_count self + 1 <? W64 then Ret (chain_count self + 1) else Panic in
  Ret (MkChain h count).

Definition chain_finalize (self : HashChain) : outcome Felt :=
  let! count := unwrap_result (felt_from_be_slice (to_be 8 (chain_count self))) in
  hash (chain_hash self) count.

Definition chain_single (value : Felt) : outcome Felt :=
  let! c := chain_update chain_default value in
  chain_finalize c.

(** A sequence of updates. *)
Fixpoint chain_updates (self : HashChain) (values : list Felt) : outcome HashChain :=
  match values with
  | [] => Ret self
  | v :: values => let! c := chain_update self v in chain_updates c values
  end.

(** ** Correctness of the chain *)

(** The hash function is total on well-formed elements, with [H] its value. *)
Context (H : Felt -> Felt -> Felt).
Hypothesis hash_H : forall a b, felt_ok a -> felt_ok b -> hash a b = Ret (H a b).
Hypothesis H_ok : forall a b, felt_ok a -> felt_ok b -> felt_ok (H a b).

Lemma FELT_ZERO_ok : felt_ok FELT_ZERO.
Proof. repeat split; try reflexivity. apply digits_ok_zeros. lia. Qed.

Lemma chain_updates_spec values h n : felt_ok h -> Forall felt_ok values ->
  0 <= n -> n + Z.of_nat (length values) < W64 ->
  chain_updates (MkChain h n) values
  = Ret (MkChain (fold_left H values h) (n + Z.of_nat (length values))) /\
  felt_ok (fold_left H values h).
Proof.
  intros Hh Hv. revert h n Hh. induction Hv as [|v values Hv _ IH]; intros h n Hh Hn HL.
  - cbn [chain_updates fold_left length] in *. now rewrite Z.add_0_r.
  - cbn [chain_updates length fold_left] in *. unfold chain_update. cbn [chain_hash chain_count].
    rewrite hash_H by assumption. cbn [bind_outcome].
    rewrite (proj2 (Z.ltb_lt (n + 1) W64)) by lia. cbn [bind_outcome].
    destruct (IH (H h v) (n + 1)) as [-> Hf]; [now apply H_ok | lia | lia |].
    split; [|exact Hf]. do 2 f_equal. lia.
Qed.

(** The chain over a list is the left fold from zero, closed with the length. *)
Lemma chain_spec values : Forall felt_ok values -> Z.of_nat (length values) < W64 ->
  exists count, felt_ok count /\ be_value count = Z.of_nat (length values) /\
    (let! c := chain_updates chain_default values in chain_finalize c)
    = Ret (H (fold_left H values FELT_ZERO) count).
Proof.
  intros Hv HL. unfold chain_default.
  destruct (chain_updates_spec values FELT_ZERO 0 FELT_ZERO_ok Hv) as [-> Hf]; [lia | lia |].
  cbn [bind_outcome]. unfold chain_finalize. cbn [chain_hash chain_count].
  destruct (from_uint_spec 8 (0 + Z.of_nat (length values))) as (c & -> & Hc & V); [lia | |].
  { change (256 ^ Z.of_nat 8) with W64. lia. }
  exists c. split; [exact Hc|]. split; [lia|]. cbn [bind_outcome]. now apply hash_H.
Qed.
End Chain.

(** ** Correctness of the hash *)

#[local] Existing Instance MontFelt.

(** The curve's constant as a field element. *)
Definition curve_b : Zmod modulus := val CURVE_B.

Definition proj_pt (p : ProjectivePoint) : pt :=
  if pinf p then None
  else Some ((val (px p) * Zmod.inv (val (pz p)))%Zmod, (val (py p) * Zmod.inv (val (pz p)))%Zmod).

Lemma le_bits_rev bytes : le_bits (rev bytes) = rev (bits_of_bytes bytes).
Proof.
  induction bytes as [|b l IH]; [reflexivity|].
  cbn [rev]. unfold le_bits in *. rewrite flat_map_app, IH. cbn [flat_map].
  unfold bits_of_bytes. cbn [flat_map]. rewrite rev_app_distr. now rewrite app_nil_r.
Qed.

Lemma chunks_length fuel n bits : (0 < n)%nat -> (length bits <= fuel)%nat ->
  length (chunks fuel n bits) = ((length bits + (n - 1)) / n)%nat.
Proof.
  intros Hn. revert bits. induction fuel as [|fuel IH]; intros bits HL; cbn [chunks].
  - destruct bits; [|cbn in HL; lia]. cbn [length Nat.add]. rewrite Nat.div_small; [reflexivity | lia].
  - destruct bits as [|b bits]; [cbn [length Nat.add]; rewrite Nat.div_small; [reflexivity | lia]|].
    cbn [length]. rewrite IH by (rewrite length_skipn; cbn [length] in *; lia).
    rewrite length_skipn. cbn [length]. destruct (Nat.le_gt_cases n (S (length bits))).
    + replace (S (length bits) + (n - 1))%nat with (S (length bits) - n + (n - 1) + 1 * n)%nat by lia.
      rewrite Nat.div_add by lia. lia.
    + replace (S (length bits) - n)%nat with 0%nat by lia. cbn [Nat.add].
      rewrite (Nat.div_small (n - 1)) by lia.
      apply Nat.div_unique with (length bits); lia.
Qed.

Lemma chunks_bound fuel n bits : Forall (fun v => (length v <= n)%nat) (chunks fuel n bits).
Proof.
  revert bits. induction fuel as [|fuel IH]; intros bits; cbn [chunks]; [constructor|].
  destruct bits; [constructor|]. constructor; [rewrite length_firstn; lia | apply IH].
Qed.

(** The chunks address a table of whole blocks, or of one shorter block,
    without running past it. *)
Lemma chunk_index n bits (tbl : list AffinePoint) k v : (0 < n)%nat ->
  length tbl = ((length bits + (n - 1)) / n * (2 ^ n - 1))%nat \/
  ((length bits <= n)%nat /\ length tbl = (2 ^ length bits - 1)%nat) ->
  nth_error (chunks (length bits) n bits) k = Some v -> (0 < load_le v)%nat ->
  ((0 + k) * (2 ^ n - 1) + load_le v - 1 < length tbl)%nat.
Proof.
  intros Hn HL Hk Hpos.
  assert (Hlt : (k < length (chunks (length bits) n bits))%nat) by (apply nth_error_Some; congruence).
  rewrite chunks_length in Hlt by lia. destruct HL as [HL|[Hs HL]].
  - assert (Hv : (length v <= n)%nat).
    { pose proof (chunks_bound (length bits) n bits) as B. rewrite Forall_forall in B.
      apply B. eapply nth_error_In, Hk. }
    pose proof (load_le_bound v). pose proof (Nat.pow_le_mono_r 2 (length v) n ltac:(lia) Hv).
    rewrite HL. nia.
  - destruct bits as [|b bits]; [destruct k; discriminate Hk|]. cbn [length] in *.
    assert (k = 0%nat).
    { assert (((S (length bits) + (n - 1)) / n <= 1)%nat); [|lia].
      apply Nat.lt_succ_r, Nat.Div0.div_lt_upper_bound. lia. }
    subst k. cbn [chunks nth_error] in Hk. injection Hk as <-.
    pose proof (load_le_bound (firstn n (b :: bits))) as B.
    rewrite length_firstn in B. cbn [length] in B. rewrite Nat.min_r in B by lia. lia.
Qed.

(** The tables as the crate has them: their lengths, and entries that are
    canonical points of the curve. *)
Definition entry_ok (q : AffinePoint) : Prop :=
  canonical (ax q) /\ canonical (ay q) /\ on_curve curve_b (Some (val (ax q), val (ay q))) /\
  ainf q = false.

Record tables_ok (t : PedersenTables) : Prop := {
  p1_len : length (CURVE_CONSTS_P1 t) = (31 * 255)%nat;
  p2_len : length (CURVE_CONSTS_P2 t) = 15%nat;
  p3_len : length (CURVE_CONSTS_P3 t) = (31 * 255)%nat;
  p4_len : length (CURVE_CONSTS_P4 t) = 15%nat;
  p1_ok : Forall entry_ok (CURVE_CONSTS_P1 t);
  p2_ok : Forall entry_ok (CURVE_CONSTS_P2 t);
  p3_ok : Forall entry_ok (CURVE_CONSTS_P3 t);
  p4_ok : Forall entry_ok (CURVE_CONSTS_P4 t)
}.

(** The point of a table entry. *)
Definition table_pt (n : nat) (tbl : list AffinePoint) (i o : nat) : pt :=
  match nth_error tbl (i * (2 ^ n - 1) + o - 1) with
  | Some q => Some (val (ax q), val (ay q))
  | None => None
  end.

Lemma table_pt_ok n tbl : Forall entry_ok tbl -> table_ok curve_b n tbl (table_pt n tbl).
Proof.
  intros H i o q Hq _. unfold table_pt. rewrite Hq.
  rewrite Forall_forall in H. destruct (H q (nth_error_In _ _ Hq)) as (Hx & Hy & Ho & Hi).
  split; [|exact Ho]. split; [exact Hx | split; [exact Hy | now rewrite Hi]].
Qed.

(** The sum a block of bits contributes. *)
Definition block_sum (tbl : list AffinePoint) (bits : list bool) (A : pt) : pt :=
  table_sum (table_pt CURVE_CONSTS_BITS tbl) 0 (chunks (length bits) CURVE_CONSTS_BITS bits) A.

Lemma curve_b_val : curve_b = Zmod.of_Z field_prime curve_b_int.
Proof.
  unfold curve_b. apply val_unique, Zmod.unsigned_inj. vm_compute. reflexivity.
Qed.

Lemma curve_no_order_two (x : Zmod modulus) : (x * x * x + x + curve_b)%Zmod <> Zmod.zero.
Proof. rewrite curve_b_val. exact (no_root x). Qed.

Lemma add_points_block tbl bits acc A : Forall entry_ok tbl ->
  length tbl = ((length bits + 7) / 8 * 255)%nat \/
  ((length bits <= 8)%nat /\ length tbl = (2 ^ length bits - 1)%nat) ->
  prep acc A -> on_curve curve_b A ->
  exists acc', add_points CURVE_CONSTS_BITS 0 (chunks (length bits) CURVE_CONSTS_BITS bits) tbl acc
    = Ret acc' /\ prep acc' (block_sum tbl bits A) /\ on_curve curve_b (block_sum tbl bits A).
Proof.
  intros Ht HL Ha HA.
  apply (add_points_rep curve_b curve_no_order_two CURVE_CONSTS_BITS tbl _ (table_pt_ok _ _ Ht));
    [assumption | assumption | apply chunks_bound |].
  intros k v. now apply chunk_index; [unfold CURVE_CONSTS_BITS; lia|].
Qed.

(** The point of the hash: [P0] plus the four blocks. *)
Definition pedersen_point (t : PedersenTables) (a b : Felt) : pt :=
  let a_bits := le_bits (felt_to_le_bytes a) in
  let b_bits := le_bits (felt_to_le_bytes b) in
  block_sum (CURVE_CONSTS_P4 t) (firstn 4 (skipn 248 b_bits))
    (block_sum (CURVE_CONSTS_P3 t) (firstn 248 b_bits)
      (block_sum (CURVE_CONSTS_P2 t) (firstn 4 (skipn 248 a_bits))
        (block_sum (CURVE_CONSTS_P1 t) (firstn 248 a_bits) (proj_pt PEDERSEN_P0)))).

(** The curve equation checked on the Montgomery representations. *)
Definition curve_eqn (x : limbs) : limbs := add (add (mul (square x) x) (mul CURVE_A x)) CURVE_B.

Lemma CURVE_B_canonical : canonical CURVE_B.
Proof. repeat split; try reflexivity; discriminate. Qed.

Lemma curve_eqn_val x : canonical x ->
  canonical (curve_eqn x) /\ val (curve_eqn x) = (val x * val x * val x + val x + curve_b)%Zmod.
Proof.
  intros Hx. change CURVE_A with (@ONE MontFelt) in *. pose proof CURVE_B_canonical.
  unfold curve_eqn. change CURVE_A with (@ONE MontFelt). split; [canon|]. rewrite_val.
  now rewrite Zmod.mul_1_l.
Qed.

Lemma on_curve_check x y : canonical x -> canonical y -> square y = curve_eqn x ->
  on_curve curve_b (Some (val x, val y)).
Proof.
  intros Hx Hy E. unfold on_curve. destruct (curve_eqn_val x Hx) as [_ <-].
  rewrite <- E. now rewrite val_square.
Qed.

Lemma proj_one_rep x y : canonical x -> canonical y ->
  prep (MkProj x y ONE false) (Some (val x, val y)).
Proof.
  intros Hx Hy. apply (proj_of_affine_rep (MkAffine x y false)).
  split; [exact Hx | split; [exact Hy | reflexivity]].
Qed.

Lemma prep_proj_pt p Q : prep p Q -> proj_pt p = Q.
Proof. intros (_ & _ & _ & _ & ->). reflexivity. Qed.

Lemma PEDERSEN_P0_ok : prep PEDERSEN_P0 (proj_pt PEDERSEN_P0) /\ on_curve curve_b (proj_pt PEDERSEN_P0).
Proof.
  assert (Hx : canonical (px PEDERSEN_P0)) by (repeat split; try reflexivity; discriminate).
  assert (Hy : canonical (py PEDERSEN_P0)) by (repeat split; try reflexivity; discriminate).
  pose proof (proj_one_rep _ _ Hx Hy) as Hp.
  change (MkProj (px PEDERSEN_P0) (py PEDERSEN_P0) ONE false) with PEDERSEN_P0 in Hp.
  rewrite (prep_proj_pt _ _ Hp). split; [exact Hp|].
  apply on_curve_check; [exact Hx | exact Hy | vm_compute; reflexivity].
Qed.

Lemma felt_bits_length f : felt_ok f -> length (le_bits (felt_to_le_bytes f)) = 256%nat.
Proof. intros Hf. unfold felt_to_le_bytes. rewrite le_bits_rev, length_rev. now apply bits_length. Qed.

(** The hash never panics, and is the abscissa of the sum of the blocks. *)
Lemma pedersen_hash_spec t a b : tables_ok t -> felt_ok a -> felt_ok b ->
  exists f, pedersen_hash t a b = Ret f /\ felt_ok f /\
    match pedersen_point t a b with
    | Some (x, _) => be_value f = Zmod.unsigned x
    | None => True
    end.
Proof.
  intros Ht Ha Hb. unfold pedersen_hash, pedersen_point. cbv zeta.
  pose proof (felt_bits_length a Ha) as La. pose proof (felt_bits_length b Hb) as Lb.
  set (abits := le_bits (felt_to_le_bytes a)) in *. set (bbits := le_bits (felt_to_le_bytes b)) in *.
  destruct PEDERSEN_P0_ok as [H0 O0].
  assert (L248 : forall l : list bool, length l = 256%nat -> length (firstn 248 l) = 248%nat)
    by (intros; rewrite length_firstn; lia).
  assert (L4 : forall l : list bool, length l = 256%nat -> length (firstn 4 (skipn 248 l)) = 4%nat)
    by (intros; rewrite length_firstn, length_skipn; lia).
  assert (B248 : forall (tbl : list AffinePoint) l, length tbl = (31 * 255)%nat -> length l = 256%nat ->
    length tbl = ((length (firstn 248 l : list bool) + 7) / 8 * 255)%nat)
    by (intros tbl l -> E; now rewrite L248).
  assert (B4 : forall (tbl : list AffinePoint) l, length tbl = 15%nat -> length l = 256%nat ->
    (length (firstn 4 (skipn 248 l) : list bool) <= 8)%nat /\
    length tbl = (2 ^ length (firstn 4 (skipn 248 l)) - 1)%nat)
    by (intros tbl l -> E; rewrite L4 by exact E; split; [lia | reflexivity]).
  destruct (add_points_block _ _ _ _ (p1_ok t Ht) (or_introl (B248 _ _ (p1_len t Ht) La)) H0 O0)
    as (a1 & E1 & H1 & O1).
  destruct (add_points_block _ _ _ _ (p2_ok t Ht) (or_intror (B4 _ _ (p2_len t Ht) La)) H1 O1)
    as (a2 & E2 & H2 & O2).
  destruct (add_points_block _ _ _ _ (p3_ok t Ht) (or_introl (B248 _ _ (p3_len t Ht) Lb)) H2 O2)
    as (a3 & E3 & H3 & O3).
  destruct (add_points_block _ _ _ _ (p4_ok t Ht) (or_intror (B4 _ _ (p4_len t Ht) Lb)) H3 O3)
    as (a4 & E4 & H4 & O4).
  rewrite E1. cbn [bind_outcome]. rewrite E2. cbn [bind_outcome]. rewrite E3. cbn [bind_outcome]. rewrite E4.
  cbn [bind_outcome]. destruct H4 as (Cx & Cy & Cz & Nz & EQ). unfold affine_of_proj.
  destruct (inverse_val (pz a4) Cz Nz) as (i & -> & Ci & Vi). cbn [unwrap_option bind_outcome ax].
  destruct (felt_of_mont_spec (mul (px a4) i)) as (f & -> & Hf & Vf); [apply canonical_mul; assumption|].
  exists f. split; [reflexivity|]. split; [exact Hf|]. rewrite EQ. destruct (pinf a4); [exact I|].
  rewrite Vf, val_mul, Vi by assumption. reflexivity.
Qed.
