(* ===== verification/Ecdsa.v ===== *)
(** ECDSA over the Stark curve (signature/ecdsa.rs) and the conversions into
    the field of scalars it uses (curveorder/convert.rs).  The table of
    multiples of the generator (algebra/curve/consts.rs) is an argument. *)

From Stdlib Require Import String ZArith Lia Bool List Zmod Field.
From S2P Require Import Prelude Bytes Words Montgomery MontgomeryFacts FieldAlgos MontBytes NumberTheory Fields.
From S2P Require Import CurveOrder Sqrt Felt Curve CurveFacts Pedersen.
Import ListNotations.
Local Open Scope Z_scope.

(** ** Conversions *)

(** [value < CURVE_ORDER] is the derived comparison of native values. *)
Definition mont_lt (a b : limbs) : bool :=
  match @const_cmp_native MontFelt a b with Lt => true | _ => false end.

Definition mont_geq (a b : limbs) : bool :=
  match @const_cmp_native MontFelt a b with Lt => false | _ => true end.

Definition try_from_mont (value : limbs) : result unit limbs :=
  if mont_lt value CURVE_ORDER then
    let bytes := @to_be_bytes MontFelt value in
    Ok (CurveOrder.from_be_bytes bytes)
  else Err tt.

Definition try_from_felt (value : Felt) : result unit limbs :=
  let montvalue := mont_of_felt value in
  if mont_lt montvalue CURVE_ORDER then Ok (CurveOrder.from_be_bytes (felt_to_be_bytes value))
  else Err tt.

(** ** Signatures *)

Definition UPPER_BOUND : limbs :=
  Limbs 18446743986131435553 160989183 18446744073709255680 576459263475450960.

Inductive SignatureError : Type := Signature | Randomness | Message | SecretKey | PublicKey.

Section Table.
Context (G_CONSTS : list AffinePoint).

Definition G_CONSTS_BITS : nat := 4.

Definition get_pk (sk : Felt) : outcome (option Felt) :=
  match try_from_felt sk with
  | Err _ => Ret None
  | Ok sk =>
      let! p := gen_multiply_elm G_CONSTS_BITS G_CONSTS sk in
      let! ap := @affine_of_proj MontFelt p in
      let! f := felt_of_mont (ax ap) in
      Ret (Some f)
  end.

Definition ecdsa_sign_k (sk z k : Felt) : outcome (result SignatureError (Felt * Felt)) :=
  match try_from_felt sk with
  | Err _ => Ret (Err SecretKey)
  | Ok sk =>
  match try_from_felt z with
  | Err _ => Ret (Err Message)
  | Ok z =>
  match try_from_felt k with
  | Err _ => Ret (Err Randomness)
  | Ok k =>
  if limbs_eqb k ZERO then Ret (Err Randomness)
  else
    let! p := affine_gen_multiply_elm G_CONSTS_BITS G_CONSTS k in
    let x := ax p in
    if mont_geq x UPPER_BOUND then Ret (Err Randomness)
    else
      let! r := unwrap_result (try_from_mont x) in
      let! kinv := unwrap_option (CurveOrder.inverse k) in
      let s := CurveOrder.const_mul kinv
                 (CurveOrder.const_add z (CurveOrder.const_mul r sk)) in
      let! r := felt_of_curve_order r in
      let! s := felt_of_curve_order s in
      Ret (Ok (r, s))
  end end end.

(** The loop over random [k], with a bound on the number of draws; [ks] are
    the values of [Felt::random]. *)
Fixpoint ecdsa_sign (sk z : Felt) (ks : list Felt) : option (outcome (result SignatureError (Felt * Felt))) :=
  match ks with
  | [] => None
  | k :: ks =>
      match ecdsa_sign_k sk z k with
      | Ret (Err Randomness) => ecdsa_sign sk z ks
      | r => Some r
      end
  end.
End Table.

Definition get_pk_point (pk : limbs) : option AffinePoint :=
  match from_x pk with
  | Some p => if negb (ainf p) then Some p else None
  | None => None
  end.

Definition ecdsa_verify_inner (pk : ProjectivePoint) (z r s : Felt)
    : outcome (result SignatureError unit) :=
  let f_z := mont_of_felt z in
  let f_r := mont_of_felt r in
  let f_s := mont_of_felt s in
  let! cf_z := unwrap_result (try_from_mont f_z) in
  let! cf_r := unwrap_result (try_from_mont f_r) in
  let! cf_s := unwrap_result (try_from_mont f_s) in
  if mont_geq f_z UPPER_BOUND then Ret (Err Message)
  else if limbs_eqb f_r ZERO || mont_geq f_r UPPER_BOUND then Ret (Err Signature)
  else if limbs_eqb f_s ZERO || mont_geq f_s UPPER_BOUND then Ret (Err Signature)
  else
    let! cf_s := unwrap_option (CurveOrder.inverse cf_s) in
    let u1 := CurveOrder.const_mul cf_z cf_s in
    let u2 := CurveOrder.const_mul cf_r cf_s in
    let u1g := proj_multiply_elm CURVE_G u1 in
    let u2pk := proj_multiply_elm pk u2 in
    let! r1 := @affine_of_proj MontFelt (@proj_add MontFelt u1g u2pk) in
    let minus_u2pk := @proj_negate MontFelt u2pk in
    let! r2 := @affine_of_proj MontFelt (@proj_add MontFelt u1g minus_u2pk) in
    if limbs_eqb (ax r1) f_r || limbs_eqb (ax r2) f_r then Ret (Ok tt) else Ret (Err Signature).

Definition ecdsa_verify_partial (pk z r s : Felt) : outcome (result SignatureError unit) :=
  match get_pk_point (mont_of_felt pk) with
  | None => Ret (Err PublicKey)
  | Some pk_point => ecdsa_verify_inner (@proj_of_affine MontFelt pk_point) z r s
  end.

Definition ecdsa_verify (pk : AffinePoint) (z r s : Felt) : outcome (result SignatureError unit) :=
  match get_pk_point (ax pk) with
  | None => Ret (Err PublicKey)
  | Some pk_point =>
      if negb (limbs_eqb (ay pk_point) (ay pk)) then Ret (Err PublicKey)
      else ecdsa_verify_inner (@proj_of_affine MontFelt pk_point) z r s
  end.

(** * Correctness of the ECDSA code: which inputs are rejected, which panic, and
    what an accepted signature means in terms of the group law. *)

#[local] Opaque add sub mul square double negate TWO THREE inverse.
#[local] Existing Instance MontFelt.

#[local] Abbreviation Fn := (Zmod (@modulus CurveOrderMontFelt)).

(** ** Comparisons and conversions *)

Lemma mont_lt_spec a b : limbs_ok a -> limbs_ok b ->
  mont_lt a b = (Zmod.unsigned (val a) <? Zmod.unsigned (val b)).
Proof.
  intros Ha Hb. unfold mont_lt. rewrite const_cmp_native_spec by assumption.
  unfold Z.ltb. now destruct (_ ?= _).
Qed.

Lemma mont_geq_spec a b : limbs_ok a -> limbs_ok b ->
  mont_geq a b = (Zmod.unsigned (val b) <=? Zmod.unsigned (val a)).
Proof.
  intros Ha Hb. unfold mont_geq. rewrite const_cmp_native_spec by assumption.
  rewrite Z.leb_antisym. unfold Z.ltb. now destruct (_ ?= _).
Qed.

(** The native value of a constant given by its limbs. *)
Lemma const_value x v : 0 <= v < modulus ->
  (v * W256) mod modulus = eval x mod modulus -> Zmod.unsigned (val x) = v.
Proof.
  intros Hv E. rewrite (val_unique x (Zmod.of_Z modulus v)).
  - rewrite Zmod.unsigned_of_Z. now apply Z.mod_small.
  - rewrite <- Zmod.of_Z_mul. now apply cls_eq.
Qed.

Lemma CURVE_ORDER_value : limbs_ok CURVE_ORDER /\ Zmod.unsigned (val CURVE_ORDER) = curve_order.
Proof.
  split; [repeat split; try reflexivity; discriminate|].
  apply const_value; [split; [discriminate | reflexivity] | vm_compute; reflexivity].
Qed.

Lemma UPPER_BOUND_value : limbs_ok UPPER_BOUND /\ Zmod.unsigned (val UPPER_BOUND) = 2 ^ 251.
Proof.
  split; [repeat split; try reflexivity; discriminate|].
  apply const_value; [split; [discriminate | reflexivity] | vm_compute; reflexivity].
Qed.

Lemma felt_value f : felt_ok f -> canonical (mont_of_felt f) /\
  Zmod.unsigned (val (mont_of_felt f)) = be_value f.
Proof.
  intros Hf. destruct (mont_of_felt_val f Hf) as [Hc V]. split; [exact Hc|].
  rewrite V, Zmod.unsigned_of_Z. apply Z.mod_small. destruct Hf as (Hb & _ & Hlt).
  pose proof (digits_value_bound 256 f ltac:(lia) Hb). pose proof modulus_MontFelt. lia.
Qed.

Lemma felt_nonneg f : felt_ok f -> 0 <= be_value f.
Proof. intros (Hb & _). now apply (digits_value_bound 256 f). Qed.

Lemma try_from_mont_spec x : canonical x ->
  if Zmod.unsigned (val x) <? curve_order then
    exists y, try_from_mont x = Ok y /\ @canonical CurveOrderMontFelt y /\
      @val CurveOrderMontFelt y = Zmod.of_Z _ (Zmod.unsigned (val x))
  else try_from_mont x = Err tt.
Proof.
  intros Hx. unfold try_from_mont. destruct CURVE_ORDER_value as [Hok Hv].
  rewrite mont_lt_spec, Hv by (exact Hok || apply Hx).
  destruct (Zmod.unsigned (val x) <? curve_order); [|reflexivity].
  destruct (to_be_bytes_spec x (proj1 Hx)) as (B & L & V). cbv zeta.
  destruct (from_be_bytes_val (F := CurveOrderMontFelt) _ B L) as [Hc W].
  eexists. split; [reflexivity|]. split; [exact Hc|]. unfold CurveOrder.from_be_bytes. now rewrite W, V.
Qed.

(** A scalar read from a field element. *)
Definition scalar_of (f : Felt) : Fn := Zmod.of_Z _ (be_value f).

Lemma try_from_mont_felt f : felt_ok f -> be_value f < curve_order ->
  exists y, try_from_mont (mont_of_felt f) = Ok y /\ @canonical CurveOrderMontFelt y /\
    @val CurveOrderMontFelt y = scalar_of f.
Proof.
  intros Hf Hlt. destruct (felt_value f Hf) as [Hc V].
  pose proof (try_from_mont_spec _ Hc) as S. rewrite V in S.
  now rewrite (proj2 (Z.ltb_lt _ _) Hlt) in S.
Qed.

Lemma try_from_mont_felt_err f : felt_ok f -> curve_order <= be_value f ->
  try_from_mont (mont_of_felt f) = Err tt.
Proof.
  intros Hf Hge. destruct (felt_value f Hf) as [Hc V].
  pose proof (try_from_mont_spec _ Hc) as S. rewrite V in S.
  now rewrite (proj2 (Z.ltb_ge _ _) Hge) in S.
Qed.

Lemma try_from_felt_eq f : felt_ok f -> try_from_felt f = try_from_mont (mont_of_felt f).
Proof.
  intros Hf. unfold try_from_felt, try_from_mont. cbv zeta.
  destruct (mont_lt (mont_of_felt f) CURVE_ORDER); [|reflexivity]. f_equal. f_equal.
  pose proof (mont_felt_roundtrip f Hf) as R. unfold felt_of_mont in R. cbv zeta in R.
  destruct (felt_value f Hf) as [Hc _].
  destruct (to_be_bytes_spec (mont_of_felt f) (proj1 Hc)) as (B & L & _).
  rewrite felt_from_be_bytes_spec in R by assumption.
  destruct (_ <? _); [|discriminate]. now injection R as ->.
Qed.

Lemma order_between : 2 ^ 251 < curve_order < field_prime.
Proof. split; reflexivity. Qed.

(** ** Verification: rejected and panicking inputs *)

(** A value between the group order and the field prime makes the unchecked
    conversion panic. *)
Lemma verify_inner_panics pk z r s : felt_ok z -> felt_ok r -> felt_ok s ->
  curve_order <= be_value z \/ curve_order <= be_value r \/ curve_order <= be_value s ->
  ecdsa_verify_inner pk z r s = Panic.
Proof.
  intros Hz Hr Hs H. unfold ecdsa_verify_inner. cbv zeta.
  destruct (Z.lt_ge_cases (be_value z) curve_order) as [Lz|Gz];
    [|now rewrite (try_from_mont_felt_err z)].
  destruct (try_from_mont_felt z Hz Lz) as (cz & -> & _).
  cbn [unwrap_result bind_outcome].
  destruct (Z.lt_ge_cases (be_value r) curve_order) as [Lr|Gr];
    [|now rewrite (try_from_mont_felt_err r)].
  destruct (try_from_mont_felt r Hr Lr) as (cr & -> & _). cbn [unwrap_result bind_outcome].
  rewrite (try_from_mont_felt_err s); [reflexivity | exact Hs | lia].
Qed.

Lemma geq_bound f : felt_ok f -> mont_geq (mont_of_felt f) UPPER_BOUND = (2 ^ 251 <=? be_value f).
Proof.
  intros Hf. destruct (felt_value f Hf) as [Hc V]. destruct UPPER_BOUND_value as [Hu Vu].
  now rewrite mont_geq_spec, V, Vu by (exact Hu || apply Hc).
Qed.

Lemma eqb_zero f : felt_ok f -> limbs_eqb (mont_of_felt f) ZERO = (be_value f =? 0).
Proof.
  intros Hf. destruct (felt_value f Hf) as [Hc V].
  destruct (limbs_eqb_val (mont_of_felt f) ZERO Hc canonical_ZERO) as [E|N];
    rewrite val_ZERO in *; destruct (Z.eqb_spec (be_value f) 0) as [E0|N0]; try reflexivity; exfalso.
  - apply N0. now rewrite <- V, E, Zmod.unsigned_0.
  - apply N. apply Zmod.unsigned_inj. now rewrite V, Zmod.unsigned_0.
Qed.

(** Below the group order the bounds are checked in this order. *)
Lemma verify_inner_bounds pk z r s : felt_ok z -> felt_ok r -> felt_ok s ->
  be_value z < curve_order -> be_value r < curve_order -> be_value s < curve_order ->
  (2 ^ 251 <= be_value z -> ecdsa_verify_inner pk z r s = Ret (Err Message)) /\
  (be_value z < 2 ^ 251 ->
   be_value r = 0 \/ 2 ^ 251 <= be_value r \/ be_value s = 0 \/ 2 ^ 251 <= be_value s ->
   ecdsa_verify_inner pk z r s = Ret (Err Signature)).
Proof.
  intros Hz Hr Hs Lz Lr Ls. unfold ecdsa_verify_inner. cbv zeta.
  destruct (try_from_mont_felt z Hz Lz) as (cz & -> & _).
  destruct (try_from_mont_felt r Hr Lr) as (cr & -> & _).
  destruct (try_from_mont_felt s Hs Ls) as (cs & -> & _). cbn [unwrap_result bind_outcome].
  rewrite !geq_bound, !eqb_zero by assumption. split.
  - intros G. now rewrite (proj2 (Z.leb_le _ _) G).
  - intros Lt H. rewrite (proj2 (Z.leb_gt _ _) Lt).
    destruct (Z.eqb_spec (be_value r) 0); [reflexivity|]. cbn [orb].
    destruct (Z.leb_spec (2 ^ 251) (be_value r)); [reflexivity|].
    destruct (Z.eqb_spec (be_value s) 0); [reflexivity|]. cbn [orb].
    destruct (Z.leb_spec (2 ^ 251) (be_value s)); [reflexivity | lia].
Qed.

(** ** Decompression *)

Lemma from_x_curve_eqn x :
  from_x x = match sqrt (curve_eqn x) with Some y => Some (MkAffine x y false) | None => None end.
Proof. reflexivity. Qed.

(** [from_x] returns a point of the curve with the given abscissa, or nothing
    if there is none. *)
Lemma from_x_spec x : canonical x ->
  match from_x x with
  | Some p => ax p = x /\ canonical (ay p) /\ ainf p = false /\
              on_curve curve_b (Some (val x, val (ay p)))
  | None => forall y, ~ on_curve curve_b (Some (val x, y))
  end.
Proof.
  intros Hx. rewrite from_x_curve_eqn. destruct (curve_eqn_val x Hx) as [Hc V].
  pose proof (sqrt_correct (curve_eqn x) Hc) as S. destruct (sqrt (curve_eqn x)) as [y|]; cbn in S.
  - destruct S as [Hy E]. cbn [ax ay ainf]. repeat (split; [assumption || reflexivity|]).
    unfold on_curve. now rewrite E, V.
  - intros y E. apply (S y). rewrite V. exact E.
Qed.

Lemma get_pk_point_from_x x : canonical x -> get_pk_point x = from_x x.
Proof.
  intros Hx. unfold get_pk_point. pose proof (from_x_spec x Hx) as S.
  destruct (from_x x) as [p|]; [|reflexivity]. destruct S as (_ & _ & -> & _). reflexivity.
Qed.

(** Of the two points with the abscissa of a full public key, [ecdsa_verify]
    accepts only the one decompression returns. *)
Lemma ecdsa_verify_other_root pk z r s p : canonical (ax pk) -> from_x (ax pk) = Some p ->
  ay p <> ay pk -> ecdsa_verify pk z r s = Ret (Err PublicKey).
Proof.
  intros Hx E N. unfold ecdsa_verify. rewrite get_pk_point_from_x, E by exact Hx.
  destruct (limbs_eqb_spec (ay p) (ay pk)); [contradiction | reflexivity].
Qed.

(** ** Verification: the equation *)

(** The bits of a scalar, least significant first. *)
Definition scalar_bits (u : Fn) : list bool :=
  map (fun i => Z.testbit (Zmod.unsigned u) (Z.of_nat i)) (seq 0 256).

Definition G_pt : pt := proj_pt CURVE_G.

Lemma CURVE_G_ok : prep CURVE_G G_pt /\ on_curve curve_b G_pt.
Proof.
  assert (Hx : canonical (px CURVE_G)) by (repeat split; try reflexivity; discriminate).
  assert (Hy : canonical (py CURVE_G)) by (repeat split; try reflexivity; discriminate).
  pose proof (proj_one_rep _ _ Hx Hy) as Hp.
  change (MkProj (px CURVE_G) (py CURVE_G) ONE false) with CURVE_G in Hp.
  unfold G_pt. rewrite (prep_proj_pt _ _ Hp). split; [exact Hp|].
  apply on_curve_check; [exact Hx | exact Hy | vm_compute; reflexivity].
Qed.

Lemma proj_negate_rep p Q : prep p Q -> prep (proj_negate p) (pt_neg Q).
Proof.
  intros (Hx & Hy & Hz & Nz & ->). unfold prep, proj_negate. cbn [px py pz pinf].
  do 3 (split; [canon|]). split; [exact Nz|]. destruct (pinf p); [reflexivity|]. cbn [pt_neg].
  rewrite_val. now rewrite Zmod.mul_opp_l.
Qed.

Lemma pt_neg_closed (b : Zmod modulus) Q : on_curve b Q -> on_curve b (pt_neg Q).
Proof. destruct Q as [[x y]|]; [|easy]. cbn. intros <-. now rewrite Zmod.mul_opp_opp. Qed.

Lemma multiply_elm_rep p Q u : prep p Q -> on_curve curve_b Q -> @limbs_ok u ->
  prep (proj_multiply_elm p u) (pt_mul Q (scalar_bits (@val CurveOrderMontFelt u))) /\
  on_curve curve_b (pt_mul Q (scalar_bits (@val CurveOrderMontFelt u))).
Proof.
  intros Hp HQ Hu. unfold proj_multiply_elm. rewrite CurveOrder.order_into_le_bits_spec by exact Hu.
  exact (proj_multiply_rep curve_b curve_no_order_two p Q _ Hp HQ).
Qed.

(** The coordinates of a value that is a finite point; the code reads the same
    fields of a value flagged as infinity. *)
Lemma affine_of_proj_total p Q : prep p Q ->
  exists q, affine_of_proj p = Ret q /\ canonical (ax q) /\
    match Q with Some (x, y) => val (ax q) = x | None => True end.
Proof.
  intros (Hx & Hy & Hz & Nz & ->). unfold affine_of_proj.
  destruct (inverse_val (pz p) Hz Nz) as (i & -> & Hi & Vi). cbn [unwrap_option bind_outcome].
  eexists. split; [reflexivity|]. cbn [ax]. split; [canon|]. destruct (pinf p); [exact I|].
  rewrite_val. now rewrite Vi.
Qed.

Lemma eqb_felt a x r : canonical a -> felt_ok r -> val a = x ->
  limbs_eqb a (mont_of_felt r) = Zmod.eqb x (Zmod.of_Z modulus (be_value r)).
Proof.
  intros Ha Hr <-. destruct (mont_of_felt_val r Hr) as [Hc <-].
  destruct (limbs_eqb_val a (mont_of_felt r) Ha Hc), (Zmod.eqb_spec (val a) (val (mont_of_felt r)));
    congruence.
Qed.

Lemma scalar_nz f : felt_ok f -> 0 < be_value f < curve_order -> scalar_of f <> Zmod.zero.
Proof.
  intros Hf H E. apply (f_equal Zmod.unsigned) in E. unfold scalar_of in E.
  rewrite Zmod.unsigned_of_Z, Zmod.unsigned_0, Z.mod_small in E; [lia|].
  pose proof modulus_CurveOrder. lia.
Qed.

(** The abscissa verification reads for a sum [A + B].  The conversion to an
    affine point ignores the flag for infinity, and an addition that cancels
    leaves the coordinates of its first operand in place. *)
Definition read_abscissa (A B : pt) : Zmod modulus :=
  match pt_add A B, A with
  | Some (x, _), _ | None, Some (x, _) => x
  | None, None => Zmod.zero
  end.

Lemma read_abscissa_finite A B x y : pt_add A B = Some (x, y) -> read_abscissa A B = x.
Proof. unfold read_abscissa. now intros ->. Qed.

(** An addition whose result is flagged as infinity keeps its first operand. *)
Lemma proj_add_cancels P P' : pinf P = false -> pinf (proj_add P P') = true ->
  px (proj_add P P') = px P /\ pz (proj_add P P') = pz P.
Proof.
  intros HP. unfold proj_add, proj_double. cbv zeta. destruct (pinf P'); [easy|]. rewrite HP.
  destruct (limbs_eqb _ _); [destruct (limbs_eqb _ _)|]; cbn [negb px pz pinf]; congruence || easy.
Qed.

Lemma affine_of_sum P A P' B : prep P A -> prep P' B -> on_curve curve_b A ->
  exists q, affine_of_proj (proj_add P P') = Ret q /\ canonical (ax q) /\
    ((A = None -> B = None -> val (px P) = Zmod.zero) -> val (ax q) = read_abscissa A B).
Proof.
  intros PA PB OA. pose proof (on_curve_y curve_b curve_no_order_two A OA) as NA.
  pose proof (proj_add_rep _ _ _ _ PA PB NA) as (Hx & Hy & Hz & Nz & E).
  unfold affine_of_proj. destruct (inverse_val (pz (proj_add P P')) Hz Nz) as (i & -> & Hi & Vi).
  cbn [unwrap_option bind_outcome]. eexists. split; [reflexivity|]. cbn [ax]. split; [canon|].
  intros H0. rewrite_val. rewrite Vi. unfold read_abscissa. rewrite E.
  destruct (pinf (proj_add P P')) eqn:I; [|reflexivity].
  pose proof PA as (_ & _ & _ & _ & EA). pose proof PB as (_ & _ & _ & _ & EB).
  destruct (pinf P) eqn:IP.
  - subst A. destruct B as [[]|]; [discriminate|]. destruct (pinf P') eqn:IP'; [|discriminate].
    unfold proj_add. rewrite IP', H0 by reflexivity. apply Zmod.mul_0_l.
  - destruct (proj_add_cancels P P' IP I) as [-> ->]. now rewrite EA.
Qed.

(** The comparison that ends verification, for any two represented points. *)
Lemma verify_tail P A P' B r : prep P A -> prep P' B -> on_curve curve_b A -> felt_ok r ->
  exists res,
    (let! r1 := affine_of_proj (proj_add P P') in
     let! r2 := affine_of_proj (proj_add P (proj_negate P')) in
     if limbs_eqb (ax r1) (mont_of_felt r) || limbs_eqb (ax r2) (mont_of_felt r)
     then Ret (Ok tt) else Ret (Err Signature)) = Ret res /\
    ((A = None -> B = None -> val (px P) = Zmod.zero) ->
     res = if Zmod.eqb (read_abscissa A B) (Zmod.of_Z modulus (be_value r)) ||
              Zmod.eqb (read_abscissa A (pt_neg B)) (Zmod.of_Z modulus (be_value r))
           then Ok tt else Err Signature).
Proof.
  intros PA PB OA Hr.
  destruct (affine_of_sum _ _ _ _ PA PB OA) as (q1 & -> & K1 & W1). cbn [bind_outcome].
  destruct (affine_of_sum _ _ _ _ PA (proj_negate_rep _ _ PB) OA) as (q2 & -> & K2 & W2).
  cbn [bind_outcome].
  destruct (limbs_eqb (ax q1) (mont_of_felt r) || limbs_eqb (ax q2) (mont_of_felt r)) eqn:E;
    (eexists; split; [reflexivity|]); intros H0; (rewrite (eqb_felt _ _ _ K1 Hr (W1 H0)) in E);
    rewrite (eqb_felt _ _ _ K2 Hr (W2 ltac:(intros HA HB; apply H0; [exact HA | now destruct B as [[]|]]))) in E;
    now rewrite E.
Qed.

(** The multiple of a point by the scalar zero is the identity as written. *)
Lemma multiply_elm_zero p u : @limbs_ok u -> @val CurveOrderMontFelt u = Zmod.zero ->
  proj_multiply_elm p u = proj_identity.
Proof.
  intros Hu V. unfold proj_multiply_elm. rewrite CurveOrder.order_into_le_bits_spec, V by exact Hu.
  vm_compute. reflexivity.
Qed.

(** With all inputs in range, verification returns, and it accepts exactly if
    one of the two abscissas it reads is [r].  Left open is what it reads when
    both multiples are infinity for a message other than zero. *)
Lemma verify_inner_spec pk Q z r s : prep pk Q -> on_curve curve_b Q ->
  felt_ok z -> felt_ok r -> felt_ok s ->
  be_value z < 2 ^ 251 -> 0 < be_value r < 2 ^ 251 -> 0 < be_value s < 2 ^ 251 ->
  let sinv := Zmod.inv (scalar_of s) in
  let A := pt_mul G_pt (scalar_bits (scalar_of z * sinv)%Zmod) in
  let B := pt_mul Q (scalar_bits (scalar_of r * sinv)%Zmod) in
  exists res, ecdsa_verify_inner pk z r s = Ret res /\
    (be_value z = 0 \/ A <> None \/ B <> None ->
     res = if Zmod.eqb (read_abscissa A B) (Zmod.of_Z modulus (be_value r)) ||
              Zmod.eqb (read_abscissa A (pt_neg B)) (Zmod.of_Z modulus (be_value r))
           then Ok tt else Err Signature).
Proof.
  intros Hpk HQ Hz Hr Hs Lz Lr Ls sinv A B. pose proof order_between as [Ob _].
  unfold ecdsa_verify_inner. cbv zeta.
  destruct (try_from_mont_felt z Hz ltac:(lia)) as (cz & -> & Cz & Vz).
  destruct (try_from_mont_felt r Hr ltac:(lia)) as (cr & -> & Cr & Vr).
  destruct (try_from_mont_felt s Hs ltac:(lia)) as (cs & -> & Cs & Vs). cbn [unwrap_result bind_outcome].
  rewrite !geq_bound, !eqb_zero by assumption.
  rewrite !(proj2 (Z.leb_gt _ _)), !(proj2 (Z.eqb_neq _ _)) by lia. cbn [orb].
  destruct (CurveOrder.order_inverse_val cs Cs) as (i & -> & Ci & Vi);
    [rewrite Vs; apply scalar_nz; [exact Hs | lia]|]. cbn [unwrap_option bind_outcome].
  destruct (const_mul_val (F := CurveOrderMontFelt) cz i (proj1 Cz) Ci) as [C1 V1].
  destruct (const_mul_val (F := CurveOrderMontFelt) cr i (proj1 Cr) Ci) as [C2 V2].
  destruct CURVE_G_ok as [HG OG].
  destruct (multiply_elm_rep CURVE_G G_pt _ HG OG (proj1 C1)) as [PA OA].
  destruct (multiply_elm_rep pk Q _ Hpk HQ (proj1 C2)) as [PB OB].
  rewrite V1, Vz, Vi, Vs in PA, OA. rewrite V2, Vr, Vi, Vs in PB, OB. fold sinv in PA, OA, PB, OB.
  destruct (verify_tail _ A _ B r PA PB OA Hr) as (res & E & W).
  exists res. split; [exact E|]. intros H. apply W. intros HA HB.
  destruct H as [H0|[H|H]]; [|now destruct (H HA)|now destruct (H HB)].
  rewrite multiply_elm_zero; [reflexivity | exact (proj1 C1)|].
  rewrite V1, Vz. unfold scalar_of. rewrite H0. apply Zmod.mul_0_l.
Qed.

(** ** Multiplication of the generator by table *)

Definition g_table_ok (G_CONSTS : list AffinePoint) : Prop :=
  length G_CONSTS = 945%nat /\ Forall entry_ok G_CONSTS.

Lemma chunk_nth fuel n : forall bits k v, nth_error (chunks fuel n bits) k = Some v ->
  v = firstn n (skipn (k * n) bits).
Proof.
  induction fuel as [|fuel IH]; intros bits k v H; [now destruct k|].
  cbn [chunks] in H. destruct bits as [|b bits]; [now destruct k|].
  destruct k as [|k]; [now injection H as <-|].
  rewrite (IH _ _ _ H), skipn_skipn. f_equal. f_equal. lia.
Qed.

Lemma Forall_firstn_skipn {A} (P : A -> Prop) n l :
  Forall P l -> Forall P (firstn n l) /\ Forall P (skipn n l).
Proof. rewrite <- (firstn_skipn n l) at 1. apply Forall_app. Qed.

Lemma scalar_bits_high u : Forall (fun x => x = false) (skipn 252 (scalar_bits u)).
Proof.
  unfold scalar_bits. rewrite skipn_map, skipn_seq. apply Forall_forall.
  intros x (i & <- & Hi)%in_map_iff. apply in_seq in Hi.
  pose proof modulus_CurveOrder as M.
  pose proof (Zmod.unsigned_pos_bound u ltac:(rewrite M; reflexivity)). assert (curve_order < 2 ^ 252) by reflexivity.
  rewrite <- (Z.mod_small (Zmod.unsigned u) (2 ^ 252)) by lia.
  apply Z.mod_pow2_bits_high. lia.
Qed.

(** The sum of table entries selected by the digits of the scalar. *)
Definition gen_point (G_CONSTS : list AffinePoint) (u : Fn) : pt :=
  table_sum (table_pt G_CONSTS_BITS G_CONSTS) 0
    (chunks (length (scalar_bits u)) G_CONSTS_BITS (scalar_bits u)) None.

(** A table of 63 blocks is enough: the last digit of a scalar is zero. *)
Lemma gen_multiply_rep G_CONSTS u : g_table_ok G_CONSTS -> limbs_ok u ->
  let Q := gen_point G_CONSTS (@val CurveOrderMontFelt u) in
  exists p, gen_multiply_elm G_CONSTS_BITS G_CONSTS u = Ret p /\ prep p Q /\ on_curve curve_b Q.
Proof.
  intros [HL Ht] Hu. unfold gen_point, gen_multiply_elm. cbv zeta.
  rewrite CurveOrder.order_into_le_bits_spec by exact Hu.
  fold (scalar_bits (@val CurveOrderMontFelt u)). set (bits := scalar_bits _).
  assert (Lb : length bits = 256%nat) by (unfold bits, scalar_bits; now rewrite length_map, length_seq).
  apply (add_points_rep curve_b curve_no_order_two _ _ _ (table_pt_ok _ _ Ht));
    [exact proj_identity_rep | exact I | apply chunks_bound |].
  intros k v Hk Hpos. rewrite HL. pose proof (chunk_nth _ _ _ _ _ Hk) as Ev.
  assert (Hk63 : (k < 63)%nat).
  { apply Nat.lt_nge. intros Hge.
    rewrite load_le_zero in Hpos; [lia|]. rewrite Ev.
    replace (k * G_CONSTS_BITS)%nat with ((k - 63) * 4 + 252)%nat by (unfold G_CONSTS_BITS; lia).
    rewrite <- skipn_skipn. now apply Forall_firstn_skipn, Forall_firstn_skipn, scalar_bits_high. }
  pose proof (load_le_bound v) as B. rewrite Ev in B at 2. rewrite length_firstn in B.
  pose proof (Nat.pow_le_mono_r 2 (Nat.min G_CONSTS_BITS (length (skipn (k * G_CONSTS_BITS) bits)))
    4 ltac:(lia) (Nat.le_min_l _ _)).
  unfold G_CONSTS_BITS in *. change (2 ^ 4)%nat with 16%nat in *. lia.
Qed.

(** ** Signing *)

(** The abscissa the code reads from the product: that of a finite point. *)
Lemma affine_gen_multiply_total G_CONSTS u : g_table_ok G_CONSTS -> limbs_ok u ->
  exists q, affine_gen_multiply_elm G_CONSTS_BITS G_CONSTS u = Ret q /\ canonical (ax q) /\
    match gen_point G_CONSTS (@val CurveOrderMontFelt u) with
    | Some (x, _) => val (ax q) = x
    | None => True
    end.
Proof.
  intros Ht Hu. destruct (gen_multiply_rep G_CONSTS u Ht Hu) as (p & E & Hp & _).
  unfold affine_gen_multiply_elm. rewrite E. cbn [bind_outcome]. exact (affine_of_proj_total _ _ Hp).
Qed.

Lemma scalar_of_value f (u : Fn) : be_value f = Zmod.unsigned u -> scalar_of f = u.
Proof. intros E. unfold scalar_of. rewrite E. apply Zmod.of_Z_to_Z. Qed.

Section Scalars.
#[local] Existing Instance CurveOrderMontFelt.

Add Field Fn_field : (Zmod.field_theory modulus prime_modulus).

Lemma sign_scalar k z r sk i : canonical k -> canonical z -> canonical r -> canonical sk ->
  canonical i -> val k <> Zmod.zero -> val i = Zmod.inv (val k) ->
  let s := CurveOrder.const_mul i (CurveOrder.const_add z (CurveOrder.const_mul r sk)) in
  canonical s /\ (val s * val k = val z + val r * val sk)%Zmod.
Proof.
  intros Hk Hz Hr Hsk Hi Nk Vi. unfold CurveOrder.const_mul, CurveOrder.const_add. cbv zeta.
  destruct (const_mul_val r sk (proj1 Hr) Hsk) as [C1 V1].
  destruct (const_add_val z _ Hz C1) as [C2 V2].
  destruct (const_mul_val i _ (proj1 Hi) C2) as [C3 V3].
  split; [exact C3|]. rewrite V3, V2, V1, Vi. field. exact Nk.
Qed.
End Scalars.

(** For keys, messages and nonces below the group order signing never panics.
    It asks for another nonce, or returns [(r, s)] where [r] is below the bound
    [2^251] and [s * k = z + r * sk] among the scalars; [r] is the abscissa of
    the product with the nonce. *)
Lemma sign_k_spec G_CONSTS sk z k : g_table_ok G_CONSTS -> felt_ok sk -> felt_ok z -> felt_ok k ->
  be_value sk < curve_order -> be_value z < curve_order -> 0 < be_value k < curve_order ->
  ecdsa_sign_k G_CONSTS sk z k = Ret (Err Randomness) \/
  exists r s, ecdsa_sign_k G_CONSTS sk z k = Ret (Ok (r, s)) /\ felt_ok r /\ felt_ok s /\
    be_value r < 2 ^ 251 /\
    (scalar_of s * scalar_of k = scalar_of z + scalar_of r * scalar_of sk)%Zmod /\
    match gen_point G_CONSTS (scalar_of k) with
    | Some (x, _) => be_value r = Zmod.unsigned x
    | None => True
    end.
Proof.
  intros Ht Hsk Hz Hk Lsk Lz Lk. unfold ecdsa_sign_k. rewrite !try_from_felt_eq by assumption.
  destruct (try_from_mont_felt sk Hsk Lsk) as (csk & -> & Csk & Vsk).
  destruct (try_from_mont_felt z Hz Lz) as (cz & -> & Cz & Vz).
  destruct (try_from_mont_felt k Hk ltac:(lia)) as (ck & -> & Ck & Vk).
  destruct (limbs_eqb ck ZERO) eqn:EZ; [now left|]. clear EZ.
  destruct (affine_gen_multiply_total G_CONSTS ck Ht (proj1 Ck)) as (q & -> & Cq & Vq).
  cbn [bind_outcome]. cbv zeta. destruct UPPER_BOUND_value as [Uok Uv].
  rewrite mont_geq_spec, Uv by (exact Uok || apply Cq).
  destruct (Z.leb_spec (2 ^ 251) (Zmod.unsigned (val (ax q)))) as [_|Lx]; [left; reflexivity | right].
  pose proof (try_from_mont_spec _ Cq) as S. pose proof order_between as [Ob _].
  rewrite (proj2 (Z.ltb_lt _ _)) in S by lia. destruct S as (cr & -> & Cr & Vr).
  cbn [unwrap_result bind_outcome].
  destruct (CurveOrder.order_inverse_val ck Ck) as (i & -> & Ci & Vi);
    [rewrite Vk; apply scalar_nz; assumption|]. cbn [unwrap_option bind_outcome].
  destruct (sign_scalar ck cz cr csk i Ck Cz Cr Csk Ci) as [Cs Vs];
    [rewrite Vk; apply scalar_nz; assumption | exact Vi |].
  set (cs := CurveOrder.const_mul i _) in *.
  destruct (felt_of_curve_order_spec cr (proj1 Cr)) as (r & -> & Fr & Er).
  destruct (felt_of_curve_order_spec cs (proj1 Cs)) as (s & -> & Fs & Es).
  cbn [bind_outcome]. exists r, s. split; [reflexivity|]. split; [exact Fr|]. split; [exact Fs|].
  assert (Vx : be_value r = Zmod.unsigned (val (ax q))).
  { rewrite Er, Vr, Zmod.unsigned_of_Z. apply Z.mod_small. pose proof (unsigned_val_range (ax q)).
    pose proof modulus_CurveOrder. lia. }
  split; [lia|]. rewrite (scalar_of_value _ _ Es), (scalar_of_value _ _ Er), <- Vk, <- Vz, <- Vsk.
  split; [exact Vs|]. destruct (gen_point _ _) as [[x y]|]; [|exact I]. now rewrite Vx, Vq.
Qed.
