(* ===== verification/MerkleNode.v ===== *)
(** Nodes of the Merkle-Patricia tree: the in-memory nodes of
    merkle-tree/src/merkle_node.rs, the proof nodes of common/src/trie.rs and
    the stored nodes of storage/src/connection/trie.rs, with their hashes. *)

From Stdlib Require Import ZArith Lia Bool List.
From stdpp Require Import gmap list.
From S2P Require Import Prelude Bytes Felt.
Local Open Scope Z_scope.

(** A [BitVec<u8, Msb0>] or [BitSlice<u8, Msb0>]. *)
Abbreviation bits := (list bool).

(** [slice[i]], [slice[i..]], [slice[..j]] and [slice[i..j]]; Rust panics when
    the range is not within the slice. *)
Definition bit_at (key : bits) (i : nat) : outcome bool := unwrap_option (key !! i).

Definition bits_from (key : bits) (i : nat) : outcome bits :=
  if (i <=? length key)%nat then Ret (drop i key) else Panic.

Definition bits_to (key : bits) (j : nat) : outcome bits :=
  if (j <=? length key)%nat then Ret (take j key) else Panic.

Definition bits_range (key : bits) (i j : nat) : outcome bits :=
  if (i <=? j)%nat && (j <=? length key)%nat then Ret (take (j - i) (drop i key)) else Panic.

(** ** Storage indices and stored nodes *)

(** A [TrieStorageIndex] is a [u64] that fits a SQLite integer. *)
Abbreviation TrieStorageIndex := Z (only parsing).

Definition I64_MAX : Z := 9223372036854775807.

Definition TrieStorageIndex_new (val : Z) : option TrieStorageIndex :=
  if val <=? I64_MAX then Some val else None.

Inductive StoredNode : Type :=
| StoredBinary (left right : TrieStorageIndex)
| StoredEdge (child : TrieStorageIndex) (path : bits)
| StoredLeafBinary
| StoredLeafEdge (path : bits).

(** A reference of a node to be stored: to a node that already is, or to an
    entry of [nodes_added]. *)
Inductive NodeRef : Type :=
| StorageIndex (idx : TrieStorageIndex)
| Index (i : nat).

Inductive Node : Type :=
| NodeBinary (left right : NodeRef)
| NodeEdge (child : NodeRef) (path : bits)
| NodeLeafBinary
| NodeLeafEdge (path : bits).

Record TrieUpdate : Type := MkTrieUpdate {
  nodes_added : list (Felt * Node);
  update_nodes_removed : list TrieStorageIndex;
  root_commitment : Felt
}.

(** ** Directions *)

Inductive Direction : Type := Left | Right.

Definition invert (self : Direction) : Direction :=
  match self with Left => Right | Right => Left end.

Definition direction_of_bool (tf : bool) : Direction := if tf then Right else Left.

Definition bool_of_direction (d : Direction) : bool :=
  match d with Left => false | Right => true end.

(** ** In-memory nodes

    An [Rc<RefCell<InternalNode>>] is the address of a cell. *)

Abbreviation loc := nat (only parsing).

Record BinaryNode : Type := MkBinary {
  binary_storage_index : option TrieStorageIndex;
  binary_height : nat;
  left : loc;
  right : loc
}.

Record EdgeNode : Type := MkEdge {
  edge_storage_index : option TrieStorageIndex;
  edge_height : nat;
  path : bits;
  child : loc
}.

Inductive InternalNode : Type :=
| Unresolved (idx : TrieStorageIndex)
| Binary (binary : BinaryNode)
| Edge (edge : EdgeNode)
| Leaf.

Definition is_binary (self : InternalNode) : bool :=
  match self with Binary _ => true | _ => false end.

Definition as_binary (self : InternalNode) : option BinaryNode :=
  match self with Binary binary => Some binary | _ => None end.

Definition as_edge (self : InternalNode) : option EdgeNode :=
  match self with Edge edge => Some edge | _ => None end.

Definition is_leaf (self : InternalNode) : bool :=
  match self with Leaf => true | _ => false end.

Definition storage_index (self : InternalNode) : option TrieStorageIndex :=
  match self with
  | Unresolved idx => Some idx
  | Binary binary => binary_storage_index binary
  | Edge edge => edge_storage_index edge
  | Leaf => None
  end.

Definition direction (self : BinaryNode) (key : bits) : outcome Direction :=
  let! b := bit_at key (binary_height self) in
  Ret (direction_of_bool b).

Definition get_child (self : BinaryNode) (d : Direction) : loc :=
  match d with Left => left self | Right => right self end.

Definition path_matches (self : EdgeNode) (key : bits) : outcome bool :=
  let! k := bits_range key (edge_height self) (edge_height self + length (path self)) in
  Ret (bool_decide (path self = k)).

(** [key_path.zip(path).take_while(|(a, b)| a == b).count()] *)
Fixpoint common_length (key_path path : bits) : nat :=
  match key_path, path with
  | a :: key_path, b :: path => if Bool.eqb a b then S (common_length key_path path) else 0
  | _, _ => 0
  end.

Definition common_path (self : EdgeNode) (key : bits) : bits :=
  let key_path := drop (edge_height self) key in
  take (common_length key_path (path self)) (path self).

(** ** Hashes *)

Section Hash.

(** The [FeltHash] trait. *)
Context (H : Felt -> Felt -> outcome Felt).

Definition binary_calculate_hash (left right : Felt) : outcome Felt := H left right.

(** [path.len() as u8] keeps the low eight bits. *)
Definition edge_calculate_hash (child : Felt) (path : bits) : outcome Felt :=
  let length := repeat 0 31 ++ [Z.of_nat (length path) mod 256] in
  let! length := unwrap_result (felt_from_be_bytes length) in
  let! path := unwrap_result (from_bits path) in
  let! h := H child path in
  felt_add h length.

(** The nodes of a proof (common/src/trie.rs). *)
Inductive TrieNode : Type :=
| TrieBinary (left right : Felt)
| TrieEdge (child : Felt) (path : bits).

Definition trie_node_hash (self : TrieNode) : outcome Felt :=
  match self with
  | TrieBinary left right => H left right
  | TrieEdge child path =>
      let length := repeat 0 31 ++ [Z.of_nat (length path) mod 256] in
      let! path := unwrap_result (from_bits path) in
      let! length := unwrap_result (felt_from_be_bytes length) in
      let! h := H child path in
      felt_add h length
  end.
End Hash.
