(* ===== verification/Tree.v ===== *)
(** The Merkle-Patricia tree of merkle-tree/src/tree.rs.

    The graph of [Rc<RefCell<InternalNode>>] is a memory of cells, so that
    every mutation through a shared pointer is visible to all holders of the
    pointer.  A method is a computation over the tree's own fields and that
    memory; it may panic, or fail with an error and keep the state it reached. *)

From Stdlib Require Import ZArith Lia Bool List.
From stdpp Require Import gmap list.
From S2P Require Import Prelude Bytes Felt MerkleNode.
Local Open Scope Z_scope.

(** ** Storage *)

(** The trait [Storage]; [E] is the type of its errors.  An implementation of
    [leaf] may panic on a path of the wrong length. *)
Record Storage (E : Type) : Type := MkStorage {
  storage_get : TrieStorageIndex -> result E (option StoredNode);
  storage_hash : TrieStorageIndex -> result E (option Felt);
  storage_leaf : bits -> outcome (result E (option Felt))
}.
Arguments storage_get {E} _ _.
Arguments storage_hash {E} _ _.
Arguments storage_leaf {E} _ _.

(** The errors of the tree, by the context the code attaches. *)
Inductive TreeError (E : Type) : Type :=
| StorageFailure (e : E)
| HeightExceeded (height : nat)
| NodeMissing (index : TrieStorageIndex) (height : nat)
| RootHashMissing
| NodeHashMissing
| LeafValueMissing
| InconsistentChildren.
Arguments StorageFailure {E} e.
Arguments HeightExceeded {E} height.
Arguments NodeMissing {E} index height.
Arguments RootHashMissing {E}.
Arguments NodeHashMissing {E}.
Arguments LeafValueMissing {E}.
Arguments InconsistentChildren {E}.

(** ** State *)

Record Mem : Type := MkMem { cells : gmap loc InternalNode; next : loc }.

Record MerkleTree : Type := MkTree {
  root : option loc;
  leaves : gmap bits Felt;
  nodes_removed : list TrieStorageIndex;
  verify_hashes : bool
}.

Definition mem_alloc (n : InternalNode) (m : Mem) : Mem :=
  MkMem (<[next m := n]> (cells m)) (S (next m)).

Definition mem_store (l : loc) (n : InternalNode) (m : Mem) : Mem :=
  MkMem (<[l := n]> (cells m)) (next m).

Definition state : Type := MerkleTree * Mem.

Definition M (E A : Type) : Type := state -> outcome (result (TreeError E) A * state).

Section Monad.
Context {E : Type}.

Definition ret {A} (a : A) : M E A := fun s => Ret (Ok a, s).
Definition throw {A} (e : TreeError E) : M E A := fun s => Ret (Err e, s).
Definition panic {A} : M E A := fun _ => Panic.

Definition bind {A B} (m : M E A) (k : A -> M E B) : M E B := fun s =>
  match m s with
  | Panic => Panic
  | Ret (Err e, s) => Ret (Err e, s)
  | Ret (Ok a, s) => k a s
  end.

(** A computation that does not use the state. *)
Definition lift {A} (o : outcome A) : M E A := fun s =>
  match o with Ret a => Ret (Ok a, s) | Panic => Panic end.

(** [Rc::new(RefCell::new(node))] *)
Definition alloc (n : InternalNode) : M E loc := fun '(t, m) =>
  Ret (Ok (next m), (t, mem_alloc n m)).

(** [rc.borrow()]; a live [Rc] always has its cell. *)
Definition load (l : loc) : M E InternalNode := fun '(t, m) =>
  match cells m !! l with
  | Some n => Ret (Ok n, (t, m))
  | None => Panic
  end.

(** [rc.replace(node)] *)
Definition store (l : loc) (n : InternalNode) : M E unit := fun '(t, m) =>
  Ret (Ok tt, (t, mem_store l n m)).

Definition push_removed (idx : list TrieStorageIndex) : M E unit := fun '(t, m) =>
  Ret (Ok tt, (MkTree (root t) (leaves t) (nodes_removed t ++ idx) (verify_hashes t), m)).

Definition set_root (r : option loc) : M E unit := fun '(t, m) =>
  Ret (Ok tt, (MkTree r (leaves t) (nodes_removed t) (verify_hashes t), m)).

Definition insert_leaf (key : bits) (value : Felt) : M E unit := fun '(t, m) =>
  Ret (Ok tt, (MkTree (root t) (<[key := value]> (leaves t)) (nodes_removed t) (verify_hashes t), m)).

Definition self : M E MerkleTree := fun '(t, m) => Ret (Ok t, (t, m)).
End Monad.

Declare Scope tree_scope.
Delimit Scope tree_scope with tree.
Notation "'let*' x ':=' e 'in' k" := (bind e (fun x => k))
  (at level 10, x name, e at level 100, k at level 200) : tree_scope.
Notation "e ';;*' k" := (bind e (fun _ => k)) (at level 100, k at level 200) : tree_scope.
Open Scope tree_scope.

Definition option_list {A} (o : option A) : list A :=
  match o with Some a => [a] | None => [] end.

(** ** Construction *)

Definition tree_new (index : TrieStorageIndex) (m : Mem) : MerkleTree * Mem :=
  (MkTree (Some (next m)) ∅ [] false, mem_alloc (Unresolved index) m).

Definition with_verify_hashes (b : bool) (t : MerkleTree) : MerkleTree :=
  MkTree (root t) (leaves t) (nodes_removed t) b.

Definition tree_empty : MerkleTree := MkTree None ∅ [] false.

Section Operations.
Context {E : Type} (storage : Storage E) (HEIGHT : nat).

Abbreviation M := (M E).

(** ** Navigation *)

Definition resolve (index : TrieStorageIndex) (height : nat) : M InternalNode :=
  if (height <? HEIGHT)%nat then
    match storage_get storage index with
    | Err e => throw (StorageFailure e)
    | Ok None => throw (NodeMissing index height)
    | Ok (Some (StoredBinary l r)) =>
        let* l := alloc (Unresolved l) in
        let* r := alloc (Unresolved r) in
        ret (Binary (MkBinary (Some index) height l r))
    | Ok (Some (StoredEdge c p)) =>
        let* c := alloc (Unresolved c) in
        ret (Edge (MkEdge (Some index) height p c))
    | Ok (Some StoredLeafBinary) =>
        let* l := alloc Leaf in
        let* r := alloc Leaf in
        ret (Binary (MkBinary (Some index) height l r))
    | Ok (Some (StoredLeafEdge p)) =>
        let* c := alloc Leaf in
        ret (Edge (MkEdge (Some index) height p c))
    end
  else throw (HeightExceeded height).

(** The [loop] of [traverse]: an iteration resolves a node or descends. *)
Fixpoint traverse_loop (fuel : nat) (current : loc) (height : nat) (nodes : list loc) (dst : bits)
    : M (list loc) :=
  match fuel with
  | O => panic
  | S fuel =>
      let* current_tmp := load current in
      match current_tmp with
      | Unresolved idx =>
          let* node := resolve idx height in
          store current node ;;*
          traverse_loop fuel current height nodes dst
      | Binary binary =>
          let nodes := nodes ++ [current] in
          let* d := lift (direction binary dst) in
          traverse_loop fuel (get_child binary d) (height + 1) nodes dst
      | Edge edge =>
          let* matches := lift (path_matches edge dst) in
          if matches then
            let nodes := nodes ++ [current] in
            traverse_loop fuel (child edge) (height + length (path edge)) nodes dst
          else ret (nodes ++ [current])
      | Leaf => ret (nodes ++ [current])
      end
  end.

(** Every node on a path is resolved and passed once. *)
Definition traverse_fuel : nat := 2 * HEIGHT + 2.

Definition traverse (dst : bits) : M (list loc) :=
  let* t := self in
  match root t with
  | None => ret []
  | Some current => traverse_loop traverse_fuel current 0 [] dst
  end.

(** ** Mutation *)

(** The two branches of an edge that is split: the one to the new leaf and the
    one to the edge's child.  Edges with an empty path are elided. *)
Definition new_branch (child_height : nat) (new_path : bits) : M loc :=
  match new_path with
  | [] => alloc Leaf
  | _ =>
      let* leaf := alloc Leaf in
      alloc (Edge (MkEdge None child_height new_path leaf))
  end.

Definition old_branch (edge : EdgeNode) (child_height : nat) (old_path : bits) : M loc :=
  match old_path with
  | [] => ret (child edge)
  | _ => alloc (Edge (MkEdge None child_height old_path (child edge)))
  end.

(** The edge that may be required to lead to the binary node. *)
Definition leading_edge (edge : EdgeNode) (common : bits) (branch : InternalNode) : M InternalNode :=
  match common with
  | [] => ret branch
  | _ =>
      let* branch := alloc branch in
      ret (Edge (MkEdge None (edge_height edge) common branch))
  end.

(** The node that replaces the last node of a traversal when a key is set. *)
Definition updated_node (node : InternalNode) (key : bits) : M InternalNode :=
  match node with
  | Edge edge =>
      let common := common_path edge key in
      let branch_height := (edge_height edge + length common)%nat in
      let child_height := (branch_height + 1)%nat in
      let* new_path := lift (bits_from key child_height) in
      let* old_path := lift (bits_from (path edge) (length common + 1)) in
      let* new := new_branch child_height new_path in
      let* old := old_branch edge child_height old_path in
      let* b := lift (bit_at key branch_height) in
      let branch :=
        match direction_of_bool b with
        | Left => Binary (MkBinary None branch_height new old)
        | Right => Binary (MkBinary None branch_height old new)
        end in
      leading_edge edge common branch
  | Leaf => ret Leaf
  | Unresolved _ | Binary _ => panic
  end.

Definition replace_last (node : loc) (key : bits) : M unit :=
  let* n := load node in
  let* updated := updated_node n key in
  let* old_node := load node in
  store node updated ;;*
  push_removed (option_list (storage_index old_node)).

Definition merge_edges (parent : EdgeNode) : M EdgeNode :=
  let* c := load (child parent) in
  let* resolved_child :=
    match c with
    | Unresolved idx => resolve idx (edge_height parent + length (path parent))
    | other => ret other
    end in
  match as_edge resolved_child with
  | Some child_edge =>
      push_removed (option_list (edge_storage_index child_edge)) ;;*
      ret (MkEdge (edge_storage_index parent) (edge_height parent)
                  (path parent ++ path child_edge) (child child_edge))
  | None => ret parent
  end.

(** The [skip_while] of [delete_leaf] over the path in reverse: the storage
    indices of the nodes skipped and the rest of the iterator. *)
Fixpoint skip_to_binary (path : list loc) (indexes_removed : list TrieStorageIndex)
    : M (list TrieStorageIndex * list loc) :=
  match path with
  | [] => ret (indexes_removed, [])
  | l :: rest =>
      let* node := load l in
      if is_binary node then ret (indexes_removed, path)
      else skip_to_binary rest (indexes_removed ++ option_list (storage_index node))
  end.

(** The binary node [node] loses the child on the side of [key]. *)
Definition replace_binary (node : loc) (key : bits) : M unit :=
  let* n := load node in
  let* binary := lift (unwrap_option (as_binary n)) in
  let* d := lift (direction binary key) in
  let direction := invert d in
  let edge := MkEdge None (binary_height binary) [bool_of_direction direction]
                     (get_child binary direction) in
  let* new_edge := merge_edges edge in
  let* old_node := load node in
  store node (Edge new_edge) ;;*
  push_removed (option_list (storage_index old_node)).

(** The parent of the new edge, if it is an edge too, is merged with it. *)
Definition merge_parent (rest : list loc) : M unit :=
  match rest with
  | [] => ret tt
  | node :: _ =>
      let* n := load node in
      match n with
      | Edge edge => let* edge := merge_edges edge in store node (Edge edge)
      | _ => ret tt
      end
  end.

Definition delete_leaf (key : bits) : M unit :=
  let* path := traverse key in
  match last path with
  | None => ret tt
  | Some node =>
      let* n := load node in
      if is_leaf n then
        let* skipped := skip_to_binary (rev path) [] in
        match skipped with
        | (indexes_removed, node :: rest) =>
            replace_binary node key ;;*
            merge_parent rest ;;*
            push_removed indexes_removed
        | (indexes_removed, []) =>
            set_root None ;;*
            push_removed indexes_removed
        end
      else ret tt
  end.

Definition set (key : bits) (value : Felt) : M unit :=
  if felt_eqb value FELT_ZERO then delete_leaf key
  else
    let* path := traverse key in
    match last path with
    | Some node =>
        replace_last node key ;;*
        insert_leaf key value
    | None =>
        let* leaf := alloc Leaf in
        let* edge := alloc (Edge (MkEdge None 0 key leaf)) in
        set_root (Some edge) ;;*
        insert_leaf key value
    end.

(** ** Queries *)

(** A storage result in the monad of the tree. *)
Definition from_storage {A} (r : result E A) : M A :=
  match r with Ok a => ret a | Err e => throw (StorageFailure e) end.

Definition get (key : bits) : M (option Felt) :=
  let* nodes := traverse key in
  match last nodes with
  | None => ret None
  | Some node =>
      let* n := load node in
      if is_leaf n then
        let* t := self in
        match leaves t !! key with
        | Some value => ret (Some value)
        | None => let* r := lift (storage_leaf storage key) in from_storage r
        end
      else ret None
  end.
End Operations.
