(* ===== verification/TrieSpec.v ===== *)
(** The specification of the tree: Patricia tries as an inductive type, with
    lookup, insertion and deletion.  A well-formed trie (all leaves at the same
    depth, edges maximal) is determined by its set of keys. *)

From Stdlib Require Import ZArith Lia Bool List.
From stdpp Require Import gmap list.

Abbreviation bits := (list bool).

Inductive trie : Type :=
| TLeaf
| TBin (l r : trie)
| TEdge (p : bits) (c : trie).

Definition is_edge (t : trie) : bool := match t with TEdge _ _ => true | _ => false end.

(** Height [n] remains below the node; edges are not empty and do not follow
    one another. *)
Fixpoint wf (n : nat) (t : trie) : Prop :=
  match t with
  | TLeaf => n = 0
  | TBin l r => exists n', n = S n' /\ wf n' l /\ wf n' r
  | TEdge p c => p <> [] /\ is_edge c = false /\ exists n', n = length p + n' /\ wf n' c
  end.

(** ** Operations *)

Fixpoint has (t : trie) (k : bits) : bool :=
  match t with
  | TLeaf => bool_decide (k = [])
  | TBin l r =>
      match k with
      | [] => false
      | b :: k => has (if b then r else l) k
      end
  | TEdge p c => bool_decide (take (length p) k = p) && has c (drop (length p) k)
  end.

(** An edge whose path may be empty, and an edge merged with its child. *)
Definition mk_edge (p : bits) (c : trie) : trie := match p with [] => c | _ => TEdge p c end.

Definition merge (p : bits) (c : trie) : trie :=
  match c with TEdge q d => TEdge (p ++ q) d | _ => TEdge p c end.

(** The longest common prefix. *)
Fixpoint lcp (p k : bits) : bits :=
  match p, k with
  | a :: p, b :: k => if Bool.eqb a b then a :: lcp p k else []
  | _, _ => []
  end.

(** The edge [p] to [c] split by the key [k], which leaves it after [com]. *)
Definition split_edge (p : bits) (c : trie) (k : bits) : trie :=
  let com := lcp p k in
  let new := mk_edge (drop (S (length com)) k) TLeaf in
  let old := mk_edge (drop (S (length com)) p) c in
  mk_edge com (if nth (length com) k false then TBin old new else TBin new old).

Fixpoint tinsert (t : trie) (k : bits) : trie :=
  match t with
  | TLeaf => TLeaf
  | TBin l r =>
      match k with
      | [] => t
      | b :: k => if b then TBin l (tinsert r k) else TBin (tinsert l k) r
      end
  | TEdge p c =>
      if bool_decide (take (length p) k = p) then TEdge p (tinsert c (drop (length p) k))
      else split_edge p c k
  end.

(** The trie without a key it has; [None] is the empty trie. *)
Fixpoint tdelete (t : trie) (k : bits) : option trie :=
  match t with
  | TLeaf => None
  | TBin l r =>
      match k with
      | [] => None
      | b :: k =>
          match tdelete (if b then r else l) k with
          | Some t' => Some (if b then TBin l t' else TBin t' r)
          | None => Some (merge [negb b] (if b then l else r))
          end
      end
  | TEdge p c =>
      match tdelete c (drop (length p) k) with
      | Some c' => Some (merge p c')
      | None => None
      end
  end.

(** ** Facts *)

Lemma take_length_app (p k : bits) : take (length p) k = p -> k = p ++ drop (length p) k.
Proof. intros E. rewrite <- E at 1. symmetry. apply take_drop. Qed.

Lemma has_length t : forall n k, wf n t -> has t k = true -> length k = n.
Proof.
  induction t as [|l IHl r IHr|p c IHc]; intros n k W Hk; cbn in *.
  - apply bool_decide_eq_true in Hk. now subst.
  - destruct W as (n' & -> & Wl & Wr). destruct k as [|b k]; [discriminate|].
    cbn. f_equal. destruct b; eauto.
  - destruct W as (_ & _ & n' & -> & W). apply andb_true_iff in Hk as [Ep Hk].
    apply bool_decide_eq_true in Ep. rewrite (take_length_app p k Ep), length_app.
    f_equal. eauto.
Qed.

Lemma wf_nonempty t : forall n, wf n t -> exists k, has t k = true.
Proof.
  induction t as [|l IHl r IHr|p c IHc]; intros n W; cbn in *.
  - now exists [].
  - destruct W as (n' & _ & Wl & _). destruct (IHl n' Wl) as [k Hk]. now exists (false :: k).
  - destruct W as (_ & _ & n' & _ & W). destruct (IHc n' W) as [k Hk]. exists (p ++ k).
    rewrite take_app_length, drop_app_length, Hk. now rewrite bool_decide_eq_true_2.
Qed.

Lemma wf_pos n t : wf n t -> t <> TLeaf -> 0 < n.
Proof.
  destruct t as [|l r|p c]; cbn; [easy | intros (n' & -> & _) _; lia|].
  intros (Hp & _ & n' & -> & _) _. destruct p; cbn; [easy | lia].
Qed.

(** *** One bit at a time *)

(** The part of a trie below a first bit. *)
Definition deriv (t : trie) (b : bool) : option trie :=
  match t with
  | TLeaf => None
  | TBin l r => Some (if b then r else l)
  | TEdge p c =>
      match p with
      | [] => None
      | a :: p => if Bool.eqb a b then Some (mk_edge p c) else None
      end
  end.

(** The trie with given parts below its first bit. *)
Definition join (d : bool -> option trie) : option trie :=
  match d false, d true with
  | Some l, Some r => Some (TBin l r)
  | Some l, None => Some (merge [false] l)
  | None, Some r => Some (merge [true] r)
  | None, None => None
  end.

Lemma mk_edge_wf p c n : is_edge c = false -> wf n c -> wf (length p + n) (mk_edge p c).
Proof. intros E W. destruct p as [|a p]; [exact W|]. cbn. repeat split; try easy. now exists n. Qed.

Lemma deriv_wf n t b t' : wf (S n) t -> deriv t b = Some t' -> wf n t'.
Proof.
  destruct t as [|l r|p c]; intros W; cbn in *; [discriminate| |].
  - destruct W as (n' & [= <-] & Wl & Wr). destruct b; now intros [= <-].
  - destruct W as (Hp & E & n' & En & W). destruct p as [|a p]; [easy|].
    destruct (Bool.eqb a b); [|discriminate]. intros [= <-]. cbn in En. injection En as ->.
    now apply mk_edge_wf.
Qed.

Lemma has_mk_edge p c k : has (mk_edge p c) k = bool_decide (take (length p) k = p) && has c (drop (length p) k).
Proof. destruct p; [|reflexivity]. cbn. now rewrite drop_0. Qed.

Lemma deriv_has n t b k : wf (S n) t ->
  has t (b :: k) = match deriv t b with Some t' => has t' k | None => false end.
Proof.
  destruct t as [|l r|p c]; intros W; cbn in *; [lia| |].
  - now destruct b.
  - destruct W as (Hp & _ & n' & En & W). destruct p as [|a p]; [easy|]. cbn.
    destruct (Bool.eqb_spec a b) as [->|N].
    + rewrite has_mk_edge. f_equal. apply bool_decide_ext. split; congruence.
    + rewrite bool_decide_eq_false_2 by congruence. reflexivity.
Qed.

Lemma merge_cons a p c : is_edge c = false -> merge [a] (mk_edge p c) = TEdge (a :: p) c.
Proof. destruct p as [|b p]; cbn; [destruct c; easy | reflexivity]. Qed.

Lemma join_deriv n t : wf (S n) t -> join (deriv t) = Some t.
Proof.
  destruct t as [|l r|p c]; intros W; cbn in *; [lia|reflexivity|].
  destruct W as (Hp & E & _). destruct p as [|a p]; [easy|].
  unfold join. cbn. destruct a; cbn; now rewrite merge_cons.
Qed.

(** A well-formed trie is determined by its keys. *)
Lemma trie_canonical n : forall t t', wf n t -> wf n t' ->
  (forall k, length k = n -> has t k = has t' k) -> t = t'.
Proof.
  induction n as [|n IH]; intros t t' W W' Eq.
  - assert (L : forall u, wf 0 u -> u = TLeaf).
    { intros [|l r|p c]; cbn; [easy | intros (? & ? & _); lia |].
      intros (Hp & _ & n' & En & _). destruct p; [easy | cbn in En; lia]. }
    now rewrite (L t W), (L t' W').
  - assert (D : forall b, deriv t b = deriv t' b).
    { intros b. destruct (deriv t b) as [u|] eqn:Du, (deriv t' b) as [u'|] eqn:Du'.
      - f_equal. apply IH; eauto using deriv_wf. intros k Hk.
        specialize (Eq (b :: k) ltac:(cbn; lia)). rewrite !(deriv_has n), Du, Du' in Eq by assumption.
        exact Eq.
      - pose proof (deriv_wf _ _ _ _ W Du) as Wu. destruct (wf_nonempty u n Wu) as [k Hk].
        specialize (Eq (b :: k) ltac:(cbn; f_equal; eauto using has_length)).
        rewrite !(deriv_has n), Du, Du' in Eq by assumption. congruence.
      - pose proof (deriv_wf _ _ _ _ W' Du') as Wu. destruct (wf_nonempty u' n Wu) as [k Hk].
        specialize (Eq (b :: k) ltac:(cbn; f_equal; eauto using has_length)).
        rewrite !(deriv_has n), Du, Du' in Eq by assumption. congruence.
      - reflexivity. }
    enough (Some t = Some t') by congruence. rewrite <- (join_deriv n t W), <- (join_deriv n t' W').
    unfold join. now rewrite !D.
Qed.

(** *** Insertion *)

Lemma lcp_split p : forall k, length p <= length k -> take (length p) k <> p ->
  exists com a p' k', p = com ++ a :: p' /\ k = com ++ negb a :: k' /\ lcp p k = com.
Proof.
  induction p as [|a p IH]; intros k L N; [now destruct N|].
  destruct k as [|b k]; cbn in L; [lia|]. cbn. destruct (Bool.eqb_spec a b) as [<-|Nab].
  - destruct (IH k) as (com & a' & p' & k' & -> & -> & ->); [lia | intros E; apply N; cbn; now rewrite E|].
    exists (a :: com), a', p', k'. auto.
  - exists [], a, p, k. repeat split. cbn. f_equal. now destruct a, b.
Qed.

Lemma split_edge_eq com a p' c k' :
  lcp (com ++ a :: p') (com ++ negb a :: k') = com ->
  split_edge (com ++ a :: p') c (com ++ negb a :: k') =
  mk_edge com (if negb a then TBin (mk_edge p' c) (mk_edge k' TLeaf)
               else TBin (mk_edge k' TLeaf) (mk_edge p' c)).
Proof.
  intros E. unfold split_edge. rewrite E.
  replace (S (length com)) with (length com + 1) by lia.
  rewrite !drop_app_add, nth_middle. cbn [drop]. now rewrite !drop_0.
Qed.

(** A key below an edge. *)
Lemma has_edge_app p c k : has (TEdge p c) (p ++ k) = has c k.
Proof. cbn. rewrite take_app_length, drop_app_length. now rewrite bool_decide_eq_true_2. Qed.

Lemma has_new_edge k' k : length k = length k' -> has (mk_edge k' TLeaf) k = bool_decide (k = k').
Proof.
  intros L. rewrite has_mk_edge, <- L, take_ge, drop_ge by lia. cbn. apply andb_true_r.
Qed.

(** Two keys with a common prefix. *)
Lemma has_mk_edge_app p c k : has (mk_edge p c) (p ++ k) = has c k.
Proof. rewrite has_mk_edge, take_app_length, drop_app_length. now rewrite bool_decide_eq_true_2. Qed.

Lemma has_mk_edge_ne p c k : take (length p) k <> p -> has (mk_edge p c) k = false.
Proof. intros N. rewrite has_mk_edge. now rewrite bool_decide_eq_false_2. Qed.

Lemma split_edge_wf p c k n : p <> [] -> is_edge c = false -> wf n c ->
  length k = length p + n -> take (length p) k <> p -> wf (length p + n) (split_edge p c k).
Proof.
  intros Hp E W L N. destruct (lcp_split p k) as (com & a & p' & k' & -> & -> & El); [lia | exact N|].
  rewrite split_edge_eq by exact El. rewrite !length_app in *. cbn [length] in *.
  replace (length com + S (length p') + n) with (length com + S (length p' + n)) by lia.
  assert (W1 : wf (length p' + n) (mk_edge p' c)) by now apply mk_edge_wf.
  assert (W2 : wf (length p' + n) (mk_edge k' TLeaf)).
  { replace (length p' + n) with (length k' + 0) by lia. now apply mk_edge_wf. }
  apply mk_edge_wf; [now destruct a|]. destruct a; cbn; exists (length p' + n); auto.
Qed.

Lemma split_edge_has p c k n k0 : p <> [] -> wf n c -> length k = length p + n ->
  length k0 = length k -> take (length p) k <> p ->
  has (split_edge p c k) k0 = has (TEdge p c) k0 || bool_decide (k0 = k).
Proof.
  intros Hp W L L0 N. destruct (lcp_split p k) as (com & a & p' & k' & -> & -> & El); [lia | exact N|].
  rewrite split_edge_eq by exact El. rewrite !length_app in *. cbn [length] in *.
  destruct (decide (take (length com) k0 = com)) as [Ec|Nc].
  - rewrite (take_length_app _ _ Ec). set (k1 := drop (length com) k0) in *.
    assert (L1 : length k1 = S (length k')) by (unfold k1; rewrite length_drop; lia).
    destruct k1 as [|b k1]; [discriminate|]. cbn in L1. rewrite has_mk_edge_app.
    assert (H1 : has (TEdge (com ++ a :: p') c) (com ++ b :: k1)
      = Bool.eqb a b && has (mk_edge p' c) k1).
    { cbn [has]. rewrite has_mk_edge, length_app. cbn [length].
      rewrite take_app_add, drop_app_add. cbn [take drop].
      destruct (Bool.eqb_spec a b) as [->|Nab].
      - cbn. f_equal. apply bool_decide_ext. split; [intros E; now simplify_list_eq | now intros ->].
      - rewrite bool_decide_eq_false_2; [reflexivity|]. intros E. simplify_list_eq. }
    rewrite H1. destruct a, b; cbn; rewrite ?has_new_edge by lia;
      rewrite ?bool_decide_eq_false_2 with (P := com ++ _ = _) by (intros E; simplify_list_eq);
      rewrite ?orb_false_r; try reflexivity; apply bool_decide_ext;
      (split; [now intros -> | intros E; now simplify_list_eq]).
  - rewrite has_mk_edge_ne by exact Nc.
    rewrite bool_decide_eq_false_2 by (intros ->; now rewrite take_app_length in Nc).
    cbn. rewrite bool_decide_eq_false_2; [reflexivity|].
    intros E. apply Nc. apply (f_equal (take (length com))) in E.
    rewrite length_app, take_take, take_app_length in E. now rewrite Nat.min_l in E by lia.
Qed.

Lemma split_edge_is_edge p c k : lcp p k <> [] -> is_edge (split_edge p c k) = true.
Proof. unfold split_edge, mk_edge. now destruct (lcp p k). Qed.

(** Insertion below an edge never makes its child an edge. *)
Lemma tinsert_is_edge t k : is_edge t = false -> is_edge (tinsert t k) = false.
Proof. destruct t as [|l r|p c]; try easy. intros _. cbn. destruct k as [|[] k]; reflexivity. Qed.

Lemma tinsert_wf t : forall n k, wf n t -> length k = n -> wf n (tinsert t k).
Proof.
  induction t as [|l IHl r IHr|p c IHc]; intros n k W L; cbn in *; [exact W| |].
  - destruct W as (n' & -> & Wl & Wr). destruct k as [|b k]; [discriminate|]. injection L as L.
    destruct b; cbn; exists n'; auto.
  - destruct W as (Hp & E & n' & -> & W). case_bool_decide as Ep.
    + cbn. split; [exact Hp|]. split; [now apply tinsert_is_edge|]. exists n'. split; [reflexivity|].
      apply IHc; [exact W|]. rewrite length_drop. lia.
    + now apply split_edge_wf.
Qed.

Lemma tinsert_has t : forall n k k', wf n t -> length k = n -> length k' = n ->
  has (tinsert t k) k' = has t k' || bool_decide (k' = k).
Proof.
  induction t as [|l IHl r IHr|p c IHc]; intros n k k' W L L'; cbn [tinsert].
  - cbn in W. subst n. destruct k, k'; try discriminate. reflexivity.
  - destruct W as (n' & -> & Wl & Wr). destruct k as [|b k], k' as [|b' k']; try discriminate.
    injection L as L. injection L' as L'.
    assert (Ek : b' = b -> bool_decide (b' :: k' = b :: k) = bool_decide (k' = k)).
    { intros ->. apply bool_decide_ext. split; congruence. }
    assert (Nk : b' <> b -> bool_decide (b' :: k' = b :: k) = false).
    { intros N. apply bool_decide_eq_false_2. congruence. }
    destruct b, b'; cbn [has]; rewrite ?(Ek eq_refl), ?Nk, ?orb_false_r by discriminate; eauto.
  - destruct W as (Hp & E & n' & -> & W). case_bool_decide as Ep.
    + cbn [has]. rewrite (IHc n') by (rewrite ?length_drop; (assumption || lia)).
      rewrite andb_orb_distrib_r. f_equal.
      destruct (decide (take (length p) k' = p)) as [Ep'|Np'].
      * rewrite bool_decide_eq_true_2 by exact Ep'. cbn. apply bool_decide_ext.
        split; [|now intros ->]. intros Ed.
        now rewrite (take_length_app _ _ Ep'), (take_length_app _ _ Ep), Ed.
      * rewrite bool_decide_eq_false_2 by exact Np'. cbn. symmetry. apply bool_decide_eq_false_2.
        now intros ->.
    + apply (split_edge_has p c k n'); auto. lia.
Qed.

(** *** Deletion *)

Lemma merge_wf p c n : p <> [] -> wf n c -> wf (length p + n) (merge p c).
Proof.
  intros Hp W. destruct c as [|l r|q d]; cbn [merge].
  - cbn. split; [exact Hp|]. split; [reflexivity|]. now exists n.
  - split; [exact Hp|]. split; [reflexivity|]. now exists n.
  - destruct W as (Hq & E & n' & -> & W). split; [now destruct p|]. split; [exact E|].
    exists n'. split; [rewrite length_app; lia | exact W].
Qed.

Lemma has_merge p c k : has (merge p c) k = bool_decide (take (length p) k = p) && has c (drop (length p) k).
Proof.
  destruct c as [|l r|q d]; try reflexivity. cbn [merge has].
  rewrite length_app, <- drop_drop, andb_assoc. f_equal.
  rewrite <- bool_decide_and. apply bool_decide_ext. rewrite <- take_take_drop. split.
  - intros E. apply app_inj_1 in E; [exact E|]. apply (f_equal length) in E as L.
    rewrite !length_app, !length_take, length_drop in *. lia.
  - now intros [-> ->].
Qed.

Lemma has_merge_bit a c b k : has (merge [a] c) (b :: k) = Bool.eqb a b && has c k.
Proof.
  rewrite has_merge. cbn. rewrite drop_0. f_equal. destruct (Bool.eqb_spec a b) as [->|N].
  - now apply bool_decide_eq_true_2.
  - apply bool_decide_eq_false_2. congruence.
Qed.

Lemma tdelete_spec t : forall n k, wf n t -> has t k = true ->
  match tdelete t k with
  | Some t' => wf n t' /\ forall k', length k' = n -> has t' k' = has t k' && negb (bool_decide (k' = k))
  | None => forall k', has t k' = bool_decide (k' = k)
  end.
Proof.
  induction t as [|l IHl r IHr|p c IHc]; intros n k W Hk; cbn [tdelete].
  - intros k'. cbn in *. apply bool_decide_eq_true in Hk. subst. now apply bool_decide_ext.
  - destruct W as (n' & -> & Wl & Wr). destruct k as [|b k]; [discriminate|]. cbn in Hk.
    assert (IH : match tdelete (if b then r else l) k with
      | Some t' => wf n' t' /\ forall k', length k' = n' ->
          has t' k' = has (if b then r else l) k' && negb (bool_decide (k' = k))
      | None => forall k', has (if b then r else l) k' = bool_decide (k' = k) end)
      by (destruct b; [exact (IHr n' k Wr Hk) | exact (IHl n' k Wl Hk)]).
    assert (Ek : forall b' k', bool_decide (b' :: k' = b :: k) = Bool.eqb b' b && bool_decide (k' = k)).
    { intros b' k'. destruct (Bool.eqb_spec b' b) as [->|N];
        [apply bool_decide_ext; split; congruence | apply bool_decide_eq_false_2; congruence]. }
    destruct (tdelete (if b then r else l) k) as [t'|].
    + destruct IH as [W' IH]. split; [destruct b; exists n'; auto|].
      intros [|b' k'] L'; [discriminate|]. injection L' as L'. rewrite Ek.
      destruct b, b'; cbn [has Bool.eqb negb andb]; rewrite ?andb_true_r; auto.
    + split.
      * change (S n') with (length [negb b] + n'). apply merge_wf; [easy | now destruct b].
      * intros [|b' k'] L'; [discriminate|]. rewrite has_merge_bit, Ek. cbn [has].
        destruct b, b'; cbn; rewrite ?andb_true_r, ?IH; try reflexivity; now rewrite andb_negb_r.
  - destruct W as (Hp & E & n' & -> & W). cbn in Hk. apply andb_true_iff in Hk as [Ep Hk].
    apply bool_decide_eq_true in Ep. specialize (IHc n' _ W Hk).
    assert (Ek : forall k', bool_decide (k' = k) =
      bool_decide (take (length p) k' = p) && bool_decide (drop (length p) k' = drop (length p) k)).
    { intros k'. rewrite <- bool_decide_and. apply bool_decide_ext. split; [now intros ->|].
      intros [E1 E2]. now rewrite (take_length_app _ _ E1), (take_length_app _ _ Ep), E2. }
    destruct (tdelete c (drop (length p) k)) as [c'|].
    + destruct IHc as [W' IH]. split; [now apply merge_wf|]. intros k' L'.
      rewrite has_merge, Ek. cbn [has]. rewrite IH by (rewrite length_drop; lia).
      destruct (bool_decide (take (length p) k' = p)); [|reflexivity]. cbn. reflexivity.
    + intros k'. cbn [has]. now rewrite IHc, Ek.
Qed.

(** Deletion leaves an edge below a binary node that lost a child, and what is
    left of a binary node is one, or an edge. *)
Lemma tdelete_bin_edge l r b k t' : tdelete (TBin l r) (b :: k) = Some t' ->
  tdelete (if b then r else l) k <> None -> is_edge t' = false.
Proof. cbn. destruct (tdelete _ k); [|easy]. intros [= <-] _. now destruct b. Qed.
