(* ===== verification/TreeHash.v ===== *)
(** Hashes of the tree: the hash of a trie as the code computes it, the
    recursive definition of a Starknet commitment, and that the two agree. *)

From Stdlib Require Import ZArith Lia Bool List.
From stdpp Require Import gmap list.
From S2P Require Import Prelude Bytes Words Montgomery MontgomeryFacts MontBytes NumberTheory Fields Felt.
From S2P Require Import Poseidon Curve Pedersen MerkleNode TrieSpec.

(** ** The hash functions *)

(** What the trait [FeltHash] promises: valid elements are hashed to a valid
    element, without a panic. *)
Class FeltHash (H : Felt -> Felt -> outcome Felt) : Prop :=
  hash_total : forall a b, felt_ok a -> felt_ok b -> exists h, H a b = Ret h /\ felt_ok h.

Definition PedersenHash (t : PedersenTables) (a b : Felt) : outcome Felt := pedersen_hash t a b.

Definition PoseidonHash (a b : Felt) : outcome Felt :=
  felt_of_mont (@poseidon_hash MontFelt (mont_of_felt a) (mont_of_felt b)).

Lemma PedersenHash_total t : tables_ok t -> FeltHash (PedersenHash t).
Proof.
  intros Ht a b Ha Hb. destruct (pedersen_hash_spec t a b Ht Ha Hb) as (f & E & Hf & _).
  exists f. split; [exact E | exact Hf].
Qed.

Lemma poseidon_hash_canonical x y : @canonical MontFelt x -> @canonical MontFelt y ->
  @canonical MontFelt (@poseidon_hash MontFelt x y).
Proof.
  intros Hx Hy.
  assert (H2 : @canonical MontFelt (@TWO MontFelt)) by (apply canonicalb_canonical; vm_compute; reflexivity).
  exact (proj1 (proj1 (permute_val comp_const_canonical (MkState x y TWO) (conj Hx (conj Hy H2))))).
Qed.

#[export] Instance PoseidonHash_total : FeltHash PoseidonHash.
Proof.
  intros a b Ha Hb. unfold PoseidonHash.
  destruct (mont_of_felt_val a Ha) as [Ca _]. destruct (mont_of_felt_val b Hb) as [Cb _].
  destruct (felt_of_mont_spec _ (proj1 (poseidon_hash_canonical _ _ Ca Cb))) as (f & E & Hf & _).
  exists f. split; [exact E | exact Hf].
Qed.

Section Hash.
Context (H : Felt -> Felt -> outcome Felt).

(** The hash of the node of a trie at the path [pi]. *)
Fixpoint thash (val : bits -> Felt) (pi : bits) (t : trie) : outcome Felt :=
  match t with
  | TLeaf => Ret (val pi)
  | TBin l r =>
      let! hl := thash val (pi ++ [false]) l in
      let! hr := thash val (pi ++ [true]) r in
      binary_calculate_hash H hl hr
  | TEdge p c =>
      let! h := thash val (pi ++ p) c in
      edge_calculate_hash H h p
  end.

(** ** Totality *)

Lemma byte_felt n : felt_ok (repeat 0%Z 31 ++ [(n mod 256)%Z]) /\
  felt_from_be_bytes (repeat 0%Z 31 ++ [(n mod 256)%Z]) = Ok (repeat 0%Z 31 ++ [(n mod 256)%Z]).
Proof.
  pose proof (Z.mod_pos_bound n 256 ltac:(lia)) as B. set (x := (n mod 256)%Z) in *. clearbody x.
  assert (Hb : bytes_ok (repeat 0%Z 31 ++ [x])).
  { cbn. repeat constructor; lia. }
  assert (Hv : be_value (repeat 0%Z 31 ++ [x]) = x) by (unfold be_value, digits_value; cbn; lia).
  assert (Hf : felt_ok (repeat 0%Z 31 ++ [x])).
  { split; [exact Hb|]. split; [reflexivity|]. rewrite Hv. unfold field_prime. lia. }
  split; [exact Hf|]. apply felt_from_be_bytes_ok; [exact Hb | reflexivity | auto].
Qed.

Lemma edge_hash_total c p : FeltHash H -> felt_ok c -> length p <= 251 ->
  exists h, edge_calculate_hash H c p = Ret h /\ felt_ok h.
Proof.
  intros HH Hc Lp. unfold edge_calculate_hash. cbv zeta.
  destruct (byte_felt (Z.of_nat (length p))) as [Hl ->]. cbn [unwrap_result bind_outcome].
  destruct (from_bits_spec p Lp) as (f & -> & Hf & _). cbn [unwrap_result bind_outcome].
  destruct (hash_total c f Hc Hf) as (h & -> & Hh). cbn [bind_outcome].
  destruct (felt_add_spec _ _ Hh Hl) as (s & -> & Hs & _). eauto.
Qed.

Lemma thash_total val t : FeltHash H -> (forall k, felt_ok (val k)) ->
  forall n pi, wf n t -> n <= 251 -> exists h, thash val pi t = Ret h /\ felt_ok h.
Proof.
  intros HH Hv. induction t as [|l IHl r IHr|p c IHc]; intros n pi W Hn; cbn [thash].
  - eauto.
  - destruct W as (n' & -> & Wl & Wr).
    destruct (IHl n' (pi ++ [false]) Wl) as (hl & -> & Ol); [lia|].
    destruct (IHr n' (pi ++ [true]) Wr) as (hr & -> & Or); [lia|]. cbn [bind_outcome].
    now apply hash_total.
  - destruct W as (_ & _ & n' & -> & W). destruct (IHc n' (pi ++ p) W) as (h & -> & Oh); [lia|].
    cbn [bind_outcome]. apply edge_hash_total; [exact HH | exact Oh | lia].
Qed.

Lemma thash_ext val val' t : forall pi, (forall k, has t k = true -> val (pi ++ k) = val' (pi ++ k)) ->
  thash val pi t = thash val' pi t.
Proof.
  induction t as [|l IHl r IHr|p c IHc]; intros pi Hv; cbn [thash].
  - f_equal. rewrite <- (app_nil_r pi). now apply Hv.
  - rewrite (IHl (pi ++ [false])), (IHr (pi ++ [true])); [reflexivity| |];
      intros k Hk; rewrite <- app_assoc; now apply Hv.
  - rewrite (IHc (pi ++ p)); [reflexivity|]. intros k Hk. rewrite <- app_assoc. apply Hv.
    now rewrite has_edge_app.
Qed.

(** ** The commitment of a finite map *)

(** Starknet defines a node by a path and the hash at its bottom: a leaf is its
    value, a subtree with one side empty lengthens the path, and one with both
    sides is the hash of the two. *)
Definition spec_hash (node : bits * Felt) : outcome Felt :=
  match node.1 with
  | [] => Ret node.2
  | _ => edge_calculate_hash H node.2 node.1
  end.

Fixpoint spec_node (n : nat) (f : bits -> option Felt) : outcome (option (bits * Felt)) :=
  match n with
  | O => Ret (match f [] with Some v => Some ([], v) | None => None end)
  | S n =>
      let! l := spec_node n (fun k => f (false :: k)) in
      let! r := spec_node n (fun k => f (true :: k)) in
      match l, r with
      | None, None => Ret None
      | Some (p, b), None => Ret (Some (false :: p, b))
      | None, Some (p, b) => Ret (Some (true :: p, b))
      | Some l, Some r =>
          let! hl := spec_hash l in
          let! hr := spec_hash r in
          let! h := H hl hr in
          Ret (Some ([], h))
      end
  end.

(** The commitment of the map from keys of [n] bits; the empty map has zero. *)
Definition spec_root (n : nat) (f : bits -> option Felt) : outcome Felt :=
  let! node := spec_node n f in
  match node with
  | None => Ret FELT_ZERO
  | Some node => spec_hash node
  end.

Definition thead (val : bits -> Felt) (pi : bits) (t : trie) : outcome (option (bits * Felt)) :=
  match t with
  | TEdge p c => let! h := thash val (pi ++ p) c in Ret (Some (p, h))
  | _ => let! h := thash val pi t in Ret (Some ([], h))
  end.

Lemma thead_hash val pi t n : wf n t ->
  thash val pi t = let! o := thead val pi t in
                   match o with None => Ret FELT_ZERO | Some node => spec_hash node end.
Proof.
  destruct t as [|l r|p c]; intros W; cbn [thead].
  - reflexivity.
  - now destruct (thash val pi (TBin l r)).
  - cbn [thash]. destruct (thash val (pi ++ p) c); [|reflexivity]. cbn [bind_outcome].
    destruct W as (Hp & _). unfold spec_hash. cbn. now destruct p.
Qed.

Lemma thead_some val pi t : thead val pi t = Panic \/ exists node, thead val pi t = Ret (Some node).
Proof.
  destruct t as [|l r|p c]; cbn [thead]; [destruct (thash val pi TLeaf) | destruct (thash val pi (TBin l r))
    | destruct (thash val (pi ++ p) c)]; cbn [bind_outcome]; eauto.
Qed.

Lemma spec_node_none n : forall f, (forall k, length k = n -> f k = None) -> spec_node n f = Ret None.
Proof.
  induction n as [|n IH]; intros f Hf; cbn [spec_node]; [now rewrite Hf|].
  rewrite !IH; [reflexivity| |]; intros k Hk; apply Hf; cbn; lia.
Qed.

(** A well-formed trie hashes to the commitment of its map. *)
Lemma spec_node_trie n : forall t f val pi, wf n t ->
  (forall k, length k = n -> f k = if has t k then Some (val (pi ++ k)) else None) ->
  spec_node n f = thead val pi t.
Proof.
  induction n as [|n IH]; intros t f val pi W Hf.
  - assert (t = TLeaf) as ->.
    { destruct t; [reflexivity|..]; apply wf_pos in W; lia || discriminate. }
    cbn. rewrite (Hf []) by reflexivity. cbn. now rewrite app_nil_r.
  - assert (Sub : forall b, spec_node n (fun k => f (b :: k)) =
      match deriv t b with Some t' => thead val (pi ++ [b]) t' | None => Ret None end).
    { intros b. pose proof (fun k => deriv_has n t b k W) as Hd. destruct (deriv t b) as [t'|] eqn:Et.
      - apply IH; [exact (deriv_wf n t b t' W Et)|]. intros k Hk. rewrite Hf by (cbn; lia).
        rewrite Hd, <- app_assoc by exact Hk. reflexivity.
      - apply spec_node_none. intros k Hk. rewrite Hf by (cbn; lia). now rewrite Hd. }
    cbn [spec_node]. rewrite !Sub. clear Sub. destruct t as [|l r|p c]; cbn [deriv].
    + discriminate W.
    + destruct W as (n' & En & Wl & Wr). cbn [thead thash]. unfold binary_calculate_hash.
      rewrite (thead_hash val _ l n' Wl), (thead_hash val _ r n' Wr).
      destruct (thead_some val (pi ++ [false]) l) as [->|[nl ->]]; [reflexivity|].
      destruct (thead_some val (pi ++ [true]) r) as [->|[nr ->]]; cbn [bind_outcome].
      * now destruct (spec_hash nl).
      * destruct nl as [pl bl], nr as [pr br]. destruct (spec_hash (pl, bl)); [|reflexivity].
        destruct (spec_hash (pr, br)); [|reflexivity]. cbn [bind_outcome]. reflexivity.
    + destruct W as (Hp & Ec & n' & En & W). destruct p as [|a p]; [easy|].
      assert (Hd : thead val (pi ++ [a]) (mk_edge p c)
        = let! h := thash val (pi ++ a :: p) c in Ret (Some (p, h))).
      { destruct p as [|a' p]; cbn [mk_edge]; [|cbn [thead]; now rewrite <- app_assoc].
        now destruct c. }
      destruct a; cbn [Bool.eqb]; rewrite Hd; cbn [thead bind_outcome];
        now destruct (thash val _ c).
Qed.

Lemma spec_root_trie n t f val : wf n t ->
  (forall k, length k = n -> f k = if has t k then Some (val k) else None) ->
  spec_root n f = thash val [] t.
Proof.
  intros W Hf. unfold spec_root. rewrite (spec_node_trie n t f val [] W Hf), (thead_hash val [] t n W).
  reflexivity.
Qed.

Lemma spec_root_none n f : (forall k, length k = n -> f k = None) -> spec_root n f = Ret FELT_ZERO.
Proof. intros Hf. unfold spec_root. now rewrite spec_node_none. Qed.
End Hash.
