(* ===== verification/TreeRep.v ===== *)
(** Representation of a trie by the memory of the tree and its storage, and the
    traversal.  A node that is not resolved stands for the subtree storage has
    at its index.  The representation carries the set of cells it owns, which
    makes the graph of nodes a tree, the multiset of storage indices it still
    stands for, and a predicate that holds of the nodes not resolved yet. *)

From Stdlib Require Import ZArith Lia Bool List.
From stdpp Require Import gmap gmultiset list sets.
From S2P Require Import Prelude Bytes Felt MerkleNode Tree TrieSpec.

Definition idxs (si : option TrieStorageIndex) : gmultiset Z :=
  match si with Some i => {[+ i +]} | None => ∅ end.

Lemma idxs_binary (i : Z) (A B : gmultiset Z) : {[+ i +]} ⊎ A ⊎ B = idxs (Some i) ⊎ (A ⊎ B).
Proof. unfold idxs. multiset_solver. Qed.

Lemma idxs_leaves (i : Z) : {[+ i +]} = idxs (Some i) ⊎ (∅ ⊎ ∅).
Proof. unfold idxs. multiset_solver. Qed.

Lemma idxs_leaf (i : Z) : {[+ i +]} = idxs (Some i) ⊎ ∅.
Proof. unfold idxs. multiset_solver. Qed.

(** ** Memory *)

Definition mem_ok (m : Mem) : Prop := forall x, is_Some (cells m !! x) -> x < next m.

(** No node is loaded. *)
Definition no_mem : Mem := MkMem ∅ 0.

Lemma no_mem_ok : mem_ok no_mem.
Proof. intros x Hx. cbn in Hx. rewrite lookup_empty in Hx. now destruct Hx. Qed.

(** A step that owns the cells [F] before and [F'] after it: other cells are
    untouched and new ones are fresh. *)
Definition evolves (m : Mem) (F : gset loc) (m' : Mem) (F' : gset loc) : Prop :=
  next m <= next m' /\ mem_ok m' /\
  (forall x, x < next m -> x ∉ F -> cells m' !! x = cells m !! x) /\
  (forall x, x ∈ F' -> x ∈ F \/ next m <= x).

Lemma evolves_refl m F : mem_ok m -> evolves m F m F.
Proof. intros H. split; [lia|]. split; [exact H|]. split; auto. Qed.

Lemma evolves_trans m F m1 F1 m2 F2 : evolves m F m1 F1 -> evolves m1 F1 m2 F2 -> evolves m F m2 F2.
Proof.
  intros (L1 & _ & P1 & N1) (L2 & K2 & P2 & N2). split; [lia|]. split; [exact K2|]. split.
  - intros x Hx Hn. rewrite P2, P1 by (auto; lia || intros [H|H]%N1; (contradiction || lia)). reflexivity.
  - intros x [H|H]%N2; [apply N1 in H as [H|H]; [now left | right; lia] | right; lia].
Qed.

Lemma mem_ok_store m l n : mem_ok m -> l < next m -> mem_ok (mem_store l n m).
Proof.
  intros K Hl x [y Hx]. cbn in *. destruct (decide (x = l)) as [->|]; [exact Hl|].
  rewrite lookup_insert_ne in Hx by congruence. apply K. eauto.
Qed.

Lemma mem_ok_alloc m n : mem_ok m -> mem_ok (mem_alloc n m).
Proof.
  intros K x [y Hx]. cbn in *. destruct (decide (x = next m)) as [->|]; [lia|].
  rewrite lookup_insert_ne in Hx by congruence. enough (x < next m) by lia. apply K. eauto.
Qed.

Lemma evolves_alloc m F n : mem_ok m -> evolves m F (mem_alloc n m) ({[next m]} ∪ F).
Proof.
  intros K. split; [cbn; lia|]. split; [now apply mem_ok_alloc|]. split.
  - intros x Hx _. cbn. now rewrite lookup_insert_ne by lia.
  - intros x [->%elem_of_singleton|]%elem_of_union; [right; lia | now left].
Qed.

Lemma evolves_store m F l n : mem_ok m -> l < next m -> l ∈ F -> evolves m F (mem_store l n m) F.
Proof.
  intros K Hl HF. split; [cbn; lia|]. split; [now apply mem_ok_store|]. split; [|auto].
  intros x Hx Hn. cbn. rewrite lookup_insert_ne; [reflexivity | congruence].
Qed.

Lemma evolves_mono m F m' F' G G' : evolves m F m' F' -> F ⊆ G ->
  (forall x, x ∈ G' -> x ∈ F' \/ x ∈ G) -> evolves m G m' G'.
Proof.
  intros (L & K & P & N) HG HG'. split; [exact L|]. split; [exact K|]. split.
  - intros x Hx Hn. apply P; [exact Hx | set_solver].
  - intros x [H|H]%HG'; [apply N in H as [H|H]; [left; set_solver | now right] | now left].
Qed.

Section Rep.
Context {E : Type} (storage : Storage E) (HEIGHT : nat).

(** ** Storage *)

Inductive stored : TrieStorageIndex -> trie -> gmultiset Z -> Prop :=
| stored_binary idx l r tl tr Il Ir :
    storage_get storage idx = Ok (Some (StoredBinary l r)) ->
    stored l tl Il -> stored r tr Ir -> stored idx (TBin tl tr) ({[+ idx +]} ⊎ Il ⊎ Ir)
| stored_edge idx c p t I :
    storage_get storage idx = Ok (Some (StoredEdge c p)) ->
    stored c t I -> stored idx (TEdge p t) ({[+ idx +]} ⊎ I)
| stored_leaf_binary idx :
    storage_get storage idx = Ok (Some StoredLeafBinary) ->
    stored idx (TBin TLeaf TLeaf) {[+ idx +]}
| stored_leaf_edge idx p :
    storage_get storage idx = Ok (Some (StoredLeafEdge p)) ->
    stored idx (TEdge p TLeaf) {[+ idx +]}.

(** ** Representation *)

(** What is known of the nodes that are not resolved: the path to the node, its
    index and the trie it stands for. *)
Context (U : bits -> TrieStorageIndex -> trie -> Prop).

(** The node in cell [l] at height [h], reached by [pi], represents a trie. *)
Inductive irep (m : gmap loc InternalNode)
  : loc -> nat -> bits -> trie -> gset loc -> gmultiset Z -> Prop :=
| irep_leaf l h pi :
    m !! l = Some Leaf -> irep m l h pi TLeaf {[l]} ∅
| irep_unresolved l h pi idx t I :
    m !! l = Some (Unresolved idx) -> stored idx t I -> U pi idx t -> irep m l h pi t {[l]} I
| irep_binary l h pi si a b ta tb Fa Fb Ia Ib :
    m !! l = Some (Binary (MkBinary si h a b)) ->
    irep m a (S h) (pi ++ [false]) ta Fa Ia -> irep m b (S h) (pi ++ [true]) tb Fb Ib ->
    Fa ## Fb -> l ∉ Fa -> l ∉ Fb ->
    irep m l h pi (TBin ta tb) ({[l]} ∪ (Fa ∪ Fb)) (idxs si ⊎ (Ia ⊎ Ib))
| irep_edge l h pi si p c t F I :
    m !! l = Some (Edge (MkEdge si h p c)) ->
    irep m c (h + length p) (pi ++ p) t F I -> l ∉ F ->
    irep m l h pi (TEdge p t) ({[l]} ∪ F) (idxs si ⊎ I).

(** The predicate passes from a stored node to its children. *)
Record closed : Prop := {
  closed_binary pi idx l r tl tr : storage_get storage idx = Ok (Some (StoredBinary l r)) ->
    U pi idx (TBin tl tr) -> U (pi ++ [false]) l tl /\ U (pi ++ [true]) r tr;
  closed_edge pi idx c p t : storage_get storage idx = Ok (Some (StoredEdge c p)) ->
    U pi idx (TEdge p t) -> U (pi ++ p) c t
}.

Lemma irep_frame m m' l h pi t F I : irep m l h pi t F I ->
  (forall x, x ∈ F -> m' !! x = m !! x) -> irep m' l h pi t F I.
Proof.
  induction 1; intros P; econstructor; eauto; try (rewrite P by set_solver; eassumption).
  - apply IHirep1. set_solver.
  - apply IHirep2. set_solver.
  - apply IHirep. set_solver.
Qed.

Lemma irep_self m l h pi t F I : irep m l h pi t F I -> l ∈ F.
Proof. destruct 1; set_solver. Qed.

Lemma irep_bound m l h pi t F I : mem_ok m -> irep (cells m) l h pi t F I -> forall x, x ∈ F -> x < next m.
Proof.
  intros K. induction 1; intros x Hx; try (apply K; set_solver).
  - apply elem_of_union in Hx as [Hx|[Hx|Hx]%elem_of_union]; [|auto|auto].
    apply elem_of_singleton in Hx as ->. apply K. eauto.
  - apply elem_of_union in Hx as [Hx|Hx]; [|auto]. apply elem_of_singleton in Hx as ->. apply K. eauto.
Qed.

(** The representation of a node outside of its cell. *)
Inductive nrep (m : gmap loc InternalNode)
  : InternalNode -> nat -> bits -> trie -> gset loc -> gmultiset Z -> Prop :=
| nrep_leaf h pi : nrep m Leaf h pi TLeaf ∅ ∅
| nrep_unresolved h pi idx t I : stored idx t I -> U pi idx t -> nrep m (Unresolved idx) h pi t ∅ I
| nrep_binary h pi si a b ta tb Fa Fb Ia Ib :
    irep m a (S h) (pi ++ [false]) ta Fa Ia -> irep m b (S h) (pi ++ [true]) tb Fb Ib -> Fa ## Fb ->
    nrep m (Binary (MkBinary si h a b)) h pi (TBin ta tb) (Fa ∪ Fb) (idxs si ⊎ (Ia ⊎ Ib))
| nrep_edge h pi si p c t F I :
    irep m c (h + length p) (pi ++ p) t F I ->
    nrep m (Edge (MkEdge si h p c)) h pi (TEdge p t) F (idxs si ⊎ I).

Lemma irep_node m l h pi t F I : irep m l h pi t F I <->
  exists n F0, m !! l = Some n /\ nrep m n h pi t F0 I /\ l ∉ F0 /\ F = {[l]} ∪ F0.
Proof.
  split.
  - destruct 1; do 2 eexists; (split; [eassumption|]); (split; [econstructor; eassumption|]);
      (split; [set_solver | set_solver]).
  - intros (n & F0 & Hl & R & L & ->). destruct R.
    + rewrite union_empty_r_L. now constructor.
    + rewrite union_empty_r_L. econstructor; eassumption.
    + apply (irep_binary _ _ _ _ _ a b); (assumption || set_solver).
    + apply (irep_edge _ _ _ _ _ _ c); assumption.
Qed.

Lemma nrep_frame m m' n h pi t F I : nrep m n h pi t F I ->
  (forall x, x ∈ F -> m' !! x = m !! x) -> nrep m' n h pi t F I.
Proof.
  destruct 1; intros P; constructor; auto; (eapply irep_frame; [eassumption | set_solver]).
Qed.

(** A representation survives a step on cells it does not own. *)
Lemma irep_evolves m m' F0 F0' l h pi t F I : mem_ok m -> irep (cells m) l h pi t F I ->
  evolves m F0 m' F0' -> F ## F0 -> irep (cells m') l h pi t F I /\ F ## F0'.
Proof.
  intros K R (_ & _ & P & N) D. pose proof (irep_bound _ _ _ _ _ _ _ K R) as B. split.
  - apply (irep_frame _ _ _ _ _ _ _ _ R). intros x Hx. apply P; [auto | set_solver].
  - intros x Hx [H|H]%N; [set_solver | specialize (B x Hx); lia].
Qed.

(** *** Steps below a node *)

(** The child of a binary node on side [d] is replaced by a step. *)
Lemma irep_step_binary m m' l h pi si a b ta tb Fa Fb Ia Ib (d : bool) t' F' I' :
  mem_ok m -> cells m !! l = Some (Binary (MkBinary si h a b)) ->
  irep (cells m) a (S h) (pi ++ [false]) ta Fa Ia -> irep (cells m) b (S h) (pi ++ [true]) tb Fb Ib ->
  Fa ## Fb -> l ∉ Fa -> l ∉ Fb ->
  irep (cells m') (if d then b else a) (S h) (pi ++ [d]) t' F' I' ->
  evolves m (if d then Fb else Fa) m' F' ->
  irep (cells m') l h pi (if d then TBin ta t' else TBin t' tb)
    ({[l]} ∪ (if d then Fa ∪ F' else F' ∪ Fb)) (idxs si ⊎ (if d then Ia ⊎ I' else I' ⊎ Ib)) /\
  evolves m ({[l]} ∪ (Fa ∪ Fb)) m' ({[l]} ∪ (if d then Fa ∪ F' else F' ∪ Fb)).
Proof.
  intros K Hl Ra Rb D La Lb R' V.
  assert (Hlt : l < next m) by (apply K; eauto).
  assert (Hl' : cells m' !! l = Some (Binary (MkBinary si h a b))).
  { destruct V as (_ & _ & P & _). rewrite P; [exact Hl | exact Hlt | destruct d; set_solver]. }
  assert (LF : l ∉ F').
  { destruct V as (_ & _ & _ & N). intros [H|H]%N; [destruct d; set_solver | lia]. }
  split; [|eapply evolves_mono; [exact V | destruct d; set_solver | destruct d; set_solver]].
  destruct d.
  - destruct (irep_evolves _ _ _ _ _ _ _ _ _ _ K Ra V D) as [Ra' D']. now apply (irep_binary _ _ _ _ _ a b).
  - destruct (irep_evolves _ _ _ _ _ _ _ _ _ _ K Rb V) as [Rb' D']; [set_solver|].
    now apply (irep_binary _ _ _ _ _ a b).
Qed.

(** The child of an edge is replaced by a step. *)
Lemma irep_step_edge m m' l h pi si p c t F I t' F' I' :
  mem_ok m -> cells m !! l = Some (Edge (MkEdge si h p c)) ->
  irep (cells m) c (h + length p) (pi ++ p) t F I -> l ∉ F ->
  irep (cells m') c (h + length p) (pi ++ p) t' F' I' -> evolves m F m' F' ->
  irep (cells m') l h pi (TEdge p t') ({[l]} ∪ F') (idxs si ⊎ I') /\
  evolves m ({[l]} ∪ F) m' ({[l]} ∪ F').
Proof.
  intros K Hl R L R' V. assert (Hlt : l < next m) by (apply K; eauto).
  split; [|eapply evolves_mono; [exact V | set_solver | set_solver]].
  destruct V as (_ & _ & P & N). apply (irep_edge _ _ _ _ _ _ c).
  - rewrite P; [exact Hl | exact Hlt | exact L].
  - exact R'.
  - intros [H|H]%N; [contradiction | lia].
Qed.

(** ** Traversal *)

(** The nodes a traversal towards [key] passes, all of them resolved. *)
Inductive walk (m : gmap loc InternalNode) (key : bits) : loc -> nat -> trie -> list loc -> Prop :=
| walk_leaf l h :
    m !! l = Some Leaf -> walk m key l h TLeaf [l]
| walk_stop l h si p c t :
    m !! l = Some (Edge (MkEdge si h p c)) -> take (length p) (drop h key) <> p ->
    walk m key l h (TEdge p t) [l]
| walk_edge l h si p c t ns :
    m !! l = Some (Edge (MkEdge si h p c)) -> take (length p) (drop h key) = p ->
    walk m key c (h + length p) t ns -> walk m key l h (TEdge p t) (l :: ns)
| walk_binary l h si a b ta tb (d : bool) ns :
    m !! l = Some (Binary (MkBinary si h a b)) -> key !! h = Some d ->
    walk m key (if d then b else a) (S h) (if d then tb else ta) ns ->
    walk m key l h (TBin ta tb) (l :: ns).

Lemma walk_nonempty m key l h t ns : walk m key l h t ns -> exists n, last ns = Some n.
Proof. destruct 1; eauto; destruct ns; cbn; eauto; rewrite last_cons; destruct (last _); eauto. Qed.

Definition resolved (n : InternalNode) : Prop := match n with Unresolved _ => False | _ => True end.

Lemma stored_not_leaf idx t I : stored idx t I -> t <> TLeaf.
Proof. now destruct 1. Qed.

Lemma evolves_alloc2 m n n' : mem_ok m ->
  evolves m ∅ (mem_alloc n' (mem_alloc n m)) ({[next m]} ∪ {[S (next m)]}).
Proof.
  intros K. eapply evolves_mono; [eapply evolves_trans|set_solver|].
  - apply (evolves_alloc m ∅ n K).
  - apply evolves_alloc, mem_ok_alloc, K.
  - cbn. set_solver.
Qed.

Lemma disjoint_succ (n : loc) : ({[n]} : gset loc) ## {[S n]}.
Proof. intros x Hx%elem_of_singleton Hy%elem_of_singleton. subst x. now apply (Nat.neq_succ_diag_r n). Qed.

(** A node resolved from storage represents the stored trie; its children are
    fresh. *)
Lemma resolve_spec idx t I h pi m : closed -> stored idx t I -> U pi idx t -> wf (HEIGHT - h) t -> mem_ok m ->
  exists n m' F, (forall tr, resolve storage HEIGHT idx h (tr, m) = Ret (Ok n, (tr, m'))) /\
    resolved n /\ nrep (cells m') n h pi t F I /\ evolves m ∅ m' F.
Proof.
  intros Cl S HU W K.
  assert (Hh : (h <? HEIGHT) = true).
  { apply Nat.ltb_lt. pose proof (wf_pos _ _ W (stored_not_leaf _ _ _ S)). lia. }
  unfold resolve. rewrite Hh. destruct S as [idx a b ta tb Ia Ib G Sa Sb|idx a p t I G Sa|idx G|idx p G];
    rewrite G; cbn [bind alloc ret]; do 3 eexists; (split; [intros tr; reflexivity|]); (split; [exact Logic.I|]).
  - split; [|apply evolves_alloc2, K].
    rewrite idxs_binary. cbn [next mem_alloc].
    destruct (closed_binary Cl _ _ _ _ _ _ G HU).
    constructor; [apply (irep_unresolved _ _ _ _ a) | apply (irep_unresolved _ _ _ _ b) | apply disjoint_succ];
      try assumption; cbn; rewrite ?lookup_insert_ne by lia; apply lookup_insert_eq.
  - split; [|apply (evolves_alloc m ∅), K]. change ({[+ idx +]} ⊎ I) with (idxs (Some idx) ⊎ I).
    rewrite union_empty_r_L. constructor. pose proof (closed_edge Cl _ _ _ _ _ G HU).
    apply (irep_unresolved _ _ _ _ a); [|exact Sa | assumption]. apply lookup_insert_eq.
  - split; [|apply evolves_alloc2, K].
    rewrite idxs_leaves. cbn [next mem_alloc].
    constructor; [apply irep_leaf | apply irep_leaf | apply disjoint_succ];
      cbn; rewrite ?lookup_insert_ne by lia; apply lookup_insert_eq.
  - split; [|apply (evolves_alloc m ∅), K].
    rewrite idxs_leaf, union_empty_r_L. constructor. apply irep_leaf, lookup_insert_eq.
Qed.

Lemma direction_spec si h a b key : h < length key ->
  exists d, key !! h = Some d /\ direction (MkBinary si h a b) key = Ret (direction_of_bool d).
Proof.
  intros Hh. destruct (lookup_lt_is_Some_2 key h Hh) as [d Hd]. exists d. split; [exact Hd|].
  unfold direction, bit_at. cbn. now rewrite Hd.
Qed.

Lemma get_child_of_bool si h a b (d : bool) :
  get_child (MkBinary si h a b) (direction_of_bool d) = if d then b else a.
Proof. now destruct d. Qed.

Lemma path_matches_spec si h p c key : h + length p <= length key ->
  path_matches (MkEdge si h p c) key = Ret (bool_decide (take (length p) (drop h key) = p)).
Proof.
  intros Hh. unfold path_matches, bits_range. cbn [edge_height path].
  rewrite (proj2 (Nat.leb_le _ _)), (proj2 (Nat.leb_le _ _)) by lia. cbn.
  replace (h + length p - h) with (length p) by lia. f_equal. apply bool_decide_ext. split; congruence.
Qed.

(** What a traversal from a node does, with enough fuel. *)
Definition traverses (fuel : nat) (t : trie) : Prop :=
  forall l h pi F I tr m acc key,
  irep (cells m) l h pi t F I -> wf (HEIGHT - h) t -> length key = HEIGHT -> mem_ok m -> h <= HEIGHT ->
  2 * (HEIGHT - h) + 2 <= fuel ->
  exists m' F' ns, traverse_loop storage HEIGHT fuel l h acc key (tr, m)
    = Ret (Ok (acc ++ ns), (tr, m')) /\
    irep (cells m') l h pi t F' I /\ evolves m F m' F' /\ walk (cells m') key l h t ns.

(** The same from a resolved node, given the traversal of its children. *)
Lemma traverse_resolved fuel t l h pi n F I tr m acc key : (forall t, traverses fuel t) ->
  cells m !! l = Some n -> resolved n -> nrep (cells m) n h pi t F I -> l ∉ F ->
  wf (HEIGHT - h) t -> length key = HEIGHT -> mem_ok m -> h <= HEIGHT -> 2 * (HEIGHT - h) <= fuel ->
  exists m' F' ns, traverse_loop storage HEIGHT (S fuel) l h acc key (tr, m)
    = Ret (Ok (acc ++ ns), (tr, m')) /\
    irep (cells m') l h pi t F' I /\ evolves m ({[l]} ∪ F) m' F' /\ walk (cells m') key l h t ns.
Proof.
  intros IH Hl Rn R L W Lk K Hh Hf. cbn [traverse_loop]. unfold bind at 1, load. rewrite Hl.
  destruct R as [h pi|h pi idx t I S|h pi si a b ta tb Fa Fb Ia Ib Ra Rb D|h pi si p c t F I Rc]; [|easy| |].
  - exists m, ({[l]} ∪ ∅), [l]. split; [reflexivity|].
    split; [rewrite union_empty_r_L; now constructor|]. split; [now apply evolves_refl | now constructor].
  - destruct W as (n' & En & Wa & Wb). destruct (direction_spec si h a b key) as (d & Hd & Ed); [lia|].
    unfold bind at 1, lift. rewrite Ed, get_child_of_bool, Nat.add_1_r.
    destruct (IH (if d then tb else ta) (if d then b else a) (S h) (pi ++ [d]) (if d then Fb else Fa)
      (if d then Ib else Ia) tr m (acc ++ [l]) key) as (m' & F' & ns & -> & R' & V & Wk);
      try (destruct d; assumption); try lia;
      [replace (HEIGHT - S h) with n' by lia; destruct d; assumption|].
    destruct (irep_step_binary m m' l h pi si a b ta tb Fa Fb Ia Ib d _ F' _ K Hl Ra Rb D
      ltac:(set_solver) ltac:(set_solver) R' V) as [R'' V'].
    exists m', ({[l]} ∪ (if d then Fa ∪ F' else F' ∪ Fb)), (l :: ns).
    split; [now rewrite <- app_assoc|]. split; [destruct d; exact R''|]. split; [exact V'|].
    assert (Hl' : cells m' !! l = Some (Binary (MkBinary si h a b))).
    { destruct V as (_ & _ & P & _). rewrite P; [exact Hl | apply K; eauto | destruct d; set_solver]. }
    now apply (walk_binary _ _ _ _ si a b ta tb d).
  - destruct W as (Hp & Ee & n' & En & W). unfold bind at 1, lift.
    rewrite path_matches_spec by lia. case_bool_decide as Ep.
    + cbn [path child]. destruct (IH t c (h + length p) (pi ++ p) F I tr m (acc ++ [l]) key)
        as (m' & F' & ns & -> & R' & V & Wk); try assumption; try lia;
        [replace (HEIGHT - (h + length p)) with n' by lia; assumption | destruct p; cbn in *; [easy|lia] |].
      destruct (irep_step_edge m m' l h pi si p c t F I t F' I K Hl Rc L R' V) as [R'' V'].
      exists m', ({[l]} ∪ F'), (l :: ns). split; [now rewrite <- app_assoc|].
      split; [exact R''|]. split; [exact V'|].
      assert (Hl' : cells m' !! l = Some (Edge (MkEdge si h p c))).
      { destruct V as (_ & _ & P & _). rewrite P; [exact Hl | apply K; eauto | exact L]. }
      now apply (walk_edge _ _ _ _ si p c).
    + exists m, ({[l]} ∪ F), [l]. split; [reflexivity|]. split; [now apply (irep_edge _ _ _ _ _ _ c)|].
      split; [now apply evolves_refl | now apply (walk_stop _ _ _ _ si p c)].
Qed.

Lemma traverse_loop_spec fuel : closed -> forall t, traverses fuel t.
Proof.
  intros Cl. induction fuel as [fuel IH] using lt_wf_ind. intros t l h pi F I tr m acc key R W Lk K Hh Hf.
  destruct fuel as [|[|fuel]]; [lia|lia|].
  pose proof R as (n & F0 & Hl & N & L & ->)%irep_node.
  destruct (decide (match n with Unresolved _ => true | _ => false end = true)) as [Un|Un].
  - destruct n as [idx|?|?|]; try discriminate Un. inversion N; subst.
    remember (S fuel) as f1. cbn [traverse_loop]. unfold bind at 1, load. rewrite Hl.
    destruct (resolve_spec idx t I h pi m) as (n & m' & F' & Er & Rn & Nr & V); [assumption..|].
    unfold bind at 1. rewrite Er. unfold bind at 1, store. subst f1.
    pose proof V as (Ln & K' & P & Fr). assert (Hlt : l < next m) by (apply K; eauto).
    assert (LF : l ∉ F') by (intros [H|H]%Fr; [set_solver | lia]).
    destruct (traverse_resolved fuel t l h pi n F' I tr (mem_store l n m') acc key)
      as (m2 & F2 & ns & Et & R2 & V2 & Wk); try assumption; try lia.
    + intros u. apply IH. lia.
    + apply lookup_insert_eq.
    + apply (nrep_frame (cells m')); [exact Nr|]. intros x Hx. cbn. apply lookup_insert_ne. congruence.
    + apply mem_ok_store; [exact K' | lia].
    + exists m2, F2, ns. split; [exact Et|]. split; [exact R2|]. split; [|exact Wk].
      eapply evolves_trans; [|exact V2]. eapply evolves_trans.
      * eapply (evolves_mono m ∅ m' F' ({[l]} ∪ ∅) ({[l]} ∪ F')); [exact V | set_solver | set_solver].
      * apply evolves_store; [exact K' | lia | set_solver].
  - apply (traverse_resolved (S fuel) t l h pi n F0 I); try assumption; try lia.
    + intros u. apply IH. lia.
    + destruct n; cbn in *; easy.
Qed.
End Rep.
