(* ===== verification/TreeOps.v ===== *)
(** The operations of the tree refine those of the specification: reading,
    setting and deleting a key. *)

From Stdlib Require Import ZArith Lia Bool List.
From stdpp Require Import gmap gmultiset list sets.
From S2P Require Import Prelude Bytes Felt MerkleNode Tree TrieSpec TreeRep.
Lemma drop_cons_lookup {A} (k : list A) h x : k !! h = Some x -> drop h k = x :: drop (S h) k.
Proof. intros. now apply drop_S. Qed.

Lemma common_path_lcp si h p c key : common_path (MkEdge si h p c) key = lcp p (drop h key).
Proof.
  unfold common_path. cbn [edge_height path]. generalize (drop h key) as k. clear.
  induction p as [|a p IH]; intros k; [now rewrite take_nil|].
  destruct k as [|b k]; [reflexivity|]. cbn.
  destruct a, b; cbn; try reflexivity; now rewrite IH.
Qed.

Section Ops.
Context {E : Type} (storage : Storage E) (HEIGHT : nat)
  (U : bits -> TrieStorageIndex -> trie -> Prop).

Abbreviation irep := (irep storage U).
Abbreviation nrep := (nrep storage U).

(** The end of a walk tells whether the key is present. *)
Lemma walk_end m key l h t ns : walk m key l h t ns -> wf (HEIGHT - h) t -> length key = HEIGHT ->
  exists n, last ns = Some n /\
    ((m !! n = Some Leaf /\ has t (drop h key) = true) \/
     (exists e, m !! n = Some (Edge e) /\ has t (drop h key) = false)).
Proof.
  induction 1 as [l h Hl|l h si p c t Hl N|l h si p c t ns Hl Ep Wk IH|l h si a b ta tb d ns Hl Hd Wk IH];
    intros W Lk; cbn in W.
  - exists l. split; [reflexivity|]. left. split; [exact Hl|]. cbn. apply bool_decide_eq_true_2.
    apply drop_ge. lia.
  - exists l. split; [reflexivity|]. right. eexists. split; [exact Hl|]. cbn.
    now rewrite bool_decide_eq_false_2.
  - destruct W as (_ & _ & n' & En & W).
    destruct IH as (n & Ln & C); [replace (HEIGHT - (h + length p)) with n' by lia; exact W | exact Lk |].
    exists n. split; [destruct ns; [discriminate | exact Ln]|]. cbn.
    rewrite bool_decide_eq_true_2 by exact Ep. rewrite drop_drop. exact C.
  - destruct W as (n' & En & Wa & Wb).
    destruct IH as (n & Ln & C); [replace (HEIGHT - S h) with n' by lia; destruct d; assumption | exact Lk |].
    exists n. split; [destruct ns; [discriminate | exact Ln]|].
    rewrite (drop_cons_lookup key h d Hd). exact C.
Qed.

(** ** Setting a key *)

Lemma new_branch_spec h pi p tr m : mem_ok m ->
  exists l m' F, new_branch (E := E) h p (tr, m) = Ret (Ok l, (tr, m')) /\
    irep (cells m') l h pi (mk_edge p TLeaf) F ∅ /\ evolves m ∅ m' F.
Proof.
  intros K. destruct p as [|b p]; cbn [new_branch].
  - do 3 eexists. split; [reflexivity|]. split; [apply irep_leaf, lookup_insert_eq|].
    eapply evolves_mono; [now apply (evolves_alloc m ∅) | set_solver | set_solver].
  - unfold bind, alloc. do 3 eexists. split; [reflexivity|]. cbn [next mem_alloc].
    split; [|eapply evolves_mono; [now apply evolves_alloc2 | set_solver | intros x H; left; exact H]].
    change (mk_edge (b :: p) TLeaf) with (TEdge (b :: p) TLeaf).
    replace ∅ with (idxs None ⊎ (∅ : gmultiset Z)) by (unfold idxs; multiset_solver).
    rewrite (union_comm_L {[next m]}).
    apply (irep_edge _ _ _ _ _ _ _ _ (next m)); [apply lookup_insert_eq | | pose proof (disjoint_succ (next m)); set_solver].
    apply irep_leaf. cbn. rewrite lookup_insert_ne by lia. apply lookup_insert_eq.
Qed.

Lemma old_branch_spec si h0 p0 c h pi p t F I tr m : mem_ok m ->
  irep (cells m) c (h + length p) (pi ++ p) t F I ->
  exists l m' F', old_branch (E := E) (MkEdge si h0 p0 c) h p (tr, m) = Ret (Ok l, (tr, m')) /\
    irep (cells m') l h pi (mk_edge p t) F' I /\ evolves m F m' F'.
Proof.
  intros K R. destruct p as [|b p]; cbn [old_branch child].
  - exists c, m, F. split; [reflexivity|]. cbn in R. rewrite Nat.add_0_r, app_nil_r in R.
    split; [exact R | now apply evolves_refl].
  - do 3 eexists. split; [reflexivity|]. split; [|now apply evolves_alloc].
    change (mk_edge (b :: p) t) with (TEdge (b :: p) t).
    replace I with (idxs None ⊎ I) by (unfold idxs; multiset_solver).
    assert (Fr : next m ∉ F) by (intros H; pose proof (irep_bound _ _ _ _ _ _ _ _ _ K R _ H); lia).
    apply (irep_edge _ _ _ _ _ _ _ _ c); [apply lookup_insert_eq | | exact Fr].
    apply (irep_frame _ _ (cells m)); [exact R|]. intros x Hx. cbn. apply lookup_insert_ne. congruence.
Qed.

Lemma leading_edge_spec si h pi p0 c com n t F I tr m : mem_ok m ->
  nrep (cells m) n (h + length com) (pi ++ com) t F I -> (forall x, x ∈ F -> x < next m) ->
  exists n' m' F', leading_edge (E := E) (MkEdge si h p0 c) com n (tr, m) = Ret (Ok n', (tr, m')) /\
    nrep (cells m') n' h pi (mk_edge com t) F' I /\ evolves m F m' F'.
Proof.
  intros K R B. destruct com as [|b com]; cbn [leading_edge].
  - cbn in R. rewrite Nat.add_0_r, app_nil_r in R. exists n, m, F. split; [reflexivity|].
    split; [exact R | now apply evolves_refl].
  - unfold bind, alloc, ret. do 3 eexists. split; [reflexivity|]. split; [|now apply evolves_alloc].
    change (mk_edge (b :: com) t) with (TEdge (b :: com) t).
    replace I with (idxs None ⊎ I) by (unfold idxs; multiset_solver).
    cbn [edge_height]. constructor. apply irep_node. exists n, F. split; [apply lookup_insert_eq|].
    assert (Fr : next m ∉ F) by (intros H; specialize (B _ H); lia).
    split; [|split; [exact Fr | reflexivity]].
    apply (nrep_frame _ _ (cells m)); [exact R|]. intros x Hx. cbn. apply lookup_insert_ne. congruence.
Qed.

Lemma bits_from_drop key i : i <= length key -> bits_from key i = Ret (drop i key).
Proof. intros H. unfold bits_from. now rewrite (proj2 (Nat.leb_le _ _)). Qed.

Lemma irep_empty_evolves m m' F' l h pi t F I : mem_ok m -> irep (cells m) l h pi t F I ->
  evolves m ∅ m' F' -> irep (cells m') l h pi t F I /\ F ## F'.
Proof. intros K R V. apply (irep_evolves _ _ m m' ∅); [exact K | exact R | exact V | set_solver]. Qed.

(** The node that replaces an edge the key leaves. *)
Lemma updated_edge_spec si h pi p c t F I tr m key : mem_ok m -> p <> [] ->
  irep (cells m) c (h + length p) (pi ++ p) t F I -> h + length p <= length key ->
  take (length p) (drop h key) <> p ->
  exists n m' F', updated_node (E := E) (Edge (MkEdge si h p c)) key (tr, m) = Ret (Ok n, (tr, m')) /\
    nrep (cells m') n h pi (split_edge p t (drop h key)) F' I /\ evolves m F m' F'.
Proof.
  intros K Hp R Lk N.
  destruct (lcp_split p (drop h key)) as (com & a & p' & k' & Ep & Ek & El); [rewrite length_drop; lia | exact N|].
  assert (Lkey : length key = h + (length com + S (length k'))).
  { apply (f_equal length) in Ek. rewrite length_drop, length_app in Ek. cbn in Ek. lia. }
  unfold updated_node. rewrite common_path_lcp, El. cbn [edge_height path].
  assert (E1 : bits_from key (h + length com + 1) = Ret k').
  { rewrite bits_from_drop by lia. f_equal. rewrite <- Nat.add_assoc, <- drop_drop, Ek, drop_app_add. reflexivity. }
  assert (E2 : bits_from p (length com + 1) = Ret p').
  { rewrite bits_from_drop by (subst p; rewrite length_app; cbn; lia). f_equal.
    rewrite Ep, drop_app_add. reflexivity. }
  assert (E3 : bit_at key (h + length com) = Ret (negb a)).
  { unfold bit_at. rewrite <- lookup_drop, Ek, list_lookup_middle by reflexivity. reflexivity. }
  unfold bind at 1, lift at 1. rewrite E1. unfold bind at 1, lift at 1. rewrite E2.
  destruct (new_branch_spec (h + length com + 1) ((pi ++ com) ++ [negb a]) k' tr m K) as (ln & m1 & Fn & N1 & Rn & V1).
  unfold bind at 1. rewrite N1. pose proof (proj1 (proj2 V1)) as K1.
  destruct (irep_empty_evolves _ _ _ _ _ _ _ _ _ K R V1) as [R1 D1].
  replace (h + length p) with (h + length com + 1 + length p') in R1
    by (rewrite Ep, length_app; cbn; lia).
  replace (pi ++ p) with (((pi ++ com) ++ [a]) ++ p') in R1 by (rewrite Ep; now rewrite <- !app_assoc).
  destruct (old_branch_spec si h p c (h + length com + 1) ((pi ++ com) ++ [a]) p' t F I tr m1 K1 R1)
    as (lo & m2 & Fo & N2 & Ro & V2).
  unfold bind at 1. rewrite N2. unfold bind at 1, lift at 1. rewrite E3.
  pose proof (proj1 (proj2 V2)) as K2.
  destruct (irep_evolves _ _ _ _ _ _ _ _ _ _ _ _ K1 Rn V2) as [Rn2 D2]; [set_solver|].
  rewrite Ep, Ek, split_edge_eq by (rewrite <- Ep, <- Ek; exact El).
  assert (V : evolves m F m2 (Fn ∪ Fo)).
  { apply (evolves_trans _ _ m1 (F ∪ Fn)).
    - eapply evolves_mono; [exact V1 | set_solver | set_solver].
    - eapply evolves_mono; [exact V2 | set_solver | set_solver]. }
  assert (B : forall x, x ∈ Fn ∪ Fo -> x < next m2).
  { intros x [Hx|Hx]%elem_of_union; [exact (irep_bound _ _ _ _ _ _ _ _ _ K2 Rn2 _ Hx)
    | exact (irep_bound _ _ _ _ _ _ _ _ _ K2 Ro _ Hx)]. }
  rewrite Nat.add_1_r in Rn2, Ro.
  destruct a; cbn [negb direction_of_bool] in *.
  - destruct (leading_edge_spec si h pi p c com
      (Binary (MkBinary None (h + length com) ln lo)) (TBin (mk_edge k' TLeaf) (mk_edge p' t))
      (Fn ∪ Fo) I tr m2 K2) as (n & m3 & F3 & N3 & R3 & V3); [|exact B|].
    + replace I with (idxs None ⊎ (∅ ⊎ I)) by (unfold idxs; multiset_solver). now constructor.
    + exists n, m3, F3. split; [exact N3|]. split; [exact R3|].
      eapply evolves_trans; eassumption.
  - destruct (leading_edge_spec si h pi p c com
      (Binary (MkBinary None (h + length com) lo ln)) (TBin (mk_edge p' t) (mk_edge k' TLeaf))
      (Fn ∪ Fo) I tr m2 K2) as (n & m3 & F3 & N3 & R3 & V3); [|exact B|].
    + replace I with (idxs None ⊎ (I ⊎ ∅)) by (unfold idxs; multiset_solver).
      rewrite (union_comm_L Fn). now constructor.
    + exists n, m3, F3. split; [exact N3|]. split; [exact R3|].
      eapply evolves_trans; eassumption.
Qed.

(** The tree with more indices marked as removed. *)
Definition push_rem (l : list TrieStorageIndex) (tr : MerkleTree) : MerkleTree :=
  MkTree (root tr) (leaves tr) (nodes_removed tr ++ l) (verify_hashes tr).

Definition indices (l : list TrieStorageIndex) : gmultiset Z := list_to_set_disj l.

Lemma indices_option si : indices (option_list si) = idxs si.
Proof.
  destruct si; unfold indices, idxs, option_list; [|reflexivity].
  rewrite list_to_set_disj_cons, list_to_set_disj_nil. multiset_solver.
Qed.

Lemma irep_edge_inv m l h pi t F I si p c : irep m l h pi t F I -> m !! l = Some (Edge (MkEdge si h p c)) ->
  exists u F0 I0, t = TEdge p u /\ irep m c (h + length p) (pi ++ p) u F0 I0 /\ l ∉ F0 /\
    F = {[l]} ∪ F0 /\ I = idxs si ⊎ I0.
Proof. intros R Hl. destruct R; try congruence. simplify_eq. do 3 eexists. eauto 6. Qed.

Lemma irep_binary_inv m l h pi t F I si a b : irep m l h pi t F I ->
  m !! l = Some (Binary (MkBinary si h a b)) ->
  exists ta tb Fa Fb Ia Ib, t = TBin ta tb /\ irep m a (S h) (pi ++ [false]) ta Fa Ia /\
    irep m b (S h) (pi ++ [true]) tb Fb Ib /\
    Fa ## Fb /\ l ∉ Fa /\ l ∉ Fb /\ F = {[l]} ∪ (Fa ∪ Fb) /\ I = idxs si ⊎ (Ia ⊎ Ib).
Proof. intros R Hl. destruct R; try congruence. simplify_eq. do 6 eexists. eauto 12. Qed.

Lemma last_cons_ne {A} (x : A) l n : last l = Some n -> last (x :: l) = Some n.
Proof. destruct l; [discriminate | auto]. Qed.

Lemma replace_last_edge si h pi p c u F I tr m key l : mem_ok m -> p <> [] ->
  cells m !! l = Some (Edge (MkEdge si h p c)) ->
  irep (cells m) c (h + length p) (pi ++ p) u F I -> l ∉ F -> h + length p <= length key ->
  take (length p) (drop h key) <> p ->
  exists m' F', replace_last (E := E) l key (tr, m) = Ret (Ok tt, (push_rem (option_list si) tr, m')) /\
    irep (cells m') l h pi (split_edge p u (drop h key)) F' I /\ evolves m ({[l]} ∪ F) m' F'.
Proof.
  intros K Hp Hl R L Lk N. assert (Hlt : l < next m) by (apply K; eauto).
  destruct (updated_edge_spec si h pi p c u F I tr m key K Hp R Lk N) as (n & m1 & F1 & Un & R1 & V1).
  unfold replace_last. unfold bind at 1, load at 1. rewrite Hl. unfold bind at 1. rewrite Un.
  cbv beta iota. pose proof V1 as (Ln & K1 & P & Fr). unfold bind at 1, load at 1. rewrite (P l Hlt L), Hl.
  assert (LF : l ∉ F1) by (intros [H|H]%Fr; [contradiction | lia]).
  exists (mem_store l n m1), ({[l]} ∪ F1). split; [reflexivity|]. split.
  - apply irep_node. exists n, F1. split; [apply lookup_insert_eq|]. split; [|split; [exact LF | reflexivity]].
    apply (nrep_frame _ _ (cells m1)); [exact R1|]. intros x Hx. cbn. apply lookup_insert_ne. congruence.
  - apply (evolves_trans _ _ m1 ({[l]} ∪ F1)).
    + eapply evolves_mono; [exact V1 | set_solver | set_solver].
    + apply evolves_store; [exact K1 | lia | set_solver].
Qed.

Lemma replace_last_spec m key l h t ns : walk (cells m) key l h t ns -> forall pi F I n tr,
  irep (cells m) l h pi t F I -> wf (HEIGHT - h) t -> length key = HEIGHT -> mem_ok m -> h <= HEIGHT ->
  last ns = Some n ->
  exists m' F' I' rem, replace_last (E := E) n key (tr, m) = Ret (Ok tt, (push_rem rem tr, m')) /\
    irep (cells m') l h pi (tinsert t (drop h key)) F' I' /\ evolves m F m' F' /\ I = indices rem ⊎ I'.
Proof.
  induction 1 as [l h Hl|l h si p c t Hl N|l h si p c t ns Hl Ep Wk IH|l h si a b ta tb d ns Hl Hd Wk IH];
    intros pi F I n tr R W Lk K Hh Hn.
  - injection Hn as <-. assert (Hlt : l < next m) by (apply K; eauto).
    unfold replace_last, bind, load, store, push_removed. rewrite Hl. cbn [updated_node ret]. rewrite Hl.
    exists (mem_store l Leaf m), F, I, []. split; [reflexivity|]. split.
    + destruct R; try congruence. apply irep_leaf, lookup_insert_eq.
    + split; [apply evolves_store; [exact K | exact Hlt | exact (irep_self _ _ _ _ _ _ _ _ _ R)]|].
      unfold indices. rewrite list_to_set_disj_nil. clear. multiset_solver.
  - injection Hn as <-. destruct (irep_edge_inv _ _ _ _ _ _ _ _ _ _ R Hl) as (u & F0 & I0 & Eu & R0 & L & -> & ->).
    injection Eu as <-. destruct W as (Hp & _ & n' & En & W).
    destruct (replace_last_edge si h pi p c t F0 I0 tr m key l K Hp Hl R0 L ltac:(lia) N) as (m' & F' & Er & R' & V).
    exists m', F', I0, (option_list si). split; [exact Er|]. cbn [tinsert].
    rewrite bool_decide_eq_false_2 by exact N. split; [exact R'|]. split; [exact V|].
    now rewrite indices_option.
  - destruct (irep_edge_inv _ _ _ _ _ _ _ _ _ _ R Hl) as (u & F0 & I0 & Eu & R0 & L & -> & ->).
    injection Eu as <-. destruct W as (Hp & _ & n' & En & W).
    destruct (walk_nonempty _ _ _ _ _ _ Wk) as [n0 Hn0].
    rewrite (last_cons_ne l ns n0 Hn0) in Hn. injection Hn as <-.
    destruct (IH (pi ++ p) F0 I0 n0 tr R0) as (m' & F' & I' & rem & Er & R' & V & EI); try assumption; try lia;
      [replace (HEIGHT - (h + length p)) with n' by lia; exact W|].
    destruct (irep_step_edge _ _ _ _ _ _ _ _ _ _ _ _ _ _ _ _ K Hl R0 L R' V) as [R2 V2].
    exists m', ({[l]} ∪ F'), (idxs si ⊎ I'), rem. split; [exact Er|]. cbn [tinsert].
    rewrite bool_decide_eq_true_2, drop_drop by exact Ep. split; [exact R2|]. split; [exact V2|].
    rewrite EI. clear. multiset_solver.
  - destruct (irep_binary_inv _ _ _ _ _ _ _ _ _ _ R Hl)
      as (ta' & tb' & Fa & Fb & Ia & Ib & Eu & Ra & Rb & D & La & Lb & -> & ->).
    injection Eu as <- <-. destruct W as (n' & En & Wa & Wb).
    destruct (walk_nonempty _ _ _ _ _ _ Wk) as [n0 Hn0].
    rewrite (last_cons_ne l ns n0 Hn0) in Hn. injection Hn as <-.
    destruct (IH (pi ++ [d]) (if d then Fb else Fa) (if d then Ib else Ia) n0 tr) as (m' & F' & I' & rem & Er & R' & V & EI);
      try assumption; try lia; [destruct d; assumption | replace (HEIGHT - S h) with n' by lia; destruct d; assumption|].
    destruct (irep_step_binary _ _ _ m' l h pi si a b ta tb Fa Fb Ia Ib d _ F' I' K Hl Ra Rb D La Lb R' V) as [R2 V2].
    exists m', ({[l]} ∪ (if d then Fa ∪ F' else F' ∪ Fb)), (idxs si ⊎ (if d then Ia ⊎ I' else I' ⊎ Ib)), rem.
    split; [exact Er|]. rewrite (drop_cons_lookup key h d Hd). cbn [tinsert].
    split; [destruct d; exact R2|]. split; [exact V2|]. destruct d; rewrite EI; clear; multiset_solver.
Qed.
End Ops.

(** * Deletion in the tree refines deletion in the specification. *)

Section Delete.
Context {E : Type} (storage : Storage E) (HEIGHT : nat)
  (U : bits -> TrieStorageIndex -> trie -> Prop) (U_closed : closed storage U).

Abbreviation irep := (irep storage U).
Abbreviation nrep := (nrep storage U).

Lemma push_rem_nil tr : push_rem [] tr = tr.
Proof. destruct tr. unfold push_rem. cbn. now rewrite app_nil_r. Qed.

Lemma push_rem_app a b tr : push_rem b (push_rem a tr) = push_rem (a ++ b) tr.
Proof. unfold push_rem. cbn. now rewrite app_assoc. Qed.

Lemma indices_app a b : indices (a ++ b) = indices a ⊎ indices b.
Proof. apply list_to_set_disj_app. Qed.

Lemma indices_nil : indices [] = ∅.
Proof. apply list_to_set_disj_nil. Qed.

(** A node that is an edge represents an edge, and conversely when it is
    resolved. *)
Lemma nrep_as_edge m n h pi t F I : nrep m n h pi t F I -> resolved n ->
  match as_edge n with
  | Some (MkEdge si h' p c) => exists u I0, h' = h /\ t = TEdge p u /\
      irep m c (h + length p) (pi ++ p) u F I0 /\ I = idxs si ⊎ I0
  | None => is_edge t = false
  end.
Proof. destruct 1; cbn; intros Rn; try easy. do 2 eexists. eauto. Qed.

Lemma merge_not_edge p t : is_edge t = false -> merge p t = TEdge p t.
Proof. now destruct t. Qed.

Lemma merge_edges_spec si h pi p c t F I m : mem_ok m ->
  irep (cells m) c (h + length p) (pi ++ p) t F I -> wf (HEIGHT - (h + length p)) t ->
  exists e m' F' I' rem, (forall tr, merge_edges storage HEIGHT (MkEdge si h p c) (tr, m)
      = Ret (Ok e, (push_rem rem tr, m'))) /\
    nrep (cells m') (Edge e) h pi (merge p t) F' (idxs si ⊎ I') /\ evolves m F m' F' /\
    I = indices rem ⊎ I'.
Proof.
  intros K R W. pose proof R as (n & F0 & Hc & N & L & EF)%irep_node.
  assert (C : exists n' m' F1, (forall tr, (match n with
      | Unresolved idx => resolve storage HEIGHT idx (h + length p)
      | other => ret other end) (tr, m) = Ret (Ok n', (tr, m'))) /\ resolved n' /\
    nrep (cells m') n' (h + length p) (pi ++ p) t F1 I /\ evolves m F m' F1 /\
    irep (cells m') c (h + length p) (pi ++ p) t F I /\ evolves m F m' F).
  { destruct (decide (match n with Unresolved _ => true | _ => false end = true)) as [Un|Un].
    - destruct n as [idx|?|?|]; try discriminate Un. inversion N; subst.
      destruct (resolve_spec storage HEIGHT U idx t I (h + length p) (pi ++ p) m) as (n' & m' & F1 & Er & Rn & Nr & V);
        [assumption..|].
      exists n', m', F1. split; [exact Er|]. split; [exact Rn|]. split; [exact Nr|].
      split; [eapply evolves_mono; [exact V | set_solver | set_solver]|].
      split; [apply (irep_empty_evolves storage U m m' F1); assumption|].
      eapply evolves_mono; [exact V | set_solver | set_solver].
    - exists n, m, F0. split; [destruct n; reflexivity || easy|]. split; [destruct n; cbn in *; easy|].
      split; [exact N|]. split; [eapply (evolves_mono m F m F); [now apply evolves_refl | done | set_solver]|].
      split; [exact R | now apply evolves_refl]. }
  destruct C as (n' & m' & F1 & E1 & Rn & Nr & V1 & R' & V).
  assert (E2 : forall tr, merge_edges storage HEIGHT (MkEdge si h p c) (tr, m) =
    match as_edge n' with
    | Some e => Ret (Ok (MkEdge si h (p ++ path e) (child e)), (push_rem (option_list (edge_storage_index e)) tr, m'))
    | None => Ret (Ok (MkEdge si h p c), (tr, m'))
    end).
  { intros tr. unfold merge_edges. unfold bind at 1, load.
    cbn [child edge_height path edge_storage_index]. rewrite Hc. unfold bind at 1. rewrite E1.
    cbv beta iota. now destruct (as_edge n'). }
  pose proof (nrep_as_edge _ _ _ _ _ _ _ Nr Rn) as A. destruct (as_edge n') as [[si' h' q d]|].
  - destruct A as (u & I0 & -> & -> & Rd & ->). cbn [edge_storage_index path child].
    exists (MkEdge si h (p ++ q) d), m', F1, I0, (option_list si'). split; [exact E2|].
    split; [|split; [exact V1 | now rewrite indices_option]].
    cbn [merge]. constructor. rewrite length_app, Nat.add_assoc, app_assoc. exact Rd.
  - exists (MkEdge si h p c), m', F, I, []. rewrite merge_not_edge by exact A.
    split; [intros tr; rewrite push_rem_nil; apply E2|]. split; [now constructor|]. split; [exact V|].
    rewrite indices_nil. clear. multiset_solver.
Qed.

(** A node put in a cell that is not one of its own. *)
Lemma store_nrep m l n h pi t F I G : mem_ok m -> l < next m -> nrep (cells m) n h pi t F I -> l ∉ F ->
  irep (cells (mem_store l n m)) l h pi t ({[l]} ∪ F) I /\
  evolves m ({[l]} ∪ F ∪ G) (mem_store l n m) ({[l]} ∪ F).
Proof.
  intros K Hl N L. split.
  - apply irep_node. exists n, F. split; [apply lookup_insert_eq|]. split; [|split; [exact L | reflexivity]].
    apply (nrep_frame _ _ (cells m)); [exact N|]. intros x Hx. cbn. apply lookup_insert_ne. congruence.
  - eapply (evolves_mono m ({[l]} ∪ F)); [apply evolves_store; [exact K | exact Hl | set_solver] | set_solver | set_solver].
Qed.

(** A binary node that loses the child on the side of the key. *)
Lemma replace_binary_spec m key l h pi si a b ta tb Fa Fb Ia Ib (d : bool) : mem_ok m ->
  cells m !! l = Some (Binary (MkBinary si h a b)) -> key !! h = Some d ->
  irep (cells m) a (S h) (pi ++ [false]) ta Fa Ia -> irep (cells m) b (S h) (pi ++ [true]) tb Fb Ib -> l ∉ Fa -> l ∉ Fb ->
  wf (HEIGHT - S h) (if d then ta else tb) ->
  exists m' F' I' rem,
    (forall tr, replace_binary storage HEIGHT l key (tr, m) = Ret (Ok tt, (push_rem rem tr, m'))) /\
    irep (cells m') l h pi (merge [negb d] (if d then ta else tb)) F' I' /\
    evolves m ({[l]} ∪ (Fa ∪ Fb)) m' F' /\
    idxs si ⊎ (if d then Ia else Ib) = indices rem ⊎ I'.
Proof.
  intros K Hl Hd Ra Rb La Lb W. assert (Hlt : l < next m) by (apply K; eauto).
  assert (Ro : irep (cells m) (if d then a else b) (h + length [negb d]) (pi ++ [negb d]) (if d then ta else tb)
    (if d then Fa else Fb) (if d then Ia else Ib)) by (cbn; rewrite Nat.add_1_r; now destruct d).
  assert (Wo : wf (HEIGHT - (h + length [negb d])) (if d then ta else tb)) by (cbn; now rewrite Nat.add_1_r).
  destruct (merge_edges_spec None h pi [negb d] (if d then a else b) _ _ _ m K Ro Wo)
    as (e & m1 & F1 & I1 & rem & Em & N1 & V1 & EI).
  pose proof V1 as (Ln & K1 & P & Fr).
  assert (LF : l ∉ F1) by (intros [H|H]%Fr; [destruct d; contradiction | lia]).
  assert (Hl1 : cells m1 !! l = Some (Binary (MkBinary si h a b)))
    by (rewrite P; [exact Hl | exact Hlt | destruct d; assumption]).
  destruct (store_nrep m1 l (Edge e) h pi _ F1 _ ∅ K1 ltac:(lia) N1 LF) as [R2 V2].
  exists (mem_store l (Edge e) m1), ({[l]} ∪ F1), (idxs None ⊎ I1), (rem ++ option_list si).
  split; [|split; [exact R2|]].
  - intros tr. unfold replace_binary. unfold bind at 1, load at 1. rewrite Hl.
    unfold bind at 1, lift at 1. cbn [as_binary unwrap_option].
    unfold bind at 1, lift at 1. unfold direction, bit_at. cbn [binary_height]. rewrite Hd.
    cbn [unwrap_option bind_outcome].
    replace (MkEdge None h [bool_of_direction (invert (direction_of_bool d))]
      (get_child (MkBinary si h a b) (invert (direction_of_bool d))))
      with (MkEdge None h [negb d] (if d then a else b)) by now destruct d.
    unfold bind at 1. rewrite Em. unfold bind at 1, load at 1. rewrite Hl1.
    rewrite <- push_rem_app. reflexivity.
  - split.
    + apply (evolves_trans _ _ m1 ({[l]} ∪ F1)).
      * eapply evolves_mono; [exact V1 | destruct d; set_solver | set_solver].
      * eapply evolves_mono; [exact V2 | set_solver | set_solver].
    + rewrite indices_app, indices_option, EI. unfold idxs at 3. clear. multiset_solver.
Qed.

Lemma merge_parent_edge m l h pi si p c t F I rest : mem_ok m ->
  cells m !! l = Some (Edge (MkEdge si h p c)) ->
  irep (cells m) c (h + length p) (pi ++ p) t F I -> l ∉ F -> wf (HEIGHT - (h + length p)) t ->
  exists m' F' I' rem,
    (forall tr, merge_parent storage HEIGHT (l :: rest) (tr, m) = Ret (Ok tt, (push_rem rem tr, m'))) /\
    irep (cells m') l h pi (merge p t) F' (idxs si ⊎ I') /\ evolves m ({[l]} ∪ F) m' F' /\
    I = indices rem ⊎ I'.
Proof.
  intros K Hl R L W. assert (Hlt : l < next m) by (apply K; eauto).
  destruct (merge_edges_spec si h pi p c _ _ _ m K R W) as (e & m1 & F1 & I1 & rem & Em & N1 & V1 & EI).
  pose proof V1 as (Ln & K1 & P & Fr).
  assert (LF : l ∉ F1) by (intros [H|H]%Fr; [contradiction | lia]).
  destruct (store_nrep m1 l (Edge e) h pi _ F1 _ ∅ K1 ltac:(lia) N1 LF) as [R2 V2].
  exists (mem_store l (Edge e) m1), ({[l]} ∪ F1), I1, rem.
  split; [|split; [exact R2|split; [|exact EI]]].
  - intros tr. unfold merge_parent. unfold bind at 1, load at 1. rewrite Hl.
    unfold bind at 1. rewrite Em. reflexivity.
  - apply (evolves_trans _ _ m1 ({[l]} ∪ F1)).
    + eapply evolves_mono; [exact V1 | set_solver | set_solver].
    + eapply evolves_mono; [exact V2 | set_solver | set_solver].
Qed.

(** ** The search for the last binary node *)

(** The iterator stops within [xs], or continues with what follows. *)
Lemma skip_app xs : forall l acc acc' res m n, cells m !! l = Some n ->
  (forall tr, skip_to_binary (E := E) xs acc (tr, m) = Ret (Ok (acc', res), (tr, m))) ->
  forall tr, skip_to_binary (E := E) (xs ++ [l]) acc (tr, m) =
    Ret (Ok (match res with
             | [] => if is_binary n then (acc', [l]) else (acc' ++ option_list (storage_index n), [])
             | _ => (acc', res ++ [l])
             end), (tr, m)).
Proof.
  induction xs as [|x xs IH]; intros l acc acc' res m n Hl Sk tr.
  - specialize (Sk tr). cbn in Sk. injection Sk as <- <-. cbn. unfold bind, load. rewrite Hl.
    now destruct (is_binary n).
  - cbn [app skip_to_binary]. unfold bind at 1, load at 1.
    pose proof (Sk tr) as Sk0. cbn [skip_to_binary] in Sk0. unfold bind at 1, load at 1 in Sk0.
    destruct (cells m !! x) as [nx|] eqn:Hx; [|discriminate].
    destruct (is_binary nx) eqn:B; [unfold ret in Sk0; now injection Sk0 as <- <-|].
    apply (IH l (acc ++ option_list (storage_index nx)) acc' res m n Hl). intros tr0.
    specialize (Sk tr0). cbn [skip_to_binary] in Sk. unfold bind at 1, load at 1 in Sk.
    now rewrite Hx, B in Sk.
Qed.

(** What deletion does below a node: the search stops at a binary node, which
    is replaced, and then its parent is merged; or there is none. *)
Definition deletes (m : Mem) (key : bits) (l h : nat) (pi : bits) (t : trie) (F : gset loc) (I : gmultiset Z)
    (acc : list TrieStorageIndex) (res : list loc) : Prop :=
  match res with
  | [] => tdelete t (drop h key) = None /\ I = indices acc
  | b :: rest => exists t' m1 F1 I1 rem1 t1,
      tdelete t (drop h key) = Some t' /\
      (forall tr, replace_binary storage HEIGHT b key (tr, m) = Ret (Ok tt, (push_rem rem1 tr, m1))) /\
      irep (cells m1) l h pi t1 F1 I1 /\ evolves m F m1 F1 /\ I = indices acc ⊎ (indices rem1 ⊎ I1) /\
      match rest with
      | [] => t1 = t' /\ b = l
      | _ => (is_edge t = false -> is_edge t' = false) /\
          exists m2 F2 I2 rem2,
          (forall tr, merge_parent storage HEIGHT rest (tr, m1) = Ret (Ok tt, (push_rem rem2 tr, m2))) /\
          irep (cells m2) l h pi t' F2 I2 /\ evolves m1 F1 m2 F2 /\ I1 = indices rem2 ⊎ I2
      end
  end.

(** The path of the search above a node. *)
Definition above (acc : list TrieStorageIndex) (res : list loc) (l : loc) (n : InternalNode)
    : list TrieStorageIndex * list loc :=
  match res with
  | [] => if is_binary n then (acc, [l]) else (acc ++ option_list (storage_index n), [])
  | _ => (acc, res ++ [l])
  end.

Lemma evolves_cell m F m' F' l n : evolves m F m' F' -> mem_ok m -> cells m !! l = Some n -> l ∉ F ->
  cells m' !! l = Some n /\ l ∉ F'.
Proof.
  intros (_ & _ & P & Fr) K Hl L. assert (Hlt : l < next m) by (apply K; eauto).
  split; [now rewrite P | intros [H|H]%Fr; [contradiction | lia]].
Qed.

Lemma deletes_edge m key l h pi si p c t F I acc res : mem_ok m ->
  cells m !! l = Some (Edge (MkEdge si h p c)) ->
  irep (cells m) c (h + length p) (pi ++ p) t F I -> l ∉ F -> is_edge t = false ->
  wf (HEIGHT - (h + length p)) t -> has t (drop (h + length p) key) = true ->
  deletes m key c (h + length p) (pi ++ p) t F I acc res ->
  deletes m key l h pi (TEdge p t) ({[l]} ∪ F) (idxs si ⊎ I)
    (above acc res l (Edge (MkEdge si h p c))).1 (above acc res l (Edge (MkEdge si h p c))).2.
Proof.
  intros K Hl R L Ee W Hk Dl. unfold deletes in *. destruct res as [|b rest].
  - destruct Dl as [Dt EI]. cbn [above is_binary fst snd tdelete storage_index edge_storage_index].
    rewrite drop_drop, Dt, indices_app, indices_option, EI. split; [reflexivity|]. clear. multiset_solver.
  - destruct Dl as (t' & m1 & F1 & I1 & rem1 & t1 & Dt & Er & R1 & V1 & EI & Dr).
    cbn [above app fst snd]. pose proof (proj1 (proj2 V1)) as K1.
    destruct (irep_step_edge _ _ _ _ _ _ _ _ _ _ _ _ _ _ _ _ K Hl R L R1 V1) as [R1' V1'].
    destruct (evolves_cell _ _ _ _ _ _ V1 K Hl L) as [Hl1 L1].
    pose proof (tdelete_spec t _ _ W Hk) as Ds. rewrite Dt in Ds. destruct Ds as [W' _].
    exists (merge p t'), m1, ({[l]} ∪ F1), (idxs si ⊎ I1), rem1, (TEdge p t1).
    cbn [tdelete]. rewrite drop_drop, Dt. split; [reflexivity|]. split; [exact Er|]. split; [exact R1'|].
    split; [exact V1'|]. split; [rewrite EI; clear; multiset_solver|].
    destruct rest as [|r rest]; cbn [app]; (split; [discriminate|]).
    + destruct Dr as [-> ->].
      destruct (merge_parent_edge m1 l h pi si p c t' F1 I1 [] K1 Hl1 R1 L1 W')
        as (m2 & F2 & I2 & rem2 & Ep & R2 & V2 & EI2).
      exists m2, F2, (idxs si ⊎ I2), rem2. split; [exact Ep|]. split; [exact R2|]. split; [exact V2|].
      rewrite EI2. clear. multiset_solver.
    + destruct Dr as (Hne & m2 & F2 & I2 & rem2 & Ep & R2 & V2 & EI2).
      destruct (irep_step_edge _ _ _ _ _ _ _ _ _ _ _ _ _ _ _ _ K1 Hl1 R1 L1 R2 V2) as [R2' V2'].
      exists m2, ({[l]} ∪ F2), (idxs si ⊎ I2), rem2. split; [exact Ep|].
      rewrite merge_not_edge by auto. split; [exact R2'|]. split; [exact V2'|].
      rewrite EI2. clear. multiset_solver.
Qed.

Lemma deletes_binary m key l h pi si a b ta tb Fa Fb Ia Ib (d : bool) acc res : mem_ok m ->
  cells m !! l = Some (Binary (MkBinary si h a b)) -> key !! h = Some d ->
  irep (cells m) a (S h) (pi ++ [false]) ta Fa Ia -> irep (cells m) b (S h) (pi ++ [true]) tb Fb Ib -> Fa ## Fb -> l ∉ Fa -> l ∉ Fb ->
  wf (HEIGHT - S h) ta -> wf (HEIGHT - S h) tb ->
  deletes m key (if d then b else a) (S h) (pi ++ [d]) (if d then tb else ta) (if d then Fb else Fa)
    (if d then Ib else Ia) acc res ->
  deletes m key l h pi (TBin ta tb) ({[l]} ∪ (Fa ∪ Fb)) (idxs si ⊎ (Ia ⊎ Ib))
    (above acc res l (Binary (MkBinary si h a b))).1 (above acc res l (Binary (MkBinary si h a b))).2.
Proof.
  intros K Hl Hd Ra Rb D La Lb Wa Wb Dl. unfold deletes in *. destruct res as [|x rest].
  - destruct Dl as [Dt EI]. cbn [above is_binary fst snd].
    destruct (replace_binary_spec m key l h pi si a b ta tb Fa Fb Ia Ib d K Hl Hd Ra Rb La Lb)
      as (m1 & F1 & I1 & rem1 & Er & R1 & V1 & EI1); [now destruct d|].
    exists (merge [negb d] (if d then ta else tb)), m1, F1, I1, rem1, (merge [negb d] (if d then ta else tb)).
    rewrite (drop_cons_lookup key h d Hd). cbn [tdelete].
    replace (tdelete (if d then tb else ta) (drop (S h) key)) with (None : option trie).
    split; [reflexivity|]. split; [exact Er|]. split; [exact R1|]. split; [exact V1|].
    split; [|split; reflexivity]. rewrite <- EI1, <- EI. destruct d; clear; multiset_solver.
  - destruct Dl as (t' & m1 & F1 & I1 & rem1 & t1 & Dt & Er & R1 & V1 & EI & Dr).
    cbn [above app fst snd]. pose proof (proj1 (proj2 V1)) as K1.
    destruct (irep_step_binary _ _ _ m1 l h pi si a b ta tb Fa Fb Ia Ib d _ F1 I1 K Hl Ra Rb D La Lb R1 V1)
      as [R1' V1'].
    destruct (evolves_cell _ _ _ _ _ _ V1 K Hl ltac:(destruct d; assumption)) as [Hl1 L1].
    exists (if d then TBin ta t' else TBin t' tb), m1,
      ({[l]} ∪ (if d then Fa ∪ F1 else F1 ∪ Fb)), (idxs si ⊎ (if d then Ia ⊎ I1 else I1 ⊎ Ib)), rem1,
      (if d then TBin ta t1 else TBin t1 tb).
    rewrite (drop_cons_lookup key h d Hd). cbn [tdelete]. rewrite Dt.
    split; [now destruct d|]. split; [exact Er|]. split; [exact R1'|]. split; [exact V1'|].
    split; [destruct d; rewrite EI; clear; multiset_solver|].
    destruct rest as [|r rest]; cbn [app]; (split; [intros _; now destruct d|]).
    + destruct Dr as [-> ->].
      exists m1, ({[l]} ∪ (if d then Fa ∪ F1 else F1 ∪ Fb)), (idxs si ⊎ (if d then Ia ⊎ I1 else I1 ⊎ Ib)), [].
      split; [intros tr; rewrite push_rem_nil; unfold merge_parent, bind, load; now rewrite Hl1|].
      split; [exact R1'|]. split; [now apply evolves_refl|]. rewrite indices_nil. clear. multiset_solver.
    + destruct Dr as (_ & m2 & F2 & I2 & rem2 & Ep & R2 & V2 & EI2).
      assert (Oth : irep (cells m1) (if d then a else b) (S h) (pi ++ [negb d]) (if d then ta else tb) (if d then Fa else Fb)
        (if d then Ia else Ib) /\ (if d then Fa else Fb) ## F1).
      { apply (irep_evolves storage U m m1 (if d then Fb else Fa)); [exact K | now destruct d | exact V1 |].
        destruct d; set_solver. }
      destruct Oth as [Ro Do].
      assert (S2 : irep (cells m2) l h pi (if d then TBin ta t' else TBin t' tb)
          ({[l]} ∪ (if d then Fa ∪ F2 else F2 ∪ Fb)) (idxs si ⊎ (if d then Ia ⊎ I2 else I2 ⊎ Ib)) /\
        evolves m1 ({[l]} ∪ (if d then Fa ∪ F1 else F1 ∪ Fb)) m2 ({[l]} ∪ (if d then Fa ∪ F2 else F2 ∪ Fb))).
      { destruct d.
        - exact (irep_step_binary storage U m1 m2 l h pi si a b ta t1 Fa F1 Ia I1 true t' F2 I2 K1 Hl1 Ro R1 Do La L1 R2 V2).
        - exact (irep_step_binary storage U m1 m2 l h pi si a b t1 tb F1 Fb I1 Ib false t' F2 I2 K1 Hl1 R1 Ro
            ltac:(set_solver) L1 Lb R2 V2). }
      destruct S2 as [R2' V2']. do 4 eexists. split; [exact Ep|]. split; [exact R2'|]. split; [exact V2'|].
      destruct d; rewrite EI2; clear; multiset_solver.
Qed.

Lemma delete_walk m key l h t ns : walk (cells m) key l h t ns -> forall pi F I,
  irep (cells m) l h pi t F I -> wf (HEIGHT - h) t -> length key = HEIGHT -> mem_ok m ->
  has t (drop h key) = true ->
  exists acc res,
    (forall tr, skip_to_binary (E := E) (rev ns) [] (tr, m) = Ret (Ok (acc, res), (tr, m))) /\
    deletes m key l h pi t F I acc res.
Proof.
  induction 1 as [l h Hl|l h si p c t Hl N|l h si p c t ns Hl Ep Wk IH|l h si a b ta tb d ns Hl Hd Wk IH];
    intros pi F I R W Lk K Hk.
  - exists [], []. split; [intros tr; cbn; unfold bind, load; now rewrite Hl|].
    cbn. split; [reflexivity|]. destruct R; congruence || reflexivity.
  - cbn in Hk. now rewrite bool_decide_eq_false_2 in Hk by exact N.
  - destruct (irep_edge_inv _ _ _ _ _ _ _ _ _ _ _ _ R Hl) as (u & F0 & I0 & Eu & R0 & L & -> & ->).
    injection Eu as <-. destruct W as (Hp & Ee & n' & En & W).
    assert (W' : wf (HEIGHT - (h + length p)) t) by (replace (HEIGHT - (h + length p)) with n' by lia; exact W).
    cbn in Hk. apply andb_true_iff in Hk as [_ Hk]. rewrite drop_drop in Hk.
    destruct (IH (pi ++ p) F0 I0 R0 W' Lk K Hk) as (acc & res & Sk & Dl).
    exists (above acc res l (Edge (MkEdge si h p c))).1, (above acc res l (Edge (MkEdge si h p c))).2.
    split; [|now apply deletes_edge].
    intros tr. cbn [rev]. rewrite (skip_app _ l [] acc res m _ Hl Sk). now destruct res.
  - destruct (irep_binary_inv _ _ _ _ _ _ _ _ _ _ _ _ R Hl)
      as (ta' & tb' & Fa & Fb & Ia & Ib & Eu & Ra & Rb & D & La & Lb & -> & ->).
    injection Eu as <- <-. destruct W as (n' & En & Wa & Wb). replace n' with (HEIGHT - S h) in * by lia.
    rewrite (drop_cons_lookup key h d Hd) in Hk. cbn [has] in Hk.
    destruct (IH (pi ++ [d]) (if d then Fb else Fa) (if d then Ib else Ia)) as (acc & res & Sk & Dl);
      try assumption; try (destruct d; assumption).
    exists (above acc res l (Binary (MkBinary si h a b))).1, (above acc res l (Binary (MkBinary si h a b))).2.
    split; [|now apply (deletes_binary m key l h pi si a b ta tb Fa Fb Ia Ib d)].
    intros tr. cbn [rev]. rewrite (skip_app _ l [] acc res m _ Hl Sk). now destruct res.
Qed.
End Delete.
