(* ===== verification/TreeMap.v ===== *)
(** The tree as a finite map: what the state of a tree stands for, and that
    reading, setting and deleting a key are the operations of the map. *)

From Stdlib Require Import ZArith Lia Bool List.
From stdpp Require Import gmap gmultiset list sets.
From S2P Require Import Prelude Bytes Felt MerkleNode Tree TrieSpec TreeRep TreeOps.

Lemma felt_eqb_eq a b : felt_eqb a b = true <-> a = b.
Proof. unfold felt_eqb. destruct (List.list_eq_dec _ a b); split; congruence. Qed.

(** ** Nodes that are not resolved *)

Section Fresh.
Context {E : Type} (storage : Storage E) (P : bits -> TrieStorageIndex -> trie -> Prop).

(** A node not resolved yet has none of its leaves changed in memory. *)
Definition fresh (lv : gmap bits Felt) (pi : bits) (idx : TrieStorageIndex) (t : trie) : Prop :=
  P pi idx t /\ forall k, has t k = true -> lv !! (pi ++ k) = None.

Lemma fresh_closed lv : closed storage P -> closed storage (fresh lv).
Proof.
  intros [Cb Ce]. split.
  - intros pi idx l r tl tr G [HP Hf]. destruct (Cb _ _ _ _ _ _ G HP) as [Pl Pr].
    split; (split; [assumption|]); intros k Hk; rewrite <- app_assoc; now apply Hf.
  - intros pi idx c p t G [HP Hf]. split; [exact (Ce _ _ _ _ _ G HP)|]. intros k Hk.
    rewrite <- app_assoc. apply Hf. cbn [has]. rewrite take_app_length, drop_app_length.
    now rewrite bool_decide_eq_true_2.
Qed.

Lemma irep_impl (U U' : bits -> TrieStorageIndex -> trie -> Prop) m l h pi t F I :
  irep storage U m l h pi t F I ->
  (forall pi' idx u, pi `prefix_of` pi' -> U pi' idx u -> U' pi' idx u) ->
  irep storage U' m l h pi t F I.
Proof.
  induction 1 as [|l h pi idx t I Hl S HU|l h pi si a b ta tb Fa Fb Ia Ib Hl Ra IHa Rb IHb|l h pi si p c t F I Hl R IH];
    intros Imp.
  - now constructor.
  - apply (irep_unresolved _ _ _ _ _ _ idx); auto.
  - apply (irep_binary _ _ _ _ _ _ _ a b); try assumption; [apply IHa | apply IHb]; intros pi' i u Hp;
      apply Imp; etransitivity; try exact Hp; now apply prefix_app_r.
  - apply (irep_edge _ _ _ _ _ _ _ _ c); try assumption. apply IH. intros pi' i u Hp.
    apply Imp. etransitivity; [|exact Hp]. now apply prefix_app_r.
Qed.

Lemma fresh_off lv key v rho pi' idx u : (forall k, rho ++ k <> key) -> rho `prefix_of` pi' ->
  fresh lv pi' idx u -> fresh (<[key := v]> lv) pi' idx u.
Proof.
  intros N [s ->] [HP Hf]. split; [exact HP|]. intros k Hk. rewrite lookup_insert_ne; [now apply Hf|].
  rewrite <- app_assoc. intros E0. now apply (N (s ++ k)).
Qed.

(** After a walk the key is under no node that is not resolved. *)
Lemma walk_fresh m key v lv l h t ns : walk m key l h t ns -> forall pi F I,
  h = length pi -> take h key = pi -> length pi <= length key ->
  irep storage (fresh lv) m l h pi t F I -> irep storage (fresh (<[key := v]> lv)) m l h pi t F I.
Proof.
  assert (Off : forall pi q k, q <> take (length q) (drop (length pi) key) -> (pi ++ q) ++ k <> key).
  { intros pi q k N <-. apply N. rewrite <- app_assoc, drop_app_length, take_app_length. reflexivity. }
  induction 1 as [l h Hl|l h si p c t Hl N|l h si p c t ns Hl Ep Wk IH|l h si a b ta tb d ns Hl Hd Wk IH];
    intros pi F I -> Et Lp R.
  - destruct R; try congruence. now constructor.
  - destruct (irep_edge_inv _ _ _ _ _ _ _ _ _ _ _ _ R Hl) as (u & F0 & I0 & Eu & R0 & L & -> & ->).
    injection Eu as <-. apply (irep_edge _ _ _ _ _ _ _ _ c); try assumption.
    apply (irep_impl (fresh lv)); [exact R0|]. intros pi' i w Hp. apply (fresh_off lv key v (pi ++ p)); [|exact Hp].
    intros k. apply Off. congruence.
  - destruct (irep_edge_inv _ _ _ _ _ _ _ _ _ _ _ _ R Hl) as (u & F0 & I0 & Eu & R0 & L & -> & ->).
    injection Eu as <-. apply (irep_edge _ _ _ _ _ _ _ _ c); try assumption.
    apply IH; [now rewrite length_app | | | exact R0].
    + rewrite <- (take_drop (length pi) key), Et, firstn_app, take_ge by lia. f_equal.
      rewrite Nat.add_comm, Nat.add_sub. exact Ep.
    + apply (f_equal length) in Ep. rewrite length_take, length_drop in Ep. rewrite length_app. lia.
  - destruct (irep_binary_inv _ _ _ _ _ _ _ _ _ _ _ _ R Hl)
      as (ta' & tb' & Fa & Fb & Ia & Ib & Eu & Ra & Rb & D & La & Lb & -> & ->).
    injection Eu as <- <-.
    assert (On : irep storage (fresh (<[key := v]> lv)) m (if d then b else a) (S (length pi)) (pi ++ [d])
      (if d then tb else ta) (if d then Fb else Fa) (if d then Ib else Ia)).
    { apply IH; [rewrite length_app; cbn; lia | | | now destruct d].
      - rewrite (take_S_r _ _ _ Hd), Et. reflexivity.
      - apply lookup_lt_Some in Hd. rewrite length_app. cbn. lia. }
    assert (Of : irep storage (fresh (<[key := v]> lv)) m (if d then a else b) (S (length pi)) (pi ++ [negb d])
      (if d then ta else tb) (if d then Fa else Fb) (if d then Ia else Ib)).
    { apply (irep_impl (fresh lv)); [now destruct d|]. intros pi' i w Hp.
      apply (fresh_off lv key v (pi ++ [negb d])); [|exact Hp]. intros k. apply Off.
      rewrite (drop_cons_lookup key _ d Hd). cbn. destruct d; discriminate. }
    destruct d; now apply (irep_binary _ _ _ _ _ _ _ a b).
Qed.

(** The root is resolved. *)
Definition rooted (U : bits -> TrieStorageIndex -> trie -> Prop) (pi : bits) (idx : TrieStorageIndex) (t : trie) : Prop :=
  U pi idx t /\ pi <> [].

Lemma rooted_closed U : closed storage U -> closed storage (rooted U).
Proof.
  intros [Cb Ce]. split.
  - intros pi idx l r tl tr G [HU N]. destruct (Cb _ _ _ _ _ _ G HU). unfold rooted. now destruct pi.
  - intros pi idx c p t G [HU N]. split; [exact (Ce _ _ _ _ _ G HU) | now destruct pi].
Qed.

Lemma walk_rooted (U : bits -> TrieStorageIndex -> trie -> Prop) m key l h t ns F I n : walk m key l h t ns -> wf n t ->
  irep storage U m l h [] t F I -> irep storage (rooted U) m l h [] t F I.
Proof.
  assert (Sub : forall c h pi u F I, pi <> [] -> irep storage U m c h pi u F I -> irep storage (rooted U) m c h pi u F I).
  { intros c h' pi u F' I' N R. apply (irep_impl U); [exact R|]. intros pi' idx v [s ->] HU.
    split; [exact HU | now destruct pi]. }
  intros Wk W R. inversion R as [? ? ? Hl|? ? ? idx ? ? Hl|? ? ? si a b ta tb Fa Fb Ia Ib Hl Ra Rb D La Lb
    |? ? ? si p c u F0 I0 Hl Rc L]; subst.
  - now constructor.
  - inversion Wk; congruence.
  - apply (irep_binary _ _ _ _ _ _ _ a b); try assumption; apply Sub; try assumption; discriminate.
  - apply (irep_edge _ _ _ _ _ _ _ _ c); try assumption. apply Sub; [|assumption].
    now destruct W as (Hp & _).
Qed.

Definition settled (st : state) : Prop :=
  forall l idx, root st.1 = Some l -> cells st.2 !! l <> Some (Unresolved idx).

Lemma rooted_settled U tr m l t F I : root tr = Some l ->
  irep storage (rooted U) (cells m) l 0 [] t F I -> settled (tr, m).
Proof.
  intros Hr R l' idx Hl' Hc. cbn in Hl', Hc. rewrite Hr in Hl'. injection Hl' as <-.
  inversion R as [| ? ? ? ? ? ? Hl S [_ N]| |]; subst; congruence.
Qed.

Lemma rooted_weaken U m l h pi t F I : irep storage (rooted U) m l h pi t F I -> irep storage U m l h pi t F I.
Proof. intros R. apply (irep_impl (rooted U)); [exact R|]. now intros pi' idx u _ [HU _]. Qed.
End Fresh.

Section Map.
Context {E : Type} (storage : Storage E) (HEIGHT : nat) (HEIGHT_pos : 0 < HEIGHT)
  (P : bits -> TrieStorageIndex -> trie -> Prop) (P_closed : closed storage P).

Abbreviation irep := (irep storage).
Abbreviation fresh := (fresh P).

(** The value of a leaf: a change made in memory, or the stored one. *)
Definition leaf_value (tr : MerkleTree) (k : bits) : option Felt :=
  match leaves tr !! k with
  | Some v => Some v
  | None =>
      match storage_leaf storage k with
      | Ret (Ok (Some v)) => Some v
      | _ => None
      end
  end.

(** The trie has the keys of the map. *)
Definition keys_of (t : trie) (M : gmap bits Felt) : Prop :=
  forall k, length k = HEIGHT -> has t k = bool_decide (is_Some (M !! k)).

(** The state stands for the map [M].  Of the stored nodes [I0] the tree was
    loaded with, each is still part of the tree or marked as removed. *)
Record represents (M : gmap bits Felt) (I0 : gmultiset Z) (st : state) : Prop := {
  rep_mem : mem_ok st.2;
  rep_shape :
    match root st.1 with
    | None => M = ∅ /\ I0 = indices (nodes_removed st.1)
    | Some l => exists t F I, irep (fresh (leaves st.1)) (cells st.2) l 0 [] t F I /\ wf HEIGHT t /\ keys_of t M /\
        I0 = indices (nodes_removed st.1) ⊎ I
    end;
  rep_values : forall k v, M !! k = Some v -> length k = HEIGHT /\ leaf_value st.1 k = Some v
}.

Lemma empty_represents m : mem_ok m -> represents ∅ ∅ (tree_empty, m).
Proof. intros K. split; [exact K | done |]. intros k v. now rewrite lookup_empty. Qed.

(** A tree loaded by its root index stands for the stored map. *)
Lemma new_represents idx t I M m : mem_ok m -> stored storage idx t I -> P [] idx t -> wf HEIGHT t -> keys_of t M ->
  (forall k v, M !! k = Some v -> length k = HEIGHT /\ storage_leaf storage k = Ret (Ok (Some v))) ->
  represents M I (tree_new idx m).
Proof.
  intros K S HP W Hk Hv. split; [now apply mem_ok_alloc| |].
  - cbn [root fst tree_new snd nodes_removed]. exists t, {[next m]}, I. split; [|split; [exact W|split; [exact Hk|]]].
    + apply (irep_unresolved _ _ _ _ _ _ idx); [apply lookup_insert_eq | exact S |].
      split; [exact HP|]. intros k _. apply lookup_empty.
    + unfold indices. rewrite list_to_set_disj_nil. clear. multiset_solver.
  - intros k v HM. destruct (Hv k v HM) as [L Es]. split; [exact L|].
    unfold leaf_value. cbn [leaves fst tree_new]. now rewrite lookup_empty, Es.
Qed.

(** ** Traversal of a tree *)

Lemma traverse_spec M I0 tr m key : represents M I0 (tr, m) -> length key = HEIGHT ->
  exists m' ns, traverse storage HEIGHT key (tr, m) = Ret (Ok ns, (tr, m')) /\
    represents M I0 (tr, m') /\
    match root tr with
    | None => ns = []
    | Some l => exists t F I, irep (fresh (leaves tr)) (cells m') l 0 [] t F I /\ wf HEIGHT t /\ keys_of t M /\
        I0 = indices (nodes_removed tr) ⊎ I /\ walk (cells m') key l 0 t ns
    end.
Proof.
  intros [K Sh Vs] Lk. cbn [fst snd] in *. unfold traverse, bind, self.
  destruct (root tr) as [l|] eqn:Hr.
  - destruct Sh as (t & F & I & R & W & Hk & EI).
    destruct (traverse_loop_spec storage HEIGHT (fresh (leaves tr)) (traverse_fuel HEIGHT)
      (fresh_closed _ _ _ P_closed) t l 0 [] F I tr m [] key R)
      as (m' & F' & ns & Et & R' & V & Wk); try assumption; unfold traverse_fuel; try lia;
      [now rewrite Nat.sub_0_r|].
    exists m', ns. split; [exact Et|]. split; [|exists t, F', I; auto].
    split; [exact (proj1 (proj2 V)) | | exact Vs]. cbn [fst snd]. rewrite Hr. eauto 8.
  - exists m, []. split; [reflexivity|]. split; [|reflexivity]. split; [exact K | | exact Vs].
    cbn [fst]. now rewrite Hr.
Qed.

(** ** Reading *)

Lemma get_spec M I0 tr m key : represents M I0 (tr, m) -> length key = HEIGHT ->
  exists m', get storage HEIGHT key (tr, m) = Ret (Ok (M !! key), (tr, m')) /\ represents M I0 (tr, m').
Proof.
  intros Rp Lk. destruct (traverse_spec M I0 tr m key Rp Lk) as (m' & ns & Et & Rp' & C).
  exists m'. split; [|exact Rp']. unfold get. unfold bind at 1. rewrite Et.
  destruct (root tr) as [l|] eqn:Hr.
  - destruct C as (t & F & I & R & W & Hk & _ & Wk).
    destruct (walk_end HEIGHT _ _ _ _ _ _ Wk) as (n & Hn & C); [now rewrite Nat.sub_0_r | exact Lk|].
    rewrite Hn. unfold bind at 1, load at 1. rewrite drop_0, (Hk key Lk) in C.
    destruct C as [[Hc Hin]|(e & Hc & Hin)]; rewrite Hc; cbn [is_leaf].
    + apply bool_decide_eq_true in Hin as [v Hv]. rewrite Hv.
      destruct (rep_values _ _ _ Rp key v Hv) as [_ Lv]. cbn [fst] in Lv.
      unfold bind at 1, self. unfold leaf_value in Lv. destruct (leaves tr !! key) as [v'|].
      * injection Lv as ->. reflexivity.
      * unfold bind at 1, lift. destruct (storage_leaf storage key) as [[[v'|]|]|]; try discriminate.
        injection Lv as ->. reflexivity.
    + apply bool_decide_eq_false, eq_None_not_Some in Hin. now rewrite Hin.
  - subst ns. pose proof (rep_shape _ _ _ Rp) as Sh. cbn [fst] in Sh. rewrite Hr in Sh.
    destruct Sh as [-> _]. cbn. now rewrite lookup_empty.
Qed.

(** ** Writing *)

Lemma keys_of_insert t M key v : wf HEIGHT t -> keys_of t M -> length key = HEIGHT ->
  keys_of (tinsert t key) (<[key := v]> M).
Proof.
  intros W Hk Lk k L. rewrite (tinsert_has t HEIGHT) by assumption. rewrite (Hk k L).
  destruct (decide (k = key)) as [->|N].
  - rewrite lookup_insert_eq, (bool_decide_eq_true_2 (key = key)), orb_true_r by reflexivity.
    symmetry. now apply bool_decide_eq_true_2.
  - rewrite lookup_insert_ne, (bool_decide_eq_false_2 (k = key)) by congruence. apply orb_false_r.
Qed.

Lemma leaf_value_insert tr key v k : leaf_value (MkTree (root tr) (<[key := v]> (leaves tr))
    (nodes_removed tr) (verify_hashes tr)) k = if decide (k = key) then Some v else leaf_value tr k.
Proof.
  unfold leaf_value. cbn [leaves]. destruct (decide (k = key)) as [->|N].
  - now rewrite lookup_insert_eq.
  - now rewrite lookup_insert_ne by congruence.
Qed.

Lemma values_insert (tr tr' : MerkleTree) (M : gmap bits Felt) key v : length key = HEIGHT ->
  leaves tr' = <[key := v]> (leaves tr) ->
  (forall k w, M !! k = Some w -> length k = HEIGHT /\ leaf_value tr k = Some w) ->
  forall k w, <[key := v]> M !! k = Some w -> length k = HEIGHT /\ leaf_value tr' k = Some w.
Proof.
  intros Lk El Vs k w Hk. unfold leaf_value. rewrite El. destruct (decide (k = key)) as [->|N].
  - rewrite lookup_insert_eq in *. now simplify_eq.
  - rewrite lookup_insert_ne in * by congruence. exact (Vs k w Hk).
Qed.

Lemma single_edge_keys key v : length key = HEIGHT -> keys_of (TEdge key TLeaf) (<[key := v]> ∅).
Proof.
  intros Lk k L. cbn [has]. rewrite take_ge, drop_ge by lia. cbn. rewrite andb_true_r.
  apply bool_decide_ext. destruct (decide (k = key)) as [->|N].
  - rewrite lookup_insert_eq. split; eauto.
  - rewrite lookup_insert_ne, lookup_empty by congruence. split; [congruence | now intros [? ?]].
Qed.

Lemma set_spec M I0 tr m key v : represents M I0 (tr, m) -> length key = HEIGHT -> v <> FELT_ZERO ->
  exists st', set storage HEIGHT key v (tr, m) = Ret (Ok tt, st') /\ represents (<[key := v]> M) I0 st' /\
    settled st'.
Proof.
  intros Rp Lk Nz. unfold set.
  assert (Ez : felt_eqb v FELT_ZERO = false)
    by (apply not_true_is_false; rewrite felt_eqb_eq; exact Nz).
  rewrite Ez. destruct (traverse_spec M I0 tr m key Rp Lk) as (m1 & ns & Et & Rp1 & C).
  unfold bind at 1. rewrite Et. pose proof (rep_mem _ _ _ Rp1) as K1. pose proof (rep_values _ _ _ Rp1) as Vs.
  cbn [snd fst] in K1, Vs. destruct (root tr) as [l|] eqn:Hr.
  - destruct C as (t & F & I & R & W & Hk & EI & Wk).
    destruct (walk_nonempty _ _ _ _ _ _ Wk) as [n Hn]. rewrite Hn.
    destruct (replace_last_spec storage HEIGHT (rooted (fresh (<[key := v]> (leaves tr)))) m1 key l 0 t ns Wk [] F I n tr)
      as (m2 & F2 & I2 & rem & Er & R2 & V2 & EI2); try assumption;
      [apply (walk_rooted _ _ _ _ _ _ _ _ _ _ _ Wk W), (walk_fresh storage P (cells m1) key v (leaves tr) l 0 t ns Wk);
        cbn; auto; lia | now rewrite Nat.sub_0_r | lia|].
    unfold bind at 1. rewrite Er. eexists. split; [reflexivity|].
    split; [|exact (rooted_settled _ _ (push_rem rem _) _ _ _ _ _ Hr R2)].
    split; [exact (proj1 (proj2 V2)) | | now apply (values_insert tr)].
    cbn [fst snd root push_rem]. rewrite Hr. exists (tinsert t key), F2, I2. rewrite drop_0 in R2.
    split; [exact (rooted_weaken _ _ _ _ _ _ _ _ _ R2)|]. split; [now apply tinsert_wf|]. split; [now apply keys_of_insert|].
    cbn [nodes_removed push_rem]. rewrite indices_app, EI, EI2. clear. multiset_solver.
  - subst ns. cbn [last]. pose proof (rep_shape _ _ _ Rp1) as Sh. cbn [fst] in Sh. rewrite Hr in Sh.
    destruct Sh as [-> EI]. unfold bind, alloc. eexists. split; [reflexivity|].
    split; [|intros l idx [= <-]; cbn; now rewrite lookup_insert_eq].
    split; [now do 2 apply mem_ok_alloc | | now apply (values_insert tr)].
    cbn [fst snd root nodes_removed mem_alloc next].
    exists (TEdge key TLeaf), ({[S (next m1)]} ∪ {[next m1]}), (idxs None ⊎ ∅). split; [|split; [|split]].
    + apply (irep_edge _ _ _ _ _ _ _ _ (next m1)); [apply lookup_insert_eq | |
        pose proof (disjoint_succ (next m1)); set_solver].
      apply irep_leaf. cbn. rewrite lookup_insert_ne by lia. apply lookup_insert_eq.
    + cbn. split; [destruct key; cbn in *; [lia | easy]|]. split; [reflexivity|]. exists 0. lia.
    + now apply single_edge_keys.
    + rewrite EI. unfold idxs. clear. multiset_solver.
Qed.

Lemma keys_of_delete t t' M key : wf HEIGHT t -> keys_of t M -> has t key = true ->
  tdelete t key = Some t' -> wf HEIGHT t' /\ keys_of t' (delete key M).
Proof.
  intros W Hk Hin Dt. pose proof (tdelete_spec t HEIGHT key W Hin) as Ds. rewrite Dt in Ds.
  destruct Ds as [W' Hd]. split; [exact W'|]. intros k L. rewrite (Hd k L), (Hk k L).
  destruct (decide (k = key)) as [->|N].
  - rewrite lookup_delete_eq, (bool_decide_eq_true_2 (key = key)), andb_false_r by reflexivity.
    symmetry. apply bool_decide_eq_false_2. now intros [? ?].
  - rewrite lookup_delete_ne, (bool_decide_eq_false_2 (k = key)) by congruence. apply andb_true_r.
Qed.

(** A map whose only key is deleted is empty. *)
Lemma keys_of_single t M key : keys_of t M -> (forall k, has t k = bool_decide (k = key)) ->
  (forall k v, M !! k = Some v -> length k = HEIGHT) -> delete key M = ∅.
Proof.
  intros Hk Hs Hl. apply map_empty. intros k. destruct (decide (k = key)) as [->|N].
  - apply lookup_delete_eq.
  - rewrite lookup_delete_ne by congruence. destruct (M !! k) as [v|] eqn:Hv; [|reflexivity].
    specialize (Hk k (Hl k v Hv)). rewrite Hs, Hv in Hk.
    rewrite bool_decide_eq_false_2 in Hk by exact N. rewrite bool_decide_eq_true_2 in Hk by eauto. discriminate.
Qed.

Lemma values_delete (tr tr' : MerkleTree) (M : gmap bits Felt) key : leaves tr' = leaves tr ->
  (forall k w, M !! k = Some w -> length k = HEIGHT /\ leaf_value tr k = Some w) ->
  forall k w, delete key M !! k = Some w -> length k = HEIGHT /\ leaf_value tr' k = Some w.
Proof.
  intros El Vs k w [_ Hk]%lookup_delete_Some. unfold leaf_value. rewrite El. exact (Vs k w Hk).
Qed.

Lemma delete_spec M I0 tr m key : represents M I0 (tr, m) -> length key = HEIGHT ->
  exists st', delete_leaf storage HEIGHT key (tr, m) = Ret (Ok tt, st') /\
    represents (delete key M) I0 st' /\ settled st'.
Proof.
  intros Rp Lk. unfold delete_leaf.
  destruct (traverse_spec M I0 tr m key Rp Lk) as (m1 & ns & Et & Rp1 & C).
  unfold bind at 1. rewrite Et. pose proof (rep_mem _ _ _ Rp1) as K1. pose proof (rep_values _ _ _ Rp1) as Vs.
  cbn [snd fst] in K1, Vs. destruct (root tr) as [l|] eqn:Hr.
  2: { subst ns. eexists. split; [reflexivity|]. pose proof (rep_shape _ _ _ Rp1) as Sh. cbn [fst] in Sh.
       rewrite Hr in Sh. destruct Sh as [-> _]. rewrite delete_empty.
       split; [exact Rp1 | intros l idx Hl; cbn in Hl; congruence]. }
  destruct C as (t & F & I & R & W & Hk & EI & Wk). apply (walk_rooted _ _ _ _ _ _ _ _ _ _ _ Wk W) in R.
  destruct (walk_end HEIGHT _ _ _ _ _ _ Wk) as (n & Hn & C); [now rewrite Nat.sub_0_r | exact Lk|].
  rewrite drop_0 in C. rewrite Hn. unfold bind at 1, load at 1.
  destruct C as [[Hc Hin]|(e & Hc & Hin)]; rewrite Hc; cbn [is_leaf].
  2: { eexists. split; [reflexivity|]. split; [|exact (rooted_settled _ _ _ _ _ _ _ _ Hr R)].
       rewrite delete_id; [exact Rp1|].
       rewrite (Hk key Lk) in Hin. now apply bool_decide_eq_false, eq_None_not_Some in Hin. }
  destruct (delete_walk storage HEIGHT (rooted (fresh (leaves tr))) (rooted_closed _ _ (fresh_closed _ _ _ P_closed))
      m1 key l 0 t ns Wk [] F I R) as (acc & res & Sk & Dl);
    try assumption; [now rewrite Nat.sub_0_r|].
  unfold bind at 1. rewrite Sk. destruct res as [|b rest]; cbv beta iota.
  - destruct Dl as [Dt ->]. rewrite drop_0 in Dt. eexists. split; [reflexivity|].
    split; [|intros l' idx Hl'; discriminate Hl'].
    pose proof (tdelete_spec t HEIGHT key W Hin) as Ds. rewrite Dt in Ds.
    split; [exact K1 | | now apply (values_delete tr)]. cbn [fst root nodes_removed].
    split; [|rewrite indices_app; exact EI].
    apply (keys_of_single t); [exact Hk | exact Ds | intros k v Hv; apply (Vs k v Hv)].
  - destruct Dl as (t' & m2 & F2 & I2 & rem1 & t2 & Dt & Er & R2 & V2 & EI2 & Dr). rewrite drop_0 in Dt.
    destruct (keys_of_delete t t' M key W Hk Hin Dt) as [W' Hk'].
    assert (C : exists m3 F3 I3 rem2, (forall tr, merge_parent storage HEIGHT rest (tr, m2)
        = Ret (Ok tt, (push_rem rem2 tr, m3))) /\ irep (rooted (fresh (leaves tr))) (cells m3) l 0 [] t' F3 I3 /\ mem_ok m3 /\
        I2 = indices rem2 ⊎ I3).
    { destruct rest as [|r rest].
      - destruct Dr as [-> ->]. exists m2, F2, I2, []. split; [intros; now rewrite push_rem_nil|].
        split; [exact R2|]. split; [exact (proj1 (proj2 V2))|]. rewrite indices_nil. clear. multiset_solver.
      - destruct Dr as (_ & m3 & F3 & I3 & rem2 & Ep & R3 & V3 & EI3).
        exists m3, F3, I3, rem2. split; [exact Ep|]. split; [exact R3|].
        split; [exact (proj1 (proj2 V3)) | exact EI3]. }
    destruct C as (m3 & F3 & I3 & rem2 & Ep & R3 & K3 & EI3).
    unfold bind at 1. rewrite Er. unfold bind at 1. rewrite Ep. eexists. split; [reflexivity|].
    split; [|exact (rooted_settled _ _ (push_rem rem2 (push_rem rem1 tr)) _ _ _ _ _ Hr R3)].
    split; [exact K3 | | now apply (values_delete tr)]. cbn [fst snd root push_rem]. rewrite Hr.
    exists t', F3, I3. split; [exact (rooted_weaken _ _ _ _ _ _ _ _ _ R3)|]. split; [exact W'|]. split; [exact Hk'|].
    cbn [nodes_removed push_rem]. rewrite !indices_app, EI, EI2, EI3. clear. multiset_solver.
Qed.

(** Setting a key: zero deletes it. *)
Definition map_set (key : bits) (v : Felt) (M : gmap bits Felt) : gmap bits Felt :=
  if felt_eqb v FELT_ZERO then delete key M else <[key := v]> M.

Lemma set_refines M I0 st key v : represents M I0 st -> length key = HEIGHT ->
  exists st', set storage HEIGHT key v st = Ret (Ok tt, st') /\ represents (map_set key v M) I0 st' /\ settled st'.
Proof.
  destruct st as [tr m]. intros Rp Lk. unfold map_set. destruct (felt_eqb v FELT_ZERO) eqn:Ez.
  - unfold set. rewrite Ez. now apply delete_spec.
  - apply set_spec; [exact Rp | exact Lk |]. intros ->. rewrite (proj2 (felt_eqb_eq _ _) eq_refl) in Ez. discriminate.
Qed.

(** A sequence of updates. *)
Fixpoint set_all (updates : list (bits * Felt)) (st : state) : outcome (result (TreeError E) unit * state) :=
  match updates with
  | [] => Ret (Ok tt, st)
  | (key, v) :: updates => bind (set storage HEIGHT key v) (fun _ => set_all updates) st
  end.

Definition map_set_all (updates : list (bits * Felt)) (M : gmap bits Felt) : gmap bits Felt :=
  fold_left (fun M kv => map_set kv.1 kv.2 M) updates M.

Lemma set_all_refines updates : forall M I0 st, represents M I0 st ->
  Forall (fun kv => length kv.1 = HEIGHT) updates ->
  exists st', set_all updates st = Ret (Ok tt, st') /\ represents (map_set_all updates M) I0 st' /\
    (st' = st /\ updates = [] \/ settled st').
Proof.
  induction updates as [|[k v] updates IH]; intros M I0 st Rp Hl; [exists st; auto 6|].
  inversion_clear Hl as [|? ? Hk Hl']. cbn [fst] in Hk.
  destruct (set_refines M I0 st k v Rp Hk) as (st1 & E1 & Rp1 & S1). cbn [set_all]. unfold bind. rewrite E1.
  destruct (IH _ _ _ Rp1 Hl') as (st' & E' & Rp' & [[-> ->]|S']); [exists st1 | exists st']; auto.
Qed.
End Map.
