(* ===== verification/TreeCommit.v ===== *)
(** Committing a tree: the changed nodes are hashed and listed bottom up, and
    the root of the result is the commitment of the map the tree stands for. *)

From Stdlib Require Import ZArith Lia Bool List.
From stdpp Require Import gmap gmultiset list sets.
From S2P Require Import Prelude Bytes Felt MerkleNode Tree TrieSpec TreeHash TreeRep TreeOps.
From S2P Require Import Pedersen TreeMap.

(** ** Code *)

(** Errors by [?] in a function that may panic. *)
Definition try {E A B} (x : outcome (result E A)) (k : A -> outcome (result E B))
    : outcome (result E B) :=
  match x with
  | Panic => Panic
  | Ret (Err e) => Ret (Err e)
  | Ret (Ok a) => k a
  end.

Notation "'let+' x ':=' e 'in' k" := (try e (fun x => k))
  (at level 10, x pattern, e at level 100, k at level 200) : tree_scope.

Section Code.
Context {E : Type} (storage : Storage E) (H : Felt -> Felt -> outcome Felt) (HEIGHT : nat).

(** [storage.hash(idx)?.context(..)?] *)
Definition stored_hash (idx : TrieStorageIndex) (missing : TreeError E)
    : outcome (result (TreeError E) Felt) :=
  match storage_hash storage idx with
  | Err e => Ret (Err (StorageFailure e))
  | Ok None => Ret (Err missing)
  | Ok (Some hash) => Ret (Ok hash)
  end.

Definition stored_leaf (path : bits) : outcome (result (TreeError E) Felt) :=
  let! r := storage_leaf storage path in
  match r with
  | Err e => Ret (Err (StorageFailure e))
  | Ok None => Ret (Err LeafValueMissing)
  | Ok (Some value) => Ret (Ok value)
  end.

(** [*child.borrow_mut()] *)
Definition borrow (m : Mem) (l : loc) : outcome (result (TreeError E) InternalNode) :=
  match cells m !! l with
  | Some node => Ret (Ok node)
  | None => Panic
  end.

Definition persisted_binary (left_child right_child : option NodeRef)
    : outcome (result (TreeError E) Node) :=
  match left_child, right_child with
  | None, None => Ret (Ok NodeLeafBinary)
  | Some left, Some right => Ret (Ok (NodeBinary left right))
  | _, _ => Ret (Err InconsistentChildren)
  end.

Definition persisted_edge (child : option NodeRef) (path : bits) : Node :=
  match child with
  | None => NodeLeafEdge path
  | Some child => NodeEdge child path
  end.

(** The result, and the accumulators [added] and [removed]. *)
Definition committed : Type :=
  Felt * option NodeRef * list (Felt * Node) * list TrieStorageIndex.

Fixpoint commit_subtree (fuel : nat) (self : MerkleTree) (m : Mem) (node : InternalNode)
    (added : list (Felt * Node)) (removed : list TrieStorageIndex) (path : bits)
    : outcome (result (TreeError E) committed) :=
  match fuel with
  | O => Panic
  | S fuel =>
      match node with
      | Unresolved idx =>
          let+ hash := stored_hash idx NodeHashMissing in
          Ret (Ok (hash, Some (StorageIndex idx), added, removed))
      | Leaf =>
          let+ hash :=
            match leaves self !! path with
            | Some value => Ret (Ok value)
            | None => stored_leaf path
            end in
          Ret (Ok (hash, None, added, removed))
      | Binary binary =>
          let+ left_node := borrow m (left binary) in
          let+ (left_hash, left_child, added, removed) :=
            commit_subtree fuel self m left_node added removed (path ++ [bool_of_direction Left]) in
          let+ right_node := borrow m (right binary) in
          let+ (right_hash, right_child, added, removed) :=
            commit_subtree fuel self m right_node added removed (path ++ [bool_of_direction Right]) in
          let! hash := binary_calculate_hash H left_hash right_hash in
          let+ persisted_node := persisted_binary left_child right_child in
          let removed := removed ++ option_list (binary_storage_index binary) in
          let node_index := length added in
          Ret (Ok (hash, Some (Index node_index), added ++ [(hash, persisted_node)], removed))
      | Edge edge =>
          let path := path ++ MerkleNode.path edge in
          let+ child_node := borrow m (child edge) in
          let+ (child_hash, child, added, removed) :=
            commit_subtree fuel self m child_node added removed path in
          let! hash := edge_calculate_hash H child_hash (MerkleNode.path edge) in
          let persisted_node := persisted_edge child (MerkleNode.path edge) in
          let node_index := length added in
          let added := added ++ [(hash, persisted_node)] in
          let removed := removed ++ option_list (edge_storage_index edge) in
          Ret (Ok (hash, Some (Index node_index), added, removed))
      end
  end.

(** A path has at most [HEIGHT] nodes and a leaf. *)
Definition commit_fuel : nat := HEIGHT + 1.

Definition commit (st : state) : outcome (result (TreeError E) TrieUpdate) :=
  let (self, m) := st in
  let+ (root_hash, _, added, removed) :=
    match root self with
    | Some root =>
        let+ node := borrow m root in
        match node with
        | Unresolved idx =>
            let+ root_hash := stored_hash idx RootHashMissing in
            Ret (Ok (root_hash, None, [], []))
        | other => commit_subtree commit_fuel self m other [] [] []
        end
    | None => Ret (Ok (FELT_ZERO, None, [], []))
    end in
  let removed := removed ++ nodes_removed self in
  Ret (Ok (MkTrieUpdate added removed root_hash)).
End Code.

(** ** Storage with hashes *)

Section Hashed.
Context {E : Type} (storage : Storage E) (H : Felt -> Felt -> outcome Felt).

(** The stored node reached by a path represents a trie, and its stored hash is
    that of its children or leaves. *)
Inductive hashed : bits -> TrieStorageIndex -> trie -> Felt -> Prop :=
| hashed_binary pi idx l r tl tr hl hr h :
    storage_get storage idx = Ok (Some (StoredBinary l r)) ->
    storage_hash storage idx = Ok (Some h) ->
    hashed (pi ++ [false]) l tl hl -> hashed (pi ++ [true]) r tr hr ->
    binary_calculate_hash H hl hr = Ret h -> hashed pi idx (TBin tl tr) h
| hashed_edge pi idx c p t hc h :
    storage_get storage idx = Ok (Some (StoredEdge c p)) ->
    storage_hash storage idx = Ok (Some h) ->
    hashed (pi ++ p) c t hc -> edge_calculate_hash H hc p = Ret h -> hashed pi idx (TEdge p t) h
| hashed_leaf_binary pi idx vl vr h :
    storage_get storage idx = Ok (Some StoredLeafBinary) ->
    storage_hash storage idx = Ok (Some h) ->
    storage_leaf storage (pi ++ [false]) = Ret (Ok (Some vl)) ->
    storage_leaf storage (pi ++ [true]) = Ret (Ok (Some vr)) ->
    binary_calculate_hash H vl vr = Ret h -> hashed pi idx (TBin TLeaf TLeaf) h
| hashed_leaf_edge pi idx p v h :
    storage_get storage idx = Ok (Some (StoredLeafEdge p)) ->
    storage_hash storage idx = Ok (Some h) ->
    storage_leaf storage (pi ++ p) = Ret (Ok (Some v)) ->
    edge_calculate_hash H v p = Ret h -> hashed pi idx (TEdge p TLeaf) h.

(** Some hash is known of a node that is not resolved. *)
Definition known (pi : bits) (idx : TrieStorageIndex) (t : trie) : Prop := exists h, hashed pi idx t h.

Lemma known_closed : closed storage known.
Proof.
  split.
  - intros pi idx l r tl tr G [h Hh]. inversion Hh; subst; rewrite G in *; try congruence.
    simplify_eq. unfold known. eauto.
  - intros pi idx c p t G [h Hh]. inversion Hh; subst; rewrite G in *; try congruence.
    simplify_eq. unfold known. eauto.
Qed.

Lemma hashed_stored_hash pi idx t h : hashed pi idx t h -> storage_hash storage idx = Ok (Some h).
Proof. now destruct 1. Qed.

(** The values of the leaves that storage has. *)
Definition values_ok (val : bits -> Felt) (pi : bits) (t : trie) : Prop :=
  forall k v, has t k = true -> storage_leaf storage (pi ++ k) = Ret (Ok (Some v)) -> val (pi ++ k) = v.

(** The stored hash is the hash of the trie, for the stored values. *)
Lemma hashed_thash val pi idx t h : hashed pi idx t h -> values_ok val pi t -> thash H val pi t = Ret h.
Proof.
  induction 1 as [pi idx l r tl tr hl hr h G Hs Hl IHl Hr IHr Eh|pi idx c p t hc h G Hs Hc IH Eh
    |pi idx vl vr h G Hs Ll Lr Eh|pi idx p v h G Hs Lv Eh]; intros Hv; cbn [thash].
  - rewrite IHl, IHr; [exact Eh| |]; intros k v; rewrite <- app_assoc; intros; now apply Hv.
  - rewrite IH; [exact Eh|]. intros k v; rewrite <- app_assoc. intros Hk. apply Hv. now rewrite has_edge_app.
  - rewrite (Hv [false] vl), (Hv [true] vr) by easy. exact Eh.
  - rewrite (Hv p v); [exact Eh| |exact Lv]. rewrite <- (app_nil_r p) at 2. now rewrite has_edge_app.
Qed.

(** ** The nodes of an update *)

(** A reference into the added nodes, or to a stored one, stands for a trie with
    the given hash; [I] are the stored nodes that remain in use.  The added nodes
    it uses lie in an interval, and those of two children in two intervals. *)
Inductive refers (added : list (Felt * Node)) (val : bits -> Felt)
  : NodeRef -> bits -> trie -> Felt -> gmultiset Z -> nat -> nat -> Prop :=
| refers_stored pi idx t h I lo hi :
    hashed pi idx t h -> stored storage idx t I -> values_ok val pi t ->
    refers added val (StorageIndex idx) pi t h I lo hi
| refers_binary pi i l r tl tr hl hr h Il Ir lo mid hi :
    added !! i = Some (h, NodeBinary l r) -> lo <= mid <= i -> i < hi ->
    refers added val l (pi ++ [false]) tl hl Il lo mid -> refers added val r (pi ++ [true]) tr hr Ir mid i ->
    binary_calculate_hash H hl hr = Ret h -> refers added val (Index i) pi (TBin tl tr) h (Il ⊎ Ir) lo hi
| refers_edge pi i c p t hc h I lo hi :
    added !! i = Some (h, NodeEdge c p) -> lo <= i < hi ->
    refers added val c (pi ++ p) t hc I lo i ->
    edge_calculate_hash H hc p = Ret h -> refers added val (Index i) pi (TEdge p t) h I lo hi
| refers_leaf_binary pi i h lo hi :
    added !! i = Some (h, NodeLeafBinary) -> lo <= i < hi ->
    binary_calculate_hash H (val (pi ++ [false])) (val (pi ++ [true])) = Ret h ->
    refers added val (Index i) pi (TBin TLeaf TLeaf) h ∅ lo hi
| refers_leaf_edge pi i p h lo hi :
    added !! i = Some (h, NodeLeafEdge p) -> lo <= i < hi ->
    edge_calculate_hash H (val (pi ++ p)) p = Ret h ->
    refers added val (Index i) pi (TEdge p TLeaf) h ∅ lo hi.

Lemma refers_app added more val r pi t h I lo hi :
  refers added val r pi t h I lo hi -> refers (added ++ more) val r pi t h I lo hi.
Proof.
  induction 1 as [|pi i l r tl tr hl hr h Il Ir lo mid hi G B1 B2 Rl IHl Rr IHr Eh
    |pi i c p t hc h I lo hi G B Rc IH Eh|pi i h lo hi G B Eh|pi i p h lo hi G B Eh].
  - now apply refers_stored.
  - apply (refers_binary _ _ _ _ l r _ _ hl hr _ _ _ _ mid); auto using lookup_app_l_Some.
  - apply (refers_edge _ _ _ _ c _ _ hc); auto using lookup_app_l_Some.
  - apply refers_leaf_binary; auto using lookup_app_l_Some.
  - apply refers_leaf_edge; auto using lookup_app_l_Some.
Qed.
End Hashed.

Section Facts.
Context {E : Type} (storage : Storage E) (H : Felt -> Felt -> outcome Felt) (HEIGHT : nat).

Abbreviation irep := (irep storage).
Abbreviation nrep := (nrep storage).
Abbreviation fresh := (fresh (known storage H)).

(** What committing a node gives. *)
Definition commits (tr : MerkleTree) (m : Mem) (val : bits -> Felt) (n : InternalNode) (pi : bits)
    (t : trie) (h : Felt) (I : gmultiset Z) : Prop :=
  forall fuel added removed, HEIGHT - length pi < fuel ->
  exists r more rem R,
    commit_subtree storage H fuel tr m n added removed pi
      = Ret (Ok (h, r, added ++ more, removed ++ rem)) /\
    I = indices rem ⊎ R /\
    match r with
    | None => t = TLeaf /\ more = [] /\ R = ∅
    | Some r => t <> TLeaf /\
        refers storage H (added ++ more) val r pi t h R (length added) (length (added ++ more)) /\
        match n with
        | Unresolved idx => r = StorageIndex idx /\ more = []
        | _ => exists i, r = Index i /\ S i = length (added ++ more)
        end
    end.

Lemma wf_leaf n t : wf n t -> (n = 0 <-> t = TLeaf).
Proof.
  intros W. split; [intros -> | intros ->; exact W].
  destruct t; [reflexivity|..]; apply wf_pos in W; lia || discriminate.
Qed.

Lemma commits_binary tr m val si h a b na nb pi ta tb ha hb hh Ia Ib :
  cells m !! a = Some na -> cells m !! b = Some nb ->
  commits tr m val na (pi ++ [false]) ta ha Ia -> commits tr m val nb (pi ++ [true]) tb hb Ib ->
  length pi < HEIGHT -> binary_calculate_hash H ha hb = Ret hh ->
  thash H val (pi ++ [false]) ta = Ret ha -> thash H val (pi ++ [true]) tb = Ret hb ->
  (ta = TLeaf <-> tb = TLeaf) ->
  commits tr m val (Binary (MkBinary si h a b)) pi (TBin ta tb) hh (idxs si ⊎ (Ia ⊎ Ib)).
Proof.
  intros Ha Hb Ca Cb Lp Eh Ta Tb Hleaf [|fuel] added removed Hf; [lia|].
  destruct (Ca fuel added removed) as (ra & ma & rema & Ra & Ea & Ia' & Pa); [rewrite length_app; cbn; lia|].
  destruct (Cb fuel (added ++ ma) (removed ++ rema)) as (rb & mb & remb & Rb & Eb & Ib' & Pb);
    [rewrite length_app; cbn; lia|].
  cbn [commit_subtree left right bool_of_direction binary_storage_index]. unfold borrow. rewrite Ha, Hb.
  cbn [try]. rewrite Ea. cbn [try]. rewrite Eb. cbn [try]. rewrite Eh. cbn [bind_outcome].
  assert (EI : idxs si ⊎ (Ia ⊎ Ib) = indices (rema ++ remb ++ option_list si) ⊎ (Ra ⊎ Rb)).
  { rewrite !indices_app, indices_option, Ia', Ib'. clear. multiset_solver. }
  destruct ra as [ra|], rb as [rb|]; cbn [persisted_binary try].
  - destruct Pa as (Na & Pa & _), Pb as (Nb & Pb & _).
    exists (Some (Index (length ((added ++ ma) ++ mb)))), (ma ++ mb ++ [(hh, NodeBinary ra rb)]),
      (rema ++ remb ++ option_list si), (Ra ⊎ Rb).
    split; [now rewrite <- !app_assoc|]. split; [exact EI|]. split; [discriminate|].
    rewrite !app_assoc. split; [|eexists; split; [reflexivity | rewrite !length_app; cbn; lia]]. 
    apply (refers_binary _ _ _ _ _ _ ra rb _ _ ha hb _ _ _ _ (length (added ++ ma))); try exact Eh.
    + now rewrite lookup_app_r, Nat.sub_diag by lia.
    + rewrite !length_app. lia.
    + rewrite !length_app. cbn. lia.
    + rewrite <- app_assoc. now apply refers_app.
    + now apply refers_app.
  - exfalso. now apply (proj1 Pa), Hleaf.
  - exfalso. now apply (proj1 Pb), Hleaf.
  - destruct Pa as (-> & -> & ->), Pb as (-> & -> & ->).
    exists (Some (Index (length ((added ++ []) ++ [])))), [(hh, NodeLeafBinary)],
      (rema ++ remb ++ option_list si), ∅. rewrite !app_nil_r, <- !app_assoc.
    split; [reflexivity|]. split; [rewrite EI; clear; multiset_solver|]. split; [discriminate|].
    split; [|eexists; split; [reflexivity | rewrite !length_app; cbn; lia]]. apply refers_leaf_binary; [now rewrite lookup_app_r, Nat.sub_diag by lia | rewrite length_app; cbn; lia |].
    cbn [thash] in Ta, Tb. congruence.
Qed.

Lemma commits_edge tr m val si h p c n pi t hc hh I :
  cells m !! c = Some n -> commits tr m val n (pi ++ p) t hc I ->
  p <> [] -> length pi + length p <= HEIGHT -> edge_calculate_hash H hc p = Ret hh ->
  thash H val (pi ++ p) t = Ret hc ->
  commits tr m val (Edge (MkEdge si h p c)) pi (TEdge p t) hh (idxs si ⊎ I).
Proof.
  intros Hc Cc Np Lp Eh Tc [|fuel] added removed Hf; [lia|].
  assert (0 < length p) by (destruct p; cbn; [easy | lia]).
  destruct (Cc fuel added removed) as (r & more & rem & R & Ec & I' & Pc); [rewrite length_app; lia|].
  cbn [commit_subtree child MerkleNode.path edge_storage_index]. unfold borrow. rewrite Hc.
  cbn [try]. rewrite Ec. cbn [try]. rewrite Eh. cbn [bind_outcome].
  assert (EI : idxs si ⊎ I = indices (rem ++ option_list si) ⊎ R).
  { rewrite !indices_app, indices_option, I'. clear. multiset_solver. }
  exists (Some (Index (length (added ++ more)))), (more ++ [(hh, persisted_edge r p)]),
    (rem ++ option_list si), R. rewrite <- !app_assoc.
  split; [reflexivity|]. split; [exact EI|]. split; [discriminate|]. rewrite app_assoc.
  split; [|eexists; split; [reflexivity | rewrite !length_app; cbn; lia]]. destruct r as [r|]; cbn [persisted_edge].
  - destruct Pc as (N & Pc & _). apply (refers_edge _ _ _ _ _ _ r _ _ hc); try exact Eh.
    + now rewrite lookup_app_r, Nat.sub_diag by lia.
    + rewrite !length_app. cbn. lia.
    + now apply refers_app.
  - destruct Pc as (-> & -> & ->). apply refers_leaf_edge;
      [now rewrite lookup_app_r, Nat.sub_diag by lia | rewrite !length_app; cbn; lia |].
    cbn [thash] in Tc. congruence.
Qed.

Lemma commits_leaf tr m val pi : leaf_value storage tr pi = Some (val pi) ->
  commits tr m val Leaf pi TLeaf (val pi) ∅.
Proof.
  intros Hv [|fuel] added removed Hf; [lia|]. exists None, [], [], ∅. rewrite !app_nil_r.
  split; [|split; [rewrite indices_nil; clear; multiset_solver | auto]].
  cbn [commit_subtree]. unfold leaf_value in Hv. destruct (leaves tr !! pi) as [v|]; [now injection Hv as ->|].
  unfold stored_leaf. destruct (storage_leaf storage pi) as [[[v|]|]|]; try discriminate. now injection Hv as ->.
Qed.

Lemma commits_unresolved tr m val pi idx t h I : hashed storage H pi idx t h -> stored storage idx t I ->
  values_ok storage val pi t -> commits tr m val (Unresolved idx) pi t h I.
Proof.
  intros Hh Hs Hv [|fuel] added removed Hf; [lia|].
  exists (Some (StorageIndex idx)), [], [], I. rewrite !app_nil_r.
  split; [cbn [commit_subtree]; unfold stored_hash; now rewrite (hashed_stored_hash _ _ _ _ _ _ Hh)|].
  split; [rewrite indices_nil; clear; multiset_solver|]. split; [now destruct Hs|].
  split; [now apply refers_stored | auto].
Qed.

(** Committing a node gives the hash of the trie it represents. *)
Lemma commits_nrep tr m val t : forall n h pi F I hh,
  nrep (fresh (leaves tr)) (cells m) n h pi t F I -> wf (HEIGHT - length pi) t -> length pi <= HEIGHT ->
  (forall k, has t k = true -> leaf_value storage tr (pi ++ k) = Some (val (pi ++ k))) ->
  thash H val pi t = Ret hh -> commits tr m val n pi t hh I.
Proof.
  assert (Un : forall t h h' pi idx (I : gmultiset Z), hashed storage H pi idx t h -> stored storage idx t I ->
    (forall k, has t k = true -> leaves tr !! (pi ++ k) = None) ->
    (forall k, has t k = true -> leaf_value storage tr (pi ++ k) = Some (val (pi ++ k))) ->
    thash H val pi t = Ret h' -> commits tr m val (Unresolved idx) pi t h' I).
  { intros u h h' pi idx I Hh Hs Hf Hv Th. assert (Ho : values_ok storage val pi u).
    { intros k v Hk Hl. specialize (Hv k Hk). unfold leaf_value in Hv. rewrite (Hf k Hk), Hl in Hv. congruence. }
    rewrite (hashed_thash _ _ _ _ _ _ _ Hh Ho) in Th. injection Th as <-. now apply commits_unresolved. }
  induction t as [|ta IHa tb IHb|p c IHc]; intros n h pi F I hh N W Lp Hv Th;
    inversion N as [? ?|? ? idx ? ? Hs [[h0 Hh] Hfr]|? ? si a b ? ? Fa Fb Ia Ib Ra Rb D|? ? si q l ? ? J Rc]; subst.
  - injection Th as <-. apply commits_leaf. rewrite <- (app_nil_r pi). now apply Hv.
  - now apply (Un _ h0).
  - now apply (Un _ h0).
  - destruct W as (n' & En & Wa & Wb). cbn [thash] in Th.
    destruct (thash H val (pi ++ [false]) ta) as [ha|] eqn:Ta; [|discriminate].
    destruct (thash H val (pi ++ [true]) tb) as [hb|] eqn:Tb; [|discriminate]. cbn [bind_outcome] in Th.
    apply irep_node in Ra as (na & Fa0 & Ha & Na & _). apply irep_node in Rb as (nb & Fb0 & Hb & Nb & _).
    assert (En' : forall b, HEIGHT - length (pi ++ [b]) = n') by (intros; rewrite length_app; cbn; lia).
    apply (commits_binary tr m val si h a b na nb pi ta tb ha hb); try assumption; try lia.
    + eapply IHa; [exact Na | now rewrite En' | rewrite length_app; cbn; lia | | exact Ta].
      intros k Hk. rewrite <- app_assoc. now apply Hv.
    + eapply IHb; [exact Nb | now rewrite En' | rewrite length_app; cbn; lia | | exact Tb].
      intros k Hk. rewrite <- app_assoc. now apply Hv.
    + rewrite <- (wf_leaf _ _ Wa). apply (wf_leaf _ _ Wb).
  - now apply (Un _ h0).
  - destruct W as (Hp & _ & n' & En & W). cbn [thash] in Th.
    destruct (thash H val (pi ++ p) c) as [hc|] eqn:Tc; [|discriminate]. cbn [bind_outcome] in Th.
    apply irep_node in Rc as (nc & Fc & Hc & Nc & _).
    apply (commits_edge tr m val si h p l nc pi c hc); try assumption; [|lia].
    eapply IHc; [exact Nc | | rewrite length_app; lia | | exact Tc].
    + rewrite length_app. now replace (HEIGHT - (length pi + length p)) with n' by lia.
    + intros k Hk. rewrite <- app_assoc. apply Hv. now rewrite has_edge_app.
Qed.

(** The values of a map. *)
Definition map_value (M : gmap bits Felt) (k : bits) : Felt := default FELT_ZERO (M !! k).

Lemma map_root (t : trie) (M : gmap bits Felt) : wf HEIGHT t -> keys_of HEIGHT t M ->
  spec_root H HEIGHT (fun k => M !! k) = thash H (map_value M) [] t.
Proof.
  intros W Hk. apply spec_root_trie; [exact W|]. intros k L. rewrite (Hk k L).
  unfold map_value. case_bool_decide as Hs; [|now apply eq_None_not_Some].
  destruct Hs as [v ->]. reflexivity.
Qed.

(** The nodes of an update with the root of the trie it leaves. *)
Definition update_of (M : gmap bits Felt) (h : Felt) (st : state) (R : gmultiset Z) (upd : TrieUpdate) : Prop :=
  match root st.1 with
  | None => M = ∅ /\ nodes_added upd = [] /\ R = ∅
  | Some l => exists t, wf HEIGHT t /\ keys_of HEIGHT t M /\
      match cells st.2 !! l with
      | Some (Unresolved idx) => nodes_added upd = [] /\ hashed storage H [] idx t h /\ stored storage idx t R /\
          values_ok storage (map_value M) [] t
      | _ => nodes_added upd <> [] /\
          refers storage H (nodes_added upd) (map_value M) (Index (length (nodes_added upd) - 1)) [] t h R
            0 (length (nodes_added upd))
      end
  end.

Lemma commit_spec M I0 st h : 0 < HEIGHT -> represents storage HEIGHT (known storage H) M I0 st ->
  spec_root H HEIGHT (fun k => M !! k) = Ret h ->
  exists upd R, commit storage H HEIGHT st = Ret (Ok upd) /\ root_commitment upd = h /\
    I0 = indices (update_nodes_removed upd) ⊎ R /\ update_of M h st R upd.
Proof.
  destruct st as [tr m]. intros Hpos [K Sh Vs] Eh. unfold commit, update_of. cbn [fst snd] in *.
  destruct (root tr) as [l|].
  2: { destruct Sh as [-> ->]. rewrite spec_root_none in Eh by (intros; apply lookup_empty).
       injection Eh as <-. eexists _, ∅. split; [reflexivity|].
       cbn [root_commitment update_nodes_removed nodes_added app]. split; [reflexivity|].
       split; [clear; multiset_solver | auto]. }
  destruct Sh as (t & F & I & R & W & Hk & ->). rewrite (map_root t M W Hk) in Eh.
  pose proof R as (n & F0 & Hl & N & _)%irep_node. unfold borrow. rewrite Hl. cbn [try].
  assert (Cm : commits tr m (map_value M) n [] t h I).
  { apply (commits_nrep tr m (map_value M) t n 0 [] F0 I h N); try exact Eh; cbn; try lia.
    - now rewrite Nat.sub_0_r.
    - intros k Hin. specialize (Hk k (has_length _ _ _ W Hin)). rewrite Hin in Hk. symmetry in Hk.
      apply bool_decide_eq_true in Hk as [v Hv]. destruct (Vs k v Hv) as [_ ->]. unfold map_value. now rewrite Hv. }
  assert (Nl : t <> TLeaf) by (intros ->; cbn in W; lia).
  destruct (Cm (commit_fuel HEIGHT) [] []) as (r & more & rem & Re & Ec & EI & Pr);
    [unfold commit_fuel; cbn; lia|]. cbn [app] in *.
  destruct r as [r|]; [|now destruct Pr]. destruct Pr as (_ & Pr & Pn).
  destruct n as [idx|bn|en|].
  - destruct Pn as [-> ->]. unfold commit_fuel in Ec. rewrite Nat.add_1_r in Ec. cbn [commit_subtree] in Ec.
    unfold stored_hash in Ec |- *. destruct (storage_hash storage idx) as [[h'|]|]; try discriminate.
    cbn [try] in Ec |- *. injection Ec as -> <-. inversion Pr; subst.
    eexists _, Re. split; [reflexivity|]. cbn [root_commitment update_nodes_removed nodes_added app].
    split; [reflexivity|]. split; [rewrite indices_nil; clear; multiset_solver|]. exists t. auto 6.
  - cbv beta iota zeta. rewrite Ec. destruct Pn as (i & -> & Ei). eexists _, Re. split; [reflexivity|].
    cbn [root_commitment update_nodes_removed nodes_added]. split; [reflexivity|]. rewrite indices_app, EI. split; [clear; multiset_solver|].
    exists t. split; [exact W|]. split; [exact Hk|]. split; [now destruct more|].
    now replace (length more - 1) with i by lia.
  - cbv beta iota zeta. rewrite Ec. destruct Pn as (i & -> & Ei). eexists _, Re. split; [reflexivity|].
    cbn [root_commitment update_nodes_removed nodes_added]. split; [reflexivity|]. rewrite indices_app, EI. split; [clear; multiset_solver|].
    exists t. split; [exact W|]. split; [exact Hk|]. split; [now destruct more|].
    now replace (length more - 1) with i by lia.
  - inversion N. now subst.
Qed.

Lemma map_root_total M I0 st : FeltHash H -> HEIGHT <= 251 ->
  represents storage HEIGHT (known storage H) M I0 st -> map_Forall (fun _ v => felt_ok v) M ->
  exists h, spec_root H HEIGHT (fun k => M !! k) = Ret h /\ felt_ok h.
Proof.
  intros HH Hn [K Sh _] HM. destruct (root st.1) as [l|].
  - destruct Sh as (t & F & I & R & W & Hk & _). rewrite (map_root t M W Hk).
    apply (thash_total H _ t HH) with (n := HEIGHT); try assumption. intros k. unfold map_value.
    destruct (M !! k) eqn:Hv; cbn; [exact (HM k _ Hv) | exact FELT_ZERO_ok].
  - destruct Sh as [-> _]. rewrite spec_root_none by (intros; apply lookup_empty). eauto using FELT_ZERO_ok.
Qed.
End Facts.
