(* ===== verification/TreeProof.v ===== *)
(** Merkle proofs: generation from storage, the check of a proof, and that the
    two fit together. *)

From Stdlib Require Import ZArith Lia Bool List.
From stdpp Require Import gmap gmultiset list sets.
From S2P Require Import Prelude Bytes Felt MerkleNode Tree TrieSpec TreeHash TreeRep TreeOps TreeMap.
From S2P Require Import Pedersen TreeCommit.

(** ** Code *)

(** The messages of an internal error. *)
Inductive ProofFailure (E : Type) : Type :=
| ProofStorage (e : E)
| BinaryKeyTooShort
| EdgeKeyTooShort
| LeftHashMissing
| RightHashMissing
| ChildHashMissing
| LeftLeafMissing
| RightLeafMissing
| ChildLeafMissing
| ProofHashMissing.
Arguments ProofStorage {E} e.
Arguments BinaryKeyTooShort {E}.
Arguments EdgeKeyTooShort {E}.
Arguments LeftHashMissing {E}.
Arguments RightHashMissing {E}.
Arguments ChildHashMissing {E}.
Arguments LeftLeafMissing {E}.
Arguments RightLeafMissing {E}.
Arguments ChildLeafMissing {E}.
Arguments ProofHashMissing {E}.

Inductive GetProofError (E : Type) : Type :=
| Internal (e : ProofFailure E)
| StorageNodeMissing (index : TrieStorageIndex).
Arguments Internal {E} e.
Arguments StorageNodeMissing {E} index.

Definition TrieNodeWithHash : Type := TrieNode * Felt.

(** [key.get(from..to)] *)
Definition get_range (key : bits) (from to : nat) : option bits :=
  if (from <=? to) && (to <=? length key) then Some (take (to - from) (drop from key)) else None.

Section Code.
Context {E : Type} (storage : Storage E).

Abbreviation Result A := (outcome (result (GetProofError E) A)).

Record Caches : Type := MkCaches {
  node_cache : gmap TrieStorageIndex StoredNode;
  node_hash_cache : gmap TrieStorageIndex Felt
}.

(** [storage.hash(index).context(..)?.context(missing)?] *)
Definition hash_or (index : TrieStorageIndex) (missing : ProofFailure E) : Result Felt :=
  match storage_hash storage index with
  | Err e => Ret (Err (Internal (ProofStorage e)))
  | Ok None => Ret (Err (Internal missing))
  | Ok (Some hash) => Ret (Ok hash)
  end.

Definition leaf_or (path : bits) (missing : ProofFailure E) : Result Felt :=
  let! r := storage_leaf storage path in
  match r with
  | Err e => Ret (Err (Internal (ProofStorage e)))
  | Ok None => Ret (Err (Internal missing))
  | Ok (Some value) => Ret (Ok value)
  end.

Definition cached_node (c : Caches) (index : TrieStorageIndex) : Result (StoredNode * Caches) :=
  match node_cache c !! index with
  | Some node => Ret (Ok (node, c))
  | None =>
      match storage_get storage index with
      | Err e => Ret (Err (Internal (ProofStorage e)))
      | Ok None => Ret (Err (StorageNodeMissing index))
      | Ok (Some node) => Ret (Ok (node, MkCaches (<[index := node]> (node_cache c)) (node_hash_cache c)))
      end
  end.

Definition cached_hash (c : Caches) (index : TrieStorageIndex) : Result (Felt * Caches) :=
  match node_hash_cache c !! index with
  | Some hash => Ret (Ok (hash, c))
  | None =>
      let+ hash := hash_or index ProofHashMissing in
      Ret (Ok (hash, MkCaches (node_cache c) (<[index := hash]> (node_hash_cache c))))
  end.

(** The node of the proof, the index of the next node and the new height. *)
Definition proof_node (key : bits) (height : nat) (node : StoredNode)
    : Result (TrieNode * option TrieStorageIndex * nat) :=
  match node with
  | StoredBinary left right =>
      match key !! height with
      | None => Ret (Err (Internal BinaryKeyTooShort))
      | Some b =>
          let next := match direction_of_bool b with Left => left | Right => right end in
          let+ left := hash_or left LeftHashMissing in
          let+ right := hash_or right RightHashMissing in
          Ret (Ok (TrieBinary left right, Some next, height + 1))
      end
  | StoredEdge child path =>
      match get_range key height (height + length path) with
      | None => Ret (Err (Internal EdgeKeyTooShort))
      | Some k =>
          let next := if bool_decide (k = path) then Some child else None in
          let+ child := hash_or child ChildHashMissing in
          Ret (Ok (TrieEdge child path, next, height + length path))
      end
  | StoredLeafBinary =>
      let! path := bits_to key height in
      let+ left := leaf_or (path ++ [bool_of_direction Left]) LeftLeafMissing in
      let+ right := leaf_or (path ++ [bool_of_direction Right]) RightLeafMissing in
      Ret (Ok (TrieBinary left right, None, height))
  | StoredLeafEdge path =>
      let! current_path := bits_to key height in
      let+ child := leaf_or (current_path ++ path) ChildLeafMissing in
      Ret (Ok (TrieEdge child path, None, height))
  end.

(** The [while let] towards the key. *)
Fixpoint proof_loop (fuel : nat) (key : bits) (c : Caches) (next : option TrieStorageIndex)
    (height : nat) (nodes : list TrieNodeWithHash) : Result (list TrieNodeWithHash * Caches) :=
  match next with
  | None => Ret (Ok (nodes, c))
  | Some index =>
      match fuel with
      | O => Panic
      | S fuel =>
          let+ (node, c) := cached_node c index in
          let+ (node, next, height) := proof_node key height node in
          let+ (node_hash, c) := cached_hash c index in
          proof_loop fuel key c next height (nodes ++ [(node, node_hash)])
      end
  end.

(** The [for] over the keys.  A node consumes a bit of the key at least. *)
Fixpoint get_proofs_loop (root : TrieStorageIndex) (keys : list bits) (c : Caches)
    (proofs : list (list TrieNodeWithHash)) : Result (list (list TrieNodeWithHash)) :=
  match keys with
  | [] => Ret (Ok proofs)
  | key :: keys =>
      let+ (nodes, c) := proof_loop (length key + 1) key c (Some root) 0 [] in
      get_proofs_loop root keys c (proofs ++ [nodes])
  end.

Definition get_proofs (root : TrieStorageIndex) (keys : list bits)
    : Result (list (list TrieNodeWithHash)) :=
  get_proofs_loop root keys (MkCaches ∅ ∅) [].

Definition get_proof (root : TrieStorageIndex) (key : bits) : Result (list TrieNodeWithHash) :=
  let+ proofs := get_proofs root [key] in
  match proofs with
  | proof :: _ => Ret (Ok proof)
  | [] => Panic
  end.
End Code.

(** ** The check of a proof *)

Inductive Membership : Type := Member | NonMember.

Section Verify.
Context (H : Felt -> Felt -> outcome Felt).

Fixpoint verify_loop (expected_hash : Felt) (remaining_path : bits) (value : Felt)
    (proofs : list TrieNodeWithHash) : outcome (option Membership) :=
  match proofs with
  | [] => Ret (if felt_eqb expected_hash value then Some Member else None)
  | (proof_node, _) :: proofs =>
      let! hash := trie_node_hash H proof_node in
      if felt_eqb hash expected_hash then
        match proof_node with
        | TrieBinary left right =>
            let! b := bit_at remaining_path 0 in
            let expected_hash := match direction_of_bool b with Left => left | Right => right end in
            let! remaining_path := bits_from remaining_path 1 in
            verify_loop expected_hash remaining_path value proofs
        | TrieEdge child path =>
            let! prefix := bits_to remaining_path (length path) in
            if bool_decide (path = prefix) then
              let! remaining_path := bits_from remaining_path (length path) in
              verify_loop child remaining_path value proofs
            else Ret (Some NonMember)
        end
      else Ret None
  end.

Definition verify_proof (HEIGHT : nat) (root : Felt) (key : bits) (value : Felt)
    (proofs : list TrieNodeWithHash) : outcome (option Membership) :=
  if negb (length key =? HEIGHT) then Ret None else verify_loop root key value proofs.
End Verify.

(** ** The proof of a key in a trie *)

Section Spec.
Context (H : Felt -> Felt -> outcome Felt).

(** The nodes on the path of a key, root first; the last one is a parent of the
    leaf or the edge the key leaves. *)
Fixpoint tproof (val : bits -> Felt) (pi : bits) (t : trie) (k : bits) : outcome (list TrieNodeWithHash) :=
  match t with
  | TLeaf => Ret []
  | TBin l r =>
      let! hl := thash H val (pi ++ [false]) l in
      let! hr := thash H val (pi ++ [true]) r in
      let! h := binary_calculate_hash H hl hr in
      match k with
      | [] => Ret []
      | d :: k =>
          let! rest := tproof val (pi ++ [d]) (if d then r else l) k in
          Ret ((TrieBinary hl hr, h) :: rest)
      end
  | TEdge p c =>
      let! hc := thash H val (pi ++ p) c in
      let! h := edge_calculate_hash H hc p in
      if bool_decide (take (length p) k = p) then
        let! rest := tproof val (pi ++ p) c (drop (length p) k) in
        Ret ((TrieEdge hc p, h) :: rest)
      else Ret [(TrieEdge hc p, h)]
  end.

Lemma trie_node_edge c p : trie_node_hash H (TrieEdge c p) = edge_calculate_hash H c p.
Proof.
  unfold trie_node_hash, edge_calculate_hash. cbv zeta.
  destruct (byte_felt (Z.of_nat (length p))) as [_ ->]. reflexivity.
Qed.

(** *** Checking the proof of a trie *)

Lemma verify_complete val t : forall pi k h ns value, wf (length k) t -> thash H val pi t = Ret h ->
  tproof val pi t k = Ret ns ->
  verify_loop H h k value ns = Ret (if has t k then
    (if felt_eqb (val (pi ++ k)) value then Some Member else None) else Some NonMember).
Proof.
  induction t as [|l IHl r IHr|p c IHc]; intros pi k h ns value W Th Tp.
  - cbn in W, Th, Tp. injection Th as <-. injection Tp as <-. destruct k; [|discriminate].
    cbn. now rewrite app_nil_r.
  - destruct W as (n' & Ek & Wl & Wr). cbn [thash tproof] in Th, Tp.
    destruct (thash H val (pi ++ [false]) l) as [hl|] eqn:Tl; [|discriminate].
    destruct (thash H val (pi ++ [true]) r) as [hr|] eqn:Tr; [|discriminate].
    cbn [bind_outcome] in Th, Tp. rewrite Th in Tp. cbn [bind_outcome] in Tp.
    destruct k as [|d k]; [discriminate|]. injection Ek as <-.
    destruct (tproof val (pi ++ [d]) (if d then r else l) k) as [rest|] eqn:Tk; [|discriminate].
    injection Tp as <-. cbn [verify_loop trie_node_hash]. unfold binary_calculate_hash in Th. rewrite Th.
    cbn [bind_outcome]. rewrite (proj2 (felt_eqb_eq h h) eq_refl). cbn. rewrite drop_0.
    replace (pi ++ d :: k) with ((pi ++ [d]) ++ k) by now rewrite <- app_assoc.
    destruct d; cbn; [now apply IHr | now apply IHl].
  - destruct W as (Hp & Ee & n' & Ek & W). cbn [thash tproof] in Th, Tp.
    destruct (thash H val (pi ++ p) c) as [hc|] eqn:Tc; [|discriminate].
    cbn [bind_outcome] in Th, Tp. rewrite Th in Tp. cbn [bind_outcome] in Tp.
    assert (V : forall rest, verify_loop H h k value ((TrieEdge hc p, h) :: rest)
      = if bool_decide (take (length p) k = p) then verify_loop H hc (drop (length p) k) value rest
        else Ret (Some NonMember)).
    { intros rest. cbn [verify_loop]. rewrite trie_node_edge, Th. cbn [bind_outcome].
      rewrite (proj2 (felt_eqb_eq h h) eq_refl). unfold bits_to, bits_from.
      rewrite (proj2 (Nat.leb_le _ _)) by lia. cbn [bind_outcome].
      rewrite (bool_decide_ext (p = take (length p) k) (take (length p) k = p)) by (split; congruence).
      reflexivity. }
    cbn [has]. case_bool_decide as Ep.
    + destruct (tproof val (pi ++ p) c (drop (length p) k)) as [rest|] eqn:Tk; [|discriminate].
      injection Tp as <-. rewrite V. cbn [andb].
      rewrite (take_length_app p k Ep) at 3. rewrite app_assoc.
      apply IHc; [rewrite length_drop; now replace (length k - length p) with n' by lia | exact Tc | exact Tk].
    + injection Tp as <-. now rewrite V.
Qed.

(** *** Truncated proofs *)

(** A proof that stops early is accepted for the hash of the node it stops at. *)
Lemma verify_prefix val t : forall pi k h ns1 n hn ns2, wf (length k) t -> thash H val pi t = Ret h ->
  tproof val pi t k = Ret (ns1 ++ (n, hn) :: ns2) -> verify_loop H h k hn ns1 = Ret (Some Member).
Proof.
  induction t as [|l IHl r IHr|p c IHc]; intros pi k h ns1 n hn ns2 W Th Tp; cbn [thash tproof] in Th, Tp.
  - injection Tp as Tp. now destruct ns1.
  - destruct W as (n' & Ek & Wl & Wr). destruct (thash H val _ l) as [hl|] eqn:Tl; [|discriminate].
    destruct (thash H val _ r) as [hr|] eqn:Tr; [|discriminate]. cbn [bind_outcome] in Th, Tp. rewrite Th in Tp. cbn [bind_outcome] in Tp.
    destruct k as [|d k]; [discriminate|]. injection Ek as <-.
    destruct (tproof val (pi ++ [d]) (if d then r else l) k) as [rest|] eqn:Tk; [|discriminate]. injection Tp as Tp.
    destruct ns1 as [|x ns1]; cbn [app] in Tp; injection Tp as Tx Tp; subst; cbn [verify_loop].
    + now rewrite (proj2 (felt_eqb_eq _ _) eq_refl).
    + cbn [trie_node_hash]. unfold binary_calculate_hash in Th. rewrite Th. cbn [bind_outcome].
      rewrite (proj2 (felt_eqb_eq h h) eq_refl). cbn. rewrite drop_0. destruct d; cbn; eauto.
  - destruct W as (Hp & Ee & n' & Ek & W). destruct (thash H val _ c) as [hc|] eqn:Tc; [|discriminate].
    cbn [bind_outcome] in Th, Tp. rewrite Th in Tp. cbn [bind_outcome] in Tp. case_bool_decide as Ep.
    + destruct (tproof val (pi ++ p) c (drop (length p) k)) as [rest|] eqn:Tk; [|discriminate]. injection Tp as Tp.
      destruct ns1 as [|x ns1]; cbn [app] in Tp; injection Tp as Tx Tp; subst; cbn [verify_loop]; [now rewrite (proj2 (felt_eqb_eq _ _) eq_refl)|].
      rewrite trie_node_edge, Th. cbn [bind_outcome]. rewrite (proj2 (felt_eqb_eq h h) eq_refl). unfold bits_to, bits_from.
      rewrite (proj2 (Nat.leb_le _ _)) by lia. cbn [bind_outcome]. rewrite bool_decide_eq_true_2 by congruence.
      eapply IHc; [|exact Tc | exact Tk]. rewrite length_drop. now replace (length k - length p) with n' by lia.
    + injection Tp as Tp. destruct ns1 as [|x [|y ns1]]; cbn [app] in Tp; try discriminate. injection Tp as <- <- _.
      cbn. now rewrite (proj2 (felt_eqb_eq _ _) eq_refl).
Qed.

(** *** Forged proofs *)

(** The bits of the key a node stands for. *)
Definition node_bits (n : TrieNodeWithHash) : nat :=
  match n.1 with TrieBinary _ _ => 1 | TrieEdge _ path => length path end.

Definition proof_bits (ns : list TrieNodeWithHash) : nat := sum_list_with node_bits ns.

(** Two nodes at the same place, different but with the same hash. *)
Definition collision (ns honest : list TrieNodeWithHash) : Prop :=
  exists i n n' h, ns !! i = Some n /\ honest !! i = Some n' /\ n.1 <> n'.1 /\
    trie_node_hash H n.1 = Ret h /\ trie_node_hash H n'.1 = Ret h.

Lemma collision_cons a b ns honest : collision ns honest -> collision (a :: ns) (b :: honest).
Proof. intros (i & n & n' & h & C). now exists (S i), n, n', h. Qed.

Lemma collision_head n n' h x ns honest : n <> n' -> trie_node_hash H n = Ret h ->
  trie_node_hash H n' = Ret h -> collision ((n, x) :: ns) ((n', h) :: honest).
Proof. intros N E1 E2. exists 0, (n, x), (n', h), h. repeat split; assumption. Qed.

Definition node_eq_dec (n n' : TrieNode) : {n = n'} + {n <> n'}.
Proof. repeat decide equality. Defined.

(** What an accepted proof tells of a trie. *)
Definition proves (val : bits -> Felt) (pi : bits) (t : trie) (k : bits) (value : Felt) (r : Membership) : Prop :=
  match r with
  | Member => has t k = true /\ val (pi ++ k) = value
  | NonMember => has t k = false
  end.

Definition accepted (h : Felt) (k : bits) (value : Felt) (ns : list TrieNodeWithHash) (r : Membership) : Prop :=
  verify_loop H h k value ns = Ret (Some r) /\ Forall (fun n => 0 < node_bits n) ns /\
  (r = Member -> proof_bits ns = length k).

Lemma accepted_binary h d k value hl hr x ns r :
  accepted h (d :: k) value ((TrieBinary hl hr, x) :: ns) r ->
  binary_calculate_hash H hl hr = Ret h /\ accepted (if d then hr else hl) k value ns r.
Proof.
  intros (V & F & B). cbn [verify_loop trie_node_hash] in V. unfold binary_calculate_hash.
  destruct (H hl hr) as [h'|]; [|discriminate]. cbn [bind_outcome] in V.
  destruct (felt_eqb h' h) eqn:Ee; [|discriminate]. apply felt_eqb_eq in Ee as ->. split; [reflexivity|].
  cbn in V. rewrite drop_0 in V. inversion_clear F. split; [now destruct d|]. split; [assumption|].
  intros Hr. specialize (B Hr). unfold proof_bits in *. cbn [sum_list_with node_bits fst length] in B. lia.
Qed.

Lemma accepted_edge h k value hc p x ns r : length p <= length k ->
  accepted h k value ((TrieEdge hc p, x) :: ns) r ->
  edge_calculate_hash H hc p = Ret h /\
  (if bool_decide (take (length p) k = p) then accepted hc (drop (length p) k) value ns r
   else r = NonMember).
Proof.
  intros L (V & F & B). cbn [verify_loop] in V. rewrite trie_node_edge in V.
  destruct (edge_calculate_hash H hc p) as [h'|]; [|discriminate]. cbn [bind_outcome] in V.
  destruct (felt_eqb h' h) eqn:Ee; [|discriminate]. apply felt_eqb_eq in Ee as ->. split; [reflexivity|].
  unfold bits_to, bits_from in V. rewrite (proj2 (Nat.leb_le _ _)) in V by lia. cbn [bind_outcome] in V.
  rewrite (bool_decide_ext (p = take (length p) k) (take (length p) k = p)) in V by (split; congruence).
  inversion_clear F. case_bool_decide; [|congruence]. split; [exact V|]. split; [assumption|].
  intros Hr. specialize (B Hr). unfold proof_bits in *. cbn [sum_list_with node_bits fst] in B.
  rewrite length_drop. lia.
Qed.

Lemma accepted_hash h k value n x ns r : accepted h k value ((n, x) :: ns) r -> trie_node_hash H n = Ret h.
Proof.
  intros (V & _). cbn [verify_loop] in V. destruct (trie_node_hash H n) as [h'|]; [|discriminate].
  cbn [bind_outcome] in V. destruct (felt_eqb h' h) eqn:Ee; [|discriminate]. now apply felt_eqb_eq in Ee as ->.
Qed.

Lemma accepted_nil h k value r : accepted h k value [] r -> k = [] /\ h = value /\ r = Member.
Proof.
  intros (V & _ & B). cbn in V. destruct (felt_eqb h value) eqn:Ee; [|discriminate].
  apply felt_eqb_eq in Ee as ->. injection V as <-. specialize (B eq_refl). cbn in B. now destruct k.
Qed.

(** An accepted proof is right, or shows a collision with the proof the trie
    itself gives. *)
Lemma verify_sound val t : forall pi k h ns honest value r, wf (length k) t ->
  thash H val pi t = Ret h -> tproof val pi t k = Ret honest -> accepted h k value ns r ->
  proves val pi t k value r \/ collision ns honest.
Proof.
  induction t as [|l IHl r0 IHr|p c IHc]; intros pi k h ns honest value r W Th Tp A.
  - cbn in W, Th, Tp. injection Th as <-. destruct k as [|b k]; [|discriminate]. left.
    destruct ns as [|[[hl hr|hc p] x] ns].
    + destruct (accepted_nil _ _ _ _ A) as (_ & <- & ->). cbn. now rewrite app_nil_r.
    + destruct A as (V & _). cbn in V. destruct (H hl hr) as [h'|]; [|discriminate].
      cbn in V. now destruct (felt_eqb h' (val pi)).
    + destruct A as (V & F & _). inversion_clear F as [|? ? F1 _]. cbn [node_bits fst] in F1.
      cbn [verify_loop] in V. destruct (trie_node_hash H (TrieEdge hc p)) as [h'|]; [|discriminate].
      cbn [bind_outcome] in V. destruct (felt_eqb h' (val pi)); [|discriminate]. now destruct p.
  - destruct W as (n' & Ek & Wl & Wr). cbn [thash tproof] in Th, Tp.
    destruct (thash H val (pi ++ [false]) l) as [hl|] eqn:Tl; [|discriminate].
    destruct (thash H val (pi ++ [true]) r0) as [hr|] eqn:Tr; [|discriminate].
    cbn [bind_outcome] in Th, Tp. rewrite Th in Tp. cbn [bind_outcome] in Tp.
    destruct k as [|d k]; [discriminate|]. injection Ek as <-.
    destruct (tproof val (pi ++ [d]) (if d then r0 else l) k) as [rest|] eqn:Tk; [|discriminate].
    injection Tp as <-. destruct ns as [|[n x] ns]; [now destruct (accepted_nil _ _ _ _ A)|].
    destruct (node_eq_dec n (TrieBinary hl hr)) as [->|N].
    + destruct (accepted_binary _ _ _ _ _ _ _ _ _ A) as [_ A'].
      assert (IH : proves val (pi ++ [d]) (if d then r0 else l) k value r \/ collision ns rest).
      { destruct d; [apply (IHr _ _ hr) | apply (IHl _ _ hl)]; assumption. }
      destruct IH as [IH|C]; [left | right; now apply collision_cons].
      destruct r; cbn in IH |- *; rewrite <- ?app_assoc in IH; exact IH.
    + right. apply collision_head; [exact N | exact (accepted_hash _ _ _ _ _ _ _ A) | exact Th].
  - destruct W as (Hp & Ee & n' & Ek & W). cbn [thash tproof] in Th, Tp.
    destruct (thash H val (pi ++ p) c) as [hc|] eqn:Tc; [|discriminate].
    cbn [bind_outcome] in Th, Tp. rewrite Th in Tp. cbn [bind_outcome] in Tp.
    destruct ns as [|[n x] ns].
    { destruct (accepted_nil _ _ _ _ A) as [-> _]. destruct p; [easy | discriminate]. }
    destruct (node_eq_dec n (TrieEdge hc p)) as [->|N].
    + destruct (accepted_edge h k value hc p x ns r ltac:(lia) A) as [_ A']. unfold proves. cbn [has].
      case_bool_decide as Ep.
      * destruct (tproof val (pi ++ p) c (drop (length p) k)) as [rest|] eqn:Tk; [|discriminate].
        injection Tp as <-. destruct (IHc (pi ++ p) (drop (length p) k) hc ns rest value r) as [IH|C];
          try assumption; [rewrite length_drop; now replace (length k - length p) with n' by lia| |
          right; now apply collision_cons].
        left. destruct r; cbn [proves andb] in *; [|exact IH].
        rewrite <- app_assoc, <- (take_length_app p k Ep) in IH. exact IH.
      * left. subst r. reflexivity.
    + right. assert (E0 : exists rest, honest = (TrieEdge hc p, h) :: rest).
      { destruct (bool_decide _); [|injection Tp as <-; eauto].
        destruct (tproof val (pi ++ p) c (drop (length p) k)); [|discriminate]. injection Tp as <-. eauto. }
      destruct E0 as [rest ->]. apply collision_head; [exact N | exact (accepted_hash _ _ _ _ _ _ _ A)|].
      now rewrite trie_node_edge.
Qed.

Lemma tproof_total val t : FeltHash H -> (forall k, felt_ok (val k)) ->
  forall n pi k, wf n t -> n <= 251 -> exists ns, tproof val pi t k = Ret ns.
Proof.
  intros HH Hv. induction t as [|l IHl r IHr|p c IHc]; intros n pi k W Hn; cbn [tproof]; [eauto| |].
  - destruct W as (n' & -> & Wl & Wr).
    destruct (thash_total H val l HH Hv n' (pi ++ [false]) Wl) as (hl & -> & Ol); [lia|].
    destruct (thash_total H val r HH Hv n' (pi ++ [true]) Wr) as (hr & -> & Or); [lia|]. cbn [bind_outcome].
    destruct (hash_total hl hr Ol Or) as (h & Eh & _). unfold binary_calculate_hash. rewrite Eh. cbn [bind_outcome].
    destruct k as [|d k]; [eauto|].
    assert (C : exists ns, tproof val (pi ++ [d]) (if d then r else l) k = Ret ns).
    { destruct d; [eapply IHr | eapply IHl]; try eassumption; lia. }
    destruct C as [ns ->]. cbn [bind_outcome]. eauto.
  - destruct W as (_ & _ & n' & -> & W).
    destruct (thash_total H val c HH Hv n' (pi ++ p) W) as (hc & -> & Oc); [lia|]. cbn [bind_outcome].
    destruct (edge_hash_total H hc p HH Oc) as (h & -> & _); [lia|]. cbn [bind_outcome].
    case_bool_decide; [|eauto]. destruct (IHc n' (pi ++ p) (drop (length p) k) W) as [ns ->]; [lia|].
    cbn [bind_outcome]. eauto.
Qed.
End Spec.

(** ** Generation *)

Section Generate.
Context {E : Type} (storage : Storage E) (H : Felt -> Felt -> outcome Felt).

(** What is in the caches is what storage holds. *)
Definition caches_ok (c : Caches) : Prop :=
  map_Forall (fun i n => storage_get storage i = Ok (Some n)) (node_cache c) /\
  map_Forall (fun i h => storage_hash storage i = Ok (Some h)) (node_hash_cache c).

Lemma cached_node_spec c i n : caches_ok c -> storage_get storage i = Ok (Some n) ->
  exists c', cached_node storage c i = Ret (Ok (n, c')) /\ caches_ok c'.
Proof.
  intros [Hn Hh] G. unfold cached_node. destruct (node_cache c !! i) as [n'|] eqn:Ei.
  - pose proof (Hn i n' Ei) as G'. cbn in G'. rewrite G in G'. injection G' as <-. exists c.
    split; [reflexivity | split; assumption].
  - rewrite G. eexists. split; [reflexivity|]. split; [now apply map_Forall_insert_2 | exact Hh].
Qed.

Lemma cached_hash_spec c i h : caches_ok c -> storage_hash storage i = Ok (Some h) ->
  exists c', cached_hash storage c i = Ret (Ok (h, c')) /\ caches_ok c'.
Proof.
  intros [Hn Hh] G. unfold cached_hash, hash_or. destruct (node_hash_cache c !! i) as [h'|] eqn:Ei.
  - pose proof (Hh i h' Ei) as G'. cbn in G'. rewrite G in G'. injection G' as <-. exists c.
    split; [reflexivity | split; assumption].
  - rewrite G. eexists. split; [reflexivity|]. split; [exact Hn | now apply map_Forall_insert_2].
Qed.

Lemma get_range_spec pi k n : n <= length k ->
  get_range (pi ++ k) (length pi) (length pi + n) = Some (take n k).
Proof.
  intros L. unfold get_range. rewrite (proj2 (Nat.leb_le _ _)), (proj2 (Nat.leb_le _ _)) by (rewrite ?length_app; lia).
  cbn [andb]. rewrite drop_app_length. do 2 f_equal. lia.
Qed.

Lemma bits_to_app (pi k : bits) : bits_to (pi ++ k) (length pi) = Ret pi.
Proof.
  unfold bits_to. rewrite (proj2 (Nat.leb_le _ _)) by (rewrite length_app; lia). now rewrite take_app_length.
Qed.

(** One turn of the loop. *)
Lemma proof_loop_step fuel key c idx height nodes sn h n next height' :
  caches_ok c -> storage_get storage idx = Ok (Some sn) -> storage_hash storage idx = Ok (Some h) ->
  proof_node storage key height sn = Ret (Ok (n, next, height')) ->
  exists c', proof_loop storage (S fuel) key c (Some idx) height nodes
    = proof_loop storage fuel key c' next height' (nodes ++ [(n, h)]) /\ caches_ok c'.
Proof.
  intros K G Hh P. destruct (cached_node_spec c idx sn K G) as (c1 & E1 & K1).
  destruct (cached_hash_spec c1 idx h K1 Hh) as (c2 & E2 & K2). exists c2. split; [|exact K2].
  cbn [proof_loop]. rewrite E1. cbn [try]. rewrite P. cbn [try]. rewrite E2. reflexivity.
Qed.

Abbreviation values_ok := (values_ok storage).

(** The loop gives the proof of the key in the stored trie, whatever is cached. *)
Lemma proof_loop_spec val pi idx t h : hashed storage H pi idx t h -> forall fuel k c nodes,
  wf (length k) t -> values_ok val pi t -> caches_ok c -> length k < fuel ->
  exists c' ns, proof_loop storage fuel (pi ++ k) c (Some idx) (length pi) nodes = Ret (Ok (nodes ++ ns, c')) /\
    caches_ok c' /\ tproof H val pi t k = Ret ns.
Proof.
  induction 1 as [pi idx l r tl tr hl hr h G Hs Hl IHl Hr IHr Eh|pi idx c0 p t hc h G Hs Hc IH Eh
    |pi idx vl vr h G Hs Ll Lr Eh|pi idx p v h G Hs Lv Eh]; intros [|fuel] k c nodes W Hv K Hf; try lia.
  - destruct W as (n' & Ek & Wl & Wr). destruct k as [|d k]; [discriminate|]. injection Ek as <-.
    assert (Vl : values_ok val (pi ++ [false]) tl) by (intros k0 v; rewrite <- app_assoc; intros; now apply Hv).
    assert (Vr : values_ok val (pi ++ [true]) tr) by (intros k0 v; rewrite <- app_assoc; intros; now apply Hv).
    destruct (proof_loop_step fuel (pi ++ d :: k) c idx (length pi) nodes _ h (TrieBinary hl hr)
      (Some (if d then r else l)) (length pi + 1) K G Hs) as (c1 & E1 & K1).
    { cbn [proof_node]. rewrite list_lookup_middle by reflexivity. unfold hash_or.
      rewrite (hashed_stored_hash _ _ _ _ _ _ Hl), (hashed_stored_hash _ _ _ _ _ _ Hr). now destruct d. }
    rewrite E1. replace (pi ++ d :: k) with ((pi ++ [d]) ++ k) by now rewrite <- app_assoc.
    replace (length pi + 1) with (length (pi ++ [d])) by (rewrite length_app; reflexivity).
    cbn [tproof]. rewrite (hashed_thash _ _ _ _ _ _ _ Hl Vl), (hashed_thash _ _ _ _ _ _ _ Hr Vr).
    cbn [bind_outcome]. rewrite Eh. cbn [bind_outcome length] in *.
    destruct d; [destruct (IHr fuel k c1 (nodes ++ [(TrieBinary hl hr, h)])) as (c' & ns & -> & K' & ->)
      | destruct (IHl fuel k c1 (nodes ++ [(TrieBinary hl hr, h)])) as (c' & ns & -> & K' & ->)];
      try assumption; try lia; eexists c', _; (split; [now rewrite <- app_assoc | split; [exact K' | reflexivity]]).
  - destruct W as (Hp & Ee & n' & Ek & W).
    assert (Vc : values_ok val (pi ++ p) t).
    { intros k0 v. rewrite <- app_assoc. intros Hk. apply Hv. now rewrite has_edge_app. }
    destruct (proof_loop_step fuel (pi ++ k) c idx (length pi) nodes _ h (TrieEdge hc p)
      (if bool_decide (take (length p) k = p) then Some c0 else None) (length pi + length p) K G Hs)
      as (c1 & E1 & K1).
    { cbn [proof_node]. rewrite get_range_spec by lia. unfold hash_or.
      now rewrite (hashed_stored_hash _ _ _ _ _ _ Hc). }
    rewrite E1. cbn [tproof]. rewrite (hashed_thash _ _ _ _ _ _ _ Hc Vc). cbn [bind_outcome]. rewrite Eh.
    cbn [bind_outcome]. case_bool_decide as Ep.
    + replace (pi ++ k) with ((pi ++ p) ++ drop (length p) k)
        by (rewrite <- app_assoc, <- (take_length_app p k Ep); reflexivity).
      rewrite <- length_app.
      destruct (IH fuel (drop (length p) k) c1 (nodes ++ [(TrieEdge hc p, h)])) as (c' & ns & -> & K' & ->);
        try assumption; try (rewrite length_drop).
      * now replace (length k - length p) with n' by lia.
      * destruct p; cbn in *; [easy | lia].
      * eexists c', _. split; [now rewrite <- app_assoc | split; [exact K' | reflexivity]].
    + exists c1, [(TrieEdge hc p, h)]. split; [now destruct fuel | split; [exact K1 | reflexivity]].
  - destruct W as (n' & Ek & Wl & Wr). destruct k as [|d k]; [discriminate|].
    destruct (proof_loop_step fuel (pi ++ d :: k) c idx (length pi) nodes _ h (TrieBinary vl vr) None (length pi) K G Hs)
      as (c1 & E1 & K1).
    { cbn [proof_node]. rewrite bits_to_app. unfold leaf_or. cbn [bind_outcome bool_of_direction].
      now rewrite Ll, Lr. }
    exists c1, [(TrieBinary vl vr, h)]. split; [rewrite E1; now destruct fuel|]. split; [exact K1|].
    cbn [tproof thash bind_outcome]. rewrite (Hv [false] vl), (Hv [true] vr) by easy. rewrite Eh. now destruct d.
  - destruct W as (Hp & Ee & n' & Ek & W).
    destruct (proof_loop_step fuel (pi ++ k) c idx (length pi) nodes _ h (TrieEdge v p) None (length pi) K G Hs)
      as (c1 & E1 & K1).
    { cbn [proof_node]. rewrite bits_to_app. unfold leaf_or. cbn [bind_outcome]. now rewrite Lv. }
    exists c1, [(TrieEdge v p, h)]. split; [rewrite E1; now destruct fuel|]. split; [exact K1|].
    cbn [tproof thash bind_outcome]. rewrite (Hv p v), Eh; [|rewrite <- (app_nil_r p) at 2; now rewrite has_edge_app | exact Lv].
    cbn [bind_outcome]. now case_bool_decide.
Qed.

Lemma get_proofs_spec val root t h n : hashed storage H [] root t h -> wf n t -> values_ok val [] t ->
  forall keys, Forall (fun k => length k = n) keys ->
  exists proofs, get_proofs storage root keys = Ret (Ok proofs) /\
    Forall2 (fun key proof => tproof H val [] t key = Ret proof) keys proofs.
Proof.
  intros Hh W Hv keys Hk. unfold get_proofs.
  assert (Gen : forall c acc, caches_ok c -> exists proofs,
    get_proofs_loop storage root keys c acc = Ret (Ok (acc ++ proofs)) /\
    Forall2 (fun key proof => tproof H val [] t key = Ret proof) keys proofs).
  { induction Hk as [|key keys Lk Hk IH]; intros c acc K.
    - exists []. split; [cbn; now rewrite app_nil_r | constructor].
    - cbn [get_proofs_loop]. destruct (proof_loop_spec val [] root t h Hh (length key + 1) key c [])
        as (c' & ns & Ep & K' & Et); [now rewrite Lk | exact Hv | exact K | lia|].
      cbn [app length] in Ep. rewrite Ep. cbn [try].
      destruct (IH c' (acc ++ [ns]) K') as (proofs & -> & F). exists (ns :: proofs).
      split; [now rewrite <- app_assoc | now constructor]. }
  apply (Gen (MkCaches ∅ ∅) []). split; apply map_Forall_empty.
Qed.
End Generate.

(** ** Proofs of maps *)

Section Maps.
Context (H : Felt -> Felt -> outcome Felt) (HEIGHT : nat).

(** The answer a proof gives about a map. *)
Definition answer (M : gmap bits Felt) (key : bits) (value : Felt) : option Membership :=
  match M !! key with
  | Some v => if felt_eqb v value then Some Member else None
  | None => Some NonMember
  end.

(** The nodes of the map's trie on the path of a key. *)
Definition honest (M : gmap bits Felt) (key : bits) (ns : list TrieNodeWithHash) : Prop :=
  exists t, wf HEIGHT t /\ keys_of HEIGHT t M /\ tproof H (map_value M) [] t key = Ret ns.

Lemma tproof_bits val t : forall pi k ns, wf (length k) t -> tproof H val pi t k = Ret ns ->
  Forall (fun n => 0 < node_bits n) ns /\ (has t k = true -> proof_bits ns = length k).
Proof.
  induction t as [|l IHl r IHr|p c IHc]; intros pi k ns W Tp; cbn [tproof] in Tp.
  - injection Tp as <-. cbn in W. destruct k; [|discriminate]. auto.
  - destruct W as (n' & Ek & Wl & Wr). destruct (thash H val _ l); [|discriminate].
    destruct (thash H val _ r); [|discriminate]. cbn [bind_outcome] in Tp.
    destruct (binary_calculate_hash H _ _); [|discriminate]. cbn [bind_outcome] in Tp.
    destruct k as [|d k]; [discriminate|]. injection Ek as <-.
    destruct (tproof H val (pi ++ [d]) (if d then r else l) k) as [rest|] eqn:Tk; [|discriminate].
    injection Tp as <-. assert (IH : Forall (fun n => 0 < node_bits n) rest /\
      (has (if d then r else l) k = true -> proof_bits rest = length k)) by (destruct d; eauto).
    split; [constructor; [cbn; lia | apply IH]|]. intros Hk. cbn. f_equal. now apply IH.
  - destruct W as (Hp & _ & n' & Ek & W). destruct (thash H val _ c); [|discriminate]. cbn [bind_outcome] in Tp.
    destruct (edge_calculate_hash H _ p); [|discriminate]. cbn [bind_outcome has] in *.
    assert (0 < length p) by (destruct p; [easy | cbn; lia]). case_bool_decide as Ep.
    + destruct (tproof H val (pi ++ p) c (drop (length p) k)) as [rest|] eqn:Tk; [|discriminate].
      injection Tp as <-. assert (Ld : length (drop (length p) k) = n') by (rewrite length_drop; lia).
      rewrite <- Ld in W. destruct (IHc _ _ _ W Tk) as [F Hb].
      split; [constructor; [exact H0 | exact F]|]. intros Hk. cbn. fold (proof_bits rest). rewrite Hb by exact Hk. lia.
    + injection Tp as <-. split; [repeat constructor; exact H0 | discriminate].
Qed.

(** The honest proof gives the map's answer. *)
Lemma honest_answer M key ns h value : length key = HEIGHT -> honest M key ns ->
  spec_root H HEIGHT (fun k => M !! k) = Ret h ->
  verify_proof H HEIGHT h key value ns = Ret (answer M key value).
Proof.
  intros Lk (t & W & Hk & Tp) Eh. unfold verify_proof, answer. rewrite Lk, Nat.eqb_refl. cbn [negb].
  rewrite (map_root H HEIGHT t M W Hk) in Eh.
  rewrite (verify_complete H (map_value M) t [] key h ns value); [|now rewrite Lk | exact Eh | exact Tp].
  rewrite (Hk key Lk). unfold map_value. cbn [app]. destruct (M !! key); reflexivity.
Qed.

(** What is accepted is true of the map, or has a collision with the honest
    proof. *)
Lemma honest_sound M key ns ns' h value r : length key = HEIGHT -> honest M key ns' ->
  spec_root H HEIGHT (fun k => M !! k) = Ret h -> verify_proof H HEIGHT h key value ns = Ret (Some r) ->
  Forall (fun n => 0 < node_bits n) ns -> (r = Member -> proof_bits ns = HEIGHT) ->
  match r with Member => M !! key = Some value | NonMember => M !! key = None end \/ collision H ns ns'.
Proof.
  intros Lk (t & W & Hk & Tp) Eh Ev Fn Hb. rewrite (map_root H HEIGHT t M W Hk) in Eh.
  unfold verify_proof in Ev. rewrite Lk, Nat.eqb_refl in Ev. cbn [negb] in Ev. rewrite <- Lk in W, Hb.
  destruct (verify_sound H (map_value M) t [] key h ns ns' value r W Eh Tp) as [Pr|C];
    [now split | left | now right].
  unfold proves, map_value in Pr. cbn [app] in Pr. rewrite (Hk key Lk) in Pr. destruct r.
  - destruct Pr as [Hs Ev']. apply bool_decide_eq_true in Hs as [v Hv]. rewrite Hv in Ev' |- *. cbn in Ev'. congruence.
  - apply bool_decide_eq_false in Pr. now apply eq_None_not_Some.
Qed.

(** A proof that does not stand for bits of the key: an edge without a path, or
    fewer or more bits than the key has. *)
Definition malformed (ns : list TrieNodeWithHash) (r : Membership) : Prop :=
  Exists (fun n => node_bits n = 0) ns \/ r = Member /\ proof_bits ns <> HEIGHT.

Lemma well_formed ns r : malformed ns r \/ Forall (fun n => 0 < node_bits n) ns /\ (r = Member -> proof_bits ns = HEIGHT).
Proof.
  destruct (decide (Forall (fun n => 0 < node_bits n) ns)) as [F|E%not_Forall_Exists]; [| |apply _].
  - destruct r; [|right; now split]. destruct (decide (proof_bits ns = HEIGHT)); [right | left; right]; auto.
  - left. left. eapply Exists_impl; [exact E|]. intros n. cbn. lia.
Qed.

Lemma honest_prefix M key ns1 n hn ns2 h : length key = HEIGHT -> honest M key (ns1 ++ (n, hn) :: ns2) ->
  spec_root H HEIGHT (fun k => M !! k) = Ret h -> verify_proof H HEIGHT h key hn ns1 = Ret (Some Member).
Proof.
  intros Lk (t & W & Hk & Tp) Eh. rewrite (map_root H HEIGHT t M W Hk) in Eh. unfold verify_proof.
  rewrite Lk, Nat.eqb_refl. cbn [negb]. rewrite <- Lk in W. exact (verify_prefix H (map_value M) t [] key h ns1 n hn ns2 W Eh Tp).
Qed.

(** Maps with the same commitment agree, or there is a collision between the
    nodes of their tries. *)
Lemma honest_binding M M' key ns ns' h : length key = HEIGHT -> honest M key ns -> honest M' key ns' ->
  spec_root H HEIGHT (fun k => M !! k) = Ret h -> spec_root H HEIGHT (fun k => M' !! k) = Ret h ->
  M !! key = M' !! key \/ collision H ns ns'.
Proof.
  intros Lk Hn Hn' Eh Eh'. pose proof (honest_answer M key ns h (map_value M key) Lk Hn Eh) as Ev.
  destruct Hn as (t & W & Hk & Tp). rewrite <- Lk in W. destruct (tproof_bits _ _ _ _ _ W Tp) as [Fn Hb].
  rewrite (Hk key Lk) in Hb. unfold answer, map_value in Ev. destruct (M !! key) as [v|] eqn:Hv.
  - change (default FELT_ZERO (Some v)) with v in Ev. rewrite (proj2 (felt_eqb_eq v v) eq_refl) in Ev.
    destruct (honest_sound M' key ns ns' h v Member) as [C|C]; auto.
    intros _. rewrite Hb, Lk; [reflexivity | now apply bool_decide_eq_true_2].
  - destruct (honest_sound M' key ns ns' h FELT_ZERO NonMember) as [C|C]; auto. discriminate.
Qed.

Lemma represents_honest {E} (storage : Storage E) P M I0 st key : FeltHash H -> HEIGHT <= 251 ->
  represents storage HEIGHT P M I0 st -> M <> ∅ -> map_Forall (fun _ v => felt_ok v) M -> exists ns, honest M key ns.
Proof.
  intros HH Hm Rp Ne HM. pose proof (rep_shape _ _ _ _ _ _ Rp) as Sh. destruct (root st.1); [|now destruct Sh].
  destruct Sh as (t & F & I & _ & W & Hk & _).
  destruct (tproof_total H (map_value M) t HH) with (n := HEIGHT) (pi := @nil bool) (k := key) as [ns Tp];
    [|exact W | exact Hm | exists ns, t; auto].
  intros k. unfold map_value. destruct (M !! k) eqn:Hv; cbn; [exact (HM k _ Hv) | exact FELT_ZERO_ok].
Qed.
End Maps.
