(* ===== verification/TreeDfs.v ===== *)
(** Depth-first visits of a tree: every leaf is reached once, in the order of
    the keys. *)

From Stdlib Require Import ZArith Lia Bool List Sorted.
From stdpp Require Import gmap gmultiset list sets.
From S2P Require Import Prelude Bytes Felt MerkleNode Tree TrieSpec TreeRep TreeOps TreeMap TreeCommit.
(** ** Code *)

Inductive Visit : Type := ContinueDeeper | StopSubtree.

Inductive ControlFlow (X : Type) : Type :=
| Continue (v : Visit)
| Break (x : X).
Arguments Continue {X} v.
Arguments Break {X} x.

Section Code.
Context {E : Type} (storage : Storage E) (HEIGHT : nat).
Context {X S : Type} (visitor_fn : InternalNode -> bits -> S -> ControlFlow X * S).

(** The [loop]; [visiting] is the stack, top first, and [s] the state of the
    visitor. *)
Fixpoint dfs_loop (fuel : nat) (visiting : list (loc * bits)) (s : S) : M E (option X * S) :=
  match fuel with
  | O => panic
  | Datatypes.S fuel =>
      match visiting with
      | [] => ret (None, s)
      | (node, path) :: visiting =>
          let* current_node := load node in
          let (flow, s) := visitor_fn current_node path s in
          match flow with
          | Continue StopSubtree => dfs_loop fuel visiting s
          | Break x => ret (Some x, s)
          | Continue ContinueDeeper =>
              match current_node with
              | Binary b =>
                  dfs_loop fuel ((left b, path ++ [bool_of_direction Left])
                                 :: (right b, path ++ [bool_of_direction Right]) :: visiting) s
              | Edge e => dfs_loop fuel ((child e, path ++ MerkleNode.path e) :: visiting) s
              | Leaf => dfs_loop fuel visiting s
              | Unresolved idx =>
                  let* resolved := resolve storage HEIGHT idx (length path) in
                  let* node := alloc resolved in
                  dfs_loop fuel ((node, path) :: visiting) s
              end
          end
      end
  end.

Definition dfs (fuel : nat) (s : S) : M E (option X * S) :=
  let* t := self in
  match root t with
  | None => ret (None, s)
  | Some root => dfs_loop fuel [(root, [])] s
  end.
End Code.

(** ** The leaves of a trie *)

Fixpoint tleaves (pi : bits) (t : trie) : list bits :=
  match t with
  | TLeaf => [pi]
  | TBin l r => tleaves (pi ++ [false]) l ++ tleaves (pi ++ [true]) r
  | TEdge p c => tleaves (pi ++ p) c
  end.

Lemma tleaves_has t : forall pi k, k ∈ tleaves pi t <-> exists k', k = pi ++ k' /\ has t k' = true.
Proof.
  induction t as [|l IHl r IHr|p c IHc]; intros pi k; cbn [tleaves].
  - rewrite list_elem_of_singleton. split.
    + intros ->. exists []. now rewrite app_nil_r.
    + intros (k' & -> & Hk). cbn in Hk. apply bool_decide_eq_true in Hk as ->. now rewrite app_nil_r.
  - rewrite elem_of_app, IHl, IHr. split.
    + intros [(k' & -> & Hk)|(k' & -> & Hk)]; rewrite <- app_assoc; eexists; (split; [reflexivity | exact Hk]).
    + intros ([|b k'] & -> & Hk); [discriminate|]. cbn [has] in Hk.
      destruct b; [right | left]; exists k'; rewrite <- app_assoc; auto.
  - rewrite IHc. split.
    + intros (k' & -> & Hk). exists (p ++ k'). now rewrite has_edge_app, app_assoc.
    + intros (k' & -> & Hk). cbn [has] in Hk. apply andb_true_iff in Hk as [Ep%bool_decide_eq_true Hk].
      exists (drop (length p) k'). split; [|exact Hk]. now rewrite <- app_assoc, <- (take_length_app p k' Ep).
Qed.

(** The order of the keys: the first bit that differs. *)
Definition bits_lt (a b : bits) : Prop :=
  exists com a' b', a = com ++ false :: a' /\ b = com ++ true :: b'.

Lemma sorted_app (a b : list bits) : StronglySorted bits_lt a -> StronglySorted bits_lt b ->
  (forall x y, x ∈ a -> y ∈ b -> bits_lt x y) -> StronglySorted bits_lt (a ++ b).
Proof.
  induction 1 as [|x a Sa IH Fx]; intros Sb Hab; [exact Sb|]. cbn. constructor.
  - apply IH; [exact Sb|]. intros u v Hu Hv. apply Hab; [now right | exact Hv].
  - apply Forall_app. split; [exact Fx|]. apply Forall_forall. intros y Hy. apply Hab; [now left | exact Hy].
Qed.

Lemma tleaves_sorted t : forall pi, StronglySorted bits_lt (tleaves pi t).
Proof.
  induction t as [|l IHl r IHr|p c IHc]; intros pi; cbn [tleaves]; [repeat constructor | | apply IHc].
  apply sorted_app; [apply IHl | apply IHr|]. intros x y Hx Hy.
  apply tleaves_has in Hx as (a & -> & _). apply tleaves_has in Hy as (b & -> & _).
  exists pi, a, b. now rewrite <- !app_assoc.
Qed.

Lemma bits_sorted_NoDup (l : list bits) : StronglySorted bits_lt l -> NoDup l.
Proof.
  induction 1 as [|x l Sl IH Fx]; constructor; [|exact IH]. intros Hx.
  destruct (proj1 (Forall_forall _ _) Fx x Hx) as (com & a & b & E & E'). rewrite E in E'.
  apply app_inv_head in E'. discriminate.
Qed.

(** The turns of the loop a trie takes: at most two for a node, which may have
    to be resolved. *)
Fixpoint turns (t : trie) : nat :=
  match t with
  | TLeaf => 2
  | TBin l r => 2 + turns l + turns r
  | TEdge _ c => 2 + turns c
  end.

Section Facts.
Context {E : Type} (storage : Storage E) (HEIGHT : nat)
  (U : bits -> TrieStorageIndex -> trie -> Prop) (U_closed : closed storage U).
Context {X S : Type} (visitor_fn : InternalNode -> bits -> S -> ControlFlow X * S).

(** A visitor that collects something of the leaves and never stops. *)
Context (g : S -> bits -> S).
Context (visitor_leaf : forall path s, visitor_fn Leaf path s = (Continue ContinueDeeper, g s path)).
Context (visitor_other : forall n path s, is_leaf n = false -> visitor_fn n path s = (Continue ContinueDeeper, s)).

Abbreviation irep := (irep storage U).
Abbreviation nrep := (nrep storage U).

Record entry : Type := MkEntry { entry_loc : loc; entry_path : bits; entry_trie : trie }.

Definition entry_ok (m : Mem) (e : entry) : Prop :=
  length (entry_path e) <= HEIGHT /\ wf (HEIGHT - length (entry_path e)) (entry_trie e) /\
  exists F I, irep (cells m) (entry_loc e) (length (entry_path e)) (entry_path e) (entry_trie e) F I.

Definition stack_turns (es : list entry) : nat := sum_list_with (fun e => turns (entry_trie e)) es.

Definition stack_leaves (es : list entry) : list bits :=
  es ≫= fun e => tleaves (entry_path e) (entry_trie e).

Lemma entry_ok_evolves m m' F es : mem_ok m -> evolves m ∅ m' F -> Forall (entry_ok m) es -> Forall (entry_ok m') es.
Proof.
  intros K V H. eapply Forall_impl; [exact H|]. intros e (L & W & G & I & R). split; [exact L|]. split; [exact W|].
  exists G, I. now apply (irep_empty_evolves storage U m m' F).
Qed.

Lemma stack_turns_cons l pi t es : stack_turns (MkEntry l pi t :: es) = turns t + stack_turns es.
Proof. reflexivity. Qed.

Lemma nrep_bound m n h pi t F I : mem_ok m -> nrep (cells m) n h pi t F I -> forall x, x ∈ F -> x < next m.
Proof.
  intros K N. destruct N as [|?|? ? ? ? ? ? ? ? ? ? ? Ra Rb D|? ? ? ? ? ? ? ? Rc]; intros x Hx.
  - set_solver.
  - set_solver.
  - apply elem_of_union in Hx as [Hx|Hx]; [exact (irep_bound _ _ _ _ _ _ _ _ _ K Ra _ Hx)
      | exact (irep_bound _ _ _ _ _ _ _ _ _ K Rb _ Hx)].
  - exact (irep_bound _ _ _ _ _ _ _ _ _ K Rc _ Hx).
Qed.

Definition stack_of (es : list entry) : list (loc * bits) := map (fun e => (entry_loc e, entry_path e)) es.

Definition visits (fuel : nat) : Prop := forall es s tr m, mem_ok m -> Forall (entry_ok m) es ->
  stack_turns es < fuel ->
  exists m', dfs_loop storage HEIGHT visitor_fn fuel (stack_of es) s (tr, m)
    = Ret (Ok (None, fold_left g (stack_leaves es) s), (tr, m')).

Lemma dfs_resolved fuel l pi t n F I es s tr m : visits fuel -> mem_ok m -> Forall (entry_ok m) es ->
  cells m !! l = Some n -> resolved n -> nrep (cells m) n (length pi) pi t F I ->
  length pi <= HEIGHT -> wf (HEIGHT - length pi) t -> turns t + stack_turns es <= Datatypes.S fuel ->
  exists m', dfs_loop storage HEIGHT visitor_fn (Datatypes.S fuel) ((l, pi) :: stack_of es) s (tr, m)
    = Ret (Ok (None, fold_left g (tleaves pi t ++ stack_leaves es) s), (tr, m')).
Proof.
  intros IH K Hes Hl Rn N L W Hf. cbn [dfs_loop]. unfold bind at 1, load at 1. rewrite Hl.
  inversion N as [? ?|? ? idx ? ? Hs HU|? ? si a b ta tb Fa Fb Ia Ib Ra Rb D|? ? si q c u ? J Rc]; subst.
  - rewrite visitor_leaf. apply (IH es); [exact K | exact Hes | cbn in Hf; lia].
  - easy.
  - rewrite visitor_other by reflexivity. destruct W as (n' & En & Wa & Wb). cbn [tleaves].
    rewrite <- app_assoc.
    assert (Lb : forall b, length (pi ++ [b]) = Datatypes.S (length pi)) by (intros; rewrite length_app; cbn; lia).
    apply (IH (MkEntry a (pi ++ [false]) ta :: MkEntry b (pi ++ [true]) tb :: es)); [exact K | | rewrite !stack_turns_cons; cbn in Hf; lia].
    repeat constructor; try exact Hes; cbn [entry_path entry_trie entry_loc]; rewrite ?Lb; try lia; eauto;
      replace (HEIGHT - Datatypes.S (length pi)) with n' by lia; assumption.
  - rewrite visitor_other by reflexivity. destruct W as (Hp & _ & n' & En & W). cbn [tleaves].
    apply (IH (MkEntry c (pi ++ q) u :: es)); [exact K | | rewrite !stack_turns_cons; cbn in Hf; lia].
    constructor; [|exact Hes]. unfold entry_ok. cbn [entry_path entry_trie entry_loc]. rewrite length_app.
    split; [lia|]. split; [now replace (HEIGHT - (length pi + length q)) with n' by lia | eauto].
Qed.

Lemma dfs_loop_spec fuel : visits fuel.
Proof.
  induction fuel as [fuel IH] using lt_wf_ind. intros es s tr m K Hes Hf.
  destruct es as [|[l pi t] es]; [destruct fuel; [lia | now exists m]|]. inversion_clear Hes as [|? ? He Hes'].
  destruct He as (L & W & F & I & R). cbn [entry_loc entry_path entry_trie] in *.
  pose proof R as (n & F0 & Hl & N & _)%irep_node.
  change (stack_turns (MkEntry l pi t :: es)) with (turns t + stack_turns es) in Hf.
  change (stack_leaves (MkEntry l pi t :: es)) with (tleaves pi t ++ stack_leaves es).
  cbn [stack_of map entry_loc entry_path]. fold (stack_of es).
  destruct (decide (match n with Unresolved _ => true | _ => false end = true)) as [Un|Un].
  - destruct n as [idx|?|?|]; try discriminate Un. inversion N; subst.
    destruct fuel as [|[|fuel]]; [lia | destruct t; cbn in Hf; lia |].
    remember (Datatypes.S fuel) as f1 eqn:Ef. cbn [dfs_loop]. unfold bind at 1, load at 1. rewrite Hl.
    rewrite visitor_other by reflexivity.
    destruct (resolve_spec storage HEIGHT U idx t I (length pi) pi m) as (n & m1 & F1 & Er & Rn & Nr & V);
      [assumption..|].
    unfold bind at 1. rewrite Er. unfold bind at 1, alloc at 1. subst f1.
    pose proof V as (Ln & K1 & P & Fr).
    assert (V2 : evolves m1 ∅ (mem_alloc n m1) ({[next m1]} ∪ ∅)) by now apply evolves_alloc.
    apply (dfs_resolved fuel (next m1) pi t n F1 I es); try assumption; try lia.
    + apply IH. lia.
    + now apply mem_ok_alloc.
    + apply (entry_ok_evolves m1 _ _ _ K1 V2), (entry_ok_evolves m _ _ _ K V), Hes'.
    + apply lookup_insert_eq.
    + apply (nrep_frame _ _ (cells m1)); [exact Nr|]. intros x Hx. cbn. apply lookup_insert_ne.
      pose proof (nrep_bound _ _ _ _ _ _ _ K1 Nr x Hx). lia.
  - destruct fuel as [|fuel]; [lia|]. apply (dfs_resolved fuel l pi t n F0 I es); try assumption; try lia.
    + apply IH. lia.
    + destruct n; cbn in *; easy.
Qed.
End Facts.

Section Tree.
Context {E : Type} (storage : Storage E) (HEIGHT : nat)
  (P : bits -> TrieStorageIndex -> trie -> Prop) (P_closed : closed storage P).
Context {X S : Type} (visitor_fn : InternalNode -> bits -> S -> ControlFlow X * S) (g : S -> bits -> S).

Lemma dfs_spec M I0 tr m :
  (forall path s, visitor_fn Leaf path s = (Continue ContinueDeeper, g s path)) ->
  (forall n path s, is_leaf n = false -> visitor_fn n path s = (Continue ContinueDeeper, s)) ->
  represents storage HEIGHT P M I0 (tr, m) ->
  exists bound keys, StronglySorted bits_lt keys /\ (forall k, k ∈ keys <-> is_Some (M !! k)) /\
    forall fuel s, bound <= fuel -> exists m',
      dfs storage HEIGHT visitor_fn fuel s (tr, m) = Ret (Ok (None, fold_left g keys s), (tr, m')).
Proof.
  intros Vl Vo [K Sh Vs]. cbn [fst snd] in *. unfold dfs, bind at 1, self. destruct (root tr) as [l|].
  - destruct Sh as (t & F & I & R & W & Hk & _). exists (Datatypes.S (turns t)), (tleaves [] t).
    split; [apply tleaves_sorted|]. split.
    + intros k. rewrite tleaves_has. split.
      * intros (k' & -> & Hin). cbn. pose proof (Hk k' (has_length _ _ _ W Hin)) as E0. rewrite Hin in E0.
        symmetry in E0. now apply bool_decide_eq_true in E0.
      * intros [v Hv]. exists k. split; [reflexivity|]. rewrite Hk by now apply (Vs k v).
        apply bool_decide_eq_true_2. eauto.
    + intros fuel s Hf.
      destruct (dfs_loop_spec storage HEIGHT (fresh P (leaves tr)) (fresh_closed _ _ _ P_closed) visitor_fn g Vl Vo
        fuel [MkEntry l [] t] s tr m) as [m' E0]; try exact K.
      * constructor; [|constructor]. split; [cbn; lia|]. split; [cbn; now rewrite Nat.sub_0_r|]. cbn. eauto.
      * rewrite stack_turns_cons. unfold stack_turns. cbn [sum_list_with]. lia.
      * exists m'. change (stack_leaves [MkEntry l [] t]) with (tleaves [] t ++ []) in E0.
        now rewrite app_nil_r in E0.
  - destruct Sh as [-> _]. exists 0, []. split; [constructor|]. split; [|intros; now exists m].
    intros k. rewrite lookup_empty. split; [intros H; inversion H | now intros [? ?]].
Qed.
End Tree.

(** * Trees over storage from which nodes are missing, as pruning leaves it for
    old blocks: an operation does what it does over the whole storage, or
    reports what it misses. *)

Definition is_missing {E} (e : TreeError E) : bool :=
  match e with
  | NodeMissing _ _ | RootHashMissing | NodeHashMissing => true
  | _ => false
  end.

(** [part] is [whole] without the nodes and hashes of some rows. *)
Record part_of {E} (part whole : Storage E) : Prop := {
  part_get i : storage_get part i = storage_get whole i \/ storage_get part i = Ok None;
  part_hash i : storage_hash part i = storage_hash whole i \/ storage_hash part i = Ok None;
  part_leaf k : storage_leaf part k = storage_leaf whole k
}.

Create HintDb agree.

Section Agree.
Context {E : Type}.

(** The same result and state, or a report. *)
Definition agree {A} (f g : M E A) : Prop := forall st,
  f st = g st \/ exists e st', f st = Ret (Err e, st') /\ is_missing e = true.

Lemma agree_refl {A} (f : M E A) : agree f f.
Proof. intros st. now left. Qed.

Lemma agree_bind {A B} (f g : M E A) (k l : A -> M E B) :
  agree f g -> (forall a, agree (k a) (l a)) -> agree (bind f k) (bind g l).
Proof.
  intros Hf Hk st. unfold bind. destruct (Hf st) as [->|(e & st' & -> & He)]; [|right; eauto].
  destruct (g st) as [[[a|e] st']|]; [apply Hk | now left | now left].
Qed.

(** Results without a state. *)
Definition agrees {A} (x y : outcome (result (TreeError E) A)) : Prop :=
  x = y \/ exists e, x = Ret (Err e) /\ is_missing e = true.

Lemma agrees_refl {A} (x : outcome (result (TreeError E) A)) : agrees x x.
Proof. now left. Qed.

Lemma agrees_try {A B} (x y : outcome (result (TreeError E) A)) (k l : A -> outcome (result (TreeError E) B)) :
  agrees x y -> (forall a, agrees (k a) (l a)) -> agrees (try x k) (try y l).
Proof.
  intros [->|(e & -> & He)] Hk; [|right; cbn; eauto].
  destruct y as [[a|e]|]; cbn; [apply Hk | apply agrees_refl | apply agrees_refl].
Qed.

Lemma agrees_bind {A B} (x : outcome A) (k l : A -> outcome (result (TreeError E) B)) :
  (forall a, agrees (k a) (l a)) -> agrees (bind_outcome x k) (bind_outcome x l).
Proof. intros Hk. destruct x; [apply Hk | now left]. Qed.
End Agree.

#[export] Hint Resolve agree_refl agree_bind agrees_refl agrees_try agrees_bind : agree.

(** Both sides branch in the same way. *)
Ltac agree_cases :=
  repeat (intros; match goal with
  | |- agree (bind _ _) (bind _ _) => apply agree_bind
  | |- agrees (try _ _) (try _ _) => apply agrees_try
  | |- agrees (bind_outcome _ _) (bind_outcome _ _) => apply agrees_bind
  | |- agree (match ?x with _ => _ end) _ => destruct x
  | |- agrees (match ?x with _ => _ end) _ => destruct x
  end; auto with agree).

Section Missing.
Context {E : Type} (part whole : Storage E) (HP : part_of part whole) (HEIGHT : nat).

Lemma resolve_agree i h : agree (resolve part HEIGHT i h) (resolve whole HEIGHT i h).
Proof.
  unfold resolve. destruct (h <? HEIGHT); [|apply agree_refl].
  destruct (part_get _ _ HP i) as [->| ->]; [apply agree_refl|].
  intros st. right. now exists (NodeMissing i h), st.
Qed.
Hint Resolve resolve_agree : agree.

Lemma traverse_loop_agree dst fuel : forall current height nodes,
  agree (traverse_loop part HEIGHT fuel current height nodes dst) (traverse_loop whole HEIGHT fuel current height nodes dst).
Proof. induction fuel as [|fuel IH]; intros; cbn [traverse_loop]; [apply agree_refl|]. agree_cases. Qed.
Hint Resolve traverse_loop_agree : agree.

Lemma traverse_agree dst : agree (traverse part HEIGHT dst) (traverse whole HEIGHT dst).
Proof. unfold traverse. agree_cases. Qed.
Hint Resolve traverse_agree : agree.

Lemma merge_edges_agree e : agree (merge_edges part HEIGHT e) (merge_edges whole HEIGHT e).
Proof. unfold merge_edges. agree_cases. Qed.
Hint Resolve merge_edges_agree : agree.

Lemma delete_leaf_agree key : agree (delete_leaf part HEIGHT key) (delete_leaf whole HEIGHT key).
Proof. unfold delete_leaf, replace_binary, merge_parent. agree_cases. Qed.
Hint Resolve delete_leaf_agree : agree.

Lemma set_agree key v : agree (set part HEIGHT key v) (set whole HEIGHT key v).
Proof. unfold set. agree_cases. Qed.

Lemma get_agree key : agree (get part HEIGHT key) (get whole HEIGHT key).
Proof. unfold get. rewrite (part_leaf _ _ HP key). agree_cases. Qed.

(** ** Committing *)

Context (H : Felt -> Felt -> outcome Felt).

Lemma stored_hash_agrees i e : is_missing e = true -> agrees (stored_hash part i e) (stored_hash whole i e).
Proof.
  intros He. unfold stored_hash. destruct (part_hash _ _ HP i) as [->| ->]; [now left|]. right. now exists e.
Qed.

Lemma stored_leaf_agrees k : agrees (stored_leaf part k) (stored_leaf whole k).
Proof. unfold stored_leaf. rewrite (part_leaf _ _ HP k). apply agrees_refl. Qed.
Hint Resolve stored_hash_agrees stored_leaf_agrees : agree.

Lemma commit_subtree_agrees tr m fuel : forall n added removed path,
  agrees (commit_subtree part H fuel tr m n added removed path) (commit_subtree whole H fuel tr m n added removed path).
Proof. induction fuel as [|fuel IH]; intros; cbn [commit_subtree]; [apply agrees_refl|]. agree_cases. Qed.
Hint Resolve commit_subtree_agrees : agree.

Lemma commit_agrees st : agrees (commit part H HEIGHT st) (commit whole H HEIGHT st).
Proof. unfold commit. agree_cases. Qed.
End Missing.
