(* ===== verification/TrieStore.v ===== *)
(** The trie tables of storage/src/connection/trie.rs: nodes are stored under
    an integer index, removals are recorded per block and carried out later.

    A SQLite table is a finite map or a list of rows.  SQLite chooses the index
    of a new row; bincode and bitvec encode a node.  All three are parameters. *)

From Stdlib Require Import ZArith Lia Bool List.
From stdpp Require Import gmap gmultiset list sets.
From S2P Require Import Prelude Bytes Felt MerkleNode Tree TrieSpec TreeHash TreeRep TreeOps.
From S2P Require Import TreeMap TreeCommit.
Local Open Scope Z_scope.

(** ** Data *)

Abbreviation BlockNumber := Z (only parsing).

Definition checked_sub (self rhs : Z) : option Z := if rhs <=? self then Some (self - rhs) else None.

Inductive TriePruneMode : Type :=
| Archive
| Prune (num_blocks_kept : Z).

Inductive RootIndexUpdate : Type :=
| Unchanged
| Updated (idx : TrieStorageIndex)
| TrieEmpty.

(** What bincode encodes: a path is its bytes followed by its length. *)
Inductive StoredSerde : Type :=
| SerdeBinary (left right : TrieStorageIndex)
| SerdeEdge (child : TrieStorageIndex) (path : list Z)
| SerdeLeafBinary
| SerdeLeafEdge (path : list Z).

Inductive StoreError : Type :=
| EncodeError
| DecodeError
| PathLengthMissing
| NodeIndexMissing
| LeftChildIndexMissing
| RightChildIndexMissing
| ChildIndexMissing
| IndexTooLarge
| DatabaseFull
| FeltOverflow.

(** The libraries: [force_align] and [into_vec] of a [BitVec], bincode into a
    buffer of 256 bytes and back, and SQLite's choice of a row index. *)
Record Libraries : Type := MkLibraries {
  into_vec : bits -> list Z;
  encode_serde : StoredSerde -> option (list Z);
  decode_serde : list Z -> option StoredSerde;
  encode_indices : list Z -> option (list Z);
  decode_indices : list Z -> option (list Z);
  next_idx : gmap Z (list Z * list Z) -> option Z
}.

(** ** Nodes *)

Section Nodes.
Context (lib : Libraries).

(** The bytes of a path with [path.len() as u8] at the end. *)
Definition encode_path (path : bits) : list Z :=
  into_vec lib path ++ [Z.of_nat (length path) mod 256].

(** [path.pop()], [BitVec::from_vec] and [resize(path_length, false)] *)
Definition decode_path (path : list Z) : result StoreError bits :=
  match last path with
  | None => Err PathLengthMissing
  | Some path_length =>
      let path := bits_of_bytes (removelast path) in
      let n := Z.to_nat path_length in
      Ok (take n path ++ repeat false (n - length path))
  end.

Definition stored_node_encode (self : StoredNode) : result StoreError (list Z) :=
  let helper :=
    match self with
    | StoredBinary left right => SerdeBinary left right
    | StoredEdge child path => SerdeEdge child (encode_path path)
    | StoredLeafBinary => SerdeLeafBinary
    | StoredLeafEdge path => SerdeLeafEdge (encode_path path)
    end in
  match encode_serde lib helper with
  | Some data => Ok data
  | None => Err EncodeError
  end.

Definition stored_node_decode (data : list Z) : result StoreError StoredNode :=
  match decode_serde lib data with
  | None => Err DecodeError
  | Some (SerdeBinary left right) => Ok (StoredBinary left right)
  | Some (SerdeEdge child path) =>
      match decode_path path with Ok path => Ok (StoredEdge child path) | Err e => Err e end
  | Some SerdeLeafBinary => Ok StoredLeafBinary
  | Some (SerdeLeafEdge path) =>
      match decode_path path with Ok path => Ok (StoredLeafEdge path) | Err e => Err e end
  end.

(** The index of a reference: the one it has, or the one just assigned. *)
Definition ref_index (storage_indices : gmap nat TrieStorageIndex) (r : NodeRef) (missing : StoreError)
    : result StoreError TrieStorageIndex :=
  match r with
  | StorageIndex id => Ok id
  | Index idx =>
      match storage_indices !! idx with
      | Some id => Ok id
      | None => Err missing
      end
  end.

Definition as_stored (self : Node) (storage_indices : gmap nat TrieStorageIndex)
    : result StoreError StoredNode :=
  match self with
  | NodeBinary left right =>
      match ref_index storage_indices left LeftChildIndexMissing with
      | Err e => Err e
      | Ok left =>
          match ref_index storage_indices right RightChildIndexMissing with
          | Err e => Err e
          | Ok right => Ok (StoredBinary left right)
          end
      end
  | NodeEdge child path =>
      match ref_index storage_indices child ChildIndexMissing with
      | Err e => Err e
      | Ok child => Ok (StoredEdge child path)
      end
  | NodeLeafEdge path => Ok (StoredLeafEdge path)
  | NodeLeafBinary => Ok StoredLeafBinary
  end.

(** ** Tables *)

(** A table of nodes (hash and data by index), and its table of removals
    (block number and encoded indices). *)
Record TrieTable : Type := MkTable {
  rows : gmap Z (list Z * list Z);
  removals : list (BlockNumber * list Z)
}.

Definition trie_node (table : TrieTable) (index : TrieStorageIndex) : result StoreError (option StoredNode) :=
  match rows table !! index with
  | None => Ok None
  | Some (_, data) =>
      match stored_node_decode data with
      | Ok node => Ok (Some node)
      | Err e => Err e
      end
  end.

Definition trie_node_hash (table : TrieTable) (index : TrieStorageIndex) : result StoreError (option Felt) :=
  match rows table !! index with
  | None => Ok None
  | Some (hash, _) =>
      match felt_from_be_slice hash with
      | Ok felt => Ok (Some felt)
      | Err _ => Err FeltOverflow
      end
  end.

(** *** Removal *)

(** Mark the nodes as ready for removal. *)
Definition remove_trie (removed : list TrieStorageIndex) (block_number : BlockNumber) (table : TrieTable)
    : result StoreError TrieTable :=
  match removed with
  | [] => Ok table
  | _ =>
      match encode_indices lib removed with
      | None => Err EncodeError
      | Some data => Ok (MkTable (rows table) (removals table ++ [(block_number, data)]))
      end
  end.

(** Moves the removals of the blocks after the target to the target. *)
Definition coalesce_removed_trie_nodes (target_block : BlockNumber) (table : TrieTable) : TrieTable :=
  MkTable (rows table)
    (map (fun row => if target_block <? row.1 then (target_block, row.2) else row) (removals table)).

(** Deletes the nodes of one row of removals. *)
Fixpoint delete_nodes (indices : list Z) (nodes : gmap Z (list Z * list Z))
    : result StoreError (gmap Z (list Z * list Z)) :=
  match indices with
  | [] => Ok nodes
  | idx :: indices =>
      if idx <=? I64_MAX then delete_nodes indices (delete idx nodes) else Err IndexTooLarge
  end.

Fixpoint prune_rows (before_block : BlockNumber) (removed : list (BlockNumber * list Z))
    (nodes : gmap Z (list Z * list Z)) : result StoreError (gmap Z (list Z * list Z)) :=
  match removed with
  | [] => Ok nodes
  | (block, data) :: removed =>
      if block <? before_block then
        match decode_indices lib data with
        | None => Err DecodeError
        | Some indices =>
            match delete_nodes indices nodes with
            | Err e => Err e
            | Ok nodes => prune_rows before_block removed nodes
            end
        end
      else prune_rows before_block removed nodes
  end.

Definition prune_trie (block_number : BlockNumber) (num_blocks_kept : Z) (table : TrieTable)
    : result StoreError TrieTable :=
  match checked_sub block_number num_blocks_kept with
  | None => Ok table
  | Some before_block =>
      match prune_rows before_block (removals table) (rows table) with
      | Err e => Err e
      | Ok nodes => Ok (MkTable nodes (List.filter (fun row => negb (row.1 <? before_block)) (removals table)))
      end
  end.

(** *** Insertion *)

(** The nodes to insert, parents first; [to_process] is the stack, top first. *)
Fixpoint collect (fuel : nat) (nodes_added : list (Felt * Node)) (to_process : list NodeRef)
    (to_insert : list nat) : outcome (result StoreError (list nat)) :=
  match fuel with
  | O => Panic
  | S fuel =>
      match to_process with
      | [] => Ret (Ok to_insert)
      | StorageIndex _ :: to_process => collect fuel nodes_added to_process to_insert
      | Index idx :: to_process =>
          match nodes_added !! idx with
          | None => Ret (Err NodeIndexMissing)
          | Some (_, node) =>
              let to_insert := to_insert ++ [idx] in
              match node with
              | NodeBinary left right => collect fuel nodes_added (right :: left :: to_process) to_insert
              | NodeEdge child _ => collect fuel nodes_added (child :: to_process) to_insert
              | NodeLeafEdge _ | NodeLeafBinary => collect fuel nodes_added to_process to_insert
              end
          end
      end
  end.

(** The insertions, children first. *)
Fixpoint insert_nodes (nodes_added : list (Felt * Node)) (to_insert : list nat) (nodes : gmap Z (list Z * list Z))
    (indices : gmap nat TrieStorageIndex)
    : result StoreError (gmap Z (list Z * list Z) * gmap nat TrieStorageIndex) :=
  match to_insert with
  | [] => Ok (nodes, indices)
  | idx :: to_insert =>
      match nodes_added !! idx with
      | None => Err NodeIndexMissing
      | Some (hash, node) =>
          match as_stored node indices with
          | Err e => Err e
          | Ok node =>
              match stored_node_encode node with
              | Err e => Err e
              | Ok data =>
                  match next_idx lib nodes with
                  | None => Err DatabaseFull
                  | Some storage_idx =>
                      insert_nodes nodes_added to_insert (<[storage_idx := (hash, data)]> nodes)
                        (<[idx := storage_idx]> indices)
                  end
              end
          end
      end
  end.

Definition prune_and_mark (mode : TriePruneMode) (removed : list TrieStorageIndex) (block_number : BlockNumber)
    (table : TrieTable) : result StoreError TrieTable :=
  match mode with
  | Archive => Ok table
  | Prune num_blocks_kept =>
      match prune_trie block_number num_blocks_kept table with
      | Err e => Err e
      | Ok table => remove_trie removed block_number table
      end
  end.

(** The new nodes, once the removed ones are marked. *)
Definition insert_added (fuel : nat) (update : TrieUpdate) (table : TrieTable)
    : outcome (result StoreError (RootIndexUpdate * TrieTable)) :=
  match nodes_added update with
  | [] =>
      match update_nodes_removed update with
      | _ :: _ =>
          if felt_eqb (root_commitment update) FELT_ZERO then Ret (Ok (TrieEmpty, table))
          else Ret (Ok (Unchanged, table))
      | [] => Ret (Ok (Unchanged, table))
      end
  | _ =>
      let root := (length (nodes_added update) - 1)%nat in
      let+ to_insert := collect fuel (nodes_added update) [Index root] [] in
      match insert_nodes (nodes_added update) (rev to_insert) (rows table) ∅ with
      | Err e => Ret (Err e)
      | Ok (nodes, indices) =>
          match indices !! root with
          | None => Panic
          | Some idx => Ret (Ok (Updated idx, MkTable nodes (removals table)))
          end
      end
  end.

Definition insert_trie (fuel : nat) (mode : TriePruneMode) (update : TrieUpdate) (block_number : BlockNumber)
    (table : TrieTable) : outcome (result StoreError (RootIndexUpdate * TrieTable)) :=
  match prune_and_mark mode (update_nodes_removed update) block_number table with
  | Err e => Ret (Err e)
  | Ok table => insert_added fuel update table
  end.
End Nodes.

(** * The trie tables keep what is put into them: nodes survive their encoding,
    an update that is inserted can be read back, and what is still in use is
    not pruned. *)

Local Close Scope Z_scope.

(** What the libraries promise. *)
Definition index_ok (i : Z) : Prop := (0 <= i <= I64_MAX)%Z.

(** What fits the buffer for certain: 34 bytes of a path and its framing. *)
Definition serde_small (s : StoredSerde) : Prop :=
  match s with
  | SerdeBinary l r => index_ok l /\ index_ok r
  | SerdeEdge c p => index_ok c /\ length p <= 34
  | SerdeLeafBinary => True
  | SerdeLeafEdge p => length p <= 34
  end.

Class LibraryLaws (lib : Libraries) : Prop := {
  into_vec_bits p : take (length p) (bits_of_bytes (into_vec lib p)) = p;
  into_vec_length p : length (into_vec lib p) <= length p / 8 + 1;
  serde_roundtrip s data : encode_serde lib s = Some data -> decode_serde lib data = Some s;
  serde_fits s : serde_small s -> exists data, encode_serde lib s = Some data;
  indices_roundtrip l data : encode_indices lib l = Some data -> decode_indices lib data = Some l;
  indices_fit l : Forall index_ok l -> (Z.of_nat (length l) < 2 ^ 64)%Z -> exists data, encode_indices lib l = Some data;
  next_idx_fresh nodes i : next_idx lib nodes = Some i -> nodes !! i = None /\ index_ok i;
  next_idx_room nodes m : (forall i, is_Some (nodes !! i) -> i <= m)%Z -> (0 <= m < I64_MAX)%Z ->
    exists i, next_idx lib nodes = Some i /\ (i <= m + 1)%Z
}.

Section Facts.
Context (lib : Libraries) {laws : LibraryLaws lib}.

(** ** Encoding *)

Definition path_of (n : StoredNode) : bits :=
  match n with StoredEdge _ p | StoredLeafEdge p => p | _ => [] end.

Lemma decode_encode_path p : length p < 256 -> decode_path (encode_path lib p) = Ok p.
Proof.
  intros L. unfold decode_path, encode_path. rewrite last_snoc, removelast_last.
  rewrite Z.mod_small, Nat2Z.id by lia. pose proof (into_vec_bits (lib := lib) p) as E. rewrite E.
  apply (f_equal length) in E. rewrite length_take in E.
  replace (length p - length (bits_of_bytes (into_vec lib p))) with 0 by lia. now rewrite app_nil_r.
Qed.

Lemma node_roundtrip n data : length (path_of n) < 256 -> stored_node_encode lib n = Ok data ->
  stored_node_decode lib data = Ok n.
Proof.
  intros L. unfold stored_node_encode, stored_node_decode. cbv zeta.
  destruct (encode_serde lib _) as [d|] eqn:Ee; [|discriminate]. intros [= <-].
  rewrite (serde_roundtrip _ _ Ee). destruct n; cbn in L |- *; rewrite ?decode_encode_path by exact L; reflexivity.
Qed.

(** A longer path would not survive: only the low byte of its length is kept. *)
Lemma decode_path_length p q : decode_path (encode_path lib p) = Ok q -> (length q = length p mod 256)%nat.
Proof.
  unfold decode_path, encode_path. rewrite last_snoc, removelast_last.
  assert (E : Z.to_nat (Z.of_nat (length p) mod 256) = (length p mod 256)%nat).
  { rewrite <- (Nat2Z.id (length p mod 256)), Nat2Z.inj_mod. reflexivity. }
  rewrite E. clear E. generalize (length p mod 256)%nat. intros n [= <-].
  rewrite length_app, length_take, repeat_length. lia.
Qed.

Definition node_small (n : StoredNode) : Prop :=
  length (path_of n) <= 251 /\
  match n with
  | StoredBinary l r => index_ok l /\ index_ok r
  | StoredEdge c _ => index_ok c
  | _ => True
  end.

Lemma encode_path_small p : length p <= 251 -> length (encode_path lib p) <= 34.
Proof.
  intros L. unfold encode_path. rewrite length_app. cbn [length].
  pose proof (into_vec_length (lib := lib) p). assert (length p / 8 <= 31); [|lia].
  change 31 with (251 / 8). now apply Nat.Div0.div_le_mono.
Qed.

Lemma node_encodes n : node_small n -> exists data, stored_node_encode lib n = Ok data.
Proof.
  intros [L B]. unfold stored_node_encode. cbv zeta.
  assert (S : serde_small match n with
    | StoredBinary l r => SerdeBinary l r
    | StoredEdge c p => SerdeEdge c (encode_path lib p)
    | StoredLeafBinary => SerdeLeafBinary
    | StoredLeafEdge p => SerdeLeafEdge (encode_path lib p)
    end) by (destruct n; cbn in *; auto using encode_path_small).
  destruct (serde_fits _ S) as [data ->]. eauto.
Qed.

(** ** Reading *)

Definition table_storage (nodes : gmap Z (list Z * list Z)) (leaf : bits -> outcome (result StoreError (option Felt)))
    : Storage StoreError :=
  MkStorage StoreError (trie_node lib (MkTable nodes [])) (TrieStore.trie_node_hash (MkTable nodes [])) leaf.

Lemma felt_slice f : felt_ok f -> felt_from_be_slice f = Ok f.
Proof.
  intros Hf. pose proof Hf as (Hb & L & _). rewrite felt_from_be_slice_spec by lia. rewrite L. cbn [Nat.sub repeat app].
  now apply felt_from_be_bytes_ok.
Qed.

(** A node just inserted is read back, and the others are as they were. *)
Lemma inserted_node nodes leaf i h n data : felt_ok h -> length (path_of n) < 256 ->
  stored_node_encode lib n = Ok data ->
  storage_get (table_storage (<[i := (h, data)]> nodes) leaf) i = Ok (Some n) /\
  storage_hash (table_storage (<[i := (h, data)]> nodes) leaf) i = Ok (Some h).
Proof.
  intros Hh L Ed. cbn. unfold trie_node, TrieStore.trie_node_hash. cbn [rows]. rewrite lookup_insert_eq.
  rewrite (node_roundtrip n data L Ed), (felt_slice h Hh). auto.
Qed.

Lemma same_row nodes nodes' leaf leaf' i : nodes' !! i = nodes !! i ->
  storage_get (table_storage nodes' leaf') i = storage_get (table_storage nodes leaf) i /\
  storage_hash (table_storage nodes' leaf') i = storage_hash (table_storage nodes leaf) i.
Proof. intros E. cbn. unfold trie_node, TrieStore.trie_node_hash. cbn [rows]. now rewrite E. Qed.

(** A stored trie is still there when its rows and its leaves are. *)
Lemma hashed_same H nodes nodes' leaf leaf' val pi idx t h :
  hashed (table_storage nodes leaf) H pi idx t h -> forall I,
  stored (table_storage nodes leaf) idx t I -> (forall i, i ∈ I -> nodes' !! i = nodes !! i) ->
  values_ok (table_storage nodes leaf) val pi t ->
  (forall k, has t k = true -> leaf' (pi ++ k) = Ret (Ok (Some (val (pi ++ k))))) ->
  hashed (table_storage nodes' leaf') H pi idx t h /\ stored (table_storage nodes' leaf') idx t I.
Proof.
  induction 1 as [pi idx l r tl tr hl hr h G Hs Hl IHl Hr IHr Eh|pi idx c p t hc h G Hs Hc IH Eh
    |pi idx vl vr h G Hs Ll Lr Eh|pi idx p v h G Hs Lv Eh]; intros I St Hn Hv Hf;
    inversion St as [? ? ? ? ? Il Ir G' Sl Sr|? ? ? ? J G' Sc|? G'|? ? G']; subst; rewrite G in G'; simplify_eq;
    assert (Hi : nodes' !! idx = nodes !! idx) by (apply Hn; multiset_solver);
    destruct (same_row nodes nodes' leaf leaf' idx Hi) as [Eg Eh']; rewrite G in Eg; rewrite Hs in Eh'.
  - destruct (IHl Il Sl) as [Hl' Sl'];
      [intros; apply Hn; multiset_solver | intros k v; rewrite <- app_assoc; intros; now apply Hv
      | intros k Hk; rewrite <- app_assoc; now apply Hf |].
    destruct (IHr Ir Sr) as [Hr' Sr'];
      [intros; apply Hn; multiset_solver | intros k v; rewrite <- app_assoc; intros; now apply Hv
      | intros k Hk; rewrite <- app_assoc; now apply Hf |].
    split; [exact (hashed_binary _ _ _ _ _ _ _ _ _ _ _ Eg Eh' Hl' Hr' Eh)|].
    exact (stored_binary _ _ _ _ _ _ _ _ Eg Sl' Sr').
  - destruct (IH J Sc) as [Hc' Sc'];
      [intros; apply Hn; multiset_solver
      | intros k v; rewrite <- app_assoc; intros Hk; apply Hv; now rewrite has_edge_app
      | intros k Hk; rewrite <- app_assoc; apply Hf; now rewrite has_edge_app |].
    split; [exact (hashed_edge _ _ _ _ _ _ _ _ _ Eg Eh' Hc' Eh)|]. exact (stored_edge _ _ _ _ _ _ Eg Sc').
  - rewrite <- (Hv [false] vl) in Eh by easy. rewrite <- (Hv [true] vr) in Eh by easy.
    split; [|now apply stored_leaf_binary].
    refine (hashed_leaf_binary _ _ _ _ _ _ _ Eg Eh' _ _ Eh); cbn; now apply Hf.
  - assert (Hp : has (TEdge p TLeaf) p = true) by (rewrite <- (app_nil_r p) at 2; now rewrite has_edge_app).
    rewrite <- (Hv p v Hp Lv) in Eh. split; [|now apply stored_leaf_edge].
    refine (hashed_leaf_edge _ _ _ _ _ _ _ Eg Eh' _ Eh); cbn; now apply Hf.
Qed.
End Facts.
