(* ===== verification/TrieInsert.v ===== *)
(** Inserting an update into a trie table: the nodes are collected from the
    root, stored children first, and can then be read back under the index that
    is returned. *)

From Stdlib Require Import ZArith Lia Bool List.
From stdpp Require Import gmap gmultiset list sets.
From S2P Require Import Prelude Bytes Felt MerkleNode Tree TrieSpec TreeHash TreeRep TreeOps.
From S2P Require Import TreeMap TreeCommit TrieStore.

(** ** Collecting the nodes *)

Definition node_refs (n : Node) : list NodeRef :=
  match n with
  | NodeBinary l r => [r; l]
  | NodeEdge c _ => [c]
  | NodeLeafBinary | NodeLeafEdge _ => []
  end.

Lemma collect_node fuel added idx h n stack acc : added !! idx = Some (h, n) ->
  collect (S fuel) added (Index idx :: stack) acc = collect fuel added (node_refs n ++ stack) (acc ++ [idx]).
Proof. intros E. cbn [collect]. rewrite E. now destruct n. Qed.

Lemma collect_acc added fuel : forall stack acc, collect fuel added stack acc =
  match collect fuel added stack [] with
  | Ret (Ok o) => Ret (Ok (acc ++ o))
  | other => other
  end.
Proof.
  induction fuel as [|fuel IH]; intros stack acc; [reflexivity|].
  destruct stack as [|[id|idx] stack]; [cbn; now rewrite app_nil_r | exact (IH stack acc)|].
  destruct (added !! idx) as [[h n]|] eqn:Ei; [|cbn [collect]; now rewrite Ei].
  rewrite !(collect_node fuel added idx h n) by exact Ei. rewrite (IH _ (acc ++ [idx])), (IH _ ([] ++ [idx])).
  destruct (collect fuel added (node_refs n ++ stack) []) as [[o|e]|]; [|reflexivity..].
  cbn [app]. now rewrite <- app_assoc.
Qed.

Lemma collect_more added fuel more : forall stack acc x, collect fuel added stack acc = Ret x ->
  collect (more + fuel) added stack acc = Ret x.
Proof.
  induction fuel as [|fuel IH]; intros stack acc x E; [discriminate|]. rewrite Nat.add_succ_r.
  destruct stack as [|[id|idx] stack]; [exact E | exact (IH stack acc x E)|].
  destruct (added !! idx) as [[h n]|] eqn:Ei; [|cbn [collect] in E |- *; rewrite Ei in E |- *; exact E].
  rewrite (collect_node _ added idx h n) in E by exact Ei.
  rewrite (collect_node _ added idx h n) by exact Ei. now apply IH.
Qed.

(** Every child of a collected node is collected after it. *)
Definition later (added : list (Felt * Node)) (o : list nat) : Prop :=
  forall a i b h n j, o = a ++ i :: b -> added !! i = Some (h, n) -> Index j ∈ node_refs n -> j ∈ b.

Lemma collect_later added fuel : forall stack o, collect fuel added stack [] = Ret (Ok o) ->
  (forall j, Index j ∈ stack -> j ∈ o) /\ later added o.
Proof.
  induction fuel as [|fuel IH]; intros stack o E; [discriminate|].
  destruct stack as [|[id|idx] stack].
  - injection E as <-. split; [intros j H; inversion H|]. intros a i b h n j Eo. now destruct a.
  - destruct (IH stack o E) as [Hs L]. split; [|exact L]. intros j [Hj|Hj]%elem_of_cons; [discriminate | auto].
  - destruct (added !! idx) as [[h n]|] eqn:Ei; [|cbn [collect] in E; now rewrite Ei in E].
    rewrite (collect_node _ added idx h n), collect_acc in E by exact Ei. cbn [app] in E.
    destruct (collect fuel added (node_refs n ++ stack) []) as [[o'|e]|] eqn:Ec; try discriminate.
    injection E as <-. destruct (IH _ _ Ec) as [Hs L]. split.
    + intros j [Hj|Hj]%elem_of_cons; [injection Hj as ->; now left | right; apply Hs, elem_of_app; now right].
    + intros [|x a] i b h' n' j Eo Ei' Hj.
      * injection Eo as <- <-. rewrite Ei in Ei'. injection Ei' as <- <-. apply Hs, elem_of_app. now left.
      * injection Eo as <- Eo. exact (L a i b h' n' j Eo Ei' Hj).
Qed.

(** What holds of references and passes to children holds of what is collected. *)
Lemma collect_all added (P : NodeRef -> Prop) fuel :
  (forall i h n r, P (Index i) -> added !! i = Some (h, n) -> r ∈ node_refs n -> P r) ->
  forall stack o, Forall P stack -> collect fuel added stack [] = Ret (Ok o) -> Forall (fun i => P (Index i)) o.
Proof.
  intros HP. induction fuel as [|fuel IH]; intros stack o Hs E; [discriminate|].
  destruct stack as [|[id|idx] stack]; [injection E as <-; constructor | inversion_clear Hs; eauto|].
  inversion_clear Hs as [|? ? Hi Hs'].
  destruct (added !! idx) as [[h n]|] eqn:Ei; [|cbn [collect] in E; now rewrite Ei in E].
  rewrite (collect_node _ added idx h n), collect_acc in E by exact Ei. cbn [app] in E.
  destruct (collect fuel added (node_refs n ++ stack) []) as [[o'|e]|] eqn:Ec; try discriminate.
  injection E as <-. constructor; [exact Hi|]. apply (IH (node_refs n ++ stack)); [|exact Ec].
  apply Forall_app. split; [|exact Hs']. apply Forall_forall. intros r Hr. exact (HP idx h n r Hi Ei Hr).
Qed.

Lemma refers_thash {E} (storage : Storage E) H added val r pi t h I lo hi :
  refers storage H added val r pi t h I lo hi -> thash H val pi t = Ret h.
Proof.
  induction 1 as [pi idx t h I lo hi Hh St Hv|pi i l r tl tr hl hr h Il Ir lo mid hi G B1 B2 Rl IHl Rr IHr Eh
    |pi i c p t hc h I lo hi G B Rc IH Eh|pi i h lo hi G B Eh|pi i p h lo hi G B Eh]; cbn [thash].
  - exact (hashed_thash _ _ _ _ _ _ _ Hh Hv).
  - now rewrite IHl, IHr.
  - now rewrite IH.
  - exact Eh.
  - exact Eh.
Qed.

Fixpoint tnodes (t : trie) : nat :=
  match t with
  | TLeaf => 0
  | TBin l r => S (tnodes l + tnodes r)
  | TEdge _ c => S (tnodes c)
  end.

(** The collection of a well-founded reference ends, with at most the nodes of
    its trie. *)
Lemma collect_total {E} (storage : Storage E) H added val r pi t h I lo hi :
  refers storage H added val r pi t h I lo hi ->
  exists n, n <= 2 * (hi - lo) + 1 /\ forall fuel stack o, collect fuel added stack [] = Ret (Ok o) ->
    exists o', collect (n + fuel) added (r :: stack) [] = Ret (Ok o') /\ length o' <= length o + tnodes t.
Proof.
  assert (Acc : forall fuel stack idx h n o, added !! idx = Some (h, n) ->
    collect fuel added (node_refs n ++ stack) [] = Ret (Ok o) ->
    collect (S fuel) added (Index idx :: stack) [] = Ret (Ok (idx :: o))).
  { intros fuel stack idx h0 n o Ei Ec. rewrite (collect_node _ _ _ h0 n), collect_acc by exact Ei.
    now rewrite Ec. }
  induction 1 as [pi idx t h I lo hi Hh St Hv|pi i l r tl tr hl hr h Il Ir lo mid hi G B1 B2 Rl IHl Rr IHr Eh
    |pi i c p t hc h I lo hi G B Rc IH Eh|pi i h lo hi G B Eh|pi i p h lo hi G B Eh].
  - exists 1. split; [lia|]. intros fuel stack o Eo. exists o. split; [exact Eo | lia].
  - destruct IHl as (nl & Ll & Hl), IHr as (nr & Lr & Hr). exists (S (nr + nl)). split; [lia|]. intros fuel stack o Eo.
    destruct (Hl fuel stack o Eo) as (o1 & E1 & L1). destruct (Hr _ _ _ E1) as (o2 & E2 & L2). exists (i :: o2).
    replace (S (nr + nl) + fuel) with (S (nr + (nl + fuel))) by lia.
    split; [exact (Acc _ _ _ _ _ _ G E2) | cbn [length tnodes]; lia].
  - destruct IH as (n & Ln & Hn). exists (S n). split; [lia|]. intros fuel stack o Eo.
    destruct (Hn fuel stack o Eo) as (o1 & E1 & L1). exists (i :: o1).
    split; [exact (Acc _ _ _ _ _ _ G E1) | cbn [length tnodes]; lia].
  - exists 1. split; [lia|]. intros fuel stack o Eo. exists (i :: o).
    split; [exact (Acc _ _ _ _ _ _ G Eo) | cbn [length tnodes]; lia].
  - exists 1. split; [lia|]. intros fuel stack o Eo. exists (i :: o).
    split; [exact (Acc _ _ _ _ _ _ G Eo) | cbn [length tnodes]; lia].
Qed.

(** ** Inserting the nodes *)

Section Insert.
Context (lib : Libraries) {laws : LibraryLaws lib} (H : Felt -> Felt -> outcome Felt) {HH : FeltHash H}.

(** The table the update was computed from, the table it is inserted into, and
    the leaves that go with it. *)
Context (old nodes0 : gmap Z (list Z * list Z)) (old_leaf leaf : bits -> outcome (result StoreError (option Felt))).
Context (added : list (Felt * Node)) (val : bits -> Felt) (val_ok : forall k, felt_ok (val k)).

Abbreviation refers := (refers (table_storage lib old old_leaf) H added val).
Abbreviation store nodes := (table_storage lib nodes leaf).

Definition nodes_ok (nodes : gmap Z (list Z * list Z)) : Prop := forall i, is_Some (nodes !! i) -> index_ok i.

Context (old_ok : nodes_ok old).

(** What is needed of a trie that is referred to. *)
Record in_use (pi : bits) (t : trie) (I : gmultiset Z) : Prop := {
  use_wf : exists n, wf n t /\ n <= 251;
  use_leaves : forall k, has t k = true -> leaf (pi ++ k) = Ret (Ok (Some (val (pi ++ k))));
  use_rows : forall i, i ∈ I -> nodes0 !! i = old !! i
}.

Lemma in_use_left pi l r Il Ir : in_use pi (TBin l r) (Il ⊎ Ir) -> in_use (pi ++ [false]) l Il.
Proof.
  intros [(n & (n' & -> & Wl & Wr) & Hn) Hl Hr]. split.
  - exists n'. split; [exact Wl | lia].
  - intros k Hk. rewrite <- app_assoc. now apply Hl.
  - intros i Hi. apply Hr. clear Hl Hr. multiset_solver.
Qed.

Lemma in_use_right pi l r Il Ir : in_use pi (TBin l r) (Il ⊎ Ir) -> in_use (pi ++ [true]) r Ir.
Proof.
  intros [(n & (n' & -> & Wl & Wr) & Hn) Hl Hr]. split.
  - exists n'. split; [exact Wr | lia].
  - intros k Hk. rewrite <- app_assoc. now apply Hl.
  - intros i Hi. apply Hr. clear Hl Hr. multiset_solver.
Qed.

Lemma in_use_child pi p c I : in_use pi (TEdge p c) I -> in_use (pi ++ p) c I.
Proof.
  intros [(n & (_ & _ & n' & -> & W) & Hn) Hl Hr]. split; [exists n'; split; [exact W | lia] | | exact Hr].
  intros k Hk. rewrite <- app_assoc. apply Hl. now rewrite has_edge_app.
Qed.

(** The rows that are new, each made for one added node of an interval. *)
Record new_rows (owner : gmap Z nat) (lo hi : nat) (N : gmultiset Z) : Prop := {
  new_owner : forall x, x ∈ N -> nodes0 !! x = None /\ exists j, owner !! x = Some j /\ lo <= j < hi;
  new_once : forall x, multiplicity x N <= 1
}.

(** The trie can be read in the new table; its rows are new or were there. *)
Definition readable (nodes : gmap Z (list Z * list Z)) (owner : gmap Z nat) (s : TrieStorageIndex) (pi : bits)
    (t : trie) (h : Felt) (I : gmultiset Z) (lo hi : nat) : Prop :=
  hashed (store nodes) H pi s t h /\
  exists N, stored (store nodes) s t (N ⊎ I) /\ new_rows owner lo hi N.

Lemma new_rows_empty owner lo hi : new_rows owner lo hi ∅.
Proof. split; intros x; [intros Hx; exfalso; clear -Hx; multiset_solver | rewrite multiplicity_empty; lia]. Qed.

Lemma new_rows_disjoint owner lo mid hi A B x : new_rows owner lo mid A -> new_rows owner mid hi B ->
  x ∈ A -> x ∈ B -> False.
Proof.
  intros HA HB Ha Hb. destruct (new_owner _ _ _ _ HA x Ha) as (_ & j & Ej & Bj).
  destruct (new_owner _ _ _ _ HB x Hb) as (_ & j' & Ej' & Bj'). rewrite Ej in Ej'. injection Ej' as <-. lia.
Qed.

(** The rows of a node are its own and those of its children. *)
Lemma new_rows_node owner s i lo mid hi A B : nodes0 !! s = None -> owner !! s = Some i ->
  lo <= mid <= i -> i < hi -> new_rows owner lo mid A -> new_rows owner mid i B ->
  new_rows owner lo hi ({[+ s +]} ⊎ (A ⊎ B)).
Proof.
  intros Fs Os B1 B2 HA HB. split.
  - intros x Hx. assert (x = s \/ x ∈ A \/ x ∈ B) as [->|[Hx'|Hx']] by (clear -Hx; multiset_solver).
    + split; [exact Fs|]. exists i. split; [exact Os | lia].
    + destruct (new_owner _ _ _ _ HA x Hx') as (Fx & j & Ej & Bj). split; [exact Fx|]. exists j. split; [exact Ej | lia].
    + destruct (new_owner _ _ _ _ HB x Hx') as (Fx & j & Ej & Bj). split; [exact Fx|]. exists j. split; [exact Ej | lia].
  - intros x. rewrite !multiplicity_disj_union. pose proof (new_once _ _ _ _ HA x) as OA.
    pose proof (new_once _ _ _ _ HB x) as OB. pose proof (new_rows_disjoint _ _ _ _ A B x HA HB) as D.
    assert (Sa : x = s -> multiplicity x A = 0).
    { intros ->. destruct (decide (s ∈ A)) as [Hs|Hs]; [|now apply not_elem_of_multiplicity].
      destruct (new_owner _ _ _ _ HA s Hs) as (_ & j & Ej & Bj). rewrite Os in Ej. injection Ej as <-. lia. }
    assert (Sb : x = s -> multiplicity x B = 0).
    { intros ->. destruct (decide (s ∈ B)) as [Hs|Hs]; [|now apply not_elem_of_multiplicity].
      destruct (new_owner _ _ _ _ HB s Hs) as (_ & j & Ej & Bj). rewrite Os in Ej. injection Ej as <-. lia. }
    destruct (decide (x = s)) as [->|N].
    + rewrite multiplicity_singleton, decide_True, Sa, Sb by reflexivity. lia.
    + rewrite multiplicity_singleton, decide_False by exact N.
      destruct (decide (x ∈ A)) as [Ha|Ha]; [|apply not_elem_of_multiplicity in Ha; lia].
      destruct (decide (x ∈ B)) as [Hb|Hb]; [exfalso; exact (D Ha Hb) | apply not_elem_of_multiplicity in Hb; lia].
Qed.

Lemma new_rows_more owner s i lo hi N : owner !! s = None -> new_rows owner lo hi N ->
  new_rows (<[s := i]> owner) lo hi N.
Proof.
  intros Fs [HN O]. split; [|exact O]. intros x Hx. destruct (HN x Hx) as (Fx & j & Ej & Bj).
  split; [exact Fx|]. exists j. rewrite lookup_insert_ne; [auto | congruence].
Qed.

Lemma stored_rows nodes lf s t I : stored (table_storage lib nodes lf) s t I ->
  forall i, i ∈ I -> is_Some (nodes !! i).
Proof.
  assert (Row : forall i n, storage_get (table_storage lib nodes lf) i = Ok (Some n) -> is_Some (nodes !! i)).
  { intros i n. cbn. unfold trie_node. cbn [rows]. destruct (nodes !! i); [eauto | discriminate]. }
  induction 1 as [idx l r tl tr Il Ir G Sl IHl Sr IHr|idx c p t I G Sc IH|idx G|idx p G]; intros i Hi.
  - assert (i = idx \/ i ∈ Il \/ i ∈ Ir) as [->|[Hi'|Hi']] by (clear -Hi; multiset_solver); eauto.
  - assert (i = idx \/ i ∈ I) as [->|Hi'] by (clear -Hi; multiset_solver); eauto.
  - assert (i = idx) as -> by (clear -Hi; multiset_solver). eauto.
  - assert (i = idx) as -> by (clear -Hi; multiset_solver). eauto.
Qed.

Lemma leaf_values_ok nodes pi t I : in_use pi t I -> values_ok (store nodes) val pi t.
Proof. intros U k v Hk Hl. cbn in Hl. rewrite (use_leaves _ _ _ U k Hk) in Hl. congruence. Qed.

Lemma readable_more nodes owner s pi t h I lo hi s' row i : in_use pi t I -> nodes !! s' = None ->
  owner !! s' = None -> readable nodes owner s pi t h I lo hi ->
  readable (<[s' := row]> nodes) (<[s' := i]> owner) s pi t h I lo hi.
Proof.
  intros U Fr Fo (Hh & N & St & HN).
  destruct (hashed_same lib H nodes (<[s' := row]> nodes) leaf leaf val pi s t h Hh (N ⊎ I) St)
    as [Hh' St']; [|exact (leaf_values_ok _ _ _ _ U) | exact (use_leaves _ _ _ U) | split; eauto using new_rows_more].
  intros x Hi. rewrite lookup_insert_ne; [reflexivity|]. intros <-.
  destruct (stored_rows _ _ _ _ _ St s' Hi). congruence.
Qed.

(** The state of the loop: the indices assigned lead to what they stand for. *)
Record inserting (nodes : gmap Z (list Z * list Z)) (owner : gmap Z nat) (indices : gmap nat TrieStorageIndex)
    : Prop := {
  ins_keep : forall i, is_Some (nodes0 !! i) -> nodes !! i = nodes0 !! i;
  ins_ok : nodes_ok nodes;
  ins_owner : forall i, is_Some (owner !! i) -> is_Some (nodes !! i);
  ins_read : forall j s, indices !! j = Some s -> index_ok s /\
    forall pi t h I lo hi, refers (Index j) pi t h I lo hi -> in_use pi t I -> readable nodes owner s pi t h I lo hi
}.

(** A reference whose index is known leads to the trie it refers to. *)
Lemma ref_readable nodes owner indices r pi t h I lo hi e : inserting nodes owner indices ->
  refers r pi t h I lo hi -> in_use pi t I ->
  (forall j, r = Index j -> is_Some (indices !! j)) ->
  exists s, ref_index indices r e = Ok s /\ index_ok s /\ readable nodes owner s pi t h I lo hi.
Proof.
  intros Ins R U Hj. destruct r as [id|j].
  - inversion R as [? ? ? ? ? ? ? Hh St Hv| | | |]; subst. exists id. split; [reflexivity|].
    assert (Hold : forall i, i ∈ I -> nodes !! i = old !! i).
    { intros i Hi. rewrite <- (use_rows _ _ _ U i Hi). apply (ins_keep _ _ _ Ins).
      rewrite (use_rows _ _ _ U i Hi). exact (stored_rows _ _ _ _ _ St i Hi). }
    assert (Hid : id ∈ I) by (destruct St; clear; multiset_solver).
    split; [apply old_ok; exact (stored_rows _ _ _ _ _ St id Hid)|].
    destruct (hashed_same lib H old nodes old_leaf leaf val pi id t h Hh I St Hold Hv (use_leaves _ _ _ U)) as [Hh' St'].
    split; [exact Hh'|]. exists ∅. split; [|apply new_rows_empty].
    replace (∅ ⊎ I) with I by (clear; multiset_solver). exact St'.
  - destruct (Hj j eq_refl) as [s Hs]. exists s. cbn [ref_index]. rewrite Hs. split; [reflexivity|].
    destruct (ins_read _ _ _ Ins j s Hs) as [Os Rd]. auto.
Qed.

Lemma fresh_row nodes owner indices s : inserting nodes owner indices -> nodes !! s = None ->
  nodes0 !! s = None /\ owner !! s = None.
Proof.
  intros Ins Fs. split.
  - destruct (nodes0 !! s) eqn:Es; [|reflexivity]. rewrite (ins_keep _ _ _ Ins) in Fs by eauto. congruence.
  - destruct (owner !! s) eqn:Es; [|reflexivity]. destruct (ins_owner _ _ _ Ins s); eauto. congruence.
Qed.

(** An added node has a stored form, which can be read once it is inserted. *)
Definition storable (nodes : gmap Z (list Z * list Z)) (owner : gmap Z nat) (indices : gmap nat TrieStorageIndex)
    (i : nat) (n : Node) (pi : bits) (t : trie) (h : Felt) (I : gmultiset Z) (lo hi : nat) : Prop :=
  exists sn, as_stored n indices = Ok sn /\ node_small sn /\
    forall s data, stored_node_encode lib sn = Ok data -> nodes !! s = None ->
      readable (<[s := (h, data)]> nodes) (<[s := i]> owner) s pi t h I lo hi.

Definition children_known (indices : gmap nat TrieStorageIndex) (n : Node) : Prop :=
  forall j, Index j ∈ node_refs n -> is_Some (indices !! j).

Lemma storable_binary nodes owner indices i l r pi tl tr hl hr h Il Ir lo mid hi :
  inserting nodes owner indices -> felt_ok h ->
  refers l (pi ++ [false]) tl hl Il lo mid -> refers r (pi ++ [true]) tr hr Ir mid i -> lo <= mid <= i -> i < hi ->
  binary_calculate_hash H hl hr = Ret h -> in_use pi (TBin tl tr) (Il ⊎ Ir) ->
  children_known indices (NodeBinary l r) ->
  storable nodes owner indices i (NodeBinary l r) pi (TBin tl tr) h (Il ⊎ Ir) lo hi.
Proof.
  intros Ins Oh Rl Rr B1 B2 Eb U Hj.
  destruct (ref_readable nodes owner indices l _ _ _ _ _ _ LeftChildIndexMissing Ins Rl (in_use_left _ _ _ _ _ U))
    as (sl & El & Ol & Rdl); [intros j ->; apply Hj; cbn; set_solver|].
  destruct (ref_readable nodes owner indices r _ _ _ _ _ _ RightChildIndexMissing Ins Rr (in_use_right _ _ _ _ _ U))
    as (sr & Er & Or & Rdr); [intros j ->; apply Hj; cbn; set_solver|].
  exists (StoredBinary sl sr). cbn [as_stored]. rewrite El, Er. split; [reflexivity|].
  split; [split; [cbn; lia | auto]|]. intros s data Ed Fs. destruct (fresh_row _ _ _ _ Ins Fs) as [F0 Fo].
  destruct (inserted_node lib nodes leaf s h (StoredBinary sl sr) data Oh ltac:(cbn; lia) Ed) as [Gs Hs].
  apply (readable_more _ _ _ _ _ _ _ _ _ s (h, data) i (in_use_left _ _ _ _ _ U) Fs Fo) in Rdl as (Hl' & Nl & Sl & Fl).
  apply (readable_more _ _ _ _ _ _ _ _ _ s (h, data) i (in_use_right _ _ _ _ _ U) Fs Fo) in Rdr as (Hr' & Nr & Sr & Fr).
  split; [exact (hashed_binary _ _ _ _ _ _ _ _ _ _ _ Gs Hs Hl' Hr' Eb)|].
  exists ({[+ s +]} ⊎ (Nl ⊎ Nr)). split.
  - replace ({[+ s +]} ⊎ (Nl ⊎ Nr) ⊎ (Il ⊎ Ir)) with ({[+ s +]} ⊎ (Nl ⊎ Il) ⊎ (Nr ⊎ Ir)) by (clear; multiset_solver).
    exact (stored_binary _ _ _ _ _ _ _ _ Gs Sl Sr).
  - now apply (new_rows_node _ s i lo mid); [| apply lookup_insert_eq | ..].
Qed.

Lemma storable_edge nodes owner indices i c p pi t hc h I lo hi : inserting nodes owner indices -> felt_ok h ->
  refers c (pi ++ p) t hc I lo i -> lo <= i < hi -> edge_calculate_hash H hc p = Ret h -> in_use pi (TEdge p t) I ->
  children_known indices (NodeEdge c p) -> storable nodes owner indices i (NodeEdge c p) pi (TEdge p t) h I lo hi.
Proof.
  intros Ins Oh Rc B Eb U Hj.
  destruct (ref_readable nodes owner indices c _ _ _ _ _ _ ChildIndexMissing Ins Rc (in_use_child _ _ _ _ U))
    as (sc & Ec & Oc & Rdc); [intros j ->; apply Hj; cbn; set_solver|].
  exists (StoredEdge sc p). cbn [as_stored]. rewrite Ec. split; [reflexivity|].
  assert (Lp : length p <= 251) by (destruct (use_wf _ _ _ U) as (w & (_ & _ & n' & -> & _) & Hw); lia).
  split; [split; [exact Lp | auto]|]. intros s data Ed Fs. destruct (fresh_row _ _ _ _ Ins Fs) as [F0 Fo].
  destruct (inserted_node lib nodes leaf s h (StoredEdge sc p) data Oh ltac:(cbn; lia) Ed) as [Gs Hs].
  apply (readable_more _ _ _ _ _ _ _ _ _ s (h, data) i (in_use_child _ _ _ _ U) Fs Fo) in Rdc as (Hc' & Nc & Sc & Fc).
  split; [exact (hashed_edge _ _ _ _ _ _ _ _ _ Gs Hs Hc' Eb)|].
  exists ({[+ s +]} ⊎ (Nc ⊎ ∅)). split.
  - replace ({[+ s +]} ⊎ (Nc ⊎ ∅) ⊎ I) with ({[+ s +]} ⊎ (Nc ⊎ I)) by (clear; multiset_solver).
    exact (stored_edge _ _ _ _ _ _ Gs Sc).
  - apply (new_rows_node _ s i lo i); [exact F0 | apply lookup_insert_eq | lia | lia | exact Fc | apply new_rows_empty].
Qed.

Lemma readable_single nodes owner indices i s pi t h row lo hi : inserting nodes owner indices ->
  nodes !! s = None -> lo <= i < hi ->
  hashed (store (<[s := row]> nodes)) H pi s t h -> stored (store (<[s := row]> nodes)) s t {[+ s +]} ->
  readable (<[s := row]> nodes) (<[s := i]> owner) s pi t h ∅ lo hi.
Proof.
  intros Ins Fs B Hh St. split; [exact Hh|]. exists ({[+ s +]} ⊎ (∅ ⊎ ∅)).
  replace ({[+ s +]} ⊎ (∅ ⊎ ∅) ⊎ ∅) with ({[+ s +]} : gmultiset Z) by (clear; multiset_solver). split; [exact St|].
  destruct (fresh_row _ _ _ _ Ins Fs) as [F0 Fo].
  apply (new_rows_node _ s i lo i); [exact F0 | apply lookup_insert_eq | lia | lia | apply new_rows_empty..].
Qed.

Lemma storable_leaf_binary nodes owner indices i pi h lo hi : inserting nodes owner indices -> felt_ok h ->
  lo <= i < hi -> binary_calculate_hash H (val (pi ++ [false])) (val (pi ++ [true])) = Ret h ->
  in_use pi (TBin TLeaf TLeaf) ∅ ->
  storable nodes owner indices i NodeLeafBinary pi (TBin TLeaf TLeaf) h ∅ lo hi.
Proof.
  intros Ins Oh B Eb U. exists StoredLeafBinary. split; [reflexivity|].
  split; [split; [cbn; lia | exact Logic.I]|]. intros s data Ed Fs.
  destruct (inserted_node lib nodes leaf s h StoredLeafBinary data Oh ltac:(cbn; lia) Ed) as [Gs Hs].
  apply (readable_single nodes owner indices); [exact Ins | exact Fs | exact B | | now apply stored_leaf_binary].
  refine (hashed_leaf_binary _ _ _ _ _ _ _ Gs Hs _ _ Eb); cbn; now apply (use_leaves _ _ _ U).
Qed.

Lemma storable_leaf_edge nodes owner indices i pi p h lo hi : inserting nodes owner indices -> felt_ok h ->
  lo <= i < hi -> edge_calculate_hash H (val (pi ++ p)) p = Ret h ->
  in_use pi (TEdge p TLeaf) ∅ ->
  storable nodes owner indices i (NodeLeafEdge p) pi (TEdge p TLeaf) h ∅ lo hi.
Proof.
  intros Ins Oh B Eb U. exists (StoredLeafEdge p). split; [reflexivity|].
  assert (Lp : length p <= 251) by (destruct (use_wf _ _ _ U) as (w & (_ & _ & n' & -> & _) & Hw); lia).
  split; [split; [exact Lp | exact Logic.I]|]. intros s data Ed Fs.
  destruct (inserted_node lib nodes leaf s h (StoredLeafEdge p) data Oh ltac:(cbn; lia) Ed) as [Gs Hs].
  apply (readable_single nodes owner indices); [exact Ins | exact Fs | exact B | | now apply stored_leaf_edge].
  refine (hashed_leaf_edge _ _ _ _ _ _ _ Gs Hs _ Eb); cbn; apply (use_leaves _ _ _ U).
  rewrite <- (app_nil_r p) at 2. now rewrite has_edge_app.
Qed.

Lemma as_stored_spec nodes owner indices i h' n pi t h I lo hi : inserting nodes owner indices ->
  added !! i = Some (h', n) -> refers (Index i) pi t h I lo hi -> in_use pi t I -> children_known indices n ->
  h = h' /\ felt_ok h /\ storable nodes owner indices i n pi t h I lo hi.
Proof.
  intros Ins Ei R U Hj. destruct (use_wf _ _ _ U) as (w & W & Hw).
  destruct (thash_total H val t HH val_ok w pi W Hw) as (h0 & Eh' & Oh).
  pose proof (refers_thash _ _ _ _ _ _ _ _ _ _ _ R) as Eh. rewrite Eh in Eh'. injection Eh' as <-.
  inversion R as [|? ? l r tl tr hl hr ? Il Ir ? mid ? G B1 B2 Rl Rr Eb|? ? c p ? hc ? ? ? ? G B Rc Eb
    |? ? ? ? ? G B Eb|? ? p ? ? ? G B Eb];
    subst; rewrite Ei in G; injection G as -> ->; (split; [reflexivity|]); (split; [exact Oh|]).
  - now apply (storable_binary nodes owner indices i l r pi tl tr hl hr _ _ _ _ mid).
  - now apply (storable_edge nodes owner indices i c p pi _ hc).
  - now apply storable_leaf_binary.
  - now apply storable_leaf_edge.
Qed.

(** A reference to something in use. *)
Definition used (r : NodeRef) : Prop :=
  match r with
  | StorageIndex _ => True
  | Index j => exists pi t h I lo hi, refers (Index j) pi t h I lo hi /\ in_use pi t I
  end.

Lemma used_children i h n r : used (Index i) -> added !! i = Some (h, n) -> r ∈ node_refs n -> used r.
Proof.
  intros (pi & t & h' & I & lo & hi & R & U) Ei Hr. destruct r as [id|j]; [exact Logic.I|].
  inversion R as [|? ? l r tl tr hl hr ? Il Ir ? mid ? G B1 B2 Rl Rr Eb|? ? c p ? hc ? ? ? ? G B Rc Eb
    |? ? ? ? ? G B Eb|? ? p ? ? ? G B Eb];
    subst; rewrite Ei in G; injection G as <- ->; cbn [node_refs] in Hr.
  - apply elem_of_cons in Hr as [<-|Hr]; [|apply list_elem_of_singleton in Hr as <-].
    + do 6 eexists. split; [exact Rr | exact (in_use_right _ _ _ _ _ U)].
    + do 6 eexists. split; [exact Rl | exact (in_use_left _ _ _ _ _ U)].
  - apply list_elem_of_singleton in Hr as <-. do 6 eexists. split; [exact Rc | exact (in_use_child _ _ _ _ U)].
  - inversion Hr.
  - inversion Hr.
Qed.

Definition bounded (nodes : gmap Z (list Z * list Z)) (m : Z) : Prop := forall i, is_Some (nodes !! i) -> (i <= m)%Z.

Lemma inserting_step nodes owner indices i hi n sn data s : inserting nodes owner indices ->
  added !! i = Some (hi, n) -> as_stored n indices = Ok sn -> stored_node_encode lib sn = Ok data ->
  nodes !! s = None -> index_ok s -> children_known indices n ->
  inserting (<[s := (hi, data)]> nodes) (<[s := i]> owner) (<[i := s]> indices).
Proof.
  intros Ins Ei Es Ed Fs Os Hc. split.
  - intros x Hx. rewrite lookup_insert_ne; [exact (ins_keep _ _ _ Ins x Hx)|]. intros <-.
    rewrite (proj1 (fresh_row _ _ _ _ Ins Fs)) in Hx. now destruct Hx.
  - intros x Hx. destruct (decide (x = s)) as [->|N]; [exact Os|].
    rewrite lookup_insert_ne in Hx by congruence. exact (ins_ok _ _ _ Ins x Hx).
  - intros x Hx. destruct (decide (x = s)) as [->|N]; [rewrite lookup_insert_eq; eauto|].
    rewrite lookup_insert_ne in Hx by congruence. rewrite lookup_insert_ne by congruence. exact (ins_owner _ _ _ Ins x Hx).
  - intros j s' Hj. destruct (decide (j = i)) as [->|N].
    + rewrite lookup_insert_eq in Hj. injection Hj as <-. split; [exact Os|]. intros pi t h I lo hi0 R U.
      destruct (as_stored_spec nodes owner indices i hi n pi t h I lo hi0 Ins Ei R U Hc) as (-> & _ & sn' & Es' & _ & Rd).
      rewrite Es in Es'. injection Es' as <-. now apply Rd.
    + rewrite lookup_insert_ne in Hj by congruence. destruct (ins_read _ _ _ Ins j s' Hj) as [Oj Rj].
      split; [exact Oj|]. intros pi t h I lo hi0 R U.
      apply readable_more; [exact U | exact Fs | exact (proj2 (fresh_row _ _ _ _ Ins Fs)) | now apply Rj].
Qed.

(** The order of the insertions: children are inserted before, or known. *)
Definition ordered (indices : gmap nat TrieStorageIndex) (rest : list nat) : Prop :=
  forall a i b h n j, rest = a ++ i :: b -> added !! i = Some (h, n) -> Index j ∈ node_refs n ->
    j ∈ a \/ is_Some (indices !! j).

Lemma ordered_head indices i rest h n : ordered indices (i :: rest) -> added !! i = Some (h, n) ->
  children_known indices n.
Proof. intros Ho Ei j Hj. destruct (Ho [] i rest h n j eq_refl Ei Hj) as [Hj'|Hj']; [inversion Hj' | exact Hj']. Qed.

Lemma ordered_tail indices i rest s : ordered indices (i :: rest) -> ordered (<[i := s]> indices) rest.
Proof.
  intros Ho a x b h' n' j -> Ex Hj. destruct (Ho (i :: a) x b h' n' j eq_refl Ex Hj) as [Hj'|Hj'].
  - apply elem_of_cons in Hj' as [->|Hj']; [right; rewrite lookup_insert_eq; eauto | now left].
  - right. destruct (decide (j = i)) as [->|N]; [rewrite lookup_insert_eq; eauto | now rewrite lookup_insert_ne].
Qed.

(** What the loop leaves. *)
Lemma insert_nodes_sound rest : forall nodes owner indices nodes' indices', inserting nodes owner indices ->
  ordered indices rest -> insert_nodes lib added rest nodes indices = Ok (nodes', indices') ->
  exists owner', inserting nodes' owner' indices' /\
    forall j, j ∈ rest \/ is_Some (indices !! j) -> is_Some (indices' !! j).
Proof.
  induction rest as [|i rest IH]; intros nodes owner indices nodes' indices' Ins Ho E.
  - injection E as <- <-. exists owner. split; [exact Ins|]. intros j [Hj|Hj]; [inversion Hj | exact Hj].
  - cbn [insert_nodes] in E. destruct (added !! i) as [[h n]|] eqn:Ei; [|discriminate].
    destruct (as_stored n indices) as [sn|] eqn:Es; [|discriminate].
    destruct (stored_node_encode lib sn) as [data|] eqn:Ed; [|discriminate].
    destruct (next_idx lib nodes) as [s|] eqn:En; [|discriminate].
    destruct (next_idx_fresh nodes s En) as [Fs Os].
    pose proof (inserting_step nodes owner indices i h n sn data s Ins Ei Es Ed Fs Os (ordered_head _ _ _ _ _ Ho Ei)) as Ins'.
    destruct (IH _ _ _ _ _ Ins' (ordered_tail _ _ _ s Ho) E) as (owner' & Ins2 & Kj).
    exists owner'. split; [exact Ins2|]. intros j Hj. apply Kj.
    destruct (decide (j = i)) as [->|N]; [right; rewrite lookup_insert_eq; eauto|].
    rewrite lookup_insert_ne by congruence. destruct Hj as [[->|Hj]%elem_of_cons|Hj]; auto; congruence.
Qed.

(** The loop succeeds as long as there are indices left. *)
Lemma insert_nodes_total rest : forall nodes owner indices m, inserting nodes owner indices ->
  Forall (fun i => used (Index i)) rest -> ordered indices rest ->
  bounded nodes m -> (0 <= m)%Z -> (m + Z.of_nat (length rest) <= I64_MAX)%Z ->
  exists result, insert_nodes lib added rest nodes indices = Ok result /\
    bounded result.1 (m + Z.of_nat (length rest)).
Proof.
  induction rest as [|i rest IH]; intros nodes owner indices m Ins Hu Ho Hb Hm Hr;
    [eexists; split; [reflexivity | cbn; now rewrite Z.add_0_r]|].
  inversion_clear Hu as [|? ? Hi Hu']. destruct Hi as (pi & t & h & I & lo & hi0 & R & U).
  assert (Ei : exists hi n, added !! i = Some (hi, n)) by (inversion R; eauto). destruct Ei as (hi & n & Ei).
  pose proof (ordered_head _ _ _ _ _ Ho Ei) as Kn.
  destruct (as_stored_spec nodes owner indices i hi n pi t h I lo hi0 Ins Ei R U Kn) as (-> & Oh & sn & Es & Sm & _).
  destruct (node_encodes lib sn Sm) as [data Ed].
  destruct (next_idx_room nodes m Hb) as (s & En & Hs); [cbn [length] in Hr; lia|].
  destruct (next_idx_fresh nodes s En) as [Fs Os].
  cbn [insert_nodes]. rewrite Ei, Es, Ed, En.
  replace (m + Z.of_nat (length (i :: rest)))%Z with (m + 1 + Z.of_nat (length rest))%Z by (cbn [length tnodes]; lia).
  apply (IH _ (<[s := i]> owner) _ (m + 1)%Z); try assumption.
  - now apply (inserting_step nodes owner indices i hi n sn data s).
  - now apply ordered_tail.
  - intros x Hx. destruct (decide (x = s)) as [->|N]; [exact Hs|].
    rewrite lookup_insert_ne in Hx by congruence. specialize (Hb x Hx). lia.
  - lia.
  - cbn [length] in Hr. lia.
Qed.

Lemma elem_of_rev (x : nat) l : x ∈ rev l <-> x ∈ l.
Proof. rewrite !list_elem_of_In. symmetry. apply in_rev. Qed.

(** The whole insertion of what a reference stands for: it gives what can be
    read under the index of the root, and succeeds while there are indices left. *)
Lemma collected_ordered fuel root o : collect fuel added [Index root] [] = Ret (Ok o) -> ordered ∅ (rev o) /\ root ∈ rev o.
Proof.
  intros Eo. destruct (collect_later _ _ _ _ Eo) as [Hin Hlater]. split; [|apply elem_of_rev, Hin; now left].
  intros a i b h n j Er Ei Hj. left. apply (f_equal (@rev nat)) in Er. rewrite rev_involutive, rev_app_distr in Er.
  cbn [rev] in Er. rewrite <- app_assoc in Er. specialize (Hlater _ _ _ _ _ _ Er Ei Hj).
  exact (proj1 (elem_of_rev _ _) Hlater).
Qed.

Lemma inserting_start : nodes_ok nodes0 -> inserting nodes0 ∅ ∅.
Proof.
  intros Ok0. split; [reflexivity | exact Ok0 | intros i Hi; rewrite lookup_empty in Hi; now destruct Hi|].
  intros j s Hj. now rewrite lookup_empty in Hj.
Qed.

Lemma insert_all_sound fuel root o nodes' indices' : nodes_ok nodes0 ->
  collect fuel added [Index root] [] = Ret (Ok o) ->
  insert_nodes lib added (rev o) nodes0 ∅ = Ok (nodes', indices') ->
  exists owner s, indices' !! root = Some s /\ inserting nodes' owner indices' /\
    forall pi t h R lo hi, refers (Index root) pi t h R lo hi -> in_use pi t R ->
      readable nodes' owner s pi t h R lo hi.
Proof.
  intros Ok0 Eo E. destruct (collected_ordered _ _ _ Eo) as [Ho Hroot].
  destruct (insert_nodes_sound (rev o) nodes0 ∅ ∅ nodes' indices' (inserting_start Ok0) Ho E) as (owner & Ins & Kj).
  destruct (Kj root (or_introl Hroot)) as [s Hs]. exists owner, s. split; [exact Hs|]. split; [exact Ins|].
  exact (proj2 (ins_read _ _ _ Ins root s Hs)).
Qed.

Lemma insert_all_total root pi t h R lo hi : refers (Index root) pi t h R lo hi -> in_use pi t R -> nodes_ok nodes0 ->
  exists o, length o <= tnodes t /\
    (forall fuel, 2 * (hi - lo) + 2 <= fuel -> collect fuel added [Index root] [] = Ret (Ok o)) /\
    forall m, bounded nodes0 m -> (0 <= m)%Z -> (m + Z.of_nat (length o) <= I64_MAX)%Z ->
    exists result, insert_nodes lib added (rev o) nodes0 ∅ = Ok result /\ bounded result.1 (m + Z.of_nat (length o)).
Proof.
  intros Rf U Ok0. destruct (collect_total _ _ _ _ _ _ _ _ _ _ _ Rf) as (n & Ln & Hn).
  destruct (Hn 1 [] [] eq_refl) as (o & Eo & Lo). exists o. split; [exact Lo|]. split.
  { intros fuel Hf. replace fuel with ((fuel - (n + 1)) + (n + 1)) by lia. now apply collect_more. }
  intros m Hb Hm Hr. rewrite <- (length_rev o).
  apply (insert_nodes_total (rev o) nodes0 ∅ ∅ m (inserting_start Ok0)); try assumption; [| |now rewrite length_rev].
  - apply Forall_rev. apply (collect_all added used (n + 1) used_children [Index root]); [|exact Eo].
    repeat constructor. cbn. eauto 10.
  - exact (proj1 (collected_ordered _ _ _ Eo)).
Qed.
End Insert.
