(* ===== verification/TrieChain.v ===== *)
(** Successive versions of a stored trie: what a block writes is read back
    later, and pruning keeps the versions it promises to keep. *)

From Stdlib Require Import ZArith Lia Bool List.
From stdpp Require Import gmap gmultiset list sets.
From S2P Require Import Prelude Bytes Felt MerkleNode Tree TrieSpec TreeHash TreeRep TreeOps.
From S2P Require Import TreeMap TreeCommit TreeDfs Pedersen TrieStore TrieInsert.

(** ** Multisets without repetitions *)

Lemma disjoint_once (N R : gmultiset Z) : (forall i, multiplicity i N <= 1) -> (forall i, multiplicity i R <= 1) ->
  (forall i, i ∈ N -> i ∈ R -> False) -> forall i, multiplicity i (N ⊎ R) <= 1.
Proof.
  intros HN HR D i. rewrite multiplicity_disj_union. specialize (HN i). specialize (HR i).
  destruct (decide (i ∈ N)) as [Hi|Hi]; [|apply not_elem_of_multiplicity in Hi; lia].
  destruct (decide (i ∈ R)) as [Hj|Hj]; [exfalso; exact (D i Hi Hj) | apply not_elem_of_multiplicity in Hj; lia].
Qed.

Lemma once_sub (A B I : gmultiset Z) : I = A ⊎ B -> (forall i, multiplicity i I <= 1) ->
  (forall i, multiplicity i B <= 1) /\ forall i, i ∈ A -> i ∈ B -> False.
Proof.
  intros -> O. split; intros i.
  - specialize (O i). rewrite multiplicity_disj_union in O. lia.
  - intros Ha Hb. specialize (O i). rewrite multiplicity_disj_union in O.
    assert (0 < multiplicity i A) by (now apply elem_of_multiplicity).
    assert (0 < multiplicity i B) by (now apply elem_of_multiplicity). lia.
Qed.

Section Chain.
Context (lib : Libraries) {laws : LibraryLaws lib} (H : Felt -> Felt -> outcome Felt) {HH : FeltHash H}.
Context (HEIGHT : nat) (HEIGHT_pos : 0 < HEIGHT) (HEIGHT_max : HEIGHT <= 251).

(** ** Versions *)

(** The leaves of a version, which other tables hold. *)
Definition leaf_of (M : gmap bits Felt) (k : bits) : outcome (result StoreError (option Felt)) := Ret (Ok (M !! k)).

Definition store_of (nodes : gmap Z (list Z * list Z)) (M : gmap bits Felt) : Storage StoreError :=
  table_storage lib nodes (leaf_of M).

(** The root of a version, the map it stands for and its nodes. *)
Record version : Type := MkVersion {
  v_root : option TrieStorageIndex;
  v_map : gmap bits Felt;
  v_live : gmultiset Z
}.

Record version_ok (nodes : gmap Z (list Z * list Z)) (v : version) : Prop := {
  ver_values : forall k x, v_map v !! k = Some x -> length k = HEIGHT /\ felt_ok x;
  ver_once : forall i, multiplicity i (v_live v) <= 1;
  ver_shape :
    match v_root v with
    | None => v_map v = ∅ /\ v_live v = ∅
    | Some idx => exists t h, hashed (store_of nodes (v_map v)) H [] idx t h /\
        stored (store_of nodes (v_map v)) idx t (v_live v) /\ wf HEIGHT t /\ keys_of HEIGHT t (v_map v)
    end
}.

(** [MerkleTree::new] or [MerkleTree::empty], as the root says, and
    [with_verify_hashes]. *)
Definition load (root : option TrieStorageIndex) (verify : bool) (m : Mem) : state :=
  let '(t, m) :=
    match root with
    | None => (tree_empty, m)
    | Some idx => tree_new idx m
    end in
  (with_verify_hashes verify t, m).

(** A table of leaves has the values of a map. *)
Definition covers (leaf : bits -> outcome (result StoreError (option Felt))) (M : gmap bits Felt) : Prop :=
  forall k x, M !! k = Some x -> leaf k = Ret (Ok (Some x)).

Lemma leaf_of_covers M : covers (leaf_of M) M.
Proof. intros k x E. unfold leaf_of. now rewrite E. Qed.

(** A stored trie with the leaves of its map can be read with any table that
    has them. *)
Lemma hashed_covers nodes nodes' leaf leaf' M idx t h I : covers leaf M -> covers leaf' M -> wf HEIGHT t ->
  keys_of HEIGHT t M -> hashed (table_storage lib nodes leaf) H [] idx t h ->
  stored (table_storage lib nodes leaf) idx t I -> (forall i, i ∈ I -> nodes' !! i = nodes !! i) ->
  hashed (table_storage lib nodes' leaf') H [] idx t h /\ stored (table_storage lib nodes' leaf') idx t I.
Proof.
  intros C C' W Hk Hh St Hr.
  assert (Hm : forall k, has t k = true -> M !! k = Some (map_value M k)).
  { intros k Hin. pose proof (Hk k (has_length _ _ _ W Hin)) as E. rewrite Hin in E. symmetry in E.
    apply bool_decide_eq_true in E as [x E]. unfold map_value. now rewrite E. }
  apply (hashed_same lib H nodes nodes' leaf leaf' (map_value M) [] idx t h Hh I St Hr).
  - intros k x Hin. cbn. rewrite (C k _ (Hm k Hin)). now intros [= ->].
  - intros k Hin. exact (C' k _ (Hm k Hin)).
Qed.

Lemma version_read nodes v leaf : version_ok nodes v -> covers leaf (v_map v) ->
  match v_root v with
  | None => v_map v = ∅ /\ v_live v = ∅
  | Some idx => exists t h, hashed (table_storage lib nodes leaf) H [] idx t h /\
      stored (table_storage lib nodes leaf) idx t (v_live v) /\ wf HEIGHT t /\ keys_of HEIGHT t (v_map v)
  end.
Proof.
  intros [_ _ Sh] C. destruct (v_root v) as [idx|]; [|exact Sh]. destruct Sh as (t & h & Hh & St & W & Hk).
  exists t, h. destruct (hashed_covers nodes nodes _ leaf (v_map v) idx t h (v_live v) (leaf_of_covers _) C W Hk Hh St);
    auto.
Qed.

Lemma verify_represents {E} (storage : Storage E) P M I0 t m verify :
  represents storage HEIGHT P M I0 (t, m) -> represents storage HEIGHT P M I0 (with_verify_hashes verify t, m).
Proof. intros [K Sh V]. split; [exact K | exact Sh | exact V]. Qed.

Lemma load_represents nodes v leaf verify m : version_ok nodes v -> covers leaf (v_map v) -> mem_ok m ->
  represents (table_storage lib nodes leaf) HEIGHT (known (table_storage lib nodes leaf) H) (v_map v) (v_live v)
    (load (v_root v) verify m).
Proof.
  intros V C K. pose proof (version_read nodes v leaf V C) as Sh. unfold load. destruct (v_root v) as [idx|].
  - destruct Sh as (t & h & Hh & St & W & Hk). destruct (tree_new idx m) as [tr m'] eqn:En.
    apply verify_represents. rewrite <- En. apply (new_represents _ _ _ idx t); try assumption.
    + now exists h.
    + intros k x Hx. split; [now apply (ver_values _ _ V k x) | now apply C].
  - destruct Sh as [-> ->]. apply verify_represents. now apply empty_represents.
Qed.

(** A version is still there when its rows are. *)
Lemma version_same nodes nodes' v : version_ok nodes v ->
  (forall i, i ∈ v_live v -> nodes' !! i = nodes !! i) -> version_ok nodes' v.
Proof.
  intros [Vs On Sh] Hr. split; [exact Vs | exact On|]. destruct (v_root v) as [idx|]; [|exact Sh].
  destruct Sh as (t & h & Hh & St & W & Hk). exists t, h.
  destruct (hashed_covers nodes nodes' _ _ (v_map v) idx t h (v_live v) (leaf_of_covers _) (leaf_of_covers _) W Hk Hh St Hr);
    auto.
Qed.

Lemma version_rows nodes v i : version_ok nodes v -> i ∈ v_live v -> is_Some (nodes !! i).
Proof.
  intros [_ _ Sh] Hi. destruct (v_root v) as [idx|].
  - destruct Sh as (t & h & _ & St & _). exact (stored_rows _ _ _ _ _ _ St i Hi).
  - destruct Sh as [_ E]. rewrite E in Hi. exfalso. clear -Hi. multiset_solver.
Qed.

(** ** One update *)

Definition next_root (r : RootIndexUpdate) (old : option TrieStorageIndex) : option TrieStorageIndex :=
  match r with
  | Unchanged => old
  | Updated idx => Some idx
  | TrieEmpty => None
  end.

Definition updates_ok (us : list (bits * Felt)) : Prop :=
  Forall (fun kv => length kv.1 = HEIGHT /\ felt_ok kv.2) us.

Lemma map_set_values us : updates_ok us -> forall M,
  (forall k x, M !! k = Some x -> length k = HEIGHT /\ felt_ok x) ->
  forall k x, map_set_all us M !! k = Some x -> length k = HEIGHT /\ felt_ok x.
Proof.
  induction 1 as [|[key v] us [Hk Hv] Hus IH]; intros M HM k x; [apply HM|].
  apply (IH (map_set key v M)). intros k' x'. unfold map_set. destruct (felt_eqb v FELT_ZERO).
  - intros [_ E]%lookup_delete_Some. eauto.
  - intros [[<- <-]|[_ E]]%lookup_insert_Some; eauto.
Qed.

(** Each added node and each reference is processed once. *)
Definition insert_fuel (upd : TrieUpdate) : nat := 2 * length (nodes_added upd) + 2.

(** What inserting an update into a table gives: the version after it, and that
    it succeeds while there are indices left. *)
Record inserts (nodes0 : gmap Z (list Z * list Z)) (upd : TrieUpdate) (root : option TrieStorageIndex)
    (M : gmap bits Felt) (R : gmultiset Z) : Prop := {
  inserts_sound fuel rem r T' : insert_added lib fuel upd (MkTable nodes0 rem) = Ret (Ok (r, T')) ->
    removals T' = rem /\ (forall i, is_Some (nodes0 !! i) -> rows T' !! i = nodes0 !! i) /\ nodes_ok (rows T') /\
    exists N, (forall i, i ∈ N -> nodes0 !! i = None) /\
      version_ok (rows T') (MkVersion (next_root r root) M (N ⊎ R));
  inserts_total fuel mx rem : insert_fuel upd <= fuel -> bounded nodes0 mx -> (0 <= mx)%Z ->
    (mx + Z.of_nat (3 * size M) <= I64_MAX)%Z ->
    exists r T', insert_added lib fuel upd (MkTable nodes0 rem) = Ret (Ok (r, T')) /\
      bounded (rows T') (mx + Z.of_nat (3 * size M));
  inserts_returns fuel rem : insert_fuel upd <= fuel -> insert_added lib fuel upd (MkTable nodes0 rem) <> Panic
}.

(** A trie has at most three nodes a key. *)
Lemma tnodes_leaves t : forall n pi, wf n t ->
  tnodes t + (if is_edge t then 2 else 3) <= 3 * length (tleaves pi t).
Proof.
  induction t as [|l IHl r IHr|p c IHc]; intros n pi; cbn [wf tnodes is_edge tleaves length]; [lia| |].
  - intros (n' & _ & Wl & Wr). specialize (IHl n' (pi ++ [false]) Wl). specialize (IHr n' (pi ++ [true]) Wr).
    rewrite length_app. destruct (is_edge l), (is_edge r); lia.
  - intros (_ & Ec & n' & _ & Wc). specialize (IHc n' (pi ++ p) Wc). rewrite Ec in IHc. lia.
Qed.

Lemma tnodes_size (t : trie) (M : gmap bits Felt) : wf HEIGHT t -> keys_of HEIGHT t M -> tnodes t <= 3 * size M.
Proof.
  intros W Hk. pose proof (tnodes_leaves t HEIGHT [] W) as L.
  assert (Ls : length (tleaves [] t) <= length ((map_to_list M).*1)).
  { apply NoDup_incl_length; [apply NoDup_ListNoDup, bits_sorted_NoDup, tleaves_sorted|]. intros k Hin%list_elem_of_In.
    apply tleaves_has in Hin as (k' & -> & Hin). pose proof (Hk k' (has_length _ _ _ W Hin)) as E. rewrite Hin in E.
    symmetry in E. apply bool_decide_eq_true in E as [x E]. apply list_elem_of_In, list_elem_of_fmap. exists (k', x).
    split; [reflexivity|]. now apply elem_of_map_to_list. }
  rewrite length_fmap in Ls. rewrite <- (length_map_to_list M). destruct (is_edge t); lia.
Qed.

Lemma map_value_ok (M : gmap bits Felt) : (forall k x, M !! k = Some x -> length k = HEIGHT /\ felt_ok x) ->
  forall k, felt_ok (map_value M k).
Proof.
  intros HM k. unfold map_value. destruct (M !! k) as [x|] eqn:E; cbn; [now apply (HM k x) | exact FELT_ZERO_ok].
Qed.

(** An update without new nodes leaves the table as it is. *)
Lemma inserts_nothing nodes0 upd root M R : nodes_ok nodes0 -> nodes_added upd = [] ->
  version_ok nodes0 (MkVersion (next_root
    match update_nodes_removed upd with
    | _ :: _ => if felt_eqb (root_commitment upd) FELT_ZERO then TrieEmpty else Unchanged
    | [] => Unchanged
    end root) M R) -> inserts nodes0 upd root M R.
Proof.
  intros Ok0 Ea V.
  assert (E : forall fuel T, insert_added lib fuel upd T = Ret (Ok (match update_nodes_removed upd with
    | _ :: _ => if felt_eqb (root_commitment upd) FELT_ZERO then TrieEmpty else Unchanged
    | [] => Unchanged
    end, T))).
  { intros fuel T. unfold insert_added. rewrite Ea.
    destruct (update_nodes_removed upd); [|destruct (felt_eqb _ _)]; reflexivity. }
  split.
  - intros fuel rem r T' Ei. rewrite E in Ei. injection Ei as <- <-. split; [reflexivity|]. split; [reflexivity|].
    split; [exact Ok0|]. exists ∅. split; [intros i Hi; exfalso; clear -Hi; multiset_solver|].
    replace (∅ ⊎ R) with R by (clear; multiset_solver). exact V.
  - intros fuel mx rem _ Hb _ _. rewrite E. do 2 eexists. split; [reflexivity|].
    intros i Hi. specialize (Hb i Hi). cbn [rows] in *. lia.
  - intros fuel rem _. now rewrite E.
Qed.

Lemma inserts_nodes (M : gmap bits Felt) old leaf root nodes0 upd t h R : nodes_ok old -> nodes_ok nodes0 ->
  (forall k x, M !! k = Some x -> length k = HEIGHT /\ felt_ok x) -> wf HEIGHT t -> keys_of HEIGHT t M ->
  nodes_added upd <> [] ->
  refers (table_storage lib old leaf) H (nodes_added upd) (map_value M) (Index (length (nodes_added upd) - 1)) [] t h R
    0 (length (nodes_added upd)) ->
  (forall i, multiplicity i R <= 1) -> (forall i, i ∈ R -> is_Some (old !! i)) ->
  (forall i, i ∈ R -> nodes0 !! i = old !! i) -> inserts nodes0 upd root M R.
Proof.
  intros Kold Ok0 HM W Hk Ne Rf On Hold Hr.
  assert (U : in_use old nodes0 (leaf_of M) (map_value M) [] t R).
  { split; [eauto | | exact Hr]. intros k Hin. cbn. unfold leaf_of, map_value.
    pose proof (Hk k (has_length _ _ _ W Hin)) as E. rewrite Hin in E. symmetry in E.
    apply bool_decide_eq_true in E as [x ->]. reflexivity. }
  assert (Ei : forall fuel rem, insert_added lib fuel upd (MkTable nodes0 rem) =
    try (collect fuel (nodes_added upd) [Index (length (nodes_added upd) - 1)] []) (fun o =>
      match insert_nodes lib (nodes_added upd) (rev o) nodes0 ∅ with
      | Err e => Ret (Err e)
      | Ok (nodes, indices) =>
          match indices !! (length (nodes_added upd) - 1) with
          | None => Panic
          | Some idx => Ret (Ok (Updated idx, MkTable nodes rem))
          end
      end)) by (intros; unfold insert_added; destruct (nodes_added upd); [easy | reflexivity]).
  pose proof (insert_all_sound lib H old nodes0 leaf (leaf_of M) (nodes_added upd) (map_value M)
    (map_value_ok M HM) Kold) as Snd.
  destruct (insert_all_total lib H old nodes0 leaf (leaf_of M) (nodes_added upd) (map_value M)
    (map_value_ok M HM) Kold _ [] t h R _ _ Rf U Ok0) as (o & Lo & Hc & Hi). rewrite Nat.sub_0_r in Hc.
  pose proof (tnodes_size t M W Hk) as Lt.
  split.
  - clear o Lo Hc Hi. intros fuel rem r T' E. rewrite Ei in E.
    destruct (collect fuel _ _ []) as [[o|]|] eqn:Eo; try discriminate. cbn [try] in E.
    destruct (insert_nodes lib _ (rev o) nodes0 ∅) as [[nodes' indices']|] eqn:En; [|discriminate].
    destruct (Snd fuel _ o nodes' indices' Ok0 Eo En) as (owner & s & Es & Ins & Rd). rewrite Es in E.
    injection E as <- <-. destruct (Rd [] t h R _ _ Rf U) as (Hh & N & St & HN). cbn [rows removals next_root].
    split; [reflexivity|]. split; [exact (ins_keep _ _ _ _ _ _ _ _ _ _ _ Ins)|].
    split; [exact (ins_ok _ _ _ _ _ _ _ _ _ _ _ Ins)|]. exists N.
    split; [intros i Hin; exact (proj1 (new_owner _ _ _ _ _ HN i Hin))|].
    split; cbn [v_map v_live v_root]; [exact HM | | exists t, h; auto].
    apply disjoint_once; [exact (new_once _ _ _ _ _ HN) | exact On|]. intros i Ha Hb'.
    pose proof (proj1 (new_owner _ _ _ _ _ HN i Ha)) as E0. rewrite (Hr i Hb') in E0.
    destruct (Hold i Hb'). congruence.
  - intros fuel mx rem Hf Hb Hm Hroom. rewrite Ei, (Hc fuel Hf). cbn [try].
    destruct (Hi mx Hb Hm ltac:(lia)) as ([nodes' indices'] & En & Hb'). rewrite En.
    destruct (Snd fuel _ o nodes' indices' Ok0 (Hc fuel Hf) En) as (owner & s & -> & _).
    do 2 eexists. split; [reflexivity|]. intros i Hin. specialize (Hb' i Hin). lia.
  - intros fuel rem Hf. rewrite Ei, (Hc fuel Hf). cbn [try].
    destruct (insert_nodes lib _ (rev o) nodes0 ∅) as [[nodes' indices']|] eqn:En; [|discriminate].
    now destruct (Snd fuel _ o nodes' indices' Ok0 (Hc fuel Hf) En) as (owner & s & -> & _).
Qed.

(** A trie is loaded, keys are set and the result is committed. *)
Definition update_trie (nodes : gmap Z (list Z * list Z)) (leaf : bits -> outcome (result StoreError (option Felt)))
    (root : option TrieStorageIndex) (verify : bool) (us : list (bits * Felt)) (m : Mem)
    : outcome (result (TreeError StoreError) TrieUpdate) :=
  let storage := table_storage lib nodes leaf in
  match set_all storage HEIGHT us (load root verify m) with
  | Panic => Panic
  | Ret (Err e, _) => Ret (Err e)
  | Ret (Ok _, st) => commit storage H HEIGHT st
  end.

(** Without changes nothing is written. *)
Lemma update_nothing nodes leaf v verify m : version_ok nodes v -> covers leaf (v_map v) ->
  exists h, update_trie nodes leaf (v_root v) verify [] m = Ret (Ok (MkTrieUpdate [] [] h)) /\
    spec_root H HEIGHT (fun k => v_map v !! k) = Ret h.
Proof.
  intros V C. pose proof (version_read nodes v leaf V C) as Sh. unfold update_trie, load. cbn [set_all].
  destruct (v_root v) as [idx|].
  - destruct Sh as (t & h & Hh & St & W & Hk). exists h. unfold commit, tree_new, borrow.
    cbn [with_verify_hashes root cells mem_alloc].
    rewrite lookup_insert_eq. cbn [try]. unfold stored_hash. rewrite (hashed_stored_hash _ _ _ _ _ _ Hh).
    split; [reflexivity|]. rewrite (map_root H HEIGHT t _ W Hk). apply (hashed_thash _ _ _ _ _ _ _ Hh).
    intros k x Hin. cbn. pose proof (Hk k (has_length _ _ _ W Hin)) as E. rewrite Hin in E. symmetry in E.
    apply bool_decide_eq_true in E as [y E]. rewrite (C k y E). unfold map_value. rewrite E. now intros [= ->].
  - destruct Sh as [-> _]. exists FELT_ZERO. split; [reflexivity|]. apply spec_root_none. intros. apply lookup_empty.
Qed.

Lemma empty_root nodes v : version_ok nodes v -> v_live v = ∅ -> v_root v = None.
Proof.
  intros [_ _ Sh] E. destruct (v_root v) as [idx|]; [|reflexivity]. destruct Sh as (t & h & _ & St & _).
  assert (Hi : idx ∈ v_live v) by (clear -St; destruct St; multiset_solver).
  exfalso. rewrite E in Hi. clear -Hi. multiset_solver.
Qed.

(** Updating a version gives the commitment of the new map, and the nodes of the
    old version are removed or remain in use in the new one. *)
Lemma update_version old leaf v verify us m : version_ok old v -> covers leaf (v_map v) -> nodes_ok old ->
  updates_ok us -> mem_ok m ->
  exists upd R, update_trie old leaf (v_root v) verify us m = Ret (Ok upd) /\
    spec_root H HEIGHT (fun k => map_set_all us (v_map v) !! k) = Ret (root_commitment upd) /\
    v_live v = indices (update_nodes_removed upd) ⊎ R /\
    (us <> [] -> nodes_added upd <> [] \/ map_set_all us (v_map v) = ∅) /\
    forall nodes0, nodes_ok nodes0 -> (forall i, i ∈ R -> nodes0 !! i = old !! i) ->
      inserts nodes0 upd (v_root v) (map_set_all us (v_map v)) R.
Proof.
  intros V C Kold Hus K. pose proof (load_represents old v leaf verify m V C K) as Rp.
  assert (Hk : Forall (fun kv : bits * Felt => length kv.1 = HEIGHT) us)
    by (eapply Forall_impl; [exact Hus | now intros ? []]).
  destruct (set_all_refines _ HEIGHT HEIGHT_pos _ (known_closed _ H) us _ _ _ Rp Hk) as (st & Es & Rp' & St).
  pose proof (map_set_values us Hus _ (ver_values _ _ V)) as HM.
  destruct St as [[_ ->]|St].
  { destruct (update_nothing old leaf v verify m V C) as (h & Eu & Er). exists (MkTrieUpdate [] [] h), (v_live v).
    split; [exact Eu|]. split; [exact Er|]. split; [cbn [update_nodes_removed]; rewrite indices_nil; clear; multiset_solver|].
    split; [easy|]. intros nodes0 Ok0 Hr. apply inserts_nothing; [exact Ok0 | reflexivity|]. cbn [update_nodes_removed next_root].
    destruct v as [vr vm vl]. exact (version_same old nodes0 _ V Hr). }
  destruct (map_root_total _ H HEIGHT _ _ _ HH HEIGHT_max Rp') as (h & Er & Oh);
    [intros k x Hx; now apply (HM k x)|].
  destruct (commit_spec _ H HEIGHT _ _ st h HEIGHT_pos Rp' Er) as (upd & R & Ec & <- & EI & Hu).
  exists upd, R. unfold update_trie. cbv zeta. rewrite Es. split; [exact Ec|]. split; [exact Er|]. split; [exact EI|].
  assert (Dec : nodes_added upd <> [] \/ map_set_all us (v_map v) = ∅).
  { unfold update_of in Hu. destruct (root st.1) as [l|] eqn:Hl; [|right; exact (proj1 Hu)]. left.
    destruct Hu as (t & _ & _ & Hu). destruct (cells st.2 !! l) as [[idx|bn|en|]|] eqn:Hc; try exact (proj1 Hu).
    exfalso. exact (St l idx Hl Hc). }
  split; [auto|]. intros nodes0 Ok0 Hr. destruct (once_sub _ _ _ EI (ver_once _ _ V)) as [On Dis].
  assert (Hold : forall i, i ∈ R -> is_Some (old !! i)).
  { intros i Hi. apply (version_rows old v i V). rewrite EI. clear -Hi. multiset_solver. }
  unfold update_of in Hu. destruct (root st.1) as [l|] eqn:Hl.
  - destruct Hu as (t & W & Hkeys & Hu).
    assert (Cs : nodes_added upd <> [] /\ refers (table_storage lib old leaf) H (nodes_added upd)
        (map_value (map_set_all us (v_map v))) (Index (length (nodes_added upd) - 1)) [] t (root_commitment upd) R
        0 (length (nodes_added upd))).
    { destruct (cells st.2 !! l) as [[idx|bn|en|]|] eqn:Hc; try exact Hu. exfalso. exact (St l idx Hl Hc). }
    destruct Cs as [Ne Rf]. now apply (inserts_nodes _ old leaf (v_root v) nodes0 upd t (root_commitment upd)).
  - destruct Hu as (EM & Ea & ->). rewrite EM in *. apply inserts_nothing; [exact Ok0 | exact Ea|].
    rewrite spec_root_none in Er by (intros; apply lookup_empty). injection Er as Eh.
    split; cbn [v_map v_live v_root]; [exact HM | intros i; rewrite multiplicity_empty; lia|].
    destruct (update_nodes_removed upd) as [|x rm] eqn:Erm; cbn [next_root].
    + rewrite (empty_root old v V); [auto|]. rewrite EI, indices_nil. clear. multiset_solver.
    + rewrite <- Eh, (proj2 (felt_eqb_eq _ _) eq_refl). cbn [next_root]. auto.
Qed.
End Chain.
