(* ===== verification/RootTables.v ===== *)
(** The tables that give the root of a trie, or the state hash of a contract, at
    a block (storage/src/connection/trie.rs, and the purge of a block in
    storage/src/connection/block.rs).  A row holds from its block on, until
    the next row. *)

From Stdlib Require Import ZArith Lia Bool List.
From stdpp Require Import gmap list.
From S2P Require Import Prelude Bytes Felt MerkleNode TrieStore TrieChain.
Local Open Scope Z_scope.

(** ** Code *)

Section Table.
Context {V : Type}.

(** [SELECT block_number .. WHERE block_number <= ? ORDER BY block_number DESC LIMIT 1]
    over a table with one row for a block. *)
Definition last_block (t : gmap Z V) (block : Z) : option Z :=
  map_fold (fun k _ acc =>
    if k <=? block then Some (match acc with Some a => Z.max a k | None => k end) else acc) None t.

Definition query_last (t : gmap Z V) (block : Z) : option V :=
  match last_block t block with
  | Some k => t !! k
  | None => None
  end.

(** The last row up to a block remains, for the blocks after it. *)
Definition delete_before (before_block : Z) (t : gmap Z V) : gmap Z V :=
  match last_block t before_block with
  | Some last => filter (fun row => last <= row.1) t
  | None => t
  end.
End Table.

(** [class_roots] and [storage_roots]: the primary key is the block.  The index
    is NULL for an empty trie. *)
Abbreviation Roots := (gmap Z (option TrieStorageIndex)).

Definition root_index (roots : Roots) (block : Z) : option TrieStorageIndex :=
  match query_last roots block with
  | Some index => index
  | None => None
  end.

Definition root_exists (roots : Roots) (block : Z) : bool := bool_decide (is_Some (roots !! block)).

(** The hash of the root's row in the trie's table. *)
Definition root_hash (table : TrieTable) (roots : Roots) (block : Z) : result StoreError (option Felt) :=
  match root_index roots block with
  | Some index => TrieStore.trie_node_hash table index
  | None => Ok None
  end.

Definition insert_root (mode : TriePruneMode) (block_number : Z) (update : RootIndexUpdate) (roots : Roots) : Roots :=
  let write new_root_index :=
    let roots := <[block_number := new_root_index]> roots in
    match mode with
    | Archive => roots
    | Prune num_blocks_kept =>
        match checked_sub block_number num_blocks_kept with
        | Some block_number => delete_before block_number roots
        | None => roots
        end
    end in
  match update with
  | Unchanged => roots
  | Updated idx => write (Some idx)
  | TrieEmpty => write None
  end.

(** [contract_roots]: unique in the contract and the block. *)
Abbreviation ContractRoots := (gmap Felt Roots).

Definition contract_roots_of (t : ContractRoots) (contract : Felt) : Roots := default ∅ (t !! contract).

Definition contract_root_index (t : ContractRoots) (block : Z) (contract : Felt) : option TrieStorageIndex :=
  root_index (contract_roots_of t contract) block.

Definition contract_root (table : TrieTable) (t : ContractRoots) (block : Z) (contract : Felt)
    : result StoreError (option Felt) :=
  root_hash table (contract_roots_of t contract) block.

Definition insert_contract_root (mode : TriePruneMode) (block_number : Z) (contract : Felt) (update : RootIndexUpdate)
    (t : ContractRoots) : ContractRoots :=
  <[contract := insert_root mode block_number update (contract_roots_of t contract)]> t.

(** [contract_state_hashes]: no index of the table is unique, so that a row is
    never replaced. *)
Definition StateHashes : Type := list (Z * Felt * Felt).

Definition hash_rows (t : StateHashes) (contract : Felt) (block : Z) : list Z :=
  map (fun row => row.1.1)
    (List.filter (fun row => bool_decide (row.1.2 = contract) && (row.1.1 <=? block)) t).

Definition last_hash_block (t : StateHashes) (contract : Felt) (block : Z) : option Z :=
  match hash_rows t contract block with
  | [] => None
  | k :: ks => Some (fold_left Z.max ks k)
  end.

Definition insert_contract_state_hash (mode : TriePruneMode) (block_number : Z) (contract state_hash : Felt)
    (t : StateHashes) : StateHashes :=
  let t := t ++ [(block_number, contract, state_hash)] in
  match mode with
  | Archive => t
  | Prune num_blocks_kept =>
      match checked_sub block_number num_blocks_kept with
      | None => t
      | Some before_block =>
          match last_hash_block t contract before_block with
          | None => t
          | Some last => List.filter (fun row => negb (bool_decide (row.1.2 = contract) && (row.1.1 <? last))) t
          end
      end
  end.

(** [ORDER BY block_number DESC LIMIT 1]: any of the rows of the last block. *)
Definition contract_state_hash (t : StateHashes) (block : Z) (contract : Felt) (h : Felt) : Prop :=
  exists last, last_hash_block t contract block = Some last /\ (last, contract, h) ∈ t.

(** [purge_block], on what belongs to one trie. *)
Definition purge_block (block : Z) (db : TrieTable * Roots) : TrieTable * Roots :=
  (MkTable (rows db.1) (List.filter (fun row => negb (row.1 =? block)) (removals db.1)), delete block db.2).

(** The [while new_head >= reorg_tail] of [l2_reorg]. *)
Fixpoint purge_blocks (n : nat) (new_head : Z) (db : TrieTable * Roots) : TrieTable * Roots :=
  match n with
  | O => db
  | S n => purge_blocks n (new_head - 1) (purge_block new_head db)
  end.

(** ** Facts *)

Section Facts.
Context {V : Type}.

Lemma last_block_spec (t : gmap Z V) b :
  match last_block t b with
  | Some k => is_Some (t !! k) /\ k <= b /\ forall j, is_Some (t !! j) -> j <= b -> j <= k
  | None => forall j, is_Some (t !! j) -> b < j
  end.
Proof.
  unfold last_block. apply (map_fold_weak_ind (fun acc (t : gmap Z V) =>
    match acc with
    | Some k => is_Some (t !! k) /\ k <= b /\ forall j, is_Some (t !! j) -> j <= b -> j <= k
    | None => forall j, is_Some (t !! j) -> b < j
    end)).
  - intros j [x Hj]. now rewrite lookup_empty in Hj.
  - intros i x t' acc Hi IH.
    assert (Old : forall j, is_Some (<[i := x]> t' !! j) -> j = i \/ is_Some (t' !! j)).
    { intros j. destruct (decide (j = i)); [now left|]. rewrite lookup_insert_ne by congruence. now right. }
    assert (New : forall j, is_Some (t' !! j) -> is_Some (<[i := x]> t' !! j)).
    { intros j Hj. destruct (decide (j = i)) as [->|]; [rewrite lookup_insert_eq; eauto|].
      now rewrite lookup_insert_ne by congruence. }
    assert (Self : is_Some (<[i := x]> t' !! i)) by (rewrite lookup_insert_eq; eauto).
    destruct (Z.leb_spec i b) as [Hb|Hb]; destruct acc as [a|].
    + destruct IH as (Sa & La & Ma). split; [|split; [lia|]].
      * destruct (Z.max_spec a i) as [[_ ->]|[_ ->]]; [exact Self | exact (New a Sa)].
      * intros j Hj Hjb. destruct (Old j Hj) as [->|Hj']; [lia|]. specialize (Ma j Hj' Hjb). lia.
    + split; [exact Self|]. split; [lia|]. intros j Hj Hjb. destruct (Old j Hj) as [->|Hj']; [lia|].
      specialize (IH j Hj'). lia.
    + destruct IH as (Sa & La & Ma). split; [exact (New a Sa)|]. split; [lia|]. intros j Hj Hjb.
      destruct (Old j Hj) as [->|Hj']; [lia|]. exact (Ma j Hj' Hjb).
    + intros j Hj. destruct (Old j Hj) as [->|Hj']; [lia | exact (IH j Hj')].
Qed.

Lemma last_block_unique (t : gmap Z V) b k : is_Some (t !! k) -> k <= b ->
  (forall j, is_Some (t !! j) -> j <= b -> j <= k) -> last_block t b = Some k.
Proof.
  intros Hk Lk Mk. pose proof (last_block_spec t b) as Sp. destruct (last_block t b) as [k'|].
  - destruct Sp as (Hk' & Lk' & Mk'). f_equal. specialize (Mk k' Hk' Lk'). specialize (Mk' k Hk Lk). lia.
  - specialize (Sp k Hk). lia.
Qed.

Lemma last_block_none (t : gmap Z V) b : (forall j, is_Some (t !! j) -> b < j) -> last_block t b = None.
Proof.
  intros Hj. pose proof (last_block_spec t b) as Sp. destruct (last_block t b) as [k|]; [|reflexivity].
  destruct Sp as (Hk & Lk & _). specialize (Hj k Hk). lia.
Qed.

(** A query depends on the rows from the last one up to the block only. *)
Lemma query_last_ext (t t' : gmap Z V) b : (forall k, k <= b -> t' !! k = t !! k) -> query_last t' b = query_last t b.
Proof.
  intros Ht. unfold query_last. pose proof (last_block_spec t b) as Sp. destruct (last_block t b) as [k|].
  - destruct Sp as (Hk & Lk & Mk). rewrite (last_block_unique t' b k); [now apply Ht | now rewrite Ht | exact Lk|].
    intros j Hj Lj. rewrite Ht in Hj by lia. now apply Mk.
  - rewrite last_block_none; [reflexivity|]. intros j Hj. destruct (Z.le_gt_cases j b); [|lia].
    rewrite Ht in Hj by lia. exact (Sp j Hj).
Qed.

Lemma query_last_row (t : gmap Z V) b v : t !! b = Some v -> query_last t b = Some v.
Proof.
  intros Hb. unfold query_last. rewrite (last_block_unique t b b); [exact Hb | eauto | lia | auto].
Qed.

(** Without rows in between, two blocks have the same answer. *)
Lemma query_last_gap (t : gmap Z V) a b : a <= b -> (forall k, a < k <= b -> t !! k = None) ->
  query_last t b = query_last t a.
Proof.
  intros Hab Hn. unfold query_last. pose proof (last_block_spec t a) as Sp. destruct (last_block t a) as [k|].
  - destruct Sp as (Hk & Lk & Mk). rewrite (last_block_unique t b k); [reflexivity | exact Hk | lia|].
    intros j Hj Lj. destruct (Z.le_gt_cases j a); [now apply Mk|]. rewrite Hn in Hj by lia. now destruct Hj.
  - rewrite last_block_none; [reflexivity|]. intros j Hj. specialize (Sp j Hj).
    destruct (Z.le_gt_cases j b); [|lia]. rewrite Hn in Hj by lia. now destruct Hj.
Qed.

Lemma delete_before_lookup before (t : gmap Z V) k : delete_before before t !! k = t !! k \/
  delete_before before t !! k = None /\ exists last, last_block t before = Some last /\ k < last.
Proof.
  unfold delete_before. destruct (last_block t before) as [last|]; [|now left].
  destruct (Z.le_gt_cases last k) as [L|L].
  - left. destruct (t !! k) as [v|] eqn:Hk.
    + now apply map_lookup_filter_Some_2.
    + now apply map_lookup_filter_None_2; left.
  - right. split; [|eauto]. apply map_lookup_filter_None_2. right. intros v _. cbn. lia.
Qed.

(** Deleting old rows changes no answer from the given block on. *)
Lemma delete_before_query before (t : gmap Z V) b : before <= b ->
  query_last (delete_before before t) b = query_last t b.
Proof.
  intros Hb. pose proof (last_block_spec t before) as Sp. unfold query_last at 2.
  pose proof (last_block_spec t b) as Sb. destruct (last_block t b) as [k|].
  - destruct Sb as (Hk & Lk & Mk).
    assert (Ek : delete_before before t !! k = t !! k).
    { destruct (delete_before_lookup before t k) as [E|(_ & last & El & L)]; [exact E|]. rewrite El in Sp.
      destruct Sp as (Hl & Ll & _). specialize (Mk last Hl ltac:(lia)). lia. }
    unfold query_last. rewrite (last_block_unique _ b k); [exact Ek | now rewrite Ek | exact Lk|].
    intros j Hj Lj. apply Mk; [|exact Lj].
    destruct (delete_before_lookup before t j) as [E|(E & _)]; rewrite E in Hj; [exact Hj | now destruct Hj].
  - unfold query_last. rewrite last_block_none; [reflexivity|]. intros j Hj. apply Sb.
    destruct (delete_before_lookup before t j) as [E|(E & _)]; rewrite E in Hj; [exact Hj | now destruct Hj].
Qed.

(** Before it, an answer remains or is gone. *)
Lemma delete_before_old before (t : gmap Z V) b :
  query_last (delete_before before t) b = query_last t b \/ query_last (delete_before before t) b = None.
Proof.
  unfold delete_before. destruct (last_block t before) as [last|] eqn:El; [|now left].
  destruct (Z.le_gt_cases last b) as [L|L].
  - left. pose proof (delete_before_query last t b L) as Q. unfold delete_before in Q.
    assert (Es : last_block t last = Some last).
    { pose proof (last_block_spec t before) as Sp. rewrite El in Sp. destruct Sp as (Hl & Ll & Ml).
      apply last_block_unique; [exact Hl | lia | auto]. }
    now rewrite Es in Q.
  - right. unfold query_last. rewrite last_block_none; [reflexivity|]. intros j [v Hj].
    apply map_lookup_filter_Some in Hj as [_ Hj]. cbn in Hj. lia.
Qed.
End Facts.

(** ** Root indices *)

Lemma filter_twice {A} (f g : A -> bool) l : List.filter f (List.filter g l) = List.filter (fun x => g x && f x) l.
Proof.
  induction l as [|x l IH]; [reflexivity|]. cbn. destruct (g x); cbn; [destruct (f x); now rewrite IH | exact IH].
Qed.

Lemma purge_blocks_spec n : forall head db,
  rows (purge_blocks n head db).1 = rows db.1 /\
  removals (purge_blocks n head db).1
    = List.filter (fun row => negb ((head - Z.of_nat n <? row.1) && (row.1 <=? head))) (removals db.1) /\
  forall k, (purge_blocks n head db).2 !! k
    = if decide (head - Z.of_nat n < k <= head) then None else db.2 !! k.
Proof.
  induction n as [|n IH]; intros head db; cbn [purge_blocks].
  - split; [reflexivity|]. split.
    + rewrite <- (List.filter_true (removals db.1)) at 1. apply List.filter_ext. intros row. rewrite Z.sub_0_r.
      destruct (Z.ltb_spec head row.1), (Z.leb_spec row.1 head); cbn; auto; lia.
    + intros k. rewrite decide_False by lia. reflexivity.
  - destruct (IH (head - 1) (purge_block head db)) as (Hr & Hm & Hk). split; [exact Hr|]. split.
    + rewrite Hm. cbn [purge_block fst removals]. rewrite filter_twice. apply List.filter_ext. intros row.
      destruct (Z.eqb_spec row.1 head), (Z.ltb_spec (head - 1 - Z.of_nat n) row.1), (Z.leb_spec row.1 (head - 1)),
        (Z.ltb_spec (head - Z.of_nat (S n)) row.1), (Z.leb_spec row.1 head); cbn; auto; lia.
    + intros k. rewrite Hk. cbn [purge_block snd]. destruct (decide (k = head)) as [->|N].
      * rewrite lookup_delete_eq, (decide_False (P := head - 1 - Z.of_nat n < head <= head - 1)), decide_True by lia.
        reflexivity.
      * rewrite lookup_delete_ne by congruence.
        destruct (decide (head - 1 - Z.of_nat n < k <= head - 1)), (decide (head - Z.of_nat (S n) < k <= head)); auto; lia.
Qed.

(** The first block whose tries are kept when a block is written; block numbers
    are not negative. *)
Definition threshold (mode : TriePruneMode) (block : Z) : Z :=
  match mode with Archive => 0 | Prune kept => block - kept end.

(** The number of blocks to keep is unsigned. *)
Definition valid_mode (mode : TriePruneMode) : Prop :=
  match mode with Archive => True | Prune kept => 0 <= kept end.

(** What is written at a block, and what it leaves of the answers. *)
Definition written (update : RootIndexUpdate) : option (option TrieStorageIndex) :=
  match update with Unchanged => None | Updated idx => Some (Some idx) | TrieEmpty => Some None end.

Lemma insert_root_cases mode block update (roots : Roots) :
  match written update with
  | None => insert_root mode block update roots = roots
  | Some new => insert_root mode block update roots = <[block := new]> roots \/
      exists before, before = threshold mode block /\
        insert_root mode block update roots = delete_before before (<[block := new]> roots)
  end.
Proof.
  unfold insert_root, checked_sub, threshold. destruct update as [|idx|]; cbn [written]; [reflexivity|..];
    (destruct mode as [|kept]; [now left|]; destruct (kept <=? block); [right; eauto | now left]).
Qed.

(** After writing at the last block, and removing the rows after it, the block
    has the new root and the blocks that are kept have theirs. *)
Lemma root_index_written mode block update (roots roots' : Roots) b :
  (forall k, k <= block -> roots' !! k = insert_root mode block update roots !! k) ->
  threshold mode block <= b -> b <= block ->
  root_index roots' b = if decide (b = block) then next_root update (root_index roots block) else root_index roots b.
Proof.
  intros Hr Ht Hb. unfold root_index.
  rewrite (query_last_ext (insert_root mode block update roots) roots' b) by (intros k Hk; apply Hr; lia).
  pose proof (insert_root_cases mode block update roots) as C. destruct (written update) as [new|] eqn:Ew.
  - assert (Q : query_last (insert_root mode block update roots) b = query_last (<[block := new]> roots) b).
    { destruct C as [->|(before & -> & ->)]; [reflexivity | now apply delete_before_query]. }
    rewrite Q. clear Q C. destruct (decide (b = block)) as [->|N].
    + rewrite (query_last_row _ _ new) by apply lookup_insert_eq. now destruct update; simplify_eq/=.
    + rewrite (query_last_ext roots); [reflexivity|]. intros k Hk. rewrite lookup_insert_ne by lia. reflexivity.
  - rewrite C. destruct (decide (b = block)) as [->|]; [|reflexivity]. now destruct update.
Qed.

Lemma root_index_old mode block update (roots roots' : Roots) b :
  (forall k, k <= block -> roots' !! k = insert_root mode block update roots !! k) -> b < block ->
  root_index roots' b = root_index roots b \/ root_index roots' b = None.
Proof.
  intros Hr Hb. unfold root_index.
  rewrite (query_last_ext (insert_root mode block update roots) roots' b) by (intros k Hk; apply Hr; lia).
  pose proof (insert_root_cases mode block update roots) as C. destruct (written update) as [new|]; [|now left; rewrite C].
  assert (Q : query_last (<[block := new]> roots) b = query_last roots b).
  { apply query_last_ext. intros k Hk. now rewrite lookup_insert_ne by lia. }
  destruct C as [->|(before & _ & ->)]; [left; now rewrite Q|].
  destruct (delete_before_old before (<[block := new]> roots) b) as [-> | ->]; [left; now rewrite Q | now right].
Qed.

Lemma root_index_gap (roots : Roots) a b : a <= b -> (forall k, a < k <= b -> roots !! k = None) ->
  root_index roots b = root_index roots a.
Proof. intros Hab Hn. unfold root_index. now rewrite (query_last_gap roots a b). Qed.

(** Rows are written for the given block only. *)
Lemma insert_root_rows mode block update (roots : Roots) k : k <> block -> roots !! k = None ->
  insert_root mode block update roots !! k = None.
Proof.
  intros N Hk. pose proof (insert_root_cases mode block update roots) as C. destruct (written update) as [new|].
  - destruct C as [->|(before & _ & ->)]; [now rewrite lookup_insert_ne by congruence|].
    destruct (delete_before_lookup before (<[block := new]> roots) k) as [-> |[-> _]]; [|reflexivity].
    now rewrite lookup_insert_ne by congruence.
  - now rewrite C.
Qed.

(** ** State hashes *)

Lemma fold_max ks : forall k, (k <= fold_left Z.max ks k) /\ (forall j, In j ks -> j <= fold_left Z.max ks k) /\
  (fold_left Z.max ks k = k \/ In (fold_left Z.max ks k) ks).
Proof.
  induction ks as [|j ks IH]; intros k; cbn [fold_left]; [split; [lia|]; split; [easy | auto]|].
  destruct (IH (Z.max k j)) as (A & B & C). split; [lia|]. split.
  - intros i [->|Hi]; [lia | auto].
  - cbn [In]. destruct C as [C|C]; [|auto]. rewrite C. destruct (Z.max_spec k j) as [[_ ->]|[_ ->]]; auto.
Qed.

Lemma hash_rows_in t contract block k : In k (hash_rows t contract block) <->
  k <= block /\ exists h, (k, contract, h) ∈ t.
Proof.
  unfold hash_rows. rewrite in_map_iff. split.
  - intros ([[k' c] h] & <- & Hin). apply filter_In in Hin as [Hin Hb]. cbn [fst snd] in *.
    apply andb_true_iff in Hb as [Hc Hb]. apply bool_decide_eq_true_1 in Hc as ->. apply Z.leb_le in Hb.
    split; [exact Hb|]. exists h. now apply list_elem_of_In.
  - intros (Hk & h & Hin). exists (k, contract, h). split; [reflexivity|]. apply filter_In.
    split; [now apply list_elem_of_In|]. cbn [fst snd]. rewrite bool_decide_eq_true_2 by reflexivity. now apply Z.leb_le.
Qed.

(** The last block that has a row. *)
Lemma last_hash_block_spec t contract block k : last_hash_block t contract block = Some k <->
  In k (hash_rows t contract block) /\ forall j, In j (hash_rows t contract block) -> j <= k.
Proof.
  unfold last_hash_block. destruct (hash_rows t contract block) as [|j ks]; [split; [discriminate | now intros [[] _]]|].
  destruct (fold_max ks j) as (A & B & C). split.
  - intros [= <-]. split; [destruct C as [->|C]; [now left | now right]|]. intros i [->|Hi]; auto.
  - intros [Hk Hm]. f_equal. apply Z.le_antisymm.
    + apply Hm. destruct C as [->|C]; [now left | now right].
    + destruct Hk as [->|Hk]; auto.
Qed.

Lemma last_hash_block_at t contract block h : (block, contract, h) ∈ t -> last_hash_block t contract block = Some block.
Proof.
  intros Hin. apply last_hash_block_spec. split; [apply hash_rows_in; split; [lia | eauto]|].
  intros j Hj. now apply hash_rows_in in Hj as [Hj _].
Qed.

(** Writing adds a row and keeps the other rows from the first kept block on. *)
Lemma insert_contract_state_hash_rows mode block contract h t : valid_mode mode ->
  (block, contract, h) ∈ insert_contract_state_hash mode block contract h t /\
  forall row, row.1.1 = block -> row ∈ t -> row ∈ insert_contract_state_hash mode block contract h t.
Proof.
  intros Hm. unfold insert_contract_state_hash. cbv zeta. set (t' := t ++ [(block, contract, h)]).
  assert (Keep : forall row, row.1.1 = block -> row ∈ t' -> row ∈ match mode with
    | Archive => t'
    | Prune num_blocks_kept => match checked_sub block num_blocks_kept with
        | None => t'
        | Some before_block => match last_hash_block t' contract before_block with
            | None => t'
            | Some last => List.filter (fun row => negb (bool_decide (row.1.2 = contract) && (row.1.1 <? last))) t'
            end
        end
    end).
  { intros row Hr Hin. destruct mode as [|kept]; [exact Hin|]. unfold checked_sub. cbn in Hm.
    destruct (kept <=? block); [|exact Hin]. destruct (last_hash_block t' contract (block - kept)) as [last|] eqn:El; [|exact Hin].
    apply last_hash_block_spec in El as [El _]. apply hash_rows_in in El as [El _].
    apply list_elem_of_In, filter_In. split; [now apply list_elem_of_In|]. rewrite Hr.
    rewrite (proj2 (Z.ltb_ge block last)) by lia. now rewrite andb_false_r. }
  split.
  - apply Keep; [reflexivity|]. apply elem_of_app. right. now apply list_elem_of_singleton.
  - intros row Hr Hin. apply Keep; [exact Hr|]. apply elem_of_app. now left.
Qed.
