(* ===== verification/TriePrune.v ===== *)
(** Pruning of one trie as an abstract state machine over the operations of the
    tables: blocks are appended and reverted, removals are recorded and carried out
    later, and the versions that are kept stay readable.  The map of every block is
    ghost state. *)

From Stdlib Require Import ZArith Lia Bool List.
From stdpp Require Import gmap gmultiset list sets.
From S2P Require Import Prelude Bytes Felt MerkleNode Tree TrieSpec TreeHash TreeRep TreeOps.
From S2P Require Import TreeMap TreeCommit TrieStore TrieInsert TrieChain RootTables.

Section Prune.
Context (lib : Libraries) {laws : LibraryLaws lib}.

(** ** Removals *)

(** The nodes a row of removals marks. *)
Definition marks (row : Z * list Z) : list Z := default [] (decode_indices lib row.2).

Definition marked (rs : list (Z * list Z)) : list Z := concat (map marks rs).

Lemma elem_of_marked i rs : i ∈ marked rs <-> exists row, row ∈ rs /\ i ∈ marks row.
Proof.
  unfold marked. rewrite list_elem_of_In, in_concat. split.
  - intros (l & Hl & Hi). apply in_map_iff in Hl as (row & <- & Hr). exists row. now rewrite !list_elem_of_In.
  - intros (row & Hr & Hi). exists (marks row). apply list_elem_of_In in Hr, Hi.
    split; [now apply in_map | exact Hi].
Qed.

(** A row that decodes to indices SQLite has. *)
Definition row_ok (row : Z * list Z) : Prop :=
  exists l, decode_indices lib row.2 = Some l /\ Forall index_ok l.

Lemma delete_nodes_spec l : forall nodes, Forall index_ok l ->
  exists nodes', delete_nodes l nodes = Ok nodes' /\
    forall i, nodes' !! i = if decide (i ∈ l) then None else nodes !! i.
Proof.
  induction l as [|x l IH]; intros nodes Hl.
  - exists nodes. split; [reflexivity|]. intros i. now rewrite decide_False by (intros H; inversion H).
  - inversion_clear Hl as [|? ? Hx Hl']. destruct (IH (delete x nodes) Hl') as (nodes' & E & Hn). exists nodes'.
    cbn [delete_nodes]. rewrite (proj2 (Z.leb_le _ _)) by apply Hx. split; [exact E|]. intros i. rewrite Hn.
    destruct (decide (i = x)) as [->|N].
    + rewrite (decide_True (P := x ∈ x :: l)), lookup_delete_eq by set_solver. now destruct (decide _).
    + rewrite lookup_delete_ne by congruence.
      destruct (decide (i ∈ l)) as [Hi|Hi]; [rewrite decide_True by set_solver | rewrite decide_False by set_solver];
        reflexivity.
Qed.

Definition due (before_block : Z) (rs : list (Z * list Z)) : list (Z * list Z) :=
  List.filter (fun row => (row.1 <? before_block)%Z) rs.

Lemma prune_rows_spec before rs : forall nodes, Forall row_ok rs ->
  exists nodes', prune_rows lib before rs nodes = Ok nodes' /\
    forall i, nodes' !! i = if decide (i ∈ marked (due before rs)) then None else nodes !! i.
Proof.
  induction rs as [|[b data] rs IH]; intros nodes Hr.
  - exists nodes. split; [reflexivity|]. intros i. now rewrite decide_False by (intros H; inversion H).
  - inversion_clear Hr as [|? ? (l & El & Hl) Hr']. cbn [prune_rows]. cbn [snd] in El.
    change (due before ((b, data) :: rs)) with (if (b <? before)%Z then (b, data) :: due before rs else due before rs).
    destruct (b <? before)%Z.
    + rewrite El. destruct (delete_nodes_spec l nodes Hl) as (n1 & -> & H1).
      destruct (IH n1 Hr') as (n2 & -> & H2). exists n2. split; [reflexivity|]. intros i. rewrite H2, H1.
      change (marked ((b, data) :: due before rs)) with (marks (b, data) ++ marked (due before rs)).
      assert (Em : marks (b, data) = l) by (unfold marks; cbn [snd]; now rewrite El). rewrite Em.
      destruct (decide (i ∈ marked (due before rs))) as [Hi|Hi].
      * now rewrite decide_True by set_solver.
      * destruct (decide (i ∈ l)); [rewrite decide_True by set_solver | rewrite decide_False by set_solver]; reflexivity.
    + apply IH. exact Hr'.
Qed.

Definition waiting (before_block : Z) (rs : list (Z * list Z)) : list (Z * list Z) :=
  List.filter (fun row => negb (row.1 <? before_block)%Z) rs.

Lemma due_none before rs : Forall (fun row => 0 <= row.1)%Z rs -> (before <= 0)%Z ->
  due before rs = [] /\ waiting before rs = rs.
Proof.
  intros Hr Hb. unfold due, waiting. induction Hr as [|row rs Hrow Hr IH]; [auto|]. cbn [List.filter].
  destruct (Z.ltb_spec row.1 before); [lia|]. cbn [negb]. destruct IH as [-> ->]. auto.
Qed.

(** What pruning and marking leave of a table. *)
Lemma prune_and_mark_spec mode removed block table : Forall row_ok (removals table) ->
  Forall (fun row => 0 <= row.1)%Z (removals table) ->
  (mode = Archive \/ removed = [] \/ exists data, encode_indices lib removed = Some data) ->
  exists nodes extra, prune_and_mark lib mode removed block table
      = Ok (MkTable nodes (waiting (threshold mode block) (removals table) ++ extra)) /\
    (forall i, nodes !! i = if decide (i ∈ marked (due (threshold mode block) (removals table))) then None
                            else rows table !! i) /\
    (extra = [] \/ exists data, extra = [(block, data)] /\ decode_indices lib data = Some removed) /\
    (mode = Archive \/ removed = [] -> extra = []).
Proof.
  intros Hr Hp He. destruct mode as [|kept]; cbn [prune_and_mark threshold].
  - destruct (due_none 0 (removals table) Hp ltac:(lia)) as [-> ->]. exists (rows table), [].
    destruct table as [nodes rs]. rewrite app_nil_r. split; [reflexivity|].
    split; [|now split; [left|]]. intros i. now rewrite decide_False by (intros H; inversion H).
  - destruct He as [He|He]; [discriminate|].
    assert (Pr : exists nodes, prune_trie lib block kept table
        = Ok (MkTable nodes (waiting (block - kept) (removals table))) /\
      forall i, nodes !! i = if decide (i ∈ marked (due (block - kept) (removals table))) then None
                            else rows table !! i).
    { unfold prune_trie, checked_sub. destruct (Z.leb_spec kept block) as [L|L].
      - destruct (prune_rows_spec (block - kept) _ (rows table) Hr) as (nodes & -> & Hn). eauto.
      - destruct (due_none (block - kept) (removals table) Hp ltac:(lia)) as [-> ->]. exists (rows table).
        destruct table as [nodes rs]. split; [reflexivity|]. intros i.
        now rewrite decide_False by (intros H; inversion H). }
    destruct Pr as (nodes & -> & Hn). unfold remove_trie. destruct removed as [|x removed].
    + exists nodes, []. rewrite app_nil_r. auto 6.
    + destruct He as [He|[data Ed]]; [discriminate|]. rewrite Ed. exists nodes, [(block, data)]. split; [reflexivity|]. split; [exact Hn|].
      split; [|now intros [?|?]]. right. exists data. split; [reflexivity | now apply indices_roundtrip].
Qed.

(** ** Blocks *)

Context (H : Felt -> Felt -> outcome Felt) {HH : FeltHash H}.
Context (HEIGHT : nat) (HEIGHT_pos : 0 < HEIGHT) (HEIGHT_max : HEIGHT <= 251).
Context (mode : TriePruneMode) (mode_ok : valid_mode mode).

(** The tables of a trie, and what they stand for: the first block that is kept,
    the last block (-1 for none) and the map of each block. *)
Record chain : Type := MkChain {
  c_table : TrieTable;
  c_roots : Roots;
  c_low : Z;
  c_head : Z;
  c_map : Z -> gmap bits Felt
}.

Definition c_root (c : chain) (b : Z) : option TrieStorageIndex := root_index (c_roots c) b.

Definition kept (c : chain) (b : Z) : Prop := (c_low c <= b <= c_head c)%Z \/ b = c_head c.

Definition set_block {A} (f : Z -> A) (block : Z) (x : A) (b : Z) : A := if decide (b = block) then x else f b.

(** The update of the trie of the last block. *)
Definition head_update (c : chain) (us : list (bits * Felt)) (m : Mem) : outcome (result (TreeError StoreError) TrieUpdate) :=
  update_trie lib H HEIGHT (rows (c_table c)) (leaf_of (c_map c (c_head c))) (c_root c (c_head c)) false us m.

(** The trie of the last block is updated, and the result inserted at a block
    with its root. *)
Definition write_trie (fuel : nat) (us : list (bits * Felt)) (m : Mem) (block : Z) (c : chain)
    : outcome (result (TreeError StoreError) (TrieTable * Roots)) :=
  let+ upd := head_update c us m in
  match insert_trie lib fuel mode upd block (c_table c) with
  | Panic => Panic
  | Ret (Err e) => Ret (Err (StorageFailure e))
  | Ret (Ok (r, T)) => Ret (Ok (T, insert_root mode block r (c_roots c)))
  end.

Definition apply_block (fuel : nat) (us : list (bits * Felt)) (m : Mem) (c : chain)
    : outcome (result (TreeError StoreError) chain) :=
  let block := (c_head c + 1)%Z in
  let+ (T, roots) := write_trie fuel us m block c in
  Ret (Ok (MkChain T roots (Z.max (c_low c) (threshold mode block)) block
    (set_block (c_map c) block (map_set_all us (c_map c (c_head c)))))).

(** A revert writes the reverse updates at the target, moves the removals there
    and purges the blocks after it. *)
Definition apply_revert (fuel : nat) (target : Z) (us : list (bits * Felt)) (m : Mem) (c : chain)
    : outcome (result (TreeError StoreError) chain) :=
  let+ (T, roots) := write_trie fuel us m target c in
  let db := purge_blocks (Z.to_nat (c_head c - target)) (c_head c) (coalesce_removed_trie_nodes target T, roots) in
  Ret (Ok (MkChain db.1 db.2 (Z.max (c_low c) (threshold mode target)) target (c_map c))).

(** When a revert is safe: it has reverse updates, nothing is ever pruned, or the
    trie has the same root at the target as at the last block.  The code does
    not check this; without it the root that was written last is purged and an
    older one is used whose nodes may be recorded as removed. *)
Definition revert_safe (c : chain) (target : Z) (us : list (bits * Felt)) : Prop :=
  us <> [] \/ mode = Archive \/ c_root c target = c_root c (c_head c).

(** A block is added with any updates; a revert has updates that restore the map
    of its target, and is safe. *)
Inductive chain_step : chain -> chain -> Prop :=
| step_block c us m fuel c' :
    updates_ok HEIGHT us -> mem_ok m -> apply_block fuel us m c = Ret (Ok c') -> chain_step c c'
| step_revert c target us m fuel c' :
    (0 <= target < c_head c)%Z -> updates_ok HEIGHT us -> mem_ok m ->
    map_set_all us (c_map c (c_head c)) = c_map c target -> revert_safe c target us ->
    apply_revert fuel target us m c = Ret (Ok c') -> chain_step c c'.

(** *** The invariant *)

Definition ver (c : chain) (live : Z -> gmultiset Z) (b : Z) : version := MkVersion (c_root c b) (c_map c b) (live b).

Record inv (c : chain) (live : Z -> gmultiset Z) : Prop := {
  inv_low : (0 <= c_low c)%Z;
  inv_head : (-1 <= c_head c)%Z;
  inv_roots k : is_Some (c_roots c !! k) -> (k <= c_head c)%Z;
  inv_versions b : kept c b -> version_ok lib H HEIGHT (rows (c_table c)) (ver c live b);
  inv_nodes : nodes_ok (rows (c_table c));
  inv_rows : Forall (fun row => 0 <= row.1 <= c_head c)%Z (removals (c_table c));
  inv_decode : Forall row_ok (removals (c_table c));
  inv_marks row i : row ∈ removals (c_table c) -> i ∈ marks row -> is_Some (rows (c_table c) !! i) /\
    forall b, kept c b -> (row.1 <= b)%Z -> i ∉ live b;
  inv_once : NoDup (marked (removals (c_table c)));
  inv_empty b : (0 <= b <= c_head c)%Z -> c_map c b = ∅ -> c_root c b = None;
  inv_archive : mode = Archive -> c_low c = 0%Z /\ removals (c_table c) = []
}.

Lemma marked_split t rs : marked (due t rs) ++ marked (waiting t rs) ≡ₚ marked rs.
Proof.
  unfold due, waiting. induction rs as [|row rs IH]; [reflexivity|]. cbn [List.filter].
  change (marked (row :: rs)) with (marks row ++ marked rs). destruct (row.1 <? t)%Z; cbn [negb].
  - change (marked (row :: ?l)) with (marks row ++ marked l). rewrite <- app_assoc. now apply Permutation_app.
  - change (marked (row :: ?l)) with (marks row ++ marked l). rewrite <- IH.
    rewrite !app_assoc. apply Permutation_app; [apply Permutation_app_comm | reflexivity].
Qed.

Lemma marked_app a b : marked (a ++ b) = marked a ++ marked b.
Proof. unfold marked. now rewrite map_app, concat_app. Qed.

Lemma indices_NoDup l : (forall i, multiplicity i (indices l) <= 1) -> NoDup l.
Proof.
  clear HEIGHT HEIGHT_pos HEIGHT_max. induction l as [|x l IH]; intros O; constructor.
  - intros Hx. specialize (O x). unfold indices in O. rewrite list_to_set_disj_cons, multiplicity_disj_union in O.
    rewrite multiplicity_singleton, decide_True in O by reflexivity.
    assert (0 < multiplicity x (list_to_set_disj l : gmultiset Z)); [|lia].
    now apply elem_of_multiplicity, elem_of_list_to_set_disj.
  - apply IH. intros i. specialize (O i). unfold indices in O.
    rewrite list_to_set_disj_cons, multiplicity_disj_union in O. unfold indices. lia.
Qed.

Lemma indices_short l : NoDup l -> Forall index_ok l -> (Z.of_nat (length l) < 2 ^ 64)%Z.
Proof.
  clear HEIGHT HEIGHT_pos HEIGHT_max. intros Nd Hl. assert (L : length l <= length (seqZ 0 (I64_MAX + 1))).
  { apply NoDup_incl_length; [now apply NoDup_ListNoDup|]. intros i Hi%list_elem_of_In.
    apply list_elem_of_In, elem_of_seqZ. pose proof (proj1 (Forall_forall _ _) Hl i Hi). unfold index_ok in *. lia. }
  rewrite length_seqZ in L. unfold I64_MAX in L. lia.
Qed.

(** The removed nodes of a version can be recorded. *)
Lemma removed_recordable nodes v removed R : version_ok lib H HEIGHT nodes v -> nodes_ok nodes ->
  v_live v = indices removed ⊎ R -> exists data, encode_indices lib removed = Some data.
Proof.
  clear HEIGHT_pos HEIGHT_max. intros V Hn El. assert (Hl : Forall index_ok removed).
  { apply Forall_forall. intros i Hi. apply Hn, (version_rows lib H HEIGHT nodes v i V). rewrite El.
    apply gmultiset_elem_of_disj_union. left. now apply elem_of_list_to_set_disj. }
  apply indices_fit; [exact Hl|]. apply indices_short; [|exact Hl]. apply indices_NoDup. intros i.
  pose proof (ver_once _ _ _ _ _ V i) as O. rewrite El, multiplicity_disj_union in O. lia.
Qed.

(** What an update written at a block leaves: the rows after pruning, the
    removals, and the version with its new rows [N] and remaining rows [R]. *)
Record advanced (c : chain) (live : Z -> gmultiset Z) (us : list (bits * Felt)) (blk : Z) (r : RootIndexUpdate)
    (T : TrieTable) (removed : list Z) (N R : gmultiset Z) (nodes0 : gmap Z (list Z * list Z))
    (extra : list (Z * list Z)) : Prop := {
  adv_live : live (c_head c) = indices removed ⊎ R;
  adv_pruned i : nodes0 !! i = if decide (i ∈ marked (due (threshold mode blk) (removals (c_table c)))) then None
                               else rows (c_table c) !! i;
  adv_extra : extra = [] \/ exists data, extra = [(blk, data)] /\ decode_indices lib data = Some removed;
  adv_removals : removals T = waiting (threshold mode blk) (removals (c_table c)) ++ extra;
  adv_keep i : is_Some (nodes0 !! i) -> rows T !! i = nodes0 !! i;
  adv_nodes : nodes_ok (rows T);
  adv_new i : i ∈ N -> nodes0 !! i = None;
  adv_version : version_ok lib H HEIGHT (rows T)
    (MkVersion (next_root r (c_root c (c_head c))) (map_set_all us (c_map c (c_head c))) (N ⊎ R));
  adv_empty : us <> [] -> r = Unchanged -> map_set_all us (c_map c (c_head c)) = ∅;
  adv_archive : mode = Archive -> extra = []
}.

Lemma head_rows c live i : inv c live -> i ∈ live (c_head c) -> is_Some (rows (c_table c) !! i).
Proof. intros Iv Hi. apply (version_rows lib H HEIGHT _ (ver c live (c_head c)) i); [|exact Hi]. apply inv_versions; [exact Iv | now right]. Qed.

(** The nodes of a kept version are not pruned. *)
Lemma not_due c live b t i : inv c live -> kept c b -> (t <= b)%Z \/ b = c_head c -> i ∈ live b ->
  i ∉ marked (due t (removals (c_table c))).
Proof.
  intros Iv Kb Ht Hi (row & Hr & Hm)%elem_of_marked. unfold due in Hr. rewrite list_elem_of_In, filter_In in Hr.
  destruct Hr as [Hr Hlt%Z.ltb_lt]. rewrite <- list_elem_of_In in Hr.
  destruct (inv_marks _ _ Iv row i Hr Hm) as [_ Hn]. apply (Hn b Kb); [|exact Hi].
  pose proof (proj1 (Forall_forall _ _) (inv_rows _ _ Iv) row Hr). cbn in *. lia.
Qed.

(** The last version is updated, pruning leaves what is still used of it, and
    the new nodes can be inserted. *)
Lemma head_inserts c live us m blk : inv c live -> updates_ok HEIGHT us -> mem_ok m ->
  exists upd R, head_update c us m = Ret (Ok upd) /\
    spec_root H HEIGHT (fun k => map_set_all us (c_map c (c_head c)) !! k) = Ret (root_commitment upd) /\
    live (c_head c) = indices (update_nodes_removed upd) ⊎ R /\
    (us <> [] -> nodes_added upd <> [] \/ map_set_all us (c_map c (c_head c)) = ∅) /\
    exists nodes0 extra, prune_and_mark lib mode (update_nodes_removed upd) blk (c_table c)
        = Ok (MkTable nodes0 (waiting (threshold mode blk) (removals (c_table c)) ++ extra)) /\
      (forall i, nodes0 !! i = if decide (i ∈ marked (due (threshold mode blk) (removals (c_table c)))) then None
                               else rows (c_table c) !! i) /\
      (extra = [] \/ exists data, extra = [(blk, data)] /\ decode_indices lib data = Some (update_nodes_removed upd)) /\
      (mode = Archive -> extra = []) /\
      inserts lib H HEIGHT nodes0 upd (c_root c (c_head c)) (map_set_all us (c_map c (c_head c))) R.
Proof.
  intros Iv Hus K. pose proof (inv_versions _ _ Iv (c_head c) (or_intror eq_refl)) as V.
  destruct (update_version lib H HEIGHT HEIGHT_pos HEIGHT_max _ _ _ false us m V (leaf_of_covers _) (inv_nodes _ _ Iv) Hus K)
    as (upd & R & Eu & Er & El & Hne & Hins). exists upd, R.
  split; [exact Eu|]. split; [exact Er|]. split; [exact El|]. split; [exact Hne|].
  destruct (prune_and_mark_spec mode (update_nodes_removed upd) blk (c_table c) (inv_decode _ _ Iv))
    as (nodes0 & extra & Ep & Hp & He & Ha).
  { eapply Forall_impl; [exact (inv_rows _ _ Iv)|]. cbn. lia. }
  { right. right. exact (removed_recordable _ _ _ R V (inv_nodes _ _ Iv) El). }
  exists nodes0, extra. split; [exact Ep|]. split; [exact Hp|]. split; [exact He|]. split; [auto|]. apply Hins.
  - intros i. rewrite Hp. destruct (decide _); [now intros [? ?]|]. apply (inv_nodes _ _ Iv).
  - intros i Hi. rewrite Hp, decide_False; [reflexivity|].
    apply (not_due c live (c_head c)); [exact Iv | now right | now right|]. cbn [ver v_live] in El. rewrite El.
    apply gmultiset_elem_of_disj_union. now right.
Qed.

Lemma advance c live us m upd fuel blk r T : inv c live -> updates_ok HEIGHT us -> mem_ok m -> (0 <= blk)%Z ->
  head_update c us m = Ret (Ok upd) -> insert_trie lib fuel mode upd blk (c_table c) = Ret (Ok (r, T)) ->
  exists removed N R nodes0 extra, advanced c live us blk r T removed N R nodes0 extra.
Proof.
  intros Iv Hus K Hb Eu Ei. destruct (head_inserts c live us m blk Iv Hus K) as (upd' & R & Eu' & _ & El & Hne & nodes0 & extra & Ep & Hp & He & Ha & [Snd _]).
  rewrite Eu in Eu'. injection Eu' as <-.
  unfold insert_trie in Ei. rewrite Ep in Ei.
  destruct (Snd fuel _ r T Ei) as (Er & Hk & Hno & N & HN & HV).
  exists (update_nodes_removed upd), N, R, nodes0, extra. split; try assumption.
  intros Hus' ->. destruct (Hne Hus') as [Na|E0]; [|exact E0]. exfalso.
  unfold insert_added in Ei. destruct (nodes_added upd) as [|x l]; [easy|].
  destruct (collect fuel _ _ _) as [[o|]|]; try discriminate. cbn [try] in Ei.
  destruct (insert_nodes _ _ _ _ _) as [[nodes' ix]|]; [|discriminate]. now destruct (ix !! _).
Qed.

(** A block can always be written while indices are left. *)
Lemma insert_total c live us m blk : inv c live -> updates_ok HEIGHT us -> mem_ok m ->
  exists upd, head_update c us m = Ret (Ok upd) /\
    spec_root H HEIGHT (fun k => map_set_all us (c_map c (c_head c)) !! k) = Ret (root_commitment upd) /\
    forall fuel mx, insert_fuel upd <= fuel -> bounded (rows (c_table c)) mx -> (0 <= mx)%Z ->
      (mx + Z.of_nat (3 * size (map_set_all us (c_map c (c_head c)))) <= I64_MAX)%Z ->
      exists r T, insert_trie lib fuel mode upd blk (c_table c) = Ret (Ok (r, T)).
Proof.
  intros Iv Hus K. destruct (head_inserts c live us m blk Iv Hus K) as (upd & R & Eu & Er & _ & _ & nodes0 & extra & Ep & Hp & _ & _ & [_ Tot]).
  exists upd. split; [exact Eu|]. split; [exact Er|]. intros fuel mx Hf Hb H0 Hm. unfold insert_trie. rewrite Ep.
  destruct (Tot fuel mx (waiting (threshold mode blk) (removals (c_table c)) ++ extra) Hf) as (r & T & E & _);
    try assumption; [|eauto].
  intros i. rewrite Hp. destruct (decide _); [now intros [? ?] | apply Hb].
Qed.

(** The versions that are kept are still there. *)
Lemma advanced_versions c live us blk r T removed N R nodes0 extra b : inv c live ->
  advanced c live us blk r T removed N R nodes0 extra -> kept c b ->
  (threshold mode blk <= b)%Z \/ b = c_head c -> version_ok lib H HEIGHT (rows T) (ver c live b).
Proof.
  intros Iv A Kb Ht. pose proof (inv_versions _ _ Iv b Kb) as V.
  apply (version_same lib H HEIGHT (rows (c_table c))); [exact V|]. intros i Hi. cbn [ver v_live] in Hi.
  assert (E0 : nodes0 !! i = rows (c_table c) !! i).
  { rewrite (adv_pruned _ _ _ _ _ _ _ _ _ _ _ A), decide_False; [reflexivity|].
    now apply (not_due c live b). }
  rewrite <- E0. apply (adv_keep _ _ _ _ _ _ _ _ _ _ _ A). rewrite E0.
  exact (version_rows lib H HEIGHT _ _ i V Hi).
Qed.

(** What is marked is there, and not part of the new version. *)
Lemma advanced_marks c live us blk r T removed N R nodes0 extra row i : inv c live ->
  advanced c live us blk r T removed N R nodes0 extra -> row ∈ removals T -> i ∈ marks row ->
  is_Some (rows T !! i) /\ i ∉ N ⊎ R /\
  (row ∈ removals (c_table c) \/ row.1 = blk /\ i ∈ live (c_head c)).
Proof.
  intros Iv A Hr Hi. rewrite (adv_removals _ _ _ _ _ _ _ _ _ _ _ A) in Hr.
  assert (C : is_Some (nodes0 !! i) /\ i ∉ R /\ (row ∈ removals (c_table c) \/ row.1 = blk /\ i ∈ live (c_head c))).
  { apply elem_of_app in Hr as [Hr|Hr].
    - assert (Hr' : row ∈ removals (c_table c)).
      { unfold waiting in Hr. rewrite list_elem_of_In, filter_In, <- list_elem_of_In in Hr. apply Hr. }
      destruct (inv_marks _ _ Iv row i Hr' Hi) as [Hs Hn]. split; [|split; [|now left]].
      + rewrite (adv_pruned _ _ _ _ _ _ _ _ _ _ _ A), decide_False; [exact Hs|]. intros Hd.
        pose proof (inv_once _ _ Iv) as Nd. rewrite <- (marked_split (threshold mode blk)) in Nd.
        apply NoDup_app in Nd as (_ & Dis & _). apply (Dis i Hd). apply elem_of_marked. eauto.
      + intros Hin. apply (Hn (c_head c)); [now right | |].
        * pose proof (proj1 (Forall_forall _ _) (inv_rows _ _ Iv) row Hr'). cbn in *. lia.
        * rewrite (adv_live _ _ _ _ _ _ _ _ _ _ _ A). apply gmultiset_elem_of_disj_union. now right.
    - destruct (adv_extra _ _ _ _ _ _ _ _ _ _ _ A) as [->|(data & -> & Ed)]; [inversion Hr|].
      apply list_elem_of_singleton in Hr as ->. unfold marks in Hi. cbn [snd] in Hi. rewrite Ed in Hi. cbn in Hi.
      assert (Hlive : i ∈ live (c_head c)).
      { rewrite (adv_live _ _ _ _ _ _ _ _ _ _ _ A). apply gmultiset_elem_of_disj_union. left.
        now apply elem_of_list_to_set_disj. }
      split; [|split; [|right; auto]].
      + rewrite (adv_pruned _ _ _ _ _ _ _ _ _ _ _ A), decide_False; [now apply (head_rows c live)|].
        apply (not_due c live (c_head c)); [exact Iv | now right | now right | exact Hlive].
      + destruct (once_sub _ _ _ (adv_live _ _ _ _ _ _ _ _ _ _ _ A)
          (ver_once _ _ _ _ _ (inv_versions _ _ Iv (c_head c) (or_intror eq_refl)))) as [_ Dis].
        intros Hin. apply (Dis i); [|exact Hin]. now apply elem_of_list_to_set_disj. }
  destruct C as (Hs & HR & Hw). split; [rewrite (adv_keep _ _ _ _ _ _ _ _ _ _ _ A i Hs); exact Hs|].
  split; [|exact Hw]. intros [Hin|Hin]%gmultiset_elem_of_disj_union; [|exact (HR Hin)].
  rewrite (adv_new _ _ _ _ _ _ _ _ _ _ _ A i Hin) in Hs. now destruct Hs.
Qed.

Lemma waiting_sub t rs row : row ∈ waiting t rs -> row ∈ rs.
Proof. unfold waiting. rewrite list_elem_of_In, filter_In, <- list_elem_of_In. now intros []. Qed.

Lemma removed_live c live us blk r T removed N R nodes0 extra i :
  advanced c live us blk r T removed N R nodes0 extra -> i ∈ removed -> i ∈ live (c_head c).
Proof.
  intros A Hi. rewrite (adv_live _ _ _ _ _ _ _ _ _ _ _ A). apply gmultiset_elem_of_disj_union. left.
  now apply elem_of_list_to_set_disj.
Qed.

Lemma advanced_once c live us blk r T removed N R nodes0 extra : inv c live ->
  advanced c live us blk r T removed N R nodes0 extra -> NoDup (marked (removals T)).
Proof.
  intros Iv A. rewrite (adv_removals _ _ _ _ _ _ _ _ _ _ _ A), marked_app.
  pose proof (inv_once _ _ Iv) as Nd. rewrite <- (marked_split (threshold mode blk)) in Nd.
  apply NoDup_app in Nd as (_ & _ & Nw).
  destruct (adv_extra _ _ _ _ _ _ _ _ _ _ _ A) as [->|(data & -> & Ed)]; [cbn; now rewrite app_nil_r|].
  assert (Em : marked [(blk, data)] = removed) by (unfold marked, marks; cbn; rewrite Ed; apply app_nil_r).
  rewrite Em. apply NoDup_app. split; [exact Nw|]. split.
  - intros i (row & Hr & Hi)%elem_of_marked Hi'. pose proof (waiting_sub _ _ _ Hr) as Hr'.
    destruct (inv_marks _ _ Iv row i Hr' Hi) as [_ Hn]. apply (Hn (c_head c)); [now right | |].
    + pose proof (proj1 (Forall_forall _ _) (inv_rows _ _ Iv) row Hr'). cbn in *. lia.
    + exact (removed_live _ _ _ _ _ _ _ _ _ _ _ i A Hi').
  - apply indices_NoDup. intros i.
    pose proof (ver_once _ _ _ _ _ (inv_versions _ _ Iv (c_head c) (or_intror eq_refl)) i) as O. cbn [ver v_live] in O.
    rewrite (adv_live _ _ _ _ _ _ _ _ _ _ _ A), multiplicity_disj_union in O. lia.
Qed.

Lemma advanced_decode c live us blk r T removed N R nodes0 extra : inv c live ->
  advanced c live us blk r T removed N R nodes0 extra -> Forall row_ok (removals T).
Proof.
  intros Iv A. rewrite (adv_removals _ _ _ _ _ _ _ _ _ _ _ A). apply Forall_app. split.
  - apply Forall_forall. intros row Hr%waiting_sub. exact (proj1 (Forall_forall _ _) (inv_decode _ _ Iv) row Hr).
  - destruct (adv_extra _ _ _ _ _ _ _ _ _ _ _ A) as [->|(data & -> & Ed)]; [constructor|].
    constructor; [|constructor]. exists removed. split; [exact Ed|]. apply Forall_forall. intros i Hi.
    apply (inv_nodes _ _ Iv), (head_rows c live i Iv), (removed_live _ _ _ _ _ _ _ _ _ _ _ i A Hi).
Qed.

Lemma advanced_rows c live us blk r T removed N R nodes0 extra top : inv c live -> (0 <= blk <= top)%Z ->
  (c_head c <= top)%Z -> advanced c live us blk r T removed N R nodes0 extra ->
  Forall (fun row => 0 <= row.1 <= top)%Z (removals T).
Proof.
  intros Iv Hb Ht A. rewrite (adv_removals _ _ _ _ _ _ _ _ _ _ _ A). apply Forall_app. split.
  - apply Forall_forall. intros row Hr%waiting_sub.
    pose proof (proj1 (Forall_forall _ _) (inv_rows _ _ Iv) row Hr). cbn in *. lia.
  - destruct (adv_extra _ _ _ _ _ _ _ _ _ _ _ A) as [->|(data & -> & Ed)]; repeat constructor; cbn; lia.
Qed.

Lemma version_empty nodes v : version_ok lib H HEIGHT nodes v -> v_map v = ∅ -> v_root v = None.
Proof.
  intros [_ _ Sh] E. destruct (v_root v) as [idx|]; [|reflexivity]. destruct Sh as (t & h & _ & _ & W & Hk).
  destruct (wf_nonempty t HEIGHT W) as [k Hin]. specialize (Hk k (has_length _ _ _ W Hin)).
  rewrite Hin, E, lookup_empty in Hk. rewrite bool_decide_eq_false_2 in Hk; [discriminate | now intros [? ?]].
Qed.

Lemma threshold_le (block : Z) : (0 <= block)%Z -> (threshold mode block <= block)%Z.
Proof. clear - mode_ok. intros Hb. destruct mode; cbn in *; lia. Qed.

(** *** Preservation *)

Lemma set_block_eq {A} (f : Z -> A) block x : set_block f block x block = x.
Proof. unfold set_block. now rewrite decide_True. Qed.

Lemma set_block_ne {A} (f : Z -> A) block x b : b <> block -> set_block f block x b = f b.
Proof. intros N. unfold set_block. now rewrite decide_False. Qed.

Lemma block_inv c live us r T removed N R nodes0 extra : inv c live ->
  advanced c live us (c_head c + 1) r T removed N R nodes0 extra ->
  inv (MkChain T (insert_root mode (c_head c + 1) r (c_roots c)) (Z.max (c_low c) (threshold mode (c_head c + 1)))
      (c_head c + 1) (set_block (c_map c) (c_head c + 1) (map_set_all us (c_map c (c_head c)))))
    (set_block live (c_head c + 1) (N ⊎ R)).
Proof.
  intros Iv A. pose proof (inv_head _ _ Iv) as Hh. pose proof (inv_low _ _ Iv) as Hl.
  assert (Hn : forall k, (c_head c < k)%Z -> c_roots c !! k = None).
  { intros k Hk. destruct (c_roots c !! k) eqn:E; [|reflexivity]. pose proof (inv_roots _ _ Iv k ltac:(eauto)). lia. }
  assert (Hr : forall b, (threshold mode (c_head c + 1) <= b <= c_head c + 1)%Z ->
    root_index (insert_root mode (c_head c + 1) r (c_roots c)) b
      = set_block (c_root c) (c_head c + 1) (next_root r (c_root c (c_head c))) b).
  { intros b Hb. rewrite (root_index_written mode (c_head c + 1) r (c_roots c)) by (auto || lia).
    unfold set_block, c_root. rewrite (root_index_gap (c_roots c) (c_head c) (c_head c + 1)); [reflexivity | lia|].
    intros k Hk. apply Hn. lia. }
  assert (Ht : (threshold mode (c_head c + 1) <= c_head c + 1)%Z) by (apply threshold_le; lia).
  assert (Kept : forall b, (Z.max (c_low c) (threshold mode (c_head c + 1)) <= b <= c_head c + 1)%Z \/ b = (c_head c + 1)%Z ->
    b = (c_head c + 1)%Z \/ (b <> c_head c + 1 /\ threshold mode (c_head c + 1) <= b <= c_head c)%Z /\ kept c b)
    by (intros b Kb; unfold kept; lia).
  split; cbn [c_table c_low c_head c_roots c_map]; try lia.
  - intros k Hk. destruct (Z.le_gt_cases k (c_head c + 1)); [assumption|].
    rewrite insert_root_rows in Hk; [now destruct Hk | lia | apply Hn; lia].
  - intros b Kb. unfold ver, c_root. cbn [c_roots c_map]. destruct (Kept b Kb) as [->|((Nb & Hb & Hb') & Kc)]; rewrite Hr by lia.
    + rewrite !set_block_eq. exact (adv_version _ _ _ _ _ _ _ _ _ _ _ A).
    + rewrite !set_block_ne by exact Nb. apply (advanced_versions c live us (c_head c + 1) r T removed N R nodes0 extra); auto.
  - exact (adv_nodes _ _ _ _ _ _ _ _ _ _ _ A).
  - apply (advanced_rows c live us (c_head c + 1) r T removed N R nodes0 extra); auto; lia.
  - exact (advanced_decode _ _ _ _ _ _ _ _ _ _ _ Iv A).
  - intros row i Hrow Hi. destruct (advanced_marks _ _ _ _ _ _ _ _ _ _ _ row i Iv A Hrow Hi) as (Hs & Hnot & Hw).
    split; [exact Hs|]. intros b Kb Hle. destruct (Kept b Kb) as [->|((Nb & Hb & Hb') & Kc)].
    + rewrite set_block_eq. exact Hnot.
    + rewrite set_block_ne by exact Nb. destruct Hw as [Hw|[Hw _]]; [|lia].
      exact (proj2 (inv_marks _ _ Iv row i Hw Hi) b Kc Hle).
  - exact (advanced_once _ _ _ _ _ _ _ _ _ _ _ Iv A).
  - intros b Hb. unfold c_root. cbn [c_roots]. destruct (decide (b = c_head c + 1)%Z) as [->|Nb].
    + rewrite Hr, !set_block_eq by lia. intros E0. exact (version_empty _ _ (adv_version _ _ _ _ _ _ _ _ _ _ _ A) E0).
    + rewrite set_block_ne by exact Nb. intros E0.
      destruct (root_index_old mode (c_head c + 1) r (c_roots c) _ b (fun k _ => eq_refl)) as [-> | ->]; [lia | | reflexivity].
      apply (inv_empty _ _ Iv b); [lia | exact E0].
  - intros Ma. destruct (inv_archive _ _ Iv Ma) as [-> Er]. rewrite (adv_removals _ _ _ _ _ _ _ _ _ _ _ A), Er.
    rewrite (adv_archive _ _ _ _ _ _ _ _ _ _ _ A Ma), Ma. now split.
Qed.

Lemma coalesce_elem target T row : row ∈ removals (coalesce_removed_trie_nodes target T) ->
  exists row0, row0 ∈ removals T /\ row.2 = row0.2 /\
    ((row0.1 <= target)%Z /\ row = row0 \/ (target < row0.1)%Z /\ row.1 = target).
Proof.
  unfold coalesce_removed_trie_nodes. cbn [removals]. rewrite list_elem_of_In. intros (row0 & <- & Hr)%in_map_iff.
  exists row0. rewrite list_elem_of_In. split; [exact Hr|].
  destruct (Z.ltb_spec target row0.1); cbn; auto.
Qed.

Lemma coalesce_marked target T : marked (removals (coalesce_removed_trie_nodes target T)) = marked (removals T).
Proof.
  unfold coalesce_removed_trie_nodes, marked. cbn [removals]. rewrite map_map. f_equal. apply map_ext.
  intros row. now destruct (target <? row.1)%Z.
Qed.

(** What a revert leaves of the tables. *)
Lemma purged_db target head T (roots : Roots) : (target < head)%Z -> Forall (fun row => row.1 <= head)%Z (removals T) ->
  let db := purge_blocks (Z.to_nat (head - target)) head (coalesce_removed_trie_nodes target T, roots) in
  db.1 = coalesce_removed_trie_nodes target T /\
  (forall k, (k <= target)%Z -> db.2 !! k = roots !! k) /\ (forall k, (target < k <= head)%Z -> db.2 !! k = None) /\
  (forall k, (head < k)%Z -> db.2 !! k = roots !! k).
Proof.
  intros Ht Hb db. destruct (purge_blocks_spec (Z.to_nat (head - target)) head (coalesce_removed_trie_nodes target T, roots))
    as (Er & Em & Ek). fold db in Er, Em, Ek. rewrite Z2Nat.id in Em, Ek by lia. cbn [fst snd] in Er, Em, Ek.
  split; [|split; [|split]]; try (intros k Hk; rewrite Ek; ((rewrite decide_True by lia) || (rewrite decide_False by lia)); reflexivity).
  assert (Em' : removals db.1 = removals (coalesce_removed_trie_nodes target T)).
  { rewrite Em. rewrite <- (List.filter_true (removals (coalesce_removed_trie_nodes target T))) at 2.
    apply filter_ext_in. intros row Hr%list_elem_of_In.
    apply coalesce_elem in Hr as (row0 & Hr0 & _ & C).
    destruct (Z.ltb_spec (head - (head - target)) row.1); [|reflexivity].
    destruct C as [[C ->]|[C C']]; lia. }
  destruct (db.1) as [r0 m0] eqn:Ed. cbn [rows removals] in *. unfold coalesce_removed_trie_nodes in *.
  cbn [rows removals] in *. now rewrite Er, Em'.
Qed.

Lemma revert_inv c live target us r T removed N R nodes0 extra : inv c live -> (0 <= target < c_head c)%Z ->
  (us <> [] \/ c_root c target = c_root c (c_head c)) -> map_set_all us (c_map c (c_head c)) = c_map c target ->
  advanced c live us target r T removed N R nodes0 extra ->
  let db := purge_blocks (Z.to_nat (c_head c - target)) (c_head c)
    (coalesce_removed_trie_nodes target T, insert_root mode target r (c_roots c)) in
  inv (MkChain db.1 db.2 (Z.max (c_low c) (threshold mode target)) target (c_map c)) (set_block live target (N ⊎ R)).
Proof.
  intros Iv Ht Hus EM A db. pose proof (inv_low _ _ Iv) as Hl.
  pose proof (adv_version _ _ _ _ _ _ _ _ _ _ _ A) as V. rewrite EM in V.
  pose proof (advanced_rows _ _ _ target _ _ _ _ _ _ _ (c_head c) Iv ltac:(lia) ltac:(lia) A) as Rw.
  destruct (purged_db target (c_head c) T (insert_root mode target r (c_roots c))) as (Ed & Elow & Emid & Ehigh);
    [lia | eapply Forall_impl; [exact Rw | cbn; lia]|]. fold db in Ed, Elow, Emid, Ehigh. rewrite Ed. clearbody db.
  assert (V' : version_ok lib H HEIGHT (rows T) (MkVersion (next_root r (c_root c target)) (c_map c target) (N ⊎ R))).
  { destruct r as [|idx|]; cbn [next_root] in *; try exact V. destruct Hus as [Hus|Hus].
    - pose proof (adv_empty _ _ _ _ _ _ _ _ _ _ _ A Hus eq_refl) as E0. rewrite EM in E0.
      pose proof (version_empty _ _ V E0) as Er. cbn in Er. rewrite Er in V.
      rewrite (inv_empty _ _ Iv target); [exact V | lia | exact E0].
    - now rewrite Hus. }
  assert (Htt : (threshold mode target <= target)%Z) by (apply threshold_le; lia).
  assert (Hr : forall b, (threshold mode target <= b <= target)%Z ->
    root_index db.2 b = set_block (c_root c) target (next_root r (c_root c target)) b).
  { intros b Hb. now rewrite (root_index_written mode target r (c_roots c)) by (auto || lia). }
  assert (Kept : forall b, (Z.max (c_low c) (threshold mode target) <= b <= target)%Z \/ b = target ->
    b = target \/ (b <> target /\ threshold mode target <= b < target)%Z /\ kept c b) by (intros b Kb; unfold kept; lia).
  split; cbn [c_table c_low c_head c_roots c_map]; try lia.
  - intros k Hk. destruct (Z.le_gt_cases k target); [assumption|]. exfalso. destruct (Z.le_gt_cases k (c_head c)).
    + rewrite Emid in Hk by lia. now destruct Hk.
    + rewrite Ehigh, insert_root_rows in Hk; [now destruct Hk | lia | | lia].
      destruct (c_roots c !! k) eqn:E; [|reflexivity]. pose proof (inv_roots _ _ Iv k ltac:(eauto)). lia.
  - intros b Kb. unfold ver, c_root. cbn [c_roots c_map]. destruct (Kept b Kb) as [->|((Nb & Hb & Hb') & Kc)]; rewrite Hr by lia.
    + rewrite !set_block_eq. exact V'.
    + rewrite !set_block_ne by exact Nb. apply (advanced_versions c live us target r T removed N R nodes0 extra); auto.
  - exact (adv_nodes _ _ _ _ _ _ _ _ _ _ _ A).
  - apply Forall_forall. intros row (row0 & Hr0 & _ & C)%coalesce_elem.
    pose proof (proj1 (Forall_forall _ _) Rw row0 Hr0) as B. cbn in B. destruct C as [[C ->]|[C ->]]; cbn; lia.
  - apply Forall_forall. intros row (row0 & Hr0 & E2 & _)%coalesce_elem.
    pose proof (proj1 (Forall_forall _ _) (advanced_decode _ _ _ _ _ _ _ _ _ _ _ Iv A) row0 Hr0) as B.
    unfold row_ok in *. now rewrite E2.
  - intros row i (row0 & Hr0 & E2 & C)%coalesce_elem Hi. unfold marks in Hi. rewrite E2 in Hi.
    destruct (advanced_marks _ _ _ _ _ _ _ _ _ _ _ row0 i Iv A Hr0 Hi) as (Hs & Hn & Hw).
    split; [exact Hs|]. intros b Kb Hle. destruct (Kept b Kb) as [->|((Nb & Hb & Hb') & Kc)].
    + rewrite set_block_eq. exact Hn.
    + rewrite set_block_ne by exact Nb. destruct C as [[C ->]|[C C']]; [|lia].
      destruct Hw as [Hw|[Hw _]]; [|lia]. exact (proj2 (inv_marks _ _ Iv row0 i Hw Hi) b Kc Hle).
  - rewrite coalesce_marked. exact (advanced_once _ _ _ _ _ _ _ _ _ _ _ Iv A).
  - intros b Hb E0. unfold c_root. cbn [c_roots]. destruct (decide (b = target)%Z) as [->|Nb].
    + rewrite Hr, set_block_eq by lia. exact (version_empty _ _ V' E0).
    + destruct (root_index_old mode target r (c_roots c) db.2 b) as [-> | ->]; [exact Elow | lia | | reflexivity].
      apply (inv_empty _ _ Iv b); [lia | exact E0].
  - intros Ma. destruct (inv_archive _ _ Iv Ma) as [-> Er]. unfold coalesce_removed_trie_nodes. cbn [removals].
    rewrite (adv_removals _ _ _ _ _ _ _ _ _ _ _ A), Er, (adv_archive _ _ _ _ _ _ _ _ _ _ _ A Ma), Ma. now split.
Qed.

(** Without pruning the versions of all blocks are kept, so a revert may fall
    back to the root of any of them. *)
Lemma revert_archive c live target : inv c live -> mode = Archive -> (0 <= target < c_head c)%Z ->
  let db := purge_blocks (Z.to_nat (c_head c - target)) (c_head c) (coalesce_removed_trie_nodes target (c_table c), c_roots c) in
  inv (MkChain db.1 db.2 (Z.max (c_low c) (threshold mode target)) target (c_map c)) live.
Proof.
  intros Iv Ma Ht db. destruct (inv_archive _ _ Iv Ma) as [El Er].
  destruct (purged_db target (c_head c) (c_table c) (c_roots c)) as (Ed & Elow & Emid & Ehigh);
    [lia | rewrite Er; constructor|]. fold db in Ed, Elow, Emid, Ehigh.
  assert (Et : db.1 = c_table c).
  { rewrite Ed. unfold coalesce_removed_trie_nodes. destruct (c_table c) as [nodes rs]. cbn in Er |- *. now rewrite Er. }
  rewrite Et, El, Ma. clearbody db. cbn [threshold]. rewrite Z.max_id.
  assert (Hr : forall b, (b <= target)%Z -> root_index db.2 b = c_root c b).
  { intros b Hb. unfold c_root, root_index. rewrite (query_last_ext (c_roots c)); [reflexivity|]. intros k Hk. apply Elow. lia. }
  split; cbn [c_table c_low c_head c_roots c_map]; try lia; try rewrite Er.
  - intros k Hk. destruct (Z.le_gt_cases k target); [assumption|]. exfalso. destruct (Z.le_gt_cases k (c_head c)).
    + rewrite Emid in Hk by lia. now destruct Hk.
    + rewrite Ehigh in Hk by lia. pose proof (inv_roots _ _ Iv k Hk). lia.
  - intros b Kb. unfold ver, c_root. cbn [c_roots c_map]. unfold kept in Kb. cbn [c_low c_head] in Kb. rewrite Hr by lia.
    apply (inv_versions _ _ Iv b). unfold kept. lia.
  - exact (inv_nodes _ _ Iv).
  - constructor.
  - constructor.
  - intros row i Hrow. inversion Hrow.
  - constructor.
  - intros b Hb E0. unfold c_root. cbn [c_roots]. rewrite Hr by lia. apply (inv_empty _ _ Iv b); [lia | exact E0].
  - now split.
Qed.

Lemma write_trie_inv fuel us m block c T roots : write_trie fuel us m block c = Ret (Ok (T, roots)) ->
  exists upd r, head_update c us m = Ret (Ok upd) /\
    insert_trie lib fuel mode upd block (c_table c) = Ret (Ok (r, T)) /\ roots = insert_root mode block r (c_roots c).
Proof.
  unfold write_trie. destruct (head_update c us m) as [[upd|]|]; try discriminate. cbn [try]. intros E. exists upd.
  destruct (insert_trie lib fuel mode upd block (c_table c)) as [[[r T']|]|]; try discriminate.
  injection E as <- <-. eauto.
Qed.

(** A block can be applied whenever its update can be inserted. *)
Lemma block_total c live us m : inv c live -> updates_ok HEIGHT us -> mem_ok m ->
  exists upd, head_update c us m = Ret (Ok upd) /\
    spec_root H HEIGHT (fun k => map_set_all us (c_map c (c_head c)) !! k) = Ret (root_commitment upd) /\
    forall fuel mx, insert_fuel upd <= fuel -> bounded (rows (c_table c)) mx -> (0 <= mx)%Z ->
      (mx + Z.of_nat (3 * size (map_set_all us (c_map c (c_head c)))) <= I64_MAX)%Z ->
      exists c', apply_block fuel us m c = Ret (Ok c').
Proof.
  intros Iv Hus K. destruct (insert_total c live us m (c_head c + 1) Iv Hus K) as (upd & Eu & Er & Tot).
  exists upd. split; [exact Eu|]. split; [exact Er|]. intros fuel mx Hf Hb H0 Hm.
  destruct (Tot fuel mx Hf Hb H0 Hm) as (r & T & Ei). unfold apply_block, write_trie. rewrite Eu. cbn [try].
  rewrite Ei. cbn [try]. eauto.
Qed.

(** Without updates nothing is inserted. *)
Lemma unchanged_insert c live m upd fuel block r T : inv c live -> head_update c [] m = Ret (Ok upd) ->
  insert_trie lib fuel mode upd block (c_table c) = Ret (Ok (r, T)) -> r = Unchanged /\ (mode = Archive -> T = c_table c).
Proof.
  intros Iv Eu Ei. pose proof (inv_versions _ _ Iv (c_head c) (or_intror eq_refl)) as V.
  destruct (update_nothing lib H HEIGHT _ _ _ false m V (leaf_of_covers _)) as (h & Eu' & _).
  change (update_trie lib H HEIGHT (rows (c_table c)) _ _ false [] m) with (head_update c [] m) in Eu'.
  rewrite Eu in Eu'. injection Eu' as ->. unfold insert_trie in Ei. cbn [update_nodes_removed] in Ei.
  destruct (prune_and_mark lib mode [] block (c_table c)) as [T'|] eqn:Ep; [|discriminate]. cbn in Ei.
  injection Ei as <- <-. split; [reflexivity|]. intros Ma. rewrite Ma in Ep. now injection Ep.
Qed.

Lemma step_inv c c' live : inv c live -> chain_step c c' -> exists live', inv c' live'.
Proof.
  intros Iv S. destruct S as [c us m fuel c' Hus K E|c target us m fuel c' Ht Hus K EM Hne E].
  - pose proof (inv_head _ _ Iv). unfold apply_block in E.
    destruct (write_trie fuel us m (c_head c + 1) c) as [[[T roots]|]|] eqn:Ew; try discriminate.
    injection E as <-. apply write_trie_inv in Ew as (upd & r & Eu & Ei & ->).
    destruct (advance c live us m upd fuel (c_head c + 1)%Z r T Iv Hus K ltac:(lia) Eu Ei) as (removed & N & R & nodes0 & extra & A).
    eexists. exact (block_inv c live us r T removed N R nodes0 extra Iv A).
  - unfold apply_revert in E. destruct (write_trie fuel us m target c) as [[[T roots]|]|] eqn:Ew; try discriminate.
    injection E as <-. apply write_trie_inv in Ew as (upd & r & Eu & Ei & ->).
    destruct (advance c live us m upd fuel target r T Iv Hus K ltac:(lia) Eu Ei) as (removed & N & R & nodes0 & extra & A).
    assert (C : us <> [] \/ c_root c target = c_root c (c_head c) \/ us = [] /\ mode = Archive)
      by (destruct Hne as [|[|]]; [auto | destruct us; [auto | left; discriminate] | auto]).
    destruct C as [C|[C|[-> Ma]]].
    + eexists. exact (revert_inv c live target us r T removed N R nodes0 extra Iv Ht (or_introl C) EM A).
    + eexists. exact (revert_inv c live target us r T removed N R nodes0 extra Iv Ht (or_intror C) EM A).
    + destruct (unchanged_insert c live m upd fuel target r T Iv Eu Ei) as [-> Et].
      rewrite (Et Ma). exists live. exact (revert_archive c live target Iv Ma Ht).
Qed.

(** The chain starts without blocks. *)
Definition genesis : chain := MkChain (MkTable ∅ []) ∅ 0 (-1) (fun _ => ∅).

Lemma genesis_inv : inv genesis (fun _ => ∅).
Proof.
  split; unfold genesis, c_root, ver; cbn [c_table c_low c_head c_roots c_map rows removals].
  - lia.
  - lia.
  - intros k [? Hk]. now rewrite lookup_empty in Hk.
  - intros b _. split; cbn [v_map v_live v_root];
      [intros k x; now rewrite lookup_empty | intros i; rewrite multiplicity_empty; lia |].
    now change (c_root _ b) with (@None TrieStorageIndex).
  - intros i Hi. rewrite lookup_empty in Hi. now destruct Hi.
  - constructor.
  - constructor.
  - intros row i Hr. inversion Hr.
  - constructor.
  - reflexivity.
  - now split.
Qed.

(** Blocks and reverts in sequence. *)
Inductive operation : Type :=
| AddBlock (us : list (bits * Felt))
| Revert (target : Z) (us : list (bits * Felt)).

Definition run_one (fuel : nat) (m : Mem) (op : operation) (c : chain) : outcome (result (TreeError StoreError) chain) :=
  match op with
  | AddBlock us => apply_block fuel us m c
  | Revert target us => apply_revert fuel target us m c
  end.

Fixpoint run (fuel : nat) (m : Mem) (ops : list operation) (c : chain) : outcome (result (TreeError StoreError) chain) :=
  match ops with
  | [] => Ret (Ok c)
  | op :: ops => let+ c := run_one fuel m op c in run fuel m ops c
  end.

Inductive reachable : chain -> Prop :=
| reach_genesis : reachable genesis
| reach_step c c' : reachable c -> chain_step c c' -> reachable c'.

Lemma reachable_inv c : reachable c -> exists live, inv c live.
Proof.
  induction 1 as [|c c' R [live Iv] S]; [exists (fun _ => ∅); exact genesis_inv|]. exact (step_inv c c' live Iv S).
Qed.
End Prune.
