(* ===== verification/Forest.v ===== *)
(** Many tries in one table.  The storage tries of all contracts share the nodes
    and the removals of [trie_contracts]: an update of one of them, computed on
    an earlier state of the table, is inserted without harm to the others and to
    the versions that are kept. *)

From Stdlib Require Import ZArith Lia Bool List.
From stdpp Require Import gmap gmultiset list sets.
From S2P Require Import Prelude Bytes Felt MerkleNode Tree TrieSpec TreeHash TreeRep TreeOps.
From S2P Require Import TreeMap TreeCommit TrieStore TrieInsert TrieChain RootTables TriePrune.
Section Forest.
Context (lib : Libraries) {laws : LibraryLaws lib} (H : Felt -> Felt -> outcome Felt) {HH : FeltHash H}.
Context (HEIGHT : nat).
Context {mode : TriePruneMode} (mode_ok : valid_mode mode).
Context {K : Type} `{EqDecision K}.

Abbreviation version_ok := (version_ok lib H HEIGHT).
Abbreviation marks := (marks lib).
Abbreviation marked := (marked lib).

Definition set_key {A} (f : K -> A) (k : K) (x : A) (k' : K) : A := if decide (k' = k) then x else f k'.

Lemma set_key_eq {A} (f : K -> A) k x : set_key f k x k = x.
Proof. unfold set_key. now rewrite decide_True. Qed.

Lemma set_key_ne {A} (f : K -> A) k x k' : k' <> k -> set_key f k x k' = f k'.
Proof. intros N. unfold set_key. now rewrite decide_False. Qed.

(** ** The invariant *)

(** A node of a trie, in its current version or in one of those that are kept. *)
Definition alive (low blk : Z) (past : K -> Z -> version) (cur : K -> version) (k : K) (i : Z) : Prop :=
  i ∈ v_live (cur k) \/ exists b, (low <= b < blk)%Z /\ i ∈ v_live (past k b).

(** A block is being written: every trie has its versions of the blocks before
    it, from [low] on, and its current one.  What is recorded as removed is used
    by no current version, and by none of the blocks from the record on; nothing
    is recorded if nothing is pruned. *)
Record forest (T : TrieTable) (low blk : Z) (past : K -> Z -> version) (cur : K -> version) : Prop := {
  forest_nodes : nodes_ok (rows T);
  forest_past k b : (low <= b < blk)%Z -> version_ok (rows T) (past k b);
  forest_cur k : version_ok (rows T) (cur k);
  forest_blocks : Forall (fun row => 0 <= row.1)%Z (removals T);
  forest_decode : Forall (row_ok lib) (removals T);
  forest_marks row i : row ∈ removals T -> i ∈ marks row -> is_Some (rows T !! i) /\
    (forall k, i ∉ v_live (cur k)) /\ forall k b, (low <= b < blk)%Z -> (row.1 <= b)%Z -> i ∉ v_live (past k b);
  forest_once : NoDup (marked (removals T));
  forest_apart k k' i : alive low blk past cur k i -> alive low blk past cur k' i -> k = k';
  forest_archive : mode = Archive -> removals T = []
}.

Lemma alive_sub low low' blk blk' past past' cur cur' k i : (low' <= low)%Z -> (blk <= blk')%Z ->
  (forall b, (low <= b < blk)%Z -> past k b = past' k b) -> cur k = cur' k ->
  alive low blk past cur k i -> alive low' blk' past' cur' k i.
Proof.
  intros L B Hp Hc [Hi|(b & Hb & Hi)]; [left; now rewrite <- Hc | right]. exists b. split; [lia|]. now rewrite <- Hp.
Qed.

Lemma forest_ext T low blk past past' cur cur' : forest T low blk past cur ->
  (forall k b, (low <= b < blk)%Z -> past' k b = past k b) -> (forall k, cur' k = cur k) -> forest T low blk past' cur'.
Proof.
  intros F Hp Hc. split.
  - exact (forest_nodes _ _ _ _ _ F).
  - intros k b Hb. rewrite Hp by exact Hb. exact (forest_past _ _ _ _ _ F k b Hb).
  - intros k. rewrite Hc. exact (forest_cur _ _ _ _ _ F k).
  - exact (forest_blocks _ _ _ _ _ F).
  - exact (forest_decode _ _ _ _ _ F).
  - intros row i Hr Hi. destruct (forest_marks _ _ _ _ _ F row i Hr Hi) as (Hs & Hn & Hb). split; [exact Hs|]. split.
    + intros k. rewrite Hc. apply Hn.
    + intros k b Hb1 Hb2. rewrite Hp by exact Hb1. now apply Hb.
  - exact (forest_once _ _ _ _ _ F).
  - intros k k' i A A'. apply (forest_apart _ _ _ _ _ F k k' i); [revert A | revert A']; apply alive_sub; try lia; auto.
  - exact (forest_archive _ _ _ _ _ F).
Qed.

(** The block is complete: its versions are the current ones. *)
Lemma forest_seal T low blk past cur : forest T low blk past cur ->
  forest T low (blk + 1) (fun k => set_block (past k) blk (cur k)) cur.
Proof.
  intros F. assert (Hb : forall k b, (low <= b < blk + 1)%Z -> b = blk /\ set_block (past k) blk (cur k) b = cur k \/
    (low <= b < blk)%Z /\ set_block (past k) blk (cur k) b = past k b).
  { intros k b B. unfold set_block. destruct (decide (b = blk)) as [->|N]; [now left | right]. split; [lia | reflexivity]. }
  split; try apply F.
  - intros k b B. destruct (Hb k b B) as [[_ ->]|[B' ->]]; [apply (forest_cur _ _ _ _ _ F) | now apply (forest_past _ _ _ _ _ F)].
  - intros row i Hr Hi. destruct (forest_marks _ _ _ _ _ F row i Hr Hi) as (Hs & Hn & Hp). split; [exact Hs|].
    split; [exact Hn|]. intros k b B L. destruct (Hb k b B) as [[_ ->]|[B' ->]]; [apply Hn | now apply Hp].
  - assert (Al : forall k i, alive low (blk + 1) (fun k => set_block (past k) blk (cur k)) cur k i -> alive low blk past cur k i).
    { intros k i [Hi|(b & B & Hi)]; [now left|]. destruct (Hb k b B) as [[_ E]|[B' E]]; rewrite E in Hi; [now left | right; eauto]. }
    intros k k' i A A'. exact (forest_apart _ _ _ _ _ F k k' i (Al k i A) (Al k' i A')).
Qed.

(** An earlier block is written again. *)
Lemma forest_rewind T low blk blk' past cur : forest T low blk past cur -> (blk' <= blk)%Z -> forest T low blk' past cur.
Proof.
  intros F L. split; try apply F.
  - intros k b B. apply (forest_past _ _ _ _ _ F). lia.
  - intros row i Hr Hi. destruct (forest_marks _ _ _ _ _ F row i Hr Hi) as (Hs & Hn & Hp). split; [exact Hs|].
    split; [exact Hn|]. intros k b B. apply Hp. lia.
  - intros k k' i A A'. apply (forest_apart _ _ _ _ _ F k k' i); [revert A | revert A']; apply alive_sub; try lia; auto.
Qed.

(** Tries may be dropped; their nodes stay in the table. *)
Definition no_version : version := MkVersion None ∅ ∅.

Lemma no_version_ok nodes : version_ok nodes no_version.
Proof.
  split; cbn; [intros k x; now rewrite lookup_empty | intros i; rewrite multiplicity_empty; lia | auto].
Qed.

(** Tries may also go back to a version that is kept, if nothing is pruned. *)
Lemma forest_drop T low blk past cur cur' : forest T low blk past cur ->
  (forall k, cur' k = cur k \/ cur' k = no_version \/ mode = Archive /\ exists b, (low <= b < blk)%Z /\ cur' k = past k b) ->
  forest T low blk past cur'.
Proof.
  intros F Hc. assert (Sub : forall k i, i ∈ v_live (cur' k) -> alive low blk past cur k i).
  { intros k i. destruct (Hc k) as [-> |[-> |(_ & b & Hb & ->)]]; [now left | cbn; clear; multiset_solver | right; eauto]. }
  split; try apply F.
  - intros k. destruct (Hc k) as [-> |[-> |(_ & b & Hb & ->)]];
      [apply (forest_cur _ _ _ _ _ F) | apply no_version_ok | now apply (forest_past _ _ _ _ _ F)].
  - intros row i Hr Hi. destruct (forest_marks _ _ _ _ _ F row i Hr Hi) as (Hs & Hn & Hp). split; [exact Hs|].
    split; [|exact Hp]. intros k Hin. destruct (Hc k) as [E|[E|(Ar & _)]].
    + rewrite E in Hin. exact (Hn k Hin).
    + rewrite E in Hin. cbn in Hin. revert Hin. clear. multiset_solver.
    + rewrite (forest_archive _ _ _ _ _ F Ar) in Hr. inversion Hr.
  - assert (Al : forall k i, alive low blk past cur' k i -> alive low blk past cur k i) by (intros k i [Hi|Hi]; [now apply Sub | now right]).
    intros k k' i A A'. exact (forest_apart _ _ _ _ _ F k k' i (Al k i A) (Al k' i A')).
Qed.

(** Removals of later blocks are moved to the block. *)
Lemma forest_coalesce T low blk past cur : forest T low blk past cur -> (0 <= blk)%Z ->
  forest (coalesce_removed_trie_nodes blk T) low blk past cur.
Proof.
  intros F Hb. assert (Rw : forall row, row ∈ removals (coalesce_removed_trie_nodes blk T) ->
    exists row0, row0 ∈ removals T /\ row.2 = row0.2 /\ (row = row0 \/ row.1 = blk)).
  { intros row (row0 & Hr & E & C)%coalesce_elem. exists row0. split; [exact Hr|]. split; [exact E|].
    destruct C as [[_ C]|[_ C]]; auto. }
  split; try apply F.
  - apply Forall_forall. intros row Hr. destruct (Rw row Hr) as (row0 & Hr0 & _ & [-> | ->]); [|exact Hb].
    exact (proj1 (Forall_forall _ _) (forest_blocks _ _ _ _ _ F) row0 Hr0).
  - apply Forall_forall. intros row Hr. destruct (Rw row Hr) as (row0 & Hr0 & E & _).
    pose proof (proj1 (Forall_forall _ _) (forest_decode _ _ _ _ _ F) row0 Hr0) as D. unfold row_ok in *. now rewrite E.
  - intros row i Hr Hi. destruct (Rw row Hr) as (row0 & Hr0 & E & C). unfold TriePrune.marks in Hi. rewrite E in Hi.
    destruct (forest_marks _ _ _ _ _ F row0 i Hr0 Hi) as (Hs & Hn & Hp). split; [exact Hs|]. split; [exact Hn|].
    intros k b B L. destruct C as [-> | C]; [now apply Hp | lia].
  - rewrite coalesce_marked. exact (forest_once _ _ _ _ _ F).
  - intros Ar. apply elem_of_nil_inv. intros row Hr. destruct (Rw row Hr) as (row0 & Hr0 & _).
    rewrite (forest_archive _ _ _ _ _ F Ar) in Hr0. inversion Hr0.
Qed.

(** An update of a version that can be inserted into any table with the rows it
    refers to. *)
Record prepared (old : gmap Z (list Z * list Z)) (v : version) (us : list (bits * Felt)) (upd : TrieUpdate)
    (R : gmultiset Z) : Prop := {
  prep_root : spec_root H HEIGHT (fun k => map_set_all us (v_map v) !! k) = Ret (root_commitment upd);
  prep_live : v_live v = indices (update_nodes_removed upd) ⊎ R;
  prep_nothing : us = [] -> nodes_added upd = [] /\ update_nodes_removed upd = [];
  prep_added : us <> [] -> nodes_added upd <> [] \/ map_set_all us (v_map v) = ∅;
  prep_inserts nodes0 : nodes_ok nodes0 -> (forall i, i ∈ R -> nodes0 !! i = old !! i) ->
    inserts lib H HEIGHT nodes0 upd (v_root v) (map_set_all us (v_map v)) R
}.

Lemma prepared_removed old v us upd R i : prepared old v us upd R -> i ∈ update_nodes_removed upd -> i ∈ v_live v.
Proof.
  intros P Hi. rewrite (prep_live _ _ _ _ _ P), gmultiset_elem_of_disj_union. left. now apply elem_of_list_to_set_disj.
Qed.

Lemma prepared_kept old v us upd R i : prepared old v us upd R -> i ∈ R -> i ∈ v_live v.
Proof. intros P Hi. rewrite (prep_live _ _ _ _ _ P), gmultiset_elem_of_disj_union. now right. Qed.

(** Rows of another table may be taken for the old ones. *)
Lemma prepared_rows old old' v us upd R : prepared old v us upd R ->
  (forall i, i ∈ v_live v -> old' !! i = old !! i) -> prepared old' v us upd R.
Proof.
  intros P Hr. split; [exact (prep_root _ _ _ _ _ P) | exact (prep_live _ _ _ _ _ P) | exact (prep_nothing _ _ _ _ _ P) | exact (prep_added _ _ _ _ _ P)|].
  intros nodes0 Ok0 Hn. apply (prep_inserts _ _ _ _ _ P nodes0 Ok0). intros i Hi. rewrite (Hn i Hi). apply Hr.
  exact (prepared_kept _ _ _ _ _ i P Hi).
Qed.

(** What pruning leaves of a table. *)
Record pruned (T : TrieTable) (blk : Z) (removed : list Z) (nodes0 : gmap Z (list Z * list Z))
    (extra : list (Z * list Z)) : Prop := {
  pruned_rows i : nodes0 !! i = if decide (i ∈ marked (due (threshold mode blk) (removals T))) then None else rows T !! i;
  pruned_extra : extra = [] \/ exists data, extra = [(blk, data)] /\ decode_indices lib data = Some removed;
  pruned_archive : mode = Archive -> extra = []
}.

Lemma due_sub t rs row : row ∈ due t rs -> row ∈ rs /\ (row.1 < t)%Z.
Proof. unfold due. rewrite list_elem_of_In, filter_In, <- list_elem_of_In. intros [Hr Hl%Z.ltb_lt]. auto. Qed.

Lemma forest_pruned T low lim blk past cur k us upd old R : forest T low lim past cur ->
  prepared old (cur k) us upd R ->
  exists nodes0 extra, prune_and_mark lib mode (update_nodes_removed upd) blk T
      = Ok (MkTable nodes0 (waiting (threshold mode blk) (removals T) ++ extra)) /\
    pruned T blk (update_nodes_removed upd) nodes0 extra.
Proof.
  intros F P.
  destruct (prune_and_mark_spec lib mode (update_nodes_removed upd) blk T (forest_decode _ _ _ _ _ F)
    (forest_blocks _ _ _ _ _ F)) as (nodes0 & extra & Ep & Hp & He & Ha).
  { right. right. exact (removed_recordable lib H HEIGHT _ _ _ R (forest_cur _ _ _ _ _ F k) (forest_nodes _ _ _ _ _ F)
      (prep_live _ _ _ _ _ P)). }
  exists nodes0, extra. split; [exact Ep|]. split; auto.
Qed.

(** Rows in use by a current version or by a block that is kept are not pruned. *)
Lemma current_unpruned T low lim blk past cur removed nodes0 extra k i : forest T low lim past cur ->
  pruned T blk removed nodes0 extra -> i ∈ v_live (cur k) -> nodes0 !! i = rows T !! i.
Proof.
  intros F P Hi. rewrite (pruned_rows _ _ _ _ _ P), decide_False; [reflexivity|].
  intros (row & Hr & Hm)%elem_of_marked. apply due_sub in Hr as [Hr _].
  exact (proj1 (proj2 (forest_marks _ _ _ _ _ F row i Hr Hm)) k Hi).
Qed.

Lemma past_unpruned T low lim blk past cur removed nodes0 extra k b i : forest T low lim past cur ->
  pruned T blk removed nodes0 extra -> (Z.max low (threshold mode blk) <= b < lim)%Z -> i ∈ v_live (past k b) ->
  nodes0 !! i = rows T !! i.
Proof.
  intros F P Hb Hi. rewrite (pruned_rows _ _ _ _ _ P), decide_False; [reflexivity|].
  intros (row & Hr & Hm)%elem_of_marked. apply due_sub in Hr as [Hr Hlt].
  apply (proj2 (proj2 (forest_marks _ _ _ _ _ F row i Hr Hm)) k b); [lia | lia | exact Hi].
Qed.

(** What waits to be pruned is still there. *)
Lemma waiting_unpruned T low lim blk past cur removed nodes0 extra row i : forest T low lim past cur ->
  pruned T blk removed nodes0 extra -> row ∈ waiting (threshold mode blk) (removals T) -> i ∈ marks row ->
  nodes0 !! i = rows T !! i.
Proof.
  intros F P Hr Hi. rewrite (pruned_rows _ _ _ _ _ P), decide_False; [reflexivity|]. intros Hd.
  pose proof (forest_once _ _ _ _ _ F) as Nd. rewrite <- (marked_split lib (threshold mode blk)) in Nd.
  apply NoDup_app in Nd as (_ & Dis & _). apply (Dis i Hd). apply elem_of_marked. eauto.
Qed.

Lemma extra_marks T blk removed nodes0 extra : pruned T blk removed nodes0 extra ->
  extra = [] \/ marked extra = removed /\ forall row, row ∈ extra -> row.1 = blk /\ marks row = removed.
Proof.
  intros P. destruct (pruned_extra _ _ _ _ _ P) as [->|(data & -> & Ed)]; [now left | right].
  unfold TriePrune.marked, TriePrune.marks. cbn. rewrite Ed. cbn. rewrite app_nil_r. split; [reflexivity|].
  intros row ->%list_elem_of_singleton. cbn. now rewrite Ed.
Qed.

(** ** Inserting *)

(** The forest after an update is inserted, with the new rows [N]. *)
Lemma forest_inserted T low lim blk past cur k us upd old R nodes0 extra r T' : forest T low lim past cur -> (0 <= blk)%Z ->
  (lim <= blk)%Z \/ mode = Archive ->
  prepared old (cur k) us upd R -> pruned T blk (update_nodes_removed upd) nodes0 extra ->
  removals T' = waiting (threshold mode blk) (removals T) ++ extra ->
  (forall i, is_Some (nodes0 !! i) -> rows T' !! i = nodes0 !! i) -> nodes_ok (rows T') ->
  forall N, (forall i, i ∈ N -> nodes0 !! i = None) ->
  version_ok (rows T') (MkVersion (next_root r (v_root (cur k))) (map_set_all us (v_map (cur k))) (N ⊎ R)) ->
  forest T' (Z.max low (threshold mode blk)) lim past
    (set_key cur k (MkVersion (next_root r (v_root (cur k))) (map_set_all us (v_map (cur k))) (N ⊎ R))).
Proof.
  intros F Hb Hl P Pr Er Hk Hn N HN V.
  assert (Cur : forall k' i, i ∈ v_live (cur k') -> nodes0 !! i = rows T !! i /\ is_Some (nodes0 !! i)).
  { intros k' i Hi. rewrite (current_unpruned _ _ _ _ _ _ _ _ _ k' i F Pr Hi). split; [reflexivity|].
    exact (version_rows lib H HEIGHT _ _ i (forest_cur _ _ _ _ _ F k') Hi). }
  assert (Marks : forall row i, row ∈ removals T' -> i ∈ marks row -> is_Some (nodes0 !! i) /\ i ∉ R /\
    (forall k', k' <> k -> i ∉ v_live (cur k')) /\ (row ∈ removals T \/ row.1 = blk /\ mode <> Archive)).
  { intros row i Hr Hi. rewrite Er in Hr. apply elem_of_app in Hr as [Hr|Hr].
    - pose proof (waiting_sub _ _ _ Hr) as Hr'. destruct (forest_marks _ _ _ _ _ F row i Hr' Hi) as (Hs & Hc & _).
      rewrite (waiting_unpruned _ _ _ _ _ _ _ _ _ row i F Pr Hr Hi). split; [exact Hs|].
      split; [intros Hin; exact (Hc k (prepared_kept _ _ _ _ _ i P Hin)) | auto].
    - destruct (extra_marks _ _ _ _ _ Pr) as [->|[_ Em]]; [inversion Hr|]. destruct (Em row Hr) as [E1 E2].
      rewrite E2 in Hi. pose proof (prepared_removed _ _ _ _ _ i P Hi) as Hli.
      split; [now apply (Cur k)|]. split; [|split].
      + intros Hin. destruct (once_sub _ _ _ (prep_live _ _ _ _ _ P) (ver_once _ _ _ _ _ (forest_cur _ _ _ _ _ F k)))
          as [_ Dis]. apply (Dis i); [|exact Hin]. now apply elem_of_list_to_set_disj.
      + intros k' Hne Hin. exact (Hne (forest_apart _ _ _ _ _ F k' k i (or_introl Hin) (or_introl Hli))).
      + right. split; [exact E1|]. intros Ar. rewrite (pruned_archive _ _ _ _ _ Pr Ar) in Hr. inversion Hr. }
  split.
  - exact Hn.
  - intros k' b Hb'. apply (version_same lib H HEIGHT (rows T)); [apply (forest_past _ _ _ _ _ F); lia|].
    intros i Hi. pose proof (past_unpruned _ _ _ _ _ _ _ _ _ k' b i F Pr Hb' Hi) as E0. rewrite <- E0. apply Hk.
    rewrite E0. apply (version_rows lib H HEIGHT _ (past k' b)); [apply (forest_past _ _ _ _ _ F); lia | exact Hi].
  - intros k'. unfold set_key. destruct (decide (k' = k)) as [->|Hne]; [exact V|].
    apply (version_same lib H HEIGHT (rows T)); [apply (forest_cur _ _ _ _ _ F)|].
    intros i Hi. destruct (Cur k' i Hi) as [E0 Hs]. now rewrite <- E0, Hk.
  - rewrite Er. apply Forall_app. split.
    + apply Forall_forall. intros row Hr%waiting_sub. exact (proj1 (Forall_forall _ _) (forest_blocks _ _ _ _ _ F) row Hr).
    + destruct (extra_marks _ _ _ _ _ Pr) as [->|[_ Em]]; [constructor|]. apply Forall_forall. intros row Hr.
      rewrite (proj1 (Em row Hr)). exact Hb.
  - rewrite Er. apply Forall_app. split.
    + apply Forall_forall. intros row Hr%waiting_sub. exact (proj1 (Forall_forall _ _) (forest_decode _ _ _ _ _ F) row Hr).
    + destruct (pruned_extra _ _ _ _ _ Pr) as [->|(data & -> & Ed)]; [constructor|]. constructor; [|constructor].
      exists (update_nodes_removed upd). split; [exact Ed|]. apply Forall_forall. intros i Hi.
      apply (forest_nodes _ _ _ _ _ F). apply (version_rows lib H HEIGHT _ (cur k) i (forest_cur _ _ _ _ _ F k)).
      exact (prepared_removed _ _ _ _ _ i P Hi).
  - intros row i Hr Hi. destruct (Marks row i Hr Hi) as (Hs & HR & Hc & Hw).
    split; [rewrite Hk by exact Hs; exact Hs|]. split.
    + intros k'. unfold set_key. destruct (decide (k' = k)) as [->|Hne]; [|now apply Hc]. cbn [v_live].
      intros [Hin|Hin]%gmultiset_elem_of_disj_union; [|exact (HR Hin)]. rewrite (HN i Hin) in Hs. now destruct Hs.
    + intros k' b Hb' Hle. destruct Hw as [Hw|[Hw Na]]; [|destruct Hl; [lia | easy]].
      apply (proj2 (proj2 (forest_marks _ _ _ _ _ F row i Hw Hi))); lia.
  - rewrite Er, marked_app. pose proof (forest_once _ _ _ _ _ F) as Nd.
    rewrite <- (marked_split lib (threshold mode blk)) in Nd. apply NoDup_app in Nd as (_ & _ & Nw).
    destruct (extra_marks _ _ _ _ _ Pr) as [->|[Em _]]; [cbn; now rewrite app_nil_r|]. rewrite Em. apply NoDup_app.
    split; [exact Nw|]. split.
    + intros i (row & Hr & Hi)%elem_of_marked Hi'. apply waiting_sub in Hr.
      apply (proj1 (proj2 (forest_marks _ _ _ _ _ F row i Hr Hi)) k). exact (prepared_removed _ _ _ _ _ i P Hi').
    + apply indices_NoDup. intros i. pose proof (ver_once _ _ _ _ _ (forest_cur _ _ _ _ _ F k) i) as O.
      rewrite (prep_live _ _ _ _ _ P), multiplicity_disj_union in O. lia.
  - assert (Al : forall k' i, k' <> k -> alive (Z.max low (threshold mode blk)) lim past
        (set_key cur k (MkVersion (next_root r (v_root (cur k))) (map_set_all us (v_map (cur k))) (N ⊎ R))) k' i ->
        alive low lim past cur k' i /\ is_Some (nodes0 !! i)).
    { intros k' i Hne [Hi|(b & B & Hi)].
      - rewrite set_key_ne in Hi by exact Hne. split; [now left | now apply (Cur k')].
      - split; [right; exists b; split; [lia | exact Hi]|]. rewrite (past_unpruned _ _ _ _ _ _ _ _ _ k' b i F Pr B Hi).
        apply (version_rows lib H HEIGHT _ (past k' b)); [apply (forest_past _ _ _ _ _ F); lia | exact Hi]. }
    assert (New : forall k' i, k' <> k -> alive low lim past cur k' i -> is_Some (nodes0 !! i) ->
      alive (Z.max low (threshold mode blk)) lim past
        (set_key cur k (MkVersion (next_root r (v_root (cur k))) (map_set_all us (v_map (cur k))) (N ⊎ R))) k i -> False).
    { intros k' i Hne A Hs Ak. apply Hne, (forest_apart _ _ _ _ _ F k' k i A). destruct Ak as [Hi|(b & B & Hi)].
      - rewrite set_key_eq in Hi. cbn [v_live] in Hi. apply gmultiset_elem_of_disj_union in Hi as [HiN|HiR].
        + rewrite (HN i HiN) in Hs. now destruct Hs.
        + left. exact (prepared_kept _ _ _ _ _ i P HiR).
      - right. exists b. split; [lia | exact Hi]. }
    intros k1 k2 i A1 A2. destruct (decide (k1 = k)) as [->|N1], (decide (k2 = k)) as [->|N2]; [reflexivity | | |].
    + destruct (Al k2 i N2 A2) as [A Hs]. now destruct (New k2 i N2 A Hs A1).
    + destruct (Al k1 i N1 A1) as [A Hs]. now destruct (New k1 i N1 A Hs A2).
    + exact (forest_apart _ _ _ _ _ F k1 k2 i (proj1 (Al k1 i N1 A1)) (proj1 (Al k2 i N2 A2))).
  - intros Ar. rewrite Er, (pruned_archive _ _ _ _ _ Pr Ar), app_nil_r. apply elem_of_nil_inv. intros row Hr%waiting_sub.
    rewrite (forest_archive _ _ _ _ _ F Ar) in Hr. inversion Hr.
Qed.

(** Inserting returns, and fails only without indices for three rows a key. *)
Lemma forest_write T low lim blk past cur k us upd R fuel mx : forest T low lim past cur -> (0 <= blk)%Z ->
  (lim <= blk)%Z \/ mode = Archive ->
  prepared (rows T) (cur k) us upd R -> insert_fuel upd <= fuel -> bounded (rows T) mx -> (0 <= mx)%Z ->
  let M := map_set_all us (v_map (cur k)) in
  match insert_trie lib fuel mode upd blk T with
  | Ret (Ok (r, T')) => bounded (rows T') (mx + Z.of_nat (3 * size M)) /\ (us <> [] -> r = Unchanged -> M = ∅) /\
      (us = [] -> r = Unchanged) /\
      (forall k' i, k' <> k -> i ∈ v_live (cur k') -> rows T' !! i = rows T !! i) /\
      exists live, forest T' (Z.max low (threshold mode blk)) lim past
        (set_key cur k (MkVersion (next_root r (v_root (cur k))) M live))
  | Ret (Err _) => (I64_MAX < mx + Z.of_nat (3 * size M))%Z
  | Panic => False
  end.
Proof.
  intros F Hb Hl P Hf Hm Hm0 M. destruct (forest_pruned _ _ _ blk _ _ k us upd _ R F P) as (nodes0 & extra & Ep & Pr).
  unfold insert_trie. rewrite Ep.
  assert (Ok0 : nodes_ok nodes0).
  { intros i. rewrite (pruned_rows _ _ _ _ _ Pr). destruct (decide _); [now intros [? ?] | apply (forest_nodes _ _ _ _ _ F)]. }
  assert (Bd : bounded nodes0 mx).
  { intros i. rewrite (pruned_rows _ _ _ _ _ Pr). destruct (decide _); [now intros [? ?] | apply Hm]. }
  destruct (prep_inserts _ _ _ _ _ P nodes0 Ok0) as [Snd Tot Rt].
  { intros i Hi. exact (current_unpruned _ _ _ _ _ _ _ _ _ k i F Pr (prepared_kept _ _ _ _ _ i P Hi)). }
  specialize (Tot fuel mx (waiting (threshold mode blk) (removals T) ++ extra) Hf Bd Hm0).
  specialize (Rt fuel (waiting (threshold mode blk) (removals T) ++ extra) Hf).
  destruct (insert_added lib fuel upd _) as [[[r T']|e]|] eqn:Ei; [| |now apply Rt].
  - destruct (Snd _ _ _ _ Ei) as (Er & Hk & Hn & N & HN & V). split.
    { destruct (Z.le_gt_cases (mx + Z.of_nat (3 * size M)) I64_MAX) as [L|L].
      - destruct (Tot L) as (r' & T'' & [= <- <-] & Hb'). exact Hb'.
      - intros i Hi. pose proof (Hn i Hi) as [_ Hi']. lia. }
    split; [|split; [|split]].
    + intros Hus ->. destruct (prep_added _ _ _ _ _ P Hus) as [Na|E0]; [|exact E0]. exfalso.
      unfold insert_added in Ei. destruct (nodes_added upd) as [|x l]; [easy|].
      destruct (collect fuel _ _ _) as [[o|]|]; try discriminate. cbn [try] in Ei.
      destruct (insert_nodes _ _ _ _ _) as [[nodes' ix]|]; [|discriminate]. now destruct (ix !! _).
    + intros Hus. destruct (prep_nothing _ _ _ _ _ P Hus) as [Na Nr]. unfold insert_added in Ei. rewrite Na, Nr in Ei.
      now injection Ei as <- _.
    + intros k' i Hne Hi. pose proof (current_unpruned _ _ _ _ _ _ _ _ _ k' i F Pr Hi) as E0. rewrite <- E0. apply Hk.
      rewrite E0. exact (version_rows lib H HEIGHT _ _ i (forest_cur _ _ _ _ _ F k') Hi).
    + exists (N ⊎ R). exact (forest_inserted T low lim blk past cur k us upd _ R nodes0 extra r T' F Hb Hl P Pr Er Hk Hn N HN V).
  - destruct (Z.le_gt_cases (mx + Z.of_nat (3 * size M)) I64_MAX) as [L|L]; [|exact L].
    now destruct (Tot L) as (r' & T'' & [=] & _).
Qed.

(** ** Updates *)

Context (HEIGHT_pos : 0 < HEIGHT) (HEIGHT_max : HEIGHT <= 251).

Lemma forest_prepare T low blk past cur k leaf verify us m : forest T low blk past cur ->
  covers leaf (v_map (cur k)) -> updates_ok HEIGHT us -> mem_ok m ->
  exists upd R, update_trie lib H HEIGHT (rows T) leaf (v_root (cur k)) verify us m = Ret (Ok upd) /\
    prepared (rows T) (cur k) us upd R.
Proof.
  intros F C Hus K0. destruct (update_version lib H HEIGHT HEIGHT_pos HEIGHT_max (rows T) leaf (cur k) verify us m
    (forest_cur _ _ _ _ _ F k) C (forest_nodes _ _ _ _ _ F) Hus K0) as (upd & R & Eu & Er & El & Ha & Hi).
  exists upd, R. split; [exact Eu|]. split; try assumption. intros ->.
  destruct (update_nothing lib H HEIGHT (rows T) leaf (cur k) verify m (forest_cur _ _ _ _ _ F k) C) as (h & Eh & _).
  rewrite Eu in Eh. injection Eh as ->. auto.
Qed.
End Forest.

(** * Many tries with their roots: the blocks of a table of tries and of the
    roots by key, as they are extended by a block and reverted to an earlier
    one. *)

Local Open Scope Z_scope.

Lemma marked_filter_NoDup (lib : Libraries) P rs : NoDup (marked lib rs) -> NoDup (marked lib (List.filter P rs)).
Proof.
  induction rs as [|row rs IH]; [auto|]. change (row :: rs) with ([row] ++ rs). rewrite marked_app. intros Nd.
  apply NoDup_app in Nd as (N1 & D & N2). cbn [app List.filter]. destruct (P row); [|now apply IH].
  change (row :: List.filter P rs) with ([row] ++ List.filter P rs). rewrite marked_app. apply NoDup_app.
  split; [exact N1|]. split; [|now apply IH]. intros i Hi Hin. apply (D i Hi).
  apply elem_of_marked in Hin as (row' & Hr & Hm). apply elem_of_marked. exists row'. split; [|exact Hm].
  rewrite list_elem_of_In in *. now apply filter_In in Hr.
Qed.

#[export] Instance prune_mode_eq : EqDecision TriePruneMode.
Proof. solve_decision. Defined.

Section Roots.
Context (lib : Libraries) {laws : LibraryLaws lib} (H : Felt -> Felt -> outcome Felt) {HH : FeltHash H}.
Context (HEIGHT : nat).
Context {mode : TriePruneMode} (mode_ok : valid_mode mode).
Context {K : Type} `{EqDecision K}.

Abbreviation forest := (forest (mode := mode) lib H HEIGHT).

(** The maps of the keys, by block. *)
Abbreviation history := (Z -> K -> gmap bits Felt).

Definition version_at (roots : K -> Roots) (maps : history) (live : K -> Z -> gmultiset Z) (k : K) (b : Z) : version :=
  MkVersion (root_index (roots k) b) (maps b k) (live k b).

(** The tries of the blocks up to [head], of which those from [low] on are kept. *)
Record held (T : TrieTable) (roots : K -> Roots) (low head : Z) (maps : history) : Prop := {
  held_low : 0 <= low;
  held_head : -1 <= head;
  held_roots k j : is_Some (roots k !! j) -> 0 <= j <= head;
  held_empty k b : 0 <= b <= head -> maps b k = ∅ -> root_index (roots k) b = None;
  held_forest : exists live, forest T low (head + 1) (version_at roots maps live) (fun k => version_at roots maps live k head)
}.

(** The versions of the blocks before [blk], and in an archive those of a block
    that is reverted to, of the tries that are not written yet. *)
Record below (blk top : Z) (roots : K -> Roots) (maps : history) (rd : K -> Z) (live : K -> Z -> gmultiset Z)
    (low lim : Z) (past : K -> Z -> version) : Prop := {
  be_lim : blk <= lim /\ (lim <= blk \/ mode = Archive);
  be_past k b : low <= b < blk -> past k b = version_at roots maps live k b;
  be_target k : mode = Archive -> blk < top -> rd k <> blk -> blk < lim /\ past k blk = version_at roots maps live k blk
}.

(** The block [blk] is being written: the current version of a key has the map
    [M k], the nodes [cl k] and its root at the block [rd k]. *)
Record writing (T : TrieTable) (roots : K -> Roots) (low blk top : Z) (maps : history) (rd : K -> Z)
    (M : K -> gmap bits Felt) (cl : K -> gmultiset Z) : Prop := {
  wr_low : 0 <= low;
  wr_blk : 0 <= blk <= top;
  wr_roots k j : is_Some (roots k !! j) -> 0 <= j <= top;
  wr_empty k b : 0 <= b < blk -> maps b k = ∅ -> root_index (roots k) b = None;
  wr_target k : rd k <> blk -> maps blk k = ∅ -> root_index (roots k) blk = None;
  wr_forest : exists live lim past, below blk top roots maps rd live low lim past /\
    forest T low lim past (fun k => MkVersion (root_index (roots k) (rd k)) (M k) (cl k))
}.

(** ** A block *)

Lemma start_block T roots low head maps : held T roots low head maps ->
  exists cl, writing T roots low (head + 1) (head + 1) maps (fun _ => head + 1) (maps head) cl.
Proof.
  intros Hd. pose proof (held_head _ _ _ _ _ Hd). destruct (held_forest _ _ _ _ _ Hd) as [live F].
  exists (fun k => live k head).
  assert (Hg : forall k, root_index (roots k) (head + 1) = root_index (roots k) head).
  { intros k. apply root_index_gap; [lia|]. intros j Hj. destruct (roots k !! j) eqn:E; [|reflexivity].
    pose proof (held_roots _ _ _ _ _ Hd k j ltac:(eauto)). lia. }
  split; [exact (held_low _ _ _ _ _ Hd) | lia | | | easy |].
  - intros k j Hj. pose proof (held_roots _ _ _ _ _ Hd k j Hj). lia.
  - intros k b Hb. apply (held_empty _ _ _ _ _ Hd). lia.
  - exists live, (head + 1), (version_at roots maps live). split; [split; [lia | auto | intros; lia]|].
    apply (forest_ext _ _ _ _ _ _ _ _ _ _ F); [reflexivity|]. intros k. unfold version_at. now rewrite Hg.
Qed.

Lemma end_block T roots low blk maps M cl : writing T roots low blk blk maps (fun _ => blk) M cl ->
  held T roots low blk (set_block maps blk M).
Proof.
  intros W. pose proof (wr_blk _ _ _ _ _ _ _ _ _ W). destruct (wr_forest _ _ _ _ _ _ _ _ _ W) as (live & lim & past & B & F).
  apply (forest_rewind _ _ _ _ _ _ blk), (fun F => forest_ext _ _ _ _ _ _ _ (version_at roots maps live) _ _ F (fun k b Hb =>
    eq_sym (be_past _ _ _ _ _ _ _ _ _ B k b Hb)) (fun k => eq_refl)), forest_seal in F; [|exact (proj1 (be_lim _ _ _ _ _ _ _ _ _ B))].
  assert (Hm : forall k b, version_at roots (set_block maps blk M) (fun k => set_block (live k) blk (cl k)) k b
    = set_block (version_at roots maps live k) blk (MkVersion (root_index (roots k) blk) (M k) (cl k)) b).
  { intros k b. unfold version_at, set_block. now destruct (decide (b = blk)) as [->|]. }
  split; [exact (wr_low _ _ _ _ _ _ _ _ _ W) | lia | exact (wr_roots _ _ _ _ _ _ _ _ _ W) | |].
  - intros k b Hb E. destruct (decide (b = blk)) as [->|N].
    + rewrite set_block_eq in E. pose proof (forest_cur _ _ _ _ _ _ _ _ F k) as V.
      exact (version_empty lib H HEIGHT _ _ V E).
    + rewrite set_block_ne in E by exact N. apply (wr_empty _ _ _ _ _ _ _ _ _ W k b); [lia | exact E].
  - exists (fun k => set_block (live k) blk (cl k)). apply (forest_ext _ _ _ _ _ _ _ _ _ _ F).
    + intros k b _. apply Hm.
    + intros k. rewrite Hm. apply set_block_eq.
Qed.

(** ** Writing a trie *)

Lemma written_writing T T' roots low blk top maps rd M live lim past cl k us r lv :
  writing T roots low blk top maps rd M cl -> below blk top roots maps rd live low lim past ->
  forest T' (Z.max low (threshold mode blk)) lim past
    (set_key (fun k => MkVersion (root_index (roots k) (rd k)) (M k) (cl k)) k
      (MkVersion (next_root r (root_index (roots k) (rd k))) (map_set_all us (M k)) lv)) ->
  root_index (insert_root mode blk r (roots k)) blk = next_root r (root_index (roots k) (rd k)) ->
  writing T' (set_key roots k (insert_root mode blk r (roots k))) (Z.max low (threshold mode blk)) blk top maps
    (set_key rd k blk) (set_key M k (map_set_all us (M k))) (set_key cl k lv).
Proof.
  intros W B F Er. pose proof (wr_low _ _ _ _ _ _ _ _ _ W). pose proof (wr_blk _ _ _ _ _ _ _ _ _ W).
  split; [lia | lia | | | |].
  - intros k' j Hj. unfold set_key in Hj. destruct (decide (k' = k)) as [->|]; [|now apply (wr_roots _ _ _ _ _ _ _ _ _ W k')].
    destruct (decide (j = blk)) as [->|Nj]; [lia|]. destruct (roots k !! j) eqn:E;
      [exact (wr_roots _ _ _ _ _ _ _ _ _ W k j ltac:(eauto))|]. rewrite insert_root_rows in Hj by assumption. now destruct Hj.
  - intros k' b Hb E. unfold set_key. destruct (decide (k' = k)) as [->|]; [|now apply (wr_empty _ _ _ _ _ _ _ _ _ W)].
    pose proof (wr_empty _ _ _ _ _ _ _ _ _ W k b Hb E) as E0.
    destruct (root_index_old mode blk r (roots k) _ b (fun _ _ => eq_refl)) as [-> | ->]; [lia | exact E0 | reflexivity].
  - intros k' Hr E. unfold set_key in *. destruct (decide (k' = k)); [easy|]. now apply (wr_target _ _ _ _ _ _ _ _ _ W).
  - exists live, lim, past. split.
    { split; [exact (be_lim _ _ _ _ _ _ _ _ _ B)| |].
      - intros k' b Hb. rewrite (be_past _ _ _ _ _ _ _ _ _ B) by lia. unfold version_at, set_key.
        destruct (decide (k' = k)) as [->|]; [|reflexivity]. f_equal. symmetry.
        rewrite (root_index_written mode blk r (roots k) _ b) by (reflexivity || lia). now rewrite decide_False by lia.
      - intros k' Ar Hlt. unfold version_at, set_key. destruct (decide (k' = k)) as [->|]; [easy|].
        exact (be_target _ _ _ _ _ _ _ _ _ B k' Ar Hlt). }
    apply (forest_ext _ _ _ _ _ _ _ _ _ _ F); [reflexivity|].
    intros k'. unfold set_key. destruct (decide (k' = k)) as [->|]; [|reflexivity]. now rewrite Er.
Qed.

(** The root written by a block follows the root read before it. *)
Lemma block_root blk r (roots : Roots) : 0 <= blk ->
  root_index (insert_root mode blk r roots) blk = next_root r (root_index roots blk).
Proof.
  intros Hb. rewrite (root_index_written mode blk r roots _ blk); [|reflexivity | now apply threshold_le | lia].
  now rewrite decide_True.
Qed.

(** A revert writes at its target what was read at the head; if it writes
    nothing then the trie is empty, at the target too. *)
Lemma revert_root T roots low blk top maps rd M cl k us r T' low' lim past cur lv : writing T roots low blk top maps rd M cl ->
  forest T' low' lim past (set_key cur k (MkVersion (next_root r (root_index (roots k) (rd k))) (map_set_all us (M k)) lv)) ->
  rd k <> blk -> map_set_all us (M k) = maps blk k -> (r = Unchanged -> map_set_all us (M k) = ∅) ->
  root_index (insert_root mode blk r (roots k)) blk = next_root r (root_index (roots k) (rd k)).
Proof.
  intros W F Hr EM Hu. pose proof (wr_blk _ _ _ _ _ _ _ _ _ W). rewrite block_root by lia.
  destruct r as [|idx|]; cbn [next_root]; try reflexivity. specialize (Hu eq_refl).
  pose proof (forest_cur _ _ _ _ _ _ _ _ F k) as V. rewrite set_key_eq in V.
  pose proof (version_empty lib H HEIGHT _ _ V Hu) as E. cbn [v_root next_root] in E. rewrite E.
  apply (wr_target _ _ _ _ _ _ _ _ _ W k Hr). now rewrite <- EM.
Qed.

Lemma writing_ext T roots roots' low blk top maps rd rd' M M' cl cl' : writing T roots low blk top maps rd M cl ->
  (forall k, roots' k = roots k) -> (forall k, rd' k = rd k) -> (forall k, M' k = M k) -> (forall k, cl' k = cl k) ->
  writing T roots' low blk top maps rd' M' cl'.
Proof.
  intros [Wl Wb Wr We Wt (live & lim & past & [Bl Bp Bt] & F)] Er Ed Em Ec. split; [exact Wl | exact Wb | | | |].
  - intros k j. rewrite Er. apply Wr.
  - intros k b. rewrite Er. apply We.
  - intros k. rewrite Er, Ed. apply Wt.
  - exists live, lim, past. split.
    + split; [exact Bl | |].
      * intros k b Hb. unfold version_at. rewrite Er. now apply Bp.
      * intros k Ar Hlt. unfold version_at. rewrite Er, Ed. now apply Bt.
    + apply (forest_ext _ _ _ _ _ _ _ _ _ _ F); [reflexivity|]. intros k. now rewrite Er, Ed, Em, Ec.
Qed.

(** The versions from a later block on. *)
Lemma forest_low T low low' blk (past : K -> Z -> version) cur : forest T low blk past cur -> low <= low' -> forest T low' blk past cur.
Proof.
  intros F L. split; try apply F.
  - intros k b Hb. apply (forest_past _ _ _ _ _ _ _ _ F). lia.
  - intros row i Hr Hi. destruct (forest_marks _ _ _ _ _ _ _ _ F row i Hr Hi) as (A & B & C). split; [exact A|].
    split; [exact B|]. intros k b Hb. apply C. lia.
  - intros k k' i A A'. apply (forest_apart _ _ _ _ _ _ _ _ F k k' i); [revert A | revert A']; apply alive_sub; try lia; auto.
Qed.

Lemma writing_low T roots low low' blk top maps rd M cl : writing T roots low blk top maps rd M cl -> low <= low' ->
  writing T roots low' blk top maps rd M cl.
Proof.
  intros [Wl Wb Wr We Wt (live & lim & past & [Bl Bp Bt] & F)] L. split; try assumption; [lia|]. exists live, lim, past.
  split; [split; [exact Bl | intros k b Hb; apply Bp; lia | exact Bt] | exact (forest_low _ _ _ _ _ _ F L)].
Qed.

Lemma held_low_le T roots low low' head maps : held T roots low head maps -> low <= low' -> held T roots low' head maps.
Proof.
  intros [Hl Hh Hr He [live F]] L. split; try assumption; [lia|]. exists live. exact (forest_low _ _ _ _ _ _ F L).
Qed.

(** There are indices left for [n] rows. *)
Definition room (T : TrieTable) (n : nat) : Prop :=
  exists mx, bounded (rows T) mx /\ 0 <= mx /\ mx + Z.of_nat n <= I64_MAX.

Lemma room_le T n n' : room T n -> (n' <= n)%nat -> room T n'.
Proof. intros (mx & B & P & L) Hn. exists mx. split; [exact B|]. split; [exact P | lia]. Qed.

(** The current version of a key. *)
Definition current (roots : K -> Roots) (rd : K -> Z) (M : K -> gmap bits Felt) (cl : K -> gmultiset Z) (k : K) : version :=
  MkVersion (root_index (roots k) (rd k)) (M k) (cl k).

(** An update is written: its root follows the current one, which is that of the
    block, or the block had the new map before. *)
Lemma write_trie T roots low blk top maps rd M cl k us upd R n : writing T roots low blk top maps rd M cl ->
  prepared lib H HEIGHT (rows T) (current roots rd M cl k) us upd R -> room T (3 * size (map_set_all us (M k)) + n) ->
  root_index (roots k) (rd k) = root_index (roots k) blk \/
    rd k <> blk /\ us <> [] /\ map_set_all us (M k) = maps blk k ->
  exists r T' lv, insert_trie lib (insert_fuel upd) mode upd blk T = Ret (Ok (r, T')) /\ room T' n /\
    (us = [] -> r = Unchanged) /\ (forall k' i, k' <> k -> i ∈ cl k' -> rows T' !! i = rows T !! i) /\
    writing T' (set_key roots k (insert_root mode blk r (roots k))) (Z.max low (threshold mode blk)) blk top maps
      (set_key rd k blk) (set_key M k (map_set_all us (M k))) (set_key cl k lv).
Proof.
  intros W P (mx & Hb & Hm & Hroom) Hr. destruct (wr_forest _ _ _ _ _ _ _ _ _ W) as (live & lim & past & B & F).
  pose proof (forest_write lib H HEIGHT T low lim blk _ _ k us upd R (insert_fuel upd) mx F
    ltac:(pose proof (wr_blk _ _ _ _ _ _ _ _ _ W); lia) (proj2 (be_lim _ _ _ _ _ _ _ _ _ B)) P (Nat.le_refl _) Hb Hm) as Fw. cbn [v_map v_root] in Fw. cbv zeta in Fw.
  destruct (insert_trie lib (insert_fuel upd) mode upd blk T) as [[[r T']|e]|]; [| lia | easy].
  destruct Fw as (Hb' & Hu & Hz & Fr & lv & F'). exists r, T', lv. split; [reflexivity|].
  split; [exists (mx + Z.of_nat (3 * size (map_set_all us (M k)))); split; [exact Hb'|]; split; lia|].
  split; [exact Hz|]. split; [exact Fr|].
  apply (written_writing T T' roots low blk top maps rd M live lim past cl k us r lv W B F').
  destruct Hr as [Hr|(Hn & Hus & EM)].
  - rewrite Hr. apply block_root. pose proof (wr_blk _ _ _ _ _ _ _ _ _ W). lia.
  - exact (revert_root T roots low blk top maps rd M cl k us r T' _ _ _ _ lv W F' Hn EM (Hu Hus)).
Qed.

(** An update without changes leaves the root where it was read. *)
Lemma write_nothing T roots low blk top maps rd M cl k upd R : writing T roots low blk top maps rd M cl ->
  prepared lib H HEIGHT (rows T) (current roots rd M cl k) [] upd R -> room T (3 * size (M k)) ->
  exists T' lv, insert_trie lib (insert_fuel upd) mode upd blk T = Ret (Ok (Unchanged, T')) /\
    writing T' roots (Z.max low (threshold mode blk)) blk top maps rd M (set_key cl k lv).
Proof.
  intros W P (mx & Hb & Hm & Hroom). destruct (wr_forest _ _ _ _ _ _ _ _ _ W) as (live & lim & past & B & F).
  pose proof (forest_write lib H HEIGHT T low lim blk _ _ k [] upd R (insert_fuel upd) mx F
    ltac:(pose proof (wr_blk _ _ _ _ _ _ _ _ _ W); lia) (proj2 (be_lim _ _ _ _ _ _ _ _ _ B)) P (Nat.le_refl _) Hb Hm) as Fw.
  cbn [v_map v_root] in Fw. cbv zeta in Fw. change (map_set_all [] (M k)) with (M k) in Fw.
  destruct (insert_trie lib (insert_fuel upd) mode upd blk T) as [[[r T']|e]|]; [| lia | easy].
  destruct Fw as (_ & _ & Hz & _ & lv & F'). specialize (Hz eq_refl). subst r. exists T', lv. split; [reflexivity|].
  destruct W as [Wl Wb Wr We Wt _]. split; try assumption; [lia|]. exists live, lim, past.
  destruct B as [Bl Bp Bt]. split; [split; [exact Bl | intros k' b Hb'; apply Bp; lia | exact Bt]|].
  apply (forest_ext _ _ _ _ _ _ _ _ _ _ F'); [reflexivity|]. intros k'. unfold set_key. now destruct (decide (k' = k)) as [->|].
Qed.

(** Updates of other keys that are not written yet remain valid. *)
Lemma prepared_after T T' roots rd M cl k x r blk m lv us upd R : x <> k ->
  prepared lib H HEIGHT (rows T) (current roots rd M cl x) us upd R ->
  (forall k' i, k' <> k -> i ∈ cl k' -> rows T' !! i = rows T !! i) ->
  prepared lib H HEIGHT (rows T') (current (set_key roots k r) (set_key rd k blk) (set_key M k m) (set_key cl k lv) x)
    us upd R.
Proof.
  intros N P Fr. unfold current. rewrite !set_key_ne by exact N.
  apply (prepared_rows _ _ _ _ _ _ _ _ _ P). intros i Hi. exact (Fr x i N Hi).
Qed.

(** ** A revert *)

Lemma start_revert T roots low head target maps : held T roots low head maps -> 0 <= target < head ->
  exists cl, writing T roots low target head maps (fun _ => head) (maps head) cl.
Proof.
  intros Hd Ht. destruct (held_forest _ _ _ _ _ Hd) as [live F]. exists (fun k => live k head).
  split; [exact (held_low _ _ _ _ _ Hd) | lia | exact (held_roots _ _ _ _ _ Hd) | | |].
  - intros k b Hb. apply (held_empty _ _ _ _ _ Hd). lia.
  - intros k _. apply (held_empty _ _ _ _ _ Hd). lia.
  - destruct (decide (mode = Archive)) as [Ar|Na].
    + exists live, (head + 1), (version_at roots maps live). split; [|exact F]. split; [split; [lia | now right] | auto | split; [lia | auto]].
    + exists live, target, (version_at roots maps live). split; [split; [split; [lia | left; lia] | auto | easy]|].
      apply (forest_rewind _ _ _ _ _ (head + 1)); [exact F | lia].
Qed.

(** How a key stands at the end of a revert: it was written, its root is that of
    the target, it has no entries at the target, or nothing is ever pruned. *)
Definition reverted (roots : K -> Roots) (low target head : Z) (maps : history) (rd : K -> Z) (M : K -> gmap bits Felt)
    (k : K) : Prop :=
  rd k = target /\ M k = maps target k \/
  rd k = head /\ M k = maps target k /\ root_index (roots k) head = root_index (roots k) target \/
  rd k <> target /\ maps target k = ∅ \/
  rd k <> target /\ mode = Archive /\ low <= target < head.

Lemma end_revert T roots roots' low target head maps rd M cl : writing T roots low target head maps rd M cl ->
  (forall k, reverted roots low target head maps rd M k) ->
  (forall k j, roots' k !! j = if decide (j <= target) then roots k !! j else None) ->
  held (coalesce_removed_trie_nodes target T) roots' low target maps.
Proof.
  intros W Hr Hp. pose proof (wr_blk _ _ _ _ _ _ _ _ _ W). destruct (wr_forest _ _ _ _ _ _ _ _ _ W) as (live & lim & past & B & F).
  assert (Hq : forall k b, b <= target -> root_index (roots' k) b = root_index (roots k) b).
  { intros k b Hb. unfold root_index. rewrite (query_last_ext (roots k)); [reflexivity|]. intros j Hj.
    rewrite Hp. now rewrite decide_True by lia. }
  set (lv k := if decide (maps target k = ∅) then ∅
               else if decide (rd k <> target /\ mode = Archive /\ low <= target < head) then live k target else cl k).
  assert (F' : forest T low target (version_at roots maps live)
    (fun k => MkVersion (root_index (roots k) target) (maps target k) (lv k))).
  { apply (forest_ext _ _ _ _ _ _ past _ (fun k => MkVersion (root_index (roots k) target) (maps target k) (lv k)));
      [|intros k b Hb; symmetry; exact (be_past _ _ _ _ _ _ _ _ _ B k b Hb) | reflexivity].
    apply (forest_rewind _ _ _ _ _ lim); [|exact (proj1 (be_lim _ _ _ _ _ _ _ _ _ B))].
    apply (forest_drop _ _ _ _ _ _ _ _ _ F). intros k. unfold lv. destruct (decide (maps target k = ∅)) as [E|N].
    - right. left. unfold no_version. rewrite E. f_equal. destruct (decide (rd k = target)) as [Rk|Rk];
        [|exact (wr_target _ _ _ _ _ _ _ _ _ W k Rk E)].
      assert (Mk : M k = maps target k) by (destruct (Hr k) as [[_ Mk]|[(_ & Mk & _)|[[? _]|[? _]]]]; [exact Mk | exact Mk | easy | easy]).
      pose proof (forest_cur _ _ _ _ _ _ _ _ F k) as V. cbn beta in V. rewrite Rk, Mk in V.
      exact (version_empty lib H HEIGHT _ _ V E).
    - destruct (decide (rd k <> target /\ mode = Archive /\ low <= target < head)) as [(Rk & Ar & Lt)|Nr].
      + right. right. split; [exact Ar|]. destruct (be_target _ _ _ _ _ _ _ _ _ B k Ar ltac:(lia) Rk) as [Ll Ep].
        exists target. split; [lia|]. now rewrite Ep.
      + left. destruct (Hr k) as [[Rk Mk]|[(Rk & Mk & Rl)|[[_ E]|E]]]; [now rewrite Rk, Mk | | easy | easy].
        now rewrite Rk, Mk, Rl. }
  assert (Hv : forall k b, b <= target -> version_at roots' maps (fun k => set_block (live k) target (lv k)) k b
    = set_block (version_at roots maps live k) target (MkVersion (root_index (roots k) target) (maps target k) (lv k)) b).
  { intros k b Hb. unfold version_at, set_block. rewrite Hq by exact Hb. now destruct (decide (b = target)) as [->|]. }
  split; [exact (wr_low _ _ _ _ _ _ _ _ _ W) | lia | | |].
  - intros k j Hj. rewrite Hp in Hj. destruct (decide (j <= target)); [|now destruct Hj].
    pose proof (wr_roots _ _ _ _ _ _ _ _ _ W k j Hj). lia.
  - intros k b Hb E. rewrite Hq by lia. destruct (decide (b = target)) as [->|N].
    + exact (version_empty lib H HEIGHT _ _ (forest_cur _ _ _ _ _ _ _ _ F' k) E).
    + apply (wr_empty _ _ _ _ _ _ _ _ _ W k b); [lia | exact E].
  - exists (fun k => set_block (live k) target (lv k)).
    apply (forest_ext _ _ _ _ _ _ _ _ _ _ (forest_seal _ _ _ _ _ _ _ _ (forest_coalesce _ _ _ _ _ _ _ _ F' ltac:(lia)))).
    + intros k b Hb. apply Hv. lia.
    + intros k. rewrite Hv by lia. apply set_block_eq.
Qed.

(** Without any block nothing is held. *)
Lemma held_none T roots maps : nodes_ok (rows T) -> Forall (fun row => 0 <= row.1) (removals T) ->
  Forall (row_ok lib) (removals T) -> (forall row i, row ∈ removals T -> i ∈ marks lib row -> is_Some (rows T !! i)) ->
  NoDup (marked lib (removals T)) -> (mode = Archive -> removals T = []) -> (forall k j, roots k !! j = None) -> (forall k, maps (-1) k = ∅) ->
  held T roots 0 (-1) maps.
Proof.
  intros Hn Hb Hd Hm Ho Ha Hr He.
  assert (Hv : forall k, version_at roots maps (fun _ _ => ∅) k (-1) = no_version).
  { intros k. unfold version_at, no_version. rewrite He. f_equal. unfold root_index, query_last.
    rewrite last_block_none; [reflexivity|]. intros j Hj. rewrite Hr in Hj. now destruct Hj. }
  split; [lia | lia | intros k j Hj; rewrite Hr in Hj; now destruct Hj | intros; lia |].
  exists (fun _ _ => ∅). split; try assumption.
  - intros; lia.
  - intros k. rewrite Hv. apply no_version_ok.
  - intros row i Hin Hi. split; [exact (Hm row i Hin Hi)|]. split; [|intros; lia]. intros k. rewrite Hv. cbn. clear. multiset_solver.
  - intros k k' i [Hi|(b & Hb' & _)]; [|lia]. rewrite Hv in Hi. cbn in Hi. revert Hi. clear. multiset_solver.
Qed.

Lemma held_reset T T' roots roots' low head maps : held T roots low head maps -> rows T' = rows T ->
  (exists P, removals T' = List.filter P (removals T)) -> (forall k j, roots' k !! j = None) ->
  (forall k, maps (-1) k = ∅) -> held T' roots' 0 (-1) maps.
Proof.
  intros Hd Er [P Ep] Hn Hm. destruct (held_forest _ _ _ _ _ Hd) as [live F].
  assert (Sub : forall row, row ∈ removals T' -> row ∈ removals T).
  { intros row. rewrite Ep, !list_elem_of_In. apply filter_In. }
  apply held_none; [| | | | | | exact Hn | exact Hm].
  - rewrite Er. exact (forest_nodes _ _ _ _ _ _ _ _ F).
  - apply Forall_forall. intros row Hr. exact (proj1 (Forall_forall _ _) (forest_blocks _ _ _ _ _ _ _ _ F) row (Sub row Hr)).
  - apply Forall_forall. intros row Hr. exact (proj1 (Forall_forall _ _) (forest_decode _ _ _ _ _ _ _ _ F) row (Sub row Hr)).
  - intros row i Hr Hi. rewrite Er. exact (proj1 (forest_marks _ _ _ _ _ _ _ _ F row i (Sub row Hr) Hi)).
  - rewrite Ep. apply marked_filter_NoDup. exact (forest_once _ _ _ _ _ _ _ _ F).
  - intros Ar. rewrite Ep, (forest_archive _ _ _ _ _ _ _ _ F Ar). reflexivity.
Qed.

Lemma held_empty_table roots maps : (forall k j, roots k !! j = None) -> (forall k, maps (-1) k = ∅) ->
  held (MkTable ∅ []) roots 0 (-1) maps.
Proof.
  intros Hr Hm. apply held_none; [| constructor | constructor | | constructor | reflexivity | exact Hr | exact Hm].
  - intros i Hi. cbn in Hi. rewrite lookup_empty in Hi. now destruct Hi.
  - intros row i Hin. inversion Hin.
Qed.
End Roots.
