(* ===== verification/Bincode.v ===== *)
(** A concrete choice of the libraries the trie tables use: paths packed into
    bytes with zero padding, the variable-length integers of bincode's standard
    configuration, and row indices above the largest in use. *)

From Stdlib Require Import ZArith Lia Bool List.
From stdpp Require Import gmap list.
From S2P Require Import Prelude Bytes MerkleNode TrieStore.
Local Open Scope Z_scope.

(** ** Bits *)

Definition pack (p : bits) : list Z :=
  let n := (length p / 8 + 1)%nat in
  bytes_of_bits n (p ++ repeat false (8 * n - length p)).

Lemma bits_of_byte l : length l = 8%nat -> byte_bits (bits_value l) = l.
Proof.
  intros L. do 8 (destruct l as [|[] l]; try discriminate L); destruct l; try discriminate L; reflexivity.
Qed.

Lemma bits_of_bytes_of_bits n : forall l, length l = (8 * n)%nat -> bits_of_bytes (bytes_of_bits n l) = l.
Proof.
  induction n as [|n IH]; intros l L; [now destruct l|]. cbn [bytes_of_bits bits_of_bytes flat_map].
  fold (bits_of_bytes (bytes_of_bits n (skipn 8 l))). rewrite IH by (rewrite length_skipn; lia).
  rewrite bits_of_byte by (rewrite length_firstn; lia). apply firstn_skipn.
Qed.

Lemma pack_bits p : take (length p) (bits_of_bytes (pack p)) = p.
Proof.
  unfold pack. cbv zeta. assert (L : (length p <= 8 * (length p / 8 + 1))%nat).
  { pose proof (Nat.div_mod_eq (length p) 8). pose proof (Nat.mod_upper_bound (length p) 8 ltac:(lia)). lia. }
  rewrite bits_of_bytes_of_bits by (rewrite length_app, repeat_length; lia). apply take_app_length.
Qed.

(** ** Integers *)

(** A byte below 251, or a marker and 2, 4 or 8 bytes, least significant first. *)
Definition varint (u : Z) : list Z :=
  if u <? 251 then [u]
  else if u <? 2 ^ 16 then 251 :: rev (to_be 2 u)
  else if u <? 2 ^ 32 then 252 :: rev (to_be 4 u)
  else 253 :: rev (to_be 8 u).

Definition fixed (n : nat) (data : list Z) : Z * list Z := (from_be (rev (take n data)), drop n data).

Definition read_varint (data : list Z) : option (Z * list Z) :=
  match data with
  | [] => None
  | b :: data =>
      if b <? 251 then Some (b, data)
      else if b =? 251 then Some (fixed 2 data)
      else if b =? 252 then Some (fixed 4 data)
      else if b =? 253 then Some (fixed 8 data)
      else None
  end.

Lemma fixed_app n u data : 0 <= u < 256 ^ Z.of_nat n -> fixed n (rev (to_be n u) ++ data) = (u, data).
Proof.
  intros Hu. unfold fixed.
  assert (L : n = length (rev (to_be n u))) by (rewrite length_rev; symmetry; apply to_digits_length).
  rewrite take_app_length', drop_app_length', rev_involutive by exact L.
  unfold from_be, to_be. now rewrite to_digits_value by (lia || exact Hu).
Qed.

Lemma read_varint_app u data : 0 <= u < 2 ^ 64 -> read_varint (varint u ++ data) = Some (u, data).
Proof.
  intros Hu. unfold varint. destruct (Z.ltb_spec u 251); [cbn; destruct (Z.ltb_spec u 251); [reflexivity | lia]|].
  destruct (Z.ltb_spec u (2 ^ 16)).
  { change ((251 :: rev (to_be 2 u)) ++ data) with (251 :: (rev (to_be 2 u) ++ data)). cbn [read_varint].
    change (251 <? 251) with false. change (251 =? 251) with true. cbv iota. rewrite fixed_app by lia. reflexivity. }
  destruct (Z.ltb_spec u (2 ^ 32)).
  { change ((252 :: rev (to_be 4 u)) ++ data) with (252 :: (rev (to_be 4 u) ++ data)). cbn [read_varint].
    change (252 <? 251) with false. change (252 =? 251) with false. change (252 =? 252) with true. cbv iota.
    rewrite fixed_app by lia. reflexivity. }
  change ((253 :: rev (to_be 8 u)) ++ data) with (253 :: (rev (to_be 8 u) ++ data)). cbn [read_varint].
  change (253 <? 251) with false. change (253 =? 251) with false. change (253 =? 252) with false.
  change (253 =? 253) with true. cbv iota. rewrite fixed_app by lia. reflexivity.
Qed.

Definition u64 (u : Z) : bool := (0 <=? u) && (u <? 2 ^ 64).

Lemma u64_spec u : u64 u = true -> 0 <= u < 2 ^ 64.
Proof. unfold u64. lia. Qed.

Lemma varint_length u : (length (varint u) <= 9)%nat.
Proof.
  unfold varint. destruct (u <? 251); [cbn; lia|].
  destruct (u <? 2 ^ 16); [|destruct (u <? 2 ^ 32)]; cbn [length]; rewrite length_rev; unfold to_be;
    rewrite to_digits_length; lia.
Qed.

(** ** Nodes and indices *)

Definition write_bytes (l : list Z) : list Z := varint (Z.of_nat (length l)) ++ l.

Definition read_bytes (data : list Z) : option (list Z) :=
  match read_varint data with
  | None => None
  | Some (n, data) => Some (take (Z.to_nat n) data)
  end.

Lemma read_write_bytes l : Z.of_nat (length l) < 2 ^ 64 -> read_bytes (write_bytes l) = Some l.
Proof.
  intros L. unfold read_bytes, write_bytes. rewrite read_varint_app by lia. rewrite Nat2Z.id. now rewrite take_ge by lia.
Qed.

Definition serde_data (s : StoredSerde) : option (list Z) :=
  match s with
  | SerdeBinary l r => if u64 l && u64 r then Some (0 :: varint l ++ varint r) else None
  | SerdeEdge c p => if u64 c then Some (1 :: varint c ++ write_bytes p) else None
  | SerdeLeafBinary => Some [2]
  | SerdeLeafEdge p => Some (3 :: write_bytes p)
  end.

(** The buffer has 256 bytes. *)
Definition write_serde (s : StoredSerde) : option (list Z) :=
  match serde_data s with
  | Some data => if (length data <=? 256)%nat then Some data else None
  | None => None
  end.

Definition read_serde (data : list Z) : option StoredSerde :=
  match data with
  | 0 :: data =>
      match read_varint data with
      | Some (l, data) => match read_varint data with Some (r, _) => Some (SerdeBinary l r) | None => None end
      | None => None
      end
  | 1 :: data =>
      match read_varint data with
      | Some (c, data) => match read_bytes data with Some p => Some (SerdeEdge c p) | None => None end
      | None => None
      end
  | 2 :: _ => Some SerdeLeafBinary
  | 3 :: data => match read_bytes data with Some p => Some (SerdeLeafEdge p) | None => None end
  | _ => None
  end.

Lemma read_write_serde s data : write_serde s = Some data -> read_serde data = Some s.
Proof.
  unfold write_serde. destruct (serde_data s) as [d|] eqn:Ed; [|discriminate].
  destruct (Nat.leb_spec (length d) 256) as [L|]; [|discriminate]. intros [= <-].
  destruct s as [l r|c p| |p]; cbn [serde_data] in Ed.
  - destruct (u64 l) eqn:Hl; [|discriminate]. destruct (u64 r) eqn:Hr; [|discriminate]. injection Ed as <-.
    cbn [read_serde]. rewrite read_varint_app by now apply u64_spec.
    rewrite <- (app_nil_r (varint r)). now rewrite read_varint_app by now apply u64_spec.
  - destruct (u64 c) eqn:Hc; [|discriminate]. injection Ed as <-. cbn [read_serde].
    rewrite read_varint_app by now apply u64_spec. rewrite read_write_bytes; [reflexivity|].
    cbn [length] in L. unfold write_bytes in L. rewrite !length_app in L. lia.
  - now injection Ed as <-.
  - injection Ed as <-. cbn [read_serde]. rewrite read_write_bytes; [reflexivity|].
    cbn [length] in L. unfold write_bytes in L. rewrite !length_app in L. lia.
Qed.

Lemma write_serde_fits s : serde_small s -> exists data, write_serde s = Some data.
Proof.
  unfold write_serde, serde_small, index_ok, I64_MAX. intros Hs.
  assert (C : exists d, serde_data s = Some d /\ (length d <= 256)%nat).
  { destruct s as [l r|c p| |p]; cbn [serde_data].
    - rewrite (proj2 (andb_true_iff (u64 l) (u64 r))) by (unfold u64; lia). eexists. split; [reflexivity|].
      pose proof (varint_length l). pose proof (varint_length r). cbn [length]. rewrite length_app. lia.
    - replace (u64 c) with true by (unfold u64; lia). eexists. split; [reflexivity|]. unfold write_bytes.
      pose proof (varint_length c). pose proof (varint_length (Z.of_nat (length p))). cbn [length].
      rewrite !length_app. lia.
    - eexists. split; [reflexivity | cbn; lia].
    - eexists. split; [reflexivity|]. unfold write_bytes. pose proof (varint_length (Z.of_nat (length p))).
      cbn [length]. rewrite !length_app. lia. }
  destruct C as (d & -> & L). rewrite (proj2 (Nat.leb_le _ _) L). eauto.
Qed.

Definition write_indices (l : list Z) : option (list Z) :=
  if forallb u64 l && (Z.of_nat (length l) <? 2 ^ 64) then Some (varint (Z.of_nat (length l)) ++ concat (map varint l)) else None.

Fixpoint read_many (n : nat) (data : list Z) : option (list Z) :=
  match n with
  | O => Some []
  | S n =>
      match read_varint data with
      | Some (u, data) => match read_many n data with Some l => Some (u :: l) | None => None end
      | None => None
      end
  end.

Definition read_indices (data : list Z) : option (list Z) :=
  match read_varint data with
  | Some (n, data) => read_many (Z.to_nat n) data
  | None => None
  end.

Lemma read_many_spec l : forallb u64 l = true -> read_many (length l) (concat (map varint l)) = Some l.
Proof.
  induction l as [|u l IH]; cbn [forallb]; [reflexivity|]. intros [Hu Hl]%andb_true_iff.
  cbn [length map concat read_many]. rewrite read_varint_app by now apply u64_spec. now rewrite IH.
Qed.

Lemma read_write_indices l data : write_indices l = Some data -> read_indices data = Some l.
Proof.
  unfold write_indices, read_indices. destruct (forallb u64 l) eqn:Hl; [|discriminate].
  destruct (Z.ltb_spec (Z.of_nat (length l)) (2 ^ 64)) as [L|]; [|discriminate]. intros [= <-].
  rewrite read_varint_app by lia. rewrite Nat2Z.id. now apply read_many_spec.
Qed.

(** ** Row indices *)

Definition max_idx (nodes : gmap Z (list Z * list Z)) : Z := map_fold (fun i _ m => Z.max i m) 0 nodes.

Definition fresh_idx (nodes : gmap Z (list Z * list Z)) : option Z :=
  if max_idx nodes <? I64_MAX then Some (max_idx nodes + 1) else None.

Lemma max_idx_spec nodes : 0 <= max_idx nodes /\ (forall i, is_Some (nodes !! i) -> i <= max_idx nodes) /\
  forall m, 0 <= m -> (forall i, is_Some (nodes !! i) -> i <= m) -> max_idx nodes <= m.
Proof.
  unfold max_idx. apply (map_fold_weak_ind (fun r nodes => 0 <= r /\ (forall i, is_Some (nodes !! i) -> i <= r) /\
    forall m, 0 <= m -> (forall i, is_Some (nodes !! i) -> i <= m) -> r <= m)).
  - split; [lia|]. split; [intros i Hi; rewrite lookup_empty in Hi; now destruct Hi | auto].
  - intros i x nodes' r Hi (H0 & Hm & Hb). split; [lia|]. split.
    + intros j Hj. destruct (decide (j = i)) as [->|N]; [lia|]. rewrite lookup_insert_ne in Hj by congruence.
      specialize (Hm j Hj). lia.
    + intros m H0m Hall. apply Z.max_lub; [apply Hall; rewrite lookup_insert_eq; eauto|].
      apply Hb; [exact H0m|]. intros j Hj. apply Hall. rewrite lookup_insert_ne; [exact Hj|]. intros ->.
      rewrite Hi in Hj. now destruct Hj.
Qed.

Definition bincode_libraries : Libraries :=
  MkLibraries pack write_serde read_serde write_indices read_indices fresh_idx.

#[export] Instance bincode_laws : LibraryLaws bincode_libraries.
Proof.
  split; cbn [into_vec encode_serde decode_serde encode_indices decode_indices next_idx bincode_libraries].
  - exact pack_bits.
  - intros p. unfold pack. rewrite bytes_of_bits_length. lia.
  - exact read_write_serde.
  - exact write_serde_fits.
  - exact read_write_indices.
  - intros l Hl Ll. unfold write_indices. rewrite (proj2 (Z.ltb_lt _ _) Ll), (proj2 (forallb_forall _ _)); [eauto|].
    intros i Hi. unfold u64. apply list_elem_of_In in Hi. pose proof (proj1 (Forall_forall _ _) Hl i Hi) as B.
    unfold index_ok, I64_MAX in B. lia.
  - intros nodes i. unfold fresh_idx. destruct (Z.ltb_spec (max_idx nodes) I64_MAX); [|discriminate].
    intros [= <-]. destruct (max_idx_spec nodes) as (H0 & Hm & _). split; [|unfold index_ok; lia].
    destruct (nodes !! (max_idx nodes + 1)) eqn:E; [|reflexivity]. specialize (Hm (max_idx nodes + 1)).
    rewrite E in Hm. assert (max_idx nodes + 1 <= max_idx nodes) by eauto. lia.
  - intros nodes m Hb Hm. destruct (max_idx_spec nodes) as (_ & _ & Hmin). specialize (Hmin m ltac:(lia) Hb).
    unfold fresh_idx. rewrite (proj2 (Z.ltb_lt _ _)) by lia. eexists. split; [reflexivity | lia].
Qed.
