(* ===== verification/TransactionTree.v ===== *)
(** The tree of a block's transactions or events, merkle-tree/src/transaction.rs:
    a tree of height 64 without storage, from indices to hashes. *)

From Stdlib Require Import ZArith Lia Bool List.
From stdpp Require Import gmap gmultiset list sets.
From S2P Require Import Prelude Bytes Felt MerkleNode Tree TrieSpec TreeHash TreeRep TreeOps TreeMap TreeCommit.
Local Open Scope Z_scope.

(** ** Code *)

(** A storage that has nothing and does not fail. *)
Definition NullStorage : Storage Empty_set :=
  MkStorage Empty_set (fun _ => Ok None) (fun _ => Ok None) (fun _ => Ret (Ok None)).

Definition TRANSACTION_HEIGHT : nat := 64.

Definition transaction_tree_default (m : Mem) : state := (tree_empty, m).

Definition transaction_key (index : Z) : bits := bits_of_bytes (to_be 8 index).

Definition transaction_tree_set (index : Z) (value : Felt) : M Empty_set unit :=
  set NullStorage TRANSACTION_HEIGHT (transaction_key index) value.

Definition transaction_tree_commit (H : Felt -> Felt -> outcome Felt) (st : state)
    : outcome (result (TreeError Empty_set) Felt) :=
  let+ update := commit NullStorage H TRANSACTION_HEIGHT st in
  Ret (Ok (root_commitment update)).

(** ** Facts *)

Lemma transaction_key_length i : length (transaction_key i) = TRANSACTION_HEIGHT.
Proof.
  unfold transaction_key, TRANSACTION_HEIGHT. rewrite bits_of_bytes_length. unfold to_be.
  rewrite to_digits_length. reflexivity.
Qed.

Lemma transaction_key_value i : 0 <= i < 2 ^ 64 -> bits_value (transaction_key i) = i.
Proof.
  intros Hi. unfold transaction_key. rewrite bits_of_bytes_value by (apply to_digits_ok; lia).
  apply to_digits_value; [lia | exact Hi].
Qed.

(** The keys are in the order of the indices. *)
Lemma transaction_key_inj i j : 0 <= i < 2 ^ 64 -> 0 <= j < 2 ^ 64 ->
  transaction_key i = transaction_key j -> i = j.
Proof. intros Hi Hj E. rewrite <- (transaction_key_value i Hi), E. now apply transaction_key_value. Qed.

Lemma null_known H : closed NullStorage (known NullStorage H).
Proof. apply known_closed. Qed.

(** The state of a tree that stands for a map. *)
Definition transactions (H : Felt -> Felt -> outcome Felt) (M : gmap bits Felt) (st : state) : Prop :=
  represents NullStorage TRANSACTION_HEIGHT (known NullStorage H) M ∅ st.

Lemma default_transactions H m : mem_ok m -> transactions H ∅ (transaction_tree_default m).
Proof. intros K. now apply empty_represents. Qed.

Lemma set_transactions H M st i v : transactions H M st ->
  exists st', transaction_tree_set i v st = Ret (Ok tt, st') /\ transactions H (map_set (transaction_key i) v M) st'.
Proof.
  intros Rp. unfold transaction_tree_set.
  destruct (set_refines NullStorage TRANSACTION_HEIGHT (Nat.lt_0_succ 63) (known NullStorage H) (null_known H) M ∅ st (transaction_key i) v Rp
    (transaction_key_length i)) as (st' & E & Rp' & _).
  exists st'. split; [exact E | exact Rp'].
Qed.

Lemma commit_transactions H (HH : FeltHash H) M st : transactions H M st -> map_Forall (fun _ v => felt_ok v) M ->
  exists h, transaction_tree_commit H st = Ret (Ok h) /\ felt_ok h /\
    spec_root H TRANSACTION_HEIGHT (fun k => M !! k) = Ret h.
Proof.
  intros Rp HM. destruct (map_root_total NullStorage H TRANSACTION_HEIGHT M ∅ st HH) as (h & Eh & Hh);
    [unfold TRANSACTION_HEIGHT; lia | exact Rp | exact HM|].
  destruct (commit_spec NullStorage H TRANSACTION_HEIGHT M ∅ st h) as (upd & R & Ec & Er & _);
    [unfold TRANSACTION_HEIGHT; lia | exact Rp | exact Eh|].
  exists h. unfold transaction_tree_commit. rewrite Ec. cbn [try]. now rewrite Er.
Qed.
