(* ===== verification/Hashing.v ===== *)
(** Hashing of protocol data with the streaming Poseidon hasher, the version of
    Starknet a block has, and the commitments of the state: common/src/lib.rs
    ([StarknetVersion], [StateCommitment::calculate],
    [calculate_class_commitment_leaf_hash]) and
    merkle-tree/src/contract_state.rs ([calculate_contract_state_hash]). *)

From Stdlib Require Import Ascii String ZArith Lia Bool List Zmod.
From S2P Require Import Prelude Bytes Words Montgomery MontgomeryFacts MontBytes NumberTheory Fields Felt.
From S2P Require Import Poseidon Pedersen.
Import ListNotations.
Local Open Scope Z_scope.

(** ** What is written to a hasher *)

(** The argument of [hasher.write], a conversion to [MontFelt] that may panic. *)
Abbreviation word := (outcome limbs).

Definition felt_word (f : Felt) : word := Ret (mont_of_felt f).

(** [MontFelt::from(u64)] and [MontFelt::from(u128)] *)
Definition u64_word (u : Z) : word := let! f := from_u64 u in Ret (mont_of_felt f).
Definition u128_word (u : Z) : word := let! f := from_u128 u in Ret (mont_of_felt f).

(** [felt_bytes!(b"..")] *)
Definition felt_bytes (s : string) : outcome Felt := unwrap_result (felt_from_be_slice (bytes_of_string s)).
Definition tag_word (s : string) : word := let! f := felt_bytes s in Ret (mont_of_felt f).

(** [MontFelt::from_be_bytes] *)
Definition bytes_word (bytes : list Z) : word := Ret (@from_be_bytes MontFelt bytes).

Fixpoint write_all (hasher : PoseidonHasher) (words : list word) : outcome PoseidonHasher :=
  match words with
  | [] => Ret hasher
  | w :: words => let! x := w in write_all (@hasher_write MontFelt hasher x) words
  end.

(** [hasher.finish()] after the words are written to a new hasher. *)
Definition hash_limbs (words : list word) : outcome limbs :=
  let! hasher := write_all hasher_new words in
  Ret (@hasher_finish MontFelt hasher).

(** [hasher.finish().into()] *)
Definition hash_words (words : list word) : outcome Felt :=
  let! h := hash_limbs words in
  felt_of_mont h.

(** ** Versions *)

Record StarknetVersion : Type := MkVersion { major : Z; minor : Z; patch : Z; build : Z }.

(** The derived lexicographic order. *)
Definition version_ltb (a b : StarknetVersion) : bool :=
  (major a <? major b) || ((major a =? major b) &&
  ((minor a <? minor b) || ((minor a =? minor b) &&
  ((patch a <? patch b) || ((patch a =? patch b) && (build a <? build b)))))).

Definition V_0_11_1 : StarknetVersion := MkVersion 0 11 1 0.
Definition V_0_13_2 : StarknetVersion := MkVersion 0 13 2 0.
Definition V_0_13_4 : StarknetVersion := MkVersion 0 13 4 0.
Definition V_0_14_0 : StarknetVersion := MkVersion 0 14 0 0.

(** [u32::from_le_bytes] and [to_le_bytes] *)
Definition as_u32 (v : StarknetVersion) : Z := from_be [build v; patch v; minor v; major v].

Definition from_u32 (version : Z) : StarknetVersion :=
  match rev (to_be 4 version) with
  | [a; b; c; d] => MkVersion a b c d
  | _ => MkVersion 0 0 0 0
  end.

(** The decimal digits of a [u8]. *)
Definition dec_u8 (n : Z) : list Z :=
  if n <? 10 then [48 + n]
  else if n <? 100 then [48 + n / 10; 48 + n mod 10]
  else [48 + n / 100; 48 + n / 10 mod 10; 48 + n mod 10].

Definition dot : list Z := [46].

(** [Display] *)
Definition version_display (v : StarknetVersion) : list Z :=
  if (major v =? 0) && (minor v =? 0) && (patch v =? 0) && (build v =? 0) then []
  else if build v =? 0 then dec_u8 (major v) ++ dot ++ dec_u8 (minor v) ++ dot ++ dec_u8 (patch v)
  else dec_u8 (major v) ++ dot ++ dec_u8 (minor v) ++ dot ++ dec_u8 (patch v) ++ dot ++ dec_u8 (build v).

(** [str::split('.')] *)
Fixpoint split_dot (s : list Z) : list (list Z) :=
  match s with
  | [] => [[]]
  | c :: s =>
      if c =? 46 then [] :: split_dot s
      else match split_dot s with
           | part :: parts => (c :: part) :: parts
           | [] => [[c]]
           end
  end.

(** [u8::from_str]: digits, with an optional plus sign, of a value up to 255. *)
Fixpoint parse_digits (s : list Z) (acc : Z) : option Z :=
  match s with
  | [] => Some acc
  | c :: s =>
      if (48 <=? c) && (c <=? 57) && (acc * 10 + (c - 48) <=? 255) then parse_digits s (acc * 10 + (c - 48))
      else None
  end.

Definition parse_u8 (s : list Z) : option Z :=
  match s with
  | [] => None
  | c :: rest => if c =? 43 then match rest with [] => None | _ => parse_digits rest 0 end else parse_digits s 0
  end.

Definition version_from_str (s : list Z) : option StarknetVersion :=
  match s with
  | [] => Some (MkVersion 0 0 0 0)
  | _ =>
      match split_dot s with
      | [a; b; c] =>
          match parse_u8 a, parse_u8 b, parse_u8 c with
          | Some a, Some b, Some c => Some (MkVersion a b c 0)
          | _, _, _ => None
          end
      | [a; b; c; d] =>
          match parse_u8 a, parse_u8 b, parse_u8 c, parse_u8 d with
          | Some a, Some b, Some c, Some d => Some (MkVersion a b c d)
          | _, _, _, _ => None
          end
      | _ => None
      end
  end.

(** ** Commitments of the state *)

Definition state_commitment (storage_commitment class_commitment : Felt) (version : StarknetVersion) : outcome Felt :=
  if felt_eqb class_commitment FELT_ZERO && felt_eqb storage_commitment FELT_ZERO then Ret FELT_ZERO
  else if felt_eqb class_commitment FELT_ZERO && version_ltb version V_0_14_0 then Ret storage_commitment
  else
    let! tag := felt_bytes "STARKNET_STATE_V0" in
    felt_of_mont (@poseidon_hash_many MontFelt
      [mont_of_felt tag; mont_of_felt storage_commitment; mont_of_felt class_commitment]).

Definition class_commitment_leaf_hash (compiled_class_hash : Felt) : outcome Felt :=
  let! version := felt_bytes "CONTRACT_CLASS_LEAF_V0" in
  felt_of_mont (@poseidon_hash MontFelt (mont_of_felt version) (mont_of_felt compiled_class_hash)).

Definition contract_state_hash_of (tables : PedersenTables) (hash root nonce : Felt) : outcome Felt :=
  let! hash := pedersen_hash tables hash root in
  let! hash := pedersen_hash tables hash nonce in
  pedersen_hash tables hash FELT_ZERO.

(** ** Facts *)

#[local] Existing Instance MontFelt.

Create HintDb words_ok.

Definition word_ok (w : word) : Prop := exists x, w = Ret x /\ @canonical MontFelt x.

(** The word is the one of a felt. *)
Definition word_of (w : word) (f : Felt) : Prop := w = felt_word f /\ felt_ok f.

Lemma felt_word_of f : felt_ok f -> word_of (felt_word f) f.
Proof. now split. Qed.

Lemma u64_word_of u : 0 <= u < 2 ^ 64 -> exists f, word_of (u64_word u) f /\ be_value f = u.
Proof.
  intros Hu. unfold u64_word, from_u64. destruct (from_uint_spec 8 u) as (f & -> & Hf & V); [lia | exact Hu|].
  exists f. split; [now split | exact V].
Qed.

Lemma u128_word_of u : 0 <= u < 2 ^ 128 -> exists f, word_of (u128_word u) f /\ be_value f = u.
Proof.
  intros Hu. unfold u128_word, from_u128. destruct (from_uint_spec 16 u) as (f & -> & Hf & V); [lia | exact Hu|].
  exists f. split; [now split | exact V].
Qed.

(** Every canonical element is the one of a felt. *)
Lemma limbs_word_of x : canonical x -> exists f, word_of (Ret x) f /\ felt_of_mont x = Ret f /\
  be_value f = Zmod.unsigned (val x).
Proof.
  intros C. destruct (felt_of_mont_spec _ (proj1 C)) as (f & E & Hf & Vf). exists f. split; [|auto].
  split; [|exact Hf]. unfold felt_word. f_equal. destruct (mont_of_felt_val f Hf) as [C' V'].
  apply val_inj; [exact C | exact C'|]. rewrite V', Vf. symmetry. apply Zmod.of_Z_to_Z.
Qed.

Lemma bytes_word_of bytes : bytes_ok bytes -> length bytes = 32%nat ->
  exists f, word_of (bytes_word bytes) f /\ be_value f = be_value bytes mod field_prime.
Proof.
  intros Hb L. destruct (from_be_bytes_val bytes Hb L) as [C V].
  destruct (limbs_word_of _ C) as (f & W & _ & Vf). exists f. split; [exact W|]. rewrite Vf, V.
  exact (Zmod.unsigned_of_Z _).
Qed.

(** *** The hash of felts *)

(** The Poseidon hash of a list of felts. *)
Definition poseidon_felts (fs : list Felt) : outcome Felt :=
  felt_of_mont (@poseidon_hash_many MontFelt (map mont_of_felt fs)).

Lemma write_all_ret hasher words : forall xs, Forall2 (fun w x => w = Ret x) words xs ->
  write_all hasher words = Ret (fold_left hasher_write xs hasher).
Proof.
  revert hasher. induction words as [|w words IH]; intros hasher xs F; inversion F as [|? x ? xs' -> F']; subst.
  - reflexivity.
  - cbn [write_all bind_outcome fold_left]. now apply IH.
Qed.

Lemma hash_words_felts words fs : Forall2 word_of words fs -> hash_words words = poseidon_felts fs.
Proof.
  intros F. unfold hash_words, hash_limbs.
  rewrite (write_all_ret _ words (map mont_of_felt fs)).
  - cbn [bind_outcome]. unfold poseidon_felts. now rewrite hasher_equiv.
  - induction F as [|w f words fs [-> _] F IH]; constructor; [reflexivity | exact IH].
Qed.

Lemma add_canonical x y : canonical x -> canonical y -> canonical (add x y).
Proof. intros Hx Hy. apply (add_val x y Hx Hy). Qed.

Lemma permute_ok s : state_ok s -> state_ok (permute s).
Proof. intros Hs. apply (permute_val comp_const_canonical s Hs). Qed.

Lemma absorb_ok s a b : state_ok s -> canonical a -> canonical b -> state_ok (absorb s a b).
Proof.
  intros (H0 & H1 & H2) Ha Hb. apply permute_ok. split; [|split]; cbn; auto using add_canonical.
Qed.

Lemma add_at_ok i x s : state_ok s -> canonical x -> state_ok (add_at i x s).
Proof.
  intros (H0 & H1 & H2) Hx. destruct i as [|[|i]]; (split; [|split]); cbn; auto using add_canonical.
Qed.

Definition hasher_ok (h : PoseidonHasher) : Prop :=
  state_ok (h_state h) /\ match h_buffer h with Some x => canonical x | None => True end.

Lemma hasher_write_ok h x : hasher_ok h -> canonical x -> hasher_ok (hasher_write h x).
Proof.
  intros [Hs Hb] Hx. unfold hasher_write. destruct (h_buffer h) as [y|]; split; cbn [h_state h_buffer]; auto using absorb_ok.
Qed.

Lemma hasher_finish_ok h : hasher_ok h -> canonical (hasher_finish h).
Proof.
  intros [Hs Hb]. unfold hasher_finish. destruct (h_buffer h) as [y|]; cbv zeta.
  - exact (proj1 (permute_ok _ (add_at_ok 1 ONE _ (add_at_ok 0 y _ Hs Hb) canonical_ONE))).
  - exact (proj1 (permute_ok _ (add_at_ok 0 ONE _ Hs canonical_ONE))).
Qed.

Lemma poseidon_many_canonical xs : Forall canonical xs -> canonical (poseidon_hash_many xs).
Proof.
  intros Hx. rewrite <- hasher_equiv. apply hasher_finish_ok.
  assert (Z0 : hasher_ok hasher_new).
  { split; [|exact I]. split; [|split]; exact (canonical_ZERO (F := MontFelt)). }
  revert Z0. generalize hasher_new as h. induction Hx as [|x xs Hx _ IH]; intros h Hh; [exact Hh|].
  cbn [fold_left]. exact (IH _ (hasher_write_ok h x Hh Hx)).
Qed.

Lemma poseidon_felts_total fs : Forall felt_ok fs -> exists h, poseidon_felts fs = Ret h /\ felt_ok h.
Proof.
  intros Hf. unfold poseidon_felts.
  destruct (felt_of_mont_spec (poseidon_hash_many (map mont_of_felt fs))) as (h & E & Hh & _); [|eauto].
  apply poseidon_many_canonical. apply Forall_map. eapply Forall_impl; [|exact Hf].
  intros f Hx. apply (mont_of_felt_val f Hx).
Qed.

Lemma words_felts_ok words fs : Forall2 word_of words fs -> Forall felt_ok fs.
Proof. induction 1 as [|w f words fs [_ Hf] _ IH]; constructor; assumption. Qed.

Lemma hash_words_total words fs : Forall2 word_of words fs ->
  exists h, hash_words words = Ret h /\ poseidon_felts fs = Ret h /\ felt_ok h.
Proof.
  intros F. rewrite (hash_words_felts words fs F).
  destruct (poseidon_felts_total fs (words_felts_ok _ _ F)) as (h & E & Hh). eauto.
Qed.

(** A hash that is itself written. *)
Lemma hash_limbs_word words fs : Forall2 word_of words fs ->
  exists h, word_of (hash_limbs words) h /\ poseidon_felts fs = Ret h.
Proof.
  intros F. unfold hash_limbs. rewrite (write_all_ret _ words (map mont_of_felt fs)).
  - cbn [bind_outcome]. rewrite hasher_equiv.
    destruct (limbs_word_of (poseidon_hash_many (map mont_of_felt fs))) as (h & W & E & _); [|eauto].
    apply poseidon_many_canonical. apply Forall_map. eapply Forall_impl; [|exact (words_felts_ok _ _ F)].
    intros f Hx. apply (mont_of_felt_val f Hx).
  - induction F as [|w f words' fs' [-> _] F IH]; constructor; [reflexivity | exact IH].
Qed.

Lemma zero_word_of : word_of (Ret ZERO) FELT_ZERO.
Proof.
  split; [vm_compute; reflexivity | exact FELT_ZERO_ok].
Qed.

Lemma tag_word_of s : (length (bytes_of_string s) <= 31)%nat ->
  exists f, word_of (tag_word s) f /\ felt_bytes s = Ret f /\ be_value f = be_value (bytes_of_string s).
Proof.
  intros L. assert (B : bytes_ok (bytes_of_string s)).
  { unfold bytes_of_string. apply Forall_map. induction (list_ascii_of_string s) as [|c l IH]; constructor; [|exact IH].
    pose proof (nat_ascii_bounded c). lia. }
  unfold tag_word, felt_bytes. destruct (felt_from_short_slice _ B L) as (f & -> & Hf & V). cbn [unwrap_result bind_outcome].
  exists f. split; [now split | auto].
Qed.

Lemma felt_word_inj f g : felt_ok f -> felt_ok g -> felt_word f = felt_word g -> f = g.
Proof.
  intros Hf Hg E. injection E as E. apply (f_equal felt_of_mont) in E. rewrite !mont_felt_roundtrip in E by assumption.
  congruence.
Qed.

(** *** Versions *)

Lemma dec_u8_ok n : 0 <= n < 256 -> bytes_ok (dec_u8 n) /\ (1 <= length (dec_u8 n) <= 3)%nat.
Proof.
  intros Hn. unfold dec_u8. destruct (Z.ltb_spec n 10); [|destruct (Z.ltb_spec n 100)]; (split; [|cbn; lia]);
    repeat constructor; try lia; pose proof (Z.mod_pos_bound n 10 ltac:(lia)); pose proof (Z.mod_pos_bound (n / 10) 10 ltac:(lia));
    pose proof (Z.div_pos n 10); pose proof (Z.div_pos n 100); pose proof (Z.div_lt_upper_bound n 10 26);
    pose proof (Z.div_lt_upper_bound n 100 3); lia.
Qed.

Lemma split_dot_app a s : Forall (fun c => c <> 46) a -> split_dot (a ++ dot ++ s) = a :: split_dot s.
Proof.
  induction 1 as [|c a Hc _ IH]; [reflexivity|]. cbn [app split_dot] in *.
  rewrite (proj2 (Z.eqb_neq c 46) Hc), IH. reflexivity.
Qed.

Lemma split_dot_last a : Forall (fun c => c <> 46) a -> split_dot a = [a].
Proof.
  induction 1 as [|c a Hc _ IH]; [reflexivity|]. cbn [split_dot]. now rewrite (proj2 (Z.eqb_neq c 46) Hc), IH.
Qed.

Definition dec_u8_check (n : Z) : bool :=
  match parse_u8 (dec_u8 n) with Some m => m =? n | None => false end &&
  forallb (fun c => negb (c =? 46)) (dec_u8 n).

Lemma dec_u8_all : forallb (fun n => dec_u8_check (Z.of_nat n)) (seq 0 256) = true.
Proof. vm_compute. reflexivity. Qed.

Lemma dec_u8_parse n : 0 <= n < 256 -> parse_u8 (dec_u8 n) = Some n /\ Forall (fun c => c <> 46) (dec_u8 n).
Proof.
  intros Hn. pose proof (proj1 (forallb_forall _ _) dec_u8_all (Z.to_nat n)) as C. cbv beta in C.
  rewrite Z2Nat.id in C by lia. unfold dec_u8_check in C. apply andb_true_iff in C as [C1 C2]; [|apply in_seq; lia].
  split.
  - destruct (parse_u8 (dec_u8 n)) as [m|]; [|discriminate]. apply Z.eqb_eq in C1. now subst.
  - apply Forall_forall. intros c Hc. apply (proj1 (forallb_forall _ _) C2) in Hc.
    apply negb_true_iff, Z.eqb_neq in Hc. exact Hc.
Qed.

Definition version_ok (v : StarknetVersion) : Prop :=
  0 <= major v < 256 /\ 0 <= minor v < 256 /\ 0 <= patch v < 256 /\ 0 <= build v < 256.

Lemma version_display_parse v : version_ok v -> version_from_str (version_display v) = Some v.
Proof.
  intros (Ha & Hb & Hc & Hd). destruct v as [a b c d]. cbn [major minor patch build] in *.
  destruct (dec_u8_parse a Ha) as [Pa Na], (dec_u8_parse b Hb) as [Pb Nb], (dec_u8_parse c Hc) as [Pc Nc],
    (dec_u8_parse d Hd) as [Pd Nd].
  destruct (dec_u8_ok a Ha) as [_ La]. unfold version_display. cbn [major minor patch build].
  destruct ((a =? 0) && (b =? 0) && (c =? 0) && (d =? 0)) eqn:E0.
  - apply andb_true_iff in E0 as [E0 Ed]. apply andb_true_iff in E0 as [E0 Ec]. apply andb_true_iff in E0 as [Ea Eb].
    apply Z.eqb_eq in Ea, Eb, Ec, Ed. now subst.
  - assert (Ne : forall s, exists x l, dec_u8 a ++ s = x :: l).
    { intros s. destruct (dec_u8 a); [cbn in La; lia | cbn; eauto]. }
    unfold version_from_str. destruct (Z.eqb_spec d 0) as [->|Hd0].
    + destruct (Ne (dot ++ dec_u8 b ++ dot ++ dec_u8 c)) as (x & l & E). rewrite E, <- E.
      rewrite !split_dot_app, split_dot_last by assumption. now rewrite Pa, Pb, Pc.
    + destruct (Ne (dot ++ dec_u8 b ++ dot ++ dec_u8 c ++ dot ++ dec_u8 d)) as (x & l & E). rewrite E, <- E.
      rewrite !split_dot_app, split_dot_last by assumption. now rewrite Pa, Pb, Pc, Pd.
Qed.

Lemma version_display_inj v w : version_ok v -> version_ok w -> version_display v = version_display w -> v = w.
Proof.
  intros Hv Hw E. apply version_display_parse in Hv, Hw. rewrite E, Hw in Hv. now injection Hv.
Qed.

Lemma version_display_bytes v : version_ok v -> bytes_ok (version_display v) /\ (length (version_display v) <= 15)%nat.
Proof.
  intros (Ha & Hb & Hc & Hd). unfold version_display.
  destruct (dec_u8_ok _ Ha) as [Ba La], (dec_u8_ok _ Hb) as [Bb Lb], (dec_u8_ok _ Hc) as [Bc Lc], (dec_u8_ok _ Hd) as [Bd Ld].
  assert (Bt : bytes_ok dot) by (repeat constructor; lia).
  repeat match goal with |- context [if ?b then _ else _] => destruct b end;
    (split; [repeat (apply Forall_app; split); assumption || constructor | rewrite ?length_app; cbn; lia]).
Qed.

Lemma version_u32 v : version_ok v -> from_u32 (as_u32 v) = v.
Proof.
  intros (Ha & Hb & Hc & Hd). destruct v as [a b c d]. cbn [major minor patch build] in *. unfold from_u32, as_u32, from_be, to_be.
  cbn [major minor patch build].
  assert (B : bytes_ok [d; c; b; a]) by (repeat (constructor; [assumption|]); constructor).
  change (to_digits 256 4) with (to_digits 256 (length [d; c; b; a])).
  now rewrite (to_digits_of_value 256 [d; c; b; a] ltac:(lia) B).
Qed.
