(* ===== verification/Commitments.v ===== *)
(** Commitments and hashes of blocks: block-commitments/src/lib.rs, with the
    parts of the header (common/src/header.rs), the transactions, the receipts,
    the events and the gateway's block that it reads. *)

From Stdlib Require Import String ZArith Lia Bool List.
From stdpp Require Import gmap list.
From S2P Require Import Prelude Bytes Words Montgomery MontBytes Fields Felt Poseidon Pedersen MerkleNode Tree TreeHash.
From S2P Require Import TreeCommit TransactionTree Hashing.
Local Open Scope Z_scope.

(** ** Data *)

Inductive L1DataAvailabilityMode : Type := Calldata | Blob.

Record BlockHeader : Type := MkHeader {
  h_hash : Felt;
  h_parent_hash : Felt;
  h_number : Z;
  h_timestamp : Z;
  h_eth_l1_gas_price : Z;
  h_strk_l1_gas_price : Z;
  h_eth_l1_data_gas_price : Z;
  h_strk_l1_data_gas_price : Z;
  h_eth_l2_gas_price : Z;
  h_strk_l2_gas_price : Z;
  h_sequencer_address : Felt;
  h_starknet_version : StarknetVersion;
  h_event_commitment : Felt;
  h_state_commitment : Felt;
  h_transaction_commitment : Felt;
  h_transaction_count : Z;
  h_event_count : Z;
  h_l1_da_mode : L1DataAvailabilityMode;
  h_receipt_commitment : Felt;
  h_state_diff_commitment : Felt;
  h_state_diff_length : Z
}.

(** Of a transaction its hash and signature are read. *)
Inductive TransactionVariant : Type :=
| DeclareV0 (signature : list Felt)
| DeclareV1 (signature : list Felt)
| DeclareV2 (signature : list Felt)
| DeclareV3 (signature : list Felt)
| DeployV0
| DeployV1
| DeployAccountV1 (signature : list Felt)
| DeployAccountV3 (signature : list Felt)
| InvokeV0 (signature : list Felt)
| InvokeV1 (signature : list Felt)
| InvokeV3 (signature : list Felt)
| L1Handler.

Record Transaction : Type := MkTransaction { tx_hash : Felt; tx_variant : TransactionVariant }.

Record Event : Type := MkEvent { ev_data : list Felt; ev_from_address : Felt; ev_keys : list Felt }.

Record L2ToL1Message : Type := MkMessage {
  msg_from_address : Felt;
  msg_payload : list Felt;
  msg_to_address : Felt
}.

Inductive ExecutionStatus : Type :=
| Succeeded
| Reverted (reason : list Z).

Record Receipt : Type := MkReceipt {
  r_actual_fee : Felt;
  r_l1_gas : Z;
  r_l1_data_gas : Z;
  r_l2_to_l1_messages : list L2ToL1Message;
  r_execution_status : ExecutionStatus;
  r_transaction_hash : Felt
}.

(** ** The commitment root of a list of hashes *)

Section Code.
Context (tables : PedersenTables).

(** [Keccak256], of the sha3 package. *)
Context (keccak : list Z -> list Z).

Abbreviation Result A := (outcome (result (TreeError Empty_set) A)).

(** [try_for_each] over the enumerated hashes. *)
Fixpoint set_hashes (idx : Z) (hashes : list Felt) (st : state) : Result state :=
  match hashes with
  | [] => Ret (Ok st)
  | final_hash :: hashes =>
      match transaction_tree_set idx final_hash st with
      | Panic => Panic
      | Ret (Err e, _) => Ret (Err e)
      | Ret (Ok _, st) => set_hashes (idx + 1) hashes st
      end
  end.

Definition calculate_commitment_root (H : Felt -> Felt -> outcome Felt) (hashes : list Felt) : Result Felt :=
  let+ tree := set_hashes 0 hashes (transaction_tree_default (MkMem ∅ 0)) in
  transaction_tree_commit H tree.

(** [par_iter().map(..).collect()]: in order, and a panic is propagated. *)
Fixpoint map_all {A} (f : A -> outcome Felt) (l : list A) : outcome (list Felt) :=
  match l with
  | [] => Ret []
  | a :: l =>
      let! x := f a in
      let! xs := map_all f l in
      Ret (x :: xs)
  end.

(** ** Transactions *)

Definition hash_chain (values : list Felt) : outcome Felt :=
  let! c := chain_updates (pedersen_hash tables) chain_default values in
  chain_finalize (pedersen_hash tables) c.

Definition calculate_signature_hash (signature : list Felt) : outcome Felt := hash_chain signature.

Definition HASH_OF_EMPTY_LIST : outcome Felt := hash_chain [].

Definition calculate_transaction_hash_with_signature_pre_0_11_1 (tx : Transaction) : outcome Felt :=
  let! signature_hash :=
    match tx_variant tx with
    | InvokeV0 signature | InvokeV1 signature | InvokeV3 signature => calculate_signature_hash signature
    | DeclareV0 _ | DeclareV1 _ | DeclareV2 _ | DeclareV3 _ | DeployV0 | DeployV1
    | DeployAccountV1 _ | DeployAccountV3 _ | L1Handler => HASH_OF_EMPTY_LIST
    end in
  pedersen_hash tables (tx_hash tx) signature_hash.

Definition calculate_transaction_hash_with_signature_pre_0_13_2 (tx : Transaction) : outcome Felt :=
  let! signature_hash :=
    match tx_variant tx with
    | InvokeV0 signature | DeclareV0 signature | DeclareV1 signature | DeclareV2 signature | DeclareV3 signature
    | DeployAccountV1 signature | DeployAccountV3 signature | InvokeV1 signature | InvokeV3 signature =>
        calculate_signature_hash signature
    | DeployV0 | DeployV1 | L1Handler => HASH_OF_EMPTY_LIST
    end in
  pedersen_hash tables (tx_hash tx) signature_hash.

Definition signature_of (v : TransactionVariant) : list Felt :=
  match v with
  | InvokeV0 signature | DeclareV0 signature | DeclareV1 signature | DeclareV2 signature | DeclareV3 signature
  | DeployAccountV1 signature | DeployAccountV3 signature | InvokeV1 signature | InvokeV3 signature => signature
  | DeployV0 | DeployV1 | L1Handler => []
  end.

Definition calculate_transaction_hash_with_signature_pre_0_13_4 (tx : Transaction) : outcome Felt :=
  let signature := signature_of (tx_variant tx) in
  let signature := match signature with [] => [FELT_ZERO] | _ => signature end in
  hash_words (felt_word (tx_hash tx) :: map felt_word signature).

Definition calculate_transaction_hash_with_signature (tx : Transaction) : outcome Felt :=
  hash_words (felt_word (tx_hash tx) :: map felt_word (signature_of (tx_variant tx))).

Definition transaction_leaf (version : StarknetVersion) (tx : Transaction) : outcome Felt :=
  if version_ltb version V_0_11_1 then calculate_transaction_hash_with_signature_pre_0_11_1 tx
  else if version_ltb version V_0_13_2 then calculate_transaction_hash_with_signature_pre_0_13_2 tx
  else if version_ltb version V_0_13_4 then calculate_transaction_hash_with_signature_pre_0_13_4 tx
  else calculate_transaction_hash_with_signature tx.

Definition commitment_hash (version : StarknetVersion) : Felt -> Felt -> outcome Felt :=
  if version_ltb version V_0_13_2 then PedersenHash tables else PoseidonHash.

Definition calculate_transaction_commitment (transactions : list Transaction) (version : StarknetVersion) : Result Felt :=
  let! final_hashes := map_all (transaction_leaf version) transactions in
  calculate_commitment_root (commitment_hash version) final_hashes.

(** ** Receipts *)

(** The words of the messages: their number, and each with the length of its
    payload. *)
Definition message_words (msgs : list L2ToL1Message) : list word :=
  u64_word (Z.of_nat (length msgs)) ::
  flat_map (fun msg =>
    felt_word (msg_from_address msg) :: felt_word (msg_to_address msg)
    :: u64_word (Z.of_nat (length (msg_payload msg))) :: map felt_word (msg_payload msg)) msgs.

(** [hashed_bytes[0] &= 0b00000011] *)
Definition mask_first (bytes : list Z) : list Z :=
  match bytes with
  | [] => []
  | b :: bytes => Z.land b 3 :: bytes
  end.

Definition status_word (status : ExecutionStatus) : word :=
  match status with
  | Succeeded => Ret ZERO
  | Reverted reason => bytes_word (mask_first (keccak reason))
  end.

Definition receipt_leaf (receipt : Receipt) : outcome Felt :=
  let! messages := hash_limbs (message_words (r_l2_to_l1_messages receipt)) in
  let! status := status_word (r_execution_status receipt) in
  let! l1_gas := u128_word (r_l1_gas receipt) in
  let! l1_data_gas := u128_word (r_l1_data_gas receipt) in
  felt_of_mont (@poseidon_hash_many MontFelt
    [mont_of_felt (r_transaction_hash receipt); mont_of_felt (r_actual_fee receipt); messages; status; ZERO;
     l1_gas; l1_data_gas]).

Definition calculate_receipt_commitment (receipts : list Receipt) : Result Felt :=
  let! hashes := map_all receipt_leaf receipts in
  calculate_commitment_root PoseidonHash hashes.

(** ** Events *)

Definition calculate_event_hash_pre_0_13_2 (event : Event) : outcome Felt :=
  let! keys_hash := hash_chain (ev_keys event) in
  let! data_hash := hash_chain (ev_data event) in
  hash_chain [ev_from_address event; keys_hash; data_hash].

Definition event_words (event : Event) (transaction_hash : Felt) : list word :=
  [felt_word (ev_from_address event); felt_word transaction_hash; u64_word (Z.of_nat (length (ev_keys event)))]
  ++ map felt_word (ev_keys event)
  ++ [u64_word (Z.of_nat (length (ev_data event)))]
  ++ map felt_word (ev_data event).

Definition calculate_event_hash (event : Event) (transaction_hash : Felt) : outcome Felt :=
  hash_words (event_words event transaction_hash).

Definition event_leaf (version : StarknetVersion) (e : Felt * Event) : outcome Felt :=
  if version_ltb version V_0_13_2 then calculate_event_hash_pre_0_13_2 e.2
  else calculate_event_hash e.2 e.1.

Definition calculate_event_commitment (transaction_events : list (Felt * list Event)) (version : StarknetVersion)
    : Result Felt :=
  let! event_hashes := map_all (event_leaf version) (flat_map (fun te => map (pair te.1) te.2) transaction_events) in
  calculate_commitment_root (commitment_hash version) event_hashes.

(** ** Block hashes *)

Definition compute_final_hash_pre_0_7 (header : BlockHeader) (chain_id : Felt) : outcome Felt :=
  let! number := from_u64 (h_number header) in
  let! transaction_count := from_u64 (h_transaction_count header) in
  hash_chain [number; h_state_commitment header; FELT_ZERO; FELT_ZERO; transaction_count;
    h_transaction_commitment header; FELT_ZERO; FELT_ZERO; FELT_ZERO; FELT_ZERO; chain_id; h_parent_hash header].

Definition compute_final_hash_pre_0_13_2 (header : BlockHeader) : outcome Felt :=
  let! number := from_u64 (h_number header) in
  let! timestamp := from_u64 (h_timestamp header) in
  let! transaction_count := from_u64 (h_transaction_count header) in
  let! event_count := from_u64 (h_event_count header) in
  hash_chain [number; h_state_commitment header; h_sequencer_address header; timestamp; transaction_count;
    h_transaction_commitment header; event_count; h_event_commitment header; FELT_ZERO; FELT_ZERO; h_parent_hash header].

(** [usize] is 64 bits wide; the last seven bytes stay zero. *)
Definition counts_bytes (header : BlockHeader) : list Z :=
  to_be 8 (h_transaction_count header) ++ to_be 8 (h_event_count header) ++ to_be 8 (h_state_diff_length header)
  ++ [match h_l1_da_mode header with Calldata => 0 | Blob => 128 end] ++ repeat 0 7.

Definition concatenate_counts (header : BlockHeader) : word := bytes_word (counts_bytes header).

Definition gas_price_words (header : BlockHeader) : list word :=
  [tag_word "STARKNET_GAS_PRICES0"; u128_word (h_eth_l1_gas_price header);
    u128_word (h_strk_l1_gas_price header); u128_word (h_eth_l1_data_gas_price header);
    u128_word (h_strk_l1_data_gas_price header); u128_word (h_eth_l2_gas_price header);
    u128_word (h_strk_l2_gas_price header)].

Definition gas_prices_to_hash (header : BlockHeader) : word := hash_limbs (gas_price_words header).

(** [Felt::from_be_slice(version.as_bytes()).expect(..)] *)
Definition version_word (starknet_version_str : list Z) : word :=
  let! f := unwrap_result (felt_from_be_slice starknet_version_str) in
  Ret (mont_of_felt f).

Definition header_words_v0 (header : BlockHeader) (starknet_version_str : list Z) : list word :=
  [tag_word "STARKNET_BLOCK_HASH0"; u64_word (h_number header); felt_word (h_state_commitment header);
    felt_word (h_sequencer_address header); u64_word (h_timestamp header); concatenate_counts header;
    felt_word (h_state_diff_commitment header); felt_word (h_transaction_commitment header);
    felt_word (h_event_commitment header); felt_word (h_receipt_commitment header);
    u128_word (h_eth_l1_gas_price header); u128_word (h_strk_l1_gas_price header);
    u128_word (h_eth_l1_data_gas_price header); u128_word (h_strk_l1_data_gas_price header);
    version_word starknet_version_str; Ret ZERO; felt_word (h_parent_hash header)].

Definition compute_final_hash_v0 (header : BlockHeader) (starknet_version_str : list Z) : outcome Felt :=
  hash_words (header_words_v0 header starknet_version_str).

Definition header_words_v1 (header : BlockHeader) (starknet_version_str : list Z) : list word :=
  [tag_word "STARKNET_BLOCK_HASH1"; u64_word (h_number header); felt_word (h_state_commitment header);
    felt_word (h_sequencer_address header); u64_word (h_timestamp header); concatenate_counts header;
    felt_word (h_state_diff_commitment header); felt_word (h_transaction_commitment header);
    felt_word (h_event_commitment header); felt_word (h_receipt_commitment header);
    gas_prices_to_hash header; version_word starknet_version_str; Ret ZERO; felt_word (h_parent_hash header)].

Definition compute_final_hash_v1 (header : BlockHeader) (starknet_version_str : list Z) : outcome Felt :=
  hash_words (header_words_v1 header starknet_version_str).

Definition compute_final_hash0 (header : BlockHeader) (starknet_version_str : list Z) : outcome Felt :=
  if version_ltb (h_starknet_version header) V_0_13_4 then compute_final_hash_v0 header starknet_version_str
  else compute_final_hash_v1 header starknet_version_str.

Definition compute_final_hash (header : BlockHeader) : outcome Felt :=
  compute_final_hash0 header (version_display (h_starknet_version header)).
End Code.
