(* ===== verification/BlockVerify.v ===== *)
(** The check of a block of the gateway: its commitments are recomputed and its
    hash compared (block-commitments/src/lib.rs, [verify_block_hash] and
    [verify_gateway_block_commitments_and_hash]). *)

From Stdlib Require Import ZArith Lia Bool List.
From stdpp Require Import gmap list.
From S2P Require Import Prelude Bytes Felt Pedersen MerkleNode Tree TreeHash TreeCommit TransactionTree Hashing Commitments.
Local Open Scope Z_scope.

(** ** Data *)

Inductive VerifyResult : Type := Match | Mismatch.

Definition is_match (self : VerifyResult) : bool := match self with Match => true | Mismatch => false end.

Inductive Chain : Type := Mainnet | SepoliaTestnet | SepoliaIntegration | Custom.

Definition chain_eqb (a b : Chain) : bool :=
  match a, b with
  | Mainnet, Mainnet | SepoliaTestnet, SepoliaTestnet | SepoliaIntegration, SepoliaIntegration | Custom, Custom => true
  | _, _ => false
  end.

Record GasPrices : Type := MkPrices { price_in_wei : Z; price_in_fri : Z }.

(** [GasPrices::default()] *)
Definition no_prices : GasPrices := MkPrices 0 0.

(** The gateway's block, without what is not read. *)
Record Block : Type := MkBlock {
  b_block_hash : Felt;
  b_block_number : Z;
  b_l1_gas_price : GasPrices;
  b_l1_data_gas_price : GasPrices;
  b_l2_gas_price : option GasPrices;
  b_parent_block_hash : Felt;
  b_sequencer_address : option Felt;
  b_state_commitment : Felt;
  b_timestamp : Z;
  b_transaction_receipts : list (Receipt * list Event);
  b_transactions : list Transaction;
  b_starknet_version : StarknetVersion;
  b_transaction_commitment : Felt;
  b_event_commitment : Felt;
  b_l1_da_mode : L1DataAvailabilityMode;
  b_receipt_commitment : option Felt
}.

(** ** Chains *)

Record BlockHashMetaInfo : Type := MkMeta {
  first_0_7_block : Z;
  fallback_sequencer_address : option Felt
}.

Definition uses_pre_0_7_hash_algorithm (self : BlockHashMetaInfo) (block_number : Z) : bool :=
  block_number <? first_0_7_block self.

Definition MAINNET_SEQUENCER : Felt :=
  Eval vm_compute in to_be 32 0x021f4b90b0377c82bf330b7b5295820769e72d79d8acd0effa0ebde6e9988bc5.

Definition MAINNET_METAINFO : BlockHashMetaInfo := MkMeta 833 (Some MAINNET_SEQUENCER).
Definition SEPOLIA_TESTNET_METAINFO : BlockHashMetaInfo := MkMeta 0 None.
Definition SEPOLIA_INTEGRATION_METAINFO : BlockHashMetaInfo := MkMeta 0 None.
Definition CUSTOM_METAINFO : BlockHashMetaInfo := MkMeta 0 None.

Definition for_chain (chain : Chain) : BlockHashMetaInfo :=
  match chain with
  | Mainnet => MAINNET_METAINFO
  | SepoliaTestnet => SEPOLIA_TESTNET_METAINFO
  | SepoliaIntegration => SEPOLIA_INTEGRATION_METAINFO
  | Custom => CUSTOM_METAINFO
  end.

(** ** Checks *)

Inductive VerifyError : Type :=
| CommitmentFailure (e : TreeError Empty_set)
| CustomChainBeforeV07.

Definition with_transaction_commitment (f : Felt) (h : BlockHeader) : BlockHeader :=
  MkHeader (h_hash h) (h_parent_hash h) (h_number h) (h_timestamp h) (h_eth_l1_gas_price h) (h_strk_l1_gas_price h)
    (h_eth_l1_data_gas_price h) (h_strk_l1_data_gas_price h) (h_eth_l2_gas_price h) (h_strk_l2_gas_price h)
    (h_sequencer_address h) (h_starknet_version h) (h_event_commitment h) (h_state_commitment h) f
    (h_transaction_count h) (h_event_count h) (h_l1_da_mode h) (h_receipt_commitment h) (h_state_diff_commitment h)
    (h_state_diff_length h).

Definition with_receipt_commitment (f : Felt) (h : BlockHeader) : BlockHeader :=
  MkHeader (h_hash h) (h_parent_hash h) (h_number h) (h_timestamp h) (h_eth_l1_gas_price h) (h_strk_l1_gas_price h)
    (h_eth_l1_data_gas_price h) (h_strk_l1_data_gas_price h) (h_eth_l2_gas_price h) (h_strk_l2_gas_price h)
    (h_sequencer_address h) (h_starknet_version h) (h_event_commitment h) (h_state_commitment h)
    (h_transaction_commitment h) (h_transaction_count h) (h_event_count h) (h_l1_da_mode h) f
    (h_state_diff_commitment h) (h_state_diff_length h).

Definition with_event_commitment (f : Felt) (h : BlockHeader) : BlockHeader :=
  MkHeader (h_hash h) (h_parent_hash h) (h_number h) (h_timestamp h) (h_eth_l1_gas_price h) (h_strk_l1_gas_price h)
    (h_eth_l1_data_gas_price h) (h_strk_l1_data_gas_price h) (h_eth_l2_gas_price h) (h_strk_l2_gas_price h)
    (h_sequencer_address h) (h_starknet_version h) f (h_state_commitment h) (h_transaction_commitment h)
    (h_transaction_count h) (h_event_count h) (h_l1_da_mode h) (h_receipt_commitment h) (h_state_diff_commitment h)
    (h_state_diff_length h).

Definition with_sequencer_address (f : Felt) (h : BlockHeader) : BlockHeader :=
  MkHeader (h_hash h) (h_parent_hash h) (h_number h) (h_timestamp h) (h_eth_l1_gas_price h) (h_strk_l1_gas_price h)
    (h_eth_l1_data_gas_price h) (h_strk_l1_data_gas_price h) (h_eth_l2_gas_price h) (h_strk_l2_gas_price h)
    f (h_starknet_version h) (h_event_commitment h) (h_state_commitment h) (h_transaction_commitment h)
    (h_transaction_count h) (h_event_count h) (h_l1_da_mode h) (h_receipt_commitment h) (h_state_diff_commitment h)
    (h_state_diff_length h).

Definition header_from_gateway_block (block : Block) (state_diff_commitment : Felt) (state_diff_length : Z) : BlockHeader :=
  let l2_gas_price := default no_prices (b_l2_gas_price block) in
  {| h_hash := b_block_hash block;
     h_parent_hash := b_parent_block_hash block;
     h_number := b_block_number block;
     h_timestamp := b_timestamp block;
     h_eth_l1_gas_price := price_in_wei (b_l1_gas_price block);
     h_strk_l1_gas_price := price_in_fri (b_l1_gas_price block);
     h_eth_l1_data_gas_price := price_in_wei (b_l1_data_gas_price block);
     h_strk_l1_data_gas_price := price_in_fri (b_l1_data_gas_price block);
     h_eth_l2_gas_price := price_in_wei l2_gas_price;
     h_strk_l2_gas_price := price_in_fri l2_gas_price;
     h_sequencer_address := default FELT_ZERO (b_sequencer_address block);
     h_starknet_version := b_starknet_version block;
     h_event_commitment := b_event_commitment block;
     h_state_commitment := b_state_commitment block;
     h_transaction_commitment := b_transaction_commitment block;
     h_transaction_count := Z.of_nat (length (b_transactions block));
     h_event_count := Z.of_nat (length (flat_map snd (b_transaction_receipts block)));
     h_l1_da_mode := b_l1_da_mode block;
     h_receipt_commitment := default FELT_ZERO (b_receipt_commitment block);
     h_state_diff_commitment := state_diff_commitment;
     h_state_diff_length := state_diff_length |}.

Section Code.
Context (tables : PedersenTables) (keccak : list Z -> list Z).

Abbreviation Result A := (outcome (result VerifyError A)).

Definition verdict (verified : bool) : VerifyResult := if verified then Match else Mismatch.

Definition verify_block_hash (header : BlockHeader) (chain : Chain) (chain_id : Felt) : Result VerifyResult :=
  let meta_info := for_chain chain in
  if uses_pre_0_7_hash_algorithm meta_info (h_number header) then
    if chain_eqb chain Custom then Ret (Err CustomChainBeforeV07)
    else
      let! computed_hash := compute_final_hash_pre_0_7 tables header chain_id in
      Ret (Ok (verdict (felt_eqb computed_hash (h_hash header))))
  else if version_ltb (h_starknet_version header) V_0_13_2 then
    let! computed_hash := compute_final_hash_pre_0_13_2 tables header in
    if felt_eqb computed_hash (h_hash header) then Ret (Ok (verdict true))
    else
      match fallback_sequencer_address meta_info with
      | Some fallback =>
          let! computed_hash := compute_final_hash_pre_0_13_2 tables (with_sequencer_address fallback header) in
          Ret (Ok (verdict (felt_eqb computed_hash (h_hash header))))
      | None => Ret (Ok (verdict false))
      end
  else
    let! computed_hash := compute_final_hash header in
    Ret (Ok (verdict (felt_eqb computed_hash (h_hash header)))).

Definition commitment {A} (x : outcome (result (TreeError Empty_set) A)) : Result A :=
  match x with
  | Panic => Panic
  | Ret (Err e) => Ret (Err (CommitmentFailure e))
  | Ret (Ok a) => Ret (Ok a)
  end.

(** The checks in order; each either ends the function or gives the header the
    next one continues with. *)
Definition check_events (block : Block) (chain : Chain) (chain_id : Felt) (header : BlockHeader) : Result VerifyResult :=
  let+ event_commitment := commitment (calculate_event_commitment tables
    (map (fun re => (r_transaction_hash re.1, re.2)) (b_transaction_receipts block)) (b_starknet_version block)) in
  if felt_eqb (b_event_commitment block) FELT_ZERO then
    verify_block_hash (with_event_commitment event_commitment header) chain chain_id
  else if negb (felt_eqb event_commitment (b_event_commitment block)) then Ret (Ok Mismatch)
  else verify_block_hash header chain chain_id.

Definition check_receipts (block : Block) (chain : Chain) (chain_id : Felt) (header : BlockHeader) : Result VerifyResult :=
  let+ computed := commitment (calculate_receipt_commitment keccak (map fst (b_transaction_receipts block))) in
  match b_receipt_commitment block with
  | Some receipt_commitment =>
      if negb (felt_eqb computed receipt_commitment) then Ret (Ok Mismatch)
      else check_events block chain chain_id header
  | None => check_events block chain chain_id (with_receipt_commitment computed header)
  end.

Definition verify_gateway_block_commitments_and_hash (block : Block) (state_diff_commitment : Felt)
    (state_diff_length : Z) (chain : Chain) (chain_id : Felt) : Result VerifyResult :=
  let header := header_from_gateway_block block state_diff_commitment state_diff_length in
  let+ computed := commitment (calculate_transaction_commitment tables (b_transactions block) (b_starknet_version block)) in
  if felt_eqb (b_transaction_commitment block) FELT_ZERO then
    check_receipts block chain chain_id (with_transaction_commitment computed header)
  else if negb (felt_eqb computed (h_transaction_commitment header)) then Ret (Ok Mismatch)
  else check_receipts block chain chain_id header.
End Code.
