(* ===== verification/CommitmentFacts.v ===== *)
(** Facts on the commitments of a block: they are defined for all valid data,
    and the root is that of the map from indices to hashes. *)

From Stdlib Require Import String ZArith Lia Bool List.
From stdpp Require Import gmap list.
From S2P Require Import Prelude Bytes Words Montgomery MontgomeryFacts MontBytes NumberTheory Fields Felt.
From S2P Require Import Poseidon Pedersen MerkleNode Tree TrieSpec TreeHash TreeRep TreeOps TreeMap.
From S2P Require Import TreeCommit TransactionTree Hashing Commitments BlockVerify.
Local Open Scope Z_scope.

(** ** The commitment root *)

Lemma spec_node_ext H n : forall f g, (forall k, length k = n -> f k = g k) -> spec_node H n f = spec_node H n g.
Proof.
  induction n as [|n IH]; intros f g E; cbn [spec_node]; [now rewrite E|].
  rewrite (IH (fun k => f (false :: k)) (fun k => g (false :: k))) by (intros k Hk; apply E; cbn; lia).
  rewrite (IH (fun k => f (true :: k)) (fun k => g (true :: k))) by (intros k Hk; apply E; cbn; lia). reflexivity.
Qed.

Lemma spec_root_ext H n f g : (forall k, length k = n -> f k = g k) -> spec_root H n f = spec_root H n g.
Proof. intros E. unfold spec_root. now rewrite (spec_node_ext H n f g E). Qed.

(** The leaf a hash stands for: zero is no leaf. *)
Definition leaf_of_hash (o : option Felt) : option Felt :=
  match o with
  | Some v => if felt_eqb v FELT_ZERO then None else Some v
  | None => None
  end.

(** The map from the bits of an index to the hash at the index. *)
Definition index_map (hashes : list Felt) (k : bits) : option Felt :=
  leaf_of_hash (hashes !! Z.to_nat (bits_value k)).

Fixpoint hash_map (idx : Z) (hashes : list Felt) (M : gmap bits Felt) : gmap bits Felt :=
  match hashes with
  | [] => M
  | h :: hashes => hash_map (idx + 1) hashes (map_set (transaction_key idx) h M)
  end.

Lemma map_set_lookup (M : gmap bits Felt) (key : bits) (v : Felt) (k : bits) : map_set key v M !! k
  = if decide (k = key) then leaf_of_hash (Some v) else M !! k.
Proof.
  unfold map_set, leaf_of_hash. destruct (felt_eqb v FELT_ZERO); destruct (decide (k = key)) as [->|N].
  - apply lookup_delete_eq.
  - now rewrite lookup_delete_ne by congruence.
  - apply lookup_insert_eq.
  - now rewrite lookup_insert_ne by congruence.
Qed.

Lemma hash_map_lookup (hashes : list Felt) : forall (idx : Z) (M : gmap bits Felt) (k : bits), 0 <= idx -> idx + Z.of_nat (length hashes) <= 2 ^ 64 ->
  length k = TRANSACTION_HEIGHT -> hash_map idx hashes M !! k
    = if decide (idx <= bits_value k < idx + Z.of_nat (length hashes))
      then leaf_of_hash (hashes !! Z.to_nat (bits_value k - idx)) else M !! k.
Proof.
  induction hashes as [|h hashes IH]; intros idx M k Hi Hl Lk; cbn [hash_map length] in *.
  - rewrite decide_False by lia. reflexivity.
  - rewrite IH by (assumption || lia). rewrite map_set_lookup.
    assert (Hk : k = transaction_key idx <-> bits_value k = idx).
    { split; [intros ->; apply transaction_key_value; lia|]. intros E. apply bits_value_inj.
      - now rewrite transaction_key_length.
      - now rewrite transaction_key_value by lia. }
    destruct (decide (idx + 1 <= bits_value k < idx + 1 + Z.of_nat (length hashes))) as [D|D].
    + rewrite decide_True by lia. replace (Z.to_nat (bits_value k - idx)) with (S (Z.to_nat (bits_value k - (idx + 1)))) by lia.
      reflexivity.
    + destruct (decide (k = transaction_key idx)) as [E|E].
      * apply Hk in E. rewrite decide_True by lia. replace (bits_value k - idx) with 0 by lia. reflexivity.
      * rewrite decide_False; [reflexivity|]. intros B. apply E, Hk. lia.
Qed.

Lemma hash_map_values hashes : Forall felt_ok hashes -> forall (idx : Z) (M : gmap bits Felt), map_Forall (fun _ v => felt_ok v) M ->
  map_Forall (fun _ v => felt_ok v) (hash_map idx hashes M).
Proof.
  induction 1 as [|h hashes Hh _ IH]; intros idx M HM; [exact HM|]. apply IH. unfold map_set.
  destruct (felt_eqb h FELT_ZERO); [now apply map_Forall_delete | now apply map_Forall_insert_2].
Qed.

Lemma set_hashes_spec H (hashes : list Felt) : forall (idx : Z) (M : gmap bits Felt) (st : state), transactions H M st ->
  exists st', set_hashes idx hashes st = Ret (Ok st') /\ transactions H (hash_map idx hashes M) st'.
Proof.
  induction hashes as [|h hashes IH]; intros idx M st Rp; [now exists st|]. cbn [set_hashes hash_map].
  destruct (set_transactions H M st idx h Rp) as (st1 & -> & Rp1). now apply IH.
Qed.

Lemma commitment_root_spec H hashes : FeltHash H -> Forall felt_ok hashes -> Z.of_nat (length hashes) <= 2 ^ 64 ->
  exists h, calculate_commitment_root H hashes = Ret (Ok h) /\ felt_ok h /\
    spec_root H TRANSACTION_HEIGHT (index_map hashes) = Ret h.
Proof.
  intros HH Hf Hl. unfold calculate_commitment_root.
  destruct (set_hashes_spec H hashes 0 ∅ (transaction_tree_default (MkMem ∅ 0))) as (st & -> & Rp).
  { apply default_transactions. intros x Hx. cbn in Hx. rewrite lookup_empty in Hx. now destruct Hx. }
  cbn [try]. destruct (commit_transactions H HH _ st Rp) as (h & Ec & Hh & Er).
  { apply hash_map_values; [exact Hf | apply map_Forall_empty]. }
  exists h. split; [exact Ec|]. split; [exact Hh|]. rewrite <- Er. apply spec_root_ext. intros k Lk.
  rewrite hash_map_lookup by (assumption || lia). unfold index_map.
  pose proof (bits_value_bound k) as B. destruct (decide _) as [D|D].
  - now rewrite Z.sub_0_r.
  - rewrite lookup_empty, lookup_ge_None_2 by lia. reflexivity.
Qed.

Lemma map_all_total {A} (f : A -> outcome Felt) l : Forall (fun a => exists h, f a = Ret h /\ felt_ok h) l ->
  exists hs, map_all f l = Ret hs /\ Forall felt_ok hs /\ Forall2 (fun a h => f a = Ret h) l hs.
Proof.
  induction 1 as [|a l (h & E & Hh) _ (hs & IH & Hs & F)]; [exists []; auto|].
  exists (h :: hs). cbn. rewrite E. cbn. rewrite IH. auto.
Qed.

(** ** Valid data *)

Definition small {A} (l : list A) : Prop := Z.of_nat (length l) < 2 ^ 64.
Definition u64_ok (u : Z) : Prop := 0 <= u < 2 ^ 64.
Definition u128_ok (u : Z) : Prop := 0 <= u < 2 ^ 128.

Definition felts_ok (l : list Felt) : Prop := Forall felt_ok l /\ small l.

Definition transaction_ok (tx : Transaction) : Prop := felt_ok (tx_hash tx) /\ felts_ok (signature_of (tx_variant tx)).

Definition event_ok (e : Event) : Prop :=
  felt_ok (ev_from_address e) /\ felts_ok (ev_keys e) /\ felts_ok (ev_data e).

Definition message_ok (m : L2ToL1Message) : Prop :=
  felt_ok (msg_from_address m) /\ felt_ok (msg_to_address m) /\ felts_ok (msg_payload m).

Definition receipt_ok (r : Receipt) : Prop :=
  felt_ok (r_actual_fee r) /\ felt_ok (r_transaction_hash r) /\ u128_ok (r_l1_gas r) /\ u128_ok (r_l1_data_gas r) /\
  Forall message_ok (r_l2_to_l1_messages r) /\ small (r_l2_to_l1_messages r).

Record header_ok (h : BlockHeader) : Prop := {
  ok_felts : Forall felt_ok [h_hash h; h_parent_hash h; h_sequencer_address h; h_event_commitment h;
    h_state_commitment h; h_transaction_commitment h; h_receipt_commitment h; h_state_diff_commitment h];
  ok_u64 : Forall u64_ok [h_number h; h_timestamp h; h_transaction_count h; h_event_count h; h_state_diff_length h];
  ok_u128 : Forall u128_ok [h_eth_l1_gas_price h; h_strk_l1_gas_price h; h_eth_l1_data_gas_price h;
    h_strk_l1_data_gas_price h; h_eth_l2_gas_price h; h_strk_l2_gas_price h];
  ok_version : version_ok (h_starknet_version h)
}.

(** Every bound of a valid header as a hypothesis of its own. *)
Ltac header_bounds H :=
  let F := fresh "F" in let U := fresh "U" in let W := fresh "W" in let V := fresh "V" in
  destruct H as [F U W V]; rewrite !Forall_cons in F; rewrite !Forall_cons in U; rewrite !Forall_cons in W;
  unfold u64_ok in U; unfold u128_ok in W; destruct_and?.

Section Leaves.
Context (tables : PedersenTables) (Ht : tables_ok tables) (keccak : list Z -> list Z).
Context (keccak_ok : forall bytes, bytes_ok (keccak bytes) /\ length (keccak bytes) = 32%nat).

Lemma pedersen_total_felt a b : felt_ok a -> felt_ok b -> exists h, pedersen_hash tables a b = Ret h /\ felt_ok h.
Proof. intros Ha Hb. destruct (pedersen_hash_spec tables a b Ht Ha Hb) as (f & E & Hf & _). eauto. Qed.

Definition pedersen_fun (a b : Felt) : Felt := match pedersen_hash tables a b with Ret f => f | Panic => FELT_ZERO end.

Lemma pedersen_fun_eq a b : felt_ok a -> felt_ok b ->
  pedersen_hash tables a b = Ret (pedersen_fun a b) /\ felt_ok (pedersen_fun a b).
Proof. intros Ha Hb. unfold pedersen_fun. destruct (pedersen_total_felt a b Ha Hb) as (h & -> & Hh). auto. Qed.

Lemma fold_pedersen_ok values : Forall felt_ok values -> forall h, felt_ok h -> felt_ok (fold_left pedersen_fun values h).
Proof. induction 1 as [|v values Hv _ IH]; intros h Hh; [exact Hh|]. cbn. apply IH. now apply pedersen_fun_eq. Qed.

Lemma hash_chain_total values : felts_ok values -> exists h, hash_chain tables values = Ret h /\ felt_ok h.
Proof.
  intros [Hv Hl]. unfold hash_chain.
  destruct (chain_spec (pedersen_hash tables) pedersen_fun (fun a b Ha Hb => proj1 (pedersen_fun_eq a b Ha Hb))
    (fun a b Ha Hb => proj2 (pedersen_fun_eq a b Ha Hb)) values Hv Hl) as (count & Hc & _ & ->).
  eexists. split; [reflexivity|]. apply pedersen_fun_eq; [|exact Hc]. apply fold_pedersen_ok; [exact Hv | exact FELT_ZERO_ok].
Qed.

Lemma felts_ok_nil : felts_ok [].
Proof. split; [constructor | unfold small; cbn; lia]. Qed.

Lemma word_felts fs : Forall felt_ok fs -> Forall2 word_of (map felt_word fs) fs.
Proof. induction 1; cbn; constructor; [now apply felt_word_of | assumption]. Qed.

Lemma transaction_leaf_total version tx : transaction_ok tx ->
  exists h, transaction_leaf tables version tx = Ret h /\ felt_ok h.
Proof.
  intros [Hh Hs]. unfold transaction_leaf.
  assert (Old : forall o, (exists h, o = Ret h /\ felt_ok h) ->
    exists h, (let! s := o in pedersen_hash tables (tx_hash tx) s) = Ret h /\ felt_ok h).
  { intros o (s & -> & Hs'). now apply pedersen_total_felt. }
  assert (New : forall fs, Forall felt_ok fs ->
    exists h, hash_words (felt_word (tx_hash tx) :: map felt_word fs) = Ret h /\ felt_ok h).
  { intros fs Hf. destruct (hash_words_total (felt_word (tx_hash tx) :: map felt_word fs) (tx_hash tx :: fs))
      as (h & E & _ & Hok); [|eauto]. constructor; [now apply felt_word_of | now apply word_felts]. }
  destruct (version_ltb version V_0_11_1); [|destruct (version_ltb version V_0_13_2); [|destruct (version_ltb version V_0_13_4)]].
  - unfold calculate_transaction_hash_with_signature_pre_0_11_1. apply Old.
    destruct (tx_variant tx); cbn [signature_of] in Hs; apply hash_chain_total; (exact Hs || exact felts_ok_nil).
  - unfold calculate_transaction_hash_with_signature_pre_0_13_2. apply Old.
    destruct (tx_variant tx); cbn [signature_of] in Hs; apply hash_chain_total; exact Hs.
  - unfold calculate_transaction_hash_with_signature_pre_0_13_4. apply New.
    destruct (signature_of (tx_variant tx)); [constructor; [exact FELT_ZERO_ok | constructor] | apply Hs].
  - unfold calculate_transaction_hash_with_signature. apply New. apply Hs.
Qed.

Lemma event_leaf_total version (te : Felt * Event) : felt_ok te.1 -> event_ok te.2 ->
  exists h, event_leaf tables version te = Ret h /\ felt_ok h.
Proof.
  destruct te as [th e]. cbn [fst snd]. intros Hth (Hf & Hk & Hd). unfold event_leaf. cbn [fst snd].
  destruct (version_ltb version V_0_13_2).
  - unfold calculate_event_hash_pre_0_13_2.
    destruct (hash_chain_total _ Hk) as (kh & -> & Hkh). cbn [bind_outcome].
    destruct (hash_chain_total _ Hd) as (dh & -> & Hdh). cbn [bind_outcome].
    apply hash_chain_total. split; [auto | unfold small; cbn; lia].
  - unfold calculate_event_hash.
    destruct (u64_word_of (Z.of_nat (length (ev_keys e)))) as (nk & Wk & _); [split; [lia | apply Hk]|].
    destruct (u64_word_of (Z.of_nat (length (ev_data e)))) as (nd & Wd & _); [split; [lia | apply Hd]|].
    destruct (hash_words_total (event_words e th) ([ev_from_address e; th; nk] ++ ev_keys e ++ [nd] ++ ev_data e)) as (h & E & _ & Hh); [|eauto].
    unfold event_words.
    apply Forall2_app; [|apply Forall2_app; [apply word_felts, Hk | apply Forall2_app; [auto | apply word_felts, Hd]]].
    repeat apply Forall2_cons_2; auto using felt_word_of.
Qed.

Lemma message_words_of msgs : Forall message_ok msgs -> small msgs ->
  exists fs, Forall2 word_of (message_words msgs) fs.
Proof.
  intros Hm Hs. unfold message_words.
  cut (exists fs, Forall2 word_of (flat_map (fun msg =>
    felt_word (msg_from_address msg) :: felt_word (msg_to_address msg)
    :: u64_word (Z.of_nat (length (msg_payload msg))) :: map felt_word (msg_payload msg)) msgs) fs).
  { intros [fs F]. destruct (u64_word_of (Z.of_nat (length msgs))) as (n & Wn & _); [split; [lia | exact Hs]|].
    exists (n :: fs). now constructor. }
  clear Hs.
  induction Hm as [|m msgs (Hf & Ht' & Hp & Hl) _ [fs IH]]; [exists []; constructor|].
  destruct (u64_word_of (Z.of_nat (length (msg_payload m)))) as (k & Wk & _); [split; [lia | exact Hl]|].
  exists ((msg_from_address m :: msg_to_address m :: k :: msg_payload m) ++ fs). apply Forall2_app; [|exact IH].
  constructor; [now apply felt_word_of|]. constructor; [now apply felt_word_of|]. constructor; [exact Wk | now apply word_felts].
Qed.

Lemma status_word_of status : exists f, word_of (status_word keccak status) f.
Proof.
  destruct status as [|reason]; [exists FELT_ZERO; exact zero_word_of|]. cbn [status_word].
  destruct (keccak_ok reason) as [Hb L]. destruct (bytes_word_of (mask_first (keccak reason))) as (f & W & _); [| |eauto].
  - destruct (keccak reason) as [|b bs]; [exact Hb|]. inversion_clear Hb as [|? ? Hb' Hbs]. constructor; [|exact Hbs].
    change 3 with (Z.ones 2). rewrite Z.land_ones by lia. pose proof (Z.mod_pos_bound b (2 ^ 2) ltac:(lia)). lia.
  - now destruct (keccak reason).
Qed.

Lemma receipt_leaf_total r : receipt_ok r -> exists h, receipt_leaf keccak r = Ret h /\ felt_ok h.
Proof.
  intros (Hf & Hth & Hg & Hd & Hm & Hs). unfold receipt_leaf.
  destruct (message_words_of _ Hm Hs) as [fs F]. destruct (hash_limbs_word _ _ F) as (mh & [-> Hmh] & _).
  destruct (status_word_of (r_execution_status r)) as (sf & -> & Hsf).
  destruct (u128_word_of _ Hg) as (gf & (-> & Hgf) & _). destruct (u128_word_of _ Hd) as (df & (-> & Hdf) & _).
  cbn [felt_word bind_outcome].
  assert (Ez : ZERO = mont_of_felt FELT_ZERO) by (vm_compute; reflexivity). rewrite Ez.
  destruct (poseidon_felts_total [r_transaction_hash r; r_actual_fee r; mh; sf; FELT_ZERO; gf; df]) as (h & E & Hh);
    [repeat (constructor; [assumption || exact FELT_ZERO_ok|]); constructor|].
  exists h. split; [exact E | exact Hh].
Qed.

(** ** The hashes of a header *)

Lemma pre_0_7_total h chain_id : header_ok h -> felt_ok chain_id ->
  exists x, compute_final_hash_pre_0_7 tables h chain_id = Ret x /\ felt_ok x.
Proof.
  intros Hh Hc. unfold compute_final_hash_pre_0_7. header_bounds Hh.
  destruct (from_uint_spec 8 (h_number h)) as (n & E1 & Hn & _); [lia | split; assumption|].
  destruct (from_uint_spec 8 (h_transaction_count h)) as (t & E2 & Hto & _); [lia | split; assumption|].
  unfold from_u64. rewrite E1, E2. cbn [bind_outcome]. apply hash_chain_total.
  split; [|unfold small; cbn; lia]. repeat (constructor; [assumption || exact FELT_ZERO_ok|]). constructor.
Qed.

Lemma pre_0_13_2_total h : header_ok h -> exists x, compute_final_hash_pre_0_13_2 tables h = Ret x /\ felt_ok x.
Proof.
  intros Hh. unfold compute_final_hash_pre_0_13_2. header_bounds Hh.
  destruct (from_uint_spec 8 (h_number h)) as (n & E1 & Hn & _); [lia | split; assumption|].
  destruct (from_uint_spec 8 (h_timestamp h)) as (ts & E2 & Hts & _); [lia | split; assumption|].
  destruct (from_uint_spec 8 (h_transaction_count h)) as (t & E3 & Hto & _); [lia | split; assumption|].
  destruct (from_uint_spec 8 (h_event_count h)) as (e & E4 & He & _); [lia | split; assumption|].
  unfold from_u64. rewrite E1, E2, E3, E4. cbn [bind_outcome]. apply hash_chain_total.
  split; [|unfold small; cbn; lia]. repeat (constructor; [assumption || exact FELT_ZERO_ok|]). constructor.
Qed.
End Leaves.

(** * What the Poseidon hash of a header commits to: the words written to the
    hasher determine every field of the header. *)

(** ** Words *)

Lemma word_of_eq w w' f : word_of w f -> word_of w' f -> w = w'.
Proof. intros [-> _] [-> _]. reflexivity. Qed.

Lemma words_of_eq ws fs : Forall2 word_of ws fs -> forall ws', Forall2 word_of ws' fs -> ws = ws'.
Proof.
  induction 1 as [|w f ws fs Hw _ IH]; intros ws' F; inversion F as [|w' ? ws'' ? Hw' F']; subst; [reflexivity|].
  f_equal; [exact (word_of_eq _ _ _ Hw Hw') | now apply IH].
Qed.

Lemma word_of_inj w f g : word_of w f -> word_of w g -> f = g.
Proof. intros [-> Hf] [E Hg]. now apply felt_word_inj. Qed.

Lemma u64_word_inj a b : u64_ok a -> u64_ok b -> u64_word a = u64_word b -> a = b.
Proof.
  intros Ha Hb E. destruct (u64_word_of a Ha) as (f & Wf & <-), (u64_word_of b Hb) as (g & Wg & <-).
  rewrite E in Wf. now rewrite (word_of_inj _ _ _ Wf Wg).
Qed.

Lemma u128_word_inj a b : u128_ok a -> u128_ok b -> u128_word a = u128_word b -> a = b.
Proof.
  intros Ha Hb E. destruct (u128_word_of a Ha) as (f & Wf & <-), (u128_word_of b Hb) as (g & Wg & <-).
  rewrite E in Wf. now rewrite (word_of_inj _ _ _ Wf Wg).
Qed.

(** ** The version *)

Definition positive_bytes (l : list Z) : Prop := Forall (fun c => 0 < c < 256) l.

Lemma positive_bytes_ok l : positive_bytes l -> bytes_ok l.
Proof. intros H. eapply Forall_impl; [exact H|]. cbv beta. lia. Qed.

Lemma positive_value c l : positive_bytes (c :: l) -> 256 ^ Z.of_nat (length l) <= be_value (c :: l).
Proof.
  intros H. inversion_clear H as [|? ? Hc Hl]. rewrite digits_value_cons.
  pose proof (digits_value_bound 256 l ltac:(lia) (positive_bytes_ok l Hl)). nia.
Qed.

(** Without zero bytes the value determines the length. *)
Lemma positive_length_le l l' : positive_bytes l -> positive_bytes l' -> be_value l = be_value l' ->
  (length l <= length l')%nat.
Proof.
  intros Hl Hl' E. destruct l as [|c l]; [cbn; lia|]. pose proof (positive_value c l Hl) as B.
  pose proof (digits_value_bound 256 l' ltac:(lia) (positive_bytes_ok l' Hl')) as B'. rewrite E in B.
  assert (Z.of_nat (length l) < Z.of_nat (length l')); [|cbn; lia]. apply (Z.pow_lt_mono_r_iff 256); lia.
Qed.

Lemma positive_value_inj l l' : positive_bytes l -> positive_bytes l' -> be_value l = be_value l' -> l = l'.
Proof.
  intros Hl Hl' E. apply (digits_value_inj 256); [lia | now apply positive_bytes_ok | now apply positive_bytes_ok | | exact E].
  apply Nat.le_antisymm; now apply positive_length_le.
Qed.

Lemma dec_u8_positive n : 0 <= n < 256 -> positive_bytes (dec_u8 n).
Proof.
  intros Hn. unfold dec_u8. pose proof (Z.mod_pos_bound n 10 ltac:(lia)). pose proof (Z.mod_pos_bound (n / 10) 10 ltac:(lia)).
  pose proof (Z.div_pos n 100). pose proof (Z.div_lt_upper_bound n 100 3). pose proof (Z.div_pos n 10).
  pose proof (Z.div_lt_upper_bound n 10 26).
  destruct (Z.ltb_spec n 10); [|destruct (Z.ltb_spec n 100)]; repeat constructor; lia.
Qed.

Lemma version_display_positive v : version_ok v -> positive_bytes (version_display v).
Proof.
  intros (Ha & Hb & Hc & Hd). apply dec_u8_positive in Ha, Hb, Hc, Hd. unfold version_display.
  assert (Bt : positive_bytes dot) by (repeat constructor; lia).
  repeat match goal with |- context [if ?b then _ else _] => destruct b end;
    repeat (apply Forall_app; split); assumption || constructor.
Qed.

Lemma version_word_of v : version_ok v ->
  exists f, word_of (version_word (version_display v)) f /\ be_value f = be_value (version_display v).
Proof.
  intros Hv. destruct (version_display_bytes v Hv) as [B L]. unfold version_word.
  destruct (felt_from_short_slice _ B ltac:(lia)) as (f & -> & Hf & V). exists f. split; [now split | exact V].
Qed.

Lemma version_word_inj v w : version_ok v -> version_ok w ->
  version_word (version_display v) = version_word (version_display w) -> v = w.
Proof.
  intros Hv Hw E. destruct (version_word_of v Hv) as (f & Wf & Vf), (version_word_of w Hw) as (g & Wg & Vg).
  rewrite E in Wf. rewrite (word_of_inj _ _ _ Wf Wg), Vg in Vf. apply version_display_inj; [assumption..|].
  symmetry. apply positive_value_inj; [now apply version_display_positive.. | exact Vf].
Qed.

(** ** The counts *)

Definition da_byte (mode : L1DataAvailabilityMode) : Z := match mode with Calldata => 0 | Blob => 128 end.

Lemma counts_bytes_ok h : bytes_ok (counts_bytes h) /\ length (counts_bytes h) = 32%nat.
Proof.
  unfold counts_bytes. split.
  - do 3 (apply digits_ok_app; split; [apply to_digits_ok; lia|]). apply digits_ok_app.
    split; [constructor; [destruct (h_l1_da_mode h); lia | constructor] | apply digits_ok_zeros; lia].
  - unfold to_be. rewrite !length_app, !to_digits_length. reflexivity.
Qed.

Lemma counts_value h : header_ok h -> be_value (counts_bytes h)
  = ((h_transaction_count h * 2 ^ 64 + h_event_count h) * 2 ^ 64 + h_state_diff_length h) * 2 ^ 64
    + da_byte (h_l1_da_mode h) * 2 ^ 56.
Proof.
  intros Hh. header_bounds Hh. unfold counts_bytes, to_be.
  rewrite !digits_value_app, !length_app, !to_digits_length, !to_digits_value by (cbn; lia).
  change (digits_value 256 (repeat 0 7)) with 0. unfold digits_value, da_byte. cbn. lia.
Qed.

Lemma concatenate_counts_of h : header_ok h -> exists f, word_of (concatenate_counts h) f /\
  be_value f = be_value (counts_bytes h) mod field_prime.
Proof. intros Hh. destruct (counts_bytes_ok h) as [B L]. now apply bytes_word_of. Qed.

(** Below [2 ^ 59] transactions the counts do not exceed the field. *)
Lemma counts_small h : header_ok h -> h_transaction_count h < 2 ^ 59 -> 0 <= be_value (counts_bytes h) < field_prime.
Proof.
  intros Hh Hc. rewrite (counts_value h Hh). header_bounds Hh. unfold field_prime.
  assert (0 <= da_byte (h_l1_da_mode h) <= 128) by (destruct (h_l1_da_mode h); cbn; lia). lia.
Qed.

Lemma concatenate_counts_inj h h' : header_ok h -> header_ok h' ->
  h_transaction_count h < 2 ^ 59 -> h_transaction_count h' < 2 ^ 59 -> concatenate_counts h = concatenate_counts h' ->
  h_transaction_count h = h_transaction_count h' /\ h_event_count h = h_event_count h' /\
  h_state_diff_length h = h_state_diff_length h' /\ h_l1_da_mode h = h_l1_da_mode h'.
Proof.
  intros Hh Hh' Hc Hc' E.
  destruct (concatenate_counts_of h Hh) as (f & Wf & Vf), (concatenate_counts_of h' Hh') as (g & Wg & Vg).
  rewrite E in Wf. rewrite (word_of_inj _ _ _ Wf Wg), Vg in Vf.
  rewrite !Z.mod_small in Vf by now apply counts_small. rewrite !counts_value in Vf by assumption.
  header_bounds Hh. header_bounds Hh'.
  destruct (h_l1_da_mode h), (h_l1_da_mode h'); unfold da_byte in Vf; repeat split; (lia || reflexivity).
Qed.

(** ** Preimages *)

(** The felts the hasher absorbs. *)
Definition preimage (words : list word) (fs : list Felt) : Prop := Forall2 word_of words fs.

Definition header_words (h : BlockHeader) : list word :=
  let version := version_display (h_starknet_version h) in
  if version_ltb (h_starknet_version h) V_0_13_4 then header_words_v0 h version else header_words_v1 h version.

Lemma compute_final_hash_words h : compute_final_hash h = hash_words (header_words h).
Proof.
  unfold compute_final_hash, compute_final_hash0, header_words. cbv zeta.
  destruct (version_ltb (h_starknet_version h) V_0_13_4); reflexivity.
Qed.

Lemma preimage_nil : exists fs, preimage [] fs.
Proof. exists []. constructor. Qed.

Lemma preimage_cons w words : (exists f, word_of w f) -> (exists fs, preimage words fs) -> exists fs, preimage (w :: words) fs.
Proof. intros [f Hf] [fs Hfs]. exists (f :: fs). now constructor. Qed.

Lemma word_of_felt f : felt_ok f -> exists g, word_of (felt_word f) g.
Proof. intros H. exists f. now apply felt_word_of. Qed.

Lemma word_of_u64 u : u64_ok u -> exists f, word_of (u64_word u) f.
Proof. intros H. destruct (u64_word_of u H) as (f & W & _). eauto. Qed.

Lemma word_of_u128 u : u128_ok u -> exists f, word_of (u128_word u) f.
Proof. intros H. destruct (u128_word_of u H) as (f & W & _). eauto. Qed.

Lemma word_of_counts h : header_ok h -> exists f, word_of (concatenate_counts h) f.
Proof. intros H. destruct (concatenate_counts_of h H) as (f & W & _). eauto. Qed.

Lemma word_of_version v : version_ok v -> exists f, word_of (version_word (version_display v)) f.
Proof. intros H. destruct (version_word_of v H) as (f & W & _). eauto. Qed.

Lemma word_of_tag s : Nat.leb (length (bytes_of_string s)) 31 = true -> exists f, word_of (tag_word s) f.
Proof. intros H. apply Nat.leb_le in H. destruct (tag_word_of s H) as (f & W & _). eauto. Qed.

Lemma word_of_zero : exists f, word_of (Ret ZERO) f.
Proof. exists FELT_ZERO. exact zero_word_of. Qed.

(** A word of a valid header stands for a felt; the case is read off the word. *)
Ltac solve_word :=
  lazymatch goal with
  | |- exists _, word_of (felt_word _) _ => apply word_of_felt; assumption
  | |- exists _, word_of (u64_word _) _ => apply word_of_u64; assumption
  | |- exists _, word_of (u128_word _) _ => apply word_of_u128; assumption
  | |- exists _, word_of (concatenate_counts _) _ => apply word_of_counts; assumption
  | |- exists _, word_of (version_word _) _ => apply word_of_version; assumption
  | |- exists _, word_of (tag_word _) _ => apply word_of_tag; vm_compute; reflexivity
  | |- exists _, word_of (Ret ZERO) _ => exact word_of_zero
  | |- _ => assumption
  end.

Ltac solve_preimage := repeat (apply preimage_cons; [solve_word|]); exact preimage_nil.

Lemma gas_prices_preimage h : header_ok h -> exists fs, preimage (gas_price_words h) fs.
Proof.
  intros Hh. destruct Hh as [_ _ W _]. rewrite !Forall_cons in W. destruct_and?. unfold gas_price_words.
  solve_preimage.
Qed.

Lemma gas_prices_of h : header_ok h ->
  exists fs f, preimage (gas_price_words h) fs /\ word_of (gas_prices_to_hash h) f /\ poseidon_felts fs = Ret f.
Proof.
  intros Hh. destruct (gas_prices_preimage h Hh) as [fs F]. destruct (hash_limbs_word _ _ F) as (f & W & E). eauto.
Qed.

Lemma header_preimage h : header_ok h -> exists fs, preimage (header_words h) fs.
Proof.
  intros Hh. assert (G : exists f, word_of (gas_prices_to_hash h) f) by (destruct (gas_prices_of h Hh) as (? & ? & _ & ? & _); eauto).
  destruct (Hh) as [F U W V]. rewrite !Forall_cons in F. rewrite !Forall_cons in U. rewrite !Forall_cons in W. destruct_and?.
  unfold header_words. cbv zeta. destruct (version_ltb (h_starknet_version h) V_0_13_4);
    [unfold header_words_v0 | unfold header_words_v1]; solve_preimage.
Qed.

Lemma compute_final_hash_total h : header_ok h -> exists x, compute_final_hash h = Ret x /\ felt_ok x.
Proof.
  intros Hh. destruct (header_preimage h Hh) as [fs F]. rewrite compute_final_hash_words.
  destruct (hash_words_total _ _ F) as (x & E & _ & Hx). eauto.
Qed.

(** ** Binding *)

(** Two preimages with one hash. *)
Definition collision (words words' : list word) : Prop :=
  exists fs fs' h, preimage words fs /\ preimage words' fs' /\ fs <> fs' /\
    poseidon_felts fs = Ret h /\ poseidon_felts fs' = Ret h.

Lemma same_hash words words' fs fs' h : preimage words fs -> preimage words' fs' ->
  poseidon_felts fs = Ret h -> poseidon_felts fs' = Ret h -> words = words' \/ collision words words'.
Proof.
  intros F F' E E'. destruct (decide (fs = fs')) as [->|N].
  - left. exact (words_of_eq _ _ F _ F').
  - right. exists fs, fs', h. auto.
Qed.

(** Every field of a header that its hash covers. *)
Record same_header (h h' : BlockHeader) : Prop := {
  same_number : h_number h = h_number h';
  same_parent : h_parent_hash h = h_parent_hash h';
  same_state : h_state_commitment h = h_state_commitment h';
  same_sequencer : h_sequencer_address h = h_sequencer_address h';
  same_timestamp : h_timestamp h = h_timestamp h';
  same_version : h_starknet_version h = h_starknet_version h';
  same_counts : h_transaction_count h = h_transaction_count h' /\ h_event_count h = h_event_count h' /\
    h_state_diff_length h = h_state_diff_length h' /\ h_l1_da_mode h = h_l1_da_mode h';
  same_commitments : h_state_diff_commitment h = h_state_diff_commitment h' /\
    h_transaction_commitment h = h_transaction_commitment h' /\ h_event_commitment h = h_event_commitment h' /\
    h_receipt_commitment h = h_receipt_commitment h';
  same_l1_prices : h_eth_l1_gas_price h = h_eth_l1_gas_price h' /\ h_strk_l1_gas_price h = h_strk_l1_gas_price h' /\
    h_eth_l1_data_gas_price h = h_eth_l1_data_gas_price h' /\ h_strk_l1_data_gas_price h = h_strk_l1_data_gas_price h';
  same_l2_prices : version_ltb (h_starknet_version h) V_0_13_4 = false ->
    h_eth_l2_gas_price h = h_eth_l2_gas_price h' /\ h_strk_l2_gas_price h = h_strk_l2_gas_price h'
}.

Lemma cons_parts {A} (a b : A) l l' : a :: l = b :: l' -> a = b /\ l = l'.
Proof. intros E. injection E as E1 E2. auto. Qed.

(** Takes an equality of lists of words to equalities of words. *)
Ltac split_words E :=
  repeat match type of E with
  | _ :: _ = _ :: _ => let W := fresh "W" in apply cons_parts in E as [W E]
  end; clear E.

(** Takes equalities of words to equalities of what they stand for. *)
Ltac read_words :=
  repeat match goal with
  | W : u64_word _ = u64_word _ |- _ => apply u64_word_inj in W; [|assumption..]
  | W : u128_word _ = u128_word _ |- _ => apply u128_word_inj in W; [|assumption..]
  | W : felt_word _ = felt_word _ |- _ => apply felt_word_inj in W; [|assumption..]
  | W : version_word _ = version_word _ |- _ => apply version_word_inj in W; [|assumption..]
  | W : concatenate_counts _ = concatenate_counts _ |- _ => apply concatenate_counts_inj in W; [|assumption..]
  end.

Lemma gas_price_words_inj h h' : header_ok h -> header_ok h' -> gas_price_words h = gas_price_words h' ->
  (h_eth_l1_gas_price h = h_eth_l1_gas_price h' /\ h_strk_l1_gas_price h = h_strk_l1_gas_price h' /\
   h_eth_l1_data_gas_price h = h_eth_l1_data_gas_price h' /\ h_strk_l1_data_gas_price h = h_strk_l1_data_gas_price h') /\
  h_eth_l2_gas_price h = h_eth_l2_gas_price h' /\ h_strk_l2_gas_price h = h_strk_l2_gas_price h'.
Proof.
  intros [_ _ W _] [_ _ W' _] E. rewrite !Forall_cons in W. rewrite !Forall_cons in W'. destruct_and?.
  unfold gas_price_words in E. split_words E. read_words. auto 10.
Qed.

Lemma gas_prices_binding h h' : header_ok h -> header_ok h' -> gas_prices_to_hash h = gas_prices_to_hash h' ->
  gas_price_words h = gas_price_words h' \/ collision (gas_price_words h) (gas_price_words h').
Proof.
  intros Hh Hh' E. destruct (gas_prices_of h Hh) as (fs & f & F & W & P), (gas_prices_of h' Hh') as (fs' & f' & F' & W' & P').
  rewrite E in W. rewrite <- (word_of_inj _ _ _ W W') in P'. exact (same_hash _ _ _ _ _ F F' P P').
Qed.

Lemma header_words_v0_inj h h' : header_ok h -> header_ok h' ->
  h_transaction_count h < 2 ^ 59 -> h_transaction_count h' < 2 ^ 59 ->
  version_ltb (h_starknet_version h) V_0_13_4 = true ->
  header_words_v0 h (version_display (h_starknet_version h)) = header_words_v0 h' (version_display (h_starknet_version h')) ->
  same_header h h'.
Proof.
  intros Hh Hh' Hc Hc' V0 E. destruct (Hh) as [F U W V], (Hh') as [F' U' W' V'].
  rewrite !Forall_cons in F, F'. rewrite !Forall_cons in U, U'. rewrite !Forall_cons in W, W'. destruct_and?.
  unfold header_words_v0 in E. split_words E. read_words. destruct_and?. constructor; auto. congruence.
Qed.

Lemma header_words_v1_inj h h' : header_ok h -> header_ok h' ->
  h_transaction_count h < 2 ^ 59 -> h_transaction_count h' < 2 ^ 59 ->
  header_words_v1 h (version_display (h_starknet_version h)) = header_words_v1 h' (version_display (h_starknet_version h')) ->
  same_header h h' \/ collision (gas_price_words h) (gas_price_words h').
Proof.
  intros Hh Hh' Hc Hc' E. destruct (Hh) as [F U _ V], (Hh') as [F' U' _ V'].
  rewrite !Forall_cons in F, F'. rewrite !Forall_cons in U, U'. destruct_and?.
  unfold header_words_v1 in E. split_words E.
  match goal with G : gas_prices_to_hash _ = _ |- _ => apply gas_prices_binding in G; [|assumption..]; destruct G as [G|G]; [|auto] end.
  match goal with G : gas_price_words _ = _ |- _ => apply gas_price_words_inj in G; [|assumption..] end.
  read_words. destruct_and?. left. constructor; auto.
Qed.

Lemma header_words_inj h h' : header_ok h -> header_ok h' ->
  h_transaction_count h < 2 ^ 59 -> h_transaction_count h' < 2 ^ 59 -> header_words h = header_words h' ->
  same_header h h' \/ collision (gas_price_words h) (gas_price_words h').
Proof.
  intros Hh Hh' Hc Hc' E. unfold header_words in E. cbv zeta in E.
  destruct (version_ltb (h_starknet_version h) V_0_13_4) eqn:V, (version_ltb (h_starknet_version h') V_0_13_4) eqn:V'.
  - left. now apply header_words_v0_inj.
  - apply (f_equal length) in E. discriminate.
  - apply (f_equal length) in E. discriminate.
  - now apply header_words_v1_inj.
Qed.
