(* ===== verification/VerifyFacts.v ===== *)
(** Facts on the check of a block: it never fails on valid data, and the exact
    condition under which it reports a match. *)

From Stdlib Require Import ZArith Lia Bool List.
From stdpp Require Import gmap list.
From S2P Require Import Prelude Bytes Felt Pedersen MerkleNode Tree TrieSpec TreeHash TreeMap TreeCommit.
From S2P Require Import TransactionTree Hashing Commitments BlockVerify CommitmentFacts.
Local Open Scope Z_scope.

(** ** The specification *)

(** The root of the trie that holds the leaf of the i-th element at index i. *)
Definition commits {A} (H : Felt -> Felt -> outcome Felt) (leaf : A -> outcome Felt) (l : list A) (root : Felt) : Prop :=
  exists hashes, Forall2 (fun a h => leaf a = Ret h) l hashes /\
    spec_root H TRANSACTION_HEIGHT (index_map hashes) = Ret root.

(** The events of a block, each with the hash of its transaction. *)
Definition block_events (block : Block) : list (Felt * Event) :=
  flat_map (fun te => map (pair te.1) te.2)
    (map (fun re => (r_transaction_hash re.1, re.2)) (b_transaction_receipts block)).

(** A header with the three commitments replaced. *)
Definition recommitted (transactions receipts events : Felt) (header : BlockHeader) : BlockHeader :=
  with_event_commitment events (with_receipt_commitment receipts (with_transaction_commitment transactions header)).

(** The gateway leaves a commitment out by sending zero or nothing. *)
Definition declared_felt (declared computed : Felt) : Prop := declared = FELT_ZERO \/ declared = computed.

Definition declared_option (declared : option Felt) (computed : Felt) : Prop := declared = None \/ declared = Some computed.

Record block_ok (block : Block) : Prop := {
  ok_transactions : Forall transaction_ok (b_transactions block) /\ small (b_transactions block);
  ok_receipts : Forall (fun re => receipt_ok re.1 /\ Forall event_ok re.2) (b_transaction_receipts block);
  ok_receipt_count : small (b_transaction_receipts block);
  ok_event_count : small (block_events block)
}.

Section Facts.
Context (tables : PedersenTables) (Ht : tables_ok tables) (keccak : list Z -> list Z).
Context (keccak_ok : forall bytes, bytes_ok (keccak bytes) /\ length (keccak bytes) = 32%nat).

(** What the hash of a block is compared with. *)
Definition hash_matches (header : BlockHeader) (chain : Chain) (chain_id : Felt) : Prop :=
  if uses_pre_0_7_hash_algorithm (for_chain chain) (h_number header) then
    compute_final_hash_pre_0_7 tables header chain_id = Ret (h_hash header)
  else if version_ltb (h_starknet_version header) V_0_13_2 then
    compute_final_hash_pre_0_13_2 tables header = Ret (h_hash header) \/
    (chain = Mainnet /\
     compute_final_hash_pre_0_13_2 tables (with_sequencer_address MAINNET_SEQUENCER header) = Ret (h_hash header))
  else compute_final_hash header = Ret (h_hash header).

(** The condition for a match. *)
Definition block_matches (block : Block) (header : BlockHeader) (chain : Chain) (chain_id : Felt) : Prop :=
  exists transactions receipts events,
    commits (commitment_hash tables (b_starknet_version block)) (transaction_leaf tables (b_starknet_version block))
      (b_transactions block) transactions /\
    commits PoseidonHash (receipt_leaf keccak) (map fst (b_transaction_receipts block)) receipts /\
    commits (commitment_hash tables (b_starknet_version block)) (event_leaf tables (b_starknet_version block))
      (block_events block) events /\
    declared_felt (b_transaction_commitment block) transactions /\
    declared_option (b_receipt_commitment block) receipts /\
    declared_felt (b_event_commitment block) events /\
    hash_matches (recommitted transactions receipts events header) chain chain_id.

(** ** Commitments *)

Lemma commits_unique {A} H (leaf : A -> outcome Felt) l r r' : commits H leaf l r -> commits H leaf l r' -> r = r'.
Proof.
  intros (hs & F & E) (hs' & F' & E'). assert (hs = hs') as <-; [|congruence]. clear E E'.
  revert hs' F'. induction F as [|a h l hs Ha _ IH]; intros hs' F'; inversion F' as [|? h' ? hs'' Ha' F'']; subst; [reflexivity|].
  f_equal; [congruence | now apply IH].
Qed.

Lemma commitment_total {A} H (HH : FeltHash H) (leaf : A -> outcome Felt) l :
  Forall (fun a => exists h, leaf a = Ret h /\ felt_ok h) l -> small l ->
  exists root, (let! hashes := map_all leaf l in calculate_commitment_root H hashes) = Ret (Ok root) /\
    felt_ok root /\ commits H leaf l root.
Proof.
  intros Hl Hs. destruct (map_all_total leaf l Hl) as (hs & -> & Hf & F). cbn [bind_outcome].
  destruct (commitment_root_spec H hs HH Hf) as (root & E & Hr & S).
  { rewrite <- (Forall2_length _ _ _ F). unfold small in Hs. lia. }
  exists root. split; [exact E|]. split; [exact Hr|]. now exists hs.
Qed.

Lemma commitment_hash_felt version : FeltHash (commitment_hash tables version).
Proof.
  unfold commitment_hash. destruct (version_ltb version V_0_13_2); [now apply PedersenHash_total | exact PoseidonHash_total].
Qed.

Lemma transaction_commitment_total transactions version : Forall transaction_ok transactions -> small transactions ->
  exists root, calculate_transaction_commitment tables transactions version = Ret (Ok root) /\ felt_ok root /\
    commits (commitment_hash tables version) (transaction_leaf tables version) transactions root.
Proof.
  intros Hl Hs. apply commitment_total; [apply commitment_hash_felt | | exact Hs].
  eapply Forall_impl; [exact Hl|]. intros tx. now apply transaction_leaf_total.
Qed.

Lemma receipt_commitment_total receipts : Forall receipt_ok receipts -> small receipts ->
  exists root, calculate_receipt_commitment keccak receipts = Ret (Ok root) /\ felt_ok root /\
    commits PoseidonHash (receipt_leaf keccak) receipts root.
Proof.
  intros Hl Hs. apply commitment_total; [exact PoseidonHash_total | | exact Hs].
  eapply Forall_impl; [exact Hl|]. intros r. now apply receipt_leaf_total.
Qed.

Lemma block_events_ok block : block_ok block -> Forall (fun te => felt_ok te.1 /\ event_ok te.2) (block_events block).
Proof.
  intros [_ Hr _ _]. unfold block_events. rewrite flat_map_concat_map, map_map. apply Forall_concat, Forall_map.
  eapply Forall_impl; [exact Hr|]. intros [r es] [(_ & Hh & _) He]. cbn [fst snd] in *. apply Forall_map.
  eapply Forall_impl; [exact He|]. now split.
Qed.

Lemma event_commitment_total block : block_ok block ->
  exists root, calculate_event_commitment tables
      (map (fun re => (r_transaction_hash re.1, re.2)) (b_transaction_receipts block)) (b_starknet_version block) = Ret (Ok root) /\
    felt_ok root /\
    commits (commitment_hash tables (b_starknet_version block)) (event_leaf tables (b_starknet_version block))
      (block_events block) root.
Proof.
  intros Hb. apply commitment_total; [apply commitment_hash_felt | | apply (ok_event_count _ Hb)].
  eapply Forall_impl; [exact (block_events_ok block Hb)|]. intros te [Hth He]. now apply event_leaf_total.
Qed.

(** ** The hash *)

Lemma verdict_spec b P : (b = true <-> P) -> verdict b = Match <-> P.
Proof. intros <-. destruct b; cbn; split; congruence. Qed.

Lemma verdict_computed (x : outcome Felt) h : (exists f, x = Ret f /\ felt_ok f) ->
  exists f, x = Ret f /\ (verdict (felt_eqb f h) = Match <-> x = Ret h).
Proof.
  intros (f & -> & _). exists f. split; [reflexivity|]. apply verdict_spec. rewrite felt_eqb_eq. split; congruence.
Qed.

Lemma MAINNET_SEQUENCER_ok : felt_ok MAINNET_SEQUENCER.
Proof. split; [|split; [reflexivity | vm_compute; reflexivity]]. repeat constructor; discriminate. Qed.

Lemma with_sequencer_ok f h : felt_ok f -> header_ok h -> header_ok (with_sequencer_address f h).
Proof.
  intros Hf [F U W V]. constructor; [|exact U | exact W | exact V]. rewrite !Forall_cons in F. destruct_and?.
  cbn [with_sequencer_address h_hash h_parent_hash h_sequencer_address h_event_commitment h_state_commitment
    h_transaction_commitment h_receipt_commitment h_state_diff_commitment].
  repeat (constructor; [assumption|]). constructor.
Qed.

Lemma pre_0_7_chain chain n : 0 <= n -> uses_pre_0_7_hash_algorithm (for_chain chain) n = true -> chain = Mainnet.
Proof. intros Hn E. apply Z.ltb_lt in E. destruct chain; [reflexivity | cbn in E; lia..]. Qed.

Lemma verify_block_hash_spec header chain chain_id : header_ok header -> felt_ok chain_id ->
  exists r, verify_block_hash tables header chain chain_id = Ret (Ok r) /\ (r = Match <-> hash_matches header chain chain_id).
Proof.
  intros Hh Hc. unfold verify_block_hash, hash_matches. cbv zeta.
  destruct (uses_pre_0_7_hash_algorithm (for_chain chain) (h_number header)) eqn:Pre.
  - apply pre_0_7_chain in Pre as ->; [|header_bounds Hh; assumption]. cbn [chain_eqb].
    destruct (verdict_computed _ (h_hash header) (pre_0_7_total tables Ht header chain_id Hh Hc)) as (f & E & V).
    rewrite E in *. cbn [bind_outcome]. eauto.
  - destruct (version_ltb (h_starknet_version header) V_0_13_2) eqn:Ver.
    + destruct (pre_0_13_2_total tables Ht header Hh) as (f & E & _). rewrite E. cbn [bind_outcome].
      destruct (felt_eqb f (h_hash header)) eqn:Ef.
      { apply felt_eqb_eq in Ef as ->. exists Match. cbn. split; [reflexivity|]. split; auto. }
      assert (Nf : Ret f <> Ret (h_hash header)).
      { intros [= X]. apply felt_eqb_eq in X. congruence. }
      destruct chain; cbn [for_chain MAINNET_METAINFO SEPOLIA_TESTNET_METAINFO SEPOLIA_INTEGRATION_METAINFO CUSTOM_METAINFO
        fallback_sequencer_address]; [|exists Mismatch; cbn; split; [reflexivity|]; split; [discriminate | intuition discriminate]..].
      destruct (verdict_computed _ (h_hash header)
        (pre_0_13_2_total tables Ht _ (with_sequencer_ok _ _ MAINNET_SEQUENCER_ok Hh))) as (g & E' & V).
      rewrite E' in *. cbn [bind_outcome]. eexists. split; [reflexivity|]. rewrite V. intuition.
    + destruct (verdict_computed _ (h_hash header) (compute_final_hash_total header Hh)) as (f & E & V).
      rewrite E in *. cbn [bind_outcome]. eauto.
Qed.

(** ** The commitments in turn *)

Lemma with_transaction_same h : with_transaction_commitment (h_transaction_commitment h) h = h.
Proof. now destruct h. Qed.

Lemma with_receipt_same h : with_receipt_commitment (h_receipt_commitment h) h = h.
Proof. now destruct h. Qed.

Lemma with_event_same h : with_event_commitment (h_event_commitment h) h = h.
Proof. now destruct h. Qed.

Lemma with_commitment_ok f h : felt_ok f -> header_ok h ->
  header_ok (with_transaction_commitment f h) /\ header_ok (with_receipt_commitment f h) /\
  header_ok (with_event_commitment f h).
Proof.
  intros Hf [F U W V]. rewrite !Forall_cons in F. destruct_and?.
  split; [|split]; (constructor; [|exact U | exact W | exact V]);
    cbn [with_transaction_commitment with_receipt_commitment with_event_commitment h_hash h_parent_hash h_sequencer_address
      h_event_commitment h_state_commitment h_transaction_commitment h_receipt_commitment h_state_diff_commitment];
    repeat (constructor; [assumption|]); constructor.
Qed.

Lemma check_events_spec block chain chain_id header : block_ok block -> header_ok header -> felt_ok chain_id ->
  h_event_commitment header = b_event_commitment block ->
  exists r, check_events tables block chain chain_id header = Ret (Ok r) /\
    (r = Match <-> exists events,
      commits (commitment_hash tables (b_starknet_version block)) (event_leaf tables (b_starknet_version block))
        (block_events block) events /\
      declared_felt (b_event_commitment block) events /\ hash_matches (with_event_commitment events header) chain chain_id).
Proof.
  intros Hb Hh Hc Eh. unfold check_events. destruct (event_commitment_total block Hb) as (root & -> & Hr & C).
  cbn [commitment try]. destruct (felt_eqb (b_event_commitment block) FELT_ZERO) eqn:Ez.
  - apply felt_eqb_eq in Ez. destruct (verify_block_hash_spec (with_event_commitment root header) chain chain_id)
      as (r & E & V); [now apply with_commitment_ok | exact Hc|]. exists r. split; [exact E|]. rewrite V. split.
    + intros M. exists root. unfold declared_felt. auto.
    + intros (root' & C' & _ & M). now rewrite (commits_unique _ _ _ _ _ C C').
  - destruct (felt_eqb root (b_event_commitment block)) eqn:Er; cbn [negb].
    + apply felt_eqb_eq in Er as ->. destruct (verify_block_hash_spec header chain chain_id Hh Hc) as (r & E & V).
      exists r. split; [exact E|]. rewrite V. rewrite <- Eh in *. split.
      * intros M. exists (h_event_commitment header). rewrite with_event_same. unfold declared_felt. auto.
      * intros (root' & C' & _ & M). now rewrite <- (commits_unique _ _ _ _ _ C C'), with_event_same in M.
    + exists Mismatch. split; [reflexivity|]. split; [discriminate|]. intros (root' & C' & [D|D] & _).
      * apply felt_eqb_eq in D. congruence.
      * rewrite <- (commits_unique _ _ _ _ _ C C') in D. symmetry in D. apply felt_eqb_eq in D. congruence.
Qed.

Lemma check_receipts_spec block chain chain_id header : block_ok block -> header_ok header -> felt_ok chain_id ->
  h_event_commitment header = b_event_commitment block ->
  h_receipt_commitment header = default FELT_ZERO (b_receipt_commitment block) ->
  exists r, check_receipts tables keccak block chain chain_id header = Ret (Ok r) /\
    (r = Match <-> exists receipts events,
      commits PoseidonHash (receipt_leaf keccak) (map fst (b_transaction_receipts block)) receipts /\
      commits (commitment_hash tables (b_starknet_version block)) (event_leaf tables (b_starknet_version block))
        (block_events block) events /\
      declared_option (b_receipt_commitment block) receipts /\ declared_felt (b_event_commitment block) events /\
      hash_matches (with_event_commitment events (with_receipt_commitment receipts header)) chain chain_id).
Proof.
  intros Hb Hh Hc Ee Er. unfold check_receipts.
  destruct (receipt_commitment_total (map fst (b_transaction_receipts block))) as (root & -> & Hr & C).
  { apply Forall_map. eapply Forall_impl; [exact (ok_receipts _ Hb)|]. now intros re [? _]. }
  { unfold small. rewrite length_map. apply (ok_receipt_count _ Hb). }
  cbn [commitment try]. destruct (b_receipt_commitment block) as [declared|] eqn:Ed; cbn [default] in Er; unfold id in Er.
  - destruct (felt_eqb root declared) eqn:Ef; cbn [negb].
    + apply felt_eqb_eq in Ef as ->. destruct (check_events_spec block chain chain_id header Hb Hh Hc Ee) as (r & E & V).
      exists r. split; [exact E|]. rewrite V. split.
      * intros (events & Ce & De & M). exists declared, events. rewrite <- Er, with_receipt_same, Er.
        unfold declared_option. auto.
      * intros (root' & events & C' & Ce & _ & De & M). exists events.
        rewrite <- (commits_unique _ _ _ _ _ C C'), <- Er, with_receipt_same in M. auto.
    + exists Mismatch. split; [reflexivity|]. split; [discriminate|]. intros (root' & _ & C' & _ & [D|D] & _); [discriminate|].
      injection D as D. rewrite <- (commits_unique _ _ _ _ _ C C') in D. symmetry in D. apply felt_eqb_eq in D. congruence.
  - destruct (check_events_spec block chain chain_id (with_receipt_commitment root header) Hb) as (r & E & V);
      [now apply with_commitment_ok | exact Hc | exact Ee|]. exists r. split; [exact E|]. rewrite V. split.
    + intros (events & Ce & De & M). exists root, events. unfold declared_option. auto 6.
    + intros (root' & events & C' & Ce & _ & De & M). exists events.
      rewrite <- (commits_unique _ _ _ _ _ C C') in M. auto.
Qed.

Lemma verify_gateway_spec block state_diff_commitment state_diff_length chain chain_id :
  let header := header_from_gateway_block block state_diff_commitment state_diff_length in
  block_ok block -> header_ok header -> felt_ok chain_id ->
  exists r, verify_gateway_block_commitments_and_hash tables keccak block state_diff_commitment state_diff_length chain chain_id
      = Ret (Ok r) /\ (r = Match <-> block_matches block header chain chain_id).
Proof.
  cbv zeta. intros Hb Hh Hc. unfold verify_gateway_block_commitments_and_hash, block_matches. cbv zeta.
  set (header := header_from_gateway_block block state_diff_commitment state_diff_length) in *.
  destruct (ok_transactions _ Hb) as [Htx Hs].
  destruct (transaction_commitment_total (b_transactions block) (b_starknet_version block) Htx Hs) as (root & -> & Hr & C).
  cbn [commitment try]. destruct (felt_eqb (b_transaction_commitment block) FELT_ZERO) eqn:Ez.
  - apply felt_eqb_eq in Ez. destruct (check_receipts_spec block chain chain_id (with_transaction_commitment root header) Hb)
      as (r & E & V); [now apply with_commitment_ok | exact Hc | reflexivity | reflexivity|].
    exists r. split; [exact E|]. rewrite V. unfold recommitted. split.
    + intros (receipts & events & M). destruct_and!. exists root, receipts, events. unfold declared_felt. auto 10.
    + intros (root' & receipts & events & C' & M). destruct_and!. rewrite <- (commits_unique _ _ _ _ _ C C') in *. eauto 10.
  - destruct (felt_eqb root (h_transaction_commitment header)) eqn:Er; cbn [negb].
    + apply felt_eqb_eq in Er. destruct (check_receipts_spec block chain chain_id header Hb Hh Hc eq_refl eq_refl) as (r & E & V).
      exists r. split; [exact E|]. rewrite V. unfold recommitted. split.
      * intros (receipts & events & M). destruct_and!. exists root, receipts, events.
        rewrite Er, with_transaction_same, <- Er. unfold declared_felt. auto 10.
      * intros (root' & receipts & events & C' & M). destruct_and!.
        rewrite <- (commits_unique _ _ _ _ _ C C'), Er, with_transaction_same in *. eauto 10.
    + exists Mismatch. split; [reflexivity|]. split; [discriminate|]. intros (root' & _ & _ & C' & _ & _ & [D|D] & _).
      * apply felt_eqb_eq in D. congruence.
      * rewrite <- (commits_unique _ _ _ _ _ C C') in D. symmetry in D. apply felt_eqb_eq in D.
        change (h_transaction_commitment header) with (b_transaction_commitment block) in Er. congruence.
Qed.
End Facts.
