(* ===== verification/Transactions.v ===== *)
(** Transactions and their hashes: common/src/transaction.rs, with the versions
    and the addresses of deployed contracts of common/src/lib.rs. *)

From Stdlib Require Import String ZArith Lia Bool List.
From stdpp Require Import list.
From S2P Require Import Prelude Bytes Words Montgomery Fields Felt Poseidon Pedersen Hashing Commitments.
Local Open Scope Z_scope.

(** ** Data *)

Inductive DataAvailabilityMode : Type := L1 | L2.

Definition u64_of_mode (value : DataAvailabilityMode) : Z := match value with L1 => 0 | L2 => 1 end.

Record ResourceBound : Type := MkBound { max_amount : Z; max_price_per_unit : Z }.

Record ResourceBounds : Type := MkBounds { l1_gas : ResourceBound; l2_gas : ResourceBound; l1_data_gas : option ResourceBound }.

Inductive EntryPointType : Type := External | L1HandlerEntry.

Record DeclareTransactionV0V1 : Type := MkDeclareV0V1 {
  d1_class_hash : Felt; d1_max_fee : Felt; d1_nonce : Felt; d1_signature : list Felt; d1_sender_address : Felt
}.

Record DeclareTransactionV2 : Type := MkDeclareV2 {
  d2_class_hash : Felt; d2_max_fee : Felt; d2_nonce : Felt; d2_signature : list Felt; d2_sender_address : Felt;
  d2_compiled_class_hash : Felt
}.

Record DeclareTransactionV3 : Type := MkDeclareV3 {
  d3_class_hash : Felt; d3_nonce : Felt; d3_nonce_mode : DataAvailabilityMode; d3_fee_mode : DataAvailabilityMode;
  d3_resource_bounds : ResourceBounds; d3_tip : Z; d3_paymaster_data : list Felt; d3_signature : list Felt;
  d3_account_deployment_data : list Felt; d3_sender_address : Felt; d3_compiled_class_hash : Felt
}.

Record DeployTransactionV0 : Type := MkDeployV0 {
  p0_class_hash : Felt; p0_contract_address : Felt; p0_contract_address_salt : Felt; p0_constructor_calldata : list Felt
}.

Record DeployTransactionV1 : Type := MkDeployV1 {
  p1_class_hash : Felt; p1_contract_address : Felt; p1_contract_address_salt : Felt; p1_constructor_calldata : list Felt
}.

Record DeployAccountTransactionV1 : Type := MkDeployAccountV1 {
  a1_contract_address : Felt; a1_max_fee : Felt; a1_signature : list Felt; a1_nonce : Felt;
  a1_contract_address_salt : Felt; a1_constructor_calldata : list Felt; a1_class_hash : Felt
}.

Record DeployAccountTransactionV3 : Type := MkDeployAccountV3 {
  a3_contract_address : Felt; a3_signature : list Felt; a3_nonce : Felt; a3_nonce_mode : DataAvailabilityMode;
  a3_fee_mode : DataAvailabilityMode; a3_resource_bounds : ResourceBounds; a3_tip : Z; a3_paymaster_data : list Felt;
  a3_contract_address_salt : Felt; a3_constructor_calldata : list Felt; a3_class_hash : Felt
}.

Record InvokeTransactionV0 : Type := MkInvokeV0 {
  i0_calldata : list Felt; i0_sender_address : Felt; i0_entry_point_selector : Felt;
  i0_entry_point_type : option EntryPointType; i0_max_fee : Felt; i0_signature : list Felt
}.

Record InvokeTransactionV1 : Type := MkInvokeV1 {
  i1_calldata : list Felt; i1_sender_address : Felt; i1_max_fee : Felt; i1_signature : list Felt; i1_nonce : Felt
}.

Record InvokeTransactionV3 : Type := MkInvokeV3 {
  i3_signature : list Felt; i3_nonce : Felt; i3_nonce_mode : DataAvailabilityMode; i3_fee_mode : DataAvailabilityMode;
  i3_resource_bounds : ResourceBounds; i3_tip : Z; i3_paymaster_data : list Felt; i3_account_deployment_data : list Felt;
  i3_calldata : list Felt; i3_sender_address : Felt; i3_proof_facts : list Felt
}.

Record L1HandlerTransaction : Type := MkL1Handler {
  lh_contract_address : Felt; lh_entry_point_selector : Felt; lh_nonce : Felt; lh_calldata : list Felt
}.

Inductive TransactionVariant : Type :=
| DeclareV0 (tx : DeclareTransactionV0V1)
| DeclareV1 (tx : DeclareTransactionV0V1)
| DeclareV2 (tx : DeclareTransactionV2)
| DeclareV3 (tx : DeclareTransactionV3)
| DeployV0 (tx : DeployTransactionV0)
| DeployV1 (tx : DeployTransactionV1)
| DeployAccountV1 (tx : DeployAccountTransactionV1)
| DeployAccountV3 (tx : DeployAccountTransactionV3)
| InvokeV0 (tx : InvokeTransactionV0)
| InvokeV1 (tx : InvokeTransactionV1)
| InvokeV3 (tx : InvokeTransactionV3)
| L1Handler (tx : L1HandlerTransaction).

Inductive TransactionKind : Type := DeclareKind | DeployKind | DeployAccountKind | InvokeKind | L1HandlerKind.

Definition kind (self : TransactionVariant) : TransactionKind :=
  match self with
  | DeclareV0 _ | DeclareV1 _ | DeclareV2 _ | DeclareV3 _ => DeclareKind
  | DeployV0 _ | DeployV1 _ => DeployKind
  | DeployAccountV1 _ | DeployAccountV3 _ => DeployAccountKind
  | InvokeV0 _ | InvokeV1 _ | InvokeV3 _ => InvokeKind
  | L1Handler _ => L1HandlerKind
  end.

Record Transaction : Type := MkTransaction { hash : Felt; variant : TransactionVariant }.

(** ** Versions *)

(** [Felt::from_u64] of a constant *)
Definition version_const (n : Z) : Felt := repeat 0 31 ++ [n].
Definition VERSION_ZERO : Felt := version_const 0.
Definition VERSION_ONE : Felt := version_const 1.
Definition VERSION_TWO : Felt := version_const 2.
Definition VERSION_THREE : Felt := version_const 3.

Definition version (self : TransactionVariant) : Felt :=
  match self with
  | DeclareV0 _ | DeployV0 _ | InvokeV0 _ | L1Handler _ => VERSION_ZERO
  | DeclareV1 _ | DeployV1 _ | DeployAccountV1 _ | InvokeV1 _ => VERSION_ONE
  | DeclareV2 _ => VERSION_TWO
  | DeclareV3 _ | DeployAccountV3 _ | InvokeV3 _ => VERSION_THREE
  end.

Definition without_query_version (self : Felt) : Z := from_be (skipn 16 self).

(** [bytes[15] |= 1] *)
Definition with_query_version (self : Felt) : outcome Felt :=
  unwrap_result (felt_from_be_bytes (upd 15 (Z.lor (nth 15 self 0) 1) self)).

Definition has_query_version (self : Felt) : bool := negb (Z.land (nth 15 self 0) 1 =? 0).

Definition with_query_only (self : Felt) (query_only : bool) : outcome Felt :=
  if query_only then with_query_version self else from_u128 (without_query_version self).

(** [EntryPoint::CONSTRUCTOR] *)
Definition CONSTRUCTOR : Felt :=
  Eval vm_compute in
    match from_hex_str (bytes_of_string "0x028FFE4FF0F226A9107253E17A904099AA4F63A02A5621DE0576E5AA71BC5194") with
    | Ok f => f
    | Err _ => FELT_ZERO
    end.

(** ** Hashes *)

Section Code.
Context (tables : PedersenTables).

(** [if let Some(felt) = .. { hasher.update(felt) }] *)
Definition opt_update (o : option Felt) : list Felt := match o with Some f => [f] | None => [] end.

(** *** Before version 3 *)

Record LegacyHasher : Type := MkLegacy {
  lg_prefix : Felt; lg_address : Felt; lg_entry_point : Felt; lg_data_hash : Felt; lg_nonce : option Felt
}.

Definition legacy_hash (self : LegacyHasher) (chain_id : Felt) : outcome Felt :=
  hash_chain tables ([lg_prefix self; lg_address self; lg_entry_point self; lg_data_hash self; chain_id] ++
    opt_update (lg_nonce self)).

Record PreV3Hasher : Type := MkPreV3 {
  pre_prefix : Felt; pre_version : Felt; pre_address : Felt; pre_entry_point : Felt; pre_data_hash : Felt;
  pre_max_fee : Felt; pre_nonce_or_class : option Felt; pre_casm_hash : option Felt
}.

Definition pre_v3_hash (self : PreV3Hasher) (chain_id : Felt) : outcome Felt :=
  hash_chain tables ([pre_prefix self; pre_version self; pre_address self; pre_entry_point self; pre_data_hash self;
    pre_max_fee self; chain_id] ++ opt_update (pre_nonce_or_class self) ++ opt_update (pre_casm_hash self)).

Definition declare_hash_v0 (self : DeclareTransactionV0V1) (chain_id : Felt) (query_only : bool) : outcome Felt :=
  let! prefix := felt_bytes "declare" in
  let! version := with_query_only VERSION_ZERO query_only in
  let! data_hash := hash_chain tables [] in
  pre_v3_hash (MkPreV3 prefix version (d1_sender_address self) FELT_ZERO data_hash FELT_ZERO (Some (d1_class_hash self)) None) chain_id.

Definition declare_hash_v1 (self : DeclareTransactionV0V1) (chain_id : Felt) (query_only : bool) : outcome Felt :=
  let! prefix := felt_bytes "declare" in
  let! version := with_query_only VERSION_ONE query_only in
  let! data_hash := chain_single (pedersen_hash tables) (d1_class_hash self) in
  pre_v3_hash (MkPreV3 prefix version (d1_sender_address self) FELT_ZERO data_hash (d1_max_fee self) (Some (d1_nonce self)) None) chain_id.

Definition declare_hash_v2 (self : DeclareTransactionV2) (chain_id : Felt) (query_only : bool) : outcome Felt :=
  let! prefix := felt_bytes "declare" in
  let! version := with_query_only VERSION_TWO query_only in
  let! data_hash := chain_single (pedersen_hash tables) (d2_class_hash self) in
  pre_v3_hash (MkPreV3 prefix version (d2_sender_address self) FELT_ZERO data_hash (d2_max_fee self) (Some (d2_nonce self))
    (Some (d2_compiled_class_hash self))) chain_id.

Definition deploy_hash_v0 (self : DeployTransactionV0) (chain_id : Felt) (query_only : bool) : outcome Felt :=
  let! prefix := felt_bytes "deploy" in
  let! version := with_query_only VERSION_ZERO query_only in
  let! data_hash := hash_chain tables (p0_constructor_calldata self) in
  pre_v3_hash (MkPreV3 prefix version (p0_contract_address self) CONSTRUCTOR data_hash FELT_ZERO None None) chain_id.

Definition deploy_legacy_hash_v0 (self : DeployTransactionV0) (chain_id : Felt) : outcome Felt :=
  let! prefix := felt_bytes "deploy" in
  let! data_hash := hash_chain tables (p0_constructor_calldata self) in
  legacy_hash (MkLegacy prefix (p0_contract_address self) CONSTRUCTOR data_hash None) chain_id.

Definition deploy_hash_v1 (self : DeployTransactionV1) (chain_id : Felt) (query_only : bool) : outcome Felt :=
  let! prefix := felt_bytes "deploy" in
  let! version := with_query_only VERSION_ONE query_only in
  let! data_hash := hash_chain tables (p1_constructor_calldata self) in
  pre_v3_hash (MkPreV3 prefix version (p1_contract_address self) CONSTRUCTOR data_hash FELT_ZERO None None) chain_id.

Definition deploy_legacy_hash_v1 (self : DeployTransactionV1) (chain_id : Felt) : outcome Felt :=
  let! prefix := felt_bytes "deploy" in
  let! data_hash := hash_chain tables (p1_constructor_calldata self) in
  legacy_hash (MkLegacy prefix (p1_contract_address self) CONSTRUCTOR data_hash None) chain_id.

Definition deploy_account_hash_v1 (self : DeployAccountTransactionV1) (chain_id : Felt) (query_only : bool) : outcome Felt :=
  let! constructor_calldata_hash :=
    hash_chain tables (a1_class_hash self :: a1_contract_address_salt self :: a1_constructor_calldata self) in
  let! prefix := felt_bytes "deploy_account" in
  let! version := with_query_only VERSION_ONE query_only in
  pre_v3_hash (MkPreV3 prefix version (a1_contract_address self) FELT_ZERO constructor_calldata_hash (a1_max_fee self)
    (Some (a1_nonce self)) None) chain_id.

Definition invoke_hash_v0 (self : InvokeTransactionV0) (chain_id : Felt) (query_only : bool) : outcome Felt :=
  let! prefix := felt_bytes "invoke" in
  let! version := with_query_only VERSION_ZERO query_only in
  let! data_hash := hash_chain tables (i0_calldata self) in
  pre_v3_hash (MkPreV3 prefix version (i0_sender_address self) (i0_entry_point_selector self) data_hash (i0_max_fee self) None None) chain_id.

Definition invoke_legacy_hash_v0 (self : InvokeTransactionV0) (chain_id : Felt) : outcome Felt :=
  let! prefix := felt_bytes "invoke" in
  let! data_hash := hash_chain tables (i0_calldata self) in
  legacy_hash (MkLegacy prefix (i0_sender_address self) (i0_entry_point_selector self) data_hash None) chain_id.

Definition invoke_hash_v1 (self : InvokeTransactionV1) (chain_id : Felt) (query_only : bool) : outcome Felt :=
  let! list_hash := hash_chain tables (i1_calldata self) in
  let! prefix := felt_bytes "invoke" in
  let! version := with_query_only VERSION_ONE query_only in
  pre_v3_hash (MkPreV3 prefix version (i1_sender_address self) FELT_ZERO list_hash (i1_max_fee self) (Some (i1_nonce self)) None) chain_id.

Definition l1_handler_hash (self : L1HandlerTransaction) (chain_id : Felt) : outcome Felt :=
  let! prefix := felt_bytes "l1_handler" in
  let! data_hash := hash_chain tables (lh_calldata self) in
  pre_v3_hash (MkPreV3 prefix VERSION_ZERO (lh_contract_address self) (lh_entry_point_selector self) data_hash FELT_ZERO
    (Some (lh_nonce self)) None) chain_id.

Definition l1_handler_legacy_hash (self : L1HandlerTransaction) (chain_id : Felt) : outcome Felt :=
  let! prefix := felt_bytes "invoke" in
  let! data_hash := hash_chain tables (lh_calldata self) in
  legacy_hash (MkLegacy prefix (lh_contract_address self) (lh_entry_point_selector self) data_hash None) chain_id.

Definition l1_handler_v07_hash (self : L1HandlerTransaction) (chain_id : Felt) : outcome Felt :=
  let! prefix := felt_bytes "l1_handler" in
  let! data_hash := hash_chain tables (lh_calldata self) in
  legacy_hash (MkLegacy prefix (lh_contract_address self) (lh_entry_point_selector self) data_hash (Some (lh_nonce self))) chain_id.

(** *** Version 3 *)

Record V3Hasher : Type := MkV3 {
  v3_prefix : Felt; v3_sender_address : Felt; v3_nonce : Felt; v3_data_hashes : list Felt; v3_tip : Z;
  v3_paymaster_data : list Felt; v3_nonce_mode : DataAvailabilityMode; v3_fee_mode : DataAvailabilityMode;
  v3_resource_bounds : ResourceBounds; v3_query_only : bool; v3_proof_facts : list Felt
}.

(** A fold of [hasher.chain] over felts, with its hash as a felt. *)
Definition poseidon_list (values : list Felt) : outcome Felt := hash_words (map felt_word values).

(** Eight bytes for the name, eight for the amount and sixteen for the price; the
    subtraction panics if the name is longer. *)
Definition pack_gas_bound (name : list Z) (bound : ResourceBound) : outcome Felt :=
  if (8 <? length name)%nat then Panic
  else unwrap_result (felt_from_be_bytes (repeat 0 (8 - length name) ++ name ++ to_be 8 (max_amount bound) ++
    to_be 16 (max_price_per_unit bound))).

Definition gas_bound_word (name : string) (bound : ResourceBound) : word :=
  let! f := pack_gas_bound (bytes_of_string name) bound in felt_word f.

Definition hash_fee_fields (self : V3Hasher) : outcome Felt :=
  let bounds := v3_resource_bounds self in
  hash_words ([u64_word (v3_tip self); gas_bound_word "L1_GAS" (l1_gas bounds); gas_bound_word "L2_GAS" (l2_gas bounds)] ++
    match l1_data_gas bounds with Some bound => [gas_bound_word "L1_DATA" bound] | None => [] end).

Definition hash_paymaster_data (self : V3Hasher) : outcome Felt := poseidon_list (v3_paymaster_data self).

(** The shift and the sum do not leave the 64 bits. *)
Definition pack_data_availability (self : V3Hasher) : Z :=
  (Z.shiftl (u64_of_mode (v3_nonce_mode self)) 32 mod 2 ^ 64 + u64_of_mode (v3_fee_mode self)) mod 2 ^ 64.

(** [x.into()] of something that has to be computed first *)
Definition into_word (o : outcome Felt) : word := let! f := o in felt_word f.

Definition v3_hash (self : V3Hasher) (chain_id : Felt) : outcome Felt :=
  hash_words ([felt_word (v3_prefix self); into_word (with_query_only VERSION_THREE (v3_query_only self));
    felt_word (v3_sender_address self); into_word (hash_fee_fields self); into_word (hash_paymaster_data self);
    felt_word chain_id; felt_word (v3_nonce self); u64_word (pack_data_availability self)] ++
    map felt_word (v3_data_hashes self) ++
    match v3_proof_facts self with [] => [] | facts => [hash_limbs (map felt_word facts)] end).

Definition declare_hash_v3 (self : DeclareTransactionV3) (chain_id : Felt) (query_only : bool) : outcome Felt :=
  let! deployment_hash := poseidon_list (d3_account_deployment_data self) in
  let! prefix := felt_bytes "declare" in
  v3_hash (MkV3 prefix (d3_sender_address self) (d3_nonce self) [deployment_hash; d3_class_hash self; d3_compiled_class_hash self]
    (d3_tip self) (d3_paymaster_data self) (d3_nonce_mode self) (d3_fee_mode self) (d3_resource_bounds self) query_only []) chain_id.

Definition deploy_account_hash_v3 (self : DeployAccountTransactionV3) (chain_id : Felt) (query_only : bool) : outcome Felt :=
  let! deployment_hash := poseidon_list (a3_constructor_calldata self) in
  let! prefix := felt_bytes "deploy_account" in
  v3_hash (MkV3 prefix (a3_contract_address self) (a3_nonce self) [deployment_hash; a3_class_hash self; a3_contract_address_salt self]
    (a3_tip self) (a3_paymaster_data self) (a3_nonce_mode self) (a3_fee_mode self) (a3_resource_bounds self) query_only []) chain_id.

Definition invoke_hash_v3 (self : InvokeTransactionV3) (chain_id : Felt) (query_only : bool) : outcome Felt :=
  let! deployment_hash := poseidon_list (i3_account_deployment_data self) in
  let! calldata_hash := poseidon_list (i3_calldata self) in
  let! prefix := felt_bytes "invoke" in
  v3_hash (MkV3 prefix (i3_sender_address self) (i3_nonce self) [deployment_hash; calldata_hash]
    (i3_tip self) (i3_paymaster_data self) (i3_nonce_mode self) (i3_fee_mode self) (i3_resource_bounds self) query_only
    (i3_proof_facts self)) chain_id.

(** *** All variants *)

Definition calculate_hash (self : TransactionVariant) (chain_id : Felt) (query_only : bool) : outcome Felt :=
  match self with
  | DeclareV0 tx => declare_hash_v0 tx chain_id query_only
  | DeclareV1 tx => declare_hash_v1 tx chain_id query_only
  | DeclareV2 tx => declare_hash_v2 tx chain_id query_only
  | DeclareV3 tx => declare_hash_v3 tx chain_id query_only
  | DeployV0 tx => deploy_hash_v0 tx chain_id query_only
  | DeployV1 tx => deploy_hash_v1 tx chain_id query_only
  | DeployAccountV1 tx => deploy_account_hash_v1 tx chain_id query_only
  | DeployAccountV3 tx => deploy_account_hash_v3 tx chain_id query_only
  | InvokeV0 tx => invoke_hash_v0 tx chain_id query_only
  | InvokeV1 tx => invoke_hash_v1 tx chain_id query_only
  | InvokeV3 tx => invoke_hash_v3 tx chain_id query_only
  | L1Handler tx => l1_handler_hash tx chain_id
  end.

Definition calculate_legacy_hash (self : TransactionVariant) (chain_id : Felt) : outcome (option Felt) :=
  match self with
  | DeployV0 tx => let! hash := deploy_legacy_hash_v0 tx chain_id in Ret (Some hash)
  | DeployV1 tx => let! hash := deploy_legacy_hash_v1 tx chain_id in Ret (Some hash)
  | InvokeV0 tx => let! hash := invoke_legacy_hash_v0 tx chain_id in Ret (Some hash)
  | L1Handler tx => let! hash := l1_handler_legacy_hash tx chain_id in Ret (Some hash)
  | _ => Ret None
  end.

Definition verify_variant_hash (self : TransactionVariant) (chain_id expected : Felt) : outcome bool :=
  let! hash := calculate_hash self chain_id false in
  if felt_eqb expected hash then Ret true
  else
    let! legacy := calculate_legacy_hash self chain_id in
    if match legacy with Some hash => felt_eqb expected hash | None => false end then Ret true
    else match self with
         | L1Handler l1_handler =>
             let! hash := l1_handler_v07_hash l1_handler chain_id in
             if felt_eqb expected hash then Ret true else Ret false
         | _ => Ret false
         end.

Definition verify_hash (self : Transaction) (chain_id : Felt) : outcome bool := verify_variant_hash (variant self) chain_id (hash self).

(** ** Addresses *)

(** The derived order of byte arrays. *)
Fixpoint bytes_leb (a b : list Z) : bool :=
  match a, b with
  | [], _ => true
  | _ :: _, [] => false
  | x :: a, y :: b => (x <? y) || ((x =? y) && bytes_leb a b)
  end.

Definition MAX_CONTRACT_ADDRESS : Felt :=
  Eval vm_compute in
    match from_hex_str (bytes_of_string "0x7ffffffffffffffffffffffffffffffffffffffffffffffffffffffffffff00") with
    | Ok f => f
    | Err _ => FELT_ZERO
    end.

(** [ContractAddress::new_or_panic] *)
Definition address_or_panic (hash : Felt) : outcome Felt := if has_more_than_251_bits hash then Panic else Ret hash.

Definition deployed_contract_address (constructor_calldata : list Felt) (contract_address_salt class_hash : Felt) : outcome Felt :=
  let! constructor_calldata_hash := hash_chain tables constructor_calldata in
  let! prefix := unwrap_result (felt_from_be_slice (bytes_of_string "STARKNET_CONTRACT_ADDRESS")) in
  let! contract_address :=
    hash_chain tables [prefix; FELT_ZERO; contract_address_salt; class_hash; constructor_calldata_hash] in
  let! contract_address :=
    if bytes_leb MAX_CONTRACT_ADDRESS contract_address then felt_sub contract_address MAX_CONTRACT_ADDRESS
    else Ret contract_address in
  address_or_panic contract_address.

Definition calculate_contract_address (self : TransactionVariant) : outcome TransactionVariant :=
  match self with
  | DeployV0 tx =>
      let! a := deployed_contract_address (p0_constructor_calldata tx) (p0_contract_address_salt tx) (p0_class_hash tx) in
      Ret (DeployV0 (MkDeployV0 (p0_class_hash tx) a (p0_contract_address_salt tx) (p0_constructor_calldata tx)))
  | DeployV1 tx =>
      let! a := deployed_contract_address (p1_constructor_calldata tx) (p1_contract_address_salt tx) (p1_class_hash tx) in
      Ret (DeployV1 (MkDeployV1 (p1_class_hash tx) a (p1_contract_address_salt tx) (p1_constructor_calldata tx)))
  | DeployAccountV1 tx =>
      let! a := deployed_contract_address (a1_constructor_calldata tx) (a1_contract_address_salt tx) (a1_class_hash tx) in
      Ret (DeployAccountV1 (MkDeployAccountV1 a (a1_max_fee tx) (a1_signature tx) (a1_nonce tx) (a1_contract_address_salt tx)
        (a1_constructor_calldata tx) (a1_class_hash tx)))
  | DeployAccountV3 tx =>
      let! a := deployed_contract_address (a3_constructor_calldata tx) (a3_contract_address_salt tx) (a3_class_hash tx) in
      Ret (DeployAccountV3 (MkDeployAccountV3 a (a3_signature tx) (a3_nonce tx) (a3_nonce_mode tx) (a3_fee_mode tx)
        (a3_resource_bounds tx) (a3_tip tx) (a3_paymaster_data tx) (a3_contract_address_salt tx) (a3_constructor_calldata tx)
        (a3_class_hash tx)))
  | _ => Ret self
  end.

Definition sender_address (self : TransactionVariant) : Felt :=
  match self with
  | DeclareV0 tx | DeclareV1 tx => d1_sender_address tx
  | DeclareV2 tx => d2_sender_address tx
  | DeclareV3 tx => d3_sender_address tx
  | DeployV0 tx => p0_contract_address tx
  | DeployV1 tx => p1_contract_address tx
  | DeployAccountV1 tx => a1_contract_address tx
  | DeployAccountV3 tx => a3_contract_address tx
  | InvokeV0 tx => i0_sender_address tx
  | InvokeV1 tx => i1_sender_address tx
  | InvokeV3 tx => i3_sender_address tx
  | L1Handler tx => lh_contract_address tx
  end.

(** ** Messages from L1 *)

(** [Keccak256], of the sha3 package. *)
Context (keccak : list Z -> list Z).

(** What is hashed, from the calldata split into its head and the rest. *)
Definition message_bytes (self : L1HandlerTransaction) (from_address : Felt) (payload : list Felt) : list Z :=
  felt_to_be_bytes from_address ++ felt_to_be_bytes (lh_contract_address self) ++ felt_to_be_bytes (lh_nonce self) ++
  felt_to_be_bytes (lh_entry_point_selector self) ++ repeat 0 24 ++ to_be 8 (Z.of_nat (length payload)) ++
  flat_map felt_to_be_bytes payload.

Definition calculate_message_hash (self : L1HandlerTransaction) : list Z :=
  match lh_calldata self with
  | [] => repeat 0 32
  | from_address :: payload => keccak (message_bytes self from_address payload)
  end.
End Code.
