(* ===== verification/StateUpdate.v ===== *)
(** State updates (common/src/state_update.rs) and their merge over several
    blocks (pathfinder/src/sync/state_updates.rs).

    A [HashMap] is a finite map; the order in which it is iterated is a parameter.
    A [BTreeMap] is a finite map that is iterated in the order of its keys. *)

From Stdlib Require Import String ZArith Lia Bool List.
From stdpp Require Import gmap list sorting.
From S2P Require Import Prelude Bytes Words Montgomery Fields Felt Hashing.

(** ** Maps *)

(** The order in which a [HashMap] or a [HashSet] is iterated. *)
Class HashOrder : Type := {
  iter {V : Type} : gmap Felt V -> list (Felt * V);
  iter_set : gset Felt -> list Felt;
  iter_perm {V : Type} (m : gmap Felt V) : iter m ≡ₚ map_to_list m;
  iter_set_perm (s : gset Felt) : iter_set s ≡ₚ elements s
}.

Definition plain_order : HashOrder :=
  {| iter V := map_to_list; iter_set := elements; iter_perm V m := Permutation_refl _; iter_set_perm s := Permutation_refl _ |}.

(** The order of felts: that of their bytes. *)
Fixpoint bytes_leb (a b : list Z) : bool :=
  match a, b with
  | [], _ => true
  | _ :: _, [] => false
  | x :: a, y :: b => (x <? y)%Z || ((x =? y)%Z && bytes_leb a b)
  end.

Definition key_le {V : Type} (a b : Felt * V) : Prop := bytes_leb a.1 b.1 = true.

#[export] Instance key_le_dec {V : Type} : RelDecision (@key_le V).
Proof. intros a b. unfold key_le. apply _. Defined.

(** The entries of a [BTreeMap]. *)
Definition btree {V : Type} (m : gmap Felt V) : list (Felt * V) := merge_sort key_le (map_to_list m).

(** A [BTreeSet] of felts, and one of pairs. *)
Definition felt_le (a b : Felt) : Prop := bytes_leb a b = true.

#[export] Instance felt_le_dec : RelDecision felt_le.
Proof. intros a b. unfold felt_le. apply _. Defined.

Definition pair_le (a b : Felt * Felt) : Prop := bytes_leb (a.1 ++ a.2) (b.1 ++ b.2) = true.

#[export] Instance pair_le_dec : RelDecision pair_le.
Proof. intros a b. unfold pair_le. apply _. Defined.

(** ** Data *)

Inductive ContractClassUpdate : Type :=
| Deploy (hash : Felt)
| Replace (hash : Felt).

Definition class_hash (u : ContractClassUpdate) : Felt := match u with Deploy x | Replace x => x end.
Definition is_replaced (u : ContractClassUpdate) : bool := match u with Replace _ => true | Deploy _ => false end.

Record ContractUpdate : Type := MkContractUpdate {
  storage : gmap Felt Felt;
  class : option ContractClassUpdate;
  nonce : option Felt
}.

Definition default_update : ContractUpdate := MkContractUpdate ∅ None None.

Definition replaced_class (u : ContractUpdate) : option Felt :=
  match class u with Some (Replace h) => Some h | _ => None end.

Definition deployed_class (u : ContractUpdate) : option Felt :=
  match class u with Some (Deploy h) => Some h | _ => None end.

(** The storage of a system contract is all there is of its update. *)
Abbreviation SystemContractUpdate := (gmap Felt Felt).

Record StateUpdateData : Type := MkData {
  contract_updates : gmap Felt ContractUpdate;
  system_contract_updates : gmap Felt SystemContractUpdate;
  declared_cairo_classes : gset Felt;
  declared_sierra_classes : gmap Felt Felt;
  migrated_compiled_classes : gmap Felt Felt
}.

(** [StateUpdate]: the same with the block it belongs to. *)
Record StateUpdate : Type := MkStateUpdate {
  block_hash : Felt;
  parent_state_commitment : Felt;
  su_state_commitment : Felt;
  data : StateUpdateData
}.

Definition default_data : StateUpdateData := MkData ∅ ∅ ∅ ∅ ∅.

(** [ContractAddress::is_system_contract] *)
Definition ADDRESS_ONE : Felt := repeat 0%Z 31 ++ [1%Z].
Definition ADDRESS_TWO : Felt := repeat 0%Z 31 ++ [2%Z].
Definition is_system_contract (a : Felt) : bool := felt_eqb a ADDRESS_ONE || felt_eqb a ADDRESS_TWO.

(** ** Building an update *)

(** [map.entry(k).or_default()] followed by a change *)
Definition entry {V : Type} (d : V) (k : Felt) (f : V -> V) (m : gmap Felt V) : gmap Felt V :=
  <[k := f (default d (m !! k))]> m.

Definition on_contracts (f : gmap Felt ContractUpdate -> gmap Felt ContractUpdate) (d : StateUpdateData) : StateUpdateData :=
  MkData (f (contract_updates d)) (system_contract_updates d) (declared_cairo_classes d) (declared_sierra_classes d)
    (migrated_compiled_classes d).

Definition set_nonce (n : option Felt) (u : ContractUpdate) : ContractUpdate := MkContractUpdate (storage u) (class u) n.
Definition set_class (c : option ContractClassUpdate) (u : ContractUpdate) : ContractUpdate :=
  MkContractUpdate (storage u) c (nonce u).
Definition set_storage (s : gmap Felt Felt) (u : ContractUpdate) : ContractUpdate := MkContractUpdate s (class u) (nonce u).

Definition with_contract_nonce (contract n : Felt) : StateUpdateData -> StateUpdateData :=
  on_contracts (entry default_update contract (set_nonce (Some n))).

Definition with_storage_update (contract key value : Felt) : StateUpdateData -> StateUpdateData :=
  on_contracts (entry default_update contract (fun u => set_storage (<[key := value]> (storage u)) u)).

Definition with_system_storage_update (contract key value : Felt) (d : StateUpdateData) : StateUpdateData :=
  MkData (contract_updates d) (entry ∅ contract (<[key := value]>) (system_contract_updates d)) (declared_cairo_classes d)
    (declared_sierra_classes d) (migrated_compiled_classes d).

Definition with_deployed_contract (contract cls : Felt) : StateUpdateData -> StateUpdateData :=
  on_contracts (entry default_update contract (set_class (Some (Deploy cls)))).

Definition with_replaced_class (contract cls : Felt) : StateUpdateData -> StateUpdateData :=
  on_contracts (entry default_update contract (set_class (Some (Replace cls)))).

Definition with_declared_sierra_class (sierra casm : Felt) (d : StateUpdateData) : StateUpdateData :=
  MkData (contract_updates d) (system_contract_updates d) (declared_cairo_classes d)
    (<[sierra := casm]> (declared_sierra_classes d)) (migrated_compiled_classes d).

Definition with_declared_cairo_class (cairo : Felt) (d : StateUpdateData) : StateUpdateData :=
  MkData (contract_updates d) (system_contract_updates d) ({[cairo]} ∪ declared_cairo_classes d)
    (declared_sierra_classes d) (migrated_compiled_classes d).

Definition with_migrated_compiled_class (sierra casm : Felt) (d : StateUpdateData) : StateUpdateData :=
  MkData (contract_updates d) (system_contract_updates d) (declared_cairo_classes d) (declared_sierra_classes d)
    (<[sierra := casm]> (migrated_compiled_classes d)).

(** ** Reading an update *)

Definition contract_nonce (d : StateUpdateData) (contract : Felt) : option Felt :=
  match contract_updates d !! contract with
  | None => None
  | Some u =>
      match nonce u with
      | Some n => Some n
      | None => match class u with Some (Deploy _) => Some FELT_ZERO | _ => None end
      end
  end.

Definition contract_class (d : StateUpdateData) (contract : Felt) : option Felt :=
  match contract_updates d !! contract with
  | None => None
  | Some u => option_map class_hash (class u)
  end.

Definition class_is_declared (d : StateUpdateData) (cls : Felt) : bool :=
  if decide (cls ∈ declared_cairo_classes d) then true else bool_decide (is_Some (declared_sierra_classes d !! cls)).

Inductive FoundStorageValue : Type :=
| FoundZero
| FoundSet (value : Felt).

Definition storage_value_with_provenance (d : StateUpdateData) (contract key : Felt) : option FoundStorageValue :=
  let found :=
    match contract_updates d !! contract with
    | None => None
    | Some u =>
        match storage u !! key with
        | Some v => Some (FoundSet v)
        | None => match class u with Some (Deploy _) => Some FoundZero | _ => None end
        end
    end in
  match found with
  | Some f => Some f
  | None =>
      match system_contract_updates d !! contract with
      | None => None
      | Some u => option_map FoundSet (u !! key)
      end
  end.

Definition found_value (f : FoundStorageValue) : Felt := match f with FoundZero => FELT_ZERO | FoundSet v => v end.

Definition storage_value (d : StateUpdateData) (contract key : Felt) : option Felt :=
  option_map found_value (storage_value_with_provenance d contract key).

(** *** Counts *)

Definition some_count {A} (o : option A) : nat := match o with Some _ => 1 | None => 0 end.

Definition contract_count (u : ContractUpdate) : nat := size (storage u) + some_count (nonce u) + some_count (class u).

Definition contract_counts (d : StateUpdateData) : nat :=
  sum_list_with (fun row => contract_count row.2) (map_to_list (contract_updates d)).

Definition system_counts (d : StateUpdateData) : nat :=
  sum_list_with (fun row => size (row.2 : gmap Felt Felt)) (map_to_list (system_contract_updates d)).

Definition change_count (d : StateUpdateData) : nat :=
  size (declared_cairo_classes d) + size (declared_sierra_classes d) + system_counts d + contract_counts d.

(** [state_diff_length] of a [StateUpdate], and that of a [StateUpdateData]. *)
Definition state_diff_length (d : StateUpdateData) : nat :=
  contract_counts d + system_counts d +
  (size (declared_cairo_classes d) + size (declared_sierra_classes d) + size (migrated_compiled_classes d)).

Definition data_state_diff_length (d : StateUpdateData) : nat :=
  contract_counts d + system_counts d + (size (declared_cairo_classes d) + size (declared_sierra_classes d)).

Definition is_empty (d : StateUpdateData) : bool :=
  bool_decide (contract_updates d = ∅) && bool_decide (system_contract_updates d = ∅) &&
  bool_decide (declared_cairo_classes d = ∅) && bool_decide (declared_sierra_classes d = ∅).

(** ** Applying an update on top of another *)

(** [for (k, v) in other { map.insert(k, v) }] *)
Definition insert_all {V : Type} (l : list (Felt * V)) (m : gmap Felt V) : gmap Felt V :=
  fold_left (fun m kv => <[kv.1 := kv.2]> m) l m.

Definition or_else {A} (o o' : option A) : option A := match o with Some x => Some x | None => o' end.

Section Apply.
Context {order : HashOrder}.

Definition merge_contract (other update : ContractUpdate) : ContractUpdate :=
  MkContractUpdate (insert_all (iter (storage other)) (storage update)) (or_else (class other) (class update))
    (or_else (nonce other) (nonce update)).

Definition apply_data (other self : StateUpdateData) : StateUpdateData :=
  MkData
    (fold_left (fun m row => entry default_update row.1 (merge_contract row.2) m) (iter (contract_updates other))
      (contract_updates self))
    (fold_left (fun m row => entry ∅ row.1 (insert_all (iter row.2)) m) (iter (system_contract_updates other))
      (system_contract_updates self))
    (declared_cairo_classes self ∪ list_to_set (iter_set (declared_cairo_classes other)))
    (insert_all (iter (declared_sierra_classes other)) (declared_sierra_classes self))
    (migrated_compiled_classes self).

Definition apply (self other : StateUpdate) : StateUpdate :=
  MkStateUpdate (block_hash other) (parent_state_commitment other) (su_state_commitment other)
    (apply_data (data other) (data self)).

(** ** References *)

Record ContractUpdateRef : Type := MkContractRef {
  ref_storage : list (Felt * Felt);
  ref_class : option ContractClassUpdate;
  ref_nonce : option Felt
}.

(** The classes are references to maps, which are iterated. *)
Record StateUpdateRef : Type := MkRef {
  ref_contracts : list (Felt * ContractUpdateRef);
  ref_systems : list (Felt * list (Felt * Felt));
  ref_declared : list (Felt * Felt);
  ref_migrated : list (Felt * Felt)
}.

Definition contract_ref (u : ContractUpdate) : ContractUpdateRef := MkContractRef (iter (storage u)) (class u) (nonce u).

Definition as_ref (d : StateUpdateData) : StateUpdateRef :=
  MkRef (map (fun row => (row.1, contract_ref row.2)) (iter (contract_updates d)))
    (map (fun row => (row.1, iter (row.2 : gmap Felt Felt))) (iter (system_contract_updates d)))
    (iter (declared_sierra_classes d)) (iter (migrated_compiled_classes d)).

(** ** Updates of several blocks *)

(** [multi_block::StateUpdateData]: storage is a list, in the order of the blocks. *)
Record MultiUpdate : Type := MkMulti {
  multi_contracts : gmap Felt ContractUpdateRef;
  multi_systems : gmap Felt (list (Felt * Felt));
  multi_sierra : gmap Felt Felt;
  multi_cairo : gset Felt;
  multi_migrated : gmap Felt Felt
}.

Definition merge_into (merged : MultiUpdate) (x : StateUpdateData) : MultiUpdate :=
  MkMulti
    (fold_left (fun m row => entry (MkContractRef [] None None) row.1 (fun e =>
        MkContractRef (ref_storage e ++ iter (storage row.2)) (or_else (class row.2) (ref_class e))
          (or_else (nonce row.2) (ref_nonce e))) m)
      (iter (contract_updates x)) (multi_contracts merged))
    (fold_left (fun m row => entry [] row.1 (fun e => e ++ iter (row.2 : gmap Felt Felt)) m) (iter (system_contract_updates x))
      (multi_systems merged))
    (insert_all (iter (declared_sierra_classes x)) (multi_sierra merged))
    (multi_cairo merged ∪ list_to_set (iter_set (declared_cairo_classes x)))
    (multi_migrated merged).

Definition merge_state_updates (updates : list StateUpdateData) : MultiUpdate :=
  fold_left merge_into updates (MkMulti ∅ ∅ ∅ ∅ ∅).

Definition multi_ref (u : MultiUpdate) : StateUpdateRef :=
  MkRef (iter (multi_contracts u)) (iter (multi_systems u)) (iter (multi_sierra u)) (iter (multi_migrated u)).
End Apply.

(** ** The commitment of a state diff *)

Definition len_word {A} (l : list A) : word := u64_word (Z.of_nat (length l)).

Definition pair_words (l : list (Felt * Felt)) : list word :=
  concat (map (fun row => [felt_word row.1; felt_word row.2]) l).

Definition deployed_contracts (d : StateUpdateData) : gmap Felt Felt :=
  omap (fun u => option_map class_hash (class u)) (contract_updates d).

(** The declared classes with the migrated ones, as a set of pairs. *)
Definition declared_classes (d : StateUpdateData) : list (Felt * Felt) :=
  merge_sort pair_le (remove_dups (map_to_list (declared_sierra_classes d) ++ map_to_list (migrated_compiled_classes d))).

Definition deprecated_declared_classes (d : StateUpdateData) : list Felt :=
  merge_sort felt_le (elements (declared_cairo_classes d)).

(** A system contract's storage replaces that of a contract with its address. *)
Definition storage_diffs (d : StateUpdateData) : gmap Felt (gmap Felt Felt) :=
  let nonempty (s : gmap Felt Felt) := if decide (s = ∅) then None else Some s in
  omap nonempty (system_contract_updates d) ∪ omap (fun u => nonempty (storage u)) (contract_updates d).

Definition nonces (d : StateUpdateData) : gmap Felt Felt := omap nonce (contract_updates d).

Definition state_diff_words (d : StateUpdateData) : list word :=
  [tag_word "STARKNET_STATE_DIFF0"%string] ++
  len_word (btree (deployed_contracts d)) :: pair_words (btree (deployed_contracts d)) ++
  len_word (declared_classes d) :: pair_words (declared_classes d) ++
  len_word (deprecated_declared_classes d) :: map felt_word (deprecated_declared_classes d) ++
  [Ret (@ONE MontFelt); Ret ZERO] ++
  len_word (btree (storage_diffs d)) ::
    concat (map (fun row => felt_word row.1 :: len_word (btree row.2) :: pair_words (btree row.2)) (btree (storage_diffs d))) ++
  len_word (btree (nonces d)) :: pair_words (btree (nonces d)).

Definition compute_state_diff_commitment (d : StateUpdateData) : outcome Felt := hash_words (state_diff_words d).

(** ** Reverse updates *)

Inductive ReverseContractUpdate : Type :=
| ReverseDeleted
| ReverseUpdated (update : ContractUpdate).
