(* ===== verification/StateDiff.v ===== *)
(** The commitment of a state diff ([state_diff_commitment::compute]) determines
    the diff: the words that are hashed are a prefix code. *)

From Stdlib Require Import String ZArith Lia Bool List.
From stdpp Require Import gmap list sorting.
From S2P Require Import Prelude Bytes Words Montgomery Fields Felt Poseidon TreeMap Hashing CommitmentFacts StateUpdate.
Local Open Scope Z_scope.

(** ** Prefix codes *)

(** Values that can be read off the start of a list of words. *)
Definition prefix_code {A : Type} (enc : A -> list word) (ok : A -> Prop) : Prop :=
  forall a a' r r', ok a -> ok a' -> enc a ++ r = enc a' ++ r' -> a = a' /\ r = r'.

(** A list after its length. *)
Definition counted {A : Type} (enc : A -> list word) (l : list A) : list word := len_word l :: concat (map enc l).

Lemma code_felt : prefix_code (fun f => [felt_word f]) felt_ok.
Proof.
  intros f g r r' Hf Hg E. apply cons_parts in E as [E ->]. split; [exact (felt_word_inj f g Hf Hg E) | reflexivity].
Qed.

Lemma code_pair {A B} (encA : A -> list word) (encB : B -> list word) okA okB : prefix_code encA okA -> prefix_code encB okB ->
  prefix_code (fun x => encA x.1 ++ encB x.2) (fun x => okA x.1 /\ okB x.2).
Proof.
  intros CA CB [a b] [a' b'] r r' [Ha Hb] [Ha' Hb'] E. cbn in *. rewrite <- !app_assoc in E.
  destruct (CA a a' _ _ Ha Ha' E) as [-> E']. now destruct (CB b b' r r' Hb Hb' E') as [-> ->].
Qed.

Lemma code_concat {A} (enc : A -> list word) ok l : prefix_code enc ok -> forall l' r r', length l = length l' ->
  Forall ok l -> Forall ok l' -> concat (map enc l) ++ r = concat (map enc l') ++ r' -> l = l' /\ r = r'.
Proof.
  intros C. induction l as [|a l IH]; intros [|a' l'] r r' L Hl Hl' E; try discriminate; [now split|].
  cbn in E. rewrite <- !app_assoc in E. inversion Hl as [|? ? Ha Hl0]; inversion Hl' as [|? ? Ha' Hl0']; subst.
  destruct (C a a' _ _ Ha Ha' E) as [-> E']. destruct (IH l' r r' ltac:(now injection L) Hl0 Hl0' E') as [-> ->]. now split.
Qed.

Lemma len_word_inj {A} (l l' : list A) : small l -> small l' -> len_word l = len_word l' -> length l = length l'.
Proof. intros S S' E. apply Nat2Z.inj. apply u64_word_inj; [| |exact E]; unfold u64_ok; unfold small in *; lia. Qed.

Lemma code_counted {A} (enc : A -> list word) ok : prefix_code enc ok ->
  prefix_code (counted enc) (fun l => Forall ok l /\ small l).
Proof.
  intros C l l' r r' [Hl S] [Hl' S'] E. apply cons_parts in E as [El E].
  exact (code_concat enc ok l C l' r r' (len_word_inj l l' S S' El) Hl Hl' E).
Qed.

(** ** Ordered maps *)

Lemma btree_map {V} (m : gmap Felt V) : list_to_map (btree m) = m.
Proof.
  unfold btree. rewrite (list_to_map_proper _ (map_to_list m)); [apply list_to_map_to_list | |apply merge_sort_Permutation].
  rewrite (merge_sort_Permutation key_le (map_to_list m)). apply NoDup_fst_map_to_list.
Qed.

Lemma btree_inj {V} (m m' : gmap Felt V) : btree m = btree m' -> m = m'.
Proof. intros E. now rewrite <- (btree_map m), <- (btree_map m'), E. Qed.

Lemma btree_in {V} (m : gmap Felt V) k v : (k, v) ∈ btree m <-> m !! k = Some v.
Proof. unfold btree. now rewrite (merge_sort_Permutation key_le (map_to_list m)), elem_of_map_to_list. Qed.

Lemma btree_length {V} (m : gmap Felt V) : length (btree m) = size m.
Proof. unfold btree. rewrite (merge_sort_Permutation key_le (map_to_list m)). apply length_map_to_list. Qed.

(** ** The diff *)

Definition pair_word (row : Felt * Felt) : list word := [felt_word row.1] ++ [felt_word row.2].
Definition pair_ok (row : Felt * Felt) : Prop := felt_ok row.1 /\ felt_ok row.2.
Definition storage_word (row : Felt * gmap Felt Felt) : list word := [felt_word row.1] ++ counted pair_word (btree row.2).

Definition slots_ok (m : gmap Felt Felt) : Prop := map_Forall (fun k v => felt_ok k /\ felt_ok v) m /\ Z.of_nat (size m) < 2 ^ 64.

Lemma code_pairs : prefix_code pair_word pair_ok.
Proof. exact (code_pair _ _ _ _ code_felt code_felt). Qed.

Lemma btree_ok (m : gmap Felt Felt) : slots_ok m -> Forall pair_ok (btree m) /\ small (btree m).
Proof.
  intros [Hm Hs]. split; [|unfold small; now rewrite btree_length]. apply Forall_forall. intros [k v] E%btree_in. exact (Hm k v E).
Qed.

Lemma code_map : prefix_code (fun m => counted pair_word (btree m)) slots_ok.
Proof.
  intros m m' r r' Hm Hm' E. destruct (code_counted pair_word pair_ok code_pairs _ _ r r' (btree_ok m Hm) (btree_ok m' Hm') E) as [Eb ->].
  split; [exact (btree_inj m m' Eb) | reflexivity].
Qed.

Lemma code_storage : prefix_code storage_word (fun row => felt_ok row.1 /\ slots_ok row.2).
Proof. exact (code_pair _ _ _ _ code_felt code_map). Qed.

(** Updates of felts, with fewer than 2 ^ 64 entries. *)
Record diff_ok (d : StateUpdateData) : Prop := {
  do_deployed : slots_ok (deployed_contracts d);
  do_declared : Forall pair_ok (declared_classes d) /\ small (declared_classes d);
  do_cairo : felts_ok (deprecated_declared_classes d);
  do_storage : map_Forall (fun c m => felt_ok c /\ slots_ok m) (storage_diffs d) /\ Z.of_nat (size (storage_diffs d)) < 2 ^ 64;
  do_nonces : slots_ok (nonces d)
}.

(** What a state diff commits to: the class a contract is deployed with or
    replaced by, without which of the two; the storage of an address, be it of a
    contract or of a system contract; the pairs of a class and its compiled class,
    declared or migrated. *)
Record same_diff (d d' : StateUpdateData) : Prop := {
  sd_deployed : deployed_contracts d = deployed_contracts d';
  sd_declared p : p ∈ map_to_list (declared_sierra_classes d) ++ map_to_list (migrated_compiled_classes d) <->
    p ∈ map_to_list (declared_sierra_classes d') ++ map_to_list (migrated_compiled_classes d');
  sd_cairo : declared_cairo_classes d = declared_cairo_classes d';
  sd_storage : storage_diffs d = storage_diffs d';
  sd_nonces : nonces d = nonces d'
}.

(** The words, as a sequence of codes. *)
Lemma state_diff_codes d : state_diff_words d = tag_word "STARKNET_STATE_DIFF0" ::
  counted pair_word (btree (deployed_contracts d)) ++ counted pair_word (declared_classes d) ++
  counted (fun f => [felt_word f]) (deprecated_declared_classes d) ++ [Ret (@ONE MontFelt); Ret ZERO] ++
  counted storage_word (btree (storage_diffs d)) ++ counted pair_word (btree (nonces d)).
Proof.
  unfold state_diff_words, counted, pair_words.
  assert (Em : forall l : list Felt, map felt_word l = concat (map (fun f => [felt_word f]) l)).
  { induction l as [|f l IH]; [reflexivity|]. cbn. now rewrite IH. }
  rewrite Em. reflexivity.
Qed.

Lemma cairo_set d d' : deprecated_declared_classes d = deprecated_declared_classes d' ->
  declared_cairo_classes d = declared_cairo_classes d'.
Proof.
  intros E. apply set_eq. intros c. rewrite <- !elem_of_elements. unfold deprecated_declared_classes in E.
  rewrite <- (merge_sort_Permutation felt_le (elements (declared_cairo_classes d))), E.
  now rewrite (merge_sort_Permutation felt_le (elements (declared_cairo_classes d'))).
Qed.

Lemma declared_set d d' p : declared_classes d = declared_classes d' ->
  p ∈ map_to_list (declared_sierra_classes d) ++ map_to_list (migrated_compiled_classes d) <->
  p ∈ map_to_list (declared_sierra_classes d') ++ map_to_list (migrated_compiled_classes d').
Proof.
  intros E. unfold declared_classes in E. rewrite <- elem_of_remove_dups.
  rewrite <- (merge_sort_Permutation pair_le (remove_dups (map_to_list (declared_sierra_classes d) ++ _))), E.
  now rewrite (merge_sort_Permutation pair_le (remove_dups (map_to_list (declared_sierra_classes d') ++ _))), elem_of_remove_dups.
Qed.

Lemma state_diff_inj d d' : diff_ok d -> diff_ok d' -> state_diff_words d = state_diff_words d' -> same_diff d d'.
Proof.
  intros H H'. rewrite !state_diff_codes. intros E. apply cons_parts in E as [_ E].
  destruct (code_map _ _ _ _ (do_deployed _ H) (do_deployed _ H') E) as [E1 Er1].
  destruct (code_counted _ _ code_pairs _ _ _ _ (do_declared _ H) (do_declared _ H') Er1) as [E2 Er2].
  destruct (code_counted _ _ code_felt _ _ _ _ (do_cairo _ H) (do_cairo _ H') Er2) as [E3 Er3].
  cbn [app] in Er3. apply cons_parts in Er3 as [_ Er3]. apply cons_parts in Er3 as [_ Er3].
  assert (Sk : forall m : gmap Felt (gmap Felt Felt), map_Forall (fun c m => felt_ok c /\ slots_ok m) m /\ Z.of_nat (size m) < 2 ^ 64 ->
    Forall (fun row => felt_ok row.1 /\ slots_ok row.2) (btree m) /\ small (btree m)).
  { intros m [Hm Hs]. split; [|unfold small; now rewrite btree_length]. apply Forall_forall. intros [c s] Ei%btree_in. exact (Hm c s Ei). }
  destruct (code_counted _ _ code_storage _ _ _ _ (Sk _ (do_storage _ H)) (Sk _ (do_storage _ H')) Er3) as [E4 Er4].
  rewrite <- (app_nil_r (counted pair_word (btree (nonces d)))), <- (app_nil_r (counted pair_word (btree (nonces d')))) in Er4.
  destruct (code_map (nonces d) (nonces d') [] [] (do_nonces _ H) (do_nonces _ H') Er4) as [E5 _].
  split; [exact E1 | intros p; exact (declared_set d d' p E2) | now apply cairo_set | now apply btree_inj | exact E5].
Qed.

(** The same diff has the same words: the sets of pairs are sorted. *)

Lemma bytes_leb_total a b : bytes_leb a b = true \/ bytes_leb b a = true.
Proof.
  revert b. induction a as [|x a IH]; intros [|y b]; cbn; auto. destruct (Z.ltb_spec x y), (Z.ltb_spec y x), (Z.eqb_spec x y), (Z.eqb_spec y x);
    cbn; auto; lia.
Qed.

Lemma bytes_leb_trans a b c : bytes_leb a b = true -> bytes_leb b c = true -> bytes_leb a c = true.
Proof.
  revert b c. induction a as [|x a IH]; intros [|y b] [|z c]; cbn; try easy. rewrite !orb_true_iff, !andb_true_iff, !Z.ltb_lt, !Z.eqb_eq.
  intros [L|[-> E]] [L'|[-> E']]; [left; lia | now left | now left | right; eauto].
Qed.

Lemma bytes_leb_antisym a b : bytes_leb a b = true -> bytes_leb b a = true -> a = b.
Proof.
  revert b. induction a as [|x a IH]; intros [|y b]; cbn; try easy. rewrite !orb_true_iff, !andb_true_iff, !Z.ltb_lt, !Z.eqb_eq.
  intros [L|[-> E]] [L'|[E0 E']]; try lia. f_equal. auto.
Qed.

#[local] Instance pair_le_total : Total pair_le.
Proof. intros a b. apply bytes_leb_total. Qed.

#[local] Instance pair_le_trans : Transitive pair_le.
Proof. intros a b c. apply bytes_leb_trans. Qed.

Lemma declared_same d d' : Forall pair_ok (declared_classes d) -> Forall pair_ok (declared_classes d') -> same_diff d d' ->
  declared_classes d = declared_classes d'.
Proof.
  intros Ok Ok' Sd. rewrite Forall_forall in Ok, Ok'. apply (Sorted_unique_strong pair_le).
  - intros [a b] [a' b'] Hin Hin' L L'. pose proof (bytes_leb_antisym _ _ L L') as E. cbn in E.
    destruct (Ok _ Hin) as [(_ & La & _) _], (Ok' _ Hin') as [(_ & La' & _) _]. cbn in La, La'.
    apply app_inj_1 in E as [-> ->]; [reflexivity | congruence].
  - apply (Sorted_merge_sort pair_le).
  - apply (Sorted_merge_sort pair_le).
  - unfold declared_classes. rewrite !merge_sort_Permutation. apply NoDup_Permutation; [apply NoDup_remove_dups.. |].
    intros p. rewrite !elem_of_remove_dups. apply (sd_declared _ _ Sd).
Qed.

Lemma same_diff_words d d' : diff_ok d -> diff_ok d' -> same_diff d d' -> state_diff_words d = state_diff_words d'.
Proof.
  intros H H' Sd. unfold state_diff_words, deprecated_declared_classes.
  rewrite (declared_same d d' (proj1 (do_declared _ H)) (proj1 (do_declared _ H')) Sd). now destruct Sd as [-> _ -> -> ->].
Qed.

(** ** The commitment is defined *)

Lemma preimage_app ws ws' : (exists fs, preimage ws fs) -> (exists fs, preimage ws' fs) -> exists fs, preimage (ws ++ ws') fs.
Proof. intros [fs F] [fs' F']. exists (fs ++ fs'). now apply Forall2_app. Qed.

Lemma preimage_counted {A} (enc : A -> list word) ok l : (forall a, ok a -> exists fs, preimage (enc a) fs) ->
  Forall ok l -> small l -> exists fs, preimage (counted enc l) fs.
Proof.
  intros He Hl S. apply preimage_cons; [apply word_of_u64; unfold u64_ok; unfold small in S; lia|]. clear S.
  induction Hl as [|a l Ha _ IH]; [exact preimage_nil|]. cbn. apply preimage_app; auto.
Qed.

Lemma pair_preimage row : pair_ok row -> exists fs, preimage (pair_word row) fs.
Proof. intros [H H']. unfold pair_word. cbn [app]. solve_preimage. Qed.

Lemma map_preimage m : slots_ok m -> exists fs, preimage (counted pair_word (btree m)) fs.
Proof. intros [Hf S]%btree_ok. exact (preimage_counted _ _ _ pair_preimage Hf S). Qed.

Lemma one_word : exists f, word_of (Ret (@ONE MontFelt)) f.
Proof. exists (repeat 0 31 ++ [1]). split; [vm_compute; reflexivity|]. split; [|split; [reflexivity | vm_compute; reflexivity]].
  apply Forall_app. split; [apply Forall_forall; intros b Hb%list_elem_of_In; apply repeat_spec in Hb as ->; lia | repeat constructor; lia]. Qed.

Lemma state_diff_preimage d : diff_ok d -> exists fs, preimage (state_diff_words d) fs.
Proof.
  intros [H1 [H2 S2] [H3 S3] [H4 S4] H5]. rewrite state_diff_codes. apply preimage_cons; [apply word_of_tag; vm_compute; reflexivity|].
  apply preimage_app; [now apply map_preimage|].
  apply preimage_app; [exact (preimage_counted _ _ _ pair_preimage H2 S2)|].
  apply preimage_app; [apply (preimage_counted _ felt_ok); [|exact H3 | exact S3]; intros f Hf; solve_preimage|].
  apply preimage_app; [apply preimage_cons; [exact one_word|]; apply preimage_cons; [exact word_of_zero | exact preimage_nil]|].
  apply preimage_app; [|now apply map_preimage].
  apply (preimage_counted _ (fun row => felt_ok row.1 /\ slots_ok row.2)).
  - intros [c m] [Hc Hm]. unfold storage_word. cbn [app]. apply preimage_cons; [now apply word_of_felt | now apply map_preimage].
  - apply Forall_forall. intros [c m] Hin%btree_in. exact (H4 c m Hin).
  - unfold small. now rewrite btree_length.
Qed.
