(* ===== verification/World.v ===== *)
(** The abstract state of Starknet: the storage, the nonce and the class of every
    contract and the compiled class of every Sierra class, and the commitments
    the protocol defines for it. *)

From Stdlib Require Import String ZArith Lia Bool List.
From stdpp Require Import gmap list.
From S2P Require Import Prelude Bytes Montgomery Fields Felt Poseidon Pedersen MerkleNode TrieSpec TreeHash TreeMap.
From S2P Require Import Hashing CommitmentFacts StateUpdate.

(** Definitions are unfolded before the bind they use. *)
#[local] Strategy 100 [bind_outcome].

(** ** The state *)

Record World : Type := MkWorld {
  w_storage : gmap (Felt * Felt) Felt;
  w_nonce : gmap Felt Felt;
  w_class : gmap Felt Felt;
  w_casm : gmap Felt Felt
}.

Definition empty_world : World := MkWorld ∅ ∅ ∅ ∅.

(** The storage of several contracts in one map. *)
Definition all_slots (m : gmap Felt (gmap Felt Felt)) : gmap (Felt * Felt) Felt :=
  map_uncurry (M1 := gmap Felt) (M2 := gmap Felt) (M12 := gmap (Felt * Felt)) m.

Definition apply_update (d : StateUpdateData) (w : World) : World :=
  MkWorld (all_slots (system_contract_updates d) ∪ (all_slots (storage <$> contract_updates d) ∪ w_storage w))
    (nonces d ∪ w_nonce w) (deployed_contracts d ∪ w_class w)
    (migrated_compiled_classes d ∪ (declared_sierra_classes d ∪ w_casm w)).

(** ** Commitments *)

(** A function of felts as one of paths; zero is no leaf. *)
Definition at_key (f : Felt -> option Felt) (p : bits) : option Felt :=
  match from_bits p with
  | Ok k => leaf_of_hash (f k)
  | Err _ => None
  end.

Definition root_felt (o : outcome Felt) : option Felt := match o with Ret h => Some h | Panic => None end.

Section Commitments.
Context (constants : PedersenTables).

Definition slot (w : World) (c k : Felt) : option Felt := w_storage w !! (c, k).

Definition contract_root_of (w : World) (c : Felt) : outcome Felt :=
  spec_root (PedersenHash constants) 251 (at_key (slot w c)).

(** A contract is part of the state if it has a class, a system contract if
    something was ever stored in it, be it zero. *)
Definition in_state (w : World) (c : Felt) : bool :=
  bool_decide (is_Some (w_class w !! c)) ||
  (is_system_contract c && existsb (fun row => felt_eqb row.1.1 c) (map_to_list (w_storage w))).

Definition class_of (w : World) (c : Felt) : Felt :=
  if is_system_contract c then FELT_ZERO else default FELT_ZERO (w_class w !! c).

Definition nonce_of (w : World) (c : Felt) : Felt := default FELT_ZERO (w_nonce w !! c).

Definition contract_hash (w : World) (c : Felt) : outcome Felt :=
  let! root := contract_root_of w c in
  contract_state_hash_of constants (class_of w c) root (nonce_of w c).

Definition contract_entry (w : World) (c : Felt) : option Felt :=
  if in_state w c then root_felt (contract_hash w c) else None.

Definition class_entry (w : World) (s : Felt) : option Felt :=
  match w_casm w !! s with
  | Some casm => root_felt (class_commitment_leaf_hash casm)
  | None => None
  end.

Definition storage_commitment_of (w : World) : outcome Felt :=
  spec_root (PedersenHash constants) 251 (at_key (contract_entry w)).

Definition class_commitment_of (w : World) : outcome Felt := spec_root PoseidonHash 251 (at_key (class_entry w)).

Definition state_commitment_of (w : World) (version : StarknetVersion) : outcome Felt :=
  let! s := storage_commitment_of w in
  let! c := class_commitment_of w in
  state_commitment s c version.
End Commitments.

Lemma all_slots_lookup m c k : all_slots m !! (c, k) = match m !! c with Some s => s !! k | None => None end.
Proof. unfold all_slots. rewrite lookup_map_uncurry. now destruct (m !! c). Qed.

(** ** Paths of felts *)

(** An address or a class hash: a felt of 251 bits. *)
Definition key_ok (k : Felt) : Prop := felt_ok k /\ has_more_than_251_bits k = false.

Lemma key_from_bits k : key_ok k -> from_bits (view_bits k) = Ok k.
Proof. intros [Hk Hb]. now apply bits_roundtrip. Qed.

Lemma key_length k : key_ok k -> length (view_bits k) = 251.
Proof. intros [Hk _]. now apply view_bits_length. Qed.

Lemma path_key p : length p = 251 -> exists k, from_bits p = Ok k /\ view_bits k = p /\ key_ok k.
Proof.
  intros L. destruct (from_bits_spec p ltac:(lia)) as (k & E & Hk & V). exists k. split; [exact E|].
  split; [now apply view_bits_from_bits|]. split; [exact Hk|].
  destruct (has_more_than_251_bits k) eqn:Eb; [|reflexivity]. apply has_more_than_251_bits_spec in Eb; [|exact Hk].
  pose proof (bits_value_bound p) as B. rewrite L in B. rewrite V in Eb. change (Z.of_nat 251) with 251%Z in B. lia.
Qed.

Lemma at_key_view f k : key_ok k -> at_key f (view_bits k) = leaf_of_hash (f k).
Proof. intros Hk. unfold at_key. now rewrite key_from_bits. Qed.

Lemma at_key_ext f g : (forall k, key_ok k -> f k = g k) -> forall p, length p = 251 -> at_key f p = at_key g p.
Proof.
  intros E p L. destruct (path_key p L) as (k & Ek & _ & Hk). unfold at_key. now rewrite Ek, E.
Qed.

(** The finite map of a function with a finite domain. *)
Definition bits_map (D : list Felt) (f : Felt -> option Felt) : gmap bits Felt :=
  list_to_map (omap (fun k => pair (view_bits k) <$> leaf_of_hash (f k)) D).

Lemma bits_map_lookup D f p : Forall key_ok D -> (forall k, is_Some (f k) -> k ∈ D) ->
  bits_map D f !! p = if decide (length p = 251) then at_key f p else None.
Proof.
  intros HD Hf. unfold bits_map. set (l := omap _ D).
  assert (Hl : forall q v, (q, v) ∈ l <-> exists k, k ∈ D /\ q = view_bits k /\ leaf_of_hash (f k) = Some v).
  { intros q v. unfold l. rewrite list_elem_of_omap. split.
    - intros (k & Hk & E). exists k. split; [exact Hk|]. destruct (leaf_of_hash (f k)); [|discriminate].
      cbn in E. injection E as <- <-. auto.
    - intros (k & Hk & -> & E). exists k. split; [exact Hk|]. now rewrite E. }
  destruct (decide (length p = 251)) as [L|L].
  - destruct (path_key p L) as (k & Ek & Ev & Hk). unfold at_key. rewrite Ek.
    assert (Hu : forall v, (p, v) ∈ l -> leaf_of_hash (f k) = Some v).
    { intros v (k' & Hk' & E & V)%Hl. assert (k' = k) as ->; [|exact V].
      pose proof (key_from_bits k' (proj1 (Forall_forall _ _) HD k' Hk')) as E'. rewrite <- E, Ek in E'. congruence. }
    destruct (leaf_of_hash (f k)) as [v|] eqn:V.
    + apply elem_of_list_to_map_1'; [intros v' Hv'; specialize (Hu v' Hv'); congruence|].
      apply Hl. exists k. split; [|auto]. apply Hf. destruct (f k); [eauto | discriminate].
    + apply not_elem_of_list_to_map_1. intros ((q, v) & -> & Hin)%list_elem_of_fmap. specialize (Hu v Hin). discriminate.
  - apply not_elem_of_list_to_map_1. intros ((q, v) & -> & Hin)%list_elem_of_fmap.
    apply Hl in Hin as (k & Hk & -> & _). apply L. cbn. apply key_length. exact (proj1 (Forall_forall _ _) HD k Hk).
Qed.

(** ** Commitments of maps are defined *)

Section Total.
Context (H : Felt -> Felt -> outcome Felt) {HH : FeltHash H}.

Lemma spec_hash_total node : felt_ok node.2 -> length node.1 <= 251 -> exists h, spec_hash H node = Ret h /\ felt_ok h.
Proof.
  intros Hn L. unfold spec_hash. destruct node.1 as [|b p] eqn:E; [eauto|]. rewrite <- E in *. now apply edge_hash_total.
Qed.

Lemma spec_node_total n : forall f, n <= 251 -> (forall k v, f k = Some v -> felt_ok v) ->
  exists o, spec_node H n f = Ret o /\ match o with Some node => felt_ok node.2 /\ length node.1 <= n | None => True end.
Proof.
  induction n as [|n IH]; intros f Hn Hf; cbn [spec_node].
  - eexists. split; [reflexivity|]. destruct (f []) as [v|] eqn:E; [|exact I]. cbn. split; [now apply (Hf []) | lia].
  - destruct (IH (fun k => f (false :: k)) ltac:(lia) (fun k => Hf (false :: k))) as (l & -> & Hl).
    destruct (IH (fun k => f (true :: k)) ltac:(lia) (fun k => Hf (true :: k))) as (r & -> & Hr).
    cbn [bind_outcome]. destruct l as [[pl bl]|], r as [[pr br]|]; cbn [fst snd length] in *;
      try (eexists; split; [reflexivity|]; cbn [fst snd length]; split; [tauto | lia] || exact I).
    + destruct (spec_hash_total (pl, bl)) as (hl & -> & Ol); [tauto | cbn; lia|].
      destruct (spec_hash_total (pr, br)) as (hr & -> & Or); [tauto | cbn; lia|].
      cbn [bind_outcome]. destruct (hash_total hl hr Ol Or) as (h & -> & Oh). cbn [bind_outcome].
      eexists. split; [reflexivity|]. cbn. split; [exact Oh | lia].
    + eexists. split; [reflexivity | exact I].
Qed.

Lemma spec_root_total f : (forall k v, f k = Some v -> felt_ok v) -> exists h, spec_root H 251 f = Ret h /\ felt_ok h.
Proof.
  intros Hf. unfold spec_root. destruct (spec_node_total 251 f (Nat.le_refl _) Hf) as (o & -> & Ho). cbn [bind_outcome].
  destruct o as [node|]; [|exists FELT_ZERO; split; [reflexivity | exact FELT_ZERO_ok]].
  now apply spec_hash_total.
Qed.
End Total.

(** ** Well-formed states *)

Record world_ok (w : World) : Prop := {
  wo_storage c k v : w_storage w !! (c, k) = Some v ->
    key_ok c /\ key_ok k /\ felt_ok v /\ (is_system_contract c = true \/ is_Some (w_class w !! c));
  wo_nonce c n : w_nonce w !! c = Some n -> felt_ok n /\ is_Some (w_class w !! c);
  wo_class c h : w_class w !! c = Some h -> key_ok c /\ felt_ok h /\ is_system_contract c = false;
  wo_casm s h : w_casm w !! s = Some h -> key_ok s /\ felt_ok h
}.

Lemma empty_world_ok : world_ok empty_world.
Proof. split; cbn; intros *; now rewrite lookup_empty. Qed.

Lemma leaf_of_hash_some o v : leaf_of_hash o = Some v <-> o = Some v /\ v <> FELT_ZERO.
Proof.
  unfold leaf_of_hash. destruct o as [x|]; [|split; [discriminate | now intros [? _]]].
  pose proof (TreeMap.felt_eqb_eq x FELT_ZERO) as E. destruct (felt_eqb x FELT_ZERO).
  - split; [discriminate|]. intros [[= ->] N]. now destruct (N (proj1 E eq_refl)).
  - split; [intros [= ->]; split; [reflexivity|]; intros ->; now discriminate (proj2 E eq_refl) | now intros [[= ->] _]].
Qed.

Lemma at_key_some f p v : at_key f p = Some v -> exists k, from_bits p = Ok k /\ f k = Some v /\ v <> FELT_ZERO.
Proof.
  unfold at_key. destruct (from_bits p) as [k|]; [|discriminate]. intros [E N]%leaf_of_hash_some. eauto.
Qed.

Lemma in_state_spec w c : in_state w c = true <-> is_Some (w_class w !! c) \/
  is_system_contract c = true /\ exists k v, w_storage w !! (c, k) = Some v.
Proof.
  unfold in_state. rewrite orb_true_iff, andb_true_iff, bool_decide_eq_true, existsb_exists. split.
  - intros [Hc|[Hs ([[c' k] v] & Hin & Hb)]]; [now left | right]. split; [exact Hs|]. exists k, v.
    cbn [fst snd] in Hb. apply TreeMap.felt_eqb_eq in Hb. subst c'.
    now apply list_elem_of_In, elem_of_map_to_list in Hin.
  - intros [Hc|[Hs (k & v & E)]]; [now left | right]. split; [exact Hs|]. exists (c, k, v).
    split; [now apply list_elem_of_In, elem_of_map_to_list|]. now apply TreeMap.felt_eqb_eq.
Qed.

Lemma leaf_hash_total casm : felt_ok casm -> exists h, class_commitment_leaf_hash casm = Ret h /\ felt_ok h.
Proof.
  intros Hc. unfold class_commitment_leaf_hash.
  assert (E : exists tag, felt_bytes "CONTRACT_CLASS_LEAF_V0"%string = Ret tag /\ felt_ok tag).
  { eexists. split; [vm_compute; reflexivity|]. repeat split; try (repeat constructor; lia). }
  destruct E as (tag & -> & Ht). cbn [bind_outcome]. exact (PoseidonHash_total tag casm Ht Hc).
Qed.

Section Worlds.
Context (constants : PedersenTables) (Hc : tables_ok constants).

Abbreviation contract_entry := (contract_entry constants).
Abbreviation contract_hash := (contract_hash constants).

Lemma contract_root_total w c : world_ok w -> exists h, contract_root_of constants w c = Ret h /\ felt_ok h.
Proof.
  intros Hw. apply (spec_root_total (PedersenHash constants) (HH := PedersenHash_total constants Hc)).
  intros p v (k & _ & E & _)%at_key_some. now apply (wo_storage w Hw c k).
Qed.

Lemma class_of_ok w c : world_ok w -> felt_ok (class_of w c).
Proof.
  intros Hw. unfold class_of. destruct (is_system_contract c); [exact FELT_ZERO_ok|].
  destruct (w_class w !! c) as [h|] eqn:E; [now apply (wo_class w Hw c h) | exact FELT_ZERO_ok].
Qed.

Lemma nonce_of_ok w c : world_ok w -> felt_ok (nonce_of w c).
Proof.
  intros Hw. unfold nonce_of. destruct (w_nonce w !! c) as [n|] eqn:E; [now apply (wo_nonce w Hw c n) | exact FELT_ZERO_ok].
Qed.

Lemma state_hash_total cls root n : felt_ok cls -> felt_ok root -> felt_ok n ->
  exists h, contract_state_hash_of constants cls root n = Ret h /\ felt_ok h.
Proof.
  intros Hl Hr Hn. unfold contract_state_hash_of.
  destruct (PedersenHash_total constants Hc cls root Hl Hr) as (a & Ea & Oa). unfold PedersenHash in Ea. rewrite Ea.
  cbn [bind_outcome]. destruct (PedersenHash_total constants Hc a n Oa Hn) as (b & Eb & Ob). unfold PedersenHash in Eb.
  rewrite Eb. exact (PedersenHash_total constants Hc b FELT_ZERO Ob FELT_ZERO_ok).
Qed.

Lemma contract_hash_total w c : world_ok w -> exists h, contract_hash w c = Ret h /\ felt_ok h.
Proof.
  intros Hw. unfold World.contract_hash. destruct (contract_root_total w c Hw) as (r & -> & Hr). cbn [bind_outcome].
  apply state_hash_total; [now apply class_of_ok | exact Hr | now apply nonce_of_ok].
Qed.

(** ** Commitments are defined *)

Lemma storage_commitment_total w : world_ok w -> exists h, storage_commitment_of constants w = Ret h /\ felt_ok h.
Proof.
  intros Hw. apply (spec_root_total (PedersenHash constants) (HH := PedersenHash_total constants Hc)).
  intros p v (c & _ & E & _)%at_key_some. unfold World.contract_entry in E. destruct (in_state w c); [|discriminate].
  destruct (contract_hash_total w c Hw) as (h & Eh & Oh). rewrite Eh in E. now injection E as <-.
Qed.

Lemma class_commitment_total w : world_ok w -> exists h, class_commitment_of w = Ret h /\ felt_ok h.
Proof.
  intros Hw. apply (spec_root_total PoseidonHash (HH := PoseidonHash_total)).
  intros p v (s & _ & E & _)%at_key_some. unfold class_entry in E. destruct (w_casm w !! s) as [casm|] eqn:Es; [|discriminate].
  destruct (leaf_hash_total casm (proj2 (wo_casm w Hw s casm Es))) as (h & Eh & Oh). rewrite Eh in E. now injection E as <-.
Qed.

Lemma state_commitment_total s c version : felt_ok s -> felt_ok c -> exists h, state_commitment s c version = Ret h /\ felt_ok h.
Proof.
  intros Os Oc. unfold state_commitment. destruct (felt_eqb c FELT_ZERO && felt_eqb s FELT_ZERO);
    [exists FELT_ZERO; split; [reflexivity | exact FELT_ZERO_ok]|].
  destruct (felt_eqb c FELT_ZERO && version_ltb version V_0_14_0); [now exists s|].
  assert (E : exists tag, felt_bytes "STARKNET_STATE_V0"%string = Ret tag /\ felt_ok tag).
  { eexists. split; [vm_compute; reflexivity|]. repeat split; try (repeat constructor; lia). }
  destruct E as (tag & -> & Ht). rewrite bind_ret.
  destruct (felt_of_mont_spec (@poseidon_hash_many MontFelt [mont_of_felt tag; mont_of_felt s; mont_of_felt c])) as (f & E & Of & _);
    [|exists f; split; [exact E | exact Of]].
  apply poseidon_many_canonical. repeat constructor; now apply mont_of_felt_val.
Qed.

Lemma state_commitment_of_total w version : world_ok w -> exists h, state_commitment_of constants w version = Ret h /\ felt_ok h.
Proof.
  intros Hw. unfold state_commitment_of. destruct (storage_commitment_total w Hw) as (s & -> & Os). rewrite bind_ret.
  destruct (class_commitment_total w Hw) as (c & -> & Oc). rewrite bind_ret. exact (state_commitment_total s c version Os Oc).
Qed.

(** ** The maps of the tries *)

(** The keys a contract has storage at. *)
Definition slot_keys (w : World) (c : Felt) : list Felt :=
  omap (fun row : Felt * Felt * Felt => if decide (row.1.1 = c) then Some row.1.2 else None) (map_to_list (w_storage w)).

Definition slot_map (w : World) (c : Felt) : gmap bits Felt := bits_map (slot_keys w c) (slot w c).

Definition contract_map (w : World) : gmap bits Felt :=
  bits_map (filter (fun c => is_Some (w_class w !! c) \/ is_system_contract c = true)
    (ADDRESS_ONE :: ADDRESS_TWO :: elements (dom (w_class w)))) (contract_entry w).

Definition class_map (w : World) : gmap bits Felt := bits_map (elements (dom (w_casm w))) (class_entry w).

Lemma slot_keys_spec w c k : k ∈ slot_keys w c <-> is_Some (w_storage w !! (c, k)).
Proof.
  unfold slot_keys. rewrite list_elem_of_omap. split.
  - intros ([[c' k'] v] & Hin & E). apply elem_of_map_to_list in Hin. cbn [fst snd] in E.
    destruct (decide (c' = c)) as [->|]; [|discriminate]. injection E as ->. eauto.
  - intros [v E]. exists (c, k, v). split; [now apply elem_of_map_to_list|]. cbn. now rewrite decide_True.
Qed.

Lemma slot_map_lookup w c p : world_ok w ->
  slot_map w c !! p = if decide (length p = 251) then at_key (slot w c) p else None.
Proof.
  intros Hw. apply bits_map_lookup.
  - apply Forall_forall. intros k [v E]%slot_keys_spec. now apply (wo_storage w Hw c k v).
  - intros k Hk. now apply slot_keys_spec.
Qed.

Lemma system_cases c : is_system_contract c = true <-> c = ADDRESS_ONE \/ c = ADDRESS_TWO.
Proof. unfold is_system_contract. now rewrite orb_true_iff, !TreeMap.felt_eqb_eq. Qed.

Lemma system_key_ok c : is_system_contract c = true -> key_ok c.
Proof.
  intros [-> | ->]%system_cases; (split; [|reflexivity]); repeat split; try (repeat constructor; lia).
Qed.

Lemma contract_map_lookup w p : world_ok w ->
  contract_map w !! p = if decide (length p = 251) then at_key (contract_entry w) p else None.
Proof.
  intros Hw. apply bits_map_lookup.
  - apply Forall_forall. intros c [[[h E]|Hs] _]%list_elem_of_filter; [now apply (wo_class w Hw c h) | now apply system_key_ok].
  - intros c [h E]. unfold World.contract_entry in E. destruct (in_state w c) eqn:Hi; [|discriminate].
    apply in_state_spec in Hi. apply list_elem_of_filter. split; [tauto|]. destruct Hi as [Hi|[Hs _]].
    + do 2 right. now apply elem_of_elements, elem_of_dom.
    + apply system_cases in Hs as [-> | ->]; [now left | right; now left].
Qed.

Lemma class_map_lookup w p : world_ok w ->
  class_map w !! p = if decide (length p = 251) then at_key (class_entry w) p else None.
Proof.
  intros Hw. apply bits_map_lookup.
  - apply Forall_forall. intros s Hs%elem_of_elements. apply elem_of_dom in Hs as [h E]. now apply (wo_casm w Hw s h).
  - intros s [h E]. unfold class_entry in E. destruct (w_casm w !! s) eqn:Es; [|discriminate].
    apply elem_of_elements, elem_of_dom. eauto.
Qed.

(** The commitment of a map is that of its function. *)
Lemma map_commitment (H : Felt -> Felt -> outcome Felt) (M : gmap bits Felt) (f : Felt -> option Felt) : (forall p, M !! p = if decide (length p = 251) then at_key f p else None) ->
  spec_root H 251 (fun p => M !! p) = spec_root H 251 (at_key f).
Proof. intros E. apply spec_root_ext. intros p L. now rewrite E, decide_True. Qed.
End Worlds.
