(* ===== verification/StateTables.v ===== *)
(** The tables of the state (storage/src/connection/state_update.rs, and parts of
    class.rs and block.rs beside it): a state update is stored in several tables,
    the state at a block is read from the last rows up to it, and the changes of
    a range of blocks are turned into reverse updates.

    A table is the list of its rows, in the order of their insertion; a table
    with a primary key is a map. *)

From Stdlib Require Import ZArith Lia Bool List.
From stdpp Require Import gmap list.
From S2P Require Import Prelude Bytes Felt Hashing StateUpdate.
Local Open Scope Z_scope.

(** ** Data *)

Inductive BlockId : Type :=
| Number (number : Z)
| Hash (hash : Felt)
| Latest.

(** What is used here of a row of [block_headers]. *)
Record Header : Type := MkHeader {
  header_hash : Felt;
  header_state_commitment : Felt;
  header_version : StarknetVersion
}.

Abbreviation Headers := (gmap Z Header).

(** [contract_addresses] and [storage_addresses]: an id for an address. *)
Abbreviation AddressIds := (list (Z * Felt)).

Record Tables : Type := MkTables {
  contract_addresses : AddressIds;
  storage_addresses : AddressIds;
  (** block, id of the contract, nonce *)
  nonce_updates : list (Z * Z * Felt);
  (** block, id of the contract, id of the key, value *)
  storage_updates : list (Z * Z * Z * Felt);
  (** block, contract, class *)
  contract_rows : list (Z * Felt * Felt);
  (** the block a class was declared at, by its hash *)
  class_definitions : gmap Felt (option Z);
  (** class, block *)
  redeclared_classes : list (Felt * Z);
  (** class, block, compiled class *)
  casm_class_hashes : list (Felt * Z * Felt)
}.

Inductive TableError : Type := ForeignKeyViolation.

(** ** Inserting an update *)

(** The id SQLite gives to a new row: one more than the largest. *)
Definition next_id (t : AddressIds) : Z := 1 + fold_right Z.max 0 (map fst t).

(** The id of an address, which is inserted if it is new. *)
Definition intern (address : Felt) (t : AddressIds) : Z * AddressIds :=
  match List.find (fun row => felt_eqb row.2 address) t with
  | Some row => (row.1, t)
  | None => (next_id t, t ++ [(next_id t, address)])
  end.

Definition on_class_definitions (f : gmap Felt (option Z) -> gmap Felt (option Z)) (t : Tables) : Tables :=
  MkTables (contract_addresses t) (storage_addresses t) (nonce_updates t) (storage_updates t) (contract_rows t)
    (f (class_definitions t)) (redeclared_classes t) (casm_class_hashes t).

Section Insert.
Context {order : HashOrder} (block_number : Z).

Definition insert_contract_row (address cls : Felt) (t : Tables) : Tables :=
  MkTables (contract_addresses t) (storage_addresses t) (nonce_updates t) (storage_updates t)
    (contract_rows t ++ [(block_number, address, cls)]) (class_definitions t) (redeclared_classes t) (casm_class_hashes t).

Definition insert_nonce (contract_address_id : Z) (n : Felt) (t : Tables) : Tables :=
  MkTables (contract_addresses t) (storage_addresses t) (nonce_updates t ++ [(block_number, contract_address_id, n)])
    (storage_updates t) (contract_rows t) (class_definitions t) (redeclared_classes t) (casm_class_hashes t).

Definition intern_contract (address : Felt) (t : Tables) : Z * Tables :=
  let '(id, ids) := intern address (contract_addresses t) in
  (id, MkTables ids (storage_addresses t) (nonce_updates t) (storage_updates t) (contract_rows t) (class_definitions t)
    (redeclared_classes t) (casm_class_hashes t)).

(** One iteration of the loops over the storage of an update. *)
Definition insert_storage (contract_address_id : Z) (t : Tables) (entry : Felt * Felt) : Tables :=
  let '(storage_address_id, ids) := intern entry.1 (storage_addresses t) in
  MkTables (contract_addresses t) ids (nonce_updates t)
    (storage_updates t ++ [(block_number, contract_address_id, storage_address_id, entry.2)]) (contract_rows t)
    (class_definitions t) (redeclared_classes t) (casm_class_hashes t).

Definition insert_contract_update (t : Tables) (row : Felt * ContractUpdate) : Tables :=
  let '(address, update) := row in
  let t := match class update with Some c => insert_contract_row address (class_hash c) t | None => t end in
  let '(contract_address_id, t) := intern_contract address t in
  let t := match nonce update with Some n => insert_nonce contract_address_id n t | None => t end in
  fold_left (insert_storage contract_address_id) (iter (storage update)) t.

Definition insert_system_update (t : Tables) (row : Felt * SystemContractUpdate) : Tables :=
  let '(contract_address_id, t) := intern_contract row.1 t in
  fold_left (insert_storage contract_address_id) (iter row.2) t.

(** [upsert_declared_at]: the block of an earlier declaration is kept. *)
Definition upsert_declared_at (cls : Felt) (defs : gmap Felt (option Z)) : Z * gmap Felt (option Z) :=
  match defs !! cls with
  | Some (Some declared_at) => (declared_at, defs)
  | _ => (block_number, <[cls := Some block_number]> defs)
  end.

Definition insert_declared (headers : Headers) (r : result TableError Tables) (cls : Felt) : result TableError Tables :=
  match r with
  | Err e => Err e
  | Ok t =>
      let '(declared_at, defs) := upsert_declared_at cls (class_definitions t) in
      let t := on_class_definitions (fun _ => defs) t in
      if declared_at =? block_number then Ok t
      else if bool_decide (is_Some (headers !! block_number)) then
        Ok (MkTables (contract_addresses t) (storage_addresses t) (nonce_updates t) (storage_updates t) (contract_rows t)
          (class_definitions t) (redeclared_classes t ++ [(cls, block_number)]) (casm_class_hashes t))
      else Err ForeignKeyViolation
  end.

(** Classes of Cairo 0 that are declared by their first deployment. *)
Definition insert_deployed (t : Tables) (row : Felt * ContractUpdate) : Tables :=
  match class row.2 with
  | Some (Deploy cls) => on_class_definitions (fun defs => (upsert_declared_at cls defs).2) t
  | _ => t
  end.

(** [INSERT OR IGNORE INTO casm_class_hashes], unique in the class and the block
    and with a class that is known. *)
Definition insert_casm_hash (r : result TableError Tables) (row : Felt * Felt) : result TableError Tables :=
  match r with
  | Err e => Err e
  | Ok t =>
      if existsb (fun x => felt_eqb x.1.1 row.1 && (x.1.2 =? block_number)) (casm_class_hashes t) then Ok t
      else if bool_decide (is_Some (class_definitions t !! row.1)) then
        Ok (MkTables (contract_addresses t) (storage_addresses t) (nonce_updates t) (storage_updates t) (contract_rows t)
          (class_definitions t) (redeclared_classes t) (casm_class_hashes t ++ [(row.1, block_number, row.2)]))
      else Err ForeignKeyViolation
  end.

Definition insert_state_update_data (headers : Headers) (d : StateUpdateData) (t : Tables) : result TableError Tables :=
  let t := fold_left insert_contract_update (iter (contract_updates d)) t in
  let t := fold_left insert_system_update (iter (system_contract_updates d)) t in
  let declared := map fst (iter (declared_sierra_classes d)) ++ iter_set (declared_cairo_classes d) in
  match fold_left (insert_declared headers) declared (Ok t) with
  | Err e => Err e
  | Ok t =>
      let t := fold_left insert_deployed (iter (contract_updates d)) t in
      let r := fold_left insert_casm_hash (iter (declared_sierra_classes d)) (Ok t) in
      fold_left insert_casm_hash (iter (migrated_compiled_classes d)) r
  end.
End Insert.

(** ** Reading the state at a block *)

(** [ORDER BY block_number DESC LIMIT 1] *)
Definition last_row {A : Type} (rows : list (Z * A)) : option (Z * A) :=
  fold_left (fun acc row =>
    match acc with
    | Some last => if last.1 <? row.1 then Some row else acc
    | None => Some row
    end) rows None.

(** The rows of a query for a block. *)
Definition number_of_hash (headers : Headers) (h : Felt) : option Z :=
  match List.find (fun row => felt_eqb (header_hash row.2) h) (map_to_list headers) with
  | Some row => Some row.1
  | None => None
  end.

Definition up_to (headers : Headers) (block : BlockId) (b : Z) : bool :=
  match block with
  | Latest => true
  | Number number => b <=? number
  | Hash h => match number_of_hash headers h with Some number => b <=? number | None => false end
  end.

(** [storage_updates JOIN contract_addresses JOIN storage_addresses]: block, ids,
    addresses and value. *)
Record StorageRow : Type := MkStorageRow {
  row_block : Z;
  row_ids : Z * Z;
  row_contract : Felt;
  row_key : Felt;
  row_value : Felt
}.

Definition join_storage (t : Tables) : list StorageRow :=
  flat_map (fun '(b, contract_id, key_id, value) =>
    flat_map (fun contract =>
      if fst contract =? contract_id then
        flat_map (fun key =>
          if fst key =? key_id then [MkStorageRow b (contract_id, key_id) (snd contract) (snd key) value] else [])
          (storage_addresses t)
      else []) (contract_addresses t)) (storage_updates t).

(** [nonce_updates JOIN contract_addresses]: block, id, contract and nonce. *)
Definition join_nonces (t : Tables) : list (Z * Z * Felt * Felt) :=
  flat_map (fun '(b, contract_id, n) =>
    flat_map (fun contract => if fst contract =? contract_id then [(b, contract_id, snd contract, n)] else [])
      (contract_addresses t)) (nonce_updates t).

Section Queries.
Context (headers : Headers) (t : Tables).

Definition storage_value_with_block (block : BlockId) (contract_address key : Felt) : option (Felt * Z) :=
  option_map (fun row => (row.2, row.1)) (last_row (map (fun row => (row_block row, row_value row))
    (List.filter (fun row => felt_eqb (row_contract row) contract_address && felt_eqb (row_key row) key &&
      up_to headers block (row_block row)) (join_storage t)))).

Definition storage_value (block : BlockId) (contract_address key : Felt) : option Felt :=
  option_map fst (storage_value_with_block block contract_address key).

Definition contract_exists (contract_address : Felt) (block : BlockId) : bool :=
  existsb (fun row => felt_eqb row.1.2 contract_address && up_to headers block row.1.1) (contract_rows t).

Definition contract_nonce (contract_address : Felt) (block : BlockId) : option Felt :=
  option_map snd (last_row (map (fun '(b, _, _, n) => (b, n))
    (List.filter (fun '(b, _, a, _) => felt_eqb a contract_address && up_to headers block b) (join_nonces t)))).

Definition contract_class_hash (block : BlockId) (contract_address : Felt) : option Felt :=
  option_map snd (last_row (map (fun '(b, _, c) => (b, c))
    (List.filter (fun '(b, a, _) => felt_eqb a contract_address && up_to headers block b) (contract_rows t)))).

(** [casm_hash_at] *)
Definition casm_hash_at (block : BlockId) (cls : Felt) : option Felt :=
  option_map snd (last_row (map (fun '(_, b, casm) => (b, casm))
    (List.filter (fun '(c, b, _) => felt_eqb c cls && up_to headers block b) (casm_class_hashes t)))).

(** ** The update of a block *)

Definition latest_number : option Z := option_map fst (last_row (map_to_list headers)).

Definition header_number (block : BlockId) : option Z :=
  match block with
  | Latest => latest_number
  | Number number => if bool_decide (is_Some (headers !! number)) then Some number else None
  | Hash h => number_of_hash headers h
  end.

(** The number and the header of a block, and the commitment of its parent;
    only genesis may have no parent. *)
Definition block_details (block : BlockId) : outcome (option (Z * Header * Felt)) :=
  match header_number block with
  | None => Ret None
  | Some number =>
      match headers !! number with
      | None => Ret None
      | Some h =>
          match headers !! (number - 1) with
          | Some parent => Ret (Some (number, h, header_state_commitment parent))
          | None => if number =? 0 then Ret (Some (number, h, FELT_ZERO)) else Panic
          end
      end
  end.

Definition with_nonce_rows (n : Z) (d : StateUpdateData) : StateUpdateData :=
  fold_left (fun d '(b, _, a, x) => if b =? n then with_contract_nonce a x d else d) (join_nonces t) d.

Definition with_storage_rows (n : Z) (d : StateUpdateData) : StateUpdateData :=
  fold_left (fun d row =>
    if row_block row =? n then
      if is_system_contract (row_contract row)
      then with_system_storage_update (row_contract row) (row_key row) (row_value row) d
      else with_storage_update (row_contract row) (row_key row) (row_value row) d
    else d) (join_storage t) d.

(** [class_definitions LEFT OUTER JOIN casm_class_hashes] on the class and the block *)
Definition with_declared_rows (n : Z) (d : StateUpdateData) : StateUpdateData :=
  fold_left (fun d row =>
    if bool_decide (row.2 = Some n) then
      match List.filter (fun x => felt_eqb x.1.1 row.1 && (x.1.2 =? n)) (casm_class_hashes t) with
      | [] => with_declared_cairo_class row.1 d
      | casms => fold_left (fun d x => with_declared_sierra_class row.1 x.2 d) casms d
      end
    else d) (map_to_list (class_definitions t)) d.

Definition with_redeclared_rows (n : Z) (d : StateUpdateData) : StateUpdateData :=
  fold_left (fun d row => if row.2 =? n then with_declared_cairo_class row.1 d else d) (redeclared_classes t) d.

(** A class with an earlier row was migrated. *)
Definition with_migrated_rows (n : Z) (d : StateUpdateData) : StateUpdateData :=
  fold_left (fun d x =>
    if (x.1.2 =? n) && existsb (fun y => felt_eqb y.1.1 x.1.1 && (y.1.2 <? n)) (casm_class_hashes t)
    then with_migrated_compiled_class x.1.1 x.2 d else d) (casm_class_hashes t) d.

(** A contract with an earlier row was replaced, otherwise it was deployed. *)
Definition with_contract_rows (n : Z) (d : StateUpdateData) : StateUpdateData :=
  fold_left (fun d x =>
    if x.1.1 =? n then
      if existsb (fun y => felt_eqb y.1.2 x.1.2 && (y.1.1 <? n)) (contract_rows t)
      then with_replaced_class x.1.2 x.2 d else with_deployed_contract x.1.2 x.2 d
    else d) (contract_rows t) d.

Definition state_update_data (n : Z) : StateUpdateData :=
  with_contract_rows n (with_migrated_rows n (with_redeclared_rows n (with_declared_rows n
    (with_storage_rows n (with_nonce_rows n default_data))))).

Definition state_update (block : BlockId) : outcome (option StateUpdate) :=
  let! details := block_details block in
  match details with
  | None => Ret None
  | Some (n, h, parent) =>
      Ret (Some (MkStateUpdate (header_hash h) parent (header_state_commitment h) (state_update_data n)))
  end.

(** ** Reverse updates *)

Definition between (from to b : Z) : bool := (to <? b) && (b <=? from).

(** The distinct keys that were updated, each with its value before. *)
Definition reverse_storage_rows (from to : Z) : list (Felt * (Felt * Felt)) :=
  let updated := remove_dups (map (fun row => (row_contract row, row_key row, row_ids row))
    (List.filter (fun row => between from to (row_block row)) (join_storage t))) in
  map (fun '(contract, key, ids) =>
    (contract, (key, default FELT_ZERO (option_map snd (last_row (map (fun '(b, _, _, value) => (b, value))
      (List.filter (fun '(b, contract_id, key_id, _) => bool_decide ((contract_id, key_id) = ids) && (b <=? to))
        (storage_updates t)))))))) updated.

Definition reverse_storage_updates (from to : Z) : gmap Felt (list (Felt * Felt)) :=
  fold_left (fun m row => entry [] row.1 (fun l => l ++ [row.2]) m) (reverse_storage_rows from to) ∅.

Definition reverse_nonce_updates (from to : Z) : list (Felt * option Felt) :=
  let updated := remove_dups (map (fun '(b, id, a, _) => (id, a))
    (List.filter (fun '(b, _, _, _) => between from to b) (join_nonces t))) in
  map (fun '(id, a) => (a, option_map snd (last_row (map (fun '(b, _, n) => (b, n))
    (List.filter (fun '(b, contract_id, _) => (contract_id =? id) && (b <=? to)) (nonce_updates t)))))) updated.

(** The classes before, of the contracts that were updated. *)
Definition reverse_class_rows (from to : Z) : list (Felt * option Felt) :=
  let updated := remove_dups (map (fun '(_, a, _) => a) (List.filter (fun '(b, _, _) => between from to b) (contract_rows t))) in
  map (fun a => (a, option_map snd (last_row (map (fun '(b, _, c) => (b, c))
    (List.filter (fun '(b, a', _) => felt_eqb a' a && (b <=? to)) (contract_rows t)))))) updated.

(** [entry(k).or_insert_with(d)] and a change of what [update_mut] gives. *)
Definition reverse_entry (k : Felt) (f : ContractUpdate -> ContractUpdate) (m : gmap Felt ReverseContractUpdate)
    : gmap Felt ReverseContractUpdate :=
  entry (ReverseUpdated default_update) k (fun e =>
    match e with ReverseDeleted => ReverseDeleted | ReverseUpdated u => ReverseUpdated (f u) end) m.

Definition reverse_contract_updates {order : HashOrder} (from to : Z) : gmap Felt ReverseContractUpdate :=
  let updates := fold_left (fun m row =>
    match m !! row.1 with
    | Some _ => m
    | None => <[row.1 := match row.2 with
                         | None => ReverseDeleted
                         | Some c => ReverseUpdated (set_class (Some (Replace c)) default_update)
                         end]> m
    end) (reverse_class_rows from to) ∅ in
  let updates := fold_left (fun m row => reverse_entry row.1 (set_nonce row.2) m) (reverse_nonce_updates from to) updates in
  fold_left (fun m row => reverse_entry row.1 (set_storage (insert_all row.2 ∅)) m)
    (iter (reverse_storage_updates from to)) updates.

(** The subquery has no order and no limit: SQLite takes one of its rows, as
    [pick] says. *)
Definition reverse_sierra_class_updates (pick : list Felt -> option Felt) (from to : Z) : list (Felt * option Felt) :=
  map (fun '(cls, _, _) => (cls, pick (map snd (List.filter (fun '(c, b, _) => felt_eqb c cls && (b <=? to))
      (casm_class_hashes t)))))
    (List.filter (fun '(_, b, _) => between from to b) (casm_class_hashes t)).
End Queries.

(** ** Purging a block *)

(** [purge_block], on these tables.  Rows of [redeclared_classes] go with the
    header they refer to. *)
Definition purge_tables (block : Z) (t : Tables) : Tables :=
  MkTables (contract_addresses t) (storage_addresses t)
    (List.filter (fun '(b, _, _) => negb (b =? block)) (nonce_updates t))
    (List.filter (fun '(b, _, _, _) => negb (b =? block)) (storage_updates t))
    (List.filter (fun '(b, _, _) => negb (b =? block)) (contract_rows t))
    ((fun declared_at => if bool_decide (declared_at = Some block) then None else declared_at) <$> class_definitions t)
    (List.filter (fun row => negb (row.2 =? block)) (redeclared_classes t))
    (casm_class_hashes t).
