(* ===== verification/StateLogs.v ===== *)
(** Tables as logs: rows with a block, a key and a value, of which a query takes
    the last one up to a block.  What a log says at every block, how a block
    extends it, and what it keeps when later blocks are purged. *)

From Stdlib Require Import ZArith Lia Bool List.
From stdpp Require Import gmap list.
From S2P Require Import Prelude Bytes Felt TreeMap TrieChain RootTables TriePrune StateUpdate World StateTables.
Local Open Scope Z_scope.

Lemma last_row_spec {A} (l : list (Z * A)) :
  match last_row l with
  | Some r => r ∈ l /\ forall r', r' ∈ l -> r'.1 <= r.1
  | None => l = []
  end.
Proof.
  unfold last_row. rewrite <- fold_left_rev_right.
  assert (G : forall m, match fold_right (fun row acc => match acc with
      | Some last => if last.1 <? row.1 then Some row else acc | None => Some row end) None m with
    | Some r => r ∈ m /\ forall r' : Z * A, r' ∈ m -> r'.1 <= r.1
    | None => m = []
    end).
  { induction m as [|x m IH]; [reflexivity|]. cbn [fold_right]. destruct (fold_right _ None m) as [r|].
    - destruct IH as [Hr Hm]. destruct (Z.ltb_spec r.1 x.1).
      + split; [now left|]. intros r' [->|Hr']%elem_of_cons; [lia|]. specialize (Hm r' Hr'). lia.
      + split; [now right|]. intros r' [->|Hr']%elem_of_cons; [lia | auto].
    - subst m. split; [now left|]. intros r' [->|Hr']%elem_of_cons; [lia | inversion Hr']. }
  specialize (G (rev l)). destruct (fold_right _ None (rev l)) as [r|].
  - destruct G as [Hr Hm]. rewrite list_elem_of_In, <- in_rev, <- list_elem_of_In in Hr. split; [exact Hr|].
    intros r' Hr'. apply Hm. now rewrite list_elem_of_In, <- in_rev, <- list_elem_of_In.
  - rewrite <- (rev_involutive l). now rewrite G.
Qed.

Section Log.
Context {K V : Type} `{Countable K}.

Abbreviation log := (list (Z * K * V)).

(** The value of a key at a block. *)
Definition log_at (l : log) (n : Z) (k : K) : option V :=
  option_map snd (last_row (map (fun row => (row.1.1, row.2))
    (List.filter (fun row => bool_decide (row.1.2 = k) && (row.1.1 <=? n)) l))).

Lemma log_rows l n k b (v : V) : (b, v) ∈ map (fun row : Z * K * V => (row.1.1, row.2))
    (List.filter (fun row => bool_decide (row.1.2 = k) && (row.1.1 <=? n)) l) <-> (b, k, v) ∈ l /\ b <= n.
Proof.
  rewrite list_elem_of_In, in_map_iff. split.
  - intros ([[b' k'] v'] & E & Hin). apply filter_In in Hin as [Hin Hb]. cbn [fst snd] in *. injection E as -> ->.
    apply andb_true_iff in Hb as [Hk%bool_decide_eq_true Hn%Z.leb_le]. subst k'. now rewrite list_elem_of_In.
  - intros [Hin Hb]. exists (b, k, v). split; [reflexivity|]. apply filter_In. rewrite <- list_elem_of_In.
    split; [exact Hin|]. cbn [fst snd]. now rewrite bool_decide_eq_true_2, (proj2 (Z.leb_le _ _) Hb) by reflexivity.
Qed.

(** No two rows have the same block and key. *)
Definition log_unique (l : log) : Prop := forall b k v v', (b, k, v) ∈ l -> (b, k, v') ∈ l -> v = v'.

Lemma log_at_some l n k v : log_unique l -> log_at l n k = Some v <->
  exists b, b <= n /\ (b, k, v) ∈ l /\ forall b' v', (b', k, v') ∈ l -> b' <= n -> b' <= b.
Proof.
  intros U. unfold log_at. set (rows := map _ _). pose proof (last_row_spec rows) as Sp.
  pose proof (fun b v => log_rows l n k b v) as R. fold rows in R. destruct (last_row rows) as [[b x]|]; cbn [option_map snd].
  - destruct Sp as [Hr Hm]. apply R in Hr as [Hr Hb]. split.
    + intros [= <-]. exists b. split; [exact Hb|]. split; [exact Hr|]. intros b' v' Hin Hle.
      exact (Hm (b', v') (proj2 (R b' v') (conj Hin Hle))).
    + intros (b' & Hb' & Hin & Hmax). f_equal. pose proof (Hmax b x Hr Hb) as L1.
      pose proof (Hm (b', v) (proj2 (R b' v) (conj Hin Hb'))) as L2. cbn in L2.
      assert (b' = b) as -> by lia. exact (U b k x v Hr Hin).
  - split; [discriminate|]. intros (b' & Hb' & Hin & _). pose proof (proj2 (R b' v) (conj Hin Hb')) as Hi.
    rewrite Sp in Hi. inversion Hi.
Qed.

Lemma log_at_none l n k : log_at l n k = None <-> forall b v, (b, k, v) ∈ l -> n < b.
Proof.
  unfold log_at. set (rows := map _ _). pose proof (last_row_spec rows) as Sp.
  pose proof (fun b v => log_rows l n k b v) as R. fold rows in R. destruct (last_row rows) as [[b x]|]; cbn [option_map snd].
  - destruct Sp as [Hr _]. apply R in Hr as [Hr Hb]. split; [discriminate|]. intros Hn. specialize (Hn b x Hr). lia.
  - split; [|reflexivity]. intros _ b v Hin. destruct (Z.le_gt_cases b n) as [L|L]; [|exact L].
    pose proof (proj2 (R b v) (conj Hin L)) as Hi. rewrite Sp in Hi. inversion Hi.
Qed.

(** A query depends on the rows up to its block. *)
Lemma log_at_ext l l' n k : log_unique l -> log_unique l' ->
  (forall b v, b <= n -> (b, k, v) ∈ l <-> (b, k, v) ∈ l') -> log_at l n k = log_at l' n k.
Proof.
  intros U U' E. destruct (log_at l' n k) as [v|] eqn:L.
  - apply log_at_some in L as (b & Hb & Hin & Hm); [|exact U']. apply log_at_some; [exact U|]. exists b.
    split; [exact Hb|]. split; [now apply E|]. intros b' v' Hin' Hb'. apply (Hm b' v'); [now apply E | exact Hb'].
  - apply log_at_none. intros b v Hin. destruct (Z.le_gt_cases b n) as [Hle|]; [|assumption].
    apply (proj1 (log_at_none l' n k) L b v). now apply E.
Qed.

(** Without rows of a key in between, two blocks agree on it. *)
Lemma log_at_gap l a b k : log_unique l -> a <= b -> (forall j v, (j, k, v) ∈ l -> a < j <= b -> False) ->
  log_at l b k = log_at l a k.
Proof.
  intros U Hab Hn. destruct (log_at l a k) as [v|] eqn:L.
  - apply log_at_some in L as (j & Hj & Hin & Hm); [|exact U]. apply log_at_some; [exact U|]. exists j.
    split; [lia|]. split; [exact Hin|]. intros j' v' Hin' Hb'. destruct (Z.le_gt_cases j' a) as [Hle|Hgt].
    + exact (Hm j' v' Hin' Hle).
    + exfalso. apply (Hn j' v' Hin'). lia.
  - apply log_at_none. intros j v Hin. pose proof (proj1 (log_at_none l a k) L j v Hin) as Hlt.
    destruct (Z.le_gt_cases j b); [|assumption]. exfalso. apply (Hn j v Hin). lia.
Qed.

(** ** History *)

(** The log says at every block up to the head what the history says. *)
Record tracks (l : log) (head : Z) (hist : Z -> gmap K V) : Prop := {
  tr_rows b k v : (b, k, v) ∈ l -> 0 <= b <= head;
  tr_unique : log_unique l;
  tr_at n k : n <= head -> log_at l n k = hist n !! k
}.

Lemma tracks_ext l head hist hist' : tracks l head hist -> (forall n, n <= head -> hist' n = hist n) -> tracks l head hist'.
Proof. intros [Hr Hu Ha] E. split; [exact Hr | exact Hu|]. intros n k Hn. rewrite E by exact Hn. now apply Ha. Qed.

(** A block adds a row for every entry of a map, or finds it. *)
Lemma tracks_add_rows (l l' : log) head hist (m : gmap K V) : tracks l head hist -> -1 <= head ->
  (forall b k v, (b, k, v) ∈ l' <-> (b, k, v) ∈ l \/ b = head + 1 /\ m !! k = Some v) ->
  tracks l' (head + 1) (set_block hist (head + 1) (m ∪ hist head)).
Proof.
  intros [Hr Hu Ha] Hh In2.
  assert (U' : log_unique l').
  { intros b k v v' Hv Hv'. apply In2 in Hv, Hv'. destruct Hv as [Hv|[-> E]], Hv' as [Hv'|[E0 E']].
    - exact (Hu b k v v' Hv Hv').
    - pose proof (Hr b k v Hv). lia.
    - pose proof (Hr _ k v' Hv'). lia.
    - congruence. }
  split; [|exact U'|].
  - intros b k v [Hin|[-> _]]%In2; [pose proof (Hr b k v Hin); lia | lia].
  - intros n k Hn. unfold set_block. destruct (decide (n = head + 1)) as [->|N].
    + rewrite lookup_union. destruct (m !! k) as [v|] eqn:E.
      * rewrite union_Some_l. apply log_at_some; [exact U'|]. exists (head + 1). split; [lia|].
        split; [apply In2; auto|]. intros b' v' Hin Hb. exact Hb.
      * rewrite (left_id_L None (∪)). rewrite <- (Ha head k) by lia. transitivity (log_at l' head k).
        -- apply log_at_gap; [exact U' | lia|]. intros j v [Hin|[-> E']]%In2 Hj; [pose proof (Hr j k v Hin); lia | congruence].
        -- apply log_at_ext; [exact U' | exact Hu|]. intros b v Hb. rewrite In2. split; [intros [|[-> _]]; [assumption | lia] | auto].
    + rewrite <- (Ha n k) by lia. apply log_at_ext; [exact U' | exact Hu|]. intros b v Hb. rewrite In2.
      split; [intros [|[-> _]]; [assumption | lia] | auto].
Qed.

Lemma tracks_add (l new : log) head hist (m : gmap K V) : tracks l head hist -> -1 <= head ->
  (forall b k v, (b, k, v) ∈ new <-> b = head + 1 /\ m !! k = Some v) ->
  tracks (l ++ new) (head + 1) (set_block hist (head + 1) (m ∪ hist head)).
Proof.
  intros T Hh Hnew. apply (tracks_add_rows l); [exact T | exact Hh|]. intros b k v. now rewrite elem_of_app, Hnew.
Qed.

(** Purging the blocks after a target. *)
Lemma tracks_purge l l' head target hist : tracks l head hist -> target <= head ->
  (forall b k v, (b, k, v) ∈ l' <-> (b, k, v) ∈ l /\ b <= target) -> tracks l' target hist.
Proof.
  intros [Hr Hu Ha] Ht E.
  assert (U' : log_unique l') by (intros b k v v' [Hv _]%E [Hv' _]%E; exact (Hu b k v v' Hv Hv')).
  split; [|exact U'|].
  - intros b k v [Hin Hb]%E. pose proof (Hr b k v Hin). lia.
  - intros n k Hn. rewrite <- (Ha n k) by lia. apply log_at_ext; [exact U' | exact Hu|]. intros b v Hb.
    rewrite E. split; [now intros [] | intros Hin; split; [exact Hin | lia]].
Qed.

Lemma tracks_nil (hist : Z -> gmap K V) : (forall n, n <= -1 -> hist n = ∅) -> tracks [] (-1) hist.
Proof.
  intros E. split; [intros b k v Hin; inversion Hin | intros b k v v' Hin; inversion Hin|].
  intros n k Hn. now rewrite E, lookup_empty by lia.
Qed.
End Log.

(** * The tables of the state as logs: what a state update adds to them, what the
    queries read, and what is left of them after a purge. *)

(** ** Interned addresses *)

Definition ids_ok (ids : AddressIds) : Prop := NoDup ids.*1 /\ NoDup ids.*2.

Lemma ids_functional ids id a a' : ids_ok ids -> (id, a) ∈ ids -> (id, a') ∈ ids -> a = a'.
Proof.
  intros [Nd _] H1 H2. apply elem_of_list_to_map_1 in H1, H2; [congruence | exact Nd..].
Qed.

Lemma ids_injective ids id id' a : ids_ok ids -> (id, a) ∈ ids -> (id', a) ∈ ids -> id = id'.
Proof.
  intros [_ Nd] H1 H2. assert (Hs : forall i, (i, a) ∈ ids -> (a, i) ∈ map (fun row => (row.2, row.1)) ids).
  { intros i Hi. apply list_elem_of_fmap. now exists (i, a). }
  assert (Nd' : NoDup ((map (fun row : Z * Felt => (row.2, row.1)) ids).*1)).
  { replace ((map (fun row : Z * Felt => (row.2, row.1)) ids).*1) with (ids.*2); [exact Nd|].
    clear. induction ids as [|x ids IH]; [reflexivity|]. cbn. now rewrite <- IH. }
  apply Hs, (elem_of_list_to_map_1 (M := gmap Felt)) in H1; [|exact Nd'].
  apply Hs, (elem_of_list_to_map_1 (M := gmap Felt)) in H2; [|exact Nd']. congruence.
Qed.

Lemma next_id_fresh ids : next_id ids ∉ ids.*1.
Proof.
  unfold next_id. assert (G : forall l : list Z, forall x, x ∈ l -> x <= fold_right Z.max 0 l).
  { induction l as [|y l IH]; intros x; [inversion 1|]. intros [->|Hx]%elem_of_cons; cbn; [lia|]. specialize (IH x Hx). lia. }
  intros Hin. apply G in Hin. change (ids.*1) with (map fst ids) in Hin. lia.
Qed.

Lemma intern_spec a ids : ids_ok ids -> let r := intern a ids in
  (r.1, a) ∈ r.2 /\ ids_ok r.2 /\ forall row, row ∈ ids -> row ∈ r.2.
Proof.
  intros Hi. unfold intern. destruct (List.find _ ids) as [[id a']|] eqn:E; cbv zeta; cbn [fst snd].
  - apply find_some in E as [Hin Ea%felt_eqb_eq]. cbn in Ea. subst a'. split; [now apply list_elem_of_In | auto].
  - split; [apply elem_of_app; right; now left|]. split; [|intros row Hr; apply elem_of_app; now left].
    destruct Hi as [N1 N2]. split; rewrite fmap_app; apply NoDup_app.
    + split; [exact N1|]. split; [|apply NoDup_singleton]. intros x Hx Hx'%list_elem_of_singleton. cbn in Hx'. subst x.
      exact (next_id_fresh ids Hx).
    + split; [exact N2|]. split; [|apply NoDup_singleton]. intros x Hx Hx'%list_elem_of_singleton. cbn in Hx'. subst x.
      apply list_elem_of_fmap in Hx as ([i x] & -> & Hx). apply list_elem_of_In in Hx.
      pose proof (List.find_none _ _ E _ Hx) as F. cbn in F.
      now rewrite (proj2 (felt_eqb_eq x x) eq_refl) in F.
Qed.

(** The rows of a join on a unique id. *)
Lemma join_unique {A} ids id a (g : Z * Felt -> A) : ids_ok ids -> (id, a) ∈ ids ->
  flat_map (fun row => if fst row =? id then [g row] else []) ids = [g (id, a)].
Proof.
  intros [Nd _] Hin. induction ids as [|[i x] ids IH]; [inversion Hin|]. cbn [flat_map fst].
  cbn in Nd. apply NoDup_cons in Nd as [Hn Nd]. apply elem_of_cons in Hin as [[= -> ->]|Hin].
  - rewrite Z.eqb_refl. cbn [app]. f_equal. clear IH Nd. induction ids as [|[j y] ids IH]; [reflexivity|]. cbn [flat_map fst].
    destruct (Z.eqb_spec j i) as [->|]; [exfalso; apply Hn; now left|]. cbn [app]. apply IH. intros Hi. apply Hn. now right.
  - destruct (Z.eqb_spec i id) as [->|]; [|now apply IH]. exfalso. apply Hn. apply list_elem_of_fmap. now exists (id, a).
Qed.

Lemma flat_map_ext_in {A B} (f g : A -> list B) l : (forall x, x ∈ l -> f x = g x) -> flat_map f l = flat_map g l.
Proof.
  induction l as [|x l IH]; intros E; [reflexivity|]. cbn. rewrite (E x) by now left. f_equal. apply IH.
  intros y Hy. apply E. now right.
Qed.

(** ** Well-formed tables *)

Record wf_tables (t : Tables) : Prop := {
  wt_contracts : ids_ok (contract_addresses t);
  wt_keys : ids_ok (storage_addresses t);
  wt_nonces b id n : (b, id, n) ∈ nonce_updates t -> exists a, (id, a) ∈ contract_addresses t;
  wt_storage b id kid v : (b, id, kid, v) ∈ storage_updates t ->
    (exists a, (id, a) ∈ contract_addresses t) /\ exists k, (kid, k) ∈ storage_addresses t
}.

(** The rows with their addresses. *)
Definition storage_row_log (row : StorageRow) : Z * (Felt * Felt) * Felt :=
  (row_block row, (row_contract row, row_key row), row_value row).

Definition storage_log (t : Tables) : list (Z * (Felt * Felt) * Felt) := map storage_row_log (join_storage t).

Definition nonce_log (t : Tables) : list (Z * Felt * Felt) := map (fun '(b, _, a, n) => (b, a, n)) (join_nonces t).

Definition casm_log (t : Tables) : list (Z * Felt * Felt) := map (fun '(c, b, casm) => (b, c, casm)) (casm_class_hashes t).

Lemma join_storage_row t b id kid v a k : wf_tables t -> (id, a) ∈ contract_addresses t -> (kid, k) ∈ storage_addresses t ->
  flat_map (fun contract =>
      if fst contract =? id then
        flat_map (fun key => if fst key =? kid then [MkStorageRow b (id, kid) (snd contract) (snd key) v] else [])
          (storage_addresses t)
      else []) (contract_addresses t) = [MkStorageRow b (id, kid) a k v].
Proof.
  intros Hw Ha Hk.
  rewrite (flat_map_ext_in _ (fun contract => if fst contract =? id then [MkStorageRow b (id, kid) (snd contract) k v] else [])).
  - exact (join_unique _ id a (fun row => MkStorageRow b (id, kid) row.2 k v) (wt_contracts _ Hw) Ha).
  - intros x _. destruct (fst x =? id); [|reflexivity].
    exact (join_unique _ kid k (fun row => MkStorageRow b (id, kid) x.2 row.2 v) (wt_keys _ Hw) Hk).
Qed.

Lemma join_storage_in t row : wf_tables t -> row ∈ join_storage t <->
  (row_block row, (row_ids row).1, (row_ids row).2, row_value row) ∈ storage_updates t /\
  ((row_ids row).1, row_contract row) ∈ contract_addresses t /\ ((row_ids row).2, row_key row) ∈ storage_addresses t.
Proof.
  intros Hw. unfold join_storage. rewrite list_elem_of_In, in_flat_map. split.
  - intros ([[[b id] kid] v] & Hin & Hr). apply list_elem_of_In in Hin.
    destruct (wt_storage _ Hw b id kid v Hin) as [[a Ha] [k Hk]].
    rewrite (join_storage_row t b id kid v a k Hw Ha Hk) in Hr. apply list_elem_of_In, list_elem_of_singleton in Hr as ->.
    cbn. auto.
  - intros (Hin & Ha & Hk). destruct row as [b [id kid] a k v]. cbn in *. exists (b, id, kid, v).
    split; [now apply list_elem_of_In|]. rewrite (join_storage_row t b id kid v a k Hw Ha Hk). now left.
Qed.

Lemma join_nonces_in t b id a n : wf_tables t -> (b, id, a, n) ∈ join_nonces t <->
  (b, id, n) ∈ nonce_updates t /\ (id, a) ∈ contract_addresses t.
Proof.
  intros Hw. unfold join_nonces. rewrite list_elem_of_In, in_flat_map. split.
  - intros ([[b' id'] n'] & Hin & Hr). apply list_elem_of_In in Hin. destruct (wt_nonces _ Hw b' id' n' Hin) as [a' Ha].
    rewrite (join_unique _ id' a' (fun row => (b', id', row.2, n')) (wt_contracts _ Hw) Ha) in Hr.
    apply list_elem_of_In, list_elem_of_singleton in Hr. injection Hr as -> -> -> ->. auto.
  - intros [Hin Ha]. exists (b, id, n). split; [now apply list_elem_of_In|].
    rewrite (join_unique _ id a (fun row => (b, id, row.2, n)) (wt_contracts _ Hw) Ha). now left.
Qed.

(** ** Queries *)

Lemma last_row_view {A K V} `{Countable K} (view : A -> Z * K * V) (P : A -> bool) (l : list A) n k :
  (forall x, P x = bool_decide ((view x).1.2 = k) && ((view x).1.1 <=? n)) ->
  option_map snd (last_row (map (fun x => ((view x).1.1, (view x).2)) (List.filter P l))) = log_at (map view l) n k.
Proof.
  intros E. unfold log_at. f_equal. f_equal. induction l as [|x l IH]; [reflexivity|]. cbn. rewrite E.
  destruct (bool_decide _ && _); cbn; now rewrite IH.
Qed.

Lemma felt_eqb_decide a b : felt_eqb a b = bool_decide (a = b).
Proof. apply eq_true_iff_eq. now rewrite felt_eqb_eq, bool_decide_eq_true. Qed.

Section Queries.
Context (headers : Headers) (t : Tables).

Lemma storage_value_log n c k : storage_value headers t (Number n) c k = log_at (storage_log t) n (c, k).
Proof.
  unfold storage_log. rewrite <- (last_row_view storage_row_log (fun row => felt_eqb (row_contract row) c &&
    felt_eqb (row_key row) k && (row_block row <=? n))).
  - unfold storage_value, storage_value_with_block. cbn [up_to]. cbn. now destruct (last_row _) as [[b v]|].
  - intros row. cbn. rewrite !felt_eqb_decide. f_equal. apply eq_true_iff_eq.
    rewrite andb_true_iff, !bool_decide_eq_true. split; [now intros [-> ->] | now intros [= -> ->]].
Qed.

Lemma contract_nonce_log n c : contract_nonce headers t c (Number n) = log_at (nonce_log t) n c.
Proof.
  unfold nonce_log. rewrite <- (last_row_view (fun '(b, _, a, n) => (b, a, n)) (fun '(b, _, a, _) => felt_eqb a c && (b <=? n))).
  - unfold contract_nonce. f_equal. f_equal. apply map_ext. now intros [[[? ?] ?] ?].
  - intros [[[b id] a] x]. cbn. now rewrite felt_eqb_decide.
Qed.

Lemma contract_class_log n c : contract_class_hash headers t (Number n) c = log_at (contract_rows t) n c.
Proof.
  transitivity (log_at (map (fun row => row) (contract_rows t)) n c); [|now rewrite map_id].
  rewrite <- (last_row_view (fun row => row) (fun '(b, a, _) => felt_eqb a c && (b <=? n))).
  - unfold contract_class_hash. f_equal. f_equal. apply map_ext. now intros [[? ?] ?].
  - intros [[b a] x]. cbn. now rewrite felt_eqb_decide.
Qed.

Lemma casm_hash_log n s : casm_hash_at headers t (Number n) s = log_at (casm_log t) n s.
Proof.
  unfold casm_log. rewrite <- (last_row_view (fun '(c, b, casm) => (b, c, casm)) (fun '(c, b, _) => felt_eqb c s && (b <=? n))).
  - unfold casm_hash_at. f_equal. f_equal. apply map_ext. now intros [[? ?] ?].
  - intros [[c b] x]. cbn. now rewrite felt_eqb_decide.
Qed.
End Queries.

(** ** What an update adds *)

Record adds (t t' : Tables) (S : list (Z * (Felt * Felt) * Felt)) (N C : list (Z * Felt * Felt)) : Prop := {
  ad_wf : wf_tables t';
  ad_storage : storage_log t' = storage_log t ++ S;
  ad_nonce : nonce_log t' = nonce_log t ++ N;
  ad_class : contract_rows t' = contract_rows t ++ C;
  ad_ids row : row ∈ contract_addresses t -> row ∈ contract_addresses t';
  ad_defs : class_definitions t' = class_definitions t;
  ad_casm : casm_class_hashes t' = casm_class_hashes t;
  ad_redeclared : redeclared_classes t' = redeclared_classes t
}.

Lemma adds_nothing t : wf_tables t -> adds t t [] [] [].
Proof. intros Hw. split; auto; now rewrite app_nil_r. Qed.

Lemma adds_trans t t1 t2 S1 N1 C1 S2 N2 C2 : adds t t1 S1 N1 C1 -> adds t1 t2 S2 N2 C2 ->
  adds t t2 (S1 ++ S2) (N1 ++ N2) (C1 ++ C2).
Proof.
  intros [? A1 A2 A3 A4 A5 A6 A7] [? B1 B2 B3 B4 B5 B6 B7]. split; try congruence; auto.
  - now rewrite B1, A1, app_assoc.
  - now rewrite B2, A2, app_assoc.
  - now rewrite B3, A3, app_assoc.
Qed.

(** Tables with more addresses and more rows. *)
Lemma storage_log_grow t t' new : wf_tables t -> wf_tables t' ->
  (forall row, row ∈ contract_addresses t -> row ∈ contract_addresses t') ->
  (forall row, row ∈ storage_addresses t -> row ∈ storage_addresses t') ->
  storage_updates t' = storage_updates t ++ new ->
  storage_log t' = storage_log t ++ map storage_row_log (flat_map (fun '(b, id, kid, v) => flat_map (fun contract =>
      if fst contract =? id then
        flat_map (fun key => if fst key =? kid then [MkStorageRow b (id, kid) (snd contract) (snd key) v] else [])
          (storage_addresses t')
      else []) (contract_addresses t')) new).
Proof.
  intros Hw Hw' Hc Hk Es. unfold storage_log, join_storage. rewrite Es, flat_map_app, map_app. f_equal. f_equal.
  apply flat_map_ext_in. intros [[[b id] kid] v] Hin. destruct (wt_storage _ Hw b id kid v Hin) as [[a Ha] [k Hk']].
  rewrite (join_storage_row t b id kid v a k Hw Ha Hk'). apply join_storage_row; auto.
Qed.

Lemma nonce_log_grow t t' new : wf_tables t -> wf_tables t' ->
  (forall row, row ∈ contract_addresses t -> row ∈ contract_addresses t') -> nonce_updates t' = nonce_updates t ++ new ->
  nonce_log t' = nonce_log t ++ map (fun '(b, _, a, n) => (b, a, n)) (flat_map (fun '(b, id, n) =>
    flat_map (fun contract => if fst contract =? id then [(b, id, snd contract, n)] else []) (contract_addresses t')) new).
Proof.
  intros Hw Hw' Hc Es. unfold nonce_log, join_nonces. rewrite Es, flat_map_app, map_app. f_equal. f_equal.
  apply flat_map_ext_in. intros [[b id] n] Hin. destruct (wt_nonces _ Hw b id n Hin) as [a Ha].
  rewrite (join_unique _ id a (fun row => (b, id, row.2, n)) (wt_contracts _ Hw) Ha).
  exact (join_unique _ id a (fun row => (b, id, row.2, n)) (wt_contracts _ Hw') (Hc _ Ha)).
Qed.

Section Insert.
Context {order : HashOrder} (blk : Z).

Lemma insert_contract_row_adds a cls t : wf_tables t -> adds t (insert_contract_row blk a cls t) [] [] [(blk, a, cls)].
Proof. intros [? ? ? ?]. split; auto; [now split | exact (eq_sym (app_nil_r _))..]. Qed.

Lemma intern_contract_adds a t : wf_tables t -> adds t (intern_contract a t).2 [] [] [] /\
  ((intern_contract a t).1, a) ∈ contract_addresses (intern_contract a t).2.
Proof.
  intros Hw. pose proof (intern_spec a (contract_addresses t) (wt_contracts _ Hw)) as Hi. cbv zeta in Hi. unfold intern_contract.
  destruct (intern a (contract_addresses t)) as [id ids]. cbn [fst snd] in *. destruct Hi as (Hin & Ok & Sub).
  split; [|exact Hin]. set (t' := MkTables ids _ _ _ _ _ _ _).
  assert (Hw' : wf_tables t').
  { split; [exact Ok | exact (wt_keys _ Hw) | |].
    - intros b i n Hr. destruct (wt_nonces _ Hw b i n Hr) as [x Hx]. eauto.
    - intros b i kid v Hr. destruct (wt_storage _ Hw b i kid v Hr) as [[x Hx] Hk]. eauto. }
  split; auto.
  - exact (storage_log_grow t t' [] Hw Hw' Sub (fun _ H => H) (eq_sym (app_nil_r _))).
  - exact (nonce_log_grow t t' [] Hw Hw' Sub (eq_sym (app_nil_r _))).
  - symmetry. apply app_nil_r.
Qed.

Lemma insert_nonce_adds id a n t : wf_tables t -> (id, a) ∈ contract_addresses t ->
  adds t (insert_nonce blk id n t) [] [(blk, a, n)] [].
Proof.
  intros Hw Hin. set (t' := insert_nonce blk id n t).
  assert (Hw' : wf_tables t').
  { split; [exact (wt_contracts _ Hw) | exact (wt_keys _ Hw) | | exact (wt_storage _ Hw)].
    intros b i x [Hr|Hr%list_elem_of_singleton]%elem_of_app; [now apply (wt_nonces _ Hw b i x)|].
    injection Hr as -> -> ->. eauto. }
  split; auto.
  - symmetry. apply app_nil_r.
  - rewrite (nonce_log_grow t t' [(blk, id, n)] Hw Hw' (fun _ H => H) eq_refl). f_equal. cbn [flat_map].
    now rewrite (join_unique _ id a (fun row => (blk, id, row.2, n)) (wt_contracts _ Hw') Hin).
  - symmetry. apply app_nil_r.
Qed.

Lemma insert_storage_adds id a kv t : wf_tables t -> (id, a) ∈ contract_addresses t ->
  adds t (insert_storage blk id t kv) [(blk, (a, kv.1), kv.2)] [] [].
Proof.
  intros Hw Hin. pose proof (intern_spec kv.1 (storage_addresses t) (wt_keys _ Hw)) as Hi. cbv zeta in Hi. unfold insert_storage.
  destruct (intern kv.1 (storage_addresses t)) as [kid ids]. cbn [fst snd] in *. destruct Hi as (Hk & Ok & Sub).
  set (t' := MkTables _ ids _ _ _ _ _ _).
  assert (Hw' : wf_tables t').
  { split; [exact (wt_contracts _ Hw) | exact Ok | exact (wt_nonces _ Hw)|].
    intros b i j v [Hr|Hr%list_elem_of_singleton]%elem_of_app.
    - destruct (wt_storage _ Hw b i j v Hr) as [Ha [x Hx]]. eauto.
    - injection Hr as -> -> -> ->. eauto. }
  split; auto.
  - rewrite (storage_log_grow t t' [(blk, id, kid, kv.2)] Hw Hw' (fun _ H => H) Sub eq_refl). f_equal. cbn [flat_map].
    now rewrite (join_storage_row t' blk id kid kv.2 a kv.1 Hw' Hin Hk).
  - symmetry. apply app_nil_r.
  - symmetry. apply app_nil_r.
Qed.

Lemma insert_storages_adds id a kvs : forall t, wf_tables t -> (id, a) ∈ contract_addresses t ->
  adds t (fold_left (insert_storage blk id) kvs t) (map (fun kv => (blk, (a, kv.1), kv.2)) kvs) [] [].
Proof.
  induction kvs as [|kv kvs IH]; intros t Hw Hin; cbn [fold_left map]; [now apply adds_nothing|].
  pose proof (insert_storage_adds id a kv t Hw Hin) as A1.
  exact (adds_trans _ _ _ _ _ _ _ _ _ A1 (IH _ (ad_wf _ _ _ _ _ A1) (ad_ids _ _ _ _ _ A1 _ Hin))).
Qed.

(** The rows of a contract's update. *)
Definition storage_rows (row : Felt * ContractUpdate) : list (Z * (Felt * Felt) * Felt) :=
  map (fun kv => (blk, (row.1, kv.1), kv.2)) (iter (storage row.2)).

Definition system_rows (row : Felt * SystemContractUpdate) : list (Z * (Felt * Felt) * Felt) :=
  map (fun kv => (blk, (row.1, kv.1), kv.2)) (iter (row.2 : gmap Felt Felt)).

Definition opt_row (a : Felt) (o : option Felt) : list (Z * Felt * Felt) :=
  match o with Some x => [(blk, a, x)] | None => [] end.

Definition nonce_rows (row : Felt * ContractUpdate) : list (Z * Felt * Felt) := opt_row row.1 (nonce row.2).
Definition class_rows (row : Felt * ContractUpdate) : list (Z * Felt * Felt) :=
  opt_row row.1 (option_map class_hash (class row.2)).

Lemma insert_contract_update_adds row t : wf_tables t ->
  adds t (insert_contract_update blk t row) (storage_rows row) (nonce_rows row) (class_rows row).
Proof.
  intros Hw. destruct row as [a u]. unfold insert_contract_update, storage_rows, nonce_rows, class_rows, opt_row. cbn [fst snd].
  set (t1 := match class u with Some c => insert_contract_row blk a (class_hash c) t | None => t end).
  assert (A1 : adds t t1 [] [] (match option_map class_hash (class u) with Some x => [(blk, a, x)] | None => [] end)).
  { subst t1. destruct (class u); [now apply insert_contract_row_adds | now apply adds_nothing]. }
  pose proof (intern_contract_adds a t1 (ad_wf _ _ _ _ _ A1)) as [A2 Hin].
  destruct (intern_contract a t1) as [id t2]. cbn [fst snd] in *.
  set (t3 := match nonce u with Some n => insert_nonce blk id n t2 | None => t2 end).
  assert (A3 : adds t2 t3 [] (match nonce u with Some n => [(blk, a, n)] | None => [] end) []).
  { subst t3. destruct (nonce u); [now apply insert_nonce_adds; [apply (ad_wf _ _ _ _ _ A2)|] | apply adds_nothing, (ad_wf _ _ _ _ _ A2)]. }
  pose proof (insert_storages_adds id a (iter (storage u)) t3 (ad_wf _ _ _ _ _ A3) (ad_ids _ _ _ _ _ A3 _ Hin)) as A4.
  pose proof (adds_trans _ _ _ _ _ _ _ _ _ (adds_trans _ _ _ _ _ _ _ _ _ A1 A2) (adds_trans _ _ _ _ _ _ _ _ _ A3 A4)) as A.
  rewrite !app_nil_r in A. exact A.
Qed.

Lemma insert_system_update_adds row t : wf_tables t -> adds t (insert_system_update blk t row) (system_rows row) [] [].
Proof.
  intros Hw. unfold insert_system_update. destruct (intern_contract_adds row.1 t Hw) as [A Hin].
  destruct (intern_contract row.1 t) as [id t1]. cbn [fst snd] in *.
  exact (adds_trans _ _ _ _ _ _ _ _ _ A (insert_storages_adds id row.1 (iter row.2) t1 (ad_wf _ _ _ _ _ A) Hin)).
Qed.

Lemma insert_contract_updates_adds rows : forall t, wf_tables t ->
  adds t (fold_left (insert_contract_update blk) rows t) (flat_map storage_rows rows) (flat_map nonce_rows rows)
    (flat_map class_rows rows).
Proof.
  induction rows as [|row rows IH]; intros t Hw; cbn [fold_left flat_map]; [now apply adds_nothing|].
  pose proof (insert_contract_update_adds row t Hw) as A.
  exact (adds_trans _ _ _ _ _ _ _ _ _ A (IH _ (ad_wf _ _ _ _ _ A))).
Qed.

Lemma insert_system_updates_adds rows : forall t, wf_tables t ->
  adds t (fold_left (insert_system_update blk) rows t) (flat_map system_rows rows) [] [].
Proof.
  induction rows as [|row rows IH]; intros t Hw; cbn [fold_left flat_map]; [now apply adds_nothing|].
  pose proof (insert_system_update_adds row t Hw) as A.
  exact (adds_trans _ _ _ _ _ _ _ _ _ A (IH _ (ad_wf _ _ _ _ _ A))).
Qed.
End Insert.

(** *** Classes *)

(** Classes that are known remain known, and nothing else but the tables of
    classes changes. *)
Record keeps (t t' : Tables) : Prop := {
  kp_contracts : contract_addresses t' = contract_addresses t;
  kp_keys : storage_addresses t' = storage_addresses t;
  kp_nonces : nonce_updates t' = nonce_updates t;
  kp_storage : storage_updates t' = storage_updates t;
  kp_class : contract_rows t' = contract_rows t;
  kp_known s : is_Some (class_definitions t !! s) -> is_Some (class_definitions t' !! s)
}.

Lemma keeps_refl t : keeps t t.
Proof. now split. Qed.

Lemma keeps_trans t t1 t2 : keeps t t1 -> keeps t1 t2 -> keeps t t2.
Proof. intros A B. destruct A, B. split; [congruence.. | auto]. Qed.

Lemma keeps_logs t t' : keeps t t' -> storage_log t' = storage_log t /\ nonce_log t' = nonce_log t.
Proof.
  intros [E1 E2 E3 E4 E5 _]. unfold storage_log, nonce_log, join_storage, join_nonces. now rewrite E1, E2, E3, E4.
Qed.

Lemma keeps_wf t t' : wf_tables t -> keeps t t' -> wf_tables t'.
Proof.
  intros [A B C D] [E1 E2 E3 E4 E5 _]. split; rewrite ?E1, ?E2; try assumption.
  - intros b id n. rewrite E3. apply C.
  - intros b id kid v. rewrite E4. apply D.
Qed.

Section Classes.
Context {order : HashOrder} (blk : Z).

Lemma upsert_known cls defs s : is_Some (defs !! s) \/ s = cls -> is_Some ((upsert_declared_at blk cls defs).2 !! s).
Proof.
  intros Hs. unfold upsert_declared_at. destruct (defs !! cls) as [[d|]|] eqn:E; cbn [snd].
  - destruct Hs as [Hs| ->]; [assumption | rewrite E; eauto].
  - destruct (decide (s = cls)) as [->|N]; [rewrite lookup_insert_eq; eauto | rewrite lookup_insert_ne by congruence; tauto].
  - destruct (decide (s = cls)) as [->|N]; [rewrite lookup_insert_eq; eauto | rewrite lookup_insert_ne by congruence; tauto].
Qed.

Lemma insert_declared_spec headers cls t : is_Some (headers !! blk) -> exists t', insert_declared blk headers (Ok t) cls = Ok t' /\
  keeps t t' /\ casm_class_hashes t' = casm_class_hashes t /\ is_Some (class_definitions t' !! cls).
Proof.
  intros Hh. unfold insert_declared. pose proof (upsert_known cls (class_definitions t)) as Hk.
  destruct (upsert_declared_at blk cls (class_definitions t)) as [declared_at defs]. cbn [snd] in Hk.
  destruct (declared_at =? blk); [|rewrite bool_decide_eq_true_2 by exact Hh]; eexists; (split; [reflexivity|]);
    (split; [split; try reflexivity; cbn; auto|]); (split; [reflexivity|]); cbn; auto.
Qed.

Lemma insert_declareds_spec headers l : forall t, is_Some (headers !! blk) ->
  exists t', fold_left (insert_declared blk headers) l (Ok t) = Ok t' /\ keeps t t' /\
    casm_class_hashes t' = casm_class_hashes t /\ forall s, s ∈ l -> is_Some (class_definitions t' !! s).
Proof.
  induction l as [|cls l IH]; intros t Hh; cbn [fold_left].
  - exists t. split; [reflexivity|]. split; [apply keeps_refl|]. split; [reflexivity|]. intros s Hs. inversion Hs.
  - destruct (insert_declared_spec headers cls t Hh) as (t1 & -> & K1 & C1 & Hc).
    destruct (IH t1 Hh) as (t2 & -> & K2 & C2 & Hl). exists t2. split; [reflexivity|].
    split; [exact (keeps_trans _ _ _ K1 K2)|]. split; [congruence|].
    intros s [->|Hs]%elem_of_cons; [exact (kp_known _ _ K2 _ Hc) | auto].
Qed.

Lemma insert_deployeds_spec rows : forall t, keeps t (fold_left (insert_deployed blk) rows t) /\
  casm_class_hashes (fold_left (insert_deployed blk) rows t) = casm_class_hashes t.
Proof.
  induction rows as [|row rows IH]; intros t; cbn [fold_left]; [split; [apply keeps_refl | reflexivity]|].
  assert (K1 : keeps t (insert_deployed blk t row) /\ casm_class_hashes (insert_deployed blk t row) = casm_class_hashes t).
  { unfold insert_deployed. destruct (class row.2) as [[cls|cls]|]; (split; [|reflexivity]); try apply keeps_refl.
    split; try reflexivity. intros s Hs. apply upsert_known. now left. }
  destruct (IH (insert_deployed blk t row)) as [K2 C2]. destruct K1 as [K1 C1].
  split; [exact (keeps_trans _ _ _ K1 K2) | congruence].
Qed.

(** A row of the block that is there already is one of the update. *)
Lemma insert_casms_spec kvs : forall t, NoDup kvs.*1 ->
  (forall s v, (s, blk, v) ∈ casm_class_hashes t -> s ∈ kvs.*1 -> (s, v) ∈ kvs) ->
  (forall s, s ∈ kvs.*1 -> is_Some (class_definitions t !! s)) ->
  exists t', fold_left (insert_casm_hash blk) kvs (Ok t) = Ok t' /\ keeps t t' /\
    forall s b v, (s, b, v) ∈ casm_class_hashes t' <-> (s, b, v) ∈ casm_class_hashes t \/ b = blk /\ (s, v) ∈ kvs.
Proof.
  induction kvs as [|[s v] kvs IH]; intros t Nd Hn Hk; cbn [fold_left map].
  - exists t. split; [reflexivity|]. split; [apply keeps_refl|]. intros s b v. split; [auto|]. intros [Hin|[_ Hin]]; [auto | inversion Hin].
  - cbn in Nd. apply NoDup_cons in Nd as [Hs Nd]. unfold insert_casm_hash at 2. cbn [fst snd].
    assert (Rest : forall s' v', s' ∈ kvs.*1 -> (s', v') ∈ (s, v) :: kvs -> (s', v') ∈ kvs).
    { intros s' v' Hi [E|Hin]%elem_of_cons; [|exact Hin]. injection E as -> ->. contradiction. }
    destruct (existsb _ _) eqn:Ex.
    { apply existsb_exists in Ex as ([[s' b'] v'] & Hin & Hb). cbn in Hb. apply andb_true_iff in Hb as [Es Eb].
      apply felt_eqb_eq in Es as ->. apply Z.eqb_eq in Eb as ->. apply list_elem_of_In in Hin.
      assert (v' = v) as ->.
      { destruct (proj1 (elem_of_cons _ _ _) (Hn s v' Hin ltac:(now left))) as [E|Hi]; [now injection E|].
        exfalso. apply Hs. apply list_elem_of_fmap. now exists (s, v'). }
      destruct (IH t Nd) as (t2 & -> & K2 & C2).
      - intros s' v' Hi Hk'. apply (Rest s' v' Hk'), Hn; [exact Hi | now right].
      - intros s' Hs'. apply Hk. now right.
      - exists t2. split; [reflexivity|]. split; [exact K2|]. intros s' b v'. rewrite C2, elem_of_cons. split; [tauto|].
        intros [Hi|[-> [E|Hi]]]; [auto | | auto]. injection E as -> ->. auto. }
    rewrite bool_decide_eq_true_2 by (apply Hk; now left). set (t1 := MkTables _ _ _ _ _ _ _ _).
    destruct (IH t1 Nd) as (t2 & -> & K2 & C2).
    + intros s' v' [Hin|Hin%list_elem_of_singleton]%elem_of_app Hk'.
      * apply (Rest s' v' Hk'), Hn; [exact Hin | now right].
      * injection Hin as -> ->. contradiction.
    + intros s' Hs'. apply Hk. now right.
    + exists t2. split; [reflexivity|]. split; [exact (keeps_trans t t1 t2 ltac:(now split) K2)|].
      intros s' b v'. rewrite C2. unfold t1. cbn [casm_class_hashes]. rewrite elem_of_app, list_elem_of_singleton, elem_of_cons.
      split; [intros [[Hi|E]|Hi]; [auto | injection E as -> -> ->; auto | tauto]|].
      intros [Hi|[-> [E|Hi]]]; [auto | injection E as -> ->; auto | auto].
Qed.

(** *** The whole update *)

Lemma insert_state_update_spec headers d t : wf_tables t -> is_Some (headers !! blk) ->
  declared_sierra_classes d ##ₘ migrated_compiled_classes d ->
  (forall s v, (s, blk, v) ∈ casm_class_hashes t ->
    s ∈ (iter (declared_sierra_classes d) ++ iter (migrated_compiled_classes d)).*1 ->
    (s, v) ∈ iter (declared_sierra_classes d) ++ iter (migrated_compiled_classes d)) ->
  (forall s, is_Some (migrated_compiled_classes d !! s) -> is_Some (class_definitions t !! s)) ->
  exists t', insert_state_update_data blk headers d t = Ok t' /\ wf_tables t' /\
    storage_log t' = storage_log t ++ flat_map (storage_rows blk) (iter (contract_updates d)) ++
      flat_map (system_rows blk) (iter (system_contract_updates d)) /\
    nonce_log t' = nonce_log t ++ flat_map (nonce_rows blk) (iter (contract_updates d)) /\
    contract_rows t' = contract_rows t ++ flat_map (class_rows blk) (iter (contract_updates d)) /\
    (forall s b v, (s, b, v) ∈ casm_class_hashes t' <-> (s, b, v) ∈ casm_class_hashes t \/ b = blk /\
      (s, v) ∈ iter (declared_sierra_classes d) ++ iter (migrated_compiled_classes d)) /\
    (forall s, is_Some (class_definitions t !! s) -> is_Some (class_definitions t' !! s)) /\
    forall s, is_Some (declared_sierra_classes d !! s) -> is_Some (class_definitions t' !! s).
Proof.
  intros Hw Hh Dis Hc Hm. unfold insert_state_update_data.
  pose proof (insert_contract_updates_adds blk (iter (contract_updates d)) t Hw) as A1. set (t1 := fold_left _ _ t) in *.
  pose proof (insert_system_updates_adds blk (iter (system_contract_updates d)) t1 (ad_wf _ _ _ _ _ A1)) as A2.
  set (t2 := fold_left _ _ t1) in *. pose proof (adds_trans _ _ _ _ _ _ _ _ _ A1 A2) as A.
  assert (In_iter : forall (m : gmap Felt Felt) s, s ∈ (iter m).*1 <-> is_Some (m !! s)).
  { intros m s. rewrite (iter_perm m), list_elem_of_fmap. split.
    - intros ([s' v] & -> & Hin%elem_of_map_to_list). eauto.
    - intros [v E]. exists (s, v). split; [reflexivity | now apply elem_of_map_to_list]. }
  destruct (insert_declareds_spec headers (map fst (iter (declared_sierra_classes d)) ++ iter_set (declared_cairo_classes d))
    t2 Hh) as (t3 & -> & K3 & C3 & Hd).
  destruct (insert_deployeds_spec (iter (contract_updates d)) t3) as [K4 C4]. set (t4 := fold_left _ _ t3) in *.
  rewrite <- fold_left_app.
  assert (Known : forall s, is_Some (class_definitions t !! s) -> is_Some (class_definitions t4 !! s)).
  { intros s Hs. apply (kp_known _ _ K4), (kp_known _ _ K3). now rewrite (ad_defs _ _ _ _ _ A). }
  assert (Decl : forall s, is_Some (declared_sierra_classes d !! s) -> is_Some (class_definitions t4 !! s)).
  { intros s Hs. apply (kp_known _ _ K4), Hd, elem_of_app. left. now apply In_iter. }
  assert (C : casm_class_hashes t4 = casm_class_hashes t) by (rewrite C4, C3; exact (ad_casm _ _ _ _ _ A)).
  destruct (insert_casms_spec (iter (declared_sierra_classes d) ++ iter (migrated_compiled_classes d)) t4)
    as (t5 & -> & K5 & C5).
  - rewrite fmap_app. apply NoDup_app. split; [rewrite (iter_perm (declared_sierra_classes d)); apply NoDup_fst_map_to_list|].
    split; [|rewrite (iter_perm (migrated_compiled_classes d)); apply NoDup_fst_map_to_list].
    intros s [x Hx]%In_iter [y Hy]%In_iter. exact (proj1 (map_disjoint_spec _ _) Dis s x y Hx Hy).
  - intros s v. rewrite C. exact (Hc s v).
  - intros s. rewrite fmap_app, elem_of_app, !In_iter. intros [Hs|Hs]; [auto | apply Known; auto].
  - exists t5. pose proof (keeps_trans _ _ _ K3 (keeps_trans _ _ _ K4 K5)) as K. destruct (keeps_logs _ _ K) as [L1 L2].
    split; [reflexivity|]. split; [exact (keeps_wf _ _ (ad_wf _ _ _ _ _ A) K)|].
    split; [rewrite L1; exact (ad_storage _ _ _ _ _ A)|].
    split; [rewrite L2, (ad_nonce _ _ _ _ _ A); now rewrite app_nil_r|].
    split; [rewrite (kp_class _ _ K), (ad_class _ _ _ _ _ A); now rewrite app_nil_r|].
    split; [intros s b v; now rewrite C5, C|]. split; intros s Hs; apply (kp_known _ _ K5); auto.
Qed.
End Classes.
