(* ===== verification/StateReverse.v ===== *)
(** Purging a block from the tables of the state, and the reverse updates of a
    range of blocks: for everything that was changed in it, the value before. *)

From Stdlib Require Import ZArith Lia Bool List.
From stdpp Require Import gmap list.
From S2P Require Import Prelude Bytes Felt TreeMap StateUpdate World StateTables StateLogs.
Local Open Scope Z_scope.

(** ** Purge *)

Lemma in_filter {A} (P : A -> bool) x l : x ∈ List.filter P l <-> x ∈ l /\ P x = true.
Proof. rewrite !list_elem_of_In. apply filter_In. Qed.

Lemma not_block b blk : negb (b =? blk) = true <-> b <> blk.
Proof. now rewrite negb_true_iff, Z.eqb_neq. Qed.

Lemma purge_wf blk t : wf_tables t -> wf_tables (purge_tables blk t).
Proof.
  intros [A B C D]. split; [exact A | exact B | |].
  - intros b id n [Hin _]%in_filter. now apply (C b id n).
  - intros b id kid v [Hin _]%in_filter. now apply (D b id kid v).
Qed.

Lemma storage_log_in t b c k v : wf_tables t -> (b, (c, k), v) ∈ storage_log t <-> exists id kid,
  (b, id, kid, v) ∈ storage_updates t /\ (id, c) ∈ contract_addresses t /\ (kid, k) ∈ storage_addresses t.
Proof.
  intros Hw. unfold storage_log. change (map storage_row_log) with (fmap (M := list) storage_row_log).
  rewrite list_elem_of_fmap. split.
  - intros ([b' [id kid] c' k' v'] & E & Hin). injection E as -> -> -> ->. apply join_storage_in in Hin; [|exact Hw]. eauto.
  - intros (id & kid & H). exists (MkStorageRow b (id, kid) c k v). split; [reflexivity|]. now apply join_storage_in.
Qed.

Lemma nonce_log_in t b a n : wf_tables t -> (b, a, n) ∈ nonce_log t <-> exists id,
  (b, id, n) ∈ nonce_updates t /\ (id, a) ∈ contract_addresses t.
Proof.
  intros Hw. unfold nonce_log. rewrite list_elem_of_In, in_map_iff. split.
  - intros ([[[b' id] a'] n'] & E & Hin). injection E as -> -> ->. apply list_elem_of_In, join_nonces_in in Hin; [|exact Hw]. eauto.
  - intros (id & H). exists (b, id, a, n). split; [reflexivity|]. now apply list_elem_of_In, join_nonces_in.
Qed.

Lemma casm_log_in t b s v : (b, s, v) ∈ casm_log t <-> (s, b, v) ∈ casm_class_hashes t.
Proof.
  unfold casm_log. rewrite !list_elem_of_In, in_map_iff. split.
  - intros ([[s' b'] v'] & E & Hin). now injection E as -> -> ->.
  - intros Hin. now exists (s, b, v).
Qed.

Lemma purge_storage blk t b x v : wf_tables t ->
  (b, x, v) ∈ storage_log (purge_tables blk t) <-> (b, x, v) ∈ storage_log t /\ b <> blk.
Proof.
  intros Hw. destruct x as [c k]. rewrite !storage_log_in by (try apply purge_wf; exact Hw). cbn [purge_tables storage_updates
    contract_addresses storage_addresses]. setoid_rewrite in_filter. setoid_rewrite not_block. firstorder.
Qed.

Lemma purge_nonce blk t b a n : wf_tables t ->
  (b, a, n) ∈ nonce_log (purge_tables blk t) <-> (b, a, n) ∈ nonce_log t /\ b <> blk.
Proof.
  intros Hw. rewrite !nonce_log_in by (try apply purge_wf; exact Hw). cbn [purge_tables nonce_updates contract_addresses].
  setoid_rewrite in_filter. setoid_rewrite not_block. firstorder.
Qed.

Lemma purge_class blk t b a c : (b, a, c) ∈ contract_rows (purge_tables blk t) <-> (b, a, c) ∈ contract_rows t /\ b <> blk.
Proof. cbn. now rewrite in_filter, not_block. Qed.

Lemma purge_known blk t s : is_Some (class_definitions (purge_tables blk t) !! s) <-> is_Some (class_definitions t !! s).
Proof. cbn. rewrite lookup_fmap. destruct (class_definitions t !! s); cbn; split; intros [? ?]; eauto; discriminate. Qed.

(** ** Folds over entries *)

Lemma fold_entry {A V} (d : V) (f : A -> V -> V) (rows : list (Felt * A)) : forall (m : gmap Felt V) c, NoDup rows.*1 ->
  fold_left (fun m row => entry d row.1 (f row.2) m) rows m !! c =
  match (list_to_map rows : gmap Felt A) !! c with
  | Some x => Some (f x (default d (m !! c)))
  | None => m !! c
  end.
Proof.
  induction rows as [|[k x] rows IH]; intros m c Nd; [reflexivity|]. cbn in Nd. apply NoDup_cons in Nd as [Hk Nd].
  cbn [fold_left fst snd]. rewrite IH by exact Nd. cbn [list_to_map foldr fst snd]. unfold entry.
  destruct (decide (c = k)) as [->|N].
  - rewrite lookup_insert_eq. change (foldr _ ∅ rows) with (list_to_map rows : gmap Felt A).
    rewrite not_elem_of_list_to_map_1 by exact Hk. now rewrite lookup_insert_eq.
  - rewrite !lookup_insert_ne by congruence. reflexivity.
Qed.

Lemma fold_first {A V} (g : A -> V) (rows : list (Felt * A)) : forall (m : gmap Felt V) c, NoDup rows.*1 ->
  fold_left (fun m row => match m !! row.1 with Some _ => m | None => <[row.1 := g row.2]> m end) rows m !! c =
  match m !! c with Some x => Some x | None => g <$> (list_to_map rows : gmap Felt A) !! c end.
Proof.
  induction rows as [|[k x] rows IH]; intros m c Nd; [cbn; rewrite lookup_empty; now destruct (m !! c)|].
  cbn in Nd. apply NoDup_cons in Nd as [Hk Nd]. cbn [fold_left fst snd]. rewrite IH by exact Nd.
  cbn [list_to_map foldr fst snd]. change (foldr _ ∅ rows) with (list_to_map rows : gmap Felt A).
  destruct (decide (c = k)) as [->|N].
  - destruct (m !! k) as [y|] eqn:E; [now rewrite E|]. now rewrite !lookup_insert_eq.
  - rewrite (lookup_insert_ne (list_to_map rows)) by congruence. destruct (m !! k); [reflexivity|].
    now rewrite lookup_insert_ne by congruence.
Qed.

(** Rows gathered by their key. *)
Lemma fold_gather {B} (rows : list (Felt * B)) : forall (m : gmap Felt (list B)) c,
  fold_left (fun m row => entry [] row.1 (fun l => l ++ [row.2]) m) rows m !! c =
  match map snd (List.filter (fun row => felt_eqb row.1 c) rows) with
  | [] => m !! c
  | l => Some (default [] (m !! c) ++ l)
  end.
Proof.
  induction rows as [|[k x] rows IH]; intros m c; [reflexivity|]. cbn [fold_left fst snd List.filter]. rewrite IH.
  unfold entry. destruct (felt_eqb k c) eqn:E.
  - apply felt_eqb_eq in E as ->. rewrite lookup_insert_eq. cbn [map]. destruct (map snd _); cbn; [reflexivity|].
    now rewrite <- app_assoc.
  - rewrite lookup_insert_ne; [reflexivity|]. intros ->. now rewrite (proj2 (felt_eqb_eq c c) eq_refl) in E.
Qed.

Lemma insert_all_in {V} (l : list (Felt * V)) : forall (m : gmap Felt V) k,
  match insert_all l m !! k with
  | Some v => (k, v) ∈ l \/ k ∉ l.*1 /\ m !! k = Some v
  | None => k ∉ l.*1 /\ m !! k = None
  end.
Proof.
  unfold insert_all. induction l as [|[k' v'] l IH]; intros m k; cbn [fold_left].
  - destruct (m !! k) eqn:E; [right|]; (split; [intros Hin; inversion Hin | reflexivity]).
  - cbn [fst snd]. specialize (IH (<[k' := v']> m) k). destruct (fold_left _ l _ !! k) as [v|].
    + destruct IH as [Hin|[Hn E]]; [left; now right|]. destruct (decide (k = k')) as [->|N].
      * rewrite lookup_insert_eq in E. injection E as ->. left. now left.
      * rewrite lookup_insert_ne in E by congruence. right. split; [|exact E]. now intros [->|Hin]%elem_of_cons.
    + destruct IH as [Hn E]. destruct (decide (k = k')) as [->|N]; [now rewrite lookup_insert_eq in E|].
      rewrite lookup_insert_ne in E by congruence. split; [|exact E]. now intros [->|Hin]%elem_of_cons.
Qed.

(** ** Reverse updates *)

(** A key has rows in a range of blocks. *)
Definition touched {K V} (l : list (Z * K * V)) (from to : Z) (k : K) : Prop :=
  exists b v, (b, k, v) ∈ l /\ to < b <= from.

Lemma between_spec from to b : between from to b = true <-> to < b <= from.
Proof. unfold between. now rewrite andb_true_iff, Z.ltb_lt, Z.leb_le. Qed.

Section Reverse.
Context (t : Tables) (Hw : wf_tables t) (from to : Z).

Lemma reverse_class_rows_nodup : NoDup (reverse_class_rows t from to).*1.
Proof.
  unfold reverse_class_rows. cbv zeta. set (l := remove_dups _).
  replace ((map _ l).*1) with l; [apply NoDup_remove_dups|].
  clear. induction l as [|a l IH]; [reflexivity|]. cbn. now f_equal.
Qed.

Lemma same_address ids i j (y x : Felt) : ids_ok ids -> (i, y) ∈ ids -> (j, x) ∈ ids -> (i =? j) = bool_decide (y = x).
Proof.
  intros Ok Hy Hx. apply eq_true_iff_eq. rewrite Z.eqb_eq, bool_decide_eq_true. split.
  - intros ->. exact (ids_functional _ j y x Ok Hy Hx).
  - intros ->. exact (ids_injective _ i j x Ok Hy Hx).
Qed.

Lemma reverse_class_rows_in a o : (a, o) ∈ reverse_class_rows t from to <->
  touched (contract_rows t) from to a /\ o = log_at (contract_rows t) to a.
Proof.
  assert (Eq : forall a, option_map snd (last_row (map (fun '(b, _, c) => (b, c))
    (List.filter (fun '(b, a', _) => felt_eqb a' a && (b <=? to)) (contract_rows t)))) = log_at (contract_rows t) to a).
  { intros x. rewrite <- (contract_class_log ∅ t to x). reflexivity. }
  unfold reverse_class_rows. cbv zeta. rewrite list_elem_of_In, in_map_iff. split.
  - intros (x & E & Hin). injection E as -> <-. rewrite Eq. split; [|reflexivity].
    apply list_elem_of_In, elem_of_remove_dups, list_elem_of_In, in_map_iff in Hin as ([[b a'] c] & -> & Hin).
    apply list_elem_of_In, in_filter in Hin as [Hin Hb%between_spec]. exists b, c. auto.
  - intros [(b & c & Hin & Hb) ->]. exists a. rewrite Eq. split; [reflexivity|].
    apply list_elem_of_In, elem_of_remove_dups, list_elem_of_In, in_map_iff. exists (b, a, c). split; [reflexivity|].
    apply list_elem_of_In, in_filter. split; [exact Hin | now apply between_spec].
Qed.

Lemma nonce_by_id id x : (id, x) ∈ contract_addresses t -> option_map snd (last_row (map (fun '(b, _, n) => (b, n))
  (List.filter (fun '(b, contract_id, _) => (contract_id =? id) && (b <=? to)) (nonce_updates t)))) = log_at (nonce_log t) to x.
Proof.
  intros Hx. unfold log_at, nonce_log, join_nonces. f_equal. f_equal.
  pose proof (wt_nonces _ Hw) as Hl. revert Hl. generalize (nonce_updates t) as l.
  induction l as [|[[b i] n] l IH]; intros Hl; [reflexivity|]. cbn [flat_map].
  destruct (Hl b i n ltac:(now left)) as [y Hy].
  rewrite (join_unique _ i y (fun row => (b, i, row.2, n)) (wt_contracts _ Hw) Hy). cbn [app map List.filter fst snd].
  rewrite (same_address _ i id y x (wt_contracts _ Hw) Hy Hx).
  specialize (IH (fun b' i' n' Hin => Hl b' i' n' ltac:(now right))).
  destruct (bool_decide (y = x) && (b <=? to)); cbn [map]; now rewrite IH.
Qed.

Lemma storage_by_ids id kid c k : (id, c) ∈ contract_addresses t -> (kid, k) ∈ storage_addresses t ->
  option_map snd (last_row (map (fun '(b, _, _, value) => (b, value))
    (List.filter (fun '(b, contract_id, key_id, _) => bool_decide ((contract_id, key_id) = (id, kid)) && (b <=? to))
      (storage_updates t)))) = log_at (storage_log t) to (c, k).
Proof.
  intros Hc Hk. unfold log_at, storage_log, join_storage. f_equal. f_equal.
  pose proof (wt_storage _ Hw) as Hl. revert Hl. generalize (storage_updates t) as l.
  induction l as [|[[[b i] j] v] l IH]; intros Hl; [reflexivity|]. cbn [flat_map].
  destruct (Hl b i j v ltac:(now left)) as [[y Hy] [z Hz]].
  rewrite (join_storage_row t b i j v y z Hw Hy Hz). cbn [app map List.filter fst snd storage_row_log row_block row_contract
    row_key row_value].
  assert (E : bool_decide ((i, j) = (id, kid)) = bool_decide ((y, z) = (c, k))).
  { assert (E1 : i = id <-> y = c) by (rewrite <- Z.eqb_eq, (same_address _ i id y c (wt_contracts _ Hw) Hy Hc);
      apply bool_decide_eq_true).
    assert (E2 : j = kid <-> z = k) by (rewrite <- Z.eqb_eq, (same_address _ j kid z k (wt_keys _ Hw) Hz Hk);
      apply bool_decide_eq_true).
    apply bool_decide_ext. split; intros [= ? ?]; f_equal; tauto. }
  rewrite E. specialize (IH (fun b' i' j' v' Hin => Hl b' i' j' v' ltac:(now right))).
  destruct (bool_decide ((y, z) = (c, k)) && (b <=? to)); cbn [map]; now rewrite IH.
Qed.

Lemma reverse_nonce_in a o : (a, o) ∈ reverse_nonce_updates t from to <->
  touched (nonce_log t) from to a /\ o = log_at (nonce_log t) to a.
Proof.
  unfold reverse_nonce_updates. cbv zeta. rewrite list_elem_of_In, in_map_iff. split.
  - intros ([id x] & E & Hin). injection E as -> <-.
    apply list_elem_of_In, elem_of_remove_dups, list_elem_of_In, in_map_iff in Hin as ([[[b i] a'] n] & E & Hin).
    injection E as -> ->. apply list_elem_of_In, in_filter in Hin as [Hin Hb%between_spec].
    pose proof (proj1 (join_nonces_in t b id a n Hw) Hin) as [Hn Ha]. rewrite (nonce_by_id id a Ha). split; [|reflexivity].
    exists b, n. split; [|exact Hb]. apply nonce_log_in; eauto.
  - intros [(b & n & Hin & Hb) ->]. apply nonce_log_in in Hin as (id & Hn & Ha); [|exact Hw]. exists (id, a).
    rewrite (nonce_by_id id a Ha). split; [reflexivity|].
    apply list_elem_of_In, elem_of_remove_dups, list_elem_of_In, in_map_iff. exists (b, id, a, n). split; [reflexivity|].
    apply list_elem_of_In, in_filter. split; [now apply join_nonces_in | now apply between_spec].
Qed.

Lemma reverse_nonce_nodup : NoDup (reverse_nonce_updates t from to).*1.
Proof.
  unfold reverse_nonce_updates. cbv zeta. set (l := remove_dups _).
  assert (Hl : forall id a, (id, a) ∈ l -> (id, a) ∈ contract_addresses t).
  { intros id a Hin. apply elem_of_remove_dups, list_elem_of_In, in_map_iff in Hin as ([[[b i] a'] n] & E & Hin).
    injection E as -> ->. apply list_elem_of_In, in_filter in Hin as [Hin _]. now apply join_nonces_in in Hin as [_ Ha]. }
  pose proof (NoDup_remove_dups (map (fun '(b, id, a, _) => (id, a))
    (List.filter (fun '(b, _, _, _) => between from to b) (join_nonces t)))) as Nd. fold l in Nd.
  clearbody l. induction l as [|[id a] l IH]; [constructor|]. apply NoDup_cons in Nd as [Hn Nd]. cbn. constructor.
  - intros ([x o] & -> & Hin)%list_elem_of_fmap. cbn in *. apply list_elem_of_In, in_map_iff in Hin as ([i y] & E & Hin).
    injection E as -> _. apply list_elem_of_In in Hin. apply Hn.
    rewrite (ids_injective _ id i x (wt_contracts _ Hw) (Hl id x ltac:(now left)) (Hl i x ltac:(now right))). exact Hin.
  - apply IH; [intros; apply Hl; now right | exact Nd].
Qed.

Lemma reverse_storage_in c k v : (c, (k, v)) ∈ reverse_storage_rows t from to <->
  touched (storage_log t) from to (c, k) /\ v = default FELT_ZERO (log_at (storage_log t) to (c, k)).
Proof.
  unfold reverse_storage_rows. cbv zeta. rewrite list_elem_of_In, in_map_iff. split.
  - intros ([[c' k'] [id kid]] & E & Hin). injection E as -> -> <-.
    apply list_elem_of_In, elem_of_remove_dups, list_elem_of_In, in_map_iff in Hin as (row & E & Hin).
    apply list_elem_of_In, in_filter in Hin as [Hin Hb%between_spec]. apply join_storage_in in Hin as (Hs & Hc & Hk); [|exact Hw].
    injection E as E1 E2 E3. rewrite E3 in *. cbn [fst snd] in *. rewrite E1 in Hc. rewrite E2 in Hk.
    rewrite (storage_by_ids id kid c k Hc Hk). split; [|reflexivity]. exists (row_block row), (row_value row).
    split; [|exact Hb]. apply storage_log_in; eauto.
  - intros [(b & x & Hin & Hb) ->]. apply storage_log_in in Hin as (id & kid & Hs & Hc & Hk); [|exact Hw].
    exists (c, k, (id, kid)). rewrite (storage_by_ids id kid c k Hc Hk). split; [reflexivity|].
    apply list_elem_of_In, elem_of_remove_dups, list_elem_of_In, in_map_iff. exists (MkStorageRow b (id, kid) c k x).
    split; [reflexivity|]. apply list_elem_of_In, in_filter. split; [now apply join_storage_in | now apply between_spec].
Qed.

(** *** The updates of the contracts *)

(** The update of a contract gives the values before the range. *)
Record reverses (c : Felt) (u : ContractUpdate) : Prop := {
  rv_class : match class u with
    | Some x => log_at (contract_rows t) to c = Some (class_hash x)
    | None => ~ touched (contract_rows t) from to c
    end;
  rv_nonce n : nonce u = Some n -> log_at (nonce_log t) to c = Some n;
  rv_storage k v : storage u !! k = Some v -> v = default FELT_ZERO (log_at (storage_log t) to (c, k));
  rv_keys k : touched (storage_log t) from to (c, k) <-> is_Some (storage u !! k)
}.

Definition touched_contract (c : Felt) : Prop :=
  touched (contract_rows t) from to c \/ touched (nonce_log t) from to c \/ exists k, touched (storage_log t) from to (c, k).

Lemma reverse_storage_entry c :
  match reverse_storage_updates t from to !! c with
  | None => forall k, ~ touched (storage_log t) from to (c, k)
  | Some l => l <> [] /\ forall k v, (k, v) ∈ l <-> touched (storage_log t) from to (c, k) /\
      v = default FELT_ZERO (log_at (storage_log t) to (c, k))
  end.
Proof.
  unfold reverse_storage_updates. rewrite fold_gather, lookup_empty. cbn [from_option app].
  set (l := map snd (List.filter _ (reverse_storage_rows t from to))).
  assert (Hl : forall k v, (k, v) ∈ l <-> touched (storage_log t) from to (c, k) /\
      v = default FELT_ZERO (log_at (storage_log t) to (c, k))).
  { intros k v. rewrite <- reverse_storage_in. unfold l. rewrite list_elem_of_In, in_map_iff. split.
    - intros ([c' kv] & E & Hin). cbn in E. subst kv. apply list_elem_of_In, in_filter in Hin as [Hin Ec%felt_eqb_eq].
      cbn in Ec. now subst c'.
    - intros Hin. exists (c, (k, v)). split; [reflexivity|]. apply list_elem_of_In, in_filter. split; [exact Hin|].
      now apply felt_eqb_eq. }
  clearbody l. destruct l as [|x l].
  - intros k Hk. pose proof (proj2 (Hl k _) (conj Hk eq_refl)) as Hin. inversion Hin.
  - split; [discriminate | exact Hl].
Qed.

Context {order : HashOrder}.

Lemma iter_map {V} (m : gmap Felt V) : NoDup (iter m).*1 /\ list_to_map (iter m) = m.
Proof.
  assert (Nd : NoDup (iter m).*1) by (rewrite (iter_perm m); apply NoDup_fst_map_to_list).
  split; [exact Nd|]. rewrite (list_to_map_proper (iter m) (map_to_list m)); [apply list_to_map_to_list | exact Nd | apply iter_perm].
Qed.

Lemma lookup_rows {A} (rows : list (Felt * A)) (P : Prop) x c : NoDup rows.*1 ->
  (forall o, (c, o) ∈ rows <-> P /\ o = x) ->
  match (list_to_map rows : gmap Felt A) !! c with Some o => P /\ o = x | None => ~ P end.
Proof.
  intros Nd Hi. destruct (list_to_map rows !! c) as [o|] eqn:E.
  - now apply Hi, elem_of_list_to_map_2.
  - intros Hp. apply not_elem_of_list_to_map in E. apply E, list_elem_of_fmap. exists (c, x). split; [reflexivity | now apply Hi].
Qed.

(** The entry of a contract: its class, then its nonce and its storage. *)
Definition reverse_entry_of (cls nonce : option (option Felt)) (slots : option (list (Felt * Felt)))
    : option ReverseContractUpdate :=
  match cls, nonce, slots with
  | None, None, None => None
  | Some None, _, _ => Some ReverseDeleted
  | _, _, _ => Some (ReverseUpdated (MkContractUpdate (from_option (fun l => insert_all l ∅) ∅ slots)
      (option_map Replace (default None cls)) (default None nonce)))
  end.

Lemma reverse_lookup c : reverse_contract_updates t from to !! c =
  reverse_entry_of ((list_to_map (reverse_class_rows t from to) : gmap Felt (option Felt)) !! c)
    ((list_to_map (reverse_nonce_updates t from to) : gmap Felt (option Felt)) !! c) (reverse_storage_updates t from to !! c).
Proof.
  unfold reverse_contract_updates. cbv zeta. set (m1 := fold_left _ (reverse_class_rows t from to) ∅).
  set (g := fun o => match o with
    | None => ReverseDeleted
    | Some x => ReverseUpdated (set_class (Some (Replace x)) default_update) end).
  pose proof (fold_first g (reverse_class_rows t from to) ∅ c reverse_class_rows_nodup) as E1.
  change (fold_left _ (reverse_class_rows t from to) ∅) with m1 in E1. rewrite lookup_empty in E1.
  set (m2 := fold_left _ (reverse_nonce_updates t from to) m1).
  pose proof (fold_entry (ReverseUpdated default_update) (fun o e => match e with
    | ReverseDeleted => ReverseDeleted
    | ReverseUpdated u => ReverseUpdated (set_nonce o u) end) (reverse_nonce_updates t from to) m1 c reverse_nonce_nodup) as E2.
  change (fold_left _ (reverse_nonce_updates t from to) m1) with m2 in E2.
  destruct (iter_map (reverse_storage_updates t from to)) as [Nd3 Em].
  pose proof (fold_entry (ReverseUpdated default_update) (fun l e => match e with
    | ReverseDeleted => ReverseDeleted
    | ReverseUpdated u => ReverseUpdated (set_storage (insert_all l ∅) u) end) (iter (reverse_storage_updates t from to)) m2 c Nd3) as E3.
  rewrite Em in E3. unfold reverse_entry. rewrite E3, E2, E1.
  destruct (list_to_map (reverse_class_rows t from to) !! c) as [[x|]|], (list_to_map (reverse_nonce_updates t from to) !! c) as [o|],
    (reverse_storage_updates t from to !! c) as [l|]; reflexivity.
Qed.

Lemma reverse_updates_spec c :
  match reverse_contract_updates t from to !! c with
  | None => ~ touched_contract c
  | Some ReverseDeleted => touched (contract_rows t) from to c /\ log_at (contract_rows t) to c = None
  | Some (ReverseUpdated u) => touched_contract c /\ reverses c u
  end.
Proof.
  pose proof (lookup_rows _ _ _ c reverse_class_rows_nodup (fun o => reverse_class_rows_in c o)) as Hc.
  pose proof (lookup_rows _ _ _ c reverse_nonce_nodup (fun o => reverse_nonce_in c o)) as Hn.
  pose proof (reverse_storage_entry c) as Hs. rewrite reverse_lookup.
  set (cls := list_to_map (reverse_class_rows t from to) !! c) in *.
  set (n := list_to_map (reverse_nonce_updates t from to) !! c) in *.
  set (slots := reverse_storage_updates t from to !! c) in *. clearbody cls n slots.
  assert (Rv : cls <> Some None -> reverses c (MkContractUpdate (from_option (fun l => insert_all l ∅) ∅ slots)
      (option_map Replace (default None cls)) (default None n))).
  { intros Nd. split; cbn [class nonce storage].
    - destruct cls as [[x|]|]; [now destruct Hc as [_ <-] | easy | exact Hc].
    - intros x E. destruct n as [o|]; [|discriminate]. cbn in E. subst o. now destruct Hn as [_ <-].
    - intros k v E. destruct slots as [l|]; cbn in E; [|now rewrite lookup_empty in E]. pose proof (insert_all_in l ∅ k) as Hi.
      rewrite E in Hi. destruct Hi as [Hi|[_ Hi]]; [now apply Hs in Hi as [_ ->] | now rewrite lookup_empty in Hi].
    - intros k. destruct slots as [l|]; cbn.
      + pose proof (insert_all_in l ∅ k) as Hi. destruct (insert_all l ∅ !! k) as [v|].
        * split; [eauto|]. intros _. destruct Hi as [Hi|[_ Hi]]; [now apply Hs in Hi as [Hi _] | now rewrite lookup_empty in Hi].
        * split; [|now intros [? ?]]. intros Ht. exfalso. apply (proj1 Hi). apply list_elem_of_fmap.
          eexists (k, _). split; [reflexivity|]. now apply Hs.
      + rewrite lookup_empty. split; [intros Ht; now destruct (Hs k) | now intros [? ?]]. }
  assert (Tc : cls <> None \/ n <> None \/ slots <> None -> touched_contract c).
  { intros [N|[N|N]].
    - left. destruct cls as [o|]; [exact (proj1 Hc) | easy].
    - right; left. destruct n as [o|]; [exact (proj1 Hn) | easy].
    - right; right. destruct slots as [[|[k v] l]|]; [now destruct Hs | | easy]. exists k.
      exact (proj1 (proj1 (proj2 Hs k v) ltac:(now left))). }
  unfold reverse_entry_of.
  destruct cls as [[x|]|], n as [o|], slots as [l|]; try (split; [apply Tc; intuition discriminate | now apply Rv]);
    try (now destruct Hc).
  intros [T|[T|[k T]]]; [now apply Hc | now apply Hn | now apply (Hs k)].
Qed.
End Reverse.
