(* ===== verification/StarknetState.v ===== *)
(** The state of Starknet: a block's state update is applied to the tries of the
    contracts, of all contracts and of the classes
    (merkle-tree/src/starknet_state.rs, contract_state.rs, contract.rs,
    class.rs), and reverted (pathfinder/src/state/sync/revert.rs), as part of a
    block's commit and of a reorg (pathfinder/src/state/sync.rs).

    The libraries below the trie tables, the choice SQLite makes among rows of
    the same block, the constants of the Pedersen hash and the order of hash maps
    are parameters. *)

From Stdlib Require Import ZArith Lia Bool List.
From stdpp Require Import gmap list.
From S2P Require Import Prelude Bytes Felt Pedersen MerkleNode Tree TreeHash TreeRep TreeMap TreeCommit TrieStore.
From S2P Require Import TrieChain RootTables Hashing StateUpdate StateTables.
Local Open Scope Z_scope.
Local Open Scope tree_scope.

(** ** Data *)

Record Tries : Type := MkTries {
  (** [class_commitment_leaves]: block, leaf, compiled class *)
  class_commitment_leaves : list (Z * Felt * Felt);
  contract_state_hashes : StateHashes;
  contract_trie : TrieTable;
  contract_roots : ContractRoots;
  storage_trie : TrieTable;
  storage_roots : Roots;
  class_trie : TrieTable;
  class_roots : Roots
}.

Record StateDb : Type := MkDb {
  headers : Headers;
  tables : Tables;
  tries : Tries
}.

Inductive StateUpdateError : Type :=
| ContractClassHashMissing (contract : Felt)
| TreeFailure (e : TreeError StoreError)
| StoreFailure (e : StoreError)
| TableFailure (e : TableError)
| StateCommitmentMismatch
| ReorgTailMissing.

(** Code that may panic or fail. *)
Abbreviation fallible A := (outcome (result StateUpdateError A)).

Definition from_tree {A} (x : outcome (result (TreeError StoreError) A)) : fallible A :=
  match x with
  | Panic => Panic
  | Ret (Err e) => Ret (Err (TreeFailure e))
  | Ret (Ok a) => Ret (Ok a)
  end.

Definition from_store {A} (x : outcome (result StoreError A)) : fallible A :=
  match x with
  | Panic => Panic
  | Ret (Err e) => Ret (Err (StoreFailure e))
  | Ret (Ok a) => Ret (Ok a)
  end.

Definition infallible {A} (x : outcome A) : fallible A := let! a := x in Ret (Ok a).

(** [BlockNumber::parent] *)
Definition parent (block : Z) : option Z := if block =? 0 then None else Some (block - 1).

Definition HEIGHT : nat := 251.

Section State.
Context (lib : Libraries) (pick : list Felt -> option Felt) (constants : PedersenTables) (mode : TriePruneMode).
Context {order : HashOrder}.

(** ** Leaves *)

(** [contract_state_hash]: one of the rows of the last block. *)
Definition state_hash_at (t : StateHashes) (block : Z) (contract : Felt) : option Felt :=
  match last_hash_block t contract block with
  | None => None
  | Some last => pick (map snd (List.filter (fun row => bool_decide (row.1.2 = contract) && (row.1.1 =? last)) t))
  end.

Definition class_commitment_leaf (rows : list (Z * Felt * Felt)) (block : Z) (casm : Felt) : option Felt :=
  pick (map (fun row => row.1.2) (List.filter (fun row => felt_eqb row.2 casm && (row.1.1 <=? block)) rows)).

(** The implementations of [leaf]: the path is that of a felt. *)
Definition leaf_at (block : option Z) (query : Z -> Felt -> option Felt) (path : bits)
    : outcome (result StoreError (option Felt)) :=
  if Nat.eqb (length path) HEIGHT then
    match block with
    | None => Ret (Ok None)
    | Some block =>
        match from_bits path with
        | Err _ => Ret (Err FeltOverflow)
        | Ok key => Ret (Ok (query block key))
        end
    end
  else Panic.

Definition contract_leaf (db : StateDb) (contract : Felt) (block : option Z) : bits -> outcome (result StoreError (option Felt)) :=
  leaf_at block (fun block key => storage_value (headers db) (tables db) (Number block) contract key).

Definition storage_leaf (db : StateDb) (block : option Z) : bits -> outcome (result StoreError (option Felt)) :=
  leaf_at block (fun block contract => state_hash_at (contract_state_hashes (tries db)) block contract).

Definition class_leaf (db : StateDb) (block : option Z) : bits -> outcome (result StoreError (option Felt)) :=
  leaf_at block (fun block sierra =>
    match casm_hash_at (headers db) (tables db) (Number block) sierra with
    | None => None
    | Some casm => class_commitment_leaf (class_commitment_leaves (tries db)) block casm
    end).

(** ** Trees *)

(** [load] of a tree: without a root it is [empty], and has no block. *)
Definition block_of (root : option TrieStorageIndex) (block : Z) : option Z :=
  match root with Some _ => Some block | None => None end.

(** The root of the parent, none for genesis. *)
Definition parent_root (query : Z -> option TrieStorageIndex) (block : Z) : option TrieStorageIndex :=
  match parent block with Some parent => query parent | None => None end.

Definition contract_store (db : StateDb) (contract : Felt) (block : option Z) : Storage StoreError :=
  table_storage lib (rows (contract_trie (tries db))) (contract_leaf db contract block).

Definition storage_store (db : StateDb) (block : option Z) : Storage StoreError :=
  table_storage lib (rows (storage_trie (tries db))) (storage_leaf db block).

Definition class_store (db : StateDb) (block : option Z) : Storage StoreError :=
  table_storage lib (rows (class_trie (tries db))) (class_leaf db block).

(** [set] of a tree, for an address or a class. *)
Definition tree_set (storage : Storage StoreError) (address value : Felt) (st : state) : fallible state :=
  match Tree.set storage HEIGHT (view_bits address) value st with
  | Panic => Panic
  | Ret (Err e, _) => Ret (Err (TreeFailure e))
  | Ret (Ok _, st) => Ret (Ok st)
  end.

Fixpoint tree_set_all (storage : Storage StoreError) (updates : list (Felt * Felt)) (st : state) : fallible state :=
  match updates with
  | [] => Ret (Ok st)
  | (key, value) :: updates => let+ st := tree_set storage key value st in tree_set_all storage updates st
  end.

(** ** Inserting tries *)

Definition on_contract_trie (table : TrieTable) (roots : ContractRoots) (t : Tries) : Tries :=
  MkTries (class_commitment_leaves t) (contract_state_hashes t) table roots (storage_trie t) (storage_roots t)
    (class_trie t) (class_roots t).

Definition on_state_hashes (hashes : StateHashes) (t : Tries) : Tries :=
  MkTries (class_commitment_leaves t) hashes (contract_trie t) (contract_roots t) (storage_trie t) (storage_roots t)
    (class_trie t) (class_roots t).

Definition on_storage_trie (table : TrieTable) (roots : Roots) (t : Tries) : Tries :=
  MkTries (class_commitment_leaves t) (contract_state_hashes t) (contract_trie t) (contract_roots t) table roots
    (class_trie t) (class_roots t).

Definition on_class_trie (table : TrieTable) (roots : Roots) (t : Tries) : Tries :=
  MkTries (class_commitment_leaves t) (contract_state_hashes t) (contract_trie t) (contract_roots t) (storage_trie t)
    (storage_roots t) table roots.

Definition on_leaves (rows : list (Z * Felt * Felt)) (t : Tries) : Tries :=
  MkTries rows (contract_state_hashes t) (contract_trie t) (contract_roots t) (storage_trie t) (storage_roots t)
    (class_trie t) (class_roots t).

Definition with_tries (f : Tries -> Tries) (db : StateDb) : StateDb := MkDb (headers db) (tables db) (f (tries db)).

(** [insert_contract_trie] and [insert_contract_root] *)
Definition write_contract_trie (block : Z) (contract : Felt) (upd : TrieUpdate) (db : StateDb) : fallible StateDb :=
  let+ (r, table) := from_store (insert_trie lib (insert_fuel upd) mode upd block (contract_trie (tries db))) in
  Ret (Ok (with_tries (on_contract_trie table (insert_contract_root mode block contract r (contract_roots (tries db)))) db)).

(** [insert_storage_trie] and [insert_storage_root] *)
Definition write_storage_trie (block : Z) (upd : TrieUpdate) (db : StateDb) : fallible StateDb :=
  let+ (r, table) := from_store (insert_trie lib (insert_fuel upd) mode upd block (storage_trie (tries db))) in
  Ret (Ok (with_tries (on_storage_trie table (insert_root mode block r (storage_roots (tries db)))) db)).

(** [insert_class_trie] and [insert_class_root] *)
Definition write_class_trie (block : Z) (upd : TrieUpdate) (db : StateDb) : fallible StateDb :=
  let+ (r, table) := from_store (insert_trie lib (insert_fuel upd) mode upd block (class_trie (tries db))) in
  Ret (Ok (with_tries (on_class_trie table (insert_root mode block r (class_roots (tries db)))) db)).

Definition write_state_hash (block : Z) (contract state_hash : Felt) (db : StateDb) : StateDb :=
  with_tries (on_state_hashes (insert_contract_state_hash mode block contract state_hash (contract_state_hashes (tries db)))) db.

Definition write_class_leaf (block : Z) (leaf casm : Felt) (db : StateDb) : StateDb :=
  with_tries (on_leaves (class_commitment_leaves (tries db) ++ [(block, leaf, casm)])) db.

(** ** Updating a contract *)

Record ContractStateUpdateResult : Type := MkResult {
  state_hash : Felt;
  contract_address : Felt;
  did_storage_updates : bool;
  trie_update : TrieUpdate
}.

Definition result_insert (self : ContractStateUpdateResult) (block : Z) (db : StateDb) : fallible StateDb :=
  let+ db :=
    if did_storage_updates self then write_contract_trie block (contract_address self) (trie_update self) db
    else Ret (Ok db) in
  Ret (Ok (write_state_hash block (contract_address self) (state_hash self) db)).

Definition default_update_trie : TrieUpdate := MkTrieUpdate [] [] FELT_ZERO.

Definition read_contract_root (db : StateDb) (block : Z) (contract : Felt) : fallible Felt :=
  match contract_root (contract_trie (tries db)) (contract_roots (tries db)) block contract with
  | Err e => Ret (Err (StoreFailure e))
  | Ok r => Ret (Ok (default FELT_ZERO r))
  end.

(** The root after the storage updates, and the update of the trie. *)
Definition updated_root (contract : Felt) (updates : list (Felt * Felt)) (db : StateDb) (verify_hashes : bool) (block : Z)
    : fallible (Felt * TrieUpdate) :=
  match updates with
  | _ :: _ =>
      let root := parent_root (fun parent => contract_root_index (contract_roots (tries db)) parent contract) block in
      let storage := contract_store db contract (block_of root (block - 1)) in
      let+ st := tree_set_all storage updates (TrieChain.load root verify_hashes no_mem) in
      let+ upd := from_tree (commit storage (PedersenHash constants) HEIGHT st) in
      Ret (Ok (root_commitment upd, upd))
  | [] =>
      let+ current_root := read_contract_root db block contract in
      Ret (Ok (current_root, default_update_trie))
  end.

Definition updated_class (contract : Felt) (new_class_hash : option Felt) (db : StateDb) (block : Z) : fallible Felt :=
  if is_system_contract contract then Ret (Ok FELT_ZERO)
  else
    match new_class_hash with
    | Some cls => Ret (Ok cls)
    | None =>
        match contract_class_hash (headers db) (tables db) (Number block) contract with
        | Some cls => Ret (Ok cls)
        | None => Ret (Err (ContractClassHashMissing contract))
        end
    end.

Definition updated_nonce (contract : Felt) (new_nonce : option Felt) (db : StateDb) (block : Z) : Felt :=
  match new_nonce with
  | Some n => n
  | None => default FELT_ZERO (contract_nonce (headers db) (tables db) contract (Number block))
  end.

Definition update_contract_state (contract : Felt) (updates : list (Felt * Felt)) (new_nonce new_class_hash : option Felt)
    (db : StateDb) (verify_hashes : bool) (block : Z) : fallible ContractStateUpdateResult :=
  let+ (new_root, upd) := updated_root contract updates db verify_hashes block in
  let+ cls := updated_class contract new_class_hash db block in
  let+ hash := infallible (contract_state_hash_of constants cls new_root (updated_nonce contract new_nonce db block)) in
  Ret (Ok (MkResult hash contract (match updates with [] => false | _ => true end) upd)).

(** ** Updating the state *)

(** The updates of the contracts, on a connection that sees what was committed
    before the block. *)
Fixpoint contract_update_results (snapshot : StateDb) (verify_hashes : bool) (block : Z)
    (updates : list (Felt * ContractUpdateRef)) : fallible (list ContractStateUpdateResult) :=
  match updates with
  | [] => Ret (Ok [])
  | (contract, update) :: updates =>
      let+ r := update_contract_state contract (ref_storage update) (ref_nonce update)
        (option_map class_hash (ref_class update)) snapshot verify_hashes block in
      let+ rs := contract_update_results snapshot verify_hashes block updates in
      Ret (Ok (r :: rs))
  end.

(** The loop over the results: the tree of all contracts, with its block, and
    the tables. *)
Fixpoint insert_results (tree_block : option Z) (block : Z) (results : list ContractStateUpdateResult) (st : state)
    (db : StateDb) : fallible (state * StateDb) :=
  match results with
  | [] => Ret (Ok (st, db))
  | r :: results =>
      let+ st := tree_set (storage_store db tree_block) (contract_address r) (state_hash r) st in
      let+ db := result_insert r block db in
      insert_results tree_block block results st db
  end.

Fixpoint update_system_contracts (tree_block : option Z) (verify_hashes : bool) (block : Z)
    (updates : list (Felt * list (Felt * Felt))) (st : state) (db : StateDb) : fallible (state * StateDb) :=
  match updates with
  | [] => Ret (Ok (st, db))
  | (contract, update) :: updates =>
      let+ r := update_contract_state contract update None None db verify_hashes block in
      let+ st := tree_set (storage_store db tree_block) contract (state_hash r) st in
      let+ db := result_insert r block db in
      update_system_contracts tree_block verify_hashes block updates st db
  end.

Fixpoint update_classes (tree_block : option Z) (block : Z) (classes : list (Felt * Felt)) (st : state) (db : StateDb)
    : fallible (state * StateDb) :=
  match classes with
  | [] => Ret (Ok (st, db))
  | (sierra, casm) :: classes =>
      let+ leaf := infallible (class_commitment_leaf_hash casm) in
      let db := write_class_leaf block leaf casm db in
      let+ st := tree_set (class_store db tree_block) sierra leaf st in
      update_classes tree_block block classes st db
  end.

Definition update_starknet_state (snapshot : StateDb) (update : StateUpdateRef) (verify_hashes : bool) (block : Z)
    (db : StateDb) : fallible (Felt * Felt * StateDb) :=
  let root := parent_root (root_index (storage_roots (tries db))) block in
  let tree_block := block_of root (block - 1) in
  let+ results := contract_update_results snapshot verify_hashes block (ref_contracts update) in
  let+ (st, db) := insert_results tree_block block results (TrieChain.load root verify_hashes no_mem) db in
  let+ (st, db) := update_system_contracts tree_block verify_hashes block (ref_systems update) st db in
  let+ upd := from_tree (commit (storage_store db tree_block) (PedersenHash constants) HEIGHT st) in
  let+ db := write_storage_trie block upd db in
  let class_root := parent_root (root_index (class_roots (tries db))) block in
  let class_block := block_of class_root (block - 1) in
  let+ (st, db) := update_classes class_block block (ref_declared update ++ ref_migrated update)
    (TrieChain.load class_root verify_hashes no_mem) db in
  let+ class_upd := from_tree (commit (class_store db class_block) PoseidonHash HEIGHT st) in
  let+ db := write_class_trie block class_upd db in
  Ret (Ok (root_commitment upd, root_commitment class_upd, db)).

(** ** Committing a block *)

(** [l2_update], on the state: the commitment is compared with the expected one,
    which a block of the consensus does not have; then the header and the update
    are stored.  The transactions and the signature are other tables. *)
Definition l2_update (snapshot : StateDb) (update : StateUpdateData) (hash : Felt) (expected : option Felt)
    (version : StarknetVersion) (verify_hashes : bool) (block : Z) (db : StateDb) : fallible StateDb :=
  let+ (storage_commitment, class_commitment, db) := update_starknet_state snapshot (as_ref update) verify_hashes block db in
  let+ commitment := infallible (state_commitment storage_commitment class_commitment version) in
  if match expected with Some e => felt_eqb commitment e | None => true end then
    let headers := <[block := MkHeader hash commitment version]> (headers db) in
    match insert_state_update_data block headers update (tables db) with
    | Err e => Ret (Err (TableFailure e))
    | Ok tables => Ret (Ok (MkDb headers tables (tries db)))
    end
  else Ret (Err StateCommitmentMismatch).

(** ** Reverting a contract *)

Definition reverted_class (contract : Felt) (target_block : Z) (update : ContractUpdate) (db : StateDb) : fallible Felt :=
  match class update with
  | Some c => Ret (Ok (class_hash c))
  | None =>
      if is_system_contract contract then Ret (Ok FELT_ZERO)
      else infallible (unwrap_option (contract_class_hash (headers db) (tables db) (Number target_block) contract))
  end.

Definition reverted_nonce (contract : Felt) (target_block : Z) (update : ContractUpdate) (db : StateDb) : Felt :=
  match nonce update with
  | Some n => n
  | None => default FELT_ZERO (contract_nonce (headers db) (tables db) contract (Number target_block))
  end.

(** The root with the storage of the target, whose trie is written at once. *)
Definition reverted_root (contract : Felt) (head target_block : Z) (update : ContractUpdate) (db : StateDb)
    : fallible (Felt * StateDb) :=
  match iter (storage update) with
  | [] =>
      let+ r := read_contract_root db head contract in
      Ret (Ok (r, db))
  | updates =>
      let root := contract_root_index (contract_roots (tries db)) head contract in
      let storage := contract_store db contract (block_of root head) in
      let+ st := tree_set_all storage updates (TrieChain.load root false no_mem) in
      let+ upd := from_tree (commit storage (PedersenHash constants) HEIGHT st) in
      let+ db := write_contract_trie target_block contract upd db in
      Ret (Ok (root_commitment upd, db))
  end.

Definition revert_contract_state (contract : Felt) (head target_block : Z) (update : ReverseContractUpdate) (db : StateDb)
    : fallible (Felt * StateDb) :=
  match update with
  | ReverseDeleted => Ret (Ok (FELT_ZERO, db))
  | ReverseUpdated update =>
      let+ cls := reverted_class contract target_block update db in
      let n := reverted_nonce contract target_block update db in
      let+ (new_root, db) := reverted_root contract head target_block update db in
      let+ hash :=
        if is_system_contract contract && felt_eqb new_root FELT_ZERO then Ret (Ok FELT_ZERO)
        else infallible (contract_state_hash_of constants cls new_root n) in
      Ret (Ok (hash, db))
  end.

(** ** Reverting the state *)

Fixpoint revert_contracts (tree_block : option Z) (head target_block : Z) (updates : list (Felt * ReverseContractUpdate))
    (st : state) (db : StateDb) : fallible (state * StateDb) :=
  match updates with
  | [] => Ret (Ok (st, db))
  | (contract, update) :: updates =>
      let+ (hash, db) := revert_contract_state contract head target_block update db in
      let db := write_state_hash target_block contract hash db in
      let+ st := tree_set (storage_store db tree_block) contract hash st in
      revert_contracts tree_block head target_block updates st db
  end.

Definition revert_contract_updates (head target_block : Z) (db : StateDb) : fallible (Felt * StateDb) :=
  let updates := iter (reverse_contract_updates (tables db) head target_block) in
  let root := root_index (storage_roots (tries db)) head in
  let tree_block := block_of root head in
  let+ (st, db) := revert_contracts tree_block head target_block updates (TrieChain.load root false no_mem) db in
  let+ upd := from_tree (commit (storage_store db tree_block) (PedersenHash constants) HEIGHT st) in
  let+ db := write_storage_trie target_block upd db in
  Ret (Ok (root_commitment upd, db)).

Fixpoint revert_classes (storage : Storage StoreError) (updates : list (Felt * option Felt)) (st : state) : fallible state :=
  match updates with
  | [] => Ret (Ok st)
  | (cls, casm_update) :: updates =>
      let+ leaf :=
        match casm_update with
        | None => Ret (Ok FELT_ZERO)
        | Some casm => infallible (class_commitment_leaf_hash casm)
        end in
      let+ st := tree_set storage cls leaf st in
      revert_classes storage updates st
  end.

Definition revert_class_updates (head target_block : Z) (db : StateDb) : fallible (Felt * StateDb) :=
  let updates := reverse_sierra_class_updates (tables db) pick head target_block in
  let root := root_index (class_roots (tries db)) head in
  let storage := class_store db (block_of root head) in
  let+ st := revert_classes storage updates (TrieChain.load root false no_mem) in
  let+ upd := from_tree (commit storage PoseidonHash HEIGHT st) in
  let+ db := write_class_trie target_block upd db in
  Ret (Ok (root_commitment upd, db)).

Definition coalesce_trie_removals (target_block : Z) (t : Tries) : Tries :=
  MkTries (class_commitment_leaves t) (contract_state_hashes t)
    (coalesce_removed_trie_nodes target_block (contract_trie t)) (contract_roots t)
    (coalesce_removed_trie_nodes target_block (storage_trie t)) (storage_roots t)
    (coalesce_removed_trie_nodes target_block (class_trie t)) (class_roots t).

Definition revert_starknet_state (head target_block : Z) (target_header : Header) (db : StateDb) : fallible StateDb :=
  let+ (storage_commitment, db) := revert_contract_updates head target_block db in
  let+ (class_commitment, db) := revert_class_updates head target_block db in
  let+ commitment := infallible (state_commitment storage_commitment class_commitment (header_version target_header)) in
  if felt_eqb commitment (header_state_commitment target_header)
  then Ret (Ok (with_tries (coalesce_trie_removals target_block) db))
  else Ret (Err StateCommitmentMismatch).

(** ** Reorg *)

Definition purge_tries (block : Z) (t : Tries) : Tries :=
  let purge_removals table := MkTable (rows table) (List.filter (fun row => negb (row.1 =? block)) (removals table)) in
  MkTries (List.filter (fun row => negb (row.1.1 =? block)) (class_commitment_leaves t))
    (List.filter (fun row => negb (row.1.1 =? block)) (contract_state_hashes t))
    (purge_removals (contract_trie t)) (delete block <$> contract_roots t)
    (purge_removals (storage_trie t)) (delete block (storage_roots t))
    (purge_removals (class_trie t)) (delete block (class_roots t)).

(** [purge_block], on the state *)
Definition purge_state (block : Z) (db : StateDb) : StateDb :=
  MkDb (delete block (headers db)) (purge_tables block (tables db)) (purge_tries block (tries db)).

(** The [while new_head >= reorg_tail] of [l2_reorg]. *)
Fixpoint purge_states (n : nat) (new_head : Z) (db : StateDb) : StateDb :=
  match n with
  | O => db
  | S n => purge_states n (new_head - 1) (purge_state new_head db)
  end.

(** [l2_reorg], on the state *)
Definition reorg_state (reorg_tail : Z) (db : StateDb) : fallible StateDb :=
  match latest_number (headers db) with
  | None => Ret (Err ReorgTailMissing)
  | Some orphan_head =>
      match headers db !! reorg_tail with
      | None => Ret (Err ReorgTailMissing)
      | Some _ =>
          let+ db :=
            match parent reorg_tail with
            | None => Ret (Ok db)
            | Some target_block =>
                match headers db !! target_block with
                | None => Ret (Err ReorgTailMissing)
                | Some target_header => revert_starknet_state orphan_head target_block target_header db
                end
            end in
          Ret (Ok (purge_states (Z.to_nat (orphan_head - reorg_tail + 1)) orphan_head db))
      end
  end.
End State.
