(* ===== verification/StateTries.v ===== *)
(** The trees of the state on the tables of tries: setting felts, reading leaves
    and roots. *)

From Stdlib Require Import ZArith Lia Bool List.
From stdpp Require Import gmap gmultiset list.
From S2P Require Import Prelude Bytes Felt Pedersen MerkleNode Tree TrieSpec TreeHash TreeRep TreeMap.
From S2P Require Import TreeCommit TrieStore TrieInsert TrieChain RootTables TriePrune Forest.
From S2P Require Import CommitmentFacts StateUpdate World StateTables StarknetState.
Local Open Scope Z_scope.

(** ** Fallible code *)

Lemma try_ok {A B E} (a : A) (f : A -> outcome (result E B)) : try (Ret (Ok a)) f = f a.
Proof. reflexivity. Qed.

Lemma infallible_ok {A} (a : A) : infallible (Ret a) = Ret (Ok a).
Proof. reflexivity. Qed.

Lemma from_tree_ok {A} (a : A) : from_tree (Ret (Ok a)) = Ret (Ok a).
Proof. reflexivity. Qed.

Lemma from_store_ok {A} (a : A) : from_store (Ret (Ok a)) = Ret (Ok a).
Proof. reflexivity. Qed.

(** ** Maps of felts *)

(** A map of paths has the values of a function of felts. *)
Definition represents_keys (M : gmap bits Felt) (f : Felt -> option Felt) : Prop :=
  forall p, M !! p = if decide (length p = 251%nat) then at_key f p else None.

Definition paths (kvs : list (Felt * Felt)) : list (bits * Felt) := map (fun kv => (view_bits kv.1, kv.2)) kvs.

Lemma map_set_all_in us : forall M p,
  (exists v, (p, v) ∈ us /\ map_set_all us M !! p = leaf_of_hash (Some v)) \/
  p ∉ us.*1 /\ map_set_all us M !! p = M !! p.
Proof.
  induction us as [|[q w] us IH]; intros M p; [right; split; [intros Hin; inversion Hin | reflexivity]|].
  unfold map_set_all. cbn [fold_left fst snd]. fold (map_set_all us (map_set q w M)).
  destruct (IH (map_set q w M) p) as [(v & Hin & E)|[Hn E]]; [left; exists v; split; [now right | exact E]|].
  rewrite E, map_set_lookup. destruct (decide (p = q)) as [->|N].
  - left. exists w. split; [now left | reflexivity].
  - right. split; [|reflexivity]. now intros [->|Hin]%elem_of_cons.
Qed.

(** Setting keys turns the map of a function into that of another. *)
Lemma set_felts kvs M M' f g : represents_keys M f -> represents_keys M' g ->
  Forall (fun kv => key_ok kv.1) kvs ->
  (forall k v, (k, v) ∈ kvs -> leaf_of_hash (Some v) = leaf_of_hash (g k)) ->
  (forall k, key_ok k -> k ∉ kvs.*1 -> leaf_of_hash (g k) = leaf_of_hash (f k)) ->
  map_set_all (paths kvs) M = M'.
Proof.
  intros Hf Hg Hk Hin Hout. apply map_eq. intros p. rewrite (Hg p).
  assert (Hp : forall v, (p, v) ∈ paths kvs -> exists k, key_ok k /\ p = view_bits k /\ (k, v) ∈ kvs).
  { intros v Hv. unfold paths in Hv. apply list_elem_of_In, in_map_iff in Hv as ([k x] & E & Hv). injection E as <- <-.
    apply list_elem_of_In in Hv. exists k. split; [|now split].
    exact (proj1 (Forall_forall _ _) Hk _ Hv). }
  destruct (map_set_all_in (paths kvs) M p) as [(v & Hv & ->)|[Hn ->]].
  - destruct (Hp v Hv) as (k & Ok & -> & Hkv). rewrite decide_True by now apply key_length.
    rewrite at_key_view by exact Ok. now apply Hin.
  - rewrite (Hf p). destruct (decide (length p = 251%nat)) as [L|L]; [|reflexivity].
    destruct (path_key p L) as (k & Ek & Ev & Ok). unfold at_key. rewrite Ek. symmetry. apply Hout; [exact Ok|].
    intros ([k' v] & -> & Hkv)%list_elem_of_fmap. apply Hn. apply list_elem_of_fmap. exists (p, v). split; [reflexivity|].
    unfold paths. apply list_elem_of_In, in_map_iff. exists (k', v). cbn [fst snd] in *. rewrite Ev.
    split; [reflexivity | now apply list_elem_of_In].
Qed.

Lemma paths_ok kvs : Forall (fun kv => key_ok kv.1 /\ felt_ok kv.2) kvs -> updates_ok HEIGHT (paths kvs).
Proof.
  intros Hk. unfold updates_ok, paths. apply Forall_map. eapply Forall_impl; [exact Hk|].
  intros [k v] [Ok Hv]. cbn in *. split; [now apply key_length | exact Hv].
Qed.

(** ** Leaves *)

Lemma leaf_at_covers root b query M f : represents_keys M f -> (root = None -> M = ∅) ->
  (forall k x, key_ok k -> leaf_of_hash (f k) = Some x -> query b k = Some x) ->
  covers (leaf_at (block_of root b) query) M.
Proof.
  intros Hf Hn Hq p x E. destruct root as [idx|]; [|now rewrite (Hn eq_refl), lookup_empty in E].
  rewrite (Hf p) in E. destruct (decide (length p = 251%nat)) as [L|L]; [|discriminate].
  destruct (path_key p L) as (k & Ek & Ev & Ok). unfold leaf_at, block_of. unfold HEIGHT. rewrite L. cbn [Nat.eqb].
  rewrite Ek. unfold at_key in E. rewrite Ek in E. now rewrite (Hq k x Ok E).
Qed.

(** ** Trees *)

Section Trees.
Context (lib : Libraries).

(** Setting a key reads the nodes of the table only. *)
Lemma set_storage_ext {E} get hash leaf hash' leaf' (height : nat) :
  Tree.set (MkStorage E get hash leaf) height = Tree.set (MkStorage E get hash' leaf') height.
Proof. reflexivity. Qed.

Lemma set_leaf nodes leaf leaf' : Tree.set (table_storage lib nodes leaf) HEIGHT = Tree.set (table_storage lib nodes leaf') HEIGHT.
Proof. unfold table_storage. apply set_storage_ext. Qed.

Lemma tree_set_leaf nodes leaf leaf' k v st :
  tree_set (table_storage lib nodes leaf) k v st = tree_set (table_storage lib nodes leaf') k v st.
Proof. unfold tree_set. now rewrite (set_leaf nodes leaf leaf'). Qed.

Lemma tree_set_all_leaf nodes leaf leaf' kvs : forall st,
  tree_set_all (table_storage lib nodes leaf) kvs st = tree_set_all (table_storage lib nodes leaf') kvs st.
Proof.
  induction kvs as [|[k v] kvs IH]; intros st; [reflexivity|]. cbn [tree_set_all].
  rewrite (tree_set_leaf nodes leaf leaf'). destruct (tree_set _ k v st) as [[st'|]|]; [apply IH | reflexivity..].
Qed.

Lemma tree_set_all_spec storage kvs : forall st, tree_set_all storage kvs st =
  match set_all storage HEIGHT (paths kvs) st with
  | Panic => Panic
  | Ret (Err e, _) => Ret (Err (TreeFailure e))
  | Ret (Ok _, st) => Ret (Ok st)
  end.
Proof.
  induction kvs as [|[k v] kvs IH]; intros st; [reflexivity|]. cbn [tree_set_all paths map set_all fst snd].
  unfold tree_set, bind. destruct (Tree.set storage HEIGHT (view_bits k) v st) as [[[[]|e] st']|]; [|reflexivity..].
  apply IH.
Qed.

Lemma tree_set_all_app storage kvs kvs' : forall st, tree_set_all storage (kvs ++ kvs') st =
  (let+ st := tree_set_all storage kvs st in tree_set_all storage kvs' st).
Proof.
  induction kvs as [|[k v] kvs IH]; intros st; [reflexivity|]. cbn [app tree_set_all].
  destruct (tree_set storage k v st) as [[st'|]|]; [apply IH | reflexivity..].
Qed.

(** The steps of an update of a trie. *)
Lemma update_steps H nodes leaf root verify kvs upd :
  update_trie lib H HEIGHT nodes leaf root verify (paths kvs) no_mem = Ret (Ok upd) ->
  exists st, tree_set_all (table_storage lib nodes leaf) kvs (load root verify no_mem) = Ret (Ok st) /\
    commit (table_storage lib nodes leaf) H HEIGHT st = Ret (Ok upd).
Proof.
  unfold update_trie. cbv zeta. rewrite tree_set_all_spec.
  destruct (set_all _ HEIGHT (paths kvs) (load root verify no_mem)) as [[[[]|e] st]|]; try discriminate. eauto.
Qed.

Context {laws : LibraryLaws lib} (H : Felt -> Felt -> outcome Felt).

Lemma root_hash_spec T roots b M live : version_ok lib H HEIGHT (rows T) (MkVersion (root_index roots b) M live) ->
  exists o, root_hash T roots b = Ok o /\ spec_root H HEIGHT (fun p => M !! p) = Ret (default FELT_ZERO o).
Proof.
  intros V. destruct (update_nothing lib H HEIGHT (rows T) (leaf_of M) _ true no_mem V (leaf_of_covers M)) as (h & _ & Eh).
  cbn [v_map] in Eh. pose proof (ver_shape _ _ _ _ _ V) as Sh. cbn [v_root v_map v_live] in Sh.
  unfold root_hash. destruct (root_index roots b) as [idx|].
  - destruct Sh as (t & h' & Hh & St & W & Hk). exists (Some h'). split.
    + pose proof (hashed_stored_hash _ _ _ _ _ _ Hh) as E. exact E.
    + rewrite (map_root H HEIGHT t M W Hk). apply (hashed_thash _ _ _ _ _ _ _ Hh).
      intros k x Hin. cbn. pose proof (Hk k (has_length _ _ _ W Hin)) as E. rewrite Hin in E. symmetry in E.
      apply bool_decide_eq_true in E as [y E]. unfold leaf_of, map_value. rewrite E. now intros [= ->].
  - destruct Sh as [-> _]. exists None. split; [reflexivity|]. apply spec_root_none. intros. apply lookup_empty.
Qed.
End Trees.

(** * The trees of all contracts and of all classes: one trie in its tables, which
    a block extends and a reorg reverts. *)

(** ** Roots *)

Lemma root_index_empty (roots : Roots) b : (forall j, j <= b -> roots !! j = None) -> root_index roots b = None.
Proof.
  intros Hn. unfold root_index, query_last. rewrite last_block_none; [reflexivity|]. intros j [x Hj].
  destruct (Z.le_gt_cases j b) as [L|L]; [|exact L]. rewrite Hn in Hj by exact L. discriminate.
Qed.

(** The root of the parent is the current one, until the block has a root. *)
Lemma parent_root_current (roots : Roots) head : -1 <= head -> (forall j, is_Some (roots !! j) -> 0 <= j <= head + 1) ->
  roots !! (head + 1) = None -> parent_root (root_index roots) (head + 1) = root_index roots (head + 1).
Proof.
  intros Hh Hr Hn. unfold parent_root, parent. destruct (Z.eqb_spec (head + 1) 0) as [E|E].
  - symmetry. apply root_index_empty. intros j Hj. destruct (roots !! j) as [x|] eqn:Ej; [|reflexivity].
    pose proof (Hr j ltac:(eauto)). assert (j = head + 1) as -> by lia. congruence.
  - replace (head + 1 - 1) with head by lia. symmetry. apply root_index_gap; [lia|]. intros k Hk.
    now replace k with (head + 1) by lia.
Qed.

(** Rows of roots are those before, and that of the block unless nothing changed. *)
Lemma insert_root_some mode blk r (roots : Roots) j : is_Some (insert_root mode blk r roots !! j) ->
  is_Some (roots !! j) \/ j = blk /\ r <> Unchanged.
Proof.
  intros Hj. destruct (roots !! j) as [x|] eqn:E; [left; eauto|]. right.
  destruct (decide (j = blk)) as [->|N]; [|rewrite insert_root_rows in Hj by assumption; now destruct Hj].
  split; [reflexivity|]. intros ->. cbn in Hj. rewrite E in Hj. now destruct Hj.
Qed.

Lemma set_key_unit {A} (f : unit -> A) k x k' : set_key f k x k' = x.
Proof. destruct k, k'. apply set_key_eq. Qed.

Section Held.
Context {mode : TriePruneMode} (lib : Libraries) {laws : LibraryLaws lib} (H : Felt -> Felt -> outcome Felt) {HH : FeltHash H}.
Context {K : Type} `{EqDecision K}.

Lemma held_ext (T : TrieTable) (roots roots' : K -> Roots) (low head : Z) (maps maps' : Z -> K -> gmap bits Felt) : held (mode := mode) lib H HEIGHT T roots low head maps ->
  (forall k, roots' k = roots k) -> (forall b k, b <= head -> maps' b k = maps b k) ->
  held (mode := mode) lib H HEIGHT T roots' low head maps'.
Proof.
  intros [Hl Hh Hr He [live F]] Er Em. split; [exact Hl | exact Hh | | |].
  - intros k j. rewrite Er. apply Hr.
  - intros k b Hb. rewrite Er, Em by lia. now apply He.
  - exists live. apply (forest_ext _ _ _ _ _ _ _ _ _ _ F).
    + intros k b Hb. unfold version_at. rewrite Er, Em by lia. reflexivity.
    + intros k. unfold version_at. now rewrite Er, Em by lia.
Qed.

(** The removals of a reverted table belong to blocks up to the target. *)
Lemma coalesce_blocks target T row : row ∈ removals (coalesce_removed_trie_nodes target T) -> row.1 <= target.
Proof. intros (row0 & _ & _ & [[Hle ->]|[_ ->]])%coalesce_elem; lia. Qed.
End Held.

Section Single.
Context (lib : Libraries) {laws : LibraryLaws lib} (H : Felt -> Felt -> outcome Felt) {HH : FeltHash H}.
Context (mode : TriePruneMode) (mode_ok : valid_mode mode).
Context (T : TrieTable) (roots : Roots) (low head : Z) (maps : Z -> gmap bits Felt).
Context (Hd : held (mode := mode) lib H HEIGHT (K := unit) T (fun _ => roots) low head (fun b _ => maps b)).

Lemma held_covered root : root = root_index roots head -> root = None -> maps head = ∅.
Proof.
  intros -> E. destruct (held_forest _ _ _ _ _ _ _ _ Hd) as [live F]. pose proof (forest_cur _ _ _ _ _ _ _ _ F tt) as V.
  destruct V as [_ _ Sh]. cbn [version_at v_root v_map] in Sh. rewrite E in Sh. exact (proj1 Sh).
Qed.

Lemma parent_root_held : parent_root (root_index roots) (head + 1) = root_index roots head.
Proof.
  pose proof (held_head _ _ _ _ _ _ _ _ Hd). pose proof (held_roots _ _ _ _ _ _ _ _ Hd tt) as Hr. cbv beta in Hr.
  rewrite (parent_root_current roots head); [|assumption | intros j Hj; specialize (Hr j Hj); lia |].
  - apply root_index_gap; [lia|]. intros k Hk. destruct (roots !! k) eqn:E; [|reflexivity]. specialize (Hr k ltac:(eauto)). lia.
  - destruct (roots !! (head + 1)) eqn:E; [|reflexivity]. specialize (Hr (head + 1) ltac:(eauto)). lia.
Qed.

Lemma tree_block leaf verify kvs m' : covers leaf (maps head) -> Forall (fun kv => key_ok kv.1 /\ felt_ok kv.2) kvs ->
  map_set_all (paths kvs) (maps head) = m' -> room T (3 * size m') ->
  exists upd r T',
    update_trie lib H HEIGHT (rows T) leaf (parent_root (root_index roots) (head + 1)) verify (paths kvs) no_mem = Ret (Ok upd) /\
    spec_root H HEIGHT (fun p => m' !! p) = Ret (root_commitment upd) /\
    insert_trie lib (insert_fuel upd) mode upd (head + 1) T = Ret (Ok (r, T')) /\ (kvs = [] -> r = Unchanged) /\
    held (mode := mode) lib H HEIGHT (K := unit) T' (fun _ => insert_root mode (head + 1) r roots) (Z.max low (threshold mode (head + 1)))
      (head + 1) (fun b _ => set_block maps (head + 1) m' b).
Proof.
  intros Cv Hk Em Hroom. destruct (start_block _ _ _ _ _ _ _ _ Hd) as [cl Wr].
  destruct (wr_forest _ _ _ _ _ _ _ _ _ _ _ _ Wr) as (live & lim & past & _ & F).
  destruct (forest_prepare lib H HEIGHT ltac:(unfold HEIGHT; lia) ltac:(unfold HEIGHT; lia) _ _ _ _ _ tt leaf verify
    (paths kvs) no_mem F Cv (paths_ok kvs Hk)) as (upd & R & Eu & P); [intros l [n E]; cbn in E; now rewrite lookup_empty in E|].
  destruct (write_trie lib H HEIGHT mode_ok T _ low _ _ _ _ _ cl tt (paths kvs) upd R 0 Wr P) as (r & T' & lv & Ei & _ & Ez & _ & Wr').
  { cbn beta. now rewrite Em, Nat.add_0_r. }
  { now left. }
  exists upd, r, T'. cbn [v_root] in Eu.
  assert (Er : parent_root (root_index roots) (head + 1) = root_index roots (head + 1)).
  { pose proof (held_head _ _ _ _ _ _ _ _ Hd). pose proof (held_roots _ _ _ _ _ _ _ _ Hd tt) as Hr. cbv beta in Hr.
    apply parent_root_current; [assumption | intros j Hj; specialize (Hr j Hj); lia|].
    destruct (roots !! (head + 1)) eqn:E; [|reflexivity]. specialize (Hr (head + 1) ltac:(eauto)). lia. }
  rewrite Er. split; [exact Eu|]. split.
  { pose proof (prep_root _ _ _ _ _ _ _ _ P) as E. cbn [v_map current] in E. now rewrite Em in E. }
  split; [exact Ei|]. split; [intros ->; now apply Ez|].
  assert (Wr2 : writing (mode := mode) lib H HEIGHT (K := unit) T' (fun _ => insert_root mode (head + 1) r roots)
    (Z.max low (threshold mode (head + 1))) (head + 1) (head + 1) (fun b _ => maps b) (fun _ => head + 1) (fun _ => m') (fun _ => lv)).
  { eapply writing_ext; [exact Wr'|..]; intros k; rewrite set_key_unit; congruence. }
  eapply held_ext; [eapply end_block; exact Wr2 | reflexivity|].
  intros b k _. unfold set_block. now destruct (decide (b = head + 1)).
Qed.

Lemma tree_revert target leaf verify kvs : 0 <= target < head -> covers leaf (maps head) ->
  Forall (fun kv => key_ok kv.1 /\ felt_ok kv.2) kvs -> map_set_all (paths kvs) (maps head) = maps target ->
  room T (3 * size (maps target)) -> (kvs = [] -> mode = Archive /\ low <= target \/ root_index roots head = root_index roots target) ->
  exists upd r T',
    update_trie lib H HEIGHT (rows T) leaf (root_index roots head) verify (paths kvs) no_mem = Ret (Ok upd) /\
    spec_root H HEIGHT (fun p => maps target !! p) = Ret (root_commitment upd) /\
    insert_trie lib (insert_fuel upd) mode upd target T = Ret (Ok (r, T')) /\
    forall roots', (forall j, roots' !! j = if decide (j <= target) then insert_root mode target r roots !! j else None) ->
      held (mode := mode) lib H HEIGHT (K := unit) (coalesce_removed_trie_nodes target T') (fun _ => roots')
        (Z.max low (threshold mode target)) target (fun b _ => maps b).
Proof.
  intros Ht Cv Hk Em Hroom Hgap. destruct (start_revert _ _ _ _ _ _ _ target _ Hd Ht) as [cl Wr].
  destruct (wr_forest _ _ _ _ _ _ _ _ _ _ _ _ Wr) as (live & lim & past & _ & F).
  destruct (forest_prepare lib H HEIGHT ltac:(unfold HEIGHT; lia) ltac:(unfold HEIGHT; lia) _ _ _ _ _ tt leaf verify
    (paths kvs) no_mem F Cv (paths_ok kvs Hk)) as (upd & R & Eu & P); [intros l [n E]; cbn in E; now rewrite lookup_empty in E|].
  assert (Es : spec_root H HEIGHT (fun p => maps target !! p) = Ret (root_commitment upd)).
  { pose proof (prep_root _ _ _ _ _ _ _ _ P) as E. cbn [v_map current] in E. now rewrite Em in E. }
  destruct kvs as [|kv kvs].
  - change (maps head = maps target) in Em.
    destruct (write_nothing lib H HEIGHT T _ low _ _ _ _ _ cl tt upd R Wr P) as (T' & lv & Ei & Wr').
    { cbn beta. now rewrite Em. }
    exists upd, Unchanged, T'. split; [exact Eu|]. split; [exact Es|]. split; [exact Ei|]. intros roots' Hr.
    eapply end_revert; [exact Wr'| |intros k j; apply Hr]. intros k.
    destruct (Hgap eq_refl) as [[Ar Hl]|E].
    + right. right. right. split; [lia|]. split; [exact Ar|]. rewrite Ar. cbn. pose proof (wr_low _ _ _ _ _ _ _ _ _ _ _ _ Wr). lia.
    + right. left. auto.
  - destruct (write_trie lib H HEIGHT mode_ok T _ low _ _ _ _ _ cl tt (paths (kv :: kvs)) upd R 0 Wr P) as (r & T' & lv & Ei & _ & _ & _ & Wr').
    { cbn beta. now rewrite Em, Nat.add_0_r. }
    { right. split; [lia|]. split; [discriminate | exact Em]. }
    exists upd, r, T'. split; [exact Eu|]. split; [exact Es|]. split; [exact Ei|]. intros roots' Hr.
    eapply end_revert; [exact Wr'|..].
    + intros k. left. rewrite !set_key_unit. split; [reflexivity | exact Em].
    + intros k j. rewrite set_key_unit. apply Hr.
Qed.
End Single.
