(* ===== verification/HashRows.v ===== *)
(** The table of the state hashes of contracts as a history: a row holds from its
    block on, rows of the same block agree, and pruning keeps what is read from
    the first kept block on. *)

From Stdlib Require Import ZArith Lia Bool List.
From stdpp Require Import gmap list.
From S2P Require Import Prelude Bytes Felt TrieStore RootTables CommitmentFacts StateReverse StarknetState.
Local Open Scope Z_scope.

(** SQLite returns one of the rows of a query, if there is one. *)
Definition picks (pick : list Felt -> option Felt) : Prop :=
  forall l, match pick l with Some x => x ∈ l | None => l = [] end.

(** The leaves [E] of the contracts, by block. *)
Record hash_inv (hashes : StateHashes) (head : Z) (E : Z -> Felt -> option Felt) (low : Z) : Prop := {
  hi_rows b c h : (b, c, h) ∈ hashes -> 0 <= b <= head /\ leaf_of_hash (Some h) = E b c;
  hi_last n c : low <= n <= head ->
    match last_hash_block hashes c n with
    | Some b => E b c = E n c
    | None => E n c = None
    end
}.

Lemma hash_inv_low hashes head E low low' : hash_inv hashes head E low -> low <= low' -> hash_inv hashes head E low'.
Proof. intros [Hr Hl] L. split; [exact Hr|]. intros n c Hn. apply Hl. lia. Qed.

Lemma hash_inv_ext hashes head E E' low : hash_inv hashes head E low -> (forall b c, 0 <= b <= head -> E' b c = E b c) ->
  0 <= low -> hash_inv hashes head E' low.
Proof.
  intros [Hr Hl] Ee Lo. split.
  - intros b c h Hin. destruct (Hr b c h Hin) as [Hb Eh]. split; [exact Hb|]. now rewrite Ee.
  - intros n c Hn. rewrite (Ee n) by lia. specialize (Hl n c Hn). destruct (last_hash_block hashes c n) as [b|] eqn:Eb; [|exact Hl].
    apply last_hash_block_spec in Eb as [Hin _]. apply hash_rows_in in Hin as (_ & h & Hin).
    destruct (Hr b c h Hin) as [Hb _]. now rewrite Ee.
Qed.

(** The last block of a contract depends on its rows up to the given block. *)
Lemma last_hash_block_ext t t' c n : (forall b, b <= n -> (exists h, (b, c, h) ∈ t) <-> exists h, (b, c, h) ∈ t') ->
  last_hash_block t c n = last_hash_block t' c n.
Proof.
  intros E. assert (Ei : forall b, In b (hash_rows t c n) <-> In b (hash_rows t' c n)).
  { intros b. rewrite !hash_rows_in. split; intros [Hb Hh]; (split; [exact Hb|]); now apply E. }
  destruct (last_hash_block t' c n) as [b|] eqn:El.
  - apply last_hash_block_spec. apply last_hash_block_spec in El as [Hin Hm]. rewrite Ei. split; [exact Hin|].
    intros j Hj. apply Hm. now apply Ei.
  - destruct (last_hash_block t c n) as [b|] eqn:Eb; [|reflexivity]. apply last_hash_block_spec in Eb as [Hin _].
    apply Ei in Hin. unfold last_hash_block in El. destruct (hash_rows t' c n); [destruct Hin | discriminate].
Qed.

Lemma last_hash_block_none t c n : last_hash_block t c n = None <-> forall b h, (b, c, h) ∈ t -> n < b.
Proof.
  split.
  - intros E b h Hin. destruct (Z.le_gt_cases b n) as [L|L]; [|exact L].
    assert (Hr : In b (hash_rows t c n)) by (apply hash_rows_in; eauto).
    unfold last_hash_block in E. destruct (hash_rows t c n); [destruct Hr | discriminate].
  - intros Hn. destruct (last_hash_block t c n) as [b|] eqn:E; [|reflexivity]. apply last_hash_block_spec in E as [Hin _].
    apply hash_rows_in in Hin as (Hb & h & Hin). specialize (Hn b h Hin). lia.
Qed.

(** Inserting adds a row and removes rows that are not read from the first kept
    block on. *)
Lemma insert_hash_rows mode b0 c0 h0 t row : row ∈ insert_contract_state_hash mode b0 c0 h0 t -> row ∈ t \/ row = (b0, c0, h0).
Proof.
  intros Hin. assert (Hr : row ∈ t ++ [(b0, c0, h0)]).
  { unfold insert_contract_state_hash in Hin. destruct mode as [|kept]; [exact Hin|]. cbv zeta in Hin.
    destruct (checked_sub b0 kept); [|exact Hin]. destruct (last_hash_block _ c0 _); [|exact Hin]. now apply in_filter in Hin as [Hin _]. }
  apply elem_of_app in Hr as [Hr|Hr%list_elem_of_singleton]; auto.
Qed.

Lemma insert_hash_last mode b0 c0 h0 t c n : threshold mode b0 <= n ->
  last_hash_block (insert_contract_state_hash mode b0 c0 h0 t) c n = last_hash_block (t ++ [(b0, c0, h0)]) c n.
Proof.
  intros Hn. unfold insert_contract_state_hash. cbv zeta. set (t' := t ++ [(b0, c0, h0)]).
  destruct mode as [|kept]; [reflexivity|]. unfold threshold in Hn. unfold checked_sub. destruct (kept <=? b0); [|reflexivity].
  destruct (last_hash_block t' c0 (b0 - kept)) as [last|] eqn:El; [|reflexivity].
  apply last_hash_block_spec in El as [Hl _]. apply hash_rows_in in Hl as (Hle & hl & Hl).
  set (t2 := List.filter _ t').
  assert (K : forall b h, (b, c, h) ∈ t2 <-> (b, c, h) ∈ t' /\ ~ (c = c0 /\ b < last)).
  { intros b h. unfold t2. rewrite in_filter. cbn. apply and_iff_compat_l.
    destruct (bool_decide (c = c0)) eqn:Ec, (Z.ltb_spec b last); cbn;
      try apply bool_decide_eq_true in Ec; try apply bool_decide_eq_false in Ec; intuition (try discriminate; try lia). }
  destruct (decide (c = c0)) as [->|N].
  - destruct (last_hash_block t' c0 n) as [m|] eqn:Em.
    + apply last_hash_block_spec in Em as [Hm Hmax]. apply hash_rows_in in Hm as (Hmn & hm & Hm).
      assert (last <= m) by (apply Hmax, hash_rows_in; split; [lia | eauto]). apply last_hash_block_spec. split.
      * apply hash_rows_in. split; [exact Hmn|]. exists hm. apply K. split; [exact Hm | lia].
      * intros j Hj. apply hash_rows_in in Hj as (Hjn & hj & Hj). apply K in Hj as [Hj _]. apply Hmax, hash_rows_in. eauto.
    + apply last_hash_block_none. intros b h Hb. apply K in Hb as [Hb _].
      exact (proj1 (last_hash_block_none t' c0 n) Em b h Hb).
  - apply last_hash_block_ext. intros b _. setoid_rewrite K. split; intros [h Hb]; exists h; tauto.
Qed.

Lemma last_hash_block_app b0 c0 h0 t c n : last_hash_block (t ++ [(b0, c0, h0)]) c n =
  if decide (c = c0 /\ b0 <= n) then
    Some (match last_hash_block t c n with Some b => Z.max b b0 | None => b0 end)
  else last_hash_block t c n.
Proof.
  destruct (decide (c = c0 /\ b0 <= n)) as [[-> Hn]|N].
  - apply last_hash_block_spec.
    assert (R : forall j, In j (hash_rows (t ++ [(b0, c0, h0)]) c0 n) <-> j = b0 \/ In j (hash_rows t c0 n)).
    { intros j. rewrite !hash_rows_in. setoid_rewrite elem_of_app. setoid_rewrite list_elem_of_singleton. split.
      - intros (Hj & h & [Hin|[= -> ->]]); [right; eauto | now left].
      - intros [->|(Hj & h & Hin)]; [split; [exact Hn|]; exists h0; now right | split; [exact Hj|]; exists h; now left]. }
    setoid_rewrite R. destruct (last_hash_block t c0 n) as [b|] eqn:E.
    + apply last_hash_block_spec in E as [Hb Hm]. split.
      * destruct (Z.max_spec b b0) as [[_ ->]|[_ ->]]; auto.
      * intros j [->|Hj]; [lia|]. specialize (Hm j Hj). lia.
    + split; [now left|]. intros j [->|Hj]; [lia|]. apply hash_rows_in in Hj as (Hj & h & Hin).
      pose proof (proj1 (last_hash_block_none t c0 n) E j h Hin). lia.
  - apply last_hash_block_ext. intros b Hb. setoid_rewrite elem_of_app. setoid_rewrite list_elem_of_singleton.
    split; [|intros [h Hh]; exists h; now left]. intros [h [Hh|[= -> -> ->]]]; [eauto|]. now destruct N.
Qed.

(** A row that agrees with the history. *)
Lemma hash_insert mode b0 c0 h0 t head E low : hash_inv t head E low -> 0 <= b0 <= head -> low <= b0 ->
  leaf_of_hash (Some h0) = E b0 c0 ->
  hash_inv (insert_contract_state_hash mode b0 c0 h0 t) head E (Z.max low (threshold mode b0)).
Proof.
  intros [Hr Hl] Hb Hlow Eh. split.
  - intros b c h [Hin|[= -> -> ->]]%insert_hash_rows; [now apply Hr | auto].
  - intros n c Hn. rewrite insert_hash_last, last_hash_block_app by lia. pose proof (Hl n c ltac:(lia)) as Ln.
    destruct (decide (c = c0 /\ b0 <= n)) as [[-> Hle]|N]; [|exact Ln].
    pose proof (Hl b0 c0 ltac:(lia)) as L0. destruct (last_hash_block t c0 n) as [b|] eqn:En.
    + destruct (Z.max_spec b b0) as [[Hlt ->]|[_ ->]]; [|exact Ln]. rewrite <- Ln.
      assert (E0 : last_hash_block t c0 b0 = Some b).
      { apply last_hash_block_spec in En as [Hin Hm]. apply hash_rows_in in Hin as (_ & h & Hin). apply last_hash_block_spec.
        split; [apply hash_rows_in; split; [lia | eauto]|]. intros j Hj. apply hash_rows_in in Hj as (Hj & h' & Hj').
        apply Hm, hash_rows_in. split; [lia | eauto]. }
      rewrite E0 in L0. now symmetry.
    + rewrite Ln. assert (E0 : last_hash_block t c0 b0 = None).
      { apply last_hash_block_none. intros b h Hin. pose proof (proj1 (last_hash_block_none t c0 n) En b h Hin). lia. }
      now rewrite E0 in L0.
Qed.

(** A new block starts with the leaves of the one before. *)
Lemma hash_start t head E E' low : hash_inv t head E low -> (forall b c, b <= head -> E' b c = E b c) ->
  (forall c, E' (head + 1) c = E head c) -> 0 <= low -> (head = -1 -> forall c, E head c = None) ->
  low <= Z.max head 0 -> hash_inv t (head + 1) E' low.
Proof.
  intros [Hr Hl] Ee En Lo Hg Hlow. split.
  - intros b c h Hin. destruct (Hr b c h Hin) as [Hb Eh]. split; [lia|]. now rewrite Ee by lia.
  - intros n c Hn. assert (Rb : forall b h, (b, c, h) ∈ t -> 0 <= b <= head) by (intros b h Hin; now apply (Hr b c h)).
    destruct (decide (n = head + 1)) as [->|N].
    + rewrite En. destruct (Z.le_gt_cases 0 head) as [H0|H0].
      * assert (El : last_hash_block t c (head + 1) = last_hash_block t c head).
        { destruct (last_hash_block t c head) as [b|] eqn:Eb.
          - apply last_hash_block_spec in Eb as [Hin Hm]. apply hash_rows_in in Hin as (Hbh & h & Hin). apply last_hash_block_spec.
            split; [apply hash_rows_in; split; [lia | eauto]|]. intros j Hj. apply hash_rows_in in Hj as (_ & h' & Hj).
            apply Hm, hash_rows_in. split; [now apply (Rb j h') | eauto].
          - apply last_hash_block_none. intros b h Hin. pose proof (proj1 (last_hash_block_none t c head) Eb b h Hin).
            specialize (Rb b h Hin). lia. }
        rewrite El. specialize (Hl head c ltac:(lia)). destruct (last_hash_block t c head) as [b|] eqn:Eb; [|exact Hl].
        apply last_hash_block_spec in Eb as [Hin _]. apply hash_rows_in in Hin as (Hbh & _). now rewrite Ee by lia.
      * assert (En' : last_hash_block t c (head + 1) = None).
        { apply last_hash_block_none. intros b h Hin. specialize (Rb b h Hin). lia. }
        rewrite En'. apply Hg. lia.
    + rewrite Ee by lia. specialize (Hl n c ltac:(lia)). destruct (last_hash_block t c n) as [b|] eqn:Eb; [|exact Hl].
      apply last_hash_block_spec in Eb as [Hin _]. apply hash_rows_in in Hin as (Hb & _). now rewrite Ee by lia.
Qed.

(** A row of the last block, for a contract that has none there. *)
Lemma hash_insert_new mode head c0 h0 t E E' low : hash_inv t head E low -> 0 <= head -> low <= head -> 0 <= low ->
  (forall h, (head, c0, h) ∉ t) -> leaf_of_hash (Some h0) = E' head c0 ->
  (forall b c, b <> head \/ c <> c0 -> E' b c = E b c) ->
  hash_inv (insert_contract_state_hash mode head c0 h0 t) head E' (Z.max low (threshold mode head)).
Proof.
  intros [Hr Hl] Hh Hlow Lo Hn Eh Ee. split.
  - intros b c h [Hin|[= -> -> ->]]%insert_hash_rows; [|split; [lia | exact Eh]].
    destruct (Hr b c h Hin) as [Hb E1]. split; [exact Hb|]. rewrite Ee; [exact E1|].
    destruct (decide (b = head)) as [->|]; [right; intros -> | now left]. exact (Hn h Hin).
  - intros n c Hnn. rewrite insert_hash_last, last_hash_block_app by lia.
    destruct (decide (c = c0 /\ head <= n)) as [[-> Hle]|N].
    + assert (n = head) as -> by lia. destruct (last_hash_block t c0 head) as [b|] eqn:En; [|reflexivity].
      apply last_hash_block_spec in En as [Hin _]. apply hash_rows_in in Hin as (Hb & _). now rewrite Z.max_r by lia.
    + assert (Hc : c <> c0 \/ n < head).
      { destruct (decide (c = c0)) as [->|]; [right | now left]. destruct (Z.le_gt_cases head n); [now destruct N | assumption]. }
      assert (En : E' n c = E n c) by (apply Ee; destruct Hc; [now right | left; lia]).
      rewrite En. specialize (Hl n c ltac:(lia)). destruct (last_hash_block t c n) as [b|] eqn:Eb; [|exact Hl].
      rewrite Ee; [exact Hl|]. apply last_hash_block_spec in Eb as [Hin _]. apply hash_rows_in in Hin as (Hb & _).
      destruct Hc; [now right | left; lia].
Qed.

(** Purging the blocks after a target. *)
Lemma hash_purge t t' head target E low : hash_inv t head E low -> target <= head ->
  (forall b c h, (b, c, h) ∈ t' <-> (b, c, h) ∈ t /\ b <= target) -> hash_inv t' target E low.
Proof.
  intros [Hr Hl] Ht K. split.
  - intros b c h [Hin Hb]%K. destruct (Hr b c h Hin). split; [lia | assumption].
  - intros n c Hn. rewrite (last_hash_block_ext t' t c n); [apply Hl; lia|]. intros b Hb. setoid_rewrite K.
    split; intros [h Hh]; exists h; [tauto | split; [exact Hh | lia]].
Qed.

(** *** Reading *)

Lemma state_hash_at_spec pick hashes head E low n c x : picks pick -> hash_inv hashes head E low -> low <= n <= head ->
  E n c = Some x -> (forall h, leaf_of_hash (Some h) = Some x -> h = x) -> state_hash_at pick hashes n c = Some x.
Proof.
  intros Hp Hi Hn Ex Hx0. pose proof (hi_last _ _ _ _ Hi n c Hn) as Hl. unfold state_hash_at.
  destruct (last_hash_block hashes c n) as [b|] eqn:Eb; [|congruence].
  set (l := map snd _). assert (Hx : forall h, h ∈ l -> (b, c, h) ∈ hashes).
  { intros h Hh. unfold l in Hh. apply list_elem_of_In, in_map_iff in Hh as ([[b' c'] h'] & <- & Hin).
    apply list_elem_of_In, in_filter in Hin as [Hin Hb]. cbn in Hb. apply andb_true_iff in Hb as [Hc Hb].
    apply bool_decide_eq_true in Hc as ->. apply Z.eqb_eq in Hb as ->. exact Hin. }
  specialize (Hp l). destruct (pick l) as [h|].
  - pose proof (proj2 (hi_rows _ _ _ _ Hi b c h (Hx h Hp))) as Eh. rewrite Hl, Ex in Eh. now rewrite (Hx0 h Eh).
  - exfalso. apply last_hash_block_spec in Eb as [Hin _]. apply hash_rows_in in Hin as (_ & h & Hin).
    assert (Hl' : h ∈ l).
    { unfold l. apply list_elem_of_In, in_map_iff. exists (b, c, h). split; [reflexivity|].
      apply list_elem_of_In, in_filter. split; [exact Hin|]. cbn.
      now rewrite bool_decide_eq_true_2, Z.eqb_refl by reflexivity. }
    rewrite Hp in Hl'. inversion Hl'.
Qed.
