(* ===== verification/StateInv.v ===== *)
(** The invariant of the database of the state: the tables and the tries hold the
    states of all blocks up to the head, the tries from some block on. *)

From Stdlib Require Import ZArith Lia Bool List.
From stdpp Require Import gmap list.
From S2P Require Import Prelude Bytes Felt Pedersen Poseidon MerkleNode Tree TrieSpec TreeHash TreeMap TreeCommit.
From S2P Require Import TrieStore TrieChain RootTables TriePrune Forest CommitmentFacts Hashing.
From S2P Require Import StateUpdate World StateTables StateLogs StateReverse StarknetState StateTries HashRows.
Local Open Scope Z_scope.

(** The leaf of a contract in the tree of all contracts. *)
Definition entry_leaf (constants : PedersenTables) (w : World) (c : Felt) : option Felt :=
  leaf_of_hash (contract_entry constants w c).

(** A contract is changed by a block. *)
Abbreviation touched_at t j c := (touched_contract t j (j - 1) c).

(** The tables hold the states of the blocks up to the head.  For the compiled
    classes there may be more rows, of classes or blocks that a reorg leaves
    behind; every class of a state is found, and a block that changes a class
    has a row. *)
Record table_inv (t : Tables) (head : Z) (W : Z -> World) : Prop := {
  ti_wf : wf_tables t;
  ti_storage : tracks (storage_log t) head (fun n => w_storage (W n));
  ti_nonce : tracks (nonce_log t) head (fun n => w_nonce (W n));
  ti_class : tracks (contract_rows t) head (fun n => w_class (W n));
  ti_casm_rows b s v : (b, s, v) ∈ casm_log t -> 0 <= b /\ key_ok s;
  ti_casm_unique : log_unique (casm_log t);
  ti_casm n s v : n <= head -> w_casm (W n) !! s = Some v -> log_at (casm_log t) n s = Some v;
  ti_changed n s : n <= head -> w_casm (W n) !! s <> w_casm (W (n - 1)) !! s -> exists v, (n, s, v) ∈ casm_log t;
  ti_known b s v : (b, s, v) ∈ casm_log t -> is_Some (class_definitions t !! s)
}.

Section Inv.
Context (constants : PedersenTables).

Abbreviation contract_entry := (contract_entry constants).
Abbreviation entry_leaf := (entry_leaf constants).

(** The leaves of the class tree. *)
Record leaf_inv (leaves : list (Z * Felt * Felt)) (head : Z) (W : Z -> World) : Prop := {
  li_rows b leaf casm : (b, leaf, casm) ∈ leaves -> class_commitment_leaf_hash casm = Ret leaf;
  li_known n s casm : n <= head -> w_casm (W n) !! s = Some casm -> exists b' leaf, b' <= n /\ (b', leaf, casm) ∈ leaves
}.

(** Every block has a header, with the commitment of its state. *)
Definition header_inv (headers : Headers) (head : Z) (W : Z -> World) : Prop :=
  forall n, match headers !! n with
  | Some h => 0 <= n <= head /\ state_commitment_of constants (W n) (header_version h) = Ret (header_state_commitment h)
  | None => ~ 0 <= n <= head
  end.

(** Roots after [floor] were written by blocks, those up to it possibly by a
    revert. *)
Record floor_inv (tr : Tries) (t : Tables) (floor : Z) : Prop := {
  fi_contract c j : is_Some (contract_roots_of (contract_roots tr) c !! j) -> floor < j ->
    exists k, touched (storage_log t) j (j - 1) (c, k);
  fi_storage j : is_Some (storage_roots tr !! j) -> floor < j -> exists c, touched_at t j c;
  fi_class j : is_Some (class_roots tr !! j) -> floor < j -> exists s, touched (casm_log t) j (j - 1) s
}.

Context {mode : TriePruneMode} (lib : Libraries).

(** The tries of the blocks that are kept. *)
Record trie_inv (tr : Tries) (head : Z) (W : Z -> World) (low : Z) : Prop := {
  tv_contract : held (mode := mode) lib (PedersenHash constants) HEIGHT (contract_trie tr) (contract_roots_of (contract_roots tr)) low head
    (fun b c => slot_map (W b) c);
  tv_storage : held (mode := mode) lib (PedersenHash constants) HEIGHT (K := unit) (storage_trie tr) (fun _ => storage_roots tr) low head
    (fun b _ => contract_map constants (W b));
  tv_class : held (mode := mode) lib PoseidonHash HEIGHT (K := unit) (class_trie tr) (fun _ => class_roots tr) low head
    (fun b _ => class_map (W b))
}.

Record state_inv (db : StateDb) (head : Z) (W : Z -> World) (low floor : Z) : Prop := {
  si_world n : n <= head -> world_ok (W n);
  si_headers : header_inv (headers db) head W;
  si_tables : table_inv (tables db) head W;
  si_leaves : leaf_inv (class_commitment_leaves (tries db)) head W;
  si_hashes : hash_inv (contract_state_hashes (tries db)) head (fun b => entry_leaf (W b)) low;
  si_low : 0 <= low <= Z.max head 0;
  si_tries : trie_inv (tries db) head W low;
  si_floor : floor_inv (tries db) (tables db) floor
}.

(** ** Reading *)

(** After the head nothing changes. *)
Lemma tracks_after {K V} `{Countable K} (l : list (Z * K * V)) head hist n k : tracks l head hist -> head <= n ->
  log_at l n k = hist head !! k.
Proof.
  intros T Hn. rewrite <- (tr_at _ _ _ T head k) by lia. apply log_at_gap; [exact (tr_unique _ _ _ T) | exact Hn|].
  intros j v Hin Hj. pose proof (tr_rows _ _ _ T j k v Hin). lia.
Qed.

(** A class without a row in a range of blocks does not change there. *)
Lemma casm_untouched t head W a s : table_inv t head W -> forall n, a <= n <= head ->
  (forall j v, (j, s, v) ∈ casm_log t -> a < j <= n -> False) -> w_casm (W n) !! s = w_casm (W a) !! s.
Proof.
  intros Ti n Hn. replace n with (a + Z.of_nat (Z.to_nat (n - a))) in * by lia. generalize (Z.to_nat (n - a)) as i, Hn.
  clear n Hn. induction i as [|i IH]; intros Hn N; [now replace (a + Z.of_nat 0) with a by lia|].
  rewrite <- IH; [|lia | intros j v Hin Hj; apply (N j v Hin); lia].
  destruct (decide (w_casm (W (a + Z.of_nat (S i))) !! s = w_casm (W (a + Z.of_nat i)) !! s)) as [E|E]; [exact E|].
  destruct (ti_changed _ _ _ Ti (a + Z.of_nat (S i)) s) as [v Hin]; [lia | | exfalso; apply (N _ v Hin); lia].
  now replace (a + Z.of_nat (S i) - 1) with (a + Z.of_nat i) by lia.
Qed.

(** No reorg has left rows of compiled classes behind. *)
Definition fresh (t : Tables) (head : Z) (W : Z -> World) : Prop :=
  forall b s v, (b, s, v) ∈ casm_log t -> b <= head /\ w_casm (W b) !! s = Some v.

(** A class that has a row is in the states of its block and of all later ones. *)
Lemma fresh_stays t head W b s v : table_inv t head W -> fresh t head W -> (b, s, v) ∈ casm_log t -> forall n, b <= n <= head ->
  is_Some (w_casm (W n) !! s).
Proof.
  intros Ti Fr Hin n Hn. replace n with (b + Z.of_nat (Z.to_nat (n - b))) in * by lia. generalize (Z.to_nat (n - b)) as i, Hn.
  clear n Hn. induction i as [|i IH]; intros Hn.
  - replace (b + Z.of_nat 0) with b by lia. exists v. apply (Fr b s v Hin).
  - destruct (w_casm (W (b + Z.of_nat (S i))) !! s) as [x|] eqn:E; [eauto|]. exfalso.
    destruct (ti_changed _ _ _ Ti (b + Z.of_nat (S i)) s) as [v' Hin']; [lia | |].
    + replace (b + Z.of_nat (S i) - 1) with (b + Z.of_nat i) by lia. rewrite E. intros E'.
      destruct (IH ltac:(lia)) as [y Y]. congruence.
    + pose proof (proj2 (Fr _ s v' Hin')). congruence.
Qed.

(** Without such rows the compiled classes are those of the states. *)
Lemma fresh_at t head W n s : table_inv t head W -> fresh t head W -> n <= head -> log_at (casm_log t) n s = w_casm (W n) !! s.
Proof.
  intros Ti Fr Hn. destruct (w_casm (W n) !! s) as [v|] eqn:E; [now apply (ti_casm _ _ _ Ti)|].
  apply log_at_none. intros b v Hin. destruct (Z.le_gt_cases b n) as [L|L]; [|exact L]. exfalso.
  destruct (fresh_stays t head W b s v Ti Fr Hin n ltac:(lia)) as [x X]. congruence.
Qed.

(** Before the first block the state is empty. *)
Lemma tracks_before {K V} `{Countable K} (l : list (Z * K * V)) head hist n : tracks l head hist -> n < 0 -> n <= head ->
  hist n = ∅.
Proof.
  intros T Hn Hh. apply map_eq. intros k. rewrite lookup_empty, <- (tr_at _ _ _ T n k) by lia.
  apply log_at_none. intros b v Hin. pose proof (tr_rows _ _ _ T b k v Hin). lia.
Qed.

Lemma empty_before t head W n : table_inv t head W -> n < 0 -> n <= head -> W n = empty_world.
Proof.
  intros Ti Hn Hh. pose proof (tracks_before _ _ _ n (ti_storage _ _ _ Ti) Hn Hh) as E1.
  pose proof (tracks_before _ _ _ n (ti_nonce _ _ _ Ti) Hn Hh) as E2.
  pose proof (tracks_before _ _ _ n (ti_class _ _ _ Ti) Hn Hh) as E3.
  assert (E4 : w_casm (W n) = ∅).
  { apply map_eq. intros s. rewrite lookup_empty. destruct (w_casm (W n) !! s) as [v|] eqn:E; [|reflexivity]. exfalso.
    apply (ti_casm _ _ _ Ti n s v Hh) in E. apply log_at_some in E as (b & Hb & Hin & _); [|exact (ti_casm_unique _ _ _ Ti)].
    pose proof (proj1 (ti_casm_rows _ _ _ Ti b s v Hin)). lia. }
  cbv beta in E1, E2, E3, E4. destruct (W n) as [s nn cc k]. cbn [w_storage w_nonce w_class w_casm] in *. now subst.
Qed.

Lemma entry_leaf_empty c : entry_leaf empty_world c = None.
Proof.
  unfold StateInv.entry_leaf, World.contract_entry. destruct (in_state empty_world c) eqn:Ei; [|reflexivity].
  apply in_state_spec in Ei as [[x Ei]|(_ & k & v & Ei)]; unfold empty_world in Ei;
    cbn [w_storage w_class] in Ei; rewrite lookup_empty in Ei; discriminate.
Qed.

(** The empty state has no leaves. *)
Lemma empty_slots c : slot_map empty_world c = ∅.
Proof.
  apply map_eq. intros p. rewrite slot_map_lookup, lookup_empty by exact empty_world_ok.
  destruct (decide _); [|reflexivity]. unfold at_key. now destruct (from_bits p).
Qed.

Lemma empty_contracts : contract_map constants empty_world = ∅.
Proof.
  apply map_eq. intros p. rewrite contract_map_lookup, lookup_empty by exact empty_world_ok.
  destruct (decide _); [|reflexivity]. unfold at_key. destruct (from_bits p) as [k|]; [|reflexivity]. exact (entry_leaf_empty k).
Qed.

Lemma empty_classes : class_map empty_world = ∅.
Proof.
  apply map_eq. intros p. rewrite class_map_lookup, lookup_empty by exact empty_world_ok.
  destruct (decide _); [|reflexivity]. unfold at_key. now destruct (from_bits p).
Qed.

(** *** Leaves *)

Context (pick : list Felt -> option Felt) (Hp : picks pick).

Lemma class_leaf_spec leaves t head W n s x : leaf_inv leaves head W -> table_inv t head W -> n <= head ->
  class_entry (W n) s = Some x ->
  exists casm, log_at (casm_log t) n s = Some casm /\ class_commitment_leaf pick leaves n casm = Some x.
Proof.
  intros Li Ti Hn E. unfold class_entry in E. destruct (w_casm (W n) !! s) as [casm|] eqn:Ec; [|discriminate].
  exists casm. split; [exact (ti_casm _ _ _ Ti n s casm Hn Ec)|]. unfold class_commitment_leaf. set (l := map _ _).
  assert (Hx : forall h, h ∈ l <-> exists b, b <= n /\ (b, h, casm) ∈ leaves).
  { intros h. unfold l. rewrite list_elem_of_In, in_map_iff. split.
    - intros ([[b h'] c] & <- & Hin). apply list_elem_of_In, in_filter in Hin as [Hin Hb]. cbn in Hb.
      apply andb_true_iff in Hb as [Hc%felt_eqb_eq Hb%Z.leb_le]. cbn. subst c. eauto.
    - intros (b & Hb & Hin). exists (b, h, casm). split; [reflexivity|]. apply list_elem_of_In, in_filter. split; [exact Hin|].
      cbn. now rewrite (proj2 (felt_eqb_eq casm casm) eq_refl), (proj2 (Z.leb_le b n) Hb). }
  specialize (Hp l). destruct (pick l) as [h|].
  - apply Hx in Hp as (b & _ & Hin). rewrite (li_rows _ _ _ Li b h casm Hin) in E. exact E.
  - exfalso. destruct (li_known _ _ _ Li n s casm Hn Ec) as (b' & h & Hb' & Hh).
    assert (Hl : h ∈ l) by (apply Hx; exists b'; split; [lia | exact Hh]). rewrite Hp in Hl. inversion Hl.
Qed.

Lemma slot_represents w c : world_ok w -> represents_keys (slot_map w c) (slot w c).
Proof. intros Hw p. now apply slot_map_lookup. Qed.

Lemma contract_represents w : world_ok w -> represents_keys (contract_map constants w) (contract_entry w).
Proof. intros Hw p. now apply contract_map_lookup. Qed.

Lemma class_represents w : world_ok w -> represents_keys (class_map w) (class_entry w).
Proof. intros Hw p. now apply class_map_lookup. Qed.

Lemma contract_covers db t head W c root : tables db = t -> table_inv t head W -> world_ok (W head) ->
  (root = None -> slot_map (W head) c = ∅) -> covers (contract_leaf db c (block_of root head)) (slot_map (W head) c).
Proof.
  intros Et Ti Hw Hr. apply (leaf_at_covers _ _ _ _ (slot (W head) c) (slot_represents _ c Hw) Hr).
  intros k x _ [E _]%leaf_of_hash_some. rewrite Et, storage_value_log, (tr_at _ _ _ (ti_storage _ _ _ Ti)) by lia. exact E.
Qed.

Lemma storage_covers db top E head w low root : hash_inv (contract_state_hashes (tries db)) top E low ->
  low <= head <= top \/ root = None -> (forall c, E head c = entry_leaf w c) -> world_ok w ->
  (root = None -> contract_map constants w = ∅) ->
  covers (storage_leaf pick db (block_of root head)) (contract_map constants w).
Proof.
  intros Hi Hl Ee Hw Hr. destruct Hl as [Hl|Hn]; [|rewrite (Hr Hn); intros p x E0; now rewrite lookup_empty in E0].
  apply (leaf_at_covers _ _ _ _ (contract_entry w) (contract_represents _ Hw) Hr).
  intros k x _ Ex. apply (state_hash_at_spec pick _ top E low head k x Hp Hi Hl); [now rewrite Ee|].
  now intros h [[= ->] _]%leaf_of_hash_some.
Qed.

Lemma class_covers db head W root : leaf_inv (class_commitment_leaves (tries db)) head W ->
  table_inv (tables db) head W -> world_ok (W head) -> (root = None -> class_map (W head) = ∅) ->
  covers (class_leaf pick db (block_of root head)) (class_map (W head)).
Proof.
  intros Li Ti Hw Hr. apply (leaf_at_covers _ _ _ _ (class_entry (W head)) (class_represents _ Hw) Hr).
  intros s x _ [E _]%leaf_of_hash_some.
  destruct (class_leaf_spec _ _ head W head s x Li Ti ltac:(lia) E) as (casm & Ec & El).
  now rewrite casm_hash_log, Ec.
Qed.
End Inv.
