(* ===== verification/StateApply.v ===== *)
(** State updates that follow a state: what they make of it, and that the new
    state is well-formed. *)

From Stdlib Require Import ZArith Lia Bool List.
From stdpp Require Import gmap gmultiset list.
From S2P Require Import Prelude Bytes Felt Poseidon Pedersen MerkleNode Tree TrieSpec TreeHash TreeRep.
From S2P Require Import TreeMap TreeCommit TrieStore TrieChain RootTables TriePrune Forest Hashing.
From S2P Require Import CommitmentFacts StateUpdate World StateTables StateLogs StateReverse StarknetState StateTries.
From S2P Require Import StateInv.
(** An update is not empty. *)
Definition changes (u : ContractUpdate) : Prop := is_Some (class u) \/ is_Some (nonce u) \/ storage u <> ∅.

(** Updates that follow a state: a contract is deployed before anything else,
    every update changes something, only the two system contracts have updates
    without a class, the values are felts and the keys have 251 bits, a class that
    is migrated is one of the state and not declared by the same update. *)
Record update_ok (d : StateUpdateData) (w : World) : Prop := {
  uo_contract c u : contract_updates d !! c = Some u ->
    key_ok c /\ is_system_contract c = false /\ (is_Some (class u) \/ is_Some (w_class w !! c)) /\ changes u;
  uo_class c u x : contract_updates d !! c = Some u -> class u = Some x -> felt_ok (class_hash x);
  uo_nonce c u n : contract_updates d !! c = Some u -> nonce u = Some n -> felt_ok n;
  uo_slot c u k v : contract_updates d !! c = Some u -> storage u !! k = Some v -> key_ok k /\ felt_ok v;
  uo_system c s : system_contract_updates d !! c = Some s -> is_system_contract c = true /\ s <> ∅;
  uo_system_slot c s k v : system_contract_updates d !! c = Some s -> s !! k = Some v -> key_ok k /\ felt_ok v;
  uo_declared s h : declared_sierra_classes d !! s = Some h -> key_ok s /\ felt_ok h /\ migrated_compiled_classes d !! s = None;
  uo_migrated s h : migrated_compiled_classes d !! s = Some h -> key_ok s /\ felt_ok h /\ is_Some (w_casm w !! s)
}.

Section Apply.
Context (d : StateUpdateData) (w : World).

Lemma apply_slot c k : slot (apply_update d w) c k =
  match system_contract_updates d !! c with
  | Some s => match s !! k with
      | Some v => Some v
      | None => match contract_updates d !! c with
          | Some u => match storage u !! k with Some v => Some v | None => slot w c k end
          | None => slot w c k
          end
      end
  | None => match contract_updates d !! c with
      | Some u => match storage u !! k with Some v => Some v | None => slot w c k end
      | None => slot w c k
      end
  end.
Proof.
  unfold slot, apply_update. cbn [w_storage]. rewrite !lookup_union, !all_slots_lookup, lookup_fmap.
  destruct (contract_updates d !! c) as [u|]; cbn [fmap option_fmap option_map];
    destruct (system_contract_updates d !! c) as [s|]; try destruct (s !! k); try destruct (storage u !! k);
    destruct (w_storage w !! (c, k)); reflexivity.
Qed.

Lemma apply_class c : w_class (apply_update d w) !! c =
  match contract_updates d !! c with
  | Some u => match class u with Some x => Some (class_hash x) | None => w_class w !! c end
  | None => w_class w !! c
  end.
Proof.
  unfold apply_update, deployed_contracts. cbn [w_class]. rewrite lookup_union, lookup_omap.
  destruct (contract_updates d !! c) as [u|]; cbn; [|now destruct (w_class w !! c)].
  destruct (class u); cbn; now destruct (w_class w !! c).
Qed.

Lemma apply_nonce c : w_nonce (apply_update d w) !! c =
  match contract_updates d !! c with
  | Some u => match nonce u with Some n => Some n | None => w_nonce w !! c end
  | None => w_nonce w !! c
  end.
Proof.
  unfold apply_update, nonces. cbn [w_nonce]. rewrite lookup_union, lookup_omap.
  destruct (contract_updates d !! c) as [u|]; cbn; [|now destruct (w_nonce w !! c)].
  destruct (nonce u); cbn; now destruct (w_nonce w !! c).
Qed.

Lemma apply_casm s : w_casm (apply_update d w) !! s =
  match migrated_compiled_classes d !! s with
  | Some h => Some h
  | None => match declared_sierra_classes d !! s with Some h => Some h | None => w_casm w !! s end
  end.
Proof.
  unfold apply_update. cbn [w_casm]. rewrite !lookup_union.
  destruct (migrated_compiled_classes d !! s), (declared_sierra_classes d !! s), (w_casm w !! s); reflexivity.
Qed.

Context (Hu : update_ok d w).

Lemma contract_not_system c u : contract_updates d !! c = Some u -> system_contract_updates d !! c = None.
Proof.
  intros E. destruct (system_contract_updates d !! c) as [s|] eqn:Es; [|reflexivity].
  destruct (uo_contract _ _ Hu c u E) as (_ & N & _). destruct (uo_system _ _ Hu c s Es) as [Y _]. congruence.
Qed.

Lemma system_not_contract c s : system_contract_updates d !! c = Some s -> contract_updates d !! c = None.
Proof.
  intros E. destruct (contract_updates d !! c) as [u|] eqn:Eu; [|reflexivity]. now rewrite (contract_not_system c u Eu) in E.
Qed.

Lemma declared_disjoint : declared_sierra_classes d ##ₘ migrated_compiled_classes d.
Proof.
  apply map_disjoint_spec. intros s x y Ex Ey. destruct (uo_declared _ _ Hu s x Ex) as (_ & _ & N). congruence.
Qed.

Lemma apply_update_ok : world_ok w -> world_ok (apply_update d w).
Proof.
  intros Hw. assert (Cl : forall c, is_Some (w_class w !! c) -> is_Some (w_class (apply_update d w) !! c)).
  { intros c Hc. rewrite apply_class. destruct (contract_updates d !! c) as [u|]; [|exact Hc]. destruct (class u); [eauto | exact Hc]. }
  assert (Cu : forall c u, contract_updates d !! c = Some u -> is_Some (w_class (apply_update d w) !! c)).
  { intros c u E. rewrite apply_class, E. destruct (uo_contract _ _ Hu c u E) as (_ & _ & Hc & _).
    destruct (class u); [eauto|]. destruct Hc as [[? ?]|Hc]; [discriminate | exact Hc]. }
  assert (Old : forall c k v, slot w c k = Some v -> key_ok c /\ key_ok k /\ felt_ok v /\
    (is_system_contract c = true \/ is_Some (w_class (apply_update d w) !! c))).
  { intros c k v E. destruct (wo_storage _ Hw c k v E) as (A & B & C & D). intuition. }
  split.
  - intros c k v E. change (slot (apply_update d w) c k = Some v) in E. rewrite apply_slot in E.
    destruct (system_contract_updates d !! c) as [s|] eqn:Es.
    + rewrite (system_not_contract c s Es) in E. destruct (s !! k) as [v'|] eqn:Ek; [|now apply Old].
      injection E as ->. destruct (uo_system_slot _ _ Hu c s k v Es Ek). destruct (uo_system _ _ Hu c s Es) as [Y _].
      split; [now apply system_key_ok | auto].
    + destruct (contract_updates d !! c) as [u|] eqn:Eu; [|now apply Old]. destruct (storage u !! k) as [v'|] eqn:Ek; [|now apply Old].
      injection E as ->. destruct (uo_slot _ _ Hu c u k v Eu Ek). destruct (uo_contract _ _ Hu c u Eu) as (A & _).
      split; [exact A|]. eauto 6.
  - intros c n E. rewrite apply_nonce in E. destruct (contract_updates d !! c) as [u|] eqn:Eu.
    + destruct (nonce u) as [n'|] eqn:En.
      * injection E as ->. split; [now apply (uo_nonce _ _ Hu c u) | eauto].
      * destruct (wo_nonce _ Hw c n E). eauto.
    + destruct (wo_nonce _ Hw c n E). eauto.
  - intros c h E. rewrite apply_class in E. destruct (contract_updates d !! c) as [u|] eqn:Eu; [|now apply (wo_class _ Hw)].
    destruct (class u) as [x|] eqn:Ex; [|now apply (wo_class _ Hw)]. injection E as <-.
    destruct (uo_contract _ _ Hu c u Eu) as (A & B & _). split; [exact A|]. split; [now apply (uo_class _ _ Hu c u) | exact B].
  - intros s h E. rewrite apply_casm in E. destruct (migrated_compiled_classes d !! s) as [x|] eqn:Em.
    + injection E as ->. destruct (uo_migrated _ _ Hu s h Em) as (A & B & _). auto.
    + destruct (declared_sierra_classes d !! s) as [x|] eqn:Ed; [|now apply (wo_casm _ Hw)].
      injection E as ->. destruct (uo_declared _ _ Hu s h Ed) as (A & B & _). auto.
Qed.

(** The contracts of an update are part of the new state. *)
Lemma contract_in_state c u : contract_updates d !! c = Some u -> in_state (apply_update d w) c = true.
Proof.
  intros E. apply in_state_spec. left. rewrite apply_class, E. destruct (uo_contract _ _ Hu c u E) as (_ & _ & Hc & _).
  destruct (class u); [eauto|]. destruct Hc as [[? ?]|Hc]; [discriminate | exact Hc].
Qed.

Lemma system_in_state c s : system_contract_updates d !! c = Some s -> in_state (apply_update d w) c = true.
Proof.
  intros E. apply in_state_spec. right. destruct (uo_system _ _ Hu c s E) as [A N]. split; [exact A|].
  apply map_choose in N as (k & v & Ek). exists k, v. change (slot (apply_update d w) c k = Some v).
  now rewrite apply_slot, E, Ek.
Qed.
End Apply.

(** * Updating one contract: the worlds before and after it, and what
    [update_contract_state] returns. *)

Local Open Scope Z_scope.

(** Definitions of operations are unfolded before the combinators they use. *)
#[local] Strategy 100 [try bind_outcome].

Section Worlds.
Context (constants : PedersenTables) (Hc : tables_ok constants).

(** ** The entry of a contract depends on the contract only *)

Lemma in_state_ext w w' c : (forall k, slot w' c k = slot w c k) -> w_class w' !! c = w_class w !! c ->
  in_state w' c = in_state w c.
Proof.
  intros Es Ec. apply eq_true_iff_eq. rewrite !in_state_spec, Ec. unfold slot in Es. now setoid_rewrite Es.
Qed.

Lemma contract_root_ext w w' c : (forall k, slot w' c k = slot w c k) ->
  contract_root_of constants w' c = contract_root_of constants w c.
Proof. intros Es. apply spec_root_ext. intros p L. apply at_key_ext; auto. Qed.

Lemma contract_entry_ext w w' c : (forall k, slot w' c k = slot w c k) -> w_class w' !! c = w_class w !! c ->
  w_nonce w' !! c = w_nonce w !! c -> contract_entry constants w' c = contract_entry constants w c.
Proof.
  intros Es Ec En. unfold contract_entry. rewrite (in_state_ext w w' c Es Ec). destruct (in_state w c); [|reflexivity].
  unfold contract_hash, class_of, nonce_of. now rewrite (contract_root_ext w w' c Es), Ec, En.
Qed.

Lemma entry_leaf_in_state w c h : in_state w c = true -> contract_hash constants w c = Ret h ->
  entry_leaf constants w c = leaf_of_hash (Some h).
Proof. intros Hi Hh. unfold entry_leaf, contract_entry. now rewrite Hi, Hh. Qed.

Lemma contract_root_map w c : world_ok w ->
  contract_root_of constants w c = spec_root (PedersenHash constants) HEIGHT (fun p => slot_map w c !! p).
Proof.
  intros Hw. symmetry. exact (map_commitment (PedersenHash constants) _ _ (slot_represents w c Hw)).
Qed.
End Worlds.

(** ** The contract's trie *)

Section Contract.
Context (lib : Libraries) {laws : LibraryLaws lib} (constants : PedersenTables) (Hc : tables_ok constants).
Context {mode : TriePruneMode}.

Abbreviation H := (PedersenHash constants).

(** The contract tries of a database while a block is written. *)
Definition contracts_writing (db : StateDb) (low blk top : Z) (W : Z -> World) (rd : Felt -> Z)
    (M : Felt -> gmap bits Felt) (cl : Felt -> gmultiset Z) : Prop :=
  writing (mode := mode) lib H HEIGHT (contract_trie (tries db)) (contract_roots_of (contract_roots (tries db))) low blk top
    (fun b c => slot_map (W b) c) rd M cl.

Abbreviation current_of db rd M cl c := (current (contract_roots_of (contract_roots (tries db))) rd M cl c).

Lemma contracts_current db low blk top W rd M cl c : contracts_writing db low blk top W rd M cl ->
  TrieChain.version_ok lib H HEIGHT (rows (contract_trie (tries db))) (current_of db rd M cl c).
Proof.
  intros Wr. destruct (wr_forest _ _ _ _ _ _ _ _ _ _ _ _ Wr) as (live & lim & past & _ & F). exact (forest_cur _ _ _ _ _ _ _ _ F c).
Qed.

(** Slots are set in the trie of a contract. *)
Lemma prepare_slots db low blk top W rd M cl c us verify leaf (f g : World) :
  contracts_writing db low blk top W rd M cl -> world_ok f -> world_ok g -> M c = slot_map f c ->
  covers leaf (slot_map f c) -> Forall (fun kv => key_ok kv.1 /\ felt_ok kv.2) us ->
  (forall k v, (k, v) ∈ us -> leaf_of_hash (Some v) = leaf_of_hash (slot g c k)) ->
  (forall k, k ∉ us.*1 -> slot g c k = slot f c k) ->
  exists st upd R, tree_set_all (table_storage lib (rows (contract_trie (tries db))) leaf) us
      (load (root_index (contract_roots_of (contract_roots (tries db)) c) (rd c)) verify no_mem) = Ret (Ok st) /\
    commit (table_storage lib (rows (contract_trie (tries db))) leaf) H HEIGHT st = Ret (Ok upd) /\
    prepared lib H HEIGHT (rows (contract_trie (tries db))) (current_of db rd M cl c) (paths us) upd R /\
    map_set_all (paths us) (M c) = slot_map g c /\ contract_root_of constants g c = Ret (root_commitment upd).
Proof.
  intros Wr Wf Wg EM Cv Hus Hin Hout. destruct (wr_forest _ _ _ _ _ _ _ _ _ _ _ _ Wr) as (live & lim & past & _ & F).
  destruct (forest_prepare lib H (HH := PedersenHash_total constants Hc) HEIGHT ltac:(unfold HEIGHT; lia) ltac:(unfold HEIGHT; lia)
    _ _ _ _ _ c leaf verify (paths us) no_mem F) as (upd & R & Eu & P).
  - cbn [v_map]. now rewrite EM.
  - now apply paths_ok.
  - exact no_mem_ok.
  - cbn [v_root] in Eu. apply update_steps in Eu as (st & Es & Ec). exists st, upd, R.
    assert (Em : map_set_all (paths us) (M c) = slot_map g c).
    { rewrite EM. apply (set_felts us _ _ (slot f c) (slot g c)); [now apply slot_represents..| | exact Hin|].
      - eapply Forall_impl; [exact Hus | now intros ? []].
      - intros k _ Hk. now rewrite Hout. }
    split; [exact Es|]. split; [exact Ec|]. split; [exact P|]. split; [exact Em|].
    rewrite (contract_root_map constants g c Wg), <- Em. exact (prep_root _ _ _ _ _ _ _ _ P).
Qed.

(** The root that is stored for a contract. *)
Lemma stored_root db low blk top W rd M cl c f : contracts_writing db low blk top W rd M cl -> world_ok f ->
  M c = slot_map f c -> exists h, read_contract_root db (rd c) c = Ret (Ok h) /\ contract_root_of constants f c = Ret h.
Proof.
  intros Wr Wf EM. pose proof (contracts_current _ _ _ _ _ _ _ _ c Wr) as V. unfold current in V. rewrite EM in V.
  destruct (root_hash_spec lib H _ _ _ _ _ V) as (o & Eo & Es). exists (default FELT_ZERO o).
  unfold read_contract_root, contract_root. rewrite Eo. split; [reflexivity|]. now rewrite (contract_root_map constants f c Wf).
Qed.

(** ** [update_contract_state] *)

(** What the arguments of an update make of a contract. *)
Record contract_change (f g : World) (c : Felt) (us : list (Felt * Felt)) (nn nc : option Felt) : Prop := {
  ch_slots : Forall (fun kv => key_ok kv.1 /\ felt_ok kv.2) us;
  ch_in k v : (k, v) ∈ us -> leaf_of_hash (Some v) = leaf_of_hash (slot g c k);
  ch_out k : k ∉ us.*1 -> slot g c k = slot f c k;
  ch_class : is_system_contract c = false -> exists cls, w_class g !! c = Some cls /\
    match nc with Some x => x = cls | None => w_class f !! c = Some cls end;
  ch_nonce : w_nonce g !! c = match nn with Some n => Some n | None => w_nonce f !! c end
}.

Section Update.
Context (db : StateDb) (low head : Z) (W : Z -> World) (M : Felt -> gmap bits Felt) (cl : Felt -> gmultiset Z).
Context (Wr : contracts_writing db low (head + 1) (head + 1) W (fun _ => head + 1) M cl) (Hh : -1 <= head).
Context (Ti : table_inv (tables db) head W) (Wf : world_ok (W head)).

(** The update of the contract's trie that is ready to be written. *)
Definition ready (c : Felt) (us : list (Felt * Felt)) (upd : TrieUpdate) (g : World) : Prop :=
  map_set_all (paths us) (M c) = slot_map g c /\ exists R,
    prepared lib H HEIGHT (rows (contract_trie (tries db))) (current_of db (fun _ => head + 1) M cl c) (paths us) upd R.

Lemma updated_root_spec c us verify g : world_ok g -> M c = slot_map (W head) c ->
  contract_roots_of (contract_roots (tries db)) c !! (head + 1) = None ->
  Forall (fun kv => key_ok kv.1 /\ felt_ok kv.2) us ->
  (forall k v, (k, v) ∈ us -> leaf_of_hash (Some v) = leaf_of_hash (slot g c k)) ->
  (forall k, k ∉ us.*1 -> slot g c k = slot (W head) c k) ->
  exists root upd, updated_root lib constants c us db verify (head + 1) = Ret (Ok (root, upd)) /\
    contract_root_of constants g c = Ret root /\ (us <> [] -> ready c us upd g).
Proof.
  intros Wg EM Hn Cs Ci Co.
  pose proof (fun leaf => prepare_slots db low _ _ W _ M cl c us verify leaf (W head) g Wr Wf Wg EM) as P.
  unfold updated_root. destruct us as [|kv us'] eqn:Eus.
  - destruct (stored_root db low _ _ W _ M cl c (W head) Wr Wf EM) as (h & -> & Eh). rewrite try_ok. exists h, default_update_trie.
    split; [reflexivity|]. split; [|easy]. rewrite <- Eh. apply contract_root_ext. intros k. apply Co. intros Hin. inversion Hin.
  - rewrite <- Eus in *. cbv zeta.
    assert (Ep : parent_root (fun parent => contract_root_index (contract_roots (tries db)) parent c) (head + 1)
      = root_index (contract_roots_of (contract_roots (tries db)) c) (head + 1))
      by exact (parent_root_current _ head Hh (wr_roots _ _ _ _ _ _ _ _ _ _ _ _ Wr c) Hn).
    rewrite Ep. clear Ep. replace (head + 1 - 1) with head by lia. set (root := root_index _ (head + 1)) in *.
    destruct (P (contract_leaf db c (block_of root head))) as (st & upd & R & Es & Ec & Pr & Em & Eh); try assumption.
    + apply (contract_covers db _ head W c root eq_refl Ti Wf). intros Er. rewrite <- EM.
      pose proof (ver_shape _ _ _ _ _ (contracts_current _ _ _ _ _ _ _ _ c Wr)) as Sh. unfold current in Sh.
      cbn [v_root v_map] in Sh. fold root in Sh. rewrite Er in Sh. exact (proj1 Sh).
    + unfold contract_store. rewrite Es, try_ok, Ec, from_tree_ok, try_ok. exists (root_commitment upd), upd.
      split; [reflexivity|]. split; [exact Eh|]. intros _. split; [exact Em | now exists R].
Qed.

Lemma updated_class_spec c g nc : (is_system_contract c = false -> exists cls, w_class g !! c = Some cls /\
    match nc with Some x => x = cls | None => w_class (W head) !! c = Some cls end) ->
  updated_class c nc db (head + 1) = Ret (Ok (class_of g c)).
Proof.
  intros Cc. unfold updated_class, class_of. destruct (is_system_contract c); [reflexivity|].
  destruct (Cc eq_refl) as (cls & Eg & En). rewrite Eg. destruct nc as [x|]; [now subst x|].
  rewrite contract_class_log, (tracks_after _ head _ _ _ (ti_class _ _ _ Ti)), En by lia. reflexivity.
Qed.

Lemma updated_nonce_spec c g nn : w_nonce g !! c = match nn with Some n => Some n | None => w_nonce (W head) !! c end ->
  updated_nonce c nn db (head + 1) = nonce_of g c.
Proof.
  intros Cn. unfold updated_nonce, nonce_of. rewrite Cn. destruct nn as [n|]; [reflexivity|].
  now rewrite contract_nonce_log, (tracks_after _ head _ _ _ (ti_nonce _ _ _ Ti)) by lia.
Qed.

Lemma update_contract_spec c us nn nc verify g : world_ok g -> M c = slot_map (W head) c ->
  contract_roots_of (contract_roots (tries db)) c !! (head + 1) = None -> contract_change (W head) g c us nn nc ->
  exists h upd, update_contract_state lib constants c us nn nc db verify (head + 1)
      = Ret (Ok (MkResult h c (match us with [] => false | _ => true end) upd)) /\
    contract_hash constants g c = Ret h /\ (us <> [] -> ready c us upd g).
Proof.
  intros Wg EM Hn [Cs Ci Co Cc Cn]. destruct (updated_root_spec c us verify g Wg EM Hn Cs Ci Co) as (root & upd & Er & Eg & Pr).
  destruct (contract_hash_total constants Hc g c Wg) as (h & Eh & _). exists h, upd. split; [|split; [exact Eh | exact Pr]].
  unfold update_contract_state. rewrite Er, try_ok, (updated_class_spec c g nc Cc), try_ok, (updated_nonce_spec c g nn Cn).
  unfold contract_hash in Eh. rewrite Eg, bind_ret in Eh. rewrite Eh, infallible_ok, try_ok. reflexivity.
Qed.
End Update.

(** Without changes of its slots a contract has the same map. *)
Lemma slot_map_same f g c : world_ok f -> world_ok g -> (forall k, slot g c k = slot f c k) -> slot_map g c = slot_map f c.
Proof.
  intros Wf Wg E. apply map_eq. intros p. rewrite !slot_map_lookup by assumption.
  destruct (decide (length p = 251%nat)) as [L|]; [|reflexivity]. apply at_key_ext; auto.
Qed.
End Contract.
