(* ===== verification/StateBlock.v ===== *)
(** The contracts of a block: their updates are computed and written one after
    the other, into one table of tries. *)

From Stdlib Require Import ZArith Lia Bool List.
From stdpp Require Import gmap gmultiset list.
From S2P Require Import Prelude Bytes Felt Pedersen Poseidon MerkleNode Tree TrieSpec TreeHash TreeRep TreeMap TreeCommit.
From S2P Require Import TrieStore TrieChain RootTables TriePrune Forest CommitmentFacts Hashing.
From S2P Require Import StateUpdate World StateTables StateLogs StateReverse StarknetState StateTries.
From S2P Require Import HashRows StateInv StateApply.
Local Open Scope Z_scope.
#[local] Strategy 100 [try bind_outcome from_tree from_store infallible].

Lemma insert_contract_roots_of mode blk c r croots c' :
  contract_roots_of (insert_contract_root mode blk c r croots) c' =
  set_key (contract_roots_of croots) c (insert_root mode blk r (contract_roots_of croots c)) c'.
Proof.
  unfold insert_contract_root, contract_roots_of, set_key. destruct (decide (c' = c)) as [->|N].
  - now rewrite lookup_insert_eq.
  - now rewrite lookup_insert_ne by congruence.
Qed.

(** The mode keeps at least the state before a block while it is written. *)
Definition mode_keeps (mode : TriePruneMode) : Prop := match mode with Archive => True | Prune kept => 1 <= kept end.

Section Block.
Context (lib : Libraries) {laws : LibraryLaws lib} (constants : PedersenTables) (Hc : tables_ok constants).
Context (mode : TriePruneMode) (mode_ok : mode_keeps mode) {order : HashOrder}.
Context (db0 : StateDb) (head : Z) (W : Z -> World) (low floor : Z).
Context (Inv : state_inv (mode := mode) constants lib db0 head W low floor).
Context (d : StateUpdateData) (Hu : update_ok d (W head)).

Abbreviation g := (apply_update d (W head)).
Abbreviation blk := (head + 1).
Abbreviation low' := (Z.max low (threshold mode blk)).
Abbreviation roots_of db := (contract_roots_of (contract_roots (tries db))).
Abbreviation H := (PedersenHash constants).

Lemma keeps_valid : valid_mode mode.
Proof. clear -mode_ok. destruct mode; cbn in *; lia. Qed.

Lemma head_min : -1 <= head.
Proof. exact (held_head _ _ _ _ _ _ _ _ (tv_contract _ _ _ _ _ _ (si_tries _ _ _ _ _ _ _ Inv))). Qed.

Lemma low'_range : 0 <= low' <= blk /\ (0 <= head -> low' <= head).
Proof.
  pose proof head_min as Hh. pose proof (si_low _ _ _ _ _ _ _ Inv) as Hl. unfold threshold. clear -mode_ok Hh Hl.
  destruct mode; cbn in *; lia.
Qed.

Lemma head_ok : world_ok (W head).
Proof. apply (si_world _ _ _ _ _ _ _ Inv). lia. Qed.

Lemma new_ok : world_ok g.
Proof. exact (apply_update_ok d (W head) Hu head_ok). Qed.

(** The contract gets storage by the update. *)
Definition stores (c : Felt) : Prop :=
  (exists u, contract_updates d !! c = Some u /\ storage u <> ∅) \/ is_Some (system_contract_updates d !! c).

(** What the tables hold when the contracts in [done] are written. *)
Definition mid_world (done : gset Felt) (c : Felt) : World := if decide (c ∈ done) then g else W head.

Definition mid_map (done : gset Felt) (c : Felt) : gmap bits Felt := slot_map (mid_world done c) c.

Definition mid_leaf (done : gset Felt) (b : Z) (c : Felt) : option Felt :=
  entry_leaf constants (if decide (b = blk) then mid_world done c else W b) c.

(** Everything but the tries of the contracts and their hashes. *)
Record same_rest (db : StateDb) : Prop := {
  sr_headers : headers db = headers db0;
  sr_tables : tables db = tables db0;
  sr_leaves : class_commitment_leaves (tries db) = class_commitment_leaves (tries db0);
  sr_storage : storage_trie (tries db) = storage_trie (tries db0);
  sr_storage_roots : storage_roots (tries db) = storage_roots (tries db0);
  sr_class : class_trie (tries db) = class_trie (tries db0);
  sr_class_roots : class_roots (tries db) = class_roots (tries db0)
}.

Record mid (db : StateDb) (cl : Felt -> gmultiset Z) (done : gset Felt) (n : nat) : Prop := {
  md_rest : same_rest db;
  md_writing : contracts_writing (mode := mode) lib constants db low' blk blk W (fun _ => blk) (mid_map done) cl;
  md_hashes : hash_inv (contract_state_hashes (tries db)) blk (mid_leaf done) low';
  md_new c : c ∉ done -> roots_of db c !! blk = None /\ forall h, (blk, c, h) ∉ contract_state_hashes (tries db);
  md_roots c j : is_Some (roots_of db c !! j) -> is_Some (roots_of db0 c !! j) \/ j = blk /\ stores c;
  md_room : room (contract_trie (tries db)) n
}.

Lemma mid_world_new done c : c ∉ done -> mid_world done c = W head.
Proof. intros N. unfold mid_world. now rewrite decide_False. Qed.

Lemma mid_world_add done c c' : mid_world ({[c]} ∪ done) c' = if decide (c' = c) then g else mid_world done c'.
Proof.
  unfold mid_world. destruct (decide (c' = c)) as [->|N]; [now rewrite decide_True by set_solver|].
  destruct (decide (c' ∈ done)); [now rewrite decide_True by set_solver | now rewrite decide_False by set_solver].
Qed.

Lemma mid_start n : room (contract_trie (tries db0)) n -> exists cl, mid db0 cl ∅ n.
Proof.
  intros Hr. pose proof (tv_contract _ _ _ _ _ _ (si_tries _ _ _ _ _ _ _ Inv)) as Hd.
  destruct (start_block _ _ _ _ _ _ _ _ Hd) as [cl Wr]. exists cl. pose proof low'_range as [[L1 L2] _].
  assert (Ew : forall c, mid_world ∅ c = W head) by (intros c; apply mid_world_new; set_solver).
  split; [| | | | | exact Hr].
  - now split.
  - apply (writing_low _ _ _ _ _ low); [|lia]. eapply writing_ext; [exact Wr | reflexivity.. | | reflexivity].
    intros c. unfold mid_map. now rewrite Ew.
  - apply (hash_inv_low _ _ _ low); [|lia]. apply (hash_start _ _ _ _ _ (si_hashes _ _ _ _ _ _ _ Inv)).
    + intros b c Hb. unfold mid_leaf. now rewrite decide_False by lia.
    + intros c. unfold mid_leaf. now rewrite decide_True, Ew by reflexivity.
    + now apply (si_low _ _ _ _ _ _ _ Inv).
    + intros Eh c. rewrite (empty_before _ _ _ head (si_tables _ _ _ _ _ _ _ Inv)) by lia. apply entry_leaf_empty.
    + now apply (si_low _ _ _ _ _ _ _ Inv).
  - intros c _. split.
    + destruct (roots_of db0 c !! blk) eqn:E; [|reflexivity]. pose proof (held_roots _ _ _ _ _ _ _ _ Hd c blk ltac:(eauto)). lia.
    + intros h Hin. pose proof (proj1 (hi_rows _ _ _ _ (si_hashes _ _ _ _ _ _ _ Inv) blk c h Hin)). lia.
  - auto.
Qed.

(** ** One contract *)

Lemma on_contract_same db : with_tries (on_contract_trie (contract_trie (tries db)) (contract_roots (tries db))) db = db.
Proof. now destruct db as [h t [l hs ct cr st sr ct' cr']]. Qed.

Abbreviation ready db done cl c us upd := (ready lib constants db head (mid_map done) cl c us upd g).

(** A result of [update_contract_state] for a contract that is not written yet. *)
Record good (db : StateDb) (cl : Felt -> gmultiset Z) (done : gset Felt) (r : ContractStateUpdateResult) : Prop := {
  gr_hash : contract_hash constants g (contract_address r) = Ret (state_hash r);
  gr_in : in_state g (contract_address r) = true;
  gr_stores : did_storage_updates r = true -> stores (contract_address r) /\
    exists us, us <> [] /\ ready db done cl (contract_address r) us (trie_update r);
  gr_same : did_storage_updates r = false -> slot_map g (contract_address r) = slot_map (W head) (contract_address r)
}.

(** The table of contract tries with a contract written. *)
Record wrote (db : StateDb) (cl : Felt -> gmultiset Z) (done : gset Felt) (c : Felt) (n : nat) (T : TrieTable)
    (croots : ContractRoots) (cl' : Felt -> gmultiset Z) : Prop := {
  wt_writing : writing (mode := mode) lib H HEIGHT T (contract_roots_of croots) low' blk blk (fun b c => slot_map (W b) c)
    (fun _ => blk) (mid_map ({[c]} ∪ done)) cl';
  wt_room : room T n;
  wt_other c' : c' <> c -> contract_roots_of croots c' = roots_of db c' /\ cl' c' = cl c' /\
    forall i, i ∈ cl c' -> rows T !! i = rows (contract_trie (tries db)) !! i;
  wt_roots j : is_Some (contract_roots_of croots c !! j) -> is_Some (roots_of db c !! j) \/ j = blk /\ stores c
}.

Lemma write_contract db cl done n r : mid db cl done (3 * size (slot_map g (contract_address r)) + n) ->
  contract_address r ∉ done -> good db cl done r ->
  exists T croots cl', (if did_storage_updates r
      then write_contract_trie lib mode blk (contract_address r) (trie_update r) db else Ret (Ok db))
      = Ret (Ok (with_tries (on_contract_trie T croots) db)) /\ wrote db cl done (contract_address r) n T croots cl'.
Proof.
  intros Md Hn [Gh Gi Gs Ge]. set (c := contract_address r) in *. destruct (did_storage_updates r).
  - destruct (Gs eq_refl) as (St & us & Hus & Em & R & P).
    destruct (write_trie lib H HEIGHT keeps_valid _ _ _ _ _ _ _ _ cl c (paths us) (trie_update r) R n (md_writing _ _ _ _ Md) P)
      as (ri & T & lv & Ei & Hr & _ & Fr & Wr).
    { now rewrite Em; exact (md_room _ _ _ _ Md). }
    { now left. }
    exists T, (insert_contract_root mode blk c ri (contract_roots (tries db))), (set_key cl c lv).
    unfold write_contract_trie. rewrite Ei, from_store_ok, try_ok. split; [reflexivity|].
    rewrite Z.max_l in Wr by lia. split; [| exact Hr | |].
    + eapply writing_ext; [exact Wr | | | | reflexivity].
      * intros c'. apply insert_contract_roots_of.
      * intros c'. unfold set_key. now destruct (decide (c' = c)).
      * intros c'. unfold mid_map at 1. rewrite mid_world_add. unfold set_key.
        destruct (decide (c' = c)) as [->|N]; [now symmetry | reflexivity].
    + intros c' N. rewrite insert_contract_roots_of, !set_key_ne by exact N. split; [reflexivity|]. split; [reflexivity|].
      intros i Hi. exact (Fr c' i N Hi).
    + intros j. rewrite insert_contract_roots_of, set_key_eq. intros [Hj|[-> _]]%insert_root_some; auto.
  - exists (contract_trie (tries db)), (contract_roots (tries db)), cl. rewrite on_contract_same. split; [reflexivity|].
    split; [| | auto | auto].
    + eapply writing_ext; [exact (md_writing _ _ _ _ Md) | reflexivity.. | | reflexivity].
      intros c'. unfold mid_map. rewrite mid_world_add. destruct (decide (c' = c)) as [->|N]; [|reflexivity].
      rewrite mid_world_new by exact Hn. now apply Ge.
    + apply (room_le _ _ _ (md_room _ _ _ _ Md)). lia.
Qed.

(** The state hash of the contract is written too. *)
Lemma mid_step db cl done n r : mid db cl done (3 * size (slot_map g (contract_address r)) + n) ->
  contract_address r ∉ done -> good db cl done r ->
  exists db' cl', result_insert lib mode r blk db = Ret (Ok db') /\ mid db' cl' ({[contract_address r]} ∪ done) n /\
    forall r', contract_address r' ∉ {[contract_address r]} ∪ done -> good db cl done r' ->
      good db' cl' ({[contract_address r]} ∪ done) r'.
Proof.
  intros Md Hn G. destruct (write_contract db cl done n r Md Hn G) as (T & croots & cl' & Ew & Wt).
  set (c := contract_address r) in *. set (hashes := insert_contract_state_hash mode blk c (state_hash r) (contract_state_hashes (tries db))).
  exists (with_tries (on_state_hashes hashes) (with_tries (on_contract_trie T croots) db)), cl'.
  unfold result_insert. fold c. rewrite Ew, try_ok. split; [reflexivity|].
  pose proof low'_range as [[L1 L2] _]. pose proof head_min as Hh.
  assert (Hi : hash_inv hashes blk (mid_leaf ({[c]} ∪ done)) low').
  { unfold hashes. rewrite <- (Z.max_l low' (threshold mode blk)) by lia.
    apply (hash_insert_new mode blk c (state_hash r) _ (mid_leaf done)); try lia.
    - exact (md_hashes _ _ _ _ Md).
    - exact (proj2 (md_new _ _ _ _ Md c Hn)).
    - unfold mid_leaf. rewrite decide_True, mid_world_add, decide_True by reflexivity.
      symmetry. apply entry_leaf_in_state; [exact (gr_in _ _ _ _ G) | exact (gr_hash _ _ _ _ G)].
    - intros b c' N. unfold mid_leaf. destruct (decide (b = blk)) as [->|]; [|reflexivity]. rewrite mid_world_add.
      destruct N as [?|N]; [easy|]. now rewrite decide_False. }
  split.
  - split; [| exact (wt_writing _ _ _ _ _ _ _ _ Wt) | exact Hi | | | exact (wt_room _ _ _ _ _ _ _ _ Wt)].
    + now destruct (md_rest _ _ _ _ Md).
    + intros c' Hc'. assert (N : c' <> c) by set_solver. destruct (md_new _ _ _ _ Md c' ltac:(set_solver)) as [E1 E2].
      cbn [with_tries tries on_state_hashes on_contract_trie contract_roots contract_state_hashes].
      rewrite (proj1 (wt_other _ _ _ _ _ _ _ _ Wt c' N)). split; [exact E1|].
      intros h [Hin|[= <- _]]%insert_hash_rows; [exact (E2 h Hin) | easy].
    + intros c' j Hj. cbn [with_tries tries on_state_hashes on_contract_trie contract_roots] in Hj.
      destruct (decide (c' = c)) as [->|N].
      * destruct (wt_roots _ _ _ _ _ _ _ _ Wt j Hj) as [Hj'|]; [exact (md_roots _ _ _ _ Md c j Hj') | now right].
      * rewrite (proj1 (wt_other _ _ _ _ _ _ _ _ Wt c' N)) in Hj. exact (md_roots _ _ _ _ Md c' j Hj).
  - intros r' Hr' [Gh Gi Gs Ge]. assert (N : contract_address r' <> c) by set_solver. split; [exact Gh | exact Gi | | exact Ge].
    intros Dd. destruct (Gs Dd) as (St & us & Hus & Em & R & P). split; [exact St|]. exists us. split; [exact Hus|].
    destruct (wt_other _ _ _ _ _ _ _ _ Wt _ N) as (E1 & E2 & E3).
    assert (Ew' : mid_world ({[c]} ∪ done) (contract_address r') = mid_world done (contract_address r')).
    { rewrite mid_world_add. now rewrite decide_False. }
    split; [unfold mid_map; now rewrite Ew'|]. exists R.
    unfold current, mid_map. cbn [with_tries tries on_state_hashes on_contract_trie contract_roots contract_trie].
    rewrite Ew', E1, E2. apply (prepared_rows _ _ _ _ _ _ _ _ _ P). exact E3.
Qed.

(** ** Computing the results *)

Lemma result_good db cl done n c us nn nc verify : mid db cl done n -> c ∉ done ->
  contract_change (W head) g c us nn nc -> in_state g c = true -> (us <> [] -> stores c) ->
  exists r, update_contract_state lib constants c us nn nc db verify blk = Ret (Ok r) /\ contract_address r = c /\
    good db cl done r.
Proof.
  intros Md Hn Ch Hi Hs. pose proof (md_rest _ _ _ _ Md) as Rest.
  assert (EM : mid_map done c = slot_map (W head) c) by (unfold mid_map; now rewrite mid_world_new).
  assert (Ti : table_inv (tables db) head W) by (rewrite (sr_tables _ Rest); exact (si_tables _ _ _ _ _ _ _ Inv)).
  destruct (update_contract_spec lib constants Hc db low' head W (mid_map done) cl (md_writing _ _ _ _ Md) head_min Ti head_ok
    c us nn nc verify g new_ok EM (proj1 (md_new _ _ _ _ Md c Hn)) Ch) as (h & upd & Eu & Eh & Rd).
  eexists. split; [exact Eu|]. split; [reflexivity|]. split; cbn; [exact Eh | exact Hi | |].
  - intros Dd. assert (Hus : us <> []) by now destruct us. split; [now apply Hs|]. exists us. split; [exact Hus | now apply Rd].
  - intros Dd. assert (us = []) as -> by now destruct us.
    apply (slot_map_same (W head) g c head_ok new_ok). intros k. apply (ch_out _ _ _ _ _ _ Ch). intros Hin. inversion Hin.
Qed.

Lemma iter_in {V} (m : gmap Felt V) k v : (k, v) ∈ iter m <-> m !! k = Some v.
Proof. now rewrite (iter_perm m), elem_of_map_to_list. Qed.

Lemma iter_nodup {V} (m : gmap Felt V) : NoDup (iter m).*1.
Proof. exact (proj1 (iter_map m)). Qed.

Lemma iter_keys {V} (m : gmap Felt V) k : k ∈ (iter m).*1 <-> is_Some (m !! k).
Proof.
  rewrite list_elem_of_fmap. split.
  - intros ([k' v] & -> & Hin%iter_in). eauto.
  - intros [v E]. exists (k, v). split; [reflexivity | now apply iter_in].
Qed.

Lemma iter_nil {V} (m : gmap Felt V) : iter m = [] <-> m = ∅.
Proof.
  split.
  - intros E. apply map_eq. intros k. rewrite lookup_empty. destruct (m !! k) as [v|] eqn:Ek; [|reflexivity].
    apply iter_in in Ek. rewrite E in Ek. inversion Ek.
  - intros ->. destruct (iter ∅) as [|[k v] l] eqn:E; [reflexivity|].
    assert (Hin : (k, v) ∈ iter (∅ : gmap Felt V)) by (rewrite E; now left). apply iter_in in Hin. now rewrite lookup_empty in Hin.
Qed.

Lemma contract_changes c u : contract_updates d !! c = Some u ->
  contract_change (W head) g c (iter (storage u)) (nonce u) (option_map class_hash (class u)).
Proof.
  intros E. pose proof (contract_not_system d (W head) Hu c u E) as Ns. split.
  - apply Forall_forall. intros [k v] Hin%iter_in. exact (uo_slot _ _ Hu c u k v E Hin).
  - intros k v Hin%iter_in. now rewrite apply_slot, Ns, E, Hin.
  - intros k Hk. rewrite apply_slot, Ns, E. destruct (storage u !! k) as [v|] eqn:Ek; [|reflexivity].
    exfalso. apply Hk, iter_keys. eauto.
  - intros _. rewrite apply_class, E. destruct (uo_contract _ _ Hu c u E) as (_ & _ & Cl & _).
    destruct (class u) as [x|]; cbn; [eauto|]. destruct Cl as [[? ?]|[cls Ec]]; [discriminate | eauto].
  - now rewrite apply_nonce, E.
Qed.

Lemma system_changes c s : system_contract_updates d !! c = Some s -> contract_change (W head) g c (iter s) None None.
Proof.
  intros E. pose proof (system_not_contract d (W head) Hu c s E) as Nc. split.
  - apply Forall_forall. intros [k v] Hin%iter_in. exact (uo_system_slot _ _ Hu c s k v E Hin).
  - intros k v Hin%iter_in. now rewrite apply_slot, E, Hin.
  - intros k Hk. rewrite apply_slot, E, Nc. destruct (s !! k) as [v|] eqn:Ek; [|reflexivity]. exfalso. apply Hk, iter_keys. eauto.
  - destruct (uo_system _ _ Hu c s E) as [Y _]. congruence.
  - now rewrite apply_nonce, Nc.
Qed.

(** ** The loops *)

Definition hash_of (w : World) (c : Felt) : Felt := match contract_hash constants w c with Ret h => h | Panic => FELT_ZERO end.

(** What is set in the tree of all contracts. *)
Definition new_hashes (cs : list Felt) : list (Felt * Felt) := map (fun c => (c, hash_of g c)) cs.

(** Rows for the tries of contracts. *)
Definition slots_needed (w : World) (cs : list Felt) : nat := sum_list_with (fun c => 3 * size (slot_map w c))%nat cs.

Lemma contract_results_spec cl n verify rows : mid db0 cl ∅ n -> (forall c u, (c, u) ∈ rows -> contract_updates d !! c = Some u) ->
  exists rs, contract_update_results lib constants db0 verify blk (map (fun row => (row.1, contract_ref row.2)) rows) = Ret (Ok rs) /\
    map contract_address rs = rows.*1 /\ Forall (good db0 cl ∅) rs.
Proof.
  intros Md. induction rows as [|[c u] rows IH]; intros Hr; cbn [map contract_update_results fst snd].
  - exists []. split; [reflexivity|]. split; [reflexivity | constructor].
  - pose proof (Hr c u ltac:(now left)) as E.
    destruct (result_good db0 cl ∅ n c (iter (storage u)) (nonce u) (option_map class_hash (class u)) verify Md ltac:(set_solver)
      (contract_changes c u E) (contract_in_state d (W head) Hu c u E)) as (r & Er & Ea & Gr).
    { intros N. left. exists u. split; [exact E|]. intros Es. apply N. now apply iter_nil. }
    destruct IH as (rs & Es & Ers & Gs); [intros; apply Hr; now right|]. exists (r :: rs).
    cbn [contract_ref ref_storage ref_nonce ref_class]. rewrite Er, try_ok, Es, try_ok. split; [reflexivity|].
    split; [cbn; now rewrite Ea, Ers | now constructor].
Qed.

Context (pick : list Felt -> option Felt).

Lemma good_hash db cl done r : good db cl done r -> state_hash r = hash_of g (contract_address r).
Proof. intros G. unfold hash_of. now rewrite (gr_hash _ _ _ _ G). Qed.

Lemma storage_store_rest db tb leaf c h st : same_rest db -> tree_set (storage_store lib pick db tb) c h st =
  tree_set (table_storage lib (rows (storage_trie (tries db0))) leaf) c h st.
Proof. intros R. unfold storage_store. rewrite (sr_storage _ R). apply tree_set_leaf. Qed.

Lemma insert_results_spec tb leaf rs : forall db cl done n st st', let cs := map contract_address rs in
  mid db cl done (slots_needed g cs + n) -> NoDup cs -> (forall c, c ∈ cs -> c ∉ done) -> Forall (good db cl done) rs ->
  tree_set_all (table_storage lib (rows (storage_trie (tries db0))) leaf) (new_hashes cs) st = Ret (Ok st') ->
  exists db' cl', insert_results lib pick mode tb blk rs st db = Ret (Ok (st', db')) /\ mid db' cl' (list_to_set cs ∪ done) n.
Proof.
  induction rs as [|r rs IH]; intros db cl done n st st' cs Md Nd Dis Gs Es.
  - injection Es as <-. exists db, cl. split; [reflexivity|]. replace (list_to_set cs ∪ done) with done by set_solver. exact Md.
  - subst cs. cbn [map] in *. apply NoDup_cons in Nd as [Hn Nd]. inversion_clear Gs as [|? ? G Gs'].
    cbn [new_hashes map tree_set_all] in Es. cbn [insert_results].
    rewrite (storage_store_rest db tb leaf _ _ st (md_rest _ _ _ _ Md)), (good_hash _ _ _ _ G).
    destruct (tree_set _ (contract_address r) _ st) as [[st1|]|]; [|discriminate..]. rewrite try_ok in Es. rewrite try_ok.
    destruct (mid_step db cl done (slots_needed g (map contract_address rs) + n) r) as (db1 & cl1 & Er & Md1 & Gk).
    { eapply (eq_ind _ (mid db cl done) Md). cbn [slots_needed sum_list_with]. unfold slots_needed. cbn. lia. }
    { apply Dis. now left. }
    { exact G. }
    rewrite Er, try_ok. destruct (IH db1 cl1 ({[contract_address r]} ∪ done) n st1 st' Md1 Nd) as (db2 & cl2 & Ei & Md2).
    + intros c Hin. specialize (Dis c ltac:(now right)). set_solver.
    + apply Forall_forall. intros r' Hr'. apply Gk; [|exact (proj1 (Forall_forall _ _) Gs' r' Hr')].
      assert (Hin : contract_address r' ∈ map contract_address rs) by (apply list_elem_of_fmap; eauto).
      specialize (Dis _ ltac:(right; exact Hin)). set_solver.
    + exact Es.
    + exists db2, cl2. split; [exact Ei|]. replace (list_to_set (contract_address r :: map contract_address rs) ∪ done)
        with (list_to_set (map contract_address rs) ∪ ({[contract_address r]} ∪ done)) by (cbn [list_to_set]; set_solver).
      exact Md2.
Qed.

Lemma system_contracts_spec tb leaf verify rows : forall db cl done n st st', let cs := rows.*1 in
  mid db cl done (slots_needed g cs + n) -> NoDup cs -> (forall c, c ∈ cs -> c ∉ done) ->
  (forall c s, (c, s) ∈ rows -> system_contract_updates d !! c = Some s) ->
  tree_set_all (table_storage lib (TrieStore.rows (storage_trie (tries db0))) leaf) (new_hashes cs) st = Ret (Ok st') ->
  exists db' cl', update_system_contracts lib pick constants mode tb verify blk
      (map (fun row => (row.1, iter (row.2 : gmap Felt Felt))) rows) st db = Ret (Ok (st', db')) /\
    mid db' cl' (list_to_set cs ∪ done) n.
Proof.
  induction rows as [|[c s] rows IH]; intros db cl done n st st' cs Md Nd Dis Hr Es.
  - injection Es as <-. exists db, cl. split; [reflexivity|]. replace (list_to_set cs ∪ done) with done by set_solver. exact Md.
  - subst cs. cbn [fmap list_fmap fst] in *. apply NoDup_cons in Nd as [Hn Nd].
    cbn [new_hashes map tree_set_all] in Es. cbn [map update_system_contracts fst snd].
    pose proof (Hr c s ltac:(now left)) as E. pose proof (Dis c ltac:(now left)) as Hc'.
    destruct (result_good db cl done _ c (iter s) None None verify Md Hc' (system_changes c s E)
      (system_in_state d (W head) Hu c s E)) as (r & Er & Ea & Gr); [intros _; right; eauto|].
    rewrite Er, try_ok, (storage_store_rest db tb leaf _ _ st (md_rest _ _ _ _ Md)), (good_hash _ _ _ _ Gr), Ea.
    destruct (tree_set _ c _ st) as [[st1|]|]; [|discriminate..]. rewrite try_ok in Es. rewrite try_ok. subst c.
    destruct (mid_step db cl done (slots_needed g rows.*1 + n) r) as (db1 & cl1 & Ei & Md1 & _).
    { eapply (eq_ind _ (mid db cl done) Md). unfold slots_needed. cbn. lia. }
    { exact Hc'. }
    { exact Gr. }
    rewrite Ei, try_ok. destruct (IH db1 cl1 ({[contract_address r]} ∪ done) n st1 st' Md1 Nd) as (db2 & cl2 & Eu & Md2).
    + intros c Hin. specialize (Dis c ltac:(now right)). set_solver.
    + intros c s' Hin. apply Hr. now right.
    + exact Es.
    + exists db2, cl2. split; [exact Eu|]. replace (list_to_set (contract_address r :: rows.*1) ∪ done)
        with (list_to_set rows.*1 ∪ ({[contract_address r]} ∪ done)) by (cbn [list_to_set]; set_solver).
      exact Md2.
Qed.
End Block.
