(* ===== verification/StateCommit.v ===== *)
(** A block's state update as a whole: [update_starknet_state] gives the
    commitments of the new state and the tries that belong to it. *)

From Stdlib Require Import ZArith Lia Bool List.
From stdpp Require Import gmap gmultiset list.
From S2P Require Import Prelude Bytes Felt Pedersen Poseidon MerkleNode Tree TrieSpec TreeHash TreeRep TreeMap.
From S2P Require Import TreeCommit TrieStore TrieChain RootTables TriePrune Forest CommitmentFacts Hashing.
From S2P Require Import StateUpdate World StateTables StateLogs StateReverse StarknetState StateTries.
From S2P Require Import HashRows StateInv StateApply StateBlock.
Local Open Scope Z_scope.
#[local] Strategy 100 [try bind_outcome from_tree from_store infallible].

(** ** Classes *)

Definition leaf_hash_of (casm : Felt) : Felt := match class_commitment_leaf_hash casm with Ret h => h | Panic => FELT_ZERO end.

Lemma leaf_hash_ok casm : felt_ok casm -> class_commitment_leaf_hash casm = Ret (leaf_hash_of casm) /\ felt_ok (leaf_hash_of casm).
Proof. intros Hc. unfold leaf_hash_of. now destruct (leaf_hash_total casm Hc) as (h & -> & Hh). Qed.

Lemma class_entry_some w s h : felt_ok h -> w_casm w !! s = Some h -> class_entry w s = Some (leaf_hash_of h).
Proof. intros Ho E. unfold class_entry. rewrite E, (proj1 (leaf_hash_ok h Ho)). reflexivity. Qed.

Lemma update_classes_spec lib pick tb blk kvs : forall db leaf st st',
  Forall (fun kv => felt_ok kv.2) kvs ->
  tree_set_all (table_storage lib (rows (class_trie (tries db))) leaf) (map (fun kv => (kv.1, leaf_hash_of kv.2)) kvs) st
    = Ret (Ok st') ->
  update_classes lib pick tb blk kvs st db = Ret (Ok (st', with_tries (on_leaves (class_commitment_leaves (tries db) ++
    map (fun kv => (blk, leaf_hash_of kv.2, kv.2)) kvs)) db)).
Proof.
  induction kvs as [|[s casm] kvs IH]; intros db leaf st st' Hk Es; cbn [update_classes map fst snd] in *.
  - injection Es as <-. rewrite app_nil_r. now destruct db as [h t [l hs ct cr st' sr ct' cr']].
  - inversion_clear Hk as [|? ? Hc Hk']. cbn [snd] in Hc. rewrite (proj1 (leaf_hash_ok casm Hc)), infallible_ok, try_ok.
    cbn [tree_set_all] in Es. unfold class_store at 1.
    change (class_trie (tries (write_class_leaf blk (leaf_hash_of casm) casm db))) with (class_trie (tries db)).
    rewrite (tree_set_leaf lib _ _ leaf). destruct (tree_set _ s _ st) as [[st1|]|]; [|discriminate..].
    rewrite try_ok in Es. rewrite try_ok.
    rewrite (IH (write_class_leaf blk (leaf_hash_of casm) casm db) leaf st1 st' Hk' Es).
    do 2 f_equal. f_equal. unfold write_class_leaf, with_tries, on_leaves. cbn. now rewrite <- app_assoc.
Qed.

Section Commit.
Context (lib : Libraries) {laws : LibraryLaws lib} (constants : PedersenTables) (Hc : tables_ok constants).
Context (pick : list Felt -> option Felt) (Hp : picks pick).
Context (mode : TriePruneMode) (mode_ok : mode_keeps mode) {order : HashOrder}.
Context (db0 : StateDb) (head : Z) (W : Z -> World) (low floor : Z).
Context (Inv : state_inv (mode := mode) constants lib db0 head W low floor).
Context (d : StateUpdateData) (Hu : update_ok d (W head)).

Abbreviation g := (apply_update d (W head)).
Abbreviation blk := (head + 1).
Abbreviation low' := (Z.max low (threshold mode blk)).
Abbreviation W' := (set_block W blk g).
Abbreviation H := (PedersenHash constants).

(** The contracts of an update, and its classes. *)
Definition updated_contracts : list Felt := (iter (contract_updates d)).*1 ++ (iter (system_contract_updates d)).*1.
Definition updated_classes : list (Felt * Felt) := iter (declared_sierra_classes d) ++ iter (migrated_compiled_classes d).

Lemma updated_contracts_in c : c ∈ updated_contracts <-> is_Some (contract_updates d !! c) \/ is_Some (system_contract_updates d !! c).
Proof. unfold updated_contracts. now rewrite elem_of_app, !iter_keys. Qed.

Lemma updated_contracts_nodup : NoDup updated_contracts.
Proof.
  apply NoDup_app. split; [apply iter_nodup|]. split; [|apply iter_nodup].
  intros c [u Eu]%iter_keys [s Es]%iter_keys. now rewrite (contract_not_system d (W head) Hu c u Eu) in Es.
Qed.

Lemma other_contract c : c ∉ updated_contracts -> (forall k, slot g c k = slot (W head) c k) /\
  contract_entry constants g c = contract_entry constants (W head) c.
Proof.
  intros N. rewrite updated_contracts_in in N.
  assert (Eu : contract_updates d !! c = None) by (destruct (contract_updates d !! c); [exfalso; eauto | reflexivity]).
  assert (Es : system_contract_updates d !! c = None) by (destruct (system_contract_updates d !! c); [exfalso; eauto | reflexivity]).
  assert (E : forall k, slot g c k = slot (W head) c k) by (intros k; now rewrite apply_slot, Es, Eu).
  split; [exact E|]. apply contract_entry_ext; [exact E | now rewrite apply_class, Eu | now rewrite apply_nonce, Eu].
Qed.

Lemma updated_in_state c : c ∈ updated_contracts -> in_state g c = true.
Proof.
  intros [[u Eu]|[s Es]]%updated_contracts_in;
    [exact (contract_in_state d (W head) Hu c u Eu) | exact (system_in_state d (W head) Hu c s Es)].
Qed.

Lemma updated_key_ok c : c ∈ updated_contracts -> key_ok c.
Proof.
  intros [[u Eu]|[s Es]]%updated_contracts_in; [now apply (uo_contract _ _ Hu c u) | ].
  apply system_key_ok. now apply (uo_system _ _ Hu c s).
Qed.

Lemma hash_of_ok c : contract_hash constants g c = Ret (hash_of constants g c) /\ felt_ok (hash_of constants g c).
Proof.
  destruct (contract_hash_total constants Hc g c (new_ok _ _ _ _ _ _ _ _ Inv d Hu)) as (h & Eh & Oh). unfold hash_of. now rewrite Eh.
Qed.

(** ** The maps of the trees *)

Lemma new_contract_map :
  map_set_all (paths (new_hashes constants head W d updated_contracts)) (contract_map constants (W head)) = contract_map constants g.
Proof.
  assert (Hin : forall c h, (c, h) ∈ new_hashes constants head W d updated_contracts <-> c ∈ updated_contracts /\ h = hash_of constants g c).
  { intros c h. unfold new_hashes. rewrite list_elem_of_In, in_map_iff. split.
    - intros (c' & E & Hin). injection E as -> <-. split; [now apply list_elem_of_In | reflexivity].
    - intros [Hin ->]. exists c. split; [reflexivity | now apply list_elem_of_In]. }
  apply (set_felts _ _ _ (contract_entry constants (W head)) (contract_entry constants g)).
  - exact (contract_represents constants _ (head_ok _ _ _ _ _ _ _ _ Inv)).
  - exact (contract_represents constants _ (new_ok _ _ _ _ _ _ _ _ Inv d Hu)).
  - apply Forall_forall. intros [c h] [Hc' _]%Hin. now apply updated_key_ok.
  - intros c h [Hc' ->]%Hin. symmetry.
    exact (entry_leaf_in_state constants g c _ (updated_in_state c Hc') (proj1 (hash_of_ok c))).
  - intros c _ N. f_equal. apply other_contract. intros Hc'. apply N, list_elem_of_fmap. exists (c, hash_of constants g c).
    split; [reflexivity|]. now apply Hin.
Qed.

Lemma new_hashes_ok : Forall (fun kv => key_ok kv.1 /\ felt_ok kv.2) (new_hashes constants head W d updated_contracts).
Proof.
  unfold new_hashes. apply Forall_map, Forall_forall. intros c Hc'. cbn. split; [now apply updated_key_ok | apply hash_of_ok].
Qed.

Lemma updated_classes_in s h : (s, h) ∈ updated_classes <->
  declared_sierra_classes d !! s = Some h \/ migrated_compiled_classes d !! s = Some h.
Proof. unfold updated_classes. now rewrite elem_of_app, !iter_in. Qed.

Lemma updated_classes_ok s h : (s, h) ∈ updated_classes -> key_ok s /\ felt_ok h.
Proof.
  intros [E|E]%updated_classes_in.
  - destruct (uo_declared _ _ Hu s h E) as (A & B & _). auto.
  - destruct (uo_migrated _ _ Hu s h E) as (A & B & _). auto.
Qed.

Lemma updated_casm s h : (s, h) ∈ updated_classes -> w_casm g !! s = Some h.
Proof.
  intros [E|E]%updated_classes_in; rewrite apply_casm; [|now rewrite E].
  destruct (migrated_compiled_classes d !! s) as [x|] eqn:Em; [|now rewrite E].
  exfalso. exact (proj1 (map_disjoint_spec _ _) (declared_disjoint d (W head) Hu) s h x E Em).
Qed.

Lemma new_class_map :
  map_set_all (paths (map (fun kv => (kv.1, leaf_hash_of kv.2)) updated_classes)) (class_map (W head)) = class_map g.
Proof.
  apply (set_felts _ _ _ (class_entry (W head)) (class_entry g)).
  - exact (class_represents _ (head_ok _ _ _ _ _ _ _ _ Inv)).
  - exact (class_represents _ (new_ok _ _ _ _ _ _ _ _ Inv d Hu)).
  - apply Forall_map, Forall_forall. intros [s h] Hin. exact (proj1 (updated_classes_ok s h Hin)).
  - intros s x Hin. apply list_elem_of_fmap in Hin as ([s' h] & E & Hin). apply pair_equal_spec in E as [-> ->]. cbn [fst snd].
    rewrite (class_entry_some g s' h (proj2 (updated_classes_ok s' h Hin)) (updated_casm s' h Hin)). reflexivity.
  - intros s _ N. unfold class_entry. rewrite apply_casm.
    assert (Nk : forall h, (s, h) ∉ updated_classes).
    { intros h Hin. apply N, list_elem_of_fmap. exists (s, leaf_hash_of h). split; [reflexivity|].
      apply list_elem_of_In, in_map_iff. exists (s, h). split; [reflexivity | now apply list_elem_of_In]. }
    destruct (migrated_compiled_classes d !! s) as [x|] eqn:Em; [exfalso; apply (Nk x), updated_classes_in; auto|].
    destruct (declared_sierra_classes d !! s) as [x|] eqn:Ed; [exfalso; apply (Nk x), updated_classes_in; auto | reflexivity].
Qed.

(** ** The update *)

Abbreviation mid := (mid lib constants mode db0 head W low d).

(** Indices for the rows of a block. *)
Record rooms : Prop := {
  rm_contract : room (contract_trie (tries db0)) (slots_needed g updated_contracts);
  rm_storage : room (storage_trie (tries db0)) (3 * size (contract_map constants g));
  rm_class : room (class_trie (tries db0)) (3 * size (class_map g))
}.

Context (Rm : rooms) (verify : bool).

Abbreviation storage_root := (parent_root (root_index (storage_roots (tries db0))) blk).
Abbreviation class_root := (parent_root (root_index (class_roots (tries db0))) blk).

Lemma held_storage : held (mode := mode) lib H HEIGHT (K := unit) (storage_trie (tries db0)) (fun _ => storage_roots (tries db0)) low head
  (fun b _ => contract_map constants (W b)).
Proof. exact (tv_storage _ _ _ _ _ _ (si_tries _ _ _ _ _ _ _ Inv)). Qed.

Lemma held_class : held (mode := mode) lib PoseidonHash HEIGHT (K := unit) (class_trie (tries db0)) (fun _ => class_roots (tries db0)) low head
  (fun b _ => class_map (W b)).
Proof. exact (tv_class _ _ _ _ _ _ (si_tries _ _ _ _ _ _ _ Inv)). Qed.

Lemma slots_needed_app w cs cs' : slots_needed w (cs ++ cs') = (slots_needed w cs + slots_needed w cs')%nat.
Proof. unfold slots_needed. apply sum_list_with_app. Qed.

(** The contracts. *)
Lemma contracts_part tb : exists rs st1 db1 st db2 cl,
  contract_update_results lib constants db0 verify blk (ref_contracts (as_ref d)) = Ret (Ok rs) /\
  insert_results lib pick mode tb blk rs (load storage_root verify no_mem) db0 = Ret (Ok (st1, db1)) /\
  update_system_contracts lib pick constants mode tb verify blk (ref_systems (as_ref d)) st1 db1 = Ret (Ok (st, db2)) /\
  mid db2 cl (list_to_set updated_contracts) 0 /\
  tree_set_all (table_storage lib (rows (storage_trie (tries db0))) (leaf_of (contract_map constants (W head))))
    (new_hashes constants head W d updated_contracts) (load storage_root verify no_mem) = Ret (Ok st).
Proof.
  destruct (tree_block lib H (HH := PedersenHash_total constants Hc) mode (keeps_valid mode mode_ok) _ _ _ _ _ held_storage
    (leaf_of (contract_map constants (W head))) verify (new_hashes constants head W d updated_contracts) _ (leaf_of_covers _)
    new_hashes_ok new_contract_map (rm_storage Rm)) as (upd & r & T' & Eu & _). apply update_steps in Eu as (st & Es & _).
  pose proof Es as Es'. unfold updated_contracts, new_hashes in Es'. rewrite map_app, tree_set_all_app in Es'.
  destruct (tree_set_all _ (map _ (iter (contract_updates d)).*1) _) as [[st1|]|] eqn:E1; [|discriminate..].
  rewrite try_ok in Es'. pose proof (rm_contract Rm) as Hr. unfold updated_contracts in Hr.
  rewrite slots_needed_app, <- (Nat.add_0_r (slots_needed g (iter (system_contract_updates d)).*1)) in Hr.
  destruct (mid_start lib constants Hc mode mode_ok db0 head W low floor Inv d Hu _ Hr) as [cl0 Md0].
  destruct (contract_results_spec lib constants Hc mode mode_ok db0 head W low floor Inv d Hu cl0 _ verify (iter (contract_updates d)) Md0
    (fun c u Hin => proj1 (iter_in _ c u) Hin)) as (rs & Er & Ea & Gs).
  destruct (insert_results_spec lib constants Hc mode mode_ok db0 head W low floor Inv d Hu pick tb
    (leaf_of (contract_map constants (W head))) rs db0 cl0 ∅ (slots_needed g (iter (system_contract_updates d)).*1 + 0)
    (load storage_root verify no_mem) st1) as (db1 & cl1 & Ei & Md1); rewrite ?Ea; try assumption.
  { apply iter_nodup. }
  { set_solver. }
  rewrite Ea in Md1.
  destruct (system_contracts_spec lib constants Hc mode mode_ok db0 head W low floor Inv d Hu pick tb
    (leaf_of (contract_map constants (W head))) verify (iter (system_contract_updates d)) db1 cl1 _ 0 st1 st Md1) as (db2 & cl2 & Es2 & Md2).
  { apply iter_nodup. }
  { intros c Hin. pose proof updated_contracts_nodup as Nd. apply NoDup_app in Nd as (_ & Dis & _).
    rewrite elem_of_union, elem_of_list_to_set. intros [Hin'|Hin']; [exact (Dis c Hin' Hin) | set_solver]. }
  { intros c s' Hin. now apply iter_in. }
  { exact Es'. }
  exists rs, st1, db1, st, db2, cl2. split; [exact Er|]. split; [exact Ei|]. split; [exact Es2|]. split; [|exact Es].
  replace (list_to_set updated_contracts : gset Felt) with
    (list_to_set (iter (system_contract_updates d)).*1 ∪ (list_to_set (iter (contract_updates d)).*1 ∪ ∅) : gset Felt); [exact Md2|].
  unfold updated_contracts. rewrite list_to_set_app_L. set_solver.
Qed.

(** What holds of the database after the update, before its tables are written. *)
Record updated (db : StateDb) : Prop := {
  up_headers : headers db = headers db0;
  up_tables : tables db = tables db0;
  up_leaves : class_commitment_leaves (tries db) = class_commitment_leaves (tries db0) ++
    map (fun kv => (blk, leaf_hash_of kv.2, kv.2)) updated_classes;
  up_hashes : hash_inv (contract_state_hashes (tries db)) blk (fun b => entry_leaf constants (W' b)) low';
  up_tries : trie_inv (mode := mode) constants lib (tries db) blk W' low';
  up_contract_roots c j : is_Some (contract_roots_of (contract_roots (tries db)) c !! j) ->
    is_Some (contract_roots_of (contract_roots (tries db0)) c !! j) \/ j = blk /\ stores d c;
  up_storage_roots j : is_Some (storage_roots (tries db) !! j) ->
    is_Some (storage_roots (tries db0) !! j) \/ j = blk /\ updated_contracts <> [];
  up_class_roots j : is_Some (class_roots (tries db) !! j) ->
    is_Some (class_roots (tries db0) !! j) \/ j = blk /\ updated_classes <> []
}.

Lemma mid_final c : c ∈ (list_to_set updated_contracts : gset Felt) \/ mid_world head W d (list_to_set updated_contracts) c = W head /\
  (forall k, slot g c k = slot (W head) c k) /\ contract_entry constants g c = contract_entry constants (W head) c.
Proof.
  destruct (decide (c ∈ (list_to_set updated_contracts : gset Felt))) as [Hin|N]; [now left | right].
  split; [now apply mid_world_new|]. apply other_contract. now rewrite elem_of_list_to_set in N.
Qed.

(** The tree of all contracts is committed and written. *)
Lemma storage_part db2 cl st tb : mid db2 cl (list_to_set updated_contracts) 0 ->
  tree_set_all (table_storage lib (rows (storage_trie (tries db0))) (leaf_of (contract_map constants (W head))))
    (new_hashes constants head W d updated_contracts) (load storage_root verify no_mem) = Ret (Ok st) ->
  tb = block_of storage_root head ->
  exists upd r T', commit (storage_store lib pick db2 tb) H HEIGHT st = Ret (Ok upd) /\
    storage_commitment_of constants g = Ret (root_commitment upd) /\
    write_storage_trie lib mode blk upd db2
      = Ret (Ok (with_tries (on_storage_trie T' (insert_root mode blk r (storage_roots (tries db2)))) db2)) /\
    (updated_contracts = [] -> r = Unchanged) /\
    held (mode := mode) lib H HEIGHT (K := unit) T' (fun _ => insert_root mode blk r (storage_roots (tries db0))) low' blk
      (fun b _ => set_block (fun b => contract_map constants (W b)) blk (contract_map constants g) b).
Proof.
  intros Md Es ->. pose proof (md_rest _ _ _ _ _ _ _ _ _ _ _ _ Md) as Rest.
  pose proof (low'_range lib constants mode mode_ok db0 head W low floor Inv) as [_ L].
  pose proof (head_min lib constants mode db0 head W low floor Inv) as Hh.
  pose proof (parent_root_held _ _ _ _ _ _ _ _ held_storage) as Ep. set (root := storage_root) in *.
  assert (Cv : covers (storage_leaf pick db2 (block_of root head)) (contract_map constants (W head))).
  { apply (storage_covers constants pick Hp db2 blk (mid_leaf constants head W d (list_to_set updated_contracts)) head (W head) low').
    - exact (md_hashes _ _ _ _ _ _ _ _ _ _ _ _ Md).
    - destruct (Z.le_gt_cases 0 head) as [H0|H0]; [left; specialize (L H0); lia | right].
      unfold root, parent_root, parent. now rewrite (proj2 (Z.eqb_eq _ _)) by lia.
    - intros c. unfold mid_leaf. now rewrite decide_False by lia.
    - exact (head_ok _ _ _ _ _ _ _ _ Inv).
    - exact (held_covered _ _ _ _ _ _ _ _ held_storage root Ep). }
  destruct (tree_block lib H (HH := PedersenHash_total constants Hc) mode (keeps_valid mode mode_ok) _ _ _ _ _ held_storage
    (storage_leaf pick db2 (block_of root head)) verify (new_hashes constants head W d updated_contracts) _ Cv
    new_hashes_ok new_contract_map (rm_storage Rm)) as (upd & r & T' & Eu & Er & Ei & Ez & Hd).
  apply update_steps in Eu as (st' & Es' & Ec). rewrite (tree_set_all_leaf lib _ _ (leaf_of (contract_map constants (W head)))) in Es'.
  pose proof (eq_trans (eq_sym Es') Es) as E. injection E as ->. exists upd, r, T'.
  unfold storage_store, write_storage_trie. rewrite (sr_storage _ _ Rest), (sr_storage_roots _ _ Rest).
  split; [exact Ec|]. split; [|split; [|split; [|exact Hd]]].
  - rewrite <- Er. symmetry. exact (map_commitment H _ _ (contract_represents constants _ (new_ok _ _ _ _ _ _ _ _ Inv d Hu))).
  - rewrite Ei, from_store_ok, try_ok. reflexivity.
  - intros E. apply Ez. unfold new_hashes. now rewrite E.
Qed.

(** The tree of all classes. *)
Lemma class_part db3 tb : class_commitment_leaves (tries db3) = class_commitment_leaves (tries db0) ->
  class_trie (tries db3) = class_trie (tries db0) -> class_roots (tries db3) = class_roots (tries db0) ->
  tables db3 = tables db0 -> tb = block_of class_root head ->
  exists st upd r T', let db4 := with_tries (on_leaves (class_commitment_leaves (tries db3) ++
      map (fun kv => (blk, leaf_hash_of kv.2, kv.2)) updated_classes)) db3 in
    update_classes lib pick tb blk updated_classes (load class_root verify no_mem) db3 = Ret (Ok (st, db4)) /\
    commit (class_store lib pick db4 tb) PoseidonHash HEIGHT st = Ret (Ok upd) /\
    class_commitment_of g = Ret (root_commitment upd) /\
    write_class_trie lib mode blk upd db4
      = Ret (Ok (with_tries (on_class_trie T' (insert_root mode blk r (class_roots (tries db4)))) db4)) /\
    (updated_classes = [] -> r = Unchanged) /\
    held (mode := mode) lib PoseidonHash HEIGHT (K := unit) T' (fun _ => insert_root mode blk r (class_roots (tries db0))) low' blk
      (fun b _ => set_block (fun b => class_map (W b)) blk (class_map g) b).
Proof.
  intros El Et Er0 Eta ->. set (kvs := map (fun kv => (kv.1, leaf_hash_of kv.2)) updated_classes).
  assert (Hk : Forall (fun kv => key_ok kv.1 /\ felt_ok kv.2) kvs).
  { apply Forall_map, Forall_forall. intros [s h] Hin. destruct (updated_classes_ok s h Hin) as [A B].
    split; [exact A | exact (proj2 (leaf_hash_ok h B))]. }
  pose proof (parent_root_held _ _ _ _ _ _ _ _ held_class) as Ep. set (root := class_root) in *.
  set (db4 := with_tries (on_leaves (class_commitment_leaves (tries db3) ++
      map (fun kv => (blk, leaf_hash_of kv.2, kv.2)) updated_classes)) db3).
  pose proof (si_tables _ _ _ _ _ _ _ Inv) as Ti. pose proof (si_leaves _ _ _ _ _ _ _ Inv) as [Lr Lk].
  assert (Cv : covers (class_leaf pick db4 (block_of root head)) (class_map (W head))).
  { apply (class_covers pick Hp db4 head W root).
    - cbn [db4 with_tries tries on_leaves class_commitment_leaves tables]. rewrite El. split.
      + intros b leaf casm [Hin|Hin]%elem_of_app; [exact (Lr b leaf casm Hin)|].
        apply list_elem_of_fmap in Hin as ([s h] & E & Hin). apply pair_equal_spec in E as [E ->].
        apply pair_equal_spec in E as [_ ->]. exact (proj1 (leaf_hash_ok h (proj2 (updated_classes_ok s h Hin)))).
      + intros n s casm Hn Hin. destruct (Lk n s casm Hn Hin) as (b' & leaf & Hb & Hl). exists b', leaf. split; [exact Hb|].
        apply elem_of_app. now left.
    - cbn [db4 with_tries tables]. rewrite Eta. exact Ti.
    - exact (head_ok _ _ _ _ _ _ _ _ Inv).
    - exact (held_covered _ _ _ _ _ _ _ _ held_class root Ep). }
  destruct (tree_block lib PoseidonHash (HH := PoseidonHash_total) mode (keeps_valid mode mode_ok) _ _ _ _ _ held_class
    (class_leaf pick db4 (block_of root head)) verify kvs _ Cv Hk new_class_map (rm_class Rm))
    as (upd & r & T' & Eu & Er & Ei & Ez & Hd).
  apply update_steps in Eu as (st & Es & Ec). exists st, upd, r, T'. cbv zeta. fold db4.
  split; [|split; [|split; [|split; [|split; [|exact Hd]]]]].
  - apply (update_classes_spec lib pick _ blk updated_classes db3 (class_leaf pick db4 (block_of root head)) _ st).
    + apply Forall_forall. intros [s h] Hin. exact (proj2 (updated_classes_ok s h Hin)).
    + rewrite Et. exact Es.
  - unfold class_store. cbn [db4 with_tries tries on_leaves class_trie]. rewrite Et. exact Ec.
  - rewrite <- Er. symmetry. exact (map_commitment PoseidonHash _ _ (class_represents _ (new_ok _ _ _ _ _ _ _ _ Inv d Hu))).
  - unfold write_class_trie. cbn [db4 with_tries tries on_leaves class_trie class_roots]. rewrite Et, Er0, Ei, from_store_ok, try_ok.
    reflexivity.
  - intros E. apply Ez. unfold kvs. now rewrite E.
Qed.

Lemma set_block_map {A B} (f : A -> B) (h : Z -> A) b x n : f (set_block h b x n) = set_block (fun n => f (h n)) b (f x) n.
Proof. unfold set_block. now destruct (decide (n = b)). Qed.

Lemma mid_contracts db cl : mid db cl (list_to_set updated_contracts) 0 ->
  held (mode := mode) lib H HEIGHT (contract_trie (tries db)) (contract_roots_of (contract_roots (tries db))) low' blk
    (fun b c => slot_map (W' b) c) /\
  hash_inv (contract_state_hashes (tries db)) blk (fun b => entry_leaf constants (W' b)) low'.
Proof.
  intros Md. pose proof (low'_range lib constants mode mode_ok db0 head W low floor Inv) as [[L _] _]. split.
  - eapply held_ext; [eapply end_block; exact (md_writing _ _ _ _ _ _ _ _ _ _ _ _ Md) | reflexivity|].
    intros b c _. unfold set_block. destruct (decide (b = blk)); [|reflexivity]. unfold mid_map.
    destruct (mid_final c) as [Hin|(-> & Es & _)]; [unfold mid_world; now rewrite decide_True|].
    exact (slot_map_same (W head) g c (head_ok _ _ _ _ _ _ _ _ Inv) (new_ok _ _ _ _ _ _ _ _ Inv d Hu) Es).
  - apply (hash_inv_ext _ _ _ _ _ (md_hashes _ _ _ _ _ _ _ _ _ _ _ _ Md)); [|exact L].
    intros b c _. unfold mid_leaf, set_block. destruct (decide (b = blk)); [|reflexivity].
    destruct (mid_final c) as [Hin|(-> & _ & Ee)]; [unfold mid_world; now rewrite decide_True|].
    unfold entry_leaf. now rewrite Ee.
Qed.

Lemma update_state_spec : exists sroot croot db,
  update_starknet_state lib pick constants mode db0 (as_ref d) verify blk db0 = Ret (Ok (sroot, croot, db)) /\
  storage_commitment_of constants g = Ret sroot /\ class_commitment_of g = Ret croot /\ updated db.
Proof.
  assert (Eb : blk - 1 = head) by lia.
  destruct (contracts_part (block_of storage_root (blk - 1))) as (rs & st1 & db1 & st & db2 & cl & E1 & E2 & E3 & Md & Es).
  destruct (storage_part db2 cl st (block_of storage_root (blk - 1)) Md Es ltac:(now rewrite Eb))
    as (upd & r & T' & Ec & Er & Ew & Ez & Hs).
  pose proof (md_rest _ _ _ _ _ _ _ _ _ _ _ _ Md) as [Sh Stb Sl Ss Ssr Sc Scr].
  set (db3 := with_tries (on_storage_trie T' (insert_root mode blk r (storage_roots (tries db2)))) db2) in *.
  destruct (class_part db3 (block_of class_root (blk - 1)) Sl Sc Scr Stb ltac:(now rewrite Eb))
    as (st' & upd' & r' & T'' & F1 & F2 & F3 & F4 & F5 & F6). cbv zeta in F1, F2, F4.
  set (db4 := with_tries (on_leaves _) db3) in *.
  exists (root_commitment upd), (root_commitment upd').
  exists (with_tries (on_class_trie T'' (insert_root mode blk r' (class_roots (tries db4)))) db4).
  split; [|split; [exact Er|]; split; [exact F3|]].
  - unfold update_starknet_state. cbv zeta. rewrite E1, try_ok, E2, try_ok, E3, try_ok, Ec, from_tree_ok, try_ok, Ew, try_ok.
    fold db3. replace (class_roots (tries db3)) with (class_roots (tries db0)) by (symmetry; exact Scr).
    change (ref_declared (as_ref d) ++ ref_migrated (as_ref d)) with updated_classes.
    rewrite F1, try_ok, F2, from_tree_ok, try_ok, F4, try_ok. reflexivity.
  - destruct (mid_contracts db2 cl Md) as [Hct Hhs]. split; try assumption.
    + cbn [db4 db3 with_tries tries on_class_trie on_leaves on_storage_trie class_commitment_leaves]. now rewrite Sl.
    + split; cbn [db4 db3 with_tries tries on_class_trie on_leaves on_storage_trie contract_trie contract_roots storage_trie
        storage_roots class_trie class_roots].
      * exact Hct.
      * rewrite Ssr. eapply held_ext; [exact Hs | reflexivity|]. intros b k _. exact (set_block_map (contract_map constants) W blk g b).
      * rewrite Scr. eapply held_ext; [exact F6 | reflexivity|]. intros b k _. exact (set_block_map class_map W blk g b).
    + exact (md_roots _ _ _ _ _ _ _ _ _ _ _ _ Md).
    + cbn [db4 db3 with_tries tries on_class_trie on_leaves on_storage_trie storage_roots]. rewrite Ssr.
      intros j [Hj|[-> N]]%insert_root_some; [now left | right]. split; [reflexivity|]. intros E. now apply N, Ez.
    + cbn [db4 db3 with_tries tries on_class_trie on_leaves on_storage_trie class_roots]. rewrite Scr.
      intros j [Hj|[-> N]]%insert_root_some; [now left | right]. split; [reflexivity|]. intros E. now apply N, F5.
Qed.
End Commit.
