(* ===== verification/StateStep.v ===== *)
(** A block is committed: the state update is applied to the tries and stored in
    the tables, and the invariant holds again. *)

From Stdlib Require Import ZArith Lia Bool List.
From stdpp Require Import gmap gmultiset list.
From S2P Require Import Prelude Bytes Felt Pedersen Poseidon MerkleNode Tree TrieSpec TreeHash TreeRep TreeMap.
From S2P Require Import TreeCommit TrieStore TrieChain RootTables TriePrune Forest CommitmentFacts Hashing.
From S2P Require Import StateUpdate World StateTables StateLogs StateReverse StarknetState StateTries.
From S2P Require Import HashRows StateInv StateApply StateBlock StateCommit.
Local Open Scope Z_scope.
#[local] Strategy 100 [try bind_outcome from_tree from_store infallible].

Lemma touched_more {K V} (l l' : list (Z * K * V)) from to k : (forall row, row ∈ l -> row ∈ l') ->
  touched l from to k -> touched l' from to k.
Proof. intros Sub (b & v & Hin & Hb). exists b, v. auto. Qed.

Section Rows.
Context {order : HashOrder} (blk : Z) (d : StateUpdateData).

Lemma flat_map_in {A B} (f : A -> list B) l x : x ∈ flat_map f l <-> exists a, a ∈ l /\ x ∈ f a.
Proof. setoid_rewrite list_elem_of_In. apply in_flat_map. Qed.

(** The rows that an update adds are those of its maps. *)
Lemma storage_rows_in (c : Felt) u b x v : (b, x, v) ∈ storage_rows blk (c, u) <-> b = blk /\ x.1 = c /\ storage u !! x.2 = Some v.
Proof.
  unfold storage_rows. rewrite list_elem_of_In, in_map_iff. cbn [fst snd]. split.
  - intros ([k v'] & E & Hin). injection E as <- <- <-. apply list_elem_of_In, iter_in in Hin. auto.
  - intros (-> & <- & E). destruct x as [c k]. exists (k, v). split; [reflexivity|]. now apply list_elem_of_In, iter_in.
Qed.

Lemma system_rows_in (c : Felt) (s : gmap Felt Felt) b x v : (b, x, v) ∈ system_rows blk (c, s) <-> b = blk /\ x.1 = c /\ s !! x.2 = Some v.
Proof.
  unfold system_rows. rewrite list_elem_of_In, in_map_iff. cbn [fst snd]. split.
  - intros ([k v'] & E & Hin). injection E as <- <- <-. apply list_elem_of_In, iter_in in Hin. auto.
  - intros (-> & <- & E). destruct x as [c k]. exists (k, v). split; [reflexivity|]. now apply list_elem_of_In, iter_in.
Qed.

Lemma opt_row_in a o b c v : (b, c, v) ∈ opt_row blk a o <-> b = blk /\ c = a /\ o = Some v.
Proof.
  unfold opt_row. destruct o as [x|].
  - rewrite list_elem_of_singleton. split; [intros [= -> -> ->]; auto | intros (-> & -> & [= ->]); reflexivity].
  - split; [intros Hin; inversion Hin | intros (_ & _ & [=])].
Qed.

Lemma new_storage_rows b x v :
  (forall c s u, system_contract_updates d !! c = Some s -> contract_updates d !! c = Some u -> False) ->
  (b, x, v) ∈ flat_map (storage_rows blk) (iter (contract_updates d)) ++ flat_map (system_rows blk) (iter (system_contract_updates d))
  <-> b = blk /\ (all_slots (system_contract_updates d) ∪ all_slots (storage <$> contract_updates d)) !! x = Some v.
Proof.
  intros Dis. rewrite elem_of_app, !flat_map_in. destruct x as [c k].
  rewrite lookup_union_Some_raw, !all_slots_lookup, lookup_fmap. split.
  - intros [([c' u] & Hin & Hr)|([c' s] & Hin & Hr)].
    + apply iter_in in Hin. apply storage_rows_in in Hr as (-> & <- & Hr). cbn [fst snd] in *. split; [reflexivity|]. right.
      rewrite Hin. split; [|exact Hr].
      destruct (system_contract_updates d !! c) as [s|] eqn:E; [|reflexivity].
      exfalso. exact (Dis c s u E Hin).
    + apply iter_in in Hin. apply system_rows_in in Hr as (-> & <- & Hr). cbn [fst snd] in *. split; [reflexivity|]. left. now rewrite Hin.
  - intros [-> [E|[_ E]]].
    + right. destruct (system_contract_updates d !! c) as [s|] eqn:Es; [|discriminate]. exists (c, s).
      split; [now apply iter_in|]. now apply system_rows_in.
    + left. destruct (contract_updates d !! c) as [u|] eqn:Eu; [|discriminate]. exists (c, u).
      split; [now apply iter_in|]. now apply storage_rows_in.
Qed.

Lemma new_nonce_rows b c v : (b, c, v) ∈ flat_map (nonce_rows blk) (iter (contract_updates d)) <-> b = blk /\ nonces d !! c = Some v.
Proof.
  rewrite flat_map_in. unfold nonces. rewrite lookup_omap. split.
  - intros ([c' u] & Hin & Hr). apply iter_in in Hin. apply opt_row_in in Hr as (-> & -> & Hr). cbn [fst snd] in *. now rewrite Hin.
  - intros [-> E]. destruct (contract_updates d !! c) as [u|] eqn:Eu; [|discriminate]. exists (c, u).
    split; [now apply iter_in|]. now apply opt_row_in.
Qed.

Lemma new_class_rows b c v : (b, c, v) ∈ flat_map (class_rows blk) (iter (contract_updates d)) <->
  b = blk /\ deployed_contracts d !! c = Some v.
Proof.
  rewrite flat_map_in. unfold deployed_contracts. rewrite lookup_omap. split.
  - intros ([c' u] & Hin & Hr). apply iter_in in Hin. apply opt_row_in in Hr as (-> & -> & Hr). cbn [fst snd] in *. now rewrite Hin.
  - intros [-> E]. destruct (contract_updates d !! c) as [u|] eqn:Eu; [|discriminate]. exists (c, u).
    split; [now apply iter_in|]. now apply opt_row_in.
Qed.
End Rows.

Section Step.
Context (lib : Libraries) {laws : LibraryLaws lib} (constants : PedersenTables) (Hc : tables_ok constants).
Context (pick : list Felt -> option Felt) (Hp : picks pick).
Context (mode : TriePruneMode) (mode_ok : mode_keeps mode) {order : HashOrder}.
Context (db0 : StateDb) (head : Z) (W : Z -> World) (low floor : Z).
Context (Inv : state_inv (mode := mode) constants lib db0 head W low floor).
Context (d : StateUpdateData) (Hu : update_ok d (W head)).

Abbreviation g := (apply_update d (W head)).
Abbreviation blk := (head + 1).
Abbreviation low' := (Z.max low (threshold mode blk)).
Abbreviation W' := (set_block W blk g).

(** A row of a compiled class that a reorg has left behind for the block is the
    one of the new state, if the class is one of the new state. *)
Definition agrees (t : Tables) (block : Z) : Prop := forall s v v', (block, s, v) ∈ casm_log t ->
  w_casm g !! s = Some v' -> v' = v.

Context (Ag : agrees (tables db0) blk).

Lemma head_min' : -1 <= head.
Proof. exact (head_min lib constants mode db0 head W low floor Inv). Qed.

Lemma disjoint_updates c s u : system_contract_updates d !! c = Some s -> contract_updates d !! c = Some u -> False.
Proof.
  intros Es Eu. now rewrite (contract_not_system d (W head) Hu c u Eu) in Es.
Qed.

(** What the tables are after the update. *)
Record stored (t : Tables) : Prop := {
  st_wf : wf_tables t;
  st_storage : storage_log t = storage_log (tables db0) ++ (flat_map (storage_rows blk) (iter (contract_updates d)) ++
    flat_map (system_rows blk) (iter (system_contract_updates d)));
  st_nonce : nonce_log t = nonce_log (tables db0) ++ flat_map (nonce_rows blk) (iter (contract_updates d));
  st_class : contract_rows t = contract_rows (tables db0) ++ flat_map (class_rows blk) (iter (contract_updates d));
  st_casm b s v : (b, s, v) ∈ casm_log t <-> (b, s, v) ∈ casm_log (tables db0) \/ b = blk /\ (s, v) ∈ updated_classes d;
  st_known s : is_Some (class_definitions (tables db0) !! s) \/ is_Some (declared_sierra_classes d !! s) ->
    is_Some (class_definitions t !! s)
}.

Lemma migrated_known s : is_Some (migrated_compiled_classes d !! s) -> is_Some (class_definitions (tables db0) !! s).
Proof.
  intros [h E]. destruct (uo_migrated _ _ Hu s h E) as (_ & _ & [v Ev]). pose proof (si_tables _ _ _ _ _ _ _ Inv) as Ti.
  apply (ti_casm _ _ _ Ti head s v ltac:(lia)) in Ev.
  apply log_at_some in Ev as (b & _ & Hin & _); [|exact (ti_casm_unique _ _ _ Ti)]. exact (ti_known _ _ _ Ti b s v Hin).
Qed.

Lemma updated_classes_map s v : (s, v) ∈ updated_classes d <->
  (migrated_compiled_classes d ∪ declared_sierra_classes d) !! s = Some v.
Proof.
  rewrite (updated_classes_in d s v), lookup_union_Some_raw. split; [|tauto]. intros [E|E]; [right | now left].
  split; [|exact E]. destruct (migrated_compiled_classes d !! s) as [x|] eqn:Em; [|reflexivity].
  exfalso. exact (proj1 (map_disjoint_spec _ _) (declared_disjoint d (W head) Hu) s v x E Em).
Qed.

(** *** Compiled classes *)

Lemma step_casm s : w_casm g !! s = match (migrated_compiled_classes d ∪ declared_sierra_classes d) !! s with
  | Some v => Some v | None => w_casm (W head) !! s end.
Proof.
  cbn [apply_update w_casm]. rewrite map_union_assoc. destruct (_ !! s) as [v|] eqn:E at 2.
  - now apply lookup_union_Some_l.
  - now rewrite lookup_union_r.
Qed.

Lemma insert_tables headers : is_Some (headers !! blk) ->
  exists t, insert_state_update_data blk headers d (tables db0) = Ok t /\ stored t.
Proof.
  intros Hh. pose proof (si_tables _ _ _ _ _ _ _ Inv) as Ti.
  destruct (insert_state_update_spec blk headers d (tables db0) (ti_wf _ _ _ Ti) Hh (declared_disjoint d (W head) Hu))
    as (t & Et & Hw & Es & En & Ec & Ek & Kn & Kd).
  - intros s v Hin Hs. apply casm_log_in in Hin. apply list_elem_of_fmap in Hs as ([s' v'] & -> & Hs). cbn [fst].
    now rewrite <- (Ag s' v v' Hin (updated_casm head W d Hu s' v' Hs)).
  - exact migrated_known.
  - exists t. split; [exact Et|]. split; [exact Hw | exact Es | exact En | exact Ec | | intros s [Hs|Hs]; auto].
    intros b s v. rewrite !casm_log_in. apply Ek.
Qed.

Section Compiled.
Context (t : Tables) (St : stored t).

Lemma stored_old b s v : b <= head -> (b, s, v) ∈ casm_log t <-> (b, s, v) ∈ casm_log (tables db0).
Proof. intros Hb. rewrite (st_casm _ St). split; [|tauto]. intros [Hin|[-> _]]; [exact Hin | lia]. Qed.

Lemma stored_row s v v' : (blk, s, v) ∈ casm_log t -> w_casm g !! s = Some v' -> v' = v.
Proof.
  intros [Hin|[_ Hin]]%(st_casm _ St) E; [exact (Ag s v v' Hin E)|]. apply (updated_casm head W d Hu) in Hin. congruence.
Qed.

Lemma stored_unique : log_unique (casm_log t).
Proof.
  intros b s v v' H1 H2. pose proof H1 as [O1|[-> U1]]%(st_casm _ St).
  - pose proof H2 as [O2|[-> U2]]%(st_casm _ St).
    + exact (ti_casm_unique _ _ _ (si_tables _ _ _ _ _ _ _ Inv) b s v v' O1 O2).
    + symmetry. exact (stored_row s v v' H1 (updated_casm head W d Hu s v' U2)).
  - exact (stored_row s v' v H2 (updated_casm head W d Hu s v U1)).
Qed.

Lemma stored_new s v : w_casm g !! s = Some v -> log_at (casm_log t) blk s = Some v.
Proof.
  intros E. pose proof (si_tables _ _ _ _ _ _ _ Inv) as Ti. pose proof E as E'. rewrite step_casm in E'.
  destruct ((migrated_compiled_classes d ∪ declared_sierra_classes d) !! s) as [x|] eqn:Eu.
  - apply log_at_some; [exact stored_unique|]. exists blk. split; [lia|]. split; [|auto]. apply (st_casm _ St). right.
    split; [reflexivity|]. apply updated_classes_map. congruence.
  - apply (ti_casm _ _ _ Ti head s v ltac:(lia)) in E'. apply log_at_some in E' as (b & Hb & Hin & Hm); [|exact (ti_casm_unique _ _ _ Ti)].
    apply log_at_some; [exact stored_unique|]. destruct (log_at (casm_log t) blk s) as [x|] eqn:El.
    + apply log_at_some in El as (b' & Hb' & Hin' & Hm'); [|exact stored_unique]. exists b'. split; [exact Hb'|]. split; [|exact Hm'].
      destruct (Z.eq_dec b' blk) as [->|N]; [now rewrite (stored_row s x v Hin' E)|]. apply stored_old in Hin'; [|lia].
      assert (b' = b) as ->; [|now rewrite (stored_old b s v Hb)].
      specialize (Hm b' x Hin' ltac:(lia)). specialize (Hm' b v (proj2 (stored_old b s v Hb) Hin) ltac:(lia)). lia.
    + apply (stored_old b s v Hb) in Hin. pose proof (proj1 (log_at_none _ _ _) El b v Hin). lia.
Qed.

Lemma stored_casm n s v : n <= blk -> w_casm (W' n) !! s = Some v -> log_at (casm_log t) n s = Some v.
Proof.
  intros Hn. unfold set_block. destruct (decide (n = blk)) as [->|N]; [apply stored_new|]. intros E.
  pose proof (si_tables _ _ _ _ _ _ _ Inv) as Ti. rewrite <- (ti_casm _ _ _ Ti n s v ltac:(lia) E).
  apply log_at_ext; [exact stored_unique | exact (ti_casm_unique _ _ _ Ti)|]. intros b x Hb. apply stored_old. lia.
Qed.

Lemma stored_changed n s : n <= blk -> w_casm (W' n) !! s <> w_casm (W' (n - 1)) !! s -> exists v, (n, s, v) ∈ casm_log t.
Proof.
  intros Hn. unfold set_block. rewrite (decide_False (P := n - 1 = blk)) by lia. destruct (decide (n = blk)) as [->|N].
  - replace (blk - 1) with head by lia. rewrite step_casm. intros Ne.
    destruct ((migrated_compiled_classes d ∪ declared_sierra_classes d) !! s) as [x|] eqn:Eu; [|easy]. exists x.
    apply (st_casm _ St). right. split; [reflexivity|]. now apply updated_classes_map.
  - intros Ne. destruct (ti_changed _ _ _ (si_tables _ _ _ _ _ _ _ Inv) n s ltac:(lia) Ne) as [v Hin]. exists v.
    apply (st_casm _ St). now left.
Qed.

Lemma stored_casm_rows b s v : (b, s, v) ∈ casm_log t -> 0 <= b /\ key_ok s.
Proof.
  intros [Hin|[-> Hin]]%(st_casm _ St); [exact (ti_casm_rows _ _ _ (si_tables _ _ _ _ _ _ _ Inv) b s v Hin)|].
  pose proof head_min'. split; [lia|]. exact (proj1 (updated_classes_ok head W d Hu s v Hin)).
Qed.

Lemma stored_fresh : fresh (tables db0) head W -> fresh t blk W'.
Proof.
  intros Fr b s v [Hin|[-> Hin]]%(st_casm _ St); unfold set_block.
  - destruct (Fr b s v Hin) as [Hb E]. rewrite decide_False by lia. split; [lia | exact E].
  - rewrite decide_True by reflexivity. split; [lia | exact (updated_casm head W d Hu s v Hin)].
Qed.
End Compiled.

Lemma stored_inv t : stored t -> table_inv t blk W'.
Proof.
  intros St. pose proof (si_tables _ _ _ _ _ _ _ Inv) as Ti. pose proof head_min' as Hh.
  split; [exact (st_wf _ St) | | | | | | | |].
  - rewrite (st_storage _ St). eapply tracks_ext.
    + exact (tracks_add _ _ head _ _ (ti_storage _ _ _ Ti) Hh (fun b k v => new_storage_rows blk d b k v disjoint_updates)).
    + intros n _. rewrite (set_block_map w_storage). unfold set_block. destruct (decide (n = blk)); [|reflexivity].
      cbn [apply_update w_storage]. now rewrite map_union_assoc.
  - rewrite (st_nonce _ St). eapply tracks_ext.
    + exact (tracks_add _ _ head _ _ (ti_nonce _ _ _ Ti) Hh (fun b k v => new_nonce_rows blk d b k v)).
    + intros n _. now rewrite (set_block_map w_nonce).
  - rewrite (st_class _ St). eapply tracks_ext.
    + exact (tracks_add _ _ head _ _ (ti_class _ _ _ Ti) Hh (fun b k v => new_class_rows blk d b k v)).
    + intros n _. now rewrite (set_block_map w_class).
  - exact (stored_casm_rows t St).
  - exact (stored_unique t St).
  - exact (stored_casm t St).
  - exact (stored_changed t St).
  - intros b s v. rewrite (st_casm _ St). intros [Hin|[_ Hin]]; apply (st_known _ St).
    + left. exact (ti_known _ _ _ Ti b s v Hin).
    + apply updated_classes_in in Hin as [E|E]; [right; eauto | left; apply migrated_known; eauto].
Qed.

Lemma stored_leaves : leaf_inv (class_commitment_leaves (tries db0) ++
  map (fun kv => (blk, leaf_hash_of kv.2, kv.2)) (updated_classes d)) blk W'.
Proof.
  pose proof (si_leaves _ _ _ _ _ _ _ Inv) as [Lr Lk]. split.
  - intros b leaf casm [Hin|Hin]%elem_of_app; [exact (Lr b leaf casm Hin)|].
    apply list_elem_of_fmap in Hin as ([s h] & E & Hin). apply pair_equal_spec in E as [E ->].
    apply pair_equal_spec in E as [_ ->]. exact (proj1 (leaf_hash_ok h (proj2 (updated_classes_ok head W d Hu s h Hin)))).
  - intros n s casm Hn. unfold set_block. assert (Old : forall m, m <= head -> w_casm (W m) !! s = Some casm -> m <= n ->
      exists b' leaf, b' <= n /\ (b', leaf, casm) ∈ class_commitment_leaves (tries db0) ++
        map (fun kv => (blk, leaf_hash_of kv.2, kv.2)) (updated_classes d)).
    { intros m Hm E Hmn. destruct (Lk m s casm Hm E) as (b' & leaf & Hb & Hl). exists b', leaf. split; [lia|]. apply elem_of_app. now left. }
    destruct (decide (n = blk)) as [->|N]; [|intros E; apply (Old n); [lia | exact E | lia]]. rewrite step_casm.
    destruct ((migrated_compiled_classes d ∪ declared_sierra_classes d) !! s) as [v|] eqn:Eu; [|intros E; apply (Old head); [lia | exact E | lia]].
    intros [= ->]. exists blk, (leaf_hash_of casm). split; [lia|]. apply elem_of_app. right.
    apply list_elem_of_fmap. exists (s, casm). split; [reflexivity | now apply updated_classes_map].
Qed.

(** Every contract of the update has rows of the block. *)
Lemma stored_slots t c : stored t -> stores d c -> exists k, touched (storage_log t) blk (blk - 1) (c, k).
Proof.
  intros St Hs. assert (Hm : exists k v, (all_slots (system_contract_updates d) ∪ all_slots (storage <$> contract_updates d)) !! (c, k) = Some v).
  { setoid_rewrite lookup_union_Some_raw. setoid_rewrite all_slots_lookup. rewrite lookup_fmap. destruct Hs as [(u & Eu & N)|[s Es]].
    - apply map_choose in N as (k & v & E). exists k, v. right. rewrite Eu. split; [|exact E].
      now rewrite (contract_not_system d (W head) Hu c u Eu).
    - destruct (uo_system _ _ Hu c s Es) as (_ & N). apply map_choose in N as (k & v & E). exists k, v. left. now rewrite Es. }
  destruct Hm as (k & v & E). exists k, blk, v. split; [|lia]. rewrite (st_storage _ St), elem_of_app. right.
  apply (new_storage_rows blk d blk (c, k) v disjoint_updates). auto.
Qed.

Lemma stored_touched t c : stored t -> c ∈ updated_contracts d -> touched_contract t blk (blk - 1) c.
Proof.
  intros St Hc'. apply updated_contracts_in in Hc' as [[u Eu]|[s Es]].
  - destruct (uo_contract _ _ Hu c u Eu) as (_ & _ & _ & [[x Ex]|[[n En]|N]]).
    + left. exists blk, (class_hash x). split; [|lia]. rewrite (st_class _ St), elem_of_app. right.
      apply (new_class_rows blk d). unfold deployed_contracts. rewrite lookup_omap, Eu. cbn. now rewrite Ex.
    + right. left. exists blk, n. split; [|lia]. rewrite (st_nonce _ St), elem_of_app. right.
      apply (new_nonce_rows blk d). unfold nonces. rewrite lookup_omap, Eu. cbn. now rewrite En.
    + right. right. apply (stored_slots t c St). left. eauto.
  - right. right. apply (stored_slots t c St). right. eauto.
Qed.

Lemma stored_floor t db : stored t -> updated lib constants mode db0 head W low d db -> floor_inv (tries db) t floor.
Proof.
  intros St Up. pose proof (si_floor _ _ _ _ _ _ _ Inv) as [Fc Fs Fk].
  assert (M1 : forall row, row ∈ storage_log (tables db0) -> row ∈ storage_log t)
    by (intros row Hin; rewrite (st_storage _ St); apply elem_of_app; now left).
  assert (M2 : forall row, row ∈ nonce_log (tables db0) -> row ∈ nonce_log t)
    by (intros row Hin; rewrite (st_nonce _ St); apply elem_of_app; now left).
  assert (M3 : forall row, row ∈ contract_rows (tables db0) -> row ∈ contract_rows t)
    by (intros row Hin; rewrite (st_class _ St); apply elem_of_app; now left).
  split.
  - intros c j [Hj|[-> Hs]]%(up_contract_roots _ _ _ _ _ _ _ _ _ Up) Hf; [|exact (stored_slots t c St Hs)].
    destruct (Fc c j Hj Hf) as [k Hk]. exists k. exact (touched_more _ _ _ _ _ M1 Hk).
  - intros j [Hj|[-> Hn]]%(up_storage_roots _ _ _ _ _ _ _ _ _ Up) Hf.
    + destruct (Fs j Hj Hf) as [c [T|[T|[k T]]]]; exists c; [left | right; left | right; right; exists k];
        [exact (touched_more _ _ _ _ _ M3 T) | exact (touched_more _ _ _ _ _ M2 T) | exact (touched_more _ _ _ _ _ M1 T)].
    + destruct (updated_contracts d) as [|c l] eqn:E; [easy|]. exists c. apply (stored_touched t c St). rewrite E. now left.
  - intros j [Hj|[-> Hn]]%(up_class_roots _ _ _ _ _ _ _ _ _ Up) Hf.
    + destruct (Fk j Hj Hf) as [s T]. exists s. apply (touched_more (casm_log (tables db0))); [|exact T].
      intros [[b k] v] Hin. apply (st_casm _ St). now left.
    + destruct (updated_classes d) as [|[s v] l] eqn:E; [easy|]. exists s, blk, v. split; [|lia].
      apply (st_casm _ St). right. split; [reflexivity|]. rewrite E. now left.
Qed.

(** ** The block *)

Context (Rm : rooms constants db0 head W d) (verify : bool) (hash : Felt) (version : StarknetVersion).

Lemma commitment_parts sroot croot : storage_commitment_of constants g = Ret sroot -> class_commitment_of g = Ret croot ->
  state_commitment_of constants g version = state_commitment sroot croot version.
Proof. intros Es Ec. unfold state_commitment_of. rewrite Es, bind_ret, Ec, bind_ret. reflexivity. Qed.

Lemma new_block_inv db t commitment : updated lib constants mode db0 head W low d db -> stored t ->
  state_commitment_of constants g version = Ret commitment ->
  state_inv (mode := mode) constants lib (MkDb (<[blk := MkHeader hash commitment version]> (headers db)) t (tries db)) blk W' low' floor.
Proof.
  intros Up St Ec. pose proof head_min' as Hh.
  pose proof (low'_range lib constants mode mode_ok db0 head W low floor Inv) as [L _]. split; cbn [headers tables tries].
  - intros n Hn. unfold set_block. destruct (decide (n = blk)); [exact (new_ok _ _ _ _ _ _ _ _ Inv d Hu)|].
    apply (si_world _ _ _ _ _ _ _ Inv). lia.
  - intros n. rewrite (up_headers _ _ _ _ _ _ _ _ _ Up). destruct (decide (n = blk)) as [->|N].
    + rewrite lookup_insert_eq. split; [lia|]. unfold set_block. now rewrite decide_True.
    + rewrite lookup_insert_ne by congruence. unfold set_block. rewrite decide_False by exact N.
      pose proof (si_headers _ _ _ _ _ _ _ Inv n) as Hn. destruct (headers db0 !! n); [|lia]. split; [lia | apply Hn].
  - exact (stored_inv t St).
  - rewrite (up_leaves _ _ _ _ _ _ _ _ _ Up). exact stored_leaves.
  - exact (up_hashes _ _ _ _ _ _ _ _ _ Up).
  - lia.
  - exact (up_tries _ _ _ _ _ _ _ _ _ Up).
  - exact (stored_floor t db St Up).
Qed.

Lemma block_spec : exists commitment db, state_commitment_of constants g version = Ret commitment /\
  state_inv (mode := mode) constants lib db blk W' low' floor /\ (fresh (tables db0) head W -> fresh (tables db) blk W') /\
  forall expected, l2_update lib pick constants mode db0 d hash expected version verify blk db0 =
    if match expected with Some e => felt_eqb commitment e | None => true end then Ret (Ok db)
    else Ret (Err StateCommitmentMismatch).
Proof.
  destruct (update_state_spec lib constants Hc pick Hp mode mode_ok db0 head W low floor Inv d Hu Rm verify)
    as (sroot & croot & db & Eu & Es & Ek & Up).
  pose proof (commitment_parts sroot croot Es Ek) as Ec.
  destruct (state_commitment_of_total constants Hc g version (new_ok _ _ _ _ _ _ _ _ Inv d Hu)) as (commitment & Et & _).
  set (headers' := <[blk := MkHeader hash commitment version]> (headers db)).
  destruct (insert_tables headers') as (t & Ei & St); [unfold headers'; rewrite lookup_insert_eq; eauto|].
  exists commitment, (MkDb headers' t (tries db)). split; [exact Et|]. split; [exact (new_block_inv db t commitment Up St Et)|].
  split; [exact (stored_fresh t St)|]. intros expected. rewrite Et in Ec. unfold l2_update. rewrite Eu, try_ok, <- Ec, infallible_ok, try_ok.
  destruct (match expected with Some e => felt_eqb commitment e | None => true end); [|reflexivity]. cbv zeta.
  fold headers'. now rewrite (up_tables _ _ _ _ _ _ _ _ _ Up), Ei.
Qed.
End Step.
