(* ===== verification/StateRevert.v ===== *)
(** Reverting the contracts: the state of an earlier block is written into the
    tries again, from the reverse updates. *)

From Stdlib Require Import ZArith Lia Bool List.
From stdpp Require Import gmap gmultiset list.
From S2P Require Import Prelude Bytes Felt Pedersen Poseidon MerkleNode Tree TrieSpec TreeHash TreeRep TreeMap.
From S2P Require Import TreeCommit TrieStore TrieChain RootTables TriePrune Forest CommitmentFacts Hashing.
From S2P Require Import StateUpdate World StateTables StateLogs StateReverse StarknetState StateTries.
From S2P Require Import HashRows StateInv StateApply StateBlock.
Local Open Scope Z_scope.
#[local] Strategy 100 [try bind_outcome from_tree from_store infallible].

Section Revert.
Context (lib : Libraries) {laws : LibraryLaws lib} (constants : PedersenTables) (Hc : tables_ok constants).
Context (mode : TriePruneMode) (mode_ok : valid_mode mode) {order : HashOrder}.
Context (db0 : StateDb) (head target : Z) (W : Z -> World) (low floor : Z).
Context (Inv : state_inv (mode := mode) constants lib db0 head W low floor) (Ht : 0 <= target < head) (Hlow : low <= target).

Abbreviation low' := (Z.max low (threshold mode target)).
Abbreviation H := (PedersenHash constants).
Abbreviation roots_of db := (contract_roots_of (contract_roots (tries db))).
Abbreviation t0 := (tables db0).
Abbreviation contract_touched c := (touched_contract t0 head target c).

Lemma low'_target : 0 <= low' <= target.
Proof.
  pose proof (si_low _ _ _ _ _ _ _ Inv) as Hl. unfold threshold. clear -mode_ok Hl Ht Hlow. destruct mode; cbn in *; lia.
Qed.

Lemma ok_at n : n <= head -> world_ok (W n).
Proof. exact (si_world _ _ _ _ _ _ _ Inv n). Qed.

Lemma tables_at : table_inv t0 head W.
Proof. exact (si_tables _ _ _ _ _ _ _ Inv). Qed.

(** ** What did not change *)

Lemma tracks_gap {K V} `{Countable K} (l : list (Z * K * V)) hist a b k : tracks l head hist -> a <= b -> b <= head ->
  (forall j v, (j, k, v) ∈ l -> a < j <= b -> False) -> hist b !! k = hist a !! k.
Proof.
  intros T Hab Hb N. rewrite <- (tr_at _ _ _ T b k Hb), <- (tr_at _ _ _ T a k) by lia.
  exact (log_at_gap l a b k (tr_unique _ _ _ T) Hab N).
Qed.

Lemma untouched {K V} `{Countable K} (l : list (Z * K * V)) hist b k : tracks l head hist -> target <= b <= head ->
  ~ touched l head target k -> hist b !! k = hist target !! k.
Proof.
  intros T Hb N. apply (tracks_gap l hist target b k T); [lia | lia|]. intros j v Hin Hj. apply N. exists j, v.
  split; [exact Hin | lia].
Qed.

Lemma slot_untouched c k : ~ touched (storage_log t0) head target (c, k) -> slot (W target) c k = slot (W head) c k.
Proof. intros N. symmetry. apply (untouched _ _ head (c, k) (ti_storage _ _ _ tables_at)); [lia | exact N]. Qed.

Lemma contract_untouched c : ~ contract_touched c -> contract_entry constants (W target) c = contract_entry constants (W head) c.
Proof.
  intros N. apply contract_entry_ext.
  - intros k. apply slot_untouched. intros T. apply N. right. right. eauto.
  - symmetry. apply (untouched _ _ head c (ti_class _ _ _ tables_at)); [lia|]. intros T. apply N. now left.
  - symmetry. apply (untouched _ _ head c (ti_nonce _ _ _ tables_at)); [lia|]. intros T. apply N. right. now left.
Qed.

(** A row was true at its block. *)
Lemma row_at {K V} `{Countable K} (l : list (Z * K * V)) hist b k v : tracks l head hist -> (b, k, v) ∈ l -> hist b !! k = Some v.
Proof.
  intros T Hin. pose proof (tr_rows _ _ _ T b k v Hin). rewrite <- (tr_at _ _ _ T b k) by lia.
  apply log_at_some; [exact (tr_unique _ _ _ T)|]. exists b. split; [lia|]. auto.
Qed.

(** Contracts that have no class change in the range had their class before. *)
Lemma class_before c : contract_touched c -> ~ touched (contract_rows t0) head target c -> is_system_contract c = false ->
  is_Some (w_class (W target) !! c).
Proof.
  intros Tc N Ns. assert (Hj : exists j, target <= j <= head /\ is_Some (w_class (W j) !! c)).
  { destruct Tc as [T|[(j & n & Hin & Hj)|(k & j & v & Hin & Hj)]]; [easy | |]; exists j; (split; [lia|]).
    - pose proof (row_at _ _ j c n (ti_nonce _ _ _ tables_at) Hin) as E. apply (wo_nonce _ (ok_at j ltac:(lia)) c n E).
    - pose proof (row_at _ _ j (c, k) v (ti_storage _ _ _ tables_at) Hin) as E.
      destruct (wo_storage _ (ok_at j ltac:(lia)) c k v E) as (_ & _ & _ & [Y|Y]); [congruence | exact Y]. }
  destruct Hj as (j & Hj & Y). pose proof (untouched _ _ j c (ti_class _ _ _ tables_at) Hj N) as E. cbv beta in E.
  now rewrite <- E.
Qed.

Lemma touched_key_ok c : contract_touched c -> key_ok c.
Proof.
  intros [(j & x & Hin & Hj)|[(j & x & Hin & Hj)|(k & j & x & Hin & Hj)]].
  - pose proof (row_at _ _ j c x (ti_class _ _ _ tables_at) Hin) as E. apply (wo_class _ (ok_at j ltac:(lia)) c x E).
  - pose proof (row_at _ _ j c x (ti_nonce _ _ _ tables_at) Hin) as E.
    destruct (wo_nonce _ (ok_at j ltac:(lia)) c x E) as [_ [h Eh]]. apply (wo_class _ (ok_at j ltac:(lia)) c h Eh).
  - pose proof (row_at _ _ j (c, k) x (ti_storage _ _ _ tables_at) Hin) as E. apply (wo_storage _ (ok_at j ltac:(lia)) c k x E).
Qed.

(** ** Hashes *)

(** System contracts that change after the target and had storage there did not
    have the root of an empty trie. *)
Definition roots_nonzero : Prop := forall c, is_system_contract c = true -> contract_touched c ->
  in_state (W target) c = true -> contract_root_of constants (W target) c <> Ret FELT_ZERO.

Context (Hz : roots_nonzero).

Definition old_hash (c : Felt) : Felt := default FELT_ZERO (contract_entry constants (W target) c).

Lemma old_hash_leaf c : leaf_of_hash (Some (old_hash c)) = entry_leaf constants (W target) c.
Proof. unfold old_hash, entry_leaf. now destruct (contract_entry constants (W target) c). Qed.

Lemma old_hash_ok c : felt_ok (old_hash c).
Proof.
  unfold old_hash, contract_entry. destruct (in_state (W target) c); [|exact FELT_ZERO_ok].
  destruct (contract_hash_total constants Hc (W target) c (ok_at target ltac:(lia))) as (h & -> & Oh). exact Oh.
Qed.

Lemma deleted_slots c : w_class (W target) !! c = None -> is_system_contract c = false -> forall k, slot (W target) c k = None.
Proof.
  intros Ec Ns k. unfold slot. destruct (w_storage (W target) !! (c, k)) as [v|] eqn:E; [|reflexivity].
  destruct (wo_storage _ (ok_at target ltac:(lia)) c k v E) as (_ & _ & _ & [Y|[? Y]]); congruence.
Qed.

Lemma slot_map_empty w c : world_ok w -> (forall k, leaf_of_hash (slot w c k) = None) -> slot_map w c = ∅.
Proof.
  intros Hw E. apply map_eq. intros p. rewrite lookup_empty, slot_map_lookup by exact Hw.
  destruct (decide (length p = 251%nat)); [|reflexivity]. unfold at_key. destruct (from_bits p); [apply E | reflexivity].
Qed.

(** The hash that [revert_contract_state] computes at its end. *)
Lemma final_hash c root : contract_touched c -> contract_root_of constants (W target) c = Ret root ->
  (is_system_contract c = false -> is_Some (w_class (W target) !! c)) ->
  (if is_system_contract c && felt_eqb root FELT_ZERO then Ret (Ok FELT_ZERO)
   else infallible (contract_state_hash_of constants (class_of (W target) c) root (nonce_of (W target) c)))
  = Ret (Ok (old_hash c)) :> fallible Felt.
Proof.
  intros Tc Er Cl. assert (Wt : world_ok (W target)) by (apply ok_at; lia).
  destruct (contract_hash_total constants Hc (W target) c Wt) as (h & Eh & _).
  assert (Es : contract_state_hash_of constants (class_of (W target) c) root (nonce_of (W target) c) = Ret h).
  { unfold contract_hash in Eh. rewrite Er, bind_ret in Eh. exact Eh. }
  rewrite Es, infallible_ok. unfold old_hash, contract_entry. rewrite Eh. destruct (is_system_contract c) eqn:Ey; cbn [andb].
  - destruct (in_state (W target) c) eqn:Ei.
    + pose proof (Hz c Ey Tc Ei) as N. destruct (felt_eqb root FELT_ZERO) eqn:Ez; [|reflexivity].
      apply felt_eqb_eq in Ez as ->. now destruct N.
    + assert (Em : slot_map (W target) c = ∅).
      { apply slot_map_empty; [exact Wt|]. intros k. destruct (leaf_of_hash (slot (W target) c k)) as [v|] eqn:E; [|reflexivity].
        apply leaf_of_hash_some in E as [E N]. assert (Y : in_state (W target) c = true); [|congruence].
        apply in_state_spec. right. eauto. }
      rewrite (contract_root_map constants (W target) c Wt), Em, spec_root_none in Er by (intros; apply lookup_empty).
      injection Er as <-. now rewrite (proj2 (felt_eqb_eq _ _) eq_refl).
  - assert (Ei : in_state (W target) c = true) by (apply in_state_spec; left; now apply Cl). now rewrite Ei.
Qed.

(** ** One contract *)

(** What the tables hold when the tries of the contracts in [done] are reverted. *)
Definition back_map (done : gset Felt) (c : Felt) : gmap bits Felt := slot_map (W (if decide (c ∈ done) then target else head)) c.

Definition back_read (done : gset Felt) (c : Felt) : Z := if decide (c ∈ done) then target else head.

Record back (db : StateDb) (cl : Felt -> gmultiset Z) (done : gset Felt) (n : nat) : Prop := {
  bk_rest : same_rest db0 db;
  bk_writing : contracts_writing (mode := mode) lib constants db low' target head W (back_read done) (back_map done) cl;
  bk_hashes : hash_inv (contract_state_hashes (tries db)) head (fun b => entry_leaf constants (W b)) low';
  bk_roots c : c ∉ done -> roots_of db c = roots_of db0 c;
  bk_room : room (contract_trie (tries db)) n
}.

Lemma back_tables db cl done n : back db cl done n -> table_inv (tables db) head W.
Proof. intros Bk. rewrite (sr_tables _ _ (bk_rest _ _ _ _ Bk)). exact tables_at. Qed.

Lemma reverted_class_spec db cl done n c u : back db cl done n -> contract_touched c -> reverses t0 head target c u ->
  reverted_class c target u db = Ret (Ok (class_of (W target) c)) /\
  (is_system_contract c = false -> is_Some (w_class (W target) !! c)).
Proof.
  intros Bk Tc [Rc _ _ _]. pose proof (tr_at _ _ _ (ti_class _ _ _ tables_at) target c ltac:(lia)) as Ec.
  unfold reverted_class, class_of. destruct (class u) as [x|].
  - rewrite Ec in Rc. destruct (wo_class _ (ok_at target ltac:(lia)) c _ Rc) as (_ & _ & Ns). rewrite Ns, Rc. eauto.
  - destruct (is_system_contract c) eqn:Ey; [split; [reflexivity | discriminate]|]. destruct (class_before c Tc Rc Ey) as [h Eh].
    rewrite contract_class_log, (sr_tables _ _ (bk_rest _ _ _ _ Bk)), Ec, Eh. eauto.
Qed.

Lemma reverted_nonce_spec db cl done n c u : back db cl done n -> reverses t0 head target c u ->
  reverted_nonce c target u db = nonce_of (W target) c.
Proof.
  intros Bk [_ Rn _ _]. pose proof (tr_at _ _ _ (ti_nonce _ _ _ tables_at) target c ltac:(lia)) as En. cbv beta in En.
  unfold reverted_nonce, nonce_of. destruct (nonce u) as [x|].
  - now rewrite <- En, (Rn x eq_refl).
  - now rewrite contract_nonce_log, (sr_tables _ _ (bk_rest _ _ _ _ Bk)), En.
Qed.

(** The slots of a reverse update lead from the head to the target. *)
Lemma reverse_slots c u : reverses t0 head target c u ->
  Forall (fun kv => key_ok kv.1 /\ felt_ok kv.2) (iter (storage u)) /\
  (forall k v, (k, v) ∈ iter (storage u) -> leaf_of_hash (Some v) = leaf_of_hash (slot (W target) c k)) /\
  (forall k, k ∉ (iter (storage u)).*1 -> slot (W target) c k = slot (W head) c k).
Proof.
  intros [_ _ Rs Rk].
  assert (At : forall k, log_at (storage_log t0) target (c, k) = slot (W target) c k)
    by (intros k; exact (tr_at _ _ _ (ti_storage _ _ _ tables_at) target (c, k) ltac:(lia))).
  split; [|split].
  - apply Forall_forall. intros [k v] Hin%iter_in. cbn. split.
    + destruct (proj2 (Rk k) ltac:(eauto)) as (j & x & Hj & Hb).
      pose proof (row_at _ _ j (c, k) x (ti_storage _ _ _ tables_at) Hj) as E.
      now destruct (wo_storage _ (ok_at j ltac:(lia)) c k x E) as (_ & Ok & _).
    + rewrite (Rs k v Hin), At. destruct (slot (W target) c k) as [x|] eqn:E; [|exact FELT_ZERO_ok].
      now destruct (wo_storage _ (ok_at target ltac:(lia)) c k x E) as (_ & _ & Ok & _).
  - intros k v Hin%iter_in. rewrite (Rs k v Hin), At. now destruct (slot (W target) c k).
  - intros k Hk. apply slot_untouched. intros T. apply Hk, iter_keys. now apply Rk.
Qed.

Lemma reverted_root_spec db cl done n c u : back db cl done (3 * size (slot_map (W target) c) + n) -> c ∉ done ->
  reverses t0 head target c u ->
  exists root db' cl' done', reverted_root lib constants mode c head target u db = Ret (Ok (root, db')) /\
    contract_root_of constants (W target) c = Ret root /\ back db' cl' done' n /\
    (storage u <> ∅ -> done' = {[c]} ∪ done) /\ (storage u = ∅ -> done' = done).
Proof.
  intros Bk Hn Rv. destruct (reverse_slots c u Rv) as (Sk & Si & So).
  assert (EM : back_map done c = slot_map (W head) c) by (unfold back_map; now rewrite decide_False).
  assert (ER : back_read done c = head) by (unfold back_read; now rewrite decide_False).
  assert (Wh : world_ok (W head)) by (apply ok_at; lia). assert (Wt : world_ok (W target)) by (apply ok_at; lia).
  pose proof (bk_writing _ _ _ _ Bk) as Wr. unfold reverted_root. destruct (iter (storage u)) as [|kv us] eqn:Eus.
  - destruct (stored_root lib constants db low' _ _ W _ _ cl c (W head) Wr Wh EM) as (h & Er & Eh). rewrite ER in Er.
    rewrite Er, try_ok. exists h, db, cl, done. apply iter_nil in Eus. split; [reflexivity|]. split; [|split; [|now split]].
    + rewrite <- Eh. apply contract_root_ext. intros k. apply So. intros Hin. inversion Hin.
    + destruct Bk as [B1 B2 B3 B4 B5]. split; try assumption. apply (room_le _ _ _ B5). lia.
  - set (kvs := kv :: us) in *. unfold contract_root_index.
    destruct (prepare_slots lib constants Hc db low' _ _ W _ _ cl c kvs false
      (contract_leaf db c (block_of (root_index (roots_of db c) head) head)) (W head) (W target) Wr Wh Wt EM)
      as (st & upd & R & Es & Ec & P & Em & Eh); try assumption.
    { apply (contract_covers db _ head W c _ eq_refl (back_tables _ _ _ _ Bk) Wh). intros E. rewrite <- EM.
      pose proof (ver_shape _ _ _ _ _ (contracts_current _ _ _ _ _ _ _ _ _ _ c Wr)) as Sh. unfold current in Sh.
      rewrite ER in Sh. cbn [v_root v_map] in Sh. rewrite E in Sh. exact (proj1 Sh). }
    rewrite ER in Es.
    destruct (write_trie lib H HEIGHT mode_ok _ _ _ _ _ _ _ _ cl c (paths kvs) upd R n Wr P) as (r & T & lv & Ei & Hr & _ & _ & Wr').
    { rewrite Em. exact (bk_room _ _ _ _ Bk). }
    { right. rewrite ER. split; [lia|]. split; [discriminate | exact Em]. }
    exists (root_commitment upd), (with_tries (on_contract_trie T (insert_contract_root mode target c r (contract_roots (tries db)))) db),
      (set_key cl c lv), ({[c]} ∪ done).
    cbv zeta. unfold contract_store. rewrite Es, try_ok, Ec, from_tree_ok, try_ok. unfold write_contract_trie.
    rewrite Ei, from_store_ok, try_ok, try_ok. split; [reflexivity|]. split; [exact Eh|]. split; [|split; [auto|]].
    + rewrite Z.max_l in Wr' by lia. split.
      * now destruct (bk_rest _ _ _ _ Bk).
      * eapply writing_ext; [exact Wr' | | | | reflexivity].
        -- intros c'. apply insert_contract_roots_of.
        -- intros c'. unfold back_read, set_key. destruct (decide (c' = c)) as [->|N]; [now rewrite decide_True by set_solver|].
           destruct (decide (c' ∈ done)); [now rewrite decide_True by set_solver | now rewrite decide_False by set_solver].
        -- intros c'. unfold back_map, set_key. destruct (decide (c' = c)) as [->|N].
           ++ rewrite decide_True by set_solver. now symmetry.
           ++ destruct (decide (c' ∈ done)); [now rewrite decide_True by set_solver | now rewrite decide_False by set_solver].
      * exact (bk_hashes _ _ _ _ Bk).
      * intros c' N. cbn [with_tries tries on_contract_trie contract_roots]. rewrite insert_contract_roots_of, set_key_ne by set_solver.
        apply (bk_roots _ _ _ _ Bk). set_solver.
      * exact Hr.
    + intros E. assert (Hne : kvs <> []) by discriminate. exfalso. apply Hne. rewrite <- Eus. now apply iter_nil.
Qed.

(** A contract whose trie is not written: it has no slots at the target, or they
    did not change. *)
Definition settled (c : Felt) : Prop :=
  slot_map (W target) c = ∅ \/ forall k, ~ touched (storage_log t0) head target (c, k).

Lemma write_hash db cl done n c : back db cl done n -> back (write_state_hash mode target c (old_hash c) db) cl done n.
Proof.
  intros [B1 B2 B3 B4 B5]. pose proof low'_target. split; [now destruct B1 | exact B2 | | exact B4 | exact B5].
  cbn [write_state_hash with_tries tries on_state_hashes contract_state_hashes].
  rewrite <- (Z.max_l low' (threshold mode target)) by lia.
  apply (hash_insert mode target c (old_hash c) _ head _ low' B3); [lia | lia | apply old_hash_leaf].
Qed.

Lemma revert_contract_spec db cl done n c e : back db cl done (3 * size (slot_map (W target) c) + n) -> c ∉ done ->
  reverse_contract_updates t0 head target !! c = Some e ->
  exists db' cl' done', revert_contract_state lib constants mode c head target e db = Ret (Ok (old_hash c, db')) /\
    back db' cl' done' n /\ (forall x, x ∈ done' -> x = c \/ x ∈ done) /\ (forall x, x ∈ done -> x ∈ done') /\
    (c ∈ done' \/ settled c).
Proof.
  intros Bk Hn E. pose proof (reverse_updates_spec t0 (ti_wf _ _ _ tables_at) head target c) as Sp. rewrite E in Sp.
  destruct e as [|u].
  - destruct Sp as [Tc En]. rewrite (tr_at _ _ _ (ti_class _ _ _ tables_at) target c ltac:(lia)) in En.
    assert (Ns : is_system_contract c = false).
    { destruct Tc as (j & x & Hin & Hj). pose proof (row_at _ _ j c x (ti_class _ _ _ tables_at) Hin) as Ej.
      apply (wo_class _ (ok_at j ltac:(lia)) c x Ej). }
    pose proof (deleted_slots c En Ns) as Sl. exists db, cl, done. split; [|split; [|split; [auto|]; split; [auto|]]].
    + cbn [revert_contract_state]. unfold old_hash, contract_entry. destruct (in_state (W target) c) eqn:Ei; [|reflexivity].
      apply in_state_spec in Ei as [[x Ex]|[Y _]]; congruence.
    + destruct Bk as [B1 B2 B3 B4 B5]. split; try assumption. apply (room_le _ _ _ B5). lia.
    + right. left. apply slot_map_empty; [apply ok_at; lia|]. intros k. now rewrite Sl.
  - destruct Sp as [Tc Rv]. destruct (reverted_class_spec _ _ _ _ c u Bk Tc Rv) as [Ec Hcl].
    destruct (reverted_root_spec db cl done n c u Bk Hn Rv) as (root & db' & cl' & done' & Er & Eh & Bk' & D1 & D2).
    exists db', cl', done'. split; [|split; [exact Bk'|]].
    + cbn [revert_contract_state]. rewrite Ec, try_ok, (reverted_nonce_spec _ _ _ _ c u Bk Rv). cbv zeta.
      rewrite Er, try_ok, (final_hash c root Tc Eh Hcl), try_ok. reflexivity.
    + destruct (decide (storage u = ∅)) as [Es|Es].
      * rewrite (D2 Es). split; [auto|]. split; [auto|]. right. right. intros k T. apply (rv_keys _ _ _ _ _ Rv) in T.
        rewrite Es, lookup_empty in T. now destruct T.
      * rewrite (D1 Es). split; [set_solver|]. split; [set_solver|]. left. set_solver.
Qed.

(** ** The loop *)

Context (pick : list Felt -> option Felt).

Lemma revert_contracts_spec tb leaf rows : forall db cl done n st st', let cs := rows.*1 in
  back db cl done (slots_needed (W target) cs + n) -> NoDup cs -> (forall c, c ∈ cs -> c ∉ done) ->
  (forall c e, (c, e) ∈ rows -> reverse_contract_updates t0 head target !! c = Some e) ->
  tree_set_all (table_storage lib (TrieStore.rows (storage_trie (tries db0))) leaf) (map (fun c => (c, old_hash c)) cs) st
    = Ret (Ok st') ->
  exists db' cl' done', revert_contracts lib pick constants mode tb head target rows st db = Ret (Ok (st', db')) /\
    back db' cl' done' n /\ (forall x, x ∈ done -> x ∈ done') /\ (forall c, c ∈ cs -> c ∈ done' \/ settled c).
Proof.
  induction rows as [|[c e] rows IH]; intros db cl done n st st' cs Bk Nd Dis Hr Es.
  - injection Es as <-. exists db, cl, done. split; [reflexivity|]. split; [exact Bk|]. split; [auto|]. intros c Hin. inversion Hin.
  - subst cs. cbn [fmap list_fmap fst map] in *. apply NoDup_cons in Nd as [Hn Nd]. cbn [revert_contracts tree_set_all] in *.
    destruct (revert_contract_spec db cl done (slots_needed (W target) rows.*1 + n) c e) as (db1 & cl1 & done1 & Er & Bk1 & D1 & D2 & Dc).
    { eapply (eq_ind _ (back db cl done) Bk). unfold slots_needed. cbn. lia. }
    { apply Dis. now left. }
    { apply Hr. now left. }
    rewrite Er, try_ok. cbv zeta. pose proof (write_hash _ _ _ _ c Bk1) as Bk2.
    set (db2 := write_state_hash mode target c (old_hash c) db1) in *.
    rewrite (storage_store_rest lib db0 pick db2 tb leaf _ _ st (bk_rest _ _ _ _ Bk2)).
    destruct (tree_set _ c _ st) as [[st1|]|]; [|discriminate..]. rewrite try_ok in Es. rewrite try_ok.
    destruct (IH db2 cl1 done1 n st1 st' Bk2 Nd) as (db3 & cl3 & done3 & Ei & Bk3 & D3 & Dn).
    + intros x Hx Hx1. destruct (D1 x Hx1) as [->|Hd]; [exact (Hn Hx)|]. exact (Dis x ltac:(now right) Hd).
    + intros x e' Hin. apply Hr. now right.
    + exact Es.
    + exists db3, cl3, done3. split; [exact Ei|]. split; [exact Bk3|]. split; [auto|].
      intros x [->|Hx]%elem_of_cons; [destruct Dc as [Dc|Dc]; [left; auto | now right] | auto].
Qed.

Lemma back_start n : room (contract_trie (tries db0)) n -> exists cl, back db0 cl ∅ n.
Proof.
  intros Hr. pose proof (tv_contract _ _ _ _ _ _ (si_tries _ _ _ _ _ _ _ Inv)) as Hd.
  destruct (start_revert _ _ _ _ _ _ _ target _ Hd Ht) as [cl Wr]. exists cl. pose proof low'_target as L.
  split; [now split | | | auto | exact Hr].
  - apply (writing_low _ _ _ _ _ low); [|lia]. eapply writing_ext; [exact Wr | reflexivity | | | reflexivity].
    + intros c. unfold back_read. now rewrite decide_False by set_solver.
    + intros c. unfold back_map. now rewrite decide_False by set_solver.
  - apply (hash_inv_low _ _ _ low); [exact (si_hashes _ _ _ _ _ _ _ Inv) | lia].
Qed.

(** ** The end *)

(** The tries that are not reverted, as nothing changed in them since the target,
    had their root at the target already. *)
Record same_roots : Prop := {
  sm_contract c : (forall k, ~ touched (storage_log t0) head target (c, k)) ->
    root_index (roots_of db0 c) head = root_index (roots_of db0 c) target;
  sm_storage : (forall c, ~ contract_touched c) ->
    root_index (storage_roots (tries db0)) head = root_index (storage_roots (tries db0)) target;
  sm_class : (forall s, ~ touched (casm_log t0) head target s) ->
    root_index (class_roots (tries db0)) head = root_index (class_roots (tries db0)) target
}.

Lemma touched_between {K V} (l : list (Z * K * V)) j k : target < j <= head -> touched l j (j - 1) k -> touched l head target k.
Proof. intros Hj (b & v & Hin & Hb). exists b, v. split; [exact Hin | lia]. Qed.

(** It is so after the target of the last reorg. *)
Lemma floor_roots : floor <= target -> same_roots.
Proof.
  intros Hf. pose proof (si_floor _ _ _ _ _ _ _ Inv) as [Fc Fs Fk].
  assert (Gap : forall roots : Roots, (forall j, target < j <= head -> ~ is_Some (roots !! j)) ->
    root_index roots head = root_index roots target).
  { intros roots N. apply root_index_gap; [lia|]. intros j Hj. destruct (roots !! j) as [x|] eqn:E; [|reflexivity].
    exfalso. apply (N j Hj). eauto. }
  split; [intros c N | intros N..]; apply Gap; intros j Hj Hs.
  - destruct (Fc c j Hs ltac:(lia)) as [k T]. exact (N k (touched_between _ j _ Hj T)).
  - destruct (Fs j Hs ltac:(lia)) as [c [T|[T|[k T]]]]; apply (N c); [left | right; left | right; right; exists k];
      exact (touched_between _ j _ Hj T).
  - destruct (Fk j Hs ltac:(lia)) as [s T]. exact (N s (touched_between _ j _ Hj T)).
Qed.

Context (Hroots : mode = Archive \/ same_roots).

Lemma back_end db cl done n roots' : back db cl done n ->
  (forall c, is_Some (reverse_contract_updates t0 head target !! c) -> c ∈ done \/ settled c) ->
  (forall c j, roots' c !! j = if decide (j <= target) then roots_of db c !! j else None) ->
  held (mode := mode) lib H HEIGHT (coalesce_removed_trie_nodes target (contract_trie (tries db))) roots' low' target
    (fun b c => slot_map (W b) c).
Proof.
  intros Bk Hs Hp. eapply end_revert; [exact (bk_writing _ _ _ _ Bk) | | exact Hp]. intros c. unfold reverted, back_read, back_map.
  destruct (decide (c ∈ done)) as [Hd|Hd]; [now left|]. right.
  assert (Cs : slot_map (W target) c = ∅ \/ forall k, ~ touched (storage_log t0) head target (c, k)).
  { destruct (reverse_contract_updates t0 head target !! c) as [e|] eqn:E.
    - destruct (Hs c ltac:(eauto)) as [?|St]; [easy | exact St].
    - right. intros k T. pose proof (reverse_updates_spec t0 (ti_wf _ _ _ tables_at) head target c) as Sp. rewrite E in Sp.
      apply Sp. right. right. eauto. }
  destruct Cs as [E|N]; [right; left; split; [lia | exact E]|].
  destruct Hroots as [Ar|Hs']; [right; right; pose proof low'_target; split; [lia|]; split; [exact Ar | lia] | left].
  split; [reflexivity|]. split.
  - apply slot_map_same; [apply ok_at; lia.. |]. intros k. symmetry. apply slot_untouched. apply N.
  - rewrite (bk_roots _ _ _ _ Bk c Hd). exact (sm_contract Hs' c N).
Qed.
End Revert.
