(* ===== verification/StateReorg.v ===== *)
(** A reorg: the state is reverted to a block and the blocks after it are purged;
    the database is that of the block again. *)

From Stdlib Require Import ZArith Lia Bool List.
From stdpp Require Import gmap gmultiset list.
From S2P Require Import Prelude Bytes Felt Pedersen Poseidon MerkleNode Tree TrieSpec TreeHash TreeRep TreeMap.
From S2P Require Import TreeCommit TrieStore TrieChain RootTables TriePrune Forest CommitmentFacts Hashing.
From S2P Require Import StateUpdate World StateTables StateLogs StateReverse StarknetState StateTries.
From S2P Require Import HashRows StateInv StateApply StateBlock StateCommit StateStep StateRevert.
Local Open Scope Z_scope.
#[local] Strategy 100 [try bind_outcome from_tree from_store infallible].

(** ** Purge *)

(** What is left of a table of tries. *)
Definition purged_trie (keep : Z -> bool) (T T' : TrieTable) : Prop :=
  rows T' = rows T /\ exists P, removals T' = List.filter P (removals T) /\ forall row, keep row.1 = true -> P row = true.

Definition purged_map {V} (keep : Z -> bool) (m m' : gmap Z V) : Prop :=
  forall b, m' !! b = if keep b then m !! b else None.

Definition purged_rows {K V} (keep : Z -> bool) (l l' : list (Z * K * V)) : Prop :=
  forall b k v, (b, k, v) ∈ l' <-> (b, k, v) ∈ l /\ keep b = true.

(** The blocks that [keep] does not hold of are purged. *)
Record purged (keep : Z -> bool) (db db' : StateDb) : Prop := {
  pg_headers : purged_map keep (headers db) (headers db');
  pg_wf : wf_tables (tables db) -> wf_tables (tables db');
  pg_storage : wf_tables (tables db) -> purged_rows keep (storage_log (tables db)) (storage_log (tables db'));
  pg_nonce : wf_tables (tables db) -> purged_rows keep (nonce_log (tables db)) (nonce_log (tables db'));
  pg_class : purged_rows keep (contract_rows (tables db)) (contract_rows (tables db'));
  pg_casm : casm_class_hashes (tables db') = casm_class_hashes (tables db);
  pg_known s : is_Some (class_definitions (tables db') !! s) <-> is_Some (class_definitions (tables db) !! s);
  pg_leaves : purged_rows keep (class_commitment_leaves (tries db)) (class_commitment_leaves (tries db'));
  pg_hashes : purged_rows keep (contract_state_hashes (tries db)) (contract_state_hashes (tries db'));
  pg_contract : purged_trie keep (contract_trie (tries db)) (contract_trie (tries db'));
  pg_storage_trie : purged_trie keep (storage_trie (tries db)) (storage_trie (tries db'));
  pg_class_trie : purged_trie keep (class_trie (tries db)) (class_trie (tries db'));
  pg_contract_roots c : purged_map keep (contract_roots_of (contract_roots (tries db)) c)
    (contract_roots_of (contract_roots (tries db')) c);
  pg_storage_roots : purged_map keep (storage_roots (tries db)) (storage_roots (tries db'));
  pg_class_roots : purged_map keep (class_roots (tries db)) (class_roots (tries db'))
}.

Section Trans.
Context (k1 k2 k : Z -> bool) (E : forall b, k b = k1 b && k2 b).

Lemma purged_map_trans {V} (m m1 m2 : gmap Z V) : purged_map k1 m m1 -> purged_map k2 m1 m2 -> purged_map k m m2.
Proof. intros A B b. rewrite E, B, A. now destruct (k1 b), (k2 b). Qed.

Lemma purged_rows_trans {K V} (l l1 l2 : list (Z * K * V)) : purged_rows k1 l l1 -> purged_rows k2 l1 l2 -> purged_rows k l l2.
Proof. intros A B b x v. rewrite (B b x v), (A b x v), E, andb_true_iff. tauto. Qed.

Lemma purged_trie_trans T T1 T2 : purged_trie k1 T T1 -> purged_trie k2 T1 T2 -> purged_trie k T T2.
Proof.
  intros [A1 (P & A2 & A3)] [B1 (Q & B2 & B3)]. split; [congruence|]. exists (fun row => P row && Q row).
  split; [now rewrite B2, A2, filter_twice|]. intros row. rewrite E, andb_true_iff. intros [K1 K2]. now rewrite A3, B3.
Qed.

Lemma purged_trans db db1 db2 : purged k1 db db1 -> purged k2 db1 db2 -> purged k db db2.
Proof.
  intros A B. split.
  - exact (purged_map_trans _ _ _ (pg_headers _ _ _ A) (pg_headers _ _ _ B)).
  - intros Hw. exact (pg_wf _ _ _ B (pg_wf _ _ _ A Hw)).
  - intros Hw. exact (purged_rows_trans _ _ _ (pg_storage _ _ _ A Hw) (pg_storage _ _ _ B (pg_wf _ _ _ A Hw))).
  - intros Hw. exact (purged_rows_trans _ _ _ (pg_nonce _ _ _ A Hw) (pg_nonce _ _ _ B (pg_wf _ _ _ A Hw))).
  - exact (purged_rows_trans _ _ _ (pg_class _ _ _ A) (pg_class _ _ _ B)).
  - rewrite (pg_casm _ _ _ B). exact (pg_casm _ _ _ A).
  - intros s. rewrite (pg_known _ _ _ B). exact (pg_known _ _ _ A s).
  - exact (purged_rows_trans _ _ _ (pg_leaves _ _ _ A) (pg_leaves _ _ _ B)).
  - exact (purged_rows_trans _ _ _ (pg_hashes _ _ _ A) (pg_hashes _ _ _ B)).
  - exact (purged_trie_trans _ _ _ (pg_contract _ _ _ A) (pg_contract _ _ _ B)).
  - exact (purged_trie_trans _ _ _ (pg_storage_trie _ _ _ A) (pg_storage_trie _ _ _ B)).
  - exact (purged_trie_trans _ _ _ (pg_class_trie _ _ _ A) (pg_class_trie _ _ _ B)).
  - intros c. exact (purged_map_trans _ _ _ (pg_contract_roots _ _ _ A c) (pg_contract_roots _ _ _ B c)).
  - exact (purged_map_trans _ _ _ (pg_storage_roots _ _ _ A) (pg_storage_roots _ _ _ B)).
  - exact (purged_map_trans _ _ _ (pg_class_roots _ _ _ A) (pg_class_roots _ _ _ B)).
Qed.
End Trans.

Lemma purged_delete {V} blk (m : gmap Z V) : purged_map (fun b => negb (b =? blk)) m (delete blk m).
Proof.
  intros b. destruct (Z.eqb_spec b blk) as [->|N]; cbn; [apply lookup_delete_eq | now apply lookup_delete_ne].
Qed.

Lemma purged_filter {K V} blk (l : list (Z * K * V)) :
  purged_rows (fun b => negb (b =? blk)) l (List.filter (fun row => negb (row.1.1 =? blk)) l).
Proof. intros b k v. now rewrite in_filter. Qed.

Lemma purged_removals blk T : purged_trie (fun b => negb (b =? blk)) T
  (MkTable (rows T) (List.filter (fun row => negb (row.1 =? blk)) (removals T))).
Proof. split; [reflexivity|]. eexists. split; [reflexivity|]. auto. Qed.

Lemma purge_state_spec blk db : purged (fun b => negb (b =? blk)) db (purge_state blk db).
Proof.
  split; cbn [purge_state headers tables tries purge_tries class_commitment_leaves contract_state_hashes contract_trie storage_trie
    class_trie contract_roots storage_roots class_roots].
  - apply purged_delete.
  - apply purge_wf.
  - intros Hw b x v. rewrite (purge_storage blk _ b x v Hw). now rewrite not_block.
  - intros Hw b x v. rewrite (purge_nonce blk _ b x v Hw). now rewrite not_block.
  - intros b x v. rewrite (purge_class blk _ b x v). now rewrite not_block.
  - reflexivity.
  - apply purge_known.
  - apply purged_filter.
  - apply purged_filter.
  - apply purged_removals.
  - apply purged_removals.
  - apply purged_removals.
  - intros c b. unfold contract_roots_of. rewrite lookup_fmap. destruct (contract_roots (tries db) !! c) as [r|]; cbn [fmap option_fmap
      option_map default from_option]; [apply purged_delete|]. unfold id. rewrite !lookup_empty. now destruct (negb _).
  - apply purged_delete.
  - apply purged_delete.
Qed.

Lemma purged_ext k k' db db' : (forall b, k' b = k b) -> purged k db db' -> purged k' db db'.
Proof.
  intros E A. assert (M : forall V (m m' : gmap Z V), purged_map k m m' -> purged_map k' m m') by (intros V m m' P b; rewrite E; apply P).
  assert (R : forall K V (l l' : list (Z * K * V)), purged_rows k l l' -> purged_rows k' l l')
    by (intros K V l l' P b x v; rewrite E; apply P).
  assert (T : forall T T', purged_trie k T T' -> purged_trie k' T T').
  { intros T T' [A1 (P & A2 & A3)]. split; [exact A1|]. exists P. split; [exact A2|]. intros row. rewrite E. apply A3. }
  destruct A. split; auto.
Qed.

Lemma purged_all db : purged (fun _ => true) db db.
Proof.
  assert (R : forall K V (l : list (Z * K * V)), purged_rows (fun _ => true) l l) by (intros K V l b k v; tauto).
  assert (T : forall T, purged_trie (fun _ => true) T T).
  { intros T. split; [reflexivity|]. exists (fun _ => true). split; [symmetry; apply List.filter_true | auto]. }
  split; auto; try (intros ?; reflexivity); intros ? ?; reflexivity.
Qed.

(** The loop of a reorg purges the blocks after the target. *)
Lemma purge_states_spec n : forall head db,
  purged (fun b => negb ((head - Z.of_nat n <? b) && (b <=? head))) db (purge_states n head db).
Proof.
  induction n as [|n IH]; intros head db; cbn [purge_states].
  - apply (purged_ext (fun b => true)).
    + intros b. destruct (Z.ltb_spec (head - Z.of_nat 0) b), (Z.leb_spec b head); cbn; auto; lia.
    + apply purged_all.
  - eapply purged_trans; [|apply purge_state_spec | apply IH].
    intros b. cbv beta. destruct (Z.eqb_spec b head), (Z.ltb_spec (head - 1 - Z.of_nat n) b), (Z.leb_spec b (head - 1)),
      (Z.ltb_spec (head - Z.of_nat (S n)) b), (Z.leb_spec b head); cbn; auto; lia.
Qed.

(** ** Blocks up to a target *)

(** The blocks after the target are purged. *)
Definition kept (head target b : Z) : bool := negb ((target <? b) && (b <=? head)).

Section Keep.
Context (head target : Z) (Ht : target < head).

Abbreviation keep := (kept head target).

Lemma keep_le b : b <= head -> keep b = true <-> b <= target.
Proof. intros Hb. unfold kept. destruct (Z.ltb_spec target b), (Z.leb_spec b head); cbn; lia. Qed.

Lemma purged_rows_le {K V} (l l' : list (Z * K * V)) : (forall b k v, (b, k, v) ∈ l -> b <= head) -> purged_rows keep l l' ->
  forall b k v, (b, k, v) ∈ l' <-> (b, k, v) ∈ l /\ b <= target.
Proof.
  intros Hl P b k v. rewrite (P b k v). split; intros [Hin Hb]; (split; [exact Hin|]); apply (keep_le b (Hl b k v Hin)) in Hb || apply (keep_le b (Hl b k v Hin)); assumption.
Qed.

Lemma purged_map_le {V} (m m' : gmap Z V) : (forall j, is_Some (m !! j) -> j <= head) -> purged_map keep m m' ->
  forall j, m' !! j = if decide (j <= target) then m !! j else None.
Proof.
  intros Hm P j. rewrite (P j). destruct (m !! j) as [x|] eqn:E; [|now destruct (keep j), (decide _)].
  pose proof (keep_le j (Hm j ltac:(eauto))) as K. destruct (keep j), (decide (j <= target)); auto; exfalso; intuition discriminate.
Qed.

Lemma purged_trie_same T T' : (forall row, row ∈ removals T -> row.1 <= target) -> purged_trie keep T T' -> T' = T.
Proof.
  intros Hr [E1 (P & E2 & E3)]. destruct T as [rs rm], T' as [rs' rm']. cbn in *. subst rs' rm'. f_equal.
  rewrite <- (List.filter_true rm) at 2. apply filter_ext_in. intros row Hin%list_elem_of_In. apply E3.
  specialize (Hr row Hin). apply keep_le; lia.
Qed.

Lemma purged_tables t0 t W : table_inv t0 head W -> purged_rows keep (storage_log t0) (storage_log t) ->
  purged_rows keep (nonce_log t0) (nonce_log t) -> purged_rows keep (contract_rows t0) (contract_rows t) ->
  casm_class_hashes t = casm_class_hashes t0 -> wf_tables t ->
  (forall s, is_Some (class_definitions t !! s) <-> is_Some (class_definitions t0 !! s)) -> table_inv t target W.
Proof.
  intros Ti P1 P2 P3 Ec Hw Kn. assert (El : casm_log t = casm_log t0) by (unfold casm_log; now rewrite Ec).
  split; [exact Hw | | | | | | | |].
  - apply (tracks_purge _ _ head target _ (ti_storage _ _ _ Ti)); [lia|]. apply purged_rows_le; [|exact P1].
    intros b k v Hin. apply (tr_rows _ _ _ (ti_storage _ _ _ Ti) b k v Hin).
  - apply (tracks_purge _ _ head target _ (ti_nonce _ _ _ Ti)); [lia|]. apply purged_rows_le; [|exact P2].
    intros b k v Hin. apply (tr_rows _ _ _ (ti_nonce _ _ _ Ti) b k v Hin).
  - apply (tracks_purge _ _ head target _ (ti_class _ _ _ Ti)); [lia|]. apply purged_rows_le; [|exact P3].
    intros b k v Hin. apply (tr_rows _ _ _ (ti_class _ _ _ Ti) b k v Hin).
  - intros b s v. rewrite El. apply (ti_casm_rows _ _ _ Ti).
  - rewrite El. exact (ti_casm_unique _ _ _ Ti).
  - intros n s v Hn. rewrite El. apply (ti_casm _ _ _ Ti). lia.
  - intros n s Hn. rewrite El. apply (ti_changed _ _ _ Ti). lia.
  - intros b s v. rewrite El, Kn. apply (ti_known _ _ _ Ti).
Qed.

End Keep.

(** ** The trees *)

Section Reorg.
Context (lib : Libraries) {laws : LibraryLaws lib} (constants : PedersenTables) (Hc : tables_ok constants).
Context (pick : list Felt -> option Felt) (Hp : picks pick).
Context (mode : TriePruneMode) (mode_ok : valid_mode mode) {order : HashOrder}.
Context (db0 : StateDb) (head target : Z) (W : Z -> World) (low floor : Z).
Context (Inv : state_inv (mode := mode) constants lib db0 head W low floor) (Ht : 0 <= target < head) (Hlow : low <= target).
Context (Hroots : mode = Archive \/ same_roots db0 head target) (Hz : roots_nonzero constants db0 head target W).

Abbreviation low' := (Z.max low (threshold mode target)).
Abbreviation H := (PedersenHash constants).
Abbreviation t0 := (tables db0).
Abbreviation old_hash := (old_hash constants target W).
Abbreviation back := (back lib constants mode db0 head target W low).

(** The contracts that changed since the target. *)
Definition reverted_contracts : list Felt := (iter (reverse_contract_updates t0 head target)).*1.

Record revert_rooms : Prop := {
  rr_contract : room (contract_trie (tries db0)) (slots_needed (W target) reverted_contracts);
  rr_storage : room (storage_trie (tries db0)) (3 * size (contract_map constants (W target)));
  rr_class : room (class_trie (tries db0)) (3 * size (class_map (W target)))
}.

Context (Rm : revert_rooms).

Lemma ok_to n : n <= head -> world_ok (W n).
Proof. exact (si_world _ _ _ _ _ _ _ Inv n). Qed.

Lemma tables_inv : table_inv t0 head W.
Proof. exact (si_tables _ _ _ _ _ _ _ Inv). Qed.

Lemma reverted_touched c : c ∈ reverted_contracts <-> touched_contract t0 head target c.
Proof.
  unfold reverted_contracts. rewrite iter_keys.
  pose proof (reverse_updates_spec t0 (ti_wf _ _ _ tables_inv) head target c) as Sp.
  destruct (reverse_contract_updates t0 head target !! c) as [[|u]|].
  - split; [intros _; now left | eauto].
  - split; [tauto | eauto].
  - split; [now intros [? ?] | intros Y; now destruct (Sp Y)].
Qed.

Lemma old_contract_map : map_set_all (paths (map (fun c => (c, old_hash c)) reverted_contracts)) (contract_map constants (W head))
  = contract_map constants (W target).
Proof.
  assert (Hin : forall c h, (c, h) ∈ map (fun c => (c, old_hash c)) reverted_contracts <-> c ∈ reverted_contracts /\ h = old_hash c).
  { intros c h. split.
    - intros (c' & E & Hin)%list_elem_of_fmap. apply pair_equal_spec in E as [-> ->]. auto.
    - intros [Hin ->]. apply list_elem_of_fmap. now exists c. }
  apply (set_felts _ _ _ (contract_entry constants (W head)) (contract_entry constants (W target))).
  - apply contract_represents, ok_to. lia.
  - apply contract_represents, ok_to. lia.
  - apply Forall_forall. intros [c h] [Hc' _]%Hin. apply reverted_touched in Hc'.
    exact (touched_key_ok lib constants mode db0 head target W low floor Inv c Hc').
  - intros c h [Hc' ->]%Hin. exact (old_hash_leaf constants target W c).
  - intros c _ N. f_equal. apply (contract_untouched lib constants mode db0 head target W low floor Inv Ht). intros T. apply N.
    apply list_elem_of_fmap. exists (c, old_hash c). split; [reflexivity|]. apply Hin. split; [now apply reverted_touched | reflexivity].
Qed.

Lemma old_hashes_ok : Forall (fun kv => key_ok kv.1 /\ felt_ok kv.2) (map (fun c => (c, old_hash c)) reverted_contracts).
Proof.
  apply Forall_map, Forall_forall. intros c Hc'. apply reverted_touched in Hc'. split.
  - exact (touched_key_ok lib constants mode db0 head target W low floor Inv c Hc').
  - exact (old_hash_ok lib constants Hc mode db0 head target W low floor Inv Ht c).
Qed.

Lemma no_storage_root : map (fun c => (c, old_hash c)) reverted_contracts = [] ->
  mode = Archive /\ low <= target \/
  root_index (storage_roots (tries db0)) head = root_index (storage_roots (tries db0)) target.
Proof.
  intros E%map_eq_nil. destruct Hroots as [Ar|Hs]; [left; auto | right]. apply (sm_storage _ _ _ Hs). intros c T%reverted_touched. rewrite E in T. inversion T.
Qed.

(** The contracts and their tree. *)
Lemma contracts_reverted : exists upd T r db2 cl done, back db2 cl done 0 /\
  (forall c, is_Some (reverse_contract_updates t0 head target !! c) -> c ∈ done \/ settled db0 head target W c) /\
  revert_contract_updates lib pick constants mode head target db0 = Ret (Ok (root_commitment upd,
    with_tries (on_storage_trie T (insert_root mode target r (storage_roots (tries db0)))) db2)) /\
  storage_commitment_of constants (W target) = Ret (root_commitment upd) /\
  forall roots', (forall j, roots' !! j = if decide (j <= target) then insert_root mode target r (storage_roots (tries db0)) !! j else None) ->
    held (mode := mode) lib H HEIGHT (K := unit) (coalesce_removed_trie_nodes target T) (fun _ => roots') low' target
      (fun b _ => contract_map constants (W b)).
Proof.
  pose proof (tv_storage _ _ _ _ _ _ (si_tries _ _ _ _ _ _ _ Inv)) as Hd.
  set (root := root_index (storage_roots (tries db0)) head). set (kvs := map (fun c => (c, old_hash c)) reverted_contracts).
  pose proof (fun leaf Cv => tree_revert lib H (HH := PedersenHash_total constants Hc) mode mode_ok _ _ _ _ _ Hd target leaf false kvs
    Ht Cv old_hashes_ok old_contract_map (rr_storage Rm) no_storage_root) as Tr.
  destruct (Tr (leaf_of (contract_map constants (W head))) (leaf_of_covers _)) as (upd0 & r0 & T0 & Eu & _).
  apply update_steps in Eu as (st & Es & _). fold root in Es.
  pose proof (rr_contract Rm) as Hr. rewrite <- (Nat.add_0_r (slots_needed _ _)) in Hr.
  destruct (back_start lib constants Hc mode mode_ok db0 head target W low floor Inv Ht Hlow Hz _ Hr) as [cl0 Bk0].
  destruct (revert_contracts_spec lib constants Hc mode mode_ok db0 head target W low floor Inv Ht Hlow Hz pick (block_of root head)
    (leaf_of (contract_map constants (W head))) (iter (reverse_contract_updates t0 head target)) db0 cl0 ∅ 0
    (load root false no_mem) st Bk0) as (db2 & cl & done & Ec & Bk & _ & Dn).
  { apply iter_nodup. }
  { set_solver. }
  { intros c e Hin. now apply iter_in. }
  { exact Es. }
  pose proof (bk_rest _ _ _ _ _ _ _ _ _ _ _ _ Bk) as Rest.
  destruct (Tr (storage_leaf pick db2 (block_of root head))) as (upd & r & T & Eu & Er & Ei & Hh).
  { pose proof (low'_target lib constants mode mode_ok db0 head target W low floor Inv Ht Hlow) as L.
    apply (storage_covers constants pick Hp db2 head (fun b => entry_leaf constants (W b)) head (W head) low').
    - exact (bk_hashes _ _ _ _ _ _ _ _ _ _ _ _ Bk).
    - left. lia.
    - reflexivity.
    - apply ok_to. lia.
    - exact (held_covered _ _ _ _ _ _ _ _ Hd root eq_refl). }
  apply update_steps in Eu as (st' & Es' & Ecm). rewrite (tree_set_all_leaf lib _ _ (leaf_of (contract_map constants (W head)))) in Es'.
  pose proof (eq_trans (eq_sym Es') Es) as E. injection E as ->.
  exists upd, T, r, db2, cl, done. split; [exact Bk|]. split.
  { intros c Hs. apply Dn. now apply iter_keys. }
  split; [|split; [|exact Hh]].
  - unfold revert_contract_updates. cbv zeta. fold root. rewrite Ec, try_ok. unfold storage_store. rewrite (sr_storage _ _ Rest).
    rewrite Ecm, from_tree_ok, try_ok. unfold write_storage_trie. rewrite (sr_storage _ _ Rest), Ei, from_store_ok, try_ok, try_ok.
    now rewrite (sr_storage_roots _ _ Rest).
  - rewrite <- Er. symmetry. apply (map_commitment H). apply contract_represents, ok_to. lia.
Qed.

(** *** Classes *)

(** A class with a row after the target has only rows of its value at the target
    up to there. *)
Definition casm_revertible : Prop := forall s b v, touched (casm_log t0) head target s -> (b, s, v) ∈ casm_log t0 ->
  b <= target -> w_casm (W target) !! s = Some v.

Context (Hcasm : casm_revertible).

Definition old_leaf (s : Felt) : Felt := default FELT_ZERO (class_entry (W target) s).

Lemma reverted_class_row s o : (s, o) ∈ reverse_sierra_class_updates t0 pick head target ->
  touched (casm_log t0) head target s /\ o = w_casm (W target) !! s.
Proof.
  unfold reverse_sierra_class_updates. intros Hin. apply list_elem_of_fmap in Hin as ([[s' j] v] & E & Hin).
  apply in_filter in Hin as [Hin Hj%between_spec]. injection E as -> ->. apply casm_log_in in Hin.
  assert (Tc : touched (casm_log t0) head target s') by (exists j, v; auto). split; [exact Tc|].
  set (olds := map snd _). assert (Old : forall x, x ∈ olds <-> exists b, (b, s', x) ∈ casm_log t0 /\ b <= target).
  { intros x. unfold olds. rewrite list_elem_of_In, in_map_iff. setoid_rewrite casm_log_in. split.
    - intros ([[s1 b] x'] & <- & Hr). apply list_elem_of_In, in_filter in Hr as [Hr Hb].
      apply andb_true_iff in Hb as [->%felt_eqb_eq Hb%Z.leb_le]. eauto.
    - intros (b & Hr & Hb). exists (s', b, x). split; [reflexivity|]. apply list_elem_of_In, in_filter. split; [exact Hr|].
      now rewrite (proj2 (felt_eqb_eq s' s') eq_refl), (proj2 (Z.leb_le b target) Hb). }
  pose proof (Hp olds) as P. destruct (pick olds) as [x|].
  - apply Old in P as (b & Hr & Hb). symmetry. exact (Hcasm s' b x Tc Hr Hb).
  - destruct (w_casm (W target) !! s') as [x|] eqn:E; [|reflexivity]. exfalso.
    apply (ti_casm _ _ _ tables_inv target s' x ltac:(lia)) in E.
    apply log_at_some in E as (b & Hb & Hr & _); [|exact (ti_casm_unique _ _ _ tables_inv)].
    assert (Hx : x ∈ olds) by (apply Old; eauto). rewrite P in Hx. inversion Hx.
Qed.

Lemma reverted_class_touched s : touched (casm_log t0) head target s ->
  exists o, (s, o) ∈ reverse_sierra_class_updates t0 pick head target.
Proof.
  intros (j & v & Hin & Hj). eexists. unfold reverse_sierra_class_updates.
  apply list_elem_of_fmap. exists (s, j, v). split; [reflexivity|]. apply in_filter.
  split; [now apply casm_log_in | now apply between_spec].
Qed.

Lemma old_leaf_ok s o : (s, o) ∈ reverse_sierra_class_updates t0 pick head target -> key_ok s /\ felt_ok (old_leaf s) /\
  match o with None => Ret (Ok FELT_ZERO) | Some casm => infallible (class_commitment_leaf_hash casm) end
    = Ret (Ok (old_leaf s)) :> fallible Felt.
Proof.
  intros Hin. destruct (reverted_class_row s o Hin) as [(j & v & Hr & Hj) ->]. split.
  - exact (proj2 (ti_casm_rows _ _ _ tables_inv j s v Hr)).
  - unfold old_leaf. destruct (w_casm (W target) !! s) as [casm|] eqn:E.
    + pose proof (proj2 (wo_casm _ (ok_to target ltac:(lia)) s casm E)) as Ok.
      rewrite (class_entry_some (W target) s casm Ok E). destruct (leaf_hash_ok casm Ok) as [El Ol].
      split; [exact Ol|]. now rewrite El, infallible_ok.
    + unfold class_entry. rewrite E. split; [exact FELT_ZERO_ok | reflexivity].
Qed.

Lemma revert_classes_spec storage ups : forall st,
  (forall s o, (s, o) ∈ ups -> (s, o) ∈ reverse_sierra_class_updates t0 pick head target) ->
  revert_classes storage ups st = tree_set_all storage (map (fun row => (row.1, old_leaf row.1)) ups) st.
Proof.
  induction ups as [|[s o] ups IH]; intros st Hin; [reflexivity|]. cbn [revert_classes map tree_set_all fst].
  destruct (old_leaf_ok s o (Hin s o ltac:(now left))) as (_ & _ & ->). rewrite try_ok.
  destruct (tree_set storage s (old_leaf s) st) as [[st'|]|]; [|reflexivity..]. rewrite !try_ok. apply IH.
  intros s' o' Hs. apply Hin. now right.
Qed.

Abbreviation class_kvs := (map (fun row => (row.1, old_leaf row.1)) (reverse_sierra_class_updates t0 pick head target)).

Lemma old_class_map : map_set_all (paths class_kvs) (class_map (W head)) = class_map (W target).
Proof.
  apply (set_felts _ _ _ (class_entry (W head)) (class_entry (W target))).
  - apply class_represents, ok_to. lia.
  - apply class_represents, ok_to. lia.
  - apply Forall_map, Forall_forall. intros [s o] Hin. exact (proj1 (old_leaf_ok s o Hin)).
  - intros s x Hin. apply list_elem_of_fmap in Hin as ([s' o] & E & Hin). apply pair_equal_spec in E as [-> ->]. cbn [fst].
    unfold old_leaf. now destruct (class_entry (W target) s').
  - intros s _ N. f_equal. unfold class_entry.
    rewrite (casm_untouched t0 head W target s tables_inv head ltac:(lia)).
    + reflexivity.
    + intros j v Hj Hr. destruct (reverted_class_touched s) as [o Hin]; [exists j, v; auto|]. apply N, list_elem_of_fmap. exists (s, old_leaf s).
      split; [reflexivity|]. apply list_elem_of_fmap. now exists (s, o).
Qed.

Lemma no_class_root : class_kvs = [] ->
  mode = Archive /\ low <= target \/
  root_index (class_roots (tries db0)) head = root_index (class_roots (tries db0)) target.
Proof.
  intros E%map_eq_nil. destruct Hroots as [Ar|Hs]; [left; auto | right]. apply (sm_class _ _ _ Hs). intros s T. destruct (reverted_class_touched s T) as [o Ho].
  rewrite E in Ho. inversion Ho.
Qed.

Lemma classes_reverted db : tables db = t0 -> class_commitment_leaves (tries db) = class_commitment_leaves (tries db0) ->
  class_trie (tries db) = class_trie (tries db0) -> class_roots (tries db) = class_roots (tries db0) ->
  exists upd T r, revert_class_updates lib pick mode head target db = Ret (Ok (root_commitment upd,
      with_tries (on_class_trie T (insert_root mode target r (class_roots (tries db0)))) db)) /\
    class_commitment_of (W target) = Ret (root_commitment upd) /\
    forall roots', (forall j, roots' !! j = if decide (j <= target) then insert_root mode target r (class_roots (tries db0)) !! j else None) ->
      held (mode := mode) lib PoseidonHash HEIGHT (K := unit) (coalesce_removed_trie_nodes target T) (fun _ => roots') low' target
        (fun b _ => class_map (W b)).
Proof.
  intros Et El Ec Er. pose proof (tv_class _ _ _ _ _ _ (si_tries _ _ _ _ _ _ _ Inv)) as Hd.
  set (root := root_index (class_roots (tries db0)) head).
  destruct (tree_revert lib PoseidonHash (HH := PoseidonHash_total) mode mode_ok _ _ _ _ _ Hd target
    (class_leaf pick db (block_of root head)) false class_kvs Ht) as (upd & r & T & Eu & Es & Ei & Hh).
  - apply (class_covers pick Hp db head W root).
    + rewrite El. exact (si_leaves _ _ _ _ _ _ _ Inv).
    + rewrite Et. exact tables_inv.
    + apply ok_to. lia.
    + exact (held_covered _ _ _ _ _ _ _ _ Hd root eq_refl).
  - apply Forall_map, Forall_forall. intros [s o] Hin. destruct (old_leaf_ok s o Hin) as (A & B & _). auto.
  - exact old_class_map.
  - exact (rr_class Rm).
  - exact no_class_root.
  - exists upd, T, r. apply update_steps in Eu as (st & Est & Ecm). fold root in Est. split; [|split; [|exact Hh]].
    + unfold revert_class_updates. cbv zeta. rewrite Et, Er. fold root. unfold class_store. rewrite Ec.
      rewrite (revert_classes_spec _ _ _ (fun s o Hin => Hin)), Est, try_ok, Ecm, from_tree_ok, try_ok.
      unfold write_class_trie. now rewrite Ec, Ei, from_store_ok, !try_ok, Er.
    + rewrite <- Es. symmetry. apply (map_commitment PoseidonHash). apply class_represents, ok_to. lia.
Qed.

(** ** The revert *)

(** The tries after the revert, before the blocks after the target are purged. *)
Record reverted_db (db : StateDb) : Prop := {
  rd_headers : headers db = headers db0;
  rd_tables : tables db = t0;
  rd_leaves : class_commitment_leaves (tries db) = class_commitment_leaves (tries db0);
  rd_hashes : hash_inv (contract_state_hashes (tries db)) head (fun b => entry_leaf constants (W b)) low';
  rd_contract : (forall c j, is_Some (contract_roots_of (contract_roots (tries db)) c !! j) -> j <= head) /\
    forall roots', (forall c j, roots' c !! j =
      if decide (j <= target) then contract_roots_of (contract_roots (tries db)) c !! j else None) ->
    held (mode := mode) lib H HEIGHT (contract_trie (tries db)) roots' low' target (fun b c => slot_map (W b) c);
  rd_storage : (forall j, is_Some (storage_roots (tries db) !! j) -> j <= head) /\
    forall roots', (forall j, roots' !! j = if decide (j <= target) then storage_roots (tries db) !! j else None) ->
    held (mode := mode) lib H HEIGHT (K := unit) (storage_trie (tries db)) (fun _ => roots') low' target (fun b _ => contract_map constants (W b));
  rd_class : (forall j, is_Some (class_roots (tries db) !! j) -> j <= head) /\
    forall roots', (forall j, roots' !! j = if decide (j <= target) then class_roots (tries db) !! j else None) ->
    held (mode := mode) lib PoseidonHash HEIGHT (K := unit) (class_trie (tries db)) (fun _ => roots') low' target (fun b _ => class_map (W b));
  rd_removals row : row ∈ removals (contract_trie (tries db)) \/ row ∈ removals (storage_trie (tries db)) \/
    row ∈ removals (class_trie (tries db)) -> row.1 <= target
}.

Lemma insert_root_le r (roots : Roots) j : (forall j, is_Some (roots !! j) -> j <= head) ->
  is_Some (insert_root mode target r roots !! j) -> j <= head.
Proof. intros Hr [Hj|[-> _]]%insert_root_some; [now apply Hr | lia]. Qed.

Lemma revert_spec header : headers db0 !! target = Some header ->
  exists db, revert_starknet_state lib pick constants mode head target header db0 = Ret (Ok db) /\ reverted_db db.
Proof.
  intros Eh. destruct contracts_reverted as (upd & T & r & db2 & cl & done & Bk & Hs & E1 & S1 & H1).
  pose proof (bk_rest _ _ _ _ _ _ _ _ _ _ _ _ Bk) as [Sh Stb Sl Ss Ssr Sc Scr].
  set (db3 := with_tries (on_storage_trie T (insert_root mode target r (storage_roots (tries db0)))) db2) in *.
  destruct (classes_reverted db3 Stb Sl Sc Scr) as (upd' & T' & r' & E2 & S2 & H2).
  set (db4 := with_tries (on_class_trie T' (insert_root mode target r' (class_roots (tries db0)))) db3) in *.
  exists (with_tries (coalesce_trie_removals target) db4). split.
  - pose proof (si_headers _ _ _ _ _ _ _ Inv target) as Hd. rewrite Eh in Hd. destruct Hd as [_ Hd].
    unfold state_commitment_of in Hd. rewrite S1, bind_ret, S2, bind_ret in Hd.
    unfold revert_starknet_state. rewrite E1, try_ok, E2, try_ok, Hd, infallible_ok, try_ok.
    rewrite (proj2 (felt_eqb_eq _ _) eq_refl). reflexivity.
  - assert (Rs : forall j, is_Some (storage_roots (tries db0) !! j) -> j <= head).
    { intros j Hj. apply (held_roots _ _ _ _ _ _ _ _ (tv_storage _ _ _ _ _ _ (si_tries _ _ _ _ _ _ _ Inv)) tt j Hj). }
    assert (Rk : forall j, is_Some (class_roots (tries db0) !! j) -> j <= head).
    { intros j Hj. apply (held_roots _ _ _ _ _ _ _ _ (tv_class _ _ _ _ _ _ (si_tries _ _ _ _ _ _ _ Inv)) tt j Hj). }
    split; cbn [db4 db3 with_tries headers tables tries coalesce_trie_removals on_class_trie on_storage_trie class_commitment_leaves
      contract_state_hashes contract_trie storage_trie class_trie contract_roots storage_roots class_roots]; try assumption.
    + exact (bk_hashes _ _ _ _ _ _ _ _ _ _ _ _ Bk).
    + split; [intros c j Hj; apply (wr_roots _ _ _ _ _ _ _ _ _ _ _ _ (bk_writing _ _ _ _ _ _ _ _ _ _ _ _ Bk) c j Hj)|].
      intros roots' Hr. exact (back_end lib constants mode mode_ok db0 head target W low floor Inv Ht Hlow Hroots db2 cl done 0 roots' Bk Hs Hr).
    + split; [intros j; now apply insert_root_le | exact H1].
    + split; [intros j; now apply insert_root_le | exact H2].
    + intros row [Hr|[Hr|Hr]]; exact (coalesce_blocks target _ row Hr).
Qed.

(** ** The reorg *)

Abbreviation keep := (kept head target).

Lemma reorg_inv db db' : reverted_db db -> purged keep db db' -> state_inv (mode := mode) constants lib db' target W low' target.
Proof.
  intros Rd Pg. pose proof tables_inv as Ti. pose proof (low'_target lib constants mode mode_ok db0 head target W low floor Inv Ht Hlow) as L.
  pose proof (rd_tables _ Rd) as Et. pose proof (ti_wf _ _ _ Ti) as Hw. rewrite <- Et in Hw.
  pose proof (pg_storage _ _ _ Pg Hw) as P1. pose proof (pg_nonce _ _ _ Pg Hw) as P2. pose proof (pg_class _ _ _ Pg) as P3.
  rewrite Et in P1, P2, P3.
  assert (Tb : table_inv (tables db') target W).
  { apply (purged_tables head target ltac:(lia) t0); try assumption.
    - rewrite (pg_casm _ _ _ Pg). now rewrite Et.
    - exact (pg_wf _ _ _ Pg Hw).
    - intros s. rewrite (pg_known _ _ _ Pg). now rewrite Et. }
  assert (Cr : forall c, purged_map keep _ _) by exact (pg_contract_roots _ _ _ Pg).
  pose proof (fun c => purged_map_le head target _ _ (proj1 (rd_contract _ Rd) c) (Cr c)) as C1.
  pose proof (purged_map_le head target _ _ (proj1 (rd_storage _ Rd)) (pg_storage_roots _ _ _ Pg)) as C2.
  pose proof (purged_map_le head target _ _ (proj1 (rd_class _ Rd)) (pg_class_roots _ _ _ Pg)) as C3.
  split.
  - intros n Hn. apply ok_to. lia.
  - intros n. rewrite (pg_headers _ _ _ Pg n), (rd_headers _ Rd). pose proof (si_headers _ _ _ _ _ _ _ Inv n) as Hn.
    destruct (headers db0 !! n) as [h|] eqn:E.
    + destruct Hn as [Hr Hn]. pose proof (keep_le head target n ltac:(lia)) as K. destruct (keep n).
      * split; [|exact Hn]. specialize (proj1 K eq_refl). lia.
      * intros Hr'. specialize (proj2 K ltac:(lia)). discriminate.
    + destruct (keep n); lia.
  - exact Tb.
  - pose proof (si_leaves _ _ _ _ _ _ _ Inv) as [Lr Lk]. split.
    + intros b leaf casm [Hin _]%(pg_leaves _ _ _ Pg). rewrite (rd_leaves _ Rd) in Hin. exact (Lr b leaf casm Hin).
    + intros n s casm Hn Hin. destruct (Lk n s casm ltac:(lia) Hin) as (b' & leaf & Hb' & Hl). exists b', leaf.
      split; [exact Hb'|]. apply (pg_leaves _ _ _ Pg). rewrite (rd_leaves _ Rd). split; [exact Hl|]. apply (keep_le head target); lia.
  - apply (hash_purge _ _ head target _ _ (rd_hashes _ Rd)); [lia|]. apply (purged_rows_le head target); [|exact (pg_hashes _ _ _ Pg)].
    intros b c h Hin. apply (hi_rows _ _ _ _ (rd_hashes _ Rd) b c h Hin).
  - lia.
  - split.
    + rewrite (purged_trie_same head target ltac:(lia) _ _ (fun row Hr => rd_removals _ Rd row (or_introl Hr)) (pg_contract _ _ _ Pg)).
      apply (proj2 (rd_contract _ Rd)). exact C1.
    + rewrite (purged_trie_same head target ltac:(lia) _ _ (fun row Hr => rd_removals _ Rd row (or_intror (or_introl Hr))) (pg_storage_trie _ _ _ Pg)).
      apply (proj2 (rd_storage _ Rd)). exact C2.
    + rewrite (purged_trie_same head target ltac:(lia) _ _ (fun row Hr => rd_removals _ Rd row (or_intror (or_intror Hr))) (pg_class_trie _ _ _ Pg)).
      apply (proj2 (rd_class _ Rd)). exact C3.
  - split.
    + intros c j Hj Hf. rewrite C1, decide_False in Hj by lia. now destruct Hj.
    + intros j Hj Hf. rewrite C2, decide_False in Hj by lia. now destruct Hj.
    + intros j Hj Hf. rewrite C3, decide_False in Hj by lia. now destruct Hj.
Qed.
End Reorg.

(** ** The last block *)

Lemma latest_head {mode : TriePruneMode} constants lib db head W low floor : state_inv (mode := mode) constants lib db head W low floor -> 0 <= head ->
  latest_number (headers db) = Some head.
Proof.
  intros Inv Hh. unfold latest_number. pose proof (last_row_spec (map_to_list (headers db))) as Sp.
  pose proof (si_headers _ _ _ _ _ _ _ Inv head) as Hd. destruct (headers db !! head) as [h|] eqn:E; [|lia].
  assert (Hin : (head, h) ∈ map_to_list (headers db)) by now apply elem_of_map_to_list.
  destruct (last_row _) as [[n h']|]; [|rewrite Sp in Hin; inversion Hin]. destruct Sp as [Hn Hm].
  specialize (Hm _ Hin). cbn in Hm. apply elem_of_map_to_list in Hn. pose proof (si_headers _ _ _ _ _ _ _ Inv n) as Hd'.
  rewrite Hn in Hd'. cbn. f_equal. lia.
Qed.

Section Whole.
Context (lib : Libraries) {laws : LibraryLaws lib} (constants : PedersenTables) (Hc : tables_ok constants).
Context (pick : list Felt -> option Felt) (Hp : picks pick).
Context (mode : TriePruneMode) (mode_ok : valid_mode mode) {order : HashOrder}.

Lemma reorg_spec db0 head target W low floor : state_inv (mode := mode) constants lib db0 head W low floor -> 0 <= target < head ->
  low <= target -> mode = Archive \/ same_roots db0 head target -> roots_nonzero constants db0 head target W -> revert_rooms constants db0 head target W ->
  casm_revertible db0 head target W ->
  exists db, reorg_state lib pick constants mode (target + 1) db0 = Ret (Ok db) /\
    state_inv (mode := mode) constants lib db target W (Z.max low (threshold mode target)) target /\
    casm_class_hashes (tables db) = casm_class_hashes (tables db0).
Proof.
  intros Inv Ht Hl Hf Hz Rm Hk. pose proof (si_headers _ _ _ _ _ _ _ Inv) as Hd.
  pose proof (Hd target) as H1. destruct (headers db0 !! target) as [h|] eqn:E1; [|lia].
  pose proof (Hd (target + 1)) as H2. destruct (headers db0 !! (target + 1)) as [h2|] eqn:E2; [|lia].
  destruct (revert_spec lib constants Hc pick Hp mode mode_ok db0 head target W low floor Inv Ht Hl Hf Hz Rm Hk h E1) as (db & Er & Rd).
  exists (purge_states (Z.to_nat (head - (target + 1) + 1)) head db). split.
  - unfold reorg_state. rewrite (latest_head _ _ _ _ _ _ _ Inv) by lia. rewrite E2. unfold parent.
    rewrite (proj2 (Z.eqb_neq _ _)) by lia. replace (target + 1 - 1) with target by lia. rewrite E1, Er, try_ok. reflexivity.
  - assert (Pg : purged (kept head target) db (purge_states (Z.to_nat (head - (target + 1) + 1)) head db)).
    { eapply purged_ext; [|apply purge_states_spec]. intros b. unfold kept. cbv beta.
      now replace (head - Z.of_nat (Z.to_nat (head - (target + 1) + 1))) with target by lia. }
    split; [exact (reorg_inv lib constants mode mode_ok db0 head target W low floor Inv Ht Hl db _ Rd Pg)|].
    rewrite (pg_casm _ _ _ Pg). now rewrite (rd_tables _ _ _ _ _ _ _ _ _ Rd).
Qed.

(** A reorg of all blocks leaves an empty state. *)
(** A reorg to before genesis purges every root. *)
Lemma purged_roots head (m m' : Roots) : 0 <= head -> (forall j, is_Some (m !! j) -> 0 <= j <= head) ->
  purged_map (kept head (-1)) m m' -> forall j, m' !! j = None.
Proof.
  intros Hh Hm Pm j. rewrite (Pm j). destruct (m !! j) as [x|] eqn:E; [|now destruct (kept head (-1) j)].
  specialize (Hm j ltac:(eauto)). pose proof (keep_le head (-1) j ltac:(lia)) as K. destruct (kept head (-1) j); [|reflexivity].
  pose proof (proj1 K eq_refl). lia.
Qed.

Lemma wiped_inv db0 db head W low floor : state_inv (mode := mode) constants lib db0 head W low floor -> 0 <= head ->
  purged (kept head (-1)) db0 db -> state_inv (mode := mode) constants lib db (-1) W 0 (-1).
Proof.
  intros Inv Hh Pg. pose proof (si_tables _ _ _ _ _ _ _ Inv) as Ti. pose proof (ti_wf _ _ _ Ti) as Hw.
  assert (Tb : table_inv (tables db) (-1) W).
  { apply (purged_tables head (-1) ltac:(lia) (tables db0)); [exact Ti | exact (pg_storage _ _ _ Pg Hw) | exact (pg_nonce _ _ _ Pg Hw)
      | exact (pg_class _ _ _ Pg) | exact (pg_casm _ _ _ Pg) | exact (pg_wf _ _ _ Pg Hw) | exact (pg_known _ _ _ Pg)]. }
  assert (We : W (-1) = empty_world) by (apply (empty_before _ _ _ (-1) Tb); lia).
  pose proof (si_tries _ _ _ _ _ _ _ Inv) as [Hct Hst Hkt].
  pose proof (fun c => purged_roots head _ _ Hh (held_roots _ _ _ _ _ _ _ _ Hct c) (pg_contract_roots _ _ _ Pg c)) as N1.
  pose proof (purged_roots head _ _ Hh (held_roots _ _ _ _ _ _ _ _ Hst tt) (pg_storage_roots _ _ _ Pg)) as N2.
  pose proof (purged_roots head _ _ Hh (held_roots _ _ _ _ _ _ _ _ Hkt tt) (pg_class_roots _ _ _ Pg)) as N3.
  split.
  - intros n Hn. rewrite (empty_before _ _ _ n Tb) by lia. exact empty_world_ok.
  - intros n. rewrite (pg_headers _ _ _ Pg n). pose proof (si_headers _ _ _ _ _ _ _ Inv n) as Hn.
    destruct (headers db0 !! n) as [h|]; [|destruct (kept head (-1) n); lia].
    pose proof (keep_le head (-1) n ltac:(lia)) as K. destruct (kept head (-1) n); [|lia]. exfalso. pose proof (proj1 K eq_refl). lia.
  - exact Tb.
  - pose proof (si_leaves _ _ _ _ _ _ _ Inv) as [Lr Lk]. split.
    + intros b leaf casm [Hin _]%(pg_leaves _ _ _ Pg). exact (Lr b leaf casm Hin).
    + intros n s casm Hn Hin. rewrite (empty_before _ _ _ n Tb) in Hin by lia. cbn in Hin. now rewrite lookup_empty in Hin.
  - split; [|intros; lia]. intros b c x [Hin Hk]%(pg_hashes _ _ _ Pg).
    pose proof (proj1 (hi_rows _ _ _ _ (si_hashes _ _ _ _ _ _ _ Inv) b c x Hin)) as Hb. apply keep_le in Hk; lia.
  - lia.
  - destruct (pg_contract _ _ _ Pg) as [E1 (P1 & F1 & _)], (pg_storage_trie _ _ _ Pg) as [E2 (P2 & F2 & _)],
      (pg_class_trie _ _ _ Pg) as [E3 (P3 & F3 & _)].
    split; (eapply held_reset; [eassumption | eassumption | eauto | first [exact N1 | intros _; exact N2 | intros _; exact N3]|]);
      intros k; rewrite We; [apply empty_slots | apply empty_contracts | apply empty_classes].
  - split; [intros c j Hj; rewrite N1 in Hj | intros j Hj; rewrite N2 in Hj | intros j Hj; rewrite N3 in Hj]; now destruct Hj.
Qed.

Lemma genesis_reorg_spec db0 head W low floor : state_inv (mode := mode) constants lib db0 head W low floor -> 0 <= head ->
  exists db, reorg_state lib pick constants mode 0 db0 = Ret (Ok db) /\ state_inv (mode := mode) constants lib db (-1) W 0 (-1).
Proof.
  intros Inv Hh. pose proof (si_headers _ _ _ _ _ _ _ Inv 0) as H2. destruct (headers db0 !! 0) as [h2|] eqn:E2; [|lia].
  exists (purge_states (Z.to_nat (head - 0 + 1)) head db0). split.
  { unfold reorg_state. rewrite (latest_head _ _ _ _ _ _ _ Inv) by lia. now rewrite E2. }
  apply (wiped_inv db0 _ head W low floor Inv Hh). eapply purged_ext; [|apply purge_states_spec]. intros b. unfold kept.
  cbv beta. now replace (head - Z.of_nat (Z.to_nat (head - 0 + 1))) with (-1) by lia.
Qed.
End Whole.
