(* ===== verification/StateChain.v ===== *)
(** The database of the state as a state machine: blocks and reorgs from the
    empty database, the chain of state updates it stands for, and queries. *)

From Stdlib Require Import ZArith Lia Bool List.
From stdpp Require Import gmap gmultiset list.
From S2P Require Import Prelude Bytes Felt Pedersen Poseidon MerkleNode Tree TrieSpec TreeHash TreeRep TreeMap.
From S2P Require Import TreeCommit TrieStore TrieInsert TrieChain RootTables TriePrune Forest Bincode.
From S2P Require Import CommitmentFacts Hashing StateUpdate World StateTables StateLogs StateReverse StarknetState.
From S2P Require Import StateTries HashRows StateInv StateApply StateBlock StateCommit StateStep StateRevert.
From S2P Require Import StateReorg.
Local Open Scope Z_scope.

(** ** Queries *)

(** The number a block id stands for. *)
Definition resolve (hs : Headers) (head : Z) (block : BlockId) : option Z :=
  match block with
  | Number n => Some (Z.min n head)
  | Latest => Some head
  | Hash h => number_of_hash hs h
  end.

Lemma up_to_resolve hs head block b : b <= head ->
  up_to hs block b = match resolve hs head block with Some n => b <=? n | None => false end.
Proof.
  intros Hb. destruct block as [n|h|]; cbn; [|reflexivity|].
  - destruct (Z.leb_spec b n), (Z.leb_spec b (Z.min n head)); lia.
  - symmetry. now apply Z.leb_le.
Qed.

Lemma filter_false {A} (l : list A) : List.filter (fun _ => false) l = [].
Proof. now induction l. Qed.

(** A query for a block id is one for its number, over rows up to the head. *)
Lemma filter_resolve {A} hs head block (blk : A -> Z) (P : A -> bool) l : (forall x, x ∈ l -> blk x <= head) ->
  List.filter (fun x => P x && up_to hs block (blk x)) l =
  match resolve hs head block with
  | Some n => List.filter (fun x => P x && up_to hs (Number n) (blk x)) l
  | None => []
  end.
Proof.
  intros Hl. destruct (resolve hs head block) as [n|] eqn:E.
  - apply filter_ext_in. intros x Hx%list_elem_of_In. rewrite (up_to_resolve hs head block), E by now apply Hl. reflexivity.
  - rewrite <- (filter_false l). apply filter_ext_in. intros x Hx%list_elem_of_In.
    rewrite (up_to_resolve hs head block), E by now apply Hl. apply andb_false_r.
Qed.

Section Queries.
Context {mode : TriePruneMode} (constants : PedersenTables) (lib : Libraries) (db : StateDb) (head : Z) (W : Z -> World) (low floor : Z).
Context (Inv : state_inv (mode := mode) constants lib db head W low floor).

Abbreviation hs := (headers db).
Abbreviation t := (tables db).

Lemma resolve_le block n : resolve hs head block = Some n -> n <= head.
Proof.
  destruct block as [m|h|]; cbn; [intros [= <-]; lia | | intros [= <-]; lia]. unfold number_of_hash.
  destruct (List.find _ _) as [[m x]|] eqn:E; [|discriminate]. intros [= <-]. apply find_some in E as [Hin _].
  apply list_elem_of_In, elem_of_map_to_list in Hin. pose proof (si_headers _ _ _ _ _ _ _ Inv m) as Hd. rewrite Hin in Hd. cbn. lia.
Qed.

Lemma storage_value_resolve block c k : storage_value hs t block c k =
  match resolve hs head block with Some n => storage_value hs t (Number n) c k | None => None end.
Proof.
  unfold storage_value, storage_value_with_block.
  rewrite (filter_resolve hs head block row_block (fun row => felt_eqb (row_contract row) c && felt_eqb (row_key row) k)).
  - now destruct (resolve hs head block).
  - intros row Hin. pose proof (si_tables _ _ _ _ _ _ _ Inv) as Ti.
    apply (tr_rows _ _ _ (ti_storage _ _ _ Ti) (row_block row) (row_contract row, row_key row) (row_value row)).
    apply list_elem_of_fmap. now exists row.
Qed.

Lemma contract_nonce_resolve block c : contract_nonce hs t c block =
  match resolve hs head block with Some n => contract_nonce hs t c (Number n) | None => None end.
Proof.
  unfold contract_nonce.
  assert (E : forall block, List.filter (fun '(b, _, a, _) => felt_eqb a c && up_to hs block b) (join_nonces t) =
    List.filter (fun row => felt_eqb row.1.2 c && up_to hs block row.1.1.1) (join_nonces t)).
  { intros b. apply List.filter_ext. now intros [[[? ?] ?] ?]. }
  rewrite (E block), (filter_resolve hs head block (fun row => row.1.1.1) (fun row => felt_eqb row.1.2 c)).
  - destruct (resolve hs head block); [now rewrite E | reflexivity].
  - intros [[[b id] a] n] Hin. pose proof (si_tables _ _ _ _ _ _ _ Inv) as Ti.
    apply (tr_rows _ _ _ (ti_nonce _ _ _ Ti) b a n). apply list_elem_of_fmap. now exists (b, id, a, n).
Qed.

Lemma contract_class_resolve block c : contract_class_hash hs t block c =
  match resolve hs head block with Some n => contract_class_hash hs t (Number n) c | None => None end.
Proof.
  unfold contract_class_hash.
  assert (E : forall block, List.filter (fun '(b, a, _) => felt_eqb a c && up_to hs block b) (contract_rows t) =
    List.filter (fun row => felt_eqb row.1.2 c && up_to hs block row.1.1) (contract_rows t)).
  { intros b. apply List.filter_ext. now intros [[? ?] ?]. }
  rewrite (E block), (filter_resolve hs head block (fun row => row.1.1) (fun row => felt_eqb row.1.2 c)).
  - destruct (resolve hs head block); [now rewrite E | reflexivity].
  - intros [[b a] n] Hin. pose proof (si_tables _ _ _ _ _ _ _ Inv) as Ti. apply (tr_rows _ _ _ (ti_class _ _ _ Ti) b a n Hin).
Qed.

Lemma casm_hash_resolve block s : fresh t head W -> casm_hash_at hs t block s =
  match resolve hs head block with Some n => casm_hash_at hs t (Number n) s | None => None end.
Proof.
  intros Fr. unfold casm_hash_at.
  assert (E : forall block, List.filter (fun '(c, b, _) => felt_eqb c s && up_to hs block b) (casm_class_hashes t) =
    List.filter (fun row => felt_eqb row.1.1 s && up_to hs block row.1.2) (casm_class_hashes t)).
  { intros b. apply List.filter_ext. now intros [[? ?] ?]. }
  rewrite (E block), (filter_resolve hs head block (fun row => row.1.2) (fun row => felt_eqb row.1.1 s)).
  - destruct (resolve hs head block); [now rewrite E | reflexivity].
  - intros [[c b] v] Hin. apply (Fr b c v). now apply casm_log_in.
Qed.

(** A contract exists if it has a class. *)
Lemma contract_exists_class block c : contract_exists hs t c block = bool_decide (is_Some (contract_class_hash hs t block c)).
Proof.
  unfold contract_exists, contract_class_hash. set (l := List.filter _ _).
  assert (Hl : existsb (fun row => felt_eqb row.1.2 c && up_to hs block row.1.1) (contract_rows t) = true <-> l <> []).
  { rewrite existsb_exists. unfold l. split.
    - intros ([[b a] x] & Hin & Hb) E. assert (Hf : In (b, a, x) (List.filter (fun '(b, a, _) => felt_eqb a c && up_to hs block b)
        (contract_rows t))) by now apply filter_In. rewrite E in Hf. destruct Hf.
    - destruct (List.filter _ _) as [|[[b a] x] m] eqn:E; [easy|]. intros _. exists (b, a, x).
      assert (Hin : In (b, a, x) (List.filter (fun '(b, a, _) => felt_eqb a c && up_to hs block b) (contract_rows t)))
        by (rewrite E; now left). apply filter_In in Hin. exact Hin. }
  pose proof (last_row_spec (map (fun '(b, _, x) => (b, x)) l)) as Sp. apply eq_true_iff_eq. rewrite Hl, bool_decide_eq_true.
  destruct (last_row _) as [r|].
  - split; [eauto|]. intros _ E. rewrite E in Sp. destruct Sp as [Hin _]. inversion Hin.
  - apply map_eq_nil in Sp. split; [easy | now intros [? ?]].
Qed.

(** The state that a block id stands for. *)
Definition world_for (block : BlockId) : World :=
  match resolve hs head block with Some n => W n | None => empty_world end.

Lemma storage_value_world block c k : storage_value hs t block c k = w_storage (world_for block) !! (c, k).
Proof.
  rewrite storage_value_resolve. unfold world_for. destruct (resolve hs head block) as [n|] eqn:E; [|symmetry; apply lookup_empty].
  rewrite storage_value_log. apply (tr_at _ _ _ (ti_storage _ _ _ (si_tables _ _ _ _ _ _ _ Inv))). exact (resolve_le block n E).
Qed.

Lemma contract_nonce_world block c : contract_nonce hs t c block = w_nonce (world_for block) !! c.
Proof.
  rewrite contract_nonce_resolve. unfold world_for. destruct (resolve hs head block) as [n|] eqn:E; [|symmetry; apply lookup_empty].
  rewrite contract_nonce_log. apply (tr_at _ _ _ (ti_nonce _ _ _ (si_tables _ _ _ _ _ _ _ Inv))). exact (resolve_le block n E).
Qed.

Lemma contract_class_world block c : contract_class_hash hs t block c = w_class (world_for block) !! c.
Proof.
  rewrite contract_class_resolve. unfold world_for. destruct (resolve hs head block) as [n|] eqn:E; [|symmetry; apply lookup_empty].
  rewrite contract_class_log. apply (tr_at _ _ _ (ti_class _ _ _ (si_tables _ _ _ _ _ _ _ Inv))). exact (resolve_le block n E).
Qed.

(** A class of a block is found for its number and its hash. *)
Lemma casm_hash_found block n s v : header_number hs block = Some n -> block <> Latest -> w_casm (W n) !! s = Some v ->
  casm_hash_at hs t block s = Some v.
Proof.
  intros E N Ev. pose proof (si_headers _ _ _ _ _ _ _ Inv) as Hd. assert (Hn : n <= head).
  { destruct block as [m|h|]; [|exact (resolve_le (Hash h) n E) | easy]. cbn in E. case_bool_decide as B; [|discriminate].
    injection E as <-. specialize (Hd m). destruct (hs !! m); [lia | now destruct B]. }
  rewrite <- (ti_casm _ _ _ (si_tables _ _ _ _ _ _ _ Inv) n s v Hn Ev), <- (casm_hash_log hs).
  destruct block as [m|h|]; [| |easy]; cbn in E.
  - case_bool_decide; [|discriminate]. now injection E as <-.
  - unfold casm_hash_at, up_to. now rewrite E.
Qed.

(** All classes are, as long as no reorg has left rows behind. *)
Lemma casm_hash_world block s : fresh t head W -> casm_hash_at hs t block s = w_casm (world_for block) !! s.
Proof.
  intros Fr. rewrite (casm_hash_resolve block s Fr). unfold world_for. destruct (resolve hs head block) as [n|] eqn:E; [|symmetry; apply lookup_empty].
  rewrite casm_hash_log. exact (fresh_at t head W n s (si_tables _ _ _ _ _ _ _ Inv) Fr (resolve_le block n E)).
Qed.

(** The queries for a block read a state. *)
Record reads (block : BlockId) (w : World) : Prop := {
  rd_storage c k : storage_value hs t block c k = w_storage w !! (c, k);
  rd_nonce c : contract_nonce hs t c block = w_nonce w !! c;
  rd_class c : contract_class_hash hs t block c = w_class w !! c;
  rd_exists c : contract_exists hs t c block = bool_decide (is_Some (w_class w !! c))
}.

Lemma reads_world block : reads block (world_for block).
Proof.
  split; intros *; [apply storage_value_world | apply contract_nonce_world | apply contract_class_world|].
  now rewrite contract_exists_class, contract_class_world.
Qed.

(** *** Roots *)

Lemma held_root {laws : LibraryLaws lib} {K} `{EqDecision K} H `{FeltHash H} T (roots : K -> Roots) maps k n : held (mode := mode) lib H HEIGHT T roots low head maps ->
  low <= n <= head ->
  exists o, root_hash T (roots k) n = Ok o /\ spec_root H HEIGHT (fun p => maps n k !! p) = Ret (default FELT_ZERO o).
Proof.
  intros Hd Hn. destruct (held_forest _ _ _ _ _ _ _ _ Hd) as [live F].
  pose proof (forest_past _ _ _ _ _ _ _ _ F k n ltac:(lia)) as V. exact (root_hash_spec _ _ _ _ _ _ _ V).
Qed.

(** The roots of the tries of a block are the commitments of a state. *)
Record commits (n : Z) (w : World) : Prop := {
  cm_storage : exists o, root_hash (storage_trie (tries db)) (storage_roots (tries db)) n = Ok o /\
    storage_commitment_of constants w = Ret (default FELT_ZERO o);
  cm_class : exists o, root_hash (class_trie (tries db)) (class_roots (tries db)) n = Ok o /\
    class_commitment_of w = Ret (default FELT_ZERO o);
  cm_contract c : exists o, contract_root (contract_trie (tries db)) (contract_roots (tries db)) n c = Ok o /\
    contract_root_of constants w c = Ret (default FELT_ZERO o)
}.

Lemma commits_world {laws : LibraryLaws lib} (Hc : tables_ok constants) n : low <= n <= head -> commits n (W n).
Proof.
  intros Hn. pose proof (si_world _ _ _ _ _ _ _ Inv n ltac:(lia)) as Hw. pose proof (PedersenHash_total constants Hc) as Ph.
  pose proof (si_tries _ _ _ _ _ _ _ Inv) as [T1 T2 T3]. split.
  - destruct (held_root (PedersenHash constants) _ _ _ tt n T2 Hn) as (o & E & Es). exists o. split; [exact E|].
    rewrite <- Es. symmetry. exact (map_commitment _ _ _ (contract_represents constants _ Hw)).
  - destruct (held_root PoseidonHash _ _ _ tt n T3 Hn) as (o & E & Es). exists o. split; [exact E|].
    rewrite <- Es. symmetry. exact (map_commitment _ _ _ (class_represents _ Hw)).
  - intros c. destruct (held_root (PedersenHash constants) _ _ _ c n T1 Hn) as (o & E & Es). exists o. split; [exact E|].
    rewrite <- Es. symmetry. exact (map_commitment _ _ _ (slot_represents _ c Hw)).
Qed.
End Queries.

(** ** The chain *)

(** The state after a chain of updates, the last one first. *)
Fixpoint world_of (chain : list StateUpdateData) : World :=
  match chain with
  | [] => empty_world
  | d :: chain => apply_update d (world_of chain)
  end.

Definition top (chain : list StateUpdateData) : Z := Z.of_nat (length chain) - 1.

(** The chain up to a block. *)
Definition upto (chain : list StateUpdateData) (n : Z) : list StateUpdateData := drop (length chain - Z.to_nat (n + 1)) chain.

Definition world_at (chain : list StateUpdateData) (n : Z) : World := world_of (upto chain n).

Lemma upto_top chain n : top chain <= n -> upto chain n = chain.
Proof. intros Hn. unfold upto, top in *. replace (length chain - Z.to_nat (n + 1))%nat with 0%nat by lia. reflexivity. Qed.

Lemma upto_before chain n : n < 0 -> upto chain n = [].
Proof. intros Hn. unfold upto. apply drop_ge. lia. Qed.

Lemma upto_cons d chain n : n <= top chain -> upto (d :: chain) n = upto chain n.
Proof.
  intros Hn. unfold upto, top in *. cbn [length].
  replace (S (length chain) - Z.to_nat (n + 1))%nat with (S (length chain - Z.to_nat (n + 1)))%nat by lia. reflexivity.
Qed.

Lemma top_upto chain n : -1 <= n <= top chain -> top (upto chain n) = n.
Proof. intros Hn. unfold upto, top in *. rewrite length_drop. lia. Qed.

Lemma upto_upto chain n m : m <= n -> upto (upto chain n) m = upto chain m.
Proof. intros Hm. unfold upto. rewrite length_drop, drop_drop. f_equal. lia. Qed.

(** ** States that agree up to the head *)

Lemma state_inv_ext {mode : TriePruneMode} constants lib db head W W' low floor : state_inv (mode := mode) constants lib db head W low floor ->
  (forall n, n <= head -> W' n = W n) -> state_inv (mode := mode) constants lib db head W' low floor.
Proof.
  intros [Iw Ih It Il Ihs Ilo Itr Ifl] E. split.
  - intros n Hn. rewrite E by exact Hn. auto.
  - intros n. specialize (Ih n). destruct (headers db !! n); [|exact Ih]. rewrite E by lia. exact Ih.
  - destruct It as [T1 T2 T3 T4 T5 T6 T7 T8 T9].
    split; try assumption; try (eapply tracks_ext; try eassumption; intros n Hn; cbv beta; now rewrite E).
    + intros n s v Hn. rewrite E by exact Hn. now apply T7.
    + intros n s Hn. rewrite !E by lia. now apply T8.
  - destruct Il as [Lr Lk]. split; [exact Lr|]. intros n s casm Hn. rewrite E by exact Hn. now apply Lk.
  - apply (hash_inv_ext _ _ _ _ _ Ihs); [|lia]. intros b c Hb. now rewrite E by lia.
  - exact Ilo.
  - destruct Itr as [C1 C2 C3]. split; eapply held_ext; try eassumption; try reflexivity; intros b k Hb; cbv beta; now rewrite E.
  - exact Ifl.
Qed.

(** ** The machine *)

Definition empty_db : StateDb :=
  MkDb ∅ (MkTables [] [] [] [] [] ∅ [] []) (MkTries [] [] (MkTable ∅ []) ∅ (MkTable ∅ []) ∅ (MkTable ∅ []) ∅).

Section Machine.
Context (lib : Libraries) {laws : LibraryLaws lib} (constants : PedersenTables) (Hc : tables_ok constants).
Context (pick : list Felt -> option Felt) (Hp : picks pick).
Context (mode : TriePruneMode) (mode_ok : mode_keeps mode) {order : HashOrder}.

(** What a block needs: its update follows the state, the rows that a reorg left
    for its number are those of the new state, as far as it has their classes, and
    the tables have indices left. *)
Record block_ok (d : StateUpdateData) (db : StateDb) (chain : list StateUpdateData) : Prop := {
  bo_update : update_ok d (world_of chain);
  bo_agrees : agrees (top chain) (world_at chain) d (tables db) (top chain + 1);
  bo_rooms : rooms constants db (top chain) (world_at chain) d
}.

(** What a reorg needs: a target whose tries are kept; that nothing is pruned, or
    the target is not before that of an earlier reorg, or the tries without changes
    since the target have the root they had there; that system contracts which changed had no zero
    root at the target; indices; and that the compiled classes which changed have
    no rows but that of the target up to there. *)
Record reorg_ok (target : Z) (db : StateDb) (chain : list StateUpdateData) (low floor : Z) : Prop := {
  ro_target : 0 <= target < top chain;
  ro_low : low <= target;
  ro_floor : mode = Archive \/ floor <= target \/ same_roots db (top chain) target;
  ro_roots : roots_nonzero constants db (top chain) target (world_at chain);
  ro_rooms : revert_rooms constants db (top chain) target (world_at chain);
  ro_casm : casm_revertible db (top chain) target (world_at chain)
}.

(** The databases that blocks and reorgs lead to, with the chain of their updates,
    the first block whose tries are kept and the target of the last reorg. *)
Inductive synced : StateDb -> list StateUpdateData -> Z -> Z -> Prop :=
| synced_empty : synced empty_db [] 0 (-1)
| synced_block db chain low floor d hash expected version verify db' :
    synced db chain low floor -> block_ok d db chain ->
    l2_update lib pick constants mode db d hash expected version verify (top chain + 1) db = Ret (Ok db') ->
    synced db' (d :: chain) (Z.max low (threshold mode (top chain + 1))) floor
| synced_reorg db chain low floor target db' :
    synced db chain low floor -> reorg_ok target db chain low floor ->
    reorg_state lib pick constants mode (target + 1) db = Ret (Ok db') ->
    synced db' (upto chain target) (Z.max low (threshold mode target)) target
| synced_wipe db chain low floor db' :
    synced db chain low floor -> 0 <= top chain -> reorg_state lib pick constants mode 0 db = Ret (Ok db') ->
    synced db' [] 0 (-1).

Lemma empty_inv W : (forall n, n < 0 -> W n = empty_world) -> state_inv (mode := mode) constants lib empty_db (-1) W 0 (-1).
Proof.
  intros We. assert (Nr : forall c j, contract_roots_of ∅ c !! j = None).
  { intros c j. unfold contract_roots_of. rewrite lookup_empty. apply lookup_empty. }
  split; cbn [headers tables tries empty_db contract_state_hashes class_commitment_leaves].
  - intros n Hn. rewrite We by lia. exact empty_world_ok.
  - intros n. rewrite lookup_empty. lia.
  - split; try (apply tracks_nil; intros n Hn; cbv beta; now rewrite We by lia).
    + split; [split; constructor | split; constructor | intros b id n Hin; inversion Hin | intros b id kid v Hin; inversion Hin].
    + intros b s v Hin. inversion Hin.
    + intros b s v v' Hin. inversion Hin.
    + intros n s v Hn. rewrite We by lia. cbn. now rewrite lookup_empty.
    + intros n s Hn. now rewrite !We by lia.
    + intros b s v Hin. inversion Hin.
  - split; [intros b x y Hin; inversion Hin|]. intros n s v Hn. rewrite We by lia. cbn. now rewrite lookup_empty.
  - split; [intros b c h Hin; inversion Hin | intros; lia].
  - lia.
  - split; apply held_empty_table; intros k; try (intros j; first [apply Nr | apply lookup_empty]); rewrite We by lia;
      [apply empty_slots | apply empty_contracts | apply empty_classes].
  - split; [intros c j Hj; cbn [contract_roots] in Hj; rewrite Nr in Hj | intros j Hj; cbn in Hj; rewrite lookup_empty in Hj..]; now destruct Hj.
Qed.

Lemma safe_roots db chain target head low floor : state_inv (mode := mode) constants lib db head (world_at chain) low floor -> 0 <= target < head ->
  mode = Archive \/ floor <= target \/ same_roots db head target -> mode = Archive \/ same_roots db head target.
Proof.
  intros Inv Ht [Ar|[Hf|Hs]]; [now left | right | now right]. exact (floor_roots lib constants mode db head target _ low floor Inv Ht Hf).
Qed.

(** The states of a chain with one more block. *)
Lemma world_cons d chain n : n <= top chain + 1 ->
  world_at (d :: chain) n = set_block (world_at chain) (top chain + 1) (apply_update d (world_at chain (top chain))) n.
Proof.
  intros Hn. unfold set_block, world_at. destruct (decide (n = top chain + 1)) as [->|N]; [|now rewrite upto_cons by lia].
  rewrite !upto_top by (unfold top; cbn; lia). reflexivity.
Qed.

Lemma top_cons d chain : top (d :: chain) = top chain + 1.
Proof. unfold top. cbn. lia. Qed.

(** The invariant of the database of a chain. *)
Lemma synced_inv db chain low floor : synced db chain low floor -> state_inv (mode := mode) constants lib db (top chain) (world_at chain) low floor.
Proof.
  induction 1 as [|db chain low floor d hash expected version verify db' S IH [Hu Ha Hr] E|
    db chain low floor target db' S IH [Ht Hl Hf Hz Hr Hk] E|db chain low floor db' S IH Ht E].
  - apply empty_inv. intros n Hn. unfold world_at. now rewrite upto_before.
  - assert (Ew : world_at chain (top chain) = world_of chain) by (unfold world_at; now rewrite upto_top by lia).
    rewrite <- Ew in Hu.
    destruct (block_spec lib constants Hc pick Hp mode mode_ok db (top chain) (world_at chain) low floor IH d Hu Ha Hr verify hash version)
      as (commitment & db1 & _ & Inv & _ & Eq). rewrite Eq in E. destruct (match expected with Some _ => _ | None => _ end); [|discriminate].
    injection E as <-. rewrite top_cons. apply (state_inv_ext _ _ _ _ _ _ _ _ Inv). intros n Hn. now apply world_cons.
  - destruct (reorg_spec lib constants Hc pick Hp mode (keeps_valid mode mode_ok) db (top chain) target (world_at chain) low floor IH Ht Hl
      (safe_roots _ _ _ _ _ _ IH Ht Hf) Hz Hr Hk)
      as (db1 & Eq & Inv & _). rewrite Eq in E. injection E as <-. rewrite top_upto by lia.
    apply (state_inv_ext _ _ _ _ _ _ _ _ Inv). intros n Hn. unfold world_at. now rewrite upto_upto.
  - destruct (genesis_reorg_spec lib constants pick mode db (top chain) (world_at chain) low floor IH Ht) as (db1 & Eq & Inv).
    rewrite Eq in E. injection E as <-. apply (state_inv_ext _ _ _ _ _ _ _ _ Inv). intros n Hn.
    unfold world_at. now rewrite !upto_before by lia.
Qed.

Lemma world_at_top chain : world_at chain (top chain) = world_of chain.
Proof. unfold world_at. now rewrite upto_top by lia. Qed.

Lemma next_block db chain low floor d : synced db chain low floor -> block_ok d db chain -> forall hash version verify,
  exists commitment db', state_commitment_of constants (world_of (d :: chain)) version = Ret commitment /\
    synced db' (d :: chain) (Z.max low (threshold mode (top chain + 1))) floor /\
    (fresh (tables db) (top chain) (world_at chain) -> fresh (tables db') (top (d :: chain)) (world_at (d :: chain))) /\
    forall expected, l2_update lib pick constants mode db d hash expected version verify (top chain + 1) db =
      if match expected with Some e => felt_eqb commitment e | None => true end then Ret (Ok db')
      else Ret (Err StateCommitmentMismatch).
Proof.
  intros S Ok hash version verify. pose proof (synced_inv _ _ _ _ S) as Inv. pose proof Ok as [Hu Ha Hr].
  rewrite <- world_at_top in Hu.
  destruct (block_spec lib constants Hc pick Hp mode mode_ok db (top chain) (world_at chain) low floor Inv d Hu Ha Hr verify hash version)
    as (commitment & db' & Ec & _ & Fr & Eq). exists commitment, db'. rewrite world_at_top in Ec. split; [exact Ec|].
  split; [exact (synced_block _ _ _ _ _ _ _ _ _ _ S Ok (Eq None))|]. split; [|exact Eq].
  intros F b s v Hin. rewrite top_cons. destruct (Fr F b s v Hin) as [Hb Ev]. split; [exact Hb|]. now rewrite world_cons by exact Hb.
Qed.

Lemma reorg_back db chain low floor target : synced db chain low floor -> reorg_ok target db chain low floor ->
  exists db', reorg_state lib pick constants mode (target + 1) db = Ret (Ok db') /\
    synced db' (upto chain target) (Z.max low (threshold mode target)) target /\
    casm_class_hashes (tables db') = casm_class_hashes (tables db).
Proof.
  intros S Ok. pose proof (synced_inv _ _ _ _ S) as Inv. pose proof Ok as [Ht Hl Hf Hz Hr Hk].
  destruct (reorg_spec lib constants Hc pick Hp mode (keeps_valid mode mode_ok) db (top chain) target (world_at chain) low floor Inv Ht Hl
    (safe_roots _ _ _ _ _ _ Inv Ht Hf) Hz Hr Hk)
    as (db' & Eq & _ & Ec). exists db'. split; [exact Eq|]. split; [exact (synced_reorg _ _ _ _ _ _ S Ok Eq) | exact Ec].
Qed.
End Machine.
