(* ===== verification/StateMerge.v ===== *)
(** Merging state updates: what an update on top of another stands for
    ([StateUpdate::apply]), and the merged updates of several blocks
    ([merge_state_updates]). *)

From Stdlib Require Import ZArith Lia Bool List.
From stdpp Require Import gmap list.
From S2P Require Import Prelude Bytes Felt TreeMap StateUpdate World StateTables StateLogs StateReverse StateInv StateApply StateBlock.

Section Merge.
Context {order : HashOrder}.

(** ** Maps *)

Lemma insert_all_union {V} (m' m : gmap Felt V) : insert_all (iter m') m = m' ∪ m.
Proof.
  apply map_eq. intros k. pose proof (insert_all_in (iter m') m k) as Hi. rewrite lookup_union.
  destruct (m' !! k) as [v|] eqn:E.
  - rewrite union_Some_l. destruct (insert_all (iter m') m !! k) as [x|].
    + destruct Hi as [Hi|[Hn _]]; [apply iter_in in Hi; congruence|]. exfalso. apply Hn. apply iter_keys. eauto.
    + exfalso. apply (proj1 Hi). apply iter_keys. eauto.
  - rewrite (left_id_L None (∪)). destruct (insert_all (iter m') m !! k) as [x|].
    + destruct Hi as [Hi|[_ Hi]]; [apply iter_in in Hi; congruence | now symmetry].
    + now symmetry.
Qed.

Lemma iter_lookup {V} (m : gmap Felt V) : (list_to_map (iter m) : gmap Felt V) = m.
Proof. exact (proj2 (iter_map m)). Qed.

(** ** An update on top of another *)

Lemma merged_contract other self c : contract_updates (apply_data other self) !! c =
  match contract_updates other !! c with
  | Some u => Some (merge_contract u (default default_update (contract_updates self !! c)))
  | None => contract_updates self !! c
  end.
Proof.
  cbn [apply_data contract_updates]. rewrite (fold_entry default_update merge_contract) by apply iter_nodup. now rewrite iter_lookup.
Qed.

Lemma merged_system other self c : system_contract_updates (apply_data other self) !! c =
  match system_contract_updates other !! c with
  | Some u => Some (u ∪ default ∅ (system_contract_updates self !! c))
  | None => system_contract_updates self !! c
  end.
Proof.
  cbn [apply_data system_contract_updates].
  rewrite (fold_entry ∅ (fun u => insert_all (iter (u : gmap Felt Felt)))) by apply iter_nodup. rewrite iter_lookup.
  destruct (system_contract_updates other !! c); [|reflexivity]. now rewrite insert_all_union.
Qed.

Lemma or_else_union {A} (o o' : option A) : or_else o o' = o ∪ o'.
Proof. now destruct o, o'. Qed.

Lemma merged_slots other self : all_slots (storage <$> contract_updates (apply_data other self)) =
  all_slots (storage <$> contract_updates other) ∪ all_slots (storage <$> contract_updates self).
Proof.
  apply map_eq. intros [c k]. rewrite lookup_union, !all_slots_lookup, !lookup_fmap, merged_contract.
  destruct (contract_updates other !! c) as [u|]; cbn [fmap option_fmap option_map]; [|now rewrite (left_id_L None (∪))].
  cbn [merge_contract storage]. rewrite insert_all_union, lookup_union. now destruct (contract_updates self !! c).
Qed.

Lemma merged_system_slots other self : all_slots (system_contract_updates (apply_data other self)) =
  all_slots (system_contract_updates other) ∪ all_slots (system_contract_updates self).
Proof.
  apply map_eq. intros [c k]. rewrite lookup_union, !all_slots_lookup, merged_system.
  destruct (system_contract_updates other !! c) as [u|]; [|now rewrite (left_id_L None (∪))].
  rewrite lookup_union. now destruct (system_contract_updates self !! c).
Qed.

Lemma merged_nonces other self : nonces (apply_data other self) = nonces other ∪ nonces self.
Proof.
  apply map_eq. intros c. unfold nonces. rewrite lookup_union, !lookup_omap, merged_contract.
  destruct (contract_updates other !! c) as [u|]; cbn; [|now rewrite (left_id_L None (∪))].
  rewrite or_else_union. now destruct (contract_updates self !! c).
Qed.

Lemma merged_deployed other self : deployed_contracts (apply_data other self) = deployed_contracts other ∪ deployed_contracts self.
Proof.
  apply map_eq. intros c. unfold deployed_contracts. rewrite lookup_union, !lookup_omap, merged_contract.
  destruct (contract_updates other !! c) as [u|]; cbn; [|now rewrite (left_id_L None (∪))].
  destruct (class u), (contract_updates self !! c) as [[s [x|] n]|]; reflexivity.
Qed.

(** Contracts and system contracts are different contracts. *)
Definition separate (d : StateUpdateData) : Prop :=
  (forall c, is_Some (contract_updates d !! c) -> is_system_contract c = false) /\
  (forall c, is_Some (system_contract_updates d !! c) -> is_system_contract c = true).

(** Without its migrated classes. *)
Definition without_migrations (d : StateUpdateData) : StateUpdateData :=
  MkData (contract_updates d) (system_contract_updates d) (declared_cairo_classes d) (declared_sierra_classes d) ∅.

Lemma separate_slots d d' : separate d -> separate d' ->
  all_slots (storage <$> contract_updates d) ##ₘ all_slots (system_contract_updates d').
Proof.
  intros [Hc _] [_ Hs]. apply map_disjoint_spec. intros [c k] x y. rewrite !all_slots_lookup, lookup_fmap.
  destruct (contract_updates d !! c) eqn:E1; [|discriminate]. destruct (system_contract_updates d' !! c) eqn:E2; [|discriminate].
  specialize (Hc c ltac:(eauto)). specialize (Hs c ltac:(eauto)). congruence.
Qed.

Lemma separate_merged other self : separate other -> separate self -> separate (apply_data other self).
Proof.
  intros [Hc Hs] [Hc' Hs']. split; intros c.
  - rewrite merged_contract. destruct (contract_updates other !! c) eqn:E; [intros _; apply Hc; eauto | apply Hc'].
  - rewrite merged_system. destruct (system_contract_updates other !! c) eqn:E; [intros _; apply Hs; eauto | apply Hs'].
Qed.

Lemma apply_data_world other self w : separate other -> separate self ->
  declared_sierra_classes other ##ₘ migrated_compiled_classes self ->
  apply_update (apply_data other self) w = apply_update (without_migrations other) (apply_update self w).
Proof.
  intros So Ss Dm. unfold apply_update. rewrite merged_slots, merged_system_slots, merged_nonces, merged_deployed.
  cbn [w_storage w_nonce w_class w_casm without_migrations contract_updates system_contract_updates declared_sierra_classes
    migrated_compiled_classes apply_data]. rewrite insert_all_union, (left_id_L ∅ (∪)).
  change (nonces (without_migrations other)) with (nonces other).
  change (deployed_contracts (without_migrations other)) with (deployed_contracts other). f_equal.
  - pose proof (separate_slots other self So Ss) as D. set (Co := all_slots (storage <$> contract_updates other)) in *.
    set (Sl := all_slots (system_contract_updates self)) in *. rewrite <- !(assoc_L (∪)). f_equal. rewrite !(assoc_L (∪)).
    now rewrite (map_union_comm Sl Co) by now symmetry.
  - now rewrite (assoc_L (∪)).
  - now rewrite (assoc_L (∪)).
  - rewrite !(assoc_L (∪)). now rewrite (map_union_comm (migrated_compiled_classes self)) by now symmetry.
Qed.

(** ** The updates of several blocks *)

(** The update that a merged one stands for: of the values of a slot the last. *)
Definition data_of (m : MultiUpdate) : StateUpdateData :=
  MkData ((fun u => MkContractUpdate (insert_all (ref_storage u) ∅) (ref_class u) (ref_nonce u)) <$> multi_contracts m)
    ((fun l => insert_all l ∅) <$> multi_systems m) (multi_cairo m) (multi_sierra m) (multi_migrated m).

Lemma insert_all_app {V} (l l' : list (Felt * V)) m : insert_all (l ++ l') m = insert_all l' (insert_all l m).
Proof. apply fold_left_app. Qed.

Lemma merge_into_apply m x : data_of (merge_into m x) = apply_data x (data_of m).
Proof.
  unfold data_of at 1, apply_data. f_equal.
  - apply map_eq. intros c. rewrite lookup_fmap. cbn [merge_into multi_contracts contract_updates data_of].
    rewrite (fold_entry (MkContractRef [] None None) (fun u e => MkContractRef (ref_storage e ++ iter (storage u))
      (or_else (class u) (ref_class e)) (or_else (nonce u) (ref_nonce e)))) by apply iter_nodup.
    rewrite (fold_entry default_update merge_contract) by apply iter_nodup. rewrite !iter_lookup, lookup_fmap.
    destruct (contract_updates x !! c) as [u|]; [|reflexivity]. cbn [fmap option_fmap option_map]. unfold merge_contract.
    destruct (multi_contracts m !! c) as [e|]; cbn [default fmap option_fmap option_map ref_storage ref_class ref_nonce storage class nonce];
      rewrite insert_all_app; reflexivity.
  - apply map_eq. intros c. rewrite lookup_fmap. cbn [merge_into multi_systems system_contract_updates data_of].
    rewrite (fold_entry [] (fun u e => e ++ iter (u : gmap Felt Felt))) by apply iter_nodup.
    rewrite (fold_entry ∅ (fun u => insert_all (iter (u : gmap Felt Felt)))) by apply iter_nodup. rewrite !iter_lookup, lookup_fmap.
    destruct (system_contract_updates x !! c) as [u|]; [|reflexivity]. cbn [fmap option_fmap option_map].
    destruct (multi_systems m !! c) as [e|]; cbn [default fmap option_fmap option_map]; rewrite insert_all_app; reflexivity.
Qed.

(** Merging blocks is applying their updates one on top of the other. *)
Lemma merge_is_apply ds : data_of (merge_state_updates ds) = fold_left (fun d x => apply_data x d) ds default_data.
Proof.
  unfold merge_state_updates. assert (G : forall m, data_of (fold_left merge_into ds m) = fold_left (fun d x => apply_data x d) ds (data_of m)).
  { induction ds as [|x ds IH]; intros m; [reflexivity|]. cbn [fold_left]. now rewrite IH, merge_into_apply. }
  exact (G (MkMulti ∅ ∅ ∅ ∅ ∅)).
Qed.

Lemma fold_apply_world ds : forall d w, Forall separate ds -> separate d -> migrated_compiled_classes d = ∅ ->
  apply_update (fold_left (fun d x => apply_data x d) ds d) w =
  fold_left (fun w x => apply_update (without_migrations x) w) ds (apply_update d w).
Proof.
  induction ds as [|x ds IH]; intros d w Hs Sd Em; [reflexivity|]. inversion Hs as [|? ? Sx Hs']; subst. cbn [fold_left].
  rewrite IH; [|exact Hs' | now apply separate_merged | exact Em].
  rewrite apply_data_world; [reflexivity | exact Sx | exact Sd|]. rewrite Em. apply map_disjoint_empty_r.
Qed.
End Merge.

Lemma apply_nothing w : apply_update default_data w = w.
Proof.
  assert (E : all_slots ∅ = ∅) by (apply map_eq; intros [c k]; now rewrite all_slots_lookup, !lookup_empty).
  destruct w as [s n c k]. unfold apply_update, nonces, deployed_contracts.
  cbn [default_data contract_updates system_contract_updates declared_sierra_classes migrated_compiled_classes w_storage w_nonce w_class w_casm].
  now rewrite fmap_empty, E, !omap_empty, !(left_id_L ∅ (∪)).
Qed.

Lemma default_separate : separate default_data.
Proof. split; intros c [u E]; cbn in E; now rewrite lookup_empty in E. Qed.

(** ** Queries of an update *)

(** A contract that an update deploys is new. *)
Definition deploys_new (d : StateUpdateData) (w : World) : Prop :=
  forall c u x, contract_updates d !! c = Some u -> class u = Some (Deploy x) ->
    w_nonce w !! c = None /\ forall k, w_storage w !! (c, k) = None.

Lemma query_storage d w c k : separate d -> deploys_new d w ->
  match StateUpdate.storage_value d c k with
  | Some v => default FELT_ZERO (w_storage (apply_update d w) !! (c, k)) = v
  | None => w_storage (apply_update d w) !! (c, k) = w_storage w !! (c, k)
  end.
Proof.
  intros [Hc Hs] Hn. pose proof (apply_slot d w c k) as E. unfold slot in E. rewrite E. unfold StateUpdate.storage_value, storage_value_with_provenance.
  destruct (contract_updates d !! c) as [u|] eqn:Eu.
  - destruct (system_contract_updates d !! c) as [s|] eqn:Es.
    { specialize (Hc c ltac:(eauto)). specialize (Hs c ltac:(eauto)). congruence. }
    destruct (storage u !! k) as [v|]; [reflexivity|]. destruct (class u) as [[x|x]|] eqn:Ec; [|reflexivity..].
    cbn. now rewrite (proj2 (Hn c u x Eu Ec) k).
  - destruct (system_contract_updates d !! c) as [s|]; [|reflexivity]. now destruct (s !! k).
Qed.

Lemma query_nonce d w c : deploys_new d w ->
  match StateUpdate.contract_nonce d c with
  | Some v => default FELT_ZERO (w_nonce (apply_update d w) !! c) = v
  | None => w_nonce (apply_update d w) !! c = w_nonce w !! c
  end.
Proof.
  intros Hn. rewrite apply_nonce. unfold StateUpdate.contract_nonce. destruct (contract_updates d !! c) as [u|] eqn:Eu; [|reflexivity].
  destruct (nonce u) as [n|]; [reflexivity|]. destruct (class u) as [[x|x]|] eqn:Ec; [|reflexivity..].
  now rewrite (proj1 (Hn c u x Eu Ec)).
Qed.

Lemma query_class d w c :
  match contract_class d c with
  | Some v => w_class (apply_update d w) !! c = Some v
  | None => w_class (apply_update d w) !! c = w_class w !! c
  end.
Proof.
  rewrite apply_class. unfold contract_class. destruct (contract_updates d !! c) as [u|]; [|reflexivity]. now destruct (class u).
Qed.
