(* ===== verification/StateRoundTrip.v ===== *)
(** Inserting the state update of a block and reading it back
    ([insert_state_update_data] and [state_update]). *)

From Stdlib Require Import ZArith Lia Bool List.
From stdpp Require Import gmap list.
From S2P Require Import Prelude Bytes Felt TreeMap StateUpdate World StateTables StateLogs StateReverse StateInv StateApply.
From S2P Require Import StateBlock StateStep StateMerge.
Local Open Scope Z_scope.

(** ** Folds *)

Lemma fold_filtered {A B} (P : A -> bool) (f : A -> B -> B) (l : list A) : forall d,
  fold_left (fun d x => if P x then f x d else d) l d = fold_left (fun d x => f x d) (List.filter P l) d.
Proof. induction l as [|x l IH]; intros d; [reflexivity|]. cbn. destruct (P x); cbn; apply IH. Qed.

Lemma fold_map {A B C} (g : A -> C) (f : C -> B -> B) (l : list A) : forall d,
  fold_left (fun d x => f (g x) d) l d = fold_left (fun d x => f x d) (map g l) d.
Proof. induction l as [|x l IH]; intros d; [reflexivity|]. cbn. apply IH. Qed.

Lemma fold_flat_map {A B C} (g : A -> list C) (f : C -> B -> B) (l : list A) : forall d,
  fold_left (fun d x => f x d) (flat_map g l) d = fold_left (fun d x => fold_left (fun d y => f y d) (g x) d) l d.
Proof. induction l as [|x l IH]; intros d; [reflexivity|]. cbn. rewrite fold_left_app. apply IH. Qed.

Lemma fold_contracts {A} (f : A -> gmap Felt ContractUpdate -> gmap Felt ContractUpdate) (l : list A) : forall d,
  fold_left (fun d x => on_contracts (f x) d) l d = on_contracts (fun m => fold_left (fun m x => f x m) l m) d.
Proof. induction l as [|x l IH]; intros d; [now destruct d|]. cbn [fold_left]. rewrite IH. reflexivity. Qed.

Lemma list_map_eq {V} (l : list (Felt * V)) (m : gmap Felt V) : NoDup l.*1 -> (forall k v, (k, v) ∈ l <-> m !! k = Some v) ->
  list_to_map l = m.
Proof.
  intros Nd E. apply map_eq. intros k. destruct (m !! k) as [v|] eqn:Ek.
  - apply elem_of_list_to_map_1; [exact Nd|]. now apply E.
  - apply not_elem_of_list_to_map_1. intros ([k' v] & -> & Hin)%list_elem_of_fmap. apply E in Hin. cbn in Ek. congruence.
Qed.

(** The rows of a block that has none before. *)
Lemma block_rows {K V} (l new : list (Z * K * V)) n : (forall b k v, (b, k, v) ∈ l -> b <> n) -> (forall b k v, (b, k, v) ∈ new -> b = n) ->
  List.filter (fun row => row.1.1 =? n) (l ++ new) = new.
Proof.
  intros Hl Hn. rewrite List.filter_app.
  assert (E1 : List.filter (fun row => row.1.1 =? n) l = []).
  { induction l as [|[[b k] v] l IH]; [reflexivity|]. cbn. rewrite (proj2 (Z.eqb_neq b n) (Hl b k v ltac:(now left))).
    apply IH. intros b' k' v' Hin. apply (Hl b' k' v'). now right. }
  assert (E2 : List.filter (fun row => row.1.1 =? n) new = new).
  { clear -Hn. induction new as [|[[b k] v] l IH]; [reflexivity|]. cbn. rewrite (proj2 (Z.eqb_eq b n) (Hn b k v ltac:(now left))).
    f_equal. apply IH. intros b' k' v' Hin. apply (Hn b' k' v'). now right. }
  now rewrite E1, E2.
Qed.

(** ** The classes *)

Section Classes.
Context {order : HashOrder} (blk : Z).

(** What a declaration makes of the block of a class. *)
Definition declared_def (o : option (option Z)) : option (option Z) :=
  match o with Some (Some b) => Some (Some b) | _ => Some (Some blk) end.

Lemma upsert_lookup cls defs s : (upsert_declared_at blk cls defs).2 !! s = if decide (s = cls) then declared_def (defs !! s) else defs !! s.
Proof.
  unfold upsert_declared_at, declared_def. destruct (decide (s = cls)) as [->|N].
  - destruct (defs !! cls) as [[b|]|] eqn:E; cbn [snd]; [exact E | apply lookup_insert_eq..].
  - destruct (defs !! cls) as [[b|]|] eqn:E; cbn [snd]; [reflexivity | now rewrite lookup_insert_ne by congruence..].
Qed.

Lemma declared_def_twice o : declared_def (declared_def o) = declared_def o.
Proof. now destruct o as [[b|]|]. Qed.

Lemma declareds_classes headers l : is_Some (headers !! blk) -> forall t t', fold_left (insert_declared blk headers) l (Ok t) = Ok t' ->
  (forall s, class_definitions t' !! s = if decide (s ∈ l) then declared_def (class_definitions t !! s) else class_definitions t !! s) /\
  (forall s b, (s, b) ∈ redeclared_classes t' <-> (s, b) ∈ redeclared_classes t \/
     b = blk /\ s ∈ l /\ exists b', class_definitions t !! s = Some (Some b') /\ b' <> blk).
Proof.
  intros Hh. induction l as [|cls l IH]; intros t t' E; cbn [fold_left] in E.
  - injection E as <-. split; [intros s; rewrite decide_False; [reflexivity | inversion 1]|].
    intros s b. split; [auto|]. intros [H|(_ & H & _)]; [exact H | inversion H].
  - destruct (insert_declared_spec blk headers cls t Hh) as (t1 & E1 & _). rewrite E1 in E. specialize (IH t1 t' E) as [D R].
    assert (D1 : forall s, class_definitions t1 !! s = if decide (s = cls) then declared_def (class_definitions t !! s) else class_definitions t !! s).
    { intros s. rewrite <- (upsert_lookup cls). unfold insert_declared in E1.
      destruct (upsert_declared_at blk cls (class_definitions t)) as [at_ defs].
      destruct (at_ =? blk); [|rewrite bool_decide_eq_true_2 in E1 by exact Hh]; injection E1 as <-; reflexivity. }
    assert (R1 : forall s b, (s, b) ∈ redeclared_classes t1 <-> (s, b) ∈ redeclared_classes t \/
      b = blk /\ s = cls /\ exists b', class_definitions t !! s = Some (Some b') /\ b' <> blk).
    { intros s b. unfold insert_declared, upsert_declared_at in E1. destruct (class_definitions t !! cls) as [[b'|]|] eqn:Ec.
      - cbv zeta beta iota in E1. destruct (Z.eqb_spec b' blk) as [->|N]; [|rewrite bool_decide_eq_true_2 in E1 by exact Hh]; injection E1 as <-.
        + split; [auto|]. intros [H|(_ & -> & b' & Eb & N)]; [exact H | congruence].
        + cbn [redeclared_classes on_class_definitions]. rewrite elem_of_app. split.
          * intros [H|H%list_elem_of_singleton]; [auto|]. injection H as -> ->. right. eauto.
          * intros [H|(-> & -> & _)]; [now left | right; now apply list_elem_of_singleton].
      - rewrite Z.eqb_refl in E1. injection E1 as <-. split; [auto|]. intros [H|(_ & -> & b' & Eb & N)]; [exact H | congruence].
      - rewrite Z.eqb_refl in E1. injection E1 as <-. split; [auto|]. intros [H|(_ & -> & b' & Eb & N)]; [exact H | congruence]. }
    split.
    + intros s. rewrite D, D1. destruct (decide (s = cls)) as [->|N].
      * rewrite (decide_True _ _ (list_elem_of_here cls l)). destruct (decide (cls ∈ l)); [apply declared_def_twice | reflexivity].
      * destruct (decide (s ∈ l)); [rewrite decide_True by (now right); reflexivity|].
        rewrite decide_False; [reflexivity|]. now intros [->|H]%elem_of_cons.
    + intros s b. rewrite R, R1, D1. split.
      * intros [[H|(-> & -> & H)]|(-> & H & b' & Eb & N)]; [auto | right; split; [reflexivity|]; split; [now left | exact H]|].
        right. split; [reflexivity|]. split; [now right|]. destruct (decide (s = cls)); [|eauto].
        destruct (class_definitions t !! s) as [[b0|]|]; cbn in Eb; injection Eb as <-; [eauto | congruence..].
      * intros [H|(-> & [->|H]%elem_of_cons & b' & Eb & N)]; [auto | left; right; eauto|].
        right. split; [reflexivity|]. split; [exact H|]. destruct (decide (s = cls)); [|eauto]. rewrite Eb. cbn. eauto.
Qed.

(** Classes that are known to be declared stay as they are. *)
Lemma deployeds_classes rows : forall t, (forall c u x, (c, u) ∈ rows -> class u = Some (Deploy x) ->
    exists b, class_definitions t !! x = Some (Some b)) ->
  class_definitions (fold_left (insert_deployed blk) rows t) = class_definitions t /\
  redeclared_classes (fold_left (insert_deployed blk) rows t) = redeclared_classes t.
Proof.
  induction rows as [|[c u] rows IH]; intros t Hx; cbn [fold_left]; [auto|].
  assert (E : insert_deployed blk t (c, u) = t).
  { unfold insert_deployed. cbn [snd]. destruct (class u) as [[x|x]|] eqn:Ec; [|reflexivity..].
    destruct (Hx c u x ltac:(now left) Ec) as [b Eb]. unfold on_class_definitions, upsert_declared_at. rewrite Eb. now destruct t. }
  rewrite E. apply IH. intros c' u' x Hin. apply (Hx c' u' x). now right.
Qed.

Lemma casms_classes kvs : forall t t', fold_left (insert_casm_hash blk) kvs (Ok t) = Ok t' ->
  class_definitions t' = class_definitions t /\ redeclared_classes t' = redeclared_classes t.
Proof.
  induction kvs as [|kv kvs IH]; intros t t' E; cbn [fold_left] in E; [injection E as <-; auto|].
  destruct (insert_casm_hash blk (Ok t) kv) as [t1|e] eqn:E1; cycle 1.
  { exfalso. clear -E. induction kvs as [|kv' kvs IH]; [discriminate | exact (IH E)]. }
  destruct (IH t1 t' E) as [D R]. unfold insert_casm_hash in E1.
  destruct (existsb _ _); [injection E1 as <-; auto|]. destruct (bool_decide _); [|discriminate]. injection E1 as <-. auto.
Qed.
End Classes.

(** ** Reading *)

(** Assignments in a loop: the last one of a key, or what was there before. *)
Lemma assign_spec {A V} (P : A -> bool) (key : A -> Felt) (val : A -> V) (l : list A) : forall (m : gmap Felt V) k,
  (exists x, x ∈ l /\ P x = true /\ key x = k /\
     fold_left (fun m x => if P x then <[key x := val x]> m else m) l m !! k = Some (val x)) \/
  ((forall x, x ∈ l -> P x = true -> key x <> k) /\
   fold_left (fun m x => if P x then <[key x := val x]> m else m) l m !! k = m !! k).
Proof.
  induction l as [|x l IH]; intros m k; cbn [fold_left]; [right; split; [intros x Hx; inversion Hx | reflexivity]|].
  destruct (IH (if P x then <[key x := val x]> m else m) k) as [(y & Hy & Py & Ky & E)|[N E]].
  - left. exists y. split; [now right | auto].
  - destruct (P x) eqn:Px.
    + destruct (decide (key x = k)) as [Ek|Nk].
      * left. exists x. split; [now left|]. split; [exact Px|]. split; [exact Ek|]. rewrite E, Ek. apply lookup_insert_eq.
      * right. split; [|rewrite E; now apply lookup_insert_ne]. intros y [->|Hy]%elem_of_cons; [easy | now apply N].
    + right. split; [|exact E]. intros y [->|Hy]%elem_of_cons; [congruence | now apply N].
Qed.

Section Reading.
Context {order : HashOrder} (t t' : Tables) (blk : Z) (d : StateUpdateData).

(** The block has no rows yet. *)
Record block_new : Prop := {
  bn_storage b k v : (b, k, v) ∈ storage_log t -> b < blk;
  bn_nonce b k v : (b, k, v) ∈ nonce_log t -> b < blk;
  bn_class b k v : (b, k, v) ∈ contract_rows t -> b < blk;
  bn_casm s b v : (s, b, v) ∈ casm_class_hashes t -> b < blk;
  bn_defs s b : class_definitions t !! s = Some (Some b) -> b < blk;
  bn_redeclared s b : (s, b) ∈ redeclared_classes t -> b < blk
}.

Abbreviation declared_list := (map fst (iter (declared_sierra_classes d)) ++ iter_set (declared_cairo_classes d)).

(** Updates that the tables can tell: nothing in them is empty, contracts are
    deployed once and replaced later, with classes that are declared, classes of
    Sierra are declared once and migrated later, and those of Cairo 0 have no
    compiled class. *)
Record readable : Prop := {
  re_separate : separate d;
  re_changes c u : contract_updates d !! c = Some u -> changes u;
  re_system c s : system_contract_updates d !! c = Some s -> s <> ∅;
  re_deploy c u x : contract_updates d !! c = Some u -> class u = Some (Deploy x) ->
    (forall b v, (b, c, v) ∉ contract_rows t) /\ (x ∈ declared_list \/ exists b, class_definitions t !! x = Some (Some b));
  re_replace c u x : contract_updates d !! c = Some u -> class u = Some (Replace x) -> exists b v, (b, c, v) ∈ contract_rows t;
  re_declared s v : declared_sierra_classes d !! s = Some v ->
    (forall b, class_definitions t !! s <> Some (Some b)) /\ s ∉ declared_cairo_classes d /\ (forall b v, (s, b, v) ∉ casm_class_hashes t);
  re_migrated s v : migrated_compiled_classes d !! s = Some v ->
    (exists b v, (s, b, v) ∈ casm_class_hashes t) /\ declared_sierra_classes d !! s = None /\ s ∉ declared_cairo_classes d /\
    is_Some (class_definitions t !! s)
}.

Context (Bn : block_new) (Re : readable) (Hw : wf_tables t).
Context (headers : Headers) (Hh : is_Some (headers !! blk)) (Et : insert_state_update_data blk headers d t = Ok t').

Lemma declared_disjoint_new : declared_sierra_classes d ##ₘ migrated_compiled_classes d.
Proof. apply map_disjoint_spec. intros s x y Ex Ey. destruct (re_migrated Re s y Ey) as (_ & N & _). congruence. Qed.

(** The rows after the insertion. *)
Record inserted : Prop := {
  in_storage : storage_log t' = storage_log t ++ (flat_map (storage_rows blk) (iter (contract_updates d)) ++
    flat_map (system_rows blk) (iter (system_contract_updates d)));
  in_nonce : nonce_log t' = nonce_log t ++ flat_map (nonce_rows blk) (iter (contract_updates d));
  in_class : contract_rows t' = contract_rows t ++ flat_map (class_rows blk) (iter (contract_updates d));
  in_casm s b v : (s, b, v) ∈ casm_class_hashes t' <-> (s, b, v) ∈ casm_class_hashes t \/
    b = blk /\ (migrated_compiled_classes d ∪ declared_sierra_classes d) !! s = Some v;
  in_defs s : class_definitions t' !! s =
    if decide (s ∈ declared_list) then declared_def blk (class_definitions t !! s) else class_definitions t !! s;
  in_redeclared s b : (s, b) ∈ redeclared_classes t' <-> (s, b) ∈ redeclared_classes t \/
    b = blk /\ s ∈ declared_list /\ exists b', class_definitions t !! s = Some (Some b') /\ b' <> blk
}.

Lemma new_casm s v : (s, v) ∈ iter (declared_sierra_classes d) ++ iter (migrated_compiled_classes d) <->
  (migrated_compiled_classes d ∪ declared_sierra_classes d) !! s = Some v.
Proof.
  rewrite elem_of_app, !iter_in. rewrite lookup_union_Some by (symmetry; exact declared_disjoint_new). tauto.
Qed.

Lemma inserted_rows : inserted.
Proof.
  destruct (insert_state_update_spec blk headers d t Hw Hh declared_disjoint_new) as (t0 & E0 & _ & Es & En & Ec & Ek & _).
  - intros s v Hin _. pose proof (bn_casm Bn s blk v Hin). lia.
  - intros s [v E]. apply (re_migrated Re s v E).
  - rewrite Et in E0. injection E0 as <-.
    assert (Cl : (forall s, class_definitions t' !! s =
        if decide (s ∈ declared_list) then declared_def blk (class_definitions t !! s) else class_definitions t !! s) /\
      (forall s b, (s, b) ∈ redeclared_classes t' <-> (s, b) ∈ redeclared_classes t \/
        b = blk /\ s ∈ declared_list /\ exists b', class_definitions t !! s = Some (Some b') /\ b' <> blk)).
    { pose proof Et as E. unfold insert_state_update_data in E.
      pose proof (insert_contract_updates_adds blk (iter (contract_updates d)) t Hw) as A1. set (t1 := fold_left _ _ t) in *.
      pose proof (insert_system_updates_adds blk (iter (system_contract_updates d)) t1 (ad_wf _ _ _ _ _ A1)) as A2.
      set (t2 := fold_left _ _ t1) in *. pose proof (adds_trans _ _ _ _ _ _ _ _ _ A1 A2) as A.
      destruct (insert_declareds_spec blk headers declared_list t2 Hh) as (t3 & E3 & _). rewrite E3 in E.
      destruct (declareds_classes blk headers declared_list Hh t2 t3 E3) as [D3 R3].
      rewrite (ad_defs _ _ _ _ _ A) in D3. setoid_rewrite (ad_defs _ _ _ _ _ A) in R3. setoid_rewrite (ad_redeclared _ _ _ _ _ A) in R3.
      destruct (deployeds_classes blk (iter (contract_updates d)) t3) as [D4 R4].
      { intros c u x Hin%iter_in Ex. rewrite D3. destruct (re_deploy Re c u x Hin Ex) as [_ [Hd|[b Eb]]].
        - rewrite decide_True by exact Hd. destruct (class_definitions t !! x) as [[b|]|]; cbn; eauto.
        - rewrite Eb. destruct (decide _); cbn; eauto. }
      rewrite <- fold_left_app in E. destruct (casms_classes blk _ _ _ E) as [D5 R5].
      split; [intros s; rewrite D5, D4; apply D3 | intros s b; rewrite R5, R4; apply R3]. }
    split; [exact Es | exact En | exact Ec | intros s b v; rewrite Ek, new_casm; reflexivity | apply Cl | apply Cl].
Qed.
End Reading.

Lemma entry_twice {V} (e : V) (c : Felt) (f g : V -> V) (m : gmap Felt V) : entry e c g (entry e c f m) = entry e c (fun x => g (f x)) m.
Proof. unfold entry. rewrite lookup_insert_eq. cbn [default]. apply insert_insert_eq. Qed.

Lemma entry_ext {V} (e : V) (c : Felt) (f g : V -> V) (m : gmap Felt V) : (forall x, f x = g x) -> entry e c f m = entry e c g m.
Proof. intros E. unfold entry. now rewrite E. Qed.

Definition on_systems (f : gmap Felt (gmap Felt Felt) -> gmap Felt (gmap Felt Felt)) (d : StateUpdateData) : StateUpdateData :=
  MkData (contract_updates d) (f (system_contract_updates d)) (declared_cairo_classes d) (declared_sierra_classes d)
    (migrated_compiled_classes d).

Lemma fold_systems {A} (f : A -> gmap Felt (gmap Felt Felt) -> gmap Felt (gmap Felt Felt)) (l : list A) : forall d,
  fold_left (fun d x => on_systems (f x) d) l d = on_systems (fun m => fold_left (fun m x => f x m) l m) d.
Proof. induction l as [|x l IH]; intros d; [now destruct d|]. cbn [fold_left]. rewrite IH. reflexivity. Qed.

(** The slots of one contract. *)
Lemma fold_slots (c : Felt) (kvs : list (Felt * Felt)) : forall d, kvs <> [] -> fold_left (fun d kv => with_storage_update c kv.1 kv.2 d) kvs d =
  on_contracts (entry default_update c (fun u => set_storage (insert_all kvs (storage u)) u)) d.
Proof.
  induction kvs as [|[k v] kvs IH]; intros d N; [easy|]. cbn [fold_left fst snd]. destruct kvs as [|kv kvs]; [reflexivity|].
  rewrite IH by easy. unfold with_storage_update, on_contracts. cbn [contract_updates system_contract_updates declared_cairo_classes
    declared_sierra_classes migrated_compiled_classes]. f_equal. rewrite entry_twice. apply entry_ext. now intros [s x n].
Qed.

Lemma fold_system_slots (c : Felt) (kvs : list (Felt * Felt)) : forall d, kvs <> [] -> fold_left (fun d kv => with_system_storage_update c kv.1 kv.2 d) kvs d =
  on_systems (entry ∅ c (insert_all kvs)) d.
Proof.
  induction kvs as [|[k v] kvs IH]; intros d N; [easy|]. cbn [fold_left fst snd]. destruct kvs as [|kv kvs]; [reflexivity|].
  rewrite IH by easy. unfold with_system_storage_update, on_systems. cbn [contract_updates system_contract_updates declared_cairo_classes
    declared_sierra_classes migrated_compiled_classes]. now rewrite entry_twice.
Qed.

(** The keys of rows that some entries of a map have. *)
Lemma opt_rows_keys {A} (blk : Z) (f : A -> option Felt) (l : list (Felt * A)) : NoDup l.*1 ->
  NoDup (map (fun row => row.1.2) (flat_map (fun x => opt_row blk x.1 (f x.2)) l)).
Proof.
  induction l as [|[c x] l IH]; intros Nd; [constructor|]. cbn in Nd. apply NoDup_cons in Nd as [Hn Nd]. cbn [flat_map fst snd].
  unfold opt_row at 1. destruct (f x) as [v|]; [|now apply IH]. cbn. constructor; [|now apply IH].
  rewrite list_elem_of_In, in_map_iff. intros ([[b c'] y] & E & Hin). cbn in E. subst c'. apply list_elem_of_In, flat_map_in in Hin as ([a z] & Ha & Hr).
  unfold opt_row in Hr. cbn in Hr. destruct (f z); [|inversion Hr]. apply list_elem_of_singleton in Hr. injection Hr as _ -> _.
  apply Hn. apply list_elem_of_fmap. now exists (a, z).
Qed.

(** ** Slots, in groups *)

Definition nonempty (m : gmap Felt Felt) : option (gmap Felt Felt) := if decide (m = ∅) then None else Some m.

Section Groups.
Context {order : HashOrder} {A : Type} (slots : A -> gmap Felt Felt).

(** The entries of a list that have slots. *)
Definition groups (l : list (Felt * A)) : list (Felt * gmap Felt Felt) := omap (fun row => pair row.1 <$> nonempty (slots row.2)) l.

Lemma groups_in (m : gmap Felt A) (c : Felt) (x : gmap Felt Felt) : (c, x) ∈ groups (iter m) <->
  omap (fun u => nonempty (slots u)) m !! c = Some x.
Proof.
  unfold groups. rewrite list_elem_of_omap, lookup_omap. split.
  - intros ([c' u] & Hin%iter_in & E). cbn in E. destruct (nonempty (slots u)) as [y|] eqn:Ey; [|discriminate].
    injection E as -> ->. now rewrite Hin.
  - intros E. destruct (m !! c) as [u|] eqn:Eu; [|discriminate]. cbn in E. exists (c, u). split; [now apply iter_in|].
    cbn. now rewrite E.
Qed.

Lemma groups_keys (l : list (Felt * A)) : NoDup l.*1 -> NoDup (groups l).*1.
Proof.
  induction l as [|[c u] l IH]; intros Nd; [constructor|]. cbn in Nd. apply NoDup_cons in Nd as [Hn Nd]. unfold groups. cbn.
  destruct (nonempty (slots u)); cbn; [|now apply IH]. constructor; [|now apply IH].
  intros ([c' x] & -> & Hin)%list_elem_of_fmap. apply list_elem_of_omap in Hin as ([c0 u0] & H0 & E0). cbn in E0.
  destruct (nonempty (slots u0)); [|discriminate]. injection E0 as -> ->. apply Hn. apply list_elem_of_fmap. now exists (c', u0).
Qed.

Lemma groups_map (m : gmap Felt A) : (list_to_map (groups (iter m)) : gmap Felt (gmap Felt Felt)) = omap (fun u => nonempty (slots u)) m.
Proof. apply list_map_eq; [apply groups_keys, iter_nodup | apply groups_in]. Qed.

(** A loop over all the slots is a loop over the groups. *)
Lemma fold_groups {B : Type} (f : Felt -> list (Felt * Felt) -> B -> B) (l : list (Felt * A)) : (forall c b, f c [] b = b) -> forall b,
  fold_left (fun b row => f row.1 (iter (slots row.2)) b) l b = fold_left (fun b row => f row.1 (iter row.2) b) (groups l) b.
Proof.
  intros Hf. induction l as [|[c u] l IH]; intros b; [reflexivity|]. cbn [fold_left fst snd]. rewrite IH. unfold groups. cbn [omap list_omap fst snd].
  unfold nonempty at 2. destruct (decide (slots u = ∅)) as [E|E]; [|reflexivity].
  rewrite (proj2 (iter_nil (slots u)) E). now rewrite Hf.
Qed.

Lemma groups_nonempty (l : list (Felt * A)) row : row ∈ groups l -> iter row.2 <> [].
Proof.
  intros ([c u] & _ & E)%list_elem_of_omap. cbn in E. unfold nonempty in E. destruct (decide (slots u = ∅)) as [|N]; [discriminate|].
  injection E as <-. cbn. intros Ei. now apply N, iter_nil.
Qed.
End Groups.

Section Read.
Context {order : HashOrder} (t t' : Tables) (blk : Z) (d : StateUpdateData).
Context (Bn : block_new t blk) (Re : readable t d) (In : inserted t t' blk d).

(** *** Nonces *)

Lemma read_nonces d0 c : contract_updates (with_nonce_rows t' blk d0) !! c =
  match nonces d !! c with
  | Some n => Some (set_nonce (Some n) (default default_update (contract_updates d0 !! c)))
  | None => contract_updates d0 !! c
  end /\ with_nonce_rows t' blk d0 = on_contracts (fun _ => contract_updates (with_nonce_rows t' blk d0)) d0.
Proof.
  set (L := map (fun row => (row.1.2, row.2)) (flat_map (nonce_rows blk) (iter (contract_updates d)))).
  assert (E : with_nonce_rows t' blk d0 =
    on_contracts (fun m => fold_left (fun m row => entry default_update row.1 (set_nonce (Some row.2)) m) L m) d0).
  { unfold with_nonce_rows. rewrite (fold_left_ext _ (fun d x => (fun row d => if row.1.1 =? blk then with_contract_nonce row.1.2 row.2 d else d)
      ((fun '(b, _, a, n) => (b, a, n)) x) d)) by now intros ? [[[? ?] ?] ?].
    rewrite (fold_map (fun '(b, _, a, n) => (b, a, n)) (fun row d => if row.1.1 =? blk then with_contract_nonce row.1.2 row.2 d else d)).
    change (map _ (join_nonces t')) with (nonce_log t'). rewrite fold_filtered, (in_nonce _ _ _ _ In), block_rows.
    - unfold with_contract_nonce. rewrite (fold_map (fun row : Z * Felt * Felt => (row.1.2, row.2))
        (fun row d => on_contracts (entry default_update row.1 (set_nonce (Some row.2))) d)). apply fold_contracts.
    - intros b k v Hin. pose proof (bn_nonce _ _ Bn b k v Hin). lia.
    - intros b k v Hin. now apply (new_nonce_rows blk d) in Hin. }
  assert (Em : (list_to_map L : gmap Felt Felt) = nonces d).
  { apply list_map_eq.
    - unfold L. rewrite map_map. exact (opt_rows_keys blk nonce _ (iter_nodup _)).
    - intros k v. unfold L. rewrite list_elem_of_In, in_map_iff. split.
      + intros ([[b k'] v'] & E0 & Hin). injection E0 as <- <-. now apply list_elem_of_In, (new_nonce_rows blk d) in Hin.
      + intros E0. exists (blk, k, v). split; [reflexivity|]. apply list_elem_of_In, (new_nonce_rows blk d). auto. }
  rewrite E. split; [|reflexivity]. cbn [on_contracts contract_updates].
  rewrite (fold_entry default_update (fun n => set_nonce (Some n))).
  - now rewrite Em.
  - unfold L. rewrite map_map. exact (opt_rows_keys blk nonce _ (iter_nodup _)).
Qed.

(** *** Storage *)

Definition slot_row (row : Z * (Felt * Felt) * Felt) (d : StateUpdateData) : StateUpdateData :=
  if is_system_contract row.1.2.1 then with_system_storage_update row.1.2.1 row.1.2.2 row.2 d
  else with_storage_update row.1.2.1 row.1.2.2 row.2 d.

Lemma fold_left_in {A B : Type} (f g : B -> A -> B) (l : list A) : (forall b x, x ∈ l -> f b x = g b x) ->
  forall b, fold_left f l b = fold_left g l b.
Proof.
  induction l as [|x l IH]; intros E b; [reflexivity|]. cbn. rewrite (E b x) by now left. apply IH. intros b' y Hy. apply E. now right.
Qed.

Lemma fold_contract_rows l d0 : (forall c u, (c, u) ∈ l -> is_system_contract c = false) ->
  fold_left (fun d row => slot_row row d) (flat_map (storage_rows blk) l) d0 =
  on_contracts (fun m => fold_left (fun m row => entry default_update row.1
    (fun u => set_storage (insert_all (iter row.2) (storage u)) u) m) (groups storage l) m) d0.
Proof.
  intros Hs. rewrite fold_flat_map, <- fold_contracts.
  rewrite (fold_left_in _ (fun d row => fold_left (fun d kv => with_storage_update row.1 kv.1 kv.2 d) (iter (storage row.2)) d)).
  - rewrite (fold_groups storage (fun c kvs d => fold_left (fun d kv => with_storage_update c kv.1 kv.2 d) kvs d)) by reflexivity.
    apply fold_left_in. intros d' row Hin. apply fold_slots. exact (groups_nonempty storage l row Hin).
  - intros d' [c u] Hin. unfold storage_rows. cbn [fst snd]. rewrite <- (fold_map (fun kv => (blk, (c, kv.1), kv.2)) slot_row).
    apply fold_left_in. intros d'' [k v] _. unfold slot_row. cbn. now rewrite (Hs c u Hin).
Qed.

Lemma fold_system_rows (l : list (Felt * SystemContractUpdate)) d0 : (forall c u, (c, u) ∈ l -> is_system_contract c = true) ->
  fold_left (fun d row => slot_row row d) (flat_map (system_rows blk) l) d0 =
  on_systems (fun m => fold_left (fun m row => entry ∅ row.1 (insert_all (iter row.2)) m) (groups (fun s : gmap Felt Felt => s) l) m) d0.
Proof.
  intros Hs. rewrite fold_flat_map, <- fold_systems.
  rewrite (fold_left_in _ (fun d row => fold_left (fun d kv => with_system_storage_update row.1 kv.1 kv.2 d) (iter row.2) d)).
  - rewrite (fold_groups (fun s : gmap Felt Felt => s) (fun c kvs d => fold_left (fun d kv => with_system_storage_update c kv.1 kv.2 d) kvs d))
      by reflexivity.
    apply fold_left_in. intros d' row Hin. apply fold_system_slots. exact (groups_nonempty (fun s : gmap Felt Felt => s) l row Hin).
  - intros d' [c u] Hin. unfold system_rows. cbn [fst snd]. rewrite <- (fold_map (fun kv => (blk, (c, kv.1), kv.2)) slot_row).
    apply fold_left_in. intros d'' [k v] _. unfold slot_row. cbn. now rewrite (Hs c u Hin).
Qed.

(** No slots yet. *)
Definition storage_free (d0 : StateUpdateData) : Prop :=
  (forall c u, contract_updates d0 !! c = Some u -> storage u = ∅) /\ system_contract_updates d0 = ∅.

Lemma read_storage d0 : storage_free d0 ->
  (forall c, contract_updates (with_storage_rows t' blk d0) !! c =
    match contract_updates d !! c with
    | Some u => if decide (storage u = ∅) then contract_updates d0 !! c
                else Some (set_storage (storage u) (default default_update (contract_updates d0 !! c)))
    | None => contract_updates d0 !! c
    end) /\
  system_contract_updates (with_storage_rows t' blk d0) = system_contract_updates d /\
  declared_cairo_classes (with_storage_rows t' blk d0) = declared_cairo_classes d0 /\
  declared_sierra_classes (with_storage_rows t' blk d0) = declared_sierra_classes d0 /\
  migrated_compiled_classes (with_storage_rows t' blk d0) = migrated_compiled_classes d0.
Proof.
  intros [F1 F2]. destruct (re_separate _ _ Re) as [S1 S2].
  assert (E : with_storage_rows t' blk d0 =
    on_systems (fun m => fold_left (fun m row => entry ∅ row.1 (insert_all (iter row.2)) m)
      (groups (fun s : gmap Felt Felt => s) (iter (system_contract_updates d))) m)
    (on_contracts (fun m => fold_left (fun m row => entry default_update row.1
      (fun u => set_storage (insert_all (iter row.2) (storage u)) u) m) (groups storage (iter (contract_updates d))) m) d0)).
  { unfold with_storage_rows. rewrite (fold_map storage_row_log (fun row d => if row.1.1 =? blk then slot_row row d else d)).
    change (map storage_row_log (join_storage t')) with (storage_log t'). rewrite fold_filtered, (in_storage _ _ _ _ In), block_rows.
    - rewrite fold_left_app, fold_contract_rows, fold_system_rows; [reflexivity|..]; intros c u Hin%iter_in; [apply S2 | apply S1]; eauto.
    - intros b k v Hin. pose proof (bn_storage _ _ Bn b k v Hin). lia.
    - intros b k v [Hin|Hin]%elem_of_app; apply flat_map_in in Hin as (? & _ & Hin); [unfold storage_rows in Hin | unfold system_rows in Hin];
        apply list_elem_of_In, in_map_iff in Hin as (? & [= <- _ _] & _); reflexivity. }
  rewrite E. cbn [on_systems on_contracts contract_updates system_contract_updates declared_cairo_classes declared_sierra_classes
    migrated_compiled_classes]. split; [|split; [|auto]].
  - intros c. rewrite (fold_entry default_update (fun s u => set_storage (insert_all (iter s) (storage u)) u)) by apply groups_keys, iter_nodup.
    rewrite groups_map, lookup_omap. destruct (contract_updates d !! c) as [u|]; [|reflexivity]. cbn. unfold nonempty.
    destruct (decide (storage u = ∅)); [reflexivity|]. f_equal. f_equal. rewrite insert_all_union.
    destruct (contract_updates d0 !! c) as [u0|] eqn:E0; cbn; [rewrite (F1 c u0 E0)|]; apply (right_id_L ∅ (∪)).
  - apply map_eq. intros c. rewrite F2. rewrite (fold_entry ∅ (fun s => insert_all (iter s))) by apply groups_keys, iter_nodup.
    rewrite groups_map, lookup_omap, lookup_empty. destruct (system_contract_updates d !! c) as [s|] eqn:Es; [|reflexivity]. cbn.
    unfold nonempty. rewrite decide_False by exact (re_system _ _ Re c s Es). f_equal. rewrite insert_all_union. apply (right_id_L ∅ (∪)).
Qed.

(** *** Classes of contracts *)

Definition class_update (row : Z * Felt * Felt) : ContractClassUpdate :=
  if existsb (fun y => felt_eqb y.1.2 row.1.2 && (y.1.1 <? blk)) (contract_rows t') then Replace row.2 else Deploy row.2.

Definition class_update_rows : list (Felt * ContractClassUpdate) :=
  map (fun row => (row.1.2, class_update row)) (flat_map (class_rows blk) (iter (contract_updates d))).

Lemma seen_before c : existsb (fun y => felt_eqb y.1.2 c && (y.1.1 <? blk)) (contract_rows t') = true <->
  exists b v, (b, c, v) ∈ contract_rows t.
Proof.
  rewrite existsb_exists, (in_class _ _ _ _ In). split.
  - intros ([[b c'] v] & Hin & E%andb_prop). cbn in E. destruct E as [->%felt_eqb_eq Hb%Z.ltb_lt].
    apply list_elem_of_In, elem_of_app in Hin as [Hin|Hin]; [eauto|]. apply new_class_rows in Hin as [-> _]. lia.
  - intros (b & v & Hin). exists (b, c, v). split; [apply list_elem_of_In, elem_of_app; now left|]. cbn.
    rewrite (proj2 (felt_eqb_eq _ _) eq_refl). apply Z.ltb_lt. exact (bn_class _ _ Bn b c v Hin).
Qed.

Lemma class_update_of c u x : contract_updates d !! c = Some u -> class u = Some x -> class_update (blk, c, class_hash x) = x.
Proof.
  intros Eu Ex. unfold class_update. cbn [fst snd]. destruct (existsb _ _) eqn:E.
  - apply seen_before in E as (b & v & Hin). destruct x as [x|x]; [|reflexivity].
    destruct (proj1 (re_deploy _ _ Re c u x Eu Ex) b v Hin).
  - destruct x as [x|x]; [reflexivity|]. apply not_true_iff_false in E. destruct E. apply seen_before.
    exact (re_replace _ _ Re c u x Eu Ex).
Qed.

Lemma class_update_keys : NoDup class_update_rows.*1.
Proof.
  unfold class_update_rows. change (fmap fst) with (map (@fst Felt ContractClassUpdate)). rewrite map_map.
  exact (opt_rows_keys blk (fun u => option_map class_hash (class u)) _ (iter_nodup _)).
Qed.

Lemma class_update_map : (list_to_map class_update_rows : gmap Felt ContractClassUpdate) = omap class (contract_updates d).
Proof.
  apply list_map_eq; [exact class_update_keys|]. intros c x. unfold class_update_rows.
  rewrite list_elem_of_In, in_map_iff, lookup_omap. split.
  - intros ([[b c'] v] & E & Hin%list_elem_of_In). injection E as -> E. apply flat_map_in in Hin as ([c0 u] & H0%iter_in & Hr).
    apply opt_row_in in Hr as (-> & -> & Hr). cbn [fst snd] in *. rewrite H0. cbn.
    destruct (class u) as [y|] eqn:Ey; [|discriminate]. injection Hr as <-. now rewrite <- E, (class_update_of c0 u y H0 Ey).
  - intros E. destruct (contract_updates d !! c) as [u|] eqn:Eu; [|discriminate]. cbn in E. exists (blk, c, class_hash x).
    split; [cbn [fst snd]; now rewrite (class_update_of c u x Eu E)|]. apply list_elem_of_In, flat_map_in. exists (c, u).
    split; [now apply iter_in|]. apply opt_row_in. cbn. now rewrite E.
Qed.

Lemma read_classes d0 : with_contract_rows t' blk d0 =
  on_contracts (fun m => fold_left (fun m row => entry default_update row.1 (set_class (Some row.2)) m) class_update_rows m) d0.
Proof.
  unfold with_contract_rows. rewrite (fold_left_ext _ (fun d x => (fun row d => if row.1.1 =? blk then
    on_contracts (entry default_update row.1.2 (set_class (Some (class_update row)))) d else d) x d)).
  - rewrite (fold_filtered (fun row => row.1.1 =? blk)), (in_class _ _ _ _ In), block_rows.
    + unfold class_update_rows. rewrite (fold_map (fun row : Z * Felt * Felt => (row.1.2, class_update row))
        (fun row d => on_contracts (entry default_update row.1 (set_class (Some row.2))) d)). apply fold_contracts.
    + intros b k v Hin. pose proof (bn_class _ _ Bn b k v Hin). lia.
    + intros b k v Hin. now apply (new_class_rows blk d) in Hin.
  - intros d' row. unfold class_update, with_replaced_class, with_deployed_contract. destruct (_ =? _); [|reflexivity].
    now destruct (existsb _ _).
Qed.

(** *** Compiled classes *)

Abbreviation compiled := (migrated_compiled_classes d ∪ declared_sierra_classes d).

Lemma written_casm_rows s v : (s, blk, v) ∈ casm_class_hashes t' <-> compiled !! s = Some v.
Proof.
  rewrite (in_casm _ _ _ _ In). split; [|now right]. intros [Hin|[_ E]]; [|exact E].
  pose proof (bn_casm _ _ Bn s blk v Hin). lia.
Qed.

Lemma read_migrated d0 : migrated_compiled_classes d0 = ∅ -> with_migrated_rows t' blk d0 =
  MkData (contract_updates d0) (system_contract_updates d0) (declared_cairo_classes d0) (declared_sierra_classes d0)
    (migrated_compiled_classes d).
Proof.
  intros E0. set (P := fun x : Felt * Z * Felt => (x.1.2 =? blk) && existsb (fun y => felt_eqb y.1.1 x.1.1 && (y.1.2 <? blk)) (casm_class_hashes t')).
  assert (HP : forall s b v, P (s, b, v) = true <-> b = blk /\ exists b' v', (s, b', v') ∈ casm_class_hashes t).
  { intros s b v. unfold P. cbn [fst snd]. rewrite andb_true_iff, Z.eqb_eq, existsb_exists. apply and_iff_compat_l. split.
    - intros ([[s' b'] v'] & Hin%list_elem_of_In & E%andb_prop). cbn in E. destruct E as [->%felt_eqb_eq Hb%Z.ltb_lt].
      apply (in_casm _ _ _ _ In) in Hin as [Hin|[-> _]]; [eauto | lia].
    - intros (b' & v' & Hin). exists (s, b', v'). split; [apply list_elem_of_In, (in_casm _ _ _ _ In); now left|]. cbn.
      rewrite (proj2 (felt_eqb_eq _ _) eq_refl). apply Z.ltb_lt. exact (bn_casm _ _ Bn s b' v' Hin). }
  assert (E : forall l d0, fold_left (fun d x => if P x then with_migrated_compiled_class x.1.1 x.2 d else d) l d0 =
    MkData (contract_updates d0) (system_contract_updates d0) (declared_cairo_classes d0) (declared_sierra_classes d0)
      (fold_left (fun m x => if P x then <[x.1.1 := x.2]> m else m) l (migrated_compiled_classes d0))).
  { clear. induction l as [|x l IH]; intros d0; [now destruct d0|]. cbn [fold_left]. rewrite IH. now destruct (P x). }
  unfold with_migrated_rows. rewrite (E _ d0). f_equal. rewrite E0. apply map_eq. intros s.
  destruct (assign_spec P (fun x => x.1.1) snd (casm_class_hashes t') ∅ s) as [([[s' b] v] & Hin & Hp & Es & ->)|[N ->]].
  - cbn in Es. subst s'. apply HP in Hp as [-> (b' & v' & Hb)]. apply written_casm_rows in Hin. cbn [snd]. symmetry.
    rewrite lookup_union in Hin. destruct (migrated_compiled_classes d !! s) as [m|] eqn:Em.
    + now rewrite union_Some_l in Hin.
    + rewrite (left_id_L None (∪)) in Hin. destruct (re_declared _ _ Re s v Hin) as (_ & _ & Hn). now destruct (Hn b' v').
  - rewrite lookup_empty. symmetry. destruct (migrated_compiled_classes d !! s) as [m|] eqn:Em; [|reflexivity]. exfalso.
    apply (N (s, blk, m)); [|apply HP; split; [reflexivity | apply (re_migrated _ _ Re s m Em)] | reflexivity].
    apply written_casm_rows. rewrite lookup_union, Em. now apply union_Some_l.
Qed.

(** *** Declared classes *)

(** What one row of the join adds. *)
Definition declared_row (row : Felt * option Z) (d0 : StateUpdateData) : StateUpdateData :=
  match List.filter (fun x => felt_eqb x.1.1 row.1 && (x.1.2 =? blk)) (casm_class_hashes t') with
  | [] => with_declared_cairo_class row.1 d0
  | casms => fold_left (fun d x => with_declared_sierra_class row.1 x.2 d) casms d0
  end.

Lemma sierra_rows (s v : Felt) (casms : list (Felt * Z * Felt)) : (forall x, x ∈ casms -> x.2 = v) -> forall d0, casms <> [] ->
  fold_left (fun d x => with_declared_sierra_class s x.2 d) casms d0 = with_declared_sierra_class s v d0.
Proof.
  induction casms as [|x casms IH]; intros Hv d0 N; [easy|]. cbn [fold_left]. rewrite (Hv x) by now left.
  destruct casms as [|y casms]; [reflexivity|]. rewrite IH; [|intros z Hz; apply Hv; now right | easy].
  unfold with_declared_sierra_class. cbn. now rewrite insert_insert_eq.
Qed.

Lemma declared_row_eq row d0 : declared_row row d0 =
  match compiled !! row.1 with Some v => with_declared_sierra_class row.1 v d0 | None => with_declared_cairo_class row.1 d0 end.
Proof.
  unfold declared_row. set (casms := List.filter _ _).
  assert (Hc : forall s b v, (s, b, v) ∈ casms <-> s = row.1 /\ b = blk /\ compiled !! s = Some v).
  { intros s b v. unfold casms. rewrite list_elem_of_In, filter_In, <- list_elem_of_In, andb_true_iff. cbn [fst snd].
    rewrite felt_eqb_eq, Z.eqb_eq, <- written_casm_rows. split; [now intros [Hin [-> ->]] | now intros (-> & -> & Hin)]. }
  destruct (compiled !! row.1) as [v|] eqn:Ev.
  - assert (N : casms <> []). { intros N. assert (Hin : (row.1, blk, v) ∈ casms) by now apply Hc. rewrite N in Hin. inversion Hin. }
    rewrite <- (sierra_rows row.1 v casms) by (try exact N; intros [[s b] x] (-> & -> & E)%Hc; cbn; congruence).
    now destruct casms.
  - destruct casms as [|[[s b] x] casms]; [reflexivity|]. destruct (proj1 (Hc s b x)) as (-> & _ & E); [now left | congruence].
Qed.

(** The classes that a list of declared classes adds. *)
Lemma declared_rows (l : list (Felt * option Z)) : forall d0,
  let d' := fold_left (fun d row => if bool_decide (row.2 = Some blk) then declared_row row d else d) l d0 in
  contract_updates d' = contract_updates d0 /\ system_contract_updates d' = system_contract_updates d0 /\
  migrated_compiled_classes d' = migrated_compiled_classes d0 /\
  (forall s, s ∈ declared_cairo_classes d' <-> s ∈ declared_cairo_classes d0 \/ (s, Some blk) ∈ l /\ compiled !! s = None) /\
  (forall s, declared_sierra_classes d' !! s =
    if decide ((s, Some blk) ∈ l /\ is_Some (compiled !! s)) then compiled !! s else declared_sierra_classes d0 !! s).
Proof.
  induction l as [|[s0 o] l IH]; intros d0 d'; cbn [fold_left] in d'.
  - subst d'. do 3 (split; [reflexivity|]). split; intros s.
    + split; [now left|]. now intros [H|[Hin _]]; [|inversion Hin].
    + rewrite decide_False; [reflexivity | intros [Hin _]; inversion Hin].
  - set (d1 := if bool_decide (_ = _) then _ else d0) in d'. destruct (IH d1) as (E1 & E2 & E3 & E4 & E5). fold d' in E1, E2, E3, E4, E5.
    subst d1. cbn [snd] in *. destruct (bool_decide_reflect (o = Some blk)) as [->|N].
    + clearbody d'. rewrite (declared_row_eq (s0, Some blk) d0) in E1, E2, E3, E4, E5. cbn [fst] in *.
      destruct (compiled !! s0) as [v|] eqn:Ev; cbn [with_declared_sierra_class with_declared_cairo_class contract_updates
        system_contract_updates migrated_compiled_classes declared_cairo_classes declared_sierra_classes] in *;
        split; [exact E1 | split; [exact E2 | split; [exact E3|]] | exact E1 | split; [exact E2 | split; [exact E3|]]]; split; intros s.
      * rewrite E4, elem_of_cons. split; [tauto|]. intros [H|[[[= ->]|H] H']]; [auto | congruence | auto].
      * rewrite E5. destruct (decide (s = s0)) as [->|Ns].
        -- rewrite Ev, lookup_insert_eq. rewrite (decide_True (P := (s0, Some blk) ∈ (s0, Some blk) :: l /\ _)) by (split; [now left | eauto]).
           now destruct (decide _).
        -- rewrite lookup_insert_ne by congruence. apply decide_ext. rewrite elem_of_cons. split; [tauto|]. intros [[[= ->]|H] H']; [easy | auto].
      * rewrite E4, elem_of_cons, elem_of_union, elem_of_singleton. split; [intros [[->|H]|H]; tauto|].
        intros [H|[[[= ->]|H] H']]; auto.
      * rewrite E5. apply decide_ext. rewrite elem_of_cons. split; [tauto|]. intros [[[= ->]|H] [x Hx]]; [congruence | eauto].
    + split; [exact E1|]. split; [exact E2|]. split; [exact E3|]. split; intros s.
      * rewrite E4, elem_of_cons. split; [tauto|]. intros [H|[[[= -> <-]|H] H']]; [auto | easy | auto].
      * rewrite E5. apply decide_ext. rewrite elem_of_cons. split; [tauto|]. intros [[[= -> <-]|H] H']; [easy | auto].
Qed.

Abbreviation declared_list := (map fst (iter (declared_sierra_classes d)) ++ iter_set (declared_cairo_classes d)).

Lemma declared_list_in s : s ∈ declared_list <-> is_Some (declared_sierra_classes d !! s) \/ s ∈ declared_cairo_classes d.
Proof. rewrite elem_of_app, iter_keys, iter_set_perm, elem_of_elements. reflexivity. Qed.

(** The classes that are new, and those that are declared again. *)
Lemma new_defs s : class_definitions t' !! s = Some (Some blk) <->
  s ∈ declared_list /\ forall b, class_definitions t !! s <> Some (Some b).
Proof.
  rewrite (in_defs _ _ _ _ In). split.
  - destruct (decide (s ∈ declared_list)) as [H|H]; intros E.
    + split; [exact H|]. intros b Eb. rewrite Eb in E. cbn in E. injection E as ->. pose proof (bn_defs _ _ Bn s blk Eb). lia.
    + pose proof (bn_defs _ _ Bn s blk E). lia.
  - intros [H Hn]. rewrite decide_True by exact H. unfold declared_def.
    destruct (class_definitions t !! s) as [[b|]|]; [now destruct (Hn b) | reflexivity..].
Qed.

Lemma new_redeclared s : (s, blk) ∈ redeclared_classes t' <-> s ∈ declared_list /\ exists b, class_definitions t !! s = Some (Some b).
Proof.
  rewrite (in_redeclared _ _ _ _ In). split.
  - intros [Hin|(_ & H & b & Eb & _)]; [|eauto]. pose proof (bn_redeclared _ _ Bn s blk Hin). lia.
  - intros [H [b Eb]]. right. split; [reflexivity|]. split; [exact H|]. exists b. split; [exact Eb|].
    pose proof (bn_defs _ _ Bn s b Eb). lia.
Qed.

Lemma redeclared_rows (l : list (Felt * Z)) : forall d0,
  let d' := fold_left (fun d row => if row.2 =? blk then with_declared_cairo_class row.1 d else d) l d0 in
  contract_updates d' = contract_updates d0 /\ system_contract_updates d' = system_contract_updates d0 /\
  migrated_compiled_classes d' = migrated_compiled_classes d0 /\ declared_sierra_classes d' = declared_sierra_classes d0 /\
  (forall s, s ∈ declared_cairo_classes d' <-> s ∈ declared_cairo_classes d0 \/ (s, blk) ∈ l).
Proof.
  induction l as [|[s0 b] l IH]; intros d0 d'; cbn [fold_left fst snd] in d'.
  - subst d'. do 4 (split; [reflexivity|]). intros s. split; [now left|]. now intros [H|Hin]; [|inversion Hin].
  - set (d1 := if _ =? _ then _ else d0) in d'. destruct (IH d1) as (E1 & E2 & E3 & E4 & E5). fold d' in E1, E2, E3, E4, E5.
    subst d1. destruct (Z.eqb_spec b blk) as [->|N].
    + repeat (split; [assumption|]). intros s. rewrite E5. cbn. rewrite elem_of_union, elem_of_singleton, elem_of_cons.
      split; [intros [[->|H]|H]; auto|]. intros [H|[[= ->]|H]]; auto.
    + repeat (split; [assumption|]). intros s. rewrite E5, elem_of_cons. split; [tauto|]. intros [H|[[= -> ->]|H]]; [auto | easy | auto].
Qed.

(** A class of Sierra that is declared is new and compiled; one of Cairo 0 is
    not compiled. *)
Lemma sierra_compiled s v : declared_sierra_classes d !! s = Some v -> compiled !! s = Some v.
Proof.
  intros E. rewrite lookup_union, E. destruct (migrated_compiled_classes d !! s) as [m|] eqn:Em; [|reflexivity].
  destruct (re_migrated _ _ Re s m Em) as (_ & N & _). congruence.
Qed.

Lemma cairo_compiled s : s ∈ declared_cairo_classes d -> compiled !! s = None.
Proof.
  intros H. apply lookup_union_None. split.
  - destruct (migrated_compiled_classes d !! s) as [m|] eqn:Em; [|reflexivity]. now destruct (re_migrated _ _ Re s m Em) as (_ & _ & N & _).
  - destruct (declared_sierra_classes d !! s) as [v|] eqn:Ev; [|reflexivity]. now destruct (re_declared _ _ Re s v Ev) as (_ & N & _).
Qed.

Lemma read_declared d0 : declared_cairo_classes d0 = ∅ -> declared_sierra_classes d0 = ∅ ->
  with_redeclared_rows t' blk (with_declared_rows t' blk d0) =
  MkData (contract_updates d0) (system_contract_updates d0) (declared_cairo_classes d) (declared_sierra_classes d)
    (migrated_compiled_classes d0).
Proof.
  intros F1 F2. destruct (declared_rows (map_to_list (class_definitions t')) d0) as (E1 & E2 & E3 & E4 & E5).
  change (fold_left _ (map_to_list (class_definitions t')) d0) with (with_declared_rows t' blk d0) in *.
  destruct (redeclared_rows (redeclared_classes t') (with_declared_rows t' blk d0)) as (R1 & R2 & R3 & R4 & R5).
  change (fold_left _ (redeclared_classes t') _) with (with_redeclared_rows t' blk (with_declared_rows t' blk d0)) in *.
  destruct (with_redeclared_rows t' blk (with_declared_rows t' blk d0)) as [m1 m2 m3 m4 m5]. cbn in *. subst m1 m2 m4 m5. f_equal; try assumption.
  - apply set_eq. intros s. rewrite R5, E4, F1, elem_of_map_to_list, new_defs, new_redeclared, declared_list_in. split.
    + intros [[H|[[[[v Ev]|H] _] Ec]]|[[[v Ev]|H] [b Eb]]]; [now apply elem_of_empty in H | | exact H | | exact H].
      * rewrite (sierra_compiled s v Ev) in Ec. discriminate.
      * now destruct (proj1 (re_declared _ _ Re s v Ev) b).
    + intros H. destruct (class_definitions t !! s) as [[b|]|] eqn:Es; [right; eauto | left; right..]; (split; [|now apply cairo_compiled]);
        (split; [now right | discriminate]).
  - apply map_eq. intros s. rewrite E5, F2, lookup_empty. destruct (declared_sierra_classes d !! s) as [v|] eqn:Ev.
    + rewrite decide_True; [exact (sierra_compiled s v Ev)|]. split; [|rewrite (sierra_compiled s v Ev); eauto].
      apply elem_of_map_to_list, new_defs. rewrite declared_list_in. split; [left; eauto | apply (re_declared _ _ Re s v Ev)].
    + rewrite decide_False; [reflexivity|]. intros [Hin%elem_of_map_to_list%new_defs [x Hx]]. destruct Hin as [[[v Hv]|H]%declared_list_in _]; [congruence|].
      now rewrite (cairo_compiled s H) in Hx.
Qed.

(** ** The update of a block is what was inserted *)
Lemma read_back : state_update_data t' blk = d.
Proof.
  unfold state_update_data. set (d1 := with_nonce_rows t' blk default_data).
  assert (N : forall c, contract_updates d1 !! c = (fun n => set_nonce (Some n) default_update) <$> nonces d !! c).
  { intros c. unfold d1. rewrite (proj1 (read_nonces default_data c)). now destruct (nonces d !! c). }
  assert (Nd : d1 = on_contracts (fun _ => contract_updates d1) default_data) by apply (read_nonces default_data FELT_ZERO).
  destruct (read_storage d1) as (S1 & S2 & S3 & S4 & S5).
  { split; [|now rewrite Nd]. intros c u. rewrite N. destruct (nonces d !! c); [|discriminate]. intros [= <-]. reflexivity. }
  assert (D3 : declared_cairo_classes d1 = ∅) by now rewrite Nd.
  assert (D4 : declared_sierra_classes d1 = ∅) by now rewrite Nd.
  assert (D5 : migrated_compiled_classes d1 = ∅) by now rewrite Nd.
  rewrite D3 in S3. rewrite D4 in S4. rewrite D5 in S5. rewrite (read_declared _ S3 S4), read_migrated by exact S5.
  rewrite read_classes. unfold on_contracts. cbn [contract_updates system_contract_updates declared_cairo_classes declared_sierra_classes
    migrated_compiled_classes]. rewrite S2.
  assert (Eta : forall x, MkData (contract_updates x) (system_contract_updates x) (declared_cairo_classes x) (declared_sierra_classes x)
    (migrated_compiled_classes x) = x) by now intros [].
  transitivity (MkData (contract_updates d) (system_contract_updates d) (declared_cairo_classes d) (declared_sierra_classes d)
    (migrated_compiled_classes d)); [|apply Eta]. f_equal. apply map_eq. intros c.
  rewrite (fold_entry default_update (fun x => set_class (Some x))) by exact class_update_keys.
  rewrite class_update_map, lookup_omap, S1, N. unfold nonces. rewrite lookup_omap.
  destruct (contract_updates d !! c) as [[s x n]|] eqn:Eu; [|reflexivity]. cbn.
  destruct x as [x|], n as [n|], (decide (s = ∅)) as [->|Es]; try reflexivity. exfalso.
  destruct (re_changes _ _ Re c _ Eu) as [[? ?]|[[? ?]|?]]; easy.
Qed.
End Read.
