(* ===== verification/Bloom.v ===== *)
(** Bloom filters over the events of a block and their aggregate over a range of
    blocks (storage/src/bloom.rs, and the checks in
    storage/src/connection/event.rs).

    The two base hashes (SipHash with fixed keys) are a parameter, and so are the
    two sizes, which a build feature changes. *)

From Stdlib Require Import ZArith Lia Bool List.
From stdpp Require Import list.
From S2P Require Import Prelude Bytes Felt.
Local Open Scope Z_scope.

(** ** Code *)

(** The number of hash functions. *)
Definition K_NUM : nat := 12.

(** We are using the upper 4 bits of a felt for the index of a key. *)
Definition EVENT_KEY_FILTER_LIMIT : nat := 16.

(** The largest prime below [2 ^ 64]. *)
Definition LARGEST_PRIME : Z := 0xFFFFFFFFFFFFFFC5.

(** [BLOCK_RANGE_BYTES] and [BITVEC_BYTES] *)
Record BloomSizes : Type := MkSizes { BLOCK_RANGE_BYTES : nat; BITVEC_BYTES : nat }.

Definition production_sizes : BloomSizes := MkSizes 1024 2048.
Definition small_sizes : BloomSizes := MkSizes 3 2048.

(** A [BitVec] of [BITVEC_BITS] bits, and an array of [BLOCK_RANGE_BYTES] bytes. *)
Abbreviation BloomFilter := (list bool).
Abbreviation BlockRange := (list Z).

Section Code.
Context (sizes : BloomSizes) (SIPS : nat -> Felt -> Z).

Definition AGGREGATE_BLOOM_BLOCK_RANGE_LEN : nat := 8 * BLOCK_RANGE_BYTES sizes.
Definition BITVEC_BITS : nat := 8 * BITVEC_BYTES sizes.

(** *** The filter of a block *)

Definition bloom_new : BloomFilter := repeat false BITVEC_BITS.

(** The hash and the array [hashes] after the call. *)
Definition bloom_hash (hashes : Z * Z) (item : Felt) (k_i : nat) : Z * (Z * Z) :=
  match k_i with
  | O => let hash := SIPS 0 item in (hash, (hash, hashes.2))
  | S O => let hash := SIPS 1 item in (hash, (hashes.1, hash))
  | _ => (as_u64 (hashes.1 + wrapping_mul (Z.of_nat k_i) hashes.2) mod LARGEST_PRIME, hashes)
  end.

Definition bit_offset (hash : Z) : nat := Z.to_nat (hash mod Z.of_nat BITVEC_BITS).

(** [BitVec::set] panics out of range. *)
Definition bit_set (bit_vec : BloomFilter) (i : nat) : outcome BloomFilter :=
  if (i <? length bit_vec)%nat then Ret (<[i := true]> bit_vec) else Panic.

Fixpoint set_loop (n k_i : nat) (hashes : Z * Z) (item : Felt) (bit_vec : BloomFilter) : outcome BloomFilter :=
  match n with
  | O => Ret bit_vec
  | S n =>
      let '(hash, hashes) := bloom_hash hashes item k_i in
      let! bit_vec := bit_set bit_vec (bit_offset hash) in
      set_loop n (S k_i) hashes item bit_vec
  end.

Definition bloom_set (item : Felt) (self : BloomFilter) : outcome BloomFilter := set_loop K_NUM 0 (0, 0) item self.

Fixpoint indices_loop (n k_i : nat) (hashes : Z * Z) (key : Felt) : list nat :=
  match n with
  | O => []
  | S n =>
      let '(hash, hashes) := bloom_hash hashes key k_i in
      bit_offset hash :: indices_loop n (S k_i) hashes key
  end.

Definition indices_for_key (key : Felt) : list nat := indices_loop K_NUM 0 (0, 0) key.

Definition into_bytes (self : BloomFilter) : list Z := bytes_of_bits (BITVEC_BYTES sizes) self.

(** [key.as_mut_be_bytes()[0] |= (i as u8) << 4] *)
Definition key_with_idx (i : nat) (key : Felt) : Felt :=
  match key with
  | [] => []
  | b :: key => Z.lor b (Z.shiftl (Z.of_nat i mod 256) 4 mod 256) :: key
  end.

Fixpoint set_keys_loop (i : nat) (keys : list Felt) (self : BloomFilter) : outcome BloomFilter :=
  match keys with
  | [] => Ret self
  | key :: keys =>
      let! self := bloom_set (key_with_idx i key) self in
      set_keys_loop (S i) keys self
  end.

Definition set_keys (keys : list Felt) (self : BloomFilter) : outcome BloomFilter :=
  set_keys_loop 0 (take EVENT_KEY_FILTER_LIMIT keys) self.

Definition set_address (address : Felt) (self : BloomFilter) : outcome BloomFilter := bloom_set address self.

(** *** Ranges of blocks *)

Definition EMPTY : BlockRange := repeat 0 (BLOCK_RANGE_BYTES sizes).
Definition FULL : BlockRange := repeat 255 (BLOCK_RANGE_BYTES sizes).

Definition copy_from_slice (s : list Z) : outcome BlockRange :=
  if (length s =? BLOCK_RANGE_BYTES sizes)%nat then Ret s else Panic.

Definition range_and (a b : BlockRange) : BlockRange := zip_with Z.land a b.
Definition range_or (a b : BlockRange) : BlockRange := zip_with Z.lor a b.

Definition range_eqb (a b : BlockRange) : bool := bool_decide (a = b).

(** The offsets of the bits of a byte, the most significant first. *)
Definition byte_ones (val : bool) (byte_idx : nat) (byte : Z) : list nat :=
  omap (fun bit_idx =>
    if Z.land (Z.shiftr byte (7 - Z.of_nat bit_idx)) 1 =? Z.b2z val then Some (byte_idx * 8 + bit_idx)%nat else None)
    (seq 0 8).

Fixpoint iter_val (val : bool) (byte_idx : nat) (self : BlockRange) : list nat :=
  match self with
  | [] => []
  | byte :: self => byte_ones val byte_idx byte ++ iter_val val (S byte_idx) self
  end.

Definition iter_ones (self : BlockRange) : list nat := iter_val true 0 self.

(** *** The aggregate *)

Record AggregateBloom : Type := MkAggregate {
  bitmap : list Z;
  from_block : Z;
  to_block : Z
}.

Definition from_parts (from_block to_block : Z) (bitmap : list Z) : outcome AggregateBloom :=
  if (from_block + Z.of_nat AGGREGATE_BLOOM_BLOCK_RANGE_LEN - 1 =? to_block)
     && (length bitmap =? BLOCK_RANGE_BYTES sizes * BITVEC_BITS)%nat
  then Ret (MkAggregate bitmap from_block to_block) else Panic.

Definition aggregate_new (from_block : Z) : outcome AggregateBloom :=
  from_parts from_block (from_block + Z.of_nat AGGREGATE_BLOOM_BLOCK_RANGE_LEN - 1)
    (repeat 0 (BLOCK_RANGE_BYTES sizes * BITVEC_BITS)).

(** [self.bitmap[i] |= b] *)
Definition or_byte (i : nat) (b : Z) (bitmap : list Z) : outcome (list Z) :=
  match bitmap !! i with
  | Some old => Ret (<[i := Z.lor old b]> bitmap)
  | None => Panic
  end.

(** One byte of the filter: each of its bits belongs to a row. *)
Fixpoint insert_byte (offsets : list nat) (i byte_idx bit_idx : nat) (bloom_byte : Z) (bitmap : list Z)
    : outcome (list Z) :=
  match offsets with
  | [] => Ret bitmap
  | offset :: offsets =>
      let bitmap_idx := ((8 * i + offset) * BLOCK_RANGE_BYTES sizes + byte_idx)%nat in
      let bit := Z.land (Z.shiftr bloom_byte (7 - Z.of_nat offset)) 1 in
      let! bitmap := or_byte bitmap_idx (Z.shiftl bit (7 - Z.of_nat bit_idx)) bitmap in
      insert_byte offsets i byte_idx bit_idx bloom_byte bitmap
  end.

Fixpoint insert_bytes (i byte_idx bit_idx : nat) (bloom_bytes : list Z) (bitmap : list Z) : outcome (list Z) :=
  match bloom_bytes with
  | [] => Ret bitmap
  | b :: bloom_bytes =>
      let! bitmap := if b =? 0 then Ret bitmap else insert_byte (seq 0 8) i byte_idx bit_idx b bitmap in
      insert_bytes (S i) byte_idx bit_idx bloom_bytes bitmap
  end.

Definition aggregate_insert (bloom : BloomFilter) (block_number : Z) (self : AggregateBloom) : outcome AggregateBloom :=
  if (from_block self <=? block_number) && (block_number <=? to_block self) then
    let relative_block_number := Z.to_nat (block_number - from_block self) in
    let byte_idx := (relative_block_number / 8)%nat in
    let bit_idx := (relative_block_number mod 8)%nat in
    let! bitmap := insert_bytes 0 byte_idx bit_idx (into_bytes bloom) (bitmap self) in
    Ret (MkAggregate bitmap (from_block self) (to_block self))
  else Panic.

(** [&self.bitmap[row_start..row_end]] *)
Definition row (self : AggregateBloom) (row_idx : nat) : outcome BlockRange :=
  let row_start := (row_idx * BLOCK_RANGE_BYTES sizes)%nat in
  if (row_start + BLOCK_RANGE_BYTES sizes <=? length (bitmap self))%nat
  then copy_from_slice (slice row_start (BLOCK_RANGE_BYTES sizes) (bitmap self)) else Panic.

Fixpoint matches_for_rows (rows : list nat) (matches_for_key : BlockRange) (self : AggregateBloom) : outcome BlockRange :=
  match rows with
  | [] => Ret matches_for_key
  | row_idx :: rows =>
      let! block_range := row self row_idx in
      matches_for_rows rows (range_and matches_for_key block_range) self
  end.

Fixpoint matches_for_keys (keys : list Felt) (block_matches : BlockRange) (self : AggregateBloom) : outcome BlockRange :=
  match keys with
  | [] => Ret block_matches
  | k :: keys =>
      let! matches_for_key := matches_for_rows (indices_for_key k) FULL self in
      matches_for_keys keys (range_or block_matches matches_for_key) self
  end.

Definition blocks_for_keys (keys : list Felt) (self : AggregateBloom) : outcome BlockRange :=
  match keys with
  | [] => Ret FULL
  | _ => matches_for_keys keys EMPTY self
  end.

Definition check_addresses (addresses : list Felt) (self : AggregateBloom) : outcome BlockRange :=
  match addresses with
  | [] => Ret FULL
  | _ => blocks_for_keys addresses self
  end.

Fixpoint check_groups (idx : nat) (keys : list (list Felt)) (result : BlockRange) (self : AggregateBloom)
    : outcome BlockRange :=
  match keys with
  | [] => Ret result
  | key_group :: keys =>
      let! blocks_for_key := blocks_for_keys (map (key_with_idx idx) key_group) self in
      if range_eqb blocks_for_key EMPTY then Ret EMPTY
      else check_groups (S idx) keys (range_and result blocks_for_key) self
  end.

Definition check_keys (keys : list (list Felt)) (self : AggregateBloom) : outcome BlockRange :=
  if match keys with [] => true | _ => existsb (fun group => match group with [] => true | _ => false end) keys end
  then Ret FULL else check_groups 0 keys FULL self.

Definition check (contract_addresses : list Felt) (keys : list (list Felt)) (self : AggregateBloom) : outcome (list Z) :=
  let! addr_blocks := check_addresses contract_addresses self in
  let! keys_blocks := check_keys keys self in
  Ret (map (fun offset => from_block self + Z.of_nat offset) (iter_ones (range_and addr_blocks keys_blocks))).
End Code.

(** * Facts on the bloom filters: the aggregate holds the filter of every block
    that was inserted, so that a check misses no block. *)

(** ** Bits *)

(** The i-th bit of an array of bytes, the most significant of a byte first. *)
Definition bit (bytes : list Z) (i : nat) : bool := Z.testbit (nth (i / 8) bytes 0) (7 - Z.of_nat (i mod 8)).

Lemma mod_8 i : (i mod 8 < 8)%nat.
Proof. apply Nat.mod_upper_bound. lia. Qed.

Lemma bit_index k j : (j < 8)%nat -> ((8 * k + j) / 8 = k)%nat /\ ((8 * k + j) mod 8 = j)%nat.
Proof.
  intros Hj. pose proof (Nat.div_mod_eq (8 * k + j) 8). pose proof (mod_8 (8 * k + j)). lia.
Qed.

Lemma split_8 i : (i = 8 * (i / 8) + i mod 8)%nat.
Proof. apply Nat.div_mod_eq. Qed.

(** The bit [v] shifted to position [7 - j]. *)
Lemma testbit_single v i j : (v = 0 \/ v = 1) -> (i < 8)%nat -> (j < 8)%nat ->
  Z.testbit (Z.shiftl v (7 - Z.of_nat j)) (7 - Z.of_nat i) = (i =? j)%nat && (v =? 1).
Proof.
  intros Hv Hi Hj. rewrite Z.shiftl_spec by lia. destruct (Nat.eqb_spec i j) as [->|N].
  - replace (7 - Z.of_nat j - (7 - Z.of_nat j)) with 0 by lia. now destruct Hv as [-> | ->].
  - cbn [andb]. destruct (Z.lt_ge_cases (7 - Z.of_nat i - (7 - Z.of_nat j)) 0); [now apply Z.testbit_neg_r|].
    destruct Hv as [-> | ->]; [apply Z.testbit_0_l|]. apply (Z.bits_above_log2 1); cbn; lia.
Qed.


Lemma single_bit b i : 0 <= i -> Z.land (Z.shiftr b i) 1 = Z.b2z (Z.testbit b i).
Proof.
  intros Hi. rewrite Z.testbit_spec' by lia. rewrite Z.shiftr_div_pow2 by lia. now rewrite (Z.land_ones _ 1) by lia.
Qed.

Lemma or_byte_bit bitmap k j v : (k < length bitmap)%nat -> (j < 8)%nat -> (v = 0 \/ v = 1) ->
  exists bitmap', or_byte k (Z.shiftl v (7 - Z.of_nat j)) bitmap = Ret bitmap' /\ length bitmap' = length bitmap /\
    forall i, bit bitmap' i = bit bitmap i || ((i =? 8 * k + j)%nat && (v =? 1)).
Proof.
  intros Hk Hj Hv. unfold or_byte. destruct (lookup_lt_is_Some_2 bitmap k Hk) as [old E]. rewrite E.
  eexists. split; [reflexivity|]. split; [apply length_insert|]. intros i. unfold bit.
  rewrite !nth_lookup. destruct (decide (i / 8 = k)%nat) as [Ek|Nk].
  - rewrite Ek, list_lookup_insert_eq, E by assumption. cbn [default from_option]. unfold id.
    rewrite Z.lor_spec, testbit_single by (assumption || apply mod_8). f_equal. f_equal.
    pose proof (split_8 i). destruct (Nat.eqb_spec (i mod 8) j), (Nat.eqb_spec i (8 * k + j)); (reflexivity || lia).
  - rewrite list_lookup_insert_ne by congruence. destruct (Nat.eqb_spec i (8 * k + j)) as [->|]; [|now rewrite orb_false_r].
    exfalso. apply Nk. now apply bit_index.
Qed.

(** The bits of a value of eight bits. *)
Lemma bits_value_testbit l : forall i, (i < length l)%nat ->
  Z.testbit (bits_value l) (Z.of_nat (length l) - 1 - Z.of_nat i) = nth i l false.
Proof.
  induction l as [|b l IH]; intros i Hi; [cbn in Hi; lia|].
  change (b :: l) with ([b] ++ l). rewrite bits_value_app.
  replace (bits_value [b] * 2 ^ Z.of_nat (length l) + bits_value l)
    with (Z.lor (bits_value l) (Z.shiftl (bits_value [b]) (Z.of_nat (length l)))).
  2:{ rewrite lor_shiftl_add by (lia || apply bits_value_bound). lia. }
  rewrite Z.lor_spec, Z.shiftl_spec by (cbn [length app] in *; lia). destruct i as [|i]; cbn [app length nth] in *.
  - replace (Z.of_nat (S (length l)) - 1 - Z.of_nat 0) with (Z.of_nat (length l)) by lia. rewrite Z.sub_diag.
    assert (E : Z.testbit (bits_value l) (Z.of_nat (length l)) = false).
    { pose proof (bits_value_bound l) as B. rewrite <- (Z.mod_small _ _ B). apply Z.mod_pow2_bits_high. lia. }
    rewrite E. now destruct b.
  - replace (Z.of_nat (S (length l)) - 1 - Z.of_nat (S i)) with (Z.of_nat (length l) - 1 - Z.of_nat i) by lia.
    rewrite IH by lia. rewrite (Z.testbit_neg_r (bits_value [b])) by lia. apply orb_false_r.
Qed.

Lemma bytes_of_bits_bit n : forall l i, length l = (8 * n)%nat -> (i < 8 * n)%nat ->
  bit (bytes_of_bits n l) i = nth i l false.
Proof.
  induction n as [|n IH]; intros l i Hl Hi; [lia|]. cbn [bytes_of_bits].
  destruct (Nat.lt_ge_cases i 8) as [L|L].
  - unfold bit. rewrite Nat.div_small, Nat.mod_small by lia. cbn [nth].
    assert (E : length (firstn 8 l) = 8%nat) by (rewrite length_firstn; lia).
    pose proof (bits_value_testbit (firstn 8 l) i ltac:(lia)) as B. rewrite E in B.
    replace (7 - Z.of_nat i) with (Z.of_nat 8 - 1 - Z.of_nat i) by lia. rewrite B.
    transitivity (nth i (firstn 8 l ++ skipn 8 l) false); [now rewrite app_nth1 by lia | now rewrite firstn_skipn].
  - pose proof (IH (skipn 8 l) (i - 8)%nat) as B. rewrite length_skipn in B. specialize (B ltac:(lia) ltac:(lia)).
    transitivity (nth i (firstn 8 l ++ skipn 8 l) false); [|now rewrite firstn_skipn].
    assert (E : length (firstn 8 l) = 8%nat) by (rewrite length_firstn; lia).
    rewrite app_nth2, E, <- B by lia. unfold bit.
    pose proof (split_8 (i - 8)) as E8. destruct (bit_index (S ((i - 8) / 8)) ((i - 8) mod 8) (mod_8 _)) as [Ed Em].
    replace (8 * S ((i - 8) / 8) + (i - 8) mod 8)%nat with i in Ed, Em by lia. rewrite Ed, Em. reflexivity.
Qed.

Section Facts.
Context (sizes : BloomSizes) (SIPS : nat -> Felt -> Z).
Context (range_pos : (0 < BLOCK_RANGE_BYTES sizes)%nat) (bits_pos : (0 < BITVEC_BYTES sizes)%nat).

Abbreviation RB := (BLOCK_RANGE_BYTES sizes).
Abbreviation LEN := (AGGREGATE_BLOOM_BLOCK_RANGE_LEN sizes).
Abbreviation BITS := (BITVEC_BITS sizes).

(** ** The filter of a block *)

Definition has (bf : BloomFilter) (i : nat) : Prop := nth i bf false = true.

(** All bits of an item are set. *)
Definition holds (bf : BloomFilter) (item : Felt) : Prop := Forall (has bf) (indices_for_key sizes SIPS item).

Definition bloom_le (bf bf' : BloomFilter) : Prop := length bf' = length bf /\ forall i, has bf i -> has bf' i.

Lemma bloom_le_refl bf : bloom_le bf bf.
Proof. now split. Qed.

Lemma bloom_le_trans a b c : bloom_le a b -> bloom_le b c -> bloom_le a c.
Proof. intros [L1 H1] [L2 H2]. split; [congruence | auto]. Qed.

Lemma holds_le bf bf' item : bloom_le bf bf' -> holds bf item -> holds bf' item.
Proof. intros [_ Hle] Hh. eapply Forall_impl; [exact Hh | exact Hle]. Qed.

Lemma bit_offset_lt hash : (bit_offset sizes hash < BITS)%nat.
Proof.
  unfold bit_offset, BITVEC_BITS. pose proof (Z.mod_pos_bound hash (Z.of_nat (8 * BITVEC_BYTES sizes)) ltac:(lia)). lia.
Qed.

Lemma bit_set_le bf i : (i < length bf)%nat ->
  exists bf', bit_set bf i = Ret bf' /\ bloom_le bf bf' /\ has bf' i.
Proof.
  intros Hi. unfold bit_set. rewrite (proj2 (Nat.ltb_lt _ _) Hi). eexists. split; [reflexivity|].
  unfold bloom_le, has. split; [split; [apply length_insert|]|].
  - intros j. rewrite !nth_lookup. destruct (decide (i = j)) as [->|N]; [now rewrite list_lookup_insert_eq|].
    now rewrite list_lookup_insert_ne.
  - now rewrite nth_lookup, list_lookup_insert_eq.
Qed.

Lemma set_loop_spec n : forall k_i hashes item bf, length bf = BITS ->
  exists bf', set_loop sizes SIPS n k_i hashes item bf = Ret bf' /\ bloom_le bf bf' /\
    Forall (has bf') (indices_loop sizes SIPS n k_i hashes item).
Proof.
  induction n as [|n IH]; intros k_i hashes item bf L; cbn [set_loop indices_loop].
  - exists bf. split; [reflexivity|]. split; [apply bloom_le_refl | constructor].
  - destruct (bloom_hash SIPS hashes item k_i) as [hash hashes'].
    destruct (bit_set_le bf (bit_offset sizes hash)) as (b1 & -> & L1 & H1); [rewrite L; apply bit_offset_lt|].
    cbn [bind_outcome]. destruct (IH (S k_i) hashes' item b1) as (b2 & -> & L2 & H2); [rewrite (proj1 L1); exact L|].
    exists b2. split; [reflexivity|]. split; [exact (bloom_le_trans _ _ _ L1 L2)|]. constructor; [now apply L2 | exact H2].
Qed.

Lemma bloom_set_spec item bf : length bf = BITS ->
  exists bf', bloom_set sizes SIPS item bf = Ret bf' /\ bloom_le bf bf' /\ holds bf' item.
Proof. intros L. exact (set_loop_spec K_NUM 0 (0, 0) item bf L). Qed.

Lemma set_keys_loop_spec keys : forall i bf, length bf = BITS ->
  exists bf', set_keys_loop sizes SIPS i keys bf = Ret bf' /\ bloom_le bf bf' /\
    forall j key, keys !! j = Some key -> holds bf' (key_with_idx (i + j) key).
Proof.
  induction keys as [|key keys IH]; intros i bf L; cbn [set_keys_loop].
  - exists bf. split; [reflexivity|]. split; [apply bloom_le_refl|]. intros j key E. now rewrite lookup_nil in E.
  - destruct (bloom_set_spec (key_with_idx i key) bf L) as (b1 & -> & L1 & H1). cbn [bind_outcome].
    destruct (IH (S i) b1) as (b2 & -> & L2 & H2); [rewrite (proj1 L1); exact L|].
    exists b2. split; [reflexivity|]. split; [exact (bloom_le_trans _ _ _ L1 L2)|].
    intros [|j] key' E; cbn in E.
    + injection E as <-. rewrite Nat.add_0_r. exact (holds_le _ _ _ L2 H1).
    + rewrite <- Nat.add_succ_comm. now apply H2.
Qed.

Lemma set_keys_spec keys bf : length bf = BITS ->
  exists bf', set_keys sizes SIPS keys bf = Ret bf' /\ bloom_le bf bf' /\
    forall j key, (j < EVENT_KEY_FILTER_LIMIT)%nat -> keys !! j = Some key -> holds bf' (key_with_idx j key).
Proof.
  intros L. destruct (set_keys_loop_spec (take EVENT_KEY_FILTER_LIMIT keys) 0 bf L) as (bf' & E & Le & Hk).
  exists bf'. split; [exact E|]. split; [exact Le|]. intros j key Hj Ej. apply (Hk j key). now rewrite lookup_take_lt.
Qed.

(** ** Insertion *)

(** The position of a row and a column in the bitmap. *)
Definition cell (r c : nat) : nat := LEN * r + c.

Lemma cell_inj r c r' c' : (c < LEN)%nat -> (c' < LEN)%nat -> cell r c = cell r' c' -> r = r' /\ c = c'.
Proof.
  unfold cell. intros Hc Hc' E. assert (r = r') as <-; [|lia].
  destruct (Nat.lt_trichotomy r r') as [L|[E'|L]]; [exfalso; nia | exact E' | exfalso; nia].
Qed.

Lemma cell_eqb r c r' c' : (c < LEN)%nat -> (c' < LEN)%nat ->
  (cell r c =? cell r' c')%nat = (r =? r')%nat && (c =? c')%nat.
Proof.
  intros Hc Hc'. destruct (Nat.eqb_spec (cell r c) (cell r' c')) as [E|N].
  - apply cell_inj in E as [-> ->]; [|assumption..]. now rewrite !Nat.eqb_refl.
  - destruct (Nat.eqb_spec r r') as [->|], (Nat.eqb_spec c c') as [->|]; (reflexivity || now destruct N).
Qed.

Definition bitmap_ok (bm : list Z) : Prop := length bm = (RB * BITS)%nat.

Lemma insert_byte_spec byte_idx bit_idx i b : (byte_idx < RB)%nat -> (bit_idx < 8)%nat -> (i < BITVEC_BYTES sizes)%nat ->
  forall offsets, Forall (fun o => (o < 8)%nat) offsets -> forall bm, bitmap_ok bm ->
  exists bm', insert_byte sizes offsets i byte_idx bit_idx b bm = Ret bm' /\ bitmap_ok bm' /\
    forall r c, (c < LEN)%nat -> bit bm' (cell r c) = bit bm (cell r c) ||
      ((c =? 8 * byte_idx + bit_idx)%nat &&
       existsb (fun o => (r =? 8 * i + o)%nat && Z.testbit b (7 - Z.of_nat o)) offsets).
Proof.
  intros Hb Hj Hi. induction 1 as [|o offsets Ho _ IH]; intros bm Hm; cbn [insert_byte existsb].
  - exists bm. split; [reflexivity|]. split; [exact Hm|]. intros r c _. now rewrite andb_false_r, orb_false_r.
  - rewrite single_bit by lia.
    destruct (or_byte_bit bm ((8 * i + o) * RB + byte_idx) bit_idx (Z.b2z (Z.testbit b (7 - Z.of_nat o))))
      as (bm1 & -> & L1 & B1); [| exact Hj | destruct (Z.testbit b _); auto|].
    { unfold bitmap_ok, BITVEC_BITS in *. rewrite Hm. nia. }
    cbn [bind_outcome]. destruct (IH bm1) as (bm2 & -> & L2 & B2); [unfold bitmap_ok in *; congruence|].
    exists bm2. split; [reflexivity|]. split; [exact L2|]. intros r c Hc. rewrite B2, B1 by exact Hc.
    replace (8 * ((8 * i + o) * RB + byte_idx) + bit_idx)%nat with (cell (8 * i + o) (8 * byte_idx + bit_idx))
      by (unfold cell, AGGREGATE_BLOOM_BLOCK_RANGE_LEN; nia).
    rewrite cell_eqb by (assumption || (unfold AGGREGATE_BLOOM_BLOCK_RANGE_LEN; lia)).
    replace (Z.b2z (Z.testbit b (7 - Z.of_nat o)) =? 1) with (Z.testbit b (7 - Z.of_nat o)) by now destruct (Z.testbit b _).
    destruct (r =? 8 * i + o)%nat, (c =? _)%nat, (Z.testbit b _), (existsb _ offsets), (bit bm _); reflexivity.
Qed.

Lemma byte_offsets i b r : existsb (fun o => (r =? 8 * i + o)%nat && Z.testbit b (7 - Z.of_nat o)) (seq 0 8)
  = (r / 8 =? i)%nat && Z.testbit b (7 - Z.of_nat (r mod 8)).
Proof.
  pose proof (split_8 r) as E. pose proof (mod_8 r) as B. apply eq_true_iff_eq. rewrite existsb_exists, andb_true_iff.
  rewrite Nat.eqb_eq. split.
  - intros (o & Ho & Hb). apply in_seq in Ho. apply andb_true_iff in Hb as [Hr Hb]. apply Nat.eqb_eq in Hr.
    destruct (bit_index i o ltac:(lia)) as [Ed Em]. rewrite <- Hr in Ed, Em. split; [exact Ed|]. now rewrite Em.
  - intros [Hd Hb]. exists (r mod 8)%nat. split; [apply in_seq; lia|]. apply andb_true_iff.
    split; [apply Nat.eqb_eq; lia | exact Hb].
Qed.

Lemma bit_zero_byte i : bit [] i = false.
Proof. unfold bit. rewrite nth_overflow by (cbn; lia). apply Z.testbit_0_l. Qed.

Lemma bit_cons b bytes r i : (8 * i <= r)%nat -> bit (b :: bytes) (r - 8 * i)
  = ((r / 8 =? i)%nat && Z.testbit b (7 - Z.of_nat (r mod 8))) || ((8 * S i <=? r)%nat && bit bytes (r - 8 * S i)).
Proof.
  intros Hr. pose proof (split_8 r) as E. pose proof (mod_8 r) as B. unfold bit.
  assert (D : ((r - 8 * i) / 8 = r / 8 - i)%nat /\ ((r - 8 * i) mod 8 = r mod 8)%nat).
  { replace (r - 8 * i)%nat with (8 * (r / 8 - i) + r mod 8)%nat by lia. now apply bit_index. }
  destruct D as [-> ->]. destruct (Nat.eqb_spec (r / 8) i) as [Ei|Ni].
  - rewrite Ei, Nat.sub_diag. cbn [nth andb]. rewrite (proj2 (Nat.leb_gt _ _)) by lia. cbn [andb]. now rewrite orb_false_r.
  - rewrite (proj2 (Nat.leb_le _ _)) by lia. cbn [andb orb].
    assert (D : ((r - 8 * S i) / 8 = r / 8 - S i)%nat /\ ((r - 8 * S i) mod 8 = r mod 8)%nat).
    { replace (r - 8 * S i)%nat with (8 * (r / 8 - S i) + r mod 8)%nat by lia. now apply bit_index. }
    destruct D as [-> ->]. now replace (r / 8 - i)%nat with (S (r / 8 - S i)) by lia.
Qed.

Lemma insert_bytes_spec byte_idx bit_idx : (byte_idx < RB)%nat -> (bit_idx < 8)%nat ->
  forall bytes i bm, (i + length bytes <= BITVEC_BYTES sizes)%nat -> bitmap_ok bm ->
  exists bm', insert_bytes sizes i byte_idx bit_idx bytes bm = Ret bm' /\ bitmap_ok bm' /\
    forall r c, (c < LEN)%nat -> bit bm' (cell r c) = bit bm (cell r c) ||
      ((c =? 8 * byte_idx + bit_idx)%nat && ((8 * i <=? r)%nat && bit bytes (r - 8 * i))).
Proof.
  intros Hb Hj. induction bytes as [|b bytes IH]; intros i bm Hi Hm; cbn [insert_bytes length] in *.
  - exists bm. split; [reflexivity|]. split; [exact Hm|]. intros r c _.
    now rewrite bit_zero_byte, !andb_false_r, orb_false_r.
  - assert (S1 : exists bm1, (if b =? 0 then Ret bm else insert_byte sizes (seq 0 8) i byte_idx bit_idx b bm) = Ret bm1 /\
      bitmap_ok bm1 /\ forall r c, (c < LEN)%nat -> bit bm1 (cell r c) = bit bm (cell r c) ||
        ((c =? 8 * byte_idx + bit_idx)%nat && ((r / 8 =? i)%nat && Z.testbit b (7 - Z.of_nat (r mod 8))))).
    { destruct (Z.eqb_spec b 0) as [->|_].
      - exists bm. split; [reflexivity|]. split; [exact Hm|]. intros. now rewrite Z.testbit_0_l, !andb_false_r, orb_false_r.
      - destruct (insert_byte_spec byte_idx bit_idx i b Hb Hj ltac:(lia) (seq 0 8)) with (bm := bm) as (bm1 & E1 & L1 & B1);
          [apply Forall_seq; lia | exact Hm|]. exists bm1. split; [exact E1|]. split; [exact L1|].
        intros r c Hc. now rewrite B1, byte_offsets by exact Hc. }
    destruct S1 as (bm1 & -> & L1 & B1). cbn [bind_outcome].
    destruct (IH (S i) bm1 ltac:(lia) L1) as (bm2 & -> & L2 & B2). exists bm2. split; [reflexivity|]. split; [exact L2|].
    intros r c Hc. rewrite B2, B1 by exact Hc. destruct (Nat.leb_spec (8 * i) r) as [Hr|Hr].
    + rewrite bit_cons by exact Hr. destruct (c =? _)%nat, (bit bm _); cbn [andb orb]; rewrite ?orb_false_r, ?orb_true_r; reflexivity.
    + rewrite (proj2 (Nat.leb_gt (8 * S i) r)) by lia.
      destruct (Nat.eqb_spec (r / 8) i) as [Ei|]; [exfalso; pose proof (split_8 r); lia|].
      cbn [andb]. now rewrite !andb_false_r, !orb_false_r.
Qed.

Definition aggregate_ok (a : AggregateBloom) : Prop :=
  bitmap_ok (bitmap a) /\ to_block a = from_block a + Z.of_nat LEN - 1.

(** The column of a block. *)
Definition column (a : AggregateBloom) (block : Z) : nat := Z.to_nat (block - from_block a).

Definition in_range (a : AggregateBloom) (block : Z) : Prop := from_block a <= block <= to_block a.

Lemma column_lt a block : aggregate_ok a -> in_range a block -> (column a block < LEN)%nat.
Proof. intros [_ E] R. unfold column, in_range in *. lia. Qed.

(** Inserting sets the column of the block and nothing else. *)
Lemma aggregate_insert_spec bf block a : aggregate_ok a -> in_range a block -> length bf = BITS ->
  exists a', aggregate_insert sizes bf block a = Ret a' /\ aggregate_ok a' /\ from_block a' = from_block a /\
    forall r c, (r < BITS)%nat -> (c < LEN)%nat ->
      bit (bitmap a') (cell r c) = bit (bitmap a) (cell r c) || ((c =? column a block)%nat && nth r bf false).
Proof.
  intros Ok R L. pose proof (column_lt a block Ok R) as Hcol. destruct Ok as [Hm Ht]. unfold aggregate_insert.
  destruct R as [R1 R2]. rewrite (proj2 (Z.leb_le _ _) R1), (proj2 (Z.leb_le _ _) R2). cbn [andb]. cbv zeta.
  fold (column a block). unfold AGGREGATE_BLOOM_BLOCK_RANGE_LEN in Hcol.
  pose proof (split_8 (column a block)) as E8. pose proof (mod_8 (column a block)) as M8.
  destruct (insert_bytes_spec (column a block / 8) (column a block mod 8) ltac:(lia) M8 (into_bytes sizes bf) 0 (bitmap a))
    as (bm & -> & Lb & Bb); [unfold into_bytes; rewrite bytes_of_bits_length; lia | exact Hm|].
  cbn [bind_outcome]. eexists. split; [reflexivity|]. split; [now split|]. split; [reflexivity|]. cbn [bitmap].
  intros r c Hr Hc. rewrite Bb by exact Hc. rewrite <- E8. rewrite Nat.sub_0_r. f_equal. f_equal.
  unfold into_bytes. rewrite bytes_of_bits_bit; [reflexivity | exact L | exact Hr].
Qed.

(** ** Queries *)

Definition range_ok (rg : BlockRange) : Prop := length rg = RB.

Lemma bit_slice bytes n k c : (n + k <= length bytes)%nat -> (c < 8 * k)%nat ->
  bit (slice n k bytes) c = bit bytes (8 * n + c).
Proof.
  intros Hn Hc. pose proof (split_8 c) as E. pose proof (mod_8 c) as M. unfold bit.
  destruct (bit_index (n + c / 8) (c mod 8) M) as [Ed Em].
  replace (8 * (n + c / 8) + c mod 8)%nat with (8 * n + c)%nat in Ed, Em by lia. rewrite Ed, Em. f_equal.
  unfold slice. rewrite !nth_lookup. rewrite lookup_take_lt by lia. now rewrite lookup_drop.
Qed.

Lemma row_spec a r : aggregate_ok a -> (r < BITS)%nat ->
  exists rg, row sizes a r = Ret rg /\ range_ok rg /\ forall c, (c < LEN)%nat -> bit rg c = bit (bitmap a) (cell r c).
Proof.
  intros [Hm _] Hr. unfold row. cbv zeta. assert (L : (r * RB + RB <= length (bitmap a))%nat).
  { rewrite Hm. nia. }
  rewrite (proj2 (Nat.leb_le _ _) L). unfold copy_from_slice. rewrite slice_length, Nat.eqb_refl by exact L.
  eexists. split; [reflexivity|]. split; [now apply slice_length|]. intros c Hc.
  rewrite bit_slice by (exact L || exact Hc). f_equal. unfold cell, AGGREGATE_BLOOM_BLOCK_RANGE_LEN. lia.
Qed.

Lemma bit_zip (f : Z -> Z -> Z) (g : bool -> bool -> bool) a b c :
  (forall x y i, Z.testbit (f x y) i = g (Z.testbit x i) (Z.testbit y i)) -> g false false = false ->
  length a = length b -> bit (zip_with f a b) c = g (bit a c) (bit b c).
Proof.
  intros Hf Hg L. unfold bit. rewrite !nth_lookup, lookup_zip_with.
  destruct (a !! (c / 8)%nat) as [x|] eqn:Ea.
  - destruct (lookup_lt_is_Some_2 b (c / 8)) as [y Eb]; [rewrite <- L; exact (lookup_lt_Some _ _ _ Ea)|].
    rewrite Eb. cbn. apply Hf.
  - apply lookup_ge_None in Ea. rewrite (lookup_ge_None_2 b) by lia. cbn. now rewrite Z.testbit_0_l, Hg.
Qed.

Lemma bit_and a b c : length a = length b -> bit (range_and a b) c = bit a c && bit b c.
Proof. apply bit_zip; [exact Z.land_spec | reflexivity]. Qed.

Lemma bit_or a b c : length a = length b -> bit (range_or a b) c = bit a c || bit b c.
Proof. apply bit_zip; [exact Z.lor_spec | reflexivity]. Qed.

Lemma range_and_ok a b : range_ok a -> range_ok b -> range_ok (range_and a b).
Proof. unfold range_ok, range_and. intros Ha Hb. rewrite length_zip_with. lia. Qed.

Lemma range_or_ok a b : range_ok a -> range_ok b -> range_ok (range_or a b).
Proof. unfold range_ok, range_or. intros Ha Hb. rewrite length_zip_with. lia. Qed.

Lemma FULL_ok : range_ok (FULL sizes).
Proof. apply repeat_length. Qed.

Lemma EMPTY_ok : range_ok (EMPTY sizes).
Proof. apply repeat_length. Qed.

Lemma bit_repeat b n c : (c < 8 * n)%nat -> bit (repeat b n) c = Z.testbit b (7 - Z.of_nat (c mod 8)).
Proof.
  intros Hc. unfold bit. pose proof (split_8 c). now rewrite nth_repeat_lt by lia.
Qed.

Lemma bit_FULL c : (c < LEN)%nat -> bit (FULL sizes) c = true.
Proof.
  intros Hc. unfold FULL. rewrite bit_repeat by exact Hc. pose proof (mod_8 c).
  destruct (c mod 8)%nat as [|[|[|[|[|[|[|[|n]]]]]]]]; (reflexivity || lia).
Qed.

Lemma bit_EMPTY c : bit (EMPTY sizes) c = false.
Proof.
  unfold EMPTY, bit. rewrite nth_repeat. apply Z.testbit_0_l.
Qed.

Lemma indices_loop_lt key n : forall k_i hashes, Forall (fun i => (i < BITS)%nat) (indices_loop sizes SIPS n k_i hashes key).
Proof.
  induction n as [|n IH]; intros k_i hashes; cbn [indices_loop]; [constructor|].
  destruct (bloom_hash SIPS hashes key k_i). constructor; [apply bit_offset_lt | apply IH].
Qed.

(** The column has all bits of a key. *)
Definition column_has (a : AggregateBloom) (c : nat) (key : Felt) : bool :=
  forallb (fun r => bit (bitmap a) (cell r c)) (indices_for_key sizes SIPS key).

Lemma matches_for_rows_spec a rs : aggregate_ok a -> Forall (fun r => (r < BITS)%nat) rs -> forall acc, range_ok acc ->
  exists rg, matches_for_rows sizes rs acc a = Ret rg /\ range_ok rg /\
    forall c, (c < LEN)%nat -> bit rg c = bit acc c && forallb (fun r => bit (bitmap a) (cell r c)) rs.
Proof.
  intros Ok. induction 1 as [|r rs Hr _ IH]; intros acc Ha; cbn [matches_for_rows forallb].
  - exists acc. split; [reflexivity|]. split; [exact Ha|]. intros. now rewrite andb_true_r.
  - destruct (row_spec a r Ok Hr) as (rg & -> & Lr & Br). cbn [bind_outcome].
    destruct (IH (range_and acc rg)) as (rg' & -> & Lr' & Br'); [now apply range_and_ok|].
    exists rg'. split; [reflexivity|]. split; [exact Lr'|]. intros c Hc.
    rewrite Br', bit_and, Br, <- andb_assoc by (exact Hc || (unfold range_ok in *; congruence)). reflexivity.
Qed.

Lemma matches_for_keys_spec a keys : aggregate_ok a -> forall acc, range_ok acc ->
  exists rg, matches_for_keys sizes SIPS keys acc a = Ret rg /\ range_ok rg /\
    forall c, (c < LEN)%nat -> bit rg c = bit acc c || existsb (column_has a c) keys.
Proof.
  intros Ok. induction keys as [|k keys IH]; intros acc Ha; cbn [matches_for_keys existsb].
  - exists acc. split; [reflexivity|]. split; [exact Ha|]. intros. now rewrite orb_false_r.
  - destruct (matches_for_rows_spec a (indices_for_key sizes SIPS k) Ok (indices_loop_lt k _ _ _) _ FULL_ok)
      as (rg & -> & Lr & Br). cbn [bind_outcome].
    destruct (IH (range_or acc rg)) as (rg' & -> & Lr' & Br'); [now apply range_or_ok|].
    exists rg'. split; [reflexivity|]. split; [exact Lr'|]. intros c Hc.
    rewrite Br', bit_or, Br, bit_FULL, <- orb_assoc by (exact Hc || (unfold range_ok in *; congruence)). reflexivity.
Qed.

Lemma blocks_for_keys_spec a keys : aggregate_ok a ->
  exists rg, blocks_for_keys sizes SIPS keys a = Ret rg /\ range_ok rg /\
    forall c, (c < LEN)%nat -> bit rg c = match keys with [] => true | _ => existsb (column_has a c) keys end.
Proof.
  intros Ok. unfold blocks_for_keys. destruct keys as [|k keys].
  - eexists. split; [reflexivity|]. split; [exact FULL_ok | exact bit_FULL].
  - destruct (matches_for_keys_spec a (k :: keys) Ok _ EMPTY_ok) as (rg & E & L & B). exists rg.
    split; [exact E|]. split; [exact L|]. intros c Hc. now rewrite B, bit_EMPTY by exact Hc.
Qed.

(** A column with a key of every group. *)
Fixpoint groups_match (a : AggregateBloom) (c idx : nat) (keys : list (list Felt)) : bool :=
  match keys with
  | [] => true
  | group :: keys => existsb (column_has a c) (map (key_with_idx idx) group) && groups_match a c (S idx) keys
  end.

Lemma check_groups_spec a keys : aggregate_ok a -> Forall (fun group => group <> []) keys -> forall idx acc, range_ok acc ->
  exists rg, check_groups sizes SIPS idx keys acc a = Ret rg /\ range_ok rg /\
    forall c, (c < LEN)%nat -> bit acc c && groups_match a c idx keys = true -> bit rg c = true.
Proof.
  intros Ok. induction 1 as [|group keys Hg _ IH]; intros idx acc Ha; cbn [check_groups groups_match].
  - exists acc. split; [reflexivity|]. split; [exact Ha|]. intros c _ B. now apply andb_true_iff in B.
  - destruct (blocks_for_keys_spec a (map (key_with_idx idx) group) Ok) as (rg & -> & Lr & Br). cbn [bind_outcome].
    assert (Eg : forall c, (c < LEN)%nat -> bit rg c = existsb (column_has a c) (map (key_with_idx idx) group)).
    { intros c Hc. rewrite Br by exact Hc. destruct group; [easy | reflexivity]. }
    unfold range_eqb. destruct (bool_decide (rg = EMPTY sizes)) eqn:Ee.
    + apply bool_decide_eq_true_1 in Ee. eexists. split; [reflexivity|]. split; [exact EMPTY_ok|].
      intros c Hc B. rewrite <- (Eg c Hc), Ee, bit_EMPTY in B. cbn in B. now rewrite andb_false_r in B.
    + destruct (IH (S idx) (range_and acc rg)) as (rg' & -> & Lr' & Br'); [now apply range_and_ok|].
      exists rg'. split; [reflexivity|]. split; [exact Lr'|]. intros c Hc B. apply Br'; [exact Hc|].
      rewrite bit_and, (Eg c Hc) by (unfold range_ok in *; congruence). rewrite <- andb_assoc. exact B.
Qed.

Lemma byte_ones_spec byte_idx byte : byte_ones true byte_idx byte
  = map (fun j => byte_idx * 8 + j)%nat (List.filter (fun j => Z.testbit byte (7 - Z.of_nat j)) (seq 0 8)).
Proof.
  unfold byte_ones. assert (B : Forall (fun j => (j < 8)%nat) (seq 0 8)) by (apply Forall_seq; lia).
  induction B as [|j l Hj _ IH]; [reflexivity|]. cbn [omap list_omap List.filter]. rewrite single_bit by lia.
  destruct (Z.testbit byte (7 - Z.of_nat j)); cbn [Z.b2z Z.eqb map]; [f_equal|]; exact IH.
Qed.

Lemma list_filter_map {A B} (P : B -> bool) (g : A -> B) l :
  List.filter P (map g l) = map g (List.filter (fun x => P (g x)) l).
Proof. induction l as [|x l IH]; [reflexivity|]. cbn. destruct (P (g x)); cbn; now rewrite IH. Qed.

Lemma iter_val_spec rg : forall k, iter_val true k rg
  = map (fun c => k * 8 + c)%nat (List.filter (bit rg) (seq 0 (8 * length rg))).
Proof.
  induction rg as [|byte rg IH]; intros k; [reflexivity|]. cbn [iter_val length].
  rewrite byte_ones_spec, IH. replace (8 * S (length rg))%nat with (8 + 8 * length rg)%nat by lia.
  rewrite seq_app, List.filter_app, map_app. f_equal.
  rewrite <- (fmap_add_seq 8 0). change (Nat.add 8 <$> seq 0 (8 * length rg)) with (map (Nat.add 8) (seq 0 (8 * length rg))).
  rewrite list_filter_map, map_map.
  erewrite (filter_ext_in (fun x => bit (byte :: rg) (8 + x)%nat)); [apply map_ext; intros; lia|].
  intros j _. unfold bit. pose proof (mod_8 j) as M. destruct (bit_index (S (j / 8)) (j mod 8) M) as [Ed Em].
  pose proof (split_8 j). replace (8 * S (j / 8) + j mod 8)%nat with (8 + j)%nat in Ed, Em by lia.
  now rewrite Ed, Em.
Qed.

(** The blocks that a filter reports: in order, and with every block whose
    column has an address and a key of every group. *)
Definition column_matches (a : AggregateBloom) (addresses : list Felt) (keys : list (list Felt)) (c : nat) : Prop :=
  (addresses = [] \/ existsb (column_has a c) addresses = true) /\
  (Forall (fun group => group <> []) keys -> groups_match a c 0 keys = true).

Lemma check_keys_spec a keys : aggregate_ok a ->
  exists rg, check_keys sizes SIPS keys a = Ret rg /\ range_ok rg /\
    forall c, (c < LEN)%nat -> (Forall (fun group => group <> []) keys -> groups_match a c 0 keys = true) -> bit rg c = true.
Proof.
  intros Ok. unfold check_keys. set (e := existsb _ keys).
  assert (F : (exists rg, Ret (FULL sizes) = Ret rg /\ range_ok rg /\ forall c, (c < LEN)%nat ->
    (Forall (fun group => group <> []) keys -> groups_match a c 0 keys = true) -> bit rg c = true)).
  { eexists. split; [reflexivity|]. split; [exact FULL_ok | intros c Hc _; now apply bit_FULL]. }
  destruct keys as [|g keys]; [exact F|]. destruct e eqn:He; [exact F|]. clear F.
  assert (Ne : Forall (fun group => group <> []) (g :: keys)).
  { apply List.Forall_forall. intros x Hx ->. unfold e in He. enough (false = true) by discriminate. rewrite <- He.
    apply existsb_exists. exists []. now split. }
  destruct (check_groups_spec a (g :: keys) Ok Ne 0 _ FULL_ok) as (rg & E & L & B). exists rg.
  split; [exact E|]. split; [exact L|]. intros c Hc G. apply B; [exact Hc|]. rewrite bit_FULL by exact Hc. now apply G.
Qed.

Lemma check_spec a addresses keys : aggregate_ok a ->
  exists P, check sizes SIPS addresses keys a = Ret (map (fun c => from_block a + Z.of_nat c) (List.filter P (seq 0 LEN))) /\
    forall c, (c < LEN)%nat -> column_matches a addresses keys c -> P c = true.
Proof.
  intros Ok. unfold check.
  assert (A : exists rg, check_addresses sizes SIPS addresses a = Ret rg /\ range_ok rg /\ forall c, (c < LEN)%nat ->
    (addresses = [] \/ existsb (column_has a c) addresses = true) -> bit rg c = true).
  { unfold check_addresses. destruct (blocks_for_keys_spec a addresses Ok) as (rg & E & L & B). destruct addresses as [|x l].
    - eexists. split; [reflexivity|]. split; [exact FULL_ok|]. intros c Hc _. now apply bit_FULL.
    - exists rg. split; [exact E|]. split; [exact L|]. intros c Hc [H|H]; [discriminate | now rewrite B]. }
  destruct A as (ra & -> & La & Ba). cbn [bind_outcome].
  destruct (check_keys_spec a keys Ok) as (rk & -> & Lk & Bk). cbn [bind_outcome].
  exists (bit (range_and ra rk)). split.
  - do 2 f_equal. unfold iter_ones. rewrite iter_val_spec. cbn [Nat.mul Nat.add].
    rewrite (range_and_ok ra rk La Lk). now rewrite map_id.
  - intros c Hc [Hm1 Hm2]. rewrite bit_and by (unfold range_ok in *; congruence).
    now rewrite Ba, Bk by assumption.
Qed.
End Facts.
