(* ===== verification/EventStore.v ===== *)
(** The events of the blocks, their filters and the queries over them
    (storage/src/connection/event.rs, the cache of storage/src/bloom.rs, and the
    parts of connection/transaction.rs, block.rs, pruning.rs and of
    pathfinder/src/state/sync.rs that touch them).

    The zstd compression of the bitmaps and the cache with a limited size are
    parameters.  A query error of SQLite does not occur in the model. *)

From Stdlib Require Import ZArith Lia Bool List.
From stdpp Require Import list gmap.
From S2P Require Import Prelude Bytes Felt Bloom Commitments.
Local Open Scope Z_scope.

(** ** Data *)

Record RunningEventFilter : Type := MkRunning { running_filter : AggregateBloom; next_block : Z }.

(** A row of [event_filters]: [from_block], [to_block] and the bitmap. *)
Abbreviation FilterRow := (Z * Z * list Z)%type.

(** The tables.  The events of a block are a column of [transactions], which
    may be null; the rows of [transaction_hashes] are grouped by their block, in
    the order of [idx]. *)
Record EventDb : Type := MkDb {
  block_headers : gmap Z Felt;
  transactions : gmap Z (option (list (list Event)));
  transaction_hashes : gmap Z (list (Felt * Z));
  event_filters : list FilterRow;
  running_event_filter : FilterRow * Z
}.

(** [CacheKey] *)
Abbreviation CacheKey := (Z * Z)%type.
Abbreviation AggregateBloomCache := (gmap CacheKey AggregateBloom).

(** The database with the state that is kept in memory. *)
Record EventStore : Type := MkStore {
  db : EventDb;
  running : RunningEventFilter;
  cache : AggregateBloomCache
}.

Inductive BlockchainHistoryMode : Type :=
| Archive
| Prune (num_blocks_kept : Z).

Record EventConstraints : Type := MkConstraints {
  c_from_block : option Z;
  c_to_block : option Z;
  contract_addresses : list Felt;
  c_keys : list (list Felt);
  page_size : nat;
  c_offset : nat
}.

Record EmittedEvent : Type := MkEmitted {
  em_from_address : Felt;
  em_data : list Felt;
  em_keys : list Felt;
  em_block_hash : Felt;
  em_block_number : Z;
  em_transaction_hash : Felt;
  em_transaction_index : Z;
  em_event_index : Z
}.

Inductive EventFilterError : Type := Internal | PageSizeTooSmall.

Record ContinuationToken : Type := MkToken { ct_block_number : Z; ct_offset : nat }.

Record PageOfEvents : Type := MkPage { page_events : list EmittedEvent; continuation : option ContinuationToken }.

(** ** Generic *)

(** The numbers from [a] to [b], both included. *)
Definition zrange (a b : Z) : list Z := map (fun i => a + Z.of_nat i) (seq 0 (Z.to_nat (b + 1 - a))).

(** [SELECT number ... ORDER BY number DESC LIMIT 1] and [ASC]. *)
Definition max_key {A} (m : gmap Z A) : option Z :=
  foldr (fun k acc => Some match acc with Some x => Z.max k x | None => k end) None (map fst (map_to_list m)).

Definition min_key {A} (m : gmap Z A) : option Z :=
  foldr (fun k acc => Some match acc with Some x => Z.min k x | None => k end) None (map fst (map_to_list m)).

(** A stable sort by a key. *)
Fixpoint insert_by {A} (key : A -> Z) (x : A) (l : list A) : list A :=
  match l with
  | [] => [x]
  | y :: l => if key x <=? key y then x :: y :: l else y :: insert_by key x l
  end.

Fixpoint sort_by_key {A} (key : A -> Z) (l : list A) : list A :=
  match l with
  | [] => []
  | x :: l => insert_by key x (sort_by_key key l)
  end.

Section Code.
Context (sizes : BloomSizes) (SIPS : nat -> Felt -> Z).
(** zstd and the cache. *)
Context (compress : list Z -> list Z) (decompress : list Z -> option (list Z)).
Context (cache_set : CacheKey -> AggregateBloom -> AggregateBloomCache -> AggregateBloomCache).

Abbreviation LEN := (AGGREGATE_BLOOM_BLOCK_RANGE_LEN sizes).
Abbreviation RANGE_LEN := (Z.of_nat LEN).

(** ** Blocks *)

(** [block_number(BlockId::Latest)] *)
Definition latest_block_number (self : EventDb) : option Z := max_key (block_headers self).
Definition earliest_block_number (self : EventDb) : option Z := min_key (block_headers self).

Definition set_headers (self : EventDb) (t : gmap Z Felt) : EventDb :=
  MkDb t (transactions self) (transaction_hashes self) (event_filters self) (running_event_filter self).
Definition set_filters (self : EventDb) (t : list FilterRow) : EventDb :=
  MkDb (block_headers self) (transactions self) (transaction_hashes self) t (running_event_filter self).
Definition set_running_row (self : EventDb) (row : FilterRow * Z) : EventDb :=
  MkDb (block_headers self) (transactions self) (transaction_hashes self) (event_filters self) row.

Definition insert_block_header (number : Z) (hash : Felt) (self : EventDb) : result unit EventDb :=
  match block_headers self !! number with
  | Some _ => Err tt
  | None => Ok (set_headers self (<[number := hash]> (block_headers self)))
  end.

(** ** Filters *)

Definition from_existing_compressed (from_block to_block : Z) (compressed_bitmap : list Z) : outcome AggregateBloom :=
  match decompress compressed_bitmap with
  | Some bitmap => from_parts sizes from_block to_block bitmap
  | None => Panic
  end.

Definition filter_row (self : AggregateBloom) : FilterRow := (from_block self, to_block self, compress (bitmap self)).

Definition load_row (row : FilterRow) : outcome AggregateBloom :=
  let '(from_block, to_block, compressed_bitmap) := row in from_existing_compressed from_block to_block compressed_bitmap.

Definition same_range (row row' : FilterRow) : bool :=
  let '(from, to, _) := row in
  let '(from', to', _) := row' in
  (from =? from') && (to =? to').

(** [INSERT ... ON CONFLICT DO UPDATE SET bitmap=excluded.bitmap] *)
Fixpoint upsert_filter (row : FilterRow) (table : list FilterRow) : list FilterRow :=
  match table with
  | [] => [row]
  | row' :: table => if same_range row row' then row :: table else row' :: upsert_filter row table
  end.

(** The filter of the events of a block. *)
Fixpoint bloom_events (events : list Event) (bloom : BloomFilter) : outcome BloomFilter :=
  match events with
  | [] => Ret bloom
  | event :: events =>
      let! bloom := set_keys sizes SIPS (ev_keys event) bloom in
      let! bloom := set_address sizes SIPS (ev_from_address event) bloom in
      bloom_events events bloom
  end.

Definition upsert_block_event_filters (block_number : Z) (events : list Event) (self : EventStore) : outcome EventStore :=
  let! bloom := bloom_events events (bloom_new sizes) in
  let! filter := aggregate_insert sizes bloom block_number (running_filter (running self)) in
  if block_number =? to_block filter then
    let! filter' := aggregate_new sizes (block_number + 1) in
    Ret (MkStore (set_filters (db self) (upsert_filter (filter_row filter) (event_filters (db self))))
           (MkRunning filter' (block_number + 1)) (cache self))
  else Ret (MkStore (db self) (MkRunning filter (block_number + 1)) (cache self)).

(** ** Events *)

(** The primary key of [transaction_hashes]. *)
Definition hash_known (self : EventDb) (hash : Felt) : bool :=
  existsb (fun rows => bool_decide (hash ∈ map fst rows.2)) (map_to_list (transaction_hashes self)).

(** The rows of a block: the events and the hashes with their index. *)
Definition insert_rows (block_number : Z) (hashes : list Felt) (events : option (list (list Event))) (self : EventDb)
    : result unit EventDb :=
  if existsb (hash_known self) hashes || negb (bool_decide (NoDup hashes)) then Err tt
  else
  match transactions self !! block_number with
  | Some _ => Err tt
  | None =>
      Ok (MkDb (block_headers self) (<[block_number := events]> (transactions self))
            (<[block_number := imap (fun idx hash => (hash, Z.of_nat idx)) hashes]> (transaction_hashes self))
            (event_filters self) (running_event_filter self))
  end.

Definition insert_transaction_data (block_number : Z) (hashes : list Felt) (events : option (list (list Event)))
    (self : EventStore) : outcome (result unit EventStore) :=
  let! self :=
    match events with
    | Some events => upsert_block_event_filters block_number (concat events) self
    | None => Ret self
    end in
  if match hashes with [] => match events with None => true | Some [] => true | Some _ => false end | _ => false end
  then Ret (Ok self)
  else
    match insert_rows block_number hashes events (db self) with
    | Ok db' => Ret (Ok (MkStore db' (running self) (cache self)))
    | Err e => Ret (Err e)
    end.

(** A block with its events (the storage part of [l2_update]). *)
Definition add_block (number : Z) (hash : Felt) (hashes : list Felt) (events : list (list Event)) (self : EventStore)
    : outcome (result unit EventStore) :=
  match insert_block_header number hash (db self) with
  | Err e => Ret (Err e)
  | Ok db' => insert_transaction_data number hashes (Some events) (MkStore db' (running self) (cache self))
  end.

Definition update_events (block_number : Z) (events : list (list Event)) (self : EventStore) : outcome EventStore :=
  let db' :=
    MkDb (block_headers (db self)) (alter (fun _ => Some events) block_number (transactions (db self)))
      (transaction_hashes (db self)) (event_filters (db self)) (running_event_filter (db self)) in
  upsert_block_event_filters block_number (concat events) (MkStore db' (running self) (cache self)).

Definition query_events_by_block (self : EventDb) (block : Z) : option (list (list Event)) :=
  match transactions self !! block with
  | Some events => events
  | None => None
  end.

Definition query_transaction_infos_by_block (self : EventDb) (block : Z) : list (Felt * Z) :=
  default [] (transaction_hashes self !! block).

Definition events_for_block (self : EventDb) (block : Z)
    : result EventFilterError (option (list ((Felt * Z) * list Event))) :=
  match block_headers self !! block with
  | None => Ok None
  | Some _ =>
      let events := default [] (query_events_by_block self block) in
      let transaction_infos := query_transaction_infos_by_block self block in
      if (length events =? length transaction_infos)%nat then Ok (Some (zip transaction_infos events)) else Err Internal
  end.

(** ** Removing blocks *)

(** [DELETE FROM event_filters WHERE from_block <= :block AND to_block >= :block]
    and the deletion of the header, whose rows follow by the foreign keys. *)
Definition delete_block (block : Z) (filters : list FilterRow) (self : EventDb) : EventDb :=
  MkDb (delete block (block_headers self)) (delete block (transactions self)) (delete block (transaction_hashes self))
    filters (running_event_filter self).

Definition purge_block (block : Z) (self : EventDb) : EventDb :=
  delete_block block
    (List.filter (fun row => let '(from, to, _) := row in negb ((from <=? block) && (block <=? to))) (event_filters self))
    self.

Definition prune_block (block : Z) (self : EventDb) : EventDb :=
  delete_block block
    (if (block + 1) mod RANGE_LEN =? 0
     then List.filter (fun row => let '(_, to, _) := row in negb (to =? block)) (event_filters self)
     else event_filters self)
    self.

(** ** The running filter *)

Definition store_running_event_filter (self : EventStore) : EventStore :=
  MkStore (set_running_row (db self) (filter_row (running_filter (running self)), next_block (running self)))
    (running self) (cache self).

(** [SELECT block_number, events FROM transactions WHERE block_number >= first],
    in the order of the primary key. *)
Definition rows_from (first : Z) (self : EventDb) : list (Z * option (list (list Event))) :=
  match max_key (transactions self) with
  | Some last => omap (fun block => pair block <$> transactions self !! block) (zrange first last)
  | None => []
  end.

(** The rows up to the first block whose events are missing. *)
Fixpoint insert_rebuilt (rows : list (Z * option (list (list Event)))) (filter : AggregateBloom) : outcome AggregateBloom :=
  match rows with
  | [] => Ret filter
  | (_, None) :: _ => Ret filter
  | (block_number, Some events) :: rows =>
      let! bloom := bloom_events (concat events) (bloom_new sizes) in
      let! filter := aggregate_insert sizes bloom block_number filter in
      insert_rebuilt rows filter
  end.

(** [SELECT to_block FROM event_filters ORDER BY from_block DESC LIMIT 1] *)
Definition row_from (row : FilterRow) : Z := let '(from, _, _) := row in from.
Definition row_to (row : FilterRow) : Z := let '(_, to, _) := row in to.

Definition last_to_block (self : EventDb) : option Z := row_to <$> last (sort_by_key row_from (event_filters self)).

Definition rebuild_from (first latest : Z) (self : EventDb) : outcome RunningEventFilter :=
  if latest <? first then Panic
  else
    let! filter := aggregate_new sizes first in
    let! filter := insert_rebuilt (rows_from first self) filter in
    Ret (MkRunning filter (latest + 1)).

Definition rebuild (self : EventDb) (latest : Z) : outcome RunningEventFilter :=
  match last_to_block self with
  | Some last_to_block =>
      if last_to_block =? latest then
        let! filter := aggregate_new sizes (latest + 1) in
        Ret (MkRunning filter (latest + 1))
      else rebuild_from (last_to_block + 1) latest self
  | None => rebuild_from (latest - latest mod RANGE_LEN) latest self
  end.

Definition load (self : EventDb) : outcome RunningEventFilter :=
  match latest_block_number self with
  | None =>
      let! filter := aggregate_new sizes 0 in
      Ret (MkRunning filter 0)
  | Some latest =>
      let '(row, next_block) := running_event_filter self in
      let! filter := load_row row in
      if next_block =? latest + 1 then Ret (MkRunning filter next_block) else rebuild self latest
  end.

(** Opening the database. *)
Definition open_store (self : EventDb) : outcome EventStore :=
  let! running := load self in
  Ret (MkStore self running ∅).

Definition reset_in_memory_state (head : Z) (self : EventStore) : outcome EventStore :=
  let! running := rebuild (db self) head in
  Ret (MkStore (db self) running ∅).

(** The loop of [l2_reorg]: the blocks from the head to the tail of the reorg. *)
Fixpoint purge_loop (fuel : nat) (new_head reorg_tail : Z) (self : EventDb) : outcome (EventDb * Z) :=
  if new_head <? reorg_tail then Ret (self, new_head)
  else
    match fuel with
    | O => Panic
    | S fuel =>
        let self := purge_block new_head self in
        if new_head =? 0 then Ret (self, new_head) else purge_loop fuel (new_head - 1) reorg_tail self
    end.

Definition l2_reorg (reorg_tail : Z) (self : EventStore) : outcome (result unit EventStore) :=
  match latest_block_number (db self) with
  | None => Ret (Err tt)
  | Some orphan_head =>
      match block_headers (db self) !! reorg_tail with
      | None => Ret (Err tt)
      | Some _ =>
          if (0 <? reorg_tail) && negb (bool_decide (is_Some (block_headers (db self) !! (reorg_tail - 1))))
          then Ret (Err tt) else
          let! purged := purge_loop (Z.to_nat (orphan_head + 1)) orphan_head reorg_tail (db self) in
          let! self := reset_in_memory_state purged.2 (MkStore purged.1 (running self) (cache self)) in
          Ret (Ok self)
      end
  end.

(** ** The cache *)

Definition get_many (from_block to_block : Z) (self : AggregateBloomCache) : list AggregateBloom :=
  let from_block_aligned := from_block - from_block mod RANGE_LEN in
  let to_block_aligned := to_block + RANGE_LEN - to_block mod RANGE_LEN - 1 in
  omap (fun i => let from := from_block_aligned + RANGE_LEN * Z.of_nat i in self !! (from, from + RANGE_LEN - 1))
    (seq 0 (Z.to_nat ((to_block_aligned - from_block_aligned) / RANGE_LEN + 1))).

Definition set_many (filters : list AggregateBloom) (self : AggregateBloomCache) : AggregateBloomCache :=
  fold_left (fun self filter => cache_set (from_block filter, to_block filter) filter self) filters self.

(** ** Queries *)

Fixpoint load_rows (rows : list FilterRow) : outcome (list AggregateBloom) :=
  match rows with
  | [] => Ret []
  | row :: rows =>
      let! filter := load_row row in
      let! filters := load_rows rows in
      Ret (filter :: filters)
  end.

Definition load_event_filter_range (start_block end_block : Z) (self : EventStore)
    : outcome (list AggregateBloom * EventStore) :=
  let cached_filters := get_many start_block end_block (cache self) in
  let rows :=
    List.filter (fun row =>
      (row_from row <=? end_block) && (start_block <=? row_to row)
      && negb (existsb (fun filter => from_block filter =? row_from row) cached_filters)) (event_filters (db self)) in
  let! loaded := load_rows (sort_by_key row_from rows) in
  let cache := set_many loaded (cache self) in
  let event_filters := sort_by_key from_block (loaded ++ cached_filters) in
  let filter := running_filter (running self) in
  let should_include_running :=
    match last event_filters with
    | None => true
    | Some last => (to_block last + 1 =? from_block filter) && (to_block last <? end_block)
    end in
  Ret (if should_include_running then event_filters ++ [filter] else event_filters, MkStore (db self) (running self) cache).

(** [flat_map(|filter| filter.check(constraints))] *)
Fixpoint check_filters (filters : list AggregateBloom) (addresses : list Felt) (keys : list (list Felt)) : outcome (list Z) :=
  match filters with
  | [] => Ret []
  | filter :: filters =>
      let! blocks := check sizes SIPS addresses keys filter in
      let! rest := check_filters filters addresses keys in
      Ret (blocks ++ rest)
  end.

(** The two filters on the events of a block. *)
Definition matches_address (addresses : list Felt) (event : Event) : bool :=
  match addresses with
  | [] => true
  | _ => bool_decide (ev_from_address event ∈ addresses)
  end.

Definition matches_keys (keys : list (list Felt)) (event : Event) : bool :=
  if (length (concat keys) =? 0)%nat then true
  else if (length (ev_keys event) <? length keys)%nat then false
  else forallb (fun '(key, filter) => match filter with [] => true | _ => bool_decide (key ∈ filter) end)
         (combine (ev_keys event) keys).

Definition numbered (info_events : (Felt * Z) * list Event) : list (Event * (nat * (Felt * Z))) :=
  imap (fun idx event => (event, (idx, info_events.1))) info_events.2.

Definition selected (addresses : list Felt) (keys : list (list Felt)) (events : list ((Felt * Z) * list Event))
    : list (Event * (nat * (Felt * Z))) :=
  List.filter (fun e => matches_keys keys e.1) (List.filter (fun e => matches_address addresses e.1) (flat_map numbered events)).

Definition emit (block : Z) (hash : Felt) (e : Event * (nat * (Felt * Z))) : EmittedEvent :=
  let '(event, (idx, tx_info)) := e in
  MkEmitted (ev_from_address event) (ev_data event) (ev_keys event) hash block tx_info.1 tx_info.2 (Z.of_nat idx).

(** [events_in_range] stops at a block that is missing. *)
Fixpoint scan_range (blocks : list Z) (addresses : list Felt) (keys : list (list Felt)) (self : EventDb)
    (emitted : list EmittedEvent) : result EventFilterError (list EmittedEvent) :=
  match blocks with
  | [] => Ok emitted
  | block :: blocks =>
      match block_headers self !! block with
      | None => Ok emitted
      | Some hash =>
          match events_for_block self block with
          | Err e => Err e
          | Ok None => Ok emitted
          | Ok (Some events) =>
              scan_range blocks addresses keys self (emitted ++ map (emit block hash) (selected addresses keys events))
          end
      end
  end.

(** [rposition] and [truncate]: drop the empty lists at the end. *)
Fixpoint truncate_keys (keys : list (list Felt)) : list (list Felt) :=
  match keys with
  | [] => []
  | group :: keys =>
      match truncate_keys keys with
      | [] => match group with [] => [] | _ => [group] end
      | keys' => group :: keys'
      end
  end.

(** The truncation applies when some list has an element. *)
Definition truncate_trailing (keys : list (list Felt)) : list (list Felt) :=
  match truncate_keys keys with
  | [] => keys
  | keys' => keys'
  end.

Definition events_in_range (from_block to_block : Z) (addresses : list Felt) (keys : list (list Felt)) (self : EventStore)
    : outcome (result EventFilterError (list EmittedEvent * option Z) * EventStore) :=
  match latest_block_number (db self) with
  | None => Ret (Ok ([], None), self)
  | Some latest_block =>
      if latest_block <? from_block then Ret (Ok ([], None), self)
      else
        let to_block := Z.min to_block latest_block in
        let keys := truncate_trailing keys in
        let! loaded := load_event_filter_range from_block to_block self in
        let! blocks := check_filters loaded.1 addresses keys in
        let blocks_to_scan := List.filter (fun block => (from_block <=? block) && (block <=? to_block)) blocks in
        Ret (match scan_range blocks_to_scan addresses keys (db self) [] with
             | Ok events => Ok (events, Some to_block)
             | Err e => Err e
             end, loaded.2)
  end.

(** [skip_while] with its counter. *)
Fixpoint skip_while {A} (offset : nat) (l : list A) : nat * list A :=
  match l with
  | [] => (offset, [])
  | x :: l' => if (0 <? offset)%nat then skip_while (offset - 1) l' else (offset - 1, l)%nat
  end.

Fixpoint trailing (block : Z) (events : list EmittedEvent) : nat :=
  match events with
  | [] => 0
  | event :: events => if em_block_number event =? block then S (trailing block events) else 0
  end.

(** The additions of the queries; an overflow is a panic, in release builds
    too. *)
Definition add_u64 (a b : Z) : outcome Z := if a + b <? W64 then Ret (a + b) else Panic.
Definition add_usize (a b : nat) : outcome nat :=
  if Z.of_nat a + Z.of_nat b <? W64 then Ret (a + b)%nat else Panic.

Definition continuation_token (events : list EmittedEvent) (previous_token : ContinuationToken)
    : outcome (option ContinuationToken) :=
  match last events with
  | None => Ret None
  | Some event =>
      let last_block_number := em_block_number event in
      let number_of_events_in_last_block := trailing last_block_number (rev events) in
      if (1 <=? number_of_events_in_last_block)%nat then
        if (number_of_events_in_last_block <? length events)%nat
        then Ret (Some (MkToken last_block_number number_of_events_in_last_block))
        else
          let! offset := add_usize (ct_offset previous_token) (length events) in
          Ret (Some (MkToken (ct_block_number previous_token) offset))
      else Panic
  end.

(** The scan of [events]: a page, or the events found when the blocks are
    exhausted. *)
Inductive scanned : Type :=
| Page (page : PageOfEvents)
| Exhausted (emitted : list EmittedEvent).

(** The page that is full, with its extra event. *)
Definition full_page (constraints : EventConstraints) (from_block : Z) (emitted : list EmittedEvent) : outcome PageOfEvents :=
  let! token := continuation_token emitted (MkToken from_block (c_offset constraints)) in
  let! token := unwrap_option token in
  if (1 <=? ct_offset token)%nat then
    Ret (MkPage (take (page_size constraints) emitted) (Some (MkToken (ct_block_number token) (ct_offset token - 1))))
  else Panic.

Fixpoint scan_blocks (blocks : list Z) (constraints : EventConstraints) (from_block : Z) (self : EventDb)
    (offset : nat) (emitted : list EmittedEvent) : outcome (result EventFilterError scanned) :=
  match blocks with
  | [] => Ret (Ok (Exhausted emitted))
  | block :: blocks =>
      let! page_and_one := add_usize (page_size constraints) 1 in
      let events_required := (page_and_one - length emitted)%nat in
      let! hash := unwrap_option (block_headers self !! block) in
      match events_for_block self block with
      | Err e => Ret (Err e)
      | Ok None => Ret (Ok (Page (MkPage emitted None)))
      | Ok (Some events) =>
          let '(offset, rest) := skip_while offset (selected (contract_addresses constraints) (c_keys constraints) events) in
          let emitted := emitted ++ map (emit block hash) (take events_required rest) in
          if (page_size constraints <? length emitted)%nat then
            let! page := full_page constraints from_block emitted in
            Ret (Ok (Page page))
          else scan_blocks blocks constraints from_block self offset emitted
      end
  end.

(** The lower end of the range: with pruning the earliest block replaces the
    one that is given. *)
Definition resolve_from (mode : BlockchainHistoryMode) (constraints : EventConstraints) (self : EventDb) : outcome Z :=
  match c_from_block constraints with
  | None => Ret 0
  | Some from_block =>
      match mode with
      | Prune _ => unwrap_option (earliest_block_number self)
      | Archive => Ret from_block
      end
  end.

Definition events (mode : BlockchainHistoryMode) (constraints : EventConstraints) (block_range_limit : Z) (self : EventStore)
    : outcome (result EventFilterError PageOfEvents * EventStore) :=
  if (page_size constraints <? 1)%nat then Ret (Err PageSizeTooSmall, self)
  else
    match latest_block_number (db self) with
    | None => Ret (Ok (MkPage [] None), self)
    | Some latest_block =>
        let! from_block := resolve_from mode constraints (db self) in
        let! sum := add_u64 from_block block_range_limit in
        let max_to_block := sum - 1 in
        let to_block' := match c_to_block constraints with Some to => Z.min to latest_block | None => latest_block end in
        let to_block_limited := Z.min to_block' max_to_block in
        let! loaded := load_event_filter_range from_block to_block_limited self in
        let! last_filter := unwrap_option (last loaded.1) in
        let last_covered_block := Z.min to_block_limited (to_block last_filter) in
        let add_continuation_token := last_covered_block <? to_block' in
        let! blocks := check_filters loaded.1 (contract_addresses constraints) (c_keys constraints) in
        let blocks_to_scan := List.filter (fun block => (from_block <=? block) && (block <=? last_covered_block)) blocks in
        let! found := scan_blocks blocks_to_scan constraints from_block (db self) (c_offset constraints) [] in
        Ret (match found with
             | Err e => Err e
             | Ok (Page page) => Ok page
             | Ok (Exhausted emitted) =>
                 Ok (MkPage emitted (if add_continuation_token then Some (MkToken (last_covered_block + 1) 0) else None))
             end, loaded.2)
    end.
End Code.
