(* ===== verification/EventFacts.v ===== *)
(** The filters of the event store hold the events of every block: the
    invariant of the store, and that each of its operations keeps it. *)

From Stdlib Require Import ZArith Lia Bool List Sorted Permutation.
From stdpp Require Import list gmap.
From S2P Require Import Prelude Bytes Felt Bloom Commitments EventStore.
Local Open Scope Z_scope.

(** ** Ranges of numbers *)

Lemma elem_of_zrange x a b : x ∈ zrange a b <-> a <= x <= b.
Proof.
  unfold zrange. rewrite list_elem_of_In, in_map_iff. split.
  - intros (i & <- & Hi). apply in_seq in Hi. lia.
  - intros Hx. exists (Z.to_nat (x - a)). split; [lia|]. apply in_seq. lia.
Qed.

Lemma zrange_nil a b : b < a -> zrange a b = [].
Proof. intros H. unfold zrange. now replace (Z.to_nat (b + 1 - a)) with O by lia. Qed.

Lemma zrange_app a m b : a <= m + 1 -> m <= b -> zrange a b = zrange a m ++ zrange (m + 1) b.
Proof.
  intros Ha Hb. unfold zrange. replace (Z.to_nat (b + 1 - a)) with (Z.to_nat (m + 1 - a) + Z.to_nat (b + 1 - (m + 1)))%nat by lia.
  rewrite seq_app, map_app. f_equal. rewrite (Nat.add_comm 0), <- fmap_add_seq.
  change (Nat.add (Z.to_nat (m + 1 - a)) <$> ?l) with (map (Nat.add (Z.to_nat (m + 1 - a))) l).
  rewrite map_map. apply map_ext. intros i. lia.
Qed.

Lemma zrange_cons a b : a <= b -> zrange a b = a :: zrange (a + 1) b.
Proof.
  intros H. rewrite (zrange_app a a b) by lia. unfold zrange at 1. replace (Z.to_nat (a + 1 - a)) with 1%nat by lia.
  cbn. now rewrite Z.add_0_r.
Qed.

Lemma list_filter_all {A} (P : A -> bool) l : (forall x, x ∈ l -> P x = true) -> List.filter P l = l.
Proof.
  induction l as [|x l IH]; intros H; [reflexivity|]. cbn. rewrite H by apply list_elem_of_here. f_equal. apply IH.
  intros y Hy. apply H. now apply list_elem_of_further.
Qed.

Lemma list_filter_none {A} (P : A -> bool) l : (forall x, x ∈ l -> P x = false) -> List.filter P l = [].
Proof.
  induction l as [|x l IH]; intros H; [reflexivity|]. cbn. rewrite H by apply list_elem_of_here. apply IH.
  intros y Hy. apply H. now apply list_elem_of_further.
Qed.

Lemma list_filter_comm {A} (P Q : A -> bool) l : List.filter P (List.filter Q l) = List.filter Q (List.filter P l).
Proof.
  induction l as [|x l IH]; [reflexivity|]. cbn. destruct (Q x) eqn:EQ, (P x) eqn:EP; cbn; rewrite ?EQ, ?EP, IH; reflexivity.
Qed.

Lemma elem_of_list_filter_bool {A} (P : A -> bool) l x : x ∈ List.filter P l <-> x ∈ l /\ P x = true.
Proof. rewrite !list_elem_of_In. apply filter_In. Qed.

Lemma zrange_within a b f e : a <= f -> e <= b -> List.filter (fun x => (f <=? x) && (x <=? e)) (zrange a b) = zrange f e.
Proof.
  intros Ha Hb. destruct (Z.lt_ge_cases e f) as [L|L].
  - rewrite (zrange_nil f e) by exact L. apply list_filter_none. intros x _. lia.
  - rewrite (zrange_app a (f - 1) b), (zrange_app (f - 1 + 1) e b), !List.filter_app by lia. rewrite Z.sub_add.
    rewrite (list_filter_none _ (zrange a (f - 1))), (list_filter_none _ (zrange (e + 1) b)), (list_filter_all _ (zrange f e)).
    + apply app_nil_r.
    + intros x Hx. apply elem_of_zrange in Hx. lia.
    + intros x Hx. apply elem_of_zrange in Hx. lia.
    + intros x Hx. apply elem_of_zrange in Hx. lia.
Qed.

(** ** Keys of a table *)

Lemma max_key_spec {A} (m : gmap Z A) : 
  match max_key m with
  | Some k => is_Some (m !! k) /\ forall k', is_Some (m !! k') -> k' <= k
  | None => m = ∅
  end.
Proof.
  unfold max_key.
  assert (G : forall l : list Z,
    match foldr (fun k acc => Some match acc with Some x => Z.max k x | None => k end) None l with
    | Some k => k ∈ l /\ forall k', k' ∈ l -> k' <= k
    | None => l = []
    end).
  { induction l as [|x l IH]; [reflexivity|]. cbn. destruct (foldr _ None l) as [y|].
    - destruct IH as [Hy Hl]. split.
      + destruct (Z.max_spec x y) as [[_ ->]|[_ ->]]; [now right | left].
      + intros k' [->|H]%elem_of_cons; [lia|]. specialize (Hl k' H). lia.
    - subst l. split; [left|]. intros k' [->|H]%elem_of_cons; [lia|]. now apply elem_of_nil in H. }
  specialize (G (map fst (map_to_list m))). destruct (foldr _ None _) as [k|].
  - destruct G as [Gk Gl]. assert (In_key : forall k', is_Some (m !! k') <-> k' ∈ map fst (map_to_list m)).
    { intros k'. rewrite list_elem_of_In, in_map_iff. split.
      - intros [v E]. exists (k', v). split; [reflexivity|]. apply list_elem_of_In. now apply elem_of_map_to_list.
      - intros ([k1 v] & <- & H). apply list_elem_of_In, elem_of_map_to_list in H. now exists v. }
    split; [now apply In_key|]. intros k' H. apply Gl. now apply In_key.
  - apply map_to_list_empty_iff. destruct (map_to_list m); [reflexivity | discriminate].
Qed.

(** ** Sorting *)

Section Sorting.
Context {A : Type} (key : A -> Z).

Abbreviation le := (fun x y => key x <= key y).
Abbreviation lt := (fun x y => key x < key y).

Lemma insert_by_perm x l : insert_by key x l ≡ₚ x :: l.
Proof.
  induction l as [|y l IH]; [reflexivity|]. cbn. destruct (key x <=? key y); [reflexivity|]. rewrite IH. apply Permutation_swap.
Qed.

Lemma sort_perm l : sort_by_key key l ≡ₚ l.
Proof. induction l as [|x l IH]; [reflexivity|]. cbn. now rewrite insert_by_perm, IH. Qed.

Lemma insert_by_sorted x l : StronglySorted le l -> StronglySorted le (insert_by key x l).
Proof.
  induction 1 as [|y l Hs IH Hy]; [repeat constructor|]. cbn. destruct (Z.leb_spec (key x) (key y)) as [L|L].
  - constructor; [now constructor|]. constructor; [exact L|]. eapply Forall_impl; [exact Hy|]. cbn. lia.
  - constructor; [exact IH|]. rewrite insert_by_perm. constructor; [cbn; lia | exact Hy].
Qed.

Lemma sort_sorted l : StronglySorted le (sort_by_key key l).
Proof. induction l as [|x l IH]; [constructor|]. cbn. now apply insert_by_sorted. Qed.

(** A sorted arrangement of a list with distinct keys is unique. *)
Lemma sorted_unique l : forall l', StronglySorted le l' -> StronglySorted lt l -> l' ≡ₚ l -> l' = l.
Proof.
  induction l as [|x l IH]; intros l' S' S P.
  - now apply Permutation_nil_r in P.
  - destruct l' as [|y l']; [now apply Permutation_nil_l in P|].
    apply StronglySorted_inv in S as [S Fx]. apply StronglySorted_inv in S' as [S' Fy].
    assert (y = x) as ->.
    { assert (Hy : y ∈ x :: l) by (rewrite <- P; left). apply elem_of_cons in Hy as [->|Hy]; [reflexivity|].
      assert (Hx : x ∈ y :: l') by (rewrite P; left). apply elem_of_cons in Hx as [->|Hx]; [reflexivity|].
      rewrite Forall_forall in Fx, Fy. specialize (Fx y Hy). specialize (Fy x Hx). cbn in Fx, Fy. lia. }
    f_equal. apply IH; [exact S' | exact S | now apply Permutation_cons_inv in P].
Qed.

Lemma sort_unique l l' : StronglySorted lt l -> l' ≡ₚ l -> sort_by_key key l' = l.
Proof. intros S P. apply sorted_unique; [apply sort_sorted | exact S | now rewrite sort_perm]. Qed.

Lemma sorted_NoDup l : StronglySorted lt l -> NoDup l.
Proof.
  induction 1 as [|x l S IH F]; constructor; [|exact IH]. intros H. rewrite Forall_forall in F. specialize (F x H). cbn in F. lia.
Qed.

Lemma sorted_filter (P : A -> bool) l : StronglySorted lt l -> StronglySorted lt (List.filter P l).
Proof.
  induction 1 as [|x l S IH F]; [constructor|]. cbn. destruct (P x); [|exact IH]. constructor; [exact IH|].
  rewrite Forall_forall in F |- *. intros y Hy. apply elem_of_list_filter_bool in Hy as [Hy _]. now apply F.
Qed.

Lemma sorted_omap (g : nat -> option A) n : (forall i j x y, (i < j)%nat -> g i = Some x -> g j = Some y -> key x < key y) ->
  forall k, StronglySorted lt (omap g (seq k n)).
Proof.
  intros Hg. induction n as [|n IH]; intros k; [constructor|]. cbn [seq omap list_omap]. destruct (g k) as [x|] eqn:E; [|apply IH].
  constructor; [apply IH|]. rewrite Forall_forall. intros y Hy. apply list_elem_of_omap in Hy as (j & Hj & Ej).
  apply elem_of_seq in Hj. apply (Hg k j); [lia | exact E | exact Ej].
Qed.

Lemma sorted_index (l : list A) : (forall i j x y, (i < j)%nat -> l !! i = Some x -> l !! j = Some y -> key x < key y) ->
  StronglySorted lt l.
Proof.
  induction l as [|x l IH]; intros H; constructor.
  - apply IH. intros i j y z Hij Ey Ez. apply (H (S i) (S j)); [lia | exact Ey | exact Ez].
  - rewrite Forall_forall. intros y Hy. apply list_elem_of_lookup in Hy as [j Ej]. apply (H O (S j)); [lia | reflexivity | exact Ej].
Qed.
End Sorting.

Section Facts.
Context (sizes : BloomSizes) (SIPS : nat -> Felt -> Z).
Context (range_pos : (0 < BLOCK_RANGE_BYTES sizes)%nat) (bits_pos : (0 < BITVEC_BYTES sizes)%nat).
Context (compress : list Z -> list Z) (decompress : list Z -> option (list Z)).
Context (cache_set : CacheKey -> AggregateBloom -> AggregateBloomCache -> AggregateBloomCache).

Abbreviation LEN := (AGGREGATE_BLOOM_BLOCK_RANGE_LEN sizes).
Abbreviation RANGE_LEN := (Z.of_nat LEN).

Lemma range_len_pos : 0 < RANGE_LEN.
Proof. unfold AGGREGATE_BLOOM_BLOCK_RANGE_LEN. lia. Qed.

(** ** The filter of a block has its events *)

Definition bloom_event (bf : BloomFilter) (ev : Event) : Prop :=
  holds sizes SIPS bf (ev_from_address ev) /\
  forall j key, (j < EVENT_KEY_FILTER_LIMIT)%nat -> ev_keys ev !! j = Some key -> holds sizes SIPS bf (key_with_idx j key).

Lemma bloom_event_le bf bf' ev : bloom_le bf bf' -> bloom_event bf ev -> bloom_event bf' ev.
Proof.
  intros L [Ha Hk]. split; [now apply (holds_le sizes SIPS bf)|]. intros j key Hj E. apply (holds_le sizes SIPS bf); [exact L | now apply Hk].
Qed.

Lemma bloom_events_spec evs : forall bf, length bf = BITVEC_BITS sizes ->
  exists bf', bloom_events sizes SIPS evs bf = Ret bf' /\ bloom_le bf bf' /\ forall ev, ev ∈ evs -> bloom_event bf' ev.
Proof.
  induction evs as [|ev evs IH]; intros bf L; cbn [bloom_events].
  - exists bf. split; [reflexivity|]. split; [apply bloom_le_refl|]. intros ev H. now apply elem_of_nil in H.
  - destruct (set_keys_spec sizes SIPS range_pos bits_pos (ev_keys ev) bf L) as (b1 & -> & L1 & H1). cbn [bind_outcome].
    destruct (bloom_set_spec sizes SIPS range_pos bits_pos (ev_from_address ev) b1) as (b2 & E2 & L2 & H2); [rewrite (proj1 L1); exact L|].
    unfold set_address. rewrite E2. cbn [bind_outcome].
    destruct (IH b2) as (b3 & -> & L3 & H3); [rewrite (proj1 L2), (proj1 L1); exact L|].
    exists b3. split; [reflexivity|]. split; [eapply bloom_le_trans; [|exact L3]; eapply bloom_le_trans; [exact L1 | exact L2]|].
    intros e [->|He]%elem_of_cons; [|now apply H3]. apply (bloom_event_le b2); [exact L3|]. split; [exact H2|].
    intros j key Hj Ej. apply (holds_le sizes SIPS b1); [exact L2 | now apply H1].
Qed.

(** ** The column of a block has its events *)

Abbreviation agg_ok := (aggregate_ok sizes).

Definition column_event (a : AggregateBloom) (block : Z) (ev : Event) : Prop :=
  column_has sizes SIPS a (column a block) (ev_from_address ev) = true /\
  forall j key, (j < EVENT_KEY_FILTER_LIMIT)%nat -> ev_keys ev !! j = Some key ->
    column_has sizes SIPS a (column a block) (key_with_idx j key) = true.

Lemma bloom_new_length : length (bloom_new sizes) = BITVEC_BITS sizes.
Proof. apply repeat_length. Qed.

Lemma aggregate_new_spec from : exists a, aggregate_new sizes from = Ret a /\ agg_ok a /\ from_block a = from.
Proof.
  unfold aggregate_new, from_parts. rewrite Z.eqb_refl, repeat_length, Nat.eqb_refl. cbn [andb].
  eexists. split; [reflexivity|]. split; [|reflexivity]. split; [apply repeat_length | reflexivity].
Qed.

(** Inserting the filter of a block adds its events and keeps the others. *)
Lemma insert_events evs block a : agg_ok a -> in_range a block ->
  exists a', (let! bloom := bloom_events sizes SIPS evs (bloom_new sizes) in aggregate_insert sizes bloom block a) = Ret a' /\
    agg_ok a' /\ from_block a' = from_block a /\
    (forall ev, ev ∈ evs -> column_event a' block ev) /\
    (forall b ev, in_range a b -> column_event a b ev -> column_event a' b ev).
Proof.
  intros Ok R. destruct (bloom_events_spec evs _ bloom_new_length) as (bf & -> & Lbf & Hev). cbn [bind_outcome].
  assert (L : length bf = BITVEC_BITS sizes) by (rewrite (proj1 Lbf); apply bloom_new_length).
  destruct (aggregate_insert_spec sizes range_pos bits_pos bf block a Ok R L) as (a' & -> & Ok' & Ef & B).
  exists a'. split; [reflexivity|]. split; [exact Ok'|]. split; [exact Ef|].
  assert (C : forall b, column a' b = column a b) by (intros b; unfold column; now rewrite Ef).
  assert (Hlt : forall b, in_range a b -> (column a b < LEN)%nat) by (intros b; apply (column_lt sizes range_pos bits_pos a b Ok)).
  assert (Hnew : forall item, holds sizes SIPS bf item -> column_has sizes SIPS a' (column a block) item = true).
  { intros item Hi. apply forallb_forall. intros r Hr. unfold holds in Hi. rewrite List.Forall_forall in Hi. specialize (Hi r Hr).
    pose proof (indices_loop_lt sizes SIPS range_pos bits_pos item K_NUM 0 (0, 0)) as Hlr. rewrite List.Forall_forall in Hlr.
    rewrite B by (now apply Hlr || now apply Hlt). rewrite Nat.eqb_refl. unfold has in Hi. rewrite Hi. apply orb_true_r. }
  assert (Hold : forall b item, in_range a b -> column_has sizes SIPS a (column a b) item = true ->
    column_has sizes SIPS a' (column a b) item = true).
  { intros b item Rb Hi. unfold column_has in *. rewrite forallb_forall in *. intros r Hr.
    pose proof (indices_loop_lt sizes SIPS range_pos bits_pos item K_NUM 0 (0, 0)) as Hlr. rewrite List.Forall_forall in Hlr.
    rewrite B by (now apply Hlr || now apply Hlt). now rewrite Hi. }
  split.
  - intros ev He. destruct (Hev ev He) as [Ha Hk]. unfold column_event. rewrite C. split; [now apply Hnew|].
    intros j key Hj Ej. apply Hnew. now apply Hk.
  - intros b ev Rb [Ha Hk]. unfold column_event. rewrite C. split; [now apply Hold|].
    intros j key Hj Ej. apply Hold; [exact Rb | now apply Hk].
Qed.

(** ** A check reports every block with a matching event *)

Lemma groups_match_event a block ev keys : column_event a block ev -> forall idx,
  (idx + length keys <= EVENT_KEY_FILTER_LIMIT)%nat ->
  (forall j group, keys !! j = Some group -> exists key, ev_keys ev !! (idx + j)%nat = Some key /\ key ∈ group) ->
  groups_match sizes SIPS a (column a block) idx keys = true.
Proof.
  intros [_ Hk]. induction keys as [|group keys IH]; intros idx L H; cbn [groups_match]; [reflexivity|].
  cbn [length] in L. apply andb_true_iff. split.
  - destruct (H O group eq_refl) as (key & Ek & Hg). rewrite Nat.add_0_r in Ek. apply existsb_exists.
    exists (key_with_idx idx key). split; [apply in_map; now apply list_elem_of_In|]. apply Hk; [lia | exact Ek].
  - apply IH; [lia|]. intros j g Ej. destruct (H (S j) g Ej) as (key & Ek & Hg). exists key. rewrite Nat.add_succ_comm. now split.
Qed.

Lemma combine_lookup {A B} (l : list A) (l' : list B) j x y : l !! j = Some x -> l' !! j = Some y -> In (x, y) (combine l l').
Proof.
  revert l' j. induction l as [|a l IH]; intros l' [|j] Ex Ey; try discriminate; destruct l' as [|b l']; try discriminate; cbn in *.
  - injection Ex as <-. injection Ey as <-. now left.
  - right. now apply (IH l' j).
Qed.

Lemma matches_column a block ev addresses keys : (length keys <= EVENT_KEY_FILTER_LIMIT)%nat ->
  column_event a block ev -> matches_address addresses ev = true -> matches_keys keys ev = true ->
  column_matches sizes SIPS a addresses keys (column a block).
Proof.
  intros Lk C Ma Mk. split.
  - unfold matches_address in Ma. destruct addresses as [|x l]; [now left | right].
    apply bool_decide_eq_true_1 in Ma. apply existsb_exists. exists (ev_from_address ev).
    split; [now apply list_elem_of_In | apply C].
  - intros Ne. apply (groups_match_event a block ev keys C 0); [exact Lk|]. unfold matches_keys in Mk.
    destruct (Nat.eqb_spec (length (concat keys)) 0) as [E0|_].
    { intros j group Ej. exfalso. rewrite List.Forall_forall in Ne.
      assert (Hin : In group keys) by (apply list_elem_of_In; exact (list_elem_of_lookup_2 _ _ _ Ej)).
      destruct group as [|k g]; [now apply (Ne [])|]. apply length_zero_iff_nil in E0.
      assert (X : In k (concat keys)) by (apply in_concat; exists (k :: g); split; [exact Hin | now left]). now rewrite E0 in X. }
    destruct (Nat.ltb_spec (length (ev_keys ev)) (length keys)) as [|Le]; [discriminate|].
    rewrite forallb_forall in Mk. intros j group Ej. cbn [Nat.add].
    destruct (lookup_lt_is_Some_2 (ev_keys ev) j) as [key Ek]; [apply lookup_lt_Some in Ej; lia|].
    exists key. split; [exact Ek|]. specialize (Mk _ (combine_lookup _ _ j _ _ Ek Ej)). cbn in Mk.
    destruct group as [|k g]; [|now apply bool_decide_eq_true_1 in Mk].
    rewrite List.Forall_forall in Ne. exfalso. apply (Ne []); [|reflexivity]. apply list_elem_of_In. exact (list_elem_of_lookup_2 _ _ _ Ej).
Qed.
End Facts.
