(* ===== verification/EventInv.v ===== *)
(** The invariant of the event store and its operations: adding a block,
    rebuilding the running filter, a reorg, a restart. *)

From Stdlib Require Import ZArith Lia Bool List Sorted Permutation.
From stdpp Require Import list gmap.
From S2P Require Import Prelude Bytes Felt Bloom Commitments EventStore EventFacts.
Local Open Scope Z_scope.

Section Inv.
Context (sizes : BloomSizes) (SIPS : nat -> Felt -> Z).
Context (range_pos : (0 < BLOCK_RANGE_BYTES sizes)%nat) (bits_pos : (0 < BITVEC_BYTES sizes)%nat).
Context (compress : list Z -> list Z) (decompress : list Z -> option (list Z)).
Context (zstd_law : forall bytes, decompress (compress bytes) = Some bytes).

Abbreviation LEN := (AGGREGATE_BLOOM_BLOCK_RANGE_LEN sizes).
Abbreviation RANGE_LEN := (Z.of_nat LEN).
Abbreviation agg_ok := (aggregate_ok sizes).

(** ** The invariant *)

Definition block_events (d : EventDb) (block : Z) : list Event := concat (default [] (query_events_by_block d block)).

(** The [i]-th filter: its range, and the events of the blocks in it. *)
Record filter_ok (d : EventDb) (i : Z) (a : AggregateBloom) : Prop := {
  fo_ok : agg_ok a;
  fo_from : from_block a = RANGE_LEN * i;
  fo_events : forall b ev, in_range a b -> ev ∈ block_events d b -> column_event sizes SIPS a b ev
}.

(** [fs] are the filters of the ranges that are complete, of the blocks below
    [N]. *)
Record table_ok (N : Z) (fs : list AggregateBloom) (d : EventDb) : Prop := {
  do_table : event_filters d = map (filter_row compress) fs;
  do_filters : forall i a, fs !! i = Some a -> filter_ok d (Z.of_nat i) a;
  do_count : RANGE_LEN * Z.of_nat (length fs) <= N < RANGE_LEN * (Z.of_nat (length fs) + 1)
}.

(** The database holds the blocks below [N]. *)
Record db_ok (N : Z) (fs : list AggregateBloom) (d : EventDb) : Prop := {
  do_headers : forall b, is_Some (block_headers d !! b) <-> 0 <= b < N;
  do_lengths : forall b, length (default [] (query_events_by_block d b)) = length (query_transaction_infos_by_block d b);
  do_absent : forall b, ~ 0 <= b < N -> transactions d !! b = None /\ transaction_hashes d !! b = None;
  do_known : forall b, transactions d !! b <> Some None;
  do_tables : table_ok N fs d;
  do_row : exists a n, running_event_filter d = (filter_row compress a, n) /\ agg_ok a
}.

Record store_ok (N : Z) (fs : list AggregateBloom) (s : EventStore) : Prop := {
  so_db : db_ok N fs (db s);
  so_running : filter_ok (db s) (Z.of_nat (length fs)) (running_filter (running s));
  so_next : N = 0 \/ next_block (running s) = N;
  so_cache : forall k a, cache s !! k = Some a -> k = (from_block a, to_block a) /\ a ∈ fs
}.

Lemma filter_to d i a : filter_ok d i a -> to_block a = RANGE_LEN * i + RANGE_LEN - 1.
Proof. intros [[_ E] F _]. lia. Qed.

Lemma filter_ok_events d d' i a : (forall b, in_range a b -> block_events d' b = block_events d b) ->
  filter_ok d i a -> filter_ok d' i a.
Proof. intros H [O F E]. split; [exact O | exact F |]. intros b ev R He. apply E; [exact R|]. now rewrite <- H. Qed.

Lemma no_events d b : transactions d !! b = None -> block_events d b = [].
Proof. intros E. unfold block_events, query_events_by_block. now rewrite E. Qed.

Lemma new_filter_ok d i a : agg_ok a -> from_block a = RANGE_LEN * i -> (forall b, in_range a b -> transactions d !! b = None) ->
  filter_ok d i a.
Proof.
  intros O F H. split; [exact O | exact F |]. intros b ev R He. rewrite no_events in He by now apply H. now apply elem_of_nil in He.
Qed.

Lemma load_filter_row a : agg_ok a -> load_row sizes decompress (filter_row compress a) = Ret a.
Proof.
  intros [L T]. unfold load_row, filter_row, from_existing_compressed. rewrite zstd_law. unfold from_parts.
  rewrite (proj2 (Z.eqb_eq _ _)) by (symmetry; exact T). unfold bitmap_ok in L. rewrite L, Nat.eqb_refl. now destruct a.
Qed.

(** ** A block is added *)

Lemma upsert_new row table : Forall (fun row' => row_from row' <> row_from row) table -> upsert_filter row table = table ++ [row].
Proof.
  induction 1 as [|row' table H _ IH]; [reflexivity|]. cbn. unfold same_range. destruct row as [[f t] z], row' as [[f' t'] z'].
  cbn in H. destruct (Z.eqb_spec f f'); [congruence|]. cbn [andb]. now rewrite IH.
Qed.

Lemma filters_below N fs d i a : table_ok N fs d -> fs !! i = Some a -> to_block a < RANGE_LEN * Z.of_nat (length fs).
Proof.
  intros D E. rewrite (filter_to d (Z.of_nat i) a) by exact (do_filters _ _ _ D i a E). apply lookup_lt_Some in E.
  pose proof (range_len_pos sizes range_pos bits_pos). nia.
Qed.

(** The running filter after the events of the next block. *)
Lemma upsert_events N fs s evs : table_ok N fs (db s) -> filter_ok (db s) (Z.of_nat (length fs)) (running_filter (running s)) ->
  exists s' fs' a, upsert_block_event_filters sizes SIPS compress N evs s = Ret s' /\
    block_headers (db s') = block_headers (db s) /\ transactions (db s') = transactions (db s) /\
    transaction_hashes (db s') = transaction_hashes (db s) /\ running_event_filter (db s') = running_event_filter (db s) /\
    cache s' = cache s /\ next_block (running s') = N + 1 /\ event_filters (db s') = map (filter_row compress) fs' /\
    (forall b ev, in_range a b -> column_event sizes SIPS (running_filter (running s)) b ev -> column_event sizes SIPS a b ev) /\
    (forall ev, ev ∈ evs -> column_event sizes SIPS a N ev) /\
    agg_ok a /\ from_block a = RANGE_LEN * Z.of_nat (length fs) /\
    ((N = to_block a /\ fs' = fs ++ [a] /\ agg_ok (running_filter (running s')) /\ from_block (running_filter (running s')) = N + 1) \/
     (N < to_block a /\ fs' = fs /\ running_filter (running s') = a)).
Proof.
  intros D [Ro Rf Re]. pose proof (do_count _ _ _ D) as Cn. pose proof (do_table _ _ _ D) as Ct.
  assert (R : in_range (running_filter (running s)) N) by (split; [lia | rewrite (proj2 Ro); lia]).
  destruct (insert_events sizes SIPS range_pos bits_pos evs N _ Ro R) as (a & E & Oa & Fa & Ha & Hb).
  assert (Ir : forall b, in_range a b <-> in_range (running_filter (running s)) b)
    by (intros b; unfold in_range; rewrite (proj2 Oa), (proj2 Ro), Fa; reflexivity).
  unfold upsert_block_event_filters. destruct (bloom_events sizes SIPS evs (bloom_new sizes)) as [bf|]; [|discriminate].
  cbn [bind_outcome] in E |- *. rewrite E. cbn [bind_outcome]. destruct (Z.eqb_spec N (to_block a)) as [En|Nn].
  - destruct (aggregate_new_spec sizes (N + 1)) as (a' & -> & Oa' & Fa'). cbn [bind_outcome].
    eexists _, (fs ++ [a]), a. split; [reflexivity|]. cbn.
    repeat (split; [reflexivity|]). split.
    { rewrite Ct, map_app. apply upsert_new. apply List.Forall_forall. intros row Hr. apply in_map_iff in Hr as (a1 & <- & H1).
      apply list_elem_of_In, list_elem_of_lookup in H1 as [i Ei]. cbn. pose proof (filters_below _ _ _ _ _ D Ei).
      pose proof (fo_from _ _ _ (do_filters _ _ _ D i a1 Ei)). pose proof (filter_to _ _ _ (do_filters _ _ _ D i a1 Ei)).
      pose proof (range_len_pos sizes range_pos bits_pos). lia. }
    split; [intros b ev Rb; apply Hb; now apply Ir|]. split; [exact Ha|]. split; [exact Oa|]. split; [now rewrite Fa|]. left. auto.
  - eexists _, fs, a. split; [reflexivity|]. cbn. repeat (split; [reflexivity|]). split; [exact Ct|].
    split; [intros b ev Rb; apply Hb; now apply Ir|]. split; [exact Ha|]. split; [exact Oa|]. split; [now rewrite Fa|]. right.
    split; [|auto]. destruct R as [_ R2]. rewrite (proj2 Oa), Fa in *. rewrite (proj2 Ro) in R2. lia.
Qed.

(** The hashes of a block are new. *)
Definition hashes_new (d : EventDb) (hashes : list Felt) : Prop :=
  NoDup hashes /\ Forall (fun hash => hash_known d hash = false) hashes.

Lemma insert_rows_spec N d hashes events : hashes_new d hashes -> transactions d !! N = None ->
  insert_rows N hashes events d = Ok (MkDb (block_headers d) (<[N := events]> (transactions d))
    (<[N := imap (fun idx hash => (hash, Z.of_nat idx)) hashes]> (transaction_hashes d)) (event_filters d) (running_event_filter d)).
Proof.
  intros [Hn Hf] E. unfold insert_rows. rewrite bool_decide_eq_true_2 by exact Hn. rewrite E.
  replace (existsb (hash_known d) hashes) with false; [reflexivity|]. symmetry. apply not_true_iff_false. intros X.
  apply existsb_exists in X as (h & Hh & Ek). rewrite List.Forall_forall in Hf. rewrite (Hf h Hh) in Ek. discriminate.
Qed.

(** The rows of block [N] are added to [d]. *)
Record block_added (N : Z) (hash : Felt) (evs : list (list Event)) (d d' : EventDb) : Prop := {
  ba_headers : block_headers d' = <[N := hash]> (block_headers d);
  ba_others : forall b, b <> N -> transactions d' !! b = transactions d !! b /\ transaction_hashes d' !! b = transaction_hashes d !! b;
  ba_events : default [] (query_events_by_block d' N) = evs;
  ba_infos : length evs = length (query_transaction_infos_by_block d' N);
  ba_known : transactions d' !! N <> Some None;
  ba_row : running_event_filter d' = running_event_filter d
}.

Lemma block_added_events N hash evs d d' b : block_added N hash evs d d' -> b <> N -> block_events d' b = block_events d b.
Proof. intros B Hb. unfold block_events, query_events_by_block. now rewrite (proj1 (ba_others _ _ _ _ _ B b Hb)). Qed.

(** What does not concern the filters. *)
Lemma block_added_db N fs hash evs d d' fs' : db_ok N fs d -> 0 <= N -> block_added N hash evs d d' -> table_ok (N + 1) fs' d' ->
  db_ok (N + 1) fs' d'.
Proof.
  intros D HN B T. split; [| | | | exact T |].
  - intros b. rewrite (ba_headers _ _ _ _ _ B). destruct (decide (b = N)) as [->|Hb].
    + rewrite lookup_insert_eq. split; [lia | now eexists].
    + rewrite lookup_insert_ne by congruence. rewrite (do_headers _ _ _ D). lia.
  - intros b. destruct (decide (b = N)) as [->|Hb]; [now rewrite (ba_events _ _ _ _ _ B), (ba_infos _ _ _ _ _ B)|].
    destruct (ba_others _ _ _ _ _ B b Hb) as [E1 E2]. pose proof (do_lengths _ _ _ D b) as L.
    unfold query_events_by_block, query_transaction_infos_by_block in *. now rewrite E1, E2.
  - intros b Hb. destruct (ba_others _ _ _ _ _ B b ltac:(lia)) as [-> ->]. apply (do_absent _ _ _ D). lia.
  - intros b. destruct (decide (b = N)) as [->|Hb]; [apply (ba_known _ _ _ _ _ B)|].
    rewrite (proj1 (ba_others _ _ _ _ _ B b Hb)). apply (do_known _ _ _ D).
  - rewrite (ba_row _ _ _ _ _ B). apply (do_row _ _ _ D).
Qed.

Lemma insert_transaction_rows N fs s s2 hash hashes evs : db_ok N fs (db s) -> length evs = length hashes -> hashes_new (db s) hashes ->
  block_headers (db s2) = <[N := hash]> (block_headers (db s)) -> transactions (db s2) = transactions (db s) ->
  transaction_hashes (db s2) = transaction_hashes (db s) -> running_event_filter (db s2) = running_event_filter (db s) ->
  exists d3, 
    (if match hashes with [] => match evs with [] => true | _ => false end | _ => false end then Ret (Ok s2)
     else match insert_rows N hashes (Some evs) (db s2) with
          | Ok db' => Ret (Ok (MkStore db' (running s2) (cache s2)))
          | Err e => Ret (Err e) end) = Ret (Ok (MkStore d3 (running s2) (cache s2))) /\
    block_added N hash evs (db s) d3 /\ event_filters d3 = event_filters (db s2).
Proof.
  intros D Lh [Hn Hf] H1 H2 H3 H4. destruct (do_absent _ _ _ D N ltac:(lia)) as [Tn Hhn].
  assert (Hn2 : hashes_new (db s2) hashes).
  { split; [exact Hn|]. eapply Forall_impl; [exact Hf|]. intros h. unfold hash_known. now rewrite H3. }
  rewrite insert_rows_spec by (exact Hn2 || now rewrite H2).
  destruct hashes as [|h hashes]; [destruct evs; [|discriminate Lh]|].
  - exists (db s2). split; [now destruct s2|]. split; [|reflexivity]. split.
    + exact H1.
    + intros b _. now rewrite H2, H3.
    + unfold query_events_by_block. now rewrite H2, Tn.
    + unfold query_transaction_infos_by_block. now rewrite H3, Hhn.
    + now rewrite H2, Tn.
    + exact H4.
  - eexists. split; [reflexivity|]. split; [|reflexivity]. split; cbn [block_headers transactions transaction_hashes running_event_filter].
    + exact H1.
    + intros b Hb. now rewrite !lookup_insert_ne, H2, H3 by congruence.
    + unfold query_events_by_block. cbn [transactions]. now rewrite lookup_insert_eq.
    + unfold query_transaction_infos_by_block. cbn [transaction_hashes]. rewrite lookup_insert_eq. cbn [default from_option].
      unfold id. now rewrite length_imap.
    + rewrite lookup_insert_eq. discriminate.
    + exact H4.
Qed.

Lemma add_block_ok N fs s hash hashes evs : store_ok N fs s -> length evs = length hashes -> hashes_new (db s) hashes ->
  exists s' fs', add_block sizes SIPS compress N hash hashes evs s = Ret (Ok s') /\ store_ok (N + 1) fs' s' /\
    block_added N hash evs (db s) (db s').
Proof.
  intros [D Ru Nx Ca] Lh Hn. assert (Hd : block_headers (db s) !! N = None).
  { apply eq_None_not_Some. intros X. apply (do_headers _ _ _ D) in X. lia. }
  unfold add_block, insert_block_header. rewrite Hd. set (d1 := set_headers (db s) _).
  assert (Ev1 : forall b, block_events d1 b = block_events (db s) b) by reflexivity.
  pose proof (do_tables _ _ _ D) as T. assert (T1 : table_ok N fs d1).
  { destruct T as [A B C]. split; [exact A | | exact C]. intros i a E.
    apply (filter_ok_events (db s)); [now intros | now apply B]. }
  destruct (upsert_events N fs (MkStore d1 (running s) (cache s)) (concat evs) T1 (filter_ok_events _ _ _ _ (fun b _ => Ev1 b) Ru))
    as (s2 & fs2 & a & E & H1 & H2 & H3 & H4 & H5 & H6 & H7 & K1 & K2 & Oa & Fa & K3).
  unfold insert_transaction_data. rewrite E. cbn [bind_outcome]. clear E.
  destruct (insert_transaction_rows N fs s s2 hash hashes evs D Lh Hn H1 H2 H3 H4) as (d3 & E3 & B3 & F3).
  exists (MkStore d3 (running s2) (cache s2)), fs2. split; [exact E3|]. split; [|exact B3].
  pose proof (do_count _ _ _ T) as Cn. pose proof (range_len_pos sizes range_pos bits_pos) as Lp.
  assert (Old : forall i a1, fs !! i = Some a1 -> filter_ok d3 (Z.of_nat i) a1).
  { intros i a1 Ei. apply (filter_ok_events (db s)); [|now apply (do_filters _ _ _ T)]. intros b [_ Rb].
    apply (block_added_events _ _ _ _ _ _ B3). pose proof (filters_below _ _ _ _ _ T Ei). lia. }
  assert (Fn : filter_ok d3 (Z.of_nat (length fs)) a).
  { split; [exact Oa | exact Fa |]. intros b ev Rb He. destruct (decide (b = N)) as [->|Hb].
    - apply K2. unfold block_events in He. now rewrite (ba_events _ _ _ _ _ B3) in He.
    - rewrite (block_added_events _ _ _ _ _ _ B3 Hb) in He. apply K1; [exact Rb|]. cbn [running_filter running].
      apply (fo_events _ _ _ Ru); [|exact He]. unfold in_range in *. rewrite (proj2 (fo_ok _ _ _ Ru)), (fo_from _ _ _ Ru).
      rewrite (proj2 Oa), Fa in Rb. exact Rb. }
  assert (Td : table_ok (N + 1) fs2 d3 /\ filter_ok d3 (Z.of_nat (length fs2)) (running_filter (running s2)) /\ (forall x, x ∈ fs -> x ∈ fs2)).
  { pose proof (filter_to _ _ _ Fn) as Ta. destruct K3 as [(En & -> & On & Fn')|(En & -> & Er)].
    - rewrite length_app. cbn [length]. split; [split; [now rewrite F3 | |rewrite length_app; cbn [length]; lia]|split].
      + intros i a1 [Ei|[Li Ei]]%lookup_app_Some; [now apply Old|]. apply list_lookup_singleton_Some in Ei as [Ei <-].
        now replace i with (length fs) by lia.
      + apply new_filter_ok; [exact On | lia |]. intros b [Rb _]. rewrite (proj1 (ba_others _ _ _ _ _ B3 b ltac:(lia))).
        apply (do_absent _ _ _ D). lia.
      + intros x Hx. apply elem_of_app. now left.
    - rewrite Er. split; [split; [now rewrite F3 | exact Old | lia]|]. split; [exact Fn | auto]. }
  destruct Td as (Td & Rd & Inc). split; cbn [db running cache].
  - apply (block_added_db N fs hash evs (db s)); [exact D | nia | exact B3 | exact Td].
  - exact Rd.
  - right. exact H6.
  - intros k x Hx. rewrite H5 in Hx. destruct (Ca k x Hx) as [Ek Hi]. split; [exact Ek | now apply Inc].
Qed.

(** ** Rebuilding the running filter *)

Lemma insert_rebuilt_spec d : (forall b, transactions d !! b <> Some None) -> forall bs a, agg_ok a -> Forall (in_range a) (filter (fun b => is_Some (transactions d !! b)) bs) ->
  exists a', insert_rebuilt sizes SIPS (omap (fun b => pair b <$> transactions d !! b) bs) a = Ret a' /\
    agg_ok a' /\ from_block a' = from_block a /\
    (forall b ev, in_range a b -> column_event sizes SIPS a b ev -> column_event sizes SIPS a' b ev) /\
    (forall b ev, b ∈ bs -> ev ∈ block_events d b -> column_event sizes SIPS a' b ev).
Proof.
  intros Kn. induction bs as [|b bs IH]; intros a Oa Fa; cbn [omap list_omap].
  - exists a. split; [reflexivity|]. split; [exact Oa|]. split; [reflexivity|]. split; [auto|]. intros b ev H. now apply elem_of_nil in H.
  - rewrite filter_cons in Fa. destruct (transactions d !! b) as [[evs|]|] eqn:E; cbn [fmap option_fmap option_map]; [| now destruct (Kn b) |].
    + rewrite decide_True in Fa by now eexists. apply Forall_cons in Fa as [Rb Fa]. cbn [insert_rebuilt].
      destruct (insert_events sizes SIPS range_pos bits_pos (concat evs) b a Oa Rb) as (a1 & E1 & O1 & F1 & H1 & H2).
      destruct (bloom_events sizes SIPS (concat evs) (bloom_new sizes)) as [bf|]; [|discriminate E1].
      cbn [bind_outcome] in E1 |- *. rewrite E1. cbn [bind_outcome].
      assert (Ir : forall x, in_range a1 x <-> in_range a x) by (intros x; unfold in_range; rewrite (proj2 O1), (proj2 Oa), F1; reflexivity).
      destruct (IH a1 O1) as (a2 & E2 & O2 & F2 & K1 & K2); [eapply Forall_impl; [exact Fa | intros x; apply Ir]|].
      exists a2. split; [exact E2|]. split; [exact O2|]. split; [congruence|]. split.
      * intros x ev Rx Cx. apply K1; [now apply Ir | now apply H2].
      * intros x ev [->|Hx]%elem_of_cons He; [|now apply K2]. apply K1; [now apply Ir|]. apply H1.
        unfold block_events, query_events_by_block in He. now rewrite E in He.
    + rewrite decide_False in Fa by (intros [? ?]; discriminate). destruct (IH a Oa Fa) as (a2 & E2 & O2 & F2 & K1 & K2).
      exists a2. split; [exact E2|]. split; [exact O2|]. split; [exact F2|]. split; [exact K1|].
      intros x ev [->|Hx]%elem_of_cons He; [|now apply K2]. rewrite no_events in He by exact E. now apply elem_of_nil in He.
Qed.

Lemma rebuild_from_ok N fs d latest : db_ok N fs d -> RANGE_LEN * Z.of_nat (length fs) <= latest ->
  exists r, rebuild_from sizes SIPS (RANGE_LEN * Z.of_nat (length fs)) latest d = Ret r /\
    filter_ok d (Z.of_nat (length fs)) (running_filter r) /\ next_block r = latest + 1.
Proof.
  intros D Hl. unfold rebuild_from. rewrite (proj2 (Z.ltb_ge _ _)) by exact Hl.
  destruct (aggregate_new_spec sizes (RANGE_LEN * Z.of_nat (length fs))) as (a & -> & Oa & Fa). cbn [bind_outcome].
  pose proof (do_count _ _ _ (do_tables _ _ _ D)) as Cn.
  assert (In_N : forall b, is_Some (transactions d !! b) -> 0 <= b < N).
  { intros b [x Hx]. destruct (decide (0 <= b < N)) as [H|H]; [exact H|]. destruct (do_absent _ _ _ D b H). congruence. }
  unfold rows_from. pose proof (max_key_spec (transactions d)) as Mx. destruct (max_key (transactions d)) as [last|].
  - destruct Mx as [Hlast Hmax].
    destruct (insert_rebuilt_spec d (do_known _ _ _ D) (zrange (RANGE_LEN * Z.of_nat (length fs)) last) a Oa) as (a' & -> & Oa' & Fa' & _ & K).
    { apply Forall_forall. intros b Hb. apply list_elem_of_filter in Hb as [Hs Hb]. apply elem_of_zrange in Hb.
      specialize (In_N b Hs). split; [lia | rewrite (proj2 Oa); lia]. }
    cbn [bind_outcome]. eexists. split; [reflexivity|]. cbn [running_filter next_block]. split; [|reflexivity].
    split; [exact Oa' | congruence |]. intros b ev Rb He. apply K; [|exact He]. apply elem_of_zrange. split; [destruct Rb; lia|].
    apply Hmax. destruct (transactions d !! b) as [x|] eqn:E; [now eexists|]. rewrite no_events in He by exact E. now apply elem_of_nil in He.
  - cbn [insert_rebuilt bind_outcome]. eexists. split; [reflexivity|]. cbn [running_filter next_block]. split; [|reflexivity].
    apply new_filter_ok; [exact Oa | exact Fa |]. intros b _. rewrite Mx. apply lookup_empty.
Qed.

Lemma filters_sorted N fs d : table_ok N fs d -> StronglySorted (fun x y => from_block x < from_block y) fs.
Proof.
  intros T. apply (sorted_index from_block). intros i j x y Hij Ex Ey.
  rewrite (fo_from _ _ _ (do_filters _ _ _ T i x Ex)), (fo_from _ _ _ (do_filters _ _ _ T j y Ey)).
  pose proof (range_len_pos sizes range_pos bits_pos). nia.
Qed.

Lemma rows_sorted fs : StronglySorted (fun x y => from_block x < from_block y) fs ->
  StronglySorted (fun x y => row_from x < row_from y) (map (filter_row compress) fs).
Proof.
  induction 1 as [|x l S IH F]; [constructor|]. cbn [map]. constructor; [exact IH|].
  rewrite List.Forall_forall in F |- *. intros row Hr. apply in_map_iff in Hr as (y & <- & Hy). cbn. now apply F.
Qed.

Lemma last_to_block_spec N fs d : table_ok N fs d ->
  last_to_block d = match fs with [] => None | _ => Some (RANGE_LEN * Z.of_nat (length fs) - 1) end.
Proof.
  intros T. unfold last_to_block. rewrite (do_table _ _ _ T).
  rewrite (sort_unique row_from (map (filter_row compress) fs)) by (exact (rows_sorted _ (filters_sorted _ _ _ T)) || reflexivity).
  destruct fs as [|x l] using rev_ind; [reflexivity|]. rewrite map_app. cbn [map]. rewrite last_snoc. cbn.
  assert (E : (l ++ [x]) !! length l = Some x) by (rewrite lookup_app_r, Nat.sub_diag by lia; reflexivity).
  rewrite (filter_to _ _ _ (do_filters _ _ _ T _ _ E)). rewrite length_app. cbn [length].
  replace (RANGE_LEN * Z.of_nat (length l) + RANGE_LEN - 1) with (RANGE_LEN * Z.of_nat (length l + 1) - 1) by nia.
  now destruct l.
Qed.

Lemma rebuild_ok N fs d head : db_ok N fs d -> (0 < N /\ head = N - 1) \/ (N = 0 /\ head = 0) ->
  exists r, rebuild sizes SIPS d head = Ret r /\ filter_ok d (Z.of_nat (length fs)) (running_filter r) /\ next_block r = head + 1.
Proof.
  intros D Hh. unfold rebuild. pose proof (do_tables _ _ _ D) as T. rewrite (last_to_block_spec N fs d T).
  pose proof (do_count _ _ _ T) as Cn. pose proof (range_len_pos sizes range_pos bits_pos) as Lp. destruct fs as [|x l].
  - cbn [length] in Cn. replace (head - head mod RANGE_LEN) with (RANGE_LEN * Z.of_nat (length (@nil AggregateBloom))).
    + apply (rebuild_from_ok N []); [exact D | cbn [length]; lia].
    + cbn [length]. rewrite Z.mod_small by lia. lia.
  - destruct (Z.eqb_spec (RANGE_LEN * Z.of_nat (length (x :: l)) - 1) head) as [E|Ne].
    + destruct (aggregate_new_spec sizes (head + 1)) as (a & -> & Oa & Fa). cbn [bind_outcome]. eexists. split; [reflexivity|].
      cbn [running_filter next_block]. split; [|reflexivity]. apply new_filter_ok; [exact Oa | lia |].
      intros b [Rb _]. apply (do_absent _ _ _ D). cbn [length] in *. nia.
    + rewrite Z.sub_add. apply (rebuild_from_ok N (x :: l)); [exact D | cbn [length] in *; nia].
Qed.

(** ** Reorgs *)

Lemma lookup_delete_cases {A} (m : gmap Z A) k b : delete k m !! b = if decide (b = k) then None else m !! b.
Proof. destruct (decide (b = k)) as [->|H]; [apply lookup_delete_eq | now rewrite lookup_delete_ne by congruence]. Qed.

Lemma purge_events N d b : b <> N - 1 -> block_events (purge_block (N - 1) d) b = block_events d b.
Proof.
  intros Hb. unfold block_events, query_events_by_block. cbn [purge_block delete_block transactions].
  now rewrite lookup_delete_cases, decide_False by exact Hb.
Qed.

(** The filters of the ranges below the block stay. *)
Lemma purge_keep N fs d l : table_ok N fs d -> (forall i a, l !! i = Some a -> fs !! i = Some a /\ to_block a < N - 1) ->
  List.filter (fun row => let '(from, to, _) := row in negb ((from <=? N - 1) && (N - 1 <=? to))) (map (filter_row compress) l)
    = map (filter_row compress) l /\ forall i a, l !! i = Some a -> filter_ok (purge_block (N - 1) d) (Z.of_nat i) a.
Proof.
  intros T Hl. split.
  - apply list_filter_all. intros row Hr. apply list_elem_of_In, in_map_iff in Hr as (a & <- & Ha).
    apply list_elem_of_In, list_elem_of_lookup in Ha as [i Ei]. destruct (Hl i a Ei) as [_ Lt]. cbn. lia.
  - intros i a Ei. destruct (Hl i a Ei) as [Ef Lt]. apply (filter_ok_events d); [|now apply (do_filters _ _ _ T)].
    intros b [_ Rb]. apply purge_events. lia.
Qed.

Lemma purge_table N fs d : table_ok N fs d -> 0 < N -> exists fs', table_ok (N - 1) fs' (purge_block (N - 1) d).
Proof.
  intros T HN. pose proof (do_count _ _ _ T) as Cn. pose proof (range_len_pos sizes range_pos bits_pos) as Lp.
  destruct (Z.lt_ge_cases (N - 1) (RANGE_LEN * Z.of_nat (length fs))) as [Lt|Ge].
  - destruct fs as [|x l] using rev_ind; [cbn [length] in *; lia|].
    assert (Ex : (l ++ [x]) !! length l = Some x) by (rewrite lookup_app_r, Nat.sub_diag by lia; reflexivity).
    pose proof (do_filters _ _ _ T _ _ Ex) as Fx. pose proof (filter_to _ _ _ Fx) as Tx. pose proof (fo_from _ _ _ Fx) as Frx.
    rewrite length_app in Cn, Lt. cbn [length] in Cn, Lt. destruct (purge_keep N _ d l T) as [K1 K2].
    { intros i a Ei. assert (E' : (l ++ [x]) !! i = Some a) by now apply lookup_app_l_Some. split; [exact E'|].
      rewrite (filter_to _ _ _ (do_filters _ _ _ T i a E')). apply lookup_lt_Some in Ei. nia. }
    exists l. split; [| exact K2 | nia]. cbn [purge_block delete_block event_filters].
    rewrite (do_table _ _ _ T), map_app, List.filter_app, K1. cbn [map List.filter filter_row].
    rewrite (proj2 (Z.leb_le _ _)), (proj2 (Z.leb_le _ _)) by nia. apply app_nil_r.
  - destruct (purge_keep N fs d fs T) as [K1 K2].
    { intros i a Ei. split; [exact Ei|]. pose proof (filters_below _ _ _ _ _ T Ei). lia. }
    exists fs. split; [| exact K2 | lia]. cbn [purge_block delete_block event_filters]. now rewrite (do_table _ _ _ T), K1.
Qed.

Lemma purge_block_ok N fs d : db_ok N fs d -> 0 < N -> exists fs', db_ok (N - 1) fs' (purge_block (N - 1) d).
Proof.
  intros D HN. destruct (purge_table N fs d (do_tables _ _ _ D) HN) as [fs' T']. exists fs'.
  split; [| | | | exact T' | exact (do_row _ _ _ D)]; cbn [purge_block delete_block block_headers transactions transaction_hashes].
  - intros b. rewrite lookup_delete_cases. destruct (decide (b = N - 1)) as [->|Hb].
    + split; [intros [? ?]; discriminate | lia].
    + rewrite (do_headers _ _ _ D). lia.
  - intros b. pose proof (do_lengths _ _ _ D b) as L. unfold query_events_by_block, query_transaction_infos_by_block in *.
    cbn [purge_block delete_block transactions transaction_hashes]. rewrite !lookup_delete_cases. destruct (decide (b = N - 1)); [reflexivity | exact L].
  - intros b Hb. rewrite !lookup_delete_cases. destruct (decide (b = N - 1)); [auto|]. apply (do_absent _ _ _ D). lia.
  - intros b. rewrite lookup_delete_cases. destruct (decide (b = N - 1)); [discriminate | apply (do_known _ _ _ D)].
Qed.

(** The blocks that are left are unchanged. *)
Definition same_below (t : Z) (d d' : EventDb) : Prop :=
  forall b, b < t -> block_headers d' !! b = block_headers d !! b /\ transactions d' !! b = transactions d !! b /\
    transaction_hashes d' !! b = transaction_hashes d !! b.

Lemma purge_below N t d : t <= N - 1 -> same_below t d (purge_block (N - 1) d).
Proof.
  intros Ht b Hb. cbn [purge_block delete_block block_headers transactions transaction_hashes].
  now rewrite !lookup_delete_cases, !decide_False by lia.
Qed.

Lemma purge_loop_ok t : 0 <= t -> forall fuel N fs d, db_ok N fs d -> t < N -> N <= Z.of_nat fuel ->
  exists d' fs' head, purge_loop fuel (N - 1) t d = Ret (d', head) /\ db_ok t fs' d' /\ same_below t d d' /\
    ((0 < t /\ head = t - 1) \/ (t = 0 /\ head = 0)).
Proof.
  intros Ht. induction fuel as [|fuel IH]; intros N fs d D Hlt Hf; [lia|]. cbn [purge_loop].
  rewrite (proj2 (Z.ltb_ge _ _)) by lia. destruct (purge_block_ok N fs d D ltac:(lia)) as [fs1 D1].
  pose proof (purge_below N t d ltac:(lia)) as S1. destruct (Z.eqb_spec (N - 1) 0) as [E0|N0].
  - exists (purge_block (N - 1) d), fs1, (N - 1). split; [reflexivity|]. replace t with (N - 1) at 1 by lia. split; [exact D1|].
    split; [exact S1 | right; lia].
  - destruct (Z.eq_dec (N - 1) t) as [<-|Nt].
    + exists (purge_block (N - 1) d), fs1, (N - 1 - 1). split; [|split; [exact D1 | split; [exact S1 | left; lia]]].
      destruct fuel; cbn [purge_loop]; now rewrite (proj2 (Z.ltb_lt _ _)) by lia.
    + destruct (IH (N - 1) fs1 _ D1 ltac:(lia) ltac:(lia)) as (d' & fs' & head & E & D' & S' & H).
      exists d', fs', head. split; [exact E|]. split; [exact D'|]. split; [|exact H].
      intros b Hb. destruct (S1 b Hb) as (A1 & A2 & A3), (S' b Hb) as (B1 & B2 & B3). now rewrite B1, B2, B3.
Qed.

Lemma latest_spec N fs d : db_ok N fs d -> latest_block_number d = if 0 <? N then Some (N - 1) else None.
Proof.
  intros D. unfold latest_block_number. pose proof (max_key_spec (block_headers d)) as M. destruct (max_key (block_headers d)) as [k|].
  - destruct M as [Hk Hm]. apply (do_headers _ _ _ D) in Hk. rewrite (proj2 (Z.ltb_lt _ _)) by lia. f_equal.
    assert (X : is_Some (block_headers d !! (N - 1))) by (apply (do_headers _ _ _ D); lia). specialize (Hm _ X). lia.
  - destruct (Z.ltb_spec 0 N) as [L|L]; [|reflexivity]. exfalso.
    assert (X : is_Some (block_headers d !! 0)) by (apply (do_headers _ _ _ D); lia). rewrite M, lookup_empty in X. now destruct X.
Qed.

Lemma l2_reorg_ok N fs s t : store_ok N fs s -> 0 <= t < N ->
  exists s' fs', l2_reorg sizes SIPS t s = Ret (Ok s') /\ store_ok t fs' s' /\ same_below t (db s) (db s').
Proof.
  intros S Ht. pose proof (so_db _ _ _ S) as D. unfold l2_reorg. rewrite (latest_spec _ _ _ D), (proj2 (Z.ltb_lt _ _)) by lia.
  destruct (proj2 (do_headers _ _ _ D t) Ht) as [h Eh]. rewrite Eh.
  replace ((0 <? t) && _) with false.
  2:{ symmetry. destruct (Z.ltb_spec 0 t); [|reflexivity]. cbn [andb]. rewrite bool_decide_eq_true_2; [reflexivity|].
      apply (do_headers _ _ _ D). lia. }
  rewrite Z.sub_add. destruct (purge_loop_ok t (proj1 Ht) (Z.to_nat N) N fs (db s) D (proj2 Ht) ltac:(lia)) as (d' & fs' & head & -> & D' & Sb & Hh).
  cbn [bind_outcome fst snd]. unfold reset_in_memory_state. cbn [db].
  destruct (rebuild_ok t fs' d' head D' Hh) as (r & -> & Fr & Nr). cbn [bind_outcome]. eexists _, fs'. split; [reflexivity|].
  split; [|exact Sb]. split; cbn [db running cache].
  - exact D'.
  - exact Fr.
  - destruct Hh as [[? ->]|[-> _]]; [right; lia | now left].
  - intros k a Hk. now rewrite lookup_empty in Hk.
Qed.

(** ** Restarts *)

(** The stored filter, when it is used, is the one of the database. *)
Definition row_current (N : Z) (fs : list AggregateBloom) (d : EventDb) : Prop :=
  forall a, running_event_filter d = (filter_row compress a, N) -> agg_ok a -> filter_ok d (Z.of_nat (length fs)) a.

Lemma open_store_ok N fs d : db_ok N fs d -> row_current N fs d ->
  exists s, open_store sizes SIPS decompress d = Ret s /\ store_ok N fs s /\ db s = d.
Proof.
  intros D Cu. unfold open_store, load. rewrite (latest_spec _ _ _ D).
  pose proof (do_count _ _ _ (do_tables _ _ _ D)) as Cn.
  assert (L : exists r, (match (if 0 <? N then Some (N - 1) else None) with
    | None => let! filter := aggregate_new sizes 0 in Ret (MkRunning filter 0)
    | Some latest => let '(row, next_block) := running_event_filter d in let! filter := load_row sizes decompress row in
        if next_block =? latest + 1 then Ret (MkRunning filter next_block) else rebuild sizes SIPS d latest
    end) = Ret r /\ filter_ok d (Z.of_nat (length fs)) (running_filter r) /\ (N = 0 \/ next_block r = N)).
  { destruct (Z.ltb_spec 0 N) as [HN|HN].
    - destruct (do_row _ _ _ D) as (a & n & E & Oa). rewrite E, (load_filter_row a Oa). cbn [bind_outcome].
      rewrite Z.sub_add. destruct (Z.eqb_spec n N) as [->|Hn].
      + eexists. split; [reflexivity|]. split; [now apply Cu | now right].
      + destruct (rebuild_ok N fs d (N - 1) D ltac:(lia)) as (r & -> & Fr & Nr). exists r. split; [reflexivity|].
        split; [exact Fr | right; lia].
    - destruct (aggregate_new_spec sizes 0) as (a & -> & Oa & Fa). cbn [bind_outcome]. eexists. split; [reflexivity|].
      cbn [running_filter next_block]. pose proof (range_len_pos sizes range_pos bits_pos). split; [|left; nia].
      apply new_filter_ok; [exact Oa | nia |]. intros b _. apply (do_absent _ _ _ D). lia. }
  destruct L as (r & -> & Fr & Nr). cbn [bind_outcome]. eexists. split; [reflexivity|]. split; [|reflexivity].
  split; cbn [db running cache]; [exact D | exact Fr | exact Nr |]. intros k a Hk. now rewrite lookup_empty in Hk.
Qed.

(** A graceful shutdown stores the running filter. *)
Lemma stored_ok N fs s : store_ok N fs s ->
  db_ok N fs (db (store_running_event_filter compress s)) /\ row_current N fs (db (store_running_event_filter compress s)).
Proof.
  intros [D Ru Nx Ca]. split.
  - destruct D as [A B C K [T1 T2 T3] R]. split; [exact A | exact B | exact C | exact K | |].
    + split; [exact T1 | | exact T3]. intros i a E. apply (filter_ok_events (db s)); [reflexivity | now apply T2].
    + exists (running_filter (running s)), (next_block (running s)). split; [reflexivity | exact (fo_ok _ _ _ Ru)].
  - intros a E Oa. cbn in E. unfold filter_row in E. injection E as Ef Et Eb En.
    assert (a = running_filter (running s)) as ->.
    { assert (X : bitmap a = bitmap (running_filter (running s))).
      { enough (Some (bitmap a) = Some (bitmap (running_filter (running s)))) by congruence.
        rewrite <- !zstd_law. now rewrite Eb. }
      destruct a as [bm f t], (running_filter (running s)) as [bm' f' t']; cbn in *; congruence. }
    apply (filter_ok_events (db s)); [reflexivity | exact Ru].
Qed.
End Inv.
