(* ===== verification/EventLoad.v ===== *)
(** Loading the filters of a range, from the cache and from the table, and the
    blocks that they report. *)

From Stdlib Require Import ZArith Lia Bool List Sorted Permutation.
From stdpp Require Import list sorting gmap.
From S2P Require Import Prelude Bytes Felt Bloom Commitments EventStore EventFacts EventInv.
Local Open Scope Z_scope.

Section Load.
Context (sizes : BloomSizes) (SIPS : nat -> Felt -> Z).
Context (range_pos : (0 < BLOCK_RANGE_BYTES sizes)%nat) (bits_pos : (0 < BITVEC_BYTES sizes)%nat).
Context (compress : list Z -> list Z) (decompress : list Z -> option (list Z)).
Context (zstd_law : forall bytes, decompress (compress bytes) = Some bytes).
Context (cache_set : CacheKey -> AggregateBloom -> AggregateBloomCache -> AggregateBloomCache).
Context (cache_law : forall k a m k' a', cache_set k a m !! k' = Some a' -> (k' = k /\ a' = a) \/ m !! k' = Some a').

Abbreviation LEN := (AGGREGATE_BLOOM_BLOCK_RANGE_LEN sizes).
Abbreviation RANGE_LEN := (Z.of_nat LEN).
Abbreviation store_ok := (store_ok sizes SIPS compress).
Abbreviation table_ok := (table_ok sizes SIPS compress).
Abbreviation filter_ok := (filter_ok sizes SIPS).
Abbreviation lt_from := (fun x y => from_block x < from_block y).

(** The filter meets the range. *)
Definition meets (f e : Z) (a : AggregateBloom) : bool := (from_block a <=? e) && (f <=? to_block a).

Lemma aligned_low f : 0 < RANGE_LEN -> f - f mod RANGE_LEN = RANGE_LEN * (f / RANGE_LEN).
Proof. intros H. pose proof (Z.div_mod f RANGE_LEN ltac:(lia)). lia. Qed.

Lemma aligned_high e : 0 < RANGE_LEN -> e + RANGE_LEN - e mod RANGE_LEN - 1 = RANGE_LEN * (e / RANGE_LEN) + RANGE_LEN - 1.
Proof. intros H. pose proof (Z.div_mod e RANGE_LEN ltac:(lia)). lia. Qed.

Lemma filter_unique N fs d a b : table_ok N fs d -> a ∈ fs -> b ∈ fs -> from_block a = from_block b -> a = b.
Proof.
  intros T Ha Hb E. apply list_elem_of_lookup in Ha as [i Ei], Hb as [j Ej].
  rewrite (fo_from _ _ _ _ _ (do_filters _ _ _ _ _ _ T i a Ei)), (fo_from _ _ _ _ _ (do_filters _ _ _ _ _ _ T j b Ej)) in E.
  pose proof (range_len_pos sizes range_pos bits_pos). assert (i = j) as -> by nia. congruence.
Qed.

(** The filters that the cache holds. *)
Lemma get_many_spec N fs s f e : store_ok N fs s ->
  StronglySorted lt_from (get_many sizes f e (cache s)) /\
  forall a, a ∈ get_many sizes f e (cache s) -> a ∈ fs /\ meets f e a = true.
Proof.
  intros S. pose proof (range_len_pos sizes range_pos bits_pos) as Lp. unfold get_many.
  rewrite aligned_low, aligned_high by exact Lp. cbv zeta.
  assert (K : forall i a, cache s !! (RANGE_LEN * (f / RANGE_LEN) + RANGE_LEN * Z.of_nat i,
      RANGE_LEN * (f / RANGE_LEN) + RANGE_LEN * Z.of_nat i + RANGE_LEN - 1) = Some a ->
      a ∈ fs /\ from_block a = RANGE_LEN * (f / RANGE_LEN) + RANGE_LEN * Z.of_nat i /\ to_block a = from_block a + RANGE_LEN - 1).
  { intros i a E. destruct (so_cache _ _ _ _ _ _ S _ _ E) as [Ek Ha]. injection Ek as E1 E2. split; [exact Ha|]. split; [easy | lia]. }
  split.
  - apply (sorted_omap from_block). intros i j x y Hij Ex Ey. apply K in Ex as (_ & -> & _), Ey as (_ & -> & _). nia.
  - intros a Ha. apply list_elem_of_omap in Ha as (i & Hi & E). apply elem_of_seq in Hi. apply K in E as (Ha & Ef & Et).
    split; [exact Ha|]. unfold meets. pose proof (Z.mul_div_le e RANGE_LEN ltac:(lia)).
    pose proof (Z.mul_succ_div_gt f RANGE_LEN ltac:(lia)). apply andb_true_iff. rewrite !Z.leb_le.
    set (q := (RANGE_LEN * (e / RANGE_LEN) + RANGE_LEN - 1 - RANGE_LEN * (f / RANGE_LEN)) / RANGE_LEN) in Hi.
    assert (Hq : q = e / RANGE_LEN - f / RANGE_LEN).
    { unfold q. symmetry. apply Z.div_unique_pos with (r := RANGE_LEN - 1); lia. }
    nia.
Qed.

Lemma load_rows_spec fs : Forall (aggregate_ok sizes) fs -> load_rows sizes decompress (map (filter_row compress) fs) = Ret fs.
Proof.
  induction 1 as [|a l O _ IH]; [reflexivity|]. cbn [map load_rows]. rewrite (load_filter_row sizes compress decompress zstd_law a O).
  cbn [bind_outcome]. now rewrite IH.
Qed.

Lemma filters_agg_ok N fs d : table_ok N fs d -> Forall (aggregate_ok sizes) fs.
Proof.
  intros T. apply Forall_forall. intros a Ha. apply list_elem_of_lookup in Ha as [i Ei].
  exact (fo_ok _ _ _ _ _ (do_filters _ _ _ _ _ _ T i a Ei)).
Qed.

Lemma set_many_spec filters : forall m k a, set_many cache_set filters m !! k = Some a ->
  m !! k = Some a \/ (k = (from_block a, to_block a) /\ a ∈ filters).
Proof.
  induction filters as [|x l IH]; intros m k a H; [now left|]. cbn in H. apply IH in H as [H|[-> Ha]].
  - apply cache_law in H as [[-> ->]|H]; [right | now left]. split; [reflexivity | left].
  - right. split; [reflexivity | now right].
Qed.

Lemma sorted_forall_filter (P : AggregateBloom -> bool) fs : Forall (aggregate_ok sizes) fs -> Forall (aggregate_ok sizes) (List.filter P fs).
Proof.
  rewrite !List.Forall_forall. intros H a Ha. apply filter_In in Ha as [Ha _]. now apply H.
Qed.

(** What is loaded from the table and what is cached make up the filters that
    meet the range. *)
Lemma loaded_filters N fs s f e : store_ok N fs s ->
  let cached := get_many sizes f e (cache s) in
  let loaded := List.filter (fun a => meets f e a && negb (existsb (fun c => from_block c =? from_block a) cached)) fs in
  sort_by_key from_block (loaded ++ cached) = List.filter (meets f e) fs.
Proof.
  intros S cached loaded. destruct (get_many_spec N fs s f e S) as [Sc Hc]. fold cached in Sc, Hc.
  pose proof (do_tables _ _ _ _ _ _ (so_db _ _ _ _ _ _ S)) as T. pose proof (filters_sorted _ _ range_pos bits_pos _ _ _ _ T) as Sf.
  apply sort_unique; [now apply sorted_filter|]. apply NoDup_Permutation.
  - apply NoDup_app. split; [apply (sorted_NoDup from_block); now apply sorted_filter|]. split; [|now apply (sorted_NoDup from_block)].
    intros a Ha Hac. apply elem_of_list_filter_bool in Ha as [_ Ha]. apply andb_true_iff in Ha as [_ Ha].
    apply negb_true_iff in Ha. enough (true = false) by discriminate. rewrite <- Ha. symmetry. apply existsb_exists.
    exists a. split; [now apply list_elem_of_In | apply Z.eqb_refl].
  - apply (sorted_NoDup from_block). now apply sorted_filter.
  - intros a. rewrite elem_of_app. unfold loaded. rewrite !elem_of_list_filter_bool, andb_true_iff, negb_true_iff. split.
    + intros [(Ha & Hm & _)|Ha]; [now split | now apply Hc].
    + intros [Ha Hm]. destruct (existsb (fun c => from_block c =? from_block a) cached) eqn:E; [right | now left].
      apply existsb_exists in E as (c & Hin & Ec). apply list_elem_of_In in Hin. apply Z.eqb_eq in Ec.
      rewrite <- (filter_unique _ _ _ c a T); [exact Hin | now apply Hc | exact Ha | exact Ec].
Qed.

(** The rows of the table. *)
Lemma rows_loaded N fs s f e (cached : list AggregateBloom) : store_ok N fs s ->
  sort_by_key row_from (List.filter (fun row => (row_from row <=? e) && (f <=? row_to row)
      && negb (existsb (fun filter => from_block filter =? row_from row) cached)) (event_filters (db s)))
  = map (filter_row compress) (List.filter (fun a => meets f e a && negb (existsb (fun c => from_block c =? from_block a) cached)) fs).
Proof.
  intros S. pose proof (do_tables _ _ _ _ _ _ (so_db _ _ _ _ _ _ S)) as T. rewrite (do_table _ _ _ _ _ _ T), list_filter_map.
  apply sort_unique; [|reflexivity]. apply rows_sorted. apply (sorted_filter from_block).
  exact (filters_sorted _ _ range_pos bits_pos _ _ _ _ T).
Qed.

(** The filters of the range, with the running one at the end. *)
Definition with_running (e : Z) (found : list AggregateBloom) (r : AggregateBloom) : list AggregateBloom :=
  if match last found with
     | None => true
     | Some last => (to_block last + 1 =? from_block r) && (to_block last <? e)
     end
  then found ++ [r] else found.

Lemma load_range_spec N fs s f e : store_ok N fs s ->
  exists s', load_event_filter_range sizes decompress cache_set f e s
      = Ret (with_running e (List.filter (meets f e) fs) (running_filter (running s)), s') /\
    store_ok N fs s' /\ db s' = db s /\ running s' = running s.
Proof.
  intros S. unfold load_event_filter_range. cbv zeta. pose proof (do_tables _ _ _ _ _ _ (so_db _ _ _ _ _ _ S)) as T.
  rewrite (rows_loaded N fs s f e _ S), load_rows_spec by (apply sorted_forall_filter; exact (filters_agg_ok _ _ _ T)).
  cbn [bind_outcome]. pose proof (loaded_filters N fs s f e S) as E. cbv zeta in E. rewrite E. eexists. split; [reflexivity|].
  split; [|split; reflexivity]. destruct S as [A B C K]. split; cbn [db running cache]; [exact A | exact B | exact C |].
  intros k a H. apply set_many_spec in H as [H|[-> Ha]]; [now apply K|]. split; [reflexivity|].
  now apply elem_of_list_filter_bool in Ha as [Ha _].
Qed.

Lemma last_max l x : StronglySorted lt_from l -> x ∈ l -> (forall y, y ∈ l -> from_block y <= from_block x) -> last l = Some x.
Proof.
  intros S Hx Hm. destruct l as [|z l] using rev_ind; [now apply elem_of_nil in Hx|]. rewrite last_snoc.
  apply elem_of_app in Hx as [Hx|Hx]; [|now apply list_elem_of_singleton in Hx as ->].
  assert (Hz : z ∈ l ++ [z]) by (apply elem_of_app; right; left). specialize (Hm z Hz).
  pose proof (StronglySorted_app_1_elem_of lt_from l [z] x z S Hx ltac:(left)) as X. cbn in X. lia.
Qed.

(** The filter of a block of a complete range is the last that meets a range
    which ends there. *)
Lemma last_meets N fs d f e : table_ok N fs d -> 0 <= f <= e -> e < RANGE_LEN * Z.of_nat (length fs) ->
  exists a, last (List.filter (meets f e) fs) = Some a /\ e <= to_block a /\ from_block a <= e.
Proof.
  intros T Hf He. pose proof (range_len_pos sizes range_pos bits_pos) as Lp.
  pose proof (Z.mul_div_le e RANGE_LEN ltac:(lia)) as D1. pose proof (Z.mul_succ_div_gt e RANGE_LEN ltac:(lia)) as D2.
  assert (Hi : (Z.to_nat (e / RANGE_LEN) < length fs)%nat) by nia.
  destruct (lookup_lt_is_Some_2 fs _ Hi) as [a Ea]. pose proof (do_filters _ _ _ _ _ _ T _ a Ea) as Fa.
  pose proof (fo_from _ _ _ _ _ Fa) as Ff. pose proof (filter_to _ _ range_pos bits_pos _ _ _ Fa) as Ft. rewrite Z2Nat.id in Ff, Ft by nia.
  exists a. split; [|lia]. apply last_max.
  - apply (sorted_filter from_block). exact (filters_sorted _ _ range_pos bits_pos _ _ _ _ T).
  - apply elem_of_list_filter_bool. split; [now apply list_elem_of_lookup_2 in Ea|]. unfold meets. lia.
  - intros y Hy. apply elem_of_list_filter_bool in Hy as [Hy My]. apply list_elem_of_lookup in Hy as [j Ej].
    pose proof (fo_from _ _ _ _ _ (do_filters _ _ _ _ _ _ T j y Ej)) as Fy. unfold meets in My.
    apply andb_true_iff in My as [My _]. apply Z.leb_le in My. assert (Z.of_nat j <= e / RANGE_LEN) by nia. nia.
Qed.

Lemma with_running_spec N fs s f e : store_ok N fs s -> 0 <= f -> e < N ->
  let R := with_running e (List.filter (meets f e) fs) (running_filter (running s)) in
  (exists a, last R = Some a /\ e <= to_block a) /\
  (f <= e -> R = List.filter (meets f e) (fs ++ [running_filter (running s)])).
Proof.
  intros S Hf He R. pose proof (do_tables _ _ _ _ _ _ (so_db _ _ _ _ _ _ S)) as T. pose proof (do_count _ _ _ _ _ _ T) as Cn.
  pose proof (range_len_pos sizes range_pos bits_pos) as Lp. pose proof (so_running _ _ _ _ _ _ S) as Fr. revert R.
  set (r := running_filter (running s)) in *. pose proof (fo_from _ _ _ _ _ Fr) as Rf. pose proof (filter_to _ _ range_pos bits_pos _ _ _ Fr) as Rt.
  assert (Below : forall a, a ∈ List.filter (meets f e) fs -> f <= to_block a /\ to_block a + 1 <= from_block r).
  { intros a Ha. apply elem_of_list_filter_bool in Ha as [Ha Ma]. unfold meets in Ma. apply list_elem_of_lookup in Ha as [i Ei].
    pose proof (filters_below _ _ range_pos bits_pos _ _ _ _ _ _ T Ei). lia. }
  unfold with_running. rewrite List.filter_app. cbn [List.filter].
  destruct (Z.lt_ge_cases e (from_block r)) as [L|L].
  - assert (Mr : meets f e r = false) by (unfold meets; lia). rewrite Mr.
    destruct (last (List.filter (meets f e) fs)) as [a|] eqn:El.
    + pose proof (Below a (last_Some_elem_of _ _ El)) as Ba.
      assert (Ea : e <= to_block a).
      { destruct (Z.lt_ge_cases e f) as [L1|L1]; [lia|]. destruct (last_meets N fs (db s) f e T) as (a' & E' & H' & _); [lia | lia |].
        rewrite El in E'. injection E' as <-. exact H'. }
      rewrite (proj2 (Z.ltb_ge _ _)), andb_false_r by exact Ea. split; [now exists a|]. intros _. now rewrite app_nil_r.
    + rewrite last_snoc. split; [exists r; split; [reflexivity | lia]|]. intros Hfe. exfalso.
      destruct (last_meets N fs (db s) f e T) as (a' & E' & _); [lia | lia |]. congruence.
  - assert (Last : f <= e -> f < from_block r -> exists a, last (List.filter (meets f e) fs) = Some a /\ to_block a + 1 = from_block r).
    { intros _ Hlt. destruct (last_meets N fs (db s) f (from_block r - 1) T) as (a & E & H1 & _); [lia | lia |].
      exists a. assert (X : List.filter (meets f e) fs = List.filter (meets f (from_block r - 1)) fs).
      { apply filter_ext_in. intros b Hb. apply list_elem_of_In, list_elem_of_lookup in Hb as [j Ej]. unfold meets. f_equal.
        pose proof (filters_below _ _ range_pos bits_pos _ _ _ _ _ _ T Ej).
        pose proof (proj2 (fo_ok _ _ _ _ _ (do_filters _ _ _ _ _ _ T j b Ej))). lia. }
      rewrite X. split; [exact E|]. rewrite <- X in E. pose proof (Below a (last_Some_elem_of _ _ E)). lia. }
    destruct (last (List.filter (meets f e) fs)) as [a|] eqn:El.
    + pose proof (Below a (last_Some_elem_of _ _ El)) as Ba. destruct (Z.lt_ge_cases e f) as [L1|L1].
      * rewrite (proj2 (Z.ltb_ge _ _)), andb_false_r by lia. split; [exists a; split; [exact El | lia] | lia].
      * destruct (Last L1 ltac:(lia)) as (a' & [= <-] & E'). rewrite (proj2 (Z.eqb_eq _ _)), (proj2 (Z.ltb_lt _ _)) by lia.
        cbn [andb]. rewrite last_snoc. split; [exists r; split; [reflexivity | lia]|]. intros _.
        assert (Mr : meets f e r = true) by (unfold meets; lia). now rewrite Mr.
    + rewrite last_snoc. split; [exists r; split; [reflexivity | lia]|]. intros Hfe.
      assert (Mr : meets f e r = true) by (unfold meets; lia). now rewrite Mr.
Qed.

(** ** The blocks that are reported *)

Definition block_matches (d : EventDb) (addresses : list Felt) (keys : list (list Felt)) (b : Z) : Prop :=
  exists ev, ev ∈ block_events d b /\ matches_address addresses ev = true /\ matches_keys keys ev = true.

(** The blocks of one filter. *)
Lemma check_blocks d i a addresses keys : filter_ok d i a -> (length keys <= EVENT_KEY_FILTER_LIMIT)%nat ->
  exists P, check sizes SIPS addresses keys a = Ret (List.filter P (zrange (from_block a) (to_block a))) /\
    forall b, in_range a b -> block_matches d addresses keys b -> P b = true.
Proof.
  intros F Lk. destruct (check_spec sizes SIPS range_pos bits_pos a addresses keys (fo_ok _ _ _ _ _ F)) as (P & E & HP).
  exists (fun b => P (column a b)). split.
  - rewrite E. f_equal. unfold zrange. rewrite list_filter_map, (proj2 (fo_ok _ _ _ _ _ F)).
    replace (Z.to_nat (from_block a + RANGE_LEN - 1 + 1 - from_block a)) with LEN by lia. f_equal. apply filter_ext.
    intros c. f_equal. unfold column. lia.
  - intros b Rb (ev & He & Ma & Mk). apply HP.
    + exact (column_lt sizes range_pos bits_pos a b (fo_ok _ _ _ _ _ F) Rb).
    + apply (matches_column sizes SIPS range_pos bits_pos a b ev); [exact Lk | now apply (fo_events _ _ _ _ _ F) | exact Ma | exact Mk].
Qed.

Lemma check_filters_spec d addresses keys f e : (length keys <= EVENT_KEY_FILTER_LIMIT)%nat ->
  forall gs n, (forall i a, gs !! i = Some a -> filter_ok d (n + Z.of_nat i) a) ->
  exists P blocks, check_filters sizes SIPS (List.filter (meets f e) gs) addresses keys = Ret blocks /\
    List.filter (fun b => (f <=? b) && (b <=? e)) blocks
      = List.filter P (List.filter (fun b => (f <=? b) && (b <=? e)) (zrange (RANGE_LEN * n) (RANGE_LEN * (n + Z.of_nat (length gs)) - 1))) /\
    forall b, RANGE_LEN * n <= b < RANGE_LEN * (n + Z.of_nat (length gs)) -> block_matches d addresses keys b -> P b = true.
Proof.
  intros Lk. pose proof (range_len_pos sizes range_pos bits_pos) as Lp. induction gs as [|a gs IH]; intros n H.
  - exists (fun _ => true), []. split; [reflexivity|]. cbn [length]. split; [|lia]. rewrite zrange_nil by lia. reflexivity.
  - pose proof (H O a eq_refl) as Fa. rewrite Z.add_0_r in Fa. pose proof (fo_from _ _ _ _ _ Fa) as Ff.
    pose proof (filter_to _ _ range_pos bits_pos _ _ _ Fa) as Ft.
    destruct (IH (n + 1)) as (P & bl & E & Ef & HP).
    { intros i x Ei. replace (n + 1 + Z.of_nat i) with (n + Z.of_nat (S i)) by lia. now apply H. }
    destruct (check_blocks d n a addresses keys Fa Lk) as (Pa & Ea & HPa).
    set (Q := fun b => if b <=? to_block a then Pa b else P b).
    assert (EQ : List.filter Q (List.filter (fun b => (f <=? b) && (b <=? e)) (zrange (RANGE_LEN * n) (RANGE_LEN * (n + Z.of_nat (length (a :: gs))) - 1)))
      = List.filter (fun b => (f <=? b) && (b <=? e)) (List.filter Pa (zrange (from_block a) (to_block a)))
        ++ List.filter (fun b => (f <=? b) && (b <=? e)) bl).
    { rewrite Ef, (zrange_app (RANGE_LEN * n) (to_block a)) by (cbn [length]; nia). rewrite !List.filter_app, <- Ff. f_equal.
      - rewrite list_filter_comm. f_equal. apply filter_ext_in. intros b Hb. apply list_elem_of_In, elem_of_zrange in Hb.
        unfold Q. now rewrite (proj2 (Z.leb_le _ _)) by lia.
      - replace (to_block a + 1) with (RANGE_LEN * (n + 1)) by lia. replace (n + Z.of_nat (length (a :: gs))) with (n + 1 + Z.of_nat (length gs)) by (cbn [length]; lia).
        apply filter_ext_in. intros b Hb. apply filter_In in Hb as [Hb _]. apply list_elem_of_In, elem_of_zrange in Hb.
        unfold Q. now rewrite (proj2 (Z.leb_gt _ _)) by lia. }
    exists Q. cbn [List.filter]. destruct (meets f e a) eqn:M.
    + cbn [check_filters]. rewrite Ea, E. cbn [bind_outcome]. eexists. split; [reflexivity|]. split.
      * now rewrite List.filter_app, EQ.
      * intros b Hb Mb. unfold Q. destruct (Z.leb_spec b (to_block a)).
        -- apply HPa; [split; lia | exact Mb].
        -- apply HP; [cbn [length] in Hb; nia | exact Mb].
    + exists bl. split; [exact E|]. split.
      * rewrite EQ. rewrite (list_filter_none (fun b => (f <=? b) && (b <=? e)) (List.filter Pa _)); [reflexivity|].
        intros b Hb. apply elem_of_list_filter_bool in Hb as [Hb _]. apply elem_of_zrange in Hb. unfold meets in M. lia.
      * intros b Hb Mb. unfold Q. destruct (Z.leb_spec b (to_block a)).
        -- apply HPa; [split; lia | exact Mb].
        -- apply HP; [cbn [length] in Hb; nia | exact Mb].
Qed.

Lemma check_filters_total R addresses keys : Forall (aggregate_ok sizes) R -> exists blocks, check_filters sizes SIPS R addresses keys = Ret blocks.
Proof.
  induction 1 as [|a R O _ [bl IH]]; [now exists []|]. cbn [check_filters].
  destruct (check_spec sizes SIPS range_pos bits_pos a addresses keys O) as (P & -> & _). rewrite IH. cbn [bind_outcome]. now eexists.
Qed.

Lemma all_filters_ok N fs s : store_ok N fs s -> forall i a, (fs ++ [running_filter (running s)]) !! i = Some a -> filter_ok (db s) (0 + Z.of_nat i) a.
Proof.
  intros S i a E. rewrite Z.add_0_l. apply lookup_app_Some in E as [E|[L E]].
  - exact (do_filters _ _ _ _ _ _ (do_tables _ _ _ _ _ _ (so_db _ _ _ _ _ _ S)) i a E).
  - apply list_lookup_singleton_Some in E as [E <-]. replace i with (length fs) by lia. exact (so_running _ _ _ _ _ _ S).
Qed.

(** The blocks that a query scans: a part of its range, in order, with every
    block that has a matching event. *)
Lemma blocks_to_scan_spec N fs s f e addresses keys : store_ok N fs s -> 0 <= f -> e < N -> (length keys <= EVENT_KEY_FILTER_LIMIT)%nat ->
  exists R s' last_filter blocks P, load_event_filter_range sizes decompress cache_set f e s = Ret (R, s') /\
    store_ok N fs s' /\ db s' = db s /\ running s' = running s /\
    last R = Some last_filter /\ e <= to_block last_filter /\
    check_filters sizes SIPS R addresses keys = Ret blocks /\
    List.filter (fun b => (f <=? b) && (b <=? e)) blocks = List.filter P (zrange f e) /\
    forall b, f <= b <= e -> block_matches (db s) addresses keys b -> P b = true.
Proof.
  intros S Hf He Lk. destruct (load_range_spec N fs s f e S) as (s' & E & S' & Ed & Er).
  destruct (with_running_spec N fs s f e S Hf He) as [(a & La & Ha) Eq]. pose proof (do_count _ _ _ _ _ _ (do_tables _ _ _ _ _ _ (so_db _ _ _ _ _ _ S))) as Cn.
  set (R := with_running _ _ _) in *. exists R, s', a. destruct (Z.lt_ge_cases e f) as [L|L].
  - destruct (check_filters_total R addresses keys) as [bl Eb].
    { apply Forall_forall. intros x Hx. assert (Hin : x ∈ fs ++ [running_filter (running s)]).
      { unfold R, with_running in Hx. destruct (match last _ with Some _ => _ | None => _ end);
          [apply elem_of_app in Hx as [Hx|Hx]; [|apply elem_of_app; now right]|];
          apply elem_of_list_filter_bool in Hx as [Hx _]; apply elem_of_app; now left. }
      apply list_elem_of_lookup in Hin as [i Ei]. exact (fo_ok _ _ _ _ _ (all_filters_ok N fs s S i x Ei)). }
    exists bl, (fun _ => true). repeat (split; [assumption|]). split; [|intros; lia].
    rewrite (zrange_nil f e) by exact L. apply list_filter_none. intros b _. lia.
  - destruct (check_filters_spec (db s) addresses keys f e Lk _ 0 (all_filters_ok N fs s S)) as (P & bl & Eb & Ef & HP).
    exists bl, P. rewrite <- (Eq L) in Eb. rewrite length_app in Ef, HP. cbn [length] in Ef, HP. repeat (split; [assumption|]). split.
    + rewrite Ef, zrange_within by lia. reflexivity.
    + intros b Hb. apply HP. lia.
Qed.
End Load.
