(* ===== verification/EventPage.v ===== *)
(** Pages of events: a page together with the rest that its token denotes is
    the list of all matching events. *)

From Stdlib Require Import ZArith Lia Bool List Sorted Permutation.
From stdpp Require Import list sorting gmap.
From S2P Require Import Prelude Bytes Felt Bloom Commitments EventStore EventFacts EventInv EventLoad.
Local Open Scope Z_scope.

(** ** The matching events *)

Section Matching.
Context (d : EventDb) (addresses : list Felt) (keys : list (list Felt)).

Definition matching (b : Z) : list EmittedEvent :=
  match block_headers d !! b, events_for_block d b with
  | Some hash, Ok (Some events) => map (emit b hash) (selected addresses keys events)
  | _, _ => []
  end.

Definition matching_range (f e : Z) : list EmittedEvent := flat_map matching (zrange f e).

Lemma matching_block b ev : ev ∈ matching b -> em_block_number ev = b.
Proof.
  unfold matching. destruct (block_headers d !! b); [|intros H; now apply elem_of_nil in H].
  destruct (events_for_block d b) as [[evs|]|]; try (intros H; now apply elem_of_nil in H).
  rewrite list_elem_of_In, in_map_iff. intros ([event [idx info]] & <- & _). reflexivity.
Qed.

Lemma matching_range_app f m e : f <= m + 1 -> m <= e -> matching_range f e = matching_range f m ++ matching_range (m + 1) e.
Proof. intros Hf He. unfold matching_range. now rewrite (zrange_app f m e), flat_map_app by assumption. Qed.

Lemma matching_range_cons f e : f <= e -> matching_range f e = matching f ++ matching_range (f + 1) e.
Proof. intros H. unfold matching_range. now rewrite zrange_cons by exact H. Qed.

Lemma matching_range_nil f e : e < f -> matching_range f e = [].
Proof. intros H. unfold matching_range. now rewrite zrange_nil by exact H. Qed.

Lemma matching_range_block f e ev : ev ∈ matching_range f e -> f <= em_block_number ev <= e.
Proof.
  unfold matching_range. rewrite list_elem_of_In, in_flat_map. intros (b & Hb & He). apply list_elem_of_In, elem_of_zrange in Hb.
  apply list_elem_of_In, matching_block in He. lia.
Qed.

Abbreviation by_block := (fun x y => em_block_number x <= em_block_number y).

Lemma same_block_sorted l b : (forall x, x ∈ l -> em_block_number x = b) -> StronglySorted by_block l.
Proof.
  induction l as [|x l IH]; intros H; constructor.
  - apply IH. intros y Hy. apply H. now right.
  - apply Forall_forall. intros y Hy. rewrite (H x), (H y); [lia | now right | left].
Qed.

Lemma matching_range_sorted f e : StronglySorted by_block (matching_range f e).
Proof.
  destruct (Z.lt_ge_cases e f) as [L|L]; [rewrite matching_range_nil by exact L; constructor|].
  remember (Z.to_nat (e - f)) as n eqn:En. revert f L En. induction n as [|n IH]; intros f L En.
  - rewrite matching_range_cons, (matching_range_nil (f + 1)), app_nil_r by lia. apply (same_block_sorted _ f), matching_block.
  - rewrite matching_range_cons by lia. apply StronglySorted_app. split; [|split].
    + intros x y Hx Hy. apply matching_block in Hx. apply matching_range_block in Hy. lia.
    + apply (same_block_sorted _ f), matching_block.
    + apply IH; lia.
Qed.

(** ** The token of a full page *)

Lemma trailing_app b l1 l2 : (forall x, x ∈ l1 -> em_block_number x = b) -> (forall x, head l2 = Some x -> em_block_number x <> b) ->
  trailing b (l1 ++ l2) = length l1.
Proof.
  intros H1 H2. induction l1 as [|x l1 IH]; cbn [app trailing length].
  - destruct l2 as [|y l2]; [reflexivity|]. cbn. destruct (Z.eqb_spec (em_block_number y) b); [now apply H2 in e | reflexivity].
  - rewrite (proj2 (Z.eqb_eq _ _)) by (apply H1; left). f_equal. apply IH. intros y Hy. apply H1. now right.
Qed.

Lemma sorted_last l x : StronglySorted by_block l -> last l = Some x -> forall y, y ∈ l -> em_block_number y <= em_block_number x.
Proof.
  intros S L y Hy. destruct l as [|z l] using rev_ind; [discriminate|]. rewrite last_snoc in L. injection L as ->.
  apply elem_of_app in Hy as [Hy|Hy]; [|apply list_elem_of_singleton in Hy as ->; lia].
  apply (StronglySorted_app_1_elem_of by_block l [x] y x S Hy). left.
Qed.

Lemma sorted_take l n : StronglySorted by_block l -> StronglySorted by_block (take n l).
Proof. intros S. rewrite <- (take_drop n l) in S. now apply StronglySorted_app_1_l in S. Qed.

Lemma elem_of_take_1 {A} (l : list A) n x : x ∈ take n l -> x ∈ l.
Proof. intros H. rewrite <- (take_drop n l). apply elem_of_app. now left. Qed.

Lemma elem_of_drop_1 {A} (l : list A) n x : x ∈ drop n l -> x ∈ l.
Proof. intros H. rewrite <- (take_drop n l). apply elem_of_app. now right. Qed.

Lemma add_u64_ok a b : a + b < W64 -> add_u64 a b = Ret (a + b).
Proof. intros H. unfold add_u64. now rewrite (proj2 (Z.ltb_lt _ _)). Qed.

Lemma add_usize_ok a b : Z.of_nat a + Z.of_nat b < W64 -> add_usize a b = Ret (a + b)%nat.
Proof. intros H. unfold add_usize. now rewrite (proj2 (Z.ltb_lt _ _)). Qed.

(** The token that [continuation_token] makes of the events of a page and one
    more, with the offset before the extra event. *)
Lemma token_new_block pre tl lb previous : pre <> [] -> (forall x, x ∈ pre -> em_block_number x < lb) -> tl <> [] ->
  (forall x, x ∈ tl -> em_block_number x = lb) ->
  continuation_token (pre ++ tl) previous = Ret (Some (MkToken lb (length tl))).
Proof.
  intros Np Hp Nt Ht. unfold continuation_token. destruct tl as [|x tl] using rev_ind; [easy|]. clear IHtl. rewrite app_assoc, last_snoc.
  rewrite (Ht x) by (apply elem_of_app; right; left). rewrite <- app_assoc, rev_app_distr, trailing_app.
  - rewrite length_rev, !length_app. cbn [length]. rewrite (proj2 (Nat.leb_le _ _)) by lia.
    rewrite (proj2 (Nat.ltb_lt _ _)) by (destruct pre; [easy | cbn [length]; lia]). reflexivity.
  - intros y Hy. apply Ht. apply list_elem_of_In. now apply in_rev, list_elem_of_In.
  - intros y Hy. destruct pre as [|z pre] using rev_ind; [easy|]. rewrite rev_app_distr in Hy. cbn in Hy. injection Hy as <-.
    specialize (Hp z). rewrite elem_of_app in Hp. specialize (Hp ltac:(right; left)). lia.
Qed.

Lemma token_same_block l lb previous : l <> [] -> (forall x, x ∈ l -> em_block_number x = lb) ->
  Z.of_nat (ct_offset previous) + Z.of_nat (length l) < W64 ->
  continuation_token l previous = Ret (Some (MkToken (ct_block_number previous) (ct_offset previous + length l))).
Proof.
  intros Nl Hl Hr. unfold continuation_token. destruct l as [|x l] using rev_ind; [easy|]. clear IHl. rewrite last_snoc.
  rewrite (Hl x) by (apply elem_of_app; right; left). rewrite <- (app_nil_r (rev (l ++ [x]))), trailing_app.
  - rewrite length_rev. rewrite (proj2 (Nat.leb_le _ _)) by (rewrite length_app; cbn [length]; lia).
    now rewrite (proj2 (Nat.ltb_ge _ _)), add_usize_ok by lia.
  - intros y Hy. apply Hl. apply list_elem_of_In. now apply in_rev, list_elem_of_In.
  - intros y Hy. discriminate.
Qed.

(** The token denotes the events after the page. *)
Definition denotes_rest (t : ContinuationToken) (f e : Z) (offset ps : nat) : Prop :=
  f <= ct_block_number t <= e /\
  drop (ct_offset t) (matching_range (ct_block_number t) e) = drop ps (drop offset (matching_range f e)) /\
  ((ct_block_number t = f /\ ct_offset t = offset + ps)%nat \/
   (f < ct_block_number t /\ (ct_offset t <= length (matching (ct_block_number t)))%nat)).

Lemma first_block_events lb e n : lb <= e -> (forall x, x ∈ take n (matching_range lb e) -> em_block_number x = lb) ->
  (length (take n (matching_range lb e)) <= length (matching lb))%nat.
Proof.
  intros He H. rewrite matching_range_cons in * by exact He. destruct (Nat.le_gt_cases (length (take n (matching lb ++ matching_range (lb + 1) e))) (length (matching lb))) as [L|L]; [exact L|].
  exfalso. rewrite length_take, length_app in L.
  destruct (lookup_lt_is_Some_2 (matching lb ++ matching_range (lb + 1) e) (length (matching lb))) as [x Ex]; [rewrite length_app; lia|].
  assert (Hx : x ∈ take n (matching lb ++ matching_range (lb + 1) e)).
  { apply list_elem_of_lookup. exists (length (matching lb)). now rewrite lookup_take_lt by lia. }
  specialize (H x Hx). rewrite lookup_app_r, Nat.sub_diag in Ex by lia. apply list_elem_of_lookup_2, matching_range_block in Ex. lia.
Qed.

(** The page whose events are all of one block. *)
Lemma full_page_same cs f e lb : (1 <= page_size cs)%nat -> Z.of_nat (length (matching_range f e)) < W64 -> f <= e ->
  let X := drop (c_offset cs) (matching_range f e) in (page_size cs < length X)%nat ->
  (forall y, y ∈ take (page_size cs + 1) X -> em_block_number y = lb) ->
  exists t, full_page cs f (take (page_size cs + 1) X) = Ret (MkPage (take (page_size cs) X) (Some t)) /\
    denotes_rest t f e (c_offset cs) (page_size cs).
Proof.
  intros Hps Hr Hfe X HX Hall. unfold full_page. assert (L : length (take (page_size cs + 1) X) = (page_size cs + 1)%nat) by (rewrite length_take; lia).
  rewrite (token_same_block _ lb); [| intros E1; rewrite E1 in L; cbn in L; lia | exact Hall
    | cbn [ct_offset]; unfold X in HX; rewrite length_drop in HX; lia].
  cbn [bind_outcome unwrap_option ct_offset ct_block_number]. rewrite L, (proj2 (Nat.leb_le _ _)) by lia.
  rewrite take_take. replace (page_size cs `min` (page_size cs + 1))%nat with (page_size cs) by lia.
  eexists. split; [reflexivity|]. unfold denotes_rest. cbn [ct_offset ct_block_number]. split; [lia|].
  rewrite drop_drop. replace (c_offset cs + (page_size cs + 1) - 1)%nat with (c_offset cs + page_size cs)%nat by lia.
  split; [reflexivity | left; auto].
Qed.

(** The page that reaches a new block [lb]. *)
Lemma full_page_new cs f e lb pre : (1 <= page_size cs)%nat -> f <= lb <= e ->
  let X := drop (c_offset cs) (matching_range f e) in (page_size cs < length X)%nat ->
  X = pre ++ matching_range lb e -> pre <> [] -> (forall y, y ∈ pre -> f <= em_block_number y < lb) ->
  (length pre <= page_size cs)%nat ->
  (forall y, y ∈ take (page_size cs + 1 - length pre) (matching_range lb e) -> em_block_number y = lb) ->
  exists t, full_page cs f (take (page_size cs + 1) X) = Ret (MkPage (take (page_size cs) X) (Some t)) /\
    denotes_rest t f e (c_offset cs) (page_size cs).
Proof.
  intros Hps Hlb X HX EX NA HA Lp Ht. unfold full_page.
  assert (EE : take (page_size cs + 1) X = pre ++ take (page_size cs + 1 - length pre) (matching_range lb e)) by (rewrite EX, take_app_ge by lia; reflexivity).
  set (tl := take (page_size cs + 1 - length pre) (matching_range lb e)) in *.
  assert (Lt : length tl = (page_size cs + 1 - length pre)%nat) by (unfold tl; rewrite EX, length_app in HX; rewrite length_take; lia).
  assert (Tk : forall previous, continuation_token (take (page_size cs + 1) X) previous = Ret (Some (MkToken lb (length tl)))).
  { intros previous. rewrite EE. apply token_new_block; [exact NA | intros y Hy; now apply HA | intros E1; rewrite E1 in Lt; cbn in Lt; lia | exact Ht]. }
  rewrite Tk.
  cbn [bind_outcome unwrap_option ct_offset ct_block_number]. rewrite (proj2 (Nat.leb_le _ _)) by lia.
  rewrite take_take. replace (page_size cs `min` (page_size cs + 1))%nat with (page_size cs) by lia.
  eexists. split; [reflexivity|]. unfold denotes_rest. cbn [ct_offset ct_block_number]. split; [lia|]. split.
  - fold X. rewrite EX, drop_app_ge by lia. f_equal. lia.
  - right. destruct (last pre) as [y|] eqn:Ey; [|now apply last_None in Ey].
    apply last_Some_elem_of, HA in Ey. split; [lia|].
    pose proof (first_block_events lb e _ ltac:(lia) Ht) as L. fold tl in L. lia.
Qed.

Lemma full_page_spec cs f e : (1 <= page_size cs)%nat -> Z.of_nat (length (matching_range f e)) < W64 ->
  let X := drop (c_offset cs) (matching_range f e) in (page_size cs < length X)%nat ->
  exists t, full_page cs f (take (page_size cs + 1) X) = Ret (MkPage (take (page_size cs) X) (Some t)) /\
    denotes_rest t f e (c_offset cs) (page_size cs).
Proof.
  intros Hps Hr X HX. set (E := take (page_size cs + 1) X).
  assert (LE : length E = (page_size cs + 1)%nat) by (unfold E; rewrite length_take; lia).
  destruct (last E) as [x|] eqn:Lx; [|apply last_None in Lx; rewrite Lx in LE; cbn in LE; lia].
  set (lb := em_block_number x). assert (HxX : x ∈ matching_range f e).
  { apply (elem_of_drop_1 _ (c_offset cs)). apply (elem_of_take_1 _ (page_size cs + 1)). now apply last_Some_elem_of. }
  pose proof (matching_range_block _ _ _ HxX) as Hlb. fold lb in Hlb.
  assert (Sx : StronglySorted (fun x y => em_block_number x <= em_block_number y) E).
  { apply sorted_take. unfold X. pose proof (matching_range_sorted f e) as S. rewrite <- (take_drop (c_offset cs) (matching_range f e)) in S.
    now apply StronglySorted_app_1_r in S. }
  pose proof (sorted_last E x Sx Lx) as Le. fold lb in Le.
  assert (EX : X = drop (c_offset cs) (matching_range f (lb - 1))
      ++ drop (c_offset cs - length (matching_range f (lb - 1))) (matching_range lb e)).
  { unfold X. rewrite <- drop_app. rewrite (matching_range_app f (lb - 1) e), Z.sub_add by lia. reflexivity. }
  set (pre := drop (c_offset cs) (matching_range f (lb - 1))) in *.
  assert (HA : forall y, y ∈ pre -> f <= em_block_number y < lb).
  { intros y Hy. apply elem_of_drop_1, matching_range_block in Hy. lia. }
  assert (HB : forall y, y ∈ matching_range lb e -> lb <= em_block_number y) by (intros y Hy; apply matching_range_block in Hy; lia).
  destruct (decide (pre = [])) as [EA|NA].
  - apply (full_page_same cs f e lb); [exact Hps | exact Hr | lia | exact HX |].
    intros y Hy. pose proof (Le y Hy). apply elem_of_take_1 in Hy. fold X in Hy. rewrite EX, EA in Hy. apply elem_of_drop_1, HB in Hy. lia.
  - assert (E0 : (c_offset cs - length (matching_range f (lb - 1)) = 0)%nat).
    { destruct (Nat.le_gt_cases (length (matching_range f (lb - 1))) (c_offset cs)); [|lia]. unfold pre in NA. now rewrite drop_ge in NA. }
    rewrite E0, drop_0 in EX. assert (Lp : (length pre <= page_size cs)%nat).
    { destruct (Nat.le_gt_cases (length pre) (page_size cs)) as [|Ge]; [assumption|]. exfalso.
      assert (Hx : x ∈ pre). { apply (elem_of_take_1 _ (page_size cs + 1)). unfold E in Lx. rewrite EX, take_app_le in Lx by lia. now apply last_Some_elem_of. }
      apply HA in Hx. unfold lb in Hx. lia. }
    apply (full_page_new cs f e lb pre); [exact Hps | lia | exact HX | exact EX | exact NA | exact HA | exact Lp |].
    intros y Hy. assert (HyE : y ∈ E) by (unfold E; rewrite EX, take_app_ge by lia; apply elem_of_app; now right).
    specialize (Le y HyE). apply elem_of_take_1, HB in Hy. lia.
Qed.
End Matching.

(** ** The scan *)

Lemma skip_while_spec {A} (l : list A) : forall offset, skip_while offset l = ((offset - length l)%nat, drop offset l).
Proof.
  induction l as [|x l IH]; intros offset; cbn [skip_while length].
  - now rewrite drop_nil, Nat.sub_0_r.
  - destruct offset as [|offset]; [reflexivity|]. cbn [Nat.ltb Nat.leb drop]. rewrite Nat.sub_succ, Nat.sub_0_r, IH. reflexivity.
Qed.

Section Pages.
Context (sizes : BloomSizes) (SIPS : nat -> Felt -> Z).
Context (range_pos : (0 < BLOCK_RANGE_BYTES sizes)%nat) (bits_pos : (0 < BITVEC_BYTES sizes)%nat).
Context (compress : list Z -> list Z) (decompress : list Z -> option (list Z)).
Context (zstd_law : forall bytes, decompress (compress bytes) = Some bytes).
Context (cache_set : CacheKey -> AggregateBloom -> AggregateBloomCache -> AggregateBloomCache).
Context (cache_law : forall k a m k' a', cache_set k a m !! k' = Some a' -> (k' = k /\ a' = a) \/ m !! k' = Some a').

Abbreviation store_ok := (store_ok sizes SIPS compress).
Abbreviation db_ok := (db_ok sizes SIPS compress).

Lemma events_of_block N fs d b : db_ok N fs d -> 0 <= b < N ->
  exists hash, block_headers d !! b = Some hash /\
    events_for_block d b = Ok (Some (zip (query_transaction_infos_by_block d b) (default [] (query_events_by_block d b)))).
Proof.
  intros D Hb. destruct (proj2 (do_headers _ _ _ _ _ _ D b) Hb) as [hash E]. exists hash. split; [exact E|].
  unfold events_for_block. rewrite E. cbv zeta. now rewrite (do_lengths _ _ _ _ _ _ D b), Nat.eqb_refl.
Qed.

(** A block without a matching event contributes nothing. *)
Lemma matching_nil d addresses keys b : ~ block_matches d addresses keys b -> matching d addresses keys b = [].
Proof.
  intros Hn. unfold matching. destruct (block_headers d !! b) as [hash|] eqn:Eh; [|reflexivity].
  destruct (events_for_block d b) as [[evs|]|] eqn:Ee; try reflexivity.
  unfold selected. rewrite list_filter_comm. destruct (List.filter _ (List.filter _ _)) as [|[ev idx] l] eqn:E; [reflexivity|].
  exfalso. apply Hn. assert (X : (ev, idx) ∈ (ev, idx) :: l) by left. rewrite <- E in X.
  apply elem_of_list_filter_bool in X as [X Ma]. apply elem_of_list_filter_bool in X as [X Mk]. exists ev.
  split; [|split; [exact Ma | exact Mk]]. apply list_elem_of_In, in_flat_map in X as ([info es] & Hin & Hnum).
  unfold events_for_block in Ee. rewrite Eh in Ee. cbv zeta in Ee. destruct (_ =? _)%nat; [|discriminate]. injection Ee as <-.
  apply in_combine_r in Hin. apply list_elem_of_In, elem_of_lookup_imap in Hnum as (j & y & [= -> ->] & Ej). cbn in Ej.
  apply list_elem_of_In, in_concat. exists es. split; [exact Hin | apply list_elem_of_In; exact (list_elem_of_lookup_2 _ _ _ Ej)].
Qed.

Lemma scanned_events d addresses keys P bs : (forall b, b ∈ bs -> block_matches d addresses keys b -> P b = true) ->
  flat_map (matching d addresses keys) (List.filter P bs) = flat_map (matching d addresses keys) bs.
Proof.
  induction bs as [|b bs IH]; intros H; [reflexivity|]. cbn [List.filter flat_map].
  assert (IH' : flat_map (matching d addresses keys) (List.filter P bs) = flat_map (matching d addresses keys) bs)
    by (apply IH; intros x Hx; apply H; now right).
  destruct (P b) eqn:E; cbn [flat_map]; rewrite IH'; [reflexivity|]. rewrite matching_nil; [reflexivity|].
  intros M. rewrite H in E; [discriminate | left | exact M].
Qed.

Lemma scan_blocks_spec N fs d cs from : db_ok N fs d -> forall blocks offset emitted, Forall (fun b => 0 <= b < N) blocks ->
  Z.of_nat (page_size cs) + 1 < W64 -> (length emitted <= page_size cs)%nat ->
  let total := emitted ++ drop offset (flat_map (matching d (contract_addresses cs) (c_keys cs)) blocks) in
  scan_blocks blocks cs from d offset emitted
  = if (length total <=? page_size cs)%nat then Ret (Ok (Exhausted total))
    else let! page := full_page cs from (take (page_size cs + 1) total) in Ret (Ok (Page page)).
Proof.
  intros D. induction blocks as [|b blocks IH]; intros offset emitted Hb Hpr Le; cbv zeta; cbn [scan_blocks flat_map].
  - rewrite drop_nil, app_nil_r. now rewrite (proj2 (Nat.leb_le _ _)) by exact Le.
  - apply Forall_cons in Hb as [Hb Hbs]. destruct (events_of_block N fs d b D Hb) as (hash & Eh & Ee).
    rewrite add_usize_ok by lia. cbn [bind_outcome].
    rewrite Eh, Ee. cbn [unwrap_option bind_outcome]. rewrite skip_while_spec. set (sel := selected _ _ _).
    assert (EM : matching d (contract_addresses cs) (c_keys cs) b = map (emit b hash) sel) by (unfold matching; now rewrite Eh, Ee).
    rewrite EM, drop_app, length_map. set (rest := drop (offset - length sel) _).
    assert (Ed : drop offset (map (emit b hash) sel) = map (emit b hash) (drop offset sel)) by (apply skipn_map).
    rewrite Ed. set (new := map (emit b hash) (drop offset sel)).
    assert (En : map (emit b hash) (take (page_size cs + 1 - length emitted) (drop offset sel)) = take (page_size cs + 1 - length emitted) new)
      by (symmetry; apply firstn_map).
    rewrite En. destruct (Nat.ltb_spec (page_size cs) (length (emitted ++ take (page_size cs + 1 - length emitted) new))) as [L|L].
    + rewrite length_app, length_take in L. rewrite (proj2 (Nat.leb_gt _ _)) by (rewrite !length_app; lia).
      rewrite take_app_ge, take_app_le by lia. reflexivity.
    + rewrite length_app, length_take in L. rewrite (take_ge new) by lia.
      rewrite (IH (offset - length sel)%nat (emitted ++ new) Hbs Hpr) by (rewrite length_app; lia).
      fold rest. now rewrite app_assoc.
Qed.

Lemma scan_range_spec N fs d addresses keys : db_ok N fs d -> forall blocks emitted, Forall (fun b => 0 <= b < N) blocks ->
  scan_range blocks addresses keys d emitted = Ok (emitted ++ flat_map (matching d addresses keys) blocks).
Proof.
  intros D. induction blocks as [|b blocks IH]; intros emitted Hb; cbn [scan_range flat_map]; [now rewrite app_nil_r|].
  apply Forall_cons in Hb as [Hb Hbs]. destruct (events_of_block N fs d b D Hb) as (hash & Eh & Ee). rewrite Eh, Ee, IH by exact Hbs.
  unfold matching at 2. now rewrite Eh, Ee, app_assoc.
Qed.

(** ** A page *)

Definition query_from (cs : EventConstraints) : Z := default 0 (c_from_block cs).
Definition query_to (N : Z) (cs : EventConstraints) : Z :=
  match c_to_block cs with Some to => Z.min to (N - 1) | None => N - 1 end.

Abbreviation found d cs := (matching_range d (contract_addresses cs) (c_keys cs)).

(** The end of the range of one query. *)
Definition query_limit (N limit : Z) (cs : EventConstraints) : Z := Z.min (query_to N cs) (query_from cs + limit - 1).

(** The queries for which the theorem on pages holds: a page size of at least
    one, at most 16 groups of keys, a positive limit, and sums that fit their
    64 bits, of the blocks with the limit, of the page size with one, and of the
    matching events. *)
Record query_ok (N limit : Z) (d : EventDb) (cs : EventConstraints) : Prop := {
  qo_page : (1 <= page_size cs)%nat;
  qo_page_room : Z.of_nat (page_size cs) + 1 < W64;
  qo_room : Z.max (query_from cs) N + limit < W64;
  qo_events : Z.of_nat (length (found d cs (query_from cs) (query_to N cs))) < W64;
  qo_keys : (length (c_keys cs) <= EVENT_KEY_FILTER_LIMIT)%nat;
  qo_from : 0 <= query_from cs;
  qo_limit : 1 <= limit
}.

(** The constraints of the next request. *)
Definition next_request (cs : EventConstraints) (t : ContinuationToken) : EventConstraints :=
  MkConstraints (Some (ct_block_number t)) (c_to_block cs) (contract_addresses cs) (c_keys cs) (page_size cs) (ct_offset t).

Lemma matching_range_shorter d cs f f' e' e : f <= f' -> e' <= e ->
  (length (found d cs f' e') <= length (found d cs f e))%nat.
Proof.
  intros Hf He. destruct (Z.le_gt_cases f' (e' + 1)) as [L|L].
  - rewrite (matching_range_app _ _ _ f (f' - 1) e) by lia. replace (f' - 1 + 1) with f' by lia.
    rewrite (matching_range_app _ _ _ f' e' e) by lia. rewrite !length_app. lia.
  - unfold matching_range at 1, zrange. replace (Z.to_nat (e' + 1 - f')) with 0%nat by lia. cbn. lia.
Qed.

Lemma limit_room N limit d cs : query_ok N limit d cs ->
  Z.of_nat (length (found d cs (query_from cs) (query_limit N limit cs))) < W64.
Proof.
  intros Q. pose proof (qo_events _ _ _ _ Q).
  pose proof (matching_range_shorter d cs (query_from cs) (query_from cs) (query_limit N limit cs) (query_to N cs)
    ltac:(lia) ltac:(unfold query_limit; lia)). lia.
Qed.

(** The request that follows within the queried range is in order too. *)
Lemma next_query_ok N limit d cs t : query_ok N limit d cs -> query_from cs <= ct_block_number t <= query_to N cs ->
  query_ok N limit d (next_request cs t).
Proof.
  intros [Hps Hpr Hr Hev Hk Hf Hl] Ht.
  assert (query_to N cs < N) by (unfold query_to in *; destruct (c_to_block cs); lia).
  split; try assumption; change (query_from (next_request cs t)) with (ct_block_number t);
    change (query_to N (next_request cs t)) with (query_to N cs); cbn [next_request contract_addresses c_keys]; try lia.
  pose proof (matching_range_shorter d cs (query_from cs) (ct_block_number t) (query_to N cs) (query_to N cs)). lia.
Qed.

Lemma resolve_archive cs d : resolve_from Archive cs d = Ret (query_from cs).
Proof. unfold resolve_from, query_from. now destruct (c_from_block cs). Qed.

(** The query is evaluated to its scan. *)
Lemma events_scan N fs s cs limit : store_ok N fs s -> 0 < N -> query_ok N limit (db s) cs ->
  exists s', store_ok N fs s' /\ db s' = db s /\
    let e := query_limit N limit cs in
    let total := drop (c_offset cs) (found (db s) cs (query_from cs) e) in
    events sizes SIPS decompress cache_set Archive cs limit s
    = let! found := (if (length total <=? page_size cs)%nat then Ret (Ok (Exhausted total))
                     else let! page := full_page cs (query_from cs) (take (page_size cs + 1) total) in Ret (Ok (Page page))) in
      Ret (match found with
           | Err e => Err e
           | Ok (Page page) => Ok page
           | Ok (Exhausted emitted) => Ok (MkPage emitted (if e <? query_to N cs then Some (MkToken (e + 1) 0) else None))
           end, s').
Proof.
  intros S HN [Hps Hpr Hr He0 Hk Hf Hl]. unfold events. rewrite (proj2 (Nat.ltb_ge _ _)) by exact Hps.
  pose proof (so_db _ _ _ _ _ _ S) as D. rewrite (latest_spec _ _ range_pos bits_pos _ _ _ _ D), (proj2 (Z.ltb_lt _ _)) by exact HN.
  rewrite resolve_archive. cbn [bind_outcome]. rewrite add_u64_ok by lia. cbn [bind_outcome]. fold (query_to N cs). set (e := query_limit N limit cs).
  change (Z.min (query_to N cs) (query_from cs + limit - 1)) with e.
  assert (He : e < N) by (unfold e, query_limit, query_to; destruct (c_to_block cs); lia).
  destruct (blocks_to_scan_spec sizes SIPS range_pos bits_pos compress decompress zstd_law cache_set cache_law N fs s (query_from cs) e
    (contract_addresses cs) (c_keys cs) S Hf He Hk) as (R & s' & lf & blocks & P & -> & S' & Ed & _ & Lr & Hlf & Eb & Ef & HP).
  exists s'. split; [exact S'|]. split; [exact Ed|]. cbv zeta. cbn [bind_outcome fst snd]. rewrite Lr. cbn [unwrap_option bind_outcome].
  rewrite (Z.min_l e) by exact Hlf. rewrite Eb. cbn [bind_outcome]. rewrite Ef.
  rewrite (scan_blocks_spec N fs (db s) cs (query_from cs) D) with (emitted := []).
  - cbv zeta. cbn [app]. rewrite scanned_events; [reflexivity|]. intros b Hb. apply elem_of_zrange in Hb. now apply HP.
  - apply Forall_forall. intros b Hb. apply elem_of_list_filter_bool in Hb as [Hb _]. apply elem_of_zrange in Hb. lia.
  - exact Hpr.
  - cbn. lia.
Qed.

(** What a token denotes. *)
Definition rest_of (N : Z) (d : EventDb) (cs : EventConstraints) (t : option ContinuationToken) : list EmittedEvent :=
  match t with
  | Some t => drop (ct_offset t) (found d cs (ct_block_number t) (query_to N cs))
  | None => []
  end.

(** An offset counts events of the range of the query. *)
Definition offset_ok (N limit : Z) (d : EventDb) (cs : EventConstraints) : Prop :=
  (c_offset cs <= length (found d cs (query_from cs) (query_limit N limit cs)))%nat.

(** The number of steps that are left. *)
Definition steps_left (N : Z) (d : EventDb) (cs : EventConstraints) : nat :=
  Z.to_nat (query_to N cs + 1 - query_from cs) + length (drop (c_offset cs) (found d cs (query_from cs) (query_to N cs))).

Definition page_ok (N limit : Z) (d : EventDb) (cs : EventConstraints) (page : PageOfEvents) : Prop :=
  (length (page_events page) <= page_size cs)%nat /\
  drop (c_offset cs) (found d cs (query_from cs) (query_to N cs)) = page_events page ++ rest_of N d cs (continuation page) /\
  forall t, continuation page = Some t ->
    let cs' := next_request cs t in
    query_ok N limit d cs' /\ offset_ok N limit d cs' /\ (steps_left N d cs' < steps_left N d cs)%nat.

Lemma page_of_limit N limit d cs : query_ok N limit d cs -> offset_ok N limit d cs ->
  let total := drop (c_offset cs) (found d cs (query_from cs) (query_limit N limit cs)) in (length total <= page_size cs)%nat ->
  page_ok N limit d cs (MkPage total (if query_limit N limit cs <? query_to N cs then Some (MkToken (query_limit N limit cs + 1) 0) else None)).
Proof.
  intros Q Ho total Lt. pose proof Q as [Hps Hpr Hr Hev Hk Hf Hl]. unfold page_ok. cbn [page_events continuation]. split; [exact Lt|].
  unfold offset_ok in Ho. destruct (Z.ltb_spec (query_limit N limit cs) (query_to N cs)) as [L|L].
  - assert (El : query_limit N limit cs = query_from cs + limit - 1) by (unfold query_limit in *; lia).
    assert (E : drop (c_offset cs) (found d cs (query_from cs) (query_to N cs))
        = total ++ found d cs (query_limit N limit cs + 1) (query_to N cs)).
    { rewrite (matching_range_app d (contract_addresses cs) (c_keys cs) (query_from cs) (query_limit N limit cs) (query_to N cs)) by lia.
      now rewrite drop_app_le by exact Ho. }
    split; [exact E|]. intros t [= <-]. cbv zeta. split; [apply next_query_ok; [exact Q | cbn; lia]|].
    split; [unfold offset_ok; cbn; lia|]. unfold steps_left. rewrite E.
    change (query_to N (next_request cs ?t)) with (query_to N cs). cbn [next_request c_offset contract_addresses c_keys ct_offset].
    change (query_from (next_request cs ?t)) with (ct_block_number t). cbn [ct_block_number]. rewrite drop_0, length_app. lia.
  - assert (El : query_limit N limit cs = query_to N cs) by (unfold query_limit in *; lia). rewrite El in *. cbn [rest_of].
    rewrite app_nil_r. split; [unfold total; now rewrite El | discriminate].
Qed.

Lemma page_of_full N limit d cs t : query_ok N limit d cs -> offset_ok N limit d cs ->
  let total := drop (c_offset cs) (found d cs (query_from cs) (query_limit N limit cs)) in (page_size cs < length total)%nat ->
  denotes_rest d (contract_addresses cs) (c_keys cs) t (query_from cs) (query_limit N limit cs) (c_offset cs) (page_size cs) ->
  page_ok N limit d cs (MkPage (take (page_size cs) total) (Some t)).
Proof.
  intros Q Ho total Lt (Ht & Er & Hv). pose proof Q as [Hps Hpr Hr Hev Hk Hf Hl]. unfold page_ok. cbn [page_events continuation rest_of].
  split; [rewrite length_take; lia|]. unfold offset_ok in Ho. set (e := query_limit N limit cs) in *.
  assert (He : e <= query_to N cs) by (unfold e, query_limit; lia).
  assert (Split : forall b, query_from cs <= b <= e -> found d cs b (query_to N cs) = found d cs b e ++ found d cs (e + 1) (query_to N cs))
    by (intros b Hb; apply matching_range_app; lia).
  assert (Ot : (ct_offset t <= length (found d cs (ct_block_number t) e))%nat).
  { assert (X : length (drop (page_size cs) total) <> 0%nat) by (rewrite length_drop; lia). fold total in Er. rewrite <- Er, length_drop in X. lia. }
  assert (E : drop (c_offset cs) (found d cs (query_from cs) (query_to N cs))
      = take (page_size cs) total ++ drop (ct_offset t) (found d cs (ct_block_number t) (query_to N cs))).
  { rewrite (Split (query_from cs)), (Split (ct_block_number t)) by lia. rewrite (drop_app_le _ _ (c_offset cs)) by exact Ho.
    rewrite (drop_app_le _ _ (ct_offset t)) by exact Ot. rewrite Er, app_assoc. f_equal. symmetry. apply take_drop. }
  split; [exact E|]. intros t' [= <-]. cbv zeta.
  split; [apply next_query_ok; [exact Q | cbn; lia]|]. split.
  - unfold offset_ok. cbn [next_request c_offset contract_addresses c_keys]. change (query_from (next_request cs t)) with (ct_block_number t).
    assert (El : query_limit N limit (next_request cs t) = Z.min (query_to N cs) (ct_block_number t + limit - 1)) by reflexivity.
    destruct Hv as [[Eb Eo]|[Lb Lo]].
    + rewrite El, Eb. change (Z.min (query_to N cs) (query_from cs + limit - 1)) with e. now rewrite Eb in Ot.
    + rewrite matching_range_cons by lia. rewrite length_app. lia.
  - unfold steps_left. rewrite E. change (query_to N (next_request cs t)) with (query_to N cs).
    cbn [next_request c_offset contract_addresses c_keys]. change (query_from (next_request cs t)) with (ct_block_number t).
    rewrite length_app, length_take. lia.
Qed.

Lemma events_page N fs s cs limit : store_ok N fs s -> 0 < N -> query_ok N limit (db s) cs -> offset_ok N limit (db s) cs ->
  exists page s', events sizes SIPS decompress cache_set Archive cs limit s = Ret (Ok page, s') /\
    store_ok N fs s' /\ db s' = db s /\ page_ok N limit (db s) cs page.
Proof.
  intros S HN Q Ho. destruct (events_scan N fs s cs limit S HN Q) as (s' & S' & Ed & E). cbv zeta in E. rewrite E.
  destruct (Nat.leb_spec (length (drop (c_offset cs) (found (db s) cs (query_from cs) (query_limit N limit cs)))) (page_size cs)) as [L|L].
  - cbn [bind_outcome]. eexists _, s'. split; [reflexivity|]. split; [exact S'|]. split; [exact Ed|]. now apply page_of_limit.
  - destruct (full_page_spec (db s) (contract_addresses cs) (c_keys cs) cs (query_from cs) (query_limit N limit cs) (qo_page _ _ _ _ Q) (limit_room N limit (db s) cs Q) L)
      as (t & -> & Dt). cbn [bind_outcome]. eexists _, s'. split; [reflexivity|]. split; [exact S'|]. split; [exact Ed|].
    now apply page_of_full.
Qed.
End Pages.
