(* ===== verification/FieldTheorems.v ===== *)
(** What crates/crypto promises of its fields: the arithmetic of [MontFelt] and
    [CurveOrderMontFelt], and the encodings of [Felt]. *)

From Stdlib Require Import ZArith Lia Bool List Zmod.
From S2P Require Import Prelude Bytes Words Montgomery MontgomeryFacts FieldAlgos MontBytes.
From S2P Require Import NumberTheory Fields CurveOrder Sqrt Felt FeltHex.
Import ListNotations.
Local Open Scope Z_scope.

#[local] Opaque add sub mul square double negate TWO THREE.

Section AnyField.
Context {F : MontField} {FOk : MontFieldOk F}.

Lemma square_mul x : canonical x -> square x = mul x x.
Proof.
  intros Hx. destruct (square_val x Hx) as [C V], (mul_val x x Hx Hx) as [C' V'].
  apply val_inj; [assumption..|]. now rewrite V, V'.
Qed.

(** C18: Multiplication of field elements in Montgomery form returns a canonical
    representative of the product.  The two multiplication routines (separated
    and coarsely integrated operand scanning), in their constant and run-time
    variants, and the dedicated squaring agree with one another. *)
Theorem mul_correct x y : canonical x -> canonical y ->
  canonical (mul x y) /\ val (mul x y) = Zmod.mul (val x) (val y) /\
  const_mul x y = mul x y /\ const_mul_cios x y = mul x y /\ square x = mul x x.
Proof.
  intros Hx Hy. destruct (mul_val x y Hx Hy) as [C V].
  rewrite (const_mul_cios_eq x y Hx Hy), <- (mul_eq x y (proj1 Hx) Hy).
  rewrite (square_mul x Hx). repeat split; try assumption; apply C.
Qed.

(** Addition, subtraction, doubling and negation return canonical
    representatives of the corresponding operation of the integers modulo the
    prime. *)
Theorem additive_correct x y : canonical x -> canonical y ->
  (canonical (add x y) /\ val (add x y) = Zmod.add (val x) (val y)) /\
  (canonical (sub x y) /\ val (sub x y) = Zmod.sub (val x) (val y)) /\
  (canonical (double x) /\ val (double x) = Zmod.add (val x) (val x)) /\
  (canonical (negate x) /\ val (negate x) = Zmod.opp (val x)).
Proof.
  intros Hx Hy. split; [now apply add_val|]. split; [now apply sub_val|].
  split; [now apply double_val | now apply negate_val].
Qed.

(** The 32-byte big-endian encoding of a field element holds its native
    value, decoding it gives the element back, and decoding any 32 bytes gives
    the element of their value modulo the prime. *)
Theorem mont_bytes_correct x bytes : canonical x -> bytes_ok bytes -> length bytes = 32%nat ->
  from_be_bytes (to_be_bytes x) = x /\ be_value (to_be_bytes x) = Zmod.unsigned (val x) /\
  canonical (from_be_bytes bytes) /\ be_value (to_be_bytes (from_be_bytes bytes)) = be_value bytes mod modulus.
Proof.
  intros Hx Hb L. destruct (from_be_bytes_val bytes Hb L) as [C V].
  split; [exact (bytes_roundtrip x Hx)|]. split; [apply to_be_bytes_spec, Hx|]. split; [exact C|].
  destruct (to_be_bytes_spec _ (proj1 C)) as (_ & _ & ->). rewrite V. apply Zmod.unsigned_of_Z.
Qed.
End AnyField.

Lemma mul_correct_witness :
  @val MontFelt (mul (F := MontFelt) (@R2 MontFelt) (@R2 MontFelt)) =
  Zmod.mul (@val MontFelt (@R2 MontFelt)) (@val MontFelt (@R2 MontFelt)).
Proof. exact (proj1 (proj2 (mul_correct (F := MontFelt) _ _ canonical_R2 canonical_R2))). Defined.

Section AnyPrimeField.
Context {F : MontField} {FOk : MontFieldOk F} {Fp : MontFieldPrime F}.

(** C37: [inverse] answers [None] exactly on zero.  On every other element its
    loops end within 520 outer and 260 inner iterations, and the result is the
    canonical inverse. *)
Theorem inverse_correct x : canonical x ->
  if is_zero x then inverse x = None
  else exists y, inverse_fuel 520 260 x = Some (Some y) /\ inverse x = Some y /\
    canonical y /\ val y = Zmod.inv (val x) /\ mul x y = ONE.
Proof.
  intros Hx. destruct (is_zero x) eqn:E.
  { apply is_zero_val in E; [|exact Hx]. now apply inverse_zero. }
  assert (N : val x <> Zmod.zero) by (intros V; apply is_zero_val in V; congruence).
  destruct (inverse_val x Hx N) as (y & I & C & V).
  pose proof N as Hnz. rewrite val_0_iff in Hnz by exact Hx.
  destruct (inverse_spec x Hx Hnz (val_coprime x Hx Hnz)) as (y' & E' & _ & _).
  assert (y' = y) as -> by (unfold inverse in I; rewrite E' in I; congruence).
  exists y. repeat (split; [assumption|]). destruct (mul_val x y Hx C) as [C' V'].
  apply val_inj; [exact C' | apply canonical_ONE |].
  rewrite V', V, val_ONE. now apply Zmod.mul_inv_same_r_prime; [exact prime_modulus|].
Qed.
End AnyPrimeField.

Lemma inverse_correct_witness :
  exists y, inverse (F := MontFelt) (@R2 MontFelt) = Some y /\
    mul (F := MontFelt) (@R2 MontFelt) y = @ONE MontFelt.
Proof.
  pose proof (inverse_correct (F := MontFelt) (@R2 MontFelt) canonical_R2) as H.
  replace (is_zero (@R2 MontFelt)) with false in H by (vm_compute; reflexivity).
  destruct H as (y & _ & E & _ & _ & M). exists y. split; [exact E | exact M].
Defined.

(** The moduli of the two fields are the primes of the Stark curve, and the
    constants [R], [R2] and [M0] of the source are those Montgomery reduction
    needs: powers of [2^256] modulo the prime and the negated inverse of its
    lowest limb. *)
Theorem field_constants_correct :
  (Z.prime (@modulus MontFelt) /\ @modulus MontFelt = 2 ^ 251 + 17 * 2 ^ 192 + 1) /\
  Z.prime (@modulus CurveOrderMontFelt) /\
  (eval (@R MontFelt) = 2 ^ 256 mod @modulus MontFelt /\
   eval (@R2 MontFelt) = 2 ^ 512 mod @modulus MontFelt /\
   (@M0 MontFelt * @modulus MontFelt + 1) mod 2 ^ 64 = 0) /\
  eval (@R CurveOrderMontFelt) = 2 ^ 256 mod @modulus CurveOrderMontFelt /\
  eval (@R2 CurveOrderMontFelt) = 2 ^ 512 mod @modulus CurveOrderMontFelt /\
  (@M0 CurveOrderMontFelt * @modulus CurveOrderMontFelt + 1) mod 2 ^ 64 = 0.
Proof.
  split; [exact (conj MontFelt_prime eq_refl)|]. split; [exact CurveOrder_prime|].
  repeat split; vm_compute; reflexivity.
Qed.

Section Felts.
#[local] Existing Instance MontFelt.

(** [MontFelt::sqrt] is a complete decision procedure.  Its loops end, a
    result [Some y] squares to the argument and [None] means that no field
    element does. *)
Theorem sqrt_decides x : canonical x ->
  match sqrt x with
  | Some y => canonical y /\ mul y y = x
  | None => forall y, canonical y -> mul y y <> x
  end.
Proof.
  intros Hx. pose proof (sqrt_correct x Hx) as S. destruct (sqrt x) as [y|].
  - destruct S as [C E]. destruct (mul_val y y C C) as [C' V]. split; [exact C|].
    apply val_inj; [assumption..|]. now rewrite V.
  - intros y C E. apply (S (val y)). now rewrite <- (proj2 (mul_val y y C C)), E.
Qed.

(** Addition and subtraction of [Felt]s never panic, keep the invariant of
    32 bytes below the prime and are addition and subtraction modulo it. *)
Theorem felt_arithmetic a b : felt_ok a -> felt_ok b ->
  (exists c, felt_add a b = Ret c /\ felt_ok c /\
     be_value c = (be_value a + be_value b) mod field_prime) /\
  (exists d, felt_sub a b = Ret d /\ felt_ok d /\
     be_value d = (be_value a - be_value b) mod field_prime).
Proof. intros Ha Hb. split; [now apply felt_add_spec | now apply felt_sub_spec]. Qed.

(** [Felt::from_hex_str] accepts exactly the strings made of the prefix
    [0x] and at most 64 hexadecimal digits of either case whose value is below
    the prime, and returns the felt of that value. *)
Theorem from_hex_str_accepts bytes f : from_hex_str bytes = Ok f <->
  exists rest ds, bytes = 48 :: 120 :: rest /\ spells rest ds /\ (length ds <= 64)%nat /\
    felt_ok f /\ be_value f = digits_value 16 ds.
Proof. apply from_hex_str_iff. Qed.

(** Printing a felt in hexadecimal, with or without a caller's buffer,
    gives the same shortest numeral, and parsing it gives the felt back. *)
Theorem hex_str_roundtrip f buf : felt_ok f -> (66 <= length buf)%nat ->
  from_hex_str (to_hex_str f) = Ok f /\ as_hex_str f buf = Ret (to_hex_str f) /\
  (forall s, from_hex_str s = Ok f -> (2 < length s)%nat -> (length (to_hex_str f) <= length s)%nat).
Proof.
  intros Hf Hb. pose proof (to_hex_str_printed f Hf) as P.
  split; [exact (printed_parses f _ Hf P)|].
  destruct (as_hex_str_printed f buf Hf Hb) as (s & -> & P').
  split; [f_equal; exact (printed_unique f _ _ P' P)|].
  intros s'. exact (printed_shortest f _ s' P).
Qed.

Lemma sqrt_decides_witness :
  match sqrt (@R2 MontFelt) with
  | Some y => canonical y /\ mul y y = @R2 MontFelt
  | None => forall y, canonical y -> mul y y <> @R2 MontFelt
  end.
Proof. exact (sqrt_decides (@R2 MontFelt) canonical_R2). Defined.

Lemma felt_max_ok : felt_ok (8 :: repeat 0 6 ++ 17 :: repeat 0 24).
Proof. repeat split; [repeat constructor; discriminate || reflexivity]. Qed.

Lemma hex_str_roundtrip_witness : let a := 8 :: repeat 0 6 ++ 17 :: repeat 0 24 in
  from_hex_str (to_hex_str a) = Ok a.
Proof.
  exact (proj1 (hex_str_roundtrip _ (repeat 0 66) felt_max_ok (le_n _))).
Defined.

(** A felt below [2^251] is recovered from its 251 bits and every string
    of 251 bits is recovered from its felt.  Any string of at most 251 bits is
    accepted, and the test for more than 251 bits is exact. *)
Theorem felt_bits_correct f bits : felt_ok f -> (length bits <= 251)%nat ->
  (has_more_than_251_bits f = true <-> 2 ^ 251 <= be_value f) /\
  (be_value f < 2 ^ 251 -> from_bits (view_bits f) = Ok f) /\
  exists g, from_bits bits = Ok g /\ felt_ok g /\ be_value g = bits_value bits /\
    (length bits = 251%nat -> view_bits g = bits).
Proof.
  intros Hf L. pose proof (has_more_than_251_bits_spec f Hf) as M. split; [exact M|]. split.
  - intros H. apply bits_roundtrip; [exact Hf|].
    destruct (has_more_than_251_bits f); [|reflexivity]. apply proj1 in M. specialize (M eq_refl). lia.
  - destruct (from_bits_spec bits L) as (g & E & Hg & V). exists g. repeat (split; [assumption|]).
    intros L'. exact (view_bits_from_bits bits g L' E).
Qed.

(** The conversion of a felt to [u64] or [u128] succeeds exactly if its
    value fits, and the conversions from these integers undo it. *)
Theorem felt_uint_correct f : felt_ok f ->
  match try_into_uint 8 f with
  | Ok v => v = be_value f /\ from_u64 v = Ret f
  | Err _ => 2 ^ 64 <= be_value f
  end /\
  match try_into_uint 16 f with
  | Ok v => v = be_value f /\ from_u128 v = Ret f
  | Err _ => 2 ^ 128 <= be_value f
  end.
Proof.
  intros Hf. assert (U : forall n, (n <= 31)%nat ->
    match try_into_uint n f with
    | Ok v => v = be_value f /\ unwrap_result (felt_from_be_slice (to_be n v)) = Ret f
    | Err _ => 256 ^ Z.of_nat n <= be_value f
    end).
  { intros n Hn. destruct Hf as (Hb & L & Hlt). rewrite try_into_uint_spec by (assumption || lia).
    destruct (Z.ltb_spec (be_value f) (256 ^ Z.of_nat n)) as [Hv|]; [|assumption].
    pose proof (digits_value_bound 256 f ltac:(lia) Hb) as B.
    destruct (from_uint_spec n (be_value f) Hn (conj (proj1 B) Hv)) as (g & -> & Hg & V).
    split; [reflexivity|]. f_equal. apply felt_inj; [exact Hg | now repeat split | exact V]. }
  split; [exact (U 8%nat ltac:(lia)) | exact (U 16%nat ltac:(lia))].
Qed.

End Felts.
