(* ===== verification/CurveTheorems.v ===== *)
(** What crates/crypto promises of its curve, hashes and signatures. *)

From Stdlib Require Import ZArith Lia Bool List Zmod.
From S2P Require Import Prelude Bytes Words Montgomery MontgomeryFacts FieldAlgos MontBytes.
From S2P Require Import NumberTheory Fields CurveOrder Sqrt Felt Poseidon.
From S2P Require Import Curve CurveFacts Pedersen Ecdsa.
Import ListNotations.
Local Open Scope Z_scope.

#[local] Opaque add sub mul square double negate TWO THREE inverse.
#[local] Existing Instance MontFelt.

(** ** Group law *)

(** C19: On points of the Stark curve, projective doubling, addition and mixed
    addition and affine addition represent the chord and tangent law in every
    case: identity operands, equal points and opposite points included.  The
    affine routines never panic, and the results stay on the curve. *)
Theorem group_law_correct p q a c P Q : prep p P -> prep q Q -> arep a P -> arep c Q ->
  on_curve curve_b P -> on_curve curve_b Q ->
  prep (proj_double p) (pt_double P) /\ prep (proj_add p q) (pt_add P Q) /\
  prep (proj_add_affine p c) (pt_add P Q) /\
  (exists r, affine_double a = Ret r /\ arep r (pt_double P)) /\
  (exists r, affine_add a c = Ret r /\ arep r (pt_add P Q)) /\
  on_curve curve_b (pt_double P) /\ on_curve curve_b (pt_add P Q).
Proof.
  intros Hp Hq Ha Hc OP OQ. pose proof (on_curve_y curve_b curve_no_order_two P OP) as NP.
  split; [exact (proj_double_rep p P Hp NP)|].
  split; [exact (proj_add_rep p P q Q Hp Hq NP)|].
  split; [exact (proj_add_affine_rep p P c Q Hp Hc NP)|].
  split; [exact (affine_double_rep a P Ha NP)|].
  split; [exact (affine_add_rep a P c Q Ha Hc NP)|].
  split; [exact (pt_double_closed curve_b P OP) | exact (pt_add_closed curve_b P Q OP OQ)].
Qed.

(** Projective and affine scalar multiplication by the same bits agree: the
    affine routine returns, and converting a finite projective result gives the
    affine one. *)
Theorem multiply_agrees p a P bits : prep p P -> arep a P -> on_curve curve_b P ->
  exists r, affine_multiply a bits = Ret r /\
    (pinf (proj_multiply p bits) = ainf r) /\
    (ainf r = false -> exists q, affine_of_proj (proj_multiply p bits) = Ret q /\
       ax q = ax r /\ ay q = ay r /\ ainf q = false).
Proof.
  intros Hp Ha OP.
  destruct (proj_multiply_rep curve_b curve_no_order_two p P bits Hp OP) as [Pr _].
  destruct (affine_multiply_rep curve_b curve_no_order_two a P bits Ha OP) as (r & -> & Ar).
  exists r. split; [reflexivity | exact (reps_agree _ _ _ Pr Ar)].
Qed.

(** Decompression [from_x] returns a point of the curve with the given
    abscissa, and answers [None] only when the curve has no such point. *)
Theorem from_x_decompresses x : canonical x ->
  match from_x x with
  | Some p => ax p = x /\ canonical (ay p) /\ ainf p = false /\
              on_curve curve_b (Some (val x, val (ay p)))
  | None => forall y, ~ on_curve curve_b (Some (val x, y))
  end.
Proof. apply from_x_spec. Qed.

Definition G_affine : AffinePoint := MkAffine (px CURVE_G) (py CURVE_G) false.

Lemma G_affine_rep : arep G_affine G_pt.
Proof.
  destruct CURVE_G_ok as [Hp _]. pose proof Hp as (Hx & Hy & _).
  split; [exact Hx|]. split; [exact Hy|]. cbn [ax ay ainf G_affine].
  rewrite <- (prep_proj_pt _ _ (proj_one_rep _ _ Hx Hy)). reflexivity.
Qed.

Lemma G_affine_entry : entry_ok G_affine.
Proof.
  destruct G_affine_rep as (Hx & Hy & E), CURVE_G_ok as [_ O].
  split; [exact Hx|]. split; [exact Hy|]. split; [|reflexivity]. rewrite E in O. exact O.
Qed.

Lemma group_law_correct_witness : prep (proj_add CURVE_G CURVE_G) (pt_add G_pt G_pt).
Proof.
  destruct CURVE_G_ok as [Hp O].
  exact (proj1 (proj2 (group_law_correct _ _ _ _ _ _ Hp Hp G_affine_rep G_affine_rep O O))).
Defined.

(** ** Hashes *)

(** C38: The optimised Poseidon permutation, whose rounds are unrolled over
    compressed constants, computes the specification: four full rounds, 83
    partial rounds and four full rounds over the field, on every state. *)
Theorem permute_refines s : state_ok s ->
  state_ok (permute s) /\
  state_val (permute s) = poseidon_spec (fun i => val (comp_const i)) (state_val s).
Proof. apply permute_val. exact comp_const_canonical. Qed.

(** The Poseidon permutation is injective on canonical states. *)
Theorem permute_injective s s' : state_ok s -> state_ok s' -> permute s = permute s' -> s = s'.
Proof. apply permute_inj. Qed.

(** Feeding a message to the incremental Poseidon hasher in any split gives
    the hash of the whole message. *)
Theorem hasher_incremental msgs msgs' :
  hasher_finish (fold_left hasher_write msgs' (fold_left hasher_write msgs hasher_new))
  = poseidon_hash_many (msgs ++ msgs').
Proof. rewrite <- hasher_equiv, fold_left_app. reflexivity. Qed.

Lemma zero_state_ok : state_ok (MkState ZERO ZERO ZERO).
Proof. repeat split; try reflexivity; try discriminate. Qed.

Lemma permute_refines_witness :
  state_val (permute (MkState ZERO ZERO ZERO))
  = poseidon_spec (fun i => val (comp_const i)) (state_val (MkState ZERO ZERO ZERO)).
Proof. exact (proj2 (permute_refines _ zero_state_ok)). Defined.

(** The Pedersen hash of any two felts returns without an out-of-range
    table access or a failed inversion, and when the sum of the selected table
    points is finite the hash is its abscissa. *)
Theorem pedersen_total t a b : tables_ok t -> felt_ok a -> felt_ok b ->
  exists f, pedersen_hash t a b = Ret f /\ felt_ok f /\
    match pedersen_point t a b with
    | Some (x, _) => be_value f = Zmod.unsigned x
    | None => True
    end.
Proof. apply pedersen_hash_spec. Qed.

(** The hash as a function, where it returns. *)
Definition pedersen_of (t : PedersenTables) (a b : Felt) : Felt :=
  match pedersen_hash t a b with Ret f => f | Panic => FELT_ZERO end.

(** A hash chain over fewer than [2^64] felts never panics and is the left
    fold of the Pedersen hash from zero, closed with the number of felts. *)
Theorem chain_correct t values : tables_ok t -> Forall felt_ok values ->
  Z.of_nat (length values) < W64 ->
  exists count, felt_ok count /\ be_value count = Z.of_nat (length values) /\
    (let! c := chain_updates (pedersen_hash t) chain_default values in
     chain_finalize (pedersen_hash t) c)
    = pedersen_hash t (fold_left (pedersen_of t) values FELT_ZERO) count.
Proof.
  intros Ht Hv HL. assert (E : forall a b, felt_ok a -> felt_ok b ->
    pedersen_hash t a b = Ret (pedersen_of t a b) /\ felt_ok (pedersen_of t a b)).
  { intros a b Ha Hb. destruct (pedersen_hash_spec t a b Ht Ha Hb) as (f & E & Hf & _).
    unfold pedersen_of. rewrite E. split; [reflexivity | exact Hf]. }
  destruct (chain_spec (pedersen_hash t) (pedersen_of t) (fun a b Ha Hb => proj1 (E a b Ha Hb))
    (fun a b Ha Hb => proj2 (E a b Ha Hb)) values Hv HL) as (count & Hc & V & ->).
  exists count. split; [exact Hc|]. split; [exact V|]. symmetry. apply E; [|exact Hc].
  apply (chain_updates_spec (pedersen_hash t) (pedersen_of t) (fun a b Ha Hb => proj1 (E a b Ha Hb))
    (fun a b Ha Hb => proj2 (E a b Ha Hb)) values FELT_ZERO 0 FELT_ZERO_ok Hv); lia.
Qed.

Definition sample_tables : PedersenTables :=
  {| CURVE_CONSTS_P1 := repeat G_affine (31 * 255); CURVE_CONSTS_P2 := repeat G_affine 15;
     CURVE_CONSTS_P3 := repeat G_affine (31 * 255); CURVE_CONSTS_P4 := repeat G_affine 15 |}.

Lemma repeat_entries n : Forall entry_ok (repeat G_affine n).
Proof.
  apply Forall_forall. intros q H. rewrite (repeat_spec _ _ _ H). exact G_affine_entry.
Qed.

Lemma sample_tables_ok : tables_ok sample_tables.
Proof. constructor; cbn [sample_tables CURVE_CONSTS_P1 CURVE_CONSTS_P2 CURVE_CONSTS_P3 CURVE_CONSTS_P4];
  (apply repeat_length || apply repeat_entries). Qed.

Lemma pedersen_total_witness : exists f, pedersen_hash sample_tables FELT_ZERO FELT_ZERO = Ret f.
Proof.
  destruct (pedersen_total _ _ _ sample_tables_ok FELT_ZERO_ok FELT_ZERO_ok) as (f & E & _).
  exists f. exact E.
Defined.

(** ** Signatures *)

(** C40: For a message, [r] or [s] that is a felt but not below the order of the
    group, [ecdsa_verify_partial] panics, unless the public key is refused
    because no point has it as abscissa: the conversion to scalars is unwrapped
    before the range checks that would reject the value. *)
Theorem verify_out_of_range pk z r s : felt_ok pk -> felt_ok z -> felt_ok r -> felt_ok s ->
  curve_order <= be_value z \/ curve_order <= be_value r \/ curve_order <= be_value s ->
  ecdsa_verify_partial pk z r s = Panic \/
  (ecdsa_verify_partial pk z r s = Ret (Err PublicKey) /\
   forall y, ~ on_curve curve_b (Some (val (mont_of_felt pk), y))).
Proof.
  intros Hp Hz Hr Hs H. unfold ecdsa_verify_partial. destruct (felt_value pk Hp) as [Hc _].
  pose proof (from_x_spec _ Hc) as S. rewrite get_pk_point_from_x by exact Hc.
  destruct (from_x (mont_of_felt pk)); [left; now apply verify_inner_panics | now right].
Qed.

(** C39: With [z], [r] and [s] below [2^251] and [r], [s] not zero, verification
    never panics, and it accepts exactly if one of the two abscissas it reads is
    [r].  With [u1] and [u2] for [z] and [r] divided by [s] among the scalars,
    these are the abscissas of [u1 G + u2 Q] and [u1 G - u2 Q] where the sum is
    a finite point.  Where it is infinity the code ignores the flag and reads
    the abscissa of [u1 G], which the cancelling addition leaves in place.  Not
    covered is a message other than zero for which both multiples are infinity;
    the group has prime order, so that does not occur, but its order is not
    proved here. *)
Theorem verify_inner_correct pk Q z r s : prep pk Q -> on_curve curve_b Q ->
  felt_ok z -> felt_ok r -> felt_ok s ->
  be_value z < 2 ^ 251 -> 0 < be_value r < 2 ^ 251 -> 0 < be_value s < 2 ^ 251 ->
  let sinv := Zmod.inv (scalar_of s) in
  let A := pt_mul G_pt (scalar_bits (scalar_of z * sinv)%Zmod) in
  let B := pt_mul Q (scalar_bits (scalar_of r * sinv)%Zmod) in
  exists res, ecdsa_verify_inner pk z r s = Ret res /\
    (be_value z = 0 \/ A <> None \/ B <> None ->
     res = if Zmod.eqb (read_abscissa A B) (Zmod.of_Z modulus (be_value r)) ||
              Zmod.eqb (read_abscissa A (pt_neg B)) (Zmod.of_Z modulus (be_value r))
           then Ok tt else Err Signature).
Proof. apply verify_inner_spec. Qed.

(** The opposite of an affine value. *)
Definition opposite (p : AffinePoint) : AffinePoint := MkAffine (ax p) (negate (ay p)) false.

(** Of a public key given in full and its opposite, both points of the
    curve, [ecdsa_verify] refuses one whatever the message and the signature:
    the one whose ordinate is not the square root decompression returns. *)
Theorem verify_refuses_a_key pk : canonical (ax pk) -> canonical (ay pk) ->
  on_curve curve_b (Some (val (ax pk), val (ay pk))) ->
  exists key, (key = pk \/ key = opposite pk) /\
    on_curve curve_b (Some (val (ax key), val (ay key))) /\
    forall z r s, ecdsa_verify key z r s = Ret (Err PublicKey).
Proof.
  intros Hx Hy O. pose proof (from_x_spec (ax pk) Hx) as S.
  destruct (from_x (ax pk)) as [p|] eqn:E; [|exfalso; exact (S _ O)].
  destruct (limbs_eqb_spec (ay p) (ay pk)) as [Ey|Ny].
  - exists (opposite pk). split; [right; reflexivity|].
    pose proof (proj2 (negate_val (ay pk) Hy)) as V. cbn [ax ay opposite].
    split; [rewrite V; exact (pt_neg_closed curve_b (Some (val (ax pk), val (ay pk))) O)|].
    intros z r s. apply (ecdsa_verify_other_root (opposite pk) z r s p Hx E).
    rewrite Ey. cbn [ay opposite]. intros E'. rewrite <- E' in V.
    apply (on_curve_y curve_b curve_no_order_two _ O (val (ax pk))). rewrite <- (self_opp (val (ay pk)) V). reflexivity.
  - exists pk. split; [left; reflexivity|]. split; [exact O|].
    intros z r s. exact (ecdsa_verify_other_root pk z r s p Hx E Ny).
Qed.

(** For a key, a message and a nonce below the order of the group, signing
    never panics.  It asks for another nonce, or returns [(r, s)] with [r]
    below [2^251] the abscissa of the nonce's product with the generator, and
    [s k = z + r sk] among the scalars. *)
Theorem sign_k_correct G_CONSTS sk z k : g_table_ok G_CONSTS -> felt_ok sk -> felt_ok z -> felt_ok k ->
  be_value sk < curve_order -> be_value z < curve_order -> 0 < be_value k < curve_order ->
  ecdsa_sign_k G_CONSTS sk z k = Ret (Err Randomness) \/
  exists r s, ecdsa_sign_k G_CONSTS sk z k = Ret (Ok (r, s)) /\ felt_ok r /\ felt_ok s /\
    be_value r < 2 ^ 251 /\
    (scalar_of s * scalar_of k = scalar_of z + scalar_of r * scalar_of sk)%Zmod /\
    match gen_point G_CONSTS (scalar_of k) with
    | Some (x, _) => be_value r = Zmod.unsigned x
    | None => True
    end.
Proof. apply sign_k_spec. Qed.

(** The public key of the secret key zero, the point at infinity, is
    reported as the felt zero rather than refused, with any table. *)
Theorem get_pk_zero G_CONSTS : get_pk G_CONSTS FELT_ZERO = Ret (Some FELT_ZERO).
Proof. vm_compute. reflexivity. Qed.

Definition felt_one : Felt := repeat 0 31 ++ [1].

(** The order of the group as a felt. *)
Definition felt_order : Felt := to_be 32 curve_order.

Lemma felt_one_ok : felt_ok felt_one.
Proof.
  split; [|split; reflexivity]. apply digits_ok_app. split; [apply digits_ok_zeros; lia|].
  repeat constructor; discriminate.
Qed.

Lemma felt_order_ok : felt_ok felt_order.
Proof.
  split; [apply to_digits_ok; lia|]. split; [apply to_digits_length | vm_compute; reflexivity].
Qed.

Lemma felt_order_value : curve_order <= be_value felt_order.
Proof. vm_compute. discriminate. Qed.

(** The abscissa of the generator as a felt. *)
Definition felt_gx : Felt := Eval vm_compute in @to_be_bytes MontFelt (px CURVE_G).

Lemma felt_gx_ok : felt_ok felt_gx.
Proof. split; [|split; [reflexivity | vm_compute; reflexivity]]. repeat constructor; discriminate. Qed.

Lemma felt_gx_mont : mont_of_felt felt_gx = px CURVE_G.
Proof. vm_compute. reflexivity. Qed.

Lemma verify_out_of_range_witness : ecdsa_verify_partial felt_gx felt_order felt_one felt_one = Panic.
Proof.
  destruct (verify_out_of_range felt_gx felt_order felt_one felt_one felt_gx_ok felt_order_ok
    felt_one_ok felt_one_ok (or_introl felt_order_value)) as [E|[_ N]]; [exact E|].
  rewrite felt_gx_mont in N. destruct G_affine_entry as (_ & _ & O & _). destruct (N _ O).
Defined.

Lemma scalar_unit f : felt_ok f -> 0 < be_value f < 2 ^ 251 ->
  (scalar_of f * Zmod.inv (scalar_of f))%Zmod = Zmod.one.
Proof.
  intros Hf H. pose proof order_between as [Ob _]. apply Zmod.mul_inv_same_r_prime; [exact CurveOrder_prime|].
  apply scalar_nz; [exact Hf | lia].
Qed.

(** The generator as the key and the message zero: [(r, r)] is accepted for the
    abscissa [r] of the generator and refused for [r = 1]. *)
Lemma verify_inner_correct_witness :
  ecdsa_verify_inner CURVE_G FELT_ZERO felt_gx felt_gx = Ret (Ok tt) /\
  ecdsa_verify_inner CURVE_G FELT_ZERO felt_one felt_one = Ret (Err Signature).
Proof.
  assert (Z0 : felt_ok FELT_ZERO) by (split; [repeat constructor; discriminate | now split]).
  assert (B1 : 0 < be_value felt_gx < 2 ^ 251) by (split; reflexivity).
  assert (B2 : 0 < be_value felt_one < 2 ^ 251) by (split; reflexivity).
  split.
  - destruct (verify_inner_correct CURVE_G G_pt FELT_ZERO felt_gx felt_gx (proj1 CURVE_G_ok)
      (proj2 CURVE_G_ok) Z0 felt_gx_ok felt_gx_ok eq_refl B1 B1) as (res & -> & W).
    rewrite W by (left; reflexivity). rewrite (scalar_unit _ felt_gx_ok B1).
    change (scalar_of FELT_ZERO) with (@Zmod.zero (@modulus CurveOrderMontFelt)).
    rewrite Zmod.mul_0_l. vm_compute. reflexivity.
  - destruct (verify_inner_correct CURVE_G G_pt FELT_ZERO felt_one felt_one (proj1 CURVE_G_ok)
      (proj2 CURVE_G_ok) Z0 felt_one_ok felt_one_ok eq_refl B2 B2) as (res & -> & W).
    rewrite W by (left; reflexivity). rewrite (scalar_unit _ felt_one_ok B2).
    change (scalar_of FELT_ZERO) with (@Zmod.zero (@modulus CurveOrderMontFelt)).
    rewrite Zmod.mul_0_l. vm_compute. reflexivity.
Defined.

Lemma verify_refuses_a_key_witness :
  exists key, (key = G_affine \/ key = opposite G_affine) /\
    forall z r s, ecdsa_verify key z r s = Ret (Err PublicKey).
Proof.
  destruct G_affine_entry as (Hx & Hy & O & _).
  destruct (verify_refuses_a_key G_affine Hx Hy O) as (key & K & _ & R).
  exists key. split; [exact K | exact R].
Defined.

Lemma sign_k_correct_witness : let T := repeat G_affine 945 in
  ecdsa_sign_k T felt_one felt_one felt_one = Ret (Err Randomness) \/
  exists r s, ecdsa_sign_k T felt_one felt_one felt_one = Ret (Ok (r, s)) /\
    (scalar_of s * scalar_of felt_one = scalar_of felt_one + scalar_of r * scalar_of felt_one)%Zmod.
Proof.
  destruct (sign_k_correct (repeat G_affine 945) felt_one felt_one felt_one) as [E|(r & s & E & _ & _ & _ & M & _)];
    [split; [apply repeat_length | apply repeat_entries] | exact felt_one_ok..
    | reflexivity | reflexivity | split; reflexivity | left; exact E |].
  right. exists r, s. split; [exact E | exact M].
Defined.
