(* ===== verification/TreeTheorems.v ===== *)
(** The properties of the Merkle-Patricia tree in memory: it is a finite map, its
    commitment depends on that map only, and its proofs are complete and sound. *)

From Stdlib Require Import ZArith Lia Bool List Sorted.
From stdpp Require Import gmap gmultiset list sets.
From S2P Require Import Prelude Bytes Felt MerkleNode Tree TrieSpec TreeHash TreeRep TreeOps TreeMap TreeCommit.
From S2P Require Import TreeProof TreeDfs TransactionTree.

(** ** Sample data for the witnesses *)

Definition small_felt (n : Z) : Felt := repeat 0%Z 31 ++ [n].

Lemma small_felt_ok n : felt_ok (small_felt (n mod 256)).
Proof. apply byte_felt. Qed.

(** A hash that is cheap to evaluate. *)
Definition sum_hash (a b : Felt) : outcome Felt := felt_add a b.

#[export] Instance sum_hash_total : FeltHash sum_hash.
Proof. intros a b Ha Hb. destruct (felt_add_spec a b Ha Hb) as (s & E & Hs & _). now exists s. Qed.

Definition sample_updates : list (bits * Felt) :=
  [([false; true; true], small_felt 7); ([true; false; true], small_felt 9); ([false; true; true], small_felt 0);
   ([true; false; false], small_felt 5)].

Definition sample_map : gmap bits Felt := map_set_all sample_updates ∅.

Definition no_storage_known : bits -> TrieStorageIndex -> trie -> Prop := known NullStorage PoseidonHash.

Lemma sample_start : represents NullStorage 3 no_storage_known ∅ ∅ (tree_empty, no_mem).
Proof. apply empty_represents, no_mem_ok. Qed.

Lemma sample_lengths : Forall (fun kv => length kv.1 = 3) sample_updates.
Proof. repeat constructor. Qed.

Lemma sample_map_values : map_Forall (fun _ v => felt_ok v) sample_map.
Proof.
  assert (E : sample_map = <[[true; false; false] := small_felt 5]> (<[[true; false; true] := small_felt 9]> ∅))
    by (vm_compute; reflexivity).
  rewrite E. repeat apply map_Forall_insert_2; [exact (small_felt_ok 5) | exact (small_felt_ok 9) | apply map_Forall_empty].
Qed.

(** ** The tree as a map *)

(** C1: Whatever keys are set (a zero value deletes the key), over whatever the
    tree was loaded from, no operation fails or panics, and reading any key
    afterwards gives the value the finite map has.  The tree keeps its
    representation invariant: the cells form a maximal Patricia trie, and every
    stored node is still in use or listed as removed exactly once. *)
Theorem tree_refines_map {E} (storage : Storage E) (HEIGHT : nat) (P : bits -> TrieStorageIndex -> trie -> Prop)
    (M : gmap bits Felt) (I0 : gmultiset Z) (st : state) (us : list (bits * Felt)) (key : bits) :
  0 < HEIGHT -> closed storage P -> represents storage HEIGHT P M I0 st ->
  Forall (fun kv => length kv.1 = HEIGHT) us -> length key = HEIGHT ->
  exists st1 m2, set_all storage HEIGHT us st = Ret (Ok tt, st1) /\
    represents storage HEIGHT P (map_set_all us M) I0 st1 /\
    get storage HEIGHT key st1 = Ret (Ok (map_set_all us M !! key), (st1.1, m2)) /\
    represents storage HEIGHT P (map_set_all us M) I0 (st1.1, m2).
Proof.
  intros Hp Hc Rp Hus Hk.
  destruct (set_all_refines storage HEIGHT Hp P Hc us M I0 st Rp Hus) as (st1 & E1 & Rp1 & _).
  exists st1. destruct st1 as [tr m1].
  destruct (get_spec storage HEIGHT Hp P Hc _ I0 tr m1 key Rp1 Hk) as (m2 & E2 & Rp2). exists m2. auto.
Qed.

Lemma tree_refines_map_witness : exists st1 m2,
  set_all NullStorage 3 sample_updates (tree_empty, no_mem) = Ret (Ok tt, st1) /\
  get NullStorage 3 [true; false; true] st1 = Ret (Ok (Some (small_felt 9)), (st1.1, m2)).
Proof.
  destruct (tree_refines_map NullStorage 3 no_storage_known ∅ ∅ (tree_empty, no_mem) sample_updates [true; false; true])
    as (st1 & m2 & E1 & _ & E2 & _); [lia | apply null_known | exact sample_start | exact sample_lengths | reflexivity |].
  exists st1, m2. split; [exact E1|]. rewrite E2. vm_compute. reflexivity.
Defined.

(** C2: Committing a tree neither fails nor panics, gives the commitment Starknet
    defines recursively for the map the tree stands for, and lists each stored
    node as removed or leaves it in use in the new trie: the added nodes, with
    the stored nodes they refer to, are a maximal Patricia trie of the map in
    which every hash is right. *)
Theorem commit_correct {E} (storage : Storage E) (H : Felt -> Felt -> outcome Felt) (HEIGHT : nat)
    (M : gmap bits Felt) (I0 : gmultiset Z) (st : state) :
  FeltHash H -> 0 < HEIGHT <= 251 -> represents storage HEIGHT (known storage H) M I0 st ->
  map_Forall (fun _ v => felt_ok v) M ->
  exists upd R, commit storage H HEIGHT st = Ret (Ok upd) /\
    spec_root H HEIGHT (fun k => M !! k) = Ret (root_commitment upd) /\ felt_ok (root_commitment upd) /\
    I0 = indices (update_nodes_removed upd) ⊎ R /\
    update_of storage H HEIGHT M (root_commitment upd) st R upd.
Proof.
  intros HH [Hp Hm] Rp HM. destruct (map_root_total storage H HEIGHT M I0 st HH Hm Rp HM) as (h & Eh & Hh).
  destruct (commit_spec storage H HEIGHT M I0 st h Hp Rp Eh) as (upd & R & Ec & <- & HI & Hu).
  exists upd, R. auto.
Qed.

Lemma commit_correct_witness : exists st upd, set_all NullStorage 3 sample_updates (tree_empty, no_mem) = Ret (Ok tt, st) /\
  commit NullStorage PoseidonHash 3 st = Ret (Ok upd) /\
  spec_root PoseidonHash 3 (fun k => sample_map !! k) = Ret (root_commitment upd).
Proof.
  destruct (set_all_refines NullStorage 3 (Nat.lt_0_succ 2) no_storage_known (null_known _) sample_updates ∅ ∅
    (tree_empty, no_mem) sample_start sample_lengths) as (st & E1 & Rp & _).
  destruct (commit_correct NullStorage PoseidonHash 3 sample_map ∅ st) as (upd & R & Ec & Er & _);
    [exact PoseidonHash_total | lia | exact Rp | exact sample_map_values |].
  exists st, upd. auto.
Defined.

(** The commitment does not depend on how a map came about: two trees, loaded
    from different storages and changed by different sequences of updates, that
    stand for the same map have the same root. *)
Theorem commit_history_independent {E E'} (s : Storage E) (s' : Storage E') (H : Felt -> Felt -> outcome Felt)
    (HEIGHT : nat) (M0 M1 : gmap bits Felt) (I0 I1 : gmultiset Z) (st0 st1 : state) (us0 us1 : list (bits * Felt)) :
  FeltHash H -> 0 < HEIGHT <= 251 ->
  represents s HEIGHT (known s H) M0 I0 st0 -> represents s' HEIGHT (known s' H) M1 I1 st1 ->
  Forall (fun kv => length kv.1 = HEIGHT) us0 -> Forall (fun kv => length kv.1 = HEIGHT) us1 ->
  map_set_all us0 M0 = map_set_all us1 M1 -> map_Forall (fun _ v => felt_ok v) (map_set_all us0 M0) ->
  exists st0' st1' upd0 upd1,
    set_all s HEIGHT us0 st0 = Ret (Ok tt, st0') /\ commit s H HEIGHT st0' = Ret (Ok upd0) /\
    set_all s' HEIGHT us1 st1 = Ret (Ok tt, st1') /\ commit s' H HEIGHT st1' = Ret (Ok upd1) /\
    root_commitment upd0 = root_commitment upd1.
Proof.
  intros HH [Hp Hm] Rp0 Rp1 L0 L1 EM HM.
  destruct (set_all_refines s HEIGHT Hp _ (known_closed s H) us0 M0 I0 st0 Rp0 L0) as (st0' & E0 & Rp0' & _).
  destruct (set_all_refines s' HEIGHT Hp _ (known_closed s' H) us1 M1 I1 st1 Rp1 L1) as (st1' & E1 & Rp1' & _).
  rewrite <- EM in Rp1'. destruct (map_root_total s H HEIGHT _ _ _ HH Hm Rp0' HM) as (h & Eh & _).
  destruct (commit_spec s H HEIGHT _ _ _ h Hp Rp0' Eh) as (upd0 & _ & C0 & R0 & _).
  destruct (commit_spec s' H HEIGHT _ _ _ h Hp Rp1' Eh) as (upd1 & _ & C1 & R1 & _).
  exists st0', st1', upd0, upd1. rewrite R0, R1. auto.
Qed.

Lemma commit_history_independent_witness : exists st0 st1 upd0 upd1,
  set_all NullStorage 3 sample_updates (tree_empty, no_mem) = Ret (Ok tt, st0) /\
  commit NullStorage PoseidonHash 3 st0 = Ret (Ok upd0) /\
  set_all NullStorage 3 [([true; false; false], small_felt 5); ([true; false; true], small_felt 9)] (tree_empty, no_mem)
    = Ret (Ok tt, st1) /\
  commit NullStorage PoseidonHash 3 st1 = Ret (Ok upd1) /\ root_commitment upd0 = root_commitment upd1.
Proof.
  apply (commit_history_independent NullStorage NullStorage PoseidonHash 3 ∅ ∅ ∅ ∅);
    [exact PoseidonHash_total | lia | exact sample_start | exact sample_start | exact sample_lengths
    | repeat constructor | vm_compute; reflexivity | exact sample_map_values].
Defined.

(** C20: A commitment binds: if two committed trees have the same root, which is
    not the zero of the empty tree, then their maps agree on every key, or the
    nodes on the key's two paths include two different ones with the same hash. *)
Theorem commitment_binding {E E'} (s : Storage E) (s' : Storage E') (H : Felt -> Felt -> outcome Felt) (HEIGHT : nat)
    (M M' : gmap bits Felt) (I0 I1 : gmultiset Z) (st st' : state) (upd upd' : TrieUpdate) (key : bits) :
  FeltHash H -> 0 < HEIGHT <= 251 ->
  represents s HEIGHT (known s H) M I0 st -> represents s' HEIGHT (known s' H) M' I1 st' ->
  map_Forall (fun _ v => felt_ok v) M -> map_Forall (fun _ v => felt_ok v) M' ->
  commit s H HEIGHT st = Ret (Ok upd) -> commit s' H HEIGHT st' = Ret (Ok upd') ->
  root_commitment upd = root_commitment upd' -> root_commitment upd <> FELT_ZERO -> length key = HEIGHT ->
  M !! key = M' !! key \/ exists ns ns', honest H HEIGHT M key ns /\ honest H HEIGHT M' key ns' /\ collision H ns ns'.
Proof.
  intros HH [Hp Hm] Rp Rp' HM HM' Ec Ec' Er Nz Lk.
  destruct (map_root_total s H HEIGHT M I0 st HH Hm Rp HM) as (h & Eh & _).
  destruct (map_root_total s' H HEIGHT M' I1 st' HH Hm Rp' HM') as (h' & Eh' & _).
  destruct (commit_spec s H HEIGHT M I0 st h Hp Rp Eh) as (u & _ & Eu & Hu & _).
  destruct (commit_spec s' H HEIGHT M' I1 st' h' Hp Rp' Eh') as (u' & _ & Eu' & Hu' & _).
  rewrite Ec in Eu. injection Eu as <-. rewrite Ec' in Eu'. injection Eu' as <-. subst h h'.
  destruct (represents_honest H HEIGHT s _ M I0 st key HH Hm Rp) as [ns Hn]; [|exact HM|].
  { intros ->. rewrite spec_root_none in Eh by (intros; apply lookup_empty). congruence. }
  destruct (represents_honest H HEIGHT s' _ M' I1 st' key HH Hm Rp') as [ns' Hn']; [|exact HM'|].
  { intros ->. rewrite spec_root_none in Eh' by (intros; apply lookup_empty). congruence. }
  rewrite <- Er in Eh'. destruct (honest_binding H HEIGHT M M' key ns ns' _ Lk Hn Hn' Eh Eh'); [auto | right; eauto].
Qed.

Lemma commitment_binding_witness : exists st upd,
  set_all NullStorage 3 sample_updates (tree_empty, no_mem) = Ret (Ok tt, st) /\
  commit NullStorage sum_hash 3 st = Ret (Ok upd) /\ root_commitment upd <> FELT_ZERO /\
  (sample_map !! [true; false; true] = sample_map !! [true; false; true] \/
   exists ns ns', honest sum_hash 3 sample_map [true; false; true] ns /\
     honest sum_hash 3 sample_map [true; false; true] ns' /\ collision sum_hash ns ns').
Proof.
  destruct (set_all_refines NullStorage 3 (Nat.lt_0_succ 2) (known NullStorage sum_hash) (null_known _) sample_updates ∅ ∅
    (tree_empty, no_mem) (empty_represents _ _ _ _ no_mem_ok) sample_lengths) as (st & E1 & Rp & _).
  destruct (map_root_total NullStorage sum_hash 3 sample_map ∅ st) as (h & Eh & _);
    [exact sum_hash_total | lia | exact Rp | exact sample_map_values |].
  destruct (commit_spec NullStorage sum_hash 3 sample_map ∅ st h) as (upd & _ & Ec & Er & _); [lia | exact Rp | exact Eh|].
  assert (Nz : root_commitment upd <> FELT_ZERO).
  { rewrite Er. assert (Q : match spec_root sum_hash 3 (fun k => sample_map !! k) with
      Ret f => negb (felt_eqb f FELT_ZERO) | Panic => false end = true) by (vm_compute; reflexivity).
    rewrite Eh in Q. intros ->. discriminate Q. }
  exists st, upd. split; [exact E1|]. split; [exact Ec|]. split; [exact Nz|].
  apply (commitment_binding NullStorage NullStorage sum_hash 3 sample_map sample_map ∅ ∅ st st upd upd);
    [exact sum_hash_total | lia | exact Rp | exact Rp | exact sample_map_values | exact sample_map_values
    | exact Ec | exact Ec | reflexivity | exact Nz | reflexivity].
Defined.

(** ** Proofs *)

Definition ret_or {A} (d : A) (o : outcome A) : A := match o with Ret a => a | Panic => d end.

Definition sample_bottom : Felt := ret_or FELT_ZERO (sum_hash (small_felt 5) (small_felt 9)).
Definition sample_top : Felt := ret_or FELT_ZERO (edge_calculate_hash sum_hash sample_bottom [true; false]).

(** Two stored nodes: an edge and below it a node with two leaves. *)
Definition sample_storage : Storage Empty_set := MkStorage Empty_set
  (fun i => Ok (if (i =? 1)%Z then Some (StoredEdge 2 [true; false]) else if (i =? 2)%Z then Some StoredLeafBinary else None))
  (fun i => Ok (if (i =? 1)%Z then Some sample_top else if (i =? 2)%Z then Some sample_bottom else None))
  (fun k => Ret (Ok (sample_map !! k))).

Definition sample_trie : trie := TEdge [true; false] (TBin TLeaf TLeaf).

Lemma sample_hashed : hashed sample_storage sum_hash [] 1 sample_trie sample_top.
Proof.
  apply (hashed_edge _ _ _ _ 2 _ _ sample_bottom); [reflexivity | reflexivity | | vm_compute; reflexivity].
  apply (hashed_leaf_binary _ _ _ _ (small_felt 5) (small_felt 9)); vm_compute; reflexivity.
Qed.

Lemma sample_keys : keys_of 3 sample_trie sample_map.
Proof.
  intros k Lk. destruct k as [|a [|b [|c [|]]]]; try discriminate Lk. destruct a, b, c; vm_compute; reflexivity.
Qed.

Lemma sample_wf : wf 3 sample_trie.
Proof. cbn. split; [discriminate|]. split; [reflexivity|]. exists 1. split; [reflexivity|]. exists 0. auto. Qed.

(** C21: From a stored trie whose hashes are right, [get_proofs] gives a proof for
    every key asked for, whatever its node caches hold from earlier keys, and
    the check of a proof gives the map's answer: membership for the key's value
    and for no other value, non-membership for a key the map does not have. *)
Theorem get_proofs_complete {E} (storage : Storage E) (H : Felt -> Felt -> outcome Felt) (HEIGHT : nat)
    (root : TrieStorageIndex) (t : trie) (h : Felt) (M : gmap bits Felt) (keys : list bits) :
  hashed storage H [] root t h -> wf HEIGHT t -> keys_of HEIGHT t M ->
  (forall k v, M !! k = Some v -> storage_leaf storage k = Ret (Ok (Some v))) ->
  Forall (fun k => length k = HEIGHT) keys ->
  exists proofs, get_proofs storage root keys = Ret (Ok proofs) /\
    Forall2 (fun key proof => forall value, verify_proof H HEIGHT h key value proof = Ret (answer M key value)) keys proofs.
Proof.
  intros Hh W Hk Hl Hks. assert (Vo : values_ok storage (map_value M) [] t).
  { intros k v Hin Hs. cbn [app] in *. specialize (Hk k (has_length _ _ _ W Hin)). rewrite Hin in Hk. symmetry in Hk.
    apply bool_decide_eq_true in Hk as [w Hw]. rewrite (Hl k w Hw) in Hs. unfold map_value. rewrite Hw.
    cbn. congruence. }
  destruct (get_proofs_spec storage H (map_value M) root t h HEIGHT Hh W Vo keys Hks) as (proofs & Ep & F).
  exists proofs. split; [exact Ep|]. clear Ep. induction F as [|key proof keys proofs Tp F IH]; [constructor|].
  inversion_clear Hks as [|? ? Lk Hks']. constructor; [|exact (IH Hks')]. intros value.
  apply honest_answer; [exact Lk | exists t; auto|]. rewrite (map_root H HEIGHT t M W Hk).
  exact (hashed_thash storage H _ _ _ _ _ Hh Vo).
Qed.

Lemma get_proofs_complete_witness : exists p q,
  get_proofs sample_storage 1 [[true; false; true]; [false; true; true]] = Ret (Ok [p; q]) /\
  verify_proof sum_hash 3 sample_top [true; false; true] (small_felt 9) p = Ret (Some Member) /\
  verify_proof sum_hash 3 sample_top [false; true; true] (small_felt 7) q = Ret (Some NonMember).
Proof.
  destruct (get_proofs_complete sample_storage sum_hash 3 1 sample_trie sample_top sample_map
    [[true; false; true]; [false; true; true]]) as (ps & Ep & F);
    [exact sample_hashed | exact sample_wf | exact sample_keys
    | intros k v Hv; cbn [storage_leaf sample_storage]; now rewrite Hv | repeat constructor |].
  inversion F as [|? p ? ps1 Hp F1]; subst. inversion F1 as [|? q ? ps2 Hq F2]; subst. inversion F2; subst.
  exists p, q. split; [exact Ep|]. split; [rewrite Hp | rewrite Hq]; vm_compute; reflexivity.
Defined.

(** C22: A proof that is accepted against the commitment of a map tells the truth
    about the map, or it contains a node that collides with the node at the same
    place of the map's own proof, or it is malformed: it has an edge without a path,
    or claims membership although its nodes do not stand for all bits of the key.
    The last case is real, since the check does not compare lengths: every proper
    prefix of the map's own proof is accepted, for the hash of the node it stops
    at. *)
Theorem verify_proof_sound (H : Felt -> Felt -> outcome Felt) (HEIGHT : nat) (M : gmap bits Felt) (h : Felt)
    (key : bits) (ns' : list TrieNodeWithHash) :
  length key = HEIGHT -> spec_root H HEIGHT (fun k => M !! k) = Ret h -> honest H HEIGHT M key ns' ->
  (forall value ns r, verify_proof H HEIGHT h key value ns = Ret (Some r) ->
     match r with Member => M !! key = Some value | NonMember => M !! key = None end \/ collision H ns ns' \/
     malformed HEIGHT ns r) /\
  (forall ns1 n hn ns2, ns' = ns1 ++ (n, hn) :: ns2 -> verify_proof H HEIGHT h key hn ns1 = Ret (Some Member)).
Proof.
  intros Lk Eh Hn. split.
  - intros value ns r Ev. destruct (well_formed HEIGHT ns r) as [Mf|[Fn Hb]]; [auto|].
    destruct (honest_sound H HEIGHT M key ns ns' h value r Lk Hn Eh Ev Fn Hb); auto.
  - intros ns1 n hn ns2 ->. exact (honest_prefix H HEIGHT M key ns1 n hn ns2 h Lk Hn Eh).
Qed.

Definition sample_proof : list TrieNodeWithHash :=
  [(TrieEdge sample_bottom [true; false], sample_top); (TrieBinary (small_felt 5) (small_felt 9), sample_bottom)].

Lemma verify_proof_sound_witness :
  verify_proof sum_hash 3 sample_top [true; false; true] (small_felt 9) sample_proof = Ret (Some Member) /\
  (sample_map !! [true; false; true] = Some (small_felt 9) \/ collision sum_hash sample_proof sample_proof \/
   malformed 3 sample_proof Member) /\
  verify_proof sum_hash 3 sample_top [true; false; true] sample_bottom (take 1 sample_proof) = Ret (Some Member).
Proof.
  assert (V : verify_proof sum_hash 3 sample_top [true; false; true] (small_felt 9) sample_proof = Ret (Some Member))
    by (vm_compute; reflexivity).
  split; [exact V|].
  destruct (verify_proof_sound sum_hash 3 sample_map sample_top [true; false; true] sample_proof) as [S P];
    [reflexivity | vm_compute; reflexivity | |].
  - exists sample_trie. split; [exact sample_wf|]. split; [exact sample_keys | vm_compute; reflexivity].
  - split; [exact (S _ _ _ V) | exact (P (take 1 sample_proof) (TrieBinary (small_felt 5) (small_felt 9)) sample_bottom [] eq_refl)].
Defined.

(** ** Visits *)

(** The visitor that collects the paths of the leaves. *)
Definition collect_leaf (n : InternalNode) (path : bits) (found : list bits) : ControlFlow Empty_set * list bits :=
  (Continue ContinueDeeper, if is_leaf n then found ++ [path] else found).

Lemma collect_fold keys : forall found : list bits, fold_left (fun s k => s ++ [k]) keys found = found ++ keys.
Proof.
  induction keys as [|k keys IH]; intros found; cbn; [now rewrite app_nil_r|]. now rewrite IH, <- app_assoc.
Qed.

(** A depth-first visit ends, resolves what it needs without changing the
    tree, and reaches exactly the leaves of the map, each once, in increasing
    order of the keys. *)
Theorem dfs_in_order {E} (storage : Storage E) (HEIGHT : nat) (P : bits -> TrieStorageIndex -> trie -> Prop)
    (M : gmap bits Felt) (I0 : gmultiset Z) (tr : MerkleTree) (m : Mem) :
  closed storage P -> represents storage HEIGHT P M I0 (tr, m) ->
  exists bound keys, StronglySorted bits_lt keys /\ (forall k, k ∈ keys <-> is_Some (M !! k)) /\
    forall fuel, bound <= fuel -> exists m',
      dfs storage HEIGHT collect_leaf fuel [] (tr, m) = Ret (Ok (None, keys), (tr, m')).
Proof.
  intros Hc Rp. destruct (dfs_spec storage HEIGHT P Hc collect_leaf (fun s k => s ++ [k]) M I0 tr m)
    as (bound & keys & Hs & Hk & Hd); [reflexivity | intros n path s Hn; unfold collect_leaf; now rewrite Hn | exact Rp|].
  exists bound, keys. split; [exact Hs|]. split; [exact Hk|]. intros fuel Hf.
  destruct (Hd fuel [] Hf) as [m' Em]. exists m'. now rewrite Em, collect_fold.
Qed.

Lemma dfs_in_order_witness : exists tr m, set_all NullStorage 3 sample_updates (tree_empty, no_mem) = Ret (Ok tt, (tr, m)) /\
  exists bound keys, StronglySorted bits_lt keys /\ [true; false; true] ∈ keys /\ exists m',
    dfs NullStorage 3 collect_leaf bound [] (tr, m) = Ret (Ok (None, keys), (tr, m')).
Proof.
  destruct (set_all_refines NullStorage 3 (Nat.lt_0_succ 2) no_storage_known (null_known _) sample_updates ∅ ∅
    (tree_empty, no_mem) sample_start sample_lengths) as ([tr m] & E1 & Rp & _).
  exists tr, m. split; [exact E1|].
  destruct (dfs_in_order NullStorage 3 no_storage_known sample_map ∅ tr m) as (bound & keys & Hs & Hk & Hd);
    [apply null_known | exact Rp|].
  exists bound, keys. split; [exact Hs|]. split; [apply Hk; vm_compute; eauto | apply Hd; lia].
Defined.

(** ** Missing nodes *)

(** Over a storage from which nodes or hashes are missing, as it is after
    pruning, reading, writing and committing either do exactly what they do over
    the whole storage or return an error that says what is missing; they never
    give another answer. *)
Theorem missing_is_reported {E} (part whole : Storage E) (H : Felt -> Felt -> outcome Felt) (HEIGHT : nat) :
  part_of part whole ->
  (forall key, agree (get part HEIGHT key) (get whole HEIGHT key)) /\
  (forall key value, agree (set part HEIGHT key value) (set whole HEIGHT key value)) /\
  (forall st, agrees (commit part H HEIGHT st) (commit whole H HEIGHT st)).
Proof.
  intros HP. split; [intros key; now apply get_agree|]. split; [intros key v; now apply set_agree|].
  intros st. now apply commit_agrees.
Qed.

(** The sample storage without its second node. *)
Definition sample_part : Storage Empty_set := MkStorage Empty_set
  (fun i => Ok (if (i =? 1)%Z then Some (StoredEdge 2 [true; false]) else None))
  (storage_hash sample_storage) (storage_leaf sample_storage).

Lemma missing_is_reported_witness : exists st',
  get sample_part 3 [true; false; true] (tree_new 1 no_mem) = Ret (Err (NodeMissing 2 2), st') /\
  agree (get sample_part 3 [true; false; true]) (get sample_storage 3 [true; false; true]).
Proof.
  eexists. split; [vm_compute; reflexivity|]. apply (missing_is_reported sample_part sample_storage sum_hash 3).
  split; [intros i; cbn | intros i; now left | reflexivity]. destruct (i =? 1)%Z; [now left | now right].
Defined.
