(* ===== verification/StoreTheorems.v ===== *)
(** The properties of the trie tables: nodes survive their encoding, blocks can
    be written and read back, and pruning keeps what it has to. *)

From Stdlib Require Import ZArith Lia Bool List.
From stdpp Require Import gmap gmultiset list sets.
From S2P Require Import Prelude Bytes Felt MerkleNode Tree TrieSpec TreeHash TreeRep TreeOps TreeMap TreeCommit.
From S2P Require Import Pedersen TrieStore TrieInsert TrieChain RootTables TriePrune Bincode TreeTheorems.

(** ** Encoding *)

(** C24: A stored node that is encoded is decoded to itself, given that the path of
    an edge has fewer than 256 bits; every node a tree of height 251 can have fits
    the buffer; and as the length of a path is stored in one byte, a longer path
    is decoded, if at all, to one with the low eight bits of its length. *)
Theorem stored_node_roundtrip (lib : Libraries) (n : StoredNode) :
  LibraryLaws lib ->
  (forall data, length (path_of n) < 256 -> stored_node_encode lib n = Ok data -> stored_node_decode lib data = Ok n) /\
  (node_small n -> exists data, stored_node_encode lib n = Ok data) /\
  (forall p q, decode_path (encode_path lib p) = Ok q -> length q = (length p mod 256)%nat).
Proof.
  intros laws. split; [intros data; now apply node_roundtrip|]. split; [now apply node_encodes | apply decode_path_length].
Qed.

Lemma stored_node_roundtrip_witness : exists data,
  stored_node_encode bincode_libraries (StoredEdge 77 [true; false; true]) = Ok data /\
  stored_node_decode bincode_libraries data = Ok (StoredEdge 77 [true; false; true]).
Proof.
  destruct (stored_node_roundtrip bincode_libraries (StoredEdge 77 [true; false; true]) bincode_laws) as (Rt & Fit & _).
  destruct Fit as [data Ed]; [unfold node_small, index_ok, I64_MAX; cbn; lia|].
  exists data. split; [exact Ed|]. apply Rt; [cbn; lia | exact Ed].
Defined.

(** ** Blocks *)

Definition store_updates : list (bits * Felt) :=
  [([false; true; true], small_felt 7); ([true; false; true], small_felt 9)].

Lemma store_updates_ok : updates_ok 3 store_updates.
Proof.
  constructor; [exact (conj eq_refl (small_felt_ok 7))|].
  constructor; [exact (conj eq_refl (small_felt_ok 9)) | constructor].
Qed.

(** Three blocks, of which the tries of the last two are kept. *)
Definition sample_run : outcome (result (TreeError StoreError) chain) :=
  run bincode_libraries sum_hash 3 (Prune 1) 100 no_mem
    [AddBlock store_updates; AddBlock [([true; false; true], small_felt 8)]; AddBlock [([false; true; true], FELT_ZERO)]]
    genesis.

Lemma one_update_ok k v : length k = 3 -> felt_ok v -> updates_ok 3 [(k, v)].
Proof. intros Hk Hv. constructor; [now split | constructor]. Qed.

Lemma sample_run_reachable : exists c, reachable bincode_libraries sum_hash 3 (Prune 1) c /\
  c_head c = 2%Z /\ c_low c = 1%Z /\ c_map c 1 !! [false; true; true] = Some (small_felt 7) /\
  marked bincode_libraries (removals (c_table c)) <> [] /\ bounded (rows (c_table c)) 100 /\
  size (map_set_all store_updates (c_map c 2)) <= 100.
Proof.
  assert (Q : match sample_run with
    | Ret (Ok c) => bool_decide (c_head c = 2%Z /\ c_low c = 1%Z /\ c_map c 1 !! [false; true; true] = Some (small_felt 7) /\
        marked bincode_libraries (removals (c_table c)) <> [] /\ map_Forall (fun i _ => (i <= 100)%Z) (rows (c_table c)) /\
        size (map_set_all store_updates (c_map c 2)) <= 100)
    | _ => false end = true) by (vm_compute; reflexivity).
  unfold sample_run in Q. cbn [run run_one] in Q. destruct (apply_block _ _ _ _ _ _ _ genesis) as [[c1|]|] eqn:E1; try discriminate Q.
  cbn [try] in Q. destruct (apply_block _ _ _ _ _ _ _ c1) as [[c2|]|] eqn:E2; try discriminate Q.
  cbn [try] in Q. destruct (apply_block _ _ _ _ _ _ _ c2) as [[c3|]|] eqn:E3; try discriminate Q.
  cbn [try] in Q. exists c3. apply bool_decide_eq_true_1 in Q as (Q1 & Q2 & Q3 & Q4 & Q5 & Q6).
  split; [|split; [exact Q1 | split; [exact Q2 | split; [exact Q3 | split; [exact Q4 | split; [|exact Q6]]]]]];
    [|intros i [x Hx]; exact (Q5 i x Hx)].
  eapply reach_step; [|exact (step_block _ _ _ _ c2 _ _ _ c3 (one_update_ok [false; true; true] _ eq_refl FELT_ZERO_ok) no_mem_ok E3)].
  eapply reach_step; [|exact (step_block _ _ _ _ c1 _ _ _ c2 (one_update_ok [true; false; true] _ eq_refl (small_felt_ok 8)) no_mem_ok E2)].
  eapply reach_step; [|exact (step_block _ _ _ _ genesis _ _ _ c1 store_updates_ok no_mem_ok E1)]. apply reach_genesis.
Qed.

(** C23: Liveness of one trie.  In every reachable chain, in archive mode or with
    pruning, the trie of the last block can be updated by any block: the update
    neither fails nor panics, its root is the commitment of the new map, and
    inserting it succeeds with fuel for two steps a node, while SQLite has
    three indices left for each key of the map.  Reachable are the chains that
    blocks with any updates and reverts produce, where the updates of a revert
    restore the map of its target, and where it has at least one update or
    nothing is pruned or the trie has the same root at the target and at the
    last block ([revert_safe]). *)
Theorem block_succeeds (lib : Libraries) (H : Felt -> Felt -> outcome Felt) (HEIGHT : nat) (mode : TriePruneMode)
    (c : chain) (us : list (bits * Felt)) (m : Mem) :
  LibraryLaws lib -> FeltHash H -> 0 < HEIGHT <= 251 -> valid_mode mode -> reachable lib H HEIGHT mode c ->
  updates_ok HEIGHT us -> mem_ok m ->
  exists upd, head_update lib H HEIGHT c us m = Ret (Ok upd) /\
    spec_root H HEIGHT (fun k => map_set_all us (c_map c (c_head c)) !! k) = Ret (root_commitment upd) /\
    forall fuel mx, insert_fuel upd <= fuel -> bounded (rows (c_table c)) mx -> (0 <= mx)%Z ->
      (mx + Z.of_nat (3 * size (map_set_all us (c_map c (c_head c)))) <= I64_MAX)%Z ->
      exists c', apply_block lib H HEIGHT mode fuel us m c = Ret (Ok c').
Proof.
  intros laws HH [Hp Hm] Mo Re Hus K. destruct (reachable_inv lib H HEIGHT Hp Hm mode Mo c Re) as [live Iv].
  exact (block_total lib H HEIGHT Hp Hm mode c live us m Iv Hus K).
Qed.

(** The chain of three blocks is extended. *)
Lemma block_succeeds_witness : exists c c' fuel, reachable bincode_libraries sum_hash 3 (Prune 1) c /\ c_head c = 2%Z /\
  apply_block bincode_libraries sum_hash 3 (Prune 1) fuel store_updates no_mem c = Ret (Ok c').
Proof.
  destruct sample_run_reachable as (c & Re & Hh & _ & _ & _ & Hb & Hs). exists c.
  destruct (block_succeeds bincode_libraries sum_hash 3 (Prune 1) c store_updates no_mem) as (upd & _ & _ & T);
    [exact bincode_laws | exact sum_hash_total | lia | cbn; lia | exact Re | exact store_updates_ok | exact no_mem_ok|].
  destruct (T (insert_fuel upd) 100%Z (Nat.le_refl _) Hb ltac:(lia)) as [c' E].
  - rewrite Hh. unfold I64_MAX. lia.
  - exists c', (insert_fuel upd). auto.
Defined.

(** C3: Pruning is safe.  In every reachable chain the trie of every block that is
    kept can be loaded by its root index and read: every key has the value of
    that block's map, and the root hash that is stored is the commitment of that
    map.  Reachable are the chains that blocks with any updates and reverts
    produce, where the updates of a revert restore the map of its target, and
    where it has at least one update or nothing is pruned or the trie has the
    same root at the target and at the last block ([revert_safe]).  The code does
    not check the last condition, without which nodes can be lost. *)
Theorem kept_blocks_readable (lib : Libraries) (H : Felt -> Felt -> outcome Felt) (HEIGHT : nat) (mode : TriePruneMode)
    (c : chain) (b : Z) (key : bits) (m : Mem) :
  LibraryLaws lib -> FeltHash H -> 0 < HEIGHT <= 251 -> valid_mode mode -> reachable lib H HEIGHT mode c -> kept c b ->
  length key = HEIGHT -> mem_ok m ->
  let storage := store_of lib (rows (c_table c)) (c_map c b) in
  let st := load (c_root c b) false m in
  (exists st', get storage HEIGHT key st = Ret (Ok (c_map c b !! key), st')) /\
  (exists upd, commit storage H HEIGHT st = Ret (Ok upd) /\
    spec_root H HEIGHT (fun k => c_map c b !! k) = Ret (root_commitment upd)).
Proof.
  intros laws HH [Hp Hm] Mo Re Kb Lk K storage st.
  destruct (reachable_inv lib H HEIGHT Hp Hm mode Mo c Re) as [live Iv].
  pose proof (inv_versions _ _ _ _ _ _ Iv b Kb) as V.
  pose proof (load_represents lib H HEIGHT _ _ _ false m V (leaf_of_covers _) K) as Rp.
  change (load _ false m) with st in Rp. cbn [ver v_map v_live] in Rp. split.
  - destruct st as [tr m0]. destruct (get_spec storage HEIGHT Hp _ (known_closed _ _) _ _ tr m0 key Rp Lk) as (m' & E & _).
    eauto.
  - destruct (map_root_total storage H HEIGHT _ _ st HH Hm Rp) as (h & Eh & _).
    { intros k v Hv. apply (ver_values _ _ _ _ _ V k v Hv). }
    destruct (commit_spec storage H HEIGHT _ _ st h Hp Rp Eh) as (upd & _ & Ec & <- & _). eauto.
Qed.

Lemma kept_blocks_readable_witness : exists c, reachable bincode_libraries sum_hash 3 (Prune 1) c /\ c_head c = 2%Z /\
  exists st', get (store_of bincode_libraries (rows (c_table c)) (c_map c 1)) 3 [false; true; true]
    (load (c_root c 1) false no_mem) = Ret (Ok (Some (small_felt 7)), st').
Proof.
  destruct sample_run_reachable as (c & Re & Hh & Hl & Hm & _). exists c. split; [exact Re|]. split; [exact Hh|].
  destruct (kept_blocks_readable bincode_libraries sum_hash 3 (Prune 1) c 1 [false; true; true] no_mem) as [[st' E] _];
    [exact bincode_laws | exact sum_hash_total | lia | cbn; lia | exact Re | left; lia | reflexivity | exact no_mem_ok|].
  exists st'. rewrite E, Hm. reflexivity.
Defined.

(** The record of removed nodes is exact.  In every reachable chain no node is recorded as removed twice, every recorded node is still
    in the table, and none is part of the last block's trie. *)
Theorem removals_exact (lib : Libraries) (H : Felt -> Felt -> outcome Felt) (HEIGHT : nat) (mode : TriePruneMode) (c : chain) :
  LibraryLaws lib -> FeltHash H -> 0 < HEIGHT <= 251 -> valid_mode mode -> reachable lib H HEIGHT mode c ->
  NoDup (marked lib (removals (c_table c))) /\
  (forall i, i ∈ marked lib (removals (c_table c)) -> is_Some (rows (c_table c) !! i)) /\
  exists live, (forall i, i ∈ marked lib (removals (c_table c)) -> i ∉ live) /\
    version_ok lib H HEIGHT (rows (c_table c)) (MkVersion (c_root c (c_head c)) (c_map c (c_head c)) live).
Proof.
  intros laws HH [Hp Hm] Mo Re. destruct (reachable_inv lib H HEIGHT Hp Hm mode Mo c Re) as [live Iv].
  split; [exact (inv_once _ _ _ _ _ _ Iv)|].
  assert (Hd : forall i, i ∈ marked lib (removals (c_table c)) ->
    is_Some (rows (c_table c) !! i) /\ i ∉ live (c_head c)).
  { intros i (row & Hr & Hi)%elem_of_marked. destruct (inv_marks _ _ _ _ _ _ Iv row i Hr Hi) as [Hs Hn].
    split; [exact Hs|]. apply Hn; [now right|]. pose proof (inv_rows _ _ _ _ _ _ Iv) as Rw.
    rewrite Forall_forall in Rw. apply (Rw row Hr). }
  split; [intros i Hi; apply (Hd i Hi)|]. exists (live (c_head c)). split; [intros i Hi; apply (Hd i Hi)|].
  exact (inv_versions _ _ _ _ _ _ Iv (c_head c) (or_intror eq_refl)).
Qed.

Lemma list_choose_nil (l : list Z) : l <> [] -> exists i, i ∈ l.
Proof. destruct l as [|i l]; [easy|]. exists i. apply list_elem_of_here. Qed.

Lemma removals_exact_witness : exists c i, reachable bincode_libraries sum_hash 3 (Prune 1) c /\
  i ∈ marked bincode_libraries (removals (c_table c)) /\ is_Some (rows (c_table c) !! i).
Proof.
  destruct sample_run_reachable as (c & Re & _ & _ & _ & Hm & _).
  destruct (removals_exact bincode_libraries sum_hash 3 (Prune 1) c) as (_ & Hp & _);
    [exact bincode_laws | exact sum_hash_total | lia | cbn; lia | exact Re|].
  destruct (list_choose_nil _ Hm) as [i Hi]. exists c, i. auto.
Defined.

(** ** A revert after a revert *)

Section Doomed.
Context (lib : Libraries) {laws : LibraryLaws lib} (H : Felt -> Felt -> outcome Felt) {HH : FeltHash H}.
Context (HEIGHT : nat) (HEIGHT_pos : 0 < HEIGHT) (HEIGHT_max : HEIGHT <= 251).
Context (num : Z) (num_ok : (0 <= num)%Z).

(** The root of the last block is recorded as removed at an earlier block, and
    is still there. *)
Record doomed (target r : Z) (c : chain) : Prop := {
  dm_decode : Forall (row_ok lib) (removals (c_table c));
  dm_rows : Forall (fun row => 0 <= row.1)%Z (removals (c_table c));
  dm_marked : exists row, row ∈ removals (c_table c) /\ row.1 = target /\ r ∈ marks lib row;
  dm_late row : row ∈ removals (c_table c) -> r ∈ marks lib row -> (target <= row.1)%Z;
  dm_root : c_root c (c_head c) = Some r;
  dm_roots k : (c_head c < k)%Z -> c_roots c !! k = None;
  dm_hash : exists h, trie_node_hash (MkTable (rows (c_table c)) []) r = Ok (Some h)
}.

(** The last block is updated without changes as long as the hash of its root
    can be read. *)
Lemma root_only_update c r h m : c_root c (c_head c) = Some r ->
  trie_node_hash (MkTable (rows (c_table c)) []) r = Ok (Some h) ->
  head_update lib H HEIGHT c [] m = Ret (Ok (MkTrieUpdate [] [] h)).
Proof.
  intros Er Eh. unfold head_update, update_trie, TrieChain.load. rewrite Er. cbn [set_all].
  unfold commit, tree_new, borrow. cbn [with_verify_hashes root cells mem_alloc].
  rewrite lookup_insert_eq. cbn [try]. unfold stored_hash. cbn [storage_hash table_storage]. now rewrite Eh.
Qed.

(** A block without changes prunes what is due and nothing else. *)
Lemma empty_block fuel m target r c : doomed target r c ->
  exists nodes, apply_block lib H HEIGHT (Prune num) fuel [] m c
      = Ret (Ok (MkChain (MkTable nodes (waiting (c_head c + 1 - num) (removals (c_table c)))) (c_roots c)
          (Z.max (c_low c) (c_head c + 1 - num)) (c_head c + 1)
          (set_block (c_map c) (c_head c + 1) (c_map c (c_head c))))) /\
    forall i, nodes !! i = if decide (i ∈ marked lib (due (c_head c + 1 - num) (removals (c_table c)))) then None
                           else rows (c_table c) !! i.
Proof.
  intros [D Rw _ _ Er _ [h Eh]].
  destruct (prune_and_mark_spec lib (Prune num) [] (c_head c + 1) (c_table c) D Rw) as (nodes & extra & Ep & Hn & _ & He);
    [auto|]. rewrite (He (or_intror eq_refl)) in Ep. exists nodes. split; [|exact Hn]. unfold apply_block, write_trie.
  rewrite (root_only_update c r h m Er Eh). cbn [try]. unfold insert_trie. cbn [update_nodes_removed]. rewrite Ep.
  cbn [insert_added nodes_added update_nodes_removed try insert_root]. cbn [threshold].
  rewrite app_nil_r. reflexivity.
Qed.
Lemma waiting_elem t rs row : row ∈ waiting t rs <-> row ∈ rs /\ (t <= row.1)%Z.
Proof.
  unfold waiting. rewrite list_elem_of_In, filter_In, <- list_elem_of_In.
  split; intros [Hr Hl]; (split; [exact Hr|]); destruct (Z.ltb_spec row.1 t); cbn in *; lia || easy.
Qed.

Lemma due_elem t rs row : row ∈ due t rs <-> row ∈ rs /\ (row.1 < t)%Z.
Proof. unfold due. rewrite list_elem_of_In, filter_In, <- list_elem_of_In. split; intros [Hr Hl]; (split; [exact Hr | lia]). Qed.

(** What a block without changes leaves. *)
Lemma doomed_block fuel m target r c : doomed target r c ->
  exists c', apply_block lib H HEIGHT (Prune num) fuel [] m c = Ret (Ok c') /\ c_head c' = (c_head c + 1)%Z /\
    c_map c' (c_head c') = c_map c (c_head c) /\ c_root c' (c_head c') = Some r /\
    ((c_head c + 1 - num <= target)%Z -> doomed target r c') /\
    ((target < c_head c + 1 - num)%Z -> rows (c_table c') !! r = None).
Proof.
  intros Dm. destruct (empty_block fuel m target r c Dm) as (nodes & E & Hn). pose proof Dm as [D Rw (row & Hr & Ht & Hm) Lt Er Nr [h Eh]].
  eexists. split; [exact E|]. cbn [c_head c_map c_table c_roots rows removals]. split; [reflexivity|].
  split; [apply set_block_eq|].
  assert (Ro : root_index (c_roots c) (c_head c + 1) = Some r).
  { rewrite (root_index_gap (c_roots c) (c_head c)); [exact Er | lia | intros k Hk; apply Nr; lia]. }
  split; [exact Ro|]. split; intros Hd.
  - split; cbn [c_head c_map c_table c_roots rows removals]; unfold c_root; cbn [c_roots]; try exact Ro.
    + apply Forall_forall. intros row' [Hr' _]%waiting_elem. exact (proj1 (Forall_forall _ _) D row' Hr').
    + apply Forall_forall. intros row' [Hr' _]%waiting_elem. exact (proj1 (Forall_forall _ _) Rw row' Hr').
    + exists row. split; [apply waiting_elem; split; [exact Hr | lia] | auto].
    + intros row' [Hr' _]%waiting_elem. now apply Lt.
    + intros k Hk. apply Nr. lia.
    + exists h. unfold trie_node_hash in *. cbn [rows] in *. rewrite Hn, decide_False; [exact Eh|].
      intros (row' & [Hr' Hl]%due_elem & Hi)%elem_of_marked. pose proof (Lt row' Hr' Hi). lia.
  - rewrite Hn, decide_True; [reflexivity|]. apply elem_of_marked. exists row. split; [apply due_elem; split; [exact Hr | lia] | exact Hm].
Qed.

Lemma doomed_run fuel m target r : forall n c, doomed target r c -> (c_head c + Z.of_nat n = target + num)%Z ->
  exists c', run lib H HEIGHT (Prune num) fuel m (repeat (AddBlock []) (S n)) c = Ret (Ok c') /\
    c_head c' = (target + num + 1)%Z /\ c_map c' (c_head c') = c_map c (c_head c) /\
    c_root c' (c_head c') = Some r /\ rows (c_table c') !! r = None.
Proof.
  induction n as [|n IH]; intros c Dm Hn;
    destruct (doomed_block fuel m target r c Dm) as (c' & E & Eh & Em & Er & Keep & Last);
    cbn [repeat run run_one]; rewrite E; cbn [try].
  - exists c'. rewrite Eh in *. split; [reflexivity|]. split; [lia|]. split; [exact Em|]. split; [exact Er | apply Last; lia].
  - destruct (IH c' (Keep ltac:(lia)) ltac:(lia)) as (c2 & E2 & Eh2 & Em2 & Er2 & Hn2).
    exists c2. split; [exact E2|]. split; [exact Eh2|]. split; [now rewrite Em2|]. auto.
Qed.

(** The root of a version. *)
Lemma version_root nodes v r : version_ok lib H HEIGHT nodes v -> v_root v = Some r ->
  r ∈ v_live v /\ exists h, trie_node_hash (MkTable nodes []) r = Ok (Some h).
Proof.
  intros [_ _ Sh] E. rewrite E in Sh. destruct Sh as (t & h & Hh & St & _).
  split; [clear -St; destruct St; multiset_solver|]. exists h. exact (hashed_stored_hash _ _ _ _ _ _ Hh).
Qed.

Lemma doomed_purged target r c nodes h low M : Forall (row_ok lib) (removals (c_table c)) ->
  Forall (fun row => 0 <= row.1 <= c_head c)%Z (removals (c_table c)) -> (0 <= target < c_head c)%Z ->
  (forall row, row ∈ removals (c_table c) -> r ∈ marks lib row -> (target < row.1)%Z) ->
  r ∈ marked lib (removals (c_table c)) -> c_root c target = Some r ->
  (forall k, is_Some (c_roots c !! k) -> (k <= c_head c)%Z) -> trie_node_hash (MkTable nodes []) r = Ok (Some h) ->
  let T := MkTable nodes (waiting (target - num) (removals (c_table c))) in
  let db := purge_blocks (Z.to_nat (c_head c - target)) (c_head c) (coalesce_removed_trie_nodes target T, c_roots c) in
  doomed target r (MkChain db.1 db.2 low target M).
Proof.
  intros D Rw Ht Late (row0 & Hr0 & Hm0)%elem_of_marked Er Hk Eh T db.
  destruct (purged_db HEIGHT HEIGHT_pos HEIGHT_max target (c_head c) T (c_roots c)) as (Ed & Elow & Emid & Ehigh);
    [lia | apply Forall_forall; intros row [Hr _]%waiting_elem; apply (proj1 (Forall_forall _ _) Rw row Hr)|].
  fold db in Ed, Elow, Emid, Ehigh. rewrite Ed. clearbody db.
  assert (Rows : forall row, row ∈ removals (coalesce_removed_trie_nodes target T) -> exists row', row' ∈ removals (c_table c) /\
    row.2 = row'.2 /\ ((row'.1 <= target)%Z /\ row = row' \/ row.1 = target)).
  { intros row (row' & [Hr' _]%waiting_elem & E2 & C)%coalesce_elem. exists row'. intuition. }
  split; cbn [c_table c_head c_roots].
  - apply Forall_forall. intros row Hr. destruct (Rows row Hr) as (row' & Hr' & E2 & _). unfold row_ok. rewrite E2.
    exact (proj1 (Forall_forall _ _) D row' Hr').
  - apply Forall_forall. intros row Hr. destruct (Rows row Hr) as (row' & Hr' & _ & [[_ ->] | ->]); [|lia].
    apply (proj1 (Forall_forall _ _) Rw row' Hr').
  - exists (target, row0.2). split; [|auto]. pose proof (Late row0 Hr0 Hm0) as L. cbn [coalesce_removed_trie_nodes removals].
    apply list_elem_of_In, in_map_iff. exists row0. rewrite (proj2 (Z.ltb_lt _ _)) by exact L. split; [reflexivity|].
    apply list_elem_of_In, waiting_elem. split; [exact Hr0 | lia].
  - intros row Hr Hi. destruct (Rows row Hr) as (row' & Hr' & E2 & [[L ->]|C]); [|lia].
    pose proof (Late row' Hr' Hi). lia.
  - unfold c_root, root_index in *. cbn [c_roots]. rewrite (query_last_ext (c_roots c)); [exact Er|]. intros k Hle. now apply Elow.
  - intros k Hlt. destruct (Z.le_gt_cases k (c_head c)); [apply Emid; lia|]. rewrite Ehigh by lia.
    destruct (c_roots c !! k) eqn:E; [|reflexivity]. pose proof (Hk k ltac:(eauto)). lia.
  - exists h. exact Eh.
Qed.

(** A revert without updates to a block whose root is recorded as removed. *)
Lemma revert_dooms fuel m c target r : reachable lib H HEIGHT (Prune num) c -> (c_low c <= target < c_head c)%Z ->
  c_root c target = Some r -> r ∈ marked lib (removals (c_table c)) ->
  exists c', apply_revert lib H HEIGHT (Prune num) fuel target [] m c = Ret (Ok c') /\ c_head c' = target /\
    c_map c' = c_map c /\ doomed target r c'.
Proof.
  intros Re Ht Er Mk. destruct (reachable_inv lib H HEIGHT HEIGHT_pos HEIGHT_max (Prune num) num_ok c Re) as [live Iv].
  pose proof (inv_low _ _ _ _ _ _ Iv) as Hl. assert (Kt : kept c target) by (left; lia).
  destruct (version_root _ _ r (inv_versions _ _ _ _ _ _ Iv target Kt) Er) as [Lr [h Eh]]. cbn [ver v_live] in Lr.
  assert (Late : forall row, row ∈ removals (c_table c) -> r ∈ marks lib row -> (target < row.1)%Z).
  { intros row Hr Hi. destruct (inv_marks _ _ _ _ _ _ Iv row r Hr Hi) as [_ Hn].
    destruct (Z.le_gt_cases row.1 target) as [L|L]; [|lia]. now destruct (Hn target Kt L). }
  pose proof (inv_rows _ _ _ _ _ _ Iv) as Rw. pose proof (inv_decode _ _ _ _ _ _ Iv) as D.
  destruct (update_nothing lib H HEIGHT _ _ _ false m (inv_versions _ _ _ _ _ _ Iv (c_head c) (or_intror eq_refl)) (leaf_of_covers _))
    as (h0 & Eu & _).
  destruct (prune_and_mark_spec lib (Prune num) [] target (c_table c) D) as (nodes & extra & Ep & Hn & _ & He);
    [eapply Forall_impl; [exact Rw | cbn; lia] | auto |]. rewrite (He (or_intror eq_refl)), app_nil_r in Ep. cbn [threshold] in Ep, Hn.
  eexists. split; [|split; [|split]].
  - unfold apply_revert, write_trie. change (head_update lib H HEIGHT c [] m) with (update_trie lib H HEIGHT (rows (c_table c))
      (leaf_of (c_map c (c_head c))) (c_root c (c_head c)) false [] m). cbn [ver v_root v_map] in Eu. rewrite Eu. cbn [try].
    unfold insert_trie. cbn [update_nodes_removed]. rewrite Ep. cbn [insert_added nodes_added update_nodes_removed try insert_root].
    reflexivity.
  - reflexivity.
  - reflexivity.
  - apply (doomed_purged target r c nodes h); auto; [lia | exact (inv_roots _ _ _ _ _ _ Iv) |].
    unfold trie_node_hash in *. cbn [rows] in *. rewrite Hn, decide_False; [exact Eh|].
    intros (row & [Hr Hlt]%due_elem & Hi)%elem_of_marked. pose proof (Late row Hr Hi). lia.
Qed.
End Doomed.

Lemma get_missing_root lib HEIGHT nodes M r key m : 0 < HEIGHT -> nodes !! r = None ->
  exists st', get (store_of lib nodes M) HEIGHT key (TrieChain.load (Some r) false m) = Ret (Err (NodeMissing r 0), st').
Proof.
  intros Hp En. unfold get, traverse, bind, self, TrieChain.load, tree_new, traverse_fuel. cbn [with_verify_hashes root].
  replace (2 * HEIGHT + 2) with (S (2 * HEIGHT + 1)) by lia. cbn [traverse_loop]. unfold bind, Tree.load. cbn [cells mem_alloc].
  rewrite lookup_insert_eq. unfold resolve. rewrite (proj2 (Nat.ltb_lt _ _)) by exact Hp.
  cbn [storage_get store_of table_storage]. unfold trie_node. cbn [rows]. rewrite En. unfold throw. eauto.
Qed.

(** C25: A revert without reverse updates can lose the trie of the last block.
    Take any chain with pruning and a kept block [target] before the last one
    such that both have the same map, so that there is nothing to reverse, but
    the root of the trie at [target] is recorded as removed.  An earlier revert
    leaves such a chain, as it writes a root at its own target even if that block
    did not change the trie.  The revert to [target] purges the later root and
    falls back to the removed one; after as many blocks without changes as are
    kept, and one more, pruning has deleted it, and every read of the last block
    fails with a missing node. *)
Theorem double_revert_loses_nodes (lib : Libraries) (H : Felt -> Felt -> outcome Felt) (HEIGHT : nat) (num : Z)
    (c : chain) (target r : Z) (key : bits) (m : Mem) (fuel : nat) :
  LibraryLaws lib -> FeltHash H -> 0 < HEIGHT <= 251 -> (0 <= num)%Z -> reachable lib H HEIGHT (Prune num) c ->
  (c_low c <= target < c_head c)%Z -> c_map c (c_head c) = c_map c target ->
  c_root c target = Some r -> r ∈ marked lib (removals (c_table c)) ->
  exists c', run lib H HEIGHT (Prune num) fuel m (Revert target [] :: repeat (AddBlock []) (S (Z.to_nat num))) c = Ret (Ok c') /\
    c_head c' = (target + num + 1)%Z /\ c_map c' (c_head c') = c_map c target /\
    exists st', get (store_of lib (rows (c_table c')) (c_map c' (c_head c'))) HEIGHT key
      (load (c_root c' (c_head c')) false m) = Ret (Err (NodeMissing r 0), st').
Proof.
  intros laws HH [Hp Hm] Hn Re Ht Em Er Mk.
  destruct (revert_dooms lib H HEIGHT Hp Hm num Hn fuel m c target r Re Ht Er Mk) as (c1 & E1 & Eh1 & Em1 & Dm).
  destruct (doomed_run lib H HEIGHT Hp Hm num fuel m target r (Z.to_nat num) c1 Dm) as (c' & E & Eh & Em' & Er' & Nr); [lia|].
  exists c'. cbn [run run_one]. rewrite E1. cbn [try]. split; [exact E|]. split; [exact Eh|].
  split; [now rewrite Em', Em1, Eh1|]. rewrite Er'. now apply get_missing_root.
Qed.

(** The chain before the second revert: a block that sets a key, a block without
    changes, a block that changes the key, and a revert of the third block. *)
Definition first_revert : outcome (result (TreeError StoreError) chain) :=
  run bincode_libraries sum_hash 3 (Prune 2) 100 no_mem
    [AddBlock [([true; false; true], small_felt 8)]; AddBlock []; AddBlock [([true; false; true], small_felt 9)];
     Revert 1 [([true; false; true], small_felt 8)]] genesis.

Lemma first_revert_reachable : exists c r, reachable bincode_libraries sum_hash 3 (Prune 2) c /\
  c_low c = 0%Z /\ c_head c = 1%Z /\ c_map c 1 = c_map c 0 /\ c_root c 0 = Some r /\
  r ∈ marked bincode_libraries (removals (c_table c)).
Proof.
  assert (Q : match first_revert with
    | Ret (Ok c) => bool_decide (c_low c = 0%Z /\ c_head c = 1%Z /\ c_map c 1 = c_map c 0 /\ c_root c 0 = Some 1%Z /\
        1%Z ∈ marked bincode_libraries (removals (c_table c)))
    | _ => false end = true) by (vm_compute; reflexivity).
  assert (Q2 : match run bincode_libraries sum_hash 3 (Prune 2) 100 no_mem
      [AddBlock [([true; false; true], small_felt 8)]; AddBlock []; AddBlock [([true; false; true], small_felt 9)]] genesis with
    | Ret (Ok c) => bool_decide (c_head c = 2%Z /\ map_set_all [([true; false; true], small_felt 8)] (c_map c 2) = c_map c 1)
    | _ => false end = true) by (vm_compute; reflexivity).
  unfold first_revert in Q. cbn [run run_one] in Q, Q2.
  destruct (apply_block _ _ _ _ _ _ _ genesis) as [[c1|]|] eqn:E1; try discriminate Q. cbn [try] in Q, Q2.
  destruct (apply_block _ _ _ _ _ _ _ c1) as [[c2|]|] eqn:E2; try discriminate Q. cbn [try] in Q, Q2.
  destruct (apply_block _ _ _ _ _ _ _ c2) as [[c3|]|] eqn:E3; try discriminate Q. cbn [try] in Q, Q2.
  destruct (apply_revert _ _ _ _ _ _ _ _ c3) as [[c4|]|] eqn:E4; try discriminate Q. cbn [try] in Q.
  apply bool_decide_eq_true_1 in Q, Q2. destruct Q2 as [Hh Hm]. exists c4, 1%Z. split; [|exact Q].
  eapply reach_step; [|refine (step_revert _ _ _ _ c3 1 _ _ _ c4 _ (one_update_ok [true; false; true] _ eq_refl (small_felt_ok 8)) no_mem_ok _ _ E4)];
    [| rewrite Hh; split; [discriminate | reflexivity] | rewrite Hh; exact Hm | left; discriminate].
  eapply reach_step; [|exact (step_block _ _ _ _ c2 _ _ _ c3 (one_update_ok [true; false; true] _ eq_refl (small_felt_ok 9)) no_mem_ok E3)].
  eapply reach_step; [|exact (step_block _ _ _ _ c1 _ _ _ c2 (Forall_nil_2 _) no_mem_ok E2)].
  eapply reach_step; [|exact (step_block _ _ _ _ genesis _ _ _ c1 (one_update_ok [true; false; true] _ eq_refl (small_felt_ok 8)) no_mem_ok E1)].
  apply reach_genesis.
Qed.

Lemma double_revert_loses_nodes_witness : exists c c' r, reachable bincode_libraries sum_hash 3 (Prune 2) c /\
  run bincode_libraries sum_hash 3 (Prune 2) 100 no_mem [Revert 0 []; AddBlock []; AddBlock []; AddBlock []] c = Ret (Ok c') /\
  exists st', get (store_of bincode_libraries (rows (c_table c')) (c_map c' (c_head c'))) 3 [true; false; true]
    (load (c_root c' (c_head c')) false no_mem) = Ret (Err (NodeMissing r 0), st').
Proof.
  destruct first_revert_reachable as (c & r & Re & Hl & Hh & Hm & Er & Mk). exists c.
  destruct (double_revert_loses_nodes bincode_libraries sum_hash 3 2 c 0 r [true; false; true] no_mem 100) as (c' & E & _ & _ & G);
    [exact bincode_laws | exact sum_hash_total | lia | lia | exact Re | lia | now rewrite Hh | exact Er | exact Mk |].
  exists c', r. split; [exact Re|]. split; [exact E | exact G].
Defined.

(** ** Root tables *)

(** Writing the root of a contract's trie at the last block changes what is
    read for that contract at that block and nothing else: every other contract,
    and every earlier block that is kept, reads as before, although rows are
    overwritten and old rows deleted.  Purging the last block undoes the write
    for the blocks before it. *)
Theorem contract_roots_correct (mode : TriePruneMode) (block : Z) (contract c : Felt) (update : RootIndexUpdate)
    (t : ContractRoots) (table : TrieTable) (b : Z) :
  (threshold mode block <= b <= block)%Z ->
  contract_root_index (insert_contract_root mode block contract update t) b c
    = (if decide (c = contract /\ b = block) then next_root update (contract_root_index t block contract)
       else contract_root_index t b c) /\
  ((b < block)%Z -> root_index (purge_block block (table, contract_roots_of
      (insert_contract_root mode block contract update t) c)).2 b = contract_root_index t b c).
Proof.
  intros [Ht Hb]. assert (R : contract_root_index (insert_contract_root mode block contract update t) b c
    = (if decide (c = contract /\ b = block) then next_root update (contract_root_index t block contract)
       else contract_root_index t b c)).
  { unfold contract_root_index, insert_contract_root, contract_roots_of. destruct (decide (c = contract)) as [->|N].
    - rewrite lookup_insert_eq. cbn [default from_option id].
      rewrite (root_index_written mode block update (default ∅ (t !! contract)) _ b) by (reflexivity || assumption).
      destruct (decide (b = block)); [rewrite decide_True | rewrite decide_False]; tauto.
    - rewrite lookup_insert_ne by congruence. rewrite decide_False by tauto. reflexivity. }
  split; [exact R|]. intros Hlt. rewrite decide_False in R by lia. rewrite <- R. unfold contract_root_index, root_index.
  cbn [purge_block snd]. rewrite (query_last_ext (contract_roots_of (insert_contract_root mode block contract update t) c));
    [reflexivity|]. intros k Hk. apply lookup_delete_ne. lia.
Qed.

Lemma contract_roots_correct_witness :
  contract_root_index (insert_contract_root (Prune 1) 5 (small_felt 1) (Updated 9) (<[small_felt 1 := {[4%Z := Some 3%Z]}]> ∅))
    4 (small_felt 1) = Some 3%Z.
Proof.
  rewrite (proj1 (contract_roots_correct (Prune 1) 5 (small_felt 1) (small_felt 1) (Updated 9)
    (<[small_felt 1 := {[4%Z := Some 3%Z]}]> ∅) (MkTable ∅ []) 4 (conj (Z.le_refl 4) (Z.lt_le_incl 4 5 eq_refl)))).
  vm_compute. reflexivity.
Defined.

(** The table of the contracts' state hashes has no unique index, so that
    writing a hash never replaces the one written before for the same block: both
    are answers of the query for the last one. *)
Theorem state_hash_not_replaced (mode : TriePruneMode) (block : Z) (contract h h' : Felt) (t : StateHashes) :
  valid_mode mode ->
  let t' := insert_contract_state_hash mode block contract h' (insert_contract_state_hash mode block contract h t) in
  contract_state_hash t' block contract h /\ contract_state_hash t' block contract h'.
Proof.
  intros Hm. cbv zeta. destruct (insert_contract_state_hash_rows mode block contract h t Hm) as [In1 _].
  destruct (insert_contract_state_hash_rows mode block contract h' (insert_contract_state_hash mode block contract h t) Hm)
    as [In2 Keep]. pose proof (Keep (block, contract, h) eq_refl In1) as In1'.
  split; exists block; (split; [exact (last_hash_block_at _ _ _ _ In2) | assumption]).
Qed.

