(* ===== verification/CommitmentTheorems.v ===== *)
(** The properties of the commitments of a block, of its hash and of the check
    of a block of the gateway. *)

From Stdlib Require Import ZArith Lia Bool List.
From stdpp Require Import gmap list.
From S2P Require Import Prelude Bytes Felt Pedersen MerkleNode Tree TrieSpec TreeHash TreeCommit TransactionTree.
From S2P Require Import Hashing Commitments BlockVerify CommitmentFacts VerifyFacts CurveTheorems TreeTheorems.
Local Open Scope Z_scope.

(** ** Commitment roots *)

(** C36: The commitment of a list of hashes never fails, and is the root of the
    trie of height 64 that holds the i-th hash at index i (a zero hash is no
    leaf), whatever hash function the trie uses. *)
Theorem commitment_root_correct (H : Felt -> Felt -> outcome Felt) (hashes : list Felt) :
  FeltHash H -> Forall felt_ok hashes -> Z.of_nat (length hashes) <= 2 ^ 64 ->
  exists root, calculate_commitment_root H hashes = Ret (Ok root) /\ felt_ok root /\
    spec_root H TRANSACTION_HEIGHT (index_map hashes) = Ret root.
Proof. intros HH Hf Hl. now apply commitment_root_spec. Qed.

Lemma commitment_root_correct_witness : exists root,
  calculate_commitment_root sum_hash [small_felt 5; small_felt 0; small_felt 9] = Ret (Ok root) /\
  spec_root sum_hash TRANSACTION_HEIGHT (index_map [small_felt 5; small_felt 0; small_felt 9]) = Ret root.
Proof.
  destruct (commitment_root_correct sum_hash [small_felt 5; small_felt 0; small_felt 9]) as (root & E & _ & S);
    [exact sum_hash_total | | cbn; lia | exists root; split; [exact E | exact S]].
  constructor; [exact (small_felt_ok 5)|]. constructor; [exact (small_felt_ok 0)|].
  constructor; [exact (small_felt_ok 9) | constructor].
Defined.

(** ** Block hashes *)

Definition sample_header (l2_price : Z) : BlockHeader := {|
  h_hash := FELT_ZERO; h_parent_hash := small_felt 1; h_number := 7; h_timestamp := 1700000000;
  h_eth_l1_gas_price := 3; h_strk_l1_gas_price := 4; h_eth_l1_data_gas_price := 5; h_strk_l1_data_gas_price := 6;
  h_eth_l2_gas_price := l2_price; h_strk_l2_gas_price := 0; h_sequencer_address := small_felt 2;
  h_starknet_version := MkVersion 0 13 3 0; h_event_commitment := small_felt 3; h_state_commitment := small_felt 4;
  h_transaction_commitment := small_felt 5; h_transaction_count := 2; h_event_count := 1; h_l1_da_mode := Blob;
  h_receipt_commitment := small_felt 6; h_state_diff_commitment := small_felt 7; h_state_diff_length := 9 |}.

Lemma sample_header_ok p : 0 <= p < 2 ^ 128 -> header_ok (sample_header p).
Proof.
  intros Hp. constructor; cbn [sample_header h_hash h_parent_hash h_number h_timestamp h_eth_l1_gas_price h_strk_l1_gas_price
    h_eth_l1_data_gas_price h_strk_l1_data_gas_price h_eth_l2_gas_price h_strk_l2_gas_price h_sequencer_address
    h_starknet_version h_event_commitment h_state_commitment h_transaction_commitment h_transaction_count h_event_count
    h_l1_da_mode h_receipt_commitment h_state_diff_commitment h_state_diff_length].
  - constructor; [exact FELT_ZERO_ok|]. constructor; [exact (small_felt_ok 1)|]. constructor; [exact (small_felt_ok 2)|].
    constructor; [exact (small_felt_ok 3)|]. constructor; [exact (small_felt_ok 4)|]. constructor; [exact (small_felt_ok 5)|].
    constructor; [exact (small_felt_ok 6)|]. constructor; [exact (small_felt_ok 7) | constructor].
  - unfold u64_ok. repeat (constructor; [lia|]). constructor.
  - unfold u128_ok. repeat (constructor; [lia|]). constructor.
  - unfold version_ok. cbn. lia.
Qed.

(** C35: The hash of a block (Starknet 0.13.2 and later) is defined for every valid
    header and commits to it: two headers with the same hash agree on every field
    that is hashed, including the version and the four counts packed into one
    felt, or they exhibit two different lists of felts with the same Poseidon
    hash.  The packing is injective below [2 ^ 59] transactions. *)
Theorem block_hash_binding (h h' : BlockHeader) :
  header_ok h -> header_ok h' -> h_transaction_count h < 2 ^ 59 -> h_transaction_count h' < 2 ^ 59 ->
  (exists x, compute_final_hash h = Ret x /\ felt_ok x) /\
  (compute_final_hash h = compute_final_hash h' ->
   same_header h h' \/ collision (header_words h) (header_words h') \/ collision (gas_price_words h) (gas_price_words h')).
Proof.
  intros Hh Hh' Hc Hc'. split; [now apply compute_final_hash_total|]. rewrite !compute_final_hash_words. intros E.
  destruct (header_preimage h Hh) as [fs F], (header_preimage h' Hh') as [fs' F'].
  destruct (hash_words_total _ _ F) as (x & Ex & P & _), (hash_words_total _ _ F') as (x' & Ex' & P' & _).
  rewrite Ex, Ex' in E. injection E as <-. destruct (same_hash _ _ _ _ _ F F' P P') as [W|C]; [|auto].
  destruct (header_words_inj h h' Hh Hh' Hc Hc' W); auto.
Qed.

(** Before 0.13.4 the prices of L2 gas are not hashed. *)
Lemma block_hash_binding_witness :
  (exists x, compute_final_hash (sample_header 1) = Ret x /\ felt_ok x) /\
  (same_header (sample_header 1) (sample_header 2) \/
   collision (header_words (sample_header 1)) (header_words (sample_header 2)) \/
   collision (gas_price_words (sample_header 1)) (gas_price_words (sample_header 2))).
Proof.
  destruct (block_hash_binding (sample_header 1) (sample_header 2)) as [T B];
    [apply sample_header_ok; lia | apply sample_header_ok; lia | cbn; lia | cbn; lia|].
  split; [exact T|]. apply B. rewrite !compute_final_hash_words. apply f_equal.
  unfold header_words. cbv zeta. cbn [sample_header h_starknet_version].
  change (version_ltb (MkVersion 0 13 3 0) V_0_13_4) with true. cbv iota. reflexivity.
Defined.

(** ** The check of a block *)

Definition sample_keccak (bytes : list Z) : list Z := repeat 255 32.

Definition sample_block : Block := {|
  b_block_hash := FELT_ZERO; b_block_number := 7; b_l1_gas_price := no_prices; b_l1_data_gas_price := no_prices;
  b_l2_gas_price := None; b_parent_block_hash := small_felt 1; b_sequencer_address := Some (small_felt 2);
  b_state_commitment := small_felt 4; b_timestamp := 1700000000;
  b_transaction_receipts := [(MkReceipt (small_felt 3) 10 11 [] (Reverted []) (small_felt 8), [MkEvent [] (small_felt 2) [small_felt 9]])];
  b_transactions := [MkTransaction (small_felt 8) (InvokeV1 [small_felt 1; small_felt 2])];
  b_starknet_version := MkVersion 0 13 4 0; b_transaction_commitment := FELT_ZERO; b_event_commitment := small_felt 3;
  b_l1_da_mode := Calldata; b_receipt_commitment := None |}.

(** C34: The check of a gateway block never fails or panics on valid data, and
    reports a match exactly when every commitment the gateway sent (zero or
    nothing stands for one it left out) is the root of the trie of the block's
    transactions, receipts or events, and the hash of the header with those roots,
    computed by the algorithm of the block's era, is the block's.  Only on mainnet
    a block before 0.13.2 may match with the fallback sequencer address. *)
Theorem verify_block_exact (tables : PedersenTables) (keccak : list Z -> list Z) (block : Block)
    (state_diff_commitment : Felt) (state_diff_length : Z) (chain : Chain) (chain_id : Felt) :
  let header := header_from_gateway_block block state_diff_commitment state_diff_length in
  tables_ok tables -> (forall bytes, bytes_ok (keccak bytes) /\ length (keccak bytes) = 32%nat) ->
  block_ok block -> header_ok header -> felt_ok chain_id ->
  exists r, verify_gateway_block_commitments_and_hash tables keccak block state_diff_commitment state_diff_length chain chain_id
      = Ret (Ok r) /\ (r = Match <-> block_matches tables keccak block header chain chain_id).
Proof. cbv zeta. intros Ht Hk Hb Hh Hc. now apply verify_gateway_spec. Qed.

Lemma sample_block_ok : block_ok sample_block.
Proof.
  constructor; cbn [sample_block b_transactions b_transaction_receipts].
  - split; [|unfold small; cbn; lia]. constructor; [|constructor]. split; [exact (small_felt_ok 8)|].
    split; [|unfold small; cbn; lia]. constructor; [exact (small_felt_ok 1)|]. constructor; [exact (small_felt_ok 2) | constructor].
  - constructor; [|constructor]. cbn [fst snd]. split.
    + split; [exact (small_felt_ok 3)|]. split; [exact (small_felt_ok 8)|]. cbn [r_l1_gas r_l1_data_gas r_l2_to_l1_messages].
      unfold u128_ok, small. split; [lia|]. split; [lia|]. split; [constructor | cbn; lia].
    + constructor; [|constructor]. split; [exact (small_felt_ok 2)|].
      split; [|split; [constructor | unfold small; cbn; lia]].
      split; [constructor; [exact (small_felt_ok 9) | constructor] | unfold small; cbn; lia].
  - unfold small. cbn. lia.
  - unfold small. cbn. lia.
Qed.

Lemma sample_block_header_ok : header_ok (header_from_gateway_block sample_block (small_felt 7) 9).
Proof.
  constructor.
  - constructor; [exact FELT_ZERO_ok|]. constructor; [exact (small_felt_ok 1)|]. constructor; [exact (small_felt_ok 2)|].
    constructor; [exact (small_felt_ok 3)|]. constructor; [exact (small_felt_ok 4)|]. constructor; [exact FELT_ZERO_ok|].
    constructor; [exact FELT_ZERO_ok|]. constructor; [exact (small_felt_ok 7) | constructor].
  - unfold u64_ok. repeat (constructor; [cbn; lia|]). constructor.
  - unfold u128_ok. repeat (constructor; [cbn; lia|]). constructor.
  - unfold version_ok. cbn. lia.
Qed.

Lemma verify_block_exact_witness : exists r,
  verify_gateway_block_commitments_and_hash sample_tables sample_keccak sample_block (small_felt 7) 9 SepoliaTestnet (small_felt 1)
    = Ret (Ok r) /\
  (r = Match <-> block_matches sample_tables sample_keccak sample_block
     (header_from_gateway_block sample_block (small_felt 7) 9) SepoliaTestnet (small_felt 1)).
Proof.
  refine (verify_block_exact sample_tables sample_keccak sample_block (small_felt 7) 9 SepoliaTestnet (small_felt 1)
    sample_tables_ok (fun _ => conj _ eq_refl) sample_block_ok sample_block_header_ok (small_felt_ok 1)).
  unfold sample_keccak. repeat (constructor; [lia|]). constructor.
Defined.

(** ** Versions *)

(** Printing a version and parsing it gives the version back (the fourth part
    is printed only when it is not zero, and version zero is the empty string),
    and so does packing it into 32 bits; both are therefore injective. *)
Theorem version_roundtrip (v : StarknetVersion) : version_ok v ->
  version_from_str (version_display v) = Some v /\ from_u32 (as_u32 v) = v /\ 0 <= as_u32 v < 2 ^ 32.
Proof.
  intros Hv. split; [now apply version_display_parse|]. split; [now apply version_u32|].
  destruct Hv as (Ha & Hb & Hc & Hd). destruct v as [a b c d]. cbn in *. unfold as_u32, from_be. cbn. lia.
Qed.

