(* ===== verification/TransactionFacts.v ===== *)
(** Facts on the hashes of transactions: what is hashed, that the hash is always
    defined, and what it binds. *)

From Stdlib Require Import String ZArith Lia Bool List.
From stdpp Require Import list.
From S2P Require Import Prelude Bytes Words Montgomery MontgomeryFacts MontBytes NumberTheory Fields Felt Poseidon Pedersen.
From S2P Require Import TreeMap Hashing Commitments CommitmentFacts Transactions CurveTheorems TreeTheorems.
Local Open Scope Z_scope.

#[local] Strategy 1000 [hash_chain pedersen_hash hash_words hash_limbs poseidon_list felt_bytes with_query_only].

(** ** What is hashed *)

(** A hash is over values and over hashes of lists of values, with one algorithm. *)
Inductive Algorithm : Type := PedersenChain | PoseidonSponge.

Inductive item : Type :=
| Value (f : Felt)
| Hashed (l : list Felt).

#[global] Instance Algorithm_eq_dec : EqDecision Algorithm.
Proof. solve_decision. Defined.

Record contents : Type := MkContents { algorithm : Algorithm; items : list item }.

(** Felts of numbers and names. *)
Definition u64_felt (u : Z) : Felt := repeat 0 24 ++ to_be 8 u.

Definition version_felt (n : Z) (query_only : bool) : Felt := repeat 0 15 ++ [Z.b2z query_only] ++ repeat 0 15 ++ [n].

Definition tag (s : string) : Felt := repeat 0 (32 - length (bytes_of_string s)) ++ bytes_of_string s.

Definition bound_felt (name : string) (bound : ResourceBound) : Felt :=
  repeat 0 (8 - length (bytes_of_string name)) ++ bytes_of_string name ++ to_be 8 (max_amount bound) ++ to_be 16 (max_price_per_unit bound).

Definition fee_values (tip : Z) (bounds : ResourceBounds) : list Felt :=
  [u64_felt tip; bound_felt "L1_GAS" (l1_gas bounds); bound_felt "L2_GAS" (l2_gas bounds)] ++
  match l1_data_gas bounds with Some bound => [bound_felt "L1_DATA" bound] | None => [] end.

Definition kind_name (k : TransactionKind) : string :=
  match k with
  | DeclareKind => "declare" | DeployKind => "deploy" | DeployAccountKind => "deploy_account" | InvokeKind => "invoke" | L1HandlerKind => "l1_handler"
  end.

Definition number (tx : TransactionVariant) : Z :=
  match tx with
  | DeclareV0 _ | DeployV0 _ | InvokeV0 _ | L1Handler _ => 0
  | DeclareV1 _ | DeployV1 _ | DeployAccountV1 _ | InvokeV1 _ => 1
  | DeclareV2 _ => 2
  | DeclareV3 _ | DeployAccountV3 _ | InvokeV3 _ => 3
  end.

(** Only handlers of messages from L1 have no version for queries. *)
Definition asked (tx : TransactionVariant) (query_only : bool) : bool := match tx with L1Handler _ => false | _ => query_only end.

Section Contents.
Context (chain_id : Felt).

Definition modes_felt (nonce_mode fee_mode : DataAvailabilityMode) : Felt :=
  u64_felt (u64_of_mode nonce_mode * 2 ^ 32 + u64_of_mode fee_mode).

Definition v3_rest (sender nonce : Felt) (tip : Z) (paymaster : list Felt) (nonce_mode fee_mode : DataAvailabilityMode)
    (bounds : ResourceBounds) (data : list item) (facts : list Felt) : list item :=
  [Value sender; Hashed (fee_values tip bounds); Hashed paymaster; Value chain_id; Value nonce; Value (modes_felt nonce_mode fee_mode)] ++
  data ++ match facts with [] => [] | _ => [Hashed facts] end.

(** Everything after the prefix and the version. *)
Definition rest_items (tx : TransactionVariant) : list item :=
  match tx with
  | DeclareV0 tx => [Value (d1_sender_address tx); Value FELT_ZERO; Hashed []; Value FELT_ZERO; Value chain_id; Value (d1_class_hash tx)]
  | DeclareV1 tx => [Value (d1_sender_address tx); Value FELT_ZERO; Hashed [d1_class_hash tx]; Value (d1_max_fee tx); Value chain_id;
      Value (d1_nonce tx)]
  | DeclareV2 tx => [Value (d2_sender_address tx); Value FELT_ZERO; Hashed [d2_class_hash tx]; Value (d2_max_fee tx); Value chain_id;
      Value (d2_nonce tx); Value (d2_compiled_class_hash tx)]
  | DeclareV3 tx => v3_rest (d3_sender_address tx) (d3_nonce tx) (d3_tip tx) (d3_paymaster_data tx) (d3_nonce_mode tx) (d3_fee_mode tx)
      (d3_resource_bounds tx) [Hashed (d3_account_deployment_data tx); Value (d3_class_hash tx); Value (d3_compiled_class_hash tx)] []
  | DeployV0 tx => [Value (p0_contract_address tx); Value CONSTRUCTOR; Hashed (p0_constructor_calldata tx); Value FELT_ZERO; Value chain_id]
  | DeployV1 tx => [Value (p1_contract_address tx); Value CONSTRUCTOR; Hashed (p1_constructor_calldata tx); Value FELT_ZERO; Value chain_id]
  | DeployAccountV1 tx => [Value (a1_contract_address tx); Value FELT_ZERO;
      Hashed (a1_class_hash tx :: a1_contract_address_salt tx :: a1_constructor_calldata tx); Value (a1_max_fee tx); Value chain_id;
      Value (a1_nonce tx)]
  | DeployAccountV3 tx => v3_rest (a3_contract_address tx) (a3_nonce tx) (a3_tip tx) (a3_paymaster_data tx) (a3_nonce_mode tx)
      (a3_fee_mode tx) (a3_resource_bounds tx) [Hashed (a3_constructor_calldata tx); Value (a3_class_hash tx);
      Value (a3_contract_address_salt tx)] []
  | InvokeV0 tx => [Value (i0_sender_address tx); Value (i0_entry_point_selector tx); Hashed (i0_calldata tx); Value (i0_max_fee tx);
      Value chain_id]
  | InvokeV1 tx => [Value (i1_sender_address tx); Value FELT_ZERO; Hashed (i1_calldata tx); Value (i1_max_fee tx); Value chain_id;
      Value (i1_nonce tx)]
  | InvokeV3 tx => v3_rest (i3_sender_address tx) (i3_nonce tx) (i3_tip tx) (i3_paymaster_data tx) (i3_nonce_mode tx) (i3_fee_mode tx)
      (i3_resource_bounds tx) [Hashed (i3_account_deployment_data tx); Hashed (i3_calldata tx)] (i3_proof_facts tx)
  | L1Handler tx => [Value (lh_contract_address tx); Value (lh_entry_point_selector tx); Hashed (lh_calldata tx); Value FELT_ZERO;
      Value chain_id; Value (lh_nonce tx)]
  end.

Definition contents_of (query_only : bool) (tx : TransactionVariant) : contents :=
  MkContents (if number tx =? 3 then PoseidonSponge else PedersenChain)
    (Value (tag (kind_name (kind tx))) :: Value (version_felt (number tx) (asked tx query_only)) :: rest_items tx).

(** The older hashes, which have no version; some variants have one or two. *)
Definition legacy_contents (tx : TransactionVariant) : list contents :=
  let legacy name address entry_point calldata nonce :=
    MkContents PedersenChain ([Value (tag name); Value address; Value entry_point; Hashed calldata; Value chain_id] ++ map Value nonce) in
  match tx with
  | DeployV0 tx => [legacy "deploy" (p0_contract_address tx) CONSTRUCTOR (p0_constructor_calldata tx) []]
  | DeployV1 tx => [legacy "deploy" (p1_contract_address tx) CONSTRUCTOR (p1_constructor_calldata tx) []]
  | InvokeV0 tx => [legacy "invoke" (i0_sender_address tx) (i0_entry_point_selector tx) (i0_calldata tx) []]
  | L1Handler tx => [legacy "invoke" (lh_contract_address tx) (lh_entry_point_selector tx) (lh_calldata tx) [];
      legacy "l1_handler" (lh_contract_address tx) (lh_entry_point_selector tx) (lh_calldata tx) [lh_nonce tx]]
  | _ => []
  end%string.
End Contents.

(** ** Valid transactions *)

Definition bound_ok (b : ResourceBound) : Prop := u64_ok (max_amount b) /\ u128_ok (max_price_per_unit b).

Definition bounds_ok (b : ResourceBounds) : Prop :=
  bound_ok (l1_gas b) /\ bound_ok (l2_gas b) /\ match l1_data_gas b with Some b => bound_ok b | None => True end.

Definition variant_ok (tx : TransactionVariant) : Prop :=
  match tx with
  | DeclareV0 tx | DeclareV1 tx => Forall felt_ok [d1_class_hash tx; d1_max_fee tx; d1_nonce tx; d1_sender_address tx]
  | DeclareV2 tx => Forall felt_ok [d2_class_hash tx; d2_max_fee tx; d2_nonce tx; d2_sender_address tx; d2_compiled_class_hash tx]
  | DeclareV3 tx => Forall felt_ok [d3_class_hash tx; d3_nonce tx; d3_sender_address tx; d3_compiled_class_hash tx] /\
      Forall felts_ok [d3_paymaster_data tx; d3_account_deployment_data tx] /\ u64_ok (d3_tip tx) /\ bounds_ok (d3_resource_bounds tx)
  | DeployV0 tx => Forall felt_ok [p0_class_hash tx; p0_contract_address tx; p0_contract_address_salt tx] /\
      felts_ok (p0_constructor_calldata tx)
  | DeployV1 tx => Forall felt_ok [p1_class_hash tx; p1_contract_address tx; p1_contract_address_salt tx] /\
      felts_ok (p1_constructor_calldata tx)
  | DeployAccountV1 tx => Forall felt_ok [a1_contract_address tx; a1_max_fee tx; a1_nonce tx] /\
      felts_ok (a1_class_hash tx :: a1_contract_address_salt tx :: a1_constructor_calldata tx)
  | DeployAccountV3 tx => Forall felt_ok [a3_contract_address tx; a3_nonce tx; a3_contract_address_salt tx; a3_class_hash tx] /\
      Forall felts_ok [a3_paymaster_data tx; a3_constructor_calldata tx] /\ u64_ok (a3_tip tx) /\ bounds_ok (a3_resource_bounds tx)
  | InvokeV0 tx => Forall felt_ok [i0_sender_address tx; i0_entry_point_selector tx; i0_max_fee tx] /\ felts_ok (i0_calldata tx)
  | InvokeV1 tx => Forall felt_ok [i1_sender_address tx; i1_max_fee tx; i1_nonce tx] /\ felts_ok (i1_calldata tx)
  | InvokeV3 tx => Forall felt_ok [i3_nonce tx; i3_sender_address tx] /\
      Forall felts_ok [i3_paymaster_data tx; i3_account_deployment_data tx; i3_calldata tx; i3_proof_facts tx] /\
      u64_ok (i3_tip tx) /\ bounds_ok (i3_resource_bounds tx)
  | L1Handler tx => Forall felt_ok [lh_contract_address tx; lh_entry_point_selector tx; lh_nonce tx] /\ felts_ok (lh_calldata tx)
  end.

(** ** Felts of numbers and names *)

Lemma cons_eq {A} (x y : A) l k : x :: l = y :: k -> x = y /\ l = k.
Proof. now injection 1. Qed.

Lemma padded_felt bytes : bytes_ok bytes -> (length bytes <= 31)%nat ->
  felt_from_be_slice bytes = Ok (repeat 0 (32 - length bytes) ++ bytes) /\ felt_ok (repeat 0 (32 - length bytes) ++ bytes).
Proof.
  intros B L. destruct (felt_from_short_slice bytes B L) as (f & E & Hf & _). rewrite E. rewrite felt_from_be_slice_spec in E by lia.
  apply felt_from_be_bytes_ok in E as [-> _]; [now split| |rewrite length_app, repeat_length; lia].
  apply digits_ok_app; auto with words.
Qed.

Lemma string_bytes s : bytes_ok (bytes_of_string s).
Proof.
  unfold bytes_of_string. apply Forall_map. induction (list_ascii_of_string s) as [|c l IH]; constructor; [|exact IH].
  pose proof (Ascii.nat_ascii_bounded c). lia.
Qed.

Lemma tag_spec s : (length (bytes_of_string s) <= 31)%nat -> felt_bytes s = Ret (tag s) /\ felt_ok (tag s).
Proof. intros L. unfold felt_bytes. destruct (padded_felt _ (string_bytes s) L) as [-> H]. now split. Qed.

Lemma kind_tag k : felt_bytes (kind_name k) = Ret (tag (kind_name k)) /\ felt_ok (tag (kind_name k)).
Proof. apply tag_spec. destruct k; cbn; lia. Qed.

Lemma kind_tag_inj k k' : tag (kind_name k) = tag (kind_name k') -> k = k'.
Proof. destruct k, k'; intros E; first [reflexivity | vm_compute in E; discriminate E]. Qed.

Lemma u64_felt_spec u : u64_ok u -> u64_word u = felt_word (u64_felt u) /\ felt_ok (u64_felt u).
Proof.
  intros Hu. unfold u64_word, from_u64, u64_felt. pose proof (to_digits_length 256 8 u) as L.
  destruct (padded_felt (to_be 8 u)) as [E H]; [unfold to_be; auto with words | unfold to_be; lia|]. rewrite E.
  unfold to_be in *. rewrite L in *. now split.
Qed.

Lemma to_be_inj n u v : 0 <= u < 256 ^ Z.of_nat n -> 0 <= v < 256 ^ Z.of_nat n -> to_be n u = to_be n v -> u = v.
Proof.
  intros Hu Hv E. apply (f_equal (digits_value 256)) in E. unfold to_be in E. rewrite !to_digits_value in E by lia. exact E.
Qed.

Lemma u64_felt_inj u v : u64_ok u -> u64_ok v -> u64_felt u = u64_felt v -> u = v.
Proof. intros Hu Hv E. apply app_inv_head in E. now apply (to_be_inj 8). Qed.

Lemma version_felt_spec n q : 0 <= n <= 3 -> with_query_only (version_const n) q = Ret (version_felt n q) /\ felt_ok (version_felt n q).
Proof.
  intros Hn. assert (C : n = 0 \/ n = 1 \/ n = 2 \/ n = 3) by lia. split.
  - destruct C as [->|[->|[->| ->]]], q; vm_compute; reflexivity.
  - split; [|split; [reflexivity|]].
    + unfold version_felt. repeat (apply digits_ok_app; [auto with words|]); repeat constructor; try lia; destruct q; cbn; lia.
    + destruct C as [->|[->|[->| ->]]], q; vm_compute; reflexivity.
Qed.

Lemma version_felt_inj n q n' q' : version_felt n q = version_felt n' q' -> n = n' /\ q = q'.
Proof.
  unfold version_felt. intros E. apply app_inv_head in E. injection E as Eq En. split; [exact En|].
  now destruct q, q'.
Qed.

(** ** Gas bounds *)

Lemma bound_felt_spec name b : (length (bytes_of_string name) <= 7)%nat -> bound_ok b ->
  gas_bound_word name b = felt_word (bound_felt name b) /\ felt_ok (bound_felt name b).
Proof.
  intros L [Ha Hp]. unfold gas_bound_word, pack_gas_bound. rewrite (proj2 (Nat.ltb_ge 8 _)) by lia.
  set (n := bytes_of_string name) in *.
  assert (B : bytes_ok (n ++ to_be 8 (max_amount b) ++ to_be 16 (max_price_per_unit b))).
  { apply digits_ok_app; split; [apply string_bytes|]. apply digits_ok_app; split; apply to_digits_ok; lia. }
  assert (Lb : length (n ++ to_be 8 (max_amount b) ++ to_be 16 (max_price_per_unit b)) = (length n + 24)%nat).
  { rewrite !length_app. unfold to_be. rewrite !to_digits_length. lia. }
  destruct (padded_felt _ B ltac:(lia)) as [E Hf]. rewrite Lb in *. replace (32 - (length n + 24))%nat with (8 - length n)%nat in * by lia.
  rewrite felt_from_be_slice_spec in E by lia. rewrite Lb in E. replace (32 - (length n + 24))%nat with (8 - length n)%nat in E by lia.
  fold n. rewrite E. cbn [unwrap_result bind_outcome]. unfold bound_felt. fold n. now split.
Qed.

Lemma bound_felt_inj name b b' : bound_ok b -> bound_ok b' -> bound_felt name b = bound_felt name b' -> b = b'.
Proof.
  intros [Ha Hp] [Ha' Hp'] E. unfold bound_felt in E. apply app_inv_head, app_inv_head in E.
  apply app_inj_1 in E as [E1 E2]; [|unfold to_be; now rewrite !to_digits_length].
  apply (to_be_inj 8) in E1; [|assumption..]. apply (to_be_inj 16) in E2; [|assumption..].
  destruct b, b'. cbn in *. congruence.
Qed.

Definition fee_ok (tip : Z) (bounds : ResourceBounds) : Prop := u64_ok tip /\ bounds_ok bounds.

Lemma fee_values_ok tip bounds : fee_ok tip bounds -> felts_ok (fee_values tip bounds).
Proof.
  intros (Ht & H1 & H2 & H3). unfold fee_values. split.
  - apply Forall_app. split.
    + rewrite !Forall_cons. split; [now apply u64_felt_spec|]. split; [|split; [|constructor]]; (apply bound_felt_spec; [cbn; lia | assumption]).
    + destruct (l1_data_gas bounds); [|constructor]. apply Forall_singleton, bound_felt_spec; [cbn; lia | assumption].
  - unfold small. destruct (l1_data_gas bounds); cbn; lia.
Qed.

Lemma fee_values_inj tip bounds tip' bounds' : fee_ok tip bounds -> fee_ok tip' bounds' ->
  fee_values tip bounds = fee_values tip' bounds' -> tip = tip' /\ bounds = bounds'.
Proof.
  intros (Ht & H1 & H2 & H3) (Ht' & H1' & H2' & H3') E. unfold fee_values in E. cbn [app] in E.
  apply cons_eq in E as [E0 E]. apply cons_eq in E as [E1 E]. apply cons_eq in E as [E2 E3].
  apply u64_felt_inj in E0; [|assumption..]. apply bound_felt_inj in E1; [|assumption..]. apply bound_felt_inj in E2; [|assumption..].
  split; [exact E0|]. destruct bounds as [g1 g2 [g3|]], bounds' as [g1' g2' [g3'|]]; cbn [l1_gas l2_gas l1_data_gas] in *;
    try discriminate E3; [|congruence].
  apply cons_eq in E3 as [E3 _]. apply bound_felt_inj in E3; [|assumption..]. congruence.
Qed.

Lemma mode_bound m : 0 <= u64_of_mode m <= 1.
Proof. destruct m; cbn; lia. Qed.

Lemma modes_felt_inj a b a' b' : modes_felt a b = modes_felt a' b' -> a = a' /\ b = b'.
Proof.
  intros E. apply u64_felt_inj in E; [|unfold u64_ok; pose proof (mode_bound a); pose proof (mode_bound b);
    pose proof (mode_bound a'); pose proof (mode_bound b'); lia..].
  destruct a, b, a', b'; cbn in E; first [now split | lia].
Qed.

(** ** Evaluation *)

Definition item_ok (i : item) : Prop := match i with Value f => felt_ok f | Hashed l => felts_ok l end.

Definition contents_ok (p : contents) : Prop := Forall item_ok (items p) /\ small (items p).

Section Evaluation.
Context (tables : PedersenTables) (Ht : tables_ok tables).

Definition hash_of (a : Algorithm) (l : list Felt) : outcome Felt :=
  match a with PedersenChain => hash_chain tables l | PoseidonSponge => poseidon_list l end.

Definition item_value (a : Algorithm) (i : item) : outcome Felt := match i with Value f => Ret f | Hashed l => hash_of a l end.

Definition eval (p : contents) : outcome Felt :=
  let! values := map_all (item_value (algorithm p)) (items p) in hash_of (algorithm p) values.

Lemma hash_of_total a l : felts_ok l -> exists h, hash_of a l = Ret h /\ felt_ok h.
Proof.
  intros Hl. destruct a; [exact (hash_chain_total tables Ht l Hl)|].
  destruct (hash_words_total _ _ (word_felts l (proj1 Hl))) as (h & E & _ & Hh). exists h. now split.
Qed.

Lemma item_total a i : item_ok i -> exists v, item_value a i = Ret v /\ felt_ok v.
Proof. destruct i as [f|l]; cbn; intros H; [eauto | now apply hash_of_total]. Qed.

Lemma contents_values p : contents_ok p -> exists values, map_all (item_value (algorithm p)) (items p) = Ret values /\ felts_ok values /\
  Forall2 (fun i v => item_value (algorithm p) i = Ret v) (items p) values.
Proof.
  intros [F S]. destruct (map_all_total (item_value (algorithm p)) (items p)) as (vs & E & Fv & F2).
  { eapply Forall_impl; [exact F|]. intros i. apply item_total. }
  exists vs. split; [exact E|]. split; [split; [exact Fv|] | exact F2]. unfold small in *. now rewrite <- (Forall2_length _ _ _ F2).
Qed.

Lemma eval_total p : contents_ok p -> exists h, eval p = Ret h /\ felt_ok h.
Proof.
  intros Hp. destruct (contents_values p Hp) as (vs & E & Hv & _). unfold eval. rewrite E. cbn [bind_outcome]. now apply hash_of_total.
Qed.

(** *** The contents of valid transactions *)

Lemma v3_rest_ok chain_id sender nonce tip paymaster nonce_mode fee_mode bounds data facts :
  felt_ok chain_id -> felt_ok sender -> felt_ok nonce -> fee_ok tip bounds -> felts_ok paymaster -> Forall item_ok data -> felts_ok facts ->
  Forall item_ok (v3_rest chain_id sender nonce tip paymaster nonce_mode fee_mode bounds data facts).
Proof.
  intros Hc Hs Hn Hf Hp Hd Hx. unfold v3_rest. apply Forall_app. split.
  - rewrite !Forall_cons. cbn [item_ok]. repeat (split; [first [assumption | now apply fee_values_ok]|]). split; [|constructor].
    apply u64_felt_spec. unfold u64_ok. pose proof (mode_bound nonce_mode). pose proof (mode_bound fee_mode). lia.
  - apply Forall_app. split; [exact Hd|]. destruct facts; [constructor | now apply Forall_singleton].
Qed.

Lemma one_felt_ok f : felt_ok f -> felts_ok [f].
Proof. intros H. split; [now apply Forall_singleton | unfold small; cbn; lia]. Qed.

Lemma CONSTRUCTOR_ok : felt_ok CONSTRUCTOR.
Proof. split; [|split; [reflexivity | vm_compute; reflexivity]]. unfold CONSTRUCTOR. repeat constructor; lia. Qed.

Lemma rest_ok chain_id tx : felt_ok chain_id -> variant_ok tx -> Forall item_ok (rest_items chain_id tx).
Proof.
  intros Hc Hv. pose proof FELT_ZERO_ok as Hz. pose proof CONSTRUCTOR_ok as Hk. pose proof felts_ok_nil as Hn.
  destruct tx; cbn [variant_ok rest_items] in *; rewrite !Forall_cons in Hv; destruct_and?;
    first [ apply v3_rest_ok; [assumption | assumption | assumption | split; assumption | assumption | | assumption];
            rewrite !Forall_cons; cbn [item_ok]; repeat (split; [assumption|]); constructor
          | rewrite !Forall_cons; cbn [item_ok]; repeat (split; [first [assumption | now apply one_felt_ok]|]); constructor ].
Qed.

Lemma rest_small chain_id tx : (length (rest_items chain_id tx) <= 10)%nat.
Proof. destruct tx; cbn [rest_items v3_rest app length]; try lia. destruct (i3_proof_facts tx); cbn [length]; lia. Qed.

Lemma number_bound tx : 0 <= number tx <= 3.
Proof. destruct tx; cbn; lia. Qed.

Lemma contents_of_ok chain_id q tx : felt_ok chain_id -> variant_ok tx -> contents_ok (contents_of chain_id q tx).
Proof.
  intros Hc Hv. split; cbn [contents_of items].
  - rewrite !Forall_cons. cbn [item_ok]. split; [apply kind_tag|]. split; [apply (version_felt_spec _ _ (number_bound tx))|].
    now apply rest_ok.
  - unfold small. cbn [length]. pose proof (rest_small chain_id tx). lia.
Qed.

(** *** The code computes the hash of the contents *)

Lemma single_chain x : chain_single (pedersen_hash tables) x = hash_chain tables [x].
Proof.
  unfold chain_single, hash_chain. cbn [chain_updates]. now destruct (chain_update (pedersen_hash tables) chain_default x).
Qed.

Lemma eval_pedersen its vs : map_all (item_value PedersenChain) its = Ret vs -> eval (MkContents PedersenChain its) = hash_chain tables vs.
Proof. intros E. unfold eval. cbn [algorithm items]. rewrite E. reflexivity. Qed.

(** A hash over values, with one list of data among them. *)
Lemma eval_data before l d after : hash_chain tables l = Ret d ->
  eval (MkContents PedersenChain (map Value before ++ Hashed l :: map Value after)) = hash_chain tables (before ++ d :: after).
Proof.
  intros E. apply eval_pedersen. induction before as [|v before IH].
  - cbn [map app map_all item_value hash_of]. rewrite E. cbn [bind_outcome].
    assert (A : map_all (item_value PedersenChain) (map Value after) = Ret after).
    { clear. induction after as [|v after IH]; [reflexivity|]. cbn. now rewrite IH. }
    rewrite A. reflexivity.
  - cbn [map app map_all item_value]. cbn [bind_outcome]. rewrite IH. reflexivity.
Qed.

Lemma tag_of name k : kind_name k = name -> felt_bytes name = Ret (tag name).
Proof. intros <-. apply kind_tag. Qed.

Lemma legacy_eval prefix address entry_point l d chain_id nonce : hash_chain tables l = Ret d ->
  legacy_hash tables (MkLegacy prefix address entry_point d nonce) chain_id =
  eval (MkContents PedersenChain ([Value prefix; Value address; Value entry_point; Hashed l; Value chain_id] ++ map Value (opt_update nonce))).
Proof.
  intros E. symmetry. exact (eval_data [prefix; address; entry_point] l d (chain_id :: opt_update nonce) E).
Qed.

Lemma pre_v3_eval prefix version address entry_point l d max_fee chain_id nonce casm : hash_chain tables l = Ret d ->
  pre_v3_hash tables (MkPreV3 prefix version address entry_point d max_fee nonce casm) chain_id =
  eval (MkContents PedersenChain ([Value prefix; Value version; Value address; Value entry_point; Hashed l; Value max_fee; Value chain_id] ++
    map Value (opt_update nonce ++ opt_update casm))).
Proof.
  intros E. symmetry.
  exact (eval_data [prefix; version; address; entry_point] l d (max_fee :: chain_id :: opt_update nonce ++ opt_update casm) E).
Qed.

(** The words of a hash with Poseidon are felts. *)
Lemma hash_limbs_list l : Forall felt_ok l -> exists h, hash_limbs (map felt_word l) = felt_word h /\ poseidon_list l = Ret h.
Proof.
  intros Hl. destruct (hash_limbs_word _ _ (word_felts l Hl)) as (h & [E _] & P).
  destruct (hash_words_total _ _ (word_felts l Hl)) as (h' & E' & P' & _). rewrite P in P'. injection P' as <-. exists h. now split.
Qed.

Lemma fee_fields_eval self : fee_ok (v3_tip self) (v3_resource_bounds self) ->
  hash_fee_fields self = poseidon_list (fee_values (v3_tip self) (v3_resource_bounds self)).
Proof.
  intros (Hu & H1 & H2 & H3). unfold hash_fee_fields, poseidon_list, fee_values. rewrite (proj1 (u64_felt_spec _ Hu)).
  rewrite (proj1 (bound_felt_spec "L1_GAS" _ ltac:(cbn; lia) H1)), (proj1 (bound_felt_spec "L2_GAS" _ ltac:(cbn; lia) H2)).
  destruct (l1_data_gas (v3_resource_bounds self)) as [b|]; [|reflexivity].
  rewrite (proj1 (bound_felt_spec "L1_DATA" _ ltac:(cbn; lia) H3)). reflexivity.
Qed.

Lemma modes_eval self : u64_word (pack_data_availability self) = felt_word (modes_felt (v3_nonce_mode self) (v3_fee_mode self)).
Proof.
  unfold pack_data_availability. replace ((_ + _) mod 2 ^ 64) with (u64_of_mode (v3_nonce_mode self) * 2 ^ 32 + u64_of_mode (v3_fee_mode self)).
  - apply u64_felt_spec. unfold u64_ok. pose proof (mode_bound (v3_nonce_mode self)). pose proof (mode_bound (v3_fee_mode self)). lia.
  - now destruct (v3_nonce_mode self), (v3_fee_mode self).
Qed.

Lemma map_all_app (f : item -> outcome Felt) l l' vs vs' : map_all f l = Ret vs -> map_all f l' = Ret vs' -> map_all f (l ++ l') = Ret (vs ++ vs').
Proof.
  revert vs. induction l as [|x l IH]; intros vs E E'; [injection E as <-; exact E'|]. cbn [map_all app] in *.
  destruct (f x) as [v|]; [|discriminate E]. cbn [bind_outcome] in *. destruct (map_all f l) as [ws|]; [|discriminate E].
  cbn [bind_outcome] in E. injection E as <-. rewrite (IH ws eq_refl E'). reflexivity.
Qed.

Lemma v3_eval self chain_id data : fee_ok (v3_tip self) (v3_resource_bounds self) -> felts_ok (v3_paymaster_data self) ->
  felts_ok (v3_proof_facts self) -> map_all (item_value PoseidonSponge) data = Ret (v3_data_hashes self) ->
  v3_hash self chain_id = eval (MkContents PoseidonSponge (Value (v3_prefix self) :: Value (version_felt 3 (v3_query_only self)) ::
    v3_rest chain_id (v3_sender_address self) (v3_nonce self) (v3_tip self) (v3_paymaster_data self) (v3_nonce_mode self) (v3_fee_mode self)
      (v3_resource_bounds self) data (v3_proof_facts self))).
Proof.
  intros Hf [Hp _] [Hx _] Ed. unfold v3_hash, VERSION_THREE. rewrite (proj1 (version_felt_spec 3 _ ltac:(lia))), (fee_fields_eval _ Hf), modes_eval.
  destruct (hash_limbs_list _ (proj1 (fee_values_ok _ _ Hf))) as (hf & _ & Ef), (hash_limbs_list _ Hp) as (hp & _ & Ep).
  unfold hash_paymaster_data. rewrite Ef, Ep. unfold into_word. cbn [bind_outcome]. unfold eval. cbn [algorithm items].
  set (facts := match v3_proof_facts self with [] => [] | _ => [Hashed (v3_proof_facts self)] end).
  assert (X : exists xs, map_all (item_value PoseidonSponge) facts = Ret xs /\
    match v3_proof_facts self with [] => [] | x => [hash_limbs (map felt_word x)] end = map felt_word xs).
  { unfold facts. destruct (v3_proof_facts self) as [|x xs]; [exists []; now split|].
    destruct (hash_limbs_list (x :: xs) Hx) as (h & E & P). exists [h]. rewrite E. cbn [map_all item_value hash_of]. rewrite P. now split. }
  destruct X as (xs & Ex & ->). unfold v3_rest. fold facts. cbn [app].
  pose proof (map_all_app _ _ _ _ _ Ed Ex) as Er. set (r := data ++ facts) in *. cbn [map_all item_value hash_of]. rewrite Ef, Ep, Er.
  cbn [bind_outcome]. unfold poseidon_list. rewrite <- map_app. reflexivity.
Qed.

Lemma v3_eval' prefix sender nonce data hashes tip paymaster nonce_mode fee_mode bounds q facts chain_id :
  fee_ok tip bounds -> felts_ok paymaster -> felts_ok facts -> map_all (item_value PoseidonSponge) data = Ret hashes ->
  v3_hash (MkV3 prefix sender nonce hashes tip paymaster nonce_mode fee_mode bounds q facts) chain_id =
  eval (MkContents PoseidonSponge (Value prefix :: Value (version_felt 3 q) ::
    v3_rest chain_id sender nonce tip paymaster nonce_mode fee_mode bounds data facts)).
Proof. intros Hf Hp Hx Ed. exact (v3_eval (MkV3 prefix sender nonce hashes tip paymaster nonce_mode fee_mode bounds q facts) chain_id data Hf Hp Hx Ed). Qed.

(** The list that is hashed first, and the rest of a hash before version 3. *)
Ltac pedersen_data l Et n :=
  let d := fresh "d" in let Ed := fresh "Ed" in
  destruct (hash_chain_total tables Ht l) as (d & Ed & _); [first [assumption | now apply one_felt_ok | exact felts_ok_nil]|];
  unfold VERSION_ZERO, VERSION_ONE, VERSION_TWO; rewrite ?single_chain, ?Ed; rewrite ?bind_ret; rewrite Et; rewrite ?bind_ret;
  rewrite ?(proj1 (version_felt_spec n _ ltac:(lia))); rewrite ?bind_ret; rewrite ?Ed; rewrite ?bind_ret;
  exact (pre_v3_eval _ _ _ _ l d _ _ _ _ Ed).

Ltac poseidon_data l :=
  let d := fresh "d" in let Ed := fresh "Ed" in
  destruct (hash_of_total PoseidonSponge l) as (d & Ed & _); [assumption|]; cbn [hash_of] in Ed; rewrite Ed; rewrite ?bind_ret.

Ltac v3_data Et :=
  rewrite Et; rewrite ?bind_ret; apply v3_eval'; [now split | assumption | first [assumption | exact felts_ok_nil]|];
  cbn [map_all item_value hash_of];
  repeat match goal with Ed : poseidon_list _ = Ret _ |- _ => rewrite Ed; clear Ed end; reflexivity.

(** The fields of a valid transaction. *)
Ltac variant_fields tx Hv K :=
  destruct tx as [tx|tx|tx|tx|tx|tx|tx|tx|tx|tx|tx|tx]; try discriminate K;
  cbn [calculate_hash calculate_legacy_hash variant_ok] in *; rewrite ?Forall_cons in Hv; destruct_and?.

Lemma declare_eval chain_id q tx : variant_ok tx -> kind tx = DeclareKind -> calculate_hash tables tx chain_id q = eval (contents_of chain_id q tx).
Proof.
  intros Hv K. pose proof (tag_of "declare" DeclareKind eq_refl) as Et. variant_fields tx Hv K.
  - unfold declare_hash_v0. destruct (hash_chain_total tables Ht _ felts_ok_nil) as (d & Ed & _).
    rewrite Et, bind_ret. unfold VERSION_ZERO. rewrite (proj1 (version_felt_spec 0 q ltac:(lia))), bind_ret, Ed, bind_ret. exact (pre_v3_eval _ _ _ _ [] d _ _ _ _ Ed).
  - unfold declare_hash_v1. pedersen_data [d1_class_hash tx] Et 1.
  - unfold declare_hash_v2. pedersen_data [d2_class_hash tx] Et 2.
  - unfold declare_hash_v3. poseidon_data (d3_account_deployment_data tx). v3_data Et.
Qed.

Lemma deploy_eval chain_id q tx : variant_ok tx -> kind tx = DeployKind -> calculate_hash tables tx chain_id q = eval (contents_of chain_id q tx).
Proof.
  intros Hv K. pose proof (tag_of "deploy" DeployKind eq_refl) as Et. variant_fields tx Hv K.
  - unfold deploy_hash_v0. pedersen_data (p0_constructor_calldata tx) Et 0.
  - unfold deploy_hash_v1. pedersen_data (p1_constructor_calldata tx) Et 1.
Qed.

Lemma deploy_account_eval chain_id q tx : variant_ok tx -> kind tx = DeployAccountKind ->
  calculate_hash tables tx chain_id q = eval (contents_of chain_id q tx).
Proof.
  intros Hv K. pose proof (tag_of "deploy_account" DeployAccountKind eq_refl) as Et. variant_fields tx Hv K.
  - unfold deploy_account_hash_v1. pedersen_data (a1_class_hash tx :: a1_contract_address_salt tx :: a1_constructor_calldata tx) Et 1.
  - unfold deploy_account_hash_v3. poseidon_data (a3_constructor_calldata tx). v3_data Et.
Qed.

Lemma invoke_eval chain_id q tx : variant_ok tx -> kind tx = InvokeKind -> calculate_hash tables tx chain_id q = eval (contents_of chain_id q tx).
Proof.
  intros Hv K. pose proof (tag_of "invoke" InvokeKind eq_refl) as Et. variant_fields tx Hv K.
  - unfold invoke_hash_v0. pedersen_data (i0_calldata tx) Et 0.
  - unfold invoke_hash_v1. pedersen_data (i1_calldata tx) Et 1.
  - unfold invoke_hash_v3. poseidon_data (i3_account_deployment_data tx). poseidon_data (i3_calldata tx). v3_data Et.
Qed.

Lemma handler_eval chain_id q tx : variant_ok tx -> kind tx = L1HandlerKind ->
  calculate_hash tables tx chain_id q = eval (contents_of chain_id q tx).
Proof.
  intros Hv K. pose proof (tag_of "l1_handler" L1HandlerKind eq_refl) as Et. variant_fields tx Hv K.
  unfold l1_handler_hash. pedersen_data (lh_calldata tx) Et 0.
Qed.

Lemma calculate_hash_eval chain_id q tx : variant_ok tx -> calculate_hash tables tx chain_id q = eval (contents_of chain_id q tx).
Proof.
  intros Hv. destruct (kind tx) eqn:K; [now apply declare_eval | now apply deploy_eval | now apply deploy_account_eval |
    now apply invoke_eval | now apply handler_eval].
Qed.
End Evaluation.

(** ** Collisions *)

Section Collisions.
Context (tables : PedersenTables) (Ht : tables_ok tables).

Abbreviation H := (pedersen_fun tables).

(** The pairs that a chain of Pedersen hashes is made of. *)
Fixpoint steps (h : Felt) (l : list Felt) {struct l} : list (Felt * Felt) :=
  match l with
  | [] => []
  | v :: l => (h, v) :: steps (H h v) l
  end.

Definition chain_inputs (l : list Felt) : list (Felt * Felt) :=
  steps FELT_ZERO l ++ [(fold_left H l FELT_ZERO, u64_felt (Z.of_nat (length l)))].

(** Two different pairs with one hash, in two lists of pairs. *)
Definition pair_collision (ps ps' : list (Felt * Felt)) : Prop :=
  exists p p' h, p ∈ ps /\ p' ∈ ps' /\ p <> p' /\ pedersen_hash tables p.1 p.2 = Ret h /\ pedersen_hash tables p'.1 p'.2 = Ret h.

Definition list_collision (a a' : Algorithm) (l l' : list Felt) : Prop :=
  match a, a' with
  | PedersenChain, PedersenChain => pair_collision (chain_inputs l) (chain_inputs l')
  | _, _ => (a, l) <> (a', l') /\ exists h, hash_of tables a l = Ret h /\ hash_of tables a' l' = Ret h
  end.

(** Two different inputs with one hash, of the values or of two lists that are
    hashed first. *)
Definition collides (p p' : contents) : Prop :=
  (exists vs vs', map_all (item_value tables (algorithm p)) (items p) = Ret vs /\
     map_all (item_value tables (algorithm p')) (items p') = Ret vs' /\ list_collision (algorithm p) (algorithm p') vs vs') \/
  (exists l l', Hashed l ∈ items p /\ Hashed l' ∈ items p' /\ list_collision (algorithm p) (algorithm p') l l').

Lemma pair_collision_weaken ps ps' qs qs' : (forall p, p ∈ ps -> p ∈ qs) -> (forall p, p ∈ ps' -> p ∈ qs') ->
  pair_collision ps ps' -> pair_collision qs qs'.
Proof. intros S S' (p & p' & h & Hp & Hp' & N & E & E'). exists p, p', h. auto. Qed.

Lemma same_pair a b a' b' ps ps' : felt_ok a -> felt_ok b -> felt_ok a' -> felt_ok b' -> (a, b) ∈ ps -> (a', b') ∈ ps' ->
  H a b = H a' b' -> a = a' /\ b = b' \/ pair_collision ps ps'.
Proof.
  intros Ha Hb Ha' Hb' Hp Hp' E. destruct (decide ((a, b) = (a', b'))) as [[= -> ->]|N]; [now left|]. right.
  exists (a, b), (a', b'), (H a b). do 3 (split; [assumption|]). cbn [fst snd]. rewrite E at 2.
  split; now apply (pedersen_fun_eq tables Ht).
Qed.

Lemma ret_inj {A} (a b : A) : Ret a = Ret b -> a = b.
Proof. now injection 1. Qed.

Lemma steps_app h l v : steps h (l ++ [v]) = steps h l ++ [(fold_left H l h, v)].
Proof. revert h. induction l as [|x l IH]; intros h; [reflexivity|]. cbn. now rewrite IH. Qed.

Lemma steps_inj l : forall l', length l = length l' -> Forall felt_ok l -> Forall felt_ok l' ->
  fold_left H l FELT_ZERO = fold_left H l' FELT_ZERO -> l = l' \/ pair_collision (steps FELT_ZERO l) (steps FELT_ZERO l').
Proof.
  pose proof FELT_ZERO_ok as Hz. induction l as [|v l IH] using rev_ind; intros l' L F F' E.
  - left. now destruct l'.
  - destruct l' as [|v' l' _] using rev_ind; [rewrite length_app in L; cbn in L; lia|]. rewrite !length_app in L. cbn in L.
    apply Forall_app in F as [F Fv], F' as [F' Fv']. apply Forall_cons in Fv as [Fv _], Fv' as [Fv' _]. rewrite !fold_left_app in E. cbn [fold_left] in E.
    rewrite !steps_app. assert (A : forall m, Forall felt_ok m -> felt_ok (fold_left H m FELT_ZERO)).
    { intros m Hm. now apply (fold_pedersen_ok tables Ht). }
    destruct (same_pair _ _ _ _ (steps FELT_ZERO l ++ [(fold_left H l FELT_ZERO, v)]) (steps FELT_ZERO l' ++ [(fold_left H l' FELT_ZERO, v')])
      (A l F) Fv (A l' F') Fv' ltac:(apply elem_of_app; right; now left) ltac:(apply elem_of_app; right; now left) E) as [[E1 ->]|C]; [|now right].
    destruct (IH l' ltac:(lia) F F' E1) as [->|C]; [now left|]. right. revert C. apply pair_collision_weaken; intros p Hp; apply elem_of_app; now left.
Qed.

Lemma u64_value u : u64_ok u -> be_value (u64_felt u) = u.
Proof.
  intros Hu. destruct (u64_word_of u Hu) as (f & [E Hf] & V), (u64_felt_spec u Hu) as [E' Hf']. rewrite E in E'.
  now rewrite <- (felt_word_inj _ _ Hf Hf' E').
Qed.

Lemma hash_chain_value l : felts_ok l -> hash_chain tables l = Ret (H (fold_left H l FELT_ZERO) (u64_felt (Z.of_nat (length l)))).
Proof.
  intros [F S]. unfold hash_chain.
  destruct (chain_spec (pedersen_hash tables) H (fun a b Ha Hb => proj1 (pedersen_fun_eq tables Ht a b Ha Hb))
    (fun a b Ha Hb => proj2 (pedersen_fun_eq tables Ht a b Ha Hb)) l F S) as (count & Hc & V & ->).
  assert (Hu : u64_ok (Z.of_nat (length l))) by (unfold u64_ok; unfold small in S; lia).
  rewrite (felt_inj count (u64_felt (Z.of_nat (length l)))); [reflexivity | exact Hc | now apply u64_felt_spec|].
  now rewrite u64_value.
Qed.

Lemma chain_inj l l' : felts_ok l -> felts_ok l' -> hash_chain tables l = hash_chain tables l' ->
  l = l' \/ pair_collision (chain_inputs l) (chain_inputs l').
Proof.
  intros Hl Hl' E. rewrite !hash_chain_value in E by assumption. apply ret_inj in E. destruct Hl as [F S], Hl' as [F' S'].
  assert (U : forall m : list Felt, small m -> u64_ok (Z.of_nat (length m))) by (intros m Hm; unfold u64_ok; unfold small in Hm; lia).
  destruct (same_pair _ _ _ _ (chain_inputs l) (chain_inputs l') (fold_pedersen_ok tables Ht l F _ FELT_ZERO_ok)
    (proj2 (u64_felt_spec _ (U l S))) (fold_pedersen_ok tables Ht l' F' _ FELT_ZERO_ok) (proj2 (u64_felt_spec _ (U l' S')))
    ltac:(apply elem_of_app; right; now left) ltac:(apply elem_of_app; right; now left) E) as [[E1 E2]|C]; [|now right].
  apply u64_felt_inj in E2; [|now apply U..]. destruct (steps_inj l l' ltac:(lia) F F' E1) as [->|C]; [now left|]. right.
  revert C. apply pair_collision_weaken; intros p Hp; apply elem_of_app; now left.
Qed.

Lemma hash_of_inj a a' l l' : felts_ok l -> felts_ok l' -> hash_of tables a l = hash_of tables a' l' ->
  a = a' /\ l = l' \/ list_collision a a' l l'.
Proof.
  intros Hl Hl' E. destruct (hash_of_total tables Ht a l Hl) as (h & Eh & _). pose proof Eh as Eh'. rewrite E in Eh'.
  destruct (decide ((a, l) = (a', l'))) as [[= -> ->]|N]; [now left|].
  destruct a, a'; [|right; split; [exact N | eauto]..]. destruct (chain_inj l l' Hl Hl' E) as [->|C]; [now left | now right].
Qed.

(** ** Equal hashes *)

Definition same_shape (i i' : item) : Prop :=
  match i, i' with
  | Value _, Value _ | Hashed _, Hashed _ => True
  | _, _ => False
  end.

Definition same_value (a : Algorithm) (i i' : item) : Prop := exists v, item_value tables a i = Ret v /\ item_value tables a i' = Ret v.

Lemma items_inj a its : forall its', Forall item_ok its -> Forall item_ok its' -> Forall2 same_shape its its' -> Forall2 (same_value a) its its' ->
  its = its' \/ exists l l', Hashed l ∈ its /\ Hashed l' ∈ its' /\ list_collision a a l l'.
Proof.
  induction its as [|i its IH]; intros its' F F' S V; inversion S as [|? i' ? r' Si Sr]; subst; [now left|].
  apply Forall_cons in F as [Fi F], F' as [Fi' F']. inversion V as [|? ? ? ? (v & E & E') Vr]; subst.
  destruct (IH r' F F' Sr Vr) as [->|(l & l' & Hl & Hl' & C)]; [|right; exists l, l'; split; [now right | split; [now right | exact C]]].
  destruct i as [f|l], i' as [f'|l']; try contradiction Si.
  - cbn in E, E'. left. congruence.
  - cbn [item_value] in E, E'. rewrite <- E' in E. destruct (hash_of_inj a a l l' Fi Fi' E) as [[_ ->]|C]; [now left|].
    right. exists l, l'. split; [now left | split; [now left | exact C]].
Qed.

(** Contents with one hash have the same values or collide. *)
Lemma contents_eval_inj p p' : contents_ok p -> contents_ok p' -> eval tables p = eval tables p' ->
  algorithm p = algorithm p' /\ Forall2 (same_value (algorithm p)) (items p) (items p') \/ collides p p'.
Proof.
  intros Hp Hp' E. destruct (contents_values tables Ht p Hp) as (vs & Ev & Fv & V2), (contents_values tables Ht p' Hp') as (vs' & Ev' & Fv' & V2').
  unfold eval in E. rewrite Ev, Ev', !bind_ret in E. destruct (hash_of_inj _ _ vs vs' Fv Fv' E) as [[Ea <-]|C].
  - left. split; [exact Ea|]. rewrite <- Ea in V2'. clear -V2 V2'. revert V2'. generalize (items p') as its'.
    induction V2 as [|i v its vs Ei V IH]; intros its' V'; inversion V'; subst; constructor; [exists v; auto | now apply IH].
  - right. left. exists vs, vs'. auto.
Qed.
End Collisions.

(** ** What a hash binds *)

(** A transaction without what its hash does not cover: the signature, the type
    of the entry point, the salt and the class of a deployment, which its address
    stands for, and the fee and nonce of the first declarations. *)
Definition committed (tx : TransactionVariant) : TransactionVariant :=
  match tx with
  | DeclareV0 tx => DeclareV0 (MkDeclareV0V1 (d1_class_hash tx) FELT_ZERO FELT_ZERO [] (d1_sender_address tx))
  | DeclareV1 tx => DeclareV1 (MkDeclareV0V1 (d1_class_hash tx) (d1_max_fee tx) (d1_nonce tx) [] (d1_sender_address tx))
  | DeclareV2 tx => DeclareV2 (MkDeclareV2 (d2_class_hash tx) (d2_max_fee tx) (d2_nonce tx) [] (d2_sender_address tx)
      (d2_compiled_class_hash tx))
  | DeclareV3 tx => DeclareV3 (MkDeclareV3 (d3_class_hash tx) (d3_nonce tx) (d3_nonce_mode tx) (d3_fee_mode tx) (d3_resource_bounds tx)
      (d3_tip tx) (d3_paymaster_data tx) [] (d3_account_deployment_data tx) (d3_sender_address tx) (d3_compiled_class_hash tx))
  | DeployV0 tx => DeployV0 (MkDeployV0 FELT_ZERO (p0_contract_address tx) FELT_ZERO (p0_constructor_calldata tx))
  | DeployV1 tx => DeployV1 (MkDeployV1 FELT_ZERO (p1_contract_address tx) FELT_ZERO (p1_constructor_calldata tx))
  | DeployAccountV1 tx => DeployAccountV1 (MkDeployAccountV1 (a1_contract_address tx) (a1_max_fee tx) [] (a1_nonce tx)
      (a1_contract_address_salt tx) (a1_constructor_calldata tx) (a1_class_hash tx))
  | DeployAccountV3 tx => DeployAccountV3 (MkDeployAccountV3 (a3_contract_address tx) [] (a3_nonce tx) (a3_nonce_mode tx) (a3_fee_mode tx)
      (a3_resource_bounds tx) (a3_tip tx) (a3_paymaster_data tx) (a3_contract_address_salt tx) (a3_constructor_calldata tx) (a3_class_hash tx))
  | InvokeV0 tx => InvokeV0 (MkInvokeV0 (i0_calldata tx) (i0_sender_address tx) (i0_entry_point_selector tx) None (i0_max_fee tx) [])
  | InvokeV1 tx => InvokeV1 (MkInvokeV1 (i1_calldata tx) (i1_sender_address tx) (i1_max_fee tx) [] (i1_nonce tx))
  | InvokeV3 tx => InvokeV3 (MkInvokeV3 [] (i3_nonce tx) (i3_nonce_mode tx) (i3_fee_mode tx) (i3_resource_bounds tx) (i3_tip tx)
      (i3_paymaster_data tx) (i3_account_deployment_data tx) (i3_calldata tx) (i3_sender_address tx) (i3_proof_facts tx))
  | L1Handler tx => L1Handler tx
  end.

Lemma rest_shape c c' tx tx' : kind tx = kind tx' -> number tx = number tx' -> length (rest_items c tx) = length (rest_items c' tx') ->
  Forall2 same_shape (rest_items c tx) (rest_items c' tx').
Proof.
  destruct tx, tx'; intros K N L; try discriminate K; try discriminate N; cbn [rest_items v3_rest app]; try (repeat constructor).
  cbn [rest_items v3_rest app length] in L. destruct (i3_proof_facts tx), (i3_proof_facts tx0); cbn in L; try discriminate L; repeat constructor.
Qed.

Lemma value_eq (f g : Felt) : Value f = Value g -> f = g.
Proof. now injection 1. Qed.

Lemma hashed_eq (l m : list Felt) : Hashed l = Hashed m -> l = m.
Proof. now injection 1. Qed.

(** Equal lists of items, one item after the other. *)
Ltac split_items E :=
  repeat (apply cons_eq in E as [?E E]);
  repeat match goal with
         | X : Value _ = Value _ |- _ => apply value_eq in X
         | X : Hashed _ = Hashed _ |- _ => apply hashed_eq in X
         end.

Lemma v3_rest_inj c s n t p nm fm b d f c' s' n' t' p' nm' fm' b' d' f' : length d = length d' -> fee_ok t b -> fee_ok t' b' ->
  v3_rest c s n t p nm fm b d f = v3_rest c' s' n' t' p' nm' fm' b' d' f' ->
  c = c' /\ s = s' /\ n = n' /\ t = t' /\ p = p' /\ nm = nm' /\ fm = fm' /\ b = b' /\ d = d' /\ f = f'.
Proof.
  intros L Hf Hf' E. unfold v3_rest in E. cbn [app] in E. split_items E. apply app_inj_1 in E as [Ed Ef]; [|exact L].
  apply fee_values_inj in E1 as [-> ->]; [|assumption..]. apply modes_felt_inj in E5 as [-> ->].
  assert (f = f') as ->.
  { destruct f as [|x f], f' as [|x' f']; try discriminate Ef; [reflexivity|]. apply cons_eq in Ef as [Ef _]. now apply hashed_eq in Ef. }
  repeat split; assumption.
Qed.

Lemma rest_inj c c' tx tx' : variant_ok tx -> variant_ok tx' -> kind tx = kind tx' -> number tx = number tx' ->
  rest_items c tx = rest_items c' tx' -> committed tx = committed tx' /\ c = c'.
Proof.
  intros Hv Hv' K N E. destruct tx as [tx|tx|tx|tx|tx|tx|tx|tx|tx|tx|tx|tx], tx' as [tx'|tx'|tx'|tx'|tx'|tx'|tx'|tx'|tx'|tx'|tx'|tx'];
    try discriminate K; try discriminate N; clear K N; cbn [rest_items variant_ok committed] in *.
  all: try (destruct Hv as (_ & _ & Hv), Hv' as (_ & _ & Hv'); apply v3_rest_inj in E; [|reflexivity | exact Hv | exact Hv'];
    destruct E as (-> & -> & -> & -> & -> & -> & -> & -> & E & Ef); split_items E; split; [congruence | reflexivity]).
  all: split_items E; (split; [|assumption]); try congruence.
  destruct tx, tx'. cbn in *. congruence.
Qed.

Section Binding.
Context (tables : PedersenTables) (Ht : tables_ok tables).

(** Equal prefixes and versions are those of one variant. *)
Lemma binding chain_id chain_id' q q' tx tx' : felt_ok chain_id -> felt_ok chain_id' -> variant_ok tx -> variant_ok tx' ->
  eval tables (contents_of chain_id q tx) = eval tables (contents_of chain_id' q' tx') ->
  committed tx = committed tx' /\ chain_id = chain_id' /\ asked tx q = asked tx' q' \/
  collides tables (contents_of chain_id q tx) (contents_of chain_id' q' tx').
Proof.
  intros Hc Hc' Hv Hv' E. pose proof (contents_of_ok chain_id q tx Hc Hv) as P. pose proof (contents_of_ok chain_id' q' tx' Hc' Hv') as P'.
  destruct (contents_eval_inj tables Ht _ _ P P' E) as [[Ea V]|C]; [|now right].
  assert (R : forall f g, same_value tables (algorithm (contents_of chain_id q tx)) (Value f) (Value g) -> f = g)
    by (intros f g (v & E1 & E2); cbn in E1, E2; congruence).
  cbn [contents_of items] in V. inversion V as [|? ? ? ? V1 V']; subst. inversion V' as [|? ? ? ? V2 Vr]; subst.
  apply R, kind_tag_inj in V1. apply R, version_felt_inj in V2 as [En Eq].
  destruct (items_inj tables Ht (algorithm (contents_of chain_id q tx)) (rest_items chain_id tx) (rest_items chain_id' tx')) as [Er|(l & l' & Hl & Hl' & C)].
  - now apply rest_ok.
  - now apply rest_ok.
  - apply rest_shape; [assumption..|]. exact (Forall2_length _ _ _ Vr).
  - exact Vr.
  - left. destruct (rest_inj _ _ _ _ Hv Hv' V1 En Er) as [-> ->]. auto.
  - right. right. exists l, l'. split; [right; now right|]. split; [right; now right|]. rewrite <- Ea. exact C.
Qed.

(** *** Older hashes *)

Lemma legacy_contents_ok chain_id tx p : felt_ok chain_id -> variant_ok tx -> p ∈ legacy_contents chain_id tx ->
  contents_ok p /\ algorithm p = PedersenChain /\ (length (items p) <= 6)%nat.
Proof.
  intros Hc Hv Hp. pose proof CONSTRUCTOR_ok as Hk. pose proof (proj2 (kind_tag DeployKind)) as T1. pose proof (proj2 (kind_tag InvokeKind)) as T2.
  pose proof (proj2 (kind_tag L1HandlerKind)) as T3. cbn [kind_name] in T1, T2, T3.
  destruct tx; cbn [legacy_contents variant_ok] in *; rewrite ?Forall_cons in Hv; destruct_and?;
    repeat (apply elem_of_cons in Hp as [->|Hp]; [split; [|split; [reflexivity | cbn; lia]];
      split; [cbn [items app map]; rewrite !Forall_cons; cbn [item_ok]; repeat (split; [assumption|]); constructor | unfold small; cbn; lia]|]);
    inversion Hp.
Qed.

(** The optional older hash, and the one of handlers. *)
Definition legacy_spec (tx : TransactionVariant) (chain_id : Felt) (older : list contents) : Prop :=
  match older with
  | [] => calculate_legacy_hash tables tx chain_id = Ret None
  | p :: _ => exists h, calculate_legacy_hash tables tx chain_id = Ret (Some h) /\ eval tables p = Ret h
  end.

Ltac legacy_data l Et :=
  let d := fresh "d" in let Ed := fresh "Ed" in
  destruct (hash_chain_total tables Ht l) as (d & Ed & _); [assumption|]; rewrite Et, bind_ret, Ed, bind_ret;
  rewrite (legacy_eval tables _ _ _ l d _ _ Ed).

Lemma legacy_eval_spec chain_id tx : felt_ok chain_id -> variant_ok tx -> legacy_spec tx chain_id (legacy_contents chain_id tx).
Proof.
  intros Hc Hv. pose proof (legacy_contents_ok chain_id tx) as Lo.
  pose proof (tag_of "deploy" DeployKind eq_refl) as T1. pose proof (tag_of "invoke" InvokeKind eq_refl) as T2.
  assert (X : forall p ps, legacy_contents chain_id tx = p :: ps -> exists h, eval tables p = Ret h).
  { intros p ps E. destruct (eval_total tables Ht p) as (h & Eh & _); [|eauto]. apply (Lo p Hc Hv). rewrite E. now left. }
  clear Lo. destruct tx as [tx|tx|tx|tx|tx|tx|tx|tx|tx|tx|tx|tx]; try reflexivity; cbn [legacy_contents legacy_spec calculate_legacy_hash variant_ok] in *;
    destruct_and?; destruct (X _ _ eq_refl) as (h & Eh); exists h; (split; [|exact Eh]); clear X.
  - unfold deploy_legacy_hash_v0. legacy_data (p0_constructor_calldata tx) T1. cbn [opt_update]. rewrite Eh. reflexivity.
  - unfold deploy_legacy_hash_v1. legacy_data (p1_constructor_calldata tx) T1. cbn [opt_update]. rewrite Eh. reflexivity.
  - unfold invoke_legacy_hash_v0. legacy_data (i0_calldata tx) T2. cbn [opt_update]. rewrite Eh. reflexivity.
  - unfold l1_handler_legacy_hash. legacy_data (lh_calldata tx) T2. cbn [opt_update]. rewrite Eh. reflexivity.
Qed.

(** *** Verification *)

(** The hashes that are accepted. *)
Definition accepted (chain_id : Felt) (tx : TransactionVariant) : list contents :=
  contents_of chain_id false tx :: legacy_contents chain_id tx.

Lemma v07_eval chain_id tx p ps : variant_ok (L1Handler tx) -> legacy_contents chain_id (L1Handler tx) = [p; ps] ->
  l1_handler_v07_hash tables tx chain_id = eval tables ps.
Proof.
  intros Hv E. cbn [legacy_contents] in E. injection E as _ <-. cbn [variant_ok] in Hv. destruct Hv as [_ Hl].
  pose proof (tag_of "l1_handler" L1HandlerKind eq_refl) as Et. unfold l1_handler_v07_hash. legacy_data (lh_calldata tx) Et. reflexivity.
Qed.

(** One of several hashes is the expected one. *)
Lemma one_of ps expected h p : eval tables p = Ret h ->
  (exists q, q ∈ p :: ps /\ eval tables q = Ret expected) <-> felt_eqb expected h = true \/ exists q, q ∈ ps /\ eval tables q = Ret expected.
Proof.
  intros E. rewrite felt_eqb_eq. split.
  - intros (q & [->|Hq]%elem_of_cons & Eq); [left; congruence | right; eauto].
  - intros [->|(q & Hq & Eq)]; [exists p; split; [now left | exact E] | exists q; split; [now right | exact Eq]].
Qed.

Lemma none_of expected : ~ exists q, q ∈ @nil contents /\ eval tables q = Ret expected.
Proof. intros (q & Hq & _). inversion Hq. Qed.

Lemma verify_spec chain_id tx expected : felt_ok chain_id -> variant_ok tx ->
  exists b, verify_variant_hash tables tx chain_id expected = Ret b /\
    (b = true <-> exists p, p ∈ accepted chain_id tx /\ eval tables p = Ret expected).
Proof.
  intros Hc Hv. unfold verify_variant_hash, accepted. rewrite (calculate_hash_eval tables Ht chain_id false tx Hv).
  destruct (eval_total tables Ht _ (contents_of_ok chain_id false tx Hc Hv)) as (h & Eh & _). rewrite Eh, bind_ret.
  pose proof (legacy_eval_spec chain_id tx Hc Hv) as L. pose proof (legacy_contents_ok chain_id tx) as Lo.
  setoid_rewrite (one_of _ expected h _ Eh). destruct (felt_eqb expected h); [exists true; split; [reflexivity | tauto]|].
  destruct (legacy_contents chain_id tx) as [|p ps] eqn:El; cbn [legacy_spec] in L.
  - rewrite L, bind_ret. exists false. split; [now destruct tx|]. split; [discriminate|]. intros [E|E]; [discriminate E | now apply none_of in E].
  - destruct L as (h1 & L & E1). rewrite L, bind_ret. setoid_rewrite (one_of ps expected h1 p E1). destruct (felt_eqb expected h1); [exists true; split; [reflexivity | tauto]|].
    destruct tx; try discriminate El.
    4:{ pose proof El as El'. cbn [legacy_contents] in El. injection El as <- <-.
        match type of El' with _ = [_; ?q] => set (p2 := q) in * end.
        destruct (eval_total tables Ht p2) as (h2 & E2 & _); [apply (Lo p2 Hc Hv); right; now left|].
        rewrite (v07_eval chain_id tx _ _ Hv El'), E2, bind_ret. setoid_rewrite (one_of [] expected h2 p2 E2). exists (felt_eqb expected h2).
        split; [now destruct (felt_eqb expected h2)|]. split; [tauto|].
        intros [E|[E|[E|E]]]; [discriminate E.. | exact E | now apply none_of in E]. }
    all: cbn [legacy_contents] in El; injection El as <- <-; exists false; (split; [reflexivity|]); (split; [discriminate|]);
      (intros [E|[E|E]]; [discriminate E.. | now apply none_of in E]).
Qed.

(** *** Older and newer hashes *)

Lemma legacy_form chain_id tx p : p ∈ legacy_contents chain_id tx ->
  exists a b e l n, p = MkContents PedersenChain ([Value a; Value b; Value e; Hashed l; Value chain_id] ++ map Value n).
Proof.
  destruct tx; cbn [legacy_contents]; intros Hp; repeat (apply elem_of_cons in Hp as [->|Hp]; [do 5 eexists; reflexivity|]); inversion Hp.
Qed.

Lemma legacy_inj chain_id chain_id' tx tx' p p' : felt_ok chain_id -> felt_ok chain_id' -> variant_ok tx -> variant_ok tx' ->
  p ∈ legacy_contents chain_id tx -> p' ∈ legacy_contents chain_id' tx' -> eval tables p = eval tables p' -> p = p' \/ collides tables p p'.
Proof.
  intros Hc Hc' Hv Hv' Hp Hp' E. destruct (legacy_contents_ok _ _ _ Hc Hv Hp) as (O & _), (legacy_contents_ok _ _ _ Hc' Hv' Hp') as (O' & _).
  destruct (contents_eval_inj tables Ht p p' O O' E) as [[Ea V]|C]; [|now right].
  apply legacy_form in Hp as (a & b & e & l & n & ->), Hp' as (a' & b' & e' & l' & n' & ->).
  destruct (items_inj tables Ht PedersenChain _ _ (proj1 O) (proj1 O')) as [Ei|(k & k' & Hk & Hk' & C)].
  - cbn [items app]. do 5 (constructor; [exact I|]). apply Forall2_length in V. cbn [items] in V. rewrite !length_app, !length_map in V. cbn in V.
    assert (Ln : length n = length n') by lia. clear -Ln. revert n' Ln.
    induction n as [|x n IH]; intros [|x' n'] L; try discriminate L; constructor; [exact I | apply IH; now injection L].
  - exact V.
  - left. cbn [items] in Ei. now rewrite Ei.
  - right. right. exists k, k'. auto.
Qed.

Lemma rest_long chain_id tx : (5 <= length (rest_items chain_id tx))%nat.
Proof. destruct tx; cbn [rest_items v3_rest app length]; lia. Qed.

(** A hash with a version is not one of the older ones. *)
Lemma older_collides chain_id chain_id' q tx tx' p : felt_ok chain_id -> felt_ok chain_id' -> variant_ok tx -> variant_ok tx' ->
  p ∈ legacy_contents chain_id' tx' -> eval tables (contents_of chain_id q tx) = eval tables p -> collides tables (contents_of chain_id q tx) p.
Proof.
  intros Hc Hc' Hv Hv' Hp E. destruct (legacy_contents_ok _ _ _ Hc' Hv' Hp) as (O & _ & L).
  destruct (contents_eval_inj tables Ht _ p (contents_of_ok chain_id q tx Hc Hv) O E) as [[_ V]|C]; [|exact C].
  apply Forall2_length in V. cbn [contents_of items length] in V. pose proof (rest_long chain_id tx). lia.
Qed.

Lemma collides_sym p p' : collides tables p p' -> collides tables p' p.
Proof.
  assert (S : forall a a' l l', list_collision tables a a' l l' -> list_collision tables a' a l' l).
  { intros a a' l l'. assert (G : (a, l) <> (a', l') /\ (exists h, hash_of tables a l = Ret h /\ hash_of tables a' l' = Ret h) ->
      (a', l') <> (a, l) /\ exists h, hash_of tables a' l' = Ret h /\ hash_of tables a l = Ret h).
    { intros [N (h & E & E')]. split; [congruence | eauto]. }
    destruct a, a'; [|exact G..]. intros (x & y & h & Hx & Hy & N & E & E'). exists y, x, h. repeat (split; [assumption || congruence|]). exact E. }
  intros [(vs & vs' & E & E' & C)|(l & l' & Hl & Hl' & C)]; [left; exists vs', vs | right; exists l', l]; auto.
Qed.

Lemma accepted_inj chain_id chain_id' tx tx' p p' : felt_ok chain_id -> felt_ok chain_id' -> variant_ok tx -> variant_ok tx' ->
  p ∈ accepted chain_id tx -> p' ∈ accepted chain_id' tx' -> eval tables p = eval tables p' ->
  committed tx = committed tx' /\ chain_id = chain_id' \/
  (exists r, r ∈ legacy_contents chain_id tx /\ r ∈ legacy_contents chain_id' tx') \/ collides tables p p'.
Proof.
  intros Hc Hc' Hv Hv' [->|Hp]%elem_of_cons [->|Hp']%elem_of_cons E.
  - destruct (binding chain_id chain_id' false false tx tx' Hc Hc' Hv Hv' E) as [(E1 & E2 & _)|C]; auto.
  - right. right. exact (older_collides _ _ _ _ _ _ Hc Hc' Hv Hv' Hp' E).
  - right. right. apply collides_sym. exact (older_collides _ _ _ _ _ _ Hc' Hc Hv' Hv Hp (eq_sym E)).
  - destruct (legacy_inj _ _ _ _ _ _ Hc Hc' Hv Hv' Hp Hp' E) as [->|C]; [right; left; eauto | auto].
Qed.

(** *** Addresses *)

Lemma bytes_leb_spec a : forall b, length a = length b -> bytes_ok a -> bytes_ok b -> bytes_leb a b = (be_value a <=? be_value b).
Proof.
  induction a as [|x a IH]; intros [|y b] L Ha Hb; try discriminate L; [reflexivity|]. cbn [bytes_leb]. injection L as L.
  inversion Ha as [|? ? Hx Ha']; subst. inversion Hb as [|? ? Hy Hb']; subst. rewrite (IH b L Ha' Hb'). rewrite !digits_value_cons, L.
  pose proof (digits_value_bound 256 a ltac:(lia) Ha') as Ba. pose proof (digits_value_bound 256 b ltac:(lia) Hb') as Bb. rewrite L in Ba.
  set (w := 256 ^ Z.of_nat (length b)) in *. apply eq_true_iff_eq. rewrite orb_true_iff, andb_true_iff, Z.ltb_lt, Z.eqb_eq, !Z.leb_le. nia.
Qed.

Lemma MAX_value : felt_ok MAX_CONTRACT_ADDRESS /\ be_value MAX_CONTRACT_ADDRESS = 2 ^ 251 - 256.
Proof. split; [split; [unfold MAX_CONTRACT_ADDRESS; repeat constructor; lia | split; [reflexivity | vm_compute; reflexivity]] | vm_compute; reflexivity]. Qed.

Lemma address_value calldata salt class_hash : felts_ok calldata -> felt_ok salt -> felt_ok class_hash ->
  exists d h a, hash_chain tables calldata = Ret d /\
    hash_chain tables [tag "STARKNET_CONTRACT_ADDRESS"; FELT_ZERO; salt; class_hash; d] = Ret h /\
    deployed_contract_address tables calldata salt class_hash = Ret a /\ felt_ok a /\ be_value a = be_value h mod (2 ^ 251 - 256).
Proof.
  intros Hd Hs Hk. destruct (hash_chain_total tables Ht calldata Hd) as (d & Ed & Hf).
  destruct (tag_spec "STARKNET_CONTRACT_ADDRESS" ltac:(cbn; lia)) as [Et Htag]. unfold felt_bytes in Et.
  set (l := [tag "STARKNET_CONTRACT_ADDRESS"; FELT_ZERO; salt; class_hash; d]).
  destruct (hash_chain_total tables Ht l) as (h & Eh & Hh).
  { split; [|unfold small; cbn; lia]. unfold l. rewrite !Forall_cons. repeat (split; [assumption || exact FELT_ZERO_ok|]). constructor. }
  exists d, h. destruct MAX_value as [Hm Vm]. unfold deployed_contract_address. rewrite Ed, bind_ret, Et, bind_ret. fold l. rewrite Eh, bind_ret.
  rewrite bytes_leb_spec by (apply Hm || apply Hh || (rewrite (proj1 (proj2 Hm)); symmetry; apply Hh)). rewrite Vm.
  assert (Hp : 0 <= be_value h < field_prime) by (split; [apply (digits_value_bound 256 h ltac:(lia) (proj1 Hh)) | apply Hh]).
  assert (Pv : field_prime = 2 ^ 251 + 17 * 2 ^ 192 + 1) by reflexivity.
  assert (A : exists a, (if 2 ^ 251 - 256 <=? be_value h then felt_sub h MAX_CONTRACT_ADDRESS else Ret h) = Ret a /\ felt_ok a /\
    be_value a = be_value h mod (2 ^ 251 - 256)).
  { destruct (Z.leb_spec (2 ^ 251 - 256) (be_value h)) as [Ge|Lt].
    - destruct (felt_sub_spec h MAX_CONTRACT_ADDRESS Hh Hm) as (a & Ea & Ha & Va). exists a. split; [exact Ea|]. split; [exact Ha|].
      rewrite Va, Vm, Z.mod_small by lia. replace (be_value h) with (be_value h - (2 ^ 251 - 256) + 1 * (2 ^ 251 - 256)) at 2 by ring.
      rewrite Z.mod_add by lia. symmetry. apply Z.mod_small. lia.
    - exists h. split; [reflexivity|]. split; [exact Hh|]. symmetry. apply Z.mod_small. lia. }
  destruct A as (a & Ea & Ha & Va). exists a. rewrite Ea, bind_ret. split; [reflexivity|]. split; [reflexivity|].
  split; [|split; [exact Ha | exact Va]]. unfold address_or_panic. destruct (has_more_than_251_bits a) eqn:Eb; [|reflexivity].
  apply has_more_than_251_bits_spec in Eb; [|exact Ha]. pose proof (Z.mod_pos_bound (be_value h) (2 ^ 251 - 256) ltac:(lia)). lia.
Qed.
End Binding.

(** ** Theorems *)

(** C11: the hash of a valid transaction is always defined, and equal hashes are
    of transactions that agree in everything but the signature and what is not
    hashed by design, on one chain and both or neither for queries; otherwise two
    different inputs of the hash function with one hash are among what is hashed. *)
Theorem transaction_hash_binding (tables : PedersenTables) (chain_id chain_id' : Felt) (q q' : bool) (tx tx' : TransactionVariant) :
  tables_ok tables -> felt_ok chain_id -> felt_ok chain_id' -> variant_ok tx -> variant_ok tx' ->
  (exists h, calculate_hash tables tx chain_id q = Ret h /\ felt_ok h) /\
  (calculate_hash tables tx chain_id q = calculate_hash tables tx' chain_id' q' ->
   committed tx = committed tx' /\ chain_id = chain_id' /\ asked tx q = asked tx' q' \/
   collides tables (contents_of chain_id q tx) (contents_of chain_id' q' tx')).
Proof.
  intros Ht Hc Hc' Hv Hv'. rewrite !(calculate_hash_eval tables Ht) by assumption.
  split; [exact (eval_total tables Ht _ (contents_of_ok chain_id q tx Hc Hv)) | now apply binding].
Qed.

(** An invocation and a declaration. *)
Definition sample_bounds : ResourceBounds := MkBounds (MkBound 10 20) (MkBound 30 40) (Some (MkBound 50 60)).
Definition sample_invoke : TransactionVariant :=
  InvokeV3 (MkInvokeV3 [small_felt 1] (small_felt 2) L1 L2 sample_bounds 7 [] [] [small_felt 3; small_felt 4] (small_felt 5) [small_felt 6]).
Definition sample_declare : TransactionVariant :=
  DeclareV1 (MkDeclareV0V1 (small_felt 1) (small_felt 2) (small_felt 3) [] (small_felt 4)).

Lemma calculate_total tables (Ht : tables_ok tables) chain_id q tx : felt_ok chain_id -> variant_ok tx ->
  exists h, calculate_hash tables tx chain_id q = Ret h.
Proof.
  intros Hc Hv. destruct (eval_total tables Ht _ (contents_of_ok chain_id q tx Hc Hv)) as (h & E & _). exists h.
  now rewrite (calculate_hash_eval tables Ht).
Qed.

Lemma sample_invoke_ok : variant_ok sample_invoke.
Proof.
  cbn [variant_ok sample_invoke]. split; [rewrite !Forall_cons; split; [exact (small_felt_ok 2)|]; split; [exact (small_felt_ok 5) | constructor]|].
  split; [|split; [unfold u64_ok; cbn; lia | unfold bounds_ok, bound_ok, u64_ok, u128_ok; cbn; lia]].
  rewrite !Forall_cons. cbn. split; [exact felts_ok_nil|]. split; [exact felts_ok_nil|]. split; [|split; [exact (one_felt_ok _ (small_felt_ok 6)) | constructor]].
  split; [|unfold small; cbn; lia]. rewrite !Forall_cons. split; [exact (small_felt_ok 3)|]. split; [exact (small_felt_ok 4) | constructor].
Qed.

Lemma sample_declare_ok : variant_ok sample_declare.
Proof.
  cbn [variant_ok sample_declare]. rewrite !Forall_cons. split; [exact (small_felt_ok 1)|]. split; [exact (small_felt_ok 2)|].
  split; [exact (small_felt_ok 3)|]. split; [exact (small_felt_ok 4) | constructor].
Qed.

Lemma transaction_hash_binding_witness : exists h, calculate_hash sample_tables sample_invoke (small_felt 9) true = Ret h.
Proof.
  destruct (transaction_hash_binding sample_tables (small_felt 9) (small_felt 9) true false sample_invoke sample_declare sample_tables_ok
    (small_felt_ok 9) (small_felt_ok 9) sample_invoke_ok sample_declare_ok) as [(h & E & _) _].
  exists h. exact E.
Defined.

(** C12: the verification of a transaction's hash always ends with an answer,
    accepts exactly the hash of today and the older hashes of the variant, and two
    transactions that are accepted with one hash agree in everything that is hashed,
    or were both accepted by an older hash with the same contents, or exhibit a
    collision. *)
Theorem verified_hash_binding (tables : PedersenTables) (chain_id chain_id' : Felt) (tx tx' : Transaction) :
  tables_ok tables -> felt_ok chain_id -> felt_ok chain_id' -> variant_ok (variant tx) -> variant_ok (variant tx') ->
  (exists b, verify_hash tables tx chain_id = Ret b /\
    (b = true <-> exists p, p ∈ accepted chain_id (variant tx) /\ eval tables p = Ret (hash tx))) /\
  (hash tx = hash tx' -> verify_hash tables tx chain_id = Ret true -> verify_hash tables tx' chain_id' = Ret true ->
   committed (variant tx) = committed (variant tx') /\ chain_id = chain_id' \/
   (exists r, r ∈ legacy_contents chain_id (variant tx) /\ r ∈ legacy_contents chain_id' (variant tx')) \/
   exists p p', p ∈ accepted chain_id (variant tx) /\ p' ∈ accepted chain_id' (variant tx') /\ collides tables p p').
Proof.
  intros Ht Hc Hc' Hv Hv'. unfold verify_hash. split; [now apply verify_spec|]. intros Eh V V'.
  destruct (verify_spec tables Ht chain_id (variant tx) (hash tx) Hc Hv) as (b & Eb & A).
  destruct (verify_spec tables Ht chain_id' (variant tx') (hash tx') Hc' Hv') as (b' & Eb' & A').
  rewrite V in Eb. rewrite V' in Eb'. apply ret_inj in Eb, Eb'. destruct (proj1 A (eq_sym Eb)) as (p & Hp & Ep).
  destruct (proj1 A' (eq_sym Eb')) as (p' & Hp' & Ep'). rewrite <- Eh, <- Ep in Ep'.
  destruct (accepted_inj tables Ht _ _ _ _ p p' Hc Hc' Hv Hv' Hp Hp' (eq_sym Ep')) as [E|[E|C]]; [auto..|].
  right. right. exists p, p'. auto.
Qed.

Lemma verified_hash_binding_witness : exists b, verify_hash sample_tables (MkTransaction (small_felt 1) sample_declare) (small_felt 9) = Ret b.
Proof.
  destruct (verified_hash_binding sample_tables (small_felt 9) (small_felt 9) (MkTransaction (small_felt 1) sample_declare)
    (MkTransaction (small_felt 1) sample_declare) sample_tables_ok (small_felt_ok 9) (small_felt_ok 9) sample_declare_ok sample_declare_ok)
    as [(b & E & _) _]. exists b. exact E.
Defined.

(** C13: a transaction that was signed for a simulation cannot be submitted: its
    hash for queries is refused as the hash of any transaction on any chain, or a
    collision is exhibited. *)
Theorem query_hash_refused (tables : PedersenTables) (chain_id chain_id' h : Felt) (tx tx' : TransactionVariant) :
  tables_ok tables -> felt_ok chain_id -> felt_ok chain_id' -> variant_ok tx -> variant_ok tx' -> kind tx <> L1HandlerKind ->
  calculate_hash tables tx chain_id true = Ret h ->
  verify_hash tables (MkTransaction h tx') chain_id' = Ret false \/
  exists p, p ∈ accepted chain_id' tx' /\ eval tables p = Ret h /\ collides tables (contents_of chain_id true tx) p.
Proof.
  intros Ht Hc Hc' Hv Hv' K Eh. rewrite (calculate_hash_eval tables Ht) in Eh by assumption. unfold verify_hash. cbn [variant hash].
  destruct (verify_spec tables Ht chain_id' tx' h Hc' Hv') as ([|] & Eb & A); [|now left]. right.
  destruct (proj1 A eq_refl) as (p & Hp & Ep). exists p. split; [exact Hp|]. split; [exact Ep|]. rewrite <- Ep in Eh.
  apply elem_of_cons in Hp as [->|Hp]; [|exact (older_collides tables Ht _ _ _ _ _ _ Hc Hc' Hv Hv' Hp Eh)].
  destruct (binding tables Ht chain_id chain_id' true false tx tx' Hc Hc' Hv Hv' Eh) as [(_ & _ & E)|C]; [|exact C].
  exfalso. assert (E0 : asked tx' false = false) by now destruct tx'. rewrite E0 in E. clear -E K.
  destruct tx; first [discriminate E | now destruct K].
Qed.

Lemma query_hash_refused_witness : exists h, calculate_hash sample_tables sample_invoke (small_felt 9) true = Ret h /\
  (verify_hash sample_tables (MkTransaction h sample_declare) (small_felt 9) = Ret false \/
   exists p, p ∈ accepted (small_felt 9) sample_declare /\ eval sample_tables p = Ret h /\
     collides sample_tables (contents_of (small_felt 9) true sample_invoke) p).
Proof.
  destruct (calculate_total sample_tables sample_tables_ok (small_felt 9) true sample_invoke (small_felt_ok 9) sample_invoke_ok) as (h & E).
  exists h. split; [exact E|].
  exact (query_hash_refused sample_tables (small_felt 9) (small_felt 9) h sample_invoke sample_declare sample_tables_ok (small_felt_ok 9)
    (small_felt_ok 9) sample_invoke_ok sample_declare_ok ltac:(discriminate) E).
Defined.

(** C17: the address of a deployed contract is always computed, is the hash of the
    deployment reduced to the range of addresses, and never has too many bits for a
    key of the trie of contracts. *)
Theorem deployed_address_valid (tables : PedersenTables) (calldata : list Felt) (salt class_hash : Felt) :
  tables_ok tables -> felts_ok calldata -> felt_ok salt -> felt_ok class_hash ->
  exists d h a, hash_chain tables calldata = Ret d /\
    hash_chain tables [tag "STARKNET_CONTRACT_ADDRESS"; FELT_ZERO; salt; class_hash; d] = Ret h /\
    deployed_contract_address tables calldata salt class_hash = Ret a /\ felt_ok a /\ has_more_than_251_bits a = false /\
    be_value a = be_value h mod (2 ^ 251 - 256).
Proof.
  intros Ht Hd Hs Hk. destruct (address_value tables Ht calldata salt class_hash Hd Hs Hk) as (d & h & a & E1 & E2 & E3 & Ha & Va).
  exists d, h, a. do 4 (split; [assumption|]). split; [|exact Va]. destruct (has_more_than_251_bits a) eqn:Eb; [|reflexivity].
  apply has_more_than_251_bits_spec in Eb; [|exact Ha]. pose proof (Z.mod_pos_bound (be_value h) (2 ^ 251 - 256) ltac:(lia)). lia.
Qed.

Lemma deployed_address_valid_witness : exists a, deployed_contract_address sample_tables [small_felt 1] (small_felt 2) (small_felt 3) = Ret a /\
  has_more_than_251_bits a = false.
Proof.
  destruct (deployed_address_valid sample_tables [small_felt 1] (small_felt 2) (small_felt 3) sample_tables_ok (one_felt_ok _ (small_felt_ok 1))
    (small_felt_ok 2) (small_felt_ok 3)) as (d & h & a & _ & _ & E & _ & B & _). exists a. exact (conj E B).
Defined.
