(* ===== verification/StateTheorems.v ===== *)
(** The state of Starknet in the database: committing blocks, reorgs and queries. *)

From Stdlib Require Import ZArith Lia Bool List.
From stdpp Require Import gmap gmultiset list.
From S2P Require Import Prelude Bytes Felt Pedersen Poseidon MerkleNode Tree TrieSpec TreeHash TreeRep TreeMap.
From S2P Require Import TreeCommit TrieStore TrieInsert TrieChain RootTables TriePrune Forest Bincode.
From S2P Require Import CommitmentFacts Hashing StateUpdate World StateTables StateLogs StateReverse StarknetState.
From S2P Require Import StateTries HashRows StateInv StateApply StateBlock StateCommit StateStep StateRevert.
From S2P Require Import StateReorg StateChain StateMerge StateDiff StateRoundTrip CurveTheorems TreeTheorems.
Local Open Scope Z_scope.

(** ** An example *)

#[local] Existing Instance plain_order.

Lemma bits_map_size D f : (size (bits_map D f) <= length D)%nat.
Proof.
  unfold bits_map. induction D as [|k D IH]; [reflexivity|]. cbn [omap list_omap].
  destruct (leaf_of_hash (f k)) as [v|]; [|cbn; lia]. cbn [fmap option_fmap option_map list_to_map length foldr].
  rewrite map_size_insert. cbn [fst snd]. destruct (_ !! _); cbn; lia.
Qed.

Lemma empty_room n : Z.of_nat n <= I64_MAX -> room (MkTable ∅ []) n.
Proof.
  intros Hn. exists 0. split; [|lia]. intros i Hi. cbn in Hi. rewrite lookup_empty in Hi. now destruct Hi.
Qed.

Lemma head_picks : picks head.
Proof. intros [|x l]; [reflexivity | now left]. Qed.

Definition no_update : StateUpdateData := MkData ∅ ∅ ∅ ∅ ∅.

(** A contract with a slot and a nonce is deployed, and a class is declared. *)
Definition account : Felt := small_felt 17.
Definition account_update : ContractUpdate :=
  MkContractUpdate {[small_felt 3 := small_felt 4]} (Some (Deploy (small_felt 5))) (Some (small_felt 1)).
Definition sample_update : StateUpdateData := MkData {[account := account_update]} ∅ ∅ {[small_felt 6 := small_felt 8]} ∅.

Definition first_header : Header := MkHeader (small_felt 9) FELT_ZERO V_0_14_0.
Definition first_db : StateDb := MkDb {[0 := first_header]} (tables empty_db) (tries empty_db).

Abbreviation sample_synced := (synced bincode_libraries sample_tables head Archive).

Lemma small_key_ok n : key_ok (small_felt (n mod 256)).
Proof.
  split; [apply small_felt_ok|]. pose proof (Z.mod_pos_bound n 256 eq_refl) as B. generalize dependent (n mod 256). clear n.
  intros n Hn. destruct (has_more_than_251_bits (small_felt n)) eqn:E; [|reflexivity]. exfalso.
  now unfold has_more_than_251_bits, small_felt in E.
Qed.

Lemma nothing_ok w : update_ok no_update w.
Proof. split; cbn; intros *; now rewrite lookup_empty. Qed.

Lemma sample_ok : update_ok sample_update empty_world.
Proof.
  split; cbn [contract_updates system_contract_updates declared_sierra_classes migrated_compiled_classes sample_update].
  - intros c u [<- <-]%lookup_singleton_Some. split; [exact (small_key_ok 17)|]. split; [reflexivity|].
    split; [left; eauto | left; cbn; eauto].
  - intros c u x [<- <-]%lookup_singleton_Some [= <-]. exact (small_felt_ok 5).
  - intros c u n [<- <-]%lookup_singleton_Some [= <-]. exact (small_felt_ok 1).
  - intros c u k v [<- <-]%lookup_singleton_Some E. cbn [storage account_update] in E. apply lookup_singleton_Some in E as [<- <-]. split; [exact (small_key_ok 3) | exact (small_felt_ok 4)].
  - intros c s. now rewrite lookup_empty.
  - intros c s k v. now rewrite lookup_empty.
  - intros s h [<- <-]%lookup_singleton_Some. split; [exact (small_key_ok 6)|]. split; [exact (small_felt_ok 8) | reflexivity].
  - intros s h. now rewrite lookup_empty.
Qed.

Lemma no_world : world_of [no_update] = empty_world.
Proof. reflexivity. Qed.

Lemma sample_rooms db W h : tries db = tries empty_db -> W h = empty_world -> rooms sample_tables db h W sample_update.
Proof.
  intros Et Ew. split; rewrite Et, Ew; cbn [tries empty_db contract_trie storage_trie class_trie]; apply empty_room;
    set (w := apply_update sample_update empty_world).
  - change (updated_contracts sample_update) with [account]. unfold slots_needed, slot_map. cbn [sum_list_with].
    pose proof (bits_map_size (slot_keys w account) (slot w account)) as B.
    change (length (slot_keys w account)) with 1%nat in B. unfold I64_MAX. lia.
  - unfold contract_map. set (D := filter _ _). pose proof (bits_map_size D (contract_entry sample_tables w)) as B.
    assert (E : length D = 3%nat) by (vm_compute; reflexivity). unfold I64_MAX. lia.
  - unfold class_map. pose proof (bits_map_size (elements (dom (w_casm w))) (class_entry w)) as B.
    change (length (elements (dom (w_casm w)))) with 1%nat in B. unfold I64_MAX. lia.
Qed.

Lemma first_synced : sample_synced first_db [no_update] 0 (-1).
Proof.
  apply (synced_block bincode_libraries sample_tables head Archive empty_db [] 0 (-1) no_update (small_felt 9) None V_0_14_0 true first_db).
  - apply synced_empty.
  - split; [apply nothing_ok | intros s v v' Hin; inversion Hin|]. split; (apply empty_room; vm_compute; discriminate).
  - vm_compute. reflexivity.
Qed.

Lemma sample_update_fits : block_ok sample_tables sample_update first_db [no_update].
Proof. split; [apply sample_ok | intros s v v' Hin; inversion Hin | now apply sample_rooms]. Qed.

(** The second block of the example. *)
Lemma second_synced : exists db, sample_synced db [sample_update; no_update] 0 (-1) /\ fresh (tables db) 1 (world_at [sample_update; no_update]).
Proof.
  destruct (next_block bincode_libraries sample_tables sample_tables_ok head head_picks Archive I first_db [no_update] 0 (-1)
    sample_update first_synced sample_update_fits (small_felt 10) V_0_14_0 true) as (commitment & db & _ & S & Fr & _).
  exists db. split; [exact S|]. apply Fr. intros b s v Hin. inversion Hin.
Qed.

Lemma no_slots_needed l : slots_needed empty_world l = 0%nat.
Proof. induction l as [|c l IH]; [reflexivity|]. unfold slots_needed in *. cbn [sum_list_with]. now rewrite IH, empty_slots, map_size_empty. Qed.

(** The tables always have room for nothing. *)
Lemma held_room {K} {mode : TriePruneMode} H (T : TrieTable) (roots : K -> Roots) low head maps :
  held (mode := mode) bincode_libraries H HEIGHT T roots low head maps -> room T 0.
Proof.
  intros [_ _ _ _ [l F]]. exists I64_MAX. split; [|unfold I64_MAX; lia].
  intros i Hi. exact (proj2 (forest_nodes _ _ _ _ _ _ _ _ F i Hi)).
Qed.

Lemma second_reorg_ok db : sample_synced db [sample_update; no_update] 0 (-1) ->
  fresh (tables db) 1 (world_at [sample_update; no_update]) -> reorg_ok sample_tables Archive 0 db [sample_update; no_update] 0 (-1).
Proof.
  intros S Fr. assert (Ew : forall n, n <= 0 -> world_at [sample_update; no_update] n = empty_world).
  { intros n Hn. destruct (Z.eq_dec n 0) as [->|N]; [reflexivity|]. unfold world_at. now rewrite upto_before by lia. }
  pose proof (synced_inv bincode_libraries sample_tables sample_tables_ok head head_picks Archive I _ _ _ _ S) as Inv.
  pose proof (si_tries _ _ _ _ _ _ _ Inv) as [T1 T2 T3].
  split; [unfold top; cbn; lia | lia | right; left; lia | | |].
  - intros c _ _ Hi. rewrite Ew in Hi by lia.
    apply in_state_spec in Hi as [[x E]|(_ & k & v & E)]; cbn [w_class w_storage empty_world] in E; rewrite lookup_empty in E; discriminate E.
  - split; rewrite Ew by lia.
    + rewrite no_slots_needed. exact (held_room _ _ _ _ _ _ T1).
    + rewrite empty_contracts, map_size_empty. exact (held_room _ _ _ _ _ _ T2).
    + rewrite empty_classes, map_size_empty. exact (held_room _ _ _ _ _ _ T3).
  - intros s b v _ Hin Hb. pose proof (proj2 (Fr b s v Hin)) as E. rewrite Ew in E by exact Hb. cbn in E.
    now rewrite lookup_empty in E.
Qed.

(** ** Blocks *)




(** ** Reorgs *)

(** C6: a reorg of a synced database succeeds if it meets [reorg_ok], that is: the
    tries of the target are kept; the tries are not pruned, or the target is not
    before that of an earlier reorg, or else the tries in which nothing changed since
    the target have the root they had there; no system contract that changed since had storage with a zero root
    at the target; the compiled classes with rows after the target have up to there
    only rows with their value at the target; and the tables of the tries have
    indices left.  The code checks none of these; where they fail the reorg may be
    refused for a wrong commitment or lose nodes.  After the reorg the database is
    synced with the chain up to the target: its queries read the states of the
    blocks that are left, the last of which is now the latest, and its tries commit
    to the state of that block. *)
Theorem reorg_restores_state (lib : Libraries) (laws : LibraryLaws lib) (constants : PedersenTables) (pick : list Felt -> option Felt)
    (mode : TriePruneMode) (order : HashOrder) (db : StateDb) (chain : list StateUpdateData) (low floor target : Z) :
  tables_ok constants -> picks pick -> mode_keeps mode -> synced lib constants pick mode db chain low floor ->
  reorg_ok constants mode target db chain low floor ->
  exists db', reorg_state lib pick constants mode (target + 1) db = Ret (Ok db') /\
    synced lib constants pick mode db' (upto chain target) (Z.max low (threshold mode target)) target /\
    reads db' Latest (world_at chain target) /\ commits constants db' target (world_at chain target) /\
    forall n, n <= target -> reads db' (Number n) (world_at chain n).
Proof.
  intros Hc Hp Hm S Ok. destruct (reorg_back lib constants Hc pick Hp mode Hm db chain low floor target S Ok) as (db' & E & S' & _).
  exists db'. split; [exact E|]. split; [exact S'|]. pose proof (synced_inv lib constants Hc pick Hp mode Hm _ _ _ _ S') as Inv.
  pose proof (ro_target _ _ _ _ _ _ _ Ok) as Ht. rewrite top_upto in Inv by lia.
  assert (Ew : forall n, n <= target -> world_at (upto chain target) n = world_at chain n)
    by (intros n Hn; unfold world_at; now rewrite upto_upto by lia).
  split; [|split].
  - rewrite <- (Ew target) by lia. exact (reads_world _ _ _ _ _ _ _ Inv Latest).
  - rewrite <- (Ew target) by lia. apply (commits_world _ _ _ _ _ _ _ Inv Hc). split; [|lia].
    pose proof (si_low _ _ _ _ _ _ _ Inv). lia.
  - intros n Hn. pose proof (reads_world _ _ _ _ _ _ _ Inv (Number n)) as R. unfold world_for, resolve in R.
    rewrite Z.min_l, Ew in R by exact Hn. exact R.
Qed.

Lemma reorg_restores_state_witness : exists db db', sample_synced db [sample_update; no_update] 0 (-1) /\
  reorg_state bincode_libraries head sample_tables Archive 1 db = Ret (Ok db') /\ sample_synced db' [no_update] 0 0 /\
  reads db' Latest empty_world.
Proof.
  destruct second_synced as (db & S & Fr).
  destruct (reorg_restores_state bincode_libraries bincode_laws sample_tables head Archive plain_order db [sample_update; no_update]
    0 (-1) 0 sample_tables_ok head_picks I S (second_reorg_ok db S Fr)) as (db' & E & S' & R & _).
  exists db, db'. split; [exact S|]. split; [exact E|]. split; [exact S' | exact R].
Defined.

(** ** Queries *)

(** C4: a synced database implements its chain of state updates.  Synced are the
    databases that are reached from the empty one by blocks that meet [block_ok],
    reorgs that meet [reorg_ok] and reorgs of all blocks.  Every block has a header
    with the commitment of the state after it; the queries of storage, nonces and
    classes for a block number, a block hash or the latest block read the state they
    stand for; the compiled classes of a block are found by its number and by its
    hash; as long as no reorg has left rows behind, the query of compiled classes
    reads exactly the state, for all block ids; and the tries of the blocks that are
    kept have the commitments of those states as their roots. *)
Theorem database_refines_chain (lib : Libraries) (laws : LibraryLaws lib) (constants : PedersenTables)
    (pick : list Felt -> option Felt) (mode : TriePruneMode) (order : HashOrder) (db : StateDb)
    (chain : list StateUpdateData) (low floor : Z) :
  tables_ok constants -> picks pick -> mode_keeps mode -> synced lib constants pick mode db chain low floor ->
  (forall n, match headers db !! n with
     | Some h => 0 <= n <= top chain /\
         state_commitment_of constants (world_at chain n) (header_version h) = Ret (header_state_commitment h)
     | None => ~ 0 <= n <= top chain
     end) /\
  (forall block, reads db block (world_for db (top chain) (world_at chain) block)) /\
  (forall block n s v, header_number (headers db) block = Some n -> block <> Latest ->
     w_casm (world_at chain n) !! s = Some v -> casm_hash_at (headers db) (tables db) block s = Some v) /\
  (fresh (tables db) (top chain) (world_at chain) -> forall block s,
     casm_hash_at (headers db) (tables db) block s = w_casm (world_for db (top chain) (world_at chain) block) !! s) /\
  forall n, low <= n <= top chain -> commits constants db n (world_at chain n).
Proof.
  intros Hc Hp Hm S. pose proof (synced_inv lib constants Hc pick Hp mode Hm _ _ _ _ S) as Inv.
  split; [exact (si_headers _ _ _ _ _ _ _ Inv)|]. split; [exact (reads_world _ _ _ _ _ _ _ Inv)|].
  split; [exact (casm_hash_found _ _ _ _ _ _ _ Inv)|].
  split; [intros Fr block s; exact (casm_hash_world _ _ _ _ _ _ _ Inv block s Fr) | exact (commits_world _ _ _ _ _ _ _ Inv Hc)].
Qed.

Lemma database_refines_chain_witness : exists db, sample_synced db [sample_update; no_update] 0 (-1) /\
  storage_value (headers db) (tables db) Latest account (small_felt 3) = Some (small_felt 4) /\
  contract_exists (headers db) (tables db) account (Number 0) = false /\
  casm_hash_at (headers db) (tables db) Latest (small_felt 6) = Some (small_felt 8) /\
  exists o, root_hash (class_trie (tries db)) (class_roots (tries db)) 1 = Ok o.
Proof.
  destruct second_synced as (db & S & Fr). exists db. split; [exact S|].
  destruct (database_refines_chain bincode_libraries bincode_laws sample_tables head Archive plain_order db [sample_update; no_update]
    0 (-1) sample_tables_ok head_picks I S) as (_ & R & _ & K & C).
  split; [rewrite (rd_storage _ _ _ (R Latest)); vm_compute; reflexivity|].
  split; [rewrite (rd_exists _ _ _ (R (Number 0))); vm_compute; reflexivity|].
  split; [rewrite (K Fr); vm_compute; reflexivity|].
  destruct (cm_class _ _ _ _ (C 1 ltac:(unfold top; cbn; lia))) as (o & E & _). eauto.
Defined.

(** C26: a reorg leaves the compiled classes of the blocks it removes behind: a
    class that was declared after the target is still found at the latest block,
    although the state of that block does not have it. *)
Theorem reorg_keeps_compiled_classes (lib : Libraries) (laws : LibraryLaws lib) (constants : PedersenTables)
    (pick : list Felt -> option Felt) (mode : TriePruneMode) (order : HashOrder) (db : StateDb)
    (chain : list StateUpdateData) (low floor target : Z) (s casm : Felt) :
  tables_ok constants -> picks pick -> mode_keeps mode -> synced lib constants pick mode db chain low floor ->
  fresh (tables db) (top chain) (world_at chain) -> reorg_ok constants mode target db chain low floor ->
  w_casm (world_of chain) !! s = Some casm -> w_casm (world_at chain target) !! s = None ->
  exists db', reorg_state lib pick constants mode (target + 1) db = Ret (Ok db') /\
    casm_hash_at (headers db') (tables db') (Number target) s = None /\
    casm_hash_at (headers db') (tables db') Latest s = Some casm.
Proof.
  intros Hc Hp Hm S Fr Ok Es En.
  destruct (reorg_back lib constants Hc pick Hp mode Hm db chain low floor target S Ok) as (db' & E & S' & Ec).
  exists db'. split; [exact E|]. pose proof (ro_target _ _ _ _ _ _ _ Ok) as Ht.
  pose proof (synced_inv lib constants Hc pick Hp mode Hm _ _ _ _ S) as Inv.
  pose proof (fun block => casm_hash_world _ _ _ _ _ _ _ Inv block s Fr) as Eq. split.
  - transitivity (casm_hash_at (headers db) (tables db) (Number target) s); [unfold casm_hash_at; now rewrite Ec|].
    rewrite Eq. unfold world_for. cbn [resolve]. now rewrite Z.min_l by lia.
  - transitivity (casm_hash_at (headers db) (tables db) Latest s); [unfold casm_hash_at; now rewrite Ec|].
    rewrite Eq. unfold world_for. cbn [resolve]. now rewrite world_at_top.
Qed.

Lemma reorg_keeps_compiled_classes_witness : exists db db',
  reorg_state bincode_libraries head sample_tables Archive 1 db = Ret (Ok db') /\
  casm_hash_at (headers db') (tables db') (Number 0) (small_felt 6) = None /\
  casm_hash_at (headers db') (tables db') Latest (small_felt 6) = Some (small_felt 8).
Proof.
  destruct second_synced as (db & S & Fr). exists db.
  exact (reorg_keeps_compiled_classes bincode_libraries bincode_laws sample_tables head Archive plain_order db
    [sample_update; no_update] 0 (-1) 0 (small_felt 6) (small_felt 8) sample_tables_ok head_picks I S Fr (second_reorg_ok db S Fr)
    eq_refl eq_refl).
Defined.

(** ** Merged updates *)

(** C15: the updates of several blocks, merged into one by [merge_state_updates],
    are the updates applied one on top of the other, the last value of a slot
    winning, and stand for the blocks in sequence, except that the migrated
    classes of all of them are lost; applying one update on top of another loses
    the migrated classes of the second. *)
Theorem merged_updates_compose (order : HashOrder) (ds : list StateUpdateData) (self other : StateUpdateData) (w : World) :
  Forall separate ds -> separate self -> separate other ->
  declared_sierra_classes other ##ₘ migrated_compiled_classes self ->
  data_of (merge_state_updates ds) = fold_left (fun d x => apply_data x d) ds default_data /\
  apply_update (data_of (merge_state_updates ds)) w = fold_left (fun w x => apply_update (without_migrations x) w) ds w /\
  apply_update (apply_data other self) w = apply_update (without_migrations other) (apply_update self w).
Proof.
  intros Hs Ss So Dm. split; [apply merge_is_apply|]. split; [|now apply apply_data_world].
  rewrite merge_is_apply, fold_apply_world; [|exact Hs | exact default_separate | reflexivity]. now rewrite apply_nothing.
Qed.

(** A migration of the class the example declares. *)
Definition migration : StateUpdateData := MkData ∅ ∅ ∅ ∅ {[small_felt 6 := small_felt 12]}.

Lemma sample_separate : separate sample_update.
Proof.
  split; intros c [u E]; cbn in E; [apply lookup_singleton_Some in E as [<- _]; reflexivity | now rewrite lookup_empty in E].
Qed.

Lemma migration_separate : separate migration.
Proof. split; intros c [u E]; cbn in E; now rewrite lookup_empty in E. Qed.

Lemma merged_updates_compose_witness :
  w_casm (apply_update (data_of (merge_state_updates [sample_update; migration])) empty_world) !! small_felt 6 = Some (small_felt 8) /\
  w_casm (world_of [migration; sample_update]) !! small_felt 6 = Some (small_felt 12).
Proof.
  destruct (merged_updates_compose plain_order [sample_update; migration] sample_update migration empty_world) as (_ & E & _).
  - repeat constructor; first [apply sample_separate | apply migration_separate].
  - exact sample_separate.
  - exact migration_separate.
  - apply map_disjoint_empty_l.
  - rewrite E. split; vm_compute; reflexivity.
Defined.

(** ** Queries of pending updates *)

(** C16: on top of a state that has nothing of the contracts it deploys, the
    queries of an update answer with the values of the state after it, zero where
    a contract is new, and leave to the state before what the update does not
    change. *)
Theorem pending_queries_correct (d : StateUpdateData) (w : World) (c k : Felt) :
  separate d -> deploys_new d w ->
  match StateUpdate.storage_value d c k with
  | Some v => default FELT_ZERO (w_storage (apply_update d w) !! (c, k)) = v
  | None => w_storage (apply_update d w) !! (c, k) = w_storage w !! (c, k)
  end /\
  match StateUpdate.contract_nonce d c with
  | Some v => default FELT_ZERO (w_nonce (apply_update d w) !! c) = v
  | None => w_nonce (apply_update d w) !! c = w_nonce w !! c
  end /\
  match contract_class d c with
  | Some v => w_class (apply_update d w) !! c = Some v
  | None => w_class (apply_update d w) !! c = w_class w !! c
  end.
Proof.
  intros Hs Hn. split; [now apply query_storage|]. split; [now apply query_nonce | apply query_class].
Qed.

Lemma pending_queries_correct_witness :
  StateUpdate.storage_value sample_update account (small_felt 99) = Some FELT_ZERO /\
  default FELT_ZERO (w_storage (apply_update sample_update empty_world) !! (account, small_felt 99)) = FELT_ZERO.
Proof.
  split; [vm_compute; reflexivity|].
  apply (pending_queries_correct sample_update empty_world account (small_felt 99) sample_separate).
  intros c u x _ _. split; [apply lookup_empty | intros k; apply lookup_empty].
Defined.

(** An update that deploys a contract, followed by one that replaces the
    contract's class, is merged into one that no longer says that the contract is
    new: a slot that neither sets was zero before the second update and is not
    answered any more after it. *)
Theorem replacement_hides_deployment (order : HashOrder) (self other : StateUpdateData) (c k : Felt) (u u' : ContractUpdate) (x y : Felt) :
  contract_updates self !! c = Some u -> class u = Some (Deploy x) -> storage u !! k = None -> nonce u = None ->
  contract_updates other !! c = Some u' -> class u' = Some (Replace y) -> storage u' !! k = None -> nonce u' = None ->
  system_contract_updates self !! c = None -> system_contract_updates other !! c = None ->
  StateUpdate.storage_value self c k = Some FELT_ZERO /\ StateUpdate.contract_nonce self c = Some FELT_ZERO /\
  StateUpdate.storage_value (apply_data other self) c k = None /\ StateUpdate.contract_nonce (apply_data other self) c = None.
Proof.
  intros Es Cs Ss Ns Eo Co So No Ys Yo.
  assert (Em : contract_updates (apply_data other self) !! c = Some (merge_contract u' u)) by (now rewrite merged_contract, Es, Eo).
  assert (Ey : system_contract_updates (apply_data other self) !! c = None) by (now rewrite merged_system, Ys, Yo).
  assert (El : storage (merge_contract u' u) !! k = None)
    by (cbn [merge_contract storage]; rewrite insert_all_union, lookup_union, So, Ss; reflexivity).
  assert (Ec : class (merge_contract u' u) = Some (Replace y)) by (cbn [merge_contract class]; now rewrite Co).
  assert (En : nonce (merge_contract u' u) = None) by (cbn [merge_contract nonce]; now rewrite No, Ns).
  unfold StateUpdate.storage_value, storage_value_with_provenance, StateUpdate.contract_nonce.
  rewrite Em, Ey, El, Ec, En, Es, Ss, Cs, Ns. auto.
Qed.

Definition deployment : StateUpdateData := with_deployed_contract account (small_felt 5) default_data.
Definition replacement : StateUpdateData := with_replaced_class account (small_felt 7) default_data.

Lemma replacement_hides_deployment_witness :
  StateUpdate.storage_value deployment account (small_felt 3) = Some FELT_ZERO /\
  StateUpdate.storage_value (apply_data replacement deployment) account (small_felt 3) = None.
Proof.
  destruct (replacement_hides_deployment plain_order deployment replacement account (small_felt 3)
    (MkContractUpdate ∅ (Some (Deploy (small_felt 5))) None) (MkContractUpdate ∅ (Some (Replace (small_felt 7))) None)
    (small_felt 5) (small_felt 7)) as (E & _ & E' & _); try reflexivity.
  exact (conj E E').
Defined.

(** ** State diffs *)

(** C14: the commitment of a state diff of felts is defined, and two diffs have
    the same commitment exactly if they agree in what is committed to, unless two
    lists of felts with the same Poseidon hash are exhibited.  Committed to are, for
    every address, the class it is deployed with or replaced by, its storage and its
    nonce, the Cairo classes, and the set of pairs of a class and its compiled class.
    Not committed to are: whether a class was deployed or replaced, whether storage
    belongs to a contract or a system contract, and whether a pair was declared or
    migrated. *)
Theorem state_diff_binding (d d' : StateUpdateData) : diff_ok d -> diff_ok d' ->
  (exists x, compute_state_diff_commitment d = Ret x /\ felt_ok x) /\
  (compute_state_diff_commitment d = compute_state_diff_commitment d' ->
   same_diff d d' \/ collision (state_diff_words d) (state_diff_words d')) /\
  (same_diff d d' -> compute_state_diff_commitment d = compute_state_diff_commitment d').
Proof.
  intros H H'. unfold compute_state_diff_commitment.
  destruct (state_diff_preimage d H) as [fs F], (state_diff_preimage d' H') as [fs' F'].
  destruct (hash_words_total _ _ F) as (x & Ex & P & Hx), (hash_words_total _ _ F') as (x' & Ex' & P' & _).
  split; [eauto|]. split; [|intros Sd; apply f_equal; now apply same_diff_words].
  rewrite Ex, Ex'. intros [= <-]. destruct (same_hash _ _ _ _ _ F F' P P') as [W|C]; [left | now right].
  exact (state_diff_inj d d' H H' W).
Qed.

(** The example with its class migrated instead of declared. *)
Definition migrated_update : StateUpdateData := MkData {[account := account_update]} ∅ ∅ ∅ {[small_felt 6 := small_felt 8]}.

Lemma one_slot_ok k v : felt_ok k -> felt_ok v -> slots_ok {[k := v]}.
Proof. intros Hk Hv. split; [now apply map_Forall_singleton | rewrite map_size_singleton; lia]. Qed.

Lemma sample_diff_ok d : contract_updates d = {[account := account_update]} -> system_contract_updates d = ∅ ->
  declared_cairo_classes d = ∅ -> declared_classes d = [(small_felt 6, small_felt 8)] -> diff_ok d.
Proof.
  intros Ec Es Ek Ed. split.
  - replace (deployed_contracts d) with ({[account := small_felt 5]} : gmap Felt Felt)
      by (unfold deployed_contracts; rewrite Ec, omap_singleton; reflexivity).
    apply one_slot_ok; [exact (small_felt_ok 17) | exact (small_felt_ok 5)].
  - rewrite Ed. split; [|unfold small; cbn; lia]. constructor; [|constructor]. split; [exact (small_felt_ok 6) | exact (small_felt_ok 8)].
  - unfold deprecated_declared_classes. rewrite Ek. exact felts_ok_nil.
  - replace (storage_diffs d) with ({[account := {[small_felt 3 := small_felt 4]}]} : gmap Felt (gmap Felt Felt))
      by (unfold storage_diffs; rewrite Ec, Es, omap_empty, omap_singleton, (left_id_L ∅ (∪)); reflexivity).
    split; [|rewrite map_size_singleton; lia]. apply map_Forall_singleton. split; [exact (small_felt_ok 17)|].
    apply one_slot_ok; [exact (small_felt_ok 3) | exact (small_felt_ok 4)].
  - replace (nonces d) with ({[account := small_felt 1]} : gmap Felt Felt) by (unfold nonces; rewrite Ec, omap_singleton; reflexivity).
    apply one_slot_ok; [exact (small_felt_ok 17) | exact (small_felt_ok 1)].
Qed.

Lemma state_diff_binding_witness : (exists x, compute_state_diff_commitment sample_update = Ret x) /\
  (same_diff sample_update migrated_update \/ collision (state_diff_words sample_update) (state_diff_words migrated_update)).
Proof.
  destruct (state_diff_binding sample_update migrated_update) as [(x & E & _) [B _]];
    [apply sample_diff_ok; first [reflexivity | vm_compute; reflexivity].. |].
  split; [eauto|]. apply B. unfold compute_state_diff_commitment. apply f_equal. unfold state_diff_words.
  assert (Ed : declared_classes sample_update = declared_classes migrated_update) by (vm_compute; reflexivity). rewrite Ed. reflexivity.
Defined.

(** ** State updates in the tables *)

(** C9: the state update of a block is read back as it was inserted: from tables
    without rows of the block, inserting an update that the tables can tell
    succeeds, and the update of the block is then the same update with the hash and
    the commitments of the headers. *)
Theorem state_update_roundtrip (order : HashOrder) (t : Tables) (headers : Headers) (blk : Z) (h parent : Header) (d : StateUpdateData) :
  wf_tables t -> block_new t blk -> readable t d -> headers !! blk = Some h -> headers !! (blk - 1) = Some parent ->
  exists t', insert_state_update_data blk headers d t = Ok t' /\ wf_tables t' /\
    state_update headers t' (Number blk) =
      Ret (Some (MkStateUpdate (header_hash h) (header_state_commitment parent) (header_state_commitment h) d)).
Proof.
  intros Hw Bn Re Eh Ep. assert (Hh : is_Some (headers !! blk)) by eauto.
  destruct (insert_state_update_spec blk headers d t Hw Hh (declared_disjoint_new t d Re)) as (t' & Et & Hw' & _).
  - intros s v Hin _. pose proof (bn_casm _ _ Bn s blk v Hin). lia.
  - intros s [v E]. apply (re_migrated _ _ Re s v E).
  - exists t'. split; [exact Et|]. split; [exact Hw'|]. unfold state_update, block_details, header_number.
    rewrite bool_decide_eq_true_2 by exact Hh. rewrite Eh, Ep. cbn [bind_outcome].
    rewrite (read_back t t' blk d Bn Re (inserted_rows t t' blk d Bn Re Hw headers Hh Et)). reflexivity.
Qed.

(** The tables after a block with the update of the example, and an update that
    replaces the class, declares a class again and migrates one. *)
Definition sample_headers : Headers := {[0 := first_header; 1 := MkHeader (small_felt 10) (small_felt 11) V_0_14_0]}.
Definition deployed_tables : Tables :=
  match insert_state_update_data 0 sample_headers sample_update (tables empty_db) with Ok t => t | Err _ => tables empty_db end.
Definition later_update : StateUpdateData :=
  MkData {[account := MkContractUpdate {[small_felt 3 := FELT_ZERO]} (Some (Replace (small_felt 7))) (Some (small_felt 2))]}
    {[ADDRESS_ONE := {[small_felt 1 := small_felt 9]}]} {[small_felt 5]} ∅ {[small_felt 6 := small_felt 12]}.

Lemma deployed_wf : wf_tables deployed_tables.
Proof.
  destruct (insert_state_update_spec 0 sample_headers sample_update (tables empty_db)) as (t' & E & Hw & _).
  - split; [split; constructor | split; constructor | intros b id n Hin; inversion Hin | intros b id kid v Hin; inversion Hin].
  - eexists. reflexivity.
  - apply map_disjoint_empty_r.
  - intros s v Hin. inversion Hin.
  - intros s [v E]. cbn in E. now rewrite lookup_empty in E.
  - unfold deployed_tables. now rewrite E.
Qed.

Lemma rows_before {K V} (l : list (Z * K * V)) n : forallb (fun row => row.1.1 <? n) l = true -> forall b k v, (b, k, v) ∈ l -> b < n.
Proof. rewrite forallb_forall. intros H b k v Hin%list_elem_of_In. exact (proj1 (Z.ltb_lt _ _) (H _ Hin)). Qed.

Lemma deployed_new : block_new deployed_tables 1.
Proof.
  split; [apply rows_before; vm_compute; reflexivity | apply rows_before; vm_compute; reflexivity |
    apply rows_before; vm_compute; reflexivity | | |].
  - intros s b v Hin. assert (F : forallb (fun row => row.1.2 <? 1) (casm_class_hashes deployed_tables) = true) by (vm_compute; reflexivity).
    rewrite forallb_forall in F. apply list_elem_of_In in Hin. exact (proj1 (Z.ltb_lt _ _) (F _ Hin)).
  - intros s b E. apply elem_of_map_to_list, list_elem_of_In in E.
    assert (F : forallb (fun row => match row.2 with Some b => b <? 1 | None => true end) (map_to_list (class_definitions deployed_tables)) = true)
      by (vm_compute; reflexivity).
    rewrite forallb_forall in F. exact (proj1 (Z.ltb_lt _ _) (F _ E)).
  - intros s b Hin. vm_compute in Hin. inversion Hin.
Qed.

Lemma later_readable : readable deployed_tables later_update.
Proof.
  split; cbn [later_update contract_updates system_contract_updates declared_cairo_classes declared_sierra_classes migrated_compiled_classes].
  - split; intros c [u E]; cbn in E; apply lookup_singleton_Some in E as [<- <-]; reflexivity.
  - intros c u [<- <-]%lookup_singleton_Some. left. cbn. eauto.
  - intros c s [<- <-]%lookup_singleton_Some. apply map_non_empty_singleton.
  - intros c u x [<- <-]%lookup_singleton_Some E. discriminate E.
  - intros c u x [<- <-]%lookup_singleton_Some E. exists 0, (small_felt 5). apply list_elem_of_In. vm_compute. now left.
  - intros s v E. now rewrite lookup_empty in E.
  - intros s v [<- <-]%lookup_singleton_Some. split; [|split; [apply lookup_empty|]].
    + exists 0, (small_felt 8). apply list_elem_of_In. vm_compute. now left.
    + split; [rewrite elem_of_singleton; discriminate | eexists; vm_compute; reflexivity].
Qed.

Lemma state_update_roundtrip_witness : exists t', insert_state_update_data 1 sample_headers later_update deployed_tables = Ok t' /\
  state_update sample_headers t' (Number 1) = Ret (Some (MkStateUpdate (small_felt 10) FELT_ZERO (small_felt 11) later_update)).
Proof.
  destruct (state_update_roundtrip plain_order deployed_tables sample_headers 1 (MkHeader (small_felt 10) (small_felt 11) V_0_14_0)
    first_header later_update deployed_wf deployed_new later_readable eq_refl eq_refl) as (t' & E & _ & E').
  exists t'. exact (conj E E').
Defined.
