(* ===== verification/EventTheorems.v ===== *)
(** Properties of the event store: its filters miss no block, the pages of a
    query are all of its events, and two defects of the running filter and of
    pruning. *)

From Stdlib Require Import ZArith Lia Bool List.
From stdpp Require Import list gmap.
From S2P Require Import Prelude Bytes Felt Bloom Commitments EventStore EventFacts EventInv EventLoad EventPage.
Local Open Scope Z_scope.

(** ** Histories of a store *)

Section Histories.
Context (sizes : BloomSizes) (SIPS : nat -> Felt -> Z).
Context (compress : list Z -> list Z) (decompress : list Z -> option (list Z)).
Context (cache_set : CacheKey -> AggregateBloom -> AggregateBloomCache -> AggregateBloomCache).

Definition empty_db (filter : AggregateBloom) : EventDb := MkDb ∅ ∅ ∅ [] (filter_row compress filter, 0).

(** A store with the blocks below [N]: blocks are added, removed by a reorg and
    queried; a restart stores the running filter, and after a crash the stored
    one is from another height. *)
Inductive reachable : Z -> EventStore -> Prop :=
| R_open a s : aggregate_new sizes 0 = Ret a -> open_store sizes SIPS decompress (empty_db a) = Ret s -> reachable 0 s
| R_block N s hash hashes evs s' : reachable N s -> length evs = length hashes -> hashes_new (db s) hashes ->
    add_block sizes SIPS compress N hash hashes evs s = Ret (Ok s') -> reachable (N + 1) s'
| R_reorg N s t s' : reachable N s -> 0 <= t < N -> l2_reorg sizes SIPS t s = Ret (Ok s') -> reachable t s'
| R_query N s f e R s' : reachable N s -> load_event_filter_range sizes decompress cache_set f e s = Ret (R, s') -> reachable N s'
| R_restart N s s' : reachable N s -> open_store sizes SIPS decompress (db (store_running_event_filter compress s)) = Ret s' ->
    reachable N s'
| R_crash N s s' : reachable N s -> (running_event_filter (db s)).2 <> N -> open_store sizes SIPS decompress (db s) = Ret s' ->
    reachable N s'.

(** The parameters: the sizes, zstd and the cache. *)
Record libraries_ok : Prop := {
  lo_range : (0 < BLOCK_RANGE_BYTES sizes)%nat;
  lo_bits : (0 < BITVEC_BYTES sizes)%nat;
  lo_zstd : forall bytes, decompress (compress bytes) = Some bytes;
  lo_cache : forall k a m k' a', cache_set k a m !! k' = Some a' -> (k' = k /\ a' = a) \/ m !! k' = Some a'
}.

Context (lib : libraries_ok).

Lemma empty_db_ok a : aggregate_ok sizes a -> from_block a = 0 -> db_ok sizes SIPS compress 0 [] (empty_db a).
Proof.
  intros Oa _. pose proof (range_len_pos sizes (lo_range lib) (lo_bits lib)). split.
  - intros b. cbn. rewrite lookup_empty. split; [intros [? ?]; discriminate | lia].
  - intros b. unfold query_events_by_block, query_transaction_infos_by_block. cbn. now rewrite !lookup_empty.
  - intros b _. cbn. now rewrite !lookup_empty.
  - intros b. cbn. rewrite lookup_empty. discriminate.
  - split; [reflexivity | intros i x E; now rewrite lookup_nil in E | cbn [length]; lia].
  - exists a, 0. now split.
Qed.

Lemma reachable_ok N s : reachable N s -> exists fs, store_ok sizes SIPS compress N fs s.
Proof.
  destruct lib as [Lr Lb Lz Lc].
  induction 1 as [a s Ea E|N s hash hashes evs s' _ [fs IH] Hl Hn E|N s t s' _ [fs IH] Ht E|N s f e R s' _ [fs IH] E|N s s' _ [fs IH] E|N s s' _ [fs IH] Hn E].
  - destruct (aggregate_new_spec sizes 0) as (a' & E' & Oa & Fa). rewrite Ea in E'. injection E' as <-.
    destruct (open_store_ok sizes SIPS Lr Lb compress decompress Lz 0 [] (empty_db a) (empty_db_ok a Oa Fa)) as (s1 & E1 & S1 & _).
    { intros x Ex Ox. apply new_filter_ok; [exact Ox | | intros b _; apply lookup_empty]. injection Ex as Ef _ _. cbn [length]. lia. }
    rewrite E in E1. injection E1 as <-. now exists [].
  - destruct (add_block_ok sizes SIPS Lr Lb compress N fs s hash hashes evs IH Hl Hn) as (s1 & fs1 & E1 & S1 & _).
    rewrite E in E1. injection E1 as <-. now exists fs1.
  - destruct (l2_reorg_ok sizes SIPS Lr Lb compress N fs s t IH Ht) as (s1 & fs1 & E1 & S1 & _).
    rewrite E in E1. injection E1 as <-. now exists fs1.
  - destruct (load_range_spec sizes SIPS Lr Lb compress decompress Lz cache_set Lc N fs s f e IH) as (s1 & E1 & S1 & _).
    rewrite E in E1. injection E1 as _ <-. now exists fs.
  - destruct (stored_ok sizes SIPS compress decompress Lz N fs s IH) as [D C].
    destruct (open_store_ok sizes SIPS Lr Lb compress decompress Lz N fs _ D C) as (s1 & E1 & S1 & _).
    rewrite E in E1. injection E1 as <-. now exists fs.
  - destruct (open_store_ok sizes SIPS Lr Lb compress decompress Lz N fs (db s) (so_db _ _ _ _ _ _ IH)) as (s1 & E1 & S1 & _).
    { intros x Ex _. rewrite Ex in Hn. now destruct Hn. }
    rewrite E in E1. injection E1 as <-. now exists fs.
Qed.
End Histories.

Section Correct.
Context (sizes : BloomSizes) (SIPS : nat -> Felt -> Z).
Context (compress : list Z -> list Z) (decompress : list Z -> option (list Z)).
Context (cache_set : CacheKey -> AggregateBloom -> AggregateBloomCache -> AggregateBloomCache).

(** C27: In every store that blocks, reorgs, queries and restarts produce, the
    table of filters has one row for each complete range of blocks, in order:
    the row of the i-th range starts at block [i * LEN], ends [LEN - 1] blocks
    later and its bitmap has the size of a filter; the running filter is well
    formed and starts where the last row ends. *)
Theorem filter_table_typed N s : libraries_ok sizes compress decompress cache_set ->
  reachable sizes SIPS compress decompress cache_set N s ->
  exists fs, event_filters (db s) = map (filter_row compress) fs /\
    (forall i a, (fs ++ [running_filter (running s)]) !! i = Some a ->
       aggregate_ok sizes a /\ from_block a = Z.of_nat (AGGREGATE_BLOOM_BLOCK_RANGE_LEN sizes) * Z.of_nat i) /\
    Z.of_nat (AGGREGATE_BLOOM_BLOCK_RANGE_LEN sizes) * Z.of_nat (length fs) <= N
      < Z.of_nat (AGGREGATE_BLOOM_BLOCK_RANGE_LEN sizes) * (Z.of_nat (length fs) + 1).
Proof.
  intros L R. destruct (reachable_ok _ _ _ _ _ L N s R) as [fs S]. exists fs.
  pose proof (do_tables _ _ _ _ _ _ (so_db _ _ _ _ _ _ S)) as T. split; [exact (do_table _ _ _ _ _ _ T)|].
  split; [|exact (do_count _ _ _ _ _ _ T)]. intros i a E.
  pose proof (all_filters_ok sizes SIPS (lo_range _ _ _ _ L) (lo_bits _ _ _ _ L) compress N fs s S i a E) as [Oa Fa _]. rewrite Z.add_0_l in Fa. now split.
Qed.

(** C8: No block is missed.  In every store that blocks, reorgs, queries and
    restarts produce, a block of a queried range that has an event with one of
    the addresses and keys (at most 16 groups of keys) is among the blocks that
    the loaded filters report, whatever of them comes from the cache. *)
Theorem event_filters_cover N s f e b addresses keys : libraries_ok sizes compress decompress cache_set ->
  reachable sizes SIPS compress decompress cache_set N s ->
  0 <= f <= b -> b <= e < N -> (length keys <= EVENT_KEY_FILTER_LIMIT)%nat ->
  block_matches (db s) addresses keys b ->
  exists R s' blocks, load_event_filter_range sizes decompress cache_set f e s = Ret (R, s') /\
    check_filters sizes SIPS R addresses keys = Ret blocks /\ b ∈ blocks.
Proof.
  intros L R Hf He Hk M. destruct (reachable_ok _ _ _ _ _ L N s R) as [fs S]. destruct L as [Lr Lb Lz Lc].
  destruct (blocks_to_scan_spec sizes SIPS Lr Lb compress decompress Lz cache_set Lc N fs s f e addresses keys S)
    as (Rs & s' & a & blocks & P & E & _ & _ & _ & _ & _ & Eb & Ef & HP); [lia | lia | exact Hk |].
  exists Rs, s', blocks. split; [exact E|]. split; [exact Eb|].
  assert (X : b ∈ List.filter P (zrange f e)).
  { apply elem_of_list_filter_bool. split; [apply elem_of_zrange; lia | apply HP; [lia | exact M]]. }
  rewrite <- Ef in X. now apply elem_of_list_filter_bool in X as [X _].
Qed.

(** The pages of a query in archive mode: the client passes the token on. *)
Fixpoint all_pages (fuel : nat) (cs : EventConstraints) (limit : Z) (s : EventStore) : option (list (list EmittedEvent)) :=
  match fuel with
  | O => None
  | S fuel =>
      match events sizes SIPS decompress cache_set Archive cs limit s with
      | Ret (Ok page, s') =>
          match continuation page with
          | None => Some [page_events page]
          | Some t => cons (page_events page) <$> all_pages fuel (next_request cs t) limit s'
          end
      | _ => None
      end
  end.

Lemma next_rest N d cs t : rest_of N d cs (Some t)
  = drop (c_offset (next_request cs t)) (matching_range d (contract_addresses (next_request cs t)) (c_keys (next_request cs t))
      (query_from (next_request cs t)) (query_to N (next_request cs t))).
Proof. reflexivity. Qed.

Lemma all_pages_steps N limit : libraries_ok sizes compress decompress cache_set -> 0 < N -> forall fuel fs cs s,
  store_ok sizes SIPS compress N fs s -> query_ok N limit (db s) cs -> offset_ok N limit (db s) cs -> (steps_left N (db s) cs < fuel)%nat ->
  exists pages, all_pages fuel cs limit s = Some pages /\ Forall (fun page => (length page <= page_size cs)%nat) pages /\
    concat pages = drop (c_offset cs) (matching_range (db s) (contract_addresses cs) (c_keys cs) (query_from cs) (query_to N cs)).
Proof.
  intros L HN. destruct L as [Lr Lb Lz Lc]. induction fuel as [|fuel IH]; intros fs cs s S Q O Hs; [lia|]. cbn [all_pages].
  destruct (events_page sizes SIPS Lr Lb compress decompress Lz cache_set Lc N fs s cs limit S HN Q O)
    as (page & s' & -> & S' & Ed & Lp & Er & Ht).
  destruct (continuation page) as [t|] eqn:Et.
  - destruct (Ht t eq_refl) as (Q' & O' & St). cbv zeta in *. rewrite <- Ed in Q', O', St.
    destruct (IH fs (next_request cs t) s' S' Q' O') as (pages & -> & Fp & Ec); [rewrite Ed in *; lia|].
    eexists. split; [reflexivity|]. split; [constructor; [exact Lp | exact Fp]|].
    cbn [concat]. rewrite Ec, Er, next_rest, Ed. reflexivity.
  - eexists. split; [reflexivity|]. split; [now repeat constructor|]. cbn [concat]. now rewrite Er.
Qed.

(** C7: Paging is complete in archive mode.  In every store that blocks, reorgs,
    queries and restarts produce, with blockchain pruning off, following the
    continuation tokens of a query ends after finitely many pages, no page has
    more events than the page size, and the pages together are all matching
    events of the queried range, each once and in order.  The conditions, which
    [query_ok] lists: a positive page size, a positive limit on the range of
    blocks per query, at most 16 groups of keys, and sums that fit 64 bits (the
    larger of the first block and the height plus the limit, the page size plus
    one, the number of matching events); an overflow there is a panic. *)
Theorem all_pages_correct N s cs limit : libraries_ok sizes compress decompress cache_set ->
  reachable sizes SIPS compress decompress cache_set N s -> 0 < N -> query_ok N limit (db s) cs -> c_offset cs = 0%nat ->
  exists fuel pages, all_pages fuel cs limit s = Some pages /\ Forall (fun page => (length page <= page_size cs)%nat) pages /\
    concat pages = matching_range (db s) (contract_addresses cs) (c_keys cs) (query_from cs) (query_to N cs).
Proof.
  intros L R HN Q O. destruct (reachable_ok _ _ _ _ _ L N s R) as [fs S].
  destruct (all_pages_steps N limit L HN (Datatypes.S (steps_left N (db s) cs)) fs cs s S Q) as (pages & E & F & C);
    [unfold offset_ok; lia | lia |].
  exists (Datatypes.S (steps_left N (db s) cs)), pages. rewrite O, drop_0 in C. auto.
Qed.

(** A query of a range without pages (for subscriptions) returns all
    matching events of the range, in order, and the last block that it covers;
    after the end of the chain it returns nothing. *)
Theorem events_in_range_correct N s f e addresses keys : libraries_ok sizes compress decompress cache_set ->
  reachable sizes SIPS compress decompress cache_set N s -> 0 <= f -> (length (truncate_trailing keys) <= EVENT_KEY_FILTER_LIMIT)%nat ->
  exists s', events_in_range sizes SIPS decompress cache_set f e addresses keys s
    = Ret (Ok (if f <? N then (matching_range (db s) addresses (truncate_trailing keys) f (Z.min e (N - 1)), Some (Z.min e (N - 1)))
               else ([], None)), s').
Proof.
  intros L R Hf Hk. destruct (reachable_ok _ _ _ _ _ L N s R) as [fs S]. pose proof L as [Lr Lb Lz Lc].
  pose proof (so_db _ _ _ _ _ _ S) as D. unfold events_in_range. rewrite (latest_spec _ _ Lr Lb _ _ _ _ D).
  destruct (Z.ltb_spec 0 N) as [HN|HN]; [|exists s; now rewrite (proj2 (Z.ltb_ge _ _)) by lia].
  destruct (Z.ltb_spec (N - 1) f) as [Lf|Lf]; [exists s; now rewrite (proj2 (Z.ltb_ge _ _)) by lia|].
  rewrite (proj2 (Z.ltb_lt f N)) by lia. cbv zeta.
  destruct (blocks_to_scan_spec sizes SIPS Lr Lb compress decompress Lz cache_set Lc N fs s f (Z.min e (N - 1)) addresses (truncate_trailing keys) S)
    as (Rs & s' & a & blocks & P & -> & _ & _ & _ & _ & _ & Eb & Ef & HP); [lia | lia | exact Hk |].
  cbn [bind_outcome fst snd]. rewrite Eb. cbn [bind_outcome]. rewrite Ef. exists s'.
  rewrite (scan_range_spec _ _ _ N fs (db s) addresses (truncate_trailing keys) D).
  - cbn [app]. rewrite scanned_events; [reflexivity|]. intros b Hb. apply elem_of_zrange in Hb. now apply HP.
  - apply Forall_forall. intros b Hb. apply elem_of_list_filter_bool in Hb as [Hb _]. apply elem_of_zrange in Hb. lia.
Qed.
End Correct.

(** ** A sample *)

Module Sample.
Definition sizes : BloomSizes := MkSizes 1 1.
Definition SIPS (i : nat) (item : Felt) : Z := match i with O => nth 31 item 0 | S _ => 0 end.
Definition compress (bytes : list Z) : list Z := bytes.
Definition decompress (bytes : list Z) : option (list Z) := Some bytes.
Definition cache_set (k : CacheKey) (a : AggregateBloom) (m : AggregateBloomCache) : AggregateBloomCache := <[k := a]> m.

Definition felt (n : Z) : Felt := repeat 0 31 ++ [n].
Definition event (address key : Z) : Event := MkEvent [felt 7] (felt address) [felt key].

Definition get {A} (default : A) (x : outcome A) : A := match x with Ret a => a | Panic => default end.
Definition get_ok (default : EventStore) (x : outcome (result unit EventStore)) : EventStore :=
  match x with Ret (Ok s) => s | _ => default end.

Definition filter0 : AggregateBloom := get (MkAggregate [] 0 0) (aggregate_new sizes 0).
Definition store0 : EventStore :=
  get (MkStore (empty_db compress filter0) (MkRunning filter0 0) ∅) (open_store sizes SIPS decompress (empty_db compress filter0)).
Definition store1 : EventStore :=
  get_ok store0 (add_block sizes SIPS compress 0 (felt 100) [felt 20] [[event 1 2; event 3 4; event 1 2]] store0).
Definition store2 : EventStore :=
  get_ok store0 (add_block sizes SIPS compress 1 (felt 101) [felt 21; felt 22] [[event 1 4]; [event 1 2]] store1).

Lemma libraries : libraries_ok sizes compress decompress cache_set.
Proof.
  split; [cbn; lia | cbn; lia | reflexivity |]. intros k a m k' a'. unfold cache_set. rewrite lookup_insert_Some. intros [[<- <-]|[_ H]]; auto.
Qed.

Lemma reachable0 : reachable sizes SIPS compress decompress cache_set 0 store0.
Proof. apply (R_open _ _ _ _ _ filter0); vm_compute; reflexivity. Qed.

Lemma reachable2 : reachable sizes SIPS compress decompress cache_set 2 store2.
Proof.
  apply (R_block _ _ _ _ _ 1 store1 (felt 101) [felt 21; felt 22] [[event 1 4]; [event 1 2]]);
    [|reflexivity | split; [apply (bool_decide_unpack _); vm_compute; exact I | repeat constructor] | vm_compute; reflexivity].
  apply (R_block _ _ _ _ _ 0 store0 (felt 100) [felt 20] [[event 1 2; event 3 4; event 1 2]]);
    [exact reachable0 | reflexivity | split; [apply (bool_decide_unpack _); vm_compute; exact I | repeat constructor] | vm_compute; reflexivity].
Qed.

Definition constraints : EventConstraints := MkConstraints None None [felt 1] [[felt 2]] 1 0.
End Sample.

Lemma filter_table_typed_witness :
  exists fs, event_filters (db Sample.store2) = map (filter_row Sample.compress) fs /\
    (forall i a, (fs ++ [running_filter (running Sample.store2)]) !! i = Some a ->
       aggregate_ok Sample.sizes a /\ from_block a = Z.of_nat (AGGREGATE_BLOOM_BLOCK_RANGE_LEN Sample.sizes) * Z.of_nat i) /\
    Z.of_nat (AGGREGATE_BLOOM_BLOCK_RANGE_LEN Sample.sizes) * Z.of_nat (length fs) <= 2
      < Z.of_nat (AGGREGATE_BLOOM_BLOCK_RANGE_LEN Sample.sizes) * (Z.of_nat (length fs) + 1).
Proof. exact (filter_table_typed _ _ _ _ _ 2 Sample.store2 Sample.libraries Sample.reachable2). Defined.

Lemma event_filters_cover_witness :
  exists R s' blocks, load_event_filter_range Sample.sizes Sample.decompress Sample.cache_set 0 1 Sample.store2 = Ret (R, s') /\
    check_filters Sample.sizes Sample.SIPS R [Sample.felt 1] [[Sample.felt 4]] = Ret blocks /\ 1 ∈ blocks.
Proof.
  apply (event_filters_cover _ _ _ _ _ 2 Sample.store2 0 1 1 _ _ Sample.libraries Sample.reachable2); [lia | lia | unfold EVENT_KEY_FILTER_LIMIT; cbn; lia |].
  exists (Sample.event 1 4). split; [vm_compute; left | split; vm_compute; reflexivity].
Defined.

Lemma events_in_range_correct_witness :
  exists s', events_in_range Sample.sizes Sample.SIPS Sample.decompress Sample.cache_set 0 5 [Sample.felt 1] [[Sample.felt 2]; []] Sample.store2
    = Ret (Ok (matching_range (db Sample.store2) [Sample.felt 1] [[Sample.felt 2]] 0 1, Some 1), s').
Proof.
  apply (events_in_range_correct _ _ _ _ _ 2 Sample.store2 0 5 [Sample.felt 1] [[Sample.felt 2]; []] Sample.libraries Sample.reachable2);
    [lia | unfold EVENT_KEY_FILTER_LIMIT; cbn; lia].
Defined.

Lemma all_pages_correct_witness :
  exists fuel pages, all_pages Sample.sizes Sample.SIPS Sample.decompress Sample.cache_set fuel Sample.constraints 1 Sample.store2 = Some pages /\
    Forall (fun page => (length page <= 1)%nat) pages /\
    concat pages = matching_range (db Sample.store2) [Sample.felt 1] [[Sample.felt 2]] 0 1.
Proof.
  apply (all_pages_correct _ _ _ _ _ 2 Sample.store2 Sample.constraints 1 Sample.libraries Sample.reachable2); [lia | | reflexivity].
  split; try (vm_compute; reflexivity); unfold EVENT_KEY_FILTER_LIMIT; cbn; lia.
Defined.

(** ** Defects *)

Section Stale.
Context (sizes : BloomSizes) (SIPS : nat -> Felt -> Z).
Context (compress : list Z -> list Z) (decompress : list Z -> option (list Z)).
Context (cache_set : CacheKey -> AggregateBloom -> AggregateBloomCache -> AggregateBloomCache).
Context (lib : libraries_ok sizes compress decompress cache_set).

(** A store is opened with the stored filter whenever the height fits. *)
Lemma open_stale N fs d a : db_ok sizes SIPS compress N fs d -> 0 < N -> aggregate_ok sizes a ->
  running_event_filter d = (filter_row compress a, N) ->
  open_store sizes SIPS decompress d = Ret (MkStore d (MkRunning a N) ∅).
Proof.
  intros D HN Oa Er. destruct lib as [Lr Lb Lz Lc]. unfold open_store, load.
  rewrite (latest_spec _ _ Lr Lb _ _ _ _ D), (proj2 (Z.ltb_lt _ _)), Er by exact HN.
  rewrite (load_filter_row sizes compress decompress Lz a Oa). cbn [bind_outcome].
  now rewrite (proj2 (Z.eqb_eq _ _)) by lia.
Qed.

(** With an empty cache and a range after the complete filters only the running
    filter is used. *)
Lemma load_running_only N fs d r f e : db_ok sizes SIPS compress N fs d ->
  Z.of_nat (AGGREGATE_BLOOM_BLOCK_RANGE_LEN sizes) * Z.of_nat (length fs) <= f ->
  load_event_filter_range sizes decompress cache_set f e (MkStore d r ∅) = Ret ([running_filter r], MkStore d r ∅).
Proof.
  intros D Hf. destruct lib as [Lr Lb Lz Lc]. unfold load_event_filter_range. cbn [db cache running].
  assert (G : get_many sizes f e ∅ = []).
  { unfold get_many. induction (seq _ _) as [|i l IH]; [reflexivity|]. cbn. now rewrite lookup_empty. }
  rewrite G. cbn [existsb negb]. pose proof (do_tables _ _ _ _ _ _ D) as T. rewrite (do_table _ _ _ _ _ _ T).
  replace (List.filter _ _) with (@nil FilterRow); [reflexivity|]. symmetry. apply list_filter_none.
  intros row Hr. apply list_elem_of_In, in_map_iff in Hr as (a & <- & Ha).
  apply list_elem_of_In, list_elem_of_lookup in Ha as [i Ei].
  pose proof (filters_below sizes SIPS Lr Lb compress N fs d i a T Ei). cbn. lia.
Qed.

(** C28: A running filter that an earlier shutdown stored is taken for the current
    one whenever the height is the same.  Let a store be shut down at height
    [N], and let the chain be at height [N] again later, with other blocks after
    reorgs but without another shutdown in between, so that the row of the
    filter is still the one of the shutdown; then the process dies.  The store
    is opened with the filter of the shutdown, and a query of blocks in its
    range reports events only of the blocks which that filter knows: the
    events of the others are missing without an error. *)
Theorem stale_running_filter N s s' cs limit blocks :
  reachable sizes SIPS compress decompress cache_set N s ->
  reachable sizes SIPS compress decompress cache_set N s' -> 0 < N ->
  running_event_filter (db s') = running_event_filter (db (store_running_event_filter compress s)) ->
  query_ok N limit (db s') cs -> from_block (running_filter (running s)) <= query_from cs ->
  check sizes SIPS (contract_addresses cs) (c_keys cs) (running_filter (running s)) = Ret blocks ->
  let e := query_limit N limit cs in
  let known := List.filter (fun b => (query_from cs <=? b) && (b <=? e)) blocks in
  let shown := drop (c_offset cs) (flat_map (matching (db s') (contract_addresses cs) (c_keys cs)) known) in
  exists opened, open_store sizes SIPS decompress (db s') = Ret opened /\
    db opened = db s' /\ running opened = running s /\
    ((length shown <= page_size cs)%nat -> exists token s'',
       events sizes SIPS decompress cache_set Archive cs limit opened = Ret (Ok (MkPage shown token), s'')).
Proof.
  intros R R' HN Er Q Hf Ck e known shown. pose proof lib as [Lr Lb Lz Lc].
  destruct (reachable_ok _ _ _ _ _ lib N s R) as [fs S]. destruct (reachable_ok _ _ _ _ _ lib N s' R') as [fs' S'].
  pose proof (so_db _ _ _ _ _ _ S') as D'. destruct (so_running _ _ _ _ _ _ S) as [Oa Fa _].
  pose proof (do_count _ _ _ _ _ _ (do_tables _ _ _ _ _ _ (so_db _ _ _ _ _ _ S))) as C.
  pose proof (do_count _ _ _ _ _ _ (do_tables _ _ _ _ _ _ D')) as C'.
  pose proof (range_len_pos sizes Lr Lb) as Lp.
  assert (El : length fs' = length fs) by nia.
  destruct (so_next _ _ _ _ _ _ S) as [E0|En]; [lia|].
  destruct s as [d r c]. cbn [running store_running_event_filter db running_event_filter set_running_row] in *.
  destruct r as [a n]. cbn [running_filter next_block] in *. subst n.
  eexists. split; [exact (open_stale N fs' (db s') a D' HN Oa Er)|]. split; [reflexivity|]. split; [reflexivity|].
  intros Ls. pose proof Q as [Hps Hpr Hr Hev Hk H0 Hl].
  unfold events. cbn [db]. rewrite (proj2 (Nat.ltb_ge _ _)) by exact Hps.
  rewrite (latest_spec _ _ Lr Lb _ _ _ _ D'), (proj2 (Z.ltb_lt _ _)) by exact HN.
  rewrite (resolve_archive cs (db s')). cbn [bind_outcome]. rewrite add_u64_ok by lia. cbn [bind_outcome].
  fold (query_to N cs). change (Z.min (query_to N cs) (query_from cs + limit - 1)) with e.
  rewrite (load_running_only N fs' _ _ _ _ D') by (rewrite El; lia). cbn [bind_outcome fst snd last unwrap_option running_filter].
  assert (He : e < N) by (unfold e, query_limit, query_to; destruct (c_to_block cs); lia).
  assert (Ht : to_block a = from_block a + Z.of_nat (AGGREGATE_BLOOM_BLOCK_RANGE_LEN sizes) - 1) by exact (proj2 Oa).
  rewrite (Z.min_l e) by nia. cbn [check_filters]. rewrite Ck. cbn [bind_outcome]. rewrite app_nil_r. fold known.
  rewrite (scan_blocks_spec _ _ Lr Lb _ N fs' (db s') cs (query_from cs) D') with (emitted := []).
  - cbn [app]. fold shown. rewrite (proj2 (Nat.leb_le _ _)) by exact Ls. cbn [bind_outcome]. eauto.
  - apply Forall_forall. intros b Hb. unfold known in Hb. apply elem_of_list_filter_bool in Hb as [_ Hb]. lia.
  - exact Hpr.
  - cbn. lia.
Qed.
End Stale.

(** A shutdown at height 1, a restart, a reorg of block 0 and its replacement:
    the query returns nothing, although the new block has a matching event. *)
Module StaleSample.
Definition reopened : EventStore :=
  Sample.get Sample.store0 (open_store Sample.sizes Sample.SIPS Sample.decompress (db (store_running_event_filter Sample.compress Sample.store1))).
Definition reorged : EventStore := Sample.get_ok Sample.store0 (l2_reorg Sample.sizes Sample.SIPS 0 reopened).
Definition replaced : EventStore :=
  Sample.get_ok Sample.store0 (add_block Sample.sizes Sample.SIPS Sample.compress 0 (Sample.felt 102) [Sample.felt 23] [[Sample.event 5 6]] reorged).
Definition query : EventConstraints := MkConstraints None None [Sample.felt 5] [] 10 0.

Abbreviation sample_reachable := (reachable Sample.sizes Sample.SIPS Sample.compress Sample.decompress Sample.cache_set).

Lemma reachable_shut : sample_reachable 1 Sample.store1.
Proof.
  apply (R_block _ _ _ _ _ 0 Sample.store0 (Sample.felt 100) [Sample.felt 20] [[Sample.event 1 2; Sample.event 3 4; Sample.event 1 2]]);
    [exact Sample.reachable0 | reflexivity | | vm_compute; reflexivity].
  split; [apply NoDup_singleton | repeat constructor].
Qed.

Lemma reachable_replaced : sample_reachable 1 replaced.
Proof.
  apply (R_block _ _ _ _ _ 0 reorged (Sample.felt 102) [Sample.felt 23] [[Sample.event 5 6]]); [| reflexivity | | vm_compute; reflexivity].
  - apply (R_reorg _ _ _ _ _ 1 reopened 0); [| lia | vm_compute; reflexivity].
    apply (R_restart _ _ _ _ _ 1 Sample.store1); [exact reachable_shut | vm_compute; reflexivity].
  - split; [apply NoDup_singleton | repeat constructor].
Qed.
End StaleSample.

Lemma stale_running_filter_witness :
  length (matching_range (db StaleSample.replaced) [Sample.felt 5] [] 0 0) = 1%nat /\
  exists opened, open_store Sample.sizes Sample.SIPS Sample.decompress (db StaleSample.replaced) = Ret opened /\
    exists token s'', events Sample.sizes Sample.SIPS Sample.decompress Sample.cache_set Archive StaleSample.query 10 opened
      = Ret (Ok (MkPage [] token), s'').
Proof.
  split; [vm_compute; reflexivity|].
  destruct (stale_running_filter _ _ _ _ _ Sample.libraries 1 Sample.store1 StaleSample.replaced StaleSample.query 10 []
    StaleSample.reachable_shut StaleSample.reachable_replaced) as (opened & E & _ & _ & H);
    [lia | vm_compute; reflexivity | | vm_compute; discriminate | vm_compute; reflexivity |].
  - split; try (vm_compute; reflexivity); unfold EVENT_KEY_FILTER_LIMIT; cbn; lia.
  - exists opened. split; [exact E|]. apply H. cbn. lia.
Defined.

(** The same query from another block. *)
Definition with_from (from : Z) (cs : EventConstraints) : EventConstraints :=
  MkConstraints (Some from) (c_to_block cs) (contract_addresses cs) (c_keys cs) (page_size cs) (c_offset cs).

Lemma full_page_with_from cs f from emitted : full_page (with_from f cs) from emitted = full_page cs from emitted.
Proof. reflexivity. Qed.

Lemma scan_with_from cs f from d : forall blocks offset emitted,
  scan_blocks blocks (with_from f cs) from d offset emitted = scan_blocks blocks cs from d offset emitted.
Proof.
  induction blocks as [|b blocks IH]; intros offset emitted; [reflexivity|]. cbn [scan_blocks with_from contract_addresses c_keys page_size].
  destruct (add_usize _ _); [|reflexivity]. cbn [bind_outcome].
  destruct (unwrap_option (block_headers d !! b)) as [hash|]; [|reflexivity]. cbn [bind_outcome].
  destruct (events_for_block d b) as [[evs|]|]; [|reflexivity..]. rewrite skip_while_spec. rewrite full_page_with_from.
  destruct (_ <? _)%nat; [reflexivity | apply IH].
Qed.

(** With pruning the lower bound does not matter. *)
Lemma from_ignored sizes SIPS decompress cache_set kept cs limit s f f' :
  events sizes SIPS decompress cache_set (Prune kept) (with_from f cs) limit s
  = events sizes SIPS decompress cache_set (Prune kept) (with_from f' cs) limit s.
Proof.
  unfold events. cbn [with_from page_size c_to_block contract_addresses c_keys c_offset].
  destruct (page_size cs <? 1)%nat; [reflexivity|]. destruct (latest_block_number (db s)) as [latest|]; [|reflexivity].
  cbn [resolve_from with_from c_from_block]. destruct (unwrap_option (earliest_block_number (db s))) as [from|]; [|reflexivity].
  cbn [bind_outcome]. destruct (add_u64 from limit) as [sum|]; [|reflexivity]. cbn [bind_outcome].
  destruct (load_event_filter_range _ _ _ _ _ s) as [[R s']|]; [|reflexivity]. cbn [bind_outcome fst snd].
  destruct (unwrap_option (last R)) as [lf|]; [|reflexivity]. cbn [bind_outcome].
  destruct (check_filters _ _ _ _ _) as [blocks|]; [|reflexivity]. cbn [bind_outcome].
  now rewrite !scan_with_from.
Qed.

(** C29: With the pruning of the blockchain history the lower bound of a query
    is ignored: two queries that differ only in it have the same result, so a
    token that moves to a later block (with offset 0) is answered with the page
    that was already returned.  And a query without a lower bound panics: when
    block 0 of two blocks is pruned, the running filter still covers it, and the
    scan expects its header. *)
Theorem pruned_queries :
  (forall sizes SIPS decompress cache_set kept cs limit s f f',
     events sizes SIPS decompress cache_set (Prune kept) (with_from f cs) limit s
     = events sizes SIPS decompress cache_set (Prune kept) (with_from f' cs) limit s) /\
  let pruned := MkStore (prune_block Sample.sizes 0 (db Sample.store2)) (running Sample.store2) (cache Sample.store2) in
  latest_block_number (db pruned) = Some 1 /\ earliest_block_number (db pruned) = Some 1 /\
  events Sample.sizes Sample.SIPS Sample.decompress Sample.cache_set (Prune 1) (MkConstraints None None [] [] 10 0) 10 pruned = Panic.
Proof. split; [exact from_ignored|]. repeat split; vm_compute; reflexivity. Qed.
