(* ===== verification/TransactionStore.v ===== *)
(** The transactions, receipts and events of blocks in the database
    (storage/src/connection/transaction.rs, with the receipts of
    common/src/receipt.rs): the versions of the stored data, the conversions to and
    from it, and the tables with their queries.

    The encoding with bincode and the compression with zstd are parameters, and so
    is the filter of the events, which has a development of its own. *)

From Stdlib Require Import ZArith Lia Bool List.
From stdpp Require Import gmap list.
From S2P Require Import Prelude Bytes Felt TreeCommit Bloom EventStore Commitments Transactions StateTables.
Local Open Scope Z_scope.
Local Open Scope tree_scope.

(** ** Receipts *)

Inductive BuiltinCounters : Type :=
  MkBuiltins (output pedersen range_check ecdsa bitwise ec_op keccak poseidon segment_arena add_mod mul_mod range_check96 : Z).

Inductive L1Gas : Type := MkL1Gas (l1_gas l1_data_gas : Z).

Record ExecutionResources : Type := MkResources {
  builtins : BuiltinCounters;
  n_steps : Z;
  n_memory_holes : Z;
  data_availability : L1Gas;
  total_gas_consumed : L1Gas;
  l2_gas_consumed : Z
}.

Record Receipt : Type := MkReceipt {
  actual_fee : Felt;
  execution_resources : ExecutionResources;
  l2_to_l1_messages : list L2ToL1Message;
  execution_status : ExecutionStatus;
  transaction_hash : Felt;
  transaction_index : Z
}.

Definition default_gas : L1Gas := MkL1Gas 0 0.
Definition default_builtins : BuiltinCounters := MkBuiltins 0 0 0 0 0 0 0 0 0 0 0 0.

(** ** The stored data *)

Module Dto.

(** A felt without its leading zeros. *)
Record MinimalFelt : Type := MkMinimal { inner : Felt }.

Definition serialize_felt (self : MinimalFelt) : list Z := skip_while_zero (felt_to_be_bytes (inner self)).

(** The length is that of the sequence; longer ones underflow or leave the array. *)
Definition deserialize_felt (seq : list Z) : outcome MinimalFelt :=
  if (32 <? length seq)%nat then Panic
  else
    let! f := unwrap_result (felt_from_be_bytes (repeat 0 (32 - length seq) ++ seq)) in
    Ret (MkMinimal f).

Abbreviation F := MinimalFelt.
Abbreviation Fs := (list MinimalFelt).

Inductive EntryPointType : Type := External | L1Handler.

Inductive Event : Type := MkEvent (data : Fs) (from_address : F) (keys : Fs).

Inductive EventsForBlock : Type := EventsV0 (events : list (list Event)).

Inductive BuiltinCountersV0 : Type :=
  MkBuiltinsV0 (output pedersen range_check ecdsa bitwise ec_op keccak poseidon segment_arena : Z).
Inductive BuiltinCountersV1 : Type :=
  MkBuiltinsV1 (output pedersen range_check ecdsa bitwise ec_op keccak poseidon segment_arena add_mod mul_mod range_check96 : Z).

Inductive L1Gas : Type := MkL1Gas (l1_gas l1_data_gas : option Z).
Inductive L2Gas : Type := MkL2Gas (l2_gas : Z).

Inductive ExecutionResourcesV0 : Type :=
  MkResourcesV0 (builtins : BuiltinCountersV0) (n_steps n_memory_holes : Z) (data_availability : L1Gas).
Inductive ExecutionResourcesV1 : Type :=
  MkResourcesV1 (builtins : BuiltinCountersV1) (n_steps n_memory_holes : Z) (data_availability total_gas_consumed : L1Gas).
Inductive ExecutionResourcesV2 : Type :=
  MkResourcesV2 (builtins : BuiltinCountersV1) (n_steps n_memory_holes : Z) (data_availability total_gas_consumed : L1Gas)
    (l2_gas_consumed : L2Gas).

(** The address of version 0 is the twenty bytes of an Ethereum address. *)
Inductive L2ToL1MessageV0 : Type := MkMessageV0 (from_address : F) (payload : Fs) (to_address : list Z).
Inductive L2ToL1MessageV1 : Type := MkMessageV1 (from_address : F) (payload : Fs) (to_address : F).

Inductive ExecutionStatus : Type := Succeeded | Reverted (reason : list Z).

Inductive ReceiptV0 : Type :=
  MkReceiptV0 (actual_fee : F) (execution_resources : option ExecutionResourcesV0) (l2_to_l1_messages : list L2ToL1MessageV0)
    (transaction_hash : F) (transaction_index : Z) (execution_status : ExecutionStatus).
Inductive ReceiptV1 : Type :=
  MkReceiptV1 (actual_fee : F) (execution_resources : option ExecutionResourcesV0) (l2_to_l1_messages : list L2ToL1MessageV1)
    (transaction_hash : F) (transaction_index : Z) (execution_status : ExecutionStatus).
Inductive ReceiptV2 : Type :=
  MkReceiptV2 (actual_fee : F) (execution_resources : option ExecutionResourcesV1) (l2_to_l1_messages : list L2ToL1MessageV1)
    (transaction_hash : F) (transaction_index : Z) (execution_status : ExecutionStatus).
Inductive ReceiptV3 : Type :=
  MkReceiptV3 (actual_fee : F) (execution_resources : option ExecutionResourcesV2) (l2_to_l1_messages : list L2ToL1MessageV1)
    (transaction_hash : F) (transaction_index : Z) (execution_status : ExecutionStatus).

Inductive DataAvailabilityMode : Type := L1 | L2.

Inductive ResourceBound : Type := MkBound (max_amount max_price_per_unit : Z).
Inductive ResourceBoundsV0 : Type := MkBoundsV0 (l1_gas l2_gas : ResourceBound).
Inductive ResourceBoundsV1 : Type := MkBoundsV1 (l1_gas l2_gas : ResourceBound) (l1_data_gas : option ResourceBound).

Inductive DeclareTransactionV0V1 : Type :=
  MkDeclareV0V1 (class_hash max_fee nonce : F) (signature : Fs) (sender_address : F).
Inductive DeclareTransactionV2 : Type :=
  MkDeclareV2 (class_hash max_fee nonce : F) (signature : Fs) (sender_address compiled_class_hash : F).

(** The structs of transactions with resource bounds come with the old and the
    new form of the bounds. *)
Inductive declare_v3 (bounds : Type) : Type :=
  MkDeclareV3 (class_hash nonce : F) (nonce_mode fee_mode : DataAvailabilityMode) (resource_bounds : bounds) (tip : Z)
    (paymaster_data signature account_deployment_data : Fs) (sender_address compiled_class_hash : F).
Arguments MkDeclareV3 {bounds}.
Definition DeclareTransactionV3 : Type := declare_v3 ResourceBoundsV0.
Definition DeclareTransactionV4 : Type := declare_v3 ResourceBoundsV1.

Inductive DeployTransaction : Type :=
  MkDeploy (contract_address version contract_address_salt class_hash : F) (constructor_calldata : Fs).
Inductive DeployTransactionV0 : Type :=
  MkDeployV0 (contract_address contract_address_salt class_hash : F) (constructor_calldata : Fs).
Inductive DeployTransactionV1 : Type :=
  MkDeployV1 (contract_address contract_address_salt class_hash : F) (constructor_calldata : Fs).

Inductive DeployAccountTransactionV1 : Type :=
  MkDeployAccountV1 (contract_address max_fee : F) (signature : Fs) (nonce contract_address_salt : F) (constructor_calldata : Fs)
    (class_hash : F).
Inductive deploy_account_v3 (bounds : Type) : Type :=
  MkDeployAccountV3 (sender_address : F) (signature : Fs) (nonce : F) (nonce_mode fee_mode : DataAvailabilityMode)
    (resource_bounds : bounds) (tip : Z) (paymaster_data : Fs) (contract_address_salt : F) (constructor_calldata : Fs) (class_hash : F).
Arguments MkDeployAccountV3 {bounds}.
Definition DeployAccountTransactionV3 : Type := deploy_account_v3 ResourceBoundsV0.
Definition DeployAccountTransactionV4 : Type := deploy_account_v3 ResourceBoundsV1.

Inductive InvokeTransactionV0 : Type :=
  MkInvokeV0 (calldata : Fs) (sender_address entry_point_selector : F) (entry_point_type : option EntryPointType) (max_fee : F)
    (signature : Fs).
Inductive InvokeTransactionV1 : Type :=
  MkInvokeV1 (calldata : Fs) (sender_address max_fee : F) (signature : Fs) (nonce : F).
Inductive invoke_v3 (bounds : Type) : Type :=
  MkInvokeV3 (signature : Fs) (nonce : F) (nonce_mode fee_mode : DataAvailabilityMode) (resource_bounds : bounds) (tip : Z)
    (paymaster_data account_deployment_data calldata : Fs) (sender_address : F).
Arguments MkInvokeV3 {bounds}.
Definition InvokeTransactionV3 : Type := invoke_v3 ResourceBoundsV0.
Definition InvokeTransactionV4 : Type := invoke_v3 ResourceBoundsV1.
Inductive InvokeTransactionV5 : Type :=
  MkInvokeV5 (signature : Fs) (nonce : F) (nonce_mode fee_mode : DataAvailabilityMode) (resource_bounds : ResourceBoundsV1) (tip : Z)
    (paymaster_data account_deployment_data calldata : Fs) (sender_address : F) (proof_facts : Fs).

Inductive L1HandlerTransactionV0 : Type :=
  MkL1HandlerV0 (contract_address entry_point_selector nonce : F) (calldata : Fs).

Inductive TransactionVariantV0 : Type :=
| V0DeclareV0 (tx : DeclareTransactionV0V1) | V0DeclareV1 (tx : DeclareTransactionV0V1) | V0DeclareV2 (tx : DeclareTransactionV2)
| V0DeclareV3 (tx : DeclareTransactionV3) | V0Deploy (tx : DeployTransaction) | V0DeployAccountV1 (tx : DeployAccountTransactionV1)
| V0DeployAccountV3 (tx : DeployAccountTransactionV3) | V0InvokeV0 (tx : InvokeTransactionV0) | V0InvokeV1 (tx : InvokeTransactionV1)
| V0InvokeV3 (tx : InvokeTransactionV3) | V0L1HandlerV0 (tx : L1HandlerTransactionV0).

Inductive TransactionVariantV1 : Type :=
| V1DeclareV0 (tx : DeclareTransactionV0V1) | V1DeclareV1 (tx : DeclareTransactionV0V1) | V1DeclareV2 (tx : DeclareTransactionV2)
| V1DeclareV3 (tx : DeclareTransactionV3) | V1DeployV0 (tx : DeployTransactionV0) | V1DeployV1 (tx : DeployTransactionV1)
| V1DeployAccountV1 (tx : DeployAccountTransactionV1) | V1DeployAccountV3 (tx : DeployAccountTransactionV3)
| V1InvokeV0 (tx : InvokeTransactionV0) | V1InvokeV1 (tx : InvokeTransactionV1) | V1InvokeV3 (tx : InvokeTransactionV3)
| V1L1HandlerV0 (tx : L1HandlerTransactionV0).

Inductive TransactionVariantV2 : Type :=
| V2DeclareV0 (tx : DeclareTransactionV0V1) | V2DeclareV1 (tx : DeclareTransactionV0V1) | V2DeclareV2 (tx : DeclareTransactionV2)
| V2DeclareV3 (tx : DeclareTransactionV3) | V2DeclareV4 (tx : DeclareTransactionV4) | V2DeployV0 (tx : DeployTransactionV0)
| V2DeployV1 (tx : DeployTransactionV1) | V2DeployAccountV1 (tx : DeployAccountTransactionV1)
| V2DeployAccountV3 (tx : DeployAccountTransactionV3) | V2DeployAccountV4 (tx : DeployAccountTransactionV4)
| V2InvokeV0 (tx : InvokeTransactionV0) | V2InvokeV1 (tx : InvokeTransactionV1) | V2InvokeV3 (tx : InvokeTransactionV3)
| V2InvokeV4 (tx : InvokeTransactionV4) | V2L1HandlerV0 (tx : L1HandlerTransactionV0).

Inductive TransactionVariantV3 : Type :=
| V3DeclareV0 (tx : DeclareTransactionV0V1) | V3DeclareV1 (tx : DeclareTransactionV0V1) | V3DeclareV2 (tx : DeclareTransactionV2)
| V3DeclareV3 (tx : DeclareTransactionV3) | V3DeclareV4 (tx : DeclareTransactionV4) | V3DeployV0 (tx : DeployTransactionV0)
| V3DeployV1 (tx : DeployTransactionV1) | V3DeployAccountV1 (tx : DeployAccountTransactionV1)
| V3DeployAccountV3 (tx : DeployAccountTransactionV3) | V3DeployAccountV4 (tx : DeployAccountTransactionV4)
| V3InvokeV0 (tx : InvokeTransactionV0) | V3InvokeV1 (tx : InvokeTransactionV1) | V3InvokeV3 (tx : InvokeTransactionV3)
| V3InvokeV4 (tx : InvokeTransactionV4) | V3InvokeV5 (tx : InvokeTransactionV5) | V3L1HandlerV0 (tx : L1HandlerTransactionV0).

Inductive TransactionV0 : Type := MkTransactionV0 (hash : F) (variant : TransactionVariantV0).
Inductive TransactionV1 : Type := MkTransactionV1 (hash : F) (variant : TransactionVariantV1).
Inductive TransactionV2 : Type := MkTransactionV2 (hash : F) (variant : TransactionVariantV2).
Inductive TransactionV3 : Type := MkTransactionV3 (hash : F) (variant : TransactionVariantV3).

Inductive TransactionWithReceiptV0 : Type := MkWithReceiptV0 (transaction : TransactionV0) (receipt : ReceiptV0).
Inductive TransactionWithReceiptV1 : Type := MkWithReceiptV1 (transaction : TransactionV1) (receipt : ReceiptV1).
Inductive TransactionWithReceiptV2 : Type := MkWithReceiptV2 (transaction : TransactionV1) (receipt : ReceiptV2).
Inductive TransactionWithReceiptV3 : Type := MkWithReceiptV3 (transaction : TransactionV2) (receipt : ReceiptV3).
Inductive TransactionWithReceiptV4 : Type := MkWithReceiptV4 (transaction : TransactionV3) (receipt : ReceiptV3).

Inductive TransactionsWithReceiptsForBlock : Type :=
| V0 (transactions_with_receipts : list TransactionWithReceiptV0)
| V1 (transactions_with_receipts : list TransactionWithReceiptV1)
| V2 (transactions_with_receipts : list TransactionWithReceiptV2)
| V3 (transactions_with_receipts : list TransactionWithReceiptV3)
| V4 (transactions_with_receipts : list TransactionWithReceiptV4).
End Dto.

(** ** Older versions *)

Section Upgrades.
Import Dto.

Definition upgrade_builtins (value : BuiltinCountersV0) : BuiltinCountersV1 :=
  let '(MkBuiltinsV0 output pedersen range_check ecdsa bitwise ec_op keccak poseidon segment_arena) := value in
  MkBuiltinsV1 output pedersen range_check ecdsa bitwise ec_op keccak poseidon segment_arena 0 0 0.

Definition upgrade_resources_v0 (value : ExecutionResourcesV0) : ExecutionResourcesV2 :=
  let '(MkResourcesV0 builtins n_steps n_memory_holes data_availability) := value in
  MkResourcesV2 (upgrade_builtins builtins) n_steps n_memory_holes data_availability (MkL1Gas None None) (MkL2Gas 0).

Definition upgrade_resources_v1 (value : ExecutionResourcesV1) : ExecutionResourcesV2 :=
  let '(MkResourcesV1 builtins n_steps n_memory_holes data_availability _) := value in
  MkResourcesV2 builtins n_steps n_memory_holes data_availability (MkL1Gas None None) (MkL2Gas 0).

Definition upgrade_message (value : L2ToL1MessageV0) : outcome L2ToL1MessageV1 :=
  let '(MkMessageV0 from_address payload to_address) := value in
  let! f := unwrap_result (felt_from_be_slice to_address) in
  Ret (MkMessageV1 from_address payload (MkMinimal f)).

(** [into_iter().map(..).collect()] of conversions that may panic *)
Fixpoint collect {A B} (f : A -> outcome B) (l : list A) : outcome (list B) :=
  match l with
  | [] => Ret []
  | a :: l =>
      let! b := f a in
      let! bs := collect f l in
      Ret (b :: bs)
  end.

Definition upgrade_receipt_v0 (value : ReceiptV0) : outcome ReceiptV3 :=
  let '(MkReceiptV0 actual_fee resources messages transaction_hash transaction_index status) := value in
  let! messages := collect upgrade_message messages in
  Ret (MkReceiptV3 actual_fee (upgrade_resources_v0 <$> resources) messages transaction_hash transaction_index status).

Definition upgrade_receipt_v1 (value : ReceiptV1) : ReceiptV3 :=
  let '(MkReceiptV1 actual_fee resources messages transaction_hash transaction_index status) := value in
  MkReceiptV3 actual_fee (upgrade_resources_v0 <$> resources) messages transaction_hash transaction_index status.

Definition upgrade_receipt_v2 (value : ReceiptV2) : ReceiptV3 :=
  let '(MkReceiptV2 actual_fee resources messages transaction_hash transaction_index status) := value in
  MkReceiptV3 actual_fee (upgrade_resources_v1 <$> resources) messages transaction_hash transaction_index status.

Definition upgrade_bounds (value : ResourceBoundsV0) : ResourceBoundsV1 :=
  let '(MkBoundsV0 l1_gas l2_gas) := value in MkBoundsV1 l1_gas l2_gas None.

Definition upgrade_variant_v0 (value : TransactionVariantV0) : outcome TransactionVariantV3 :=
  match value with
  | V0DeclareV0 tx => Ret (V3DeclareV0 tx)
  | V0DeclareV1 tx => Ret (V3DeclareV1 tx)
  | V0DeclareV2 tx => Ret (V3DeclareV2 tx)
  | V0DeclareV3 tx => Ret (V3DeclareV3 tx)
  | V0Deploy (MkDeploy contract_address version contract_address_salt class_hash constructor_calldata) =>
      if felt_eqb (inner version) FELT_ZERO
      then Ret (V3DeployV0 (MkDeployV0 contract_address contract_address_salt class_hash constructor_calldata))
      else if felt_eqb (inner version) (version_const 1)
      then Ret (V3DeployV1 (MkDeployV1 contract_address contract_address_salt class_hash constructor_calldata))
      else Panic
  | V0DeployAccountV1 tx => Ret (V3DeployAccountV1 tx)
  | V0DeployAccountV3 tx => Ret (V3DeployAccountV3 tx)
  | V0InvokeV0 tx => Ret (V3InvokeV0 tx)
  | V0InvokeV1 tx => Ret (V3InvokeV1 tx)
  | V0InvokeV3 tx => Ret (V3InvokeV3 tx)
  | V0L1HandlerV0 tx => Ret (V3L1HandlerV0 tx)
  end.

Definition upgrade_variant_v1 (value : TransactionVariantV1) : TransactionVariantV3 :=
  match value with
  | V1DeclareV0 tx => V3DeclareV0 tx
  | V1DeclareV1 tx => V3DeclareV1 tx
  | V1DeclareV2 tx => V3DeclareV2 tx
  | V1DeclareV3 tx => V3DeclareV3 tx
  | V1DeployV0 tx => V3DeployV0 tx
  | V1DeployV1 tx => V3DeployV1 tx
  | V1DeployAccountV1 tx => V3DeployAccountV1 tx
  | V1DeployAccountV3 tx => V3DeployAccountV3 tx
  | V1InvokeV0 tx => V3InvokeV0 tx
  | V1InvokeV1 tx => V3InvokeV1 tx
  | V1InvokeV3 tx => V3InvokeV3 tx
  | V1L1HandlerV0 tx => V3L1HandlerV0 tx
  end.

Definition upgrade_variant_v2 (value : TransactionVariantV2) : TransactionVariantV3 :=
  match value with
  | V2DeclareV0 tx => V3DeclareV0 tx
  | V2DeclareV1 tx => V3DeclareV1 tx
  | V2DeclareV2 tx => V3DeclareV2 tx
  | V2DeclareV3 tx => V3DeclareV3 tx
  | V2DeclareV4 tx => V3DeclareV4 tx
  | V2DeployV0 tx => V3DeployV0 tx
  | V2DeployV1 tx => V3DeployV1 tx
  | V2DeployAccountV1 tx => V3DeployAccountV1 tx
  | V2DeployAccountV3 tx => V3DeployAccountV3 tx
  | V2DeployAccountV4 tx => V3DeployAccountV4 tx
  | V2InvokeV0 tx => V3InvokeV0 tx
  | V2InvokeV1 tx => V3InvokeV1 tx
  | V2InvokeV3 tx => V3InvokeV3 tx
  | V2InvokeV4 tx => V3InvokeV4 tx
  | V2L1HandlerV0 tx => V3L1HandlerV0 tx
  end.

Definition upgrade_v0 (v0 : TransactionWithReceiptV0) : outcome TransactionWithReceiptV4 :=
  let '(MkWithReceiptV0 (MkTransactionV0 hash variant) receipt) := v0 in
  let! variant := upgrade_variant_v0 variant in
  let! receipt := upgrade_receipt_v0 receipt in
  Ret (MkWithReceiptV4 (MkTransactionV3 hash variant) receipt).

Definition upgrade_v1 (v1 : TransactionWithReceiptV1) : TransactionWithReceiptV4 :=
  let '(MkWithReceiptV1 (MkTransactionV1 hash variant) receipt) := v1 in
  MkWithReceiptV4 (MkTransactionV3 hash (upgrade_variant_v1 variant)) (upgrade_receipt_v1 receipt).

Definition upgrade_v2 (v2 : TransactionWithReceiptV2) : TransactionWithReceiptV4 :=
  let '(MkWithReceiptV2 (MkTransactionV1 hash variant) receipt) := v2 in
  MkWithReceiptV4 (MkTransactionV3 hash (upgrade_variant_v1 variant)) (upgrade_receipt_v2 receipt).

Definition upgrade_v3 (v3 : TransactionWithReceiptV3) : TransactionWithReceiptV4 :=
  let '(MkWithReceiptV3 (MkTransactionV2 hash variant) receipt) := v3 in
  MkWithReceiptV4 (MkTransactionV3 hash (upgrade_variant_v2 variant)) receipt.

Definition transactions_with_receipts (self : TransactionsWithReceiptsForBlock) : outcome (list TransactionWithReceiptV4) :=
  match self with
  | V0 v0 => collect upgrade_v0 v0
  | V1 v1 => Ret (map upgrade_v1 v1)
  | V2 v2 => Ret (map upgrade_v2 v2)
  | V3 v3 => Ret (map upgrade_v3 v3)
  | V4 v4 => Ret v4
  end.
End Upgrades.

(** ** Conversions *)

Section Conversions.
Import Dto.

(** [x.as_inner().to_owned().into()] and back *)
Abbreviation m := MkMinimal.
Abbreviation ms := (map MkMinimal).
Abbreviation fs := (map inner).

Definition mode_to_dto (value : Transactions.DataAvailabilityMode) : DataAvailabilityMode :=
  match value with Transactions.L1 => L1 | Transactions.L2 => L2 end.
Definition mode_of_dto (value : DataAvailabilityMode) : Transactions.DataAvailabilityMode :=
  match value with L1 => Transactions.L1 | L2 => Transactions.L2 end.

Definition entry_type_to_dto (value : Transactions.EntryPointType) : EntryPointType :=
  match value with Transactions.External => External | Transactions.L1HandlerEntry => L1Handler end.
Definition entry_type_of_dto (value : EntryPointType) : Transactions.EntryPointType :=
  match value with External => Transactions.External | L1Handler => Transactions.L1HandlerEntry end.

Definition bound_to_dto (value : Transactions.ResourceBound) : ResourceBound := MkBound (max_amount value) (max_price_per_unit value).
Definition bound_of_dto (value : ResourceBound) : Transactions.ResourceBound :=
  let '(MkBound max_amount max_price_per_unit) := value in Transactions.MkBound max_amount max_price_per_unit.

Definition bounds_to_dto (value : Transactions.ResourceBounds) : ResourceBoundsV1 :=
  MkBoundsV1 (bound_to_dto (l1_gas value)) (bound_to_dto (l2_gas value)) (bound_to_dto <$> l1_data_gas value).
Definition bounds_of_dto (value : ResourceBoundsV1) : Transactions.ResourceBounds :=
  let '(MkBoundsV1 l1_gas l2_gas l1_data_gas) := value in
  Transactions.MkBounds (bound_of_dto l1_gas) (bound_of_dto l2_gas) (bound_of_dto <$> l1_data_gas).

Definition event_to_dto (value : Commitments.Event) : Event :=
  MkEvent (ms (ev_data value)) (m (ev_from_address value)) (ms (ev_keys value)).
Definition event_of_dto (value : Event) : outcome Commitments.Event :=
  let '(MkEvent data from_address keys) := value in
  let! from_address := address_or_panic (inner from_address) in
  Ret (Commitments.MkEvent (fs data) from_address (fs keys)).

Definition builtins_to_dto (value : BuiltinCounters) : BuiltinCountersV1 :=
  let '(MkBuiltins output pedersen range_check ecdsa bitwise ec_op keccak poseidon segment_arena add_mod mul_mod range_check96) := value in
  MkBuiltinsV1 output pedersen range_check ecdsa bitwise ec_op keccak poseidon segment_arena add_mod mul_mod range_check96.
Definition builtins_of_dto (value : BuiltinCountersV1) : BuiltinCounters :=
  let '(MkBuiltinsV1 output pedersen range_check ecdsa bitwise ec_op keccak poseidon segment_arena add_mod mul_mod range_check96) := value in
  MkBuiltins output pedersen range_check ecdsa bitwise ec_op keccak poseidon segment_arena add_mod mul_mod range_check96.

Definition gas_to_dto (value : TransactionStore.L1Gas) : L1Gas :=
  let '(TransactionStore.MkL1Gas l1_gas l1_data_gas) := value in MkL1Gas (Some l1_gas) (Some l1_data_gas).
Definition gas_of_dto (value : L1Gas) : TransactionStore.L1Gas :=
  match value with
  | MkL1Gas (Some l1_gas) (Some l1_data_gas) => TransactionStore.MkL1Gas l1_gas l1_data_gas
  | _ => default_gas
  end.

Definition resources_to_dto (value : ExecutionResources) : ExecutionResourcesV2 :=
  MkResourcesV2 (builtins_to_dto (builtins value)) (n_steps value) (n_memory_holes value) (gas_to_dto (data_availability value))
    (gas_to_dto (total_gas_consumed value)) (MkL2Gas (l2_gas_consumed value)).
Definition resources_of_dto (value : ExecutionResourcesV2) : ExecutionResources :=
  let '(MkResourcesV2 builtins n_steps n_memory_holes data_availability total_gas_consumed (MkL2Gas l2_gas)) := value in
  MkResources (builtins_of_dto builtins) n_steps n_memory_holes (gas_of_dto data_availability) (gas_of_dto total_gas_consumed) l2_gas.

(** [ExecutionResourcesV2::default()] *)
Definition default_resources : ExecutionResourcesV2 :=
  MkResourcesV2 (MkBuiltinsV1 0 0 0 0 0 0 0 0 0 0 0 0) 0 0 (MkL1Gas None None) (MkL1Gas None None) (MkL2Gas 0).

Definition message_to_dto (value : L2ToL1Message) : L2ToL1MessageV1 :=
  MkMessageV1 (m (msg_from_address value)) (ms (msg_payload value)) (m (msg_to_address value)).
Definition message_of_dto (value : L2ToL1MessageV1) : outcome L2ToL1Message :=
  let '(MkMessageV1 from_address payload to_address) := value in
  let! from_address := address_or_panic (inner from_address) in
  let! to_address := address_or_panic (inner to_address) in
  Ret (MkMessage from_address (fs payload) to_address).

Definition status_to_dto (value : Commitments.ExecutionStatus) : ExecutionStatus :=
  match value with Commitments.Succeeded => Succeeded | Commitments.Reverted reason => Reverted reason end.
Definition status_of_dto (value : ExecutionStatus) : Commitments.ExecutionStatus :=
  match value with Succeeded => Commitments.Succeeded | Reverted reason => Commitments.Reverted reason end.

Definition receipt_to_dto (value : Receipt) : ReceiptV3 :=
  MkReceiptV3 (m (actual_fee value)) (Some (resources_to_dto (execution_resources value))) (map message_to_dto (l2_to_l1_messages value))
    (m (transaction_hash value)) (transaction_index value) (status_to_dto (execution_status value)).
Definition receipt_of_dto (value : ReceiptV3) : outcome Receipt :=
  let '(MkReceiptV3 actual_fee resources messages transaction_hash transaction_index status) := value in
  let! messages := collect message_of_dto messages in
  Ret (MkReceipt (inner actual_fee) (resources_of_dto (default default_resources resources)) messages (status_of_dto status)
    (inner transaction_hash) transaction_index).

Definition variant_to_dto (value : TransactionVariant) : TransactionVariantV3 :=
  match value with
  | Transactions.DeclareV0 tx => V3DeclareV0 (MkDeclareV0V1 (m (d1_class_hash tx)) (m (d1_max_fee tx)) (m (d1_nonce tx))
      (ms (d1_signature tx)) (m (d1_sender_address tx)))
  | Transactions.DeclareV1 tx => V3DeclareV1 (MkDeclareV0V1 (m (d1_class_hash tx)) (m (d1_max_fee tx)) (m (d1_nonce tx))
      (ms (d1_signature tx)) (m (d1_sender_address tx)))
  | Transactions.DeclareV2 tx => V3DeclareV2 (MkDeclareV2 (m (d2_class_hash tx)) (m (d2_max_fee tx)) (m (d2_nonce tx))
      (ms (d2_signature tx)) (m (d2_sender_address tx)) (m (d2_compiled_class_hash tx)))
  | Transactions.DeclareV3 tx => V3DeclareV4 (MkDeclareV3 (m (d3_class_hash tx)) (m (d3_nonce tx)) (mode_to_dto (d3_nonce_mode tx))
      (mode_to_dto (d3_fee_mode tx)) (bounds_to_dto (d3_resource_bounds tx)) (d3_tip tx) (ms (d3_paymaster_data tx)) (ms (d3_signature tx))
      (ms (d3_account_deployment_data tx)) (m (d3_sender_address tx)) (m (d3_compiled_class_hash tx)))
  | Transactions.DeployV0 tx => V3DeployV0 (MkDeployV0 (m (p0_contract_address tx)) (m (p0_contract_address_salt tx))
      (m (p0_class_hash tx)) (ms (p0_constructor_calldata tx)))
  | Transactions.DeployV1 tx => V3DeployV1 (MkDeployV1 (m (p1_contract_address tx)) (m (p1_contract_address_salt tx))
      (m (p1_class_hash tx)) (ms (p1_constructor_calldata tx)))
  | Transactions.DeployAccountV1 tx => V3DeployAccountV1 (MkDeployAccountV1 (m (a1_contract_address tx)) (m (a1_max_fee tx))
      (ms (a1_signature tx)) (m (a1_nonce tx)) (m (a1_contract_address_salt tx)) (ms (a1_constructor_calldata tx)) (m (a1_class_hash tx)))
  | Transactions.DeployAccountV3 tx => V3DeployAccountV4 (MkDeployAccountV3 (m (a3_contract_address tx)) (ms (a3_signature tx))
      (m (a3_nonce tx)) (mode_to_dto (a3_nonce_mode tx)) (mode_to_dto (a3_fee_mode tx)) (bounds_to_dto (a3_resource_bounds tx)) (a3_tip tx)
      (ms (a3_paymaster_data tx)) (m (a3_contract_address_salt tx)) (ms (a3_constructor_calldata tx)) (m (a3_class_hash tx)))
  | Transactions.InvokeV0 tx => V3InvokeV0 (MkInvokeV0 (ms (i0_calldata tx)) (m (i0_sender_address tx)) (m (i0_entry_point_selector tx))
      (entry_type_to_dto <$> i0_entry_point_type tx) (m (i0_max_fee tx)) (ms (i0_signature tx)))
  | Transactions.InvokeV1 tx => V3InvokeV1 (MkInvokeV1 (ms (i1_calldata tx)) (m (i1_sender_address tx)) (m (i1_max_fee tx))
      (ms (i1_signature tx)) (m (i1_nonce tx)))
  | Transactions.InvokeV3 tx => V3InvokeV5 (MkInvokeV5 (ms (i3_signature tx)) (m (i3_nonce tx)) (mode_to_dto (i3_nonce_mode tx))
      (mode_to_dto (i3_fee_mode tx)) (bounds_to_dto (i3_resource_bounds tx)) (i3_tip tx) (ms (i3_paymaster_data tx))
      (ms (i3_account_deployment_data tx)) (ms (i3_calldata tx)) (m (i3_sender_address tx)) (ms (i3_proof_facts tx)))
  | Transactions.L1Handler tx => V3L1HandlerV0 (MkL1HandlerV0 (m (lh_contract_address tx)) (m (lh_entry_point_selector tx))
      (m (lh_nonce tx)) (ms (lh_calldata tx)))
  end.

Definition transaction_to_dto (value : Transaction) : TransactionV3 := MkTransactionV3 (m (hash value)) (variant_to_dto (variant value)).

(** Declarations with either form of the bounds. *)
Definition declare_of_dto (bounds : Transactions.ResourceBounds) (class_hash nonce : F) (nonce_mode fee_mode : DataAvailabilityMode) (tip : Z)
    (paymaster_data signature account_deployment_data : Fs) (sender_address compiled_class_hash : F) : outcome TransactionVariant :=
  let! sender := address_or_panic (inner sender_address) in
  let! compiled := address_or_panic (inner compiled_class_hash) in
  Ret (Transactions.DeclareV3 (Transactions.MkDeclareV3 (inner class_hash) (inner nonce) (mode_of_dto nonce_mode) (mode_of_dto fee_mode)
    bounds tip (fs paymaster_data) (fs signature) (fs account_deployment_data) sender compiled)).

Definition deploy_account_of_dto (bounds : Transactions.ResourceBounds) (sender_address : F) (signature : Fs) (nonce : F)
    (nonce_mode fee_mode : DataAvailabilityMode) (tip : Z) (paymaster_data : Fs) (salt : F) (calldata : Fs) (class_hash : F)
    : outcome TransactionVariant :=
  let! sender := address_or_panic (inner sender_address) in
  Ret (Transactions.DeployAccountV3 (Transactions.MkDeployAccountV3 sender (fs signature) (inner nonce) (mode_of_dto nonce_mode)
    (mode_of_dto fee_mode) bounds tip (fs paymaster_data) (inner salt) (fs calldata) (inner class_hash))).

Definition invoke_of_dto (bounds : Transactions.ResourceBounds) (signature : Fs) (nonce : F) (nonce_mode fee_mode : DataAvailabilityMode)
    (tip : Z) (paymaster_data account_deployment_data calldata : Fs) (sender_address : F) (proof_facts : Fs) : outcome TransactionVariant :=
  let! sender := address_or_panic (inner sender_address) in
  Ret (Transactions.InvokeV3 (Transactions.MkInvokeV3 (fs signature) (inner nonce) (mode_of_dto nonce_mode) (mode_of_dto fee_mode) bounds tip
    (fs paymaster_data) (fs account_deployment_data) (fs calldata) sender (fs proof_facts))).

(** Only some of the addresses are checked. *)
Definition variant_of_dto (value : TransactionVariantV3) : outcome TransactionVariant :=
  match value with
  | V3DeclareV0 (MkDeclareV0V1 class_hash max_fee nonce signature sender_address) =>
      let! sender := address_or_panic (inner sender_address) in
      Ret (Transactions.DeclareV0 (Transactions.MkDeclareV0V1 (inner class_hash) (inner max_fee) (inner nonce) (fs signature) sender))
  | V3DeclareV1 (MkDeclareV0V1 class_hash max_fee nonce signature sender_address) =>
      Ret (Transactions.DeclareV1 (Transactions.MkDeclareV0V1 (inner class_hash) (inner max_fee) (inner nonce) (fs signature)
        (inner sender_address)))
  | V3DeclareV2 (MkDeclareV2 class_hash max_fee nonce signature sender_address compiled_class_hash) =>
      let! compiled := address_or_panic (inner compiled_class_hash) in
      Ret (Transactions.DeclareV2 (Transactions.MkDeclareV2 (inner class_hash) (inner max_fee) (inner nonce) (fs signature)
        (inner sender_address) compiled))
  | V3DeclareV3 (MkDeclareV3 class_hash nonce nonce_mode fee_mode bounds tip paymaster signature deployment sender_address compiled) =>
      declare_of_dto (bounds_of_dto (upgrade_bounds bounds)) class_hash nonce nonce_mode fee_mode tip paymaster signature deployment
        sender_address compiled
  | V3DeclareV4 (MkDeclareV3 class_hash nonce nonce_mode fee_mode bounds tip paymaster signature deployment sender_address compiled) =>
      declare_of_dto (bounds_of_dto bounds) class_hash nonce nonce_mode fee_mode tip paymaster signature deployment sender_address compiled
  | V3DeployV0 (MkDeployV0 contract_address salt class_hash calldata) =>
      let! address := address_or_panic (inner contract_address) in
      Ret (Transactions.DeployV0 (Transactions.MkDeployV0 (inner class_hash) address (inner salt) (fs calldata)))
  | V3DeployV1 (MkDeployV1 contract_address salt class_hash calldata) =>
      let! address := address_or_panic (inner contract_address) in
      Ret (Transactions.DeployV1 (Transactions.MkDeployV1 (inner class_hash) address (inner salt) (fs calldata)))
  | V3DeployAccountV1 (MkDeployAccountV1 contract_address max_fee signature nonce salt calldata class_hash) =>
      let! address := address_or_panic (inner contract_address) in
      Ret (Transactions.DeployAccountV1 (Transactions.MkDeployAccountV1 address (inner max_fee) (fs signature) (inner nonce) (inner salt)
        (fs calldata) (inner class_hash)))
  | V3DeployAccountV3 (MkDeployAccountV3 sender signature nonce nonce_mode fee_mode bounds tip paymaster salt calldata class_hash) =>
      deploy_account_of_dto (bounds_of_dto (upgrade_bounds bounds)) sender signature nonce nonce_mode fee_mode tip paymaster salt calldata
        class_hash
  | V3DeployAccountV4 (MkDeployAccountV3 sender signature nonce nonce_mode fee_mode bounds tip paymaster salt calldata class_hash) =>
      deploy_account_of_dto (bounds_of_dto bounds) sender signature nonce nonce_mode fee_mode tip paymaster salt calldata class_hash
  | V3InvokeV0 (MkInvokeV0 calldata sender_address selector entry_point_type max_fee signature) =>
      let! sender := address_or_panic (inner sender_address) in
      Ret (Transactions.InvokeV0 (Transactions.MkInvokeV0 (fs calldata) sender (inner selector) (entry_type_of_dto <$> entry_point_type)
        (inner max_fee) (fs signature)))
  | V3InvokeV1 (MkInvokeV1 calldata sender_address max_fee signature nonce) =>
      let! sender := address_or_panic (inner sender_address) in
      Ret (Transactions.InvokeV1 (Transactions.MkInvokeV1 (fs calldata) sender (inner max_fee) (fs signature) (inner nonce)))
  | V3InvokeV3 (MkInvokeV3 signature nonce nonce_mode fee_mode bounds tip paymaster deployment calldata sender) =>
      invoke_of_dto (bounds_of_dto (upgrade_bounds bounds)) signature nonce nonce_mode fee_mode tip paymaster deployment calldata sender []
  | V3InvokeV4 (MkInvokeV3 signature nonce nonce_mode fee_mode bounds tip paymaster deployment calldata sender) =>
      invoke_of_dto (bounds_of_dto bounds) signature nonce nonce_mode fee_mode tip paymaster deployment calldata sender []
  | V3InvokeV5 (MkInvokeV5 signature nonce nonce_mode fee_mode bounds tip paymaster deployment calldata sender facts) =>
      invoke_of_dto (bounds_of_dto bounds) signature nonce nonce_mode fee_mode tip paymaster deployment calldata sender facts
  | V3L1HandlerV0 (MkL1HandlerV0 contract_address selector nonce calldata) =>
      let! address := address_or_panic (inner contract_address) in
      Ret (Transactions.L1Handler (Transactions.MkL1Handler address (inner selector) (inner nonce) (fs calldata)))
  end.

Definition transaction_of_dto (value : TransactionV3) : outcome Transaction :=
  let '(MkTransactionV3 hash variant) := value in
  let! variant := variant_of_dto variant in
  Ret (MkTransaction (inner hash) variant).

Definition with_receipt_of_dto (value : TransactionWithReceiptV4) : outcome (Transaction * Receipt) :=
  let '(MkWithReceiptV4 transaction receipt) := value in
  let! transaction := transaction_of_dto transaction in
  let! receipt := receipt_of_dto receipt in
  Ret (transaction, receipt).
End Conversions.

(** ** The tables *)

(** The bincode and zstd packages: an encoder takes the serialiser of felts, a
    decoder the deserialiser, and the decompression the limit for its output. *)
Record Codec : Type := MkCodec {
  bytes : Type;
  size : bytes -> Z;
  encode_transactions : (Dto.MinimalFelt -> list Z) -> Dto.TransactionsWithReceiptsForBlock -> bytes;
  decode_transactions : (list Z -> outcome Dto.MinimalFelt) -> bytes -> outcome (option Dto.TransactionsWithReceiptsForBlock);
  encode_events : (Dto.MinimalFelt -> list Z) -> Dto.EventsForBlock -> bytes;
  decode_events : (list Z -> outcome Dto.MinimalFelt) -> bytes -> outcome (option Dto.EventsForBlock);
  zstd_txs : bytes -> bytes;
  unzstd_txs : bytes -> Z -> option bytes;
  zstd_events : bytes -> bytes;
  unzstd_events : bytes -> Z -> option bytes
}.

Inductive DbError : Type := Constraint | Decompressing | Deserializing | TransactionNotFound | EventsMissing | ListMismatch.

(** What the filter of the events promises to the store. *)
Class EventFilters (Filters : Type) : Type := upsert_block_event_filters : Z -> list Event -> Filters -> outcome Filters.

#[global] Instance store_filters (sizes : BloomSizes) (SIPS : nat -> Felt -> Z) (compress : list Z -> list Z) :
  EventFilters EventStore := EventStore.upsert_block_event_filters sizes SIPS compress.

Section Store.
Context (codec : Codec) {Filters : Type} {filters : EventFilters Filters}.

Abbreviation blob := (bytes codec).
Abbreviation Result A := (outcome (result DbError A)).

(** [transactions] by block, with the events if they are known, and
    [transaction_hashes] by hash. *)
Record TransactionTables : Type := MkTransactionTables {
  transactions : gmap Z (blob * option blob);
  transaction_hashes : gmap Felt (Z * Z)
}.

Definition MAX_TRANSACTIONS_UNCOMPRESSED_SIZE : Z := 128 * 1024 * 1024.
Definition MAX_EVENTS_UNCOMPRESSED_SIZE : Z := 128 * 1024 * 1024.

(** *** Blobs *)

Definition store_transactions (transactions : list (Transaction * Receipt)) : blob :=
  zstd_txs codec (encode_transactions codec Dto.serialize_felt
    (Dto.V4 (map (fun tr => Dto.MkWithReceiptV4 (transaction_to_dto tr.1) (receipt_to_dto tr.2)) transactions))).

Definition store_events (events : list (list Event)) : blob :=
  zstd_events codec (encode_events codec Dto.serialize_felt (Dto.EventsV0 (map (map event_to_dto) events))).

Definition load_transactions (b : blob) : Result (list Dto.TransactionWithReceiptV4) :=
  match unzstd_txs codec b MAX_TRANSACTIONS_UNCOMPRESSED_SIZE with
  | None => Ret (Err Decompressing)
  | Some b =>
      let! decoded := decode_transactions codec Dto.deserialize_felt b in
      match decoded with
      | None => Ret (Err Deserializing)
      | Some transactions => let! l := transactions_with_receipts transactions in Ret (Ok l)
      end
  end.

Definition load_events (b : blob) : Result (list (list Dto.Event)) :=
  match unzstd_events codec b MAX_EVENTS_UNCOMPRESSED_SIZE with
  | None => Ret (Err Decompressing)
  | Some b =>
      let! decoded := decode_events codec Dto.deserialize_felt b in
      match decoded with
      | None => Ret (Err Deserializing)
      | Some (Dto.EventsV0 events) => Ret (Ok events)
      end
  end.

Definition load_optional (b : option blob) : Result (option (list (list Dto.Event))) :=
  match b with
  | Some b => let+ events := load_events b in Ret (Ok (Some events))
  | None => Ret (Ok None)
  end.

(** *** Insertion *)

(** The rows of the hashes: the primary key and the foreign key are checked. *)
Fixpoint insert_hashes (headers : Headers) (block_number idx : Z) (hashes : list Felt) (t : gmap Felt (Z * Z))
    : result DbError (gmap Felt (Z * Z)) :=
  match hashes with
  | [] => Ok t
  | h :: hashes =>
      if bool_decide (is_Some (t !! h)) || negb (bool_decide (is_Some (headers !! block_number))) then Err Constraint
      else insert_hashes headers block_number (idx + 1) hashes (<[h := (block_number, idx)]> t)
  end.

Definition insert_transaction_data (headers : Headers) (block_number : Z) (txs : list (Transaction * Receipt))
    (events : option (list (list Event))) (self : Filters * TransactionTables) : Result (Filters * TransactionTables) :=
  let! f := match events with Some events => upsert_block_event_filters block_number (concat events) self.1 | None => Ret self.1 end in
  let t := self.2 in
  if match txs with [] => match events with None | Some [] => true | _ => false end | _ => false end then Ret (Ok (f, t))
  else
    match insert_hashes headers block_number 0 (map (fun tr => hash tr.1) txs) (transaction_hashes t) with
    | Err e => Ret (Err e)
    | Ok hashes =>
        if bool_decide (is_Some (transactions t !! block_number)) || negb (bool_decide (is_Some (headers !! block_number)))
        then Ret (Err Constraint)
        else Ret (Ok (f, MkTransactionTables (<[block_number := (store_transactions txs, store_events <$> events)]> (transactions t)) hashes))
    end.

(** An update of a row that is not there does nothing. *)
Definition update_events (block_number : Z) (events : list (list Event)) (self : Filters * TransactionTables)
    : outcome (Filters * TransactionTables) :=
  let t := MkTransactionTables (alter (fun row => (row.1, Some (store_events events))) block_number (transactions self.2))
             (transaction_hashes self.2) in
  let! f := upsert_block_event_filters block_number (concat events) self.1 in
  Ret (f, t).

Definition delete_transactions_before (block_number : Z) (t : TransactionTables) : TransactionTables :=
  MkTransactionTables (filter (fun row => block_number <= row.1) (transactions t)) (transaction_hashes t).

Definition delete_transaction_hashes_before (block_number : Z) (t : TransactionTables) : TransactionTables :=
  MkTransactionTables (transactions t) (filter (fun row => block_number <= row.2.1) (transaction_hashes t)).

(** *** Queries by block *)

Context (headers : Headers) (t : TransactionTables).

Definition query_transactions_by_block (block_number : Z) : Result (list (Transaction * Receipt)) :=
  match transactions t !! block_number with
  | None => Ret (Ok [])
  | Some (b, _) =>
      let+ l := load_transactions b in
      let! l := collect with_receipt_of_dto l in
      Ret (Ok l)
  end.

(** [ORDER BY idx] *)
Definition query_transaction_infos_by_block (block_number : Z) : list (Felt * Z) :=
  sort_by_key snd
    (map (fun row => (row.1, row.2.2)) (List.filter (fun row => row.2.1 =? block_number) (map_to_list (transaction_hashes t)))).

Definition query_transactions_and_events_by_block (block_number : Z)
    : Result (list (Transaction * Receipt) * list (list Event)) :=
  match transactions t !! block_number with
  | None => Ret (Ok ([], []))
  | Some (b, e) =>
      let+ l := load_transactions b in
      let+ events := load_optional e in
      let! l := collect with_receipt_of_dto l in
      let! events := collect (collect event_of_dto) (default [] events) in
      Ret (Ok (l, events))
  end.

Definition query_events_by_block (block_number : Z) : Result (option (list (list Event))) :=
  match transactions t !! block_number with
  | None => Ret (Ok None)
  | Some (_, e) =>
      let+ events := load_optional e in
      match events with
      | Some events => let! events := collect (collect event_of_dto) events in Ret (Ok (Some events))
      | None => Ret (Ok None)
      end
  end.

Definition transaction_at_block (block : BlockId) (index : nat) : Result (option Transaction) :=
  match header_number headers block with
  | None => Ret (Ok None)
  | Some number => let+ l := query_transactions_by_block number in Ret (Ok (fst <$> l !! index))
  end.

Definition transaction_count (block : BlockId) : Result nat :=
  match header_number headers block with
  | None => Ret (Ok 0%nat)
  | Some number => let+ l := query_transactions_by_block number in Ret (Ok (length l))
  end.

(** The shorter of the two lists decides. *)
Definition transaction_data_for_block (block : BlockId) : Result (option (list (Transaction * Receipt * list Event))) :=
  match header_number headers block with
  | None => Ret (Ok None)
  | Some number =>
      let+ data := query_transactions_and_events_by_block number in
      Ret (Ok (Some (zip_with pair data.1 data.2)))
  end.

Definition transactions_for_block (block : BlockId) : Result (option (list Transaction)) :=
  match header_number headers block with
  | None => Ret (Ok None)
  | Some number => let+ l := query_transactions_by_block number in Ret (Ok (Some (map fst l)))
  end.

Definition transactions_with_receipts_for_block (block : BlockId) : Result (option (list (Transaction * Receipt))) :=
  match header_number headers block with
  | None => Ret (Ok None)
  | Some number => let+ l := query_transactions_by_block number in Ret (Ok (Some l))
  end.

Definition events_for_block (block : BlockId) : Result (option (list ((Felt * Z) * list Event))) :=
  match header_number headers block with
  | None => Ret (Ok None)
  | Some number =>
      let+ events := query_events_by_block number in
      let events := default [] events in
      let infos := query_transaction_infos_by_block number in
      if (length events =? length infos)%nat then Ret (Ok (Some (zip infos events))) else Ret (Err ListMismatch)
  end.

Definition transaction_hashes_for_block (block : BlockId) : option (list Felt) :=
  match header_number headers block with
  | None => None
  | Some number => Some (map fst (query_transaction_infos_by_block number))
  end.

(** *** Queries by hash *)

Definition transaction_block_hash (h : Felt) : option Felt :=
  match transaction_hashes t !! h with
  | Some (number, _) => header_hash <$> headers !! number
  | None => None
  end.

(** [transactions JOIN transaction_hashes] *)
Definition row_of_hash (h : Felt) : option (Z * blob * option blob * Z) :=
  match transaction_hashes t !! h with
  | Some (number, idx) => match transactions t !! number with Some (b, e) => Some (number, b, e, idx) | None => None end
  | None => None
  end.

Definition query_transaction_by_hash (h : Felt) : Result (option (Z * Transaction * Receipt)) :=
  match row_of_hash h with
  | None => Ret (Ok None)
  | Some (number, b, _, idx) =>
      let+ l := load_transactions b in
      match l !! Z.to_nat idx with
      | None => Ret (Err TransactionNotFound)
      | Some x => let! x := with_receipt_of_dto x in Ret (Ok (Some (number, x.1, x.2)))
      end
  end.

Definition query_transaction_and_events_by_hash (h : Felt) : Result (option (Z * Transaction * Receipt * option (list Event))) :=
  match row_of_hash h with
  | None => Ret (Ok None)
  | Some (number, b, e, idx) =>
      let+ l := load_transactions b in
      let+ events := load_optional e in
      match l !! Z.to_nat idx with
      | None => Ret (Err TransactionNotFound)
      | Some x =>
          let+ events :=
            match events with
            | Some events =>
                match events !! Z.to_nat idx with
                | Some events => let! events := collect event_of_dto events in Ret (Ok (Some events))
                | None => Ret (Err EventsMissing)
                end
            | None => Ret (Ok None)
            end in
          let! x := with_receipt_of_dto x in
          Ret (Ok (Some (number, x.1, x.2, events)))
      end
  end.

Definition transaction (h : Felt) : Result (option Transaction) :=
  let+ found := query_transaction_by_hash h in
  Ret (Ok (match found with Some (_, tx, _) => Some tx | None => None end)).

Definition transaction_with_receipt (h : Felt) : Result (option (Transaction * Receipt * list Event * Z)) :=
  let+ found := query_transaction_and_events_by_hash h in
  match found with
  | None => Ret (Ok None)
  | Some (number, tx, receipt, Some events) => Ret (Ok (Some (tx, receipt, events, number)))
  | Some (_, _, _, None) => Ret (Err EventsMissing)
  end.
End Store.
