(* ===== verification/TransactionStoreFacts.v ===== *)
(** Facts on the stored transactions: what is written is read back, by block and
    by hash. *)

From Stdlib Require Import ZArith Lia Bool List Sorted.
From stdpp Require Import gmap list.
From S2P Require Import Prelude Bytes Felt Hashing TreeMap TreeCommit EventStore EventFacts Commitments CommitmentFacts Transactions.
From S2P Require Import StateTables StateTries TransactionFacts TransactionStore TreeTheorems EventTheorems.
Local Open Scope Z_scope.
Local Open Scope tree_scope.

(** ** Felts without leading zeros *)

Lemma minimal_felt_roundtrip f : felt_ok (Dto.inner f) -> Dto.deserialize_felt (Dto.serialize_felt f) = Ret f.
Proof.
  destruct f as [f]. cbn. intros Hf. unfold Dto.serialize_felt, Dto.deserialize_felt, felt_to_be_bytes. cbn [Dto.inner].
  destruct (take_while_zero_split f) as (E & E0 & _). set (s := skip_while_zero f) in *. pose proof (proj1 (proj2 Hf)) as L.
  assert (Es : repeat 0 (32 - length s) ++ s = f).
  { rewrite E0 in E. rewrite E in L |- *. rewrite length_app, repeat_length in L. repeat f_equal. lia. }
  assert (Ls : (length s <= 32)%nat) by (rewrite <- L, E, length_app; lia).
  rewrite (proj2 (Nat.ltb_ge 32 _)) by lia. rewrite Es.
  rewrite (proj2 (felt_from_be_bytes_ok f f (proj1 Hf) L)) by now split. reflexivity.
Qed.

(** ** The felts and the addresses of what is stored *)

Section Fields.
Import Dto.

Definition variant_felts (v : TransactionVariantV3) : list MinimalFelt :=
  match v with
  | V3DeclareV0 (MkDeclareV0V1 a b c s d) | V3DeclareV1 (MkDeclareV0V1 a b c s d) => [a; b; c; d] ++ s
  | V3DeclareV2 (MkDeclareV2 a b c s d e) => [a; b; c; d; e] ++ s
  | V3DeclareV3 (MkDeclareV3 a b _ _ _ _ p s x c d) | V3DeclareV4 (MkDeclareV3 a b _ _ _ _ p s x c d) => [a; b; c; d] ++ p ++ s ++ x
  | V3DeployV0 (MkDeployV0 a b c x) | V3DeployV1 (MkDeployV1 a b c x) => [a; b; c] ++ x
  | V3DeployAccountV1 (MkDeployAccountV1 a b s c d x e) => [a; b; c; d; e] ++ s ++ x
  | V3DeployAccountV3 (MkDeployAccountV3 a s b _ _ _ _ p c x d) | V3DeployAccountV4 (MkDeployAccountV3 a s b _ _ _ _ p c x d) =>
      [a; b; c; d] ++ s ++ p ++ x
  | V3InvokeV0 (MkInvokeV0 x a b _ c s) => [a; b; c] ++ x ++ s
  | V3InvokeV1 (MkInvokeV1 x a b s c) => [a; b; c] ++ x ++ s
  | V3InvokeV3 (MkInvokeV3 s a _ _ _ _ p x y b) | V3InvokeV4 (MkInvokeV3 s a _ _ _ _ p x y b) => [a; b] ++ s ++ p ++ x ++ y
  | V3InvokeV5 (MkInvokeV5 s a _ _ _ _ p x y b z) => [a; b] ++ s ++ p ++ x ++ y ++ z
  | V3L1HandlerV0 (MkL1HandlerV0 a b c x) => [a; b; c] ++ x
  end.

Definition message_felts (v : L2ToL1MessageV1) : list MinimalFelt := let '(MkMessageV1 a l b) := v in [a; b] ++ l.

Definition with_receipt_felts (v : TransactionWithReceiptV4) : list MinimalFelt :=
  let '(MkWithReceiptV4 (MkTransactionV3 h tx) (MkReceiptV3 fee _ messages h' _ _)) := v in
  [h; fee; h'] ++ variant_felts tx ++ flat_map message_felts messages.

Definition event_felts (v : Event) : list MinimalFelt := let '(MkEvent d a k) := v in [a] ++ d ++ k.
End Fields.

(** The felts that a panic keeps within 251 bits. *)
Definition checked (tx : TransactionVariant) : list Felt :=
  match tx with
  | DeclareV0 tx => [d1_sender_address tx]
  | DeclareV1 _ => []
  | DeclareV2 tx => [d2_compiled_class_hash tx]
  | DeclareV3 tx => [d3_sender_address tx; d3_compiled_class_hash tx]
  | DeployV0 tx => [p0_contract_address tx]
  | DeployV1 tx => [p1_contract_address tx]
  | DeployAccountV1 tx => [a1_contract_address tx]
  | DeployAccountV3 tx => [a3_contract_address tx]
  | InvokeV0 tx => [i0_sender_address tx]
  | InvokeV1 tx => [i1_sender_address tx]
  | InvokeV3 tx => [i3_sender_address tx]
  | L1Handler tx => [lh_contract_address tx]
  end.

Definition short (a : Felt) : Prop := has_more_than_251_bits a = false.

Definition to_dto (tr : Transaction * Receipt) : Dto.TransactionWithReceiptV4 :=
  Dto.MkWithReceiptV4 (transaction_to_dto tr.1) (receipt_to_dto tr.2).

(** Transactions and receipts whose felts are valid and whose addresses are short. *)
Definition stored_ok (tr : Transaction * Receipt) : Prop :=
  Forall (fun f => felt_ok (Dto.inner f)) (with_receipt_felts (to_dto tr)) /\ Forall short (checked (variant tr.1)) /\
  Forall (fun m => short (msg_from_address m) /\ short (msg_to_address m)) (l2_to_l1_messages tr.2).

Definition stored_event_ok (e : Event) : Prop :=
  Forall (fun f => felt_ok (Dto.inner f)) (event_felts (event_to_dto e)) /\ short (ev_from_address e).

(** ** Conversions *)

Lemma minimal_list (l : list Felt) : map Dto.inner (map Dto.MkMinimal l) = l.
Proof. rewrite map_map. cbn. apply map_id. Qed.

Lemma short_address a : short a -> address_or_panic a = Ret a.
Proof. intros H. unfold address_or_panic. now rewrite H. Qed.

Lemma mode_roundtrip x : mode_of_dto (mode_to_dto x) = x.
Proof. now destruct x. Qed.

Lemma entry_type_roundtrip (x : option EntryPointType) : entry_type_of_dto <$> (entry_type_to_dto <$> x) = x.
Proof. now destruct x as [[|]|]. Qed.

Lemma bounds_roundtrip b : bounds_of_dto (bounds_to_dto b) = b.
Proof. now destruct b as [[a b] [c d] [[e f]|]]. Qed.

Lemma variant_roundtrip tx : Forall short (checked tx) -> variant_of_dto (variant_to_dto tx) = Ret tx.
Proof.
  destruct tx as [tx|tx|tx|tx|tx|tx|tx|tx|tx|tx|tx|tx]; destruct tx; cbn [checked]; rewrite ?Forall_cons; intros Hs; destruct_and?;
    cbn -[address_or_panic bounds_to_dto bounds_of_dto mode_to_dto mode_of_dto map fmap option_fmap]; unfold declare_of_dto, deploy_account_of_dto, invoke_of_dto; cbn [Dto.inner];
    rewrite ?short_address by assumption; cbn [bind_outcome];
    rewrite ?minimal_list, ?mode_roundtrip, ?bounds_roundtrip, ?entry_type_roundtrip; reflexivity.
Qed.

Lemma collect_map {A B C} (f : B -> outcome C) (g : A -> B) (h : A -> C) l : (forall a, a ∈ l -> f (g a) = Ret (h a)) ->
  collect f (map g l) = Ret (map h l).
Proof.
  induction l as [|a l IH]; intros E; [reflexivity|]. cbn. rewrite (E a) by now left. cbn. rewrite IH; [reflexivity|].
  intros b Hb. apply E. now right.
Qed.

Lemma message_roundtrip m : short (msg_from_address m) -> short (msg_to_address m) -> message_of_dto (message_to_dto m) = Ret m.
Proof.
  destruct m as [a l b]. cbn [msg_from_address msg_to_address]. intros H1 H2. unfold message_to_dto, message_of_dto. cbn [msg_from_address msg_to_address msg_payload Dto.inner].
  rewrite !short_address by assumption. cbn [bind_outcome]. now rewrite minimal_list.
Qed.

Lemma resources_roundtrip r : resources_of_dto (resources_to_dto r) = r.
Proof. destruct r as [[] ? ? [] [] ?]. reflexivity. Qed.

Lemma receipt_roundtrip r : Forall (fun m => short (msg_from_address m) /\ short (msg_to_address m)) (l2_to_l1_messages r) ->
  receipt_of_dto (receipt_to_dto r) = Ret r.
Proof.
  intros Hm. destruct r as [fee res messages status h i]. unfold receipt_to_dto, receipt_of_dto.
  cbn [actual_fee execution_resources l2_to_l1_messages execution_status transaction_hash transaction_index] in *.
  rewrite (collect_map message_of_dto message_to_dto id).
  - cbn [bind_outcome from_option id Dto.inner]. rewrite map_id. rewrite resources_roundtrip. now destruct status.
  - intros m Hin. rewrite Forall_forall in Hm. destruct (Hm m Hin). now apply message_roundtrip.
Qed.

Lemma with_receipt_roundtrip tr : stored_ok tr -> with_receipt_of_dto (to_dto tr) = Ret tr.
Proof.
  intros (_ & Hs & Hm). destruct tr as [[h v] r]. cbn [fst snd variant] in *. unfold with_receipt_of_dto, to_dto, transaction_to_dto, transaction_of_dto.
  cbn [fst snd variant hash]. rewrite (variant_roundtrip v Hs). cbn [bind_outcome]. rewrite (receipt_roundtrip r Hm). reflexivity.
Qed.

Lemma event_roundtrip e : stored_event_ok e -> event_of_dto (event_to_dto e) = Ret e.
Proof.
  intros [_ Hs]. destruct e as [d a k]. unfold event_to_dto, event_of_dto. cbn [ev_data ev_from_address ev_keys Dto.inner] in *.
  rewrite (short_address a Hs). cbn [bind_outcome]. now rewrite !minimal_list.
Qed.

(** ** The rows of the hashes *)

(** The rows that a block adds. *)
Definition hash_rows (block_number idx : Z) (hashes : list Felt) : list (Felt * (Z * Z)) :=
  zip hashes (pair block_number <$> seqZ idx (Z.of_nat (length hashes))).

Lemma hash_rows_cons n idx h hashes : hash_rows n idx (h :: hashes) = (h, (n, idx)) :: hash_rows n (idx + 1) hashes.
Proof.
  unfold hash_rows. cbn [length]. rewrite seqZ_cons by lia. cbn. do 3 f_equal. rewrite Z.add_1_r. f_equal. lia.
Qed.

Lemma insert_hashes_rows headers n hashes : is_Some (headers !! n) -> forall idx t, NoDup hashes ->
  Forall (fun h => t !! h = None) hashes ->
  exists t', insert_hashes headers n idx hashes t = Ok t' /\ map_to_list t' ≡ₚ hash_rows n idx hashes ++ map_to_list t.
Proof.
  intros Hn. induction hashes as [|h hashes IH]; intros idx t Hd Hf; [now exists t|].
  inversion_clear Hd as [|? ? Hh Hd']. inversion_clear Hf as [|? ? E Hf']. cbn [insert_hashes].
  rewrite E, (bool_decide_eq_true_2 _ Hn), bool_decide_eq_false_2 by (now intros [? ?]). cbn [orb negb].
  destruct (IH (idx + 1) (<[h := (n, idx)]> t) Hd') as (t' & E' & P).
  { rewrite Forall_forall in Hf' |- *. intros k Hk. rewrite lookup_insert_ne; [now apply Hf'|]. now intros ->. }
  exists t'. split; [exact E'|]. rewrite P, map_to_list_insert by exact E. rewrite hash_rows_cons. cbn. symmetry. apply Permutation_middle.
Qed.

Lemma hash_rows_lookup n idx hashes k h : hashes !! k = Some h -> (h, (n, idx + Z.of_nat k)) ∈ hash_rows n idx hashes.
Proof.
  revert idx k. induction hashes as [|g hashes IH]; intros idx k E; [discriminate|]. rewrite hash_rows_cons. destruct k as [|k].
  - injection E as ->. replace (idx + Z.of_nat 0) with idx by lia. now left.
  - right. replace (idx + Z.of_nat (S k)) with (idx + 1 + Z.of_nat k) by lia. now apply IH.
Qed.

Lemma hash_rows_fst n idx hashes x : x ∈ hash_rows n idx hashes -> x.1 ∈ hashes.
Proof. destruct x as [h v]. intros H. now apply elem_of_zip_l in H. Qed.

Definition infos (hashes : list Felt) : list (Felt * Z) := zip hashes (seqZ 0 (Z.of_nat (length hashes))).

Lemma hash_rows_infos n hashes : forall idx,
  map (fun row => (row.1, row.2.2)) (List.filter (fun row : Felt * (Z * Z) => row.2.1 =? n) (hash_rows n idx hashes)) =
  zip hashes (seqZ idx (Z.of_nat (length hashes))).
Proof.
  induction hashes as [|h hashes IH]; intros idx; [reflexivity|]. rewrite hash_rows_cons. cbn [List.filter snd fst]. rewrite Z.eqb_refl.
  cbn [map fst snd length]. rewrite IH. rewrite (seqZ_cons idx) by lia. cbn. rewrite Z.add_1_r.
  now replace (Z.pred (Z.of_nat (S (length hashes)))) with (Z.of_nat (length hashes)) by lia.
Qed.

Lemma infos_sorted hashes : forall idx,
  StronglySorted (fun x y : Felt * Z => x.2 < y.2) (zip hashes (seqZ idx (Z.of_nat (length hashes)))).
Proof.
  induction hashes as [|h hashes IH]; intros idx; [constructor|]. cbn [length]. rewrite seqZ_cons by lia. cbn.
  replace (Z.pred (Z.of_nat (S (length hashes)))) with (Z.of_nat (length hashes)) by lia. constructor; [apply IH|].
  apply Forall_forall. intros [g i] Hi. apply elem_of_zip_r, elem_of_seqZ in Hi. cbn. lia.
Qed.

Lemma infos_fst hashes : map fst (infos hashes) = hashes.
Proof. apply fst_zip. rewrite length_seqZ. lia. Qed.

Lemma infos_length hashes : length (infos hashes) = length hashes.
Proof. rewrite <- (infos_fst hashes) at 2. now rewrite length_map. Qed.

(** ** Bincode and zstd *)

(** What is relied on of the packages: the current formats decode to what was
    encoded when the felts do, and a blob that fits the limit is decompressed. *)
Class CodecLaws (codec : Codec) : Prop := {
  transactions_codec ser de l : (forall f, f ∈ flat_map with_receipt_felts l -> de (ser f) = Ret f) ->
    decode_transactions codec de (encode_transactions codec ser (Dto.V4 l)) = Ret (Some (Dto.V4 l));
  events_codec ser de l : (forall f, f ∈ flat_map event_felts (concat l) -> de (ser f) = Ret f) ->
    decode_events codec de (encode_events codec ser (Dto.EventsV0 l)) = Ret (Some (Dto.EventsV0 l));
  zstd_txs_codec b max : size codec b <= max -> unzstd_txs codec (zstd_txs codec b) max = Some b;
  zstd_events_codec b max : size codec b <= max -> unzstd_events codec (zstd_events codec b) max = Some b
}.

Lemma flat_map_felts {A B} (felts : B -> list Dto.MinimalFelt) (g : A -> B) l :
  Forall (fun a => Forall (fun f => felt_ok (Dto.inner f)) (felts (g a))) l ->
  forall f, f ∈ flat_map felts (map g l) -> Dto.deserialize_felt (Dto.serialize_felt f) = Ret f.
Proof.
  intros H f Hf. apply minimal_felt_roundtrip. rewrite list_elem_of_In, in_flat_map in Hf. destruct Hf as (b & Hb & Hf).
  apply in_map_iff in Hb as (a & <- & Ha). rewrite Forall_forall in H. specialize (H a (proj2 (list_elem_of_In _ _) Ha)).
  rewrite Forall_forall in H. apply H. now apply list_elem_of_In.
Qed.

Section Store.
Context (codec : Codec) {laws : CodecLaws codec} {Filters : Type} {filters : EventFilters Filters}.

(** The encoded data fits the limits of the decompression. *)
Definition transactions_fit (txs : list (Transaction * Receipt)) : Prop :=
  size codec (encode_transactions codec Dto.serialize_felt (Dto.V4 (map to_dto txs))) <= MAX_TRANSACTIONS_UNCOMPRESSED_SIZE.
Definition events_fit (events : list (list Event)) : Prop :=
  size codec (encode_events codec Dto.serialize_felt (Dto.EventsV0 (map (map event_to_dto) events))) <= MAX_EVENTS_UNCOMPRESSED_SIZE.

Lemma load_store_transactions txs : Forall stored_ok txs -> transactions_fit txs ->
  load_transactions codec (store_transactions codec txs) = Ret (Ok (map to_dto txs)).
Proof.
  intros Hok Hfit. unfold load_transactions, store_transactions. fold (to_dto : Transaction * Receipt -> _).
  rewrite zstd_txs_codec by exact Hfit. rewrite transactions_codec; [reflexivity|].
  apply flat_map_felts. eapply Forall_impl; [exact Hok|]. now intros tr [H _].
Qed.

Lemma load_store_events events : Forall (Forall stored_event_ok) events -> events_fit events ->
  load_events codec (store_events codec events) = Ret (Ok (map (map event_to_dto) events)).
Proof.
  intros Hok Hfit. unfold load_events, store_events.
  rewrite zstd_events_codec by exact Hfit. rewrite events_codec; [reflexivity|]. rewrite <- concat_map.
  apply flat_map_felts. rewrite Forall_concat. eapply Forall_impl; [exact Hok|]. intros l Hl. eapply Forall_impl; [exact Hl|]. now intros e [H _].
Qed.

Lemma read_transactions txs : Forall stored_ok txs -> collect with_receipt_of_dto (map to_dto txs) = Ret txs.
Proof.
  intros H. rewrite (collect_map _ to_dto id); [now rewrite map_id|]. intros tr Htr. rewrite Forall_forall in H. now apply with_receipt_roundtrip, H.
Qed.

Lemma read_event_list l : Forall stored_event_ok l -> collect event_of_dto (map event_to_dto l) = Ret l.
Proof.
  intros H. rewrite (collect_map _ event_to_dto id); [now rewrite map_id|]. intros e He. rewrite Forall_forall in H. now apply event_roundtrip, H.
Qed.

Lemma read_events events : Forall (Forall stored_event_ok) events -> collect (collect event_of_dto) (map (map event_to_dto) events) = Ret events.
Proof.
  intros H. rewrite (collect_map _ (map event_to_dto) id); [now rewrite map_id|]. intros l Hl. rewrite Forall_forall in H. now apply read_event_list, H.
Qed.

(** ** Insertion *)

(** Data of a block that the tables can take. *)
Record insertable (headers : Headers) (t : TransactionTables codec) (n : Z) (txs : list (Transaction * Receipt)) (events : list (list Event))
    : Prop := {
  ins_header : is_Some (headers !! n);
  ins_no_row : transactions codec t !! n = None;
  ins_no_hash : forall h i, transaction_hashes codec t !! h <> Some (n, i);
  ins_fresh : Forall (fun h => transaction_hashes codec t !! h = None) (map (fun tr => hash tr.1) txs);
  ins_distinct : NoDup (map (fun tr => hash tr.1) txs);
  ins_events : length events = length txs
}.

(** The tables hold the block. *)
Record holds (t : TransactionTables codec) (n : Z) (txs : list (Transaction * Receipt)) (events : list (list Event)) : Prop := {
  holds_row : transactions codec t !! n = Some (store_transactions codec txs, Some (store_events codec events)) \/
    txs = [] /\ events = [] /\ transactions codec t !! n = None;
  holds_infos : query_transaction_infos_by_block codec t n = infos (map (fun tr => hash tr.1) txs);
  holds_hash k tr : txs !! k = Some tr -> transaction_hashes codec t !! hash tr.1 = Some (n, Z.of_nat k)
}.

(** Nothing else changes. *)
Definition keeps (t t' : TransactionTables codec) (n : Z) (txs : list (Transaction * Receipt)) : Prop :=
  (forall m, m <> n -> transactions codec t' !! m = transactions codec t !! m) /\
  (forall h, h ∉ map (fun tr => hash tr.1) txs -> transaction_hashes codec t' !! h = transaction_hashes codec t !! h).

Lemma no_rows_of (t : TransactionTables codec) n : (forall h i, transaction_hashes codec t !! h <> Some (n, i)) ->
  List.filter (fun row => row.2.1 =? n) (map_to_list (transaction_hashes codec t)) = [].
Proof.
  intros H. apply elem_of_nil_inv. intros [h [m i]] Hin. rewrite list_elem_of_In, filter_In in Hin. destruct Hin as [Hin E]. cbn in E.
  apply Z.eqb_eq in E as ->. apply list_elem_of_In, elem_of_map_to_list in Hin. now apply H in Hin.
Qed.

Lemma filter_perm {A : Type} (p : A -> bool) l l' : l ≡ₚ l' -> List.filter p l ≡ₚ List.filter p l'.
Proof.
  induction 1 as [|x l l' _ IH|x y l|l1 l2 l3 _ IH1 _ IH2]; cbn; [reflexivity| | |now transitivity (List.filter p l2)].
  - destruct (p x); [now constructor | exact IH].
  - destruct (p x), (p y); try reflexivity. constructor.
Qed.

Lemma infos_of_rows (t : TransactionTables codec) n hashes old : map_to_list (transaction_hashes codec t) ≡ₚ hash_rows n 0 hashes ++ old ->
  List.filter (fun row => row.2.1 =? n) old = [] -> query_transaction_infos_by_block codec t n = infos hashes.
Proof.
  intros P E. unfold query_transaction_infos_by_block. apply sort_unique; [apply infos_sorted|].
  unfold infos. rewrite <- (hash_rows_infos n). apply Permutation_map.
  transitivity (List.filter (fun row => row.2.1 =? n) (hash_rows n 0 hashes ++ old)); [now apply filter_perm|].
  now rewrite List.filter_app, E, app_nil_r.
Qed.

Lemma rows_lookup (m m' : gmap Felt (Z * Z)) n hashes : map_to_list m' ≡ₚ hash_rows n 0 hashes ++ map_to_list m ->
  (forall k h, hashes !! k = Some h -> m' !! h = Some (n, Z.of_nat k)) /\
  (forall h, h ∉ hashes -> m' !! h = m !! h).
Proof.
  intros P. assert (X : forall h v, m' !! h = Some v <-> (h, v) ∈ hash_rows n 0 hashes \/ m !! h = Some v).
  { intros h v. rewrite <- elem_of_map_to_list, P, elem_of_app, elem_of_map_to_list. reflexivity. }
  split.
  - intros k h E. apply X. left. now apply (hash_rows_lookup n 0).
  - intros h Hh. apply option_eq. intros v. rewrite X. split; [|now right]. intros [H|H]; [|exact H]. now apply hash_rows_fst in H.
Qed.

Lemma insert_holds headers t n txs events (f f' : Filters) : insertable headers t n txs events ->
  upsert_block_event_filters n (concat events) f = Ret f' ->
  exists t', insert_transaction_data codec headers n txs (Some events) (f, t) = Ret (Ok (f', t')) /\ holds t' n txs events /\ keeps t t' n txs.
Proof.
  intros [Hh Hr Hn Hf Hd Hl] E. unfold insert_transaction_data. cbn [fst snd]. rewrite E, bind_ret.
  destruct (insert_hashes_rows headers n _ Hh 0 _ Hd Hf) as (m & Em & P). destruct (rows_lookup _ _ _ _ P) as [L1 L2].
  destruct txs as [|tr txs], events as [|e events]; try discriminate Hl.
  - exists t. split; [reflexivity|]. split; [|now split]. split; [now right | |discriminate].
    apply (infos_of_rows t n [] (map_to_list (transaction_hashes codec t))); [reflexivity | now apply no_rows_of].
  - rewrite Em, Hr, (bool_decide_eq_true_2 _ Hh), bool_decide_eq_false_2 by (now intros [? ?]). cbn [orb negb]. eexists. split; [reflexivity|].
    split; [split|split]; cbn [transactions transaction_hashes].
    + left. apply lookup_insert_eq.
    + eapply infos_of_rows; [exact P | now apply no_rows_of].
    + intros k x Ek. apply L1. rewrite list_lookup_fmap, Ek. reflexivity.
    + intros k Hk. now apply lookup_insert_ne.
    + exact L2.
Qed.

(** ** Queries *)

Context (headers : Headers) (header : Header) (n : Z) (txs : list (Transaction * Receipt)) (events : list (list Event)).
Context (t : TransactionTables codec).
Hypothesis Hheader : headers !! n = Some header.
Hypothesis Hholds : holds t n txs events.
Hypothesis Htxs : Forall stored_ok txs.
Hypothesis Hevents : Forall (Forall stored_event_ok) events.
Hypothesis Hfit : transactions_fit txs.
Hypothesis Hevents_fit : events_fit events.

Lemma block_number_known : header_number headers (Number n) = Some n.
Proof. unfold header_number. now rewrite Hheader. Qed.

Lemma by_block : query_transactions_by_block codec t n = Ret (Ok txs).
Proof.
  unfold query_transactions_by_block. destruct (holds_row _ _ _ _ Hholds) as [->|(-> & _ & ->)]; [|reflexivity].
  rewrite load_store_transactions by assumption. cbn [try bind_outcome]. now rewrite read_transactions.
Qed.

Lemma events_by_block : query_transactions_and_events_by_block codec t n = Ret (Ok (txs, events)).
Proof.
  unfold query_transactions_and_events_by_block. destruct (holds_row _ _ _ _ Hholds) as [->|(-> & -> & ->)]; [|reflexivity].
  rewrite load_store_transactions by assumption. unfold load_optional. rewrite load_store_events by assumption. cbn [try bind_outcome].
  cbn [from_option id]. rewrite read_transactions by assumption. cbn [bind_outcome]. now rewrite read_events.
Qed.

Lemma only_events_by_block : exists e, query_events_by_block codec t n = Ret (Ok e) /\ default [] e = events.
Proof.
  unfold query_events_by_block. destruct (holds_row _ _ _ _ Hholds) as [->|(-> & -> & ->)]; [|now exists None].
  unfold load_optional. rewrite load_store_events by assumption. cbn [try bind_outcome]. rewrite read_events by assumption. now exists (Some events).
Qed.

Lemma events_with_infos (Hlength : length events = length txs) : events_for_block codec headers t (Number n) =
  Ret (Ok (Some (zip (infos (map (fun tr => hash tr.1) txs)) events))).
Proof.
  unfold events_for_block. rewrite block_number_known. destruct only_events_by_block as (e & -> & <-) in Hlength |- *. cbn [try].
  rewrite (holds_infos _ _ _ _ Hholds). rewrite infos_length, length_map.
  now rewrite Hlength, Nat.eqb_refl.
Qed.

Lemma row_by_hash k tr : txs !! k = Some tr ->
  row_of_hash codec t (hash tr.1) = Some (n, store_transactions codec txs, Some (store_events codec events), Z.of_nat k).
Proof.
  intros E. unfold row_of_hash. rewrite (holds_hash _ _ _ _ Hholds k tr E).
  destruct (holds_row _ _ _ _ Hholds) as [->|(X & _)]; [reflexivity|]. rewrite X in E. discriminate E.
Qed.

Lemma by_hash k tr es : txs !! k = Some tr -> events !! k = Some es ->
  transaction codec t (hash tr.1) = Ret (Ok (Some tr.1)) /\
  transaction_with_receipt codec t (hash tr.1) = Ret (Ok (Some (tr.1, tr.2, es, n))).
Proof.
  intros E Ee. assert (Htr : stored_ok tr) by (rewrite Forall_forall in Htxs; exact (Htxs _ (list_elem_of_lookup_2 _ _ _ E))).
  assert (Hes : Forall stored_event_ok es) by (rewrite Forall_forall in Hevents; exact (Hevents _ (list_elem_of_lookup_2 _ _ _ Ee))).
  assert (E' : map to_dto txs !! k = Some (to_dto tr)) by (rewrite list_lookup_fmap, E; reflexivity).
  assert (Ee' : map (map event_to_dto) events !! k = Some (map event_to_dto es)) by (rewrite list_lookup_fmap, Ee; reflexivity).
  unfold transaction, transaction_with_receipt, query_transaction_by_hash, query_transaction_and_events_by_hash.
  rewrite (row_by_hash k tr E), load_store_transactions by assumption. unfold load_optional. rewrite load_store_events by assumption.
  cbn [try]. rewrite Nat2Z.id, E', Ee', (with_receipt_roundtrip tr Htr), (read_event_list es Hes). now destruct tr.
Qed.
End Store.

(** C10: the data of a block is stored and read back: into tables that know its
    header and none of its transactions, with distinct new hashes, one list of
    events for each transaction, valid felts, addresses and class hashes that are
    not too long, and blobs within the size limit, the insertion succeeds, every query by block or
    by hash returns the transactions, receipts and events in their order, and the
    rows of other blocks and the other hashes do not change. *)
Theorem transaction_data_roundtrip (codec : Codec) (Filters : Type) (filters : EventFilters Filters) (headers : Headers) (header : Header)
    (t : TransactionTables codec) (n : Z) (txs : list (Transaction * Receipt)) (events : list (list Event)) (f f' : Filters) :
  CodecLaws codec -> headers !! n = Some header -> insertable codec headers t n txs events -> Forall stored_ok txs ->
  Forall (Forall stored_event_ok) events -> transactions_fit codec txs -> events_fit codec events ->
  upsert_block_event_filters n (concat events) f = Ret f' ->
  exists t', insert_transaction_data codec headers n txs (Some events) (f, t) = Ret (Ok (f', t')) /\ keeps codec t t' n txs /\
    transaction_data_for_block codec headers t' (Number n) = Ret (Ok (Some (zip txs events))) /\
    transactions_with_receipts_for_block codec headers t' (Number n) = Ret (Ok (Some txs)) /\
    transactions_for_block codec headers t' (Number n) = Ret (Ok (Some (map fst txs))) /\
    transaction_count codec headers t' (Number n) = Ret (Ok (length txs)) /\
    transaction_hashes_for_block codec headers t' (Number n) = Some (map (fun tr => hash tr.1) txs) /\
    events_for_block codec headers t' (Number n) = Ret (Ok (Some (zip (infos (map (fun tr => hash tr.1) txs)) events))) /\
    forall k, transaction_at_block codec headers t' (Number n) k = Ret (Ok (fst <$> txs !! k)) /\
    forall tr es, txs !! k = Some tr -> events !! k = Some es ->
      transaction_block_hash codec headers t' (hash tr.1) = Some (header_hash header) /\
      transaction codec t' (hash tr.1) = Ret (Ok (Some tr.1)) /\
      transaction_with_receipt codec t' (hash tr.1) = Ret (Ok (Some (tr.1, tr.2, es, n))).
Proof.
  intros laws Hh Hi Ht He Hft Hfe Ef. destruct (insert_holds codec headers t n txs events f f' Hi Ef) as (t' & E & H & K).
  exists t'. split; [exact E|]. split; [exact K|]. pose proof (ins_events _ _ _ _ _ _ Hi) as L.
  unfold transaction_data_for_block, transactions_with_receipts_for_block, transactions_for_block, transaction_count,
    transaction_hashes_for_block, transaction_at_block.
  rewrite (block_number_known headers header n Hh), (events_by_block codec n txs events t' H Ht He Hft Hfe), (by_block codec n txs events t' H Ht Hft),
    (holds_infos _ _ _ _ _ H), infos_fst, (events_with_infos codec headers header n txs events t' Hh H Ht He Hft Hfe L).
  do 6 (split; [reflexivity|]). intros k. split; [reflexivity|]. intros tr es Ek Ee. split.
  - unfold transaction_block_hash. rewrite (holds_hash _ _ _ _ _ H k tr Ek), Hh. reflexivity.
  - exact (by_hash codec n txs events t' H Ht He Hft Hfe k tr es Ek Ee).
Qed.

(** A block may be stored before its events are known: adding them later gives
    the same tables and the same filter as storing them with the block, also for a
    block without transactions. *)
Theorem late_events_agree (codec : Codec) (Filters : Type) (filters : EventFilters Filters) (headers : Headers)
    (t : TransactionTables codec) (n : Z) (txs : list (Transaction * Receipt)) (events : list (list Event)) (f f' : Filters) :
  insertable codec headers t n txs events -> upsert_block_event_filters n (concat events) f = Ret f' ->
  exists t1 t2, insert_transaction_data codec headers n txs None (f, t) = Ret (Ok (f, t1)) /\
    update_events codec n events (f, t1) = Ret (f', t2) /\
    insert_transaction_data codec headers n txs (Some events) (f, t) = Ret (Ok (f', t2)).
Proof.
  intros [Hh Hr Hn Hf Hd Hl] E. unfold insert_transaction_data, update_events. cbn [fst snd]. rewrite E, !bind_ret.
  destruct (insert_hashes_rows headers n _ Hh 0 _ Hd Hf) as (m & Em & _).
  destruct txs as [|tr txs], events as [|e events]; try discriminate Hl.
  - exists t, t. split; [reflexivity|]. split; [|reflexivity]. rewrite alter_id; [now destruct t|]. intros row X. congruence.
  - rewrite Em, Hr, (bool_decide_eq_true_2 _ Hh), bool_decide_eq_false_2 by (now intros [? ?]). cbn [orb negb].
    eexists _, _. split; [reflexivity|]. split; [reflexivity|]. cbn [transactions transaction_hashes fst snd]. now rewrite alter_insert_eq.
Qed.

(** A receipt stored in the third format is read back with its fee, steps,
    builtins, data gas, messages, status and index, but its total gas, which that
    format holds, is replaced by zero. *)
Theorem old_receipts_lose_gas (h fee h' : Dto.MinimalFelt) (v : Dto.TransactionVariantV1) (tx : TransactionVariant)
    (counters : Dto.BuiltinCountersV1) (steps holes idx l1 l1_data : Z) (da : Dto.L1Gas) (dtos : list Dto.L2ToL1MessageV1)
    (messages : list L2ToL1Message) (status : Dto.ExecutionStatus) :
  variant_of_dto (upgrade_variant_v1 v) = Ret tx -> collect message_of_dto dtos = Ret messages ->
  (let! l := transactions_with_receipts (Dto.V2 [Dto.MkWithReceiptV2 (Dto.MkTransactionV1 h v)
     (Dto.MkReceiptV2 fee (Some (Dto.MkResourcesV1 counters steps holes da (Dto.MkL1Gas (Some l1) (Some l1_data)))) dtos h' idx status)]) in
   collect with_receipt_of_dto l) =
  Ret [(MkTransaction (Dto.inner h) tx,
    MkReceipt (Dto.inner fee) (MkResources (builtins_of_dto counters) steps holes (gas_of_dto da) (MkL1Gas 0 0) 0) messages
      (status_of_dto status) (Dto.inner h') idx)].
Proof.
  intros Ev Em. cbn [transactions_with_receipts bind_outcome map upgrade_v2 upgrade_receipt_v2 collect]. unfold with_receipt_of_dto, transaction_of_dto.
  rewrite Ev. cbn [bind_outcome]. unfold receipt_of_dto. rewrite Em. reflexivity.
Qed.

(** ** A block with an invocation and a declaration *)

(** The formats as they are, without compression. *)
Definition plain_codec : Codec :=
  MkCodec (Dto.TransactionsWithReceiptsForBlock + Dto.EventsForBlock) (fun _ => 0)
    (fun _ v => inl v) (fun _ b => Ret (match b with inl v => Some v | inr _ => None end))
    (fun _ v => inr v) (fun _ b => Ret (match b with inr v => Some v | inl _ => None end))
    id (fun b max => if max <? 0 then None else Some b) id (fun b max => if max <? 0 then None else Some b).

#[global] Instance plain_codec_laws : CodecLaws plain_codec.
Proof.
  split; try reflexivity; intros b max H; cbn in H |- *; now rewrite (proj2 (Z.ltb_ge max 0)).
Qed.

Definition sample_receipt (i : Z) : Receipt :=
  MkReceipt (small_felt 8) (MkResources default_builtins 9 10 (MkL1Gas 11 12) (MkL1Gas 13 14) 15)
    [MkMessage (small_felt 5) [small_felt 6] (small_felt 7)] (Reverted [65]) (small_felt (100 + i)) i.

Definition sample_txs : list (Transaction * Receipt) :=
  [(MkTransaction (small_felt 100) sample_invoke, sample_receipt 0); (MkTransaction (small_felt 101) sample_declare, sample_receipt 1)].

Definition block_header : Header := MkHeader (small_felt 50) (small_felt 51) V_0_14_0.
Definition block_headers : Headers := {[ 0 := block_header ]}.
Definition sample_events : list (list Event) := [[Sample.event 1 2; Sample.event 3 4]; []].
Definition no_transactions : TransactionTables plain_codec := MkTransactionTables plain_codec ∅ ∅.

Definition sample_filters : EventFilters EventStore := store_filters Sample.sizes Sample.SIPS Sample.compress.

Lemma byte_felt_ok n : 0 <= n < 256 -> felt_ok (small_felt n).
Proof. intros H. rewrite <- (Z.mod_small n 256) by exact H. apply small_felt_ok. Qed.

Ltac byte_felts :=
  cbn -[felt_ok small_felt]; repeat (apply Forall_cons; split; [apply byte_felt_ok; lia|]); apply Forall_nil; exact I.

Lemma sample_txs_ok : Forall stored_ok sample_txs.
Proof. do 2 (apply Forall_cons; split; [split; [byte_felts | split; repeat constructor]|]). now apply Forall_nil. Qed.

Lemma sample_event_ok a k : 0 <= a < 256 -> 0 <= k < 256 -> stored_event_ok (Sample.event a k).
Proof. intros Ha Hk. split; [byte_felts | reflexivity]. Qed.

Lemma sample_events_ok : Forall (Forall stored_event_ok) sample_events.
Proof. repeat (apply Forall_cons; split; [repeat (apply Forall_cons; split; [apply sample_event_ok; lia|]); now apply Forall_nil|]). now apply Forall_nil. Qed.

Lemma sample_insertable : insertable plain_codec block_headers no_transactions 0 sample_txs sample_events.
Proof.
  split; [now exists block_header | reflexivity | intros h i; cbn; now rewrite lookup_empty | now repeat constructor | |reflexivity].
  apply (bool_decide_unpack _). vm_compute. exact I.
Qed.

Definition filtered : EventStore :=
  Sample.get Sample.store0 (EventStore.upsert_block_event_filters Sample.sizes Sample.SIPS Sample.compress 0 (concat sample_events) Sample.store0).

Lemma sample_filtered : @upsert_block_event_filters EventStore sample_filters 0 (concat sample_events) Sample.store0 = Ret filtered.
Proof. vm_compute. reflexivity. Qed.

Lemma transaction_data_roundtrip_witness : exists t', @insert_transaction_data plain_codec EventStore sample_filters block_headers 0 sample_txs
    (Some sample_events) (Sample.store0, no_transactions) = Ret (Ok (filtered, t')) /\
  transaction_with_receipt plain_codec t' (small_felt 101) =
    Ret (Ok (Some (MkTransaction (small_felt 101) sample_declare, sample_receipt 1, [], 0))).
Proof.
  destruct (transaction_data_roundtrip plain_codec EventStore sample_filters block_headers block_header no_transactions 0 sample_txs sample_events
    Sample.store0 filtered plain_codec_laws eq_refl sample_insertable sample_txs_ok sample_events_ok ltac:(vm_compute; discriminate)
    ltac:(vm_compute; discriminate) sample_filtered) as (t' & E & _ & _ & _ & _ & _ & _ & _ & H).
  exists t'. split; [exact E|]. exact (proj2 (proj2 (proj2 (H 1%nat) _ _ eq_refl eq_refl))).
Defined.

Lemma late_events_agree_witness : exists t1 t2, @insert_transaction_data plain_codec EventStore sample_filters block_headers 0 sample_txs
    None (Sample.store0, no_transactions) = Ret (Ok (Sample.store0, t1)) /\
  @update_events plain_codec EventStore sample_filters 0 sample_events (Sample.store0, t1) = Ret (filtered, t2).
Proof.
  destruct (late_events_agree plain_codec EventStore sample_filters block_headers no_transactions 0 sample_txs sample_events Sample.store0 filtered
    sample_insertable sample_filtered) as (t1 & t2 & E1 & E2 & _).
  exists t1, t2. split; [exact E1 | exact E2].
Defined.

Lemma old_receipts_lose_gas_witness : exists tx r,
  (let! l := transactions_with_receipts (Dto.V2 [Dto.MkWithReceiptV2
     (Dto.MkTransactionV1 (Dto.MkMinimal (small_felt 100)) (Dto.V1L1HandlerV0 (Dto.MkL1HandlerV0 (Dto.MkMinimal (small_felt 1))
        (Dto.MkMinimal (small_felt 2)) (Dto.MkMinimal (small_felt 3)) [])))
     (Dto.MkReceiptV2 (Dto.MkMinimal (small_felt 4)) (Some (Dto.MkResourcesV1 (builtins_to_dto default_builtins) 5 6
        (Dto.MkL1Gas (Some 7) (Some 8)) (Dto.MkL1Gas (Some 9) (Some 10)))) [] (Dto.MkMinimal (small_felt 100)) 0 Dto.Succeeded)]) in
   collect with_receipt_of_dto l) = Ret [(tx, r)] /\
  total_gas_consumed (execution_resources r) = MkL1Gas 0 0 /\ data_availability (execution_resources r) = MkL1Gas 7 8.
Proof.
  eexists _, _. split; [|split]; [apply old_receipts_lose_gas; reflexivity | reflexivity | reflexivity].
Defined.
