(* ===== verification/GasPrice.v ===== *)
(** The arithmetic of the gas price checks (crate gas-price, lib.rs and l1.rs): additions
    that panic on overflow, and the deviation of two prices in double precision. *)

From Stdlib Require Import ZArith Lia Bool List SpecFloat.
From stdpp Require Import list.
From S2P Require Import Prelude.
Local Open Scope Z_scope.

Abbreviation U64_MAX := 18446744073709551615.
Abbreviation U128_MAX := 340282366920938463463374607431768211455.

(** Additions panic on overflow, in release builds too. *)
Definition add_u64 (a b : Z) : outcome Z := if a + b <=? U64_MAX then Ret (a + b) else Panic.
Definition add_u128 (a b : Z) : outcome Z := if a + b <=? U128_MAX then Ret (a + b) else Panic.
Definition sub_u128 (a b : Z) : outcome Z := if b <=? a then Ret (a - b) else Panic.
Definition mul_u128 (a b : Z) : outcome Z := if a * b <=? U128_MAX then Ret (a * b) else Panic.

Definition div_u128 (a b : Z) : outcome Z := if b =? 0 then Panic else Ret (a / b).

(** [L1BlockNumber::new_or_panic] *)
Abbreviation I64_MAX := 9223372036854775807.
Definition new_or_panic (val : Z) : outcome Z := if val <=? I64_MAX then Ret val else Panic.

(** ** Code: double precision *)

Abbreviation f64 := spec_float.
Definition f64_of (n : Z) : f64 := binary_normalize 53 1024 n 0 false.
Definition f64_gt (a b : f64) : bool := SFltb b a.

(** 0.20 and 0.10 *)
Definition F64_0_20 : f64 := S754_finite false 7205759403792794 (-55).
Definition F64_0_10 : f64 := S754_finite false 7205759403792794 (-56).

Definition deviation_pct (proposed expected : Z) : f64 :=
  if expected =? 0 then (if proposed =? 0 then S754_zero false else S754_infinity false)
  else SFdiv 53 1024 (SFabs (SFsub 53 1024 (f64_of proposed) (f64_of expected))) (f64_of expected).

(** ** Facts: the tolerance *)

Lemma sub_self x : SFsub 53 1024 x x = S754_nan \/ SFsub 53 1024 x x = S754_zero false.
Proof.
  destruct x as [s|s| |s m e]; cbn [SFsub]; try (destruct s; cbn; now (left + right)); try now left.
  rewrite Z.sub_diag. now right.
Qed.

Lemma deviation_self n : deviation_pct n n = S754_nan \/ exists s, deviation_pct n n = S754_zero s.
Proof.
  unfold deviation_pct. destruct (n =? 0); [right; now exists false|].
  destruct (sub_self (f64_of n)) as [-> | ->]; destruct (f64_of n) as [s|s| |s m e]; cbn; eauto.
Qed.

(** A tolerance that is not below zero. *)
Definition tolerance_ok (t : f64) : Prop := SFltb t (S754_zero false) = false.

Lemma self_within t n : tolerance_ok t -> f64_gt (deviation_pct n n) t = false.
Proof.
  unfold f64_gt, tolerance_ok. intros H. destruct (deviation_self n) as [-> | [s ->]].
  - now destruct t as [?|[]| |[] ? ?].
  - destruct t as [?|[]| |[] ? ?]; (reflexivity || exact H).
Qed.

(** * The L1 gas prices (gas-price/src/l1.rs and l1_to_fri.rs): the ring buffer of
    samples, its rolling average and the checks against it. *)

(** ** Code: L1 prices *)

Record L1GasPriceConfig : Type := MkConfig {
  storage_limit : nat;
  blocks_for_mean : nat;
  lag_margin_seconds : Z;
  max_time_gap_seconds : Z;
  tolerance : f64
}.

Definition default_config : L1GasPriceConfig := MkConfig 1000 100 300 600 F64_0_20.

Record L1GasPriceData : Type := MkData {
  block_number : Z;
  block_hash : list Z;
  parent_hash : list Z;
  timestamp : Z;
  base_fee_per_gas : Z;
  blob_fee : Z
}.

Inductive L1GasPriceValidationError : Type :=
| BaseFeeDeviation (proposed expected : Z)
| BlobFeeDeviation (proposed expected : Z)
| StaleData (latest_timestamp requested_timestamp max_gap : Z)
| NoDataAvailable (timestamp lag_seconds : Z).

Inductive L1GasPriceValidationResult : Type :=
| Valid
| Invalid (e : L1GasPriceValidationError)
| InsufficientData.

Inductive AddSampleError : Type :=
| Gap (expected actual : Z)
| Reorg (block_number : Z) (expected_parent actual_parent : list Z).

(** [VecDeque<L1GasPriceData>], from the front to the back. *)
Abbreviation buffer := (list L1GasPriceData).

Section Provider.
Context (config : L1GasPriceConfig).

Definition is_ready (self : buffer) : bool := (0 <? length self)%nat.
Definition latest_block_number (self : buffer) : option Z := block_number <$> last self.

Definition push_sample (data : L1GasPriceData) (self : buffer) : buffer :=
  (if (storage_limit config <=? length self)%nat then drop 1 self else self) ++ [data].

Definition add_sample (data : L1GasPriceData) (self : buffer) : outcome (result AddSampleError buffer) :=
  match last self with
  | Some last =>
      let! next := add_u64 (block_number last) 1 in
      let! expected := new_or_panic next in
      if negb (block_number data =? expected) then Ret (Err (Gap expected (block_number data)))
      else if negb (bool_decide (parent_hash data = block_hash last))
      then Ret (Err (Reorg (block_number data) (block_hash last) (parent_hash data)))
      else Ret (Ok (push_sample data self))
  | None => Ret (Ok (push_sample data self))
  end.

(** The samples before an error stay. *)
Fixpoint add_samples (samples : list L1GasPriceData) (self : buffer) : outcome (result AddSampleError unit * buffer) :=
  match samples with
  | [] => Ret (Ok tt, self)
  | sample :: samples =>
      let! added := add_sample sample self in
      match added with
      | Ok self => add_samples samples self
      | Err e => Ret (Err e, self)
      end
  end.

Definition clear (self : buffer) : buffer := [].

(** [rposition(|data| data.timestamp <= target)] plus one. *)
Fixpoint samples_until (target : Z) (self : buffer) : nat :=
  match self with
  | [] => 0
  | data :: self' =>
      match samples_until target self' with
      | O => if timestamp data <=? target then 1 else 0
      | n => S n
      end
  end.

Definition saturating_sum (fee : L1GasPriceData -> Z) (samples : buffer) : Z :=
  fold_left (fun sum data => Z.min (sum + fee data) U128_MAX) samples 0.

(** [buffer.range(first_index..last_index)] *)
Definition window (last_index : nat) (self : buffer) : buffer :=
  let first_index := (last_index - blocks_for_mean config)%nat in take (last_index - first_index) (drop first_index self).

Definition get_average_prices (time : Z) (self : buffer) : outcome (result L1GasPriceValidationError (Z * Z)) :=
  match last self with
  | None => Ret (Err (NoDataAvailable time (lag_margin_seconds config)))
  | Some latest =>
      let! limit := add_u64 (timestamp latest) (max_time_gap_seconds config) in
      if limit <? time then Ret (Err (StaleData (timestamp latest) time (max_time_gap_seconds config)))
      else
        let target_timestamp := Z.max 0 (time - lag_margin_seconds config) in
        match samples_until target_timestamp self with
        | O => Ret (Err (NoDataAvailable time (lag_margin_seconds config)))
        | last_index =>
            let samples := window last_index self in
            let actual_count := Z.of_nat (last_index - (last_index - blocks_for_mean config)) in
            if actual_count =? 0 then Ret (Err (NoDataAvailable time (lag_margin_seconds config)))
            else Ret (Ok (saturating_sum base_fee_per_gas samples / actual_count, saturating_sum blob_fee samples / actual_count))
        end
  end.

Definition validate (time proposed_base_fee proposed_blob_fee : Z) (self : buffer) : outcome L1GasPriceValidationResult :=
  if negb (is_ready self) then Ret InsufficientData
  else
    let! prices := get_average_prices time self in
    match prices with
    | Err _ => Ret InsufficientData
    | Ok (avg_base_fee, avg_blob_fee) =>
        if f64_gt (deviation_pct proposed_base_fee avg_base_fee) (tolerance config)
        then Ret (Invalid (BaseFeeDeviation proposed_base_fee avg_base_fee))
        else if f64_gt (deviation_pct proposed_blob_fee avg_blob_fee) (tolerance config)
        then Ret (Invalid (BlobFeeDeviation proposed_blob_fee avg_blob_fee))
        else Ret Valid
    end.
End Provider.

(** L1 prices in FRI: the oracle is a parameter. *)
Inductive L1ToFriValidationResult : Type :=
| FriValid
| InvalidFriDeviation (proposed_fri expected_fri : Z)
| FriInsufficientData.

Definition validate_fri (config : L1GasPriceConfig) (max_fri_deviation : f64) (wei_to_fri : Z -> Z -> option Z)
    (time proposed_gas proposed_data_gas : Z) (self : buffer) : outcome L1ToFriValidationResult :=
  let! prices := get_average_prices config time self in
  match prices with
  | Err _ => Ret FriInsufficientData
  | Ok (base_wei, blob_wei) =>
      match wei_to_fri base_wei time with
      | None => Ret FriInsufficientData
      | Some base_fri =>
          match wei_to_fri blob_wei time with
          | None => Ret FriInsufficientData
          | Some blob_fri =>
              if f64_gt (deviation_pct proposed_gas base_fri) max_fri_deviation then Ret (InvalidFriDeviation proposed_gas base_fri)
              else if f64_gt (deviation_pct proposed_data_gas blob_fri) max_fri_deviation
              then Ret (InvalidFriDeviation proposed_data_gas blob_fri)
              else Ret FriValid
          end
      end
  end.

(** ** Facts: the buffer *)

(** The samples are consecutive blocks of one chain. *)
Definition linked (self : buffer) : Prop :=
  forall i x y, self !! i = Some x -> self !! S i = Some y -> block_number y = block_number x + 1 /\ parent_hash y = block_hash x.

Definition buffer_ok (config : L1GasPriceConfig) (self : buffer) : Prop :=
  linked self /\ (length self <= Nat.max 1 (storage_limit config))%nat.

Lemma linked_drop n self : linked self -> linked (drop n self).
Proof. intros L i x y Ex Ey. rewrite lookup_drop in Ex, Ey. apply (L (n + i)%nat); [exact Ex | now rewrite Nat.add_succ_r in Ey]. Qed.

Lemma linked_snoc self data : linked self ->
  (forall x, last self = Some x -> block_number data = block_number x + 1 /\ parent_hash data = block_hash x) -> linked (self ++ [data]).
Proof.
  intros L H i x y Ex Ey. apply lookup_app_Some in Ey as [Ey|[Ly Ey]].
  - apply (L i); [|exact Ey]. rewrite lookup_app_l in Ex; [exact Ex|]. apply lookup_lt_Some in Ey. lia.
  - apply list_lookup_singleton_Some in Ey as [Ey <-]. apply H. rewrite last_lookup. rewrite lookup_app_l in Ex by lia.
    now replace (pred (length self)) with i by lia.
Qed.

Lemma push_sample_ok config data self : buffer_ok config self ->
  (forall x, last self = Some x -> block_number data = block_number x + 1 /\ parent_hash data = block_hash x) ->
  buffer_ok config (push_sample config data self).
Proof.
  intros [L B] H. unfold push_sample. destruct (Nat.leb_spec (storage_limit config) (length self)) as [Le|Le]; split.
  - apply linked_snoc; [now apply linked_drop|]. intros x Ex. apply H. destruct self as [|y [|z self]]; try discriminate.
    cbn [drop] in Ex. exact Ex.
  - rewrite length_app, length_drop. cbn [length]. lia.
  - now apply linked_snoc.
  - rewrite length_app. cbn [length]. lia.
Qed.

Lemma add_sample_ok config data self : buffer_ok config self -> Forall (fun d => 0 <= block_number d <= I64_MAX) self ->
  match add_sample config data self with
  | Ret (Ok self') => self' = push_sample config data self /\ buffer_ok config self'
  | Ret (Err _) => True
  | Panic => exists d, d ∈ self /\ block_number d = I64_MAX
  end.
Proof.
  intros B F. unfold add_sample. destruct (last self) as [x|] eqn:E.
  - pose proof (last_Some_elem_of _ _ E) as Hx. rewrite Forall_forall in F. specialize (F x Hx).
    unfold add_u64. rewrite (proj2 (Z.leb_le _ _)) by lia. cbn [bind_outcome]. unfold new_or_panic.
    destruct (Z.leb_spec (block_number x + 1) I64_MAX) as [Le|Le]; cbn [bind_outcome]; [|exists x; split; [exact Hx | lia]].
    destruct (Z.eqb_spec (block_number data) (block_number x + 1)) as [En|]; cbn [negb]; [|exact I].
    destruct (bool_decide (parent_hash data = block_hash x)) eqn:Eh; cbn [negb]; [|exact I]. apply bool_decide_eq_true_1 in Eh.
    split; [reflexivity|]. apply push_sample_ok; [exact B|]. intros y Ey. rewrite E in Ey. now injection Ey as <-.
  - split; [reflexivity|]. apply push_sample_ok; [exact B|]. intros y Ey. congruence.
Qed.

Lemma push_forall (P : L1GasPriceData -> Prop) config data self : P data -> Forall P self -> Forall P (push_sample config data self).
Proof.
  intros Hd F. unfold push_sample. apply Forall_app. split; [|now repeat constructor].
  destruct (_ <=? _)%nat; [now apply Forall_drop | exact F].
Qed.

(** ** Facts: the window of an average *)

Lemma samples_until_spec target self : 
  match samples_until target self with
  | O => Forall (fun d => target < timestamp d) self
  | S n => exists d, self !! n = Some d /\ timestamp d <= target /\ Forall (fun d => target < timestamp d) (drop (S n) self)
  end.
Proof.
  induction self as [|x self IH]; cbn [samples_until]; [constructor|]. destruct (samples_until target self) as [|n].
  - destruct (Z.leb_spec (timestamp x) target) as [L|L].
    + exists x. split; [reflexivity|]. split; [exact L|]. exact IH.
    + now constructor.
  - exact IH.
Qed.

Lemma saturating_sum_bounds (fee : L1GasPriceData -> Z) lo hi samples : forall sum,
  Forall (fun d => 0 <= lo <= fee d /\ fee d <= hi) samples -> 0 <= sum -> sum + Z.of_nat (length samples) * hi <= U128_MAX ->
  sum + Z.of_nat (length samples) * lo
    <= fold_left (fun sum data => Z.min (sum + fee data) U128_MAX) samples sum <= sum + Z.of_nat (length samples) * hi.
Proof.
  induction samples as [|d samples IH]; intros sum F Hs Hb; cbn [fold_left length] in *; [lia|].
  apply Forall_cons in F as [[Fl Fh] F]. rewrite Z.min_l by nia. specialize (IH (sum + fee d) F ltac:(lia) ltac:(nia)). nia.
Qed.

Lemma average_bounds (fee : L1GasPriceData -> Z) lo hi samples : samples <> [] -> Forall (fun d => 0 <= lo <= fee d /\ fee d <= hi) samples ->
  Z.of_nat (length samples) * hi <= U128_MAX -> lo <= saturating_sum fee samples / Z.of_nat (length samples) <= hi.
Proof.
  intros Ne F Hb. unfold saturating_sum. pose proof (saturating_sum_bounds fee lo hi samples 0 F ltac:(lia) ltac:(lia)) as S.
  assert (0 < Z.of_nat (length samples)) by (destruct samples; [easy | cbn [length]; lia]). split.
  - apply Z.div_le_lower_bound; lia.
  - apply Z.div_le_upper_bound; lia.
Qed.

(** ** Properties *)

(** C31: The buffer of L1 prices is a chain: whatever samples are added, what is
    kept are consecutive blocks, each with the hash of its predecessor as parent
    hash, and at most [storage_limit] of them; a gap or a reorg is refused and
    changes nothing further; adding panics only after block [2 ^ 63 - 1]. *)
Theorem l1_buffer_chain config samples : forall self, buffer_ok config self ->
  Forall (fun d => 0 <= block_number d <= I64_MAX) (self ++ samples) ->
  match add_samples config samples self with
  | Ret (_, self') => buffer_ok config self'
  | Panic => exists d, d ∈ self ++ samples /\ block_number d = I64_MAX
  end.
Proof.
  induction samples as [|sample samples IH]; intros self B F; cbn [add_samples]; [exact B|].
  apply Forall_app in F as [F1 F2]. apply Forall_cons in F2 as [Fs F2].
  pose proof (add_sample_ok config sample self B F1) as A. destruct (add_sample config sample self) as [[self'|e]|]; cbn [bind_outcome].
  - destruct A as [E B']. assert (F' : Forall (fun d => 0 <= block_number d <= I64_MAX) (self' ++ samples)).
    { apply Forall_app. split; [subst self'; now apply push_forall | exact F2]. }
    specialize (IH self' B' F'). destruct (add_samples config samples self') as [[r self2]|]; [exact IH|].
    destruct IH as (d & Hd & En). exists d. split; [|exact En]. apply elem_of_app in Hd as [Hd|Hd].
    + subst self'. unfold push_sample in Hd. apply elem_of_app in Hd as [Hd|Hd].
      * apply elem_of_app. left. destruct (_ <=? _)%nat; [|exact Hd]. rewrite <- (take_drop 1 self). apply elem_of_app. now right.
      * apply list_elem_of_singleton in Hd as ->. apply elem_of_app. right. left.
    + apply elem_of_app. right. now right.
  - exact B.
  - destruct A as (d & Hd & En). exists d. split; [apply elem_of_app; now left | exact En].
Qed.

Definition sample (n time fee : Z) : L1GasPriceData := MkData n [n] [n - 1] time fee (2 * fee).

Lemma l1_buffer_chain_witness :
  match add_samples default_config [sample 1 10 7; sample 2 20 9] [sample 0 0 5] with
  | Ret (_, self') => buffer_ok default_config self'
  | Panic => exists d, d ∈ [sample 0 0 5] ++ [sample 1 10 7; sample 2 20 9] /\ block_number d = I64_MAX
  end.
Proof.
  apply (l1_buffer_chain default_config [sample 1 10 7; sample 2 20 9] [sample 0 0 5]).
  - split; [|cbn; lia]. intros i x y Ex Ey. destruct i; discriminate.
  - repeat constructor; cbn; lia.
Defined.

(** The rolling average is an average of the right samples: it is taken
    over the last [blocks_for_mean] samples up to the latest one that is at least
    the lag older than the requested time, and lies between the lowest and the
    highest fee of them, as long as the sum stays below [2 ^ 128]. *)
Theorem l1_average_bounds config time self base blob lo hi :
  get_average_prices config time self = Ret (Ok (base, blob)) ->
  Forall (fun d => 0 <= lo <= base_fee_per_gas d /\ base_fee_per_gas d <= hi) self -> Z.of_nat (length self) * hi <= U128_MAX -> 0 <= hi ->
  lo <= base <= hi /\
  exists n d, self !! n = Some d /\ timestamp d <= Z.max 0 (time - lag_margin_seconds config) /\
    Forall (fun d => Z.max 0 (time - lag_margin_seconds config) < timestamp d) (drop (S n) self) /\
    base = saturating_sum base_fee_per_gas (window config (S n) self) / Z.of_nat (length (window config (S n) self)).
Proof.
  unfold get_average_prices. destruct (last self) as [latest|]; [|discriminate].
  destruct (add_u64 _ _) as [limit|]; [|discriminate]. cbn [bind_outcome]. destruct (limit <? time); [discriminate|]. cbv zeta.
  set (target := Z.max 0 (time - lag_margin_seconds config)). pose proof (samples_until_spec target self) as U.
  destruct (samples_until target self) as [|n]; [discriminate|]. destruct U as (d & Ed & Ht & Fd).
  destruct (Z.eqb_spec (Z.of_nat (S n - (S n - blocks_for_mean config))) 0) as [|Nz]; [discriminate|].
  intros [= <- <-] F Hb Hh. pose proof (lookup_lt_Some _ _ _ Ed) as Ln.
  assert (Lw : length (window config (S n) self) = (S n - (S n - blocks_for_mean config))%nat).
  { unfold window. rewrite length_take, length_drop. lia. }
  rewrite <- Lw in Nz |- *. split; [|exists n, d; auto].
  apply average_bounds; [intros E; rewrite E in Nz; now cbn in Nz | | ].
  - unfold window. now apply Forall_take, Forall_drop.
  - assert (length (window config (S n) self) <= length self)%nat by lia. nia.
Qed.

Lemma l1_average_bounds_witness :
  5 <= 8 <= 9 /\
  exists n d, [sample 0 0 5; sample 1 10 7; sample 2 20 9] !! n = Some d /\ timestamp d <= Z.max 0 (25 - 5) /\
    Forall (fun d => Z.max 0 (25 - 5) < timestamp d) (drop (S n) [sample 0 0 5; sample 1 10 7; sample 2 20 9]) /\
    8 = saturating_sum base_fee_per_gas (window (MkConfig 10 2 5 100 F64_0_20) (S n) [sample 0 0 5; sample 1 10 7; sample 2 20 9])
      / Z.of_nat (length (window (MkConfig 10 2 5 100 F64_0_20) (S n) [sample 0 0 5; sample 1 10 7; sample 2 20 9])).
Proof.
  apply (l1_average_bounds (MkConfig 10 2 5 100 F64_0_20) 25 [sample 0 0 5; sample 1 10 7; sample 2 20 9] 8 16 5 9);
    [vm_compute; reflexivity | repeat constructor; cbn; lia | cbn; lia | lia].
Defined.

(** The proposer's own average is accepted. *)
Theorem l1_own_price_valid config time self base blob : tolerance_ok (tolerance config) ->
  get_average_prices config time self = Ret (Ok (base, blob)) -> validate config time base blob self = Ret Valid.
Proof.
  intros T E. unfold validate. assert (R : is_ready self = true) by (destruct self; [discriminate | reflexivity]).
  rewrite R, E. cbn [negb bind_outcome]. now rewrite !self_within.
Qed.
