(* ===== verification/L2GasPrice.v ===== *)
(** The L2 gas price (gas-price/src/l2.rs): the price of the next block and the
    provider that checks it. *)

From Stdlib Require Import ZArith Lia Bool List SpecFloat.
From stdpp Require Import list.
From S2P Require Import Prelude Felt Hashing GasPrice.
Local Open Scope Z_scope.

(** ** Code: the L2 price *)

Record L2GasPriceConstants : Type := MkConstants {
  gas_price_max_change_denominator : Z;
  gas_target : Z;
  max_block_size : Z;
  min_gas_price : Z
}.

Definition PRE_0_14_1 : L2GasPriceConstants := MkConstants 48 3200000000 4000000000 3000000000.
Definition POST_0_14_1 : L2GasPriceConstants := MkConstants 48 4000000000 5000000000 8000000000.

Definition for_version (version : StarknetVersion) : L2GasPriceConstants :=
  if negb (version_ltb version (MkVersion 0 14 1 0)) then POST_0_14_1 else PRE_0_14_1.

Definition MIN_GAS_PRICE_INCREASE_DENOMINATOR : Z := 333.

Definition calculate_next_base_gas_price (price gas_used min_gas_price : Z) (constants : L2GasPriceConstants) : outcome Z :=
  if price <? min_gas_price then
    let max_increase := price / MIN_GAS_PRICE_INCREASE_DENOMINATOR in
    let! adjusted := add_u128 price max_increase in
    Ret (Z.min adjusted min_gas_price)
  else
    let gas_target := gas_target constants in
    let gas_delta := Z.abs (gas_used - gas_target) in
    if U128_MAX <? price * gas_delta then
      let! change := div_u128 price (gas_price_max_change_denominator constants) in
      if gas_target <? gas_used then Ret (Z.min (price + change) U128_MAX)
      else Ret (Z.max (Z.max 0 (price - change)) min_gas_price)
    else
      let! denominator := mul_u128 gas_target (gas_price_max_change_denominator constants) in
      let! price_change := div_u128 (price * gas_delta) denominator in
      let! adjusted := if gas_target <? gas_used then add_u128 price price_change else sub_u128 price price_change in
      Ret (Z.max adjusted min_gas_price).

Inductive L2GasPriceValidationResult : Type :=
| Valid
| Invalid (proposed expected : Z)
| InsufficientData.

(** The state of [L2GasPriceProvider]. *)
Definition update_after_block (l2_gas_price_fri l2_gas_consumed : Z) (constants : L2GasPriceConstants) (self : option Z)
    : outcome (option Z) :=
  let! next_price := calculate_next_base_gas_price l2_gas_price_fri l2_gas_consumed (min_gas_price constants) constants in
  Ret (Some next_price).

Definition validate (proposed : Z) (self : option Z) : L2GasPriceValidationResult :=
  match self with
  | None => InsufficientData
  | Some expected => if proposed =? expected then Valid else Invalid proposed expected
  end.

(** ** Properties *)

(** The constants of a version. *)
Lemma for_version_cases v : for_version v = POST_0_14_1 \/ for_version v = PRE_0_14_1.
Proof. unfold for_version. destruct (negb _); auto. Qed.

Lemma change_bound price delta target : 0 <= price -> 0 <= delta <= target -> 0 < target ->
  0 <= price * delta / (target * 48) <= price / 48.
Proof.
  intros Hp Hd Ht. split; [apply Z.div_pos; nia|]. rewrite <- Z.div_div by lia.
  apply Z.div_le_mono; [lia|]. apply Z.div_le_upper_bound; nia.
Qed.

(** C32: The L2 price moves within its bounds: for the constants of any version,
    a price up to [2 ^ 127] and a block of at most the maximal size, the next
    price is computed without overflow; it differs from the price by at most a
    48th and is not below the minimum; below the minimum it rises by at most a
    333rd and not above the minimum. *)
Theorem l2_price_bounds v price gas_used : let c := for_version v in
  0 <= price <= 2 ^ 127 -> 0 <= gas_used <= max_block_size c ->
  exists next, calculate_next_base_gas_price price gas_used (min_gas_price c) c = Ret next /\
    (min_gas_price c <= price -> min_gas_price c <= next /\ Z.abs (next - price) <= price / 48) /\
    (price < min_gas_price c -> price <= next <= min_gas_price c /\ next <= price + price / 333).
Proof.
  intros c Hp Hg.
  assert (C : gas_price_max_change_denominator c = 48 /\ 0 < gas_target c <= 4000000000 /\
    max_block_size c <= 2 * gas_target c /\ 0 <= min_gas_price c <= 8000000000).
  { unfold c. destruct (for_version_cases v) as [-> | ->]; cbn; lia. }
  destruct C as (C48 & Ct & Cm & Cn). unfold calculate_next_base_gas_price, MIN_GAS_PRICE_INCREASE_DENOMINATOR.
  assert (D48 : 0 <= price / 48) by (apply Z.div_pos; lia). pose proof (Z.mul_div_le price 48 ltac:(lia)) as M48.
  assert (D333 : 0 <= price / 333 <= price) by (split; [apply Z.div_pos; lia | apply Z.div_le_upper_bound; lia]).
  destruct (Z.ltb_spec price (min_gas_price c)) as [L|L].
  - unfold add_u128. rewrite (proj2 (Z.leb_le _ _)) by lia. cbn [bind_outcome]. eexists. split; [reflexivity|]. lia.
  - cbv zeta. rewrite C48. assert (Hd : 0 <= Z.abs (gas_used - gas_target c) <= gas_target c) by lia.
    pose proof (change_bound price _ _ (proj1 Hp) Hd (proj1 Ct)) as B.
    destruct (Z.ltb_spec U128_MAX (price * Z.abs (gas_used - gas_target c))) as [O|O].
    + unfold div_u128. cbn [Z.eqb bind_outcome]. destruct (_ <? gas_used); eexists; (split; [reflexivity|]); lia.
    + unfold mul_u128. rewrite (proj2 (Z.leb_le _ _)) by lia. cbn [bind_outcome]. unfold div_u128.
      rewrite (proj2 (Z.eqb_neq _ _)) by lia. cbn [bind_outcome]. unfold add_u128, sub_u128. destruct (_ <? gas_used).
      * rewrite (proj2 (Z.leb_le _ _)) by lia. cbn [bind_outcome]. eexists. split; [reflexivity|]. lia.
      * rewrite (proj2 (Z.leb_le _ _)) by lia. cbn [bind_outcome]. eexists. split; [reflexivity|]. lia.
Qed.

Lemma l2_price_bounds_witness :
  exists next, calculate_next_base_gas_price 9000000000 4500000000 8000000000 POST_0_14_1 = Ret next /\
    (8000000000 <= 9000000000 -> 8000000000 <= next /\ Z.abs (next - 9000000000) <= 9000000000 / 48) /\
    (9000000000 < 8000000000 -> 9000000000 <= next <= 8000000000 /\ next <= 9000000000 + 9000000000 / 333).
Proof. apply (l2_price_bounds (MkVersion 0 14 1 0) 9000000000 4500000000); cbn; lia. Defined.

(** The price after a number of blocks, each with its gas. *)
Fixpoint prices_after (c : L2GasPriceConstants) (price : Z) (used : list Z) : outcome Z :=
  match used with
  | [] => Ret price
  | gas :: used =>
      let! next := calculate_next_base_gas_price price gas (min_gas_price c) c in
      prices_after c next used
  end.

(** One block below the minimum. *)
Lemma step_below v price gas : let c := for_version v in 0 <= price < min_gas_price c ->
  calculate_next_base_gas_price price gas (min_gas_price c) c = Ret (Z.min (price + price / 333) (min_gas_price c)).
Proof.
  intros c Hp. assert (Cn : min_gas_price c <= 8000000000) by (unfold c; destruct (for_version_cases v) as [-> | ->]; cbn; lia).
  unfold calculate_next_base_gas_price, MIN_GAS_PRICE_INCREASE_DENOMINATOR.
  assert (D333 : 0 <= price / 333 <= price) by (split; [apply Z.div_pos; lia | apply Z.div_le_upper_bound; lia]).
  rewrite (proj2 (Z.ltb_lt _ _)) by lia. unfold add_u128. now rewrite (proj2 (Z.leb_le _ _)) by lia.
Qed.

(** C33: A price below the minimum recovers: from a price of at least 333 the
    minimum is reached within [min - price] blocks, whatever gas they use; a
    price below 333 never changes. *)
Theorem l2_price_recovers v : let c := for_version v in forall used price, 0 <= price < min_gas_price c ->
  (333 <= price -> min_gas_price c - price <= Z.of_nat (length used) ->
   exists n, (n <= length used)%nat /\ prices_after c price (take n used) = Ret (min_gas_price c)) /\
  (price < 333 -> prices_after c price used = Ret price).
Proof.
  intros c. induction used as [|gas used IH]; intros price Hp; [split; [intros _ Hl; cbn [length] in Hl; lia | reflexivity]|].
  pose proof (step_below v price gas Hp) as St. fold c in St. split.
  - intros H3 Hl. assert (D : 1 <= price / 333) by (apply Z.div_le_lower_bound; lia).
    destruct (Z.lt_ge_cases (price + price / 333) (min_gas_price c)) as [L|L].
    + rewrite Z.min_l in St by lia. destruct (IH (price + price / 333)) as [IH1 _]; [lia|].
      destruct IH1 as (n & Hn & E); [lia | cbn [length] in Hl; lia |]. exists (S n). split; [cbn [length]; lia|].
      cbn [take prices_after]. now rewrite St.
    + rewrite Z.min_r in St by lia. exists 1%nat. split; [cbn [length]; lia|]. cbn [take prices_after]. rewrite St. cbn [bind_outcome].
      destruct used; reflexivity.
  - intros H3. rewrite Z.div_small, Z.add_0_r, Z.min_l in St by lia. cbn [prices_after]. rewrite St. cbn [bind_outcome]. now apply IH.
Qed.

Lemma l2_price_recovers_witness :
  (333 <= 7999999999 -> 8000000000 - 7999999999 <= 1 ->
   exists n, (n <= 1)%nat /\ prices_after POST_0_14_1 7999999999 (take n [5]) = Ret 8000000000) /\
  (7999999999 < 333 -> prices_after POST_0_14_1 7999999999 [5] = Ret 7999999999).
Proof. apply (l2_price_recovers (MkVersion 0 14 1 0) [5] 7999999999). cbn. lia. Defined.
