(* ===== verification/Proposal.v ===== *)
(** The order of the parts of a consensus proposal
    (pathfinder/src/consensus/proposal_validator.rs). *)

From Stdlib Require Import ZArith Lia Bool List.
From stdpp Require Import list.
From S2P Require Import Prelude Felt.
Local Open Scope Z_scope.

(** ** Code *)

Section Code.
(** A transaction of a batch. *)
Context {Tx : Type}.

Record ProposalInit : Type := MkInit { proposer : Felt; init_valid_round : option Z }.

Inductive ProposalPart : Type :=
| Init (init : ProposalInit)
| TransactionBatch (batch : list Tx)
| Fin.

Record ProposalPartsValidator : Type := MkValidator {
  parts : list ProposalPart;
  has_init : bool;
  has_fin : bool;
  transaction_batch_count : nat;
  proposer_address : option Felt;
  valid_round : option Z
}.

Inductive ValidationResult : Type := Accepted | EmptyProposal | NonEmptyProposal.

(** [ProposalError::UnexpectedProposalPart] with the position in its message. *)
Inductive ProposalError : Type :=
| UnexpectedInit (position : nat)
| UnexpectedBatch
| EmptyBatch (position : nat)
| DuplicateFin
| UnexpectedFin (position : nat).

Definition validator_new : ProposalPartsValidator := MkValidator [] false false 0 None None.

Definition accept_init (init : ProposalInit) (self : ProposalPartsValidator)
    : result ProposalError (ValidationResult * ProposalPartsValidator) :=
  match parts self with
  | _ :: _ => Err (UnexpectedInit (length (parts self)))
  | [] =>
      Ok (Accepted, MkValidator (parts self ++ [Init init]) true (has_fin self) (transaction_batch_count self)
                      (Some (proposer init)) (init_valid_round init))
  end.

Definition accept_transaction_batch (batch : list Tx) (self : ProposalPartsValidator)
    : result ProposalError (ValidationResult * ProposalPartsValidator) :=
  match parts self with
  | [] => Err UnexpectedBatch
  | _ =>
      match batch with
      | [] => Err (EmptyBatch (length (parts self)))
      | _ =>
          Ok (Accepted, MkValidator (parts self ++ [TransactionBatch batch]) (has_init self) (has_fin self)
                          (transaction_batch_count self + 1) (proposer_address self) (valid_round self))
      end
  end.

Definition push_fin (self : ProposalPartsValidator) : ProposalPartsValidator :=
  MkValidator (parts self ++ [Fin]) (has_init self) true (transaction_batch_count self) (proposer_address self) (valid_round self).

Definition accept_fin (self : ProposalPartsValidator) : result ProposalError (ValidationResult * ProposalPartsValidator) :=
  if has_fin self then Err DuplicateFin
  else if (length (parts self) =? 1)%nat && has_init self then Ok (EmptyProposal, push_fin self)
  else if (2 <=? length (parts self))%nat && has_init self then Ok (NonEmptyProposal, push_fin self)
  else Err (UnexpectedFin (length (parts self))).

Definition accept_part (part : ProposalPart) (self : ProposalPartsValidator)
    : result ProposalError (ValidationResult * ProposalPartsValidator) :=
  match part with
  | Init init => accept_init init self
  | TransactionBatch batch => accept_transaction_batch batch self
  | Fin => accept_fin self
  end.

(** ** Sequences of parts *)

(** All parts are accepted, in order. *)
Fixpoint accept_all (ps : list ProposalPart) (self : ProposalPartsValidator) : option (list ValidationResult * ProposalPartsValidator) :=
  match ps with
  | [] => Some ([], self)
  | p :: ps =>
      match accept_part p self with
      | Ok (r, self) =>
          match accept_all ps self with
          | Some (rs, self) => Some (r :: rs, self)
          | None => None
          end
      | Err _ => None
      end
  end.

Definition is_fin (p : ProposalPart) : bool := match p with Fin => true | _ => false end.

(** A part that may follow the first: a batch that is not empty, or Fin. *)
Definition follows (p : ProposalPart) : bool :=
  match p with
  | Init _ => false
  | TransactionBatch batch => match batch with [] => false | _ => true end
  | Fin => true
  end.

(** The sequences that are accepted: Init, then batches and at most one Fin. *)
Definition accepted_order (ps : list ProposalPart) : Prop :=
  match ps with
  | [] => True
  | Init _ :: rest => forallb follows rest = true /\ (length (List.filter is_fin rest) <= 1)%nat
  | _ => False
  end.

(** The documented order. *)
Definition documented_order (ps : list ProposalPart) : Prop :=
  exists init batches, Forall (fun b => b <> []) batches /\
    (ps = Init init :: map TransactionBatch batches \/ ps = Init init :: map TransactionBatch batches ++ [Fin]).

(** The state after Init and [rest]. *)
Definition started (init : ProposalInit) (rest : list ProposalPart) (v : ProposalPartsValidator) : Prop :=
  parts v = Init init :: rest /\ has_init v = true /\ has_fin v = existsb is_fin rest /\
  proposer_address v = Some (proposer init) /\ valid_round v = init_valid_round init /\
  transaction_batch_count v = length (List.filter (fun p => negb (is_fin p)) rest).

Lemma filter_none (rest : list ProposalPart) : existsb is_fin rest = false -> length (List.filter is_fin rest) = 0%nat.
Proof.
  induction rest as [|p rest IH]; [reflexivity|]. cbn. destruct (is_fin p); [discriminate | exact IH].
Qed.

Lemma filter_some (rest : list ProposalPart) : existsb is_fin rest = true -> (1 <= length (List.filter is_fin rest))%nat.
Proof.
  induction rest as [|p rest IH]; [discriminate|]. cbn. destruct (is_fin p); cbn; [lia | exact IH].
Qed.

Lemma accept_next init rest v p : started init rest v -> follows p = true -> (is_fin p = true -> existsb is_fin rest = false) ->
  exists r v', accept_part p v = Ok (r, v') /\ started init (rest ++ [p]) v'.
Proof.
  intros (Ep & Ei & Ef & Ea & Er & Et) Hf Hn. assert (Ex : existsb is_fin (rest ++ [p]) = existsb is_fin rest || is_fin p).
  { rewrite existsb_app. cbn. now rewrite orb_false_r. }
  destruct p as [i|batch|]; [discriminate | |]; cbn [accept_part].
  - unfold accept_transaction_batch. rewrite Ep. destruct batch as [|t batch]; [discriminate|]. eexists _, _. split; [reflexivity|].
    repeat split; cbn; try assumption; [now rewrite Ex, orb_false_r|]. rewrite List.filter_app, length_app. cbn. lia.
  - unfold accept_fin. rewrite Ef, (Hn eq_refl), Ep, Ei. cbn [length]. rewrite !andb_true_r.
    assert (S : started init (rest ++ [Fin]) (push_fin v)).
    { unfold started, push_fin. cbn [parts has_init has_fin proposer_address valid_round transaction_batch_count].
      rewrite Ep, Ex, orb_true_r, List.filter_app, length_app. cbn. rewrite Et. repeat split; try assumption. lia. }
    destruct rest as [|q rest]; cbn [length Nat.eqb Nat.leb]; eexists _, _; (split; [reflexivity | exact S]).
Qed.

Lemma reject_next init rest v p : started init rest v -> follows p = false \/ (is_fin p = true /\ existsb is_fin rest = true) ->
  exists e, accept_part p v = Err e.
Proof.
  intros (Ep & Ei & Ef & _) H. destruct p as [i|batch|]; cbn [accept_part].
  - unfold accept_init. rewrite Ep. now eexists.
  - unfold accept_transaction_batch. rewrite Ep. destruct batch; [now eexists|]. destruct H as [H|[H _]]; discriminate.
  - unfold accept_fin. destruct H as [H|[_ H]]; [discriminate|]. rewrite Ef, H. now eexists.
Qed.

Lemma accept_rest init ps : forall rest v, started init rest v -> forallb follows rest = true -> (length (List.filter is_fin rest) <= 1)%nat ->
  (is_Some (accept_all ps v) <-> forallb follows (rest ++ ps) = true /\ (length (List.filter is_fin (rest ++ ps)) <= 1)%nat).
Proof.
  induction ps as [|p ps IH]; intros rest v S F L; cbn [accept_all].
  - rewrite app_nil_r. split; [auto | now eexists].
  - replace (rest ++ p :: ps) with ((rest ++ [p]) ++ ps) by now rewrite <- app_assoc.
    assert (Fa : forallb follows ((rest ++ [p]) ++ ps) = true -> follows p = true).
    { rewrite !forallb_app. cbn. rewrite andb_true_r. intros X. apply andb_true_iff in X as [X _]. now apply andb_true_iff in X as [_ X]. }
    assert (La : (length (List.filter is_fin ((rest ++ [p]) ++ ps)) <= 1)%nat -> is_fin p = true -> existsb is_fin rest = false).
    { rewrite !List.filter_app, !length_app. intros X Hp. cbn in X. rewrite Hp in X. cbn in X.
      destruct (existsb is_fin rest) eqn:E; [apply filter_some in E; lia | reflexivity]. }
    destruct (follows p) eqn:Ep; [destruct (is_fin p && existsb is_fin rest) eqn:En|].
    + apply andb_true_iff in En as [E1 E2]. destruct (reject_next init rest v p S (or_intror (conj E1 E2))) as [e ->].
      split; [intros [? ?]; discriminate|]. intros [_ X]. now rewrite (La X E1) in E2.
    + assert (Hn : is_fin p = true -> existsb is_fin rest = false) by (intros X; now rewrite X in En).
      destruct (accept_next init rest v p S Ep Hn) as (r & v' & -> & S'). rewrite <- (IH (rest ++ [p]) v' S').
      * destruct (accept_all ps v') as [[rs v2]|]; split; intros [? X]; (discriminate X || now eexists).
      * rewrite forallb_app, F. cbn. now rewrite Ep.
      * rewrite List.filter_app, length_app. cbn. destruct (is_fin p) eqn:Hp; cbn; [|lia]. rewrite (filter_none rest (Hn eq_refl)). lia.
    + destruct (reject_next init rest v p S (or_introl Ep)) as [e ->]. split; [intros [? ?]; discriminate|].
      intros [X _]. specialize (Fa X). congruence.
Qed.

Lemma accept_all_iff ps : is_Some (accept_all ps validator_new) <-> accepted_order ps.
Proof.
  destruct ps as [|[init|batch|] ps]; cbn [accept_all accepted_order].
  - split; [auto | now eexists].
  - cbn [accept_part accept_init validator_new parts app].
    set (v := MkValidator _ _ _ _ _ _). assert (S : started init [] v) by now repeat split.
    rewrite <- (accept_rest init ps [] v S eq_refl ltac:(cbn; lia)).
    destruct (accept_all ps v) as [[rs v2]|]; split; intros [? X]; (discriminate X || now eexists).
  - split; [intros [? X]; discriminate X | easy].
  - split; [intros [? X]; discriminate X | easy].
Qed.

(** C30: Exactly these sequences of parts are accepted: Init first and only
    once, then batches that are not empty, and at most one Fin.  Every sequence
    of the documented order (Fin is last) is one of them, and so is a batch after
    Fin, which the documented order excludes. *)
Theorem accepted_parts :
  (forall ps, is_Some (accept_all ps validator_new) <-> accepted_order ps) /\
  (forall ps, documented_order ps -> is_Some (accept_all ps validator_new)) /\
  forall init t batch, is_Some (accept_all [Init init; Fin; TransactionBatch (t :: batch)] validator_new) /\
    ~ documented_order [Init init; Fin; TransactionBatch (t :: batch)].
Proof.
  split; [exact accept_all_iff|]. split.
  - intros ps (init & batches & F & H). apply accept_all_iff.
    assert (B : forallb follows (map TransactionBatch batches) = true /\ length (List.filter is_fin (map TransactionBatch batches)) = 0%nat).
    { clear H. induction F as [|b batches Hb _ [IH1 IH2]]; [split; reflexivity|]. destruct b; [easy|]. cbn. auto. }
    destruct B as [B1 B2]. destruct H as [-> | ->]; cbn [accepted_order].
    + rewrite B1, B2. split; [reflexivity | lia].
    + rewrite forallb_app, List.filter_app, length_app, B1, B2. cbn. split; [reflexivity | lia].
  - intros init t batch. split; [now eexists|]. intros (init' & batches & F & [E|E]).
    + destruct batches; discriminate.
    + destruct batches as [|b [|b' batches]]; discriminate.
Qed.
End Code.
